(* ===== verification/_CoqProject ===== *)
-Q . S2P
Prelude.v
GoStr.v
Domain.v
Port.v
FsStorage.v
FsLaws.v
FsCrash.v
Dedupe.v
PacmanVercmp.v
TxnLog.v
CacheEngine.v
BackgroundDeletes.v
Retention.v
Eviction.v
StorageGC.v
Publish.v
HttpRange.v
Catalog.v
Sqlite.v
SqliteLaws.v
SqliteCatalog.v
SqliteSchema.v
SqliteIndex.v
Auth.v
AuthDemo.v
WebAuth.v
WebDemo.v
RateLimit.v
Keepers.v
Mirror.v
MirrorDemo.v
Scheduler.v
SchedulerDemo.v
Duration.v
RemoteText.v
RemotesIO.v
RemotesDemo.v
TaskRegistry.v
Glob.v
Adapter.v
Ecosystems.v
XbpsVersion.v
XbpsIndex.v
XbpsPackage.v
RepoWrites.v
XbpsRepo.v
XbpsDemo.v
AptStanza.v
AptPackage.v
AptRepo.v
AptMirror.v
AptDemo.v
PacmanDb.v
PacmanRepo.v
PacmanDemo.v
ApkPackage.v
ApkIndex.v
ApkRepo.v
ApkDemo.v
