(* ===== verification/Prelude.v ===== *)
(** * Khrazhevnik: a caching proxy, mirror and publisher of Linux repositories

    A verification of the core of the Go program under src/. This file is the
    root of the library; the paragraphs below describe the whole of it, the
    definitions that follow are the shared prelude.

    ** The program

    Khrazhevnik answers package managers on two ports. A request for an upstream
    repository goes to the cache engine (internal/core/engine/cache): the
    ecosystem module (internal/mod/ecosystem) classifies the path, and the engine
    serves the object from the storage (internal/mod/storage), fetches it from
    upstream, or serves a stale copy. Personal repositories are filled by the
    publisher (engine/publish) and served by the public router (core/web). Three
    passes remove objects: retention of personal repositories (engine/retention),
    eviction from the proxy cache (engine/eviction) and the sweep of orphans
    (engine/storagegc). The catalogue (internal/mod/db) holds accounts, tokens,
    repositories, upstreams, jobs, the audit log and the index of objects;
    authentication (engine/auth) and the middlewares of the web layer decide who
    may do what.

    ** The library

    Every file models the Go files it names in its own header. In order:

    - Prelude, GoStr: integers with wrap-around, times, results, the state monad
      [St] with its symbolic execution [wp], [keeps] and [moves]; the functions of
      Go's strings, strconv and unicode/utf8 that the program uses.
    - Domain, Port: internal/core/domain (errors, validators, classes, records) and
      the contracts of internal/core/port as type classes with laws
      ([StorageLaws], [ObjectIndexLaws]); the in-memory doubles of internal/testutil are
      instances. A call that reports an error may have taken place all the same;
      [Watched] adds to any index a log of the writes of which this is true.
    - FsStorage, FsLaws, FsCrash: internal/mod/storage/fs over a model of the
      system calls, in which every call may fail; it implements [Storage]
      ([FsLaws.fs_implements_Storage]), and the crash relation of FsCrash says what
      a power failure may lose.
    - Dedupe: the choice of one record for each package name. PacmanVercmp: the
      version order of pacman and its choice among the packages of an index. TxnLog:
      the ring of client transactions.
    - CacheEngine, BackgroundDeletes: the engine's request, as a function from the
      state of the storage, the index, the clock and the script of the upstream to
      a response; the counter of detached deletions.
    - Retention, Eviction, StorageGC: the three passes. Publish: uploads,
      deletion, listing, and their interleaving. HttpRange: range requests and the
      multipart writer.
    - Catalog: the catalogue's contract as relations on an abstract state, with the
      doubles. Sqlite, SqliteLaws, SqliteCatalog, SqliteSchema: the SQLite driver,
      statement by statement, its refinement of the contract, and the invariants of
      its tables. SqliteIndex: its table of objects as the index of the cache engine.
    - Keepers: engine/accesskeeper and engine/statskeeper over the SQLite catalogue.
    - Auth, AuthDemo: accounts, sessions and tokens over the contract; the theorems
      at concrete runs over the SQLite catalogue. WebAuth, WebDemo: the middlewares
      of access control over Auth. RateLimit: the limit on login attempts.
    - Mirror, MirrorDemo: engine/mirror, a synchronisation with its pool of workers
      as a step relation, and its job records. Scheduler, SchedulerDemo: the runners
      of the mirrors, their reconciliation with the catalogue and their shutdown.
    - Duration, RemoteText, RemotesIO, RemotesDemo: durations as Go prints and reads
      them, the text form of upstreams (core/domain/remotefmt.go), and their
      import and export (core/web/handlers_remotes_io.go).
    - TaskRegistry: the background tasks of core/web/taskregistry.go.
    - Glob, Adapter, Ecosystems: the rules of classification as regular expressions
      with an executable matcher; what the six ecosystem adapters share, as a section;
      the six as instances of it.
    - XbpsVersion, XbpsIndex, XbpsPackage, XbpsRepo, XbpsDemo: the whole of
      internal/mod/ecosystem/xbps: versions, the property list of an index as tokens,
      the containers, the generator and the enumeration of a mirror; a concrete
      repository. RepoWrites: the write of a whole object that the generators share.
    - AptStanza, AptPackage, AptRepo, AptMirror, AptDemo: the whole of
      internal/mod/ecosystem/apt: records of the deb822 format, the control record of
      a package, the generator with its copies under their hashes, the enumeration of
      a mirror; a concrete repository.
    - PacmanDb, PacmanRepo, PacmanDemo: internal/mod/ecosystem/pacman beside its
      versions: the .PKGINFO of a package and the database with their limits, the
      generator, the enumeration of a mirror; a concrete repository.
    - ApkPackage, ApkIndex, ApkRepo, ApkDemo: the whole of
      internal/mod/ecosystem/apk: the control section of a package among its gzip
      members, the text of an index and its reader, base64, the generator with its
      signature in a gzip member of its own, the enumeration of a mirror; a concrete
      repository over simple codecs in the place of gzip and tar.

    Components meet at type classes: CacheEngine, Retention, StorageGC, Publish,
    XbpsRepo, AptRepo, PacmanRepo and ApkRepo are proved against [StorageLaws] and
    [ObjectIndexLaws], Auth and WebAuth against [UserLaws], [TokenLaws],
    [RevocationLaws] and [RepoLaws], Scheduler and Adapter use [RemoteStore]; the
    doubles, the file system and SQLite discharge them.

    ** How code is rendered

    A method of a stateful object is a function into [St S] for the state [S] of
    the object; a Go error is an element of [Domain.error] and a [(value, error)]
    pair a [result]. What the environment decides (the upstream's answers, failing
    system calls, the outcome of a statement, the clock, random ids) is read from a
    script in the state or from a parameter of the section, so that the theorems
    hold for every behaviour of it. Hypotheses about code outside src/ (the signing
    library, JSON, bcrypt, package net, the order in which a map is iterated, the case
    tables of Unicode beyond ASCII, the decoders of tar, gzip, zstd and XML) are named
    and appear in the statements; each theorem that has one comes with a witness at
    a concrete instance. An operation guarded by a mutex is one atomic step;
    operations that interleave (uploads, background deletions, crashes) are step
    relations.

    ** What the theorems show

    - Objects are whole and stay: what the cache commits is what the upstream sent
      and matches the expected checksum, a bad body is never committed, live bytes
      are never deleted by retention, eviction or the sweep, nor by the engine, but
      for a version whose record the index took while its answer was lost; a commit
      on the file system survives a crash.
    - Answers are right: hits serve the committed bytes, stale answers the indexed
      version, upstream 404s are passed on; range requests produce exactly the
      requested bytes and the announced length.
    - Publishing: an upload commits only what passed its checks, fails without a
      trace, excludes its rivals and never overwrites silently.
    - Passes: what is protected is kept and the rest goes; the newest versions
      survive; the sweep removes orphans and only them.
    - Access: a session or token is accepted only while live, logging out and a
      change of password are final, a revoked token stays dead; a request passes the
      middlewares only with the right to the repository it names, and a token only
      by its own scopes; an outage is answered 503.
    - Mirrors and tasks: every enumerated path is handled once and counted, the pool
      ends, the job says what happened; one runner for each upstream, the runners that
      the catalogue asks for, a shutdown that completes; tasks exclude each other.
    - Upstreams: an export restores them, an import reports every line once.
    - Ecosystems: the tables of rules decide as a readable rule on names says, keys of
      different upstreams are apart, answers are fresh; the generators of xbps, apt,
      pacman and apk repositories write exactly the indexes and signatures of what is there and
      touch nothing else, and a mirror reads from them the packages and the digests
      of the bytes that are stored; what is read of a package or an index is bounded;
      a client that has the Release of an apt repository can have its indexes until
      the second generation after it.
    - Catalogue: SQLite refines the contract whatever the engine answers; its schema
      constraints are invariants, records read back as stored, the audit log is
      append-only and its pages are complete.
    - Bounds and loops: the tables of the limiter and of revoked sessions stay
      bounded, loops end.

    ** Bounds and fuel

    Loops whose measure is not structural take fuel: [call_loop] makes
    [busyRetries] = 2 retries as the code does; the eviction loops get the size of
    their table, which falls with every iteration; the LIKE matcher and the trimming
    functions get the length of their string; the multipart writer gets the number
    of its parts; the retries of a download, [prefetch_loop], get the number of
    attempts; the readers of durations, versions and digits get the length of their
    text; the readers of property lists get the number of tokens, that of ar archives the
    number of bytes ([AptPackage.find_control_fuel]); the eviction of
    finished tasks gets the size of the history. In every case the lemmas show that the fuel is not exhausted, or
    the function is total on what it is applied to. Integers are [Z]; where the code
    may overflow ([int64] sums, durations, the 53-bit claims of a token) the
    wrap-around is written out.

    ** Not modelled

    The catalogue of the ids that SQLite hands out ends at 2^63, which is not
    modelled; nor are symbolic links inside the storage root, the variants of
    files for Windows, the timing of goroutines (tickers are the operation they
    call) and the mechanics of net/http (a handler is a function of the request, a
    connection a budget of bytes). The PostgreSQL and MariaDB drivers repeat the
    SQLite one over another dialect, the S3 backend and the signers are calls into
    libraries, and the wiring (cmd), the metrics' exposition, the SPA and the
    contract tests hold no logic of their own. Of rpm-md and nix the parsers and generators of indexes are not modelled; what they promise
    the engine is a parameter of it. *)
From stdpp Require Export base tactics numbers option list gmap sets strings pretty sorting.
#[export] Set Warnings "-clear-no-such-hyp".
From Stdlib Require Export ZArith Lia Ascii.
From Stdlib Require SpecFloat.

Declare Scope go_scope.
Delimit Scope go_scope with go.

(** Facts about the Go standard library that the components share. *)
Create HintDb go discriminated.
Create Rewrite HintDb go.

(** * Fixed-width integers

    A Go [int64] (or [int], on the 64-bit targets the program is built for)
    is a [Z] in the range below; the operators that may overflow in the
    source are written with [wrap64]/[wrap32]. *)

Definition min_int64 : Z := - 2 ^ 63.
Definition max_int64 : Z := 2 ^ 63 - 1.
(** [Time.Sub]: the difference, or the nearest duration there is. *)
Definition time_Sub (a b : Z) : Z := Z.max min_int64 (Z.min max_int64 (a - b)%Z).
Definition in_int64 (z : Z) : Prop := (min_int64 ≤ z ≤ max_int64)%Z.
Definition wrap (w : Z) (z : Z) : Z :=
  ((z + 2 ^ (w - 1)) mod 2 ^ w - 2 ^ (w - 1))%Z.
Definition wrap64 : Z → Z := wrap 64.
Definition wrap32 : Z → Z := wrap 32.

Lemma wrap64_small z : in_int64 z → wrap64 z = z.
Proof.
  unfold in_int64, min_int64, max_int64, wrap64, wrap. intros H.
  rewrite Z.mod_small; lia.
Qed.
Lemma wrap32_small z : (- 2 ^ 31 ≤ z < 2 ^ 31)%Z → wrap32 z = z.
Proof. unfold wrap32, wrap. intros H. rewrite Z.mod_small; lia. Qed.
Lemma wrap32_range z : (- 2 ^ 31 ≤ wrap32 z < 2 ^ 31)%Z.
Proof. unfold wrap32, wrap. pose proof (Z.mod_pos_bound (z + 2 ^ (32 - 1)) (2 ^ 32)). lia. Qed.
Lemma wrap64_range z : in_int64 (wrap64 z).
Proof.
  unfold in_int64, min_int64, max_int64, wrap64, wrap.
  pose proof (Z.mod_pos_bound (z + 2 ^ (64 - 1)) (2 ^ 64)). lia.
Qed.

Lemma wrap64_wraps z : (max_int64 < z ≤ 2 * max_int64)%Z → wrap64 z = (z - 2 ^ 64)%Z.
Proof.
  unfold max_int64, wrap64, wrap. intros H.
  rewrite (Z.mod_eq (z + _)) by lia.
  replace ((z + 2 ^ (64 - 1)) / 2 ^ 64)%Z with 1%Z; [lia|].
  apply (Z.div_unique_pos _ _ _ (z + 2 ^ (64 - 1) - 2 ^ 64)%Z); lia.
Qed.

(** [float64(n)] *)
Definition float64 (n : Z) : SpecFloat.spec_float := SpecFloat.binary_normalize 53 1024 n 0 false.

(** Sign of a three-way comparison, as Go's comparators return it. *)
Definition cmp_int (c : comparison) : Z :=
  match c with Lt => -1 | Eq => 0 | Gt => 1 end.
Lemma cmp_int_opp c : cmp_int (CompOpp c) = (- cmp_int c)%Z.
Proof. by destruct c. Qed.
Lemma cmp_int_0 c : cmp_int c = 0%Z → c = Eq.
Proof. by destruct c. Qed.

(** * Time

    [time.Time] is the number of nanoseconds since January 1, year 1 UTC, so
    that [IsZero] is equality with [0]; [time.Duration] is an [int64] number
    of nanoseconds. *)
Abbreviation time := Z (only parsing).
Abbreviation duration := Z (only parsing).
Definition is_zero_time (t : Z) : bool := bool_decide (t = 0%Z).
Definition nanosecond : Z := 1.
Definition second : Z := 1000000000.
Definition minute : Z := 60 * second.
Definition hour : Z := 60 * minute.

(** [time.Time.Unix] and [time.Unix]: seconds since 1970. *)
Definition unixToInternal : Z := 62135596800.
Definition unix (t : Z) : Z := (t / second - unixToInternal)%Z.
Definition from_unix (sec : Z) : Z := ((sec + unixToInternal) * second)%Z.

Lemma from_unix_le t : (from_unix (unix t) ≤ t)%Z.
Proof.
  unfold from_unix, unix, second. pose proof (Z.mul_div_le t 1000000000 ltac:(lia)). lia.
Qed.
Lemma unix_from_unix n : unix (from_unix n) = n.
Proof. unfold from_unix, unix, second. rewrite Z.div_mul by lia. lia. Qed.
Lemma unix_mono s t : (s ≤ t → unix s ≤ unix t)%Z.
Proof. intros H. unfold unix, second. pose proof (Z.div_le_mono s t 1000000000 ltac:(lia) H). lia. Qed.
Lemma from_unix_mono m n : (m ≤ n → from_unix m ≤ from_unix n)%Z.
Proof. unfold from_unix, second. lia. Qed.
(** Whole seconds are compared alike before and after the conversion. *)
Lemma unix_lt n t : (n < unix t → from_unix n < t)%Z.
Proof.
  intros H. pose proof (from_unix_le t) as Hle. unfold from_unix, second in *. lia.
Qed.

(** * Results and state

    [result] is a Go [(value, error)] pair of which exactly one is set; [St]
    is explicit state passing with stdpp's bind notation. *)
Inductive result (E A : Type) : Type :=
| Ok (a : A)
| Err (e : E).
Global Arguments Ok {_ _} _.
Global Arguments Err {_ _} _.

Definition is_ok {E A} (r : result E A) : bool :=
  match r with Ok _ => true | Err _ => false end.

Definition St (S A : Type) : Type := S → A * S.
Global Instance st_ret {S} : MRet (St S) := λ A a s, (a, s).
Global Instance st_bind {S} : MBind (St S) := λ A B f m s,
  let '(a, s') := m s in f a s'.
Definition st_get {S} : St S S := λ s, (s, s).
Definition st_gets {S A} (f : S → A) : St S A := λ s, (f s, s).
Definition st_mod {S} (f : S → S) : St S unit := λ s, (tt, f s).
Global Arguments st_ret {_} _ _ _ /.
Global Arguments st_bind {_} _ _ _ _ _ /.
Global Arguments st_get {_} _ /.
Global Arguments st_gets {_ _} _ _ /.
Global Arguments st_mod {_} _ _ /.

Lemma st_bind_run {S A B} (m : St S A) (k : A → St S B) s a s' :
  m s = (a, s') → (m ≫= k) s = k a s'.
Proof. intros Hm. unfold mbind, st_bind. by rewrite Hm. Qed.

(** Symbolic execution: [wp m Q s] is the postcondition [Q] of running [m] in
    [s]. Every operation terminates, so it also says that [m] returns. *)
Definition wp {S A} (m : St S A) (Q : A → S → Prop) (s : S) : Prop := Q (m s).1 (m s).2.

Lemma wp_ret {S A} (a : A) (Q : A → S → Prop) s : Q a s → wp (mret a) Q s.
Proof. done. Qed.
Lemma wp_bind {S A B} (m : St S A) (k : A → St S B) Q s :
  wp m (λ a, wp (k a) Q) s → wp (m ≫= k) Q s.
Proof. unfold wp, mbind, st_bind. by destruct (m s). Qed.
Lemma wp_mono {S A} (m : St S A) (Q Q' : A → S → Prop) s :
  wp m Q s → (∀ a s', Q a s' → Q' a s') → wp m Q' s.
Proof. unfold wp. auto. Qed.
Lemma wp_mod {S} (f : S → S) (Q : unit → S → Prop) s : Q tt (f s) → wp (st_mod f) Q s.
Proof. done. Qed.
Lemma wp_gets {S A} (f : S → A) (Q : A → S → Prop) s : Q (f s) s → wp (st_gets f) Q s.
Proof. done. Qed.

(** [keeps f m]: running [m] does not change the view [f] of the state. *)
Definition keeps {S A T} (f : S → T) (m : St S A) : Prop := ∀ s, f (m s).2 = f s.

Lemma keeps_ret {S A T} (f : S → T) (a : A) : keeps f (mret a : St S A).
Proof. done. Qed.
Lemma keeps_bind {S A B T} (f : S → T) (m : St S A) (k : A → St S B) :
  keeps f m → (∀ a, keeps f (k a)) → keeps f (m ≫= k).
Proof.
  intros Hm Hk s. unfold mbind, st_bind. specialize (Hm s).
  destruct (m s) as [a s']. simpl in *. by rewrite Hk.
Qed.
Lemma keeps_mod {S T} (f : S → T) (g : S → S) : (∀ s, f (g s) = f s) → keeps f (st_mod g).
Proof. done. Qed.
Lemma keeps_gets {S A T} (f : S → T) (g : S → A) : keeps f (st_gets g).
Proof. done. Qed.
Lemma wp_keeps {S A T} (f : S → T) (m : St S A) Q s :
  keeps f m → (∀ a s', f s' = f s → Q a s') → wp m Q s.
Proof. intros Hk HQ. apply HQ, Hk. Qed.
(** A view of a view is kept too. *)
Lemma keeps_view {S A T U} (f : S → T) (g : T → U) (m : St S A) :
  keeps f m → keeps (λ s, g (f s)) m.
Proof. intros H s. by rewrite H. Qed.
#[export] Hint Resolve keeps_ret keeps_gets : go.

(** [moves R m]: running [m] takes the state along the preorder [R]. *)
Definition moves {S A} (R : relation S) (m : St S A) : Prop := ∀ s, R s (m s).2.

Section moves.
Context {S : Type} (R : relation S) `{!PreOrder R}.
Lemma moves_ret {A} (a : A) : moves R (mret a : St S A).
Proof. intros s. simpl. reflexivity. Qed.
Lemma moves_gets {A} (g : S → A) : moves R (st_gets g).
Proof. intros s. simpl. reflexivity. Qed.
Lemma moves_bind {A B} (m : St S A) (k : A → St S B) :
  moves R m → (∀ a, moves R (k a)) → moves R (m ≫= k).
Proof.
  intros Hm Hk s. unfold mbind, st_bind. specialize (Hm s). destruct (m s) as [a s'].
  etrans; [done|apply Hk].
Qed.
End moves.

(** Running an operation of a part of the state. *)
Definition zoom {S T A} (get : S → T) (put : T → S → S) (m : St T A) : St S A := λ s,
  let '(a, t) := m (get s) in (a, put t s).

(** Splits a [keeps] goal along the operation; what is left are the
    primitive operations. *)
Ltac keeps_tac :=
  repeat match goal with
  | |- keeps _ (_ ≫= _) => apply keeps_bind; [|intros]
  | |- keeps _ (mret _) => apply keeps_ret
  | |- keeps _ (st_gets _) => apply keeps_gets
  | |- keeps _ (match ?x with _ => _ end) => destruct x
  | |- keeps _ (if ?x then _ else _) => destruct x
  | |- keeps _ _ => by eauto with go
  end.

(** The same for [moves]. *)
Ltac moves_tac :=
  repeat match goal with
  | |- moves _ (_ ≫= _) => apply moves_bind; [apply _| |intros]
  | |- moves _ (mret _) => apply moves_ret, _
  | |- moves _ (st_gets _) => apply moves_gets, _
  | |- moves _ (match ?x with _ => _ end) => destruct x
  | |- moves _ (if ?x then _ else _) => destruct x
  | |- moves _ _ => by eauto with go
  end.

(** * Total orders given by a three-way comparison

    Go code orders by comparators. [TotalCmp f] says that [f] is a strict
    total order whose equality is Leibniz equality; pairs and lists are
    compared lexicographically. *)
Class TotalCmp {A} (f : A → A → comparison) : Prop := {
  tc_eq x y : f x y = Eq ↔ x = y;
  tc_sym x y : f y x = CompOpp (f x y);
  tc_trans x y z : f x y = Lt → f y z = Lt → f x z = Lt
}.

Definition pair_cmp {A B} (f : A → A → comparison) (g : B → B → comparison)
    (x y : A * B) : comparison :=
  match f x.1 y.1 with Eq => g x.2 y.2 | c => c end.
Fixpoint lex_cmp {A} (f : A → A → comparison) (l1 l2 : list A) : comparison :=
  match l1, l2 with
  | [], [] => Eq
  | [], _ => Lt
  | _, [] => Gt
  | x :: l1, y :: l2 => match f x y with Eq => lex_cmp f l1 l2 | c => c end
  end.

#[export] Instance Z_TotalCmp : TotalCmp Z.compare.
Proof.
  split; intros *; rewrite ?Z.compare_eq_iff, ?Z.compare_lt_iff; try lia.
  apply Z.compare_antisym.
Qed.

Section total_cmp.
Context {A : Type} (f : A → A → comparison) `{!TotalCmp f}.

Lemma tc_refl x : f x x = Eq.
Proof. by apply tc_eq. Qed.

#[export] Instance pair_TotalCmp {B} (g : B → B → comparison) `{!TotalCmp g} :
  TotalCmp (pair_cmp f g).
Proof.
  unfold pair_cmp. split.
  - intros [x x'] [y y']; simpl. destruct (f x y) eqn:E; split; try done.
    + apply tc_eq in E as ->. intros ->%tc_eq. done.
    + intros [= -> ->]. by apply tc_eq.
    + intros [= -> ->]. by rewrite tc_refl in E.
    + intros [= -> ->]. by rewrite tc_refl in E.
  - intros [x x'] [y y']; simpl. rewrite (tc_sym x y). destruct (f x y); simpl; [|done..].
    apply tc_sym.
  - intros [x x'] [y y'] [z z']; simpl.
    destruct (f x y) eqn:Exy; [apply tc_eq in Exy as ->| |done].
    + destruct (f y z); [|done..]. apply tc_trans.
    + intros _. destruct (f y z) eqn:Eyz; [apply tc_eq in Eyz as ->| |done].
      * by rewrite Exy.
      * by rewrite (tc_trans (f:=f) x y z).
Qed.

#[export] Instance lex_TotalCmp : TotalCmp (lex_cmp f).
Proof.
  split.
  - intros l1. induction l1 as [|x l1 IH]; intros [|y l2]; simpl; try done.
    destruct (f x y) eqn:E; [apply tc_eq in E as ->; rewrite IH; naive_solver|..];
      (split; [done|]); intros [= -> ->]; by rewrite tc_refl in E.
  - intros l1. induction l1 as [|x l1 IH]; intros [|y l2]; simpl; try done.
    rewrite (tc_sym x y). destruct (f x y); simpl; [apply IH|done..].
  - intros l1. induction l1 as [|x l1 IH]; intros [|y l2] [|z l3]; simpl; try done.
    destruct (f x y) eqn:Exy; [apply tc_eq in Exy as ->| |done].
    + destruct (f y z); [|done..]. apply IH.
    + intros _. destruct (f y z) eqn:Eyz; [apply tc_eq in Eyz as ->| |done].
      * by rewrite Exy.
      * by rewrite (tc_trans (f:=f) x y z).
Qed.

(** The order laws of the [int]-valued comparator. *)
Lemma cmp_int_trans x y z :
  (cmp_int (f x y) ≤ 0 → cmp_int (f y z) ≤ 0 → cmp_int (f x z) ≤ 0)%Z.
Proof.
  destruct (f x y) eqn:Exy; [apply tc_eq in Exy as ->; done| |done].
  destruct (f y z) eqn:Eyz; [apply tc_eq in Eyz as ->; by rewrite Exy| |done].
  by rewrite (tc_trans (f:=f) x y z).
Qed.
End total_cmp.
