(* ===== verification/GoStr.v ===== *)
(** The functions of Go's [strings] and [strconv] packages that the program
    uses, on byte strings ([string] is a list of bytes, as in Go), with the
    lemmas the components share. *)
From S2P Require Import Prelude.
Local Open Scope Z_scope.

(** * Bytes *)

Definition between (lo hi c : ascii) : bool :=
  (N_of_ascii lo <=? N_of_ascii c)%N && (N_of_ascii c <=? N_of_ascii hi)%N.
Definition is_digit (c : ascii) : bool := between "0" "9" c.
Definition is_lower (c : ascii) : bool := between "a" "z" c.
Definition is_upper (c : ascii) : bool := between "A" "Z" c.
Definition is_alpha (c : ascii) : bool := is_lower c || is_upper c.
Definition is_alnum (c : ascii) : bool := is_digit c || is_alpha c.
Definition lower_byte (c : ascii) : ascii :=
  if is_upper c then ascii_of_N (N_of_ascii c + 32) else c.
Definition digit_val (c : ascii) : Z := Z.of_N (N_of_ascii c) - 48.

Lemma digit_val_range c : is_digit c = true → 0 ≤ digit_val c ≤ 9.
Proof.
  unfold is_digit, between, digit_val. rewrite andb_true_iff, !N.leb_le.
  change (N_of_ascii "0") with 48%N. change (N_of_ascii "9") with 57%N. lia.
Qed.

(** * Scanning *)

(** Longest prefix whose bytes satisfy [p], and the rest. *)
Fixpoint span (p : ascii → bool) (s : string) : string * string :=
  match s with
  | EmptyString => (EmptyString, EmptyString)
  | String c s' =>
      if p c then let '(l, r) := span p s' in (String c l, r) else (EmptyString, s)
  end.

Fixpoint all_bytes (p : ascii → bool) (s : string) : bool :=
  match s with
  | EmptyString => true
  | String c s' => p c && all_bytes p s'
  end.

Fixpoint last_byte (s : string) : option ascii :=
  match s with
  | EmptyString => None
  | String c EmptyString => Some c
  | String _ s' => last_byte s'
  end.

Fixpoint strip_prefix (p s : string) : option string :=
  match p, s with
  | EmptyString, _ => Some s
  | String a p', String b s' => if Ascii.eqb a b then strip_prefix p' s' else None
  | _, _ => None
  end.

Definition has_prefix (s p : string) : bool := bool_decide (is_Some (strip_prefix p s)).
Definition trim_prefix (s p : string) : string := default s (strip_prefix p s).
Definition strip_suffix (p s : string) : option string :=
  String.rev <$> strip_prefix (String.rev p) (String.rev s).
Definition has_suffix (s p : string) : bool := bool_decide (is_Some (strip_suffix p s)).
Definition trim_suffix (s p : string) : string := default s (strip_suffix p s).

(** [strings.Contains] *)
Fixpoint contains (s sub : string) : bool :=
  has_prefix s sub ||
  match s with EmptyString => false | String _ s' => contains s' sub end.

(** [strings.Cut] and [strings.Split] on a one-byte separator. *)
Fixpoint cut (c : ascii) (s : string) : string * string * bool :=
  match s with
  | EmptyString => (EmptyString, EmptyString, false)
  | String d s' =>
      if Ascii.eqb c d then (EmptyString, s', true)
      else let '(l, r, ok) := cut c s' in (String d l, r, ok)
  end.

Fixpoint split (c : ascii) (s : string) : list string :=
  match s with
  | EmptyString => [EmptyString]
  | String d s' =>
      if Ascii.eqb c d then EmptyString :: split c s'
      else match split c s' with
           | x :: xs => String d x :: xs
           | [] => [String d EmptyString]
           end
  end.

(** [strings.LastIndexByte], as the split at the last [c] when there is one. *)
Fixpoint cut_last (c : ascii) (s : string) : option (string * string) :=
  match s with
  | EmptyString => None
  | String d s' =>
      match cut_last c s' with
      | Some (l, r) => Some (String d l, r)
      | None => if Ascii.eqb c d then Some (EmptyString, s') else None
      end
  end.

(** [strings.TrimSpace]: the Unicode White_Space code points, as UTF-8. *)
Definition byte (n : N) : ascii := ascii_of_N n.
Definition bytes (l : list N) : string := String.string_of_list_ascii (map byte l).
Definition space_runes : list string :=
  map (λ n, bytes [n]%N) [9; 10; 11; 12; 13; 32]%N ++
  map bytes [[194; 133]; [194; 160]; [225; 154; 128];
             [226; 128; 168]; [226; 128; 169]; [226; 128; 175];
             [226; 129; 159]; [227; 128; 128]]%N ++
  map (λ n, bytes [226; 128; n]%N) [128; 129; 130; 131; 132; 133; 134; 135; 136; 137; 138]%N.

Definition strip_any (ps : list string) (s : string) : option string :=
  foldr (λ p acc, match strip_prefix p s with Some r => Some r | None => acc end) None ps.
Fixpoint trim_any (fuel : nat) (ps : list string) (s : string) : string :=
  match fuel with
  | O => s
  | S f => match strip_any ps s with Some r => trim_any f ps r | None => s end
  end.
Definition trim_left_space (s : string) : string :=
  trim_any (String.length s) space_runes s.
Definition trim_right_space (s : string) : string :=
  String.rev (trim_any (String.length s) (map String.rev space_runes) (String.rev s)).
Definition trim_space (s : string) : string := trim_right_space (trim_left_space s).

(** [strings.Compare]; the lower case of ASCII and [strings.EqualFold] on it. *)
Definition str_cmp (a b : string) : Z := cmp_int (String.compare a b).
Fixpoint to_lower (s : string) : string :=
  match s with
  | EmptyString => EmptyString
  | String c s' => String (lower_byte c) (to_lower s')
  end.
Definition equal_fold (a b : string) : bool := String.eqb (to_lower a) (to_lower b).

(** * Numbers *)

(** [strconv.FormatInt(n, 10)] *)
Definition fmt_int (n : Z) : string := pretty n.

Fixpoint digits_val (acc : Z) (s : string) : Z :=
  match s with
  | EmptyString => acc
  | String c s' => digits_val (acc * 10 + digit_val c) s'
  end.

(** [strconv.ParseUint(s, 10, bits)] *)
Definition parse_uint (bits : Z) (s : string) : option Z :=
  if String.eqb s EmptyString || negb (all_bytes is_digit s) then None
  else let v := digits_val 0 s in if v <? 2 ^ bits then Some v else None.

(** [strconv.ParseInt(s, 10, 64)]: optional sign, then digits. *)
Definition parse_int (s : string) : option Z :=
  let '(neg, ds) :=
    match s with
    | String c s' =>
        if Ascii.eqb c "-" then (true, s')
        else if Ascii.eqb c "+" then (false, s') else (false, s)
    | EmptyString => (false, s)
    end in
  if String.eqb ds EmptyString || negb (all_bytes is_digit ds) then None
  else
    let v := digits_val 0 ds in
    if neg then if v <=? 2 ^ 63 then Some (- v) else None
    else if v <? 2 ^ 63 then Some v else None.

(** * Lemmas *)

Lemma app_cons c s t : String c s +:+ t = String c (s +:+ t).
Proof. done. Qed.
Lemma app_nil_r s : s +:+ "" = s.
Proof. induction s; [done|]. rewrite app_cons. by f_equal. Qed.
Lemma app_assoc s t u : s +:+ (t +:+ u) = (s +:+ t) +:+ u.
Proof. induction s; [done|]. rewrite !app_cons. by f_equal. Qed.
Lemma length_app_str s t :
  String.length (s +:+ t) = (String.length s + String.length t)%nat.
Proof. induction s; [done|]. rewrite app_cons. simpl. by f_equal. Qed.
Lemma app_inj_l s t u : s +:+ t = s +:+ u → t = u.
Proof. induction s; [done|]. rewrite !app_cons. intros [= ?]. auto. Qed.

Lemma span_app p s l r : span p s = (l, r) → s = l +:+ r.
Proof.
  revert l r. induction s as [|c s IH]; simpl; intros l r H; [by simplify_eq|].
  destruct (p c); [|by simplify_eq].
  destruct (span p s) as [l' r'] eqn:E. simplify_eq. by rewrite app_cons, <- (IH l' r).
Qed.
Lemma span_all p s l r : span p s = (l, r) → all_bytes p l = true.
Proof.
  revert l r. induction s as [|c s IH]; simpl; intros l r H; [by simplify_eq|].
  destruct (p c) eqn:Hc; [|by simplify_eq].
  destruct (span p s) as [l' r'] eqn:E. simplify_eq. simpl. rewrite Hc. eauto.
Qed.
Lemma span_stop p s l c r : span p s = (l, String c r) → p c = false.
Proof.
  revert l r. induction s as [|d s IH]; simpl; intros l r H; [by simplify_eq|].
  destruct (p d) eqn:Hd; [|by simplify_eq].
  destruct (span p s) as [l' r'] eqn:E. simplify_eq. eauto.
Qed.
Lemma span_length p s l r :
  span p s = (l, r) → String.length s = (String.length l + String.length r)%nat.
Proof. intros H. by rewrite (span_app _ _ _ _ H), length_app_str. Qed.

Lemma strip_prefix_Some p s r : strip_prefix p s = Some r ↔ s = p +:+ r.
Proof.
  revert s. induction p as [|a p IH]; intros s; simpl.
  { split; [by intros [= ->]|by intros ->]. }
  destruct s as [|b s]; [split; [done|by rewrite app_cons]|].
  rewrite app_cons. destruct (Ascii.eqb_spec a b) as [->|Hne].
  - rewrite IH. split; [by intros ->|by intros [= ->]].
  - split; [done|by intros [= ]].
Qed.
Lemma has_prefix_spec s p : has_prefix s p = true ↔ ∃ r, s = p +:+ r.
Proof.
  unfold has_prefix. rewrite bool_decide_eq_true. split.
  - intros [r ?%strip_prefix_Some]. eauto.
  - intros [r ?%strip_prefix_Some]. eauto.
Qed.
Lemma has_prefix_app p r : has_prefix (p +:+ r) p = true.
Proof. apply has_prefix_spec. eauto. Qed.
Lemma trim_prefix_app p r : trim_prefix (p +:+ r) p = r.
Proof. unfold trim_prefix. by rewrite (proj2 (strip_prefix_Some p _ r)). Qed.

Lemma rev_app_spec s t : String.rev_app s t = String.rev s +:+ t.
Proof.
  unfold String.rev. revert t. induction s as [|c s IH]; intros t; simpl; [done|].
  rewrite IH, (IH (String c "")). by rewrite <- app_assoc.
Qed.
Lemma rev_cons c s : String.rev (String c s) = String.rev s +:+ String c "".
Proof. unfold String.rev at 1. simpl. by rewrite rev_app_spec. Qed.
Lemma rev_app s t : String.rev (s +:+ t) = String.rev t +:+ String.rev s.
Proof.
  induction s as [|c s IH]; [by rewrite app_nil_r|].
  by rewrite app_cons, !rev_cons, IH, app_assoc.
Qed.
Lemma rev_rev s : String.rev (String.rev s) = s.
Proof. induction s as [|c s IH]; [done|]. by rewrite rev_cons, rev_app, IH. Qed.
Lemma app_inj_r s t u : s +:+ u = t +:+ u → s = t.
Proof. intros Heq%(f_equal String.rev). rewrite !rev_app in Heq. apply app_inj_l in Heq. by rewrite <- (rev_rev s), Heq, rev_rev. Qed.
Lemma strip_suffix_Some p s r : strip_suffix p s = Some r ↔ s = r +:+ p.
Proof.
  unfold strip_suffix. rewrite fmap_Some. setoid_rewrite strip_prefix_Some. split.
  - intros (x & Hx & ->). apply (f_equal String.rev) in Hx.
    by rewrite rev_rev, rev_app, rev_rev in Hx.
  - intros ->. exists (String.rev r). by rewrite rev_app, rev_rev.
Qed.
Lemma has_suffix_spec s p : has_suffix s p = true ↔ ∃ r, s = r +:+ p.
Proof.
  unfold has_suffix. rewrite bool_decide_eq_true. split.
  - intros [r ?%strip_suffix_Some]. eauto.
  - intros [r ?%strip_suffix_Some]. eauto.
Qed.

Lemma contains_unfold s sub :
  contains s sub =
  has_prefix s sub || match s with EmptyString => false | String _ s' => contains s' sub end.
Proof. by destruct s. Qed.
Lemma contains_spec s sub : contains s sub = true ↔ ∃ l r, s = l +:+ sub +:+ r.
Proof.
  split.
  - induction s as [|c s IH]; rewrite contains_unfold, orb_true_iff, has_prefix_spec.
    + intros [[r ->]|[=]]. by exists "", r.
    + intros [[r ->]|(l & r & ->)%IH]; [by exists "", r|by exists (String c l), r].
  - intros (l & r & ->). induction l as [|c l IH]; rewrite contains_unfold, orb_true_iff.
    + left. exact (has_prefix_app sub r).
    + right. exact IH.
Qed.

Lemma cut_found c s l r : cut c s = (l, r, true) → s = l +:+ String c r.
Proof.
  revert l. induction s as [|d s IH]; simpl; intros l H; [done|].
  destruct (Ascii.eqb_spec c d) as [->|]; [by simplify_eq|].
  destruct (cut c s) as [[l' r'] ok] eqn:E. simplify_eq. rewrite (IH _ eq_refl). done.
Qed.
Lemma cut_app c l r :
  all_bytes (λ d, negb (Ascii.eqb c d)) l = true → cut c (l +:+ String c r) = (l, r, true).
Proof.
  induction l as [|d l IH]; simpl.
  - intros _. by rewrite Ascii.eqb_refl.
  - intros [Hd%negb_true_iff H]%andb_true_iff. by rewrite Hd, IH.
Qed.

Lemma concat_empty_cons x l : String.concat "" (x :: l) = x +:+ String.concat "" l.
Proof. destruct l; simpl; [by rewrite app_nil_r|done]. Qed.
Lemma all_bytes_app p s t : all_bytes p (s +:+ t) = all_bytes p s && all_bytes p t.
Proof. induction s as [|c s IH]; simpl; [done|]. by rewrite IH, andb_assoc. Qed.
Lemma all_bytes_impl p q s :
  (∀ c, p c = true → q c = true) → all_bytes p s = true → all_bytes q s = true.
Proof.
  intros Hpq. induction s as [|c s IH]; [done|]. simpl.
  rewrite !andb_true_iff. intros [? ?]. auto.
Qed.

(** ** Splitting *)
Lemma split_nonempty c s : split c s ≠ [].
Proof. destruct s; simpl; [done|]. by repeat case_match. Qed.
Lemma concat_split c s : String.concat (String c "") (split c s) = s.
Proof.
  induction s as [|d s IH]; [done|]. simpl. destruct (Ascii.eqb_spec c d) as [->|].
  - destruct (split d s) as [|x xs] eqn:E; [by destruct (split_nonempty d s)|].
    change (String d (String.concat (String d "") (x :: xs)) = String d s). by rewrite IH.
  - destruct (split c s) as [|x xs] eqn:E; [by destruct (split_nonempty c s)|].
    destruct xs; simpl in *; by rewrite <- IH.
Qed.
Lemma split_inj c s t : split c s = split c t → s = t.
Proof. intros H. by rewrite <- (concat_split c s), H, concat_split. Qed.
Lemma split_cons c d s x xs :
  split c s = x :: xs →
  split c (String d s) = if Ascii.eqb c d then "" :: x :: xs else String d x :: xs.
Proof. intros H. simpl. by rewrite H. Qed.
Lemma split_app c s t :
  split c (s +:+ String c t) = split c s ++ split c t.
Proof.
  induction s as [|d s IH]; simpl.
  - by rewrite Ascii.eqb_refl.
  - destruct (Ascii.eqb c d); rewrite IH; [done|].
    destruct (split c s) as [|x xs] eqn:E; [by destruct (split_nonempty c s)|done].
Qed.
Lemma split_nosep c s :
  all_bytes (λ d, negb (Ascii.eqb c d)) s = true → split c s = [s].
Proof.
  induction s as [|d s IH]; [done|]. simpl.
  intros [->%negb_true_iff H]%andb_true_iff. by rewrite (IH H).
Qed.
Lemma concat_elem sep (xs : list string) x :
  x ∈ xs → ∃ l r, String.concat sep xs = l +:+ x +:+ r.
Proof.
  induction 1 as [x xs|x y xs H (l & r & IH)].
  - exists "". destruct xs as [|y xs]; [exists ""; simpl; by rewrite app_nil_r|].
    by exists (sep +:+ String.concat sep (y :: xs)).
  - destruct xs as [|z zs]; [by apply not_elem_of_nil in H|].
    exists (y +:+ sep +:+ l), r. change (y +:+ sep +:+ String.concat sep (z :: zs) = (y +:+ sep +:+ l) +:+ x +:+ r).
    by rewrite IH, !app_assoc.
Qed.
Lemma split_sub c s x : x ∈ split c s → ∃ l r, s = l +:+ x +:+ r.
Proof. intros H. rewrite <- (concat_split c s). by apply concat_elem. Qed.

(** ** String comparison *)
Lemma str_compare_cons a x b y :
  String.compare (String a x) (String b y)
  = match (N_of_ascii a ?= N_of_ascii b)%N with Eq => String.compare x y | c => c end.
Proof. done. Qed.
Lemma str_compare_refl s : String.compare s s = Eq.
Proof. induction s as [|c s IH]; [done|]. by rewrite str_compare_cons, N.compare_refl. Qed.
Lemma str_cmp_refl s : str_cmp s s = 0.
Proof. unfold str_cmp. by rewrite str_compare_refl. Qed.
Lemma str_cmp_antisym a b : str_cmp a b = - str_cmp b a.
Proof. unfold str_cmp. rewrite String.compare_antisym. apply cmp_int_opp. Qed.
Lemma str_cmp_eq a b : str_cmp a b = 0 ↔ a = b.
Proof.
  split; [by intros ?%cmp_int_0%String.compare_eq_iff|intros ->; apply str_cmp_refl].
Qed.
Lemma str_compare_trans a b c o :
  String.compare a b = o → String.compare b c = o → String.compare a c = o.
Proof.
  revert b c. induction a as [|x a IH]; intros [|y b] [|z c]; try (simpl; congruence).
  rewrite !str_compare_cons.
  destruct (N.compare_spec (N_of_ascii x) (N_of_ascii y)) as [e1|l1|l1];
    destruct (N.compare_spec (N_of_ascii y) (N_of_ascii z)) as [e2|l2|l2];
    destruct (N.compare_spec (N_of_ascii x) (N_of_ascii z)) as [e3|l3|l3];
    try lia; try congruence; eauto.
Qed.

#[export] Instance string_TotalCmp : TotalCmp String.compare.
Proof.
  split.
  - intros x y. split; [apply String.compare_eq_iff|intros ->; apply str_compare_refl].
  - intros x y. apply String.compare_antisym.
  - intros x y z. apply str_compare_trans.
Qed.

Lemma last_byte_app s t : t ≠ "" → last_byte (s +:+ t) = last_byte t.
Proof.
  intros Ht. induction s as [|c s IH]; [done|]. rewrite app_cons.
  destruct (s +:+ t) eqn:E; [by destruct s, t|]. by rewrite <- IH.
Qed.
Lemma last_byte_None s : last_byte s = None → s = "".
Proof.
  induction s as [|c s IH]; [done|]. simpl. destruct s; [done|]. intros H. by apply IH in H.
Qed.
Lemma all_bytes_last p s c : all_bytes p s = true → last_byte s = Some c → p c = true.
Proof.
  induction s as [|d s IH]; [done|]. simpl. intros [Hd Hs]%andb_true_iff.
  destruct s; [by intros [= <-]|auto].
Qed.

(** ** Decimal printing and parsing *)
Lemma pretty_N_char_digit x :
  (x < 10)%N → is_digit (pretty_N_char x) = true ∧ digit_val (pretty_N_char x) = Z.of_N x.
Proof.
  intros ?. assert (x = 0 ∨ x = 1 ∨ x = 2 ∨ x = 3 ∨ x = 4 ∨ x = 5 ∨ x = 6
    ∨ x = 7 ∨ x = 8 ∨ x = 9)%N as Hx by lia.
  by repeat destruct Hx as [->|Hx]; subst.
Qed.
Lemma pretty_N_go_val x s :
  digits_val 0 (pretty_N_go x s) = digits_val (Z.of_N x) s ∧
  all_bytes is_digit (pretty_N_go x s) = all_bytes is_digit s ∧
  (x ≠ 0%N → pretty_N_go x s ≠ "").
Proof.
  revert s. induction (N.lt_wf_0 x) as [x _ IH]; intros s.
  destruct (decide (x = 0%N)) as [->|Hx]; [by rewrite pretty_N_go_0|].
  rewrite pretty_N_go_step by lia.
  destruct (pretty_N_char_digit (x `mod` 10)) as [Hd Hv]; [by apply N.mod_lt|].
  destruct (IH (x `div` 10)%N ltac:(apply N.div_lt; lia)
              (String (pretty_N_char (x `mod` 10)) s)) as (Hval & Hall & Hne).
  rewrite Hval, Hall. simpl. rewrite Hd, Hv. split_and!; [|done|].
  - f_equal. rewrite <- (N2Z.inj_mul _ 10), <- N2Z.inj_add. f_equal.
    rewrite (N.div_mod x 10) at 3 by done. lia.
  - intros _. destruct (decide (x `div` 10 = 0)%N) as [->|?]; [by rewrite pretty_N_go_0|auto].
Qed.
Lemma pretty_N_val x :
  digits_val 0 (pretty x) = Z.of_N x ∧ all_bytes is_digit (pretty x) = true ∧ pretty x ≠ "".
Proof.
  unfold pretty, pretty_N. case_decide as Hx; [by subst|].
  destruct (pretty_N_go_val x "") as (-> & -> & Hne). auto.
Qed.

Lemma fmt_int_nonneg n :
  0 ≤ n → digits_val 0 (fmt_int n) = n ∧ all_bytes is_digit (fmt_int n) = true ∧ fmt_int n ≠ "".
Proof.
  intros Hn. unfold fmt_int. destruct n as [|p|p]; [done| |lia].
  apply (pretty_N_val (Npos p)).
Qed.
Lemma parse_int_digits s :
  s ≠ "" → all_bytes is_digit s = true → digits_val 0 s < 2 ^ 63 →
  parse_int s = Some (digits_val 0 s).
Proof.
  intros Hne Hall Hlt. unfold parse_int. destruct s as [|c s]; [done|].
  assert (is_digit c = true) as Hc by (by apply andb_true_iff in Hall as [? ?]).
  destruct (Ascii.eqb_spec c "-") as [->|]; [done|].
  destruct (Ascii.eqb_spec c "+") as [->|]; [done|].
  rewrite Hall. cbn [orb negb String.eqb]. by rewrite (proj2 (Z.ltb_lt _ _) Hlt).
Qed.
Lemma parse_int_fmt n : in_int64 n → parse_int (fmt_int n) = Some n.
Proof.
  unfold in_int64, min_int64, max_int64. intros Hn. destruct (decide (0 ≤ n)) as [H0|H0].
  - destruct (fmt_int_nonneg n H0) as (Hv & Hall & Hne).
    rewrite parse_int_digits; [by rewrite Hv|done|done|lia].
  - destruct n as [|p|p]; [lia|lia|].
    change (fmt_int (Zneg p)) with ("-" +:+ pretty (Npos p)).
    destruct (pretty_N_val (Npos p)) as (Hv & Hall & Hne).
    unfold parse_int. rewrite app_cons. cbn [Ascii.eqb Bool.eqb].
    change ("" +:+ pretty (Npos p)) with (pretty (Npos p)).
    rewrite Hall, Hv, (proj2 (String.eqb_neq _ _) Hne). cbn [orb negb].
    by rewrite (proj2 (Z.leb_le _ _)) by lia.
Qed.
Lemma digits_val_nonneg a s : 0 ≤ a → all_bytes is_digit s = true → 0 ≤ digits_val a s.
Proof.
  revert a. induction s as [|c s IH]; intros a Ha; [done|].
  simpl. intros [?%digit_val_range ?]%andb_true_iff. apply IH; [lia|done].
Qed.
Lemma parse_int_range s n : parse_int s = Some n → in_int64 n.
Proof.
  unfold parse_int, in_int64, min_int64, max_int64.
  match goal with |- context [let '(_, _) := ?x in _] => destruct x as [neg ds] end.
  destruct (_ || _) eqn:E; [done|]. apply orb_false_iff in E as [_ E%negb_false_iff].
  pose proof (digits_val_nonneg 0 ds ltac:(lia) E).
  destruct neg; case_match eqn:Hc; intros [= <-]; [apply Z.leb_le in Hc|apply Z.ltb_lt in Hc]; lia.
Qed.
Lemma parse_uint_digits bits s :
  s ≠ "" → all_bytes is_digit s = true → digits_val 0 s < 2 ^ bits →
  parse_uint bits s = Some (digits_val 0 s).
Proof.
  intros Hne Hall Hlt. unfold parse_uint.
  rewrite Hall, (proj2 (String.eqb_neq _ _) Hne), (proj2 (Z.ltb_lt _ _) Hlt). done.
Qed.
Lemma parse_uint_fmt bits n : 0 ≤ n < 2 ^ bits → parse_uint bits (fmt_int n) = Some n.
Proof.
  intros [H0 H1]. destruct (fmt_int_nonneg n H0) as (Hv & Hall & Hne).
  by rewrite parse_uint_digits; rewrite ?Hv.
Qed.

(** A separator that the tails do not contain is found from the right. *)
Lemma last_sep_inj c a b x y :
  all_bytes (λ d, negb (Ascii.eqb d c)) x = true → all_bytes (λ d, negb (Ascii.eqb d c)) y = true →
  a +:+ String c x = b +:+ String c y → a = b ∧ x = y.
Proof.
  assert (∀ b x y, all_bytes (λ d, negb (Ascii.eqb d c)) x = true →
    "" +:+ String c x = b +:+ String c y → b = "" ∧ x = y) as Hnil.
  { intros [|d b'] x' y' Hx Heq; simpl in Heq; injection Heq as; [done|].
    exfalso. subst. rewrite all_bytes_app in Hx.
    apply andb_true_iff in Hx as [_ Hx]. simpl in Hx. by rewrite Ascii.eqb_refl in Hx. }
  intros Hx Hy. revert b. induction a as [|d a IH]; intros b Heq.
  - by destruct (Hnil _ _ _ Hx Heq) as [-> ->].
  - destruct b as [|d' b]; [by destruct (Hnil _ _ _ Hy (eq_sym Heq)) as [? ?]|].
    injection Heq as -> Heq. by destruct (IH b Heq) as [-> ->].
Qed.
Lemma is_alnum_not_dash c : is_digit c || is_lower c = true → negb (Ascii.eqb c "-") = true.
Proof. intros H. apply negb_true_iff, Ascii.eqb_neq. by intros ->. Qed.

#[export] Hint Resolve str_cmp_refl has_prefix_app parse_int_range : go.
#[export] Hint Rewrite trim_prefix_app parse_int_fmt rev_rev : go.

(** Splitting undoes joining, for parts without the separator. *)
Definition no_sep (c : ascii) (s : string) : bool := all_bytes (λ d, negb (Ascii.eqb c d)) s.
Lemma split_concat c (l : list string) :
  l ≠ [] → Forall (λ s, no_sep c s = true) l → split c (String.concat (String c "") l) = l.
Proof.
  induction l as [|s l IH]; intros Hne Hl; [done|]. apply Forall_cons in Hl as [Hs Hl].
  destruct l as [|s' l]; [by apply split_nosep|].
  change (split c (s +:+ String c (String.concat (String c "") (s' :: l))) = s :: s' :: l).
  by rewrite split_app, split_nosep, IH.
Qed.

(** ** Segments: where the parts of a split stand *)
Definition starts_part (c : ascii) (l : string) : Prop := l = "" ∨ ∃ l', l = l' +:+ String c "".
Definition ends_part (c : ascii) (r : string) : Prop := r = "" ∨ ∃ r', r = String c r'.
Lemma split_no_sep c s : Forall (λ x, no_sep c x = true) (split c s).
Proof.
  induction s as [|d s IH]; simpl; [by repeat constructor|]. destruct (Ascii.eqb_spec c d) as [<-|Hd]; [by constructor|].
  destruct (split c s) as [|y ys] eqn:E; [by destruct (split_nonempty c s)|]. apply Forall_cons in IH as [Hy Hys].
  constructor; [|done]. unfold no_sep in *. simpl. rewrite Hy. by rewrite (proj2 (Ascii.eqb_neq c d) Hd).
Qed.
Lemma concat_cons c x y ys : String.concat (String c "") (x :: y :: ys) = x +:+ String c (String.concat (String c "") (y :: ys)).
Proof. done. Qed.
Lemma split_part c s x : x ∈ split c s → no_sep c x = true ∧
  ∃ l r, s = l +:+ x +:+ r ∧ starts_part c l ∧ ends_part c r.
Proof.
  intros Hx. split; [by apply (proj1 (Forall_forall _ _) (split_no_sep c s))|].
  rewrite <- (concat_split c s). induction Hx as [x ys|x y ys Hx (l & r & Heq & Hl & Hr)].
  - destruct ys as [|y ys]; [exists "", ""; split_and!; [simpl; by rewrite app_nil_r|by left..]|].
    exists "", (String c (String.concat (String c "") (y :: ys))). split_and!; [done|by left|right; by eexists].
  - destruct ys as [|z ys]; [by apply not_elem_of_nil in Hx|].
    rewrite concat_cons, Heq. exists (y +:+ String c l), r. split_and!; [by rewrite <- app_assoc| |done].
    right. destruct Hl as [->|[l' ->]]; [by exists y|]. exists (y +:+ String c l'). by rewrite <- app_assoc.
Qed.
Lemma part_split c l x r : no_sep c x = true → starts_part c l → ends_part c r → x ∈ split c (l +:+ x +:+ r).
Proof.
  intros Hx Hl Hr. assert (x ∈ split c (x +:+ r)) as Hin.
  { destruct Hr as [->|[r' ->]]; [rewrite app_nil_r|rewrite split_app]; rewrite split_nosep by done; set_solver. }
  destruct Hl as [->|[l0 ->]]; [done|]. rewrite <- app_assoc.
  change (String c "" +:+ x +:+ r) with (String c (x +:+ r)). rewrite split_app. set_solver.
Qed.

(** * Runes

    A rune is represented by its UTF-8 encoding; [runes] is the conversion
    [[]rune(s)], in which every byte that starts no valid encoding is the
    replacement character, and [String.concat ""] the conversion back. *)
Definition rune_error : string := bytes [239; 191; 189]%N.
Definition in_byte (lo hi : N) (b : ascii) : bool :=
  (lo <=? N_of_ascii b)%N && (N_of_ascii b <=? hi)%N.
Definition cont : ascii → bool := in_byte 128 191.
Definition lead3 (b0 b1 : ascii) : bool :=
  (in_byte 224 224 b0 && in_byte 160 191 b1) ||
  (in_byte 225 236 b0 && cont b1) ||
  (in_byte 237 237 b0 && in_byte 128 159 b1) ||
  (in_byte 238 239 b0 && cont b1).
Definition lead4 (b0 b1 : ascii) : bool :=
  (in_byte 240 240 b0 && in_byte 144 191 b1) ||
  (in_byte 241 243 b0 && cont b1) ||
  (in_byte 244 244 b0 && in_byte 128 143 b1).

Fixpoint runes (s : string) : list string :=
  match s with
  | EmptyString => []
  | String b0 s1 =>
      if in_byte 0 127 b0 then String b0 "" :: runes s1
      else match s1 with
      | String b1 s2 =>
          if in_byte 194 223 b0 && cont b1 then String b0 (String b1 "") :: runes s2
          else match s2 with
          | String b2 s3 =>
              if lead3 b0 b1 && cont b2
              then String b0 (String b1 (String b2 "")) :: runes s3
              else match s3 with
              | String b3 s4 =>
                  if lead4 b0 b1 && cont b2 && cont b3
                  then String b0 (String b1 (String b2 (String b3 ""))) :: runes s4
                  else rune_error :: runes s1
              | EmptyString => rune_error :: runes s1
              end
          | EmptyString => rune_error :: runes s1
          end
      | EmptyString => rune_error :: runes s1
      end
  end.

(** [strings.ToLower]: byte by byte in an ASCII text, otherwise rune by rune;
    [unicode_lower] is the case table beyond ASCII. *)
Section lower.
  Context (unicode_lower : string → string).
Definition lower_rune (r : string) : string := match r with String c EmptyString => String (lower_byte c) EmptyString | _ => unicode_lower r end.
Definition ToLower (s : string) : string :=
  if all_bytes (in_byte 0 127) s then to_lower s else String.concat "" (map lower_rune (runes s)).
End lower.
(** [strings.TrimRight(s, "/")] *)
Definition trim_right_slash (s : string) : string := String.rev (trim_any (String.length s) ["/"] (String.rev s)).

(** The runes of a string decode to themselves. *)
Definition rune_ok (r : string) : Prop := ∀ t, runes (r +:+ t) = r :: runes t.

Lemma rune_error_ok : rune_ok rune_error.
Proof. intros t. reflexivity. Qed.
Lemma lead_not_ascii b0 lo hi : in_byte lo hi b0 = true → (127 < lo)%N → in_byte 0 127 b0 = false.
Proof. unfold in_byte. rewrite andb_true_iff, andb_false_iff, !N.leb_le, !N.leb_gt. lia. Qed.
(** The shapes of a rune. *)
Lemma runes_forall (P : string → Prop) :
  (∀ b, in_byte 0 127 b = true → P (String b "")) → P rune_error →
  (∀ b0 b1, in_byte 194 223 b0 = true → cont b1 = true → P (String b0 (String b1 ""))) →
  (∀ b0 b1 b2, lead3 b0 b1 = true → cont b2 = true → P (String b0 (String b1 (String b2 "")))) →
  (∀ b0 b1 b2 b3, lead4 b0 b1 = true → cont b2 = true → cont b3 = true →
     P (String b0 (String b1 (String b2 (String b3 ""))))) →
  ∀ s, Forall P (runes s).
Proof.
  intros H1 He H2 H3 H4 s. remember (String.length s) as n eqn:Hn. revert s Hn.
  induction (lt_wf n) as [n _ IHn]. intros s Hn.
  assert (∀ t, (String.length t < n)%nat → Forall P (runes t)) as IH by eauto. clear IHn.
  destruct s as [|b0 s1]; [constructor|]. simpl in Hn. cbn [runes].
  destruct (in_byte 0 127 b0) eqn:E0; [constructor; [auto|apply IH; lia]|].
  destruct s1 as [|b1 s2]; [by repeat constructor|]. simpl in Hn.
  destruct (in_byte 194 223 b0) eqn:E1, (cont b1) eqn:C1; cbn [andb]; [constructor; [auto|apply IH; lia]|..];
    (destruct s2 as [|b2 s3]; [constructor; [done|apply IH; simpl; lia]|]; simpl in Hn;
     destruct (lead3 b0 b1) eqn:E2, (cont b2) eqn:C2; cbn [andb]; [constructor; [auto|apply IH; lia]|..];
     (destruct s3 as [|b3 s4]; [constructor; [done|apply IH; simpl; lia]|]; simpl in Hn;
      destruct (lead4 b0 b1) eqn:E3, (cont b3) eqn:C3; cbn [andb];
      constructor; try done; try (apply IH; simpl; lia); auto)).
Qed.
Lemma lead3_not_ascii b0 b1 : lead3 b0 b1 = true → in_byte 0 127 b0 = false ∧ in_byte 194 223 b0 = false.
Proof.
  unfold lead3, in_byte. rewrite !orb_true_iff, !andb_true_iff, !andb_false_iff, !N.leb_le, !N.leb_gt. lia.
Qed.
Lemma lead4_not_ascii b0 b1 : lead4 b0 b1 = true →
  in_byte 0 127 b0 = false ∧ in_byte 194 223 b0 = false ∧ lead3 b0 b1 = false.
Proof.
  unfold lead4, lead3, in_byte. rewrite !orb_true_iff, !andb_true_iff, !orb_false_iff, !andb_false_iff, !N.leb_le, !N.leb_gt. lia.
Qed.
Lemma runes_ok s : Forall rune_ok (runes s).
Proof.
  apply runes_forall; [intros b Hb t|apply rune_error_ok|intros b0 b1 H0 H1 t|intros b0 b1 b2 H0 H2 t|
    intros b0 b1 b2 b3 H0 H2 H3 t]; simpl.
  - by rewrite Hb.
  - rewrite (lead_not_ascii _ _ _ H0) by lia. by rewrite H0, H1.
  - destruct (lead3_not_ascii _ _ H0) as [-> ->]. simpl. by rewrite H0, H2.
  - destruct (lead4_not_ascii _ _ H0) as (-> & -> & ->). simpl. by rewrite H0, H2, H3.
Qed.
Lemma runes_concat l : Forall rune_ok l → runes (String.concat "" l) = l.
Proof.
  induction 1 as [|r l Hr _ IH]; [done|]. by rewrite concat_empty_cons, Hr, IH.
Qed.

(** ** Trimming *)

(** [c] begins no white space. *)
Definition solid (c : ascii) : bool :=
  forallb (λ p, match p with String d _ => negb (Ascii.eqb d c) | EmptyString => false end) space_runes.
Lemma strip_any_Some ps s r : strip_any ps s = Some r → ∃ p, p ∈ ps ∧ s = p +:+ r.
Proof.
  unfold strip_any. induction ps as [|p ps IH]; simpl; [done|]. destruct (strip_prefix p s) as [r'|] eqn:Hp.
  - intros [= <-]. exists p. split; [by left|]. by apply strip_prefix_Some.
  - intros H. destruct (IH H) as (q & Hq & Heq). exists q. split; [by right|done].
Qed.
Lemma trim_left_solid c s : solid c = true → trim_left_space (String c s) = String c s.
Proof.
  intros Hc. unfold trim_left_space. cbn [String.length trim_any]. destruct (strip_any space_runes (String c s)) as [r|] eqn:Hs; [|done].
  apply strip_any_Some in Hs as (p & Hp & Heq). unfold solid in Hc. rewrite forallb_forall in Hc.
  apply list_elem_of_In, Hc in Hp. destruct p as [|d p]; [done|]. rewrite app_cons in Heq. injection Heq as -> _.
  by rewrite Ascii.eqb_refl in Hp.
Qed.
(** A text whose bytes begin and end no white space is not trimmed. *)
Lemma all_bytes_rev p s : all_bytes p (String.rev s) = all_bytes p s.
Proof.
  induction s as [|c s IH]; [done|]. rewrite rev_cons, all_bytes_app, IH. simpl.
  rewrite andb_true_r. apply andb_comm.
Qed.
Definition starts_outside (q : ascii → bool) (p : string) : bool :=
  match p with String d _ => negb (q d) | EmptyString => false end.
Lemma strip_any_None q ps s :
  forallb (starts_outside q) ps = true → all_bytes q s = true → strip_any ps s = None.
Proof.
  intros Hps Hs. induction ps as [|p ps IH]; [done|]. simpl in *.
  apply andb_true_iff in Hps as [Hp Hps]. destruct (strip_prefix p s) as [r|] eqn:Hr; [|by apply IH].
  apply strip_prefix_Some in Hr as ->. rewrite all_bytes_app in Hs.
  destruct p as [|d p]; [done|]. simpl in *. by destruct (q d).
Qed.
Lemma trim_any_None q ps s : ∀ fuel,
  forallb (starts_outside q) ps = true → all_bytes q s = true → trim_any fuel ps s = s.
Proof. intros [|fuel] Hps Hs; [done|]. simpl. by rewrite (strip_any_None q). Qed.
Lemma trim_space_outside q s : forallb (starts_outside q) space_runes = true → forallb (starts_outside q) (map String.rev space_runes) = true →
  all_bytes q s = true → trim_space s = s.
Proof.
  intros H1 H2 Hs. unfold trim_space, trim_right_space, trim_left_space. rewrite (trim_any_None q space_runes s) by done.
  rewrite (trim_any_None q), rev_rev; [done..|by rewrite all_bytes_rev].
Qed.
Lemma last_byte_snoc s c : last_byte s = Some c → ∃ t, s = t +:+ String c "".
Proof.
  induction s as [|d s IH]; [done|]. destruct s as [|e s]; [intros [= ->]; by exists ""|].
  intros H. destruct (IH H) as [t Ht]. exists (String d t). by rewrite Ht.
Qed.
Lemma trim_any_last fuel ps s c : (∀ p, p ∈ ps → p ≠ "" ∧ last_byte p ≠ Some c) → last_byte s = Some c →
  last_byte (trim_any fuel ps s) = Some c.
Proof.
  intros Hps. revert s. induction fuel as [|fuel IH]; intros s Hs; simpl; [done|].
  destruct (strip_any ps s) as [r|] eqn:Hr; [|done]. apply strip_any_Some in Hr as (p & Hp & ->). apply IH.
  destruct r as [|d r]; [|by rewrite last_byte_app in Hs]. rewrite app_nil_r in Hs. by destruct (Hps p Hp).
Qed.
Lemma last_byte_rev c s : last_byte (String.rev (String c s)) = Some c.
Proof. rewrite rev_cons. by rewrite last_byte_app. Qed.
Lemma trim_right_solid c s : solid c = true → ∃ s', trim_right_space (String c s) = String c s'.
Proof.
  intros Hc. unfold trim_right_space.
  assert (last_byte (trim_any (String.length (String c s)) (map String.rev space_runes) (String.rev (String c s))) = Some c) as Hl.
  { apply trim_any_last; [|apply last_byte_rev]. intros p (q & <- & Hq)%list_elem_of_In%in_map_iff.
    unfold solid in Hc. rewrite forallb_forall in Hc. apply Hc in Hq. destruct q as [|d q]; [done|].
    rewrite last_byte_rev. split; [rewrite rev_cons; by destruct (String.rev q)|].
    intros [= ->]. by rewrite Ascii.eqb_refl in Hq. }
  apply last_byte_snoc in Hl as [t Ht]. exists (String.rev t). by rewrite Ht, rev_app.
Qed.
Lemma trim_solid c s : solid c = true → ∃ s', trim_space (String c s) = String c s'.
Proof. intros Hc. unfold trim_space. rewrite trim_left_solid by done. by apply trim_right_solid. Qed.
