(* ===== verification/Domain.v ===== *)
(** The domain layer (internal/core/domain): the typed errors and [errors.As],
    object classes and metadata, retention policies, the key and name
    validators and the token scopes. *)
From S2P Require Import Prelude GoStr.
Local Open Scope Z_scope.
Set Warnings "-register-all".

(** * Errors (errors.go)

    The reasons collected in [InvalidKeyError] are plain texts in the source
    and carry no typed cause, so they are an enumeration here. *)
Inductive key_reason :=
| KREmpty | KRTooLong | KRLeadingSlash | KRTrailingSlash | KRDotDot
| KRBadByte (b : ascii) (pos : nat) | KREmptySegment | KRDotSegment
| KRReserved.

(** The error types of the program. [Text] is an error without a typed cause
    ([errors.New], [fmt.Errorf] without [%w], [ctx.Err()]), [Wrap] is
    [fmt.Errorf] with [%w]; [checksumMismatch] is cache/engine.go's. *)
Inductive error :=
| NotFoundError (What Key : string)
| InvalidRangeError (Key : string) (Start Length Size : Z)
| ConflictError (What Key Reason : string)
| QuotaExceededError (RepoID Used Limit : Z)
| ForbiddenError (Reason : string)
| UnavailableError (What Reason : string) (Cause : option error)
| TooLargeError (Size Limit : Z)
| InvalidKeyError (Key : string) (Reasons : list key_reason)
| ValidationError (What Value Reason : string)
| UpstreamError (URL : string) (Status : Z) (Cause : option error)
| StaleError (Have Want : string)
| KeyMaterialError (What Path Reason : string) (Cause : option error)
| UnsupportedError (What Why : string)
| checksumMismatch (algo want got : string)
| Text (msg : string)
| Wrap (msg : string) (cause : error).

(** [Unwrap]: the wrapped cause. *)
Definition unwrap (e : error) : option error :=
  match e with
  | UnavailableError _ _ c | UpstreamError _ _ c | KeyMaterialError _ _ _ c => c
  | Wrap _ c => Some c
  | _ => None
  end.

(** [errors.As]: the first error of the [Unwrap] chain of the wanted type. *)
Fixpoint errors_as (want : error → bool) (e : error) : option error :=
  if want e then Some e
  else match e with
       | UnavailableError _ _ (Some c) | UpstreamError _ _ (Some c)
       | KeyMaterialError _ _ _ (Some c) | Wrap _ c => errors_as want c
       | _ => None
       end.

Definition is_NotFound e := match e with NotFoundError _ _ => true | _ => false end.
Definition is_Unavailable e := match e with UnavailableError _ _ _ => true | _ => false end.
Definition is_Upstream e := match e with UpstreamError _ _ _ => true | _ => false end.
Definition is_Stale e := match e with StaleError _ _ => true | _ => false end.
Definition is_TooLarge e := match e with TooLargeError _ _ => true | _ => false end.
Definition is_InvalidKey e := match e with InvalidKeyError _ _ => true | _ => false end.
Definition is_Unsupported e := match e with UnsupportedError _ _ => true | _ => false end.
Definition is_Conflict e := match e with ConflictError _ _ _ => true | _ => false end.
Definition is_Forbidden e := match e with ForbiddenError _ => true | _ => false end.
Definition is_Validation e := match e with ValidationError _ _ _ => true | _ => false end.
Definition is_QuotaExceeded e := match e with QuotaExceededError _ _ _ => true | _ => false end.
Definition is_checksumMismatch e := match e with checksumMismatch _ _ _ => true | _ => false end.

(** [var t *T; errors.As(err, &t)] as a test. *)
Definition has_type (want : error → bool) (e : error) : bool :=
  bool_decide (is_Some (errors_as want e)).

(** The [Is] methods: every error type matches any error of its own type,
    except that [UpstreamError] also compares the status when the target
    sets one. Errors without an [Is] method compare by identity, which no
    caller relies on. *)
Definition error_Is (e target : error) : bool :=
  match e, target with
  | UpstreamError _ s _, UpstreamError _ t _ => (t =? 0) || (t =? s)
  | NotFoundError _ _, NotFoundError _ _
  | InvalidRangeError _ _ _ _, InvalidRangeError _ _ _ _
  | ConflictError _ _ _, ConflictError _ _ _
  | QuotaExceededError _ _ _, QuotaExceededError _ _ _
  | ForbiddenError _, ForbiddenError _
  | UnavailableError _ _ _, UnavailableError _ _ _
  | TooLargeError _ _, TooLargeError _ _
  | InvalidKeyError _ _, InvalidKeyError _ _
  | ValidationError _ _ _, ValidationError _ _ _
  | StaleError _ _, StaleError _ _
  | KeyMaterialError _ _ _ _, KeyMaterialError _ _ _ _
  | UnsupportedError _ _, UnsupportedError _ _ => true
  | _, _ => false
  end.

Abbreviation res := (result error).

(** * Object classes (cache.go) *)
Inductive Kind := KindImmutable | KindMutable.
#[global] Instance Kind_eq_dec : EqDecision Kind.
Proof. solve_decision. Defined.
Record Class_ := mk_Class { class_kind : Kind; class_ttl : Z }.
Definition Immutable : Class_ := mk_Class KindImmutable 0.
Definition Mutable (ttl : Z) : Class_ := mk_Class KindMutable ttl.

(** [Class.Validate]; the unknown-kind branch has no value of [Kind]. *)
Definition Class_Validate (c : Class_) : option error :=
  match class_kind c with
  | KindMutable =>
      if class_ttl c <=? 0
      then Some (ValidationError "класс объекта" "mutable" "mutable требует TTL > 0")
      else None
  | KindImmutable => None
  end.

(** * Index records of mutable objects (objectmeta.go) *)
Record ObjectMeta := mk_ObjectMeta {
  om_Key : string;
  om_StorageKey : string;
  om_Size : Z;
  om_ETag : string;
  om_ContentType : string;
  om_LastModified : Z;
  om_ExpiresAt : Z
}.
#[global] Instance ObjectMeta_eq_dec : EqDecision ObjectMeta.
Proof. solve_decision. Defined.

Definition Expired (m : ObjectMeta) (at_ : Z) : bool :=
  negb (is_zero_time (om_ExpiresAt m)) && negb (at_ <? om_ExpiresAt m).
Definition BytesKey (m : ObjectMeta) : string :=
  if String.eqb (om_StorageKey m) "" then om_Key m else om_StorageKey m.

(** * Retention policies (retention.go) *)
Record Retention := mk_Retention { MinVersions : Z; MaxAgeDays : Z }.
#[global] Instance Retention_eq_dec : EqDecision Retention.
Proof. solve_decision. Defined.
Definition Enabled (r : Retention) : bool := 0 <? MinVersions r.
Definition ValidateRetention (r : Retention) : option error :=
  let value := "min_versions=" +:+ fmt_int (MinVersions r) +:+
               ", max_age_days=" +:+ fmt_int (MaxAgeDays r) in
  let bad reason := Some (ValidationError "политика ретеншна" value reason) in
  if MinVersions r <? 0 then bad "min_versions меньше нуля"
  else if MaxAgeDays r <? 0 then bad "max_age_days меньше нуля"
  else if (MinVersions r =? 1) && (0 <? MaxAgeDays r)
  then bad "min_versions=1 при заданном возрасте: последняя версия может быть удалена (окно 404)"
  else if (MinVersions r =? 0) && (0 <? MaxAgeDays r)
  then bad "max_age_days без min_versions: политика без гарантии минимума"
  else None.

(** * Storage keys (validate.go) *)
Definition maxKeyLen : nat := 767.
Definition maxUsernameLen : nat := 32.
Definition maxRepoNameLen : nat := 64.

Definition allowedKeyByte (b : ascii) : bool :=
  is_lower b || is_upper b || is_digit b ||
  (Ascii.eqb b "/" || Ascii.eqb b "." || Ascii.eqb b "_" || Ascii.eqb b "-") ||
  (Ascii.eqb b "+" || Ascii.eqb b "~" || Ascii.eqb b "^" || Ascii.eqb b ":").

Fixpoint first_bad_byte (ok : ascii → bool) (i : nat) (s : string) : option (ascii * nat) :=
  match s with
  | EmptyString => None
  | String b s' => if ok b then first_bad_byte ok (S i) s' else Some (b, i)
  end.

(** The loop over the segments stops at the first empty or [.] segment. *)
Fixpoint segment_reason (key : string) (segs : list string) : list key_reason :=
  match segs with
  | [] => []
  | seg :: segs' =>
      if String.eqb seg "" && negb (String.eqb key "") then [KREmptySegment]
      else if String.eqb seg "." then [KRDotSegment]
      else segment_reason key segs'
  end.

Definition key_reasons (key : string) : list key_reason :=
  (if String.eqb key "" then [KREmpty] else []) ++
  (if (maxKeyLen <? String.length key)%nat then [KRTooLong] else []) ++
  (if has_prefix key "/" then [KRLeadingSlash] else []) ++
  (if has_suffix key "/" then [KRTrailingSlash] else []) ++
  (if contains key ".." then [KRDotDot] else []) ++
  match first_bad_byte allowedKeyByte 0 key with
  | Some (b, i) => [KRBadByte b i]
  | None => []
  end ++
  segment_reason key (split "/" key).

Definition ValidateKey (key : string) : option error :=
  match key_reasons key with
  | [] => None
  | rs => Some (InvalidKeyError key rs)
  end.

(** * Names (validate.go) *)
Definition isSlugByte (b : ascii) : bool := is_lower b || is_digit b.
Definition slug_ok (b : ascii) : bool :=
  isSlugByte b || Ascii.eqb b "." || Ascii.eqb b "_" || Ascii.eqb b "-".

Definition validateSlug (what name : string) (maxLen : nat) : option error :=
  let bad reason := Some (ValidationError what name reason) in
  match name, last_byte name with
  | String first _, Some last =>
      if (maxLen <? String.length name)%nat
      then bad ("длиннее " +:+ fmt_int (Z.of_nat maxLen) +:+ " байт")
      else if contains name ".." then bad "содержит «..»"
      else if negb (isSlugByte first) then bad "начинается не с буквоцифры"
      else if negb (isSlugByte last) then bad "заканчивается не буквоцифрой"
      else match first_bad_byte slug_ok 0 name with
           (* the source also quotes the byte in this text *)
           | Some (_, i) => bad ("символ на позиции " +:+ fmt_int (Z.of_nat i))
           | None => None
           end
  | _, _ => bad "пустое"
  end.
Definition ValidateUsername (name : string) : option error :=
  validateSlug "имя пользователя" name maxUsernameLen.
Definition ValidateRepoName (name : string) : option error :=
  validateSlug "имя репозитория" name maxRepoNameLen.

(** * Token scopes (token.go, validate.go) *)
Definition ScopeAdmin : string := "admin".
Definition repo_scope (id : Z) : string := "repo:" +:+ fmt_int id +:+ ":write".
Definition AllowsWrite (s : string) (repoID : Z) : bool :=
  if String.eqb s ScopeAdmin then true else String.eqb s (repo_scope repoID).
Definition NormalizeScope (s : string) : res string :=
  let bad := Err (ValidationError "scope" s "ожидается «admin» или «repo:<id>:write»") in
  if String.eqb s ScopeAdmin then Ok ScopeAdmin
  else
    let kindRepo := "repo:" in
    let sufWrite := ":write" in
    if (String.length kindRepo + String.length sufWrite <? String.length s)%nat
       && has_prefix s kindRepo && has_suffix s sufWrite
    then
      let num := trim_suffix (trim_prefix s kindRepo) sufWrite in
      match parse_uint 63 num with
      | Some id => Ok (repo_scope id)
      | None => bad
      end
    else bad.

(** * Upstreams (remote.go), jobs (job.go), repositories (repo.go) *)
Inductive RemoteMode := ModeProxy | ModeMirror.
#[global] Instance RemoteMode_eq_dec : EqDecision RemoteMode.
Proof. solve_decision. Defined.
Record Remote := mk_Remote {
  rm_ID : Z;
  rm_Name : string;
  rm_Ecosystem : string;
  rm_BaseURL : string;
  rm_Mode : RemoteMode;
  rm_Enabled : bool;
  rm_SyncInterval : Z;
  rm_Include : list string;
  rm_ProxyURL : string;
  rm_Eviction : option Retention;
  rm_CreatedAt : Z
}.

Inductive SyncState := StatePending | StateRunning | StateSucceeded | StateFailed.
#[global] Instance SyncState_eq_dec : EqDecision SyncState.
Proof. solve_decision. Defined.

Record Quota := mk_Quota { MaxBytes : Z; MaxObjects : Z }.
Record Repo := mk_Repo {
  repo_ID : Z;
  repo_OwnerID : Z;
  repo_Name : string;
  repo_Ecosystem : string;
  repo_Quota : Quota;
  repo_Retention : Retention;
  repo_CreatedAt : Z
}.

(** * Lemmas *)

Lemma errors_as_type want e e' : errors_as want e = Some e' → want e' = true.
Proof.
  revert e e'. fix IH 1. intros e e' He. destruct e; simpl in He;
    repeat case_match; try congruence; by eapply IH.
Qed.
Lemma has_type_direct want e : want e = true → has_type want e = true.
Proof. intros H. unfold has_type. destruct e; simpl in *; by rewrite H. Qed.
Lemma has_type_wrap want msg e :
  want (Wrap msg e) = false → has_type want (Wrap msg e) = has_type want e.
Proof. intros H. unfold has_type. simpl. by rewrite H. Qed.

Lemma first_bad_byte_None ok i s : first_bad_byte ok i s = None ↔ all_bytes ok s = true.
Proof.
  revert i. induction s as [|b s IH]; intros i; simpl; [done|].
  destruct (ok b); simpl; [apply IH|done].
Qed.

Lemma segment_reason_nil key segs :
  key ≠ "" → segment_reason key segs = [] ↔ Forall (λ g, g ≠ "" ∧ g ≠ ".") segs.
Proof.
  intros Hk. rewrite <- String.eqb_neq in Hk.
  induction segs as [|g segs IH]; simpl; [done|].
  rewrite Forall_cons, <- IH, Hk, <- !String.eqb_neq. simpl.
  destruct (String.eqb g ""), (String.eqb g "."); simpl; naive_solver.
Qed.

(** What [ValidateKey] promises of the keys it accepts. *)
Record key_ok (key : string) : Prop := {
  key_ok_nonempty : key ≠ "";
  key_ok_length : (String.length key ≤ 767)%nat;
  key_ok_bytes : all_bytes allowedKeyByte key = true;
  key_ok_nodots : contains key ".." = false;
  key_ok_segments : Forall (λ g, g ≠ "" ∧ g ≠ ".") (split "/" key)
}.

Lemma segments_no_leading key :
  Forall (λ g, g ≠ "" ∧ g ≠ ".") (split "/" key) → has_prefix key "/" = false.
Proof.
  intros H. apply not_true_iff_false. intros [r ->]%has_prefix_spec.
  change ("/" +:+ r) with ("" +:+ String "/" r) in H. rewrite split_app in H.
  by apply Forall_app in H as [[[? _] _]%Forall_cons _].
Qed.
Lemma segments_no_trailing key :
  Forall (λ g, g ≠ "" ∧ g ≠ ".") (split "/" key) → has_suffix key "/" = false.
Proof.
  intros H. apply not_true_iff_false. intros [r ->]%has_suffix_spec.
  change (r +:+ "/") with (r +:+ String "/" "") in H. rewrite split_app in H.
  by apply Forall_app in H as [_ [[? _] _]%Forall_cons].
Qed.

Lemma if_nil {A} (b : bool) (x : A) (l : list A) :
  (if b then [x] else []) ++ l = [] ↔ b = false ∧ l = [].
Proof. destruct b; simpl; naive_solver. Qed.

Lemma key_reasons_nil key : key_reasons key = [] ↔ key_ok key.
Proof.
  unfold key_reasons. rewrite !if_nil, String.eqb_neq, Nat.ltb_ge, app_nil.
  split.
  - intros (Hne & Hlen & Hpre & Hsuf & Hdots & Hbad & Hseg).
    rewrite segment_reason_nil in Hseg by done.
    split; [done|done| |done|done].
    apply (first_bad_byte_None _ 0). by repeat case_match.
  - intros [Hne Hlen Hbytes Hdots Hseg].
    split_and!; auto using segments_no_leading, segments_no_trailing.
    + by rewrite (proj2 (first_bad_byte_None _ 0 _) Hbytes).
    + by rewrite segment_reason_nil.
Qed.

(** [ValidateKey] accepts exactly the keys that are non-empty, at most
    767 bytes long, made of the whitelisted bytes, without "..", and whose
    "/"-separated segments are neither empty nor "."; every violation is
    reported as an [InvalidKeyError] that carries all the reasons found. *)
Theorem ValidateKey_correct (key : string) :
  (ValidateKey key = None ↔ key_ok key) ∧
  (ValidateKey key ≠ None → ValidateKey key = Some (InvalidKeyError key (key_reasons key))).
Proof.
  unfold ValidateKey. rewrite <- key_reasons_nil.
  split; destruct (key_reasons key); naive_solver.
Qed.

Lemma ValidateKey_ok key : ValidateKey key = None ↔ key_ok key.
Proof. rewrite <- key_reasons_nil. unfold ValidateKey. by destruct (key_reasons key). Qed.

Lemma fmt_int_inj n m : fmt_int n = fmt_int m → n = m.
Proof. unfold fmt_int. apply (inj pretty). Qed.
Lemma append_inj_r s t u : s +:+ u = t +:+ u → s = t.
Proof.
  intros H. apply (f_equal String.rev) in H. rewrite !rev_app in H.
  apply app_inj_l in H. by rewrite <- (rev_rev s), H, rev_rev.
Qed.
Lemma repo_scope_inj n m : repo_scope n = repo_scope m → n = m.
Proof.
  unfold repo_scope. intros H%app_inj_l%append_inj_r. by apply fmt_int_inj.
Qed.

Lemma NormalizeScope_repo id :
  0 ≤ id < 2 ^ 63 → NormalizeScope (repo_scope id) = Ok (repo_scope id).
Proof.
  intros Hid. unfold NormalizeScope, repo_scope.
  change (String.eqb _ ScopeAdmin) with false. cbn [negb].
  rewrite has_prefix_app, trim_prefix_app. rewrite app_assoc.
  rewrite (proj2 (has_suffix_spec _ _)) by eauto.
  unfold trim_suffix. rewrite (proj2 (strip_suffix_Some _ _ _) eq_refl). simpl.
  rewrite parse_uint_fmt by done.
  destruct (fmt_int_nonneg id) as (_ & _ & Hne); [lia|].
  rewrite (proj2 (Nat.ltb_lt _ _)); [done|].
  rewrite !length_app_str. destruct (fmt_int id); [done|simpl; lia].
Qed.

Lemma parse_uint_range bits s n : parse_uint bits s = Some n → 0 ≤ n < 2 ^ bits.
Proof.
  unfold parse_uint. destruct (_ || _) eqn:E; [done|].
  apply orb_false_iff in E as [_ Hall%negb_false_iff].
  destruct (_ <? _) eqn:Hlt; intros [= <-]. apply Z.ltb_lt in Hlt. split; [|done].
  by apply digits_val_nonneg.
Qed.

Lemma NormalizeScope_inv s c :
  NormalizeScope s = Ok c →
  c = ScopeAdmin ∨ ∃ id, 0 ≤ id < 2 ^ 63 ∧ c = repo_scope id.
Proof.
  unfold NormalizeScope. destruct (String.eqb s ScopeAdmin); [intros [= <-]; by left|].
  destruct (_ && _); [|done]. destruct (parse_uint 63 _) as [id|] eqn:E; [|done].
  intros [= <-]. right. exists id. eauto using parse_uint_range.
Qed.

(** A scope that [NormalizeScope] accepts is canonical (normalizing it
    again changes nothing), so that two spellings of a scope cannot coexist;
    and it grants write access to every repository when it is the admin
    scope, and otherwise to exactly the one repository it names. *)
Theorem NormalizeScope_canonical (s c : string) :
  NormalizeScope s = Ok c →
  NormalizeScope c = Ok c ∧
  ((c = ScopeAdmin ∧ ∀ r, AllowsWrite c r = true) ∨
   (∃ id, 0 ≤ id < 2 ^ 63 ∧ c = repo_scope id ∧ ∀ r, AllowsWrite c r = true ↔ r = id)).
Proof.
  intros [->|(id & Hid & ->)]%NormalizeScope_inv; [by auto|].
  split; [by apply NormalizeScope_repo|]. right. exists id. split_and!; try lia; [done|].
  intros r. unfold AllowsWrite. change (String.eqb (repo_scope id) ScopeAdmin) with false.
  cbn. rewrite String.eqb_eq. split; [intros H; by apply repo_scope_inj in H|by intros ->].
Qed.

Example NormalizeScope_canonical_witness :
  NormalizeScope "repo:007:write" = Ok "repo:7:write" ∧
  NormalizeScope "repo:7:write" = Ok "repo:7:write".
Proof.
  split; [vm_compute; reflexivity|].
  apply (NormalizeScope_canonical "repo:007:write" "repo:7:write"). vm_compute; reflexivity.
Defined.

Lemma ValidateRetention_None r :
  ValidateRetention r = None ↔
  0 ≤ MinVersions r ∧ 0 ≤ MaxAgeDays r ∧ (MaxAgeDays r > 0 → 2 ≤ MinVersions r).
Proof.
  unfold ValidateRetention.
  destruct (Z.ltb_spec (MinVersions r) 0); [split; [done|lia]|].
  destruct (Z.ltb_spec (MaxAgeDays r) 0); [split; [done|lia]|].
  destruct (Z.eqb_spec (MinVersions r) 1), (Z.eqb_spec (MinVersions r) 0),
    (Z.ltb_spec 0 (MaxAgeDays r)); simpl; split; try done; lia.
Qed.
