(* ===== verification/Port.v ===== *)
(** The ports (internal/core/port): what the engines promise each other and
    ask of the outside, as type classes over an abstract state, with the
    in-memory doubles of internal/testutil as instances.

    An operation is explicit state passing, so an implementation may fail at
    any call: the laws speak about what a call did change, and every theorem
    that is proved against them holds for failing storages and indexes.
    Cancellation ([ctx]) is one more source of errors of an implementation. *)
From S2P Require Import Prelude GoStr Domain.
Local Open Scope Z_scope.

Definition len (s : string) : Z := Z.of_nat (String.length s).
Definition substr (start length : Z) (s : string) : string :=
  String.substring (Z.to_nat start) (Z.to_nat length) s.

(** * Storage (storage.go) *)
Record Meta := mk_Meta {
  mt_Key : string;
  mt_Size : Z;
  mt_ETag : string;
  mt_ContentType : string;
  mt_ModTime : Z
}.
#[global] Instance Meta_eq_dec : EqDecision Meta.
Proof. solve_decision. Defined.
(** [Object]: the metadata and the bytes that its reader yields. *)
Definition Object : Type := Meta * string.
Definition no_Meta : Meta := mk_Meta "" 0 "" "" 0.
Definition no_Object : Object := (no_Meta, "").

Class Storage (S : Type) := {
  Writer : Type;
  Get : string → St S (res Object);
  GetRange : string → Z → Z → St S (res string);
  Stat : string → St S (res Meta);
  Put : string → St S (res Writer);
  Write : Writer → string → St S (res Writer);
  Commit : Writer → St S (option error);
  Abort : Writer → St S (option error);
  Delete : string → St S (option error);
  List : string → St S (list Meta * option error)
}.

(** The contract of [Storage]: [contents] is what is committed. A writer
    collects the bytes of its successful writes; they become visible at the
    commit only, and a failed commit has committed either nothing or
    everything. A listing without error names every object of the prefix. The
    laws ask no more than every implementation keeps: nothing is promised of a
    range whose end overflows, nor of a prefix that ends in a dot. *)
Definition listable (prefix : string) : Prop := last_byte prefix ≠ Some "."%char.
Class StorageLaws (S : Type) `{Storage S} := {
  contents : S → gmap string string;
  w_key : Writer → string;
  w_bytes : Writer → string;
  Get_keeps k : keeps contents (Get k);
  Get_Ok k s m b : (Get k s).1 = Ok (m, b) →
    contents s !! k = Some b ∧ mt_Key m = k ∧ mt_Size m = len b;
  Get_NotFound k s e : (Get k s).1 = Err e → has_type is_NotFound e = true → contents s !! k = None;
  GetRange_keeps k a n : keeps contents (GetRange k a n);
  GetRange_Ok k a n s b : in_int64 a → in_int64 n → in_int64 (a + n) → (GetRange k a n s).1 = Ok b →
    ∃ all, contents s !! k = Some all ∧ b = substr a n all ∧ len b = n;
  Stat_keeps k : keeps contents (Stat k);
  Stat_Ok k s m : (Stat k s).1 = Ok m →
    ∃ b, contents s !! k = Some b ∧ mt_Key m = k ∧ mt_Size m = len b;
  Stat_NotFound k s e : (Stat k s).1 = Err e → has_type is_NotFound e = true → contents s !! k = None;
  Put_keeps k : keeps contents (Put k);
  Put_Ok k s w : (Put k s).1 = Ok w → w_key w = k ∧ w_bytes w = "";
  Write_keeps w c : keeps contents (Write w c);
  Write_Ok w c s w' : (Write w c s).1 = Ok w' →
    w_key w' = w_key w ∧ w_bytes w' = w_bytes w +:+ c;
  Commit_None w s : (Commit w s).1 = None →
    contents (Commit w s).2 = <[w_key w := w_bytes w]> (contents s);
  Commit_Some w s : contents (Commit w s).2 = contents s ∨
    contents (Commit w s).2 = <[w_key w := w_bytes w]> (contents s);
  Abort_keeps w : keeps contents (Abort w);
  Delete_None k s : (Delete k s).1 = None → contents (Delete k s).2 = delete k (contents s);
  Delete_Some k s : contents (Delete k s).2 = contents s ∨
    contents (Delete k s).2 = delete k (contents s);
  Delete_NotFound k s e : (Delete k s).1 = Some e → has_type is_NotFound e = true →
    contents (Delete k s).2 !! k = None;
  List_keeps p : keeps contents (List p);
  List_sub p s m : m ∈ (List p s).1.1 →
    has_prefix (mt_Key m) p = true ∧
    ∃ b, contents s !! mt_Key m = Some b ∧ mt_Size m = len b;
  List_nodup p s : NoDup (mt_Key <$> (List p s).1.1);
  List_complete p s k : listable p → (List p s).1.2 = None → is_Some (contents s !! k) →
    has_prefix k p = true → k ∈ mt_Key <$> (List p s).1.1
}.
#[export] Hint Resolve Get_keeps GetRange_keeps Stat_keeps Put_keeps Write_keeps
  Abort_keeps List_keeps : go.

Lemma listable_slash s : listable (s +:+ "/").
Proof. unfold listable. by rewrite last_byte_app. Qed.

(** * The index of mutable objects (catalog.go) *)
Class ObjectIndex (I : Type) := {
  ObjectMeta_of : string → St I (res ObjectMeta);
  PutObjectMeta : ObjectMeta → St I (option error);
  DeleteObjectMeta : string → St I (option error);
  (* the records that the traversal hands to its callback, and its error *)
  AllObjectMeta : St I (list ObjectMeta * option error)
}.
(** The contract of [ObjectIndex]. [stored m] is what the index keeps of the
    record [m]: a database rounds the times. A call without an error has taken
    place; one with an error has taken place or not, since the answer of a
    database may be lost after the commit. *)
Class ObjectIndexLaws (I : Type) `{ObjectIndex I} := {
  indexed : I → gmap string ObjectMeta;
  stored : ObjectMeta → ObjectMeta;
  stored_Key m : om_Key (stored m) = om_Key m;
  stored_StorageKey m : om_StorageKey (stored m) = om_StorageKey m;
  stored_Size m : om_Size (stored m) = om_Size m;
  stored_ETag m : om_ETag (stored m) = om_ETag m;
  stored_ContentType m : om_ContentType (stored m) = om_ContentType m;
  ObjectMeta_of_keeps k : keeps indexed (ObjectMeta_of k);
  ObjectMeta_of_Ok k i m : (ObjectMeta_of k i).1 = Ok m → indexed i !! k = Some m;
  PutObjectMeta_None m i : (PutObjectMeta m i).1 = None →
    indexed (PutObjectMeta m i).2 = <[om_Key m := stored m]> (indexed i);
  PutObjectMeta_Some m i : indexed (PutObjectMeta m i).2 = indexed i ∨
    indexed (PutObjectMeta m i).2 = <[om_Key m := stored m]> (indexed i);
  DeleteObjectMeta_None k i : (DeleteObjectMeta k i).1 = None →
    indexed (DeleteObjectMeta k i).2 = delete k (indexed i);
  DeleteObjectMeta_Some k i : indexed (DeleteObjectMeta k i).2 = indexed i ∨
    indexed (DeleteObjectMeta k i).2 = delete k (indexed i);
  AllObjectMeta_keeps : keeps indexed AllObjectMeta;
  AllObjectMeta_sound i m : m ∈ (AllObjectMeta i).1.1 → ∃ k, indexed i !! k = Some m;
  AllObjectMeta_complete i k m : (AllObjectMeta i).1.2 = None → indexed i !! k = Some m →
    m ∈ (AllObjectMeta i).1.1
}.
#[export] Hint Resolve ObjectMeta_of_keeps AllObjectMeta_keeps : go.

Lemma stored_BytesKey {I} `{ObjectIndexLaws I} m : BytesKey (stored m) = BytesKey m.
Proof. unfold BytesKey. by rewrite stored_StorageKey, stored_Key. Qed.

(** [lost i b]: some write of a record with the bytes [b] was reported as
    failed although it took place and gave its key other bytes than before. A
    ghost: no operation reads it. *)
Class IndexWatch (I : Type) `{ObjectIndexLaws I} := {
  lost : I → string → Prop;
  ObjectMeta_of_watch k : keeps lost (ObjectMeta_of k);
  PutObjectMeta_watch m i b : lost i b → lost (PutObjectMeta m i).2 b;
  PutObjectMeta_lost m i e : (PutObjectMeta m i).1 = Some e →
    indexed (PutObjectMeta m i).2 = indexed i ∨
    BytesKey <$> indexed i !! om_Key m = Some (BytesKey m) ∨
    lost (PutObjectMeta m i).2 (BytesKey m)
}.
#[export] Hint Resolve ObjectMeta_of_watch : go.

(** Any index with a log of its lost answers: the keys of the bytes of the
    records that it took while it reported an error. *)
Record Watched (I : Type) := mk_Watched { watched : I; lost_answers : list string }.
Arguments mk_Watched {I} _ _.
Arguments watched {I} _.
Arguments lost_answers {I} _.
Section watched.
  Context {I : Type} `{ObjectIndexLaws I}.
Definition set_watched (i : I) (w : Watched I) : Watched I := mk_Watched i (lost_answers w).
(** Whether [PutObjectMeta m] from [i] to [i'] with the answer [r] lost it. *)
Definition answer_lost (m : ObjectMeta) (i : I) (r : option error) (i' : I) : bool :=
  match r with
  | Some _ => bool_decide (BytesKey <$> indexed i' !! om_Key m ≠ BytesKey <$> indexed i !! om_Key m)
  | None => false
  end.
#[export] Instance Watched_ObjectIndex : ObjectIndex (Watched I) := {
  ObjectMeta_of key := zoom watched set_watched (ObjectMeta_of key);
  PutObjectMeta m w :=
    let '(r, i) := PutObjectMeta m (watched w) in
    (r, mk_Watched i (if answer_lost m (watched w) r i then lost_answers w ++ [BytesKey m] else lost_answers w));
  DeleteObjectMeta key := zoom watched set_watched (DeleteObjectMeta key);
  AllObjectMeta := zoom watched set_watched AllObjectMeta
}.

Lemma watched_zoom {A} (op : St I A) w :
  zoom watched set_watched op w = ((op (watched w)).1, mk_Watched (op (watched w)).2 (lost_answers w)).
Proof. unfold zoom. by destruct (op (watched w)). Qed.
Lemma watched_Put m w : (PutObjectMeta m w).1 = (PutObjectMeta m (watched w)).1 ∧
  watched (PutObjectMeta m w).2 = (PutObjectMeta m (watched w)).2.
Proof. simpl. by destruct (PutObjectMeta m (watched w)). Qed.
#[export] Instance Watched_laws : ObjectIndexLaws (Watched I).
Proof.
  refine {| indexed w := indexed (watched w); stored := stored |}.
  - apply stored_Key.
  - apply stored_StorageKey.
  - apply stored_Size.
  - apply stored_ETag.
  - apply stored_ContentType.
  - intros k w. simpl. rewrite watched_zoom. apply ObjectMeta_of_keeps.
  - intros k w m. simpl. rewrite watched_zoom. apply ObjectMeta_of_Ok.
  - intros m w. destruct (watched_Put m w) as [-> ->]. apply PutObjectMeta_None.
  - intros m w. destruct (watched_Put m w) as [_ ->]. apply PutObjectMeta_Some.
  - intros k w. simpl. rewrite watched_zoom. apply DeleteObjectMeta_None.
  - intros k w. simpl. rewrite watched_zoom. apply DeleteObjectMeta_Some.
  - intros w. simpl. rewrite watched_zoom. apply AllObjectMeta_keeps.
  - intros w m. simpl. rewrite watched_zoom. apply AllObjectMeta_sound.
  - intros w k m. simpl. rewrite watched_zoom. apply AllObjectMeta_complete.
Defined.
#[export] Instance Watched_watch : IndexWatch (Watched I).
Proof.
  refine {| lost w b := b ∈ lost_answers w |}.
  - intros k w. simpl. by rewrite watched_zoom.
  - intros m w b Hb. simpl. destruct (PutObjectMeta m (watched w)) as [r i]. simpl.
    destruct (answer_lost _ _ _ _); [|done]. apply elem_of_app. by left.
  - intros m w e. simpl. pose proof (PutObjectMeta_Some m (watched w)) as Hput.
    destruct (PutObjectMeta m (watched w)) as [r i]. simpl in *. intros ->.
    destruct Hput as [->|Hput]; [by left|]. right. simpl.
    case_bool_decide as Hne; [right; apply elem_of_app; right; by left|]. left.
    rewrite <- Hne, Hput, lookup_insert_eq. simpl. by rewrite stored_BytesKey.
Defined.
End watched.

(** [spares view P m]: the operation [m] deletes nothing but keys of [P], and
    changes no bytes of what [view] shows. *)
Definition spares {T A} (view : T → gmap string string) (P : string → Prop) (m : St T A) : Prop :=
  ∀ e k, view (m e).2 !! k = view e !! k ∨ P k ∧ view (m e).2 !! k = None.

Section spares.
  Context {T : Type} (view : T → gmap string string).

Lemma spares_keeps {A} P (m : St T A) : keeps view m → spares view P m.
Proof. intros Hm e k. left. by rewrite Hm. Qed.
Lemma spares_bind {A B} P (m : St T A) (f : A → St T B) :
  spares view P m → (∀ a, spares view P (f a)) → spares view P (m ≫= f).
Proof.
  intros Hm Hk e x. unfold mbind, st_bind. specialize (Hm e x).
  destruct (m e) as [a e1]. simpl in Hm. destruct (Hk a e1 x) as [->|?]; [done|by right].
Qed.
Lemma spares_mono {A} (P Q : string → Prop) (m : St T A) :
  (∀ k, P k → Q k) → spares view P m → spares view Q m.
Proof. intros HPQ Hm e k. destruct (Hm e k) as [?|[? ?]]; [by left|right; auto]. Qed.
Lemma spares_delete {A} (P : string → Prop) (m : St T A) key :
  (∀ e, view (m e).2 = view e ∨ view (m e).2 = delete key (view e)) → P key → spares view P m.
Proof.
  intros Hm HP e k. destruct (Hm e) as [->| ->]; [by left|].
  destruct (decide (key = k)) as [<-|Hne]; [right; split; [done|apply lookup_delete_eq]|].
  left. by apply lookup_delete_ne.
Qed.
End spares.

(** * The in-memory storage (testutil/storage.go)

    The source keeps the [Meta] that [Commit] builds next to the bytes; it is
    a function of the key, the bytes and the time of the commit, so only the
    last two are kept here. *)
Record FakeStorage := mk_FakeStorage {
  objects : gmap string (string * Z);
  storage_clock : Z
}.
Definition fake_meta (key : string) (o : string * Z) : Meta :=
  mk_Meta key (len o.1) "" "" o.2.
(** [fakeWriter]: the key, the bytes and whether it is finished. *)
Definition fakeWriter : Type := string * string * bool.

Definition str_le (a b : string) : Prop := str_cmp a b ≤ 0.
#[global] Instance str_le_dec a b : Decision (str_le a b).
Proof. unfold str_le. apply _. Defined.
#[export] Instance str_le_trans : Transitive str_le.
Proof. intros a b c. unfold str_le, str_cmp. apply cmp_int_trans, _. Qed.
#[export] Instance str_le_total : Total str_le.
Proof. intros a b. unfold str_le. rewrite (str_cmp_antisym b a). lia. Qed.
Definition sorted_keys {A} (m : gmap string A) : list string :=
  merge_sort str_le (map_to_list m).*1.

Definition fake_guarded {A} (key : string) (bad : error → A)
    (k : FakeStorage → A * FakeStorage) : St FakeStorage A := λ s,
  match ValidateKey key with Some e => (bad e, s) | None => k s end.
Definition not_found (key : string) : error := NotFoundError "объект" key.

Definition fake_Get (key : string) : St FakeStorage (res Object) :=
  fake_guarded key Err (λ s,
    match objects s !! key with
    | Some o => (Ok (fake_meta key o, o.1), s)
    | None => (Err (not_found key), s)
    end).
Definition fake_GetRange (key : string) (start length : Z) : St FakeStorage (res string) :=
  fake_guarded key Err (λ s,
    match objects s !! key with
    | Some (data, _) =>
        let size := len data in
        if (start <? 0) || (length <=? 0) || (size <? wrap64 (start + length))
        then (Err (InvalidRangeError key start length size), s)
        else if wrap64 (start + length) <? start (* the slice expression panics *)
        then (Err (Text "panic: slice bounds out of range"), s)
        else (Ok (substr start length data), s)
    | None => (Err (not_found key), s)
    end).
Definition fake_Stat (key : string) : St FakeStorage (res Meta) :=
  fake_guarded key Err (λ s,
    match objects s !! key with
    | Some o => (Ok (fake_meta key o), s)
    | None => (Err (not_found key), s)
    end).
Definition fake_Put (key : string) : St FakeStorage (res fakeWriter) :=
  fake_guarded key Err (λ s, (Ok (key, "", false), s)).
Definition fake_Write (w : fakeWriter) (p : string) : St FakeStorage (res fakeWriter) :=
  let '(key, buf, done) := w in
  if done : bool then mret (Err (Text "fakestorage: запись после завершения Writer"))
  else mret (Ok (key, buf +:+ p, false)).
Definition fake_Commit (w : fakeWriter) : St FakeStorage (option error) := λ s,
  let '(key, buf, done) := w in
  if done : bool then (Some (Text "fakestorage: повторный Commit"), s)
  else (None, mk_FakeStorage
          (<[key := (buf, storage_clock s)]> (objects s))
          (storage_clock s)).
Definition fake_Abort (w : fakeWriter) : St FakeStorage (option error) :=
  let '(_, _, done) := w in
  mret (if done : bool then Some (Text "fakestorage: повторный Abort") else None).
Definition fake_Delete (key : string) : St FakeStorage (option error) :=
  fake_guarded key Some (λ s,
    match objects s !! key with
    | Some _ => (None, mk_FakeStorage (delete key (objects s)) (storage_clock s))
    | None => (Some (not_found key), s)
    end).
Definition fake_List (prefix : string) : St FakeStorage (list Meta * option error) := λ s,
  let keys := List.filter (λ k, has_prefix k prefix) (sorted_keys (objects s)) in
  (omap (λ k, fake_meta k <$> objects s !! k) keys, None, s).

#[export] Instance FakeStorage_Storage : Storage FakeStorage := {
  Writer := fakeWriter; Get := fake_Get; GetRange := fake_GetRange; Stat := fake_Stat;
  Put := fake_Put; Write := fake_Write; Commit := fake_Commit; Abort := fake_Abort;
  Delete := fake_Delete; List := fake_List
}.

Lemma fake_guarded_keeps {A T} (f : FakeStorage → T) key bad (k : FakeStorage → A * FakeStorage) :
  (∀ s, f (k s).2 = f s) → keeps f (fake_guarded key bad k).
Proof. intros H s. unfold fake_guarded. by destruct (ValidateKey key). Qed.
Lemma fake_guarded_Ok {A} key (k : FakeStorage → res A * FakeStorage) s a :
  (fake_guarded key Err k s).1 = Ok a → (k s).1 = Ok a.
Proof. unfold fake_guarded. by destruct (ValidateKey key). Qed.

Lemma sorted_keys_elem {A} (m : gmap string A) k : k ∈ sorted_keys m ↔ is_Some (m !! k).
Proof.
  unfold sorted_keys. rewrite merge_sort_Permutation. split.
  - intros ([k' a] & -> & Hka)%list_elem_of_fmap. apply elem_of_map_to_list in Hka. eauto.
  - intros [a Ha]. apply list_elem_of_fmap. exists (k, a). by rewrite elem_of_map_to_list.
Qed.
Lemma sorted_keys_nodup {A} (m : gmap string A) : NoDup (sorted_keys m).
Proof. unfold sorted_keys. rewrite merge_sort_Permutation. apply NoDup_fst_map_to_list. Qed.

Definition fake_contents (s : FakeStorage) : gmap string string := fst <$> objects s.

Lemma fake_contents_lookup s k o : objects s !! k = Some o → fake_contents s !! k = Some o.1.
Proof. unfold fake_contents. by rewrite lookup_fmap; intros ->. Qed.
Lemma fake_List_elem p s m :
  m ∈ (fake_List p s).1.1 ↔
  ∃ k o, objects s !! k = Some o ∧ has_prefix k p = true ∧ m = fake_meta k o.
Proof.
  simpl. rewrite list_elem_of_omap. split.
  - intros (k & Hk & Hm). apply list_elem_of_In, List.filter_In in Hk as [_ Hp].
    apply fmap_Some in Hm as (o & Ho & ->). eauto.
  - intros (k & o & Ho & Hp & ->). exists k. rewrite Ho. split; [|done].
    apply list_elem_of_In, List.filter_In. split; [|done].
    apply list_elem_of_In, sorted_keys_elem. eauto.
Qed.
Lemma fake_List_keys p s :
  mt_Key <$> (fake_List p s).1.1 =
  List.filter (λ k, has_prefix k p) (sorted_keys (objects s)).
Proof.
  simpl. assert (∀ k, k ∈ List.filter (λ k, has_prefix k p) (sorted_keys (objects s)) →
    is_Some (objects s !! k)) as Hall.
  { intros k Hk%list_elem_of_In%List.filter_In. apply sorted_keys_elem. by apply list_elem_of_In, Hk. }
  revert Hall. induction (List.filter _ _) as [|k ks IH]; intros Hall; [done|]. simpl.
  destruct (Hall k) as [o ->]; [by left|]. simpl. f_equal. apply IH. intros k' Hk'. apply Hall. by right.
Qed.
Lemma NoDup_List_filter {A} (f : A → bool) (l : list A) : NoDup l → NoDup (List.filter f l).
Proof.
  induction 1 as [|x l Hx _ IH]; simpl; [constructor|]. destruct (f x); [|done].
  constructor; [|done]. rewrite list_elem_of_In, List.filter_In, <- list_elem_of_In. tauto.
Qed.

Lemma substr_len a n s : 0 ≤ a → 0 ≤ n → a + n ≤ len s → len (substr a n s) = n.
Proof.
  unfold len, substr. intros Ha Hn H.
  assert (∀ i j t, (i + j ≤ String.length t)%nat → String.length (String.substring i j t) = j) as Hs.
  { induction i as [|i IHi]; intros j t; revert j; induction t as [|c t IHt]; intros [|j] Hl;
      simpl in *; try lia; try (rewrite IHt; lia); try (apply IHi; lia). }
  rewrite Hs; lia.
Qed.

Lemma fake_Delete_contents k s :
  fake_contents (fake_Delete k s).2 = fake_contents s ∨
  fake_contents (fake_Delete k s).2 = delete k (fake_contents s).
Proof.
  unfold fake_Delete, fake_guarded. destruct (ValidateKey k); [by left|].
  destruct (objects s !! k); [|by left]. right. simpl. apply fmap_delete.
Qed.
Lemma fake_GetRange_Ok k a n s b :
  in_int64 a → in_int64 n → in_int64 (a + n) → (fake_GetRange k a n s).1 = Ok b →
  ∃ all, fake_contents s !! k = Some all ∧ b = substr a n all ∧ len b = n.
Proof.
  intros Hia Hin Hsum H%fake_guarded_Ok. simpl in H. destruct (objects s !! k) as [[data t]|] eqn:Hk; [|done].
  apply fake_contents_lookup in Hk. simpl in Hk.
  destruct (_ || _) eqn:Hg; [done|]. rewrite wrap64_small in Hg by done.
  rewrite !orb_false_iff, !Z.ltb_ge, Z.leb_gt in Hg.
  destruct Hg as [[Ha Hn] Hsz]. destruct (wrap64 (a + n) <? a); [done|].
  injection H as <-. exists data. split_and!; [done..|]. apply substr_len; lia.
Qed.

#[export] Instance FakeStorage_laws : StorageLaws FakeStorage.
Proof.
  refine {| contents := fake_contents; w_key := λ w, w.1.1; w_bytes := λ w, w.1.2 |}.
  - intros k. apply fake_guarded_keeps. intros s. by destruct (objects s !! k).
  - intros k s m b H%fake_guarded_Ok. destruct (objects s !! k) as [o|] eqn:Hk; [|done].
    apply fake_contents_lookup in Hk. simpl in H. by injection H as <- <-.
  - intros k s e. simpl. unfold fake_Get, fake_guarded, ValidateKey.
    destruct (key_reasons k); [|by intros [= <-]]. unfold fake_contents. rewrite lookup_fmap.
    by destruct (objects s !! k).
  - intros k a n. apply fake_guarded_keeps. intros s. destruct (objects s !! k) as [[data t]|]; [|done].
    simpl. destruct (_ || _ || _); [done|]. by destruct (_ <? a).
  - apply fake_GetRange_Ok.
  - intros k. apply fake_guarded_keeps. intros s. by destruct (objects s !! k).
  - intros k s m H%fake_guarded_Ok. destruct (objects s !! k) as [o|] eqn:Hk; [|done].
    apply fake_contents_lookup in Hk. simpl in H. injection H as <-. eauto.
  - intros k s e. simpl. unfold fake_Stat, fake_guarded, ValidateKey.
    destruct (key_reasons k); [|by intros [= <-]]. unfold fake_contents. rewrite lookup_fmap.
    by destruct (objects s !! k).
  - intros k. by apply fake_guarded_keeps.
  - intros k s w H%fake_guarded_Ok. simpl in H. by injection H as <-.
  - intros [[? ?] []] c ?; done.
  - intros [[k b] []] c s w'; simpl; [done|]. by intros [= <-].
  - intros [[k b] []] s; simpl; [done|]. intros _. unfold fake_contents. simpl.
    apply fmap_insert.
  - intros [[k b] []] s; simpl; [by left|]. right. apply fmap_insert.
  - by intros [[k b] []] s.
  - intros k s. simpl. unfold fake_Delete, fake_guarded. destruct (ValidateKey k); [done|].
    destruct (objects s !! k); [|done]. intros _. apply fmap_delete.
  - apply fake_Delete_contents.
  - intros k s e. simpl. unfold fake_Delete, fake_guarded, ValidateKey, fake_contents.
    destruct (key_reasons k); [|by intros [= <-]].
    destruct (objects s !! k) eqn:E; [done|]. intros _ _. simpl. by rewrite lookup_fmap, E.
  - done.
  - intros p s m (k & o & Ho & Hp & ->)%fake_List_elem. simpl.
    apply fake_contents_lookup in Ho. eauto.
  - intros p s. rewrite fake_List_keys. apply NoDup_List_filter, sorted_keys_nodup.
  - intros p s k _ _ Hk Hp. rewrite fake_List_keys.
    apply list_elem_of_In, List.filter_In. split; [|done].
    apply list_elem_of_In, sorted_keys_elem. unfold contents, fake_contents in Hk.
    rewrite lookup_fmap in Hk. by destruct (objects s !! k); [eauto|destruct Hk].
Defined.

(** * The in-memory index (testutil/catalog.go) *)
Definition FakeObjectIndex : Type := gmap string ObjectMeta.
#[export] Instance FakeObjectIndex_ObjectIndex : ObjectIndex FakeObjectIndex := {
  ObjectMeta_of key s :=
    match s !! key with
    | Some m => (Ok m, s)
    | None => (Err (NotFoundError "метаданные объекта" key), s)
    end;
  PutObjectMeta m s := (None, <[om_Key m := m]> s);
  DeleteObjectMeta key s := (None, delete key s);
  AllObjectMeta s := (omap (λ k, s !! k) (sorted_keys s), None, s)
}.
#[export] Instance FakeObjectIndex_laws : ObjectIndexLaws FakeObjectIndex.
Proof.
  refine {| indexed := (λ s, s) : FakeObjectIndex → gmap string ObjectMeta; stored m := m |}; try done.
  - intros k s. simpl. by destruct (s !! k).
  - intros k s m. simpl. destruct (s !! k) eqn:E; simpl; [|done]. intros [= ->]. exact E.
  - by right.
  - by right.
  - intros s m (k & _ & Hm)%list_elem_of_omap. by exists k.
  - intros s k m _ Hk. simpl. apply list_elem_of_omap. exists k. split; [|done].
    apply sorted_keys_elem. eauto.
Defined.
(** It never reports an error. *)
#[export] Instance FakeObjectIndex_watch : IndexWatch FakeObjectIndex.
Proof.
  refine {| lost _ _ := False |}; done.
Defined.

(** * Key prefixes of personal repositories (repo.go) *)
Definition digits10 : string := "0123456789".
(** The loop of [itoa]; its buffer has 20 bytes, one more than an [int64]
    has digits. *)
Fixpoint itoa_loop (fuel : nat) (n : Z) (b : string) : string :=
  match fuel with
  | O => b
  | S fuel =>
      if 0 <? n
      then itoa_loop fuel (n / 10)
             (match String.get (Z.to_nat (n mod 10)) digits10 with
              | Some c => String c b
              | None => b
              end)
      else b
  end.
Definition itoa (n : Z) : string :=
  if n =? 0 then "0"
  else
    let neg := n <? 0 in
    let n := if neg then wrap64 (- n) else n in
    let b := itoa_loop 20 n "" in
    if neg then String "-" b else b.
Definition RepoPrefix (repo : Repo) : string :=
  "repo/" +:+ itoa (repo_ID repo) +:+ "/" +:+ repo_Ecosystem repo.

Lemma itoa_loop_pretty fuel x b :
  (x < 10 ^ N.of_nat fuel)%N → itoa_loop fuel (Z.of_N x) b = pretty_N_go x b.
Proof.
  revert x b. induction fuel as [|fuel IH]; intros x b Hx; cbn [itoa_loop].
  { change (10 ^ N.of_nat 0)%N with 1%N in Hx. replace x with 0%N by lia. by rewrite pretty_N_go_0. }
  destruct (Z.ltb_spec 0 (Z.of_N x)).
  - rewrite pretty_N_go_step by lia. rewrite <- IH.
    + rewrite N2Z.inj_div. f_equal.
      assert (Z.of_N x mod 10 = Z.of_N (x mod 10)) as -> by (by rewrite N2Z.inj_mod).
      rewrite <- N_nat_Z, Nat2Z.id.
      pose proof (N.mod_lt x 10 ltac:(done)) as Hlt. destruct (x mod 10)%N as [|p]; [done|].
      do 4 (destruct p as [p|p|]; try done; try lia).
    + rewrite Nat2N.inj_succ, N.pow_succ_r' in Hx. apply N.Div0.div_lt_upper_bound. lia.
  - replace x with 0%N by lia. by rewrite pretty_N_go_0.
Qed.
Lemma itoa_loop_fmt n : 0 < n < 10 ^ 20 → itoa_loop 20 n "" = fmt_int n.
Proof.
  intros Hn. replace n with (Z.of_N (Z.to_N n)) by lia.
  rewrite itoa_loop_pretty by (simpl; lia). unfold fmt_int.
  destruct (Z.to_N n) eqn:E; [lia|]. simpl. done.
Qed.

Lemma itoa_fmt n : min_int64 < n ≤ max_int64 → itoa n = fmt_int n.
Proof.
  unfold min_int64, max_int64, itoa. intros Hn.
  destruct (Z.eqb_spec n 0) as [->|Hne]; [done|].
  destruct (Z.ltb_spec n 0).
  - rewrite wrap64_small by (unfold in_int64, min_int64, max_int64; lia).
    rewrite itoa_loop_fmt by lia. unfold fmt_int. by destruct n.
  - apply itoa_loop_fmt. lia.
Qed.

(** [itoa] is [strconv.FormatInt] on every 64-bit integer but the least
    one, for which it yields a lone minus sign. *)
Theorem itoa_correct (n : Z) :
  (min_int64 < n ≤ max_int64 → itoa n = fmt_int n) ∧ itoa min_int64 = "-".
Proof. split; [apply itoa_fmt|reflexivity]. Qed.
Lemma itoa_correct_witness : itoa (-120) = fmt_int (-120) ∧ fmt_int (-120) = "-120".
Proof.
  split; [|reflexivity]. apply (proj1 (itoa_correct (-120))). unfold min_int64, max_int64. lia.
Defined.

(** * Limited readers

    A reader is the list of the chunks it yields and the error that follows. *)
(** [io.LimitReader]. *)
Fixpoint limit_reader (n : Z) (chunks : list string) (e : option error) : list string * option error :=
  if n <=? 0 then ([], None)
  else match chunks with
       | [] => ([], e)
       | c :: cs =>
           if len c <=? n
           then let '(cs', e') := limit_reader (n - len c) cs e in (c :: cs', e')
           else ([substr 0 n c], None)
       end.

Lemma len_app s t : len (s +:+ t) = len s + len t.
Proof. unfold len. rewrite length_app_str. lia. Qed.
Lemma len_nonneg s : 0 ≤ len s.
Proof. unfold len. lia. Qed.
Lemma substr_prefix_len n s : 0 ≤ n ≤ len s → len (substr 0 n s) = n.
Proof. intros Hn. apply substr_len; lia. Qed.

(** A limited reader that has not used up its limit has read everything. *)
Lemma limit_reader_all n cs e cs' e' :
  limit_reader n cs e = (cs', e') → len (String.concat "" cs') < n → cs' = cs ∧ e' = e.
Proof.
  revert n cs'. induction cs as [|c cs IH]; intros n cs' Hl Hn; simpl in Hl.
  - destruct (Z.leb_spec n 0); simplify_eq; [|done].
    change (len (String.concat "" [])) with 0 in Hn. lia.
  - destruct (Z.leb_spec n 0); simplify_eq.
    { change (len (String.concat "" [])) with 0 in Hn. lia. }
    destruct (Z.leb_spec (len c) n).
    + destruct (limit_reader (n - len c) cs e) as [cs1 e1] eqn:Hl1. simplify_eq.
      rewrite concat_empty_cons, len_app in Hn.
      destruct (IH _ _ Hl1) as [-> ->]; [lia|done].
    + simplify_eq. rewrite concat_empty_cons, len_app, substr_prefix_len in Hn by lia.
      pose proof (len_nonneg (String.concat "" [])). lia.
Qed.

(** * The table of upstreams, as the scheduler and the ecosystems read it *)
Class RemoteStore (D : Type) := {
  Remotes_in : St D (res (list Remote));
  Remote_in : Z → St D (res Remote)
}.
