(* ===== verification/FsStorage.v ===== *)
(** The storage on a file system (internal/mod/storage/fs/fs.go): an
    implementation of the Storage port, on a model of what the operating system
    promises, crashes included.

    The tree under the root is a map from paths to files and a set of
    directories; a second copy holds the directory entries that are known to be
    on the disk. Every system call may fail: the failure of the [n]-th call is
    read from a script. An open file belongs to its writer, which keeps the
    bytes; the state knows which temporary files exist, are open and are
    flushed. There are no symbolic links. *)
From S2P Require Import Prelude GoStr Domain Port.
Local Open Scope Z_scope.

(** * The operating system *)

(** What a call may fail with at any time: a [*PathError], a [*LinkError] or
    another error, but not that a path does not exist. *)
Inductive failure := PathError (msg : string) | LinkError (msg : string) | OsError (msg : string).
Inductive oserr := NotExist | NotDir | Failure (f : failure).
Record file := mk_file { f_data : string; f_mtime : Z; f_flushed : bool }.
Record FsStorage := mk_FsStorage {
  sys_fails : nat → option failure;
  fs_now : nat → Z;
  fs_UUID4 : nat → res string;
  calls : nat;
  fs_files : gmap string file; fs_dirs : gset string;     (* as processes see it *)
  disk_files : gmap string file; disk_dirs : gset string; (* as it is on the disk *)
  tmp_files : gset string;                                (* the names in tmp/ *)
  open_files : gset string;                               (* writers that are not finished *)
  flushed : gset string                                   (* temporary files with all bytes on the disk *)
}.
Definition tick (s : FsStorage) : FsStorage :=
  mk_FsStorage (sys_fails s) (fs_now s) (fs_UUID4 s) (S (calls s)) (fs_files s) (fs_dirs s) (disk_files s) (disk_dirs s)
    (tmp_files s) (open_files s) (flushed s).
Definition with_files (m : gmap string file) (d : gset string) (s : FsStorage) : FsStorage :=
  mk_FsStorage (sys_fails s) (fs_now s) (fs_UUID4 s) (calls s) m d (disk_files s) (disk_dirs s)
    (tmp_files s) (open_files s) (flushed s).
Definition with_disk (m : gmap string file) (d : gset string) (s : FsStorage) : FsStorage :=
  mk_FsStorage (sys_fails s) (fs_now s) (fs_UUID4 s) (calls s) (fs_files s) (fs_dirs s) m d
    (tmp_files s) (open_files s) (flushed s).
Definition with_tmp (t o f : gset string) (s : FsStorage) : FsStorage :=
  mk_FsStorage (sys_fails s) (fs_now s) (fs_UUID4 s) (calls s) (fs_files s) (fs_dirs s) (disk_files s) (disk_dirs s) t o f.

(** A system call: it fails without effect, or runs. *)
Definition sys {A} (f : FsStorage → result oserr A * FsStorage) : St FsStorage (result oserr A) := λ s,
  match sys_fails s (calls s) with Some e => (Err (Failure e), tick s) | None => f (tick s) end.

(** The directories on the way to a path, from the root down. *)
Fixpoint ancestors_from (pre s : string) : list string :=
  match s with
  | EmptyString => []
  | String "/" s => pre :: ancestors_from (pre +:+ "/") s
  | String c s => ancestors_from (pre +:+ String c "") s
  end.
Definition ancestors (path : string) : list string := ancestors_from "" path.
Definition parent (path : string) : option string := last (ancestors path).
(** A directory exists if it was made or if something is in it. *)
Definition is_dir (s : FsStorage) (p : string) : bool :=
  bool_decide (p ∈ fs_dirs s) || bool_decide (map_Exists (λ k _, p ∈ ancestors k) (fs_files s)).
(** The first component on the way that is no directory. *)
Definition obstacle (s : FsStorage) (path : string) : option oserr :=
  match List.find (λ d, negb (is_dir s d)) (ancestors path) with
  | Some d => Some (if decide (is_Some (fs_files s !! d)) then NotDir else NotExist)
  | None => None
  end.

Inductive node := Directory | Regular (f : file).
Definition Lstat (path : string) : St FsStorage (result oserr node) := sys (λ s,
  (match obstacle s path with
   | Some e => Err e
   | None =>
       match fs_files s !! path with
       | Some f => Ok (Regular f)
       | None => if is_dir s path then Ok Directory else Err NotExist
       end
   end, s)).
(** [os.Open] of a regular file, and [File.Stat]. *)
Definition os_Open (path : string) : St FsStorage (result oserr file) := sys (λ s,
  (match fs_files s !! path with Some f => Ok f | None => Err NotExist end, s)).
Definition file_Stat (f : file) : St FsStorage (result oserr file) := sys (λ s, (Ok f, s)).
(** The time of the last change of a file is that of its last write. *)
Definition create_tmp (name : string) : St FsStorage (result oserr Z) := sys (λ s,
  if decide (name ∈ tmp_files s) then (Err (Failure (PathError "file exists")), s)
  else (Ok (fs_now s (calls s)), with_tmp ({[name]} ∪ tmp_files s) ({[name]} ∪ open_files s) (flushed s ∖ {[name]}) s)).
Definition remove_tmp (name : string) : St FsStorage (result oserr unit) := sys (λ s,
  if decide (name ∈ tmp_files s) then (Ok tt, with_tmp (tmp_files s ∖ {[name]}) (open_files s) (flushed s) s)
  else (Err NotExist, s)).
Definition file_Write (name : string) : St FsStorage (result oserr Z) := sys (λ s,
  (Ok (fs_now s (calls s)), with_tmp (tmp_files s) (open_files s) (flushed s ∖ {[name]}) s)).
Definition file_Sync (name : string) : St FsStorage (result oserr unit) := sys (λ s,
  (Ok tt, with_tmp (tmp_files s) (open_files s) ({[name]} ∪ flushed s) s)).
Definition file_Close : St FsStorage (result oserr unit) := sys (λ s, (Ok tt, s)).
Definition MkdirAll (dirs : list string) : St FsStorage (result oserr unit) := sys (λ s,
  if existsb (λ d, bool_decide (is_Some (fs_files s !! d))) dirs then (Err NotDir, s)
  else (Ok tt, with_files (fs_files s) (list_to_set dirs ∪ fs_dirs s) s)).
(** [renameReplace]: the temporary file becomes the object. *)
Definition renameReplace (name path data : string) (mtime : Z) : St FsStorage (result oserr unit) := sys (λ s,
  if is_dir s path then (Err (Failure (LinkError "file exists")), s)
  else (Ok tt, with_tmp (tmp_files s ∖ {[name]}) (open_files s) (flushed s)
    (with_files (<[path := mk_file data mtime (bool_decide (name ∈ flushed s))]> (fs_files s)) (fs_dirs s) s))).
(** The entries of a directory reach the disk ([None] is the root). *)
Definition in_directory (dir : option string) (path : string) : Prop := parent path = dir.
#[global] Instance in_directory_dec dir path : Decision (in_directory dir path).
Proof. unfold in_directory. apply _. Defined.
Definition fsyncDir (dir : option string) : St FsStorage (result oserr unit) := sys (λ s,
  (Ok tt, with_disk
     (filter (λ kf, in_directory dir kf.1) (fs_files s) ∪ filter (λ kf, ¬ in_directory dir kf.1) (disk_files s))
     (filter (in_directory dir) (fs_dirs s) ∪ filter (λ d, ¬ in_directory dir d) (disk_dirs s)) s)).
(** [os.Remove]: a file, or a directory that is empty. *)
Definition os_Remove (path : string) : St FsStorage (result oserr unit) := sys (λ s,
  match obstacle s path with
  | Some e => (Err e, s)
  | None =>
      match fs_files s !! path with
      | Some _ => (Ok tt, with_files (delete path (fs_files s)) (list_to_set (ancestors path) ∪ fs_dirs s) s)
      | None =>
          if negb (is_dir s path) then (Err NotExist, s)
          else if bool_decide (map_Exists (λ k _, path ∈ ancestors k) (fs_files s)) ||
                  bool_decide (set_Exists (λ d, path ∈ ancestors d) (fs_dirs s))
          then (Err (Failure (PathError "directory not empty")), s)
          else (Ok tt, with_files (fs_files s) (fs_dirs s ∖ {[path]}) s)
      end
  end).

(** * Errors *)
Definition os_error (e : oserr) : error :=
  Text match e with
       | NotExist => "no such file or directory" | NotDir => "not a directory"
       | Failure (PathError m | LinkError m | OsError m) => m
       end.
Definition storageUnavailable (e : error) : error := UnavailableError "хранилище" "сбой носителя" (Some e).
Definition mapPathError (e : oserr) (key : string) : error :=
  match e with
  | NotExist | NotDir => not_found key
  | Failure (PathError _) => storageUnavailable (os_error e)
  | _ => os_error e
  end.
(** [wrap] is the text that [fmt.Errorf] puts in front. *)
Definition mapWriteError (wrap : string) (e : oserr) : error :=
  match e with Failure (OsError _) => Wrap wrap (os_error e) | _ => storageUnavailable (Wrap wrap (os_error e)) end.

(** * The storage *)
Definition tmpDir : string := "tmp".
Definition metaFrom (key : string) (f : file) : Meta := mk_Meta key (len (f_data f)) "" "" (f_mtime f).
Definition validPrefix (prefix : string) : bool :=
  let trimmed := trim_suffix prefix "/" in
  if String.eqb trimmed "" then true else bool_decide (ValidateKey trimmed = None).

(** The names that are not for objects, and the keys that are. *)
Definition reserved (key : string) : bool := String.eqb key tmpDir || has_prefix key (tmpDir +:+ "/").
Definition storable (key : string) : Prop := reserved key = false ∧ ValidateKey key = None.
#[global] Instance storable_dec key : Decision (storable key).
Proof. unfold storable. apply _. Defined.

Section storage.
  (** What [ctx.Err()] gives, by the number of system calls made so far. *)
  Context (ctx_Err : nat → option string).
Definition ctx_err : St FsStorage (option string) := st_gets (λ s, ctx_Err (calls s)).

Definition objectPath (key : string) : St FsStorage (option error) :=
  c ← ctx_err;
  mret match c with
       | Some msg => Some (Text msg)
       | None =>
           if reserved key then Some (InvalidKeyError key [KRReserved])
           else ValidateKey key
       end.
(** The start of every operation on an object. *)
Definition on_object {A} (key : string) (bad : error → A) (k : St FsStorage A) : St FsStorage A :=
  e ← objectPath key; match e with Some e => mret (bad e) | None => k end.
Definition stat_object (key : string) : St FsStorage (res file) :=
  n ← Lstat key;
  mret match n with
       | Err e => Err (mapPathError e key)
       | Ok Directory => Err (not_found key)
       | Ok (Regular f) => Ok f
       end.

Definition fs_Get (key : string) : St FsStorage (res Object) := on_object key Err (
  n ← stat_object key;
  match n with
  | Err e => mret (Err e)
  | Ok _ =>
      f ← os_Open key;
      match f with
      | Err e => mret (Err (mapPathError e key))
      | Ok f =>
          st ← file_Stat f;
          mret match st with
               | Err e => Err (Wrap "fs: чтение метаданных" (os_error e))
               | Ok st => Ok (metaFrom key st, f_data f)
               end
      end
  end).
(** [io.NewSectionReader], read to its end. *)
Definition SectionReader (f : file) (start length : Z) : string :=
  substr start (Z.min length (len (f_data f) - start)) (f_data f).
Definition fs_GetRange (key : string) (start length : Z) : St FsStorage (res string) := on_object key Err (
  n ← stat_object key;
  match n with
  | Err e => mret (Err e)
  | Ok st =>
      if (start <? 0) || (length <=? 0) || (len (f_data st) <? wrap64 (start + length))
      then mret (Err (InvalidRangeError key start length (len (f_data st))))
      else
        f ← os_Open key;
        mret match f with Err e => Err (mapPathError e key) | Ok f => Ok (SectionReader f start length) end
  end).
Definition fs_Stat (key : string) : St FsStorage (res Meta) := on_object key Err (
  n ← stat_object key; mret match n with Err e => Err e | Ok st => Ok (metaFrom key st) end).

(** [writer]: the key, the name of the temporary file and its bytes; [done] is
    that the name is not among the open files. *)
Record fsWriter := mk_fsWriter { fw_key : string; fw_tmp : string; fw_data : string; fw_mtime : Z }.
Definition fs_Put (key : string) : St FsStorage (res fsWriter) := on_object key Err (
  u ← st_gets (λ s, fs_UUID4 s (calls s));
  match u with
  | Err e => mret (Err (Wrap "fs: генерация имени временного файла" e))
  | Ok uuid =>
      f ← create_tmp uuid;
      mret match f with
           | Err e => Err (mapWriteError "fs: создание временного файла" e)
           | Ok t => Ok (mk_fsWriter key uuid "" t)
           end
  end).
Definition done (w : fsWriter) : St FsStorage bool := st_gets (λ s, bool_decide (fw_tmp w ∉ open_files s)).
Definition finish (w : fsWriter) : St FsStorage unit :=
  st_mod (λ s, with_tmp (tmp_files s) (open_files s ∖ {[fw_tmp w]}) (flushed s) s).
Definition fs_Write (w : fsWriter) (p : string) : St FsStorage (res fsWriter) :=
  d ← done w;
  if d : bool then mret (Err (Text ("fs: запись после завершения Writer для " +:+ fw_key w)))
  else
    r ← file_Write (fw_tmp w);
    mret match r with
         | Err e => Err (mapWriteError ("fs: запись тела " +:+ fw_key w) e)
         | Ok t => Ok (mk_fsWriter (fw_key w) (fw_tmp w) (fw_data w +:+ p) t)
         end.
Definition fs_Commit (w : fsWriter) : St FsStorage (option error) :=
  c ← ctx_err;
  match c with
  | Some msg => mret (Some (Text msg))
  | None =>
      d ← done w;
      if d : bool then mret (Some (Text ("fs: повторный Commit для " +:+ fw_key w)))
      else
        finish w;;
        r ← file_Sync (fw_tmp w);
        match r with
        | Err e => file_Close;; remove_tmp (fw_tmp w);; mret (Some (mapWriteError ("fs: сброс буферов " +:+ fw_key w) e))
        | Ok _ =>
            r ← file_Close;
            match r with
            | Err e => remove_tmp (fw_tmp w);; mret (Some (mapWriteError "fs: закрытие временного файла" e))
            | Ok _ =>
                r ← MkdirAll (ancestors (fw_key w));
                match r with
                | Err e => remove_tmp (fw_tmp w);; mret (Some (mapWriteError "fs: создание каталога объекта" e))
                | Ok _ =>
                    r ← renameReplace (fw_tmp w) (fw_key w) (fw_data w) (fw_mtime w);
                    match r with
                    | Err e => remove_tmp (fw_tmp w);; mret (Some (mapWriteError ("fs: фиксация " +:+ fw_key w) e))
                    | Ok _ =>
                        r ← fsyncDir (parent (fw_key w));
                        mret match r with
                             | Err e => Some (mapWriteError ("fs: fsync каталога " +:+ fw_key w) e)
                             | Ok _ => None
                             end
                    end
                end
            end
        end
  end.
Definition fs_Abort (w : fsWriter) : St FsStorage (option error) :=
  d ← done w;
  if d : bool then mret (Some (Text ("fs: повторный Abort для " +:+ fw_key w)))
  else
    finish w;;
    c ← file_Close;
    r ← remove_tmp (fw_tmp w);
    let closeErr := match c with Err e => Some ("fs: закрытие временного файла", e) | Ok _ => None end in
    let rmErr := match r with Err NotExist | Ok _ => None | Err e => Some ("fs: удаление временного файла", e) end in
    mret match closeErr, rmErr with
         | None, None => None
         | Some (m, e), None | None, Some (m, e) => Some (Wrap m (os_error e))
         | Some (m1, e1), Some (m2, e2) => Some (Wrap m1 (Wrap m2 (os_error e2)))
         end.
Definition fs_Delete (key : string) : St FsStorage (option error) := on_object key Some (
  r ← os_Remove key; mret match r with Err e => Some (mapPathError e key) | Ok _ => None end).

(** ** The listing *)

(** [filepath.WalkDir] visits the entries of a directory by name: the paths in
    the order of their segments. *)
Definition walk_cmp (a b : string) : comparison := lex_cmp String.compare (split "/" a) (split "/" b).
Definition walk_le (a b : string) : Prop := walk_cmp a b ≠ Gt.
#[global] Instance walk_le_dec a b : Decision (walk_le a b).
Proof. unfold walk_le. apply _. Defined.
Definition entries (s : FsStorage) : list string :=
  merge_sort walk_le (elements (dom (fs_files s) ∪ fs_dirs s ∪ list_to_set ((map_to_list (fs_files s)).*1 ≫= ancestors))).
(** [fs.SkipDir] for a directory: nothing below it is visited. *)
Definition skip_dir (prefix dir : string) : bool :=
  String.eqb dir tmpDir || (negb (has_prefix prefix dir) && negb (has_prefix dir prefix)).
Definition visited (prefix path : string) : bool := forallb (λ d, negb (skip_dir prefix d)) (ancestors path).
Definition read_dir : St FsStorage (result oserr unit) := sys (λ s, (Ok tt, s)).
Fixpoint walk (prefix : string) (paths : list string) : St FsStorage (list Meta * option error) :=
  match paths with
  | [] => mret ([], None)
  | path :: paths =>
      if negb (visited prefix path) then walk prefix paths
      else
        c ← ctx_err;
        match c with
        | Some msg => mret ([], Some (Text msg))
        | None =>
            f ← st_gets (λ s, fs_files s !! path);
            match f with
            | None =>
                if skip_dir prefix path then walk prefix paths
                else
                  r ← read_dir;
                  match r with
                  | Err e => mret ([], Some (mapWriteError "fs: обход" e))
                  | Ok _ => walk prefix paths
                  end
            | Some f =>
                if negb (has_prefix path prefix) then walk prefix paths
                else
                  st ← file_Stat f;
                  match st with
                  | Err e => mret ([], Some (mapWriteError "fs: метаданные" e))
                  | Ok st =>
                      c ← ctx_err;
                      match c with
                      | Some _ => mret ([metaFrom path st], None)
                      | None => l ← walk prefix paths; mret (metaFrom path st :: l.1, l.2)
                      end
                  end
            end
        end
  end.
Definition fs_List (prefix : string) : St FsStorage (list Meta * option error) :=
  if negb (validPrefix prefix) then mret ([], None)
  else
    r ← read_dir; (* the Lstat of the root *)
    match r with
    | Err e => mret ([], Some (mapWriteError "fs: обход" e))
    | Ok _ =>
        c ← ctx_err;
        match c with
        | Some msg => mret ([], Some (Text msg))
        | None =>
            r ← read_dir;
            match r with
            | Err e => mret ([], Some (mapWriteError "fs: обход" e))
            | Ok _ => s ← st_get; walk prefix (entries s)
            end
        end
    end.
End storage.

(** [New]: what a start of the process does to [tmp/]. *)
Fixpoint sweep_names (names : list string) : St FsStorage (option error) :=
  match names with
  | [] => mret None
  | n :: names =>
      r ← remove_tmp n;
      match r with
      | Ok _ | Err NotExist => sweep_names names
      | Err e => mret (Some (Wrap "fs: удаление осиротевшего tmp" (os_error e)))
      end
  end.
Definition sweepTmp : St FsStorage (option error) :=
  r ← read_dir;
  match r with
  | Err e => mret (Some (Wrap "fs: чтение tmp" (os_error e)))
  | Ok _ => s ← st_get; sweep_names (elements (tmp_files s))
  end.
Definition fs_New : St FsStorage (option error) :=
  r ← MkdirAll [tmpDir];
  match r with Err e => mret (Some (Wrap "fs: создание корня" (os_error e))) | Ok _ => sweepTmp end.
