(* ===== verification/FsLaws.v ===== *)
(** The storage on a file system keeps the contract of the Storage port: for
    every failure of the operating system the laws of Port hold, so the theorems
    of the engines hold over it. *)
From S2P Require Import Prelude GoStr Domain Port FsStorage.
Local Open Scope Z_scope.

(** What is committed: the bytes of the files. *)
Definition fs_contents (s : FsStorage) : gmap string string := f_data <$> fs_files s.
Lemma fs_contents_lookup s k : fs_contents s !! k = f_data <$> fs_files s !! k.
Proof. unfold fs_contents. by rewrite lookup_fmap. Qed.

(** * System calls *)
Lemma wp_sys {A} (f : FsStorage → result oserr A * FsStorage) (Q : result oserr A → FsStorage → Prop) s :
  (∀ e, Q (Err (Failure e)) (tick s)) → Q (f (tick s)).1 (f (tick s)).2 → wp (sys f) Q s.
Proof. intros He Hf. unfold wp, sys. destruct (sys_fails s (calls s)); [apply He|apply Hf]. Qed.
(** A call that leaves the tree alone. *)
Lemma sys_keeps {A} (f : FsStorage → result oserr A * FsStorage) :
  (∀ s, fs_files (f s).2 = fs_files s) → keeps fs_files (sys f).
Proof. intros Hf s. unfold sys. destruct (sys_fails s (calls s)); [done|]. by rewrite Hf. Qed.

Lemma Lstat_keeps p : keeps fs_files (Lstat p).
Proof. by apply sys_keeps. Qed.
Lemma os_Open_keeps p : keeps fs_files (os_Open p).
Proof. by apply sys_keeps. Qed.
Lemma file_Stat_keeps f : keeps fs_files (file_Stat f).
Proof. by apply sys_keeps. Qed.
Lemma create_tmp_keeps n : keeps fs_files (create_tmp n).
Proof. apply sys_keeps. intros s. by case_decide. Qed.
Lemma remove_tmp_keeps n : keeps fs_files (remove_tmp n).
Proof. apply sys_keeps. intros s. by case_decide. Qed.
Lemma file_Write_keeps n : keeps fs_files (file_Write n).
Proof. by apply sys_keeps. Qed.
Lemma file_Sync_keeps n : keeps fs_files (file_Sync n).
Proof. by apply sys_keeps. Qed.
Lemma file_Close_keeps : keeps fs_files file_Close.
Proof. by apply sys_keeps. Qed.
Lemma read_dir_keeps : keeps fs_files read_dir.
Proof. by apply sys_keeps. Qed.
Lemma MkdirAll_keeps ds : keeps fs_files (MkdirAll ds).
Proof. apply sys_keeps. intros s. by destruct (existsb _ _). Qed.
Lemma fsyncDir_keeps d : keeps fs_files (fsyncDir d).
Proof. by apply sys_keeps. Qed.
Lemma finish_keeps w : keeps fs_files (finish w).
Proof. done. Qed.
#[export] Hint Resolve Lstat_keeps os_Open_keeps file_Stat_keeps create_tmp_keeps remove_tmp_keeps file_Write_keeps
  file_Sync_keeps file_Close_keeps read_dir_keeps MkdirAll_keeps fsyncDir_keeps finish_keeps : go.

(** ** Paths *)
Lemma obstacle_file s k f : fs_files s !! k = Some f → obstacle s k = None.
Proof.
  intros Hk. unfold obstacle. destruct (List.find _ _) as [d|] eqn:E; [|done].
  apply find_some in E as [Hd%list_elem_of_In Hno]. unfold is_dir in Hno.
  rewrite (bool_decide_eq_true_2 (map_Exists _ _)), orb_true_r in Hno; [done|]. by exists k, f.
Qed.

(** ** Ancestors and prefixes *)
Lemma ancestors_from_spec pre s d : d ∈ ancestors_from pre s → ∃ r, pre +:+ s = d +:+ String "/" r.
Proof.
  revert pre. induction s as [|c s IH]; intros pre; [by intros ?%not_elem_of_nil|].
  assert (ancestors_from pre (String c s) = if Ascii.eqb c "/" then pre :: ancestors_from (pre +:+ "/") s else ancestors_from (pre +:+ String c "") s) as ->.
  { by destruct c as [[] [] [] [] [] [] [] []]. }
  destruct (Ascii.eqb_spec c "/") as [->|Hc].
  - intros [->|Hd]%elem_of_cons; [by exists s|]. destruct (IH _ Hd) as [r Hr]. exists r. by rewrite <- app_assoc in Hr.
  - intros Hd. destruct (IH _ Hd) as [r Hr]. exists r. by rewrite <- app_assoc in Hr.
Qed.
Lemma ancestors_spec path d : d ∈ ancestors path → ∃ r, path = d +:+ String "/" r.
Proof. apply (ancestors_from_spec ""). Qed.
Lemma app_eq_comparable a b x y : a +:+ x = b +:+ y → (∃ z, a = b +:+ z) ∨ ∃ z, b = a +:+ z.
Proof.
  revert b. induction a as [|c a IH]; intros [|d b] Heq; [left; by exists ""|right; by eexists|left; by eexists|].
  injection Heq as -> Heq. destruct (IH b Heq) as [[z ->]|[z ->]]; [left|right]; by exists z.
Qed.
Lemma has_prefix_comparable k a b : has_prefix k a = true → has_prefix k b = true →
  has_prefix a b = true ∨ has_prefix b a = true.
Proof.
  rewrite !has_prefix_spec. intros [x ->] [y Hy]. apply app_eq_comparable in Hy as [[z ->]|[z ->]]; [left|right]; by exists z.
Qed.
Lemma visited_key prefix k : reserved k = false → has_prefix k prefix = true → visited prefix k = true.
Proof.
  intros Hr Hp. unfold visited. apply forallb_forall. intros d Hd%list_elem_of_In. apply ancestors_spec in Hd as [r ->].
  apply negb_true_iff. unfold skip_dir. apply orb_false_iff. split.
  - apply String.eqb_neq. intros ->. unfold reserved in Hr. apply orb_false_iff in Hr as [_ Hr].
    assert (has_prefix (tmpDir +:+ String "/" r) (tmpDir +:+ "/") = true); [|congruence].
    apply has_prefix_spec. exists r. by rewrite <- app_assoc.
  - destruct (has_prefix_comparable (d +:+ String "/" r) prefix d Hp) as [->| ->]; [apply has_prefix_app|done|].
    by rewrite andb_false_r.
Qed.

(** A prefix of a key is refused only if it ends in a dot. *)
Lemma key_ok_prefix q r : q ≠ "" → key_ok (q +:+ r) → (ends_part "/" r ∨ listable q ∧ ∀ l, q ≠ l +:+ "/") → key_ok q.
Proof.
  intros Hq [_ Hlen Hb Hd Hs] Hend. split.
  - done.
  - rewrite length_app_str in Hlen. lia.
  - rewrite all_bytes_app in Hb. by apply andb_true_iff in Hb as [? _].
  - apply not_true_is_false. intros (l & r' & ->)%contains_spec. apply not_true_iff_false in Hd. apply Hd, contains_spec.
    exists l, (r' +:+ r). by rewrite <- !app_assoc.
  - apply Forall_forall. intros x Hx. apply split_part in Hx as (Hn & l & r' & Heq & Hl & Hr').
    assert (ends_part "/" (r' +:+ r) → x ≠ "" ∧ x ≠ ".") as Hin.
    { intros He. apply (proj1 (Forall_forall _ _) Hs). rewrite Heq, <- !app_assoc. by apply part_split. }
    destruct Hr' as [->|[r'' ->]]; [|apply Hin; right; by eexists]. rewrite app_nil_r in Heq. subst q.
    destruct Hend as [He|[Hdot Hne]]; [by apply Hin|]. split.
    + intros ->. rewrite app_nil_r in Hne, Hq. destruct Hl as [->|[l' ->]]; [done|by apply (Hne l')].
    + intros ->. apply Hdot. by rewrite last_byte_app.
Qed.
Lemma validPrefix_of p k : key_ok k → has_prefix k p = true → listable p → validPrefix p = true.
Proof.
  intros Hk [r ->]%has_prefix_spec Hdot. unfold validPrefix, trim_suffix.
  destruct (strip_suffix "/" p) as [q|] eqn:E; simpl.
  - apply strip_suffix_Some in E as ->. rewrite <- app_assoc in Hk.
    destruct (String.eqb_spec q "") as [|Hq]; [done|]. apply bool_decide_eq_true, ValidateKey_ok.
    apply (key_ok_prefix q ("/" +:+ r)); [done..|left; right; by eexists].
  - destruct (String.eqb_spec p "") as [|Hp]; [done|]. apply bool_decide_eq_true, ValidateKey_ok.
    apply (key_ok_prefix p r); [done..|]. right. split; [done|]. intros l ->.
    assert (strip_suffix "/" (l +:+ "/") = Some l); [by apply strip_suffix_Some|congruence].
Qed.

Section laws.
  Context (ctx_Err : nat → option string).
Lemma objectPath_keeps key : keeps fs_files (objectPath ctx_Err key).
Proof. unfold objectPath, ctx_err. keeps_tac. Qed.
Hint Resolve objectPath_keeps : go.
Lemma on_object_keeps {A} key bad (k : St FsStorage A) : keeps fs_files k → keeps fs_files (on_object ctx_Err key bad k).
Proof. intros Hk. unfold on_object. apply keeps_bind; [eauto with go|]. intros [e|]; [done|exact Hk]. Qed.
Lemma stat_object_keeps key : keeps fs_files (stat_object key).
Proof. unfold stat_object. keeps_tac. Qed.
Hint Resolve stat_object_keeps : go.
Lemma wp_object {A} key bad (k : St FsStorage A) Q s :
  (∀ e, has_type is_NotFound e = false → Q (bad e) s) →
  (storable key → wp k Q s) → wp (on_object ctx_Err key bad k) Q s.
Proof.
  intros Hbad Hk. unfold on_object. apply wp_bind. unfold objectPath, ctx_err, wp at 1. simpl.
  destruct (ctx_Err (calls s)) as [msg|]; simpl; [by apply Hbad|].
  destruct (reserved key) eqn:Hr; [by apply Hbad|].
  destruct (ValidateKey key) eqn:Hv; [apply Hbad; unfold ValidateKey in Hv; destruct (key_reasons key); by simplify_eq|].
  by apply Hk.
Qed.
Lemma wp_stat key Q s :
  (∀ r s', fs_files s' = fs_files s →
     match r with
     | Ok f => fs_files s !! key = Some f
     | Err e => has_type is_NotFound e = true → fs_files s !! key = None
     end → Q r s') → wp (stat_object key) Q s.
Proof.
  intros HQ. unfold stat_object. apply wp_bind, wp_sys.
  - intros []; apply HQ; done.
  - change (obstacle (tick s) key) with (obstacle s key). change (fs_files (tick s)) with (fs_files s). cbn [fst snd].
    destruct (fs_files s !! key) as [f|] eqn:Hk.
    + rewrite (obstacle_file s key f Hk). by apply HQ.
    + destruct (obstacle s key); [by apply HQ|]. destruct (is_dir _ _); by apply HQ.
Qed.
Lemma wp_Open key Q s :
  (∀ e s', fs_files s' = fs_files s → Q (Err e) s') →
  (∀ f s', fs_files s' = fs_files s → fs_files s !! key = Some f → Q (Ok f) s') → wp (os_Open key) Q s.
Proof.
  intros He Ho. apply wp_sys; [intros e; by apply He|]. cbn [fst snd]. change (fs_files (tick s)) with (fs_files s).
  destruct (fs_files s !! key) eqn:E; [by apply Ho|by apply He].
Qed.

(** * Reading *)
Lemma fs_Get_keeps key : keeps fs_files (fs_Get ctx_Err key).
Proof. apply on_object_keeps. keeps_tac. Qed.
Lemma fs_Get_Ok key s m b : (fs_Get ctx_Err key s).1 = Ok (m, b) →
  fs_contents s !! key = Some b ∧ mt_Key m = key ∧ mt_Size m = len b.
Proof.
  cut (wp (fs_Get ctx_Err key) (λ r _, r = Ok (m, b) → fs_contents s !! key = Some b ∧ mt_Key m = key ∧ mt_Size m = len b) s); [done|].
  apply wp_object; [done|intros _]. apply wp_bind, wp_stat. intros [f|e] s1 Hs1 Hf; [|by apply wp_ret].
  apply wp_bind, wp_Open; [intros; by apply wp_ret|]. intros f' s2 Hs2 Hf'. apply wp_bind, wp_sys; [intros; by apply wp_ret|].
  apply wp_ret. cbn [fst]. intros [= <- <-]. rewrite fs_contents_lookup, <- Hs1, Hf'. done.
Qed.
Lemma fs_Get_NotFound key s e : (fs_Get ctx_Err key s).1 = Err e → has_type is_NotFound e = true → fs_contents s !! key = None.
Proof.
  cut (wp (fs_Get ctx_Err key) (λ r _, r = Err e → has_type is_NotFound e = true → fs_contents s !! key = None) s); [done|].
  apply wp_object; [intros e' He' [= ->]; by rewrite He'|intros _].
  apply wp_bind, wp_stat. intros [f|e'] s1 Hs1 Hf.
  - apply wp_bind, wp_sys; [intros []; apply wp_ret; by intros [= <-]|]. change (fs_files (tick s1)) with (fs_files s1). rewrite Hs1, Hf. cbn [fst snd].
    apply wp_bind, wp_sys; [intros []; apply wp_ret; by intros [= <-]|]. apply wp_ret. done.
  - apply wp_ret. intros [= <-] Hnf. rewrite fs_contents_lookup. by rewrite Hf.
Qed.
Lemma fs_GetRange_keeps key a n : keeps fs_files (fs_GetRange ctx_Err key a n).
Proof. apply on_object_keeps. keeps_tac. Qed.
Lemma fs_GetRange_Ok key a n s b : in_int64 (a + n) → (fs_GetRange ctx_Err key a n s).1 = Ok b →
  ∃ all, fs_contents s !! key = Some all ∧ b = substr a n all ∧ len b = n.
Proof.
  intros Hsum.
  cut (wp (fs_GetRange ctx_Err key a n) (λ r _, r = Ok b → ∃ all, fs_contents s !! key = Some all ∧ b = substr a n all ∧ len b = n) s); [done|].
  apply wp_object; [done|intros _]. apply wp_bind, wp_stat. intros [f|e] s1 Hs1 Hf; [|by apply wp_ret].
  rewrite wrap64_small by done. destruct (_ || _) eqn:Hg; [by apply wp_ret|].
  rewrite !orb_false_iff, !Z.ltb_ge, Z.leb_gt in Hg. destruct Hg as [[Ha Hn] Hsz].
  apply wp_bind, wp_Open; [intros; by apply wp_ret|]. intros f' s2 Hs2 Hf'. apply wp_ret. intros [= <-].
  assert (f' = f) as -> by congruence. exists (f_data f). rewrite fs_contents_lookup, Hf. unfold SectionReader.
  rewrite Z.min_l by lia. split_and!; [done..|]. apply substr_len; lia.
Qed.
Lemma fs_Stat_keeps key : keeps fs_files (fs_Stat ctx_Err key).
Proof. apply on_object_keeps. keeps_tac. Qed.
Lemma fs_Stat_Ok key s m : (fs_Stat ctx_Err key s).1 = Ok m →
  ∃ b, fs_contents s !! key = Some b ∧ mt_Key m = key ∧ mt_Size m = len b.
Proof.
  cut (wp (fs_Stat ctx_Err key) (λ r _, r = Ok m → ∃ b, fs_contents s !! key = Some b ∧ mt_Key m = key ∧ mt_Size m = len b) s); [done|].
  apply wp_object; [done|intros _]. apply wp_bind, wp_stat. intros [f|e] s1 Hs1 Hf; apply wp_ret; [|done].
  intros [= <-]. exists (f_data f). by rewrite fs_contents_lookup, Hf.
Qed.
Lemma fs_Stat_NotFound key s e : (fs_Stat ctx_Err key s).1 = Err e → has_type is_NotFound e = true → fs_contents s !! key = None.
Proof.
  cut (wp (fs_Stat ctx_Err key) (λ r _, r = Err e → has_type is_NotFound e = true → fs_contents s !! key = None) s); [done|].
  apply wp_object; [intros e' He' [= ->]; by rewrite He'|intros _].
  apply wp_bind, wp_stat. intros [f|e'] s1 Hs1 Hf; apply wp_ret; [done|].
  intros [= <-] Hnf. rewrite fs_contents_lookup. by rewrite Hf.
Qed.

(** * Writing *)
Lemma fs_Put_keeps key : keeps fs_files (fs_Put ctx_Err key).
Proof. apply on_object_keeps. keeps_tac. Qed.
Lemma fs_Put_Ok key s w : (fs_Put ctx_Err key s).1 = Ok w → storable key ∧ fw_key w = key ∧ fw_data w = "".
Proof.
  cut (wp (fs_Put ctx_Err key) (λ r _, r = Ok w → storable key ∧ fw_key w = key ∧ fw_data w = "") s); [done|].
  apply wp_object; [done|intros Hk]. apply wp_bind, wp_gets. destruct (fs_UUID4 s (calls s)) as [u|e]; [|by apply wp_ret].
  apply wp_bind, wp_sys; [intros; by apply wp_ret|]. destruct (decide _); apply wp_ret; [done|]. by intros [= <-].
Qed.
Lemma fs_Write_keeps w p : keeps fs_files (fs_Write w p).
Proof. unfold fs_Write, done. keeps_tac. Qed.
Lemma fs_Write_Ok w p s w' : (fs_Write w p s).1 = Ok w' → fw_key w' = fw_key w ∧ fw_data w' = fw_data w +:+ p.
Proof.
  cut (wp (fs_Write w p) (λ r _, r = Ok w' → fw_key w' = fw_key w ∧ fw_data w' = fw_data w +:+ p) s); [done|].
  unfold fs_Write, done. apply wp_bind, wp_gets. destruct (bool_decide _); [by apply wp_ret|].
  apply wp_bind, wp_sys; [intros; by apply wp_ret|]. apply wp_ret. by intros [= <-].
Qed.
Lemma fs_Abort_keeps w : keeps fs_files (fs_Abort w).
Proof. unfold fs_Abort, done. keeps_tac. Qed.
(** A commit renames once or not at all; after the rename only the flush of the
    directory can fail. *)
Lemma fs_Commit_wp w s (Q : option error → FsStorage → Prop) :
  (∀ e s', fs_files s' = fs_files s → Q (Some e) s') →
  (∀ r s' f, f_data f = fw_data w → fs_files s' = <[fw_key w := f]> (fs_files s) → Q r s') → wp (fs_Commit ctx_Err w) Q s.
Proof.
  intros Hno Hyes. unfold fs_Commit, ctx_err, done. apply wp_bind, wp_gets.
  destruct (ctx_Err (calls s)) as [msg|]; [apply wp_ret; by apply Hno|].
  apply wp_bind, wp_gets. destruct (bool_decide _); [apply wp_ret; by apply Hno|].
  apply wp_bind, (wp_keeps fs_files); [apply finish_keeps|intros [] s1 Hs1].
  apply wp_bind, (wp_keeps fs_files); [apply file_Sync_keeps|intros r s2 Hs2]. destruct r as [[]|e].
  2:{ apply wp_bind, (wp_keeps fs_files); [apply file_Close_keeps|intros _ s3 Hs3].
      apply wp_bind, (wp_keeps fs_files); [apply remove_tmp_keeps|intros _ s4 Hs4]. apply wp_ret, Hno. congruence. }
  apply wp_bind, (wp_keeps fs_files); [apply file_Close_keeps|intros r s3 Hs3].
  assert (∀ e s4, fs_files s4 = fs_files s → wp (remove_tmp (fw_tmp w);; mret (Some e)) Q s4) as Hfail.
  { intros e s4 Hs4. apply wp_bind, (wp_keeps fs_files); [apply remove_tmp_keeps|intros _ s5 Hs5]. apply wp_ret, Hno. congruence. }
  destruct r as [[]|e]; [|apply Hfail; congruence].
  apply wp_bind, (wp_keeps fs_files); [apply MkdirAll_keeps|intros r s4 Hs4]. destruct r as [[]|e]; [|apply Hfail; congruence].
  apply wp_bind, wp_sys; [intros e; apply Hfail; simpl; congruence|].
  destruct (is_dir _ _); [apply Hfail; simpl; congruence|]. cbn [fst snd].
  apply wp_bind, (wp_keeps fs_files); [apply fsyncDir_keeps|intros r s5 Hs5]. apply wp_ret.
  eapply Hyes; [|rewrite Hs5; simpl; by rewrite Hs4, Hs3, Hs2, Hs1]. done.
Qed.
Lemma fs_Commit_contents w s : fs_contents (fs_Commit ctx_Err w s).2 = fs_contents s ∧ (fs_Commit ctx_Err w s).1 ≠ None ∨
  fs_contents (fs_Commit ctx_Err w s).2 = <[fw_key w := fw_data w]> (fs_contents s).
Proof.
  apply (fs_Commit_wp w s (λ r s', fs_contents s' = fs_contents s ∧ r ≠ None ∨ fs_contents s' = <[fw_key w := fw_data w]> (fs_contents s))).
  - intros e s' Hs'. left. unfold fs_contents. by rewrite Hs'.
  - intros r s' f Hf Hs'. right. unfold fs_contents. by rewrite Hs', fmap_insert, Hf.
Qed.
Lemma fs_Delete_wp key s (Q : option error → FsStorage → Prop) :
  (∀ e s', fs_files s' = fs_files s → (has_type is_NotFound e = true → fs_files s !! key = None) → Q (Some e) s') →
  (∀ s', fs_files s' = delete key (fs_files s) → Q None s') → wp (fs_Delete ctx_Err key) Q s.
Proof.
  intros Hno Hyes. apply wp_object; [intros e He; apply Hno; [done|by rewrite He]|intros _].
  apply wp_bind, wp_sys; [intros []; apply wp_ret, Hno; done|].
  change (obstacle (tick s) key) with (obstacle s key). change (fs_files (tick s)) with (fs_files s).
  destruct (fs_files s !! key) as [f|] eqn:Hk.
  { rewrite (obstacle_file s key f Hk). apply wp_ret. by apply Hyes. }
  destruct (obstacle s key); [apply wp_ret; by apply Hno|]. destruct (negb _); [apply wp_ret; by apply Hno|].
  destruct (_ || _); apply wp_ret; [by apply Hno|]. apply Hyes. simpl. by rewrite delete_id.
Qed.

(** * Listing *)
Definition walk_post (never : Prop) (prefix : string) (files : gmap string file) (paths : list string)
    (l : list Meta * option error) : Prop :=
  (mt_Key <$> l.1) `sublist_of` paths ∧
  Forall (λ m, ∃ f, files !! mt_Key m = Some f ∧ m = metaFrom (mt_Key m) f ∧ has_prefix (mt_Key m) prefix = true) l.1 ∧
  (never → l.2 = None → ∀ k f, k ∈ paths → files !! k = Some f → visited prefix k = true → has_prefix k prefix = true →
     k ∈ mt_Key <$> l.1).
Lemma walk_stop never prefix files paths e : walk_post never prefix files paths ([], Some e).
Proof. split_and!; [apply sublist_nil_l|constructor|done]. Qed.
Lemma walk_skip never prefix files path paths l : walk_post never prefix files paths l →
  (∀ f, files !! path = Some f → visited prefix path = true → has_prefix path prefix = true → False) →
  walk_post never prefix files (path :: paths) l.
Proof.
  intros (Hs & Hf & Hc) Hno. split_and!; [by apply sublist_cons|done|]. intros Hn Hl k f [->|Hk]%elem_of_cons; [|by eapply Hc].
  intros ? ? ?. by exfalso; eapply Hno.
Qed.
Lemma walk_wp prefix paths s (Q : list Meta * option error → FsStorage → Prop) :
  (∀ l s', fs_files s' = fs_files s → walk_post (∀ n, ctx_Err n = None) prefix (fs_files s) paths l → Q l s') →
  wp (walk ctx_Err prefix paths) Q s.
Proof.
  revert s Q. induction paths as [|path paths IH]; intros s Q HQ; cbn [walk].
  { apply wp_ret, HQ; [done|]. split_and!; [done|constructor|]. intros _ _ k f Hk. by apply not_elem_of_nil in Hk. }
  assert (∀ s', fs_files s' = fs_files s →
    (∀ f, fs_files s !! path = Some f → visited prefix path = true → has_prefix path prefix = true → False) →
    wp (walk ctx_Err prefix paths) Q s') as Hskip.
  { intros s' Hs' Hno. apply IH. intros l s2 Hs2 Hl. rewrite Hs' in *. apply HQ; [done|]. by apply walk_skip. }
  assert (∀ e s', fs_files s' = fs_files s → wp (mret ([], Some e)) Q s') as Hstop.
  { intros e s' Hs'. apply wp_ret, HQ; [done|apply walk_stop]. }
  destruct (visited prefix path) eqn:Hv; cbn [negb]; [|by apply Hskip].
  apply wp_bind, wp_gets. destruct (ctx_Err (calls s)) as [msg|] eqn:Hc; [by apply Hstop|].
  apply wp_bind, wp_gets. destruct (fs_files s !! path) as [f|] eqn:Hf.
  - destruct (has_prefix path prefix) eqn:Hp; cbn [negb]; [|apply Hskip; [done|by intros; congruence]].
    apply wp_bind, wp_sys; [by intros e; apply Hstop|]. cbn [fst snd].
    assert (Forall (λ m, ∃ f, fs_files s !! mt_Key m = Some f ∧ m = metaFrom (mt_Key m) f ∧ has_prefix (mt_Key m) prefix = true) [metaFrom path f]) as Hm.
    { constructor; [|constructor]. by exists f. }
    apply wp_bind, wp_gets. destruct (ctx_Err (calls (tick s))) as [msg|] eqn:Hc2.
    + apply wp_ret, HQ; [done|]. split_and!; [apply sublist_skip, sublist_nil_l|done|]. intros Hn. by rewrite Hn in Hc2.
    + apply wp_bind, IH. intros l s2 Hs2 (Hs & Hfl & Hcl). apply wp_ret, HQ; [done|]. split_and!.
      * by apply sublist_skip.
      * apply Forall_cons in Hm as [Hm _]. by constructor.
      * intros Hn Hl k f' [->|Hk]%elem_of_cons; [by left|]. intros ???. right. by eapply Hcl.
  - destruct (skip_dir prefix path); [apply Hskip; [done|by intros; congruence]|].
    apply wp_bind, wp_sys; [by intros e; apply Hstop|]. cbn [fst snd]. apply Hskip; [done|by intros; congruence].
Qed.
Lemma entries_file s k : is_Some (fs_files s !! k) → k ∈ entries s.
Proof. intros Hk. unfold entries. rewrite merge_sort_Permutation, elem_of_elements. set_unfold. left. left. by apply elem_of_dom. Qed.
Lemma entries_nodup s : NoDup (entries s).
Proof. unfold entries. rewrite merge_sort_Permutation. apply NoDup_elements. Qed.
Lemma fs_List_wp prefix s (Q : list Meta * option error → FsStorage → Prop) :
  (∀ l s', fs_files s' = fs_files s → walk_post (∀ n, ctx_Err n = None) prefix (fs_files s) (entries s) l → Q l s') →
  (validPrefix prefix = false → Q ([], None) s) → wp (fs_List ctx_Err prefix) Q s.
Proof.
  intros HQ Hbad. unfold fs_List. destruct (validPrefix prefix); cbn [negb]; [|apply wp_ret; by apply Hbad].
  assert (∀ e s', fs_files s' = fs_files s → wp (mret ([], Some e)) Q s') as Hstop.
  { intros e s' Hs'. apply wp_ret, HQ; [done|apply walk_stop]. }
  apply wp_bind, wp_sys; [by intros e; apply Hstop|]. apply wp_bind, wp_gets.
  destruct (ctx_Err _) as [msg|]; [by apply Hstop|]. apply wp_bind, wp_sys; [by intros e; apply Hstop|].
  apply wp_bind. unfold wp at 1. cbn [fst snd st_get]. apply walk_wp. done.
Qed.

(** * The states and writers of the port *)

(** Every object has a key that the storage accepts: nothing else ever gets in. *)
Definition fs_wf (s : FsStorage) : Prop := ∀ k, is_Some (fs_files s !! k) → storable k.
Definition stays {A} (m : St FsStorage A) : Prop := ∀ s, fs_wf s → fs_wf (m s).2.
Lemma stays_keeps {A} (m : St FsStorage A) : keeps fs_files m → stays m.
Proof. intros Hm s Hs k. rewrite Hm. apply Hs. Qed.
Lemma stays_Commit w : storable (fw_key w) → stays (fs_Commit ctx_Err w).
Proof.
  intros Hw s Hs. apply (fs_Commit_wp w s (λ _ s', fs_wf s')).
  - intros _ s' Hs' k. rewrite Hs'. apply Hs.
  - intros _ s' f _ Hs' k. rewrite Hs'. intros [<-|[_ Hk]]%lookup_insert_is_Some; [done|by apply Hs].
Qed.
Lemma stays_Delete key : stays (fs_Delete ctx_Err key).
Proof.
  intros s Hs. apply (fs_Delete_wp key s (λ _ s', fs_wf s')).
  - intros _ s' Hs' _ k. rewrite Hs'. apply Hs.
  - intros s' Hs' k. rewrite Hs'. intros [_ Hk]%lookup_delete_is_Some. by apply Hs.
Qed.
Lemma fs_List_keeps prefix : keeps fs_files (fs_List ctx_Err prefix).
Proof. intros s. by apply (fs_List_wp prefix s (λ _ s', fs_files s' = fs_files s)). Qed.

Definition FsDisk : Type := { s : FsStorage | fs_wf s }.
Definition FsWriter : Type := { w : fsWriter | storable (fw_key w) }.
Definition on_disk {A} (m : St FsStorage A) (Hm : stays m) : St FsDisk A := λ s,
  ((m (proj1_sig s)).1, exist fs_wf (m (proj1_sig s)).2 (Hm _ (proj2_sig s))).
(** A writer as its operation returned it. *)
Definition own_writer (r : res fsWriter) : res FsWriter :=
  match r with
  | Err e => Err e
  | Ok w => match decide (storable (fw_key w)) with
            | left H => Ok (exist (λ w, storable (fw_key w)) w H)
            | right _ => Err (Text "") (* does not occur *)
            end
  end.
Definition map_result {S A B} (f : A → B) (m : St S A) : St S B := λ s, (f (m s).1, (m s).2).
#[local] Instance Fs_Storage : Storage FsDisk := {
  Writer := FsWriter;
  Get k := on_disk (fs_Get ctx_Err k) (stays_keeps _ (fs_Get_keeps k));
  GetRange k a n := on_disk (fs_GetRange ctx_Err k a n) (stays_keeps _ (fs_GetRange_keeps k a n));
  Stat k := on_disk (fs_Stat ctx_Err k) (stays_keeps _ (fs_Stat_keeps k));
  Put k := map_result own_writer (on_disk (fs_Put ctx_Err k) (stays_keeps _ (fs_Put_keeps k)));
  Write w c := map_result own_writer (on_disk (fs_Write (proj1_sig w) c) (stays_keeps _ (fs_Write_keeps (proj1_sig w) c)));
  Commit w := on_disk (fs_Commit ctx_Err (proj1_sig w)) (stays_Commit (proj1_sig w) (proj2_sig w));
  Abort w := on_disk (fs_Abort (proj1_sig w)) (stays_keeps _ (fs_Abort_keeps (proj1_sig w)));
  Delete k := on_disk (fs_Delete ctx_Err k) (stays_Delete k);
  List p := on_disk (fs_List ctx_Err p) (stays_keeps _ (fs_List_keeps p))
}.
Lemma own_writer_Ok r w : own_writer r = Ok w → r = Ok (proj1_sig w).
Proof. destruct r as [w'|]; simpl; [|done]. case_decide; [|done]. by intros [= <-]. Qed.
Definition disk_contents (s : FsDisk) : gmap string string := fs_contents (proj1_sig s).
Lemma on_disk_keeps {A} (m : St FsStorage A) Hm : keeps fs_files m → keeps disk_contents (on_disk m Hm).
Proof. intros Hk [s Hs]. unfold disk_contents, fs_contents. simpl. by rewrite Hk. Qed.

Lemma Fs_laws : (∀ n, ctx_Err n = None) → StorageLaws FsDisk.
Proof.
  intros Hnever. refine {| contents := disk_contents; w_key := λ w, fw_key (proj1_sig w); w_bytes := λ w, fw_data (proj1_sig w) |}.
  - intros k. apply on_disk_keeps, fs_Get_keeps.
  - intros k [s Hs] m b. apply fs_Get_Ok.
  - intros k [s Hs] e. apply fs_Get_NotFound.
  - intros k a n. apply on_disk_keeps, fs_GetRange_keeps.
  - intros k a n [s Hs] b _ _. apply fs_GetRange_Ok.
  - intros k. apply on_disk_keeps, fs_Stat_keeps.
  - intros k [s Hs] m. apply fs_Stat_Ok.
  - intros k [s Hs] e. apply fs_Stat_NotFound.
  - intros k s. apply (on_disk_keeps _ (stays_keeps _ (fs_Put_keeps k)) (fs_Put_keeps k)).
  - intros k [s Hs] w Hw%own_writer_Ok%fs_Put_Ok. by destruct Hw as (_ & ? & ?).
  - intros w c s. apply (on_disk_keeps _ (stays_keeps _ (fs_Write_keeps (proj1_sig w) c)) (fs_Write_keeps _ c)).
  - intros w c [s Hs] w' Hw%own_writer_Ok. by apply fs_Write_Ok in Hw.
  - intros w [s Hs] Hn. simpl in *. destruct (fs_Commit_contents (proj1_sig w) s) as [[_ ?]|?]; done.
  - intros w [s Hs]. simpl. destruct (fs_Commit_contents (proj1_sig w) s) as [[? _]|?]; [by left|by right].
  - intros w. apply on_disk_keeps, fs_Abort_keeps.
  - intros k [s Hs] Hn. simpl in *. revert Hn.
    apply (fs_Delete_wp k s (λ r s', r = None → fs_contents s' = delete k (fs_contents s))); [done|].
    intros s' Hs' _. unfold fs_contents. by rewrite Hs', fmap_delete.
  - intros k [s Hs]. simpl.
    apply (fs_Delete_wp k s (λ r s', fs_contents s' = fs_contents s ∨ fs_contents s' = delete k (fs_contents s))).
    + intros e s' Hs' _. left. unfold fs_contents. by rewrite Hs'.
    + intros s' Hs'. right. unfold fs_contents. by rewrite Hs', fmap_delete.
  - intros k [s Hs] e. simpl.
    apply (fs_Delete_wp k s (λ r s', r = Some e → has_type is_NotFound e = true → fs_contents s' !! k = None)); [|done].
    intros e' s' Hs' Hnf [= ->] He. unfold fs_contents. by rewrite Hs', lookup_fmap, Hnf.
  - intros p. apply on_disk_keeps, fs_List_keeps.
  - intros p [s Hs] m. simpl.
    apply (fs_List_wp p s (λ l _, m ∈ l.1 → has_prefix (mt_Key m) p = true ∧ ∃ b, fs_contents s !! mt_Key m = Some b ∧ mt_Size m = len b)).
    + intros l s' _ (_ & Hf & _) Hm. destruct (proj1 (Forall_forall _ _) Hf m Hm) as (f & Hk & -> & Hp). split; [done|].
      exists (f_data f). simpl in *. by rewrite fs_contents_lookup, Hk.
    + by intros _ Hm%not_elem_of_nil.
  - intros p [s Hs]. simpl. apply (fs_List_wp p s (λ l _, NoDup (mt_Key <$> l.1))).
    + intros l s' _ (Hsub & _). eapply sublist_NoDup; [apply entries_nodup|done].
    + intros _. constructor.
  - intros p [s Hs] k Hp Hn Hk Hpre. simpl in *. assert (is_Some (fs_files s !! k)) as [f Hf].
    { unfold disk_contents in Hk. simpl in Hk. rewrite fs_contents_lookup in Hk. by apply fmap_is_Some in Hk. }
    destruct (Hs k) as [Hr Hv]; [by eexists|]. revert Hn.
    apply (fs_List_wp p s (λ l _, l.2 = None → k ∈ mt_Key <$> l.1)).
    + intros l s' _ (_ & _ & Hall) Hl. eapply Hall; [done|done|apply entries_file; by eexists|done| |done].
      by apply visited_key.
    + intros Hbad. rewrite (validPrefix_of p k) in Hbad; [done| |done|done]. by apply ValidateKey_ok.
Defined.
End laws.

(** C16: the storage on a file system implements the Storage port. For every
    failure of the system calls (and as long as the context is not cancelled)
    there are laws of the port for it in which the contents are the bytes of the
    files: what is read is what was committed, a commit replaces one object or
    nothing, a deletion removes one object or nothing, and a listing without an
    error names every object of its prefix. *)
Theorem fs_implements_Storage ctx_Err : (∀ n, ctx_Err n = None) →
  ∃ L : @StorageLaws FsDisk (Fs_Storage ctx_Err), @contents _ _ L = disk_contents.
Proof. intros Hn. by exists (Fs_laws ctx_Err Hn). Qed.
Lemma fs_implements_Storage_witness :
  ∃ L : @StorageLaws FsDisk (Fs_Storage (λ _, None)), @contents _ _ L = disk_contents.
Proof. by apply (fs_implements_Storage (λ _, None)). Defined.
