(* ===== verification/FsCrash.v ===== *)
(** Crashes of the storage on a file system: an object is never torn, and a
    commit that succeeded survives.

    A crash ends the process. What it may leave of the tree is a relation: every
    file is one that was seen or one whose entry was on the disk, with its bytes
    if they were flushed and with any bytes if not; an entry that was on the disk
    as it was seen stays, if the directories on its way were on the disk too. A
    crash inside an operation is a run whose remaining system calls fail, so it
    is covered by the failures of the script. *)
From S2P Require Import Prelude GoStr Domain Port FsStorage FsLaws.
Local Open Scope Z_scope.

Definition survives (f f' : file) : Prop := f_flushed f = true → f_data f' = f_data f.
Definition on_disk_dirs (s : FsStorage) (k : string) : Prop := ∀ d, d ∈ ancestors k → d ∈ disk_dirs s.
Record fs_crash (s s' : FsStorage) : Prop := {
  crash_files k f' : fs_files s' !! k = Some f' → f_flushed f' = true ∧
    ∃ f, (fs_files s !! k = Some f ∨ disk_files s !! k = Some f) ∧ survives f f';
  crash_kept k f : fs_files s !! k = Some f → disk_files s !! k = Some f → on_disk_dirs s k →
    ∃ f', fs_files s' !! k = Some f' ∧ survives f f';
  crash_replaced k : is_Some (fs_files s !! k) → is_Some (disk_files s !! k) → on_disk_dirs s k →
    is_Some (fs_files s' !! k);
  crash_dirs d : d ∈ fs_dirs s' → d ∈ fs_dirs s ∪ disk_dirs s;
  crash_disk : disk_files s' = fs_files s' ∧ disk_dirs s' = fs_dirs s';
  crash_process : open_files s' = ∅
}.

(** * Runs of the storage, with crashes *)
Section crash.
  Context (ctx_Err : nat → option string).
Inductive fs_op :=
| FsGet (key : string) | FsGetRange (key : string) (start length : Z) | FsStat (key : string)
| FsPut (key : string) | FsWrite (w : fsWriter) (p : string) | FsAbort (w : fsWriter)
| FsDelete (key : string) | FsList (prefix : string) | FsNew.
Definition run_fs_op (o : fs_op) : St FsStorage unit :=
  match o with
  | FsGet k => fs_Get ctx_Err k;; mret tt
  | FsGetRange k a n => fs_GetRange ctx_Err k a n;; mret tt
  | FsStat k => fs_Stat ctx_Err k;; mret tt
  | FsPut k => fs_Put ctx_Err k;; mret tt
  | FsWrite w p => fs_Write w p;; mret tt
  | FsAbort w => fs_Abort w;; mret tt
  | FsDelete k => fs_Delete ctx_Err k;; mret tt
  | FsList p => fs_List ctx_Err p;; mret tt
  | FsNew => fs_New;; mret tt
  end.
(** [reaches h s]: from an empty storage to [s], with commits of [h] tried on
    the way: the keys with the bytes of their writers. *)
Inductive reaches : list (string * string) → FsStorage → Prop :=
| reaches_new s : fs_files s = ∅ → disk_files s = ∅ → reaches [] s
| reaches_op h s o : reaches h s → reaches h (run_fs_op o s).2
| reaches_commit h s w : reaches h s → reaches ((fw_key w, fw_data w) :: h) (fs_Commit ctx_Err w s).2
| reaches_crash h s s' : reaches h s → fs_crash s s' → reaches h s'.

(** ** Only whole objects *)
Definition whole (h : list (string * string)) (m : gmap string file) : Prop :=
  ∀ k f, m !! k = Some f → f_flushed f = true ∧ (k, f_data f) ∈ h.
Definition all_whole (h : list (string * string)) (s : FsStorage) : Prop := whole h (fs_files s) ∧ whole h (disk_files s).
Definition keeps_whole (s s' : FsStorage) : Prop := ∀ h, all_whole h s → all_whole h s'.
#[local] Instance keeps_whole_preorder : PreOrder keeps_whole.
Proof. split; [by intros s h|]. intros s1 s2 s3 H1 H2 h Hs. auto. Qed.
Lemma whole_sub h m m' : m' ⊆ m → whole h m → whole h m'.
Proof. intros Hsub Hm k f Hk. eapply Hm, lookup_weaken; done. Qed.
Lemma whole_more h h' m : h ⊆ h' → whole h m → whole h' m.
Proof. intros Hsub Hm k f Hk. destruct (Hm k f Hk). auto. Qed.

Lemma sys_whole {A} (f : FsStorage → result oserr A * FsStorage) :
  (∀ s, keeps_whole s (f s).2) → moves keeps_whole (sys f).
Proof. intros Hf s. unfold sys. destruct (sys_fails s (calls s)); [by intros h|]. intros h Hs. by apply (Hf (tick s) h). Qed.
Lemma sys_whole_same {A} (f : FsStorage → result oserr A * FsStorage) :
  (∀ s, fs_files (f s).2 = fs_files s ∧ disk_files (f s).2 = disk_files s) → moves keeps_whole (sys f).
Proof.
  intros Hf. apply sys_whole. intros s h [Hs Hd]. destruct (Hf s) as [Hf1 Hf2]. split; by rewrite ?Hf1, ?Hf2.
Qed.
Lemma Lstat_whole p : moves keeps_whole (Lstat p).
Proof. by apply sys_whole_same. Qed.
Lemma os_Open_whole p : moves keeps_whole (os_Open p).
Proof. by apply sys_whole_same. Qed.
Lemma file_Stat_whole f : moves keeps_whole (file_Stat f).
Proof. by apply sys_whole_same. Qed.
Lemma create_tmp_whole n : moves keeps_whole (create_tmp n).
Proof. apply sys_whole_same. intros s. by case_decide. Qed.
Lemma remove_tmp_whole n : moves keeps_whole (remove_tmp n).
Proof. apply sys_whole_same. intros s. by case_decide. Qed.
Lemma file_Write_whole n : moves keeps_whole (file_Write n).
Proof. by apply sys_whole_same. Qed.
Lemma file_Sync_whole n : moves keeps_whole (file_Sync n).
Proof. by apply sys_whole_same. Qed.
Lemma file_Close_whole : moves keeps_whole file_Close.
Proof. by apply sys_whole_same. Qed.
Lemma read_dir_whole : moves keeps_whole read_dir.
Proof. by apply sys_whole_same. Qed.
Lemma MkdirAll_whole ds : moves keeps_whole (MkdirAll ds).
Proof. apply sys_whole_same. intros s. by destruct (existsb _ _). Qed.
Lemma fsyncDir_whole d : moves keeps_whole (fsyncDir d).
Proof.
  apply sys_whole. intros s h [Hs Hd]. split; [done|]. simpl. intros k f [Hk|[_ Hk]]%lookup_union_Some_raw.
  - apply map_lookup_filter_Some in Hk as [Hk _]. by apply Hs.
  - apply map_lookup_filter_Some in Hk as [Hk _]. by apply Hd.
Qed.
Lemma os_Remove_whole p : moves keeps_whole (os_Remove p).
Proof.
  apply sys_whole. intros s. destruct (obstacle s p); [by intros h|]. destruct (fs_files s !! p).
  - intros h [Hs Hd]. split; [|done]. eapply whole_sub; [apply delete_subseteq|done].
  - destruct (negb _); [by intros h|]. destruct (_ || _); by intros h.
Qed.
Lemma finish_whole w : moves keeps_whole (finish w).
Proof. by intros s h. Qed.
Create HintDb whole discriminated.
Hint Resolve Lstat_whole os_Open_whole file_Stat_whole create_tmp_whole remove_tmp_whole file_Write_whole file_Sync_whole
  file_Close_whole read_dir_whole MkdirAll_whole fsyncDir_whole os_Remove_whole finish_whole : whole.
Ltac whole_tac :=
  repeat match goal with
  | |- moves _ (_ ≫= _) => apply moves_bind; [apply _| |intros]
  | |- moves _ (mret _) => apply moves_ret, _
  | |- moves _ (st_gets _) => apply moves_gets, _
  | |- moves _ (match ?x with _ => _ end) => destruct x
  | |- moves _ _ => by eauto with whole
  end.
Lemma ctx_whole : moves keeps_whole (ctx_err ctx_Err).
Proof. unfold ctx_err. apply moves_gets, _. Qed.
Hint Resolve ctx_whole : whole.
Lemma on_object_whole {A} key bad (k : St FsStorage A) : moves keeps_whole k → moves keeps_whole (on_object ctx_Err key bad k).
Proof. intros Hk. unfold on_object, objectPath. whole_tac. Qed.
Lemma stat_object_whole key : moves keeps_whole (stat_object key).
Proof. unfold stat_object. whole_tac. Qed.
Lemma walk_whole prefix paths : moves keeps_whole (walk ctx_Err prefix paths).
Proof.
  induction paths as [|path paths IH]; cbn [walk]; [apply moves_ret, _|]. destruct (negb _); [done|]. whole_tac; done.
Qed.
Lemma sweep_names_whole names : moves keeps_whole (sweep_names names).
Proof. induction names as [|n names IH]; cbn [sweep_names]; whole_tac; done. Qed.
Hint Resolve stat_object_whole walk_whole sweep_names_whole : whole.
Lemma st_get_whole {A} (k : FsStorage → St FsStorage A) : (∀ s, moves keeps_whole (k s)) → moves keeps_whole (st_get ≫= k).
Proof. intros Hk s. apply (Hk s s). Qed.
Lemma run_fs_op_whole o : moves keeps_whole (run_fs_op o).
Proof.
  destruct o; cbn [run_fs_op]; apply moves_bind; try apply _; intros; try (apply moves_ret, _).
  all: unfold fs_Get, fs_GetRange, fs_Stat, fs_Put, fs_Delete, fs_Write, fs_Abort, fs_List, fs_New, sweepTmp, done;
    try apply on_object_whole; whole_tac.
  all: apply st_get_whole; intros; eauto with whole.
Qed.

(** ** The commit *)

(** What [MkdirAll] and [Close] leave alone. *)
Definition data_view (s : FsStorage) : gmap string file * gmap string file * gset string := (fs_files s, disk_files s, flushed s).
Lemma file_Close_data : keeps data_view file_Close.
Proof. intros s. unfold file_Close, sys. by destruct (sys_fails s (calls s)). Qed.
Lemma MkdirAll_data ds : keeps data_view (MkdirAll ds).
Proof. intros s. unfold MkdirAll, sys. destruct (sys_fails s (calls s)); [done|]. by destruct (existsb _ _). Qed.
Lemma remove_tmp_data n : keeps data_view (remove_tmp n).
Proof. intros s. unfold remove_tmp, sys. destruct (sys_fails s (calls s)); [done|]. by case_decide. Qed.
(** After a commit the tree is as before, or it has the whole object, flushed;
    the entry is on the disk if the commit succeeded. *)
Lemma fs_Commit_tree w s (Q : option error → FsStorage → Prop) :
  (∀ e s', fs_files s' = fs_files s → disk_files s' = disk_files s → Q (Some e) s') →
  (∀ r s' t, let f := mk_file (fw_data w) t true in
     fs_files s' = <[fw_key w := f]> (fs_files s) → 
     (disk_files s' = disk_files s ∧ r ≠ None ∨
      disk_files s' = filter (λ kf, in_directory (parent (fw_key w)) kf.1) (fs_files s') ∪
                      filter (λ kf, ¬ in_directory (parent (fw_key w)) kf.1) (disk_files s)) → Q r s') →
  wp (fs_Commit ctx_Err w) Q s.
Proof.
  intros Hno Hyes. unfold fs_Commit, ctx_err, done. apply wp_bind, wp_gets.
  destruct (ctx_Err (calls s)) as [msg|]; [apply wp_ret; by apply Hno|].
  apply wp_bind, wp_gets. destruct (bool_decide _); [apply wp_ret; by apply Hno|].
  apply wp_bind. unfold finish. apply wp_mod. set (s1 := with_tmp _ _ _ s).
  assert (∀ e s4, data_view s4 = (fs_files s, disk_files s, flushed s4) → wp (remove_tmp (fw_tmp w);; mret (Some e)) Q s4) as Hfail.
  { intros e s4 Hs4. apply wp_bind, (wp_keeps data_view); [apply remove_tmp_data|intros _ s5 Hs5].
    rewrite Hs4 in Hs5. injection Hs5 as Hf Hd _. apply wp_ret. by apply Hno. }
  apply wp_bind, wp_sys.
  { intros e. apply wp_bind, (wp_keeps data_view); [apply file_Close_data|intros _ s3 Hs3]. apply Hfail.
    injection Hs3 as Hf Hd Hfl. unfold data_view. by rewrite Hf, Hd. }
  cbn [fst snd]. set (s2 := with_tmp _ _ _ (tick s1)).
  apply wp_bind, (wp_keeps data_view); [apply file_Close_data|intros r s3 Hs3]. injection Hs3 as Hf3 Hd3 Hfl3.
  destruct r as [[]|e]; [|apply Hfail; unfold data_view; by rewrite Hf3, Hd3].
  apply wp_bind, (wp_keeps data_view); [apply MkdirAll_data|intros r s4 Hs4]. injection Hs4 as Hf4 Hd4 Hfl4.
  destruct r as [[]|e]; [|apply Hfail; unfold data_view; by rewrite Hf4, Hd4, Hf3, Hd3].
  apply wp_bind, wp_sys; [intros e; apply Hfail; unfold data_view; simpl; by rewrite Hf4, Hd4, Hf3, Hd3|].
  destruct (is_dir _ _); [apply Hfail; unfold data_view; simpl; by rewrite Hf4, Hd4, Hf3, Hd3|]. cbn [fst snd].
  assert (bool_decide (fw_tmp w ∈ flushed (tick s4)) = true) as ->.
  { apply bool_decide_eq_true. simpl. rewrite Hfl4, Hfl3. simpl. set_solver. }
  apply wp_bind, wp_sys.
  - intros e. apply wp_ret. eapply Hyes; simpl; [by rewrite Hf4, Hf3|]. left. by rewrite Hd4, Hd3.
  - cbn [fst snd]. apply wp_ret. eapply Hyes; simpl; [by rewrite Hf4, Hf3|]. right. by rewrite Hd4, Hd3.
Qed.
Lemma lookup_flush (P : string → Prop) `{∀ k, Decision (P k)} (m m' : gmap string file) k :
  (filter (λ kf, P kf.1) m ∪ filter (λ kf, ¬ P kf.1) m') !! k = if decide (P k) then m !! k else m' !! k.
Proof.
  apply option_eq. intros f. rewrite lookup_union_Some_raw, !map_lookup_filter_Some, map_lookup_filter_None. simpl.
  case_decide; naive_solver.
Qed.
Lemma Commit_whole h w s : all_whole h s → all_whole ((fw_key w, fw_data w) :: h) (fs_Commit ctx_Err w s).2.
Proof.
  intros [Hs Hd]. apply (fs_Commit_tree w s (λ _ s', all_whole ((fw_key w, fw_data w) :: h) s')).
  - intros _ s' Hf' Hd'. split; [rewrite Hf'|rewrite Hd']; (eapply whole_more; [|done]; set_solver).
  - intros r s' t f Hf' Hd'.
    assert (whole ((fw_key w, fw_data w) :: h) (fs_files s')) as Hw.
    { intros k g. rewrite Hf'. intros [[<- Hg]|[_ Hk]]%lookup_insert_Some; [rewrite <- Hg; split; [done|by left]|].
      destruct (Hs k g Hk). split; [done|by right]. }
    split; [done|]. destruct Hd' as [[-> _]| ->]; [eapply whole_more; [|done]; set_solver|].
    intros k g. rewrite lookup_flush. case_decide; [apply Hw|]. intros Hk. destruct (Hd k g Hk). split; [done|by right].
Qed.
Lemma crash_whole h s s' : fs_crash s s' → all_whole h s → all_whole h s'.
Proof.
  intros Hc [Hs Hd]. destruct (crash_disk _ _ Hc) as [Hd' _].
  assert (whole h (fs_files s')) as Hw; [|by split; [|rewrite Hd']].
  intros k f' Hk. destruct (crash_files _ _ Hc k f' Hk) as [Hfl (f & Hf & Hsurv)]. split; [done|].
  destruct Hf as [Hf|Hf]; [destruct (Hs k f Hf) as [Hff Hin]|destruct (Hd k f Hf) as [Hff Hin]]; by rewrite (Hsurv Hff).
Qed.

(** C17: no torn objects. In every run from an empty storage, with failing system
    calls and crashes anywhere, an object that is there has exactly the bytes of a
    writer of its key on which a commit was called: never a part of them, and
    never the bytes of an upload that was not committed. *)
Theorem fs_objects_are_whole h s k b : reaches h s → fs_contents s !! k = Some b → (k, b) ∈ h.
Proof.
  intros Hr. rewrite fs_contents_lookup. intros (f & Hk & ->)%fmap_Some.
  assert (all_whole h s) as [Hw _]; [|by apply Hw in Hk as [_ ?]]. clear Hk.
  induction Hr as [s Hf Hd|h s o _ IH|h s w _ IH|h s s' _ IH Hc].
  - split; intros ?? H; rewrite ?Hf, ?Hd in H; by rewrite lookup_empty in H.
  - by apply (run_fs_op_whole o s h).
  - by apply Commit_whole.
  - by eapply crash_whole.
Qed.

(** A commit survives. Over a tree of flushed objects, a crash during or after
    a commit leaves every object with its bytes of before or, if it is the
    object of the commit, with the new ones; and if the commit reported success
    and the directories of the object were on the disk, the object is there with
    the new bytes. *)
Theorem fs_commit_survives w s s' : (∀ k f, fs_files s !! k = Some f ∨ disk_files s !! k = Some f → f_flushed f = true) →
  fs_crash (fs_Commit ctx_Err w s).2 s' →
  (∀ k b, fs_contents s' !! k = Some b →
     fs_contents s !! k = Some b ∨ (f_data <$> disk_files s !! k) = Some b ∨ k = fw_key w ∧ b = fw_data w) ∧
  ((fs_Commit ctx_Err w s).1 = None → on_disk_dirs (fs_Commit ctx_Err w s).2 (fw_key w) →
     fs_contents s' !! fw_key w = Some (fw_data w)).
Proof.
  intros Hfl. set (P := λ (r : option error) s1, fs_crash s1 s' →
    (∀ k b, fs_contents s' !! k = Some b →
       fs_contents s !! k = Some b ∨ (f_data <$> disk_files s !! k) = Some b ∨ k = fw_key w ∧ b = fw_data w) ∧
    (r = None → on_disk_dirs s1 (fw_key w) → fs_contents s' !! fw_key w = Some (fw_data w))).
  apply (fs_Commit_tree w s P); unfold P; clear P.
  - intros e s1 Hf Hd Hc. split; [|done]. intros k b. rewrite !fs_contents_lookup. intros (f' & Hk & ->)%fmap_Some.
    destruct (crash_files _ _ Hc k f' Hk) as [_ (f & Hor & Hsurv)]. rewrite Hf, Hd in Hor.
    rewrite Hsurv by eauto. destruct Hor as [-> | ->]; eauto.
  - intros r s1 t Hf Hd Hc. set (f := mk_file (fw_data w) t true) in *. split.
    + intros k b. rewrite !fs_contents_lookup. intros (f' & Hk & ->)%fmap_Some.
      destruct (crash_files _ _ Hc k f' Hk) as [_ (g & Hor & Hsurv)].
      assert (fs_files s !! k = Some g ∨ disk_files s !! k = Some g ∨ k = fw_key w ∧ g = f) as Hg.
      { assert (fs_files s1 !! k = Some g ∨ disk_files s !! k = Some g) as [Hk1|?]; [|rewrite Hf in Hk1|by eauto].
        - destruct Hor as [?|Hk1]; [by left|]. destruct Hd as [[Hd _]|Hd]; rewrite Hd in Hk1; [by right|].
          rewrite lookup_flush in Hk1. case_decide; auto.
        - apply lookup_insert_Some in Hk1 as [[<- Hg]|[_ ?]]; eauto. }
      destruct Hg as [Hg|[Hg|[-> ->]]]; (rewrite Hsurv by eauto); [rewrite Hg; eauto..|]. right. right. done.
    + intros -> Hdirs. destruct Hd as [[_ ?]|Hd]; [done|].
      destruct (crash_kept _ _ Hc (fw_key w) f) as (f' & Hk & Hsurv); [by rewrite Hf, lookup_insert_eq| |done|].
      * rewrite Hd, lookup_flush, decide_True by done. by rewrite Hf, lookup_insert_eq.
      * rewrite fs_contents_lookup, Hk. simpl. by rewrite Hsurv.
Qed.
End crash.

(** A start of the process leaves no temporary file. *)
Lemma sweep_names_tmp names s : (sweep_names names s).1 = None → tmp_files (sweep_names names s).2 = tmp_files s ∖ list_to_set names.
Proof.
  cut (wp (sweep_names names) (λ r s', r = None → tmp_files s' = tmp_files s ∖ list_to_set names) s); [done|].
  revert s. induction names as [|n names IH]; intros s; cbn [sweep_names]; [apply wp_ret; set_solver|].
  apply wp_bind, wp_sys; [intros e; by apply wp_ret|]. simpl.
  destruct (decide (n ∈ tmp_files s)); cbn [fst snd]; (eapply wp_mono; [apply IH|]); simpl; intros r s' Hr Hn; rewrite (Hr Hn); simpl; set_solver.
Qed.
Lemma fs_New_sweeps s : (fs_New s).1 = None → tmp_files (fs_New s).2 = ∅.
Proof.
  cut (wp fs_New (λ r s', r = None → tmp_files s' = ∅) s); [done|]. unfold fs_New, sweepTmp.
  apply wp_bind, wp_sys; [intros e; by apply wp_ret|]. destruct (existsb _ _); [by apply wp_ret|]. cbn [fst snd].
  apply wp_bind, wp_sys; [intros e; by apply wp_ret|]. apply wp_bind. unfold wp at 1. cbn [fst snd st_get].
  set (s1 := tick _). unfold wp. intros Hn. rewrite (sweep_names_tmp _ _ Hn). set_solver.
Qed.

(** * Concrete runs *)
Definition calm : nat → option string := λ _, None.
Definition fs_start : FsStorage :=
  mk_FsStorage (λ _, None) (λ n, Z.of_nat n) (λ n, Ok ("tmp-" +:+ fmt_int (Z.of_nat n))) 0 ∅ ∅ ∅ ∅ ∅ ∅ ∅.
Definition fs_put (key data : string) (s : FsStorage) : fsWriter * FsStorage :=
  match fs_Put calm key s with
  | (Ok w, s) => match fs_Write w data s with (Ok w, s) => (w, s) | (Err _, s) => (w, s) end
  | (Err _, s) => (mk_fsWriter "" "" "" 0, s)
  end.
Definition fs_store (key data : string) (s : FsStorage) : FsStorage :=
  let '(w, s) := fs_put key data s in (fs_Commit calm w s).2.
(** The process dies; the disk is as it was seen. *)
Definition power_off (m : gmap string file) (d : gset string) (s : FsStorage) : FsStorage :=
  mk_FsStorage (sys_fails s) (fs_now s) (fs_UUID4 s) (calls s) m d m d (tmp_files s) ∅ ∅.
Lemma power_off_crash s : (∀ k, is_Some (fs_files s !! k) → ¬ on_disk_dirs s k) → fs_crash s (power_off ∅ ∅ s).
Proof.
  intros Hno. split; simpl; [|..|done|done].
  - intros k f'. by rewrite lookup_empty.
  - intros k f Hk _ Hdirs. exfalso. eapply Hno; [by eexists|done].
  - intros k Hk _ Hdirs. exfalso. by eapply Hno.
  - intros d Hd. by apply elem_of_empty in Hd.
Qed.
Definition demo_put : fsWriter * FsStorage := fs_put "cache/apt/a.deb" "data" fs_start.
Definition demo_s1 : FsStorage := (fs_Commit calm demo_put.1 demo_put.2).2.
Lemma demo_committed : (fs_Commit calm demo_put.1 demo_put.2).1 = None.
Proof. by vm_compute. Qed.
Lemma demo_files k f : fs_files demo_s1 !! k = Some f → k = "cache/apt/a.deb" ∧ f_flushed f = true.
Proof.
  assert (fs_files demo_s1 = {["cache/apt/a.deb" := mk_file "data" 2 true]}) as -> by (vm_compute; reflexivity).
  by intros [<- <-]%lookup_singleton_Some.
Qed.
Lemma demo_disk : disk_files demo_s1 = fs_files demo_s1 ∧ disk_dirs demo_s1 = ∅.
Proof. split; vm_compute; reflexivity. Qed.

(** The first object of a new directory: the commit has succeeded, and a crash may
    lose it, because only the object's own directory was flushed, and not the
    directories in which [MkdirAll] entered the new ones. *)
Lemma new_directory_may_vanish :
  (fs_Commit calm demo_put.1 demo_put.2).1 = None ∧ fs_crash demo_s1 (power_off ∅ ∅ demo_s1).
Proof.
  split; [apply demo_committed|]. pose proof demo_disk as [_ Hdd].
  apply power_off_crash. intros k [f [-> _]%demo_files] Hdirs.
  assert ("cache" ∈ disk_dirs demo_s1) as Hc by (apply (Hdirs "cache"); by left).
  rewrite Hdd in Hc. by apply elem_of_empty in Hc.
Qed.
(** The order of a listing is not the order of the keys. *)
Lemma listing_order :
  mt_Key <$> (fs_List calm "" (fs_store "a-b" "1" (fs_store "a/c" "2" fs_start))).1.1 = ["a/c"; "a-b"] ∧
  str_cmp "a-b" "a/c" = -1.
Proof. split; by vm_compute. Qed.
(** A range whose end overflows is not refused: its reader gives less than asked. *)
Lemma range_overflow :
  (fs_GetRange calm "a" 1 max_int64 (fs_store "a" "xyz" fs_start)).1 = Ok "yz".
Proof. by vm_compute. Qed.
(** A context that is cancelled while an object is handed out ends the listing
    without an error. *)
Lemma listing_cut_short :
  let s := fs_store "b" "2" (fs_store "a" "1" fs_start) in
  let cancelled := λ n, if (n <? S (S (S (calls s))))%nat then None else Some "context canceled" in
  let r := (fs_List cancelled "" s).1 in
  mt_Key <$> r.1 = ["a"] ∧ r.2 = None.
Proof. by vm_compute. Qed.
(** Deleting the place of deleted objects succeeds. *)
Lemma delete_of_a_directory :
  let s := (fs_Delete calm "a/b" (fs_store "a/b" "1" fs_start)).2 in
  (fs_Stat calm "a" s).1 = Err (not_found "a") ∧ (fs_Delete calm "a" s).1 = None.
Proof. split; by vm_compute. Qed.

Lemma demo_reached : reaches calm [("cache/apt/a.deb", "data")] demo_s1.
Proof.
  assert (demo_put.2 = (run_fs_op calm (FsWrite (mk_fsWriter "cache/apt/a.deb" "tmp-0" "" 1) "data")
    (run_fs_op calm (FsPut "cache/apt/a.deb") fs_start).2).2) as Hput by (by vm_compute).
  change [("cache/apt/a.deb", "data")] with [(fw_key demo_put.1, fw_data demo_put.1)].
  apply reaches_commit. rewrite Hput. apply reaches_op, reaches_op. by apply reaches_new.
Qed.
Lemma fs_objects_are_whole_witness :
  fs_contents demo_s1 !! "cache/apt/a.deb" = Some "data" ∧ ("cache/apt/a.deb", "data") ∈ [("cache/apt/a.deb", "data")].
Proof.
  split; [by vm_compute|]. apply (fs_objects_are_whole calm _ demo_s1 "cache/apt/a.deb" "data"); [apply demo_reached|by vm_compute].
Defined.
(** A crash that loses nothing. *)
Lemma clean_crash s : (∀ k f, fs_files s !! k = Some f → f_flushed f = true) →
  fs_crash s (power_off (fs_files s) (fs_dirs s) s).
Proof.
  intros Hfl. split; simpl; [|intros k f ? _ _; by exists f|done|set_solver|done|done].
  intros k f' Hk. split; [by eapply Hfl|]. exists f'. split; [by left|done].
Qed.
Lemma fs_commit_survives_witness :
  fs_crash demo_s1 (power_off (fs_files demo_s1) (fs_dirs demo_s1) demo_s1) ∧
  (fs_contents demo_put.2 !! "cache/apt/a.deb" = Some "data" ∨
   (f_data <$> disk_files demo_put.2 !! "cache/apt/a.deb") = Some "data" ∨
   "cache/apt/a.deb" = fw_key demo_put.1 ∧ "data" = fw_data demo_put.1).
Proof.
  assert (fs_crash demo_s1 (power_off (fs_files demo_s1) (fs_dirs demo_s1) demo_s1)) as Hc.
  { apply clean_crash. intros k f Hk. by apply demo_files in Hk as [_ ?]. }
  assert (fs_files demo_put.2 = ∅ ∧ disk_files demo_put.2 = ∅) as [Hf Hd] by (split; vm_compute; reflexivity).
  split; [done|].
  apply (proj1 (fs_commit_survives calm demo_put.1 demo_put.2 (power_off (fs_files demo_s1) (fs_dirs demo_s1) demo_s1)
    ltac:(intros k f; rewrite Hf, Hd, lookup_empty; by intros [?|?]) Hc)).
  vm_compute. reflexivity.
Defined.
