(* ===== verification/Dedupe.v ===== *)
(** The choice of one record for each package name, which the index generators of
    pacman and of xbps make alike (dedupeDescs and dedupeRecords, the gen.go of
    internal/mod/ecosystem/pacman and internal/mod/ecosystem/xbps): the newest
    record of a name, over the comparison and the lines of the log. *)
From S2P Require Import Prelude.
Local Open Scope Z_scope.

Section dedupe.
  Context {A : Type} (name : A → string) (cmp : A → A → Z) (log_replaced log_dropped : A → A → string).

(** One round of the loop: the state is [out], [byName] and what was logged. *)
Definition dedupe_step (st : list A * gmap string nat * list string) (de : A) :
    list A * gmap string nat * list string :=
  let '(out, byName, log) := st in
  match byName !! name de with
  | None => (out ++ [de], <[name de := length out]> byName, log)
  | Some idx =>
      match out !! idx with
      | None => st (* out of range: [dedupe_inv] rules it out *)
      | Some kept =>
          if 0 <? cmp de kept
          then (<[idx := de]> out, byName, log ++ [log_replaced de kept])
          else (out, byName, log ++ [log_dropped de kept])
      end
  end.
Definition dedupe_run (descs : list A) := foldl dedupe_step ([], ∅, []) descs.
Definition dedupe (descs : list A) : list A * list string :=
  let '(out, _, log) := dedupe_run descs in (out, log).

(** The reference: the newest entry of a name, the first one among equals. *)
Definition newer (n : string) (acc : option A) (d : A) : option A :=
  if String.eqb (name d) n then
    match acc with
    | Some k => if 0 <? cmp d k then Some d else Some k
    | None => Some d
    end
  else acc.
Definition newest (n : string) (descs : list A) : option A :=
  foldl (newer n) None descs.

Lemma newest_snoc n descs d : newest n (descs ++ [d]) = newer n (newest n descs) d.
Proof. unfold newest. by rewrite foldl_app. Qed.
Lemma newest_Some n descs d : newest n descs = Some d → d ∈ descs ∧ name d = n.
Proof.
  revert d. induction descs as [|e descs IH] using rev_ind; intros d; [done|].
  rewrite newest_snoc, elem_of_app, list_elem_of_singleton. unfold newer.
  destruct (String.eqb_spec (name e) n); [|naive_solver].
  destruct (newest n descs); [case_match|]; naive_solver.
Qed.
Lemma newest_covers n descs d : d ∈ descs → name d = n → is_Some (newest n descs).
Proof.
  induction descs as [|e descs IH] using rev_ind; [by intros ?%elem_of_nil|].
  rewrite elem_of_app, list_elem_of_singleton, newest_snoc. unfold newer.
  intros Hd Hn. destruct (String.eqb_spec (name e) n).
  - destruct (newest n descs); [case_match|]; eauto.
  - destruct Hd as [Hd|<-]; [auto|done].
Qed.
(** The loop's invariant after the entries [seen]. *)
Record dedupe_inv (seen : list A) (out : list A) (byName : gmap string nat) : Prop := {
  di_index n i : byName !! n = Some i ↔ name <$> out !! i = Some n;
  di_newest n i : byName !! n = Some i → out !! i = newest n seen;
  di_unseen n : byName !! n = None → newest n seen = None
}.

Lemma dedupe_step_inv seen out byName log de :
  dedupe_inv seen out byName →
  let '(out', byName', _) := dedupe_step (out, byName, log) de in
  dedupe_inv (seen ++ [de]) out' byName'.
Proof.
  intros [Hidx Hnew Hun]. simpl. destruct (byName !! name de) as [idx|] eqn:Hby.
  - pose proof (Hnew _ _ Hby) as Hk. pose proof Hby as (kept & Hk' & Hkn)%Hidx%fmap_Some.
    rewrite Hk' in Hk. rewrite Hk'.
    assert (idx < length out)%nat as Hlen by by eapply lookup_lt_Some.
    assert (∀ n, name de ≠ n → newer n (newest n seen) de = newest n seen) as Hother.
    { intros n Hn. unfold newer. by rewrite (proj2 (String.eqb_neq _ _) Hn). }
    assert (∀ n i, byName !! n = Some i → i = idx → n = name de) as Hinj.
    { intros n i Hi%Hidx ->. rewrite Hk' in Hi. simpl in Hi. congruence. }
    destruct (0 <? _) eqn:Hcmp; split; intros n; try setoid_rewrite newest_snoc.
    + intros i. rewrite Hidx. destruct (decide (i = idx)) as [->|Hi].
      * rewrite list_lookup_insert_eq, Hk' by done. simpl. by rewrite Hkn.
      * by rewrite list_lookup_insert_ne.
    + intros i Hi. destruct (decide (name de = n)) as [<-|Hn].
      * assert (i = idx) as -> by congruence. rewrite list_lookup_insert_eq by done.
        unfold newer. by rewrite String.eqb_refl, <- Hk, Hcmp.
      * rewrite Hother, list_lookup_insert_ne by (done || naive_solver). auto.
    + intros Hn. rewrite Hother; [auto|]. intros <-. congruence.
    + intros i. apply Hidx.
    + intros i Hi. destruct (decide (name de = n)) as [<-|Hn]; [|by rewrite Hother by done; auto].
      assert (i = idx) as -> by congruence.
      unfold newer. by rewrite String.eqb_refl, <- Hk, Hcmp.
    + intros Hn. rewrite Hother; [auto|]. intros <-. congruence.
  - assert (newest (name de) seen = None) as Hnone by auto.
    assert (∀ n i, byName !! n = Some i → i < length out)%nat as Hlt.
    { intros n i (d & Hd & _)%Hidx%fmap_Some. by eapply lookup_lt_Some. }
    split; intros n; try setoid_rewrite newest_snoc.
    + intros i. rewrite lookup_insert_Some, Hidx. split.
      * intros [[<- <-]|[Hn Hi]]; [by rewrite list_lookup_middle|].
        apply fmap_Some in Hi as (d & Hd & ->).
        rewrite lookup_app_l by by eapply lookup_lt_Some. by rewrite Hd.
      * intros (d & Hd & ->)%fmap_Some.
        apply lookup_app_Some in Hd as [Hd|[Hle Hd]].
        -- right. split; [|by rewrite Hd]. intros Hn.
           assert (byName !! name d = Some i) by (apply Hidx; by rewrite Hd). congruence.
        -- apply list_lookup_singleton_Some in Hd as [? <-]. left. split; [done|lia].
    + intros i [[<- <-]|[Hn Hi]]%lookup_insert_Some.
      * rewrite list_lookup_middle by done. unfold newer. by rewrite String.eqb_refl, Hnone.
      * rewrite lookup_app_l by eauto. unfold newer.
        rewrite (proj2 (String.eqb_neq _ _) Hn). auto.
    + intros [Hn Hne]%lookup_insert_None. unfold newer.
      rewrite (proj2 (String.eqb_neq _ _) Hne). auto.
Qed.

Lemma dedupe_run_inv descs :
  let '(out, byName, _) := dedupe_run descs in dedupe_inv descs out byName.
Proof.
  unfold dedupe_run. induction descs as [|d descs IH] using rev_ind.
  - split; [|done|done]. intros n i. by rewrite lookup_empty.
  - rewrite foldl_app. destruct (foldl dedupe_step _ descs) as [[out byName] log].
    by apply dedupe_step_inv.
Qed.
Lemma dedupe_out_newest descs d :
  d ∈ (dedupe descs).1 ↔ newest (name d) descs = Some d.
Proof.
  unfold dedupe. pose proof (dedupe_run_inv descs) as H.
  destruct (dedupe_run descs) as [[out byName] log], H as [Hidx Hnew Hun]. simpl. split.
  - intros (i & Hi)%list_elem_of_lookup. rewrite <- Hi. symmetry. apply Hnew, Hidx. by rewrite Hi.
  - intros Hd. destruct (byName !! name d) as [i|] eqn:Hi; [|by rewrite Hun in Hd].
    apply list_elem_of_lookup_2 with i. rewrite <- Hd. by apply Hnew.
Qed.
Lemma dedupe_sub descs d : d ∈ (dedupe descs).1 → d ∈ descs.
Proof. intros Hd%dedupe_out_newest. by apply newest_Some in Hd as [Hd _]. Qed.
Lemma dedupe_nodup descs : NoDup (name <$> (dedupe descs).1).
Proof.
  unfold dedupe. pose proof (dedupe_run_inv descs) as H.
  destruct (dedupe_run descs) as [[out byName] log], H as [Hidx _ _]. simpl.
  apply NoDup_alt. intros i j n Hi Hj. rewrite list_lookup_fmap in Hi, Hj.
  apply Hidx in Hi, Hj. congruence.
Qed.
Lemma dedupe_covers descs d : d ∈ descs → ∃ k, k ∈ (dedupe descs).1 ∧ name k = name d.
Proof.
  intros Hd. destruct (newest_covers (name d) descs d Hd eq_refl) as [k Hk].
  pose proof (newest_Some _ _ _ Hk) as [_ Hn]. exists k. split; [|done].
  apply dedupe_out_newest. by rewrite Hn.
Qed.
(** Where the comparison is a total preorder. *)
Context (P : A → Prop).
Hypothesis cmp_refl : ∀ a, P a → cmp a a = 0.
Hypothesis cmp_opp : ∀ a b, P a → P b → name a = name b → cmp b a = - cmp a b.
Hypothesis cmp_trans : ∀ a b c, P a → P b → P c → name a = name b → name b = name c → cmp a b ≤ 0 → cmp b c ≤ 0 → cmp a c ≤ 0.
Lemma newest_max n descs k d : Forall P descs → newest n descs = Some k → d ∈ descs → name d = n → cmp d k ≤ 0.
Proof.
  revert k. induction descs as [|e descs IH] using rev_ind; intros k; [done|].
  rewrite Forall_app, Forall_singleton, newest_snoc. intros [HF He] Hk Hd Hn.
  pose proof (newest_covers n descs d) as Hcov.
  apply elem_of_app in Hd as [Hd|<-%list_elem_of_singleton].
  - destruct (Hcov Hd Hn) as [k' Hk']. specialize (IH k' HF Hk' Hd Hn).
    rewrite Hk' in Hk. unfold newer in Hk.
    destruct (String.eqb_spec (name e) n); [|naive_solver].
    destruct (Z.ltb_spec 0 (cmp e k')) as [Hlt|_]; [|naive_solver].
    injection Hk as <-. apply newest_Some in Hk' as [Hk' Hkn].
    rewrite Forall_forall in HF. apply (cmp_trans _ k'); auto; try congruence.
    rewrite cmp_opp by (auto; congruence). lia.
  - unfold newer in Hk. rewrite Hn, String.eqb_refl in Hk.
    destruct (newest n descs) as [k'|]; [|injection Hk as <-; by rewrite cmp_refl].
    destruct (Z.ltb_spec 0 (cmp d k')); injection Hk as <-; [by rewrite cmp_refl|done].
Qed.
Lemma dedupe_max descs k d : Forall P descs → k ∈ (dedupe descs).1 → d ∈ descs → name d = name k → cmp d k ≤ 0.
Proof. intros HF Hk%dedupe_out_newest Hd Hn. by apply (newest_max (name k) descs). Qed.
End dedupe.
