(* ===== verification/PacmanVercmp.v ===== *)
(** Version comparison of the pacman ecosystem
    (internal/mod/ecosystem/pacman/vercmp.go) and the choice of the newest
    version per package that the index generator makes with it
    (dedupeDescs of gen.go).

    The Go code walks two byte strings with indices; here an index into a
    string is the suffix that starts there. *)
From S2P Require Import Prelude GoStr Dedupe.
Local Open Scope Z_scope.

(** * The comparator *)

(** [rpmVerCmp] after its loop: the final showdown on what is left of both
    strings. *)
Definition showdown (a b : string) : Z :=
  match a, b with
  | EmptyString, EmptyString => 0
  | EmptyString, String c _ => if is_alpha c then 1 else -1
  | String c _, _ => if is_alpha c then -1 else 1
  end.

Definition trim_zeros (s : string) : string := (span (Ascii.eqb "0") s).2.

(** Comparison of two numeric segments: longer after the leading zeros
    are dropped is greater, then bytewise. *)
Definition num_cmp (x y : string) : Z :=
  let s1 := trim_zeros x in
  let s2 := trim_zeros y in
  if negb (String.length s1 =? String.length s2)%nat
  then (if (String.length s1 <? String.length s2)%nat then -1 else 1)
  else str_cmp s1 s2.

(** The loop of [rpmVerCmp]. [None] is running out of fuel. *)
Fixpoint rpm_loop (fuel : nat) (a b : string) : option Z :=
  match fuel with
  | O => None
  | S fuel =>
      match a, b with
      | EmptyString, _ | _, EmptyString => Some (showdown a b)
      | _, _ =>
          let '(sep1, a1) := span (λ c, negb (is_alnum c)) a in
          let '(sep2, b1) := span (λ c, negb (is_alnum c)) b in
          match a1, b1 with
          | EmptyString, _ | _, EmptyString => Some (showdown a1 b1)
          | String c _, String _ _ =>
              let d1 := String.length sep1 in
              let d2 := String.length sep2 in
              if negb (d1 =? d2)%nat then Some (if (d1 <? d2)%nat then -1 else 1)
              else
                let isnum := is_digit c in
                let p := if isnum then is_digit else is_alpha in
                let '(seg1, a2) := span p a1 in
                let '(seg2, b2) := span p b1 in
                if String.eqb seg2 "" then Some (if isnum then 1 else -1)
                else
                  let r := if isnum then num_cmp seg1 seg2 else str_cmp seg1 seg2 in
                  if negb (r =? 0) then Some r else rpm_loop fuel a2 b2
          end
      end
  end.

(** Every round consumes at least one byte of the first string
    ([rpm_loop_total]), so its length plus one is enough fuel. *)
Definition rpmVerCmp (a b : string) : Z :=
  if String.eqb a b then 0
  else default 0 (rpm_loop (S (String.length a)) a b).

(** [parseEVR]: epoch, version, release and whether there is a release.
    The last dash is searched for after the leading digits. *)
Definition parseEVR (evr : string) : string * string * string * bool :=
  let '(ds, rest) := span is_digit evr in
  let '(epoch, before, tail) :=
    match rest with
    | String c r =>
        if Ascii.eqb c ":" then (if negb (String.eqb ds "") then ds else "0", "", r)
        else ("0", ds, rest)
    | EmptyString => ("0", ds, rest)
    end in
  match cut_last "-" tail with
  | Some (l, rel) => (epoch, before +:+ l, rel, true)
  | None => (epoch, before +:+ tail, "", false)
  end.

Definition ComparePkgVer (a b : string) : Z :=
  if String.eqb a b then 0
  else
    let '(e1, v1, r1, hasRel1) := parseEVR a in
    let '(e2, v2, r2, hasRel2) := parseEVR b in
    let c := rpmVerCmp e1 e2 in
    if negb (c =? 0) then c
    else
      let c := rpmVerCmp v1 v2 in
      if negb (c =? 0) then c
      else if negb hasRel1 || negb hasRel2 then 0
      else rpmVerCmp r1 r2.

Example cmp1 : ComparePkgVer "1:1.0.0-1" "2.0.0-1" = 1. Proof. reflexivity. Qed.
Example cmp2 : ComparePkgVer "1.0" "1..0" = -1. Proof. reflexivity. Qed.
Example cmp3 : ComparePkgVer "1.0alpha1" "1.0" = -1. Proof. reflexivity. Qed.
Example cmp4 : ComparePkgVer "" "1.0-1" = -1. Proof. reflexivity. Qed.
Example cmp5 : ComparePkgVer "1.2" "1.10" = -1. Proof. reflexivity. Qed.
Example cmp6 : ComparePkgVer "1.0-1.1" "1.0-1" = 1. Proof. reflexivity. Qed.

(** * Termination and antisymmetry *)

Lemma is_alnum_cases c : is_alnum c = true → is_digit c = true ∨ is_alpha c = true.
Proof. unfold is_alnum. by rewrite orb_true_iff. Qed.
Lemma digit_not_alpha c : is_digit c = true → is_alpha c = false.
Proof.
  unfold is_digit, is_alpha, is_lower, is_upper, between.
  change (N_of_ascii "0") with 48%N. change (N_of_ascii "9") with 57%N.
  change (N_of_ascii "a") with 97%N. change (N_of_ascii "z") with 122%N.
  change (N_of_ascii "A") with 65%N. change (N_of_ascii "Z") with 90%N.
  rewrite andb_true_iff, orb_false_iff, !andb_false_iff, !N.leb_le, !N.leb_gt. lia.
Qed.

Definition seg_class (c : ascii) : ascii → bool := if is_digit c then is_digit else is_alpha.
Lemma seg_class_self c : is_alnum c = true → seg_class c c = true.
Proof. unfold seg_class. intros [H|H]%is_alnum_cases; [by rewrite H|]. by destruct (is_digit c) eqn:?. Qed.

(** The segment that starts at an alphanumeric byte is not empty. *)
Lemma span_seg c s seg r :
  is_alnum c = true → span (seg_class c) (String c s) = (seg, r) →
  seg ≠ "" ∧ (String.length r ≤ String.length s)%nat.
Proof.
  intros Hc H. pose proof (span_length _ _ _ _ H) as Hl. simpl in H, Hl.
  rewrite seg_class_self in H by done. destruct (span _ s). simplify_eq. simpl in Hl.
  split; [done|lia].
Qed.

Lemma span_alnum s sep c t :
  span (λ c, negb (is_alnum c)) s = (sep, String c t) → is_alnum c = true.
Proof. intros H%span_stop. by apply negb_false_iff in H. Qed.

(** The fuel of [rpmVerCmp] is enough. *)
Lemma rpm_loop_total f a b : (String.length a < f)%nat → is_Some (rpm_loop f a b).
Proof.
  revert a b. induction f as [|f IH]; intros a b Hf; [lia|].
  destruct a as [|x a], b as [|y b]; try (simpl; eauto; fail).
  cbn [rpm_loop].
  destruct (span _ (String x a)) as [sep1 a1] eqn:E1.
  destruct (span _ (String y b)) as [sep2 b1] eqn:E2.
  pose proof (span_length _ _ _ _ E1).
  destruct a1 as [|c a1], b1 as [|d b1]; eauto.
  case_match; [eauto|]. apply span_alnum in E1.
  fold (seg_class c). destruct (span _ (String c a1)) as [seg1 a2] eqn:E3.
  destruct (span_seg c a1 seg1 a2) as [_ ?]; [done..|].
  destruct (span _ (String d b1)) as [seg2 b2]. case_match; [eauto|].
  case_match; [eauto|]. apply IH. simpl in *. lia.
Qed.

Lemma num_cmp_antisym x y : num_cmp y x = - num_cmp x y.
Proof.
  unfold num_cmp. rewrite (Nat.eqb_sym (String.length (trim_zeros y))).
  destruct (Nat.eqb_spec (String.length (trim_zeros x)) (String.length (trim_zeros y)));
    simpl; [apply str_cmp_antisym|].
  destruct (Nat.ltb_spec (String.length (trim_zeros x)) (String.length (trim_zeros y))),
    (Nat.ltb_spec (String.length (trim_zeros y)) (String.length (trim_zeros x))); lia.
Qed.

Lemma showdown_antisym a b :
  a = "" ∨ b = "" → showdown b a = - showdown a b.
Proof. intros [-> | ->]; [destruct b|destruct a]; simpl; try done; by case_match. Qed.

(** A segment of the other kind is empty. *)
Lemma span_other c d t seg r :
  is_alnum c = true → is_alnum d = true → is_digit c ≠ is_digit d →
  span (seg_class c) (String d t) = (seg, r) → seg = "".
Proof.
  intros Hc Hd Hne. simpl. unfold seg_class.
  apply is_alnum_cases in Hc as [Hc|Hc], Hd as [Hd|Hd]; try congruence.
  - rewrite Hc. destruct (is_digit d) eqn:E; [congruence|]. by intros; simplify_eq.
  - destruct (is_digit c) eqn:E; [congruence|]. rewrite digit_not_alpha by done.
    by intros; simplify_eq.
  - destruct (is_digit c) eqn:E; destruct (is_digit d) eqn:E'; try congruence;
      (apply digit_not_alpha in E || apply digit_not_alpha in E'); congruence.
Qed.
Lemma seg_class_same c d : is_digit c = is_digit d → seg_class c = seg_class d.
Proof. unfold seg_class. by intros ->. Qed.

Lemma rpm_loop_antisym f a b : rpm_loop f b a = Z.opp <$> rpm_loop f a b.
Proof.
  revert a b. induction f as [|f IH]; intros a b; [done|].
  destruct a as [|x a], b as [|y b];
    try (cbn [rpm_loop fmap option_fmap option_map]; f_equal; apply showdown_antisym; by auto).
  cbn [rpm_loop].
  destruct (span _ (String x a)) as [sep1 a1] eqn:E1.
  destruct (span _ (String y b)) as [sep2 b1] eqn:E2.
  destruct a1 as [|c a1], b1 as [|d b1];
    try (cbn [fmap option_fmap option_map]; f_equal; apply showdown_antisym; by auto).
  apply span_alnum in E1, E2. rewrite (Nat.eqb_sym (String.length sep2)).
  destruct (Nat.eqb_spec (String.length sep1) (String.length sep2)); cbn [negb];
    [|destruct (Nat.ltb_spec (String.length sep1) (String.length sep2)),
        (Nat.ltb_spec (String.length sep2) (String.length sep1)); cbn; f_equal; lia].
  fold (seg_class c) (seg_class d).
  destruct (span (seg_class c) (String c a1)) as [seg1 a2] eqn:S1.
  destruct (span (seg_class c) (String d b1)) as [seg2 b2] eqn:S2.
  destruct (span (seg_class d) (String c a1)) as [seg1' a2'] eqn:S1'.
  destruct (span (seg_class d) (String d b1)) as [seg2' b2'] eqn:S2'.
  destruct (decide (is_digit c = is_digit d)) as [Heq|Hne].
  - rewrite <- (seg_class_same c d Heq), S1 in S1'. rewrite <- (seg_class_same c d Heq), S2 in S2'.
    simplify_eq. rewrite <- Heq.
    destruct (span_seg _ _ _ _ E1 S1) as [Hs1%String.eqb_neq _].
    rewrite (seg_class_same c d Heq) in S2.
    destruct (span_seg _ _ _ _ E2 S2) as [Hs2%String.eqb_neq _]. rewrite Hs1, Hs2.
    set (r := if is_digit c then num_cmp seg1' seg2' else str_cmp seg1' seg2').
    assert ((if is_digit c then num_cmp seg2' seg1' else str_cmp seg2' seg1') = - r) as ->.
    { unfold r. destruct (is_digit c); [apply num_cmp_antisym|apply str_cmp_antisym]. }
    destruct (Z.eqb_spec r 0) as [->|]; [apply IH|].
    destruct (Z.eqb_spec (- r) 0); [lia|done].
  - rewrite (span_other _ _ _ _ _ E1 E2 Hne S2).
    rewrite (span_other _ _ _ _ _ E2 E1 (not_eq_sym Hne) S1').
    cbn. destruct (is_digit c), (is_digit d); done.
Qed.

(** * The reference order

    A version that does not end in a separator is a sequence of segments.
    Its key lists, per segment, a rank that encodes the length of the
    separator before it and its kind, and its value; [end_key] closes the
    list, above a directly attached alphabetic segment and below everything
    else. Keys are compared lexicographically. *)
Definition key : Type := Z * (Z * string).
Definition key_cmp : key → key → comparison :=
  pair_cmp Z.compare (pair_cmp Z.compare String.compare).
Definition end_key : key := (1, (0, "")).
Definition seg_key (sep : nat) (isnum : bool) (seg : string) : key :=
  if isnum
  then (2 * Z.of_nat sep + 2, (Z.of_nat (String.length (trim_zeros seg)), trim_zeros seg))
  else (if (sep =? 0)%nat then 0 else 2 * Z.of_nat sep + 1, (0, seg)).

Fixpoint version_keys (fuel : nat) (s : string) : list key :=
  match fuel with
  | O => []
  | S fuel =>
      let '(sep, s1) := span (λ c, negb (is_alnum c)) s in
      match s1 with
      | EmptyString => [end_key]
      | String c _ =>
          let '(seg, r) := span (seg_class c) s1 in
          seg_key (String.length sep) (is_digit c) seg :: version_keys fuel r
      end
  end.
Definition version_key (s : string) : list key := version_keys (S (String.length s)) s.

Definition ends_alnum (s : string) : bool :=
  match last_byte s with Some c => is_alnum c | None => true end.

(** One segment of a version that does not end in a separator. *)
Lemma version_round x s :
  ends_alnum (String x s) = true →
  ∃ sep c t seg r,
    span (λ c, negb (is_alnum c)) (String x s) = (sep, String c t) ∧ is_alnum c = true ∧
    span (seg_class c) (String c t) = (seg, r) ∧ seg ≠ "" ∧ ends_alnum r = true ∧
    (String.length r < String.length (String x s))%nat ∧
    (sep = "" ↔ is_alnum x = true) ∧ (sep = "" → c = x).
Proof.
  intros Hwf. destruct (span _ (String x s)) as [sep s1] eqn:E1.
  pose proof (span_app _ _ _ _ E1) as Happ. pose proof (span_all _ _ _ _ E1) as Hall.
  destruct s1 as [|c t].
  { rewrite app_nil_r in Happ. subst sep. unfold ends_alnum in Hwf.
    destruct (last_byte (String x s)) as [c|] eqn:Hl; [|by apply last_byte_None in Hl].
    apply (all_bytes_last _ _ _ Hall) in Hl. by rewrite Hwf in Hl. }
  pose proof (span_alnum _ _ _ _ E1) as Hc.
  destruct (span (seg_class c) (String c t)) as [seg r] eqn:E2.
  destruct (span_seg _ _ _ _ Hc E2) as [Hseg Hlen].
  pose proof (span_length _ _ _ _ E1) as Hlen1. pose proof (span_app _ _ _ _ E2) as Happ2.
  exists sep, c, t, seg, r. split_and!; try done.
  - destruct (decide (r = "")) as [->|Hr]; [done|]. unfold ends_alnum in *.
    rewrite Happ, Happ2, !last_byte_app in Hwf; [done|done|by destruct seg].
  - simpl in *. lia.
  - simpl in E1. destruct (is_alnum x) eqn:Hx; simpl in E1; [by simplify_eq|].
    destruct (span _ s). by simplify_eq.
  - intros ->. by injection Happ.
Qed.

#[export] Instance key_TotalCmp : TotalCmp key_cmp.
Proof. apply _. Qed.

Lemma key_cmp_rank r1 v1 r2 v2 :
  r1 ≠ r2 → cmp_int (key_cmp (r1, v1) (r2, v2)) = if r1 <? r2 then -1 else 1.
Proof.
  intros Hne. unfold key_cmp, pair_cmp at 1. simpl.
  destruct (Z.compare_spec r1 r2); [done|..]; simpl; destruct (Z.ltb_spec r1 r2); lia.
Qed.
Lemma lex_cons_ne {A} (f : A → A → comparison) x y l1 l2 :
  f x y ≠ Eq → lex_cmp f (x :: l1) (y :: l2) = f x y.
Proof. simpl. by destruct (f x y). Qed.
Lemma lex_rank r1 v1 l1 r2 v2 l2 :
  r1 ≠ r2 →
  cmp_int (lex_cmp key_cmp ((r1, v1) :: l1) ((r2, v2) :: l2)) = if r1 <? r2 then -1 else 1.
Proof.
  intros Hne. pose proof (key_cmp_rank r1 v1 r2 v2 Hne) as Hr. rewrite lex_cons_ne; [done|].
  intros E. rewrite E in Hr. simpl in Hr. by destruct (r1 <? r2).
Qed.

Lemma rank_neq sep1 sep2 b1 b2 s1 s2 :
  sep1 ≠ sep2 ∨ b1 ≠ b2 →
  (seg_key sep1 b1 s1).1 ≠ (seg_key sep2 b2 s2).1 ∧
  ((seg_key sep1 b1 s1).1 <? (seg_key sep2 b2 s2).1) =
    if (sep1 =? sep2)%nat then negb b1 else (sep1 <? sep2)%nat.
Proof.
  intros H. unfold seg_key.
  destruct b1, b2, (Nat.eqb_spec sep1 0), (Nat.eqb_spec sep2 0), (Nat.eqb_spec sep1 sep2),
    (Nat.ltb_spec sep1 sep2); cbn [fst negb];
    match goal with |- context [Z.ltb ?x ?y] => destruct (Z.ltb_spec x y) end;
    destruct H; try congruence; split; try done; lia.
Qed.

Definition seg_cmp (isnum : bool) (x y : string) : Z :=
  if isnum then num_cmp x y else str_cmp x y.

(** On segments of one kind after equal separators the keys order as the
    code compares the segments. *)
Lemma seg_key_cmp sep isnum x y :
  cmp_int (key_cmp (seg_key sep isnum x) (seg_key sep isnum y)) = seg_cmp isnum x y.
Proof.
  unfold key_cmp, pair_cmp, seg_key, seg_cmp, num_cmp.
  destruct isnum; cbn [fst snd]; rewrite !Z.compare_refl; [|done].
  destruct (Nat.eqb_spec (String.length (trim_zeros x)) (String.length (trim_zeros y))) as [E|E];
    cbn [negb].
  - by rewrite E, Z.compare_refl.
  - destruct (Z.compare_spec (Z.of_nat (String.length (trim_zeros x)))
      (Z.of_nat (String.length (trim_zeros y)))); [lia|..];
      destruct (Nat.ltb_spec (String.length (trim_zeros x)) (String.length (trim_zeros y)));
      simpl; lia.
Qed.
Lemma lex_seg sep isnum x y l1 l2 :
  cmp_int (lex_cmp key_cmp (seg_key sep isnum x :: l1) (seg_key sep isnum y :: l2)) =
  if negb (seg_cmp isnum x y =? 0) then seg_cmp isnum x y
  else cmp_int (lex_cmp key_cmp l1 l2).
Proof.
  rewrite <- (seg_key_cmp sep). cbn [lex_cmp].
  by destruct (key_cmp (seg_key sep isnum x) (seg_key sep isnum y)).
Qed.

(** A version against the empty one: the final showdown. *)
Lemma showdown_ref f y s :
  ends_alnum (String y s) = true → (String.length (String y s) < f)%nat →
  showdown "" (String y s) = cmp_int (lex_cmp key_cmp [end_key] (version_keys f (String y s))).
Proof.
  intros Hwf Hf. destruct f as [|f]; [lia|].
  destruct (version_round y s Hwf) as (sep & c & t & seg & r & E1 & Hc & E2 & _ & _ & _ & Hsep & Hcx).
  cbn [version_keys]. rewrite E1, E2. unfold seg_key, end_key, showdown.
  destruct sep as [|? sep]; cbn [String.length Nat.eqb].
  - rewrite (Hcx eq_refl) in *. apply is_alnum_cases in Hc as [Hd|Ha].
    + rewrite Hd, (digit_not_alpha y Hd), lex_rank by done. done.
    + rewrite Ha. destruct (is_digit y) eqn:Hd; [by rewrite (digit_not_alpha y Hd) in Ha|].
      by rewrite lex_rank.
  - assert (is_alpha y = false) as ->.
    { destruct (is_alpha y) eqn:Ha; [|done].
      assert (is_alnum y = true) as H%Hsep by (unfold is_alnum; by rewrite Ha, orb_true_r). done. }
    destruct (is_digit c); rewrite lex_rank by lia;
      match goal with |- context [Z.ltb ?x ?y] => destruct (Z.ltb_spec x y) end; lia.
Qed.

Lemma rpm_loop_ref f a b :
  ends_alnum a = true → ends_alnum b = true →
  (String.length a < f)%nat → (String.length b < f)%nat →
  rpm_loop f a b = Some (cmp_int (lex_cmp key_cmp (version_keys f a) (version_keys f b))).
Proof.
  revert a b. induction f as [|f IH]; intros a b Ha Hb Hfa Hfb; [lia|].
  destruct a as [|x a]; [destruct b as [|y b]|destruct b as [|y b]].
  - done.
  - change (rpm_loop (S f) "" (String y b)) with (Some (showdown "" (String y b))).
    change (version_keys (S f) "") with [end_key]. f_equal. by apply showdown_ref.
  - change (rpm_loop (S f) (String x a) "") with (Some (showdown (String x a) "")).
    change (version_keys (S f) "") with [end_key]. f_equal.
    rewrite (showdown_antisym "" (String x a)) by auto. rewrite (showdown_ref (S f)) by done.
    rewrite <- cmp_int_opp. by rewrite <- tc_sym.
  - destruct (version_round x a Ha) as (sep1&c&t&s1&r1&E1&Hc&S1&Hs1&Hr1&Hl1&_&_).
    destruct (version_round y b Hb) as (sep2&d&u&s2&r2&E2&Hd&S2&Hs2&Hr2&Hl2&_&_).
    cbn [rpm_loop version_keys]. rewrite E1, E2, S1, S2. fold (seg_class c).
    pose proof (rank_neq (String.length sep1) (String.length sep2) (is_digit c) (is_digit d) s1 s2) as Hrank.
    destruct (seg_key (String.length sep1) (is_digit c) s1) as [k1 v1] eqn:K1.
    destruct (seg_key (String.length sep2) (is_digit d) s2) as [k2 v2] eqn:K2.
    cbn [fst] in Hrank.
    destruct (Nat.eqb_spec (String.length sep1) (String.length sep2)) as [Hsep|Hsep]; cbn [negb].
    2: { destruct Hrank as [Hne Hlt]; [by left|]. by rewrite lex_rank, Hlt. }
    destruct (decide (is_digit c = is_digit d)) as [Hcd|Hcd].
    + rewrite (seg_class_same c d Hcd) in *. rewrite S1, S2.
      apply String.eqb_neq in Hs2. rewrite Hs2.
      rewrite <- K1, <- K2, Hsep, <- Hcd, lex_seg. fold (seg_cmp (is_digit c) s1 s2).
      destruct (negb (seg_cmp _ _ _ =? 0)); [done|]. apply IH; try done; simpl in *; lia.
    + destruct Hrank as [Hne Hlt]; [by right|]. rewrite lex_rank, Hlt by done.
      rewrite S1. destruct (span (seg_class c) (String d u)) as [s2' r2'] eqn:S2'.
      rewrite (span_other c d u s2' r2' Hc Hd Hcd S2'). by destruct (is_digit c).
Qed.

(** More fuel changes nothing. *)
Lemma rpm_loop_more f g a b r : (f ≤ g)%nat → rpm_loop f a b = Some r → rpm_loop g a b = Some r.
Proof.
  revert g a b. induction f as [|f IH]; intros [|g] a b Hfg; [done|done|lia|].
  destruct a as [|x a], b as [|y b]; try done. cbn [rpm_loop].
  destruct (span _ (String x a)) as [? [|c a1]], (span _ (String y b)) as [? [|d b1]]; try done.
  case_match; [done|].
  destruct (span _ (String c a1)) as [seg1 a2], (span _ (String d b1)) as [seg2 b2].
  case_match; [done|]. case_match; [done|]. apply IH. lia.
Qed.
Lemma version_keys_fuel f g s :
  ends_alnum s = true → (String.length s < f)%nat → (String.length s < g)%nat →
  version_keys f s = version_keys g s.
Proof.
  revert g s. induction f as [|f IH]; intros [|g] s Hs Hf Hg; try lia.
  destruct s as [|x s]; [done|].
  destruct (version_round x s Hs) as (sep&c&t&seg&r&E1&_&E2&_&Hr&Hl&_).
  cbn [version_keys]. rewrite E1, E2. f_equal. apply IH; [done|lia..].
Qed.

Lemma rpmVerCmp_ref a b :
  ends_alnum a = true → ends_alnum b = true →
  rpmVerCmp a b = cmp_int (lex_cmp key_cmp (version_key a) (version_key b)).
Proof.
  intros Ha Hb. unfold rpmVerCmp. destruct (String.eqb_spec a b) as [->|_].
  { by rewrite tc_refl by apply _. }
  destruct (rpm_loop_total (S (String.length a)) a b) as [r Hr]; [lia|]. rewrite Hr. simpl.
  set (f := S (String.length a + String.length b)).
  apply (rpm_loop_more _ f) in Hr; [|unfold f; lia].
  rewrite (rpm_loop_ref f) in Hr by (done || unfold f; lia).
  unfold version_key. rewrite (version_keys_fuel _ f a), (version_keys_fuel _ f b)
    by (done || unfold f; lia). by injection Hr as <-.
Qed.
Lemma rpmVerCmp_refl a : rpmVerCmp a a = 0.
Proof. unfold rpmVerCmp. by rewrite String.eqb_refl. Qed.
Lemma rpmVerCmp_opp a b : rpmVerCmp b a = - rpmVerCmp a b.
Proof.
  unfold rpmVerCmp. rewrite (String.eqb_sym b a). destruct (String.eqb a b); [done|].
  set (f := S (String.length a + String.length b)).
  destruct (rpm_loop_total (S (String.length a)) a b) as [r Hr]; [lia|].
  destruct (rpm_loop_total (S (String.length b)) b a) as [q Hq]; [lia|].
  rewrite Hr, Hq. apply (rpm_loop_more _ f) in Hr, Hq; [|unfold f; lia..].
  rewrite rpm_loop_antisym, Hr in Hq. by injection Hq as <-.
Qed.

(** A version specification of the form the generators write: with a
    release, no part ending in a separator. *)
Definition canonical (s : string) : bool :=
  let '(e, v, r, hasRel) := parseEVR s in
  hasRel && ends_alnum e && ends_alnum v && ends_alnum r.
Definition evr_key (s : string) : list key * (list key * list key) :=
  let '(e, v, r, _) := parseEVR s in (version_key e, (version_key v, version_key r)).
Definition evr_cmp := pair_cmp (lex_cmp key_cmp) (pair_cmp (lex_cmp key_cmp) (lex_cmp key_cmp)).
#[export] Instance evr_TotalCmp : TotalCmp evr_cmp.
Proof. apply _. Qed.

Lemma ComparePkgVer_ref a b :
  canonical a = true → canonical b = true →
  ComparePkgVer a b = cmp_int (evr_cmp (evr_key a) (evr_key b)).
Proof.
  unfold canonical, ComparePkgVer. intros Ha Hb.
  destruct (String.eqb_spec a b) as [->|_]; [by rewrite tc_refl by apply _|].
  unfold evr_key, evr_cmp, pair_cmp.
  destruct (parseEVR a) as [[[e1 v1] r1] h1], (parseEVR b) as [[[e2 v2] r2] h2].
  rewrite !andb_true_iff in Ha, Hb. destruct Ha as [[[-> ?] ?] ?], Hb as [[[-> ?] ?] ?].
  cbn [fst snd]. rewrite !rpmVerCmp_ref by done.
  do 2 (destruct (lex_cmp key_cmp _ _); try done).
Qed.
Lemma ComparePkgVer_opp a b : ComparePkgVer b a = - ComparePkgVer a b.
Proof.
  unfold ComparePkgVer. rewrite (String.eqb_sym b a). destruct (String.eqb a b); [done|].
  destruct (parseEVR a) as [[[e1 v1] r1] h1], (parseEVR b) as [[[e2 v2] r2] h2].
  rewrite (rpmVerCmp_opp e1 e2), (rpmVerCmp_opp v1 v2), (rpmVerCmp_opp r1 r2).
  destruct (Z.eqb_spec (rpmVerCmp e1 e2) 0) as [->|]; simpl;
    [|destruct (Z.eqb_spec (- rpmVerCmp e1 e2) 0); [lia|done]].
  destruct (Z.eqb_spec (rpmVerCmp v1 v2) 0) as [->|]; simpl;
    [|destruct (Z.eqb_spec (- rpmVerCmp v1 v2) 0); [lia|done]].
  by destruct h1, h2.
Qed.

(** * One entry per package (gen.go) *)
Record descEntry := mk_descEntry { dir : string; desc : string; name : string; version : string }.

Definition dedup_log_replaced (de kept : descEntry) : string :=
  "pacman.gen: дедуп: " +:+ name de +:+ ": " +:+ version kept +:+ " → " +:+ version de.
Definition dedup_log_dropped (de kept : descEntry) : string :=
  "pacman.gen: дедуп: " +:+ name de +:+ ": отброшена " +:+ version de +:+
  " (в индексе " +:+ version kept +:+ ")".

(** By the version; of equal ones the first stays. *)
Definition dedupeDescs : list descEntry → list descEntry * list string :=
  dedupe name (λ de kept, ComparePkgVer (version de) (version kept)) dedup_log_replaced dedup_log_dropped.
Definition newest_desc : string → list descEntry → option descEntry := newest name (λ de kept, ComparePkgVer (version de) (version kept)).
Lemma ComparePkgVer_refl a : ComparePkgVer a a = 0.
Proof. unfold ComparePkgVer. by rewrite String.eqb_refl. Qed.
Lemma ComparePkgVer_le_trans a b c :
  canonical a = true → canonical b = true → canonical c = true →
  ComparePkgVer a b ≤ 0 → ComparePkgVer b c ≤ 0 → ComparePkgVer a c ≤ 0.
Proof. intros Ha Hb Hc. rewrite !ComparePkgVer_ref by done. apply (cmp_int_trans evr_cmp). Qed.

(** The package index has exactly one entry per package name that was
    collected, namely the newest one of that name by [ComparePkgVer] (the
    first among equals); and when the versions are canonical no collected
    version of the package is newer than the one kept. *)
Theorem dedupeDescs_correct (descs : list descEntry) :
  let out := (dedupeDescs descs).1 in
  NoDup (name <$> out) ∧
  (∀ d, d ∈ out ↔ newest_desc (name d) descs = Some d) ∧
  (∀ d, d ∈ descs → ∃ k, k ∈ out ∧ name k = name d) ∧
  (Forall (λ d, canonical (version d) = true) descs →
   ∀ k d, k ∈ out → d ∈ descs → name d = name k → ComparePkgVer (version d) (version k) ≤ 0).
Proof.
  simpl. split_and!.
  - apply dedupe_nodup.
  - apply dedupe_out_newest.
  - apply dedupe_covers.
  - intros HF k d Hk Hd Hn. refine (dedupe_max name _ _ _ (λ d, canonical (version d) = true) _ _ _ descs k d HF Hk Hd Hn).
    + intros a _. apply ComparePkgVer_refl.
    + intros a b _ _ _. apply ComparePkgVer_opp.
    + intros a b c ? ? ? _ _. by apply ComparePkgVer_le_trans.
Qed.

(** The loop of [rpmVerCmp] terminates for all inputs, and the comparator
    is reflexive and antisymmetric for all inputs, malformed ones included. *)
Theorem ComparePkgVer_antisymmetric (a b : string) :
  is_Some (rpm_loop (S (String.length a)) a b) ∧
  ComparePkgVer a a = 0 ∧ ComparePkgVer b a = - ComparePkgVer a b.
Proof.
  split_and!; [apply rpm_loop_total; lia|apply ComparePkgVer_refl|apply ComparePkgVer_opp].
Qed.

(** C1: on canonical specifications (a release is present and no part ends
    in a separator) the segment-by-segment comparator is the lexicographic
    order of the segment keys, so it is a total preorder. *)
Theorem ComparePkgVer_reference_order (a b c : string) :
  canonical a = true → canonical b = true → canonical c = true →
  ComparePkgVer a b = cmp_int (evr_cmp (evr_key a) (evr_key b)) ∧
  (ComparePkgVer a b ≤ 0 → ComparePkgVer b c ≤ 0 → ComparePkgVer a c ≤ 0).
Proof. intros ???. split; [by apply ComparePkgVer_ref|by apply ComparePkgVer_le_trans]. Qed.

Example ComparePkgVer_reference_order_witness :
  ComparePkgVer "1.0rc1-1" "1:0.9-2" = -1 ∧ ComparePkgVer "1.0rc1-1" "1.0-3" ≤ 0.
Proof.
  split.
  - refine (eq_trans (proj1 (ComparePkgVer_reference_order "1.0rc1-1" "1:0.9-2" "1:0.9-2" _ _ _)) _);
      vm_compute; reflexivity.
  - apply (proj2 (ComparePkgVer_reference_order "1.0rc1-1" "1.0-1" "1.0-3"
      eq_refl eq_refl eq_refl)); vm_compute; discriminate.
Defined.

(** Outside the canonical specifications the comparator is not
    transitive: a trailing separator gives a strict cycle, and a missing
    release compares equal to all releases. The entry that [dedupeDescs]
    keeps then depends on the order of the collected packages. *)
Theorem ComparePkgVer_not_transitive :
  (ComparePkgVer "1." "1.1" = -1 ∧ ComparePkgVer "1.1" "1..a" = -1 ∧
   ComparePkgVer "1..a" "1." = -1) ∧
  (ComparePkgVer "1.0-2" "1.0" = 0 ∧ ComparePkgVer "1.0" "1.0-1" = 0 ∧
   ComparePkgVer "1.0-2" "1.0-1" = 1) ∧
  (let e v := mk_descEntry "" "" "p" v in
   (version <$> (dedupeDescs [e "1."; e "1.1"; e "1..a"]).1) = ["1..a"] ∧
   (version <$> (dedupeDescs [e "1.1"; e "1..a"; e "1."]).1) = ["1."]).
Proof. vm_compute. repeat split; reflexivity. Qed.
