(* ===== verification/TxnLog.v ===== *)
(** The history of client transactions (internal/core/engine/cache/txn.go):
    a ring buffer of fixed capacity that is read newest first. *)
From S2P Require Import Prelude GoStr.
Local Open Scope Z_scope.

Definition truncateRunes (s : string) (n : Z) : string :=
  let r := runes s in
  if n <? Z.of_nat (length r) then String.concat "" (take (Z.to_nat n) r) else s.

(** * The ring *)
Record Txn := mk_Txn {
  tx_At : Z;
  tx_Ecosystem : string;
  tx_Path : string;
  tx_Status : string;
  tx_Size : Z;
  tx_Err : string
}.
Definition zero_Txn : Txn := mk_Txn 0 "" "" "" 0 "".
#[global] Instance Txn_inhabited : Inhabited Txn := populate zero_Txn.
Definition txnCap : Z := 50.
Definition txnPathRunes : Z := 200.
Definition txnErrRunes : Z := 256.

Record txnLog := mk_txnLog { ring : list Txn; head : Z; count : Z }.
Definition new_txnLog : txnLog := mk_txnLog (replicate (Z.to_nat txnCap) zero_Txn) 0 0.

(** What [record] does to a transaction before it stores it. *)
Definition normalize (t : Txn) : Txn :=
  mk_Txn (tx_At t) (tx_Ecosystem t) (truncateRunes (tx_Path t) txnPathRunes)
    (if String.eqb (tx_Status t) "" && negb (String.eqb (tx_Err t) "")
     then "error" else tx_Status t)
    (tx_Size t) (truncateRunes (tx_Err t) txnErrRunes).

Definition record (l : txnLog) (t : Txn) : txnLog :=
  mk_txnLog (<[Z.to_nat (head l) := normalize t]> (ring l))
    ((head l + 1) mod txnCap)
    (if count l <? txnCap then count l + 1 else count l).

Definition recent (l : txnLog) (limit : Z) : list Txn :=
  let limit := if limit <? 0 then 0 else limit in
  let limit := if count l <? limit then count l else limit in
  let limit := if txnCap <? limit then txnCap else limit in
  (λ i, ring l !!! Z.to_nat ((head l - 1 - Z.of_nat i + txnCap) mod txnCap))
    <$> seq 0 (Z.to_nat limit).

Example recent1 :
  tx_Path <$> recent (record (record new_txnLog (mk_Txn 1 "apt" "/a" "" 0 "x"))
    (mk_Txn 2 "apt" "/b" "HIT" 0 "")) 5 = ["/b"; "/a"].
Proof. reflexivity. Qed.

(** * The abstract history

    [holds l h]: the ring [l] stores the newest transactions of [h], which
    lists all of them, newest first. *)
Definition slot (l : txnLog) (i : Z) : nat := Z.to_nat ((head l - 1 - i + txnCap) mod txnCap).

Record holds (l : txnLog) (h : list Txn) : Prop := {
  holds_len : length (ring l) = Z.to_nat txnCap;
  holds_head : 0 ≤ head l < txnCap;
  holds_count : count l = Z.min txnCap (Z.of_nat (length h));
  holds_slot i : (i < Z.to_nat (count l))%nat → ring l !! slot l (Z.of_nat i) = h !! i
}.

Lemma holds_new : holds new_txnLog [].
Proof. split; simpl; [done|unfold txnCap; lia|done|lia]. Qed.

Lemma slot_record_old l t i :
  0 ≤ head l < txnCap → 0 ≤ i < txnCap - 1 → slot (record l t) (i + 1) = slot l i.
Proof.
  intros Hh Hi. unfold slot, record, txnCap in *. simpl. f_equal.
  assert ((head l + 1) mod 50 = head l + 1 ∨ (head l + 1 = 50 ∧ (head l + 1) mod 50 = 0)) as Hm.
  { destruct (decide (head l + 1 = 50)) as [E|E]; [right; by rewrite E|].
    left. apply Z.mod_small. lia. }
  destruct Hm as [->|[E ->]]; [f_equal; lia|].
  replace (head l - 1 - i + 50) with ((0 - 1 - (i + 1) + 50) + 1 * 50) by lia.
  by rewrite Z.mod_add.
Qed.
Lemma slot_record_new l t : 0 ≤ head l < txnCap → slot (record l t) 0 = Z.to_nat (head l).
Proof.
  intros Hh. unfold slot, record, txnCap in *. simpl. f_equal.
  destruct (decide (head l + 1 = 50)) as [E|E].
  - rewrite E. change (50 mod 50) with 0. rewrite Z.mod_small; lia.
  - rewrite (Z.mod_small (head l + 1)) by lia.
    replace (head l + 1 - 1 - 0 + 50) with (head l + 1 * 50) by lia.
    rewrite Z.mod_add, Z.mod_small by lia. done.
Qed.
Lemma slot_distinct l i :
  0 ≤ head l < txnCap → 0 ≤ i < txnCap - 1 → slot l i ≠ Z.to_nat (head l).
Proof.
  intros Hh Hi. unfold slot, txnCap in *.
  assert ((head l - 1 - i + 50) mod 50 ≠ head l).
  { destruct (decide (head l - 1 - i + 50 < 50)).
    - rewrite Z.mod_small; lia.
    - replace (head l - 1 - i + 50) with ((head l - 1 - i) + 1 * 50) by lia.
      rewrite Z.mod_add, Z.mod_small; lia. }
  pose proof (Z.mod_pos_bound (head l - 1 - i + 50) 50). lia.
Qed.

Lemma holds_record l h t : holds l h → holds (record l t) (normalize t :: h).
Proof.
  intros [Hlen Hh Hc Hs]. split.
  - simpl. by rewrite length_insert.
  - simpl. apply Z.mod_pos_bound. done.
  - simpl. rewrite Hc. unfold txnCap. destruct (Z.ltb_spec (Z.min 50 (Z.of_nat (length h))) 50); lia.
  - intros [|i] Hi.
    + rewrite slot_record_new by done. simpl. apply list_lookup_insert_eq. unfold txnCap in *. lia.
    + assert ((i < Z.to_nat (count l))%nat ∧ 0 ≤ Z.of_nat i < txnCap - 1) as [Hi' Hr].
      { simpl in Hi. revert Hi. unfold txnCap in *. destruct (Z.ltb_spec (count l) 50); lia. }
      rewrite Nat2Z.inj_succ, <- Z.add_1_r, slot_record_old by done. simpl.
      rewrite list_lookup_insert_ne; [by apply Hs|]. by apply not_eq_sym, slot_distinct.
Qed.

Lemma holds_recent l h limit :
  holds l h → recent l limit = take (Z.to_nat (Z.min limit txnCap)) h.
Proof.
  intros [Hlen Hh Hc Hs]. unfold recent.
  set (n := Z.to_nat _). set (m := Z.to_nat (Z.min _ _)).
  assert (n = (m `min` length h)%nat ∧ (n ≤ Z.to_nat (count l))%nat) as [Hn Hle].
  { unfold n, m, txnCap in *. destruct (Z.ltb_spec limit 0), (Z.ltb_spec (count l) limit);
      repeat case_match; lia. }
  apply list_eq. intros i. rewrite list_lookup_fmap.
  destruct (decide (i < n)%nat) as [Hi|Hi].
  - rewrite lookup_seq_lt by done. simpl. rewrite lookup_take_lt by lia.
    rewrite <- (Hs i) by lia. unfold slot. symmetry. apply list_lookup_lookup_total_lt.
    rewrite Hlen. change (Z.to_nat txnCap) with 50%nat.
    destruct (Z.mod_pos_bound (head l - 1 - Z.of_nat i + txnCap) txnCap); [done|].
    unfold txnCap in *. lia.
  - rewrite lookup_seq_ge by lia. symmetry. simpl. apply lookup_ge_None. rewrite length_take. lia.
Qed.

Lemma holds_foldl ts l h :
  holds l h → holds (foldl record l ts) (reverse (normalize <$> ts) ++ h).
Proof.
  revert l h. induction ts as [|t ts IH]; intros l h H; [done|].
  simpl. rewrite reverse_cons, <- (assoc_L (++)). apply IH. by apply holds_record.
Qed.

(** After any sequence of recorded transactions [recent limit] is the
    list of the last [min limit 50] of them, newest first, with the status
    normalized and path and error text cut; a negative limit reads nothing. *)
Theorem recent_newest_first (ts : list Txn) (limit : Z) :
  recent (foldl record new_txnLog ts) limit =
  take (Z.to_nat (Z.min limit 50)) (reverse (normalize <$> ts)).
Proof.
  rewrite (holds_recent _ (reverse (normalize <$> ts) ++ [])); [by rewrite (right_id_L [] (++))|].
  apply holds_foldl, holds_new.
Qed.

Lemma truncateRunes_runes s n :
  0 ≤ n → runes (truncateRunes s n) = take (Z.to_nat n) (runes s).
Proof.
  intros Hn. unfold truncateRunes. destruct (Z.ltb_spec n (Z.of_nat (length (runes s)))).
  - apply runes_concat, Forall_take, runes_ok.
  - symmetry. apply take_ge. lia.
Qed.

(** A stored transaction is bounded: its path has at most 200 runes and
    its error text at most 256, the kept runes are the first ones of the
    original, and text within the limit is stored unchanged. *)
Theorem record_bounded (t : Txn) :
  runes (tx_Path (normalize t)) = take 200 (runes (tx_Path t)) ∧
  runes (tx_Err (normalize t)) = take 256 (runes (tx_Err t)) ∧
  ((length (runes (tx_Path t)) ≤ 200)%nat → tx_Path (normalize t) = tx_Path t).
Proof.
  unfold normalize. cbn [tx_Path tx_Err]. rewrite !truncateRunes_runes by done.
  split_and!; [done..|]. intros Hl. unfold truncateRunes, txnPathRunes.
  destruct (Z.ltb_spec 200 (Z.of_nat (length (runes (tx_Path t))))); [lia|done].
Qed.
