(* ===== verification/CacheEngine.v ===== *)
(** The pull-through cache (internal/core/engine/cache/engine.go): immutable
    objects are downloaded once, mutable ones are revalidated and replaced
    under a fresh versioned key; the bytes of the replaced version are deleted
    in the background.

    The engine is modelled operation by operation over explicit state. A
    flight of [singleflight] runs the function once and hands its result to
    all callers of the key, so one caller is modelled; [ctx] only adds errors
    of the ports. Background deletions are a queue; [Cache.deleteOnce] is the
    step that a goroutine makes later. *)
From S2P Require Import Prelude GoStr Domain Port TxnLog.
Local Open Scope Z_scope.

(** * Requests and responses (port/http.go, port/ecosystem.go) *)
Record Request := mk_Request { rq_URL : string; rq_Header : gmap string string }.
Record Response := mk_Response {
  rs_StatusCode : Z;
  rs_ContentLength : Z;
  rs_Header : string → string;
  rs_Body : list string * option error (* the chunks and how reading ends *)
}.

Record Checksum := mk_Checksum { ck_Algo : string; ck_Hex : string }.
Record Target := mk_Target {
  tg_UpstreamURL : string;
  tg_UpstreamPath : string;
  tg_StorageKey : string;
  tg_Checksum : Checksum;
  tg_ProxyURL : string
}.
(** The part of [port.Ecosystem] that the engine calls. *)
Record Ecosystem := mk_Ecosystem {
  eco_Name : string;
  eco_Resolve : string → option Target;
  eco_Classify : string → res Class_
}.

(** * Configuration, counters and state *)
Record Config := mk_Config {
  StaleIfError : bool;
  MaxObjectSize : Z;
  NegativeTTL404 : Z;
  NegativeTTL5xx : Z
}.
Record Counters := mk_Counters {
  Hits : Z; Misses : Z; StaleServed : Z; NegativeHits : Z;
  UpstreamErrors : Z; BytesFromUpstream : Z; Packages : Z
}.
Definition no_Counters : Counters := mk_Counters 0 0 0 0 0 0 0.
Definition add_Hits c := mk_Counters (Hits c + 1) (Misses c) (StaleServed c) (NegativeHits c) (UpstreamErrors c) (BytesFromUpstream c) (Packages c).
Definition add_Misses c := mk_Counters (Hits c) (Misses c + 1) (StaleServed c) (NegativeHits c) (UpstreamErrors c) (BytesFromUpstream c) (Packages c).
Definition add_StaleServed c := mk_Counters (Hits c) (Misses c) (StaleServed c + 1) (NegativeHits c) (UpstreamErrors c) (BytesFromUpstream c) (Packages c).
Definition add_NegativeHits c := mk_Counters (Hits c) (Misses c) (StaleServed c) (NegativeHits c + 1) (UpstreamErrors c) (BytesFromUpstream c) (Packages c).
Definition add_UpstreamErrors c := mk_Counters (Hits c) (Misses c) (StaleServed c) (NegativeHits c) (UpstreamErrors c + 1) (BytesFromUpstream c) (Packages c).
Definition add_BytesFromUpstream n c := mk_Counters (Hits c) (Misses c) (StaleServed c) (NegativeHits c) (UpstreamErrors c) (BytesFromUpstream c + n) (Packages c).
Definition add_Packages c := mk_Counters (Hits c) (Misses c) (StaleServed c) (NegativeHits c) (UpstreamErrors c) (BytesFromUpstream c) (Packages c + 1).

Record negative := mk_negative { ng_until : Z; ng_err : error }.
Definition negativeCap : Z := 10000.
Definition metaCap : Z := 10000.

Inductive Status := statusNone | statusHit | statusMiss | statusStale.
#[global] Instance Status_eq_dec : EqDecision Status.
Proof. solve_decision. Defined.
Definition status_text (s : Status) : string :=
  match s with statusNone => "" | statusHit => "HIT" | statusMiss => "MISS" | statusStale => "STALE" end.

Record PrefetchResult := mk_PrefetchResult {
  pr_Status : Status; pr_Bytes : Z; pr_Downloaded : Z
}.
Definition no_PrefetchResult : PrefetchResult := mk_PrefetchResult statusNone 0 0.

(** [strconv.FormatUint(n, 36)]. *)
Definition digit36 (d : N) : ascii :=
  if (d <? 10)%N then ascii_of_N (48 + d) else ascii_of_N (87 + d).
Fixpoint format36_go (fuel : nat) (n : N) (acc : string) : string :=
  match fuel with
  | O => acc
  | S fuel =>
      let acc := String (digit36 (n mod 36)) acc in
      if (n <? 36)%N then acc else format36_go fuel (n / 36) acc
  end.
Definition format36 (n : N) : string := format36_go (S (N.to_nat (N.log2 n))) n "".
Example format36_ex : format36 0 = "0" ∧ format36 35 = "z" ∧ format36 1295 = "zz" ∧ format36 1296 = "100".
Proof. vm_compute. done. Qed.

Definition undigit36 (c : ascii) : N :=
  if (N_of_ascii c <? 58)%N then N_of_ascii c - 48 else N_of_ascii c - 87.
Fixpoint val36 (a : N) (s : string) : N :=
  match s with EmptyString => a | String c s => val36 (a * 36 + undigit36 c) s end.
Lemma digit36_spec d :
  (d < 36)%N → undigit36 (digit36 d) = d ∧ is_digit (digit36 d) || is_lower (digit36 d) = true.
Proof.
  intros Hd. unfold undigit36, digit36, is_digit, is_lower, between.
  change (N_of_ascii "0") with 48%N. change (N_of_ascii "9") with 57%N.
  change (N_of_ascii "a") with 97%N. change (N_of_ascii "z") with 122%N.
  rewrite orb_true_iff, !andb_true_iff, !N.leb_le.
  destruct (N.ltb_spec d 10); rewrite !N_ascii_embedding by lia;
    match goal with |- context [N.ltb ?x ?y] => destruct (N.ltb_spec x y) end; lia.
Qed.
Lemma format36_go_spec fuel n acc :
  (n < 2 ^ N.of_nat fuel)%N →
  val36 0 (format36_go fuel n acc) = val36 n acc ∧
  (all_bytes (λ c, is_digit c || is_lower c) acc = true →
   all_bytes (λ c, is_digit c || is_lower c) (format36_go fuel n acc) = true).
Proof.
  revert n acc. induction fuel as [|fuel IH]; intros n acc Hn; simpl.
  { change (2 ^ N.of_nat 0)%N with 1%N in Hn. by replace n with 0%N by lia. }
  destruct (digit36_spec (n mod 36)) as [Hv Hd]; [by apply N.mod_lt|].
  destruct (N.ltb_spec n 36) as [Hlt|Hge].
  - rewrite N.mod_small in * by done. simpl. rewrite Hv, Hd. by rewrite N.add_0_l.
  - destruct (IH (n / 36)%N (String (digit36 (n mod 36)) acc)) as [-> Hall].
    { rewrite Nat2N.inj_succ, N.pow_succ_r' in Hn. apply N.Div0.div_lt_upper_bound. lia. }
    simpl in *. rewrite Hv. rewrite Hd in Hall. split; [|exact Hall].
    by rewrite N.mul_comm, <- N.div_mod'.
Qed.
Lemma format36_spec n :
  val36 0 (format36 n) = n ∧ all_bytes (λ c, is_digit c || is_lower c) (format36 n) = true.
Proof.
  unfold format36. destruct (format36_go_spec (S (N.to_nat (N.log2 n))) n "") as [Hv Ha].
  { rewrite Nat2N.inj_succ, N2Nat.id. destruct (decide (n = 0%N)) as [->|]; [done|].
    apply N.log2_spec. lia. }
  split; [done|by apply Ha].
Qed.
Lemma format36_inj n m : format36 n = format36 m → n = m.
Proof. intros E. by rewrite <- (proj1 (format36_spec n)), E, (proj1 (format36_spec m)). Qed.

(** [checksumHasher]: the algorithm of a streaming hash. *)
Inductive HashAlgo := SHA256 | SHA1 | MD5.
Definition checksumHasher (algo : string) : option HashAlgo :=
  let a := to_lower algo in
  if String.eqb a "sha256" || String.eqb a "sha-256" then Some SHA256
  else if String.eqb a "sha1" || String.eqb a "sha-1" then Some SHA1
  else if String.eqb a "md5" then Some MD5
  else None.

Module Cache.
Section engine.
  (** The ports: storage, index, HTTP client ([DoerFor(proxy).Do]) and clock;
      [H] is the state of the outside world that answers requests. *)
  Context {S I H : Type} `{Storage S} `{ObjectIndex I}.
  Context (http_Do : string → Request → St H (res Response)).
  Context (clock : nat → Z).
  (** The Go standard library: digests in hex, HTTP dates, [http.NewRequest]'s
      check of the URL, the text of an error, and the key at which a map
      iteration starts. *)
  Context (hash_hex : HashAlgo → string → string).
  Context (format_time : Z → string) (parseHTTPTime : string → option Z).
  Context (new_request_error : string → option error).
  Context (error_text : error → string).
  Context (any_key : ∀ {A}, gmap string A → option string).
  Arguments any_key {A} _.

Record Engine := mk_Engine {
  storage : S;
  index : I;
  http : H;
  ticks : nat; (* readings of the clock so far *)
  metrics : gmap string Counters;
  txns : txnLog;
  meta : gmap string ObjectMeta;
  negatives : gmap string negative;
  seq : N;
  deletes : list string (* keys of the pending background deletions *)
}.
  Context (cfg : Config) (nonce : N).

Definition set_storage v e := mk_Engine v (index e) (http e) (ticks e) (metrics e) (txns e) (meta e) (negatives e) (seq e) (deletes e).
Definition set_index v e := mk_Engine (storage e) v (http e) (ticks e) (metrics e) (txns e) (meta e) (negatives e) (seq e) (deletes e).
Definition set_http v e := mk_Engine (storage e) (index e) v (ticks e) (metrics e) (txns e) (meta e) (negatives e) (seq e) (deletes e).
Definition set_ticks v e := mk_Engine (storage e) (index e) (http e) v (metrics e) (txns e) (meta e) (negatives e) (seq e) (deletes e).
Definition set_metrics v e := mk_Engine (storage e) (index e) (http e) (ticks e) v (txns e) (meta e) (negatives e) (seq e) (deletes e).
Definition set_txns v e := mk_Engine (storage e) (index e) (http e) (ticks e) (metrics e) v (meta e) (negatives e) (seq e) (deletes e).
Definition set_meta v e := mk_Engine (storage e) (index e) (http e) (ticks e) (metrics e) (txns e) v (negatives e) (seq e) (deletes e).
Definition set_negatives v e := mk_Engine (storage e) (index e) (http e) (ticks e) (metrics e) (txns e) (meta e) v (seq e) (deletes e).
Definition set_seq v e := mk_Engine (storage e) (index e) (http e) (ticks e) (metrics e) (txns e) (meta e) (negatives e) v (deletes e).
Definition set_deletes v e := mk_Engine (storage e) (index e) (http e) (ticks e) (metrics e) (txns e) (meta e) (negatives e) (seq e) v.

(** [New]. *)
Definition New (st : S) (ix : I) (net : H) : Engine :=
  mk_Engine st ix net 0 ∅ new_txnLog ∅ ∅ 0 [].

Abbreviation M := (St Engine).
Definition on_storage {A} : St S A → M A := zoom storage set_storage.
Definition on_index {A} : St I A → M A := zoom index set_index.
Definition on_http {A} : St H A → M A := zoom http set_http.
Definition now : M Z := λ e, (clock (ticks e), set_ticks (Datatypes.S (ticks e)) e).

(** [e.metrics.ForEcosystem(m)] and an update of one of its counters. *)
Definition count (m : string) (f : Counters → Counters) : M unit :=
  st_mod (λ e, set_metrics (<[m := f (default no_Counters (metrics e !! m))]> (metrics e)) e).

(** ** In-memory tables *)

(** [for k := range m { delete(m, k); break }] once the table is full. *)
Definition make_room {A} (cap : Z) (m : gmap string A) : gmap string A :=
  if cap <=? Z.of_nat (size m)
  then match any_key m with Some k => delete k m | None => m end
  else m.

Definition rememberMeta (key : string) (om : ObjectMeta) : M unit :=
  st_mod (λ e, set_meta (<[key := om]> (make_room metaCap (meta e))) e).

Definition negativeError (m : string) (key : string) : M (option error) :=
  n ← st_gets (λ e, negatives e !! key);
  match n with
  | Some n =>
      t ← now;
      if t <? ng_until n
      then count m add_NegativeHits;; mret (Some (ng_err n))
      else mret None
  | None => mret None
  end.

Definition rememberNegative (key : string) (ttl : Z) (err : error) : M unit :=
  if ttl <=? 0 then mret tt
  else
    t ← now;
    st_mod (λ e, set_negatives
      (<[key := mk_negative (t + ttl) err]> (make_room negativeCap (negatives e))) e).

Definition forgetNegative (key : string) : M unit :=
  st_mod (λ e, set_negatives (delete key (negatives e)) e).

(** ** Versions and background deletions *)
Definition versioned (key : string) (n : N) : string :=
  key +:+ "-v" +:+ format36 nonce +:+ format36 n.
Definition versionedKey (key : string) : M string :=
  st_mod (λ e, set_seq (seq e + 1)%N e);;
  st_gets (λ e, versioned key (seq e)).

Definition deleteInBackground (old : ObjectMeta) : M unit :=
  st_mod (λ e, set_deletes (deletes e ++ [BytesKey old]) e).

(** A goroutine of [deleteInBackground] runs: the [i]-th pending deletion. *)
Definition deleteOnce (i : nat) : M unit :=
  k ← st_gets (λ e, deletes e !! i);
  match k with
  | Some k =>
      _ ← on_storage (Delete k);
      st_mod (λ e, set_deletes (take i (deletes e) ++ drop (Datatypes.S i) (deletes e)) e)
  | None => mret tt
  end.

(** ** Reading the cache *)
Definition with_meta (t : gmap string ObjectMeta) (key : string) (m : Meta) : Meta :=
  match t !! key with
  | Some om => mk_Meta (mt_Key m) (mt_Size m) (om_ETag om) (om_ContentType om) (om_LastModified om)
  | None => m
  end.

Definition cached (key : string) : M (res Object) :=
  r ← on_storage (Get key);
  match r with
  | Err e => mret (Err e)
  | Ok (m, body) =>
      t ← st_gets meta;
      mret (Ok (with_meta t key m, body))
  end.

Definition resolve (key : string) : M (res Meta) :=
  r ← on_storage (Stat key);
  match r with
  | Err e => mret (Err e)
  | Ok m => t ← st_gets meta; mret (Ok (with_meta t key m))
  end.

Definition resolveAt (om : ObjectMeta) : M (res Meta) :=
  r ← on_storage (Stat (BytesKey om));
  mret match r with
       | Err e => Err e
       | Ok m => Ok (mk_Meta (mt_Key m) (mt_Size m) (om_ETag om) (om_ContentType om) (om_LastModified om))
       end.

Definition open (key : string) : M (res string) :=
  r ← on_storage (Get key);
  mret match r with Err e => Err e | Ok (_, body) => Ok body end.

Definition openObject (m : Meta) : M (res Object) :=
  r ← open (mt_Key m);
  mret match r with Err e => Err e | Ok body => Ok (m, body) end.

Definition OpenBody : string → M (res string) := open.
Definition OpenRange (key : string) (start length : Z) : M (res string) :=
  on_storage (GetRange key start length).

(** ** Downloading *)

(** [unavailableWriter.Write]. *)
Definition unavailable_Write (w : Writer) (p : string) : M (res Writer) :=
  r ← on_storage (Write w p);
  mret match r with
       | Ok w => Ok w
       | Err e =>
           if has_type is_Unavailable e then Err e
           else Err (UnavailableError "хранилище" "сбой записи тела" (Some e))
       end.

(** [throttledWriter.Write] over [unavailableWriter]; the waiting belongs to
    the outside world. *)
Definition Throttle : Type := option (Z → St H (option error)).
Definition dst_Write (wait : Throttle) (w : Writer) (p : string) : M (res Writer) :=
  match wait with
  | None => unavailable_Write w p
  | Some wait =>
      r ← on_http (wait (len p));
      match r with
      | Some e => mret (Err e)
      | None => unavailable_Write w p
      end
  end.

(** [io.Copy]: what was written (and hashed) so far is [acc]. *)
Fixpoint io_Copy (wait : Throttle) (w : Writer) (acc : string) (chunks : list string)
    (err : option error) : M (res (Writer * string)) :=
  match chunks with
  | [] => mret match err with Some e => Err e | None => Ok (w, acc) end
  | c :: chunks =>
      r ← dst_Write wait w c;
      match r with
      | Err e => mret (Err e)
      | Ok w => io_Copy wait w (acc +:+ c) chunks err
      end
  end.

(** The checks of [copyBody] on the copied bytes. *)
Definition check_body (body : string) (length : Z) (sum : Checksum) (url : string) : option error :=
  let n := len body in
  if (0 <? MaxObjectSize cfg) && (MaxObjectSize cfg <? n)
  then Some (TooLargeError n (MaxObjectSize cfg))
  else if (0 <=? length) && negb (n =? length)
  then Some (UpstreamError url 0 (Some (Text
    ("content-length: получено " +:+ fmt_int n +:+ " байт, заявлено " +:+ fmt_int length))))
  else match checksumHasher (ck_Algo sum) with
       | Some h =>
           let got := hash_hex h body in
           if negb (equal_fold got (ck_Hex sum))
           then Some (UpstreamError url 0 (Some (checksumMismatch (ck_Algo sum) (ck_Hex sum) got)))
           else None
       | None => None
       end.

(** The body as [copyBody] reads it: the limit of [io.LimitReader] is an
    int64. *)
Definition limited_body (body : list string * option error) : list string * option error :=
  if 0 <? MaxObjectSize cfg
  then limit_reader (wrap64 (MaxObjectSize cfg + 1)) body.1 body.2
  else body.

Definition copyBody (w : Writer) (body : list string * option error) (m : string)
    (length : Z) (sum : Checksum) (url : string) (wait : Throttle) : M (res (Writer * Z)) :=
  let '(chunks, err) := limited_body body in
  r ← io_Copy wait w "" chunks err;
  match r with
  | Err e => mret (Err (if has_type is_Unavailable e then e else UpstreamError url 0 (Some e)))
  | Ok (w, bytes) =>
      match check_body bytes length sum url with
      | Some e => mret (Err e)
      | None => count m (add_BytesFromUpstream (len bytes));; mret (Ok (w, len bytes))
      end
  end.

(** [port.NewGETRequest]. *)
Definition NewGETRequest (url : string) (headers : gmap string string) : res Request :=
  match new_request_error url with
  | Some e => Err e
  | None => Ok (mk_Request url (headers ∪ <["Accept-Encoding" := "identity"]> ∅))
  end.

Definition conditional_headers (old : option ObjectMeta) : gmap string string :=
  match old with
  | None => ∅
  | Some old =>
      let h := if String.eqb (om_ETag old) "" then ∅ else <["If-None-Match" := om_ETag old]> ∅ in
      if is_zero_time (om_LastModified old) then h
      else <["If-Modified-Since" := format_time (om_LastModified old)]> h
  end.

(** [fetchOnce] on a 304 to a conditional request. *)
Definition not_modified (resp : Response) (class : Class_) (old : ObjectMeta) : M (res (ObjectMeta * bool)) :=
  t ← now;
  let etag := rs_Header resp "ETag" in
  let updated := mk_ObjectMeta (om_Key old) (om_StorageKey old) (om_Size old)
    (if String.eqb etag "" then om_ETag old else etag) (om_ContentType old)
    (default (om_LastModified old) (parseHTTPTime (rs_Header resp "Last-Modified")))
    (t + class_ttl class) in
  r ← on_index (PutObjectMeta updated);
  mret match r with Some e => Err e | None => Ok (updated, true) end.

(** [fetchOnce] after the commit: the index record or the in-memory one. *)
Definition after_commit (target : Target) (class : Class_) (m : string)
    (old : option ObjectMeta) (om : ObjectMeta) : M (res (ObjectMeta * bool)) :=
  match class_kind class with
  | KindMutable =>
      t ← now;
      let om := mk_ObjectMeta (om_Key om) (om_StorageKey om) (om_Size om) (om_ETag om)
        (om_ContentType om) (om_LastModified om) (t + class_ttl class) in
      r ← on_index (PutObjectMeta om);
      match r with
      | Some e => deleteInBackground om;; mret (Err e)
      | None =>
          match old with
          | Some old => deleteInBackground old;; mret (Ok (om, false))
          | None => mret (Ok (om, false))
          end
      end
  | KindImmutable =>
      count m add_Packages;;
      rememberMeta (tg_StorageKey target) om;;
      mret (Ok (om, false))
  end.

(** [fetchOnce] on a 2xx within the limit: the transactional write. *)
Definition store (resp : Response) (target : Target) (class : Class_) (m : string)
    (old : option ObjectMeta) (wait : Throttle) : M (res (ObjectMeta * bool)) :=
  writeKey ← match class_kind class with
             | KindMutable => versionedKey (tg_StorageKey target)
             | KindImmutable => mret (tg_StorageKey target)
             end;
  w ← on_storage (Put writeKey);
  match w with
  | Err e => mret (Err e)
  | Ok w =>
      r ← copyBody w (rs_Body resp) m (rs_ContentLength resp) (tg_Checksum target)
            (tg_UpstreamURL target) wait;
      match r with
      | Err e =>
          _ ← on_storage (Abort w);
          (if has_type is_checksumMismatch e
           then count m add_UpstreamErrors;;
                rememberNegative (tg_StorageKey target) (NegativeTTL5xx cfg) e
           else mret tt);;
          mret (Err e)
      | Ok (w, n) =>
          c ← on_storage (Commit w);
          match c with
          | Some e => _ ← on_storage (Abort w); mret (Err e)
          | None =>
              let lm := rs_Header resp "Last-Modified" in
              after_commit target class m old
                (mk_ObjectMeta (tg_StorageKey target) writeKey n (rs_Header resp "ETag")
                   (rs_Header resp "Content-Type")
                   (if String.eqb lm "" then 0 else default 0 (parseHTTPTime lm)) 0)
          end
      end
  end.

(** [fetchOnce] on any other status. *)
Definition fetchOnce_status (target : Target) (class : Class_) (m : string)
    (old : option ObjectMeta) (wait : Throttle) (resp : Response) : M (res (ObjectMeta * bool)) :=
  let url := tg_UpstreamURL target in
  let code := rs_StatusCode resp in
  if code =? 404 then
    let err := NotFoundError "upstream объект" (tg_UpstreamPath target) in
    count m add_UpstreamErrors;;
    rememberNegative (tg_StorageKey target) (NegativeTTL404 cfg) err;;
    mret (Err err)
  else if 500 <=? code then
    let err := UpstreamError url code None in
    count m add_UpstreamErrors;;
    rememberNegative (tg_StorageKey target) (NegativeTTL5xx cfg) err;;
    mret (Err err)
  else if (code <? 200) || (300 <=? code) then mret (Err (UpstreamError url code None))
  else if (0 <? MaxObjectSize cfg) && (MaxObjectSize cfg <? rs_ContentLength resp)
  then mret (Err (TooLargeError (rs_ContentLength resp) (MaxObjectSize cfg)))
  else store resp target class m old wait.

Definition fetchOnce (target : Target) (class : Class_) (m : string)
    (old : option ObjectMeta) (wait : Throttle) : M (res (ObjectMeta * bool)) :=
  let url := tg_UpstreamURL target in
  match NewGETRequest url (conditional_headers old) with
  | Err e => mret (Err (UpstreamError url 0 (Some e)))
  | Ok req =>
      resp ← on_http (http_Do (tg_ProxyURL target) req);
      match resp with
      | Err e => count m add_UpstreamErrors;; mret (Err (UpstreamError url 0 (Some e)))
      | Ok resp =>
          let code := rs_StatusCode resp in
          match old with
          | Some old' => if code =? 304 then not_modified resp class old' else
              fetchOnce_status target class m old wait resp
          | None => fetchOnce_status target class m old wait resp
          end
      end
  end.

(** ** Serving *)
Definition fetchImmutableMiss (target : Target) (class : Class_) (m : string) :
    M (Meta * Status * option error) :=
  count m add_Misses;;
  st ← on_storage (Stat (tg_StorageKey target));
  r ← match st with
      | Ok _ => mret None
      | Err _ =>
          r ← fetchOnce target class m None None;
          mret match r with Err e => Some e | Ok _ => None end
      end;
  match r with
  | Some e => mret (no_Meta, statusNone, Some e)
  | None =>
      r ← resolve (tg_StorageKey target);
      mret match r with
           | Err e => (no_Meta, statusNone, Some e)
           | Ok meta => (meta, statusMiss, None)
           end
  end.

Definition fetchImmutable (target : Target) (class : Class_) (m : string) :
    M (Object * Status * option error) :=
  neg ← negativeError m (tg_StorageKey target);
  match neg with
  | Some e => mret (no_Object, statusNone, Some e)
  | None =>
      r ← cached (tg_StorageKey target);
      match r with
      | Ok obj => count m add_Hits;; mret (obj, statusHit, None)
      | Err _ =>
          r ← fetchImmutableMiss target class m;
          match r with
          | (_, status, Some e) => mret (no_Object, status, Some e)
          | (meta, status, None) =>
              r ← openObject meta;
              mret match r with
                   | Err e => (no_Object, statusNone, Some e)
                   | Ok obj => (obj, status, None)
                   end
          end
      end
  end.

Definition fetchImmutableMeta (target : Target) (class : Class_) (m : string) :
    M (Meta * Status * option error) :=
  neg ← negativeError m (tg_StorageKey target);
  match neg with
  | Some e => mret (no_Meta, statusNone, Some e)
  | None =>
      r ← resolve (tg_StorageKey target);
      match r with
      | Ok meta => count m add_Hits;; mret (meta, statusHit, None)
      | Err _ => fetchImmutableMiss target class m
      end
  end.

(** [staleServeMeta]: the metadata of the expired copy and its [StaleError]. *)
Definition staleServeMeta (cause : error) (old : option ObjectMeta) (m : string) :
    M (option (Meta * error)) :=
  match old with
  | Some old =>
      if StaleIfError cfg && has_type is_Upstream cause then
        r ← resolveAt old;
        match r with
        | Err _ => mret None
        | Ok meta => count m add_StaleServed;; mret (Some (meta, StaleError (om_ETag old) ""))
        end
      else mret None
  | None => mret None
  end.

(** [revalidate], the body of a mutable object's flight. The first component
    is what it leaves in the caller's [old]; [Ok None] is [nil, nil]. *)
Definition revalidate (target : Target) (class : Class_) (old : option ObjectMeta)
    (m : string) (wait : Throttle) :
    M (option ObjectMeta * res (option (ObjectMeta * bool))) :=
  cur ← on_index (ObjectMeta_of (tg_StorageKey target));
  fresh ← match cur with
          | Ok c => t ← now; mret (negb (Expired c t))
          | Err _ => mret false
          end;
  if fresh : bool then mret (old, Ok None)
  else
    let old := match cur with Ok c => Some c | Err _ => None end in
    r ← fetchOnce target class m old wait;
    match r with
    | Err e => mret (old, Err e)
    | Ok x => forgetNegative (tg_StorageKey target);; mret (old, Ok (Some x))
    end.

Definition serveReloadedMeta (target : Target) (m : string) : M (Meta * Status * option error) :=
  cur ← on_index (ObjectMeta_of (tg_StorageKey target));
  match cur with
  | Err e => mret (no_Meta, statusNone, Some e)
  | Ok cur =>
      r ← resolveAt cur;
      match r with
      | Err e => mret (no_Meta, statusNone, Some e)
      | Ok meta => count m add_Hits;; mret (meta, statusHit, None)
      end
  end.

Definition fresh_now (indexed : res ObjectMeta) : M bool :=
  match indexed with
  | Ok om => t ← now; mret (negb (Expired om t))
  | Err _ => mret false
  end.
Definition to_option {A} (r : res A) : option A :=
  match r with Ok a => Some a | Err _ => None end.

(** [fetchMutableMeta] after the in-memory checks: the flight. *)
Definition fetchMutable_flight (target : Target) (class : Class_) (m : string)
    (old : option ObjectMeta) : M (Meta * Status * option error) :=
  count m add_Misses;;
  r ← revalidate target class old m None;
  match r with
  | (old, Err e) =>
      st ← staleServeMeta e old m;
      mret match st with
           | Some (meta, stale) => (meta, statusStale, Some stale)
           | None => (no_Meta, statusNone, Some e)
           end
  | (_, Ok None) => serveReloadedMeta target m
  | (_, Ok (Some (om, revalidated))) =>
      r ← resolveAt om;
      match r with
      | Err e => mret (no_Meta, statusNone, Some e)
      | Ok meta =>
          if revalidated : bool
          then count m add_Hits;; mret (meta, statusHit, None)
          else mret (meta, statusMiss, None)
      end
  end.

(** [fetchMutableMeta] when the index gave no fresh, readable version. *)
Definition fetchMutable_slow (target : Target) (class : Class_) (m : string)
    (indexed : res ObjectMeta) : M (Meta * Status * option error) :=
  neg ← negativeError m (tg_StorageKey target);
  match neg with
  | Some e =>
      st ← staleServeMeta e (to_option indexed) m;
      mret match st with
           | Some (meta, stale) => (meta, statusStale, Some stale)
           | None => (no_Meta, statusNone, Some e)
           end
  | None => fetchMutable_flight target class m (to_option indexed)
  end.

Definition fetchMutableMeta (target : Target) (class : Class_) (m : string) :
    M (Meta * Status * option error) :=
  indexed ← on_index (ObjectMeta_of (tg_StorageKey target));
  fresh ← fresh_now indexed;
  hit ← match indexed with
        | Ok om => if fresh : bool then resolveAt om else mret (Err (Text ""))
        | Err e => mret (Err e)
        end;
  match hit with
  | Ok meta => count m add_Hits;; mret (meta, statusHit, None)
  | Err _ => fetchMutable_slow target class m indexed
  end.

(** A STALE outcome returns both the body and the error. *)
Definition fetchMutable (target : Target) (class : Class_) (m : string) :
    M (Object * Status * option error) :=
  r ← fetchMutableMeta target class m;
  let '(meta, status, err) := r in
  if bool_decide (status = statusNone) then mret (no_Object, statusNone, err)
  else
    r ← openObject meta;
    mret match r with
         | Err e => (no_Object, statusNone, Some e)
         | Ok obj => (obj, status, err)
         end.

Definition errText (err : option error) : string :=
  match err with Some e => error_text e | None => "" end.
Definition recordTxn (ecoName path : string) (status : Status) (err : option error)
    (size : Z) : M unit :=
  t ← now;
  st_mod (λ e, set_txns
    (record (txns e) (mk_Txn t ecoName path (status_text status) size (errText err))) e).

Definition path_not_found (path : string) : error := NotFoundError "путь" path.

(** [Resolve], [Classify] and [Validate], which [fetch], [fetchMeta] and
    [PrefetchThrottled] share; the first component says whether the path
    resolved. *)
Definition route (eco : Ecosystem) (path : string) : option (res (Target * Class_)) :=
  match eco_Resolve eco path with
  | None => None
  | Some target => Some
      match eco_Classify eco (tg_UpstreamPath target) with
      | Err e => Err e
      | Ok class =>
          match Class_Validate class with
          | Some e => Err e
          | None => Ok (target, class)
          end
      end
  end.

Definition fetch (eco : Ecosystem) (path : string) : M (Object * Status * option error) :=
  match route eco path with
  | None => mret (no_Object, statusNone, Some (path_not_found path))
  | Some r =>
      out ← match r with
            | Err e => mret (no_Object, statusNone, Some e)
            | Ok (target, class) =>
                match class_kind class with
                | KindImmutable => fetchImmutable target class (eco_Name eco)
                | KindMutable => fetchMutable target class (eco_Name eco)
                end
            end;
      let '(obj, status, err) := out in
      recordTxn (eco_Name eco) path status err (mt_Size obj.1);;
      mret out
  end.

Definition fetchMeta (eco : Ecosystem) (path : string) : M (Meta * Status * option error) :=
  match route eco path with
  | None => mret (no_Meta, statusNone, Some (path_not_found path))
  | Some r =>
      out ← match r with
            | Err e => mret (no_Meta, statusNone, Some e)
            | Ok (target, class) =>
                match class_kind class with
                | KindImmutable => fetchImmutableMeta target class (eco_Name eco)
                | KindMutable => fetchMutableMeta target class (eco_Name eco)
                end
            end;
      let '(meta, status, err) := out in
      recordTxn (eco_Name eco) path status err (mt_Size meta);;
      mret out
  end.

(** ** Prefetching (the mirror) *)
Definition prefetchImmutable (target : Target) (class : Class_) (m : string) (wait : Throttle) :
    M (PrefetchResult * option error) :=
  let key := tg_StorageKey target in
  neg ← negativeError m key;
  match neg with
  | Some e => mret (no_PrefetchResult, Some e)
  | None =>
      st ← on_storage (Stat key);
      match st with
      | Ok meta => count m add_Hits;; mret (mk_PrefetchResult statusHit (mt_Size meta) 0, None)
      | Err _ =>
          count m add_Misses;;
          st ← on_storage (Stat key);
          r ← match st with
              | Ok _ => mret None
              | Err _ =>
                  r ← fetchOnce target class m None wait;
                  mret match r with Err e => Some e | Ok _ => None end
              end;
          match r with
          | Some e => mret (no_PrefetchResult, Some e)
          | None =>
              st ← on_storage (Stat key);
              mret match st with
                   | Err e => (no_PrefetchResult, Some e)
                   | Ok meta => (mk_PrefetchResult statusMiss (mt_Size meta) (mt_Size meta), None)
                   end
          end
      end
  end.

Definition prefetch_stale (st : option (Meta * error)) (old : option ObjectMeta) (e : error) :
    PrefetchResult * option error :=
  match st, old with
  | Some (_, stale), Some old => (mk_PrefetchResult statusStale (om_Size old) 0, Some stale)
  | _, _ => (no_PrefetchResult, Some e)
  end.

Definition prefetchMutable_flight (target : Target) (class : Class_) (m : string)
    (old : option ObjectMeta) (wait : Throttle) : M (PrefetchResult * option error) :=
  count m add_Misses;;
  r ← revalidate target class old m wait;
  match r with
  | (old, Err e) =>
      st ← staleServeMeta e old m;
      mret (prefetch_stale st old e)
  | (_, Ok None) =>
      cur ← on_index (ObjectMeta_of (tg_StorageKey target));
      match cur with
      | Err e => mret (no_PrefetchResult, Some e)
      | Ok cur =>
          st ← on_storage (Stat (BytesKey cur));
          match st with
          | Err e => mret (no_PrefetchResult, Some e)
          | Ok meta => count m add_Hits;; mret (mk_PrefetchResult statusHit (mt_Size meta) 0, None)
          end
      end
  | (_, Ok (Some (om, revalidated))) =>
      st ← on_storage (Stat (BytesKey om));
      match st with
      | Err e => mret (no_PrefetchResult, Some e)
      | Ok meta =>
          if revalidated : bool
          then count m add_Hits;; mret (mk_PrefetchResult statusHit (mt_Size meta) 0, None)
          else mret (mk_PrefetchResult statusMiss (mt_Size meta) (mt_Size meta), None)
      end
  end.

Definition prefetchMutable (target : Target) (class : Class_) (m : string) (wait : Throttle) :
    M (PrefetchResult * option error) :=
  indexed ← on_index (ObjectMeta_of (tg_StorageKey target));
  fresh ← fresh_now indexed;
  hit ← match indexed with
        | Ok om => if fresh : bool then on_storage (Stat (BytesKey om)) else mret (Err (Text ""))
        | Err e => mret (Err e)
        end;
  match hit with
  | Ok meta => count m add_Hits;; mret (mk_PrefetchResult statusHit (mt_Size meta) 0, None)
  | Err _ =>
      neg ← negativeError m (tg_StorageKey target);
      match neg with
      | Some e =>
          st ← staleServeMeta e (to_option indexed) m;
          mret (prefetch_stale st (to_option indexed) e)
      | None => prefetchMutable_flight target class m (to_option indexed) wait
      end
  end.

Definition PrefetchThrottled (eco : Ecosystem) (path : string) (wait : Throttle) :
    M (PrefetchResult * option error) :=
  match route eco path with
  | None => mret (no_PrefetchResult, Some (path_not_found path))
  | Some (Err e) => mret (no_PrefetchResult, Some e)
  | Some (Ok (target, class)) =>
      match class_kind class with
      | KindImmutable => prefetchImmutable target class (eco_Name eco) wait
      | KindMutable => prefetchMutable target class (eco_Name eco) wait
      end
  end.

(** * What the operations leave unchanged

    [core] is the part of the state on which the safety of the bytes depends:
    the committed bytes, the index, the pending deletions and the number of
    versions handed out, with the lost answers of the index. *)
  Context `{!StorageLaws S} `{!ObjectIndexLaws I} `{!IndexWatch I}.

Record Core := mk_Core {
  c_contents : gmap string string;
  c_index : gmap string ObjectMeta;
  c_deletes : list string;
  c_seq : N;
  c_lost : string → Prop
}.
Definition core (e : Engine) : Core :=
  mk_Core (contents (storage e)) (indexed (index e)) (deletes e) (seq e) (lost (index e)).

Lemma on_storage_core {A} (op : St S A) e :
  core (on_storage op e).2 =
  mk_Core (contents (op (storage e)).2) (indexed (index e)) (deletes e) (seq e) (lost (index e)).
Proof. unfold on_storage, zoom, core. by destruct (op (storage e)). Qed.
Lemma on_index_core {A} (op : St I A) e :
  core (on_index op e).2 =
  mk_Core (contents (storage e)) (indexed (op (index e)).2) (deletes e) (seq e) (lost (op (index e)).2).
Proof. unfold on_index, zoom, core. by destruct (op (index e)). Qed.
Lemma on_storage_val {A} (op : St S A) e : (on_storage op e).1 = (op (storage e)).1.
Proof. unfold on_storage, zoom. by destruct (op (storage e)). Qed.
Lemma on_index_val {A} (op : St I A) e : (on_index op e).1 = (op (index e)).1.
Proof. unfold on_index, zoom. by destruct (op (index e)). Qed.
Lemma on_http_val {A} (op : St H A) e : (on_http op e).1 = (op (http e)).1.
Proof. unfold on_http, zoom. by destruct (op (http e)). Qed.

Lemma keeps_on_storage {A} (op : St S A) : keeps contents op → keeps core (on_storage op).
Proof. intros Hk e. by rewrite on_storage_core, Hk. Qed.
Lemma keeps_on_index {A} (op : St I A) : keeps indexed op → keeps lost op → keeps core (on_index op).
Proof. intros Hk Hl e. by rewrite on_index_core, Hk, Hl. Qed.
Lemma keeps_on_http {A} (op : St H A) : keeps core (on_http op).
Proof. intros e. unfold on_http, zoom, core. by destruct (op (http e)). Qed.
Lemma keeps_now : keeps core now.
Proof. done. Qed.
Lemma keeps_count m f : keeps core (count m f).
Proof. done. Qed.
#[local] Hint Resolve keeps_on_storage keeps_on_index keeps_on_http keeps_now keeps_count : go.

Lemma keeps_rememberMeta k om : keeps core (rememberMeta k om).
Proof. done. Qed.
Lemma keeps_negativeError m k : keeps core (negativeError m k).
Proof. unfold negativeError. keeps_tac. Qed.
Lemma keeps_set_negatives f : keeps core (st_mod (λ e, set_negatives (f e) e)).
Proof. done. Qed.
#[local] Hint Resolve keeps_rememberMeta keeps_negativeError keeps_set_negatives : go.
Lemma keeps_rememberNegative k ttl e : keeps core (rememberNegative k ttl e).
Proof. unfold rememberNegative. keeps_tac. Qed.
Lemma keeps_forgetNegative k : keeps core (forgetNegative k).
Proof. done. Qed.
Lemma keeps_cached k : keeps core (cached k).
Proof. unfold cached. keeps_tac. Qed.
Lemma keeps_resolve k : keeps core (resolve k).
Proof. unfold resolve. keeps_tac. Qed.
Lemma keeps_resolveAt om : keeps core (resolveAt om).
Proof. unfold resolveAt. keeps_tac. Qed.
Lemma keeps_open k : keeps core (open k).
Proof. unfold open. keeps_tac. Qed.
#[local] Hint Resolve keeps_rememberNegative keeps_forgetNegative keeps_cached keeps_resolve
  keeps_resolveAt keeps_open : go.
Lemma keeps_openObject m : keeps core (openObject m).
Proof. unfold openObject. keeps_tac. Qed.
Lemma keeps_staleServeMeta e old m : keeps core (staleServeMeta e old m).
Proof. unfold staleServeMeta. keeps_tac. Qed.
Lemma keeps_serveReloadedMeta t m : keeps core (serveReloadedMeta t m).
Proof. unfold serveReloadedMeta. keeps_tac. Qed.
Lemma keeps_recordTxn n p st e sz : keeps core (recordTxn n p st e sz).
Proof. done. Qed.
Lemma keeps_fresh_now r : keeps core (fresh_now r).
Proof. unfold fresh_now. keeps_tac. Qed.
Lemma keeps_unavailable_Write w c : keeps core (unavailable_Write w c).
Proof. unfold unavailable_Write. keeps_tac. Qed.
#[local] Hint Resolve keeps_openObject keeps_staleServeMeta keeps_serveReloadedMeta
  keeps_recordTxn keeps_fresh_now keeps_unavailable_Write : go.
Lemma keeps_dst_Write wait w c : keeps core (dst_Write wait w c).
Proof. unfold dst_Write. keeps_tac. Qed.
#[local] Hint Resolve keeps_dst_Write : go.
Lemma keeps_io_Copy wait w acc cs err : keeps core (io_Copy wait w acc cs err).
Proof. revert w acc. induction cs; intros w acc; simpl; keeps_tac. Qed.
#[local] Hint Resolve keeps_io_Copy : go.
Lemma keeps_copyBody w b m l sum url wait : keeps core (copyBody w b m l sum url wait).
Proof. unfold copyBody. keeps_tac. Qed.
#[local] Hint Resolve keeps_copyBody : go.

(** * What is written is what the upstream sent *)
Lemma dst_Write_Ok wait w c :
  ∀ e w', (dst_Write wait w c e).1 = Ok w' →
  w_key w' = w_key w ∧ w_bytes w' = w_bytes w +:+ c.
Proof.
  assert (∀ e w', (unavailable_Write w c e).1 = Ok w' →
    w_key w' = w_key w ∧ w_bytes w' = w_bytes w +:+ c) as Hw.
  { intros e w'. unfold unavailable_Write, mbind, st_bind.
    destruct (on_storage (Write w c) e) as [r e'] eqn:Hr.
    destruct r; simpl; [|by case_match]. intros [= <-].
    apply (Write_Ok w c (storage e)). rewrite <- on_storage_val. by rewrite Hr. }
  intros e w'. unfold dst_Write. destruct wait as [wait|]; [|apply Hw].
  unfold mbind, st_bind. destruct (on_http (wait (len c)) e) as [[er|] e']; [done|]. apply Hw.
Qed.

Lemma io_Copy_Ok wait cs err : ∀ w acc e w' bytes,
  (io_Copy wait w acc cs err e).1 = Ok (w', bytes) →
  err = None ∧ bytes = acc +:+ String.concat "" cs ∧ w_key w' = w_key w ∧
  w_bytes w' = w_bytes w +:+ String.concat "" cs.
Proof.
  induction cs as [|c cs IH]; intros w acc e w' bytes; cbn [io_Copy].
  - destruct err; [done|]. intros [= <- <-]. simpl. by rewrite !app_nil_r.
  - unfold mbind, st_bind. pose proof (dst_Write_Ok wait w c e) as Hw.
    destruct (dst_Write wait w c e) as [[w1|] e']; [|done].
    destruct (Hw w1 eq_refl) as [Hk Hb]. intros (-> & -> & -> & ->)%IH.
    rewrite Hk, Hb, !concat_empty_cons, !app_assoc. done.
Qed.

(** What is read of the body of a response, and passes the checks of
    [copyBody]. *)
Definition receives (resp : Response) (target : Target) (body : string) : Prop :=
  (limited_body (rs_Body resp)).2 = None ∧ body = String.concat "" (limited_body (rs_Body resp)).1 ∧
  check_body body (rs_ContentLength resp) (tg_Checksum target) (tg_UpstreamURL target) = None.
(** The whole body of a response, which ends without an error and passes the
    checks. *)
Definition delivers (resp : Response) (target : Target) (body : string) : Prop :=
  (rs_Body resp).2 = None ∧ body = String.concat "" (rs_Body resp).1 ∧
  check_body body (rs_ContentLength resp) (tg_Checksum target) (tg_UpstreamURL target) = None.

Lemma copyBody_Ok w resp target m wait e w' n :
  (copyBody w (rs_Body resp) m (rs_ContentLength resp) (tg_Checksum target)
     (tg_UpstreamURL target) wait e).1 = Ok (w', n) →
  ∃ body, receives resp target body ∧ n = len body ∧
    w_key w' = w_key w ∧ w_bytes w' = w_bytes w +:+ body.
Proof.
  unfold copyBody, receives. destruct (limited_body (rs_Body resp)) as [cs err]. unfold mbind, st_bind.
  pose proof (io_Copy_Ok wait cs err w "" e) as Hcp.
  destruct (io_Copy wait w "" cs err e) as [[[w1 bytes]|er] e1]; [|done].
  destruct (Hcp w1 bytes eq_refl) as (-> & -> & Hk & Hb). change ("" +:+ ?x) with x.
  destruct (check_body _ _ _ _) eqn:Hck; [done|]. simpl. intros [= <- <-].
  by exists (String.concat "" cs).
Qed.
(** Within the limit the body is read to its end, if the limit plus one is an
    int64. *)
Lemma receives_delivers resp target body :
  MaxObjectSize cfg < max_int64 → receives resp target body → delivers resp target body.
Proof.
  intros Hsz (Hnone & -> & Hck). unfold delivers. unfold limited_body in *.
  destruct (Z.ltb_spec 0 (MaxObjectSize cfg)) as [Hmax|]; [|done].
  rewrite wrap64_small in * by (unfold in_int64, min_int64; lia).
  destruct (limit_reader _ _ _) as [cs err] eqn:Hlim. simpl in *. subst err.
  assert (len (String.concat "" cs) ≤ MaxObjectSize cfg).
  { unfold check_body in Hck. destruct (Z.ltb_spec 0 (MaxObjectSize cfg)); [|lia]. simpl in Hck.
    destruct (Z.ltb_spec (MaxObjectSize cfg) (len (String.concat "" cs))); [done|lia]. }
  destruct (limit_reader_all _ _ _ _ _ Hlim) as [-> <-]; [lia|done].
Qed.

(** * The outcomes of [fetchOnce] *)
Lemma wp_on_storage {A} (op : St S A) Q e :
  (∀ e', core e' = mk_Core (contents (op (storage e)).2) (indexed (index e)) (deletes e) (seq e) (lost (index e)) →
    Q (op (storage e)).1 e') →
  wp (on_storage op) Q e.
Proof.
  intros HQ. unfold wp. rewrite on_storage_val. apply HQ, on_storage_core.
Qed.
Lemma wp_on_index {A} (op : St I A) Q e :
  (∀ e', core e' = mk_Core (contents (storage e)) (indexed (op (index e)).2) (deletes e) (seq e) (lost (op (index e)).2) →
    Q (op (index e)).1 e') →
  wp (on_index op) Q e.
Proof.
  intros HQ. unfold wp. rewrite on_index_val. apply HQ, on_index_core.
Qed.

Definition old_key (old : option ObjectMeta) : list string :=
  match old with Some old => [BytesKey old] | None => [] end.
Definition write_key (target : Target) (class : Class_) (n : N) : string :=
  match class_kind class with
  | KindMutable => versioned (tg_StorageKey target) (n + 1)
  | KindImmutable => tg_StorageKey target
  end.
Definition next_seq (class : Class_) (n : N) : N :=
  match class_kind class with KindMutable => (n + 1)%N | KindImmutable => n end.
(** The record of a new version. *)
Definition new_version (target : Target) (class : Class_) (n : N) (body : string) (om : ObjectMeta) : Prop :=
  om_Key om = tg_StorageKey target ∧ om_StorageKey om = write_key target class n ∧
  om_Size om = len body.

(** What [fetchOnce] does to [core], given the bodies [ok] that the upstream
    delivers and whether it may answer 304 ([nm]). *)
Inductive outcome (ok : string → Prop) (nm : Prop) (target : Target) (class : Class_)
    (old : option ObjectMeta) (c : Core) : res (ObjectMeta * bool) → Core → Prop :=
| out_failed err n : c_seq c = n ∨ next_seq class (c_seq c) = n →
    outcome ok nm target class old c (Err err)
      (mk_Core (c_contents c) (c_index c) (c_deletes c) n (c_lost c))
| out_commit_failed err body : ok body →
    outcome ok nm target class old c (Err err)
      (mk_Core (<[write_key target class (c_seq c) := body]> (c_contents c))
         (c_index c) (c_deletes c) (next_seq class (c_seq c)) (c_lost c))
(* the index refused the revalidated record *)
| out_not_revalidated err l : nm → (∀ b, c_lost c b → l b) →
    outcome ok nm target class old c (Err err)
      (mk_Core (c_contents c) (c_index c) (c_deletes c) (c_seq c) l)
(* or took it; its answer may be an error all the same *)
| out_revalidated old' om r l : nm → old = Some old' → (∀ b, c_lost c b → l b) →
    om_Key om = om_Key old' → om_StorageKey om = om_StorageKey old' → om_Size om = om_Size old' →
    r = Ok (om, true) ∨ (∃ err, r = Err err) →
    outcome ok nm target class old c r
      (mk_Core (c_contents c) (<[om_Key om := stored om]> (c_index c)) (c_deletes c) (c_seq c) l)
| out_immutable body om : class_kind class = KindImmutable → ok body →
    new_version target class (c_seq c) body om →
    outcome ok nm target class old c (Ok (om, false))
      (mk_Core (<[tg_StorageKey target := body]> (c_contents c))
         (c_index c) (c_deletes c) (c_seq c) (c_lost c))
| out_unindexed body err l : class_kind class = KindMutable → ok body → (∀ b, c_lost c b → l b) →
    outcome ok nm target class old c (Err err)
      (mk_Core (<[write_key target class (c_seq c) := body]> (c_contents c)) (c_index c)
         (c_deletes c ++ [write_key target class (c_seq c)]) (c_seq c + 1) l)
(* the answer of the index was lost: the new version is indexed and doomed *)
| out_doomed body om err l : class_kind class = KindMutable → ok body → (∀ b, c_lost c b → l b) →
    new_version target class (c_seq c) body om →
    BytesKey <$> c_index c !! om_Key om = Some (BytesKey om) ∨ l (BytesKey om) →
    outcome ok nm target class old c (Err err)
      (mk_Core (<[write_key target class (c_seq c) := body]> (c_contents c))
         (<[om_Key om := stored om]> (c_index c))
         (c_deletes c ++ [write_key target class (c_seq c)]) (c_seq c + 1) l)
| out_mutable body om l : class_kind class = KindMutable → ok body → (∀ b, c_lost c b → l b) →
    new_version target class (c_seq c) body om →
    outcome ok nm target class old c (Ok (om, false))
      (mk_Core (<[write_key target class (c_seq c) := body]> (c_contents c))
         (<[om_Key om := stored om]> (c_index c)) (c_deletes c ++ old_key old) (c_seq c + 1) l).

Lemma versioned_not_empty k n : versioned k n ≠ "".
Proof. unfold versioned. destruct k; [|done]. simpl. done. Qed.

Lemma new_BytesKey target class n body om :
  new_version target class n body om → BytesKey om = write_key target class n.
Proof.
  intros (Hk & Hsk & _). unfold BytesKey. rewrite Hsk, Hk. unfold write_key.
  destruct (class_kind class).
  - by destruct (String.eqb (tg_StorageKey target) "").
  - destruct (String.eqb_spec (versioned (tg_StorageKey target) (n + 1)) "") as [E|]; [|done].
    by apply versioned_not_empty in E.
Qed.
(** A refused or lost write of a record. *)
Lemma put_error om i err : (PutObjectMeta om i).1 = Some err →
  (∀ b, lost i b → lost (PutObjectMeta om i).2 b) ∧
  (indexed (PutObjectMeta om i).2 = indexed i ∨
   indexed (PutObjectMeta om i).2 = <[om_Key om := stored om]> (indexed i) ∧
   (BytesKey <$> indexed i !! om_Key om = Some (BytesKey om) ∨ lost (PutObjectMeta om i).2 (BytesKey om))).
Proof.
  intros Hput. split; [intros b; apply PutObjectMeta_watch|].
  destruct (PutObjectMeta_Some om i) as [?|Hi]; [by left|].
  destruct (PutObjectMeta_lost _ _ _ Hput); [by left|by right].
Qed.
Lemma after_commit_outcome ok nm target class m old om body e c :
  ok body → new_version target class (c_seq c) body om →
  core e = mk_Core (<[write_key target class (c_seq c) := body]> (c_contents c))
             (c_index c) (c_deletes c) (next_seq class (c_seq c)) (c_lost c) →
  wp (after_commit target class m old om) (λ r e', outcome ok nm target class old c r (core e')) e.
Proof.
  intros Hok Hnew Hc. unfold after_commit, next_seq in *.
  destruct (class_kind class) eqn:Hkind.
  - apply wp_bind, (wp_keeps core); [apply keeps_count|]. intros ? e1 C1.
    apply wp_bind, (wp_keeps core); [apply keeps_rememberMeta|]. intros ? e2 C2.
    apply wp_ret. rewrite C2, C1, Hc. unfold write_key. rewrite Hkind.
    by apply out_immutable.
  - apply wp_bind, (wp_keeps core); [apply keeps_now|]. intros t e1 C1. rewrite Hc in C1.
    cbv zeta. apply wp_bind, wp_on_index. intros e2.
    match goal with |- context [PutObjectMeta ?o] => set (om' := o) end.
    assert (new_version target class (c_seq c) body om') as Hnew' by done.
    pose proof (new_BytesKey _ _ _ _ _ Hnew') as Hbk.
    unfold core at 1 in C1. injection C1 as -> Hix -> -> Hlost. intros C2.
    destruct (PutObjectMeta om' (index e1)).1 as [err|] eqn:Hput.
    + destruct (put_error _ _ _ Hput) as [Hl Hcase]. rewrite Hlost in Hl. rewrite Hix in Hcase.
      apply wp_bind, wp_mod, wp_ret. injection C2 as Hs Hi Hd Hn Hlo.
      unfold core. simpl. rewrite Hs, Hi, Hd, Hn, Hlo, Hbk.
      destruct Hcase as [->|[-> Hwatch]]; [by apply out_unindexed|by eapply out_doomed].
    + pose proof (PutObjectMeta_watch om' (index e1)) as Hl. rewrite Hlost in Hl.
      rewrite (PutObjectMeta_None _ _ Hput), Hix in C2.
      destruct old as [old|].
      * apply wp_bind, wp_mod, wp_ret. injection C2 as Hs Hi Hd Hn Hlo.
        unfold core. simpl. rewrite Hs, Hi, Hd, Hn, Hlo.
        by apply (out_mutable ok nm target class (Some old) c body om').
      * apply wp_ret. rewrite C2. rewrite <- (right_id_L [] (++) (c_deletes c)) at 1.
        by apply (out_mutable ok nm target class None c body om').
Qed.

Lemma versionedKey_wp target class e Q :
  (∀ e', core e' = mk_Core (contents (storage e)) (indexed (index e)) (deletes e)
                     (next_seq class (seq e)) (lost (index e)) →
     Q (write_key target class (seq e)) e') →
  wp (match class_kind class with
      | KindMutable => versionedKey (tg_StorageKey target)
      | KindImmutable => mret (tg_StorageKey target)
      end) Q e.
Proof.
  intros HQ. unfold write_key, next_seq in HQ.
  destruct (class_kind class); apply HQ; [by destruct e|done].
Qed.

Lemma store_outcome nm resp target class m old wait e :
  wp (store resp target class m old wait)
     (λ r e', outcome (receives resp target) nm target class old (core e) r (core e')) e.
Proof.
  unfold store. apply wp_bind, versionedKey_wp. intros e1 C1.
  set (wk := write_key target class (seq e)) in *.
  apply wp_bind, wp_on_storage. intros e2 C2. rewrite Put_keeps in C2.
  injection C1 as C1s C1i C1d C1n C1l. rewrite C1s, C1i, C1d, C1n, C1l in C2. clear C1s C1i C1d C1n C1l.
  destruct (Put wk (storage e1)).1 as [w|err] eqn:Hput; [|apply wp_ret; rewrite C2; apply out_failed; by right].
  apply Put_Ok in Hput as [Hwk Hwb].
  set (cp := copyBody _ _ _ _ _ _ _). pose proof (copyBody_Ok w resp target m wait e2) as Hok.
  fold cp in Hok. apply wp_bind. unfold wp at 1.
  assert (core (cp e2).2 = core e2) as C3 by apply keeps_copyBody.
  destruct (cp e2) as [[[w' n]|err] e3]; cbn [fst snd] in *.
  - destruct (Hok w' n eq_refl) as (body & Hdel & -> & Hk & Hb).
    rewrite Hwk in Hk. rewrite Hwb in Hb. change ("" +:+ body) with body in Hb.
    apply wp_bind, wp_on_storage. intros e4 C4.
    rewrite C2 in C3. injection C3 as C3s C3i C3d C3n C3l. rewrite C3i, C3d, C3n, C3l in C4.
    destruct (Commit w' (storage e3)).1 as [err|] eqn:Hcom.
    + apply wp_bind, (wp_keeps core); [apply keeps_on_storage, Abort_keeps|]. intros ? e5 C5.
      apply wp_ret. rewrite C5, C4.
      destruct (Commit_Some w' (storage e3)) as [->| ->]; rewrite C3s.
      * apply out_failed. by right.
      * rewrite Hk, Hb. by apply (out_commit_failed _ _ _ _ _ (core e)).
    + rewrite (Commit_None _ _ Hcom), C3s, Hk, Hb in C4.
      by apply after_commit_outcome with body.
  - apply wp_bind, (wp_keeps core); [apply keeps_on_storage, Abort_keeps|]. intros ? e4 C4.
    apply wp_bind, (wp_keeps core); [keeps_tac|]. intros ? e5 C5.
    apply wp_ret. rewrite C5, C4, C3, C2. apply out_failed. by right.
Qed.

(** A 2xx answer to the request of [fetchOnce] that passed its checks. *)
Definition served (net : H) (target : Target) (old : option ObjectMeta) (body : string) : Prop :=
  ∃ req resp, NewGETRequest (tg_UpstreamURL target) (conditional_headers old) = Ok req ∧
    (http_Do (tg_ProxyURL target) req net).1 = Ok resp ∧
    200 ≤ rs_StatusCode resp < 300 ∧ delivers resp target body.
(** The same of the part of the answer that is read. *)
Definition received (net : H) (target : Target) (old : option ObjectMeta) (body : string) : Prop :=
  ∃ req resp, NewGETRequest (tg_UpstreamURL target) (conditional_headers old) = Ok req ∧
    (http_Do (tg_ProxyURL target) req net).1 = Ok resp ∧
    200 ≤ rs_StatusCode resp < 300 ∧ receives resp target body.
Lemma received_served net target old body :
  MaxObjectSize cfg < max_int64 → received net target old body → served net target old body.
Proof.
  intros Hsz (req & resp & Hreq & Hdo & Hst & Hb). exists req, resp.
  pose proof (receives_delivers resp target body Hsz Hb). tauto.
Qed.

(** A 304 answer to the request of [fetchOnce]. *)
Definition unmodified (net : H) (target : Target) (old : option ObjectMeta) : Prop :=
  ∃ req resp, NewGETRequest (tg_UpstreamURL target) (conditional_headers old) = Ok req ∧
    (http_Do (tg_ProxyURL target) req net).1 = Ok resp ∧ rs_StatusCode resp = 304.

Lemma outcome_mono (ok ok' : string → Prop) (nm nm' : Prop) target class old c r c' :
  (∀ b, ok b → ok' b) → (nm → nm') →
  outcome ok nm target class old c r c' → outcome ok' nm' target class old c r c'.
Proof. intros Hi Hn []; econstructor; eauto. Qed.

Lemma not_modified_outcome ok (nm : Prop) resp target class old e :
  nm → wp (not_modified resp class old)
     (λ r e', outcome ok nm target class (Some old) (core e) r (core e')) e.
Proof.
  intros Hnm. unfold not_modified. apply wp_bind, (wp_keeps core); [apply keeps_now|]. intros t e1 C1.
  cbv zeta. match goal with |- context [PutObjectMeta ?o] => set (om := o) end.
  apply wp_bind, wp_on_index. intros e2 C2. apply wp_ret.
  injection C1 as C1s C1i C1d C1n C1l. rewrite C1s, C1d, C1n in C2. rewrite C2.
  destruct (PutObjectMeta om (index e1)).1 as [err|] eqn:Hput.
  - destruct (put_error _ _ _ Hput) as [Hl Hcase]. rewrite C1l in Hl. rewrite C1i in Hcase.
    destruct Hcase as [->|[-> _]]; [by apply (out_not_revalidated _ _ _ _ _ (core e))|].
    apply (out_revalidated _ _ _ _ _ (core e) old om); eauto.
  - rewrite (PutObjectMeta_None _ _ Hput), C1i.
    apply (out_revalidated _ _ _ _ _ (core e) old om); [done|done| |done..|by left].
    intros b. simpl. rewrite <- C1l. apply PutObjectMeta_watch.
Qed.

Lemma fetchOnce_status_outcome target class m old wait resp e :
  wp (fetchOnce_status target class m old wait resp)
     (λ r e', outcome (λ b, 200 ≤ rs_StatusCode resp < 300 ∧ receives resp target b) False
                target class old (core e) r (core e')) e.
Proof.
  assert (∀ err e', core e' = core e →
    outcome (λ b, 200 ≤ rs_StatusCode resp < 300 ∧ receives resp target b) False
      target class old (core e) (Err err) (core e')) as Hfail.
  { intros err e' ->. apply (out_failed _ _ _ _ _ (core e)). by left. }
  unfold fetchOnce_status. cbv zeta. destruct (rs_StatusCode resp =? 404).
  { apply wp_bind, (wp_keeps core); [apply keeps_count|]. intros ? e1 C1.
    apply wp_bind, (wp_keeps core); [apply keeps_rememberNegative|]. intros ? e2 C2.
    apply wp_ret, Hfail. congruence. }
  destruct (500 <=? rs_StatusCode resp).
  { apply wp_bind, (wp_keeps core); [apply keeps_count|]. intros ? e1 C1.
    apply wp_bind, (wp_keeps core); [apply keeps_rememberNegative|]. intros ? e2 C2.
    apply wp_ret, Hfail. congruence. }
  destruct (_ || _) eqn:Hcode; [by apply wp_ret, Hfail|].
  apply orb_false_iff in Hcode as [?%Z.ltb_ge ?%Z.leb_gt].
  destruct (_ && _); [by apply wp_ret, Hfail|].
  eapply wp_mono; [apply (store_outcome False)|]. intros r e'. apply outcome_mono; [|done].
  intros b Hb. split; [lia|done].
Qed.

Lemma fetchOnce_outcome target class m old wait e :
  wp (fetchOnce target class m old wait)
     (λ r e', outcome (received (http e) target old) (unmodified (http e) target old)
                target class old (core e) r (core e')) e.
Proof.
  unfold fetchOnce. destruct (NewGETRequest _ _) as [req|err] eqn:Hreq;
    [|apply wp_ret, (out_failed _ _ _ _ _ (core e)); by left].
  apply wp_bind. unfold wp at 1.
  pose proof (on_http_val (http_Do (tg_ProxyURL target) req) e) as Hval.
  assert (core (on_http (http_Do (tg_ProxyURL target) req) e).2 = core e) as C1 by apply keeps_on_http.
  destruct (on_http (http_Do (tg_ProxyURL target) req) e) as [[resp|err] e1]; cbn [fst snd] in *.
  - rewrite <- C1.
    assert (wp (fetchOnce_status target class m old wait resp)
      (λ r e', outcome (received (http e) target old) (unmodified (http e) target old)
                 target class old (core e1) r (core e')) e1) as Hst.
    { eapply wp_mono; [apply fetchOnce_status_outcome|]. intros r e'. apply outcome_mono; [|done].
      intros b [Hcode Hb]. exists req, resp. by rewrite Hreq. }
    destruct old as [old|]; [|done].
    destruct (Z.eqb_spec (rs_StatusCode resp) 304); [|done].
    apply not_modified_outcome. exists req, resp. by rewrite Hreq.
  - apply wp_bind, (wp_keeps core); [apply keeps_count|]. intros ? e2 C2.
    apply wp_ret. rewrite C2, C1. apply (out_failed _ _ _ _ _ (core e)). by left.
Qed.

(** * Live bytes are never deleted *)
Lemma versioned_inj k1 n1 k2 n2 : versioned k1 n1 = versioned k2 n2 → k1 = k2 ∧ n1 = n2.
Proof.
  unfold versioned. change ("-v" +:+ ?x) with (String "-" (String "v" x)). intros E.
  assert (∀ n, all_bytes (λ c, negb (Ascii.eqb c "-"))
    (String "v" (format36 nonce +:+ format36 n)) = true) as Hall.
  { intros n. simpl. rewrite all_bytes_app.
    apply andb_true_iff; split; (eapply all_bytes_impl; [apply is_alnum_not_dash|apply format36_spec]). }
  apply last_sep_inj in E as [-> [= E%app_inj_l]]; [|apply Hall..].
  split; [done|by apply format36_inj].
Qed.

(** The invariant of the index, the bytes and the pending deletions: the
    bytes of every indexed version are committed and not scheduled for
    deletion, unless the answer of the index was lost when it took the
    version; no two records share bytes, and no future version exists. *)
Definition alive (c : Core) (b : string) : Prop := is_Some (c_contents c !! b) ∧ (b ∉ c_deletes c).
Record safe (c : Core) : Prop := {
  safe_keys k om : c_index c !! k = Some om → om_Key om = k;
  safe_alive k om : c_index c !! k = Some om → alive c (BytesKey om) ∨ c_lost c (BytesKey om);
  safe_distinct k1 om1 k2 om2 : c_index c !! k1 = Some om1 → c_index c !! k2 = Some om2 →
    BytesKey om1 = BytesKey om2 → k1 = k2;
  safe_future key n : (c_seq c < n)%N → (versioned key n ∉ c_deletes c) ∧
    ∀ k om, c_index c !! k = Some om → BytesKey om ≠ versioned key n
}.

(** The index stays, what is alive stays so, or is counted as lost. *)
Lemma safe_shrink c c' :
  safe c → c_index c' = c_index c → (∀ b, c_lost c b → c_lost c' b) →
  (∀ k om, c_index c !! k = Some om → alive c (BytesKey om) → alive c' (BytesKey om)) →
  (c_seq c ≤ c_seq c')%N →
  (∀ key n, (c_seq c' < n)%N → versioned key n ∈ c_deletes c' → versioned key n ∈ c_deletes c) →
  safe c'.
Proof.
  intros [Hk Ha Hd Hf] Hi Hl Hal Hn Hdel. split; rewrite ?Hi; [done| |done|].
  - intros k om Hom. destruct (Ha k om Hom); [left; by eapply Hal|right; auto].
  - intros key m Hm. destruct (Hf key m) as [H1' H2']; [lia|]. split; [|done]. intros ?. by apply H1', Hdel.
Qed.
Lemma alive_write c wk body k n l : alive c k → alive (mk_Core (<[wk := body]> (c_contents c)) (c_index c) (c_deletes c) n l) k.
Proof. intros [Hk ?]. split; [|done]. apply lookup_insert_is_Some'. by right. Qed.
Lemma safe_write c wk body : safe c → safe (mk_Core (<[wk := body]> (c_contents c)) (c_index c) (c_deletes c) (c_seq c) (c_lost c)).
Proof. intros Hs. apply (safe_shrink c); try done. intros k om _. apply alive_write. Qed.
Lemma safe_seq c n l : safe c → (c_seq c ≤ n)%N → (∀ b, c_lost c b → l b) →
  safe (mk_Core (c_contents c) (c_index c) (c_deletes c) n l).
Proof. intros Hs Hn Hl. by apply (safe_shrink c). Qed.

(** The version numbered next may be scheduled or indexed. *)
Lemma safe_schedule_new c wk key body l :
  safe c → wk = versioned key (c_seq c + 1) → (∀ b, c_lost c b → l b) →
  safe (mk_Core (<[wk := body]> (c_contents c)) (c_index c) (c_deletes c ++ [wk]) (c_seq c + 1) l).
Proof.
  intros Hs -> Hl. apply (safe_shrink c); simpl; [done..| |lia|].
  - intros k om Hom [Hp Hnd]. split; simpl; [apply lookup_insert_is_Some'; by right|].
    rewrite elem_of_app, list_elem_of_singleton. intros [|E]; [done|].
    destruct (safe_future _ Hs key (c_seq c + 1)%N) as [_ Hne]; [lia|]. by eapply Hne.
  - intros key' m Hm. rewrite elem_of_app, list_elem_of_singleton. intros [?|[_ E]%versioned_inj]; [done|lia].
Qed.
(** Every key that a new record of the version replaces or schedules. *)
Lemma safe_index_new c om body dels l :
  safe c → BytesKey om = versioned (om_Key om) (c_seq c + 1) → (∀ b, c_lost c b → l b) →
  (∀ x, x ∈ dels → (x = BytesKey om ∧ l x) ∨ ∃ o, c_index c !! om_Key om = Some o ∧ x = BytesKey o) →
  safe (mk_Core (<[BytesKey om := body]> (c_contents c)) (<[om_Key om := stored om]> (c_index c))
          (c_deletes c ++ dels) (c_seq c + 1) l).
Proof.
  intros [Hk Ha Hd Hf] Hnew Hl Hdels.
  destruct (Hf (om_Key om) (c_seq c + 1)%N) as [Hnd Hne]; [lia|]. rewrite <- Hnew in Hnd, Hne.
  split; simpl.
  - intros k om' [[<- <-]|[_ Hom]]%lookup_insert_Some; [apply stored_Key|eauto].
  - intros k om' [[<- <-]|[Hkne Hom]]%lookup_insert_Some.
    + rewrite stored_BytesKey. destruct (decide (BytesKey om ∈ dels)) as [Hin|Hnin].
      { destruct (Hdels _ Hin) as [[_ ?]|(o & Ho & E)]; [by right|by destruct (Hne _ _ Ho)]. }
      left. split; simpl; [rewrite lookup_insert_eq; eauto|]. rewrite elem_of_app. tauto.
    + destruct (Ha k om' Hom) as [[Hp Hnd']|]; [|right; auto]. left. split; simpl.
      * apply lookup_insert_is_Some'. by right.
      * rewrite elem_of_app. intros [|[[E _]|(o & Ho & E)]%Hdels]; [done|by apply (Hne _ _ Hom)|].
        apply Hkne. by eapply Hd.
  - intros k1 om1 k2 om2 [[<- <-]|[? Hom1]]%lookup_insert_Some [[<- <-]|[? Hom2]]%lookup_insert_Some;
      rewrite ?stored_BytesKey; intros E;
      [done|by edestruct Hne|by edestruct Hne|by eapply Hd].
  - intros key' m Hm. destruct (Hf key' m) as [Hnd' Hne']; [lia|].
    assert (BytesKey om ≠ versioned key' m) as Hnm by (rewrite Hnew; intros [_ E]%versioned_inj; lia). split.
    + rewrite elem_of_app. intros [?|[[E _]|(o & Ho & E)]%Hdels]; [done|by rewrite E in Hnm|by eapply Hne'].
    + intros k om' [[<- <-]|[_ Hom]]%lookup_insert_Some; [by rewrite stored_BytesKey|eauto].
Qed.
Lemma safe_revalidated c old om l :
  safe c → c_index c !! om_Key old = Some old → om_Key om = om_Key old →
  om_StorageKey om = om_StorageKey old → (∀ b, c_lost c b → l b) →
  safe (mk_Core (c_contents c) (<[om_Key om := stored om]> (c_index c)) (c_deletes c) (c_seq c) l).
Proof.
  intros [Hk Ha Hd Hf] Hold Hkey Hsk Hl.
  assert (BytesKey (stored om) = BytesKey old) as Hb
    by (rewrite stored_BytesKey; unfold BytesKey; by rewrite Hsk, Hkey).
  assert (∀ k om', <[om_Key om := stored om]> (c_index c) !! k = Some om' →
    ∃ om0, c_index c !! k = Some om0 ∧ BytesKey om' = BytesKey om0) as Hsame.
  { intros k om' [[<- <-]|[_ Hom]]%lookup_insert_Some; [|by eauto].
    exists old. by rewrite Hkey. }
  split; simpl.
  - intros k om' [[<- <-]|[_ Hom]]%lookup_insert_Some; [apply stored_Key|eauto].
  - intros k om' (om0 & Hom0 & ->)%Hsame. destruct (Ha _ _ Hom0); [by left|right; auto].
  - intros k1 om1 k2 om2 (o1 & Ho1 & ->)%Hsame (o2 & Ho2 & ->)%Hsame. eauto.
  - intros key m Hm. destruct (Hf key m) as [? Hne]; [lia|]. split; [done|].
    intros k om' (om0 & Hom0 & ->)%Hsame. eauto.
Qed.

Lemma outcome_safe ok nm target class old c r c' :
  outcome ok nm target class old c r c' → safe c →
  (∀ o, old = Some o → c_index c !! tg_StorageKey target = Some o) → safe c'.
Proof.
  intros Ho Hs Hold. destruct Ho as [err n Hn|err body _|err l _ Hl|old' om r l _ -> Hl Hk Hsk _ _|
    body om Hc _ Hnew|body err l Hc _ Hl|body om err l Hc _ Hl Hnew Hw|body om l Hc _ Hl Hnew].
  - apply safe_seq; [done| |done]. unfold next_seq in Hn. destruct (class_kind class); lia.
  - apply (safe_seq (mk_Core _ _ _ (c_seq c) (c_lost c))); [by apply safe_write| |done].
    unfold next_seq. simpl. destruct (class_kind class); lia.
  - by apply safe_seq.
  - specialize (Hold old' eq_refl). pose proof (safe_keys _ Hs _ _ Hold) as Ek.
    apply (safe_revalidated c old'); [done| |done..]. by rewrite Ek.
  - by apply safe_write.
  - eapply safe_schedule_new; [done| |done]. unfold write_key. by rewrite Hc.
  - rewrite <- (new_BytesKey _ _ _ _ _ Hnew).
    assert (BytesKey om = versioned (om_Key om) (c_seq c + 1)) as Hb.
    { rewrite (new_BytesKey _ _ _ _ _ Hnew), (proj1 Hnew). unfold write_key. by rewrite Hc. }
    apply safe_index_new; [done..|]. intros x ->%list_elem_of_singleton. left. split; [done|].
    destruct Hw as [(o & Ho & E)%fmap_Some|]; [|done]. exfalso.
    destruct (safe_future _ Hs (om_Key om) (c_seq c + 1)%N) as [_ Hne]; [lia|]. apply (Hne _ _ Ho). congruence.
  - rewrite <- (new_BytesKey _ _ _ _ _ Hnew).
    apply safe_index_new; [done| |done|].
    + rewrite (new_BytesKey _ _ _ _ _ Hnew), (proj1 Hnew). unfold write_key. by rewrite Hc.
    + intros x Hx. right. destruct old as [o|]; [|by apply elem_of_nil in Hx].
      apply list_elem_of_singleton in Hx as ->. exists o. rewrite (proj1 Hnew). split; [by apply Hold|done].
Qed.

Definition preserves {A} (m : M A) : Prop := ∀ e, safe (core e) → safe (core (m e).2).

Lemma preserves_keeps {A} (m : M A) : keeps core m → preserves m.
Proof. intros Hk e. by rewrite Hk. Qed.
Lemma preserves_bind {A B} (m : M A) (k : A → M B) :
  preserves m → (∀ a, preserves (k a)) → preserves (m ≫= k).
Proof.
  intros Hm Hk e Hs. unfold mbind, st_bind. specialize (Hm e Hs).
  destruct (m e) as [a e']. by apply Hk.
Qed.
Lemma preserves_fetchOnce target class m wait : preserves (fetchOnce target class m None wait).
Proof.
  intros e Hs. pose proof (fetchOnce_outcome target class m None wait e) as Ho.
  unfold wp in Ho. by eapply outcome_safe.
Qed.

(** Along an operation: binds are split, the rest keeps [core] or is in the
    hint database. *)
Ltac preserves_tac :=
  repeat match goal with
  | |- preserves (_ ≫= _) => apply preserves_bind; [|intros]
  | |- preserves (match ?x with _ => _ end) => destruct x
  | |- preserves (if ?x then _ else _) => destruct x
  | |- preserves _ => first [by eauto with go | apply preserves_keeps; by keeps_tac]
  end.
#[local] Hint Resolve preserves_fetchOnce : go.

(** [revalidate] hands [fetchOnce] the record that it just read. *)
Lemma revalidate_keeps_or_fetches target class old m wait e :
  let '(r, e') := revalidate target class old m wait e in
  (core e' = core e ∧ r.2 = Ok None) ∨
  ∃ old' r', r.1 = old' ∧ (∀ o, old' = Some o → c_index (core e) !! tg_StorageKey target = Some o) ∧
    (∃ net, outcome (received net target old') (unmodified net target old')
               target class old' (core e) r' (core e')) ∧
    r.2 = match r' with Err er => Err er | Ok x => Ok (Some x) end.
Proof.
  unfold revalidate, mbind, st_bind.
  destruct (on_index (ObjectMeta_of (tg_StorageKey target)) e) as [cur e1] eqn:Ecur.
  assert (core e1 = core e) as C1.
  { pose proof (keeps_on_index (ObjectMeta_of (tg_StorageKey target)) (ObjectMeta_of_keeps _) (ObjectMeta_of_watch _) e) as C.
    by rewrite Ecur in C. }
  assert (∀ o, cur = Ok o → c_index (core e) !! tg_StorageKey target = Some o) as Hidx.
  { intros o ->. apply (ObjectMeta_of_Ok _ (index e)). rewrite <- on_index_val. by rewrite Ecur. }
  set (fr := match cur with Ok c => _ | Err _ => _ end).
  assert (core (fr e1).2 = core e) as C2 by (rewrite <- C1; unfold fr; by destruct cur).
  destruct (fr e1) as [[] e2]; [by left|]. simpl in C2.
  set (old' := match cur with Ok c => Some c | Err _ => None end).
  pose proof (fetchOnce_outcome target class m old' wait e2) as Ho. unfold wp in Ho.
  rewrite C2 in Ho.
  destruct (fetchOnce target class m old' wait e2) as [r' e3].
  assert (∀ o, old' = Some o → c_index (core e) !! tg_StorageKey target = Some o).
  { intros o. unfold old'. destruct cur; [intros [= ->]; by apply Hidx|done]. }
  destruct r' as [x|er]; right.
  - exists old', (Ok x). split_and!; [done|done|by eexists|done].
  - exists old', (Err er). split_and!; [done|done|by eexists|done].
Qed.
Lemma preserves_revalidate target class old m wait : preserves (revalidate target class old m wait).
Proof.
  intros e Hs. pose proof (revalidate_keeps_or_fetches target class old m wait e) as Hr.
  destruct (revalidate target class old m wait e) as [r e']. simpl.
  destruct Hr as [[-> _]|(old' & r' & _ & Hold & (net & Ho) & _)]; [done|]. by eapply outcome_safe.
Qed.
#[local] Hint Resolve preserves_revalidate : go.

Lemma preserves_fetch eco path : preserves (fetch eco path).
Proof.
  unfold fetch, fetchImmutable, fetchMutable, fetchImmutableMiss, fetchMutableMeta,
    fetchMutable_slow, fetchMutable_flight. preserves_tac.
Qed.
Lemma preserves_fetchMeta eco path : preserves (fetchMeta eco path).
Proof.
  unfold fetchMeta, fetchImmutableMeta, fetchImmutableMiss, fetchMutableMeta,
    fetchMutable_slow, fetchMutable_flight. preserves_tac.
Qed.
Lemma preserves_prefetch eco path wait : preserves (PrefetchThrottled eco path wait).
Proof.
  unfold PrefetchThrottled, prefetchImmutable, prefetchMutable, prefetchMutable_flight.
  preserves_tac.
Qed.
Lemma preserves_deleteOnce i : preserves (deleteOnce i).
Proof.
  intros e Hs. unfold deleteOnce. unfold mbind, st_bind. simpl.
  destruct (deletes e !! i) as [k|] eqn:Hk; [|done].
  pose proof (on_storage_core (Delete k) e) as C1.
  destruct (on_storage (Delete k) e) as [r e1]. simpl in *. unfold core at 1.
  injection C1 as C1s C1i C1d C1n C1l. simpl. rewrite C1i, C1d, C1n, C1l.
  assert (∀ x, x ∈ take i (deletes e) ++ drop (Datatypes.S i) (deletes e) → x ∈ deletes e) as Hsub.
  { intros x Hx. rewrite <- (take_drop_middle _ _ _ Hk), elem_of_app, elem_of_cons.
    apply elem_of_app in Hx. tauto. }
  apply (safe_shrink (core e)); simpl; [done..| |done|by auto].
  intros x om _ [Hp Hnd]. split; simpl in *; [|auto]. rewrite C1s.
  destruct (Delete_Some k (storage e)) as [->| ->]; [done|].
  rewrite lookup_delete_ne; [done|]. intros ->. apply Hnd. by eapply list_elem_of_lookup_2.
Qed.

(** ** Runs of the engine *)
Inductive step (e : Engine) : Engine → Prop :=
| step_fetch eco path : step e (fetch eco path e).2
| step_fetchMeta eco path : step e (fetchMeta eco path e).2
| step_prefetch eco path wait : step e (PrefetchThrottled eco path wait e).2
| step_delete i : step e (deleteOnce i e).2.

(** An index with which the process may start: every record is stored under
    its key, its bytes exist and are its own, and no version carries the
    nonce of this process. *)
Record well_indexed (st : S) (ix : I) : Prop := {
  wi_keys k om : indexed ix !! k = Some om → om_Key om = k;
  wi_present k om : indexed ix !! k = Some om → is_Some (contents st !! BytesKey om);
  wi_distinct k1 om1 k2 om2 : indexed ix !! k1 = Some om1 → indexed ix !! k2 = Some om2 →
    BytesKey om1 = BytesKey om2 → k1 = k2;
  wi_nonce k om key n : indexed ix !! k = Some om → BytesKey om ≠ versioned key n
}.

Lemma steps_safe st ix net e :
  well_indexed st ix → rtc step (New st ix net) e → safe (core e).
Proof.
  intros [Hk Hp Hd Hn] Hrun.
  assert (safe (core (New st ix net))) as H0'.
  { split; simpl; [done| |done|].
    - intros k om Hom. left. split; simpl; [by eapply Hp|apply not_elem_of_nil].
    - intros key n _. split; [by intros ?%elem_of_nil|]. intros k om Hom. by eapply Hn. }
  revert Hrun H0'. generalize (New st ix net). intros e0 Hrun. induction Hrun as [|e1 e2 e3 Hst _ IH]; [done|].
  intros Hs. apply IH. destruct Hst; by (apply preserves_fetch || apply preserves_fetchMeta ||
    apply preserves_prefetch || apply preserves_deleteOnce).
Qed.

Lemma live_or_lost st ix net e :
  well_indexed st ix → rtc step (New st ix net) e →
  ∀ k om, indexed (index e) !! k = Some om →
    om_Key om = k ∧
    (is_Some (contents (storage e) !! BytesKey om) ∧ (BytesKey om ∉ deletes e) ∨ lost (index e) (BytesKey om)).
Proof.
  intros Hwi Hrun k om Hom. pose proof (steps_safe st ix net e Hwi Hrun) as Hs.
  split; [by eapply (safe_keys _ Hs)|by eapply (safe_alive _ Hs)].
Qed.

(** [fetchOnce] touches the bytes of one key only, the one of the version
    that it writes, and what it leaves there is unchanged or exactly the body
    of a 2xx answer to its request that passed every check (size limit,
    Content-Length, checksum); when it reports a new version, these bytes are
    committed under the version's key with the recorded size; a 304 leaves
    all bytes and keeps the version's key. The size limit has to be less than
    the greatest int64. *)
Theorem fetchOnce_integrity target class m old wait e r e' :
  MaxObjectSize cfg < max_int64 →
  fetchOnce target class m old wait e = (r, e') →
  let wk := write_key target class (seq e) in
  (∀ k, k ≠ wk → contents (storage e') !! k = contents (storage e) !! k) ∧
  (contents (storage e') !! wk = contents (storage e) !! wk ∨
   ∃ body, served (http e) target old body ∧ contents (storage e') !! wk = Some body) ∧
  (∀ om, r = Ok (om, false) →
    ∃ body, served (http e) target old body ∧ contents (storage e') !! BytesKey om = Some body ∧
      om_Size om = len body ∧ BytesKey om = wk) ∧
  (∀ om, r = Ok (om, true) →
    unmodified (http e) target old ∧ contents (storage e') = contents (storage e) ∧
    ∃ o, old = Some o ∧ BytesKey om = BytesKey o ∧
      indexed (index e') = <[om_Key om := stored om]> (indexed (index e))).
Proof.
  intros Hsz Hf wk. pose proof (fetchOnce_outcome target class m old wait e) as Ho.
  unfold wp in Ho. rewrite Hf in Ho. simpl in Ho.
  apply (outcome_mono _ (served (http e) target old) _ _ _ _ _ _ _ _ (λ b, received_served _ _ _ b Hsz) (λ x, x)) in Ho.
  change (contents (storage e')) with (c_contents (core e')).
  change (indexed (index e')) with (c_index (core e')).
  destruct Ho as [|err body Hok|err l Hnm|o om r l Hnm -> _ Hk Hsk _ Hr|body om Hc Hok Hnew|body err l Hc Hok _|
    body om err l Hc Hok _ Hnew|body om l Hc Hok _ Hnew]; cbn [c_contents c_index core] in *.
  - split_and!; [done|by left|done..].
  - split_and!; [|right; exists body; by rewrite lookup_insert_eq|done..].
    intros k Hne. by rewrite lookup_insert_ne.
  - split_and!; [done|by left|done..].
  - split_and!; [done|by left|by intros ? ->; destruct Hr as [|[]]|]. intros om' ->.
    destruct Hr as [[= ->]|[? [=]]]. split_and!; [done..|].
    exists o. unfold BytesKey. by rewrite Hsk, Hk.
  - assert (tg_StorageKey target = wk) as ->.
    { unfold wk, write_key. by rewrite Hc. }
    split_and!; [intros k Hne; by rewrite lookup_insert_ne| | |by intros ? [=]].
    + right. exists body. by rewrite lookup_insert_eq.
    + intros ? [= <-]. exists body. rewrite (new_BytesKey _ _ _ _ _ Hnew), lookup_insert_eq.
      by destruct Hnew as (_ & _ & ?).
  - split_and!; [intros k Hne; by rewrite lookup_insert_ne| |done..].
    right. exists body. by rewrite lookup_insert_eq.
  - split_and!; [intros k Hne; by rewrite lookup_insert_ne| |done..].
    right. exists body. by rewrite lookup_insert_eq.
  - split_and!; [intros k Hne; by rewrite lookup_insert_ne| | |by intros ? [=]].
    + right. exists body. by rewrite lookup_insert_eq.
    + intros ? [= <-]. exists body. rewrite (new_BytesKey _ _ _ _ _ Hnew), lookup_insert_eq.
      by destruct Hnew as (_ & _ & ?).
Qed.

(** C3: an answer whose body fails a check (longer than the limit, not of the
    declared length, not of the expected digest) or breaks off is never
    committed: nothing changes in the storage, the index and the deletion
    queue, and the result is an error. The configured limit has to be less
    than the greatest int64, for which [copyBody] reads nothing
    ([Demo.greatest_limit_commits_nothing_read]). *)
Theorem bad_body_never_commits target class m old wait e req resp r e' :
  MaxObjectSize cfg < max_int64 →
  NewGETRequest (tg_UpstreamURL target) (conditional_headers old) = Ok req →
  (http_Do (tg_ProxyURL target) req (http e)).1 = Ok resp →
  200 ≤ rs_StatusCode resp < 300 →
  (rs_Body resp).2 ≠ None ∨
  check_body (String.concat "" (rs_Body resp).1) (rs_ContentLength resp) (tg_Checksum target)
    (tg_UpstreamURL target) ≠ None →
  fetchOnce target class m old wait e = (r, e') →
  is_ok r = false ∧ contents (storage e') = contents (storage e) ∧
  indexed (index e') = indexed (index e) ∧ deletes e' = deletes e.
Proof.
  intros Hsz Hreq Hdo Hcode Hbad Hf. pose proof (fetchOnce_outcome target class m old wait e) as Ho.
  unfold wp in Ho. rewrite Hf in Ho. simpl in Ho.
  apply (outcome_mono _ (served (http e) target old) _ _ _ _ _ _ _ _ (λ b, received_served _ _ _ b Hsz) (λ x, x)) in Ho.
  assert (∀ b, ¬ served (http e) target old b) as Hno.
  { intros b (req' & resp' & Hreq' & Hdo' & _ & Hnone & -> & Hck).
    rewrite Hreq in Hreq'. injection Hreq' as <-. rewrite Hdo in Hdo'. injection Hdo' as <-.
    by destruct Hbad. }
  assert (¬ unmodified (http e) target old) as Hnm.
  { intros (req' & resp' & Hreq' & Hdo' & Hst). rewrite Hreq in Hreq'. injection Hreq' as <-.
    rewrite Hdo in Hdo'. injection Hdo' as <-. lia. }
  change (contents (storage e')) with (c_contents (core e')).
  change (indexed (index e')) with (c_index (core e')).
  change (deletes e') with (c_deletes (core e')).
  destruct Ho as [|? body Hok|? ? Hm|? om ? ? Hm|body om _ Hok|body ? ? _ Hok|body om ? ? _ Hok|body om ? _ Hok];
    [done|by destruct (Hno body)|done|done|by destruct (Hno body)..].
Qed.

(** ** Serving *)
Lemma resolve_Ok k e om : (resolve k e).1 = Ok om →
  ∃ b, contents (storage e) !! k = Some b ∧ mt_Key om = k ∧ mt_Size om = len b.
Proof.
  unfold resolve, mbind, st_bind. destruct (on_storage (Stat k) e) as [r e1] eqn:Er.
  destruct r as [mt|]; [|done]. simpl. intros [= <-].
  destruct (Stat_Ok k (storage e) mt) as (b & Hb & Hk & Hsz).
  { rewrite <- on_storage_val. by rewrite Er. }
  exists b. unfold with_meta. by destruct (meta e1 !! k).
Qed.
Lemma open_Ok k e body : (open k e).1 = Ok body → contents (storage e) !! k = Some body.
Proof.
  unfold open, mbind, st_bind. destruct (on_storage (Get k) e) as [[[mt b]|] e1] eqn:Er; [|done].
  simpl. intros [= <-]. eapply Get_Ok. rewrite <- on_storage_val. by rewrite Er.
Qed.
Lemma cached_Ok k e om body : (cached k e).1 = Ok (om, body) →
  contents (storage e) !! k = Some body ∧ mt_Key om = k ∧ mt_Size om = len body.
Proof.
  unfold cached, mbind, st_bind. destruct (on_storage (Get k) e) as [[[mt b]|] e1] eqn:Er; [|done].
  simpl. intros [= <- <-]. destruct (Get_Ok k (storage e) mt b) as (Hb & Hk & Hsz).
  { rewrite <- on_storage_val. by rewrite Er. }
  unfold with_meta. by destruct (meta e1 !! k).
Qed.

Lemma bind_inv {A B} (op : M A) (k : A → M B) e b e' :
  (op ≫= k) e = (b, e') → ∃ a e1, op e = (a, e1) ∧ k a e1 = (b, e').
Proof. unfold mbind, st_bind. destruct (op e) as [a e1]. eauto. Qed.
Lemma keeps_run {A T} (f : Engine → T) (op : M A) e a e' : keeps f op → op e = (a, e') → f e' = f e.
Proof. intros Hk E. specialize (Hk e). by rewrite E in Hk. Qed.

(** The outside world is asked by [fetchOnce] only. *)
Lemma http_on_storage {A} (op : St S A) : keeps http (on_storage op).
Proof. intros e. unfold on_storage, zoom. by destruct (op (storage e)). Qed.
Lemma http_on_index {A} (op : St I A) : keeps http (on_index op).
Proof. intros e. unfold on_index, zoom. by destruct (op (index e)). Qed.
Lemma http_now : keeps http now.
Proof. done. Qed.
Lemma http_count m f : keeps http (count m f).
Proof. done. Qed.
#[local] Hint Resolve http_on_storage http_on_index http_now http_count : go.
Lemma http_negativeError m k : keeps http (negativeError m k).
Proof. unfold negativeError. keeps_tac. Qed.
Lemma http_cached k : keeps http (cached k).
Proof. unfold cached. keeps_tac. Qed.
Lemma http_resolveAt om : keeps http (resolveAt om).
Proof. unfold resolveAt. keeps_tac. Qed.
Lemma http_fresh_now r : keeps http (fresh_now r).
Proof. unfold fresh_now. keeps_tac. Qed.
#[local] Hint Resolve http_negativeError http_cached http_resolveAt http_fresh_now : go.

Lemma negativeError_miss m k e e1 :
  negativeError m k e = (None, e1) → http e1 = http e ∧ core e1 = core e.
Proof. intros E. split; eapply keeps_run; try exact E; [apply http_negativeError|apply keeps_negativeError]. Qed.

Lemma fetchImmutableMiss_Ok target class m e mt st e' :
  MaxObjectSize cfg < max_int64 → class_kind class = KindImmutable →
  fetchImmutableMiss target class m e = ((mt, st, None), e') →
  st = statusMiss ∧ mt_Key mt = tg_StorageKey target ∧
  ∃ b, contents (storage e') !! tg_StorageKey target = Some b ∧ mt_Size mt = len b ∧
    (contents (storage e') = contents (storage e) ∨ served (http e) target None b).
Proof.
  intros Hmax Hkind. unfold fetchImmutableMiss.
  intros (? & e1 & E1 & (rs & e2 & E2 & (r & e3 & E3 & E)%bind_inv)%bind_inv)%bind_inv.
  pose proof (keeps_run core _ _ _ _ (keeps_count _ _) E1) as C1.
  pose proof (keeps_run http _ _ _ _ (http_count _ _) E1) as H1'.
  pose proof (keeps_run core _ _ _ _ (keeps_on_storage _ (Stat_keeps _)) E2) as C2.
  pose proof (keeps_run http _ _ _ _ (http_on_storage _) E2) as H2'.
  destruct r as [er|]; [done|]. apply bind_inv in E as (rr & e4 & E4 & E).
  destruct rr as [mt'|]; [|done]. injection E as -> <- <-.
  pose proof (keeps_run core _ _ _ _ (keeps_resolve _) E4) as C4.
  destruct (resolve_Ok (tg_StorageKey target) e3 mt) as (b & Hb & Hk & Hsz); [by rewrite E4|].
  change (contents (storage e4)) with (c_contents (core e4)).
  change (contents (storage e3)) with (c_contents (core e3)) in Hb. rewrite C4.
  split_and!; [done|done|]. exists b. split_and!; [done..|].
  destruct rs as [?|?].
  - injection E3 as <-. left. by rewrite C2, C1.
  - apply bind_inv in E3 as (r & e3' & E3 & E3').
    destruct r as [[om rev]|]; [|done]. injection E3' as <-.
    pose proof (fetchOnce_outcome target class m None None e2) as Ho. unfold wp in Ho.
    rewrite E3 in Ho. cbn [fst snd] in Ho. rewrite H2', H1', C2, C1 in Ho.
    inversion Ho as [| | |o ? ? ? _ [=]|body om' _ Hok Hnew Hom Hc'| | |? ? ? Hc _ _]; [|by rewrite Hkind in Hc].
    apply (received_served _ _ _ _ Hmax) in Hok. right. simpl in Hb. rewrite <- Hc', lookup_insert_eq in Hb. by injection Hb as <-.
Qed.

(** An immutable object that is served is byte for byte what is committed
    under its key, with the right size; a HIT asks nobody and writes nothing,
    and a MISS serves either bytes that another request committed or a 2xx
    answer of the upstream that passed all checks. *)
Theorem fetchImmutable_serves_committed target class m e obj st e' :
  MaxObjectSize cfg < max_int64 → class_kind class = KindImmutable →
  fetchImmutable target class m e = ((obj, st, None), e') →
  contents (storage e') !! tg_StorageKey target = Some obj.2 ∧ mt_Size obj.1 = len obj.2 ∧
  ((st = statusHit ∧ http e' = http e ∧ contents (storage e') = contents (storage e)) ∨
   (st = statusMiss ∧ (contents (storage e') = contents (storage e) ∨
                       served (http e) target None obj.2))).
Proof.
  intros Hmax Hkind. unfold fetchImmutable.
  intros (neg & e1 & E1 & E)%bind_inv. destruct neg as [|]; [done|].
  destruct (negativeError_miss _ _ _ _ E1) as [H1' C1].
  apply bind_inv in E as (rc & e2 & E2 & E).
  pose proof (keeps_run core _ _ _ _ (keeps_cached _) E2) as C2.
  pose proof (keeps_run http _ _ _ _ (http_cached _) E2) as H2'.
  destruct rc as [[mt body]|?].
  - apply bind_inv in E as (? & e3 & E3 & [= <- <- <-]).
    pose proof (keeps_run core _ _ _ _ (keeps_count _ _) E3) as C3.
    pose proof (keeps_run http _ _ _ _ (http_count _ _) E3) as H3'.
    destruct (cached_Ok (tg_StorageKey target) e1 mt body) as (Hb & _ & Hsz); [by rewrite E2|].
    change (contents (storage e1)) with (c_contents (core e1)) in Hb.
    change (contents (storage e3)) with (c_contents (core e3)). rewrite C3, C2, C1 in *.
    split_and!; [done..|]. left. split_and!; [done|congruence|done].
  - apply bind_inv in E as ([[mt st'] [er|]] & e3 & E3 & E); [by simplify_eq/=|].
    destruct (fetchImmutableMiss_Ok _ _ _ _ _ _ _ Hmax Hkind E3) as (-> & Hk & b & Hb & Hsz & Hor).
    apply bind_inv in E as (ro & e4 & E4 & E). destruct ro as [obj'|]; [|done]. injection E as -> <- <-.
    pose proof (keeps_run core _ _ _ _ (keeps_openObject _) E4) as C4.
    unfold openObject in E4. apply bind_inv in E4 as (ro & e5 & E5 & E4).
    destruct ro as [body|]; [|done]. injection E4 as <- <-.
    pose proof (open_Ok (mt_Key mt) e3 body) as Hop. rewrite E5 in Hop.
    specialize (Hop eq_refl). rewrite Hk, Hb in Hop. injection Hop as ->.
    change (contents (storage e5)) with (c_contents (core e5)).
    change (contents (storage e3)) with (c_contents (core e3)) in Hb, Hor.
    change (contents (storage e2)) with (c_contents (core e2)) in Hor.
    change (contents (storage e)) with (c_contents (core e)).
    rewrite C4. rewrite C2, C1, H2', H1' in Hor. split_and!; [done..|]. by right.
Qed.

Lemma resolveAt_Ok om e mt : (resolveAt om e).1 = Ok mt →
  ∃ b, contents (storage e) !! BytesKey om = Some b ∧ mt_Key mt = BytesKey om ∧
    mt_Size mt = len b ∧ mt_ETag mt = om_ETag om.
Proof.
  unfold resolveAt, mbind, st_bind. destruct (on_storage (Stat (BytesKey om)) e) as [r e1] eqn:Er.
  destruct r as [mt'|]; [|done]. simpl. intros [= <-].
  destruct (Stat_Ok (BytesKey om) (storage e) mt') as (b & Hb & Hk & Hsz); [|by exists b].
  rewrite <- on_storage_val. by rewrite Er.
Qed.

(** What a stale answer is: the bytes of the version [old], and only when the
    cause is an upstream failure and the option is on. *)
Definition stale_of (old : option ObjectMeta) (mt : Meta) (stale : error) (e : Engine) : Prop :=
  ∃ om b, old = Some om ∧ stale = StaleError (om_ETag om) "" ∧
    contents (storage e) !! BytesKey om = Some b ∧ mt_Key mt = BytesKey om ∧ mt_Size mt = len b.

Lemma staleServeMeta_Some cause old m e mt stale e' :
  staleServeMeta cause old m e = (Some (mt, stale), e') →
  StaleIfError cfg = true ∧ has_type is_Upstream cause = true ∧ stale_of old mt stale e'.
Proof.
  intros E. pose proof (keeps_run core _ _ _ _ (keeps_staleServeMeta cause old m) E) as C.
  unfold staleServeMeta in E. destruct old as [om|]; [|done].
  destruct (StaleIfError cfg && has_type is_Upstream cause) eqn:Hc; [|done].
  apply andb_true_iff in Hc as [? ?]. split_and!; [done..|].
  apply bind_inv in E as (r & e1 & E1 & E). destruct r as [mt'|]; [|done].
  apply bind_inv in E as (? & e2 & E2 & E). injection E as -> <- ->.
  destruct (resolveAt_Ok om e mt) as (b & Hb & Hk & Hsz & _); [by rewrite E1|].
  exists om, b. split_and!; try done.
  change (contents (storage e')) with (c_contents (core e')). by rewrite C.
Qed.

Lemma fetchMutable_flight_stale target class m old e mt err e' :
  fetchMutable_flight target class m old e = ((mt, statusStale, err), e') →
  StaleIfError cfg = true ∧ ∃ om stale, indexed (index e) !! tg_StorageKey target = Some om ∧
    err = Some stale ∧ stale_of (Some om) mt stale e'.
Proof.
  unfold fetchMutable_flight. intros (? & e1 & E1 & E)%bind_inv.
  pose proof (keeps_run core _ _ _ _ (keeps_count _ _) E1) as C1.
  apply bind_inv in E as ([o r] & e2 & E2 & E).
  pose proof (revalidate_keeps_or_fetches target class old m None e1) as Hr. rewrite E2 in Hr.
  destruct r as [[[om rev]|]|er].
  - apply bind_inv in E as (r & e3 & E3 & E). destruct r; [|done].
    destruct rev; [|done]. apply bind_inv in E as (? & e4 & E4 & E). done.
  - unfold serveReloadedMeta in E. apply bind_inv in E as (r & e3 & E3 & E). destruct r; [|done].
    apply bind_inv in E as (r & e4 & E4 & E). destruct r; [|done].
    apply bind_inv in E as (? & e5 & E5 & E). done.
  - destruct Hr as [[_ [=]]|(old' & r' & Ho & Hidx & _ & _)]. simpl in Ho. subst o.
    apply bind_inv in E as (st & e3 & E3 & E). destruct st as [[mt' stale]|]; [|done].
    injection E as -> <- <-. apply staleServeMeta_Some in E3 as (? & _ & Hst).
    split; [done|]. destruct Hst as (om & b & -> & Hrest). exists om, stale.
    split_and!; [|done|by exists om, b].
    specialize (Hidx om eq_refl). by rewrite C1 in Hidx.
Qed.

(** A mutable object is served STALE only when stale-if-error is on; what
    is served then are the committed bytes of the version that the index
    holds for the key, and the answer carries the [StaleError] with its
    ETag. *)
Theorem stale_is_the_indexed_version target class m e mt err e' :
  fetchMutableMeta target class m e = ((mt, statusStale, err), e') →
  StaleIfError cfg = true ∧ ∃ om stale, indexed (index e) !! tg_StorageKey target = Some om ∧
    err = Some stale ∧ stale_of (Some om) mt stale e'.
Proof.
  unfold fetchMutableMeta. intros (r & e1 & E1 & E)%bind_inv.
  pose proof (keeps_run core _ _ _ _ (keeps_on_index _ (ObjectMeta_of_keeps _) (ObjectMeta_of_watch _)) E1) as C1.
  assert (∀ om, r = Ok om → indexed (index e) !! tg_StorageKey target = Some om) as Hidx.
  { intros om ->. apply (ObjectMeta_of_Ok _ (index e)). rewrite <- on_index_val. by rewrite E1. }
  apply bind_inv in E as (fr & e2 & E2 & E).
  pose proof (keeps_run core _ _ _ _ (keeps_fresh_now _) E2) as C2.
  apply bind_inv in E as (hit & e3 & E3 & E).
  assert (core e3 = core e2) as C3.
  { destruct r; [destruct fr|]; [|by injection E3 as _ <-..].
    by apply (keeps_run core _ _ _ _ (keeps_resolveAt _) E3). }
  destruct hit as [?|?]; [by apply bind_inv in E as (? & e4 & E4 & E)|].
  unfold fetchMutable_slow in E. apply bind_inv in E as (neg & e4 & E4 & E).
  pose proof (keeps_run core _ _ _ _ (keeps_negativeError _ _) E4) as C4.
  destruct neg as [ne|].
  - apply bind_inv in E as (st & e5 & E5 & E). destruct st as [[mt' stale]|]; [|done].
    injection E as -> <- <-. apply staleServeMeta_Some in E5 as (? & _ & Hst).
    split; [done|]. destruct Hst as (om & b & Hom & Hrest). exists om, stale.
    destruct r as [om'|]; [|done]. injection Hom as ->.
    split_and!; [by apply Hidx|done|by exists om, b].
  - apply fetchMutable_flight_stale in E as (? & om & stale & Hom & Hrest).
    split; [done|]. exists om, stale. split; [|done].
    change (indexed (index e)) with (c_index (core e)).
    change (indexed (index e4)) with (c_index (core e4)) in Hom. congruence.
Qed.

(** An upstream that only answers 404. *)
Definition only_404 : Prop := ∀ proxy req net,
  ∃ resp, (http_Do proxy req net).1 = Ok resp ∧ rs_StatusCode resp = 404.

Lemma fetchOnce_404 target class m old wait e :
  only_404 → new_request_error (tg_UpstreamURL target) = None →
  (fetchOnce target class m old wait e).1 =
    Err (NotFoundError "upstream объект" (tg_UpstreamPath target)).
Proof.
  intros H404 Hurl. unfold fetchOnce, NewGETRequest. rewrite Hurl.
  unfold mbind at 1, st_bind at 1.
  match goal with |- context [on_http ?op e] => set (o := op); destruct (on_http o e) as [r e1] eqn:Er end.
  destruct (H404 (tg_ProxyURL target)
    (mk_Request (tg_UpstreamURL target) (conditional_headers old ∪ <["Accept-Encoding" := "identity"]> ∅))
    (http e)) as (resp & Hdo & Hst).
  pose proof (on_http_val o e) as Hv. rewrite Er in Hv. simpl in Hv. unfold o in Hv.
  rewrite Hdo in Hv. subst r.
  assert ((fetchOnce_status target class m old wait resp e1).1 =
    Err (NotFoundError "upstream объект" (tg_UpstreamPath target))) as Hfs.
  { unfold fetchOnce_status. rewrite Hst. change (404 =? 404) with true. unfold mbind, st_bind.
    simpl. by destruct (rememberNegative _ _ _ _). }
  destruct old; [|done]. rewrite Hst. by change (404 =? 304) with false.
Qed.

(** An authoritative 404 is never masked by a stale copy: when the upstream
    answers 404 and no upstream failure is remembered for the key, a mutable
    object is not served STALE, whatever the index holds. *)
Theorem upstream_404_not_masked target class m e mt st err e' :
  only_404 → new_request_error (tg_UpstreamURL target) = None →
  (∀ n, negatives e !! tg_StorageKey target = Some n → has_type is_Upstream (ng_err n) = false) →
  fetchMutableMeta target class m e = ((mt, st, err), e') → st ≠ statusStale.
Proof.
  intros H404 Hurl Hneg. unfold fetchMutableMeta. intros (r & e1 & E1 & E)%bind_inv ->.
  apply bind_inv in E as (fr & e2 & E2 & E). apply bind_inv in E as (hit & e3 & E3 & E).
  destruct hit as [?|?]; [by apply bind_inv in E as (? & e4 & E4 & E)|].
  assert (negatives e3 = negatives e) as N3.
  { transitivity (negatives e2).
    - destruct r; [destruct fr|]; [|by injection E3 as _ <-..].
      eapply (keeps_run negatives); [|exact E3]. unfold resolveAt. keeps_tac.
      intros ex. unfold on_storage, zoom. by destruct (Stat _ _).
    - transitivity (negatives e1).
      + eapply (keeps_run negatives); [|exact E2]. unfold fresh_now. destruct r; [|done].
        by apply keeps_bind.
      + eapply (keeps_run negatives); [|exact E1]. intros ex. unfold on_index, zoom. by destruct (ObjectMeta_of _ _). }
  unfold fetchMutable_slow in E. apply bind_inv in E as (neg & e4 & E4 & E).
  destruct neg as [ne|].
  - apply bind_inv in E as (sv & e5 & E5 & E). destruct sv as [[mt' stale]|]; [|done].
    apply staleServeMeta_Some in E5 as (_ & Hup & _).
    unfold negativeError in E4. unfold mbind, st_bind, st_gets in E4. simpl in E4. rewrite N3 in E4.
    destruct (negatives e !! tg_StorageKey target) as [n|] eqn:En; [|done]. simpl in E4.
    destruct (_ <? _); [|done]. injection E4 as <- _. by rewrite (Hneg n) in Hup.
  - unfold fetchMutable_flight in E. apply bind_inv in E as (? & e5 & E5 & E).
    apply bind_inv in E as ([o rr] & e6 & E6 & E). destruct rr as [[[om rev]|]|er].
    + apply bind_inv in E as (rr & e7 & E7 & E). destruct rr; [|done].
      destruct rev; [|done]. by apply bind_inv in E as (? & e8 & E8 & E).
    + unfold serveReloadedMeta in E. apply bind_inv in E as (rr & e7 & E7 & E). destruct rr; [|done].
      apply bind_inv in E as (rr & e8 & E8 & E). destruct rr; [|done].
      by apply bind_inv in E as (? & e9 & E9 & E).
    + unfold revalidate in E6. apply bind_inv in E6 as (cur & e7 & E7 & E6).
      apply bind_inv in E6 as (f & e8 & E8 & E6). destruct f; [done|].
      apply bind_inv in E6 as (fo & e9 & E9 & E6).
      match type of E9 with fetchOnce _ _ _ ?oo _ _ = _ =>
        pose proof (fetchOnce_404 target class m oo None e8 H404 Hurl) as Hfo end.
      rewrite E9 in Hfo. simpl in Hfo. subst fo. injection E6 as <- <- <-.
      apply bind_inv in E as (sv & e10 & E10 & E). destruct sv as [[mt' stale]|]; [|done].
      by apply staleServeMeta_Some in E10 as (_ & Hup & _).
Qed.

(** ** The negative cache *)
Definition negative_answer (target : Target) (resp : Response) : option (error * Z) :=
  let code := rs_StatusCode resp in
  if code =? 404
  then Some (NotFoundError "upstream объект" (tg_UpstreamPath target), NegativeTTL404 cfg)
  else if 500 <=? code
  then Some (UpstreamError (tg_UpstreamURL target) code None, NegativeTTL5xx cfg)
  else None.

Lemma negativeError_active m k n e :
  negatives e !! k = Some n → clock (ticks e) < ng_until n →
  (negativeError m k e).1 = Some (ng_err n).
Proof.
  intros Hn Ht. unfold negativeError, mbind, st_bind. simpl. rewrite Hn. simpl.
  by rewrite (proj2 (Z.ltb_lt _ _) Ht).
Qed.

Lemma fetchOnce_remembers target class m old wait e req resp err ttl :
  NewGETRequest (tg_UpstreamURL target) (conditional_headers old) = Ok req →
  (http_Do (tg_ProxyURL target) req (http e)).1 = Ok resp →
  negative_answer target resp = Some (err, ttl) → 0 < ttl →
  let '(r, e1) := fetchOnce target class m old wait e in
  r = Err err ∧ negatives e1 !! tg_StorageKey target =
    Some (mk_negative (clock (pred (ticks e1)) + ttl) err).
Proof.
  intros Hreq Hdo Hneg Httl. unfold fetchOnce. rewrite Hreq.
  unfold mbind at 1, st_bind at 1.
  pose proof (on_http_val (http_Do (tg_ProxyURL target) req) e) as Hv.
  destruct (on_http _ e) as [r e1]. simpl in Hv. rewrite Hdo in Hv. subst r.
  assert (let '(r, e2) := fetchOnce_status target class m old wait resp e1 in
    r = Err err ∧ negatives e2 !! tg_StorageKey target =
      Some (mk_negative (clock (pred (ticks e2)) + ttl) err)) as Hfs.
  { unfold negative_answer in Hneg. unfold fetchOnce_status.
    destruct (Z.eqb_spec (rs_StatusCode resp) 404).
    - injection Hneg as <- <-. unfold mbind, st_bind, rememberNegative. simpl.
      destruct (Z.leb_spec (NegativeTTL404 cfg) 0); [lia|]. simpl. by rewrite lookup_insert_eq.
    - destruct (Z.leb_spec 500 (rs_StatusCode resp)); [|done].
      injection Hneg as <- <-. unfold mbind, st_bind, rememberNegative. simpl.
      destruct (Z.leb_spec (NegativeTTL5xx cfg) 0); [lia|]. simpl. by rewrite lookup_insert_eq. }
  destruct old; [|done]. destruct (Z.eqb_spec (rs_StatusCode resp) 304) as [E|]; [|done].
  unfold negative_answer in Hneg. rewrite E in Hneg. done.
Qed.

Lemma http_staleServeMeta err old m : keeps http (staleServeMeta err old m).
Proof. unfold staleServeMeta. keeps_tac. Qed.

(** An active entry keeps a mutable object's request away from the upstream. *)
Lemma fetchMutableMeta_spares target class m n e2 :
  negatives e2 !! tg_StorageKey target = Some n →
  (∀ i, (ticks e2 ≤ i ≤ Datatypes.S (ticks e2))%nat → clock i < ng_until n) →
  http (fetchMutableMeta target class m e2).2 = http e2.
Proof.
  intros Hsame Hclock.
  unfold fetchMutableMeta, mbind, st_bind.
  destruct (on_index _ e2) as [ix e4] eqn:E4.
  assert (http e4 = http e2 ∧ negatives e4 = negatives e2 ∧ ticks e4 = ticks e2) as (H4 & N4 & T4).
  { revert E4. unfold on_index, zoom. destruct (ObjectMeta_of _ _). by intros [= _ <-]. }
  destruct (fresh_now ix e4) as [fr e5] eqn:E5.
  assert (http e5 = http e2 ∧ negatives e5 = negatives e2 ∧
    (ticks e2 ≤ ticks e5 ≤ Datatypes.S (ticks e2))%nat) as (H5 & N5 & T5).
  { revert E5. destruct ix; intros [= _ <-]; simpl; rewrite ?H4, ?N4, ?T4; split_and!; auto with lia. }
  set (hit := match ix with Ok om => _ | Err _ => _ end).
  destruct (hit e5) as [h e6] eqn:E6.
  assert (http e6 = http e2 ∧ negatives e6 = negatives e2 ∧ ticks e6 = ticks e5) as (H6 & N6 & T6).
  { revert E6. unfold hit. destruct ix as [om|]; [|by intros [= _ <-]].
    destruct fr; [|by intros [= _ <-]]. unfold resolveAt, mbind, st_bind, on_storage, zoom.
    destruct (Stat _ _). by intros [= _ <-]. }
  destruct h; [by simpl|]. unfold fetchMutable_slow, mbind, st_bind.
  pose proof (negativeError_active m (tg_StorageKey target) n e6) as Hact6.
  rewrite N6 in Hact6. specialize (Hact6 Hsame). rewrite T6 in Hact6.
  specialize (Hact6 (Hclock _ T5)). pose proof (http_negativeError m (tg_StorageKey target) e6) as Hh6.
  destruct (negativeError m (tg_StorageKey target) e6) as [ne e7]. simpl in Hact6, Hh6. subst ne.
  pose proof (http_staleServeMeta (ng_err n) (to_option ix) m e7) as Hst.
  destruct (staleServeMeta _ _ _ e7) as [st e8]. simpl in Hst. destruct st as [[]|]; simpl; congruence.
Qed.
(** After a 404 or 5xx answer is remembered with a positive TTL, requests
    for the object are answered from the negative cache until the TTL has
    passed: no request goes to the upstream, and an immutable object's
    request and prefetch return exactly the remembered error. *)
Theorem negative_cache_spares_upstream target class m old wait e req resp err ttl r e1 e2 :
  NewGETRequest (tg_UpstreamURL target) (conditional_headers old) = Ok req →
  (http_Do (tg_ProxyURL target) req (http e)).1 = Ok resp →
  negative_answer target resp = Some (err, ttl) → 0 < ttl →
  fetchOnce target class m old wait e = (r, e1) →
  negatives e2 !! tg_StorageKey target = negatives e1 !! tg_StorageKey target →
  (∀ n, (ticks e2 ≤ n ≤ Datatypes.S (ticks e2))%nat → clock n < clock (pred (ticks e1)) + ttl) →
  r = Err err ∧
  (fetchImmutable target class m e2).1 = (no_Object, statusNone, Some err) ∧
  (prefetchImmutable target class m wait e2).1 = (no_PrefetchResult, Some err) ∧
  http (fetchImmutable target class m e2).2 = http e2 ∧
  http (fetchMutableMeta target class m e2).2 = http e2.
Proof.
  intros Hreq Hdo Hneg Httl Hf Hsame Hclock.
  pose proof (fetchOnce_remembers target class m old wait e req resp err ttl Hreq Hdo Hneg Httl) as Hr.
  rewrite Hf in Hr. destruct Hr as [-> Hent]. rewrite Hent in Hsame.
  pose proof (λ m', negativeError_active m' _ _ e2 Hsame (Hclock (ticks e2) ltac:(lia))) as Hact.
  pose proof (λ m', http_negativeError m' (tg_StorageKey target) e2) as Hhttp.
  split; [done|]. unfold fetchImmutable, prefetchImmutable, mbind, st_bind.
  specialize (Hact m). specialize (Hhttp m).
  destruct (negativeError m (tg_StorageKey target) e2) as [ne e3] eqn:En. simpl in Hact, Hhttp.
  subst ne. split_and!; [done..|]. by apply (fetchMutableMeta_spares _ _ _ _ _ Hsame Hclock).
Qed.

(** ** Bounded tables *)
Definition tables (e : Engine) : gmap string ObjectMeta * gmap string negative :=
  (meta e, negatives e).
Definition bounded (e : Engine) : Prop :=
  Z.of_nat (size (meta e)) ≤ metaCap ∧ Z.of_nat (size (negatives e)) ≤ negativeCap.
Definition bounds {A} (m : M A) : Prop := ∀ e, bounded e → bounded (m e).2.

  (** Iterating over a non-empty map starts at one of its keys. *)
Definition any_key_ok : Prop := ∀ A (m : gmap string A), m ≠ ∅ →
  ∃ k, any_key m = Some k ∧ is_Some (m !! k).

Lemma make_room_size {A} cap (m : gmap string A) :
  any_key_ok → 0 < cap → Z.of_nat (size m) ≤ cap → Z.of_nat (size (make_room cap m)) < cap.
Proof.
  intros Hany Hcap Hm. unfold make_room. destruct (Z.leb_spec cap (Z.of_nat (size m))); [|lia].
  destruct (Hany A m) as (k & -> & x & Hk).
  { intros ->. rewrite map_size_empty in *. lia. }
  rewrite (map_size_delete_Some k m) by eauto. lia.
Qed.
Lemma insert_room_size {A} cap k (x : A) (m : gmap string A) :
  any_key_ok → 0 < cap → Z.of_nat (size m) ≤ cap →
  Z.of_nat (size (<[k := x]> (make_room cap m))) ≤ cap.
Proof.
  intros Hany Hcap Hm. pose proof (make_room_size cap m Hany Hcap Hm).
  rewrite map_size_insert. destruct (make_room cap m !! k); simpl; lia.
Qed.

Lemma bounds_keeps {A} (m : M A) : keeps tables m → bounds m.
Proof.
  intros Hk e [Hm Hn]. specialize (Hk e). injection Hk as Em En. unfold bounded. by rewrite Em, En.
Qed.
Lemma bounds_bind {A B} (m : M A) (k : A → M B) :
  bounds m → (∀ a, bounds (k a)) → bounds (m ≫= k).
Proof.
  intros Hm Hk e He. unfold mbind, st_bind. specialize (Hm e He).
  destruct (m e). by apply Hk.
Qed.
Lemma tables_on_storage {A} (op : St S A) : keeps tables (on_storage op).
Proof. intros e. unfold on_storage, zoom. by destruct (op (storage e)). Qed.
Lemma tables_on_index {A} (op : St I A) : keeps tables (on_index op).
Proof. intros e. unfold on_index, zoom. by destruct (op (index e)). Qed.
Lemma tables_on_http {A} (op : St H A) : keeps tables (on_http op).
Proof. intros e. unfold on_http, zoom. by destruct (op (http e)). Qed.
Lemma tables_now : keeps tables now.
Proof. done. Qed.
Lemma tables_count m f : keeps tables (count m f).
Proof. done. Qed.
Lemma tables_delete om : keeps tables (deleteInBackground om).
Proof. done. Qed.
Lemma tables_version k : keeps tables (versionedKey k).
Proof. done. Qed.
Lemma tables_txn n p st e sz : keeps tables (recordTxn n p st e sz).
Proof. done. Qed.
#[local] Hint Resolve tables_on_storage tables_on_index tables_on_http tables_now tables_count
  tables_delete tables_version tables_txn : go.
Lemma tables_dst_Write wait w c : keeps tables (dst_Write wait w c).
Proof. unfold dst_Write, unavailable_Write. keeps_tac. Qed.
#[local] Hint Resolve tables_dst_Write : go.
Lemma tables_io_Copy wait w acc cs err : keeps tables (io_Copy wait w acc cs err).
Proof. revert w acc. induction cs; intros w acc; simpl; keeps_tac. Qed.
#[local] Hint Resolve tables_io_Copy : go.
Lemma tables_copyBody w b m l sum url wait : keeps tables (copyBody w b m l sum url wait).
Proof. unfold copyBody. keeps_tac. Qed.
Lemma tables_negativeError m k : keeps tables (negativeError m k).
Proof. unfold negativeError. keeps_tac. Qed.
Lemma tables_resolveAt om : keeps tables (resolveAt om).
Proof. unfold resolveAt. keeps_tac. Qed.
Lemma tables_resolve k : keeps tables (resolve k).
Proof. unfold resolve. keeps_tac. Qed.
Lemma tables_open k : keeps tables (open k).
Proof. unfold open. keeps_tac. Qed.
Lemma tables_cached k : keeps tables (cached k).
Proof. unfold cached. keeps_tac. Qed.
Lemma tables_fresh_now r : keeps tables (fresh_now r).
Proof. unfold fresh_now. keeps_tac. Qed.
#[local] Hint Resolve tables_copyBody tables_negativeError tables_resolveAt tables_resolve
  tables_open tables_cached tables_fresh_now : go.

Lemma bounds_rememberNegative k ttl err : any_key_ok → bounds (rememberNegative k ttl err).
Proof.
  intros Hany e [Hm Hn]. unfold rememberNegative. destruct (ttl <=? 0); [done|].
  split; [done|]. by apply insert_room_size.
Qed.
Lemma bounds_rememberMeta k om : any_key_ok → bounds (rememberMeta k om).
Proof. intros Hany e [Hm Hn]. split; [|done]. by apply insert_room_size. Qed.
Lemma bounds_forgetNegative k : bounds (forgetNegative k).
Proof.
  intros e [Hm Hn]. split; [done|]. simpl. rewrite map_size_delete.
  destruct (negatives e !! k); simpl; lia.
Qed.

Ltac bounds_tac :=
  repeat match goal with
  | |- bounds (_ ≫= _) => apply bounds_bind; [|intros]
  | |- bounds (match ?x with _ => _ end) => destruct x
  | |- bounds (if ?x then _ else _) => destruct x
  | |- bounds (rememberNegative _ _ _) => by apply bounds_rememberNegative
  | |- bounds (rememberMeta _ _) => by apply bounds_rememberMeta
  | |- bounds (forgetNegative _) => apply bounds_forgetNegative
  | |- bounds _ => first [assumption | apply bounds_keeps; by keeps_tac]
  end.
Lemma bounds_fetchOnce target class m old wait : any_key_ok → bounds (fetchOnce target class m old wait).
Proof.
  intros Hany.
  assert (∀ resp, bounds (fetchOnce_status target class m old wait resp)) as Hst.
  { intros resp. unfold fetchOnce_status, store, after_commit. cbv zeta. bounds_tac. }
  unfold fetchOnce, not_modified. cbv zeta. bounds_tac; apply Hst.
Qed.

Lemma step_bounded e e' : any_key_ok → step e e' → bounded e → bounded e'.
Proof.
  intros Hany Hst He. pose proof (λ t c m o w, bounds_fetchOnce t c m o w Hany) as Hf.
  destruct Hst as [eco path|eco path|eco path wait|i]; revert e He.
  - change (bounds (fetch eco path)). unfold fetch, fetchImmutable, fetchMutable,
      fetchImmutableMiss, fetchMutableMeta, fetchMutable_slow, fetchMutable_flight, revalidate,
      staleServeMeta, serveReloadedMeta, openObject. bounds_tac; apply Hf.
  - change (bounds (fetchMeta eco path)). unfold fetchMeta, fetchImmutableMeta,
      fetchImmutableMiss, fetchMutableMeta, fetchMutable_slow, fetchMutable_flight, revalidate,
      staleServeMeta, serveReloadedMeta. bounds_tac; apply Hf.
  - change (bounds (PrefetchThrottled eco path wait)). unfold PrefetchThrottled, prefetchImmutable,
      prefetchMutable, prefetchMutable_flight, revalidate, staleServeMeta. bounds_tac; apply Hf.
  - change (bounds (deleteOnce i)). unfold deleteOnce. bounds_tac.
Qed.

(** The in-memory tables of the engine (headers of immutable objects,
    negative cache) never hold more than 10000 entries each, however many
    requests there are. *)
Theorem tables_stay_bounded st ix net e :
  any_key_ok → rtc step (New st ix net) e →
  Z.of_nat (size (meta e)) ≤ 10000 ∧ Z.of_nat (size (negatives e)) ≤ 10000.
Proof.
  intros Hany Hrun. assert (bounded e); [|done].
  assert (bounded (New st ix net)) as He0 by done.
  revert Hrun He0. generalize (New st ix net). intros e0 Hrun.
  induction Hrun as [|e1 e2 e3 Hst _ IH]; [done|]. intros He. by apply IH, (step_bounded e1).
Qed.
End engine.

(** ** Lost answers

    The engine over an index with a log of its lost answers is the engine over
    the index: nothing reads the log. *)
Section watched.
  Context {S I H : Type} `{!Storage S} `{!StorageLaws S} `{!ObjectIndex I} `{!ObjectIndexLaws I}.
  Context (http_Do : string → Request → St H (res Response)) (clock : nat → Z).
  Context (hash_hex : HashAlgo → string → string).
  Context (format_time : Z → string) (parseHTTPTime : string → option Z).
  Context (new_request_error : string → option error) (error_text : error → string).
  Context (any_key : ∀ A, gmap string A → option string) (cfg : Config) (nonce : N).

Definition with_log (log : list string) (e : Engine) : Engine (S := S) (I := Watched I) (H := H) :=
  mk_Engine (storage e) (mk_Watched (index e) log) (http e) (ticks e) (metrics e) (txns e) (meta e)
    (negatives e) (seq e) (deletes e).
Definition without_log (e : Engine (I := Watched I)) : Engine (S := S) (I := I) (H := H) :=
  mk_Engine (storage e) (watched (index e)) (http e) (ticks e) (metrics e) (txns e) (meta e)
    (negatives e) (seq e) (deletes e).
Definition log_of (e : Engine (S := S) (I := Watched I) (H := H)) : list string := lost_answers (index e).
Definition unread {A} (mw : St Engine A) (m : St Engine A) : Prop := ∀ e,
  (mw e).1 = (m (without_log e)).1 ∧ without_log (mw e).2 = (m (without_log e)).2.

Lemma unread_bind {A B} mw m (kw k : A → St Engine B) :
  unread mw m → (∀ a, unread (kw a) (k a)) → unread (mw ≫= kw) (m ≫= k).
Proof.
  intros Hm Hk e. unfold mbind, st_bind. destruct (Hm e) as [E1 E2].
  destruct (mw e) as [a e1], (m (without_log e)) as [a' e1']. simpl in *. subst. apply Hk.
Qed.
Lemma unread_on_storage {A} (op : St S A) : unread (on_storage op) (on_storage op).
Proof. intros e. unfold on_storage, zoom. simpl. by destruct (op (storage e)). Qed.
Lemma unread_on_http {A} (op : St H A) : unread (on_http op) (on_http op).
Proof. intros e. unfold on_http, zoom. simpl. by destruct (op (http e)). Qed.
Lemma unread_ObjectMeta k : unread (on_index (ObjectMeta_of k)) (on_index (ObjectMeta_of k)).
Proof. intros e. unfold on_index, zoom. simpl. unfold zoom. by destruct (ObjectMeta_of k (watched (index e))). Qed.
Lemma unread_PutObjectMeta om : unread (on_index (PutObjectMeta om)) (on_index (PutObjectMeta om)).
Proof. intros e. unfold on_index, zoom. simpl. by destruct (PutObjectMeta om (watched (index e))). Qed.

(** Along two operations of the same text. *)
Ltac unread_tac :=
  repeat match goal with
  | |- unread (_ ≫= _) _ => apply unread_bind; [|intros]
  | |- unread (on_storage _) _ => apply unread_on_storage
  | |- unread (on_http _) _ => apply unread_on_http
  | |- unread (on_index (ObjectMeta_of _)) _ => apply unread_ObjectMeta
  | |- unread (on_index (PutObjectMeta _)) _ => apply unread_PutObjectMeta
  | |- unread (match ?x with _ => _ end) _ => destruct x
  | |- unread (if ?x then _ else _) _ => destruct x
  | |- unread _ _ => first [by eauto with go | by intros e]
  end.

Lemma unread_negativeError m k : unread (negativeError clock m k) (negativeError clock m k).
Proof. unfold negativeError. unread_tac. Qed.
Lemma unread_rememberNegative k ttl err :
  unread (rememberNegative clock any_key k ttl err) (rememberNegative clock any_key k ttl err).
Proof. unfold rememberNegative. unread_tac. Qed.
Lemma unread_resolveAt om : unread (resolveAt om) (resolveAt om).
Proof. unfold resolveAt. unread_tac. Qed.
Lemma unread_resolve k : unread (resolve k) (resolve k).
Proof. unfold resolve. unread_tac. Qed.
Lemma unread_cached k : unread (cached k) (cached k).
Proof. unfold cached. unread_tac. Qed.
Lemma unread_openObject m : unread (openObject m) (openObject m).
Proof. unfold openObject, open. unread_tac. Qed.
Lemma unread_fresh_now r : unread (fresh_now clock r) (fresh_now clock r).
Proof. unfold fresh_now. unread_tac. Qed.
Lemma unread_io_Copy wait w acc cs err : unread (io_Copy wait w acc cs err) (io_Copy wait w acc cs err).
Proof. revert w acc. induction cs; intros w acc; simpl; unfold dst_Write, unavailable_Write; unread_tac. Qed.
#[local] Hint Resolve unread_negativeError unread_rememberNegative unread_resolveAt unread_resolve
  unread_cached unread_openObject unread_fresh_now unread_io_Copy : go.
Lemma unread_copyBody w b m l sum url wait :
  unread (copyBody hash_hex cfg w b m l sum url wait) (copyBody hash_hex cfg w b m l sum url wait).
Proof. unfold copyBody. unread_tac. Qed.
#[local] Hint Resolve unread_copyBody : go.
Abbreviation fetchOnce_w := (fetchOnce http_Do clock hash_hex format_time parseHTTPTime new_request_error any_key cfg nonce).
Lemma unread_fetchOnce target class m old wait : unread (fetchOnce_w target class m old wait) (fetchOnce_w target class m old wait).
Proof.
  unfold fetchOnce, not_modified, fetchOnce_status, store, after_commit, rememberMeta, deleteInBackground, versionedKey.
  cbv zeta. unread_tac.
Qed.
#[local] Hint Resolve unread_fetchOnce : go.

Abbreviation step_w := (step http_Do clock hash_hex format_time parseHTTPTime new_request_error error_text any_key cfg nonce).
(** A step of the engine is a step of the engine with the log. *)
Lemma watch_step log e e' : step_w e e' → ∃ log', step_w (with_log log e) (with_log log' e').
Proof.
  assert (∀ A (mw : St Engine A) (m : St Engine A), unread mw m →
    (mw (with_log log e)).2 = with_log (log_of (mw (with_log log e)).2) (m e).2) as Hlift.
  { intros A mw m Hm. destruct (Hm (with_log log e)) as [_ E].
    replace (without_log (with_log log e)) with e in E by by destruct e. rewrite <- E.
    by destruct (mw (with_log log e)).2 as [? []]. }
  intros [eco path|eco path|eco path wait|i]; eexists.
  - erewrite <- Hlift; [apply (step_fetch _ _ _ _ _ _ _ _ _ _ _ eco path)|].
    unfold fetch, fetchImmutable, fetchMutable, fetchImmutableMiss, fetchMutableMeta,
      fetchMutable_slow, fetchMutable_flight, revalidate, serveReloadedMeta, staleServeMeta. unread_tac.
  - erewrite <- Hlift; [apply (step_fetchMeta _ _ _ _ _ _ _ _ _ _ _ eco path)|].
    unfold fetchMeta, fetchImmutableMeta, fetchImmutableMiss, fetchMutableMeta,
      fetchMutable_slow, fetchMutable_flight, revalidate, serveReloadedMeta, staleServeMeta. unread_tac.
  - erewrite <- Hlift; [apply (step_prefetch _ _ _ _ _ _ _ _ _ _ _ eco path wait)|].
    unfold PrefetchThrottled, prefetchImmutable, prefetchMutable, prefetchMutable_flight, revalidate, staleServeMeta.
    unread_tac.
  - erewrite <- Hlift; [apply (step_delete _ _ _ _ _ _ _ _ _ _ _ i)|]. unfold deleteOnce. unread_tac.
Qed.

(** C2: in every state that the engine reaches by client requests, prefetches
    and background deletions in any order, with storage and index failing at
    any call, the bytes of every indexed version are in the storage and are
    not waiting for deletion, but for one case: the index took the record of
    the version and its answer was lost. [log] are the bytes of these
    versions, as an observer of the index notes them, which [fetchOnce]
    schedules for deletion because it takes the record for refused. The
    observer changes nothing: every run is a run with a log. *)
Theorem live_bytes_never_deleted st (ix : I) net :
  well_indexed nonce st ix →
  (∀ e, rtc step_w (New st ix net) e →
    ∃ log, rtc step_w (New st (mk_Watched ix []) net) (with_log log e)) ∧
  (∀ log e, rtc step_w (New st (mk_Watched ix []) net) (with_log log e) →
    ∀ k om, indexed (index e) !! k = Some om →
      om_Key om = k ∧
      (is_Some (contents (storage e) !! BytesKey om) ∧ (BytesKey om ∉ deletes e) ∨ BytesKey om ∈ log)).
Proof.
  intros Hwi. split.
  - assert (∀ e1 e l, rtc step_w e1 e → ∃ log, rtc step_w (with_log l e1) (with_log log e)) as Hw.
    { intros e1 e l Hr. revert l. induction Hr as [e1|e1 e2 e3 Hst _ IH]; intros l; [by exists l|].
      destruct (watch_step l e1 e2 Hst) as [l' Hst']. destruct (IH l') as [log Hlog].
      exists log. by eapply rtc_l. }
    intros e Hrun. exact (Hw _ _ [] Hrun).
  - intros log e Hlog k om Hom.
    assert (well_indexed nonce st (mk_Watched ix [])) as Hwi' by by destruct Hwi.
    exact (live_or_lost http_Do clock hash_hex format_time parseHTTPTime new_request_error error_text any_key
      cfg nonce st (mk_Watched ix []) net (with_log log e) Hwi' Hlog k om Hom).
Qed.
End watched.
End Cache.

(** * A concrete engine for the witnesses

    An in-memory storage and index, a clock that advances by one, an upstream
    that counts its requests and answers by URL, and the identity for the
    digest. *)
Module Demo.
Definition response (code : Z) (body : list string) : Response :=
  mk_Response code 3 (λ h, if String.eqb h "ETag" then "v1" else "") (body, None).
Definition http_Do (_ : string) (rq : Request) : St nat (res Response) := λ n,
  (Ok (if String.eqb (rq_URL rq) "u/404" then response 404 []
       else if String.eqb (rq_URL rq) "u/500" then response 500 []
       else response 200 ["ab"; "c"]), S n).
Definition only_404_Do (_ : string) (_ : Request) : St nat (res Response) := λ n,
  (Ok (response 404 []), S n).
Definition clock (n : nat) : Z := 1000 + Z.of_nat n.
Definition hash_hex (_ : HashAlgo) (s : string) : string := s.
Definition format_time (_ : Z) : string := "date".
Definition parse_time (_ : string) : option Z := None.
Definition no_error (_ : string) : option error := None.
Definition text (_ : error) : string := "error".
Definition first_key (A : Type) (m : gmap string A) : option string :=
  match map_to_list m with [] => None | (k, _) :: _ => Some k end.
Definition cfg : Config := mk_Config true 5 60 60.
Definition target (url hex : string) : Target :=
  mk_Target url "/p" "cache/k" (mk_Checksum "SHA256" hex) "".
Definition index1 : FakeObjectIndex :=
  <["cache/k" := mk_ObjectMeta "cache/k" "" 3 "v0" "" 0 1]> ∅.
Definition storage1 : FakeStorage := mk_FakeStorage (<["cache/k" := ("old", 0)]> ∅) 0.
Definition empty_engine : Cache.Engine := Cache.New (mk_FakeStorage ∅ 0) (∅ : FakeObjectIndex) O.
Definition expired_engine : Cache.Engine := Cache.New storage1 index1 O.
Definition eco : Ecosystem :=
  mk_Ecosystem "apt" (λ _, Some (target "u/200" "abc")) (λ _, Ok (Mutable 100)).

Definition fetchOnce := Cache.fetchOnce http_Do clock hash_hex format_time parse_time no_error first_key cfg 7.
Definition fetchImmutable :=
  Cache.fetchImmutable http_Do clock hash_hex format_time parse_time no_error first_key cfg 7.
Definition fetchMutableMeta (do_ : string → Request → St nat (res Response)) :=
  Cache.fetchMutableMeta do_ clock hash_hex format_time parse_time no_error first_key cfg 7.
Definition fetch := Cache.fetch http_Do clock hash_hex format_time parse_time no_error text first_key cfg 7.

Definition stored := fetchOnce (target "u/200" "ABC") (Mutable 10) "apt" None None empty_engine.
Definition mismatch := fetchOnce (target "u/200" "xyz") Immutable "apt" None None empty_engine.
Definition missed := fetchOnce (target "u/404" "") Immutable "apt" None None empty_engine.
Definition served := fetchImmutable (target "u/200" "abc") Immutable "apt" empty_engine.
Definition stale := fetchMutableMeta http_Do (target "u/500" "") (Mutable 10) "apt" expired_engine.
Definition gone := fetchMutableMeta only_404_Do (target "u/404" "") (Mutable 10) "apt" expired_engine.
Definition replaced := (fetch eco "/apt/p" expired_engine).2.

Lemma index1_inv k om : indexed index1 !! k = Some om →
  k = "cache/k" ∧ om = mk_ObjectMeta "cache/k" "" 3 "v0" "" 0 1.
Proof.
  change (index1 !! k = Some om → k = "cache/k" ∧ om = mk_ObjectMeta "cache/k" "" 3 "v0" "" 0 1).
  unfold index1. intros [[<- <-]|[_ Hk]]%lookup_insert_Some; [done|].
  exfalso. revert Hk. vm_compute. discriminate.
Qed.
Lemma well_indexed1 : Cache.well_indexed 7 storage1 index1.
Proof.
  split.
  - by intros k o [-> ->]%index1_inv.
  - intros k o [-> ->]%index1_inv. by vm_compute; eexists.
  - by intros k1 o1 k2 o2 [-> _]%index1_inv [-> _]%index1_inv.
  - intros k o key n [-> ->]%index1_inv E. apply (f_equal (λ s, contains s "-v")) in E.
    assert (contains (Cache.versioned 7 key n) "-v" = true) as Hv by (apply contains_spec; by eexists _, _).
    rewrite Hv in E. vm_compute in E. discriminate.
Qed.
Example stale_status : stale.1.1.2 = statusStale.
Proof. vm_compute. reflexivity. Qed.
Example replaced_deletes : Cache.deletes replaced = ["cache/k"].
Proof. vm_compute. reflexivity. Qed.

Lemma fetchOnce_integrity_witness :
  ∃ om body, stored.1 = Ok (om, false) ∧ om_Size om = 3 ∧
    contents (Cache.storage stored.2) !! BytesKey om = Some body ∧ om_Size om = len body.
Proof.
  pose proof (Cache.fetchOnce_integrity http_Do clock hash_hex format_time parse_time no_error
    first_key cfg 7 (target "u/200" "ABC") (Mutable 10) "apt" None None empty_engine
    stored.1 stored.2 eq_refl (surjective_pairing stored)) as (_ & _ & Hnew & _).
  destruct (stored.1) as [[om b]|] eqn:E; vm_compute in E; [|discriminate].
  injection E as Eom Eb. subst b.
  destruct (Hnew om eq_refl) as (body & _ & Hb & Hl & _).
  exists om, body. split; [reflexivity|]. split; [subst om; reflexivity|]. by split.
Defined.

(** With the greatest int64 as the limit, [copyBody] reads nothing of a body
    without a declared length and the empty body is committed. *)
Definition unsized (_ : string) (_ : Request) : St nat (res Response) := λ n,
  (Ok (mk_Response 200 (-1) (λ _, "") (["ab"; "c"], None)), S n).
Definition greatest : Config := mk_Config true max_int64 60 60.
Theorem greatest_limit_commits_nothing_read :
  let '(r, e) := Cache.fetchOnce unsized clock hash_hex format_time parse_time no_error first_key greatest 7
    (target "u/200" "") Immutable "apt" None None empty_engine in
  is_ok r = true ∧ contents (Cache.storage e) !! "cache/k" = Some "".
Proof. vm_compute. done. Qed.

Lemma bad_body_never_commits_witness :
  is_ok mismatch.1 = false ∧ contents (Cache.storage mismatch.2) = ∅.
Proof.
  destruct (Cache.bad_body_never_commits http_Do clock hash_hex format_time parse_time no_error
    first_key cfg 7 (target "u/200" "xyz") Immutable "apt" None None empty_engine
    (mk_Request "u/200" (<["Accept-Encoding" := "identity"]> ∅)) (response 200 ["ab"; "c"])
    mismatch.1 mismatch.2) as (Hr & Hc & _).
  - reflexivity.
  - vm_compute. reflexivity.
  - vm_compute. reflexivity.
  - simpl. lia.
  - right. vm_compute. discriminate.
  - apply surjective_pairing.
  - split; [exact Hr|exact Hc].
Defined.

Lemma fetchImmutable_serves_committed_witness :
  served.1 = ((mk_Meta "cache/k" 3 "v1" "" 0, "abc"), statusMiss, None) ∧
  contents (Cache.storage served.2) !! "cache/k" = Some "abc".
Proof.
  assert (served.1 = ((mk_Meta "cache/k" 3 "v1" "" 0, "abc"), statusMiss, None)) as E
    by (vm_compute; reflexivity).
  split; [exact E|].
  refine (proj1 (Cache.fetchImmutable_serves_committed http_Do clock hash_hex format_time parse_time
    no_error first_key cfg 7 (target "u/200" "abc") Immutable "apt" empty_engine
    (mk_Meta "cache/k" 3 "v1" "" 0, "abc") statusMiss served.2 eq_refl eq_refl _)).
  exact (eq_trans (surjective_pairing served) (f_equal (λ x, (x, served.2)) E)).
Defined.

Lemma stale_is_the_indexed_version_witness :
  stale.1 = (mk_Meta "cache/k" 3 "v0" "" 0, statusStale, Some (StaleError "v0" "")) ∧
  StaleIfError cfg = true.
Proof.
  assert (stale.1 = (mk_Meta "cache/k" 3 "v0" "" 0, statusStale, Some (StaleError "v0" ""))) as E
    by (vm_compute; reflexivity).
  split; [exact E|].
  refine (proj1 (Cache.stale_is_the_indexed_version http_Do clock hash_hex format_time parse_time
    no_error first_key cfg 7 (target "u/500" "") (Mutable 10) "apt" expired_engine
    (mk_Meta "cache/k" 3 "v0" "" 0) (Some (StaleError "v0" "")) stale.2 _)).
  exact (eq_trans (surjective_pairing stale) (f_equal (λ x, (x, stale.2)) E)).
Defined.

Lemma upstream_404_not_masked_witness : gone.1.1.2 = statusNone ∧ gone.1.1.2 ≠ statusStale.
Proof.
  split; [vm_compute; reflexivity|].
  apply (Cache.upstream_404_not_masked only_404_Do clock hash_hex format_time parse_time no_error
    first_key cfg 7 (target "u/404" "") (Mutable 10) "apt" expired_engine
    gone.1.1.1 gone.1.1.2 gone.1.2 gone.2).
  - intros proxy req net. exists (response 404 []). done.
  - reflexivity.
  - intros n Hn. vm_compute in Hn. discriminate.
  - rewrite <- !surjective_pairing. reflexivity.
Defined.

Lemma negative_cache_spares_upstream_witness :
  Cache.http missed.2 = 1%nat ∧
  (fetchImmutable (target "u/404" "") Immutable "apt" missed.2).1 =
    (no_Object, statusNone, Some (NotFoundError "upstream объект" "/p")) ∧
  Cache.http (fetchImmutable (target "u/404" "") Immutable "apt" missed.2).2 = 1%nat.
Proof.
  assert (Cache.http missed.2 = 1%nat) as H1 by (vm_compute; reflexivity).
  split; [exact H1|].
  destruct (Cache.negative_cache_spares_upstream http_Do clock hash_hex format_time parse_time
    no_error first_key cfg 7 (target "u/404" "") Immutable "apt" None None empty_engine
    (mk_Request "u/404" (<["Accept-Encoding" := "identity"]> ∅)) (response 404 [])
    (NotFoundError "upstream объект" "/p") 60 missed.1 missed.2 missed.2) as (_ & Hr & _ & Hh & _).
  - vm_compute. reflexivity.
  - vm_compute. reflexivity.
  - vm_compute. reflexivity.
  - lia.
  - apply surjective_pairing.
  - reflexivity.
  - assert (Cache.ticks missed.2 = 1%nat) as -> by (vm_compute; reflexivity).
    intros n Hn. unfold clock. simpl. lia.
  - split; [exact Hr|]. rewrite <- H1. exact Hh.
Defined.

Lemma live_bytes_never_deleted_witness :
  ∃ om, (Cache.index replaced : FakeObjectIndex) !! "cache/k" = Some om ∧ om_ETag om = "v1" ∧
    is_Some (contents (Cache.storage replaced) !! BytesKey om) ∧ (BytesKey om ∉ Cache.deletes replaced).
Proof.
  assert (∃ om, (Cache.index replaced : FakeObjectIndex) !! "cache/k" = Some om ∧ om_ETag om = "v1")
    as (om & Hom & Het) by (eexists; split; vm_compute; reflexivity).
  exists om. split; [exact Hom|]. split; [exact Het|].
  destruct (Cache.live_bytes_never_deleted http_Do clock hash_hex format_time parse_time
    no_error text first_key cfg 7 storage1 index1 O well_indexed1) as [_ Hlive].
  destruct (Hlive [] replaced) with (k := "cache/k") (om := om) as [_ [Ha|Hin]]; [|exact Hom|exact Ha|].
  - apply rtc_once.
    assert (Cache.with_log [] replaced =
      (Cache.fetch http_Do clock hash_hex format_time parse_time no_error text first_key cfg 7 eco "/apt/p"
        (Cache.New storage1 (mk_Watched index1 []) O)).2) as -> by (vm_compute; reflexivity).
    apply Cache.step_fetch.
  - apply elem_of_nil in Hin. destruct Hin.
Defined.

Lemma tables_stay_bounded_witness :
  size (Cache.meta served.2) = 1%nat ∧
  Z.of_nat (size (Cache.meta replaced)) ≤ 10000.
Proof.
  split; [vm_compute; reflexivity|].
  refine (proj1 (Cache.tables_stay_bounded http_Do clock hash_hex format_time parse_time
    no_error text first_key cfg 7 storage1 index1 O replaced _ _)).
  - intros A m Hm. unfold first_key. destruct (map_to_list m) as [|[k x] l] eqn:E.
    + by apply map_to_list_empty_iff in E.
    + exists k. split; [done|]. exists x. apply elem_of_map_to_list. rewrite E. by left.
  - apply rtc_once. apply (Cache.step_fetch http_Do clock hash_hex format_time parse_time no_error text
      first_key cfg 7 expired_engine eco "/apt/p").
Defined.
End Demo.
