(* ===== verification/BackgroundDeletes.v ===== *)
(** The goroutines of the cache's background deletions and the drain at
    shutdown (internal/core/engine/cache/engine.go, [deleteInBackground],
    [deleteOnce], [DrainBackgroundDeletes]) as a transition system.

    [Cache.deleteOnce] of CacheEngine.v says what one deletion does to the
    storage; this file is about the counters, the semaphore and the channels.
    The critical sections under [delMu] are atomic steps. Channels are
    numbered by their creation; [chans] says which ones are closed. A panic of
    [storage.Delete] is recovered and takes the same way as a return. *)
From S2P Require Import Prelude.

Definition deleteConcurrency : nat := 4.

Inductive drain :=
| DrainLoop (* before the snapshot of the counter *)
| DrainWaiting (idle : nat) (* in the select on a channel *)
| DrainDone (* returned nil *)
| DrainCancelled. (* returned ctx.Err() *)

Record state := mk_state {
  delPending : Z;
  delIdle : option nat;
  chans : list bool;
  waiting : list string; (* goroutines before [e.delSem <- struct{}{}] *)
  running : list string; (* holding the semaphore, in [storage.Delete] *)
  settling : list string; (* released the semaphore, before the lock *)
  drainer : drain;
  panicked : bool
}.
Definition init : state := mk_state 0 None [] [] [] [] DrainLoop false.

Definition removed {A} (i : nat) (l : list A) : list A := take i l ++ drop (S i) l.

(** [deleteInBackground(key)]. *)
Definition deleteInBackground (key : string) (s : state) : state :=
  let '(idle, chans') :=
    if bool_decide (delPending s = 0%Z) then (Some (length (chans s)), chans s ++ [false])
    else (delIdle s, chans s) in
  mk_state (delPending s + 1) idle chans' (waiting s ++ [key]) (running s) (settling s)
    (drainer s) (panicked s).

(** The goroutine gets the semaphore. *)
Definition acquire (i : nat) (s : state) : option state :=
  k ← waiting s !! i;
  if bool_decide (length (running s) < deleteConcurrency)%nat
  then Some (mk_state (delPending s) (delIdle s) (chans s) (removed i (waiting s))
               (running s ++ [k]) (settling s) (drainer s) (panicked s))
  else None.

(** [storage.Delete] has returned or panicked and the deferred function has
    released the semaphore. *)
Definition release (i : nat) (s : state) : option state :=
  k ← running s !! i;
  Some (mk_state (delPending s) (delIdle s) (chans s) (waiting s) (removed i (running s))
          (settling s ++ [k]) (drainer s) (panicked s)).

(** The deferred function's critical section; closing a nil or a closed
    channel panics. *)
Definition settle (i : nat) (s : state) : option state :=
  _ ← settling s !! i;
  let pending := (delPending s - 1)%Z in
  let '(chans', bad) :=
    if bool_decide (pending = 0%Z) then
      match delIdle s with
      | Some c => if default true (chans s !! c) then (chans s, true) else (<[c := true]> (chans s), false)
      | None => (chans s, true)
      end
    else (chans s, false) in
  Some (mk_state pending (delIdle s) chans' (waiting s) (running s) (removed i (settling s))
          (drainer s) (panicked s || bad)).

(** One round of [DrainBackgroundDeletes]: the snapshot, and the select. A
    receive from a nil channel blocks for ever. *)
Definition drain_check (s : state) : option state :=
  match drainer s with
  | DrainLoop => Some (mk_state (delPending s) (delIdle s) (chans s) (waiting s) (running s)
      (settling s)
      (if bool_decide (delPending s = 0%Z) then DrainDone
       else match delIdle s with Some c => DrainWaiting c | None => DrainWaiting (length (chans s)) end)
      (panicked s))
  | _ => None
  end.
Definition set_drainer (d : drain) (s : state) : state :=
  mk_state (delPending s) (delIdle s) (chans s) (waiting s) (running s) (settling s) d (panicked s).
Definition drain_wake (s : state) : option state :=
  match drainer s with
  | DrainWaiting c =>
      if default false (chans s !! c) then Some (set_drainer DrainLoop s) else None
  | _ => None
  end.
Definition drain_cancel (s : state) : option state :=
  match drainer s with DrainWaiting _ => Some (set_drainer DrainCancelled s) | _ => None end.

(** [work] are the steps that need no new caller. *)
Inductive work (s : state) : state → Prop :=
| work_acquire i s' : acquire i s = Some s' → work s s'
| work_release i s' : release i s = Some s' → work s s'
| work_settle i s' : settle i s = Some s' → work s s'
| work_check s' : drain_check s = Some s' → work s s'
| work_wake s' : drain_wake s = Some s' → work s s'.
Inductive step (s : state) : state → Prop :=
| step_schedule key : step s (deleteInBackground key s)
| step_work s' : work s s' → step s s'
| step_cancel s' : drain_cancel s = Some s' → step s s'.

(** * The invariant *)
Record inv (s : state) : Prop := {
  inv_count : delPending s = Z.of_nat (length (waiting s) + length (running s) + length (settling s));
  inv_sem : (length (running s) ≤ deleteConcurrency)%nat;
  inv_open : delPending s ≠ 0%Z → ∃ c, delIdle s = Some c ∧ chans s !! c = Some false;
  inv_closed c : chans s !! c = Some false → delPending s ≠ 0%Z ∧ delIdle s = Some c;
  inv_wait c : drainer s = DrainWaiting c → is_Some (chans s !! c);
  inv_panic : panicked s = false
}.

Lemma length_removed {A} i (l : list A) : is_Some (l !! i) → length (removed i l) = pred (length l).
Proof.
  intros [x Hx]. pose proof (lookup_lt_Some _ _ _ Hx). unfold removed.
  rewrite length_app, length_take, length_drop. lia.
Qed.
Lemma inv_init : inv init.
Proof. split; simpl; try done; unfold deleteConcurrency; lia. Qed.

Lemma inv_schedule key s : inv s → inv (deleteInBackground key s).
Proof.
  intros [Hc Hs Ho Hcl Hw Hp]. unfold deleteInBackground.
  case_bool_decide as Hz; split; simpl; try done; try (rewrite length_app; simpl; lia).
  - intros _. exists (length (chans s)). by rewrite list_lookup_middle.
  - intros c Hch. apply lookup_app_Some in Hch as [Hch|[Hle Hch]].
    + by apply Hcl in Hch as [? _].
    + apply list_lookup_singleton_Some in Hch as [Hi _]. split; [lia|]. f_equal. lia.
  - intros c Hd. destruct (Hw c Hd) as [b Hb]. exists b. by apply lookup_app_l_Some.
  - intros _. by apply Ho.
  - intros c Hch. apply Hcl in Hch as [? ?]. split; [lia|done].
Qed.

Lemma inv_settle i s s' : inv s → settle i s = Some s' → inv s'.
Proof.
  intros [Hc Hs Ho Hcl Hw Hp]. unfold settle. destruct (settling s !! i) as [k|] eqn:Hk; [|done].
  simpl. assert (length (removed i (settling s)) = pred (length (settling s))) as Hlen
    by (apply length_removed; eauto).
  pose proof (lookup_lt_Some _ _ _ Hk).
  case_bool_decide as Hz.
  - destruct Ho as (c & Hidle & Hopen); [lia|]. rewrite Hidle, Hopen. simpl. intros [= <-].
    pose proof (lookup_lt_Some _ _ _ Hopen).
    split; simpl; try done.
    + lia.
    + intros c' Hch. destruct (decide (c = c')) as [<-|Hne].
      * by rewrite list_lookup_insert_eq in Hch.
      * rewrite list_lookup_insert_ne in Hch by done. apply Hcl in Hch as [_ Hi]. congruence.
    + intros c' [b Hb]%Hw. destruct (decide (c = c')) as [<-|].
      * rewrite list_lookup_insert_eq by done. eauto.
      * rewrite list_lookup_insert_ne by done. eauto.
    + by rewrite Hp.
  - intros [= <-]. split; simpl; try done.
    + lia.
    + intros _. apply Ho. lia.
    + intros c Hch. by apply Hcl in Hch as [_ ?].
    + by rewrite Hp.
Qed.

Lemma inv_work s s' : inv s → work s s' → inv s'.
Proof.
  intros Hi Hst. pose proof Hi as [Hc Hs Ho Hcl Hw Hp].
  destruct Hst as [i s' E|i s' E|i s' E|s' E|s' E]; [| |by eapply inv_settle|..].
  - unfold acquire in E. destruct (waiting s !! i) as [k|] eqn:Hk; [|done]. simpl in E.
    case_bool_decide; [|done]. injection E as <-. pose proof (lookup_lt_Some _ _ _ Hk).
    split; simpl; try done; rewrite ?length_app, ?length_removed by eauto; simpl; lia.
  - unfold release in E. destruct (running s !! i) as [k|] eqn:Hk; [|done]. simpl in E.
    injection E as <-. pose proof (lookup_lt_Some _ _ _ Hk).
    split; simpl; try done; rewrite ?length_app, ?length_removed by eauto; simpl; lia.
  - unfold drain_check in E. destruct (drainer s) eqn:Hd; try done. injection E as <-.
    split; simpl; try done. intros c. case_bool_decide as Hz; [done|].
    destruct (Ho Hz) as (c' & -> & Hop). intros [= <-]. eauto.
  - unfold drain_wake in E. destruct (drainer s) eqn:Hd; try done.
    destruct (default false _); [|done]. injection E as <-. by split.
Qed.
Lemma inv_step s s' : inv s → step s s' → inv s'.
Proof.
  intros Hi Hst. destruct Hst as [key|s' Hw|s' E]; [by apply inv_schedule|by eapply inv_work|].
  destruct Hi as [Hc Hs Ho Hcl Hw Hp]. unfold drain_cancel in E.
  destruct (drainer s); try done. injection E as <-. by split.
Qed.
Lemma inv_reachable s : rtc step init s → inv s.
Proof.
  intros Hrun. remember init as s0 eqn:E0. assert (inv s0) as H0 by (subst; apply inv_init).
  clear E0. induction Hrun as [|s1 s2 s3 Hst _ IH]; [done|]. apply IH. by eapply inv_step.
Qed.

(** * Progress and termination *)
Definition quiet (s : state) : Prop := waiting s = [] ∧ running s = [] ∧ settling s = [].
Definition jobs (s : state) : nat :=
  3 * length (waiting s) + 2 * length (running s) + length (settling s).
Definition drain_weight (s : state) : nat :=
  match drainer s with
  | DrainLoop => 2
  | DrainWaiting c => if default false (chans s !! c) then 3 else 1
  | _ => 0
  end.
Definition measure (s : state) : nat := 4 * jobs s + drain_weight s.

Lemma drain_weight_le s : (drain_weight s ≤ 3)%nat.
Proof. unfold drain_weight. repeat case_match; lia. Qed.
Lemma drain_weight_mono s s' :
  drainer s' = drainer s → chans s' = chans s → drain_weight s' = drain_weight s.
Proof. unfold drain_weight. by intros -> ->. Qed.

Lemma work_measure s s' : inv s → work s s' → (measure s' < measure s)%nat.
Proof.
  intros Hi Hst. pose proof Hi as [Hc Hs Ho Hcl Hw Hp]. unfold measure, jobs.
  destruct Hst as [i s' E|i s' E|i s' E|s' E|s' E].
  - unfold acquire in E. destruct (waiting s !! i) as [k|] eqn:Hk; [|done]. simpl in E.
    case_bool_decide; [|done]. injection E as <-. pose proof (lookup_lt_Some _ _ _ Hk).
    rewrite (drain_weight_mono s) by done. simpl.
    rewrite length_app, length_removed by eauto. simpl. lia.
  - unfold release in E. destruct (running s !! i) as [k|] eqn:Hk; [|done]. simpl in E.
    injection E as <-. pose proof (lookup_lt_Some _ _ _ Hk).
    rewrite (drain_weight_mono s) by done. simpl.
    rewrite length_app, length_removed by eauto. simpl. lia.
  - unfold settle in E. destruct (settling s !! i) as [k|] eqn:Hk; [|done]. simpl in E.
    pose proof (lookup_lt_Some _ _ _ Hk).
    destruct (if bool_decide (delPending s - 1 = 0)%Z then _ else _) as [ch bad] eqn:Eb.
    injection E as <-. simpl. rewrite length_removed by eauto.
    match goal with |- context [drain_weight ?x] => pose proof (drain_weight_le x) end.
    pose proof (drain_weight_le s). case_bool_decide as Hz.
    + unfold drain_weight in *. simpl in *. destruct (drainer s); repeat case_match; lia.
    + injection Eb as <- <-. rewrite (drain_weight_mono s) by done. lia.
  - unfold drain_check in E. destruct (drainer s) eqn:Hd; try done. injection E as <-.
    unfold drain_weight. simpl. rewrite Hd. case_bool_decide as Hz; [lia|].
    destruct (Ho Hz) as (c & -> & ->). simpl. lia.
  - unfold drain_wake in E. destruct (drainer s) as [|c| |] eqn:Hd; try done.
    destruct (default false (chans s !! c)) eqn:Hch; [|done]. injection E as <-.
    unfold drain_weight. simpl. rewrite Hd, Hch. lia.
Qed.

Lemma work_enabled s : inv s → ¬ quiet s → ∃ s', work s s'.
Proof.
  intros Hi Hq. destruct (settling s) as [|k st] eqn:Es.
  - destruct (running s) as [|k r] eqn:Er.
    + destruct (waiting s) as [|k w] eqn:Ew; [by destruct Hq|].
      eexists. apply (work_acquire s 0). unfold acquire. by rewrite Ew, Er.
    + eexists. apply (work_release s 0). unfold release. by rewrite Er.
  - assert (is_Some (settle 0 s)) as [s' Hs'].
    { unfold settle. rewrite Es. simpl. by case_match. }
    exists s'. by apply (work_settle s 0).
Qed.

Lemma quiet_pending s : inv s → quiet s → delPending s = 0%Z.
Proof. intros Hi (Hw & Hr & Hst). rewrite (inv_count _ Hi), Hw, Hr, Hst. done. Qed.

Lemma stuck_done s :
  inv s → drainer s ≠ DrainCancelled → (∀ s', ¬ work s s') → quiet s ∧ drainer s = DrainDone.
Proof.
  intros Hi Hnc Hstuck. assert (quiet s) as Hq.
  { unfold quiet. destruct (decide (waiting s = [] ∧ running s = [] ∧ settling s = [])); [done|].
    destruct (work_enabled s Hi) as [s' Hs']; [done|]. by destruct (Hstuck s'). }
  split; [done|]. destruct (drainer s) as [|c| |] eqn:Hd; try done.
  - exfalso. eapply Hstuck, work_check. unfold drain_check. by rewrite Hd.
  - exfalso. destruct (inv_wait _ Hi c Hd) as [b Hb].
    destruct b.
    + eapply Hstuck, work_wake. unfold drain_wake. by rewrite Hd, Hb.
    + apply (inv_closed _ Hi) in Hb as [Hne _]. by apply Hne, quiet_pending.
Qed.

Lemma work_run_inv s s' : inv s → rtc work s s' → inv s'.
Proof. intros Hi Hr. induction Hr; [done|]. apply IHHr. by eapply inv_work. Qed.
Lemma not_cancelled_run s s' :
  rtc work s s' → drainer s ≠ DrainCancelled → drainer s' ≠ DrainCancelled.
Proof.
  induction 1 as [|s1 s2 s3 Hst _ IH]; [done|]. intros Hd. apply IH.
  destruct Hst as [i s' E|i s' E|i s' E|s' E|s' E].
  - unfold acquire in E. destruct (waiting _ !! i); [|done]. simpl in E.
    case_bool_decide; [|done]. by injection E as <-.
  - unfold release in E. destruct (running _ !! i); [|done]. by injection E as <-.
  - unfold settle in E. destruct (settling _ !! i); [|done]. simpl in E.
    destruct (if bool_decide _ then _ else _) as [ch bad]. by injection E as <-.
  - unfold drain_check in E. destruct (drainer s1); try done. injection E as <-. simpl.
    case_bool_decide; [done|]. by destruct (delIdle s1).
  - unfold drain_wake in E. destruct (drainer s1); try done.
    destruct (default false _); [|done]. by injection E as <-.
Qed.

(** In every reachable state of the background deletions, however callers,
    goroutines and the drain interleave, the counter is the number of pending
    deletions, at most four of them are in the storage, and no channel has
    been closed twice or while nil (which would panic); and when the drain
    returns nil, no deletion is pending. *)
Theorem deletions_are_counted (s : state) :
  rtc step init s →
  panicked s = false ∧
  delPending s = Z.of_nat (length (waiting s) + length (running s) + length (settling s)) ∧
  (length (running s) ≤ 4)%nat ∧
  (∀ s', drain_check s = Some s' → drainer s' = DrainDone → quiet s').
Proof.
  intros Hi%inv_reachable. split_and!; [apply Hi..|].
  intros s' Hck Hd. unfold drain_check in Hck. destruct (drainer s); try done.
  injection Hck as <-. simpl in Hd. case_bool_decide as Hz; [|by destruct (delIdle s)].
  rewrite (inv_count _ Hi) in Hz. unfold quiet. simpl.
  split_and!; apply length_zero_iff_nil; lia.
Qed.

(** The drain loses no wake-up: from every reachable state in which the
    drain has not been cancelled, if no new deletion is scheduled, every run
    of the goroutines and the drain is finite (at most [measure s] steps),
    and where it can go no further all deletions are settled and the drain
    has returned nil. *)
Theorem drain_terminates (s : state) :
  rtc step init s → drainer s ≠ DrainCancelled →
  (∀ n s', nsteps work n s s' → (n ≤ measure s)%nat) ∧
  (∀ s', rtc work s s' → (∀ s'', ¬ work s' s'') → quiet s' ∧ drainer s' = DrainDone).
Proof.
  intros Hi%inv_reachable Hd. split.
  - intros n s' Hn. revert Hi. clear Hd. induction Hn as [|n s1 s2 s3 Hst _ IH]; intros Hi; [lia|].
    pose proof (work_measure _ _ Hi Hst). specialize (IH (inv_work _ _ Hi Hst)). lia.
  - intros s' Hr Hstuck. apply stuck_done; [by eapply work_run_inv|by eapply not_cancelled_run|done].
Qed.

Definition two_pending : state := deleteInBackground "b" (deleteInBackground "a" init).
Lemma two_pending_reachable : rtc step init two_pending.
Proof. eapply rtc_l; [apply (step_schedule init "a")|]. apply rtc_once, step_schedule. Qed.
Lemma deletions_are_counted_witness :
  delPending two_pending = 2%Z ∧ panicked two_pending = false.
Proof.
  split; [reflexivity|]. apply (deletions_are_counted two_pending). exact two_pending_reachable.
Defined.
Lemma drain_terminates_witness :
  measure two_pending = 26%nat ∧ (∀ n s', nsteps work n two_pending s' → (n ≤ 26)%nat).
Proof.
  split; [reflexivity|].
  exact (proj1 (drain_terminates two_pending two_pending_reachable ltac:(discriminate))).
Defined.
