(* ===== verification/Retention.v ===== *)
(** Automatic clean-up of old package versions: of personal repositories
    (internal/core/engine/retention) and of the proxy's cache
    (internal/core/engine/eviction).

    Both engines group the listed objects into families, protect the newest
    [MinVersions] of each family, recently accessed versions and pinned ones,
    and delete the rest. The pass over one family is the same code in both
    packages except for the pins and the texts; [eviction.Result] is
    [retention.Result] without [ProtectedByPin], and the eviction pass is the
    shared one without pins. A listing is a snapshot; the checks of [ctx]
    between objects and families are modelled by [ctx_Err]. *)
From S2P Require Import Prelude GoStr Domain Port.
Local Open Scope Z_scope.

Definition day : Z := 24 * hour.

Record Result := mk_Result {
  DryRun : bool;
  Duration : Z;
  Families : Z;
  ObjectsScanned : Z;
  Candidates : Z;
  Deleted : Z;
  FailedDeletes : Z;
  BytesFreed : Z;
  ProtectedByMin : Z;
  ProtectedByAccess : Z;
  ProtectedByPin : Z
}.
Definition new_Result (dry : bool) : Result := mk_Result dry 0 0 0 0 0 0 0 0 0 0.
Definition add_Families r := mk_Result (DryRun r) (Duration r) (Families r + 1) (ObjectsScanned r) (Candidates r) (Deleted r) (FailedDeletes r) (BytesFreed r) (ProtectedByMin r) (ProtectedByAccess r) (ProtectedByPin r).
Definition add_Scanned r := mk_Result (DryRun r) (Duration r) (Families r) (ObjectsScanned r + 1) (Candidates r) (Deleted r) (FailedDeletes r) (BytesFreed r) (ProtectedByMin r) (ProtectedByAccess r) (ProtectedByPin r).
Definition add_Candidate r := mk_Result (DryRun r) (Duration r) (Families r) (ObjectsScanned r) (Candidates r + 1) (Deleted r) (FailedDeletes r) (BytesFreed r) (ProtectedByMin r) (ProtectedByAccess r) (ProtectedByPin r).
Definition add_Deleted n r := mk_Result (DryRun r) (Duration r) (Families r) (ObjectsScanned r) (Candidates r) (Deleted r + 1) (FailedDeletes r) (BytesFreed r + n) (ProtectedByMin r) (ProtectedByAccess r) (ProtectedByPin r).
Definition add_Failed r := mk_Result (DryRun r) (Duration r) (Families r) (ObjectsScanned r) (Candidates r) (Deleted r) (FailedDeletes r + 1) (BytesFreed r) (ProtectedByMin r) (ProtectedByAccess r) (ProtectedByPin r).
Definition add_ByMin r := mk_Result (DryRun r) (Duration r) (Families r) (ObjectsScanned r) (Candidates r) (Deleted r) (FailedDeletes r) (BytesFreed r) (ProtectedByMin r + 1) (ProtectedByAccess r) (ProtectedByPin r).
Definition add_ByAccess r := mk_Result (DryRun r) (Duration r) (Families r) (ObjectsScanned r) (Candidates r) (Deleted r) (FailedDeletes r) (BytesFreed r) (ProtectedByMin r) (ProtectedByAccess r + 1) (ProtectedByPin r).
Definition add_ByPin r := mk_Result (DryRun r) (Duration r) (Families r) (ObjectsScanned r) (Candidates r) (Deleted r) (FailedDeletes r) (BytesFreed r) (ProtectedByMin r) (ProtectedByAccess r) (ProtectedByPin r + 1).
Definition set_Duration d r := mk_Result (DryRun r) d (Families r) (ObjectsScanned r) (Candidates r) (Deleted r) (FailedDeletes r) (BytesFreed r) (ProtectedByMin r) (ProtectedByAccess r) (ProtectedByPin r).

Record version := mk_version { v_key : string; v_size : Z; v_modTime : Z }.
Record Report := mk_Report {
  rp_Key : string; rp_Family : string; rp_Size : Z; rp_ModTime : Z;
  rp_LastAccess : Z; rp_ProtectedBy : string
}.

(** The comparison of [slices.SortFunc]: newer first, then by key. It is a
    strict order on the versions of a listing, whose keys are distinct, so
    the sorted order does not depend on the algorithm. *)
Definition compare_versions (a b : version) : Z :=
  let c := cmp_int (v_modTime b ?= v_modTime a) in
  if negb (c =? 0) then c else str_cmp (v_key a) (v_key b).
Definition newer_first (a b : version) : Prop := compare_versions a b ≤ 0.
#[global] Instance newer_first_dec a b : Decision (newer_first a b).
Proof. unfold newer_first. apply _. Defined.
Definition sort_versions : list version → list version := merge_sort newer_first.

(** [cutoff]: [-time.Duration(days) * 24 * time.Hour] is computed in 64 bits;
    the zero time means that there is no age limit. *)
Definition cutoff (policy : Retention) (now : Z) : Z :=
  if 0 <? MaxAgeDays policy
  then now + wrap64 (wrap64 (- MaxAgeDays policy * 24) * hour)
  else 0.

Module Sweep.
Section sweep.
  Context {S : Type} `{Storage S}.
  (** [AccessStore.AccessEntry] of the engine's scope: the last access. *)
  Context (AccessEntry : string → res Z).

Record state := mk_state { storage : S; result : Result; reports : list Report }.
Abbreviation M := (St state).
Definition on_storage {A} : St S A → M A :=
  zoom storage (λ v e, mk_state v (result e) (reports e)).
Definition count (f : Result → Result) : M unit :=
  st_mod (λ e, mk_state (storage e) (f (result e)) (reports e)).
Definition report (r : Report) : M unit :=
  st_mod (λ e, mk_state (storage e) (result e) (reports e ++ [r])).

Definition deleteKey (key : string) (size : Z) : M unit :=
  r ← on_storage (Delete key);
  match r with
  | Some e => if has_type is_NotFound e then mret tt else count add_Failed
  | None => count (add_Deleted size)
  end.

(** The date that decides about a version: its last access, or its upload
    when it was never accessed. *)
Definition last_access (v : version) : res Z :=
  match AccessEntry (v_key v) with
  | Ok t => Ok t
  | Err e => if has_type is_NotFound e then Ok (v_modTime v) else Err e
  end.

Inductive reason := ByAccess | ByPin | Unprotected.
Definition protection (cut : Z) (pins : gset string) (v : version) (last : Z) : reason :=
  if negb (is_zero_time cut) && negb (last <? cut) then ByAccess
  else if bool_decide (v_key v ∈ pins) then ByPin
  else Unprotected.
Definition reason_text (r : reason) : string :=
  match r with ByAccess => "access" | ByPin => "pin" | Unprotected => "" end.
Definition reason_count (r : reason) : Result → Result :=
  match r with ByAccess => add_ByAccess | ByPin => add_ByPin | Unprotected => add_Candidate end.

  Context (what : string) (policy : Retention) (pins : gset string) (now : Z)
    (dryRun reporting : bool) (family : string).

(** One version outside the newest ones: counted, reported, deleted. *)
Definition sweep_version (v : version) (last : Z) : M unit :=
  let by_ := protection (cutoff policy now) pins v last in
  count (reason_count by_);;
  (if reporting
   then report (mk_Report (v_key v) family (v_size v) (v_modTime v) last (reason_text by_))
   else mret tt);;
  match by_ with
  | Unprotected => if dryRun then mret tt else deleteKey (v_key v) (v_size v)
  | _ => mret tt
  end.

(** The loop of [sweepFamily] from the [i]-th version on. *)
Fixpoint sweep_versions (top : Z) (i : Z) (versions : list version) : M (option error) :=
  match versions with
  | [] => mret None
  | v :: versions =>
      if i <? top then count add_ByMin;; sweep_versions top (i + 1) versions
      else match last_access v with
           | Err e => mret (Some (Wrap (what +:+ ": обращение к " +:+ v_key v) e))
           | Ok last =>
               sweep_version v last;;
               sweep_versions top (i + 1) versions
           end
  end.

Definition sweepFamily (versions : list version) : M (option error) :=
  let versions := sort_versions versions in
  let n := Z.of_nat (length versions) in
  let top := if n <? MinVersions policy then n else MinVersions policy in
  sweep_versions top 0 versions.
End sweep.

Section pass.
  Context {S : Type} `{Storage S}.
  Context (AccessEntry : string → res Z) (what : string) (policy : Retention) (pins : gset string)
    (dryRun reporting : bool).
  (** The reading of [ctx.Err()] after that many objects and families. *)
  Context (ctx_Err : nat → nat → option error).
  (** The family of a listed object, [None] for objects that the pass skips. *)
  Context (family_of : string → option string).

(** [families[f] = append(families[f], v)] with the order of first sight. *)
Definition grouping : Type := gmap string (list version) * list string.
Definition add_version (g : grouping) (f : string) (v : version) : grouping :=
  let '(families, order) := g in
  match families !! f with
  | None => (<[f := [v]]> families, order ++ [f])
  | Some vs => (<[f := vs ++ [v]]> families, order)
  end.
Definition add_meta (g : grouping) (m : Meta) : grouping :=
  match family_of (mt_Key m) with
  | None => g
  | Some f => add_version g f (mk_version (mt_Key m) (mt_Size m) (mt_ModTime m))
  end.

(** The listing loop; [i] objects were seen. *)
Fixpoint group (i : nat) (metas : list Meta) (g : grouping) : St (state (S:=S)) (res grouping) :=
  match metas with
  | [] => mret (Ok g)
  | m :: metas =>
      match ctx_Err i 0 with
      | Some e => mret (Err e)
      | None => count add_Scanned;; group (Datatypes.S i) metas (add_meta g m)
      end
  end.

Fixpoint sweep_all (n i : nat) (now : Z) (families : gmap string (list version))
    (order : list string) : St (state (S:=S)) (option error) :=
  match order with
  | [] => mret None
  | f :: order =>
      match ctx_Err n i with
      | Some e => mret (Some e)
      | None =>
          count add_Families;;
          r ← sweepFamily AccessEntry what policy pins now dryRun reporting f
                (default [] (families !! f));
          match r with
          | Some e => mret (Some e)
          | None => sweep_all n (Datatypes.S i) now families order
          end
      end
  end.

(** The common tail of both [apply]s: listing, grouping, sweeping. *)
Definition sweep_prefix (prefix : string) (now : Z) : St (state (S:=S)) (option error) :=
  l ← on_storage (List prefix);
  let '(metas, lerr) := l in
  g ← group 0 metas (∅, []);
  match g with
  | Err e => mret (Some e)
  | Ok (families, order) =>
      match lerr with
      | Some e => mret (Some (Wrap (what +:+ ": листинг " +:+ prefix) e))
      | None => sweep_all (length metas) 0 now families order
      end
  end.
End pass.
End Sweep.

(** * retention.Engine *)
Module RetentionEngine.
Section engine.
  Context {S : Type} `{Storage S}.
  Context (AccessEntry : string → res Z).
  (** The family resolvers of the adapters, [Some None] for an adapter that
      resolves none (nix). *)
  Context (adapters : gmap string (option (string → option string))).
  (** [PinStore.Pins] and the adapters' [GenerateIndexes]. *)
  Context (Pins : Z → res (list string)).
  Context (GenerateIndexes : Repo → St S (option error)).
  Context (ctx_Err : nat → nat → option error).

Definition familyResolver (repo : Repo) : res (string → option string) :=
  match adapters !! repo_Ecosystem repo with
  | None => Err (UnsupportedError "retention" ("нет адаптера экосистемы " +:+ repo_Ecosystem repo))
  | Some None => Err (UnsupportedError "retention" ("экосистема " +:+ repo_Ecosystem repo +:+
      " не резолвит семейства (nix — content-addressed)"))
  | Some (Some f) => Ok f
  end.

Definition repo_family (resolver : string → option string) (prefix key : string) : option string :=
  resolver (trim_prefix key prefix).

Definition apply (repo : Repo) (now : Z) (dryRun reporting : bool) :
    St (Sweep.state (S:=S)) (option error) :=
  if negb (Enabled (repo_Retention repo)) then mret None
  else match familyResolver repo with
  | Err e => mret (Some e)
  | Ok resolver =>
      match Pins (repo_ID repo) with
      | Err e => mret (Some (Wrap "retention: пины репозитория" e))
      | Ok pinned =>
          let prefix := RepoPrefix repo +:+ "/" in
          Sweep.sweep_prefix AccessEntry "retention" (repo_Retention repo)
            (list_to_set pinned) dryRun reporting ctx_Err (repo_family resolver prefix) prefix now
      end
  end.

(** [Apply] and [Preview]; the clock is read at the start, after the listing
    and at the end. *)
Definition run (repo : Repo) (dryRun reporting : bool) (start now stop : Z) (s : S) :
    Result * list Report * option error * S :=
  let '(err, e) := apply repo now dryRun reporting (Sweep.mk_state s (new_Result dryRun) []) in
  (set_Duration (stop - start) (Sweep.result e), Sweep.reports e, err, Sweep.storage e).
Definition Apply (repo : Repo) (dryRun : bool) (start now stop : Z) (s : S) : Result * option error * S :=
  let '(r, _, err, s) := run repo dryRun false start now stop s in (r, err, s).
Definition Preview (repo : Repo) (start now stop : Z) (s : S) : Result * list Report * option error * S :=
  run repo true true start now stop s.

Definition ApplyAndReindex (repo : Repo) (dryRun : bool) (start now stop : Z) (s : S) :
    Result * option error * S :=
  let '(r, err, s) := Apply repo dryRun start now stop s in
  match err with
  | Some e => (r, Some e, s)
  | None =>
      if Deleted r =? 0 then (r, None, s)
      else match adapters !! repo_Ecosystem repo with
           | None => (r, Some (UnsupportedError "retention" ("нет адаптера экосистемы " +:+ repo_Ecosystem repo)), s)
           | Some _ => let '(err, s) := GenerateIndexes repo s in (r, err, s)
           end
  end.

(** [Runner.RunOnce]: the errors that it joins. [clock] gives the readings
    of the pass over the [i]-th repository. *)
Fixpoint run_repos (i : nat) (clock : nat → Z * Z * Z) (cancelled : nat → option error)
    (repos : list Repo) (errs : list error) (s : S) : list error * S :=
  match repos with
  | [] => (errs, s)
  | repo :: repos =>
      match cancelled i with
      | Some e => (errs ++ [e], s)
      | None =>
          if negb (Enabled (repo_Retention repo))
          then run_repos (Datatypes.S i) clock cancelled repos errs s
          else
            let '(start, now, stop) := clock i in
            let '(_, err, s) := ApplyAndReindex repo false start now stop s in
            let errs := match err with
                        | Some e => errs ++ [Wrap ("ретеншн репо " +:+ repo_Name repo) e]
                        | None => errs
                        end in
            run_repos (Datatypes.S i) clock cancelled repos errs s
      end
  end.
End engine.
End RetentionEngine.

(** * eviction.Engine *)
Module EvictionEngine.
Section engine.
  Context {S : Type} `{Storage S}.
  Context (AccessEntry : string → res Z).
  Context (adapters : gmap string (option (string → option string))).
  Context (def : Retention).
  Context (ctx_Err : nat → nat → option error).

Definition Policy (remote : Remote) : Retention :=
  match rm_Eviction remote with Some r => r | None => def end.

Definition retainedMarker : string := ".retained".
Definition isRetainedMarker (path : string) : bool :=
  let p := trim_prefix path "/" in
  String.eqb p retainedMarker || has_suffix p ("/" +:+ retainedMarker).

(** The regular expression [-v[0-9a-z]{11,}$]: some suffix is [-v] and at
    least eleven bytes of the class (the end of the text is the only place
    that [$] matches). *)
Definition version_tail (s : string) : bool :=
  match strip_prefix "-v" s with
  | Some t => (11 <=? String.length t)%nat && all_bytes (λ c, is_digit c || is_lower c) t
  | None => false
  end.
Fixpoint versionedRe (s : string) : bool :=
  version_tail s || match s with EmptyString => false | String _ s => versionedRe s end.

Definition familyResolver (remote : Remote) : res (string → option string) :=
  match adapters !! rm_Ecosystem remote with
  | None => Err (UnsupportedError "eviction" ("нет адаптера экосистемы " +:+ rm_Ecosystem remote))
  | Some None => Err (UnsupportedError "eviction" ("экосистема " +:+ rm_Ecosystem remote +:+
      " не резолвит семейства кеш-путей (nix — content-addressed)"))
  | Some (Some f) => Ok f
  end.

Definition cache_family (resolver : string → option string) (keyPrefix key : string) : option string :=
  let path := trim_prefix key keyPrefix in
  if versionedRe path || isRetainedMarker path then None else resolver path.

Definition apply (remote : Remote) (now : Z) (dryRun reporting : bool) :
    St (Sweep.state (S:=S)) (option error) :=
  if negb (Enabled (Policy remote)) then mret None
  else match rm_Mode remote with
  | ModeMirror => mret None
  | ModeProxy =>
      match familyResolver remote with
      | Err e => mret (Some e)
      | Ok resolver =>
          let keyPrefix := "cache/" +:+ rm_Ecosystem remote +:+ "/" +:+ fmt_int (rm_ID remote) in
          Sweep.sweep_prefix AccessEntry "eviction" (Policy remote) ∅ dryRun reporting ctx_Err
            (cache_family resolver keyPrefix) (keyPrefix +:+ "/") now
      end
  end.

Definition run (remote : Remote) (dryRun reporting : bool) (start now stop : Z) (s : S) :
    Result * list Report * option error * S :=
  let '(err, e) := apply remote now dryRun reporting (Sweep.mk_state s (new_Result dryRun) []) in
  (set_Duration (stop - start) (Sweep.result e), Sweep.reports e, err, Sweep.storage e).
Definition Apply (remote : Remote) (dryRun : bool) (start now stop : Z) (s : S) : Result * option error * S :=
  let '(r, _, err, s) := run remote dryRun false start now stop s in (r, err, s).
Definition Preview (remote : Remote) (start now stop : Z) (s : S) : Result * list Report * option error * S :=
  run remote true true start now stop s.

(** [Runner.RunOnce]. *)
Fixpoint run_remotes (i : nat) (clock : nat → Z * Z * Z) (cancelled : nat → option error)
    (remotes : list Remote) (errs : list error) (s : S) : list error * S :=
  match remotes with
  | [] => (errs, s)
  | remote :: remotes =>
      match cancelled i with
      | Some e => (errs ++ [e], s)
      | None =>
          if bool_decide (rm_Mode remote ≠ ModeProxy) || negb (rm_Enabled remote)
          then run_remotes (Datatypes.S i) clock cancelled remotes errs s
          else if negb (Enabled (Policy remote))
          then run_remotes (Datatypes.S i) clock cancelled remotes errs s
          else
            let '(start, now, stop) := clock i in
            let '(_, err, s) := Apply remote false start now stop s in
            let errs := match err with
                        | Some e => errs ++ [Wrap ("eviction remote " +:+ rm_Name remote) e]
                        | None => errs
                        end in
            run_remotes (Datatypes.S i) clock cancelled remotes errs s
      end
  end.
End engine.
End EvictionEngine.

(** * What a pass may delete *)
Module SweepProofs.
Import Sweep.
Section sweep.
  Context {S : Type} `{Storage S} `{!StorageLaws S}.
  Context (AccessEntry : string → res Z) (what : string) (policy : Retention) (pins : gset string)
    (now : Z) (dryRun reporting : bool).

Lemma on_storage_run {A} (op : St S A) e :
  on_storage op e = ((op (storage e)).1, mk_state (op (storage e)).2 (result e) (reports e)).
Proof. unfold on_storage, zoom. by destruct (op (storage e)). Qed.

Lemma deleteKey_contents key size e :
  contents (storage (deleteKey key size e).2) = contents (storage e) ∨
  contents (storage (deleteKey key size e).2) = delete key (contents (storage e)).
Proof.
  unfold deleteKey, mbind, st_bind. rewrite on_storage_run.
  pose proof (Delete_Some key (storage e)) as Hd.
  destruct (Delete key (storage e)).1 as [er|]; [destruct (has_type is_NotFound er)|]; exact Hd.
Qed.

Abbreviation spares := (Port.spares (λ e, contents (storage e))).

Lemma spares_ret {A} P (a : A) : spares P (mret a).
Proof. by apply spares_keeps. Qed.
Lemma spares_count P f : spares P (count f).
Proof. by apply spares_keeps. Qed.
Lemma spares_report P r : spares P (report r).
Proof. by apply spares_keeps. Qed.
Lemma spares_deleteKey (P : string → Prop) key size : P key → spares P (deleteKey key size).
Proof. apply spares_delete. apply deleteKey_contents. Qed.

(** A version that the pass may delete: outside the newest [MinVersions], not
    pinned and not accessed since the cutoff. *)
Definition unprotected (v : version) : Prop :=
  ∃ last, last_access AccessEntry v = Ok last ∧
    protection (cutoff policy now) pins v last = Unprotected.

Lemma sweep_versions_spares family top (P : string → Prop) vs : ∀ i,
  (∀ j v, vs !! j = Some v → top ≤ i + Z.of_nat j → unprotected v → dryRun = false → P (v_key v)) →
  spares P (sweep_versions AccessEntry what policy pins now dryRun reporting family top i vs).
Proof.
  induction vs as [|v vs IH]; intros i HP; cbn [sweep_versions]; [apply spares_ret|].
  assert (spares P (sweep_versions AccessEntry what policy pins now dryRun reporting family top (i + 1) vs))
    as IH'.
  { apply IH. intros j w Hj Ht. apply (HP (Datatypes.S j)); [done|lia]. }
  destruct (Z.ltb_spec i top) as [|Hi]; [by apply spares_bind; [apply spares_count|]|].
  destruct (last_access AccessEntry v) as [last|er] eqn:Hlast; [|apply spares_ret].
  apply spares_bind; [unfold sweep_version|by intros _].
  apply spares_bind; [apply spares_count|intros _].
  apply spares_bind; [destruct reporting; [apply spares_report|apply spares_ret]|intros _].
  destruct (protection _ _ _ _) eqn:Hprot; [apply spares_ret..|].
  destruct dryRun eqn:Hdry; [apply spares_ret|]. apply spares_deleteKey.
  apply (HP 0%nat v); [done|lia|by exists last|done].
Qed.

(** Removing [i]-th position of a sorted family. *)
Definition expendable (vs : list version) (v : version) : Prop :=
  ∃ i, sort_versions vs !! i = Some v ∧ MinVersions policy ≤ Z.of_nat i ∧ unprotected v.

Lemma sweepFamily_spares family vs (P : string → Prop) :
  (∀ v, expendable vs v → dryRun = false → P (v_key v)) →
  spares P (sweepFamily AccessEntry what policy pins now dryRun reporting family vs).
Proof.
  intros HP. apply sweep_versions_spares. intros j v Hj Htop Hu. apply HP.
  exists j. split_and!; [done| |done]. pose proof (lookup_lt_Some _ _ _ Hj).
  destruct (Z.ltb_spec (Z.of_nat (length (sort_versions vs))) (MinVersions policy)); lia.
Qed.
Lemma sweep_all_spares ctx_Err n families order (P : string → Prop) : ∀ i,
  (∀ f v, f ∈ order → expendable (default [] (families !! f)) v → dryRun = false → P (v_key v)) →
  spares P (sweep_all AccessEntry what policy pins dryRun reporting ctx_Err n i now families order).
Proof.
  induction order as [|f order IH]; intros i HP; cbn [sweep_all]; [apply spares_ret|].
  destruct (ctx_Err n i); [apply spares_ret|].
  apply spares_bind; [apply spares_count|intros _].
  apply spares_bind; [apply sweepFamily_spares; intros v; apply HP; by left|].
  intros [er|]; [apply spares_ret|]. apply IH. intros f' v Hf. apply HP. by right.
Qed.
End sweep.

(** * The grouping *)
Section grouping.
  Context (family_of : string → option string).

(** The versions of a family in the order of the listing. *)
Definition version_of (m : Meta) : version := mk_version (mt_Key m) (mt_Size m) (mt_ModTime m).
Definition versions_of (f : string) (metas : list Meta) : list version :=
  omap (λ m, if bool_decide (family_of (mt_Key m) = Some f) then Some (version_of m) else None) metas.

Record grouped (metas : list Meta) (g : grouping) : Prop := {
  gr_versions f : default [] (g.1 !! f) = versions_of f metas;
  gr_order f : f ∈ g.2 ↔ is_Some (g.1 !! f);
  gr_nodup : NoDup g.2
}.
Lemma versions_of_snoc f metas m :
  versions_of f (metas ++ [m]) = versions_of f metas ++
    (if bool_decide (family_of (mt_Key m) = Some f) then [version_of m] else []).
Proof.
  unfold versions_of. rewrite omap_app. f_equal. simpl. by case_bool_decide.
Qed.
Lemma grouped_add metas g m : grouped metas g → grouped (metas ++ [m]) (add_meta family_of g m).
Proof.
  destruct g as [fam ord]. intros [Hv Ho Hn]. unfold add_meta, add_version. simpl in *.
  destruct (family_of (mt_Key m)) as [f|] eqn:Hf.
  - assert (∀ f', f ≠ f' → versions_of f' (metas ++ [m]) = versions_of f' metas) as Hne.
    { intros f' Hne. rewrite versions_of_snoc, Hf. case_bool_decide; [congruence|].
      by rewrite (right_id_L [] (++)). }
    destruct (fam !! f) as [vs|] eqn:Hfam; split; simpl.
    + intros f'. destruct (decide (f = f')) as [<-|]; [|by rewrite lookup_insert_ne, Hne].
      rewrite lookup_insert_eq, versions_of_snoc, Hf, <- Hv, Hfam. simpl.
      by rewrite bool_decide_true.
    + intros f'. rewrite Ho, lookup_insert_is_Some'. split; [by right|]. intros [<-|?]; eauto.
    + done.
    + intros f'. destruct (decide (f = f')) as [<-|]; [|by rewrite lookup_insert_ne, Hne].
      rewrite lookup_insert_eq, versions_of_snoc, Hf, <- Hv, Hfam. simpl.
      by rewrite bool_decide_true.
    + intros f'. rewrite elem_of_app, list_elem_of_singleton, lookup_insert_is_Some', Ho.
      naive_solver.
    + apply NoDup_app. split_and!; [done| |apply NoDup_singleton].
      intros f' Hf'%Ho ->%list_elem_of_singleton. rewrite Hfam in Hf'. by destruct Hf'.
  - split; simpl; [|done|done]. intros f. rewrite versions_of_snoc, Hf.
    case_bool_decide; [done|]. by rewrite (right_id_L [] (++)).
Qed.
Lemma grouped_foldl metas : grouped metas (foldl (add_meta family_of) (∅, []) metas).
Proof.
  induction metas as [|m metas IH] using rev_ind.
  - split; simpl; [intros f; by rewrite lookup_empty| |constructor].
    intros f. rewrite lookup_empty. split; [by intros ?%elem_of_nil|by intros []].
  - rewrite foldl_app. by apply grouped_add.
Qed.
End grouping.
End SweepProofs.

Module PassProofs.
Import Sweep SweepProofs.
Section pass.
  Context {S : Type} `{Storage S} `{!StorageLaws S}.
  Context (AccessEntry : string → res Z) (what : string) (policy : Retention) (pins : gset string)
    (dryRun reporting : bool) (ctx_Err : nat → nat → option error)
    (family_of : string → option string).

Lemma group_run metas : ∀ i g (e : state (S:=S)),
  ∃ r res', group ctx_Err family_of i metas g e = (r, mk_state (storage e) res' (reports e)) ∧
    (∀ g', r = Ok g' → g' = foldl (add_meta family_of) g metas).
Proof.
  induction metas as [|m metas IH]; intros i g e; cbn [group].
  - exists (Ok g), (result e). split; [by destruct e|]. by intros g' [= <-].
  - destruct (ctx_Err i 0) as [er|].
    + exists (Err er), (result e). split; [by destruct e|done].
    + destruct (IH (Datatypes.S i) (add_meta family_of g m)
        (mk_state (storage e) (add_Scanned (result e)) (reports e))) as (r & rs & E & Hr).
      exists r, rs. split; [exact E|done].
Qed.

(** The objects that a pass with this listing may delete: the versions of a
    family outside its newest [MinVersions] that nothing protects. *)
Definition may_delete (metas : list Meta) (now : Z) (k : string) : Prop :=
  dryRun = false ∧ ∃ f v,
    expendable AccessEntry policy pins now (versions_of family_of f metas) v ∧ v_key v = k.

Lemma sweep_prefix_spares prefix now e k :
  let e' := (sweep_prefix AccessEntry what policy pins dryRun reporting ctx_Err family_of prefix now e).2 in
  contents (storage e') !! k = contents (storage e) !! k ∨
  (List prefix (storage e)).1.2 = None ∧
  may_delete (List prefix (storage e)).1.1 now k ∧ contents (storage e') !! k = None.
Proof.
  unfold sweep_prefix, mbind, st_bind. rewrite on_storage_run.
  pose proof (List_keeps prefix (storage e)) as Hl.
  destruct (List prefix (storage e)) as [[metas lerr] s1]. cbn [fst snd] in *.
  destruct (group_run metas 0 (∅, []) (mk_state s1 (result e) (reports e))) as (r & rs & -> & Hr).
  destruct r as [[families order]|er]; [|left; by rewrite <- Hl].
  destruct lerr as [er|]; [left; by rewrite <- Hl|].
  specialize (Hr _ eq_refl). pose proof (grouped_foldl family_of metas) as [Hv _ _].
  rewrite <- Hr in Hv. simpl in Hv.
  assert (∀ f v, f ∈ order →
    expendable AccessEntry policy pins now (default [] (families !! f)) v → dryRun = false →
    may_delete metas now (v_key v)) as Hexp.
  { intros f v _ Hexp Hdry. split; [done|]. exists f, v. by rewrite <- Hv. }
  destruct (sweep_all_spares AccessEntry what policy pins now dryRun reporting ctx_Err
    (length metas) families order (may_delete metas now) 0 Hexp
    (mk_state s1 rs (reports e)) k) as [Hs|[Hm Hk]].
  - left. etrans; [exact Hs|]. cbn. by rewrite Hl.
  - right. split_and!; [done|done|exact Hk].
Qed.

(** Distinct keys: a version of the newest [MinVersions] is not expendable. *)
Lemma versions_of_keys f metas : v_key <$> versions_of family_of f metas =
  List.filter (λ k, bool_decide (family_of k = Some f)) (mt_Key <$> metas).
Proof.
  induction metas as [|m metas IH]; [done|]. unfold versions_of in *. csimpl.
  case_bool_decide; csimpl; by rewrite IH.
Qed.
Lemma sorted_keys_distinct f metas i j v w :
  NoDup (mt_Key <$> metas) →
  sort_versions (versions_of family_of f metas) !! i = Some v →
  sort_versions (versions_of family_of f metas) !! j = Some w →
  v_key v = v_key w → i = j.
Proof.
  intros Hnd Hi Hj Hk.
  assert (NoDup (v_key <$> sort_versions (versions_of family_of f metas))) as Hnd'.
  { unfold sort_versions. rewrite merge_sort_Permutation, versions_of_keys. by apply NoDup_List_filter. }
  eapply NoDup_lookup; [exact Hnd'|by rewrite list_lookup_fmap, Hi|].
  by rewrite list_lookup_fmap, Hj, Hk.
Qed.
Lemma version_family f metas v :
  v ∈ versions_of family_of f metas → family_of (v_key v) = Some f.
Proof.
  unfold versions_of. intros (m & _ & Hm)%list_elem_of_omap.
  case_bool_decide as Hf; [|done]. by injection Hm as <-.
Qed.
Lemma newest_not_deleted metas now f i v :
  NoDup (mt_Key <$> metas) →
  sort_versions (versions_of family_of f metas) !! i = Some v →
  Z.of_nat i < MinVersions policy → ¬ may_delete metas now (v_key v).
Proof.
  intros Hnd Hi Hmin (_ & f' & w & (j & Hj & Hge & _) & Hk).
  assert (f' = f) as ->.
  { assert (∀ g u n, sort_versions (versions_of family_of g metas) !! n = Some u →
      family_of (v_key u) = Some g) as Hfam.
    { intros g u n Hu%list_elem_of_lookup_2. unfold sort_versions in Hu.
      rewrite merge_sort_Permutation in Hu. by apply version_family in Hu. }
    apply Hfam in Hi, Hj. congruence. }
  assert (j = i) by by eapply (sorted_keys_distinct f metas). subst. lia.
Qed.
End pass.
End PassProofs.

(** * The age limit *)
Lemma cutoff_exact policy now :
  0 < MaxAgeDays policy ≤ 106751 → cutoff policy now = now - MaxAgeDays policy * day.
Proof.
  intros Hd. unfold cutoff, day, hour, minute, second. destruct (Z.ltb_spec 0 (MaxAgeDays policy)); [|lia].
  rewrite (wrap64_small (- MaxAgeDays policy * 24)) by (unfold in_int64, min_int64, max_int64; lia).
  rewrite wrap64_small by (unfold in_int64, min_int64, max_int64; lia). lia.
Qed.

(** Up to 106751 days (292 years) the cutoff is exactly [now] less the
    policy's days. From 106752 days on, which [ValidateRetention] accepts,
    the 64-bit product overflows: the cutoff lies two centuries in the
    future, so no access protects a version any more. *)
Theorem cutoff_range (policy : Retention) (now : Z) :
  (0 < MaxAgeDays policy ≤ 106751 → cutoff policy now = now - MaxAgeDays policy * day) ∧
  ValidateRetention (mk_Retention 2 106752) = None ∧
  now + 200 * 365 * day < cutoff (mk_Retention 2 106752) now.
Proof.
  split_and!; [apply cutoff_exact|reflexivity|].
  change (cutoff (mk_Retention 2 106752) now) with
    (now + wrap64 (wrap64 (- 106752 * 24) * hour)).
  assert (200 * 365 * day < wrap64 (wrap64 (- 106752 * 24) * hour)) by (vm_compute; reflexivity). lia.
Qed.
Lemma cutoff_range_witness : cutoff (mk_Retention 2 30) 1000 = 1000 - 30 * day.
Proof. apply (proj1 (cutoff_range (mk_Retention 2 30) 1000)). simpl. lia. Defined.

Module RetentionProps.
Import Sweep SweepProofs PassProofs RetentionEngine.
Section engine.
  Context {S : Type} `{Storage S} `{!StorageLaws S}.
  Context (AccessEntry : string → res Z).

Lemma unprotected_spec policy pins now v :
  unprotected AccessEntry policy pins now v ↔
  ∃ last, last_access AccessEntry v = Ok last ∧ (v_key v ∉ pins) ∧
    (cutoff policy now = 0 ∨ last < cutoff policy now).
Proof.
  unfold unprotected, protection, is_zero_time.
  assert (∀ last, (if negb (bool_decide (cutoff policy now = 0)) && negb (last <? cutoff policy now)
      then ByAccess else if bool_decide (v_key v ∈ pins) then ByPin else Unprotected) = Unprotected ↔
    (v_key v ∉ pins) ∧ (cutoff policy now = 0 ∨ last < cutoff policy now)) as Hx.
  { intros last. case_bool_decide; case_bool_decide; simpl;
      destruct (Z.ltb_spec last (cutoff policy now)); simpl; split; try done;
      intros; destruct_and?; try tauto; try (split; [done|]; tauto); destruct_or?; lia. }
  by setoid_rewrite Hx.
Qed.

  Context (adapters : gmap string (option (string → option string))).
  Context (Pins : Z → res (list string)).
  Context (ctx_Err : nat → nat → option error).

(** The versions of one family of the repository, as a listing shows them. *)
Definition family_versions (resolver : string → option string) (repo : Repo) (f : string) (s : S) :=
  sort_versions (versions_of (repo_family resolver (RepoPrefix repo +:+ "/")) f
    (List (RepoPrefix repo +:+ "/") s).1.1).

Lemma Apply_frame repo dryRun start now stop s r err s' k :
  Apply AccessEntry adapters Pins ctx_Err repo dryRun start now stop s = (r, err, s') →
  contents s' !! k = contents s !! k ∨
  ∃ resolver pinned, familyResolver adapters repo = Ok resolver ∧ Pins (repo_ID repo) = Ok pinned ∧
    Enabled (repo_Retention repo) = true ∧
    (List (RepoPrefix repo +:+ "/") s).1.2 = None ∧ contents s' !! k = None ∧
    may_delete AccessEntry (repo_Retention repo) (list_to_set pinned) dryRun
      (repo_family resolver (RepoPrefix repo +:+ "/")) (List (RepoPrefix repo +:+ "/") s).1.1 now k.
Proof.
  unfold Apply, run, apply. destruct (Enabled _) eqn:Hen; simpl; [|intros [= <- <- <-]; by left].
  destruct (familyResolver adapters repo) as [resolver|]; [|intros [= <- <- <-]; by left].
  destruct (Pins (repo_ID repo)) as [pinned|]; [|intros [= <- <- <-]; by left].
  match goal with |- context [sweep_prefix ?a ?b ?c ?d ?e ?f ?g ?h ?p ?n ?st] =>
    pose proof (sweep_prefix_spares a b c d e f g h p n st k) as Hs;
    destruct (sweep_prefix a b c d e f g h p n st) as [er e1] end.
  intros [= <- <- <-]. simpl in Hs. destruct Hs as [?|(Hl & Hm & Hk)]; [by left|].
  right. by exists resolver, pinned.
Qed.

(** C4: whatever a retention pass changes in the storage is the deletion, in a
    real pass with a complete listing, of a version of the repository that
    none of the three protections covers: it is not among the newest
    [MinVersions] of its family by upload date, it is not pinned, and its
    last access (its upload date when there was none) lies before the cutoff
    unless there is none. This holds for failed passes too. *)
Theorem retention_deletes_only_unprotected repo dryRun start now stop s r err s' k :
  Apply AccessEntry adapters Pins ctx_Err repo dryRun start now stop s = (r, err, s') →
  contents s' !! k ≠ contents s !! k →
  dryRun = false ∧ contents s' !! k = None ∧ (List (RepoPrefix repo +:+ "/") s).1.2 = None ∧
  ∃ resolver pinned f i v last,
    familyResolver adapters repo = Ok resolver ∧ Pins (repo_ID repo) = Ok pinned ∧
    family_versions resolver repo f s !! i = Some v ∧ v_key v = k ∧
    0 < MinVersions (repo_Retention repo) ≤ Z.of_nat i ∧ (k ∉ pinned) ∧
    last_access AccessEntry v = Ok last ∧
    (cutoff (repo_Retention repo) now = 0 ∨ last < cutoff (repo_Retention repo) now).
Proof.
  intros Hap Hne. destruct (Apply_frame _ _ _ _ _ _ _ _ _ k Hap) as [?|(resolver & pinned & Hr & Hp & Hen & Hl & Hk & Hm)]; [done|].
  destruct Hm as (-> & f & v & (i & Hi & Hmin & Hun) & Hv).
  apply unprotected_spec in Hun as (last & Hla & Hpin & Hcut).
  split_and!; [done..|]. exists resolver, pinned, f, i, v, last.
  apply Z.ltb_lt in Hen. split_and!; try done.
  intros Hin. apply Hpin. rewrite Hv. by apply elem_of_list_to_set.
Qed.

(** C5: a pass keeps the newest [MinVersions] versions of every family: the
    storage still holds each of them, with its bytes, whatever else fails. *)
Theorem retention_keeps_newest repo dryRun start now stop s r err s' resolver f i v :
  Apply AccessEntry adapters Pins ctx_Err repo dryRun start now stop s = (r, err, s') →
  familyResolver adapters repo = Ok resolver →
  family_versions resolver repo f s !! i = Some v →
  Z.of_nat i < MinVersions (repo_Retention repo) →
  contents s' !! v_key v = contents s !! v_key v.
Proof.
  intros Hap Hr Hi Hmin.
  destruct (Apply_frame _ _ _ _ _ _ _ _ _ (v_key v) Hap) as [?|(resolver' & pinned & Hr' & _ & _ & _ & _ & Hm)]; [done|].
  rewrite Hr in Hr'. injection Hr' as <-. exfalso. revert Hm.
  eapply newest_not_deleted; [apply List_nodup|exact Hi|done].
Qed.
End engine.
End RetentionProps.

(** * The counters of a pass *)
Module CounterProofs.
Import Sweep SweepProofs PassProofs.
Section counters.
  Context {S : Type} `{Storage S} `{!StorageLaws S}.
  Context (AccessEntry : string → res Z) (what : string) (policy : Retention) (pins : gset string)
    (dryRun reporting : bool) (ctx_Err : nat → nat → option error)
    (family_of : string → option string).

(** The versions that a pass has put into one of the four counters. *)
Definition classified (r : Result) : Z :=
  ProtectedByMin r + ProtectedByAccess r + ProtectedByPin r + Candidates r.
(** [n] more versions were classified between two results, deletions were
    attempted for candidates only, and only in a real pass. *)
Definition advances (n : Z) (r r' : Result) : Prop :=
  classified r' = classified r + n ∧
  Candidates r ≤ Candidates r' ∧
  0 ≤ (Deleted r' + FailedDeletes r') - (Deleted r + FailedDeletes r) ≤ Candidates r' - Candidates r ∧
  (dryRun = true → Deleted r' + FailedDeletes r' = Deleted r + FailedDeletes r).

Lemma advances_refl r : advances 0 r r.
Proof. unfold advances. lia. Qed.
Lemma advances_trans n m r1 r2 r3 :
  advances n r1 r2 → advances m r2 r3 → advances (n + m) r1 r3.
Proof. unfold advances. intros (? & ? & ? & Hx) (? & ? & ? & Hy). split_and!; try lia. intros Hd. rewrite Hy, Hx; done. Qed.

Lemma deleteKey_result key size (e : state (S:=S)) :
  let r := result e in let r' := result (deleteKey key size e).2 in
  classified r' = classified r ∧ Candidates r' = Candidates r ∧
  Deleted r + FailedDeletes r ≤ Deleted r' + FailedDeletes r' ≤ Deleted r + FailedDeletes r + 1.
Proof.
  unfold deleteKey, mbind, st_bind. rewrite on_storage_run.
  destruct (Delete key (storage e)).1 as [er|]; [destruct (has_type is_NotFound er)|];
    unfold classified; simpl; lia.
Qed.

Lemma sweep_version_result now family v last (e : state (S:=S)) :
  advances 1 (result e) (result (sweep_version policy pins now dryRun reporting family v last e).2).
Proof.
  unfold sweep_version, mbind, st_bind. cbn [count st_mod]. set (by_ := protection _ _ _ _).
  set (e1 := mk_state (storage e) (reason_count by_ (result e)) (reports e)).
  assert (∃ e2, (if reporting
     then report (mk_Report (v_key v) family (v_size v) (v_modTime v) last (reason_text by_))
     else mret tt) e1 = (tt, e2) ∧ result e2 = result e1) as (e2 & -> & He2).
  { destruct reporting; by eexists. }
  unfold advances. destruct by_.
  1,2: simpl; rewrite He2; unfold e1, classified; simpl; lia.
  destruct dryRun eqn:Hdry; [simpl; rewrite He2; unfold e1, classified; simpl; lia|].
  pose proof (deleteKey_result (v_key v) (v_size v) e2) as (Hc & Hca & Hd). rewrite He2 in *.
  rewrite Hc, Hca. unfold e1, classified in *. simpl in *. split_and!; [lia..|done].
Qed.

Lemma sweep_versions_result now family top vs : ∀ i (e : state (S:=S)),
  let '(err, e') := sweep_versions AccessEntry what policy pins now dryRun reporting family top i vs e in
  err = None → advances (Z.of_nat (length vs)) (result e) (result e').
Proof.
  induction vs as [|v vs IH]; intros i e; cbn [sweep_versions].
  { intros _. apply advances_refl. }
  replace (Z.of_nat (length (v :: vs))) with (1 + Z.of_nat (length vs)) by (simpl; lia).
  destruct (i <? top).
  { specialize (IH (i + 1) (mk_state (storage e) (add_ByMin (result e)) (reports e))).
    unfold mbind, st_bind. cbn [count st_mod].
    destruct (sweep_versions _ _ _ _ _ _ _ _ _ _ _ _) as [er e']. intros ->.
    eapply advances_trans; [|by apply IH]. unfold advances, classified. simpl. lia. }
  destruct (last_access AccessEntry v) as [last|er]; [|done].
  pose proof (sweep_version_result now family v last e) as Hstep.
  unfold mbind, st_bind. destruct (sweep_version _ _ _ _ _ _ _ _ e) as [u e2].
  simpl in Hstep. specialize (IH (i + 1) e2).
  destruct (sweep_versions _ _ _ _ _ _ _ _ _ _ _ e2) as [er e']. intros ->.
  eapply advances_trans; [exact Hstep|by apply IH].
Qed.
Lemma sweepFamily_result now family vs (e : state (S:=S)) :
  let '(err, e') := sweepFamily AccessEntry what policy pins now dryRun reporting family vs e in
  err = None → advances (Z.of_nat (length vs)) (result e) (result e').
Proof.
  assert (length (sort_versions vs) = length vs) as <-.
  { apply Permutation_length, merge_sort_Permutation. }
  apply sweep_versions_result.
Qed.

Lemma advances_Families n r r' : advances n (add_Families r) r' → advances n r r'.
Proof. done. Qed.
Definition total (families : gmap string (list version)) (order : list string) : Z :=
  foldr (λ f n, Z.of_nat (length (default [] (families !! f))) + n) 0 order.
Lemma sweep_all_result now families n order : ∀ i (e : state (S:=S)),
  let '(err, e') := sweep_all AccessEntry what policy pins dryRun reporting ctx_Err n i now families order e in
  err = None → advances (total families order) (result e) (result e').
Proof.
  induction order as [|f order IH]; intros i e; cbn [sweep_all].
  { intros _. apply advances_refl. }
  destruct (ctx_Err n i); [done|]. unfold mbind, st_bind. cbn [count st_mod].
  pose proof (sweepFamily_result now f (default [] (families !! f))
    (mk_state (storage e) (add_Families (result e)) (reports e))) as Hf.
  destruct (sweepFamily _ _ _ _ _ _ _ _ _ _) as [[er|] e1]; [done|].
  specialize (IH (Datatypes.S i) e1). destruct (sweep_all _ _ _ _ _ _ _ _ _ _ _ _ e1) as [er e'].
  intros ->. cbn [total foldr]. eapply advances_trans; [|by apply IH].
  apply advances_Families. by apply Hf.
Qed.

Lemma total_fresh (families : gmap string (list version)) f vs order :
  f ∉ order → total (<[f := vs]> families) order = total families order.
Proof.
  induction order as [|g order IH]; [done|]. rewrite not_elem_of_cons. intros [Hfg Hf].
  cbn [total foldr]. rewrite lookup_insert_ne by done. unfold total in IH. by rewrite IH.
Qed.
Lemma total_app (families : gmap string (list version)) o1 o2 :
  total families (o1 ++ o2) = total families o1 + total families o2.
Proof.
  unfold total. induction o1 as [|f o1 IH]; cbn [app foldr]; [lia|].
  change ((f :: o1) ++ o2) with (f :: (o1 ++ o2)). cbn [foldr]. rewrite IH. lia.
Qed.
Lemma total_single (families : gmap string (list version)) f :
  total families [f] = Z.of_nat (length (default [] (families !! f))).
Proof. unfold total. simpl. lia. Qed.
Lemma total_snoc (families : gmap string (list version)) f vs v order :
  NoDup order → f ∈ order → families !! f = Some vs →
  total (<[f := vs ++ [v]]> families) order = total families order + 1.
Proof.
  intros Hnd Hf Hvs. apply list_elem_of_split in Hf as (o1 & o2 & ->).
  apply NoDup_app in Hnd as (_ & Hd & Hnd). apply NoDup_cons in Hnd as [Hn2 _].
  assert (f ∉ o1) as Hn1 by (intros Hin; apply (Hd f Hin); by left).
  change (f :: o2) with ([f] ++ o2). rewrite !total_app, (total_fresh _ _ _ o1), (total_fresh _ _ _ o2) by done.
  rewrite !total_single, lookup_insert_eq, Hvs. simpl. rewrite length_app. simpl. lia.
Qed.

(** The objects of a listing that belong to a family. *)
Definition members (metas : list Meta) : list Meta :=
  List.filter (λ m, bool_decide (is_Some (family_of (mt_Key m)))) metas.
Lemma total_grouped metas :
  let g := foldl (add_meta family_of) (∅, []) metas in
  total g.1 g.2 = Z.of_nat (length (members metas)).
Proof.
  induction metas as [|m metas IH] using rev_ind; [done|].
  rewrite foldl_app. cbv zeta in *. simpl. pose proof (grouped_foldl family_of metas) as [Hv Ho Hn].
  destruct (foldl _ _ metas) as [fam ord]. simpl in *. unfold members in *.
  rewrite List.filter_app, length_app. cbn [List.filter].
  unfold add_meta, add_version. destruct (family_of (mt_Key m)) as [f|] eqn:Hf; simpl; [|lia].
  destruct (fam !! f) as [vs|] eqn:Hfam; simpl.
  - rewrite (total_snoc fam f vs); [lia|done| |done]. apply Ho. by eexists.
  - assert (f ∉ ord) by (rewrite Ho, Hfam; by intros []).
    rewrite total_app, total_fresh, total_single, lookup_insert_eq by done. simpl. lia.
Qed.
End counters.
End CounterProofs.

Module CounterProps.
Import Sweep SweepProofs PassProofs RetentionEngine CounterProofs.
Section counters.
  Context {S : Type} `{Storage S} `{!StorageLaws S}.
  Context (AccessEntry : string → res Z).
  Context (adapters : gmap string (option (string → option string))).
  Context (Pins : Z → res (list string)).
  Context (ctx_Err : nat → nat → option error).

Lemma group_result family_of metas : ∀ i g (e : state (S:=S)) g' e',
  group ctx_Err family_of i metas g e = (Ok g', e') →
  let r := result e in let r' := result e' in
  classified r' = classified r ∧ Candidates r' = Candidates r ∧ Deleted r' = Deleted r ∧
  FailedDeletes r' = FailedDeletes r ∧ ObjectsScanned r' = ObjectsScanned r + Z.of_nat (length metas).
Proof.
  induction metas as [|m metas IH]; intros i g e g' e'; cbn [group length].
  - intros [= <- <-]. unfold classified. simpl. lia.
  - destruct (ctx_Err i 0); [done|].
    intros (Hc & Hca & Hd & Hf & Hs)%IH. unfold classified in *. simpl in *. lia.
Qed.
Lemma advances_Scanned dry families order ce n (i : nat) now what policy pins reporting (e : state (S:=S)) :
  ObjectsScanned (result (sweep_all AccessEntry what policy pins dry reporting ce n i now families order e).2) =
  ObjectsScanned (result e).
Proof.
  assert (∀ key size, keeps (λ e : state (S:=S), ObjectsScanned (result e)) (deleteKey key size)) as Hdel.
  { intros key size e0. unfold deleteKey, mbind, st_bind. rewrite on_storage_run.
    destruct (Delete key (storage e0)).1 as [er|]; [destruct (has_type is_NotFound er)|]; done. }
  assert (∀ f top vs j, keeps (λ e : state (S:=S), ObjectsScanned (result e))
    (sweep_versions AccessEntry what policy pins now dry reporting f top j vs)) as Hsv.
  { intros f top vs. induction vs as [|v vs IH]; intros j; cbn [sweep_versions]; [done|].
    destruct (j <? top); [by apply keeps_bind|]. destruct (last_access _ v) as [last|]; [|done].
    apply keeps_bind; [|done]. unfold sweep_version. apply keeps_bind; [by destruct (protection _ _ _ _)|intros _].
    apply keeps_bind; [by destruct reporting|intros _].
    destruct (protection _ _ _ _); [done..|]. by destruct dry. }
  revert i e. induction order as [|f order IH]; intros i e; cbn [sweep_all]; [done|].
  destruct (ce n i); [done|]. unfold mbind, st_bind. cbn [count st_mod].
  set (e1 := mk_state _ _ _).
  assert (ObjectsScanned (result (sweepFamily AccessEntry what policy pins now dry reporting f
    (default [] (families !! f)) e1).2) = ObjectsScanned (result e)) as Hf by (unfold sweepFamily; exact (Hsv _ _ _ _ e1)).
  destruct (sweepFamily _ _ _ _ _ _ _ _ _ e1) as [[er|] e2]; simpl in Hf; [done|]. by rewrite IH.
Qed.

(** The counters of a successful retention pass add up: every listed
    object is scanned, every object of a family is in exactly one of the
    counters of protected versions and candidates, no more deletions than
    candidates are attempted, and none in a dry run. *)
Theorem retention_counters_partition repo dryRun start now stop s r s' resolver :
  Apply AccessEntry adapters Pins ctx_Err repo dryRun start now stop s = (r, None, s') →
  Enabled (repo_Retention repo) = true →
  familyResolver adapters repo = Ok resolver →
  let prefix := RepoPrefix repo +:+ "/" in
  let metas := (List prefix s).1.1 in
  ObjectsScanned r = Z.of_nat (length metas) ∧
  ProtectedByMin r + ProtectedByAccess r + ProtectedByPin r + Candidates r =
    Z.of_nat (length (members (repo_family resolver prefix) metas)) ∧
  0 ≤ Deleted r + FailedDeletes r ≤ Candidates r ∧
  (dryRun = true → Deleted r + FailedDeletes r = 0).
Proof.
  intros Hap Hen Hres. cbv zeta. set (prefix := RepoPrefix repo +:+ "/") in *.
  revert Hap. unfold Apply, run, apply. rewrite Hen, Hres. fold prefix. cbn [negb].
  destruct (Pins (repo_ID repo)) as [pinned|]; [|done].
  unfold sweep_prefix, mbind, st_bind. rewrite on_storage_run. cbn [storage].
  destruct (List prefix s) as [[metas lerr] s1]. cbn [fst snd result reports].
  set (e1 := mk_state s1 (new_Result dryRun) []).
  destruct (group_run ctx_Err (repo_family resolver prefix) metas 0 (∅, []) e1) as (g & rs & Hg & Hfold).
  pose proof (group_result (repo_family resolver prefix) metas 0 (∅, []) e1) as Hgr.
  rewrite Hg in *. destruct g as [[families order]|]; [|done].
  specialize (Hfold _ eq_refl). specialize (Hgr _ _ eq_refl).
  destruct lerr; [done|]. set (e2 := mk_state _ rs _) in *.
  pose proof (sweep_all_result AccessEntry "retention" (repo_Retention repo) (list_to_set pinned)
    dryRun false ctx_Err now families (length metas) order 0 e2) as Hall.
  pose proof (advances_Scanned dryRun families order ctx_Err (length metas) 0 now "retention"
    (repo_Retention repo) (list_to_set pinned) false e2) as Hsc.
  destruct (sweep_all _ _ _ _ _ _ _ _ _ _ _ _ e2) as [err e3]. intros [= <- -> <-].
  specialize (Hall eq_refl). pose proof (total_grouped (repo_family resolver prefix) metas) as Ht.
  rewrite <- Hfold in Ht. simpl in Ht. unfold advances, classified in *. simpl in *.
  destruct Hgr as (Hg1 & Hg2 & Hg3 & Hg4 & Hg5), Hall as (Ha1 & Ha2 & Ha3 & Ha4).
  split_and!; [lia..|]. intros Hd. specialize (Ha4 Hd). lia.
Qed.
End counters.
End CounterProps.

(** * A concrete repository *)
Module RetentionDemo.
Import RetentionEngine.
Definition obj (data : string) (t : Z) : string * Z := (data, t).
(** Three versions of [a] and one of [b], uploaded at 1, 2, 3 and 9. *)
Definition store : FakeStorage := mk_FakeStorage
  (<["repo/1/apt/a_1" := obj "x" 1]> (<["repo/1/apt/a_2" := obj "xy" 2]>
   (<["repo/1/apt/a_3" := obj "xyz" 3]> (<["repo/1/apt/b_1" := obj "b" 9]>
   (<["repo/1/apt/Release" := obj "r" 9]> ∅))))) 0.
Definition before_underscore (s : string) : option string :=
  let '(l, _, found) := cut "_" s in if found : bool then Some l else None.
Definition one_family (s : string) : option string :=
  let '(_, _, found) := cut "_" s in if found : bool then Some "ab" else None.
Definition adapters (f : string → option string) : gmap string (option (string → option string)) :=
  <["apt" := Some f]> ∅.
Definition no_access (k : string) : res Z := Err (NotFoundError "обращение" k).
Definition pins (_ : Z) : res (list string) := Ok ["repo/1/apt/a_1"].
Definition no_pins (_ : Z) : res (list string) := Ok [].
Definition never (_ _ : nat) : option error := None.
Definition repo : Repo := mk_Repo 1 1 "r" "apt" (mk_Quota 0 0) (mk_Retention 1 0) 0.
Definition pass := Apply no_access (adapters before_underscore) pins never repo false 100 100 101 store.

Example pass_keys : sorted_keys (objects pass.2) =
  ["repo/1/apt/Release"; "repo/1/apt/a_1"; "repo/1/apt/a_3"; "repo/1/apt/b_1"].
Proof. vm_compute. reflexivity. Qed.

Lemma pass_split : Apply no_access (adapters before_underscore) pins never repo false 100 100 101 store =
  (pass.1.1, pass.1.2, pass.2).
Proof. vm_compute. reflexivity. Qed.

Lemma retention_deletes_only_unprotected_witness :
  ∃ v i, v_key v = "repo/1/apt/a_2" ∧ 0 < 1 ≤ Z.of_nat i ∧
    RetentionProps.family_versions before_underscore repo "a" store !! i = Some v.
Proof.
  destruct (RetentionProps.retention_deletes_only_unprotected no_access (adapters before_underscore)
    pins never repo false 100 100 101 store pass.1.1 pass.1.2 pass.2 "repo/1/apt/a_2" pass_split)
    as (_ & _ & _ & resolver & pinned & f & i & v & last & Hr & _ & Hv & Hk & Hi & _).
  - vm_compute. discriminate.
  - vm_compute in Hr. injection Hr as <-. exists v, i. split; [exact Hk|]. split; [exact Hi|].
    assert (f = "a") as ->; [|exact Hv].
    apply list_elem_of_lookup_2 in Hv. unfold RetentionProps.family_versions, sort_versions in Hv.
    rewrite merge_sort_Permutation in Hv. apply PassProofs.version_family in Hv. rewrite Hk in Hv.
    vm_compute in Hv. by injection Hv as <-.
Defined.

Lemma retention_keeps_newest_witness : contents pass.2 !! "repo/1/apt/a_3" = Some "xyz".
Proof.
  refine (eq_trans (RetentionProps.retention_keeps_newest no_access (adapters before_underscore)
    pins never repo false 100 100 101 store pass.1.1 pass.1.2 pass.2 before_underscore "a" 0
    (mk_version "repo/1/apt/a_3" 3 3) pass_split _ _ _) _); vm_compute; reflexivity.
Defined.

Lemma retention_counters_partition_witness :
  ProtectedByMin pass.1.1 = 2 ∧ ProtectedByPin pass.1.1 = 1 ∧ Deleted pass.1.1 = 1 ∧
  ObjectsScanned pass.1.1 = 5.
Proof.
  split; [vm_compute; reflexivity|]. split; [vm_compute; reflexivity|].
  split; [vm_compute; reflexivity|].
  refine (proj1 (CounterProps.retention_counters_partition no_access (adapters before_underscore)
    pins never repo false 100 100 101 store pass.1.1 pass.2 before_underscore pass_split _ _));
    vm_compute; reflexivity.
Defined.

(** Merging two packages into one family is not the conservative side:
    with [MinVersions] = 1 and separate families the only version of [b] and
    the newest of [a] survive, while with a common family the newest version
    of [a] is deleted too, although nothing about [a] changed. *)
Theorem merged_family_protects_less :
  let keys resolver := sorted_keys (objects
    (Apply no_access (adapters resolver) no_pins never repo false 100 100 101 store).2) in
  keys before_underscore = ["repo/1/apt/Release"; "repo/1/apt/a_3"; "repo/1/apt/b_1"] ∧
  keys one_family = ["repo/1/apt/Release"; "repo/1/apt/b_1"].
Proof. vm_compute. split; reflexivity. Qed.
End RetentionDemo.
