(* ===== verification/Eviction.v ===== *)
(** What an eviction pass may delete, and that the keys of the cache engine's
    versions are never among it. The engine itself is [EvictionEngine] of
    Retention.v. *)
From S2P Require Import Prelude GoStr Domain Port CacheEngine Retention.
Local Open Scope Z_scope.

Module EvictionProps.
Import Sweep SweepProofs PassProofs EvictionEngine.

(** ** The filter of versioned keys and the keys of the cache engine *)
Lemma versionedRe_app a s : versionedRe s = true → versionedRe (a +:+ s) = true.
Proof.
  intros Hs. induction a as [|c a IH]; [done|].
  change (String c a +:+ s) with (String c (a +:+ s)). simpl. by rewrite IH, orb_true_r.
Qed.
Lemma versionedRe_tail s : version_tail s = true → versionedRe s = true.
Proof. intros Hs. destruct s; cbn [versionedRe]; by rewrite Hs. Qed.
Lemma format36_length k n : (36 ^ N.of_nat k ≤ n)%N → (k < String.length (format36 n))%nat.
Proof.
  intros Hn. destruct (format36_spec n) as [Hv Ha]. revert Hv Ha. generalize (format36 n). intros s Hv Ha.
  assert (∀ s a, all_bytes (λ c, is_digit c || is_lower c) s = true →
    (val36 a s < (a + 1) * 36 ^ N.of_nat (String.length s))%N) as Hlt.
  { clear. induction s as [|c s IH]; intros a Ha; cbn [val36 String.length all_bytes] in *.
    { change (36 ^ N.of_nat 0)%N with 1%N. lia. }
    apply andb_true_iff in Ha as [Hc Ha]. specialize (IH (a * 36 + undigit36 c)%N Ha).
    rewrite Nat2N.inj_succ, N.pow_succ_r'.
    assert (undigit36 c ≤ 35)%N as Hu.
    { revert Hc. unfold undigit36, is_digit, is_lower, between.
      change (N_of_ascii "0") with 48%N. change (N_of_ascii "9") with 57%N.
      change (N_of_ascii "a") with 97%N. change (N_of_ascii "z") with 122%N.
      rewrite orb_true_iff, !andb_true_iff, !N.leb_le.
      destruct (N.ltb_spec (N_of_ascii c) 58); lia. }
    eapply N.lt_le_trans; [exact IH|]. rewrite N.mul_assoc. apply N.mul_le_mono_r. lia. }
  specialize (Hlt s 0%N Ha). rewrite Hv in Hlt.
  destruct (Nat.lt_ge_cases k (String.length s)) as [|Hge]; [done|].
  assert (36 ^ N.of_nat (String.length s) ≤ 36 ^ N.of_nat k)%N by (apply N.pow_le_mono_r; lia). lia.
Qed.

Lemma version_tail_format36 nonce n :
  (36 ^ 9 ≤ nonce)%N → version_tail ("-v" +:+ format36 nonce +:+ format36 n) = true.
Proof.
  intros Hnonce. unfold version_tail. rewrite (proj2 (strip_prefix_Some _ _ _) eq_refl).
  destruct (format36_spec nonce) as [_ Ha], (format36_spec n) as [Hv Hb].
  rewrite all_bytes_app, Ha, Hb, andb_true_r. apply Nat.leb_le. rewrite length_app_str.
  pose proof (format36_length 9 nonce Hnonce).
  assert (0 < String.length (format36 n))%nat; [|lia].
  destruct (decide (n = 0%N)) as [->|]; [vm_compute; lia|].
  apply format36_length. change (36 ^ N.of_nat 0)%N with 1%N. lia.
Qed.

Section engine.
  Context {S : Type} `{Storage S} `{!StorageLaws S}.
  Context (AccessEntry : string → res Z).
  Context (adapters : gmap string (option (string → option string))).
  Context (def : Retention) (ctx_Err : nat → nat → option error).

Definition cache_prefix (remote : Remote) : string :=
  "cache/" +:+ rm_Ecosystem remote +:+ "/" +:+ fmt_int (rm_ID remote).
Definition family_versions (resolver : string → option string) (remote : Remote) (f : string) (s : S) :=
  sort_versions (versions_of (cache_family resolver (cache_prefix remote)) f
    (List (cache_prefix remote +:+ "/") s).1.1).

Lemma Evict_frame remote dryRun start now stop s r err s' k :
  Apply AccessEntry adapters def ctx_Err remote dryRun start now stop s = (r, err, s') →
  contents s' !! k = contents s !! k ∨
  ∃ resolver, familyResolver adapters remote = Ok resolver ∧ rm_Mode remote = ModeProxy ∧
    Enabled (Policy def remote) = true ∧
    (List (cache_prefix remote +:+ "/") s).1.2 = None ∧ contents s' !! k = None ∧
    may_delete AccessEntry (Policy def remote) ∅ dryRun
      (cache_family resolver (cache_prefix remote)) (List (cache_prefix remote +:+ "/") s).1.1 now k.
Proof.
  unfold Apply, run, apply. destruct (Enabled _) eqn:Hen; simpl; [|intros [= <- <- <-]; by left].
  destruct (rm_Mode remote) eqn:Hmode; [|intros [= <- <- <-]; by left].
  destruct (familyResolver adapters remote) as [resolver|]; [|intros [= <- <- <-]; by left].
  match goal with |- context [sweep_prefix ?a ?b ?c ?d ?e ?f ?g ?h ?p ?n ?st] =>
    pose proof (sweep_prefix_spares a b c d e f g h p n st k) as Hs;
    destruct (sweep_prefix a b c d e f g h p n st) as [er e1] end.
  intros [= <- <- <-]. simpl in Hs. destruct Hs as [?|(Hl & Hm & Hk)]; [by left|].
  right. by exists resolver.
Qed.

(** C6: an eviction pass changes nothing in the storage but deletes objects of
    the cache of a proxy remote that are versions of a package outside the
    newest [MinVersions] of their family and were not accessed since the
    cutoff. Mirrors, dry runs and failed listings delete nothing, and the
    keys of mutable objects' versions and the retained markers are never
    deleted. *)
Theorem eviction_deletes_only_unprotected remote dryRun start now stop s r err s' k :
  Apply AccessEntry adapters def ctx_Err remote dryRun start now stop s = (r, err, s') →
  contents s' !! k ≠ contents s !! k →
  dryRun = false ∧ contents s' !! k = None ∧ rm_Mode remote = ModeProxy ∧
  (List (cache_prefix remote +:+ "/") s).1.2 = None ∧
  versionedRe (trim_prefix k (cache_prefix remote)) = false ∧
  isRetainedMarker (trim_prefix k (cache_prefix remote)) = false ∧
  ∃ resolver f i v last,
    familyResolver adapters remote = Ok resolver ∧
    resolver (trim_prefix k (cache_prefix remote)) = Some f ∧
    family_versions resolver remote f s !! i = Some v ∧ v_key v = k ∧
    0 < MinVersions (Policy def remote) ≤ Z.of_nat i ∧
    last_access AccessEntry v = Ok last ∧
    (cutoff (Policy def remote) now = 0 ∨ last < cutoff (Policy def remote) now).
Proof.
  intros Hap Hne. destruct (Evict_frame _ _ _ _ _ _ _ _ _ k Hap)
    as [?|(resolver & Hr & Hmode & Hen & Hl & Hk & Hm)]; [done|].
  destruct Hm as (-> & f & v & (i & Hi & Hmin & Hun) & Hv).
  apply RetentionProps.unprotected_spec in Hun as (last & Hla & _ & Hcut).
  assert (cache_family resolver (cache_prefix remote) k = Some f) as Hfam.
  { rewrite <- Hv. apply list_elem_of_lookup_2 in Hi. unfold sort_versions in Hi.
    rewrite merge_sort_Permutation in Hi. by apply version_family in Hi. }
  unfold cache_family in Hfam. destruct (_ || _) eqn:Hskip; [done|].
  apply orb_false_iff in Hskip as [? ?]. apply Z.ltb_lt in Hen.
  split_and!; [done..|]. by exists resolver, f, i, v, last.
Qed.

(** An eviction pass keeps the newest [MinVersions] versions of every
    family of the remote's cache. *)
Theorem eviction_keeps_newest remote dryRun start now stop s r err s' resolver f i v :
  Apply AccessEntry adapters def ctx_Err remote dryRun start now stop s = (r, err, s') →
  familyResolver adapters remote = Ok resolver →
  family_versions resolver remote f s !! i = Some v →
  Z.of_nat i < MinVersions (Policy def remote) →
  contents s' !! v_key v = contents s !! v_key v.
Proof.
  intros Hap Hr Hi Hmin. destruct (Evict_frame _ _ _ _ _ _ _ _ _ (v_key v) Hap)
    as [?|(resolver' & Hr' & _ & _ & _ & _ & Hm)]; [done|].
  rewrite Hr in Hr'. injection Hr' as <-. exfalso. revert Hm.
  eapply newest_not_deleted; [apply List_nodup|exact Hi|done].
Qed.
(** No eviction pass touches a version of a mutable object, whatever its
    age and policy: the keys that the cache engine makes are all matched by
    the filter, for every start of the process after 1970-01-02 (the nonce is
    the start in nanoseconds). *)
Theorem eviction_spares_versions remote dryRun start now stop s r err s' nonce path n :
  Apply AccessEntry adapters def ctx_Err remote dryRun start now stop s = (r, err, s') →
  (36 ^ 9 ≤ nonce)%N →
  let k := Cache.versioned nonce (cache_prefix remote +:+ path) n in
  contents s' !! k = contents s !! k.
Proof.
  intros Hap Hnonce k. destruct (Evict_frame _ _ _ _ _ _ _ _ _ k Hap)
    as [?|(resolver & _ & _ & _ & _ & _ & Hm)]; [done|]. exfalso.
  destruct Hm as (_ & f & v & (i & Hi & _) & Hv).
  apply list_elem_of_lookup_2 in Hi. unfold sort_versions in Hi.
  rewrite merge_sort_Permutation in Hi. apply version_family in Hi.
  rewrite Hv in Hi. unfold k, cache_family, Cache.versioned in Hi.
  rewrite <- app_assoc, trim_prefix_app in Hi.
  rewrite versionedRe_app in Hi; [done|]. by apply versionedRe_tail, version_tail_format36.
Qed.
End engine.
End EvictionProps.

(** ** The periodic run over all remotes *)
Module EvictionRun.
Import Sweep SweepProofs PassProofs EvictionEngine EvictionProps.
Section run.
  Context {S : Type} `{Storage S} `{!StorageLaws S}.
  Context (AccessEntry : string → res Z).
  Context (adapters : gmap string (option (string → option string))).
  Context (def : Retention) (ctx_Err : nat → nat → option error).

Lemma may_delete_listed (policy : Retention) dryRun family_of prefix now (s : S) k :
  may_delete AccessEntry policy ∅ dryRun family_of (List prefix s).1.1 now k →
  has_prefix k prefix = true.
Proof.
  intros (_ & f & v & (i & Hi & _) & <-). apply list_elem_of_lookup_2 in Hi.
  unfold sort_versions in Hi. rewrite merge_sort_Permutation in Hi.
  apply list_elem_of_omap in Hi as (m & Hm & Hv). case_bool_decide; [|done]. injection Hv as <-.
  by apply List_sub in Hm as [Hp _].
Qed.

(** The remotes whose cache the run may touch. *)
Definition cleaned (remote : Remote) : Prop :=
  rm_Mode remote = ModeProxy ∧ rm_Enabled remote = true ∧ Enabled (Policy def remote) = true.

Lemma run_remotes_frame clock cancelled remotes : ∀ i errs (s : S) k,
  let s' := (run_remotes AccessEntry adapters def ctx_Err i clock cancelled remotes errs s).2 in
  contents s' !! k = contents s !! k ∨
  contents s' !! k = None ∧ ∃ remote, remote ∈ remotes ∧ cleaned remote ∧
    has_prefix k (cache_prefix remote +:+ "/") = true.
Proof.
  induction remotes as [|remote remotes IH]; intros i errs s k; cbn [run_remotes]; [by left|].
  destruct (cancelled i); [by left|].
  assert (∀ errs (s : S), let s' := (run_remotes AccessEntry adapters def ctx_Err (Datatypes.S i) clock
      cancelled remotes errs s).2 in
    contents s' !! k = contents s !! k ∨ contents s' !! k = None ∧
    ∃ remote', remote' ∈ remote :: remotes ∧ cleaned remote' ∧
      has_prefix k (cache_prefix remote' +:+ "/") = true) as Hrest.
  { intros errs0 s0. destruct (IH (Datatypes.S i) errs0 s0 k) as [?|(? & r & Hr & ?)]; [by left|].
    right. split; [done|]. exists r. split; [by right|done]. }
  case_bool_decide as Hmode; cbn [orb]; [apply Hrest|].
  destruct (rm_Enabled remote) eqn:Hena; cbn [negb]; [|apply Hrest].
  destruct (Enabled (Policy def remote)) eqn:Hpol; cbn [negb]; [|apply Hrest].
  destruct (clock i) as [[start now] stop].
  destruct (Apply AccessEntry adapters def ctx_Err remote false start now stop s) as [[r err] s1] eqn:Hap.
  match goal with |- context [run_remotes _ _ _ _ _ _ _ _ ?er s1] =>
    destruct (Hrest er s1) as [->|?]; [|by right] end.
  destruct (Evict_frame _ _ _ _ _ _ _ _ _ _ _ _ _ k Hap) as [?|(rs & _ & Hp & _ & _ & Hk & Hm)]; [by left|].
  right. split; [done|]. exists remote. split; [by left|]. split; [|by eapply may_delete_listed].
  split_and!; [done|done|done].
Qed.

(** The periodic run over the remotes touches, whatever fails in it, only
    the caches of enabled proxy remotes whose effective policy (their own, or
    the configured default) is enabled; there it only deletes. *)
Theorem eviction_run_touches_proxies_only clock cancelled remotes (s s' : S) errs k :
  run_remotes AccessEntry adapters def ctx_Err 0 clock cancelled remotes [] s = (errs, s') →
  contents s' !! k ≠ contents s !! k →
  contents s' !! k = None ∧ ∃ remote, remote ∈ remotes ∧ cleaned remote ∧
    has_prefix k (cache_prefix remote +:+ "/") = true.
Proof.
  intros Hrun Hne. pose proof (run_remotes_frame clock cancelled remotes 0 [] s k) as Hf.
  rewrite Hrun in Hf. by destruct Hf.
Qed.
End run.
End EvictionRun.

(** * A concrete cache *)
Module EvictionDemo.
Import EvictionEngine.
Definition store : FakeStorage := mk_FakeStorage
  (<["cache/apt/1/pool/a_1" := ("x", 1)]> (<["cache/apt/1/pool/a_2" := ("xy", 2)]>
   (<["cache/apt/1/pool/a_3" := ("xyz", 3)]> (<["cache/apt/12/pool/a_1" := ("n", 1)]>
   (<["cache/apt/1/Release-v10000000001" := ("r", 1)]> ∅))))) 0.
Definition resolver (s : string) : option string := Some "a".
Definition adapters : gmap string (option (string → option string)) := <["apt" := Some resolver]> ∅.
Definition accessed (k : string) : res Z :=
  if String.eqb k "cache/apt/1/pool/a_2" then Ok (200 * day)
  else Err (NotFoundError "обращение" k).
Definition never (_ _ : nat) : option error := None.
Definition remote : Remote :=
  mk_Remote 1 "deb" "apt" "u" ModeProxy true 0 [] "" (Some (mk_Retention 1 30)) 0.
Definition no_policy : Retention := mk_Retention 0 0.
Definition pass := Apply accessed adapters no_policy never remote false 0 (210 * day) 1 store.
Definition all := run_remotes accessed adapters no_policy never 0 (λ _, (0, 210 * day, 1)) (λ _, None)
  [remote] [] store.

Lemma evict_pass_split : Apply accessed adapters no_policy never remote false 0 (210 * day) 1 store =
  (pass.1.1, pass.1.2, pass.2).
Proof. vm_compute. reflexivity. Qed.
Example evict_pass_keys : sorted_keys (objects pass.2) =
  ["cache/apt/1/Release-v10000000001"; "cache/apt/1/pool/a_2"; "cache/apt/1/pool/a_3";
   "cache/apt/12/pool/a_1"].
Proof. vm_compute. reflexivity. Qed.

Lemma eviction_deletes_only_unprotected_witness :
  contents pass.2 !! "cache/apt/1/pool/a_1" = None ∧ rm_Mode remote = ModeProxy.
Proof.
  destruct (EvictionProps.eviction_deletes_only_unprotected accessed adapters no_policy never
    remote false 0 (210 * day) 1 store pass.1.1 pass.1.2 pass.2 "cache/apt/1/pool/a_1" evict_pass_split)
    as (_ & Hk & Hm & _); [vm_compute; discriminate|]. split; [exact Hk|exact Hm].
Defined.
Lemma eviction_keeps_newest_witness : contents pass.2 !! "cache/apt/1/pool/a_3" = Some "xyz".
Proof.
  refine (eq_trans (EvictionProps.eviction_keeps_newest accessed adapters no_policy never
    remote false 0 (210 * day) 1 store pass.1.1 pass.1.2 pass.2 resolver "a" 0
    (mk_version "cache/apt/1/pool/a_3" 3 3) evict_pass_split _ _ _) _); vm_compute; reflexivity.
Defined.
Lemma eviction_spares_versions_witness :
  contents pass.2 !! "cache/apt/1/Release-v10000000001" = Some "r".
Proof.
  refine (eq_trans (EvictionProps.eviction_spares_versions accessed adapters no_policy never
    remote false 0 (210 * day) 1 store pass.1.1 pass.1.2 pass.2 101559956668416 "/Release" 1
    evict_pass_split _) _); [by compute|]. vm_compute. reflexivity.
Defined.
Lemma eviction_run_touches_proxies_only_witness :
  contents all.2 !! "cache/apt/1/pool/a_1" = None ∧ all.1 = [].
Proof.
  split; [|vm_compute; reflexivity].
  refine (proj1 (EvictionRun.eviction_run_touches_proxies_only accessed adapters no_policy never
    (λ _, (0, 210 * day, 1)) (λ _, None) [remote] store all.2 all.1 "cache/apt/1/pool/a_1"
    (surjective_pairing all) _)).
  vm_compute. discriminate.
Defined.
End EvictionDemo.
