(* ===== verification/StorageGC.v ===== *)
(** The sweep of the storage (internal/core/engine/storagegc): versions of
    mutable objects whose background deletion failed, and what deleted
    personal repositories left behind.

    The loops run over the list that the storage hands out; the theorems that
    bound what is deleted do not use that the list is complete. [ctx_Err] is
    the reading of [ctx.Err()] after that many objects of the root; [report]
    is the metrics hook. *)
From S2P Require Import Prelude GoStr Domain Port CacheEngine Retention Eviction.
Import EvictionEngine (version_tail).
Local Open Scope Z_scope.

Definition cachePrefix : string := "cache/".
Definition repoPrefix : string := "repo/".

Record Result := mk_Result {
  gc_DryRun : bool;
  gc_Duration : Z;
  gc_CacheScanned : Z;
  gc_CacheOrphans : Z;
  gc_RepoScanned : Z;
  gc_RepoOrphans : Z;
  gc_Deleted : Z;
  gc_FailedDeletes : Z;
  gc_BytesFreed : Z
}.
Definition new_Result (dry : bool) : Result := mk_Result dry 0 0 0 0 0 0 0 0.
Definition cache_scanned (r : Result) : Result :=
  mk_Result (gc_DryRun r) (gc_Duration r) (gc_CacheScanned r + 1) (gc_CacheOrphans r)
    (gc_RepoScanned r) (gc_RepoOrphans r) (gc_Deleted r) (gc_FailedDeletes r) (gc_BytesFreed r).
Definition cache_orphan (r : Result) : Result :=
  mk_Result (gc_DryRun r) (gc_Duration r) (gc_CacheScanned r) (gc_CacheOrphans r + 1)
    (gc_RepoScanned r) (gc_RepoOrphans r) (gc_Deleted r) (gc_FailedDeletes r) (gc_BytesFreed r).
Definition repo_scanned (r : Result) : Result :=
  mk_Result (gc_DryRun r) (gc_Duration r) (gc_CacheScanned r) (gc_CacheOrphans r)
    (gc_RepoScanned r + 1) (gc_RepoOrphans r) (gc_Deleted r) (gc_FailedDeletes r) (gc_BytesFreed r).
Definition repo_orphan (r : Result) : Result :=
  mk_Result (gc_DryRun r) (gc_Duration r) (gc_CacheScanned r) (gc_CacheOrphans r)
    (gc_RepoScanned r) (gc_RepoOrphans r + 1) (gc_Deleted r) (gc_FailedDeletes r) (gc_BytesFreed r).
Definition deleted (size : Z) (r : Result) : Result :=
  mk_Result (gc_DryRun r) (gc_Duration r) (gc_CacheScanned r) (gc_CacheOrphans r)
    (gc_RepoScanned r) (gc_RepoOrphans r) (gc_Deleted r + 1) (gc_FailedDeletes r) (gc_BytesFreed r + size).
Definition failed (r : Result) : Result :=
  mk_Result (gc_DryRun r) (gc_Duration r) (gc_CacheScanned r) (gc_CacheOrphans r)
    (gc_RepoScanned r) (gc_RepoOrphans r) (gc_Deleted r) (gc_FailedDeletes r + 1) (gc_BytesFreed r).
Definition took (d : Z) (r : Result) : Result :=
  mk_Result (gc_DryRun r) d (gc_CacheScanned r) (gc_CacheOrphans r)
    (gc_RepoScanned r) (gc_RepoOrphans r) (gc_Deleted r) (gc_FailedDeletes r) (gc_BytesFreed r).

(** [re.FindStringIndex(key)[0]] of [-v[0-9a-z]{11,}$]: the first position
    from which the rest is a version suffix. *)
Fixpoint FindStringIndex (s : string) : option nat :=
  if version_tail s then Some O
  else match s with
       | EmptyString => None
       | String _ s => Datatypes.S <$> FindStringIndex s
       end.

(** [strings.Cut(strings.TrimPrefix(key, repoPrefix), "/")] and the id that it
    spells. *)
Definition repo_id_of (key : string) : option Z :=
  parse_int (cut "/" (trim_prefix key repoPrefix)).1.1.

(** [New]: a negative grace period counts as none. *)
Definition New_grace (grace : Z) : Z := if grace <? 0 then 0 else grace.

Section sweeper.
  Context {S : Type} `{Storage S} {I : Type} `{ObjectIndex I}.
  Context (grace : Z) (Repos : res (list Repo)).
  Context (ctx_Err : nat → option error).

Record state := mk_state { storage : S; index : I; result : Result }.
Abbreviation M := (St state).
Definition on_storage {A} : St S A → M A :=
  zoom storage (λ v e, mk_state v (index e) (result e)).
Definition on_index {A} : St I A → M A :=
  zoom index (λ v e, mk_state (storage e) v (result e)).
Definition count (f : Result → Result) : M unit :=
  st_mod (λ e, mk_state (storage e) (index e) (f (result e))).

Definition deleteKey (key : string) (size : Z) : M unit :=
  r ← on_storage (Delete key);
  match r with
  | Some e => if has_type is_NotFound e then mret tt else count failed
  | None => count (deleted size)
  end.

Definition cacheOrphan (live : gset string) (byKey : gmap string ObjectMeta) (now : Z) (meta : Meta) : bool :=
  if decide (mt_Key meta ∈ live) then false
  else match FindStringIndex (mt_Key meta) with
       | None => false
       | Some loc =>
           match byKey !! String.substring 0 loc (mt_Key meta) with
           | None => false
           | Some _ => mt_ModTime meta <? now - grace
           end
       end.

(** The listing loops: [visit] is the body after the checks of the error and of
    [ctx]. A listing ends with its error; the sticky error of [ctx] that ends
    the loop is the one that is returned. *)
Fixpoint scan (prefix : string) (visit : Meta → M unit) (lerr : option error) (i : nat) (metas : list Meta) :
    M (option error) :=
  match metas with
  | [] =>
      match lerr with
      | Some e => mret (Some (Wrap ("storagegc: листинг " +:+ prefix) e))
      | None => mret (ctx_Err i)
      end
  | meta :: metas =>
      match ctx_Err i with
      | Some e => mret (Some e)
      | None => visit meta;; scan prefix visit lerr (Datatypes.S i) metas
      end
  end.
Definition for_each (prefix : string) (visit : Meta → M unit) : M (option error) :=
  l ← on_storage (List prefix);
  scan prefix visit l.2 0 l.1.

Definition visit_cache live byKey now dryRun (meta : Meta) : M unit :=
  count cache_scanned;;
  if cacheOrphan live byKey now meta
  then count cache_orphan;;
       if dryRun : bool then mret tt else deleteKey (mt_Key meta) (mt_Size meta)
  else mret tt.
Definition sweepCache live byKey now dryRun : M (option error) :=
  for_each cachePrefix (visit_cache live byKey now dryRun).

Definition repoOrphan (repoIDs : gset Z) (meta : Meta) : bool :=
  match repo_id_of (mt_Key meta) with
  | None => false
  | Some id => negb (bool_decide (id ∈ repoIDs))
  end.
Definition visit_repo (repoIDs : gset Z) dryRun (meta : Meta) : M unit :=
  count repo_scanned;;
  if repoOrphan repoIDs meta
  then count repo_orphan;;
       if dryRun : bool then mret tt else deleteKey (mt_Key meta) (mt_Size meta)
  else mret tt.
Definition sweepRepos repoIDs dryRun : M (option error) :=
  for_each repoPrefix (visit_repo repoIDs dryRun).

(** The reference sets that [sweep] collects from the index. *)
Definition live_keys (ms : list ObjectMeta) : gset string :=
  list_to_set (List.filter (λ k, negb (String.eqb k "")) (om_StorageKey <$> ms)).
Definition by_key (ms : list ObjectMeta) : gmap string ObjectMeta :=
  foldl (λ b m, <[om_Key m := m]> b) ∅ ms.

Definition sweep (now : Z) (dryRun : bool) : M (option error) :=
  all ← on_index AllObjectMeta;
  match all.2 with
  | Some e => mret (Some (Wrap "storagegc: обход индекса объектов" e))
  | None =>
      match Repos with
      | Err e => mret (Some (Wrap "storagegc: список репозиториев" e))
      | Ok repoList =>
          err ← sweepCache (live_keys all.1) (by_key all.1) now dryRun;
          match err with
          | Some e => mret (Some e)
          | None => sweepRepos (list_to_set (repo_ID <$> repoList)) dryRun
          end
      end
  end.
Definition Sweep (dryRun : bool) (start now stop : Z) (s : S) (i : I) : Result * option error * S * I :=
  let '(err, e) := sweep now dryRun (mk_state s i (new_Result dryRun)) in
  (took (stop - start) (result e), err, storage e, index e).

Definition repo_root (repoID : Z) : string := repoPrefix +:+ fmt_int repoID +:+ "/".
Definition visit_prefix (meta : Meta) : M unit :=
  count repo_scanned;;
  count repo_orphan;;
  deleteKey (mt_Key meta) (mt_Size meta).
Definition sweepRepoPrefix (repoID : Z) : M (option error) :=
  for_each (repo_root repoID) visit_prefix.
Definition SweepRepoPrefix (repoID start stop : Z) (s : S) (i : I) : Result * option error * S * I :=
  let '(err, e) := sweepRepoPrefix repoID (mk_state s i (new_Result false)) in
  (took (stop - start) (result e), err, storage e, index e).
End sweeper.

(** * The position of the version suffix *)
Lemma substring_prefix a b : String.substring 0 (String.length a) (a +:+ b) = a.
Proof. induction a as [|c a IH]; [by destruct b|]. rewrite app_cons. simpl. by rewrite IH. Qed.
Lemma version_tail_app c key t : version_tail (String c (key +:+ "-v" +:+ t)) = false.
Proof.
  unfold version_tail. destruct (strip_prefix _ _) as [r|] eqn:Hs; [|done].
  apply strip_prefix_Some in Hs. apply andb_false_iff. right.
  destruct key as [|d key]; [done|]. injection Hs as -> -> Hs. change ("" +:+ r) with r in Hs. rewrite <- Hs.
  rewrite all_bytes_app. apply andb_false_iff. by right.
Qed.
Lemma FindStringIndex_tail key t :
  version_tail ("-v" +:+ t) = true → FindStringIndex (key +:+ "-v" +:+ t) = Some (String.length key).
Proof.
  intros Ht. induction key as [|c key IH].
  - change (FindStringIndex ("-v" +:+ t) = Some O). revert Ht. generalize ("-v" +:+ t).
    intros s Hs. destruct s; cbn [FindStringIndex]; by rewrite Hs.
  - rewrite app_cons. cbn [FindStringIndex]. by rewrite version_tail_app, IH.
Qed.
Lemma FindStringIndex_Some s i :
  FindStringIndex s = Some i → ∃ t, s = String.substring 0 i s +:+ t ∧ version_tail t = true.
Proof.
  revert i. induction s as [|c s IH]; intros i; cbn [FindStringIndex].
  { change (version_tail "") with false. done. }
  destruct (version_tail (String c s)) eqn:Hv; [intros [= <-]; by exists (String c s)|].
  intros (j & Hj & ->)%fmap_Some. destruct (IH j Hj) as (t & Hs & Ht). exists t. split; [|done].
  cbn [String.substring]. rewrite app_cons. by f_equal.
Qed.

(** * The reference sets *)
Lemma live_keys_spec ms k m : k ∉ live_keys ms → k ≠ "" → m ∈ ms → om_StorageKey m ≠ k.
Proof.
  intros Hk Hne Hm Heq. apply Hk. unfold live_keys. apply elem_of_list_to_set.
  apply list_elem_of_In, List.filter_In. split; [|by destruct (String.eqb_spec k "")].
  apply list_elem_of_In, list_elem_of_fmap. by exists m.
Qed.
Lemma live_keys_elem ms k : k ∈ live_keys ms → ∃ m, m ∈ ms ∧ om_StorageKey m = k.
Proof.
  unfold live_keys. rewrite elem_of_list_to_set. intros Hk.
  apply list_elem_of_In, List.filter_In in Hk as [Hk%list_elem_of_In _].
  apply list_elem_of_fmap in Hk as (m & -> & Hm). by exists m.
Qed.
Lemma by_key_foldl ms k : ∀ b : gmap string ObjectMeta,
  is_Some (foldl (λ b m, <[om_Key m := m]> b) b ms !! k) ↔
  is_Some (b !! k) ∨ ∃ m, m ∈ ms ∧ om_Key m = k.
Proof.
  induction ms as [|m ms IH]; intros b; simpl.
  { split; [by left|intros [?|(m & Hm & _)]; [done|by apply elem_of_nil in Hm]]. }
  rewrite IH. destruct (decide (om_Key m = k)) as [<-|Hne].
  - rewrite lookup_insert_eq. split; [|by left; eauto]. intros _. right. exists m. split; [by left|done].
  - rewrite lookup_insert_ne by done. split; (intros [?|(m' & Hm & Hk)]; [by left|right]).
    + exists m'. split; [by right|done].
    + apply elem_of_cons in Hm as [->|Hm]; [done|by exists m'].
Qed.
Lemma by_key_spec ms k : is_Some (by_key ms !! k) ↔ ∃ m, m ∈ ms ∧ om_Key m = k.
Proof.
  unfold by_key. rewrite by_key_foldl, lookup_empty. split; [intros [[? ?]|?]; done|by right].
Qed.

(** * What the loops delete *)
Lemma repo_root_listable repoID : listable (repo_root repoID).
Proof. unfold repo_root. rewrite app_assoc. apply listable_slash. Qed.

Section proofs.
  Context {S : Type} `{Storage S} `{!StorageLaws S} {I : Type} `{ObjectIndex I} `{!ObjectIndexLaws I}.
  Context (grace : Z) (Repos : res (list Repo)) (ctx_Err : nat → option error).
  Abbreviation state := (state (S:=S) (I:=I)).
Definition view (e : state) : gmap string string := contents (storage e).

Lemma gc_storage_run {A} (op : St S A) (e : state) :
  on_storage op e = ((op (storage e)).1, mk_state (op (storage e)).2 (index e) (result e)).
Proof. unfold on_storage, zoom. by destruct (op (storage e)). Qed.
Lemma on_storage_keeps {A} (op : St S A) : keeps contents op → keeps view (on_storage op).
Proof. intros Hk e. rewrite gc_storage_run. apply Hk. Qed.
Lemma deleteKey_view key size (e : state) :
  view (deleteKey key size e).2 = view e ∨ view (deleteKey key size e).2 = delete key (view e).
Proof.
  unfold deleteKey, mbind, st_bind. rewrite gc_storage_run.
  pose proof (Delete_Some key (storage e)) as Hd.
  destruct (Delete key (storage e)).1 as [er|]; [destruct (has_type is_NotFound er)|]; exact Hd.
Qed.
Lemma gc_spares_count P f : spares view P (count f).
Proof. by apply spares_keeps. Qed.

Lemma scan_spares prefix visit lerr (P : string → Prop) metas : ∀ i,
  (∀ m, m ∈ metas → spares view P (visit m)) →
  spares view P (scan ctx_Err prefix visit lerr i metas).
Proof.
  induction metas as [|m metas IH]; intros i Hv; simpl.
  { destruct lerr; by apply spares_keeps. }
  destruct (ctx_Err i); [by apply spares_keeps|].
  apply spares_bind; [apply Hv; by left|intros _]. apply IH. intros m' Hm. apply Hv. by right.
Qed.
(** A pass over a root: what it deletes is listed, so it lies in the root. *)
Lemma for_each_spares prefix visit (P : Meta → Prop) (e : state) k :
  (∀ m, P m ∨ keeps view (visit m)) →
  (∀ m, spares view (λ k, k = mt_Key m) (visit m)) →
  let e' := (for_each ctx_Err prefix visit e).2 in
  view e' !! k = view e !! k ∨
  view e' !! k = None ∧ ∃ m, m ∈ (List prefix (storage e)).1.1 ∧ mt_Key m = k ∧ P m.
Proof.
  intros HP Hv. unfold for_each, mbind, st_bind. rewrite gc_storage_run. simpl.
  set (l := (List prefix (storage e)).1).
  destruct (scan_spares prefix visit l.2 (λ k, ∃ m, m ∈ l.1 ∧ mt_Key m = k ∧ P m) l.1 0) with
    (e := mk_state (List prefix (storage e)).2 (index e) (result e)) (k := k) as [Heq|[Hm Hn]].
  - intros m Hm. destruct (HP m) as [Hp|Hkeep]; [|by apply spares_keeps].
    eapply spares_mono; [|apply Hv]. intros ? ->. by exists m.
  - left. rewrite Heq. unfold view. simpl. by rewrite List_keeps.
  - by right.
Qed.

Lemma visit_cache_spares live byKey now dryRun m :
  spares view (λ k, k = mt_Key m) (visit_cache grace live byKey now dryRun m).
Proof.
  apply spares_bind; [apply gc_spares_count|intros _]. destruct (cacheOrphan _ _ _ _ _); [|by apply spares_keeps].
  apply spares_bind; [apply gc_spares_count|intros _]. destruct dryRun; [by apply spares_keeps|].
  eapply spares_delete; [apply deleteKey_view|done].
Qed.
Lemma visit_cache_acts live byKey now dryRun m :
  dryRun = false ∧ cacheOrphan grace live byKey now m = true ∨
  keeps view (visit_cache grace live byKey now dryRun m).
Proof.
  destruct dryRun, (cacheOrphan grace live byKey now m) eqn:E; [| | |]; try (by left); right;
    unfold visit_cache; rewrite E; by intros e.
Qed.
Lemma visit_repo_spares repoIDs dryRun m :
  spares view (λ k, k = mt_Key m) (visit_repo repoIDs dryRun m).
Proof.
  apply spares_bind; [apply gc_spares_count|intros _]. destruct (repoOrphan _ _); [|by apply spares_keeps].
  apply spares_bind; [apply gc_spares_count|intros _]. destruct dryRun; [by apply spares_keeps|].
  eapply spares_delete; [apply deleteKey_view|done].
Qed.
Lemma visit_repo_acts repoIDs dryRun m :
  dryRun = false ∧ repoOrphan repoIDs m = true ∨ keeps view (visit_repo repoIDs dryRun m).
Proof.
  destruct dryRun, (repoOrphan repoIDs m) eqn:E; [| | |]; try (by left); right;
    unfold visit_repo; rewrite E; by intros e.
Qed.

(** The facts that make an object of the cache an orphan. *)
Lemma cacheOrphan_spec live byKey now m :
  cacheOrphan grace live byKey now m = true ↔
  (mt_Key m ∉ live) ∧ mt_ModTime m < now - grace ∧
  ∃ loc, FindStringIndex (mt_Key m) = Some loc ∧
    is_Some (byKey !! String.substring 0 loc (mt_Key m)).
Proof.
  unfold cacheOrphan. destruct (decide _) as [|Hl]; [naive_solver|].
  destruct (FindStringIndex _) as [loc|]; [|naive_solver].
  destruct (byKey !! _) as [o|] eqn:E.
  - rewrite Z.ltb_lt. split; [|naive_solver]. intros ?. split_and!; [done..|]. exists loc. by rewrite E.
  - split; [done|]. intros (_ & _ & loc' & [= <-] & [o Ho]). congruence.
Qed.

(** The run of a sweep that got its reference sets: the pass over the cache,
    then the pass over the repositories. *)
Lemma sweepCache_view live byKey now dryRun (e : state) k :
  let e' := (sweepCache grace ctx_Err live byKey now dryRun e).2 in
  view e' !! k = view e !! k ∨
  view e' !! k = None ∧ ∃ m, m ∈ (List cachePrefix (storage e)).1.1 ∧ mt_Key m = k ∧
    dryRun = false ∧ cacheOrphan grace live byKey now m = true.
Proof. apply for_each_spares; [apply visit_cache_acts|apply visit_cache_spares]. Qed.
Lemma sweepRepos_view repoIDs dryRun (e : state) k :
  let e' := (sweepRepos ctx_Err repoIDs dryRun e).2 in
  view e' !! k = view e !! k ∨
  view e' !! k = None ∧ ∃ m, m ∈ (List repoPrefix (storage e)).1.1 ∧ mt_Key m = k ∧
    dryRun = false ∧ repoOrphan repoIDs m = true.
Proof. apply for_each_spares; [apply visit_repo_acts|apply visit_repo_spares]. Qed.

Lemma sweep_view dryRun now (e : state) k :
  let ms := (AllObjectMeta (index e)).1.1 in
  let e' := (sweep grace Repos ctx_Err now dryRun e).2 in
  view e' !! k = view e !! k ∨
  view e' !! k = None ∧ dryRun = false ∧ (AllObjectMeta (index e)).1.2 = None ∧
  ∃ repos, Repos = Ok repos ∧ ∃ m, mt_Key m = k ∧
    (m ∈ (List cachePrefix (storage e)).1.1 ∧ cacheOrphan grace (live_keys ms) (by_key ms) now m = true ∨
     has_prefix k repoPrefix = true ∧ repoOrphan (list_to_set (repo_ID <$> repos)) m = true).
Proof.
  unfold sweep, mbind, st_bind, on_index, zoom. simpl.
  destruct (AllObjectMeta (index e)) as [[ms ierr] i1]. simpl.
  destruct ierr as [er|]; [by left|]. destruct Repos as [repos|er]; [|by left].
  pose proof (sweepCache_view (live_keys ms) (by_key ms) now dryRun (mk_state (storage e) i1 (result e)) k) as Hc.
  destruct (sweepCache _ _ _ _ _ _ _) as [[er|] e1]; simpl in Hc.
  - destruct Hc as [Hc|(Hn & m & Hm & Hk & Hd & Ho)]; [by left|].
    right. split_and!; [done..|]. exists repos. split; [done|]. exists m. auto.
  - pose proof (sweepRepos_view (list_to_set (repo_ID <$> repos)) dryRun e1 k) as Hr. simpl in Hr.
    destruct Hr as [Hr|(Hn & m & Hm & Hk & Hd & Ho)].
    + rewrite Hr. destruct Hc as [Hc|(Hn & m & Hm & Hk & Hd & Ho)]; [by left|].
      right. split_and!; [done..|]. exists repos. split; [done|]. exists m. auto.
    + right. split_and!; [done..|]. exists repos. split; [done|]. exists m. split; [done|].
      right. split; [|done]. apply List_sub in Hm as [Hp _]. by rewrite <- Hk.
Qed.

(** C7: a sweep deletes only two kinds of objects, and only when it is no dry
    run and both the index and the catalogue were read without error. An object
    of [cache/] is deleted only when it has the form of a version of a mutable
    object that is in the index, no record of the index points to it, and it is
    older than the grace period; so live versions, immutable objects and
    objects of unknown names stay. An object of [repo/] is deleted only when
    its id is a number that no repository of the catalogue has. *)
Theorem gc_deletes_only_orphans dryRun start now stop s i r err s' i' k :
  Sweep grace Repos ctx_Err dryRun start now stop s i = (r, err, s', i') →
  contents s' !! k ≠ contents s !! k →
  dryRun = false ∧ contents s' !! k = None ∧ (AllObjectMeta i).1.2 = None ∧
  ∃ repos, Repos = Ok repos ∧
  ((∀ K m, indexed i !! K = Some m → om_StorageKey m ≠ k) ∧
   (∃ K m t, indexed i !! K = Some m ∧ k = om_Key m +:+ t ∧ version_tail t = true) ∧
   (∃ meta, meta ∈ (List cachePrefix s).1.1 ∧ mt_Key meta = k ∧ mt_ModTime meta < now - grace) ∨
   has_prefix k repoPrefix = true ∧
   ∃ id, repo_id_of k = Some id ∧ ∀ repo, repo ∈ repos → repo_ID repo ≠ id).
Proof.
  intros Hs Hne. pose proof (sweep_view dryRun now (mk_state s i (new_Result dryRun)) k) as Hv.
  unfold Sweep in Hs. destruct (sweep _ _ _ _ _ _) as [er e']. injection Hs as <- <- <- <-.
  unfold view in Hv. simpl in Hv.
  destruct Hv as [?|(Hn & -> & Hi & repos & Hrepos & m & Hk & Hm)]; [done|].
  split_and!; [done..|]. exists repos. split; [done|].
  destruct Hm as [[Hm Ho]|[Hp Ho]]; [left|right; split; [done|]].
  - apply cacheOrphan_spec in Ho as (Hl & Ht & loc & Hloc & Hb). rewrite Hk in Hl, Hloc, Hb.
    pose proof Hm as [Hp _]%List_sub. rewrite Hk in Hp.
    split_and!; [|apply by_key_spec in Hb as (o & Ho & Hok)|by exists m].
    + intros K o HK. eapply live_keys_spec; [exact Hl|intros ->; done|].
      by eapply AllObjectMeta_complete.
    + apply FindStringIndex_Some in Hloc as (t & Heq & Ht').
      apply AllObjectMeta_sound in Ho as [K HK]. exists K, o, t. rewrite Hok. auto.
  - unfold repoOrphan in Ho. rewrite Hk in Ho. destruct (repo_id_of k) as [id|]; [|done].
    exists id. split; [done|]. intros repo Hrepo <-. apply negb_true_iff, bool_decide_eq_false in Ho.
    apply Ho. apply elem_of_list_to_set, list_elem_of_fmap. eauto.
Qed.

(** ** A sweep that reports no failure has removed its orphans *)
Definition worse (e e' : state) : Prop :=
  gc_FailedDeletes (result e) ≤ gc_FailedDeletes (result e') ∧
  ∀ k, view e !! k = None → view e' !! k = None.
#[local] Instance worse_preorder : PreOrder worse.
Proof.
  split; [by split|]. intros e1 e2 e3 [Hf Hv] [Hf' Hv']. split; [lia|]. auto.
Qed.
Definition worsens {A} (m : St state A) : Prop := ∀ e, worse e (m e).2.

Lemma worsens_keeps {A} (m : St state A) :
  keeps view m → keeps (λ e, gc_FailedDeletes (result e)) m → worsens m.
Proof. intros Hv Hf e. split; [by rewrite Hf|]. intros k. by rewrite Hv. Qed.
Lemma worsens_bind {A B} (m : St state A) (f : A → St state B) :
  worsens m → (∀ a, worsens (f a)) → worsens (m ≫= f).
Proof.
  intros Hm Hf e. unfold mbind, st_bind. specialize (Hm e). destruct (m e) as [a e1].
  etrans; [exact Hm|apply Hf].
Qed.
Lemma deleteKey_worsens key size : worsens (deleteKey key size).
Proof.
  intros e. split.
  - unfold deleteKey, mbind, st_bind. rewrite gc_storage_run.
    destruct (Delete key (storage e)).1 as [er|]; [destruct (has_type is_NotFound er)|]; simpl; lia.
  - intros k Hk. destruct (deleteKey_view key size e) as [->| ->]; [done|].
    apply lookup_delete_None. by right.
Qed.
Lemma deleteKey_done key size (e : state) :
  let e' := (deleteKey key size e).2 in
  view e' !! key = None ∨ gc_FailedDeletes (result e') = gc_FailedDeletes (result e) + 1.
Proof.
  unfold deleteKey, mbind, st_bind, view. rewrite gc_storage_run.
  pose proof (Delete_None key (storage e)) as Hn. pose proof (Delete_NotFound key (storage e)) as Hnf.
  destruct (Delete key (storage e)).1 as [er|]; [destruct (has_type is_NotFound er) eqn:Her|]; simpl.
  - left. by eapply Hnf.
  - by right.
  - left. rewrite Hn by done. apply lookup_delete_eq.
Qed.

Lemma scan_visits prefix visit lerr metas : (∀ m, worsens (visit m)) → ∀ i (e : state),
  worse e (scan ctx_Err prefix visit lerr i metas e).2 ∧
  ((scan ctx_Err prefix visit lerr i metas e).1 = None → lerr = None ∧
   ∀ m, m ∈ metas → ∃ e1, worse e e1 ∧ worse (visit m e1).2 (scan ctx_Err prefix visit lerr i metas e).2).
Proof.
  intros Hw. induction metas as [|m metas IH]; intros i e; simpl.
  { destruct lerr; (split; [done|]); [done|]. intros _. split; [done|]. intros m Hm. by apply elem_of_nil in Hm. }
  destruct (ctx_Err i); [by split|]. unfold mbind, st_bind.
  specialize (Hw m e). destruct (visit m e) as [[] e1] eqn:He. simpl in Hw.
  destruct (IH (Datatypes.S i) e1) as [Hle Hall]. split; [by etrans|].
  intros Hn. destruct (Hall Hn) as [Hl Hm]. split; [done|].
  intros m' [->|Hm']%elem_of_cons.
  - exists e. split; [done|]. by rewrite He.
  - destruct (Hm m' Hm') as (e2 & ? & ?). exists e2. split; [by etrans|done].
Qed.

Lemma for_each_worsens prefix visit :
  (∀ m, worsens (visit m)) → worsens (for_each ctx_Err prefix visit).
Proof.
  intros Hw. apply worsens_bind.
  - apply worsens_keeps; [apply on_storage_keeps, List_keeps|]. intros e. by rewrite gc_storage_run.
  - intros l e. by apply scan_visits.
Qed.
(** What [visit] deletes, a pass without errors and failures has deleted. *)
Lemma for_each_reclaims prefix visit (e : state) k :
  listable prefix → (∀ m, worsens (visit m)) →
  (∀ m e1, m ∈ (List prefix (storage e)).1.1 → mt_Key m = k →
    view (visit m e1).2 !! k = None ∨
    gc_FailedDeletes (result (visit m e1).2) = gc_FailedDeletes (result e1) + 1) →
  0 ≤ gc_FailedDeletes (result e) → has_prefix k prefix = true →
  (for_each ctx_Err prefix visit e).1 = None →
  view (for_each ctx_Err prefix visit e).2 !! k = None ∨
  0 < gc_FailedDeletes (result (for_each ctx_Err prefix visit e).2).
Proof.
  intros Hdot Hw Hv Hf Hp. unfold for_each, mbind, st_bind. rewrite gc_storage_run. simpl.
  set (l := (List prefix (storage e)).1). set (e0 := mk_state _ _ _). intros Hn.
  destruct (scan_visits prefix visit l.2 l.1 Hw 0 e0) as [Hle Hall].
  destruct (Hall Hn) as [Hl Hm]. destruct (view e !! k) as [b|] eqn:Hk; [|].
  - assert (k ∈ mt_Key <$> l.1) as (m & -> & Hin)%list_elem_of_fmap.
    { apply List_complete; [done..| |done]. by exists b. }
    destruct (Hm m Hin) as (e1 & [Hf1 _] & [Hf2 Hd]).
    destruct (Hv m e1 Hin eq_refl) as [Hnone|Hfail]; [left; by apply Hd|right]. simpl in Hf1. lia.
  - left. apply Hle. unfold e0, view. simpl. rewrite List_keeps. exact Hk.
Qed.

Lemma visit_cache_worsens live byKey now dryRun m : worsens (visit_cache grace live byKey now dryRun m).
Proof.
  apply worsens_bind; [by apply worsens_keeps|intros _]. destruct (cacheOrphan _ _ _ _ _); [|by apply worsens_keeps].
  apply worsens_bind; [by apply worsens_keeps|intros _]. destruct dryRun; [by apply worsens_keeps|].
  apply deleteKey_worsens.
Qed.
Lemma visit_repo_worsens repoIDs dryRun m : worsens (visit_repo repoIDs dryRun m).
Proof.
  apply worsens_bind; [by apply worsens_keeps|intros _]. destruct (repoOrphan _ _); [|by apply worsens_keeps].
  apply worsens_bind; [by apply worsens_keeps|intros _]. destruct dryRun; [by apply worsens_keeps|].
  apply deleteKey_worsens.
Qed.

(** A version of an indexed object that no record points to any more, past the
    grace period; and an object of a repository that is gone. *)
Definition old_version (now : Z) (s : S) (i : I) (k : string) : Prop :=
  ∃ nonce key n m, (36 ^ 9 ≤ nonce)%N ∧ k = Cache.versioned nonce key n ∧
    has_prefix k cachePrefix = true ∧ indexed i !! key = Some m ∧ om_Key m = key ∧
    (∀ K o, indexed i !! K = Some o → om_StorageKey o ≠ k) ∧
    (∀ meta, meta ∈ (List cachePrefix s).1.1 → mt_Key meta = k → mt_ModTime meta < now - grace).
Definition ownerless (k : string) : Prop :=
  has_prefix k repoPrefix = true ∧
  ∃ id, repo_id_of k = Some id ∧ ∀ repos repo, Repos = Ok repos → repo ∈ repos → repo_ID repo ≠ id.

Lemma old_version_orphan now s i k ms i1 m :
  old_version now s i k → AllObjectMeta i = (ms, None, i1) →
  m ∈ (List cachePrefix s).1.1 → mt_Key m = k →
  cacheOrphan grace (live_keys ms) (by_key ms) now m = true.
Proof.
  intros (nonce & key & n & o & Hnonce & Hk & Hp & Hi & Ho & Hlive & Hage) Hall Hm Hmk.
  apply cacheOrphan_spec. split_and!; [|by apply Hage|].
  - intros (o' & Ho' & Hso)%live_keys_elem.
    pose proof (AllObjectMeta_sound i o') as Hs. rewrite Hall in Hs. destruct (Hs Ho') as [K HK].
    by apply (Hlive K o' HK); rewrite Hso.
  - rewrite Hmk, Hk. unfold Cache.versioned. exists (String.length key).
    rewrite FindStringIndex_tail by by apply EvictionProps.version_tail_format36.
    rewrite substring_prefix. split; [done|]. apply by_key_spec. exists o. split; [|done].
    pose proof (AllObjectMeta_complete i key o) as Hc. rewrite Hall in Hc. by apply Hc.
Qed.
Lemma visit_cache_done live byKey now m (e : state) :
  cacheOrphan grace live byKey now m = true →
  view (visit_cache grace live byKey now false m e).2 !! mt_Key m = None ∨
  gc_FailedDeletes (result (visit_cache grace live byKey now false m e).2) = gc_FailedDeletes (result e) + 1.
Proof.
  intros Ho. unfold visit_cache. rewrite Ho. exact (deleteKey_done (mt_Key m) (mt_Size m)
    (mk_state (storage e) (index e) (cache_orphan (cache_scanned (result e))))).
Qed.
Lemma visit_repo_done repoIDs m (e : state) :
  repoOrphan repoIDs m = true →
  view (visit_repo repoIDs false m e).2 !! mt_Key m = None ∨
  gc_FailedDeletes (result (visit_repo repoIDs false m e).2) = gc_FailedDeletes (result e) + 1.
Proof.
  intros Ho. unfold visit_repo. rewrite Ho. exact (deleteKey_done (mt_Key m) (mt_Size m)
    (mk_state (storage e) (index e) (repo_orphan (repo_scanned (result e))))).
Qed.

Lemma sweepCache_reclaims live byKey now (e : state) k :
  (∀ m, m ∈ (List cachePrefix (storage e)).1.1 → mt_Key m = k → cacheOrphan grace live byKey now m = true) →
  0 ≤ gc_FailedDeletes (result e) → has_prefix k cachePrefix = true →
  (sweepCache grace ctx_Err live byKey now false e).1 = None →
  view (sweepCache grace ctx_Err live byKey now false e).2 !! k = None ∨
  0 < gc_FailedDeletes (result (sweepCache grace ctx_Err live byKey now false e).2).
Proof.
  intros Ho. apply for_each_reclaims; [done|apply visit_cache_worsens|]. intros m e1 Hm Hk.
  rewrite <- Hk. by apply visit_cache_done, Ho.
Qed.
Lemma sweepRepos_reclaims repoIDs (e : state) k :
  (∀ m, mt_Key m = k → repoOrphan repoIDs m = true) →
  0 ≤ gc_FailedDeletes (result e) → has_prefix k repoPrefix = true →
  (sweepRepos ctx_Err repoIDs false e).1 = None →
  view (sweepRepos ctx_Err repoIDs false e).2 !! k = None ∨
  0 < gc_FailedDeletes (result (sweepRepos ctx_Err repoIDs false e).2).
Proof.
  intros Ho. apply for_each_reclaims; [done|apply visit_repo_worsens|]. intros m e1 Hm Hk.
  rewrite <- Hk. by apply visit_repo_done, Ho.
Qed.

(** The sweep is complete: after a run that reports neither an error nor a
    failed deletion, no version of an indexed object that the cache engine
    scheduled for deletion and lost is left in the storage, once the grace
    period is over, and nothing of a deleted repository. *)
Theorem gc_reclaims_orphans start now stop s i r s' i' k :
  Sweep grace Repos ctx_Err false start now stop s i = (r, None, s', i') →
  gc_FailedDeletes r = 0 →
  old_version now s i k ∨ ownerless k →
  contents s' !! k = None.
Proof.
  unfold Sweep, sweep, mbind, st_bind, on_index, zoom. simpl.
  destruct (AllObjectMeta i) as [[ms [er|]] i1] eqn:Hall; [done|]. simpl.
  destruct Repos as [repos|er] eqn:Hrepos; [|done].
  set (e0 := mk_state s i1 (new_Result false)).
  pose proof (sweepCache_reclaims (live_keys ms) (by_key ms) now e0 k) as Hc.
  destruct (sweepCache _ _ _ _ _ _ e0) as [[er|] e1] eqn:Hcache; [done|].
  assert (0 ≤ gc_FailedDeletes (result e1)) as Hf1.
  { destruct (for_each_worsens cachePrefix _ (visit_cache_worsens (live_keys ms) (by_key ms) now false) e0) as [Hle _].
    fold (sweepCache (S:=S) (I:=I) grace ctx_Err (live_keys ms) (by_key ms) now false) in Hle.
    rewrite Hcache in Hle. exact Hle. }
  pose proof (sweepRepos_reclaims (list_to_set (repo_ID <$> repos)) e1 k) as Hr.
  destruct (for_each_worsens repoPrefix _ (visit_repo_worsens (list_to_set (repo_ID <$> repos)) false) e1) as [Hf Hd].
  fold (sweepRepos (S:=S) (I:=I) ctx_Err (list_to_set (repo_ID <$> repos)) false) in Hf, Hd.
  destruct (sweepRepos _ _ _ e1) as [err e2]. intros [= <- -> <- <-] Hz [Hold|[Hp (id & Hid & Hno)]]; simpl in *.
  - destruct Hc as [Hn|Hpos]; [|done|by destruct Hold as (?&?&?&?&?&?&?&?)|done|by apply Hd|lia].
    intros m Hm Hk. by eapply old_version_orphan.
  - destruct Hr as [Hn|Hpos]; [|done..|lia].
    intros m Hk. unfold repoOrphan. rewrite Hk, Hid. apply negb_true_iff, bool_decide_eq_false.
    intros (repo & -> & Hin)%elem_of_list_to_set%list_elem_of_fmap. by apply (Hno repos repo).
Qed.

(** ** Keys of personal repositories *)
Lemma fmt_int_no_slash n : all_bytes (λ d, negb (Ascii.eqb "/" d)) (fmt_int n) = true.
Proof.
  assert (∀ m, 0 ≤ m → all_bytes (λ d, negb (Ascii.eqb "/" d)) (fmt_int m) = true) as Hpos.
  { intros m (_ & Hd & _)%fmt_int_nonneg. revert Hd. apply all_bytes_impl.
    intros c Hc. destruct (Ascii.eqb_spec "/" c) as [Heq|]; [by subst c|done]. }
  destruct (decide (0 ≤ n)) as [|Hneg]; [by apply Hpos|]. destruct n as [|p|p]; [lia..|].
  change (fmt_int (Z.neg p)) with ("-" +:+ fmt_int (Zpos p)). rewrite all_bytes_app, Hpos; [done|lia].
Qed.
Lemma repo_id_of_key n path :
  in_int64 n → repo_id_of (repoPrefix +:+ fmt_int n +:+ "/" +:+ path) = Some n.
Proof.
  intros Hn. unfold repo_id_of. rewrite trim_prefix_app.
  change ("/" +:+ path) with (String "/" path). rewrite cut_app by apply fmt_int_no_slash.
  by apply parse_int_fmt.
Qed.
Lemma repo_root_id n k : in_int64 n → has_prefix k (repo_root n) = true → repo_id_of k = Some n.
Proof.
  intros Hn [r ->]%has_prefix_spec. unfold repo_root. rewrite <- !app_assoc. by apply repo_id_of_key.
Qed.
Lemma RepoPrefix_id repo path :
  min_int64 < repo_ID repo ≤ max_int64 → repo_id_of (RepoPrefix repo +:+ path) = Some (repo_ID repo).
Proof.
  intros Hn. unfold RepoPrefix. rewrite itoa_fmt by done. rewrite <- !app_assoc.
  apply repo_id_of_key. unfold in_int64. lia.
Qed.

(** No sweep touches an object of a repository that is in the catalogue. *)
Theorem gc_spares_repositories dryRun start now stop s i r err s' i' repos repo path :
  Sweep grace Repos ctx_Err dryRun start now stop s i = (r, err, s', i') →
  Repos = Ok repos → repo ∈ repos → min_int64 < repo_ID repo ≤ max_int64 →
  contents s' !! (RepoPrefix repo +:+ path) = contents s !! (RepoPrefix repo +:+ path).
Proof.
  intros Hs Hrepos Hin Hid.
  pose proof (sweep_view dryRun now (mk_state s i (new_Result dryRun)) (RepoPrefix repo +:+ path)) as Hv.
  unfold Sweep in Hs. destruct (sweep _ _ _ _ _ _) as [er e']. injection Hs as <- <- <- <-.
  unfold view in Hv. simpl in Hv. destruct Hv as [?|(_ & _ & _ & repos' & Hr & m & Hk & Hm)]; [done|].
  rewrite Hrepos in Hr. injection Hr as <-. exfalso. destruct Hm as [[Hm _]|[_ Ho]].
  - apply List_sub in Hm as [Hp _]. by rewrite Hk in Hp.
  - unfold repoOrphan in Ho. rewrite Hk, RepoPrefix_id in Ho by done.
    apply negb_true_iff, bool_decide_eq_false in Ho. apply Ho.
    apply elem_of_list_to_set, list_elem_of_fmap. eauto.
Qed.

Lemma visit_prefix_spares m : spares view (λ k, k = mt_Key m) (visit_prefix m).
Proof.
  apply spares_bind; [apply gc_spares_count|intros _]. apply spares_bind; [apply gc_spares_count|intros _].
  eapply spares_delete; [apply deleteKey_view|done].
Qed.
Lemma visit_prefix_worsens m : worsens (visit_prefix m).
Proof.
  apply worsens_bind; [by apply worsens_keeps|intros _].
  apply worsens_bind; [by apply worsens_keeps|intros _]. apply deleteKey_worsens.
Qed.
Lemma visit_prefix_done m (e : state) :
  view (visit_prefix m e).2 !! mt_Key m = None ∨
  gc_FailedDeletes (result (visit_prefix m e).2) = gc_FailedDeletes (result e) + 1.
Proof.
  exact (deleteKey_done (mt_Key m) (mt_Size m)
    (mk_state (storage e) (index e) (repo_orphan (repo_scanned (result e))))).
Qed.

(** The clean-up after the deletion of a repository removes exactly the
    repository's objects: it changes nothing outside [repo/<id>/] (and so
    nothing of any other repository), and when it reports neither an error nor
    a failed deletion nothing of the prefix is left. *)
Theorem sweepRepoPrefix_exact repoID start stop (s s' : S) (i i' : I) r err :
  in_int64 repoID →
  SweepRepoPrefix ctx_Err repoID start stop s i = (r, err, s', i') →
  (∀ k, has_prefix k (repo_root repoID) = false → contents s' !! k = contents s !! k) ∧
  (∀ repo path, min_int64 < repo_ID repo ≤ max_int64 → repo_ID repo ≠ repoID →
    contents s' !! (RepoPrefix repo +:+ path) = contents s !! (RepoPrefix repo +:+ path)) ∧
  (err = None → gc_FailedDeletes r = 0 →
    contents s' = filter (λ kv, has_prefix kv.1 (repo_root repoID) = false) (contents s)).
Proof.
  intros Hid. unfold SweepRepoPrefix. set (e0 := mk_state s i (new_Result false)).
  pose proof (λ k, for_each_spares (repo_root repoID) _ (λ _, True) e0 k
    (λ _, or_introl Logic.I) visit_prefix_spares) as Hv.
  pose proof (λ k, for_each_reclaims (repo_root repoID) _ e0 k (repo_root_listable repoID) visit_prefix_worsens) as Hc.
  fold (sweepRepoPrefix (S:=S) (I:=I) ctx_Err repoID) in Hv, Hc.
  destruct (sweepRepoPrefix _ _ _) as [er e']. intros [= <- <- <- <-]. unfold view in *. simpl in *.
  assert (∀ k, has_prefix k (repo_root repoID) = false → contents (storage e') !! k = contents s !! k) as Hout.
  { intros k Hp. destruct (Hv k) as [?|(_ & m & Hm & Hk & _)]; [done|].
    apply List_sub in Hm as [Hp' _]. rewrite Hk in Hp'. congruence. }
  split_and!; [exact Hout| |].
  - intros repo path Hr Hne. apply Hout. destruct (has_prefix _ _) eqn:Hp; [|done].
    apply repo_root_id in Hp; [|done]. rewrite RepoPrefix_id in Hp by done. congruence.
  - intros -> Hz. apply map_eq. intros k.
    destruct (has_prefix k (repo_root repoID)) eqn:Hp.
    + destruct (Hc k) as [->|?]; [| lia|done|done| |lia].
      * intros m e1 _ <-. apply visit_prefix_done.
      * symmetry. apply map_lookup_filter_None. right. intros b _. simpl. congruence.
    + rewrite (Hout k Hp). destruct (contents s !! k) as [b|] eqn:Hk.
      * symmetry. by apply map_lookup_filter_Some.
      * symmetry. apply map_lookup_filter_None. by left.
Qed.
End proofs.

(** * A concrete storage *)
Module GCDemo.
Definition old_key : string := Cache.versioned (36 ^ 9) "cache/apt/1/Release" 1.
Definition new_key : string := Cache.versioned (36 ^ 9) "cache/apt/1/Release" 2.
Definition store : FakeStorage := mk_FakeStorage
  (<[old_key := ("old", 1)]> (<[new_key := ("new", 2)]> (<["cache/apt/1/pool/a.deb" := ("deb", 1)]>
   (<["repo/7/apt/a.deb" := ("gone", 1)]> (<["repo/70/apt/a.deb" := ("here", 1)]> ∅))))) 0.
Definition index : FakeObjectIndex :=
  <["cache/apt/1/Release" := mk_ObjectMeta "cache/apt/1/Release" new_key 3 "" "" 0 0]> ∅.
Definition repo : Repo := mk_Repo 70 1 "mine" "apt" (mk_Quota 0 0) (mk_Retention 0 0) 0.
Definition never (_ : nat) : option error := None.
Definition run := Sweep 10 (Ok [repo]) never false 0 100 1 store index.
Definition one := SweepRepoPrefix never 7 0 1 store index.

Lemma run_split : Sweep 10 (Ok [repo]) never false 0 100 1 store index = (run.1.1.1, None, run.1.2, run.2).
Proof. vm_compute. reflexivity. Qed.
Lemma one_split : SweepRepoPrefix never 7 0 1 store index = (one.1.1.1, None, one.1.2, one.2).
Proof. vm_compute. reflexivity. Qed.
Example run_keys : sorted_keys (objects run.1.2) =
  ["cache/apt/1/Release-v10000000002"; "cache/apt/1/pool/a.deb"; "repo/70/apt/a.deb"].
Proof. vm_compute. reflexivity. Qed.
Example run_counts : run.1.1.1 = mk_Result false 1 3 1 2 1 2 0 7.
Proof. vm_compute. reflexivity. Qed.

Lemma gc_deletes_only_orphans_witness :
  contents run.1.2 !! old_key = None ∧ (AllObjectMeta index).1.2 = None.
Proof.
  destruct (gc_deletes_only_orphans 10 (Ok [repo]) never false 0 100 1 store index run.1.1.1 None
    run.1.2 run.2 old_key run_split) as (_ & Hk & Hi & _); [vm_compute; discriminate|].
  split; [exact Hk|exact Hi].
Defined.
Lemma gc_spares_repositories_witness :
  contents run.1.2 !! (RepoPrefix repo +:+ "/a.deb") = Some "here".
Proof.
  refine (eq_trans (gc_spares_repositories 10 (Ok [repo]) never false 0 100 1 store index run.1.1.1 None
    run.1.2 run.2 [repo] repo "/a.deb" run_split eq_refl _ _) _).
  - by left.
  - by compute.
  - vm_compute. reflexivity.
Defined.
Lemma gc_reclaims_orphans_witness :
  contents run.1.2 !! old_key = None ∧ contents run.1.2 !! "repo/7/apt/a.deb" = None.
Proof.
  split; apply (gc_reclaims_orphans 10 (Ok [repo]) never 0 100 1 store index run.1.1.1 run.1.2 run.2 _
    run_split); [vm_compute; reflexivity| |vm_compute; reflexivity|].
  - left. exists (36 ^ 9)%N, "cache/apt/1/Release", 1%N,
      (mk_ObjectMeta "cache/apt/1/Release" new_key 3 "" "" 0 0). split_and!; try (by vm_compute).
    + intros K o HK. apply (lookup_insert_Some (∅ : gmap string ObjectMeta)) in HK as [[_ <-]|[_ HK]]; [|done].
      vm_compute. discriminate.
    + intros meta Hm _. assert (Forall (λ m, mt_ModTime m < 100 - 10) (List cachePrefix store).1.1) as Hall.
      { vm_compute. repeat constructor. }
      by eapply Forall_forall in Hall.
  - right. split; [by vm_compute|]. exists 7. split; [by vm_compute|].
    intros repos r [= <-] [->|Hr]%elem_of_cons; [by compute|by apply elem_of_nil in Hr].
Defined.
Lemma sweepRepoPrefix_exact_witness :
  contents one.1.2 = filter (λ kv, has_prefix kv.1 (repo_root 7) = false) (contents store) ∧
  contents one.1.2 !! "repo/7/apt/a.deb" = None.
Proof.
  split; [|vm_compute; reflexivity].
  apply (sweepRepoPrefix_exact never 7 0 1 store one.1.2 index one.2 one.1.1.1 None);
    [by compute|exact one_split|reflexivity|vm_compute; reflexivity].
Defined.
End GCDemo.
