(* ===== verification/Publish.v ===== *)
(** Uploads to personal repositories (internal/core/engine/publish).

    [Upload], [Delete], [List] and [Reindex] are sequential functions of the
    engine's state: the storage and the set of keys that are being uploaded.
    Uploads run concurrently; [step] is one atomic action of an upload (one
    call of a port, or one critical section of [inFlightMu]), [Upload] is what
    the steps do when nothing interleaves, and the concurrent theorems are
    about every interleaving of steps of any number of uploads and deletions.

    The adapters' [ValidateObjectPath] and [GenerateIndexes] belong to the
    ecosystems and are parameters. A body is the list of chunks that its
    reader yields and the error that ends it. *)
From S2P Require Import Prelude GoStr Domain Port.
Local Open Scope Z_scope.

(** [New]: a negative limit counts as none. *)
Definition New_MaxObjectSize (n : Z) : Z := if n <? 0 then 0 else n.

Section publish.
  Context {S : Type} `{Storage S}.
  (** The adapter of an ecosystem: its check of a path inside a repository, and
      its index generator. *)
  Context (adapters : gmap string ((string → option error) * (Repo → St S (option error)))).
  Context (MaxObjectSize : Z).

Record Engine := mk_Engine { storage : S; inFlight : gset string }.
Abbreviation M := (St Engine).
Definition on_storage {A} : St S A → M A :=
  zoom storage (λ v e, mk_Engine v (inFlight e)).

Definition adapter (repo : Repo) : res ((string → option error) * (Repo → St S (option error))) :=
  match adapters !! repo_Ecosystem repo with
  | Some a => Ok a
  | None => Err (UnsupportedError "publish" ("экосистема " +:+ repo_Ecosystem repo +:+
      " не имеет генератора индексов (адаптер не зарегистрирован)"))
  end.

Definition repo_prefix (repo : Repo) : string := "repo/" +:+ fmt_int (repo_ID repo) +:+ "/".
Definition keyFor (repo : Repo) (path : string) : res string :=
  let key := repo_prefix repo +:+ repo_Ecosystem repo +:+ "/" +:+ path in
  match ValidateKey key with Some e => Err e | None => Ok key end.

(** The checks of [Upload] that touch no state. *)
Definition upload_key (repo : Repo) (path : string) (size : Z) : res string :=
  match adapter repo with
  | Err e => Err e
  | Ok a =>
      match keyFor repo path with
      | Err e => Err e
      | Ok key =>
          match a.1 path with
          | Some e => Err e
          | None =>
              if (0 <? MaxObjectSize) && (MaxObjectSize <? size)
              then Err (TooLargeError size MaxObjectSize)
              else Ok key
          end
      end
  end.

Definition acquireInFlight (key : string) : M (option error) := λ e,
  if decide (key ∈ inFlight e)
  then (Some (ConflictError "upload" key "загрузка этого ключа уже идёт; повторите после её завершения"), e)
  else (None, mk_Engine (storage e) ({[key]} ∪ inFlight e)).
Definition releaseInFlight (key : string) : M unit :=
  st_mod (λ e, mk_Engine (storage e) (inFlight e ∖ {[key]})).

Definition statExisting (key : string) : M (res (Z * bool)) :=
  r ← on_storage (Stat key);
  mret match r with
       | Ok meta => Ok (mt_Size meta, true)
       | Err e => if has_type is_NotFound e then Ok (0, false)
                  else Err (Wrap ("publish: stat " +:+ key) e)
       end.

(** The sum and the number that the listing loop of [checkQuota] collects. *)
Definition sum_sizes (metas : list Meta) : Z := foldl (λ n m, wrap64 (n + mt_Size m)) 0 metas.
Definition quota_verdict (repo : Repo) (size : Z) (replacing : bool) (oldSize : Z)
    (usedBytes usedFiles : Z) : option error :=
  let q := repo_Quota repo in
  let byteDelta := if replacing then wrap64 (size - oldSize) else size in
  let objDelta := if replacing then 0 else 1 in
  if (0 <? MaxBytes q) && (MaxBytes q <? wrap64 (usedBytes + byteDelta))
  then Some (QuotaExceededError (repo_ID repo) (wrap64 (usedBytes + byteDelta)) (MaxBytes q))
  else if (0 <? MaxObjects q) && (MaxObjects q <? usedFiles + objDelta)
  then Some (QuotaExceededError (repo_ID repo) (usedFiles + objDelta) (MaxObjects q))
  else None.
Definition checkQuota (repo : Repo) (size : Z) (replacing : bool) (oldSize : Z) : M (option error) :=
  let q := repo_Quota repo in
  if (MaxBytes q =? 0) && (MaxObjects q =? 0) then mret None
  else
    l ← on_storage (List (repo_prefix repo));
    mret match l.2 with
         | Some e => Some (Wrap ("publish: листинг квоты repo " +:+ fmt_int (repo_ID repo)) e)
         | None => quota_verdict repo size replacing oldSize (sum_sizes l.1) (Z.of_nat (length l.1))
         end.

(** [copyBody]: the reader after its limit, the copy, the checks. *)
Definition limited (body : list string * option error) : list string * option error :=
  if 0 <? MaxObjectSize then limit_reader (wrap64 (MaxObjectSize + 1)) body.1 body.2 else body.
Definition check_size (n size : Z) : option error :=
  if (0 <? MaxObjectSize) && (MaxObjectSize <? n) then Some (TooLargeError n MaxObjectSize)
  else if (0 <=? size) && negb (n =? size)
  then Some (ValidationError "size" (fmt_int n) ("Content-Length " +:+ fmt_int size +:+
    " не совпал с фактическим размером " +:+ fmt_int n))
  else None.
Fixpoint io_Copy (w : Writer) (n : Z) (chunks : list string) (err : option error) :
    M (Writer * res Z) :=
  match chunks with
  | [] => mret match err with
               | Some e => (w, Err (Wrap "publish: чтение тела" e))
               | None => (w, Ok n)
               end
  | c :: chunks =>
      r ← on_storage (Write w c);
      match r with
      | Err e => mret (w, Err (Wrap "publish: чтение тела" e))
      | Ok w => io_Copy w (n + len c) chunks err
      end
  end.
Definition copyBody (w : Writer) (body : list string * option error) (size : Z) : M (Writer * res Z) :=
  let '(chunks, err) := limited body in
  r ← io_Copy w 0 chunks err;
  mret match r with
       | (w, Err e) => (w, Err e)
       | (w, Ok n) => (w, match check_size n size with Some e => Err e | None => Ok n end)
       end.

Definition aborted (w : Writer) (e : error) : M (option error) :=
  on_storage (Abort w);; mret (Some e).

(** [Upload] between [acquireInFlight] and the deferred [releaseInFlight]. *)
Definition upload_held (repo : Repo) (key : string) (size : Z)
    (body : list string * option error) (force : bool) : M (option error) :=
  st ← statExisting key;
  match st with
  | Err e => mret (Some e)
  | Ok (oldSize, exists_) =>
      if exists_ && negb force
      then mret (Some (ConflictError "объект" key "уже загружен; force=true перезапишет (только админ)"))
      else
        q ← checkQuota repo size exists_ oldSize;
        match q with
        | Some e => mret (Some e)
        | None =>
            p ← on_storage (Put key);
            match p with
            | Err e => mret (Some e)
            | Ok w =>
                c ← copyBody w body size;
                match c with
                | (w, Err e) => aborted w e
                | (w, Ok n) =>
                    q ← checkQuota repo n exists_ oldSize;
                    match q with
                    | Some e => aborted w e
                    | None =>
                        r ← on_storage (Commit w);
                        match r with
                        | Some e => aborted w e
                        | None => mret None
                        end
                    end
                end
            end
        end
  end.
Definition Upload (repo : Repo) (path : string) (size : Z)
    (body : list string * option error) (force : bool) : M (option error) :=
  match upload_key repo path size with
  | Err e => mret (Some e)
  | Ok key =>
      busy ← acquireInFlight key;
      match busy with
      | Some e => mret (Some e)
      | None =>
          r ← upload_held repo key size body force;
          releaseInFlight key;;
          mret r
      end
  end.

Definition Delete_key (repo : Repo) (path : string) : res string :=
  match adapter repo with Err e => Err e | Ok _ => keyFor repo path end.
Definition Delete_object (repo : Repo) (path : string) : M (option error) :=
  match Delete_key repo path with
  | Err e => mret (Some e)
  | Ok key => on_storage (Delete key)
  end.
Definition List_objects (repo : Repo) : M (list Meta * option error) :=
  on_storage (List (repo_prefix repo)).
Definition Reindex (repo : Repo) : M (option error) :=
  match adapter repo with
  | Err e => mret (Some e)
  | Ok a => on_storage (a.2 repo)
  end.
End publish.

(** * What a repository uses *)
Definition sizes (prefix : string) (m : gmap string string) : gmap string Z :=
  len <$> filter (λ kv, has_prefix kv.1 prefix = true) m.
Definition total (g : gmap string Z) : Z := map_fold (λ _ n acc, n + acc) 0 g.
Definition used_bytes (repo : Repo) (m : gmap string string) : Z := total (sizes (repo_prefix repo) m).
Definition used_objects (repo : Repo) (m : gmap string string) : Z :=
  Z.of_nat (size (sizes (repo_prefix repo) m)).

Lemma total_insert g k n : g !! k = None → total (<[k := n]> g) = n + total g.
Proof. intros Hk. unfold total. rewrite map_fold_insert_L; [done| |done]. intros; lia. Qed.
Lemma total_delete g k n : g !! k = Some n → total g = n + total (delete k g).
Proof. intros Hk. unfold total. rewrite (map_fold_delete_L _ _ k n g); [done| |done]. intros; lia. Qed.
Lemma total_replace g k n : total (<[k := n]> g) = n + total g - default 0 (g !! k).
Proof.
  rewrite <- insert_delete_eq, total_insert by apply lookup_delete_eq.
  destruct (g !! k) as [o|] eqn:Hk; simpl.
  - rewrite (total_delete g k o Hk). lia.
  - rewrite delete_id by done. lia.
Qed.
Lemma total_nonneg g : (∀ k n, g !! k = Some n → 0 ≤ n) → 0 ≤ total g.
Proof.
  induction g as [|k n g Hk IH] using map_ind; [done|]. intros Hn. rewrite total_insert by done.
  specialize (Hn k n (lookup_insert_eq _ _ _)) as Hn'.
  assert (0 ≤ total g); [|lia]. apply IH. intros k' n' Hk'. apply (Hn k').
  rewrite lookup_insert_ne; [done|]. intros ->. congruence.
Qed.
Lemma sizes_lookup prefix m k n :
  sizes prefix m !! k = Some n ↔ ∃ b, m !! k = Some b ∧ n = len b ∧ has_prefix k prefix = true.
Proof.
  unfold sizes. rewrite lookup_fmap, fmap_Some. setoid_rewrite map_lookup_filter_Some. naive_solver.
Qed.
Lemma sizes_nonneg prefix m : 0 ≤ total (sizes prefix m).
Proof. apply total_nonneg. intros k n (b & _ & -> & _)%sizes_lookup. apply len_nonneg. Qed.
Lemma sizes_insert prefix m k b :
  has_prefix k prefix = true → sizes prefix (<[k := b]> m) = <[k := len b]> (sizes prefix m).
Proof.
  intros Hp. apply map_eq. intros k'. apply option_eq. intros n.
  rewrite lookup_insert_Some, !sizes_lookup. destruct (decide (k = k')) as [<-|Hne].
  - setoid_rewrite lookup_insert_eq. naive_solver.
  - setoid_rewrite lookup_insert_ne; [|done]. naive_solver.
Qed.

(** The map that a listing without errors describes, and its sums. *)
Definition key_size (m : Meta) : string * Z := (mt_Key m, mt_Size m).
Lemma total_list l :
  NoDup (mt_Key <$> l) →
  total (list_to_map (key_size <$> l)) = foldr (λ m n, mt_Size m + n) 0 l ∧
  size (list_to_map (key_size <$> l) : gmap string Z) = length l.
Proof.
  induction l as [|m l IH]; csimpl; [done|]. intros [Hm Hnd]%NoDup_cons.
  destruct (IH Hnd) as [IHt IHs].
  assert ((list_to_map (key_size <$> l) : gmap string Z) !! mt_Key m = None) as Hnone.
  { apply not_elem_of_list_to_map_1. by rewrite <- list_fmap_compose. }
  rewrite total_insert, map_size_insert_None, IHt, IHs by done. by split.
Qed.
Lemma sum_sizes_exact l : ∀ a,
  0 ≤ a → Forall (λ m, 0 ≤ mt_Size m) l → a + foldr (λ m n, mt_Size m + n) 0 l ≤ max_int64 →
  foldl (λ n m, wrap64 (n + mt_Size m)) a l = a + foldr (λ m n, mt_Size m + n) 0 l.
Proof.
  induction l as [|m l IH]; intros a Ha Hall Hle; simpl in *; [lia|].
  apply Forall_cons in Hall as [Hm Hall].
  assert (0 ≤ foldr (λ m n, mt_Size m + n) 0 l) by (clear -Hall; induction Hall; simpl; lia).
  rewrite wrap64_small by (unfold in_int64, min_int64, max_int64 in *; lia).
  rewrite IH; [lia|lia|done|lia].
Qed.

Lemma repo_prefix_listable repo : listable (repo_prefix repo).
Proof. unfold repo_prefix. rewrite app_assoc. apply listable_slash. Qed.

Section listing.
  Context {S : Type} `{Storage S} `{!StorageLaws S}.
Lemma listing_sizes prefix (s : S) : listable prefix →
  (List prefix s).1.2 = None →
  list_to_map (key_size <$> (List prefix s).1.1) = sizes prefix (contents s).
Proof.
  intros Hp0 Hl. apply map_eq. intros k. apply option_eq. intros n.
  assert (NoDup ((key_size <$> (List prefix s).1.1).*1)) as Hnd.
  { rewrite <- list_fmap_compose. apply List_nodup. }
  rewrite <- elem_of_list_to_map by done. rewrite list_elem_of_fmap, sizes_lookup. split.
  - intros (m & [= -> ->] & Hm). apply List_sub in Hm as (Hp & b & Hb & ->). eauto.
  - intros (b & Hb & -> & Hp). assert (k ∈ mt_Key <$> (List prefix s).1.1) as (m & -> & Hm)%list_elem_of_fmap.
    { by apply List_complete; [| |exists b|]. }
    exists m. split; [|done]. apply List_sub in Hm as (_ & b' & Hb' & Hs).
    unfold key_size. rewrite Hs. congruence.
Qed.
Lemma listing_sums prefix (s : S) : listable prefix →
  (List prefix s).1.2 = None → total (sizes prefix (contents s)) ≤ max_int64 →
  sum_sizes (List prefix s).1.1 = total (sizes prefix (contents s)) ∧
  length (List prefix s).1.1 = size (sizes prefix (contents s)).
Proof.
  intros Hp0 Hl Hmax. destruct (total_list _ (List_nodup prefix s)) as [Ht Hs].
  rewrite listing_sizes in Ht, Hs by done. split; [|done].
  unfold sum_sizes. rewrite sum_sizes_exact; [lia|lia| |lia].
  apply Forall_forall. intros m Hm. apply List_sub in Hm as (_ & b & _ & ->). apply len_nonneg.
Qed.
End listing.

(** * Sequential uploads *)
Section sequential.
  Context {S : Type} `{Storage S} `{!StorageLaws S}.
  Context (adapters : gmap string ((string → option error) * (Repo → St S (option error)))).
  Context (MaxObjectSize : Z).
  Abbreviation Engine := (Engine (S:=S)).
Definition objects_of (e : Engine) : gmap string string := contents (storage e).
Definition core (e : Engine) : gmap string string * gset string := (objects_of e, inFlight e).

Lemma wp_storage {A} (op : St S A) Q (e : Engine) :
  Q (op (storage e)).1 (mk_Engine (op (storage e)).2 (inFlight e)) → wp (on_storage op) Q e.
Proof. unfold wp, on_storage, zoom. by destruct (op (storage e)). Qed.
Lemma wp_storage_keeps {A} (op : St S A) Q (e : Engine) :
  keeps contents op → (∀ e', core e' = core e → Q (op (storage e)).1 e') → wp (on_storage op) Q e.
Proof.
  intros Hk HQ. apply wp_storage, HQ. unfold core, objects_of. simpl. by rewrite Hk.
Qed.

Lemma statExisting_spec key Q (e : Engine) :
  (∀ r e', core e' = core e →
    (∀ old ex, r = Ok (old, ex) → (if ex : bool then len <$> objects_of e !! key = Some old
                                  else objects_of e !! key = None ∧ old = 0)) → Q r e') →
  wp (statExisting key) Q e.
Proof.
  intros HQ. apply wp_bind, wp_storage_keeps; [apply Stat_keeps|]. intros e1 He1. apply wp_ret, HQ; [done|].
  pose proof (Stat_NotFound key (storage e)) as Hn. pose proof (Stat_Ok key (storage e)) as Ho.
  intros old ex. destruct (Stat key (storage e)).1 as [m|er].
  - intros [= <- <-]. destruct (Ho m eq_refl) as (b & Hb & _ & ->). unfold objects_of. by rewrite Hb.
  - destruct (has_type is_NotFound er) eqn:Her; [|done]. intros [= <- <-]. split; [by apply (Hn er)|done].
Qed.

(** What the quota check establishes about the repository with an object of
    [n] bytes in the place of [old] bytes (if [ex]). *)
Definition quota_ok (repo : Repo) (n old : Z) (ex : bool) (m : gmap string string) : Prop :=
  used_bytes repo m + n ≤ max_int64 → 0 ≤ n → 0 ≤ old ≤ used_bytes repo m →
  (0 < MaxBytes (repo_Quota repo) →
     used_bytes repo m + (if ex then n - old else n) ≤ MaxBytes (repo_Quota repo)) ∧
  (0 < MaxObjects (repo_Quota repo) →
     used_objects repo m + (if ex then 0 else 1) ≤ MaxObjects (repo_Quota repo)).
Lemma quota_verdict_ok repo n old (ex : bool) (m : gmap string string) ub uf :
  (used_bytes repo m ≤ max_int64 → ub = used_bytes repo m ∧ uf = used_objects repo m) →
  quota_verdict repo n ex old ub uf = None → quota_ok repo n old ex m.
Proof.
  intros Hsums Hv Hmax Hn Hold. destruct Hsums as [-> ->]; [lia|].
  unfold quota_verdict in Hv. set (q := repo_Quota repo) in *.
  destruct ((0 <? MaxBytes q) && _) eqn:Hb; [done|].
  destruct ((0 <? MaxObjects q) && _) eqn:Ho; [done|].
  apply andb_false_iff in Hb. apply andb_false_iff in Ho. rewrite !Z.ltb_ge in Hb, Ho. split.
  - intros Hpos. destruct Hb as [?|Hb]; [lia|]. destruct ex.
    + rewrite (wrap64_small (n - old)) in Hb by (unfold in_int64, min_int64, max_int64 in *; lia).
      rewrite wrap64_small in Hb by (unfold in_int64, min_int64, max_int64 in *; lia). lia.
    + rewrite wrap64_small in Hb by (unfold in_int64, min_int64, max_int64 in *; lia). lia.
  - intros Hpos. destruct Ho as [?|Ho]; [lia|]. destruct ex; lia.
Qed.
Lemma checkQuota_spec repo n (ex : bool) old Q (e : Engine) :
  (∀ r e', core e' = core e → (r = None → quota_ok repo n old ex (objects_of e)) → Q r e') →
  wp (checkQuota repo n ex old) Q e.
Proof.
  intros HQ. unfold checkQuota. destruct ((MaxBytes _ =? 0) && _) eqn:Hz.
  { apply andb_true_iff in Hz as [Hb%Z.eqb_eq Ho%Z.eqb_eq]. apply wp_ret, HQ; [done|].
    intros _ _ _ _. rewrite Hb, Ho. lia. }
  apply wp_bind, wp_storage_keeps; [apply List_keeps|]. intros e1 He1. apply wp_ret, HQ; [done|].
  destruct (List _ (storage e)).1.2 eqn:Hl; [done|]. apply quota_verdict_ok.
  intros Hmax. destruct (listing_sums (repo_prefix repo) (storage e) (repo_prefix_listable repo) Hl Hmax) as [-> ->]. done.
Qed.

Lemma io_Copy_spec chunks err : ∀ w n Q (e : Engine),
  (∀ w' r e', core e' = core e → w_key w' = w_key w →
    (∀ n', r = Ok n' → w_bytes w' = w_bytes w +:+ String.concat "" chunks ∧
      n' = n + len (String.concat "" chunks) ∧ err = None) → Q (w', r) e') →
  wp (io_Copy w n chunks err) Q e.
Proof.
  induction chunks as [|c chunks IH]; intros w n Q e HQ; cbn [io_Copy].
  - destruct err; apply wp_ret, HQ; try done. intros n' [= <-].
    change (len (String.concat "" [])) with 0. rewrite app_nil_r. split_and!; [done|lia|done].
  - apply wp_bind, wp_storage_keeps; [apply Write_keeps|]. intros e1 He1.
    pose proof (Write_Ok w c (storage e)) as Hw. destruct (Write w c (storage e)).1 as [w1|er].
    + destruct (Hw w1 eq_refl) as [Hk Hb]. apply IH. intros w' r e' He' Hk' Hr.
      apply HQ; [congruence|congruence|]. intros n' Hn. destruct (Hr n' Hn) as (Hb' & -> & ->).
      rewrite Hb', Hb, concat_empty_cons, len_app, app_assoc. split_and!; [done|lia|done].
    + by apply wp_ret, HQ.
Qed.

Definition body_of (body : list string * option error) : string := String.concat "" body.1.
Lemma copyBody_spec w body size Q (e : Engine) :
  MaxObjectSize < max_int64 → w_bytes w = "" →
  (∀ w' r e', core e' = core e → w_key w' = w_key w →
    (∀ n, r = Ok n → w_bytes w' = body_of body ∧ n = len (body_of body) ∧ body.2 = None ∧
      check_size MaxObjectSize n size = None) → Q (w', r) e') →
  wp (copyBody MaxObjectSize w body size) Q e.
Proof.
  intros Hmax Hw HQ. unfold copyBody. destruct (limited MaxObjectSize body) as [chunks err] eqn:Hlim.
  apply wp_bind, io_Copy_spec. intros w' r e' He Hk Hr. apply wp_ret.
  destruct r as [n|er]; [|by apply HQ]. destruct (Hr n eq_refl) as (Hb & Hn & ->). rewrite Hw in Hb.
  apply HQ; [done..|]. intros n'. destruct (check_size MaxObjectSize n size) eqn:Hc; [done|].
  intros [= <-]. assert (chunks = body.1 ∧ None = body.2) as [-> <-].
  { unfold limited in Hlim. destruct (Z.ltb_spec 0 MaxObjectSize) as [Hpos|].
    - eapply limit_reader_all; [exact Hlim|].
      rewrite wrap64_small by (unfold in_int64, min_int64, max_int64 in *; lia).
      unfold check_size in Hc. rewrite (proj2 (Z.ltb_lt _ _) Hpos) in Hc.
      destruct (Z.ltb_spec MaxObjectSize n); [done|]. lia.
    - destruct body. by injection Hlim as -> ->. }
  split_and!; [exact Hb|exact Hn|done|done].
Qed.

(** What every committed upload has passed: no object was replaced without
    [force], the body arrived whole and has the announced size, and the
    quotas hold with the object in place. *)
Definition accepted (repo : Repo) (key : string) (size : Z) (body : list string * option error)
    (force : bool) (m : gmap string string) : Prop :=
  let b := body_of body in
  (m !! key = None ∨ force = true) ∧ body.2 = None ∧ check_size MaxObjectSize (len b) size = None ∧
  (used_bytes repo m + len b ≤ max_int64 →
   (0 < MaxBytes (repo_Quota repo) → used_bytes repo (<[key := b]> m) ≤ MaxBytes (repo_Quota repo)) ∧
   (0 < MaxObjects (repo_Quota repo) → used_objects repo (<[key := b]> m) ≤ MaxObjects (repo_Quota repo))).

(** The quota check speaks about the repository with the new object. *)
Lemma quota_ok_insert repo key b old (ex : bool) (m : gmap string string) :
  has_prefix key (repo_prefix repo) = true →
  (if ex then len <$> m !! key = Some old else m !! key = None ∧ old = 0) →
  quota_ok repo (len b) old ex m → used_bytes repo m + len b ≤ max_int64 →
  (0 < MaxBytes (repo_Quota repo) → used_bytes repo (<[key := b]> m) ≤ MaxBytes (repo_Quota repo)) ∧
  (0 < MaxObjects (repo_Quota repo) → used_objects repo (<[key := b]> m) ≤ MaxObjects (repo_Quota repo)).
Proof.
  intros Hp Hex Hq Hmax. pose proof (len_nonneg b) as Hb.
  pose proof (sizes_nonneg (repo_prefix repo) m) as Hnn.
  unfold used_bytes, used_objects in *. rewrite sizes_insert by done. rewrite total_replace.
  set (g := sizes (repo_prefix repo) m) in *. destruct ex.
  - apply fmap_Some in Hex as (o & Ho & ->).
    assert (g !! key = Some (len o)) as Hg by (apply sizes_lookup; eauto).
    rewrite Hg. simpl. rewrite map_size_insert_Some by eauto.
    pose proof (total_delete g key _ Hg) as Ht. pose proof (len_nonneg o).
    assert (0 ≤ total (delete key g)).
    { apply total_nonneg. intros k n [_ Hk]%lookup_delete_Some.
      apply sizes_lookup in Hk as (? & _ & -> & _). apply len_nonneg. }
    destruct Hq as [Hqb Hqo]; [done|done|unfold used_bytes; fold g; lia|].
    unfold used_bytes, used_objects in Hqb, Hqo. fold g in Hqb, Hqo. split; intros Hpos.
    + specialize (Hqb Hpos). lia.
    + specialize (Hqo Hpos). lia.
  - destruct Hex as [Hex ->].
    assert (g !! key = None) as Hg.
    { destruct (g !! key) eqn:E; [|done]. apply sizes_lookup in E as (? & ? & _). congruence. }
    rewrite Hg. simpl. rewrite map_size_insert_None by done.
    destruct Hq as [Hqb Hqo]; [done|done|unfold used_bytes; fold g; lia|].
    unfold used_bytes, used_objects in Hqb, Hqo. fold g in Hqb, Hqo. split; intros Hpos.
    + specialize (Hqb Hpos). lia.
    + specialize (Hqo Hpos). lia.
Qed.

(** The outcomes of an upload that holds its key. *)
Definition outcome (repo : Repo) (key : string) (size : Z) (body : list string * option error)
    (force : bool) (e : Engine) (r : option error) (e' : Engine) : Prop :=
  inFlight e' = inFlight e ∧
  (objects_of e' = objects_of e ∧ r ≠ None ∨
   objects_of e' = <[key := body_of body]> (objects_of e) ∧
   accepted repo key size body force (objects_of e)).
Lemma outcome_unchanged repo key size body force e er e' :
  core e' = core e → outcome repo key size body force e (Some er) e'.
Proof. unfold core. intros [= Ho Hi]. split; [done|]. by left. Qed.
Lemma aborted_spec repo key size body force e w er e' :
  core e' = core e → wp (aborted w er) (outcome repo key size body force e) e'.
Proof.
  intros He. apply wp_bind, wp_storage_keeps; [apply Abort_keeps|]. intros e1 He1.
  apply wp_ret, outcome_unchanged. congruence.
Qed.
Lemma commit_spec repo key size body force w (e e' : Engine) :
  core e' = core e → w_key w = key → w_bytes w = body_of body →
  accepted repo key size body force (objects_of e) →
  wp (r ← on_storage (Commit w); match r with Some er => aborted w er | None => mret None end)
    (outcome repo key size body force e) e'.
Proof.
  intros [= He Hi] Hk Hb Hacc. apply wp_bind, wp_storage.
  pose proof (Commit_None w (storage e')) as Hn. pose proof (Commit_Some w (storage e')) as Hs.
  rewrite Hk, Hb in Hn, Hs. unfold objects_of in He. rewrite He in Hn, Hs.
  destruct (Commit w (storage e')).1 as [er|].
  - apply wp_bind, wp_storage. apply wp_ret. split; [done|]. unfold objects_of. simpl.
    rewrite Abort_keeps. destruct Hs as [->| ->]; [by left|by right].
  - apply wp_ret. split; [done|]. right. split; [by apply Hn|done].
Qed.
Lemma upload_held_spec repo key size body force (e : Engine) :
  MaxObjectSize < max_int64 → has_prefix key (repo_prefix repo) = true →
  wp (upload_held MaxObjectSize repo key size body force) (outcome repo key size body force e) e.
Proof.
  intros Hmax Hp. apply wp_bind, statExisting_spec. intros st e1 He1 Hst.
  destruct st as [[old ex]|er]; [|by apply wp_ret, outcome_unchanged]. specialize (Hst old ex eq_refl).
  destruct (ex && negb force) eqn:Hforce; [by apply wp_ret, outcome_unchanged|].
  apply wp_bind, checkQuota_spec. intros q e2 He2 _.
  destruct q as [er|]; [apply wp_ret, outcome_unchanged; congruence|].
  apply wp_bind, wp_storage_keeps; [apply Put_keeps|]. intros e3 He3.
  pose proof (Put_Ok key (storage e2)) as Hput.
  destruct (Put key (storage e2)).1 as [w|er]; [|apply wp_ret, outcome_unchanged; congruence].
  destruct (Hput w eq_refl) as [Hwk Hwb].
  apply wp_bind, copyBody_spec; [done|done|]. intros w' r e4 He4 Hwk' Hr.
  destruct r as [n|er]; [|apply aborted_spec; congruence].
  destruct (Hr n eq_refl) as (Hwb' & -> & Hend & Hsize).
  apply wp_bind, checkQuota_spec. intros q e5 He5 Hq.
  destruct q as [er|]; [apply aborted_spec; congruence|]. specialize (Hq eq_refl).
  apply commit_spec; [congruence|congruence|done|].
  assert (objects_of e4 = objects_of e) as Ho4 by (unfold core in *; congruence). rewrite Ho4 in Hq.
  split_and!; [|done|done|].
  - destruct ex; [right; by destruct force|left; apply Hst].
  - by apply (quota_ok_insert repo key _ old ex).
Qed.

Lemma keyFor_Ok repo path key :
  keyFor repo path = Ok key →
  key = repo_prefix repo +:+ repo_Ecosystem repo +:+ "/" +:+ path ∧ ValidateKey key = None.
Proof. unfold keyFor. destruct (ValidateKey _) eqn:Hv; [done|]. by intros [= <-]. Qed.
Lemma upload_key_Ok repo path size key :
  upload_key adapters MaxObjectSize repo path size = Ok key →
  keyFor repo path = Ok key ∧ (0 < MaxObjectSize → size ≤ MaxObjectSize) ∧
  ∃ a, adapters !! repo_Ecosystem repo = Some a ∧ a.1 path = None.
Proof.
  unfold upload_key, adapter. destruct (adapters !! _) as [a|]; [|done].
  destruct (keyFor repo path) as [k|]; [|done]. destruct (a.1 path) eqn:Ha; [done|].
  destruct (_ && _) eqn:Hs; [done|]. intros [= ->]. apply andb_false_iff in Hs.
  rewrite !Z.ltb_ge in Hs. split_and!; [done| |by exists a]. lia.
Qed.

Lemma Upload_spec repo path size body force (e : Engine) :
  MaxObjectSize < max_int64 →
  wp (Upload adapters MaxObjectSize repo path size body force) (λ r e',
    inFlight e' = inFlight e ∧
    (objects_of e' = objects_of e ∧ r ≠ None ∨
     ∃ key, upload_key adapters MaxObjectSize repo path size = Ok key ∧ (key ∉ inFlight e) ∧
       objects_of e' = <[key := body_of body]> (objects_of e) ∧
       accepted repo key size body force (objects_of e))) e.
Proof.
  intros Hmax. unfold Upload. destruct (upload_key _ _ _ _ _) as [key|er] eqn:Hkey;
    [|apply wp_ret; by split; [|left]].
  apply wp_bind. unfold wp at 1, acquireInFlight. destruct (decide _) as [Hin|Hout]; simpl.
  { apply wp_ret. by split; [|left]. }
  apply wp_bind. eapply wp_mono; [apply upload_held_spec; [done|]|].
  { destruct (upload_key_Ok _ _ _ _ Hkey) as [[-> _]%keyFor_Ok _]. apply has_prefix_app. }
  intros r e1 [Hfl Ho]. apply wp_bind, wp_mod, wp_ret. unfold objects_of in *. simpl in *. split.
  - rewrite Hfl. set_solver.
  - destruct Ho as [?|[Ho Ha]]; [by left|right]. by exists key.
Qed.

(** C8: a successful upload has stored exactly the whole body under the
    repository's own key and nothing else; it replaced nothing without [force],
    the body has the announced size and respects the limit of one object, and
    with it the quotas of the repository hold. *)
Theorem upload_commits_only_checked repo path size body force (e e' : Engine) :
  MaxObjectSize < max_int64 →
  Upload adapters MaxObjectSize repo path size body force e = (None, e') →
  ∃ key, keyFor repo path = Ok key ∧ inFlight e' = inFlight e ∧
    let b := body_of body in
    objects_of e' = <[key := b]> (objects_of e) ∧
    (objects_of e !! key = None ∨ force = true) ∧
    body.2 = None ∧ (0 ≤ size → len b = size) ∧ (0 < MaxObjectSize → len b ≤ MaxObjectSize) ∧
    (used_bytes repo (objects_of e) + len b ≤ max_int64 →
     (0 < MaxBytes (repo_Quota repo) → used_bytes repo (objects_of e') ≤ MaxBytes (repo_Quota repo)) ∧
     (0 < MaxObjects (repo_Quota repo) → used_objects repo (objects_of e') ≤ MaxObjects (repo_Quota repo))).
Proof.
  intros Hmax Hup. pose proof (Upload_spec repo path size body force e Hmax) as Hs.
  unfold wp in Hs. rewrite Hup in Hs. simpl in Hs. destruct Hs as [Hfl [[_ ?]|(key & Hkey & _ & Ho & Hacc)]]; [done|].
  destruct Hacc as (Hforce & Hend & Hsize & Hquota). exists key.
  destruct (upload_key_Ok _ _ _ _ Hkey) as [Hk _]. rewrite Ho. unfold check_size in Hsize.
  destruct (_ && _) eqn:Hl in Hsize; [done|]. destruct (_ && _) eqn:Hn in Hsize; [done|].
  apply andb_false_iff in Hl. apply andb_false_iff in Hn.
  rewrite negb_false_iff, Z.eqb_eq, Z.leb_gt in Hn. rewrite !Z.ltb_ge in Hl.
  cbv zeta. split_and!; [done..|lia|lia|exact Hquota].
Qed.

(** C9: a failed upload leaves no trace: the key is free again and no object has
    changed, unless the storage committed the whole checked body and failed
    only in the report. *)
Theorem upload_failure_leaves_no_trace repo path size body force (e e' : Engine) er :
  MaxObjectSize < max_int64 →
  Upload adapters MaxObjectSize repo path size body force e = (Some er, e') →
  inFlight e' = inFlight e ∧
  (objects_of e' = objects_of e ∨
   ∃ key, keyFor repo path = Ok key ∧ objects_of e' = <[key := body_of body]> (objects_of e) ∧
     accepted repo key size body force (objects_of e)).
Proof.
  intros Hmax Hup. pose proof (Upload_spec repo path size body force e Hmax) as Hs.
  unfold wp in Hs. rewrite Hup in Hs. simpl in Hs. destruct Hs as [Hfl [[Ho _]|(key & Hkey & _ & Ho & Hacc)]].
  - by split; [|left].
  - split; [done|right]. destruct (upload_key_Ok _ _ _ _ Hkey) as [Hk _]. by exists key.
Qed.
End sequential.

(** * Concurrent uploads *)
Record upload := mk_upload {
  up_repo : Repo; up_path : string; up_size : Z; up_body : list string * option error; up_force : bool
}.

Section concurrent.
  Context {S : Type} `{Storage S}.
  Context (adapters : gmap string ((string → option error) * (Repo → St S (option error)))).
  Context (MaxObjectSize : Z).
  Abbreviation Engine := (Engine (S:=S)).

(** Where an upload is: the key it holds and what its variables are. *)
Inductive pc :=
| Begin
| Held (key : string)
| Checking (key : string) (old : Z) (ex : bool)
| Opening (key : string) (old : Z) (ex : bool)
| Copying (key : string) (old : Z) (ex : bool) (w : Writer) (n : Z) (chunks : list string) (err : option error)
| Copied (key : string) (old : Z) (ex : bool) (w : Writer) (n : Z)
| Committing (key : string) (w : Writer)
| Aborting (key : string) (w : Writer) (e : error)
| Releasing (key : string) (r : option error)
| Done (r : option error).

Definition copied (a : upload) (key : string) (old : Z) (ex : bool) (w : Writer) (n : Z) (err : option error) : pc :=
  match err with
  | Some e => Aborting key w (Wrap "publish: чтение тела" e)
  | None => match check_size MaxObjectSize n (up_size a) with
            | Some e => Aborting key w e
            | None => Copied key old ex w n
            end
  end.

(** One atomic action of [Upload]. *)
Definition step (a : upload) (p : pc) : St Engine pc :=
  match p with
  | Begin =>
      match upload_key adapters MaxObjectSize (up_repo a) (up_path a) (up_size a) with
      | Err e => mret (Done (Some e))
      | Ok key =>
          r ← acquireInFlight key;
          mret match r with Some e => Done (Some e) | None => Held key end
      end
  | Held key =>
      st ← statExisting key;
      mret match st with
           | Err e => Releasing key (Some e)
           | Ok (old, ex) =>
               if ex && negb (up_force a)
               then Releasing key (Some (ConflictError "объект" key
                      "уже загружен; force=true перезапишет (только админ)"))
               else Checking key old ex
           end
  | Checking key old ex =>
      q ← checkQuota (up_repo a) (up_size a) ex old;
      mret match q with Some e => Releasing key (Some e) | None => Opening key old ex end
  | Opening key old ex =>
      r ← on_storage (Put key);
      mret match r with
           | Err e => Releasing key (Some e)
           | Ok w => let '(chunks, err) := limited MaxObjectSize (up_body a) in
                     Copying key old ex w 0 chunks err
           end
  | Copying key old ex w n [] err => mret (copied a key old ex w n err)
  | Copying key old ex w n (c :: chunks) err =>
      r ← on_storage (Write w c);
      mret match r with
           | Err e => Aborting key w (Wrap "publish: чтение тела" e)
           | Ok w => Copying key old ex w (n + len c) chunks err
           end
  | Copied key old ex w n =>
      q ← checkQuota (up_repo a) n ex old;
      mret match q with Some e => Aborting key w e | None => Committing key w end
  | Committing key w =>
      r ← on_storage (Commit w);
      mret match r with Some e => Aborting key w e | None => Releasing key None end
  | Aborting key w e => on_storage (Abort w);; mret (Releasing key (Some e))
  | Releasing key r => releaseInFlight key;; mret (Done r)
  | Done r => mret (Done r)
  end.

(** ** The steps of one upload make up [Upload] *)
Definition solo (a : upload) (c c' : pc * Engine) : Prop := step a c.1 c.2 = c'.

Lemma solo_step a p e p' e' c : step a p e = (p', e') → rtc (solo a) (p', e') c → rtc (solo a) (p, e) c.
Proof. intros Hs Hr. eapply rtc_l; [|exact Hr]. exact Hs. Qed.
Lemma solo_release a key r (e : Engine) :
  rtc (solo a) (Releasing key r, e) (Done r, (releaseInFlight key e).2).
Proof. eapply solo_step; [reflexivity|]. apply rtc_refl. Qed.
Lemma solo_abort a key w er (e : Engine) :
  rtc (solo a) (Aborting key w er, e) (Releasing key (aborted w er e).1, (aborted w er e).2).
Proof.
  unfold aborted, mbind, st_bind. destruct (on_storage (Abort w) e) as [x e1] eqn:He.
  eapply solo_step; [|apply rtc_refl]. unfold step, mbind, st_bind. by rewrite He.
Qed.
Lemma solo_copy a key old ex err chunks : ∀ w n (e : Engine),
  rtc (solo a) (Copying key old ex w n chunks err, e)
    (match io_Copy w n chunks err e with
     | ((w, Err er), e) => (Aborting key w er, e)
     | ((w, Ok n), e) => (copied a key old ex w n None, e)
     end).
Proof.
  induction chunks as [|c chunks IH]; intros w n e; cbn [io_Copy].
  - eapply solo_step; [reflexivity|]. by destruct err.
  - unfold mbind, st_bind. destruct (on_storage (Write w c) e) as [[w1|er] e1] eqn:He.
    + eapply solo_step; [|apply IH]. unfold step, mbind, st_bind. by rewrite He.
    + eapply solo_step; [|apply rtc_refl]. unfold step, mbind, st_bind. by rewrite He.
Qed.

(** Runs one action: the state after [m] is named, and the step is taken. *)
Ltac solo_next m x e He :=
  destruct m as [x e] eqn:He; rewrite !(st_bind_run _ _ _ _ _ He);
  eapply solo_step; [unfold step, mbind, st_bind; rewrite He; reflexivity|].

Lemma solo_commit a key old ex w n (e : Engine) :
  let m := (q ← checkQuota (up_repo a) n ex old;
            match q with
            | Some e => aborted w e
            | None => r ← on_storage (Commit w);
                      match r with Some e => aborted w e | None => mret None end
            end) in
  rtc (solo a) (Copied key old ex w n, e) (Releasing key (m e).1, (m e).2).
Proof.
  cbv zeta. solo_next (checkQuota (up_repo a) n ex old e) q e1 Hq.
  destruct q as [er|]; [apply solo_abort|].
  solo_next (on_storage (Commit w) e1) r e2 Hr.
  destruct r as [er|]; [apply solo_abort|apply rtc_refl].
Qed.
Lemma solo_copyBody a key old ex w (e : Engine) :
  let '(chunks, err) := limited MaxObjectSize (up_body a) in
  rtc (solo a) (Copying key old ex w 0 chunks err, e)
    (match copyBody MaxObjectSize w (up_body a) (up_size a) e with
     | ((w, Err er), e) => (Aborting key w er, e)
     | ((w, Ok n), e) => (Copied key old ex w n, e)
     end).
Proof.
  unfold copyBody. destruct (limited MaxObjectSize (up_body a)) as [chunks err].
  pose proof (solo_copy a key old ex err chunks w 0 e) as Hc. unfold mbind, st_bind.
  destruct (io_Copy w 0 chunks err e) as [[w1 [n|er]] e1]; [|exact Hc].
  simpl. unfold copied in Hc. by destruct (check_size _ n (up_size a)).
Qed.
Lemma solo_held a key (e : Engine) :
  let m := upload_held MaxObjectSize (up_repo a) key (up_size a) (up_body a) (up_force a) in
  rtc (solo a) (Held key, e) (Releasing key (m e).1, (m e).2).
Proof.
  cbv zeta. unfold upload_held. solo_next (statExisting key e) st e1 Hst.
  destruct st as [[old ex]|er]; [|apply rtc_refl]. destruct (ex && negb (up_force a)); [apply rtc_refl|].
  solo_next (checkQuota (up_repo a) (up_size a) ex old e1) q e2 Hq.
  destruct q as [er|]; [apply rtc_refl|].
  solo_next (on_storage (Put key) e2) pt e3 Hp.
  destruct pt as [w|er]; [|apply rtc_refl].
  pose proof (solo_copyBody a key old ex w e3) as Hc.
  destruct (limited MaxObjectSize (up_body a)) as [chunks err]. etrans; [exact Hc|].
  destruct (copyBody _ w (up_body a) (up_size a) e3) as [[w1 [n|er]] e4] eqn:Hcp;
    rewrite !(st_bind_run _ _ _ _ _ Hcp); [apply solo_commit|apply solo_abort].
Qed.

(** An upload whose steps are not interleaved with anything does exactly
    what the sequential [Upload] does: from its beginning the steps reach
    [Done] with [Upload]'s result in [Upload]'s final state. *)
Theorem upload_steps_refine_Upload a (e : Engine) :
  let u := Upload adapters MaxObjectSize (up_repo a) (up_path a) (up_size a) (up_body a) (up_force a) e in
  rtc (solo a) (Begin, e) (Done u.1, u.2).
Proof.
  cbv zeta. unfold Upload. destruct (upload_key _ _ _ _ _) as [key|er] eqn:Hkey.
  2: { eapply solo_step; [unfold step; by rewrite Hkey|apply rtc_refl]. }
  destruct (acquireInFlight key e) as [b e1] eqn:Hb. rewrite !(st_bind_run _ _ _ _ _ Hb).
  eapply solo_step; [unfold step, mbind, st_bind; rewrite Hkey, Hb; reflexivity|].
  destruct b as [er|]; [apply rtc_refl|].
  etrans; [apply solo_held|]. destruct (upload_held _ _ _ _ _ _ e1) as [r e2] eqn:Hh.
  rewrite !(st_bind_run _ _ _ _ _ Hh). apply solo_release.
Qed.
End concurrent.

(** ** Interleavings of uploads and deletions *)
Section interleaving.
  Context {S : Type} `{Storage S} `{!StorageLaws S}.
  Context (adapters : gmap string ((string → option error) * (Repo → St S (option error)))).
  Context (MaxObjectSize : Z).
  Abbreviation Engine := (Engine (S:=S)).
  Abbreviation pc := (pc (S:=S)).
Definition system : Type := list (upload * pc) * Engine.

Inductive sys_step : system → system → Prop :=
| sys_start ts e a : sys_step (ts, e) (ts ++ [(a, Begin)], e)
| sys_upload ts e i a p p' e' :
    ts !! i = Some (a, p) → step adapters MaxObjectSize a p e = (p', e') →
    sys_step (ts, e) (<[i := (a, p')]> ts, e')
| sys_delete ts e repo path r e' :
    Delete_object adapters repo path e = (r, e') → sys_step (ts, e) (ts, e').
(** A fresh engine over some storage. *)
Definition initial (s : S) : system := ([], mk_Engine s ∅).

(** The key that an upload has in the map of uploads in flight. *)
Definition holds (p : pc) : option string :=
  match p with
  | Begin | Done _ => None
  | Held k | Checking k _ _ | Opening k _ _ | Copying k _ _ _ _ _ _ | Copied k _ _ _ _
  | Committing k _ | Aborting k _ _ | Releasing k _ => Some k
  end.
(** What an upload that is going to commit knows: it writes to its key, and
    the key is still free unless the upload is forced. *)
Definition thread_ok (m : gmap string string) (t : upload * pc) : Prop :=
  let free k (ex : bool) := if ex then up_force t.1 = true else m !! k = None in
  match t.2 with
  | Checking k _ ex | Opening k _ ex => free k ex
  | Copying k _ ex w _ _ _ | Copied k _ ex w _ => w_key w = k ∧ free k ex
  | Committing k w => w_key w = k ∧ (up_force t.1 = true ∨ m !! k = None)
  | _ => True
  end.

(** The effect of a step on the keys in flight, on the objects and on the
    upload itself. *)
Definition takes (p p' : pc) (f f' : gset string) : Prop :=
  match holds p, holds p' with
  | None, None => f' = f
  | None, Some k => (k ∉ f) ∧ f' = {[k]} ∪ f
  | Some k, None => f' = f ∖ {[k]}
  | Some k, Some k' => k' = k ∧ f' = f
  end.
Definition writes (p : pc) (m m' : gmap string string) : Prop :=
  m' = m ∨ ∃ k w, p = Committing k w ∧ m' = <[w_key w := w_bytes w]> m.
Definition step_effect (a : upload) (p p' : pc) (e e' : Engine) : Prop :=
  takes p p' (inFlight e) (inFlight e') ∧ writes p (objects_of e) (objects_of e') ∧
  thread_ok (objects_of e') (a, p').

Lemma step_effect_same a p p' e e' :
  core e' = core e → holds p' = holds p → thread_ok (objects_of e) (a, p') →
  step_effect a p p' e e'.
Proof.
  unfold core. intros [= Ho Hf] Hh Hok. unfold step_effect, takes, writes. rewrite Hh, Ho, Hf.
  split_and!; [by destruct (holds p)|by left|done].
Qed.
Lemma copied_effect a key old (ex : bool) w n err m :
  w_key w = key → (if ex then up_force a = true else m !! key = None) →
  thread_ok m (a, copied MaxObjectSize a key old ex w n err) ∧
  holds (copied MaxObjectSize a key old ex w n err) = Some key.
Proof. intros Hw Hex. unfold copied. destruct err; [done|]. by destruct (check_size _ _ _). Qed.

Lemma step_Begin a e :
  wp (step adapters MaxObjectSize a Begin) (λ p' e', step_effect a Begin p' e e') e.
Proof.
  unfold step. destruct (upload_key _ _ _ _ _) as [key|er]; [|by apply wp_ret, step_effect_same].
  apply wp_bind. unfold wp at 1, acquireInFlight. destruct (decide _); simpl.
  - by apply wp_ret, step_effect_same.
  - apply wp_ret. split_and!; [done|by left|done].
Qed.
Lemma step_Held a key e :
  wp (step adapters MaxObjectSize a (Held key)) (λ p' e', step_effect a (Held key) p' e e') e.
Proof.
  apply wp_bind, statExisting_spec. intros r e1 He1 Hr. apply wp_ret.
  destruct r as [[old ex]|er]; [|by apply step_effect_same]. specialize (Hr old ex eq_refl).
  destruct (ex && negb (up_force a)) eqn:Hf; apply step_effect_same; try done.
  simpl. destruct ex; [by apply negb_false_iff in Hf|apply Hr].
Qed.
Lemma step_Committing a key w e :
  thread_ok (objects_of e) (a, Committing key w) →
  wp (step adapters MaxObjectSize a (Committing key w)) (λ p' e', step_effect a (Committing key w) p' e e') e.
Proof.
  intros [Hw _]. apply wp_bind, wp_storage. apply wp_ret.
  pose proof (Commit_Some w (storage e)) as Hs.
  set (p' := match (Commit w (storage e)).1 with Some er => Aborting key w er | None => Releasing key None end).
  assert (holds p' = Some key ∧ ∀ m, thread_ok m (a, p')) as [Hh Hok] by (unfold p'; by destruct (Commit w _).1).
  split_and!; [unfold takes; by rewrite Hh| |done].
  destruct Hs as [Hs|Hs]; [by left|right]. by exists key, w.
Qed.
Lemma step_spec a p e :
  thread_ok (objects_of e) (a, p) →
  wp (step adapters MaxObjectSize a p) (λ p' e', step_effect a p p' e e') e.
Proof.
  destruct p as [|key|key old ex|key old ex|key old ex w n [|c cs] err|key old ex w n|key w|key w er|key r|r];
    intros Hok; [apply step_Begin|apply step_Held| | | | | |by apply step_Committing| | |].
  - apply wp_bind, checkQuota_spec. intros q e1 He1 _. apply wp_ret. by destruct q; apply step_effect_same.
  - apply wp_bind, wp_storage_keeps; [apply Put_keeps|]. intros e1 He1. apply wp_ret.
    pose proof (Put_Ok key (storage e)) as Hp. destruct (Put key (storage e)).1 as [w|er]; [|by apply step_effect_same].
    destruct (Hp w eq_refl) as [Hw _]. destruct (limited MaxObjectSize (up_body a)). by apply step_effect_same.
  - destruct Hok as [Hw Hex]. apply wp_ret. destruct (copied_effect a key old ex w n err (objects_of e) Hw Hex).
    by apply step_effect_same.
  - destruct Hok as [Hw Hex]. apply wp_bind, wp_storage_keeps; [apply Write_keeps|]. intros e1 He1. apply wp_ret.
    pose proof (Write_Ok w c (storage e)) as Hp. destruct (Write w c (storage e)).1 as [w1|er]; [|by apply step_effect_same].
    destruct (Hp w1 eq_refl) as [Hw1 _]. apply step_effect_same; [done..|]. split; [congruence|done].
  - destruct Hok as [Hw Hex]. apply wp_bind, checkQuota_spec. intros q e1 He1 _. apply wp_ret.
    destruct q; apply step_effect_same; try done. split; [done|]. destruct ex; auto.
  - apply wp_bind, wp_storage_keeps; [apply Abort_keeps|]. intros e1 He1. by apply wp_ret, step_effect_same.
  - apply wp_bind, wp_mod, wp_ret. split_and!; [done|by left|done].
  - by apply wp_ret, step_effect_same.
Qed.

Record inv (c : system) : Prop := {
  inv_held k : k ∈ inFlight c.2 ↔ ∃ i t, c.1 !! i = Some t ∧ holds t.2 = Some k;
  inv_excl i j t u k : c.1 !! i = Some t → c.1 !! j = Some u →
    holds t.2 = Some k → holds u.2 = Some k → i = j;
  inv_ok i t : c.1 !! i = Some t → thread_ok (objects_of c.2) t
}.

Lemma thread_ok_other m m' t :
  thread_ok m t → (∀ k, holds t.2 = Some k → m' !! k = m !! k ∨ m' !! k = None) → thread_ok m' t.
Proof.
  destruct t as [a p]. intros Hok Hm. specialize (λ k, Hm k) as Hm'. unfold thread_ok in *.
  destruct p; simpl in *; try done;
    destruct (Hm' _ eq_refl) as [->|Hn]; try done; rewrite ?Hn;
    repeat match goal with
           | |- context [if ?b then _ else _] => destruct b
           | H : _ ∧ _ |- _ => destruct H
           end; naive_solver.
Qed.
Lemma inv_start ts e a : inv (ts, e) → inv (ts ++ [(a, Begin)], e).
Proof.
  intros [Hh He Hok]. simpl in *. split; simpl.
  - intros k. rewrite Hh. split; intros (i & t & Hi & Ht).
    + exists i, t. split; [by apply lookup_app_l_Some|done].
    + apply lookup_snoc_Some in Hi as [[_ Hi]|[_ <-]]; [by exists i, t|done].
  - intros i j t u k Hi Hj Ht Hu.
    apply lookup_snoc_Some in Hi as [[_ Hi]|[_ <-]]; [|done].
    apply lookup_snoc_Some in Hj as [[_ Hj]|[_ <-]]; [|done]. by eapply He.
  - intros i t [[_ Hi]|[_ <-]]%lookup_snoc_Some; [by eapply Hok|done].
Qed.
Lemma inv_delete ts (e : Engine) repo path :
  inv (ts, e) → inv (ts, (Delete_object adapters repo path e).2).
Proof.
  intros [Hh He Hok]. unfold Delete_object. destruct (Delete_key _ _ _) as [key|er]; [|by split].
  unfold on_storage, zoom. destruct (Delete key (storage e)) as [r s'] eqn:Hd. split; simpl in *; [done..|].
  intros i t Hi. eapply thread_ok_other; [by eapply Hok|]. intros k _. unfold objects_of. simpl.
  pose proof (Delete_Some key (storage e)) as Hs. rewrite Hd in Hs. simpl in Hs. destruct Hs as [->| ->]; [by left|].
  destruct (decide (key = k)) as [<-|]; [right; apply lookup_delete_eq|left; by apply lookup_delete_ne].
Qed.

(** The keys in flight after a step of the [i]-th upload. *)
Lemma takes_held (ts : list (upload * pc)) (i : nat) a p p' (f f' : gset string) :
  ts !! i = Some (a, p) → takes p p' f f' →
  (∀ k, k ∈ f ↔ ∃ i t, ts !! i = Some t ∧ holds t.2 = Some k) →
  (∀ j t u k, ts !! i = Some t → ts !! j = Some u → holds t.2 = Some k → holds u.2 = Some k → i = j) →
  (∀ j u k, j ≠ i → ts !! j = Some u → holds u.2 = Some k → k ∈ f' ∧ holds p' ≠ Some k) ∧
  (∀ k, k ∈ f' → holds p' = Some k ∨ ∃ j u, j ≠ i ∧ ts !! j = Some u ∧ holds u.2 = Some k) ∧
  (∀ k, holds p' = Some k → k ∈ f').
Proof.
  intros Hi Htake Hh He. unfold takes in Htake.
  assert (∀ j u k, j ≠ i → ts !! j = Some u → holds u.2 = Some k → k ∈ f ∧ holds p ≠ Some k) as Hother.
  { intros j u k Hne Hj Hu. split; [apply Hh; eauto|]. intros Hp. apply Hne. symmetry.
    by apply (He j (a, p) u k). }
  destruct (holds p) as [k0|] eqn:Hp, (holds p') as [k1|] eqn:Hp'.
  - destruct Htake as [-> ->]. split_and!; [exact Hother| |].
    + intros k (j & u & Hj & Hu)%Hh. destruct (decide (j = i)) as [->|]; [left|right; eauto].
      rewrite Hi in Hj. injection Hj as <-. simpl in Hu. congruence.
    + intros k [= <-]. apply Hh. by exists i, (a, p).
  - subst f'. split_and!; [|intros k Hk|done].
    + intros j u k Hne Hj Hu. destruct (Hother j u k Hne Hj Hu). split; [|done].
      apply elem_of_difference. split; [done|]. intros ->%elem_of_singleton. done.
    + apply elem_of_difference in Hk as [(j & u & Hj & Hu)%Hh Hk]. right. exists j, u. split_and!; [|done..].
      intros ->. rewrite Hi in Hj. injection Hj as <-. simpl in Hu. rewrite Hp in Hu. set_solver.
  - destruct Htake as [Hnew ->]. split_and!; [|intros k Hk|intros k [= <-]; set_solver].
    + intros j u k Hne Hj Hu. destruct (Hother j u k Hne Hj Hu). split; [set_solver|]. by intros [= ->].
    + apply elem_of_union in Hk as [->%elem_of_singleton|Hk]; [by left|right].
      apply Hh in Hk as (j & u & Hj & Hu). exists j, u. split_and!; [|done..].
      intros ->. rewrite Hi in Hj. injection Hj as <-. simpl in Hu. congruence.
  - subst f'. split_and!; [exact Hother|intros k Hk|done].
    apply Hh in Hk as (j & u & Hj & Hu). right. exists j, u. split_and!; [|done..].
    intros ->. rewrite Hi in Hj. injection Hj as <-. simpl in Hu. congruence.
Qed.
Lemma inv_upload ts e i a p p' e' :
  inv (ts, e) → ts !! i = Some (a, p) → step_effect a p p' e e' → inv (<[i := (a, p')]> ts, e').
Proof.
  intros [Hh He Hok] Hi (Htake & Hwr & Hok'). simpl in *.
  pose proof (lookup_lt_Some _ _ _ Hi) as Hlt.
  destruct (takes_held ts i a p p' _ _ Hi Htake Hh (λ j t u k, He i j t u k)) as (Hothers & Hback & Hmine).
  split; simpl.
  - intros k. split.
    + intros [Hk|(j & u & Hne & Hj & Hu)]%Hback.
      * exists i, (a, p'). by rewrite list_lookup_insert_eq.
      * exists j, u. by rewrite list_lookup_insert_ne.
    + intros (j & t & [(<- & <- & _)|(Hne & Hj)]%list_lookup_insert_Some & Ht); [by apply Hmine|].
      by eapply Hothers.
  - intros j1 j2 t u k H1 H2 Ht Hu.
    apply list_lookup_insert_Some in H1 as [(<- & <- & _)|(Hn1 & H1)];
      apply list_lookup_insert_Some in H2 as [(<- & <- & _)|(Hn2 & H2)]; [done| | |by eapply He].
    + by destruct (Hothers j2 u k) as [_ []].
    + by destruct (Hothers j1 t k) as [_ []].
  - intros j t [(<- & <- & _)|(Hne & Hj)]%list_lookup_insert_Some; [done|].
    eapply thread_ok_other; [by eapply Hok|]. intros k Hk. left.
    destruct Hwr as [->|(key & w & -> & ->)]; [done|]. destruct (Hok i _ Hi) as [Hw _].
    apply lookup_insert_ne. rewrite Hw. intros ->.
    apply Hne. by eapply (He i j (a, Committing k w) t k).
Qed.
Lemma publish_inv_step c c' : inv c → sys_step c c' → inv c'.
Proof.
  intros Hc Hs. inversion Hs; subst.
  - by apply inv_start.
  - eapply inv_upload; [done|done|].
    pose proof (step_spec a p e (inv_ok _ Hc i _ H0)) as Hsp. unfold wp in Hsp. by rewrite H1 in Hsp.
  - pose proof (inv_delete ts e repo path Hc) as Hd. by rewrite H0 in Hd.
Qed.
Lemma publish_inv_reachable s c : rtc sys_step (initial s) c → inv c.
Proof.
  intros Hr. assert (inv (initial s)) as Hi.
  { split; simpl; [|done..]. intros k. split; [set_solver|]. by intros (i & t & Hi & _). }
  induction Hr as [|c c1 c2 Hs _ IH]; [done|]. by eapply IH, publish_inv_step.
Qed.

(** In every interleaving of uploads and deletions the keys in flight are
    exactly the keys of the uploads in progress, no two of which have the same
    key; once all uploads are done no key is left in flight. *)
Theorem uploads_exclude_each_other s ts e :
  rtc sys_step (initial s) (ts, e) →
  (∀ k, k ∈ inFlight e ↔ ∃ i t, ts !! i = Some t ∧ holds t.2 = Some k) ∧
  (∀ i j t u k, ts !! i = Some t → ts !! j = Some u → i ≠ j →
     holds t.2 = Some k → holds u.2 ≠ Some k) ∧
  ((∀ i t, ts !! i = Some t → ∃ r, t.2 = Done r) → inFlight e = ∅).
Proof.
  intros Hr. destruct (publish_inv_reachable _ _ Hr) as [Hh He _]. simpl in *. split_and!; [exact Hh| |].
  - intros i j t u k Hi Hj Hne Ht Hu. by apply Hne, (He i j t u k).
  - intros Hdone. apply elem_of_equiv_empty_L. intros k (i & t & Hi & Ht)%Hh.
    destruct (Hdone i t Hi) as [r Hd]. by rewrite Hd in Ht.
Qed.

(** C10: in every interleaving of uploads and deletions a stored object is only
    ever replaced by an upload with [force] (or deleted): two uploads of one
    key never overwrite each other silently. *)
Theorem no_silent_overwrite s ts e ts' e' k b b' :
  rtc sys_step (initial s) (ts, e) → sys_step (ts, e) (ts', e') →
  objects_of e !! k = Some b → objects_of e' !! k = Some b' → b' ≠ b →
  ∃ i a w, ts !! i = Some (a, Committing k w) ∧ up_force a = true ∧ b' = w_bytes w.
Proof.
  intros Hr Hs Hb Hb' Hne. pose proof (publish_inv_reachable _ _ Hr) as Hinv.
  inversion Hs as [| ? ? i a p p' ? Hi Hstep| ? ? repo path r ? Hdel]; subst.
  - congruence.
  - pose proof (inv_ok _ Hinv i _ Hi) as Hok.
    pose proof (step_spec a p e Hok) as Hsp. unfold wp in Hsp. rewrite Hstep in Hsp.
    destruct Hsp as (_ & [Heq|(key & w & -> & Heq)] & _); simpl in Heq; [congruence|].
    destruct Hok as [Hw Hfree]. simpl in Hw, Hfree. rewrite Heq, Hw in Hb'.
    apply lookup_insert_Some in Hb' as [[-> <-]|[_ Hb']]; [|congruence].
    exists i, a, w. split_and!; [done| |done]. destruct Hfree as [?|Hn]; [done|congruence].
  - exfalso. unfold Delete_object in Hdel. destruct (Delete_key _ _ _) as [key|er]; [|injection Hdel as _ ->; congruence].
    unfold on_storage, zoom in Hdel. destruct (Delete key (storage e)) as [x s'] eqn:Hd.
    injection Hdel as _ <-. pose proof (Delete_Some key (storage e)) as Hds. rewrite Hd in Hds.
    unfold objects_of in *. simpl in *. destruct Hds as [Heq|Heq]; rewrite Heq in Hb'; [congruence|].
    apply lookup_delete_Some in Hb' as [_ Hb']. congruence.
Qed.

(** A schedule: the actions of the system, executed. *)
Inductive act := AStart (a : upload) | AStep (i : nat) | ADelete (repo : Repo) (path : string).
Definition exec (x : act) (c : system) : system :=
  match x with
  | AStart a => (c.1 ++ [(a, Begin)], c.2)
  | AStep i =>
      match c.1 !! i with
      | None => c
      | Some (a, p) => let '(p', e') := step adapters MaxObjectSize a p c.2 in (<[i := (a, p')]> c.1, e')
      end
  | ADelete repo path => (c.1, (Delete_object adapters repo path c.2).2)
  end.
Lemma exec_step x c : (∀ i, x = AStep i → is_Some (c.1 !! i)) → sys_step c (exec x c).
Proof.
  destruct c as [ts e]. intros Hx. destruct x as [a|i|repo path]; simpl.
  - constructor.
  - destruct (Hx i eq_refl) as [[a p] Hi]. simpl in Hi. rewrite Hi.
    destruct (step _ _ _ _ _) as [p' e'] eqn:Hs. by eapply sys_upload.
  - apply (sys_delete ts e repo path (Delete_object adapters repo path e).1). apply surjective_pairing.
Qed.
Lemma exec_run xs : ∀ c, rtc sys_step c (foldl (λ c x, exec x c) c xs).
Proof.
  induction xs as [|x xs IH]; intros c; simpl; [done|]. etrans; [|apply IH].
  destruct x as [a|i|repo path]; [apply rtc_once, exec_step; done| |apply rtc_once, exec_step; done].
  destruct (c.1 !! i) as [t|] eqn:Hi.
  - apply rtc_once, exec_step. intros j [= <-]. by exists t.
  - simpl. by rewrite Hi.
Qed.
End interleaving.

(** * A concrete repository *)
Module PublishDemo.
Definition repo : Repo := mk_Repo 7 1 "mine" "apt" (mk_Quota 10 2) (mk_Retention 0 0) 0.
Definition adapters : gmap string ((string → option error) * (Repo → St FakeStorage (option error))) :=
  <["apt" := ((λ _, None), (λ _, mret None))]> ∅.
Definition store : FakeStorage := mk_FakeStorage (<["repo/7/apt/a" := ("aaa", 1)]> ∅) 0.
Definition engine : Engine := mk_Engine store ∅.
Definition put (path : string) (body : string) (force : bool) : upload :=
  mk_upload repo path (len body) ([body], None) force.
Definition up (a : upload) := Upload adapters 100 (up_repo a) (up_path a) (up_size a) (up_body a) (up_force a) engine.

Example up_new : sorted_keys (objects (storage (up (put "b" "bb" false)).2)) = ["repo/7/apt/a"; "repo/7/apt/b"].
Proof. vm_compute. reflexivity. Qed.
Example up_conflict : is_Some (up (put "a" "bb" false)).1 ∧ (up (put "a" "bb" true)).1 = None.
Proof. split; vm_compute; [by eexists|reflexivity]. Qed.
Example up_quota : (up (put "b" "12345678" false)).1 = Some (QuotaExceededError 7 11 10).
Proof. vm_compute. reflexivity. Qed.
Definition new_up := up (put "b" "bb" false).
Lemma new_up_split : Upload adapters 100 repo "b" 2 (["bb"], None) false engine = (None, new_up.2).
Proof. vm_compute. reflexivity. Qed.
Definition big_up := up (put "b" "12345678" false).
Lemma big_up_split :
  Upload adapters 100 repo "b" 8 (["12345678"], None) false engine = (Some (QuotaExceededError 7 11 10), big_up.2).
Proof. vm_compute. reflexivity. Qed.

Lemma upload_commits_only_checked_witness :
  objects_of new_up.2 = <["repo/7/apt/b" := "bb"]> (objects_of engine) ∧ used_bytes repo (objects_of new_up.2) ≤ 10.
Proof.
  destruct (upload_commits_only_checked adapters 100 repo "b" 2 (["bb"], None) false engine new_up.2)
    as (key & Hkey & _ & Ho & _ & _ & _ & _ & Hq); [by compute|exact new_up_split|].
  vm_compute in Hkey. injection Hkey as <-. split; [exact Ho|].
  apply Hq; [vm_compute; discriminate|by compute].
Defined.
Lemma upload_failure_leaves_no_trace_witness : inFlight big_up.2 = ∅.
Proof.
  exact (proj1 (upload_failure_leaves_no_trace adapters 100 repo "b" 8 (["12345678"], None) false engine
    big_up.2 _ ltac:(by compute) big_up_split)).
Defined.

(** Two uploads of one key and a forced one, interleaved. *)
Definition before : system :=
  foldl (λ c x, exec adapters 100 x c) (initial store)
    ([AStart (put "b" "b1" false); AStart (put "b" "b2" false); AStart (put "a" "new" true)] ++
     [AStep 0; AStep 2; AStep 1; AStep 0; AStep 2] ++ repeat (AStep 2) 5).
Definition after : system := exec adapters 100 (AStep 2) before.
Example second_upload_refused :
  match before.1 !! 1%nat with Some (_, Done (Some (ConflictError _ k _))) => k | _ => "" end = "repo/7/apt/b".
Proof. vm_compute. reflexivity. Qed.
Lemma before_reached : rtc (sys_step adapters 100) (initial store) (before.1, before.2).
Proof. rewrite <- surjective_pairing. apply exec_run. Qed.
Lemma before_after : sys_step adapters 100 (before.1, before.2) (after.1, after.2).
Proof.
  rewrite <- !surjective_pairing. apply exec_step. intros i [= <-].
  apply (bool_decide_unpack _). vm_compute. exact Logic.I.
Qed.
Lemma uploads_exclude_each_other_witness :
  "repo/7/apt/b" ∈ inFlight before.2 ∧ ∀ k, k ∈ inFlight before.2 ↔
    ∃ i t, before.1 !! i = Some t ∧ holds t.2 = Some k.
Proof.
  split; [|exact (proj1 (uploads_exclude_each_other adapters 100 store before.1 before.2 before_reached))].
  apply (bool_decide_unpack _). vm_compute. exact Logic.I.
Defined.
Lemma no_silent_overwrite_witness :
  ∃ i a w, before.1 !! i = Some (a, Committing (S:=FakeStorage) "repo/7/apt/a" w) ∧ up_force a = true ∧
    "new" = w_bytes w.
Proof.
  apply (no_silent_overwrite adapters 100 store before.1 before.2 after.1 after.2 "repo/7/apt/a" "aaa" "new"
    before_reached before_after); [vm_compute; reflexivity..|discriminate].
Defined.

(** The documented limit of the quota: uploads of different keys that both
    pass their checks before either commits exceed it together. *)
Definition race : system :=
  foldl (λ c x, exec adapters 100 x c) (initial store)
    ([AStart (put "b" "12345" false); AStart (put "c" "12345" false)] ++
     repeat (AStep 0) 7 ++ repeat (AStep 1) 7 ++ repeat (AStep 0) 2 ++ repeat (AStep 1) 2).
Example quota_race :
  map (λ t, match t.2 with Done None => true | _ => false end) race.1 = [true; true] ∧
  used_bytes repo (objects_of race.2) = 13.
Proof. split; vm_compute; reflexivity. Qed.
End PublishDemo.
