(* ===== verification/HttpRange.v ===== *)
(** Range requests (internal/core/web/range.go): parsing of the header, the
    choice between 200, 206 and 416, and the single and multipart bodies.

    The connection is a part of the state: [room] is how many bytes the client
    still takes before it breaks off. An opened body is what its reader yields
    and the error that ends it. Numbers that the code keeps between 0 and the
    size of the object are unbounded integers here; the total of a multipart
    body, which has no such bound, is computed in 64 bits. *)
From S2P Require Import Prelude GoStr Domain Port.
Local Open Scope Z_scope.

(** * Parsing *)
Inductive range_error := errNoOverlap | invalid_range.
Abbreviation parsed := (result range_error).

Record byteRange := mk_byteRange { br_start : Z; br_length : Z }.
#[global] Instance byteRange_eq_dec : EqDecision byteRange.
Proof. solve_decision. Defined.

Definition first_is (c : ascii) (s : string) : bool :=
  match s with String d _ => Ascii.eqb c d | EmptyString => false end.

(** One element of the list: [Ok None] is a range that begins behind the end. *)
Definition parse_suffix (end_ : string) (size : Z) : parsed (option byteRange) :=
  if String.eqb end_ "" || first_is "-" end_ then Err invalid_range
  else match parse_int end_ with
       | None => Err invalid_range
       | Some i =>
           if i <? 0 then Err invalid_range
           else
             let i := if size <? i then size else i in
             let first := size - i in
             Ok (Some (mk_byteRange first (size - first)))
       end.
Definition parse_from (start_ end_ : string) (size : Z) : parsed (option byteRange) :=
  match parse_int start_ with
  | None => Err invalid_range
  | Some i =>
      if i <? 0 then Err invalid_range
      else if size <=? i then Ok None
      else if String.eqb end_ "" then Ok (Some (mk_byteRange i (size - i)))
      else match parse_int end_ with
           | None => Err invalid_range
           | Some j =>
               if j <? i then Err invalid_range
               else
                 let j := if size <=? j then size - 1 else j in
                 Ok (Some (mk_byteRange i (j - i + 1)))
           end
  end.
Definition parse_one (ra : string) (size : Z) : parsed (option byteRange) :=
  match cut "-" ra with
  | (_, _, false) => Err invalid_range
  | (start_, end_, true) =>
      let start_ := trim_space start_ in
      let end_ := trim_space end_ in
      if String.eqb start_ "" then parse_suffix end_ size else parse_from start_ end_ size
  end.
(** The loop over the elements; [noOverlap] and the ranges so far. *)
Fixpoint parse_list (ras : list string) (size : Z) (noOverlap : bool) (ranges : list byteRange) :
    parsed (list byteRange) :=
  match ras with
  | [] => if noOverlap && bool_decide (ranges = []) then Err errNoOverlap else Ok ranges
  | ra :: ras =>
      let ra := trim_space ra in
      if String.eqb ra "" then parse_list ras size noOverlap ranges
      else match parse_one ra size with
           | Err e => Err e
           | Ok None => parse_list ras size true ranges
           | Ok (Some r) => parse_list ras size noOverlap (ranges ++ [r])
           end
  end.
Definition parseByteRanges (s : string) (size : Z) : parsed (list byteRange) :=
  match strip_prefix "bytes=" s with
  | None => Err invalid_range
  | Some s => parse_list (split "," s) size false []
  end.

(** * Responses *)
(** [formatInt] of proxy.go: decimal digits of what is not negative. *)
Fixpoint formatInt_loop (fuel : nat) (n : Z) (b : string) : string :=
  match fuel with
  | O => b
  | S fuel =>
      if 0 <? n
      then formatInt_loop fuel (n / 10)
             (match String.get (Z.to_nat (n mod 10)) digits10 with
              | Some c => String c b
              | None => b
              end)
      else b
  end.
Definition formatInt (n : Z) : string :=
  if n =? 0 then "0"
  else let b := formatInt_loop 20 n "" in
       if String.eqb b "" then "0" else b.
Definition formatContentRange (start length size : Z) : string :=
  "bytes " +:+ formatInt start +:+ "-" +:+ formatInt (start + length - 1) +:+ "/" +:+ formatInt size.

Definition crlf : string := String "013" (String "010" "").

Record Response := mk_Response {
  Status : option Z;                (* written by the first [WriteHeader] or [Write] *)
  Header : gmap string string;
  Body : string;
  room : option Z;
  bytes_seen : list Z;              (* the calls of [onBytes] *)
  ranges_seen : Z                   (* the calls of [onRange] *)
}.
Abbreviation M := (St Response).
Definition set_header (k v : string) : M unit :=
  st_mod (λ w, mk_Response (Status w) (<[k := v]> (Header w)) (Body w) (room w) (bytes_seen w) (ranges_seen w)).
Definition del_header (k : string) : M unit :=
  st_mod (λ w, mk_Response (Status w) (delete k (Header w)) (Body w) (room w) (bytes_seen w) (ranges_seen w)).
Definition WriteHeader (code : Z) : M unit :=
  st_mod (λ w, mk_Response (Some (default code (Status w))) (Header w) (Body w) (room w) (bytes_seen w) (ranges_seen w)).
Definition onBytes (n : Z) : M unit :=
  st_mod (λ w, mk_Response (Status w) (Header w) (Body w) (room w) (bytes_seen w ++ [n]) (ranges_seen w)).
Definition onRange : M unit :=
  st_mod (λ w, mk_Response (Status w) (Header w) (Body w) (room w) (bytes_seen w) (ranges_seen w + 1)).

Definition client_gone : error := Text "write: broken pipe".
(** [Write]: how many bytes the client took, and the error if not all. *)
Definition write (p : string) : M (Z * option error) := λ w,
  let st := Some (default 200 (Status w)) in
  match room w with
  | None => ((len p, None), mk_Response st (Header w) (Body w +:+ p) None (bytes_seen w) (ranges_seen w))
  | Some n =>
      if len p <=? n
      then ((len p, None), mk_Response st (Header w) (Body w +:+ p) (Some (n - len p)) (bytes_seen w) (ranges_seen w))
      else ((n, Some client_gone), mk_Response st (Header w) (Body w +:+ substr 0 n p) (Some 0) (bytes_seen w) (ranges_seen w))
  end.
(** [io.CopyBuffer] from an opened body. *)
Definition copy (body : string * option error) : M (Z * option error) :=
  r ← write body.1;
  mret match r with
       | (n, Some e) => (n, Some e)
       | (n, None) => (n, body.2)
       end.

(** [http.Error]. *)
Definition http_Error (msg : string) (code : Z) : M unit :=
  del_header "Content-Length";;
  set_header "Content-Type" "text/plain; charset=utf-8";;
  set_header "X-Content-Type-Options" "nosniff";;
  WriteHeader code;;
  write (msg +:+ String "010" "");;
  mret tt.
Definition writeProxyError (e : error) : M unit :=
  if has_type is_NotFound e then http_Error "not found" 404
  else if has_type is_InvalidKey e then http_Error "invalid storage path" 400
  else if has_type is_TooLarge e then http_Error "upstream object too large" 502
  else if has_type is_Unavailable e then http_Error "storage unavailable" 503
  else if has_type is_Upstream e then http_Error "upstream error" 502
  else http_Error "proxy error" 502.

Section serve.
  (** [http.ParseTime], the 16 random bytes of a boundary in hex, and how the
      object is opened. *)
  Context (http_ParseTime : string → option Z).
  Context (boundary : res string).
  Context (openFull : res (string * option error)).
  Context (openRange : Z → Z → res (string * option error)).
  (** The request: is it a HEAD, and its headers [Range] and [If-Range]. *)
  Context (head : bool) (Range IfRange : string).

Definition sendFull : M unit :=
  set_header "Accept-Ranges" "bytes";;
  if head then onBytes 0
  else match openFull with
       | Err e => del_header "Content-Length";; writeProxyError e
       | Ok body => r ← copy body; onBytes r.1
       end.

Definition writeUnsatisfiable (size : Z) : M unit :=
  del_header "Content-Length";;
  set_header "Content-Range" ("bytes */" +:+ formatInt size);;
  WriteHeader 416.

Definition ifRangeAllows (meta : Meta) : bool :=
  if String.eqb IfRange "" then true
  else if first_is "034" IfRange || has_prefix IfRange "W/"
  then negb (String.eqb (mt_ETag meta) "") && String.eqb IfRange (mt_ETag meta)
  else match http_ParseTime IfRange with
       | None => false
       | Some t =>
           if is_zero_time (mt_ModTime meta) then false
           else t / second =? mt_ModTime meta / second
       end.

Definition maxMultipartRanges : nat := 256.

(** The frame of a part before its data. *)
Definition part_head (boundary contentType : string) (size : Z) (rg : byteRange) : string :=
  "--" +:+ boundary +:+ crlf +:+
  "Content-Range: " +:+ formatContentRange (br_start rg) (br_length rg) size +:+ crlf +:+
  "Content-Type: " +:+ contentType +:+ crlf +:+ crlf.
Definition closing (boundary : string) : string := "--" +:+ boundary +:+ "--" +:+ crlf.
Definition partOverhead (boundary contentType contentRange : string) : Z :=
  len ("--" +:+ boundary +:+ crlf) + len ("Content-Range: " +:+ contentRange +:+ crlf) +
  len ("Content-Type: " +:+ contentType +:+ crlf) + len crlf + len crlf.

Definition writeMultipartPart (boundary contentType : string) (size : Z) (rg : byteRange) :
    M (Z * option error) :=
  match openRange (br_start rg) (br_length rg) with
  | Err e => mret (0, Some e)
  | Ok body =>
      h ← write (part_head boundary contentType size rg);
      match h.2 with
      | Some e => mret (0, Some e)
      | None =>
          c ← copy body;
          match c.2 with
          | Some e => mret (c.1, Some e)
          | None => t ← write crlf; mret (c.1, t.2)
          end
      end
  end.
(** The loop over the parts: the bytes of the object that were sent, and
    whether some part was written. *)
Fixpoint write_parts (boundary contentType : string) (size : Z) (ranges : list byteRange)
    (sent : Z) (final : bool) : M (Z * bool) :=
  match ranges with
  | [] => mret (sent, final)
  | rg :: ranges =>
      r ← writeMultipartPart boundary contentType size rg;
      match r.2 with
      | Some _ => mret (sent + r.1, final)
      | None => write_parts boundary contentType size ranges (sent + r.1) true
      end
  end.
Definition total_length (boundary contentType : string) (size : Z) (ranges : list byteRange) : Z :=
  foldl (λ total rg, wrap64 (wrap64 (total + br_length rg) +
      partOverhead boundary contentType (formatContentRange (br_start rg) (br_length rg) size)))
    (len (closing boundary)) ranges.

Definition serveMultipart (meta : Meta) (ranges : list byteRange) : M unit :=
  match boundary with
  | Err _ => http_Error "proxy error" 500
  | Ok boundary =>
      declared ← st_gets (λ w, default "" (Header w !! "Content-Type"));
      let contentType := if String.eqb declared "" then "application/octet-stream" else declared in
      set_header "Accept-Ranges" "bytes";;
      set_header "Content-Type" ("multipart/byteranges; boundary=" +:+ boundary);;
      set_header "Content-Length" (formatInt (total_length boundary contentType (mt_Size meta) ranges));;
      WriteHeader 206;;
      if head then onRange
      else
        r ← write_parts boundary contentType (mt_Size meta) ranges 0 false;
        (if r.2 : bool then write (closing boundary);; mret tt else mret tt);;
        onBytes r.1;;
        onRange
  end.

Definition serve_single (meta : Meta) (rg : byteRange) : M unit :=
  if br_length rg <=? 0 then writeUnsatisfiable (mt_Size meta)
  else
    set_header "Accept-Ranges" "bytes";;
    set_header "Content-Range" (formatContentRange (br_start rg) (br_length rg) (mt_Size meta));;
    set_header "Content-Length" (formatInt (br_length rg));;
    if head then WriteHeader 206;; onRange
    else match openRange (br_start rg) (br_length rg) with
         | Err e =>
             del_header "Content-Length";;
             del_header "Content-Range";;
             writeProxyError e
         | Ok body =>
             WriteHeader 206;;
             r ← copy body;
             onBytes r.1;;
             onRange
         end.

Definition serveRanged (meta : Meta) : M unit :=
  if String.eqb Range "" || (mt_Size meta <? 0) then sendFull
  else if negb (ifRangeAllows meta) then sendFull
  else match parseByteRanges Range (mt_Size meta) with
       | Err errNoOverlap => writeUnsatisfiable (mt_Size meta)
       | Err invalid_range => sendFull
       | Ok [] => sendFull
       | Ok [rg] => serve_single meta rg
       | Ok ranges =>
           if (maxMultipartRanges <? length ranges)%nat then sendFull
           else serveMultipart meta ranges
       end.
End serve.

(** * Parsing: what the header means *)
(** Text without white space is not trimmed. *)
Definition plain (c : ascii) : bool := is_digit c || Ascii.eqb "-" c.
Lemma trim_space_plain s : all_bytes plain s = true → trim_space s = s.
Proof. by apply trim_space_outside. Qed.
Lemma digits_plain s : all_bytes is_digit s = true → all_bytes plain s = true.
Proof. apply all_bytes_impl. intros c Hc. unfold plain. by rewrite Hc. Qed.
Lemma digits_avoid c s :
  is_digit c = false → all_bytes is_digit s = true → all_bytes (λ d, negb (Ascii.eqb c d)) s = true.
Proof.
  intros Hc. apply all_bytes_impl. intros d Hd. destruct (Ascii.eqb_spec c d) as [<-|]; [congruence|done].
Qed.

(** The three forms of RFC 9110, and the part of the object that each names. *)
Inductive range_spec := RFrom (a : Z) | RBetween (a b : Z) | RSuffix (n : Z).
Definition render (r : range_spec) : string :=
  match r with
  | RFrom a => fmt_int a +:+ "-"
  | RBetween a b => fmt_int a +:+ "-" +:+ fmt_int b
  | RSuffix n => "-" +:+ fmt_int n
  end.
Definition range_valid (r : range_spec) : Prop :=
  match r with
  | RFrom a | RSuffix a => 0 ≤ a ≤ max_int64
  | RBetween a b => 0 ≤ a ≤ b ∧ b ≤ max_int64
  end.
Definition meaning (size : Z) (r : range_spec) : option byteRange :=
  match r with
  | RFrom a => if decide (a < size) then Some (mk_byteRange a (size - a)) else None
  | RBetween a b =>
      if decide (a < size) then Some (mk_byteRange a (Z.min b (size - 1) - a + 1)) else None
  | RSuffix n => Some (mk_byteRange (size - Z.min n size) (Z.min n size))
  end.
Definition range_header (rs : list range_spec) : string :=
  "bytes=" +:+ String.concat "," (render <$> rs).

Lemma fmt_digits n : 0 ≤ n → all_bytes is_digit (fmt_int n) = true ∧ fmt_int n ≠ "".
Proof. intros Hn. destruct (fmt_int_nonneg n Hn) as (_ & ? & ?). done. Qed.
Lemma fmt_first n : 0 ≤ n → first_is "-" (fmt_int n) = false.
Proof.
  intros Hn. destruct (fmt_digits n Hn) as [Hd Hne]. destruct (fmt_int n) as [|c s]; [done|].
  cbn [first_is all_bytes] in *. apply andb_true_iff in Hd as [Hc _]. destruct (Ascii.eqb_spec "-" c) as [Heq|]; [by subst c|done].
Qed.
Lemma trim_fmt n : 0 ≤ n → trim_space (fmt_int n) = fmt_int n.
Proof. intros Hn. apply trim_space_plain, digits_plain, fmt_digits, Hn. Qed.
Lemma cut_dash a s : 0 ≤ a → cut "-" (fmt_int a +:+ String "-" s) = (fmt_int a, s, true).
Proof. intros Ha. apply cut_app, digits_avoid; [done|]. by apply fmt_digits. Qed.
Lemma fmt_eqb n : 0 ≤ n → String.eqb (fmt_int n) "" = false.
Proof. intros Hn. apply String.eqb_neq, fmt_digits, Hn. Qed.

Lemma parse_one_render size r :
  0 ≤ size → range_valid r → parse_one (render r) size = Ok (meaning size r).
Proof.
  intros Hsz Hv. unfold parse_one. destruct r as [a|a b|n]; simpl in Hv; unfold render, meaning.
  - change (fmt_int a +:+ "-") with (fmt_int a +:+ String "-" ""). rewrite cut_dash, trim_fmt, fmt_eqb by lia.
    unfold parse_from. rewrite parse_int_fmt by (unfold in_int64, min_int64, max_int64 in *; lia).
    destruct (Z.ltb_spec a 0); [lia|]. destruct (Z.leb_spec size a), (decide (a < size)); try lia; done.
  - change (fmt_int a +:+ "-" +:+ fmt_int b) with (fmt_int a +:+ String "-" (fmt_int b)).
    rewrite cut_dash, !trim_fmt, fmt_eqb by lia.
    unfold parse_from. rewrite !parse_int_fmt by (unfold in_int64, min_int64, max_int64 in *; lia).
    rewrite fmt_eqb by lia.
    destruct (Z.ltb_spec a 0); [lia|]. destruct (Z.leb_spec size a), (decide (a < size)); try lia; [done|].
    destruct (Z.ltb_spec b a); [lia|]. destruct (Z.leb_spec size b); do 3 f_equal; lia.
  - change (cut "-" ("-" +:+ fmt_int n)) with ("", fmt_int n, true). cbv iota.
    rewrite trim_fmt by lia. change (trim_space "") with "". cbn [String.eqb].
    unfold parse_suffix. rewrite fmt_eqb, fmt_first, parse_int_fmt by (unfold in_int64, min_int64, max_int64 in *; lia).
    simpl. destruct (Z.ltb_spec n 0); [lia|]. destruct (Z.ltb_spec size n); do 3 f_equal; lia.
Qed.
Lemma render_plain r : range_valid r → all_bytes plain (render r) = true ∧ render r ≠ "".
Proof.
  intros Hv. destruct r as [a|a b|n]; simpl in *; rewrite ?all_bytes_app; simpl.
  - destruct (fmt_digits a) as [Ha Hne]; [lia|]. rewrite digits_plain by done. split; [done|]. by destruct (fmt_int a).
  - destruct (fmt_digits a) as [Ha Hne]; [lia|]. destruct (fmt_digits b) as [Hb _]; [lia|].
    rewrite (digits_plain _ Ha). simpl. change (all_bytes plain ("-" +:+ fmt_int b)) with (all_bytes plain (fmt_int b)).
    rewrite digits_plain by done. split; [done|]. by destruct (fmt_int a).
  - destruct (fmt_digits n) as [Ha _]; [lia|].
    change (all_bytes plain ("-" +:+ fmt_int n)) with (all_bytes plain (fmt_int n)). by rewrite digits_plain.
Qed.
Definition misses (size : Z) (rs : list range_spec) : bool :=
  existsb (λ r, negb (bool_decide (is_Some (meaning size r)))) rs.
Lemma parse_list_render size rs : ∀ no acc,
  0 ≤ size → Forall range_valid rs →
  parse_list (render <$> rs) size no acc =
    let all := acc ++ omap (meaning size) rs in
    if (no || misses size rs) && bool_decide (all = []) then Err errNoOverlap else Ok all.
Proof.
  induction rs as [|r rs IH]; intros no acc Hsz Hv; csimpl.
  { by rewrite orb_false_r, (right_id_L [] (++)). }
  apply Forall_cons in Hv as [Hr Hv]. destruct (render_plain r Hr) as [Hp Hne].
  rewrite trim_space_plain, (proj2 (String.eqb_neq _ _) Hne), parse_one_render by done.
  unfold misses. csimpl. destruct (meaning size r) as [br|]; rewrite IH by done; unfold misses; simpl.
  - by rewrite <- (assoc_L (++)).
  - by rewrite orb_true_r.
Qed.
Lemma split_render rs :
  rs ≠ [] → Forall range_valid rs → split "," (String.concat "," (render <$> rs)) = render <$> rs.
Proof.
  induction rs as [|r rs IH]; [done|]. intros _ [Hr Hv]%Forall_cons.
  assert (all_bytes (λ d, negb (Ascii.eqb "," d)) (render r) = true) as Hc.
  { destruct (render_plain r Hr) as [Hp _]. revert Hp. apply all_bytes_impl.
    intros c Hc. destruct (Ascii.eqb_spec "," c) as [Heq|]; [by subst c|done]. }
  destruct rs as [|r' rs]; [by apply split_nosep|].
  assert (String.concat "," (render <$> r :: r' :: rs) =
    render r +:+ String "," (String.concat "," (render <$> r' :: rs))) as -> by done.
  by rewrite split_app, split_nosep, IH.
Qed.

(** C11: a header in the three forms of RFC 9110 is understood as they mean: the
    ranges come in the order of the header, cut at the end of the object;
    ranges that begin behind the end are left out, and if that leaves nothing
    the request cannot be satisfied. *)
Theorem parseByteRanges_reference size rs :
  0 ≤ size → rs ≠ [] → Forall range_valid rs →
  parseByteRanges (range_header rs) size =
    match omap (meaning size) rs with
    | [] => Err errNoOverlap
    | ranges => Ok ranges
    end.
Proof.
  intros Hsz Hne Hv. unfold parseByteRanges, range_header.
  rewrite (proj2 (strip_prefix_Some _ _ _) eq_refl), split_render, parse_list_render by done.
  cbn [app orb]. destruct (omap (meaning size) rs) as [|br brs] eqn:Ho; simpl; [|by rewrite andb_false_r].
  rewrite andb_true_r. destruct rs as [|r rs]; [done|]. unfold misses. simpl. csimpl in Ho.
  by destruct (meaning size r).
Qed.
Lemma parseByteRanges_reference_witness :
  parseByteRanges "bytes=0-99,500-,-3" 10 = Ok [mk_byteRange 0 10; mk_byteRange 7 3].
Proof.
  refine (eq_trans (parseByteRanges_reference 10 [RBetween 0 99; RFrom 500; RSuffix 3] _ _ _) _);
    [lia|done|repeat constructor; simpl; unfold max_int64; lia|vm_compute; reflexivity].
Defined.

(** ** Bounds, for every header *)
Definition in_object (size : Z) (r : byteRange) : Prop :=
  0 ≤ br_start r ∧ 0 ≤ br_length r ∧ br_start r + br_length r ≤ size ∧
  (br_length r = 0 → br_start r = size).
Lemma parse_one_in_object ra size r :
  0 ≤ size → parse_one ra size = Ok (Some r) → in_object size r.
Proof.
  intros Hsz. unfold parse_one, parse_suffix, parse_from, in_object.
  destruct (cut "-" ra) as [[s e] []]; [|done]. destruct (String.eqb (trim_space s) "").
  - destruct (_ || _); [done|]. destruct (parse_int (trim_space e)) as [i|]; [|done].
    destruct (Z.ltb_spec i 0); [done|]. intros [= <-]. simpl. destruct (Z.ltb_spec size i); lia.
  - destruct (parse_int (trim_space s)) as [i|]; [|done].
    destruct (Z.ltb_spec i 0); [done|]. destruct (Z.leb_spec size i); [done|].
    destruct (String.eqb _ ""); [intros [= <-]; simpl; lia|].
    destruct (parse_int (trim_space e)) as [j|]; [|done].
    destruct (Z.ltb_spec j i); [done|]. intros [= <-]. simpl. destruct (Z.leb_spec size j); lia.
Qed.
Lemma parse_list_in_object ras size : ∀ no acc rs,
  0 ≤ size → Forall (in_object size) acc → parse_list ras size no acc = Ok rs → Forall (in_object size) rs.
Proof.
  induction ras as [|ra ras IH]; intros no acc rs Hsz Hacc; simpl.
  { destruct (_ && _); [done|]. by intros [= <-]. }
  destruct (String.eqb _ ""); [by apply IH|].
  destruct (parse_one _ size) as [[r|]|] eqn:Hp; [|by apply IH|done].
  apply IH; [done|]. apply Forall_app. split; [done|]. constructor; [|done].
  by eapply parse_one_in_object.
Qed.
Lemma parseByteRanges_in_object s size rs :
  0 ≤ size → parseByteRanges s size = Ok rs → Forall (in_object size) rs.
Proof.
  intros Hsz. unfold parseByteRanges. destruct (strip_prefix _ s); [|done].
  by apply parse_list_in_object.
Qed.

(** * Responses *)
Lemma formatInt_loop_itoa fuel : ∀ n b, formatInt_loop fuel n b = itoa_loop fuel n b.
Proof. induction fuel as [|fuel IH]; intros n b; [done|]. cbn [formatInt_loop itoa_loop]. by rewrite IH. Qed.
Lemma formatInt_fmt n : 0 ≤ n ≤ max_int64 → formatInt n = fmt_int n.
Proof.
  unfold max_int64. intros Hn. unfold formatInt. destruct (Z.eqb_spec n 0) as [->|Hne]; [done|].
  rewrite formatInt_loop_itoa, itoa_loop_fmt by lia.
  by rewrite fmt_eqb by lia.
Qed.

Section responses.
  Context (http_ParseTime : string → option Z).
  Context (boundary : res string).
  Context (openFull : res (string * option error)).
  Context (openRange : Z → Z → res (string * option error)).
  Context (Range IfRange : string) (meta : Meta).
  (** The object, and that its ranges can be read. *)
  Context (data : string).
  Hypothesis size_data : mt_Size meta = len data.
  Hypothesis size_small : len data ≤ max_int64.
  Hypothesis openRange_Ok : ∀ a n, 0 ≤ a → 0 < n → a + n ≤ len data →
    openRange a n = Ok (substr a n data, None).
  Abbreviation serve head := (serveRanged http_ParseTime boundary openFull openRange head Range IfRange meta).

(** The range of the request that is answered with 206, if any. *)
Definition ranged : option (list byteRange) :=
  if String.eqb Range "" || (mt_Size meta <? 0) then None
  else if negb (ifRangeAllows http_ParseTime IfRange meta) then None
  else match parseByteRanges Range (mt_Size meta) with Ok rs => Some rs | Err _ => None end.
Lemma serve_ranged rs head :
  ranged = Some rs →
  Forall (in_object (len data)) rs ∧
  serve head = match rs with
               | [] => sendFull openFull head
               | [rg] => serve_single openRange head meta rg
               | _ => if (maxMultipartRanges <? length rs)%nat then sendFull openFull head
                      else serveMultipart boundary openRange head meta rs
               end.
Proof.
  unfold ranged, serveRanged. destruct (_ || _); [done|]. destruct (negb _); [done|].
  destruct (parseByteRanges Range (mt_Size meta)) as [rs'|] eqn:Hp; [|done]. intros [= ->].
  rewrite size_data in Hp. split; [|by destruct rs as [|? []]].
  eapply parseByteRanges_in_object; [|exact Hp]. apply len_nonneg.
Qed.

Lemma write_all p w :
  room w = None →
  write p w = ((len p, None), mk_Response (Some (default 200 (Status w))) (Header w) (Body w +:+ p) None
                                (bytes_seen w) (ranges_seen w)).
Proof. unfold write. by intros ->. Qed.

(** A request for one range of an object is answered with 206, the bytes of
    that range and nothing else; [Content-Range] names the range and the size
    of the object, [Content-Length] is the length of the body. *)
Theorem single_range_is_exact rg w :
  ranged = Some [rg] → 0 < br_length rg → Status w = None → room w = None →
  let b := substr (br_start rg) (br_length rg) data in
  let w' := (serve false w).2 in
  Status w' = Some 206 ∧ Body w' = Body w +:+ b ∧ len b = br_length rg ∧
  Header w' !! "Content-Length" = Some (fmt_int (len b)) ∧
  Header w' !! "Content-Range" =
    Some ("bytes " +:+ fmt_int (br_start rg) +:+ "-" +:+ fmt_int (br_start rg + br_length rg - 1) +:+ "/" +:+
      fmt_int (len data)) ∧
  bytes_seen w' = bytes_seen w ++ [len b] ∧ ranges_seen w' = ranges_seen w + 1.
Proof.
  intros Hr Hpos Hst Hroom. cbv zeta. destruct (serve_ranged _ false Hr) as [Hall ->].
  apply Forall_cons in Hall as [(H1 & H2 & H3 & _) _]. unfold serve_single.
  destruct (Z.leb_spec (br_length rg) 0); [lia|]. rewrite openRange_Ok by lia.
  assert (len (substr (br_start rg) (br_length rg) data) = br_length rg) as Hlen by (apply substr_len; lia).
  unfold mbind, st_bind, set_header, WriteHeader, st_mod, copy, mbind, st_bind. cbn [fst snd].
  rewrite write_all by done. simpl. rewrite Hst, Hlen, size_data. split_and!; try done.
  - rewrite lookup_insert_eq, formatInt_fmt by lia. done.
  - rewrite lookup_insert_ne, lookup_insert_eq by done. unfold formatContentRange. by rewrite !formatInt_fmt by lia.
Qed.

(** ** Several ranges *)
Definition part (b ct : string) (rg : byteRange) : string :=
  part_head b ct (len data) rg +:+ substr (br_start rg) (br_length rg) data +:+ crlf.
Definition parts (b ct : string) (rs : list byteRange) : string := String.concat "" (part b ct <$> rs).
Definition readable (rg : byteRange) : Prop := in_object (len data) rg ∧ 0 < br_length rg.

Lemma len_part b ct rg : readable rg →
  len (part b ct rg) = br_length rg + partOverhead b ct (formatContentRange (br_start rg) (br_length rg) (len data)).
Proof.
  intros [(H1 & H2 & H3 & _) Hpos]. unfold part, part_head, partOverhead. rewrite !len_app.
  rewrite substr_len by lia. lia.
Qed.
Definition body_sum (rs : list byteRange) : Z := foldr (λ rg n, br_length rg + n) 0 rs.
Lemma writeMultipartPart_all b ct rg w :
  readable rg → room w = None → Status w = Some 206 →
  writeMultipartPart openRange b ct (len data) rg w =
    ((br_length rg, None), mk_Response (Some 206) (Header w) (Body w +:+ part b ct rg) None (bytes_seen w) (ranges_seen w)).
Proof.
  intros [(H1 & H2 & H3 & _) Hpos] Hroom Hst. unfold writeMultipartPart. rewrite openRange_Ok by lia.
  unfold copy, mret, st_ret, mbind, st_bind. rewrite write_all by done. cbn [fst snd].
  rewrite write_all by done. cbn [fst snd]. rewrite write_all by done. cbn [fst snd Status Body Header bytes_seen ranges_seen].
  unfold part. rewrite substr_len, Hst, !app_assoc by lia. done.
Qed.
Lemma write_parts_all b ct rs : ∀ sent fin w,
  Forall readable rs → room w = None → Status w = Some 206 →
  write_parts openRange b ct (len data) rs sent fin w =
    ((sent + body_sum rs, fin || negb (bool_decide (rs = []))),
     mk_Response (Some 206) (Header w) (Body w +:+ parts b ct rs) None (bytes_seen w) (ranges_seen w)).
Proof.
  induction rs as [|rg rs IH]; intros sent fin w Hall Hroom Hst; cbn [write_parts].
  - unfold parts. csimpl. change (String.concat "" []) with "". rewrite app_nil_r.
    rewrite orb_false_r, Z.add_0_r. unfold mret, st_ret. destruct w; simpl in *. subst. reflexivity.
  - apply Forall_cons in Hall as [Hrg Hall].
    rewrite (st_bind_run _ _ _ _ _ (writeMultipartPart_all b ct rg w Hrg Hroom Hst)). cbn [fst snd].
    rewrite IH by done. unfold parts. rewrite fmap_cons, concat_empty_cons, app_assoc.
    rewrite (bool_decide_false (rg :: rs = [])), orb_true_r by done.
    change (body_sum (rg :: rs)) with (br_length rg + body_sum rs). rewrite Z.add_assoc. reflexivity.
Qed.
Lemma total_length_exact b ct rs : ∀ a,
  0 ≤ a → Forall readable rs → a + len (parts b ct rs) ≤ max_int64 →
  foldl (λ total rg, wrap64 (wrap64 (total + br_length rg) +
      partOverhead b ct (formatContentRange (br_start rg) (br_length rg) (len data)))) a rs =
  a + len (parts b ct rs).
Proof.
  induction rs as [|rg rs IH]; intros a Ha Hall Hmax; simpl.
  { change (len (parts b ct [])) with 0. lia. }
  apply Forall_cons in Hall as [Hrg Hall]. unfold parts in *. rewrite fmap_cons, concat_empty_cons, len_app in *.
  pose proof (len_nonneg (String.concat "" (part b ct <$> rs))). rewrite len_part in * by done.
  destruct Hrg as [_ Hpos].
  assert (0 ≤ partOverhead b ct (formatContentRange (br_start rg) (br_length rg) (len data))).
  { unfold partOverhead, len. lia. }
  rewrite (wrap64_small (a + br_length rg)) by (unfold in_int64, min_int64, max_int64 in *; lia).
  rewrite wrap64_small by (unfold in_int64, min_int64, max_int64 in *; lia).
  rewrite IH by (try done; lia). lia.
Qed.

(** The type that the parts declare, and the whole body. *)
Definition part_type (w : Response) : string :=
  let t := default "" (Header w !! "Content-Type") in
  if String.eqb t "" then "application/octet-stream" else t.
Definition multipart_body (b : string) (w : Response) (rs : list byteRange) : string :=
  parts b (part_type w) rs +:+ closing b.

(** A request for several non-empty ranges is answered with 206 and one
    part per range, in their order, each with the header of its range and
    exactly its bytes, then the closing boundary; the [Content-Length] that is
    announced before the first byte is the length of that body, also to a HEAD
    request, which gets no body. *)
Theorem multipart_is_exact rs b w :
  ranged = Some rs → (1 < length rs ≤ 256)%nat → Forall (λ rg, 0 < br_length rg) rs →
  boundary = Ok b → Status w = None → room w = None → Body w = "" →
  len (multipart_body b w rs) ≤ max_int64 →
  let get := (serve false w).2 in let hd := (serve true w).2 in
  Status get = Some 206 ∧ Body get = multipart_body b w rs ∧
  Header get !! "Content-Length" = Some (fmt_int (len (Body get))) ∧
  Header get !! "Content-Type" = Some ("multipart/byteranges; boundary=" +:+ b) ∧
  bytes_seen get = bytes_seen w ++ [body_sum rs] ∧
  Status hd = Some 206 ∧ Body hd = "" ∧ Header hd = Header get.
Proof.
  unfold multipart_body. set (ct := part_type w). set (full := parts b ct rs +:+ closing b).
  intros Hr Hn Hpos Hb Hst Hroom Hbody Hmax. cbv zeta.
  destruct (serve_ranged _ false Hr) as [Hall ->]. destruct (serve_ranged _ true Hr) as [_ ->].
  assert (Forall readable rs) as Hread.
  { unfold readable. by apply Forall_and. }
  destruct rs as [|r1 [|r2 rs]]; [simpl in Hn; lia..|].
  destruct (Nat.ltb_spec maxMultipartRanges (length (r1 :: r2 :: rs))) as [Hlt|_]; [unfold maxMultipartRanges in Hlt; lia|].
  set (rs' := r1 :: r2 :: rs) in *. unfold serveMultipart. rewrite Hb.
  assert ((if String.eqb (default "" (Header w !! "Content-Type")) "" then "application/octet-stream"
           else default "" (Header w !! "Content-Type")) = ct) as Hct by done.
  unfold mbind, st_bind, st_gets, set_header, WriteHeader, st_mod. cbn [fst snd Header]. rewrite Hct, size_data.
  rewrite (write_parts_all b ct rs') by (try done; simpl; rewrite ?Hst; done). cbn [fst snd Header].
  rewrite bool_decide_false by done. cbn [orb negb]. rewrite write_all by done. simpl.
  assert (total_length b ct (len data) rs' = len full) as ->.
  { unfold total_length, full. pose proof Hmax as Hm. unfold full in Hm. rewrite len_app in *.
    rewrite total_length_exact; [lia|apply len_nonneg|done|lia]. }
  rewrite Hst, Hbody. split_and!; try done.
  - rewrite lookup_insert_eq, formatInt_fmt; [done|]. split; [apply len_nonneg|exact Hmax].
  - by rewrite lookup_insert_ne, lookup_insert_eq.
Qed.
End responses.

(** * Concrete requests *)
Module RangeDemo.
Definition store : FakeStorage := mk_FakeStorage (<["k" := ("0123456789", 1)]> ∅) 0.
Definition meta : Meta := mk_Meta "k" 10 "" "" 1.
Definition openRange (a n : Z) : res (string * option error) :=
  match (fake_GetRange "k" a n store).1 with Ok b => Ok (b, None) | Err e => Err e end.
Definition openFull : res (string * option error) := Ok ("0123456789", None).
Definition start_headers : gmap string string :=
  <["Content-Type" := "text/plain"]> (<["Content-Length" := "10"]> ∅).
Definition w0 : Response := mk_Response None start_headers "" None [] 0.
Definition get (range : string) : Response :=
  (serveRanged (λ _, None) (Ok "B") openFull openRange false range "" meta w0).2.

Example get_416 : Status (get "bytes=10-") = Some 416 ∧ Header (get "bytes=10-") !! "Content-Range" = Some "bytes */10".
Proof. split; vm_compute; reflexivity. Qed.
Example get_full : Body (get "bytes=9-1") = "0123456789" ∧ Status (get "bytes=9-1") = Some 200.
Proof. split; vm_compute; reflexivity. Qed.

Lemma openRange_Ok a n : 0 ≤ a → 0 < n → a + n ≤ len "0123456789" →
  openRange a n = Ok (substr a n "0123456789", None).
Proof.
  change (len "0123456789") with 10. intros Ha Hn Hle. unfold openRange.
  change (fake_GetRange "k" a n store) with
    (if (a <? 0) || (n <=? 0) || (10 <? wrap64 (a + n))
     then (Err (InvalidRangeError "k" a n 10) : res string, store)
     else if wrap64 (a + n) <? a then (Err (Text "panic: slice bounds out of range"), store)
     else (Ok (substr a n "0123456789"), store)).
  rewrite wrap64_small by (unfold in_int64, min_int64, max_int64; lia).
  destruct (Z.ltb_spec a 0), (Z.leb_spec n 0), (Z.ltb_spec 10 (a + n)), (Z.ltb_spec (a + n) a); try lia. done.
Qed.
Lemma single_range_is_exact_witness :
  Status (get "bytes=3-4") = Some 206 ∧ Body (get "bytes=3-4") = "34" ∧
  Header (get "bytes=3-4") !! "Content-Range" = Some "bytes 3-4/10".
Proof.
  destruct (single_range_is_exact (λ _, None) (Ok "B") openFull openRange "bytes=3-4" "" meta "0123456789"
    eq_refl ltac:(by compute) openRange_Ok (mk_byteRange 3 2) w0) as (Hs & Hb & _ & _ & Hr & _);
    [vm_compute; reflexivity|by compute|done|done|]. split_and!; [exact Hs|exact Hb|exact Hr].
Defined.
Lemma multipart_is_exact_witness :
  Status (get "bytes=0-0,-2") = Some 206 ∧
  Header (get "bytes=0-0,-2") !! "Content-Length" = Some (fmt_int (len (Body (get "bytes=0-0,-2")))) ∧
  fmt_int (len (Body (get "bytes=0-0,-2"))) = "138".
Proof.
  pose proof (multipart_is_exact (λ _, None) (Ok "B") openFull openRange "bytes=0-0,-2" "" meta "0123456789"
    eq_refl openRange_Ok [mk_byteRange 0 1; mk_byteRange 8 2] "B" w0) as Hm.
  destruct Hm as (Hs & _ & Hl & _); [vm_compute; reflexivity|simpl; lia|by repeat constructor|reflexivity..|
    vm_compute; discriminate|].
  split_and!; [exact Hs|exact Hl|vm_compute; reflexivity].
Defined.

(** An empty suffix range is refused when it is alone, but not among
    several: the answer to [bytes=-0,0-0] is a 206 that announces a body and
    sends none, because the storage refuses the empty part and the loop ends
    there; in [bytes=0-0,-0] the first part and the closing boundary are sent
    and the body is shorter than announced. *)
Theorem empty_suffix_breaks_multipart :
  Status (get "bytes=-0") = Some 416 ∧
  (Status (get "bytes=-0,0-0") = Some 206 ∧ Body (get "bytes=-0,0-0") = "" ∧
   Header (get "bytes=-0,0-0") !! "Content-Length" = Some "137") ∧
  (Status (get "bytes=0-0,-0") = Some 206 ∧ len (Body (get "bytes=0-0,-0")) = 72 ∧
   Header (get "bytes=0-0,-0") !! "Content-Length" = Some "137").
Proof. split_and!; vm_compute; reflexivity. Qed.
End RangeDemo.
