(* ===== verification/Catalog.v ===== *)
(** The ports of the catalogue that authentication uses (internal/core/port/
    catalog.go): accounts, API tokens and revoked sessions, as type classes
    over an abstract state, with the in-memory doubles of internal/testutil.

    A failed call may or may not have taken effect (a lost answer of the
    database), so the laws leave that open. *)
From S2P Require Import Prelude GoStr Domain Port.
Local Open Scope Z_scope.

(** * Data (domain/user.go, domain/token.go, domain/audit.go) *)
Definition RoleAdmin : string := "admin".
Definition RoleUser : string := "user".
Record User := mk_User {
  u_ID : Z;
  u_Username : string;
  u_PasswordHash : string;
  u_Role : string;
  u_TokenVersion : Z;
  u_CreatedAt : Z
}.
#[global] Instance User_eq_dec : EqDecision User.
Proof. solve_decision. Defined.
Definition no_User : User := mk_User 0 "" "" "" 0 0.
Definition with_ID (id : Z) (u : User) : User :=
  mk_User id (u_Username u) (u_PasswordHash u) (u_Role u) (u_TokenVersion u) (u_CreatedAt u).

Definition with_created (t : Z) (u : User) : User :=
  mk_User (u_ID u) (u_Username u) (u_PasswordHash u) (u_Role u) (u_TokenVersion u) t.

Record APIToken := mk_APIToken {
  t_ID : Z;
  t_UserID : Z;
  t_Name : string;
  t_Prefix : string;
  t_SHA256 : string;
  t_Scopes : list string;
  t_CreatedAt : Z;
  t_ExpiresAt : Z;
  t_RevokedAt : Z
}.
#[global] Instance APIToken_eq_dec : EqDecision APIToken.
Proof. solve_decision. Defined.
Definition token_with_ID (id : Z) (t : APIToken) : APIToken :=
  mk_APIToken id (t_UserID t) (t_Name t) (t_Prefix t) (t_SHA256 t) (t_Scopes t)
    (t_CreatedAt t) (t_ExpiresAt t) (t_RevokedAt t).
Definition token_revoked (at_ : Z) (t : APIToken) : APIToken :=
  mk_APIToken (t_ID t) (t_UserID t) (t_Name t) (t_Prefix t) (t_SHA256 t) (t_Scopes t)
    (t_CreatedAt t) (t_ExpiresAt t) at_.

Definition token_with_times (created expires revoked : Z) (t : APIToken) : APIToken :=
  mk_APIToken (t_ID t) (t_UserID t) (t_Name t) (t_Prefix t) (t_SHA256 t) (t_Scopes t)
    created expires revoked.

Record AuditEntry := mk_AuditEntry {
  au_At : Z; au_Actor : string; au_Action : string; au_Object : string;
  au_Result : string; au_Detail : string
}.
Definition AuditOK : string := "ok".
Definition AuditError : string := "error".

(** * The abstract catalogue

    What the ports promise, as relations between the catalogue before a call,
    its answer and the catalogue after. A failed call may or may not have taken
    effect (the answer of a database may be lost), and a stored time may have
    lost its fraction of a second. *)
Record Cat := mk_Cat {
  accounts : gmap Z User;
  api_tokens : gmap Z APIToken;
  revocations : gmap string Z
}.
Definition rounded (t w : Z) : Prop := w = t ∨ w = from_unix (unix t).
(** A stored account: all but the time of its creation as it was given. *)
#[export] Instance User_equiv : Equiv User := λ u w, with_created 0 u = with_created 0 w.
#[export] Instance User_equivalence : Equivalence (≡@{User}).
Proof. split; [by intros ?|by intros ??|]. intros u v w. apply eq_trans. Qed.
Record stored_token (t w : APIToken) : Prop := {
  st_rest : token_with_times 0 0 0 w = token_with_times 0 0 0 t;
  st_expires : rounded (t_ExpiresAt t) (t_ExpiresAt w);
  st_revoked : t_RevokedAt w = 0
}.

Definition spec (A : Type) : Type := Cat → A → Cat → Prop.
(** A read: the catalogue stays, and a value is what [ok] says. *)
Definition reads {A} (ok : Cat → A → Prop) (missing : Cat → Prop) : spec (res A) := λ c r c', c' = c ∧
  match r with Ok a => ok c a | Err e => has_type is_NotFound e = true → missing c end.
(** A write of [step]: done if there is no error, done or not otherwise. *)
Definition writes (step : Cat → Cat → Prop) : spec (option error) := λ c r c',
  step c c' ∨ (r ≠ None ∧ c' = c).
Definition set_accounts (m : gmap Z User) (c : Cat) : Cat := mk_Cat m (api_tokens c) (revocations c).
Definition set_tokens (m : gmap Z APIToken) (c : Cat) : Cat := mk_Cat (accounts c) m (revocations c).
Definition set_revocations (m : gmap string Z) (c : Cat) : Cat := mk_Cat (accounts c) (api_tokens c) m.

Definition add_account (u : User) (id : Z) (c c' : Cat) : Prop :=
  accounts c !! id = None ∧ ∃ w, w ≡ with_ID id u ∧ c' = set_accounts (<[id := w]> (accounts c)) c.
Definition create_user (u : User) : spec (res User) := λ c r c',
  match r with
  | Ok u' => u' = with_ID (u_ID u') u ∧ add_account u (u_ID u') c c'
  | Err _ => c' = c ∨ ∃ id, add_account u id c c'
  end.
Definition ensure_first (u : User) : spec (res (User * bool)) := λ c r c',
  match r with
  | Ok (u', true) => accounts c = ∅ ∧ u' = with_ID (u_ID u') u ∧ add_account u (u_ID u') c c'
  | Ok (_, false) => c' = c ∧ accounts c ≠ ∅
  | Err _ => c' = c ∨ accounts c = ∅ ∧ ∃ id, add_account u id c c'
  end.
Definition update_user (u : User) : spec (option error) := writes (λ c c',
  is_Some (accounts c !! u_ID u) ∧ ∃ w, w ≡ u ∧ c' = set_accounts (<[u_ID u := w]> (accounts c)) c).
(** The tokens of a deleted account may go with it. *)
Definition delete_user (id : Z) : spec (option error) := writes (λ c c',
  ∃ m, m ⊆ api_tokens c ∧ c' = mk_Cat (delete id (accounts c)) m (revocations c)).

Definition add_token (t : APIToken) (id : Z) (c c' : Cat) : Prop :=
  api_tokens c !! id = None ∧ (∀ i t', api_tokens c !! i = Some t' → t_SHA256 t' ≠ t_SHA256 t) ∧
  ∃ w, stored_token (token_with_ID id t) w ∧ c' = set_tokens (<[id := w]> (api_tokens c)) c.
Definition create_token (t : APIToken) : spec (res APIToken) := λ c r c',
  match r with
  | Ok t' => t' = token_with_ID (t_ID t') t ∧ add_token t (t_ID t') c c'
  | Err _ => c' = c ∨ ∃ id, add_token t id c c'
  end.
Definition revoke_token (id at_ : Z) : spec (option error) := writes (λ c c',
  ∃ t w, api_tokens c !! id = Some t ∧ rounded at_ w ∧
    c' = set_tokens (<[id := token_revoked w t]> (api_tokens c)) c).
Definition delete_token (id : Z) : spec (option error) := writes (λ c c',
  c' = set_tokens (delete id (api_tokens c)) c).

(** Expired revocations may be dropped on the way. *)
Definition purged (now : Z) (m m' : gmap string Z) : Prop := ∀ j,
  m' !! j = m !! j ∨ m' !! j = None ∧ ∃ x, m !! j = Some x ∧ x ≤ now.
Definition insert_revocation (j : string) (now until : Z) : spec (option error) := λ c r c',
  ∃ m, purged now (revocations c) m ∧
    ((∃ w, rounded until w ∧ c' = set_revocations (<[j := w]> m) c) ∨ r ≠ None ∧ c' = set_revocations m c).

(** * The ports *)
Class UserStore (D : Type) := {
  CreateUser_in : User → St D (res User);
  EnsureFirstUser : User → St D (res (User * bool));
  User_in : Z → St D (res User);
  UserByUsername : string → St D (res User);
  Users_in : St D (res (list User));
  UpdateUser : User → St D (option error);
  DeleteUser_in : Z → St D (option error);
  HasUsers_in : St D (res bool)
}.
Class TokenStore (D : Type) := {
  CreateToken : APIToken → St D (res APIToken);
  TokenBySHA256 : string → St D (res APIToken);
  TokensByUser : Z → St D (res (list APIToken));
  DeleteToken : Z → St D (option error);
  RevokeToken_in : Z → Z → St D (option error);
  TouchToken : Z → Z → St D (option error)
}.
Class Revocations (D : Type) := {
  InsertRevocation : string → Z → Z → St D (option error);
  IsRevoked : string → Z → St D (res bool)
}.

(** An implementation shows an abstract catalogue, as long as its own state is
    well-formed, and refines the relations. *)
Class CatalogView (D : Type) := {
  abs : D → Cat;
  wf : D → Prop
}.
Definition refines {D A} `{CatalogView D} (m : St D A) (R : spec A) : Prop :=
  ∀ s, wf s → wf (m s).2 ∧ R (abs s) (m s).1 (abs (m s).2).

Class UserLaws (D : Type) `{UserStore D, CatalogView D} : Prop := {
  accounts_ID s id u : wf s → accounts (abs s) !! id = Some u → u_ID u = id;
  names_unique s i j u u' : wf s → accounts (abs s) !! i = Some u → accounts (abs s) !! j = Some u' →
    u_Username u = u_Username u' → i = j;
  CreateUser_refines u : u_ID u = 0 → refines (CreateUser_in u) (create_user u);
  EnsureFirst_refines u : u_ID u = 0 → refines (EnsureFirstUser u) (ensure_first u);
  User_refines id : refines (User_in id)
    (reads (λ c u, accounts c !! id = Some u) (λ c, accounts c !! id = None));
  UserByUsername_refines n : refines (UserByUsername n)
    (reads (λ c u, accounts c !! u_ID u = Some u ∧ u_Username u = n)
           (λ c, ∀ id u, accounts c !! id = Some u → u_Username u ≠ n));
  Users_refines : refines Users_in
    (reads (λ c us, ∀ u, u ∈ us ↔ accounts c !! u_ID u = Some u) (λ _, True));
  UpdateUser_refines u : refines (UpdateUser u) (update_user u);
  DeleteUser_refines id : refines (DeleteUser_in id) (delete_user id);
  HasUsers_refines : refines HasUsers_in (reads (λ c b, b = true ↔ accounts c ≠ ∅) (λ _, True))
}.
(** Scopes are stored in one column, separated by commas. *)
Definition scope_ok (s : string) : Prop := s ≠ "" ∧ no_sep "," s = true.
Class TokenLaws (D : Type) `{TokenStore D, CatalogView D} : Prop := {
  tokens_ID s id t : wf s → api_tokens (abs s) !! id = Some t → t_ID t = id;
  tokens_unique s i j t t' : wf s → api_tokens (abs s) !! i = Some t → api_tokens (abs s) !! j = Some t' →
    t_SHA256 t = t_SHA256 t' → i = j;
  CreateToken_refines t : t_ID t = 0 → t_RevokedAt t = 0 → Forall scope_ok (t_Scopes t) →
    refines (CreateToken t) (create_token t);
  TokenBySHA256_refines h : refines (TokenBySHA256 h)
    (reads (λ c t, api_tokens c !! t_ID t = Some t ∧ t_SHA256 t = h)
           (λ c, ∀ i t, api_tokens c !! i = Some t → t_SHA256 t ≠ h));
  TokensByUser_refines id : refines (TokensByUser id)
    (reads (λ c ts, ∀ t, t ∈ ts ↔ api_tokens c !! t_ID t = Some t ∧ t_UserID t = id) (λ _, True));
  DeleteToken_refines id : refines (DeleteToken id) (delete_token id);
  RevokeToken_refines id at_ : refines (RevokeToken_in id at_) (revoke_token id at_);
  TouchToken_refines id at_ : refines (TouchToken id at_) (writes (λ c c', c' = c))
}.
Class RevocationLaws (D : Type) `{Revocations D, CatalogView D} : Prop := {
  InsertRevocation_refines j now until :
    refines (InsertRevocation j now until) (insert_revocation j now until);
  IsRevoked_refines j now : refines (IsRevoked j now)
    (reads (λ c b, if b : bool then is_Some (revocations c !! j)
                   else ∀ x, revocations c !! j = Some x → x ≤ now) (λ _, True))
}.

(** An available catalogue: while it is [up], a read fails only for a missing
    row. *)
Class Available (D : Type) `{UserStore D, Revocations D} := {
  up : D → Prop;
  up_CreateUser u d : up d → up (CreateUser_in u d).2;
  up_User id d : up d → up (User_in id d).2 ∧ ∀ e, (User_in id d).1 = Err e → has_type is_NotFound e = true;
  up_ByName n d : up d → up (UserByUsername n d).2 ∧
    ∀ e, (UserByUsername n d).1 = Err e → has_type is_NotFound e = true;
  up_IsRevoked j t d : up d → up (IsRevoked j t d).2 ∧ is_ok (IsRevoked j t d).1 = true
}.

(** * The in-memory accounts (testutil/catalog.go) *)
Record FakeUserStore := mk_FakeUserStore {
  nextID : Z;
  byID : gmap Z User;
  byName : gmap string Z
}.
Definition user_not_found (key : string) : error := NotFoundError "пользователь" key.
Definition add_user (u : User) (s : FakeUserStore) : User * FakeUserStore :=
  let '(u, next) := if u_ID u =? 0 then (with_ID (nextID s + 1) u, nextID s + 1) else (u, nextID s) in
  (u, mk_FakeUserStore next (<[u_ID u := u]> (byID s)) (<[u_Username u := u_ID u]> (byName s))).
Definition fake_CreateUser (u : User) : St FakeUserStore (res User) := λ s,
  match byName s !! u_Username u with
  | Some _ => (Err (ConflictError "пользователь" (u_Username u) ""), s)
  | None => let '(u, s) := add_user u s in (Ok u, s)
  end.
Definition fake_EnsureFirstUser (u : User) : St FakeUserStore (res (User * bool)) := λ s,
  if (0 <? size (byID s))%nat then (Ok (no_User, false), s)
  else let '(u, s) := add_user u s in (Ok (u, true), s).
Definition fake_User (id : Z) : St FakeUserStore (res User) := λ s,
  (match byID s !! id with Some u => Ok u | None => Err (user_not_found (fmt_int id)) end, s).
Definition fake_UserByUsername (name : string) : St FakeUserStore (res User) := λ s,
  (match byName s !! name with
   | Some id => Ok (default no_User (byID s !! id))
   | None => Err (user_not_found name)
   end, s).
Definition by_ID (a b : User) : Prop := u_ID a ≤ u_ID b.
#[global] Instance by_ID_dec a b : Decision (by_ID a b).
Proof. unfold by_ID. apply _. Defined.
Definition fake_Users : St FakeUserStore (res (list User)) := λ s,
  (Ok (merge_sort by_ID (map_to_list (byID s)).*2), s).
Definition fake_UpdateUser (u : User) : St FakeUserStore (option error) := λ s,
  match byID s !! u_ID u with
  | None => (Some (user_not_found (fmt_int (u_ID u))), s)
  | Some old =>
      match byName s !! u_Username u with
      | Some other =>
          if negb (other =? u_ID u) then (Some (ConflictError "пользователь" (u_Username u) ""), s)
          else (None, mk_FakeUserStore (nextID s) (<[u_ID u := u]> (byID s))
                  (<[u_Username u := u_ID u]> (delete (u_Username old) (byName s))))
      | None => (None, mk_FakeUserStore (nextID s) (<[u_ID u := u]> (byID s))
                  (<[u_Username u := u_ID u]> (delete (u_Username old) (byName s))))
      end
  end.
Definition fake_DeleteUser (id : Z) : St FakeUserStore (option error) := λ s,
  match byID s !! id with
  | None => (Some (user_not_found (fmt_int id)), s)
  | Some u => (None, mk_FakeUserStore (nextID s) (delete id (byID s)) (delete (u_Username u) (byName s)))
  end.
Definition fake_HasUsers : St FakeUserStore (res bool) := λ s, (Ok (0 <? size (byID s))%nat, s).
#[export] Instance FakeUserStore_UserStore : UserStore FakeUserStore := {
  CreateUser_in := fake_CreateUser; EnsureFirstUser := fake_EnsureFirstUser; User_in := fake_User;
  UserByUsername := fake_UserByUsername; Users_in := fake_Users; UpdateUser := fake_UpdateUser;
  DeleteUser_in := fake_DeleteUser; HasUsers_in := fake_HasUsers
}.

(** The two tables agree, and no id above the counter is in use. *)
Record fake_wf (s : FakeUserStore) : Prop := {
  wf_next : 0 ≤ nextID s;
  wf_id id u : byID s !! id = Some u → u_ID u = id ∧ id ≤ nextID s;
  wf_name id u : byID s !! id = Some u → byName s !! u_Username u = Some id;
  wf_byName n id : byName s !! n = Some id → ∃ u, byID s !! id = Some u ∧ u_Username u = n
}.
Lemma fake_fresh s : fake_wf s → byID s !! (nextID s + 1) = None.
Proof.
  intros Hwf. destruct (byID s !! _) as [u|] eqn:E; [|done]. apply (wf_id _ Hwf) in E. lia.
Qed.
Lemma add_user_spec s u : u_ID u = 0 →
  add_user u s = (with_ID (nextID s + 1) u,
    mk_FakeUserStore (nextID s + 1) (<[nextID s + 1 := with_ID (nextID s + 1) u]> (byID s))
      (<[u_Username u := nextID s + 1]> (byName s))).
Proof. unfold add_user. by intros ->. Qed.
Lemma add_user_wf s u : fake_wf s → u_ID u = 0 → byName s !! u_Username u = None → fake_wf (add_user u s).2.
Proof.
  intros Hwf Hu Hn. rewrite add_user_spec by done. pose proof (fake_fresh s Hwf) as Hf.
  destruct Hwf as [H1 H2 H3 H4]. split; simpl.
  - lia.
  - intros id u' [[<- <-]|[Hne Hid]]%lookup_insert_Some; [simpl; lia|]. apply H2 in Hid. lia.
  - intros id u' [[<- <-]|[Hne Hid]]%lookup_insert_Some; [apply lookup_insert_eq|].
    rewrite lookup_insert_ne; [by apply H3|]. intros Heq. apply H3 in Hid. congruence.
  - intros n id [[<- <-]|[Hne Hid]]%lookup_insert_Some.
    + exists (with_ID (nextID s + 1) u). by rewrite lookup_insert_eq.
    + apply H4 in Hid as (u' & Hid & <-). exists u'. split; [|done]. rewrite lookup_insert_ne; [done|].
      intros <-. congruence.
Qed.
Lemma update_wf s u old :
  fake_wf s → byID s !! u_ID u = Some old →
  (byName s !! u_Username u = None ∨ byName s !! u_Username u = Some (u_ID u)) →
  fake_wf (mk_FakeUserStore (nextID s) (<[u_ID u := u]> (byID s))
    (<[u_Username u := u_ID u]> (delete (u_Username old) (byName s)))).
Proof.
  intros [H1 H2 H3 H4] Hold Hname. pose proof (H3 _ _ Hold) as Holdname. split; simpl; [done| | |].
  - intros id u' [[<- <-]|[Hne Hid]]%lookup_insert_Some; [|by apply H2]. split; [done|]. by apply H2 in Hold as [_ ?].
  - intros id u' [[<- <-]|[Hne Hid]]%lookup_insert_Some; [apply lookup_insert_eq|].
    pose proof (H3 _ _ Hid) as Hn. rewrite lookup_insert_ne; [|intros Heq; destruct Hname; congruence].
    rewrite lookup_delete_ne; [done|]. intros Heq. congruence.
  - intros n id [[<- <-]|[Hne [Hne' Hid]%lookup_delete_Some]]%lookup_insert_Some.
    + exists u. by rewrite lookup_insert_eq.
    + apply H4 in Hid as (u' & Hid & <-). exists u'. split; [|done]. rewrite lookup_insert_ne; [done|].
      intros <-. congruence.
Qed.
Lemma delete_wf s id u :
  fake_wf s → byID s !! id = Some u →
  fake_wf (mk_FakeUserStore (nextID s) (delete id (byID s)) (delete (u_Username u) (byName s))).
Proof.
  intros [H1 H2 H3 H4] Hu. split; simpl; [done| | |].
  - intros id' u' [_ Hid]%lookup_delete_Some. by apply H2.
  - intros id' u' [Hne Hid]%lookup_delete_Some. rewrite lookup_delete_ne; [by apply H3|].
    intros Heq. apply H3 in Hu, Hid. congruence.
  - intros n id' [Hne Hid]%lookup_delete_Some. apply H4 in Hid as (u' & Hid & <-). exists u'.
    split; [|done]. rewrite lookup_delete_ne; [done|]. intros <-. congruence.
Qed.

#[export] Instance FakeUserStore_view : CatalogView FakeUserStore := {
  abs s := mk_Cat (byID s) ∅ ∅; wf := fake_wf
}.
Lemma size_empty {A} (m : gmap Z A) : (0 <? size m)%nat = false ↔ m = ∅.
Proof. rewrite Nat.ltb_ge, <- map_size_empty_iff. lia. Qed.
Lemma fake_add_refines s u : fake_wf s → u_ID u = 0 → byName s !! u_Username u = None →
  fake_wf (add_user u s).2 ∧ (add_user u s).1 = with_ID (u_ID (add_user u s).1) u ∧
  add_account u (u_ID (add_user u s).1) (abs s) (abs (add_user u s).2).
Proof.
  intros Hwf Hu Hn. pose proof (add_user_wf s u Hwf Hu Hn) as Hwf'. rewrite add_user_spec in * by done.
  split; [done|]. split; [done|]. split; [by apply fake_fresh|]. by exists (with_ID (nextID s + 1) u).
Qed.
Lemma fake_update_refines u : refines (fake_UpdateUser u) (update_user u).
Proof.
  intros s Hwf. unfold fake_UpdateUser. destruct (byID s !! u_ID u) as [old|] eqn:Hold; [|split; [done|by right]].
  assert (is_Some (byID s !! u_ID u)) as Hsome by by exists old.
  destruct (byName s !! u_Username u) as [o|] eqn:Hn.
  - destruct (Z.eqb_spec o (u_ID u)) as [->|]; simpl; [|split; [done|by right]].
    split; [by eapply update_wf; eauto|]. left. split; [done|]. by exists u.
  - simpl. split; [by eapply update_wf; eauto|]. left. split; [done|]. by exists u.
Qed.

#[export] Instance FakeUserStore_laws : UserLaws FakeUserStore.
Proof.
  split.
  - intros s id u Hwf Hu. by apply (wf_id _ Hwf) in Hu as [? _].
  - intros s i j u u' Hwf Hi%(wf_name _ Hwf) Hj%(wf_name _ Hwf) Heq. congruence.
  - intros u Hu s Hwf. simpl. unfold fake_CreateUser. destruct (byName s !! _) eqn:Hn; [split; [done|by left]|].
    pose proof (fake_add_refines s u Hwf Hu Hn) as Hadd. by destruct (add_user u s).
  - intros u Hu s Hwf. simpl. unfold fake_EnsureFirstUser. destruct (0 <? _)%nat eqn:Hsz.
    + split; [done|]. split; [done|]. simpl. by rewrite <- size_empty, Hsz.
    + apply size_empty in Hsz. assert (byName s !! u_Username u = None) as Hn.
      { destruct (byName s !! _) eqn:Hn; [|done]. apply (wf_byName _ Hwf) in Hn as (? & Hi & _). by rewrite Hsz in Hi. }
      pose proof (fake_add_refines s u Hwf Hu Hn) as Hadd. destruct (add_user u s) as [u1 s1]. destruct Hadd as (?&?&?). by split.
  - intros id s Hwf. simpl. split; [done|]. split; [done|]. by destruct (byID s !! id) eqn:?.
  - intros n s Hwf. simpl. split; [done|]. split; [done|]. destruct (byName s !! n) as [id|] eqn:Hn.
    + apply (wf_byName _ Hwf) in Hn as (u & Hu & Hname). rewrite Hu. simpl.
      by destruct (wf_id _ Hwf _ _ Hu) as [-> _].
    + intros _ id u Hu <-. apply (wf_name _ Hwf) in Hu. simpl in *. congruence.
  - intros s Hwf. simpl. split; [done|]. split; [done|]. intros u. rewrite merge_sort_Permutation, list_elem_of_fmap. split.
    + intros ([id u'] & -> & Hu%elem_of_map_to_list). simpl. by destruct (wf_id _ Hwf _ _ Hu) as [-> _].
    + intros Hu. exists (u_ID u, u). by rewrite elem_of_map_to_list.
  - intros u. apply fake_update_refines.
  - intros id s Hwf. simpl. unfold fake_DeleteUser. destruct (byID s !! id) as [u|] eqn:Hu; [|split; [done|by right]].
    split; [by apply delete_wf|]. left. by exists ∅.
  - intros s Hwf. simpl. split; [done|]. split; [done|]. destruct (0 <? _)%nat eqn:Hsz.
    + simpl. split; [|done]. intros _ He%size_empty. congruence.
    + by apply size_empty in Hsz.
Qed.

(** * The in-memory revocations (testutil/catalog.go) *)
Definition FakeRevocations : Type := gmap string Z.
Definition fake_InsertRevocation (jti : string) (now expiresAt : Z) : St (gmap string Z) (option error) := λ s,
  (None, <[jti := expiresAt]> (filter (λ je, ¬ je.2 < now) s)).
Definition fake_IsRevoked (jti : string) (now : Z) : St (gmap string Z) (res bool) := λ s,
  (Ok (match s !! jti with Some exp => negb (exp <? now) | None => false end), s).
#[export] Instance FakeRevocations_Revocations : Revocations FakeRevocations := {
  InsertRevocation := fake_InsertRevocation; IsRevoked := fake_IsRevoked
}.
#[export] Instance FakeRevocations_view : CatalogView FakeRevocations := {
  abs s := mk_Cat ∅ ∅ s; wf _ := True
}.
#[export] Instance FakeRevocations_laws : RevocationLaws FakeRevocations.
Proof.
  split.
  - intros j now until s _. split; [done|]. exists (filter (λ je, ¬ je.2 < now) (s : gmap string Z)). split.
    + intros k. destruct ((s : gmap string Z) !! k) as [x|] eqn:Hk; simpl.
      * destruct (decide (x < now)).
        -- right. split; [|exists x; split; [done|lia]]. apply map_lookup_filter_None. right. intros y Hy. simpl in *.
           change ((s : gmap string Z) !! k = Some y) in Hy. rewrite Hk in Hy. injection Hy as <-. intros Hge. by apply Hge.
        -- left. etrans; [|symmetry; exact Hk]. by apply map_lookup_filter_Some.
      * left. etrans; [|symmetry; exact Hk]. apply map_lookup_filter_None. by left.
    + left. exists until. split; [by left|done].
  - intros j now s _. split; [done|]. split; [done|]. simpl.
    destruct ((s : gmap string Z) !! j) as [x|] eqn:Hj; simpl.
    + destruct (Z.ltb_spec x now); simpl; [|by exists x]. intros y Hy. simplify_eq. lia.
    + done.
Qed.
