(* ===== verification/Sqlite.v ===== *)
(** The SQLite catalogue (internal/mod/db/sqlite): the store of a small
    installation. Here: the engine as the store uses it, the retries of [call],
    the mapping of errors, and the accounts, tokens and revoked sessions of
    catalog.go; they refine the abstract catalogue (Catalog).

    A statement of the source is a function on the tables, with the constraints
    of migrations/sqlite: it runs as a whole or fails as a whole. What the engine
    answers besides (a busy database, an input/output error, an answer lost after
    the statement ran) is read from a script [env], one entry per statement, so
    that every theorem holds for every behaviour of the engine. *)
From S2P Require Import Prelude GoStr Domain Port Catalog.
Local Open Scope Z_scope.

(** * Errors *)

(** An error of the driver carries a code of SQLite, or is another error. *)
Inductive drverr :=
| Code (c : Z) (msg : string)
| Other (msg : string).
Inductive sqlerr :=
| ErrNoRows
| Drv (e : drverr).
Abbreviation sres := (result sqlerr).

Definition SQLITE_BUSY : Z := 5.
Definition SQLITE_LOCKED : Z := 6.
Definition SQLITE_CONSTRAINT : Z := 19.
Definition SQLITE_LOCKED_SHAREDCACHE : Z := 262.
Definition SQLITE_CONSTRAINT_CHECK : Z := 275.
Definition SQLITE_BUSY_SNAPSHOT : Z := 517.
Definition SQLITE_BUSY_TIMEOUT : Z := 773.
Definition SQLITE_CONSTRAINT_FOREIGNKEY : Z := 787.
Definition SQLITE_CONSTRAINT_NOTNULL : Z := 1299.
Definition SQLITE_CONSTRAINT_PRIMARYKEY : Z := 1555.
Definition SQLITE_CONSTRAINT_UNIQUE : Z := 2067.

Definition busy_code (c : Z) : bool :=
  (c =? SQLITE_BUSY) || (c =? SQLITE_BUSY_SNAPSHOT) || (c =? SQLITE_BUSY_TIMEOUT) ||
  (c =? SQLITE_LOCKED) || (c =? SQLITE_LOCKED_SHAREDCACHE).
Definition isBusy (e : sqlerr) : bool :=
  match e with Drv (Code c _) => busy_code c | _ => false end.

(** An error that is passed on as it is. *)
Definition as_error (e : sqlerr) : error :=
  match e with
  | ErrNoRows => Text "sql: no rows in result set"
  | Drv (Code _ msg) | Drv (Other msg) => Text msg
  end.
Definition mapRead (e : sqlerr) (what key : string) : error :=
  match e with ErrNoRows => NotFoundError what key | _ => as_error e end.
Definition mapWriteCode (code : Z) (what key : string) : option error :=
  if (code =? SQLITE_CONSTRAINT_UNIQUE) || (code =? SQLITE_CONSTRAINT_PRIMARYKEY)
  then Some (ConflictError what key "")
  else if code =? SQLITE_CONSTRAINT_FOREIGNKEY then Some (ConflictError what key "нарушение внешнего ключа")
  else if code =? SQLITE_CONSTRAINT_NOTNULL then Some (ConflictError what key "нарушение NOT NULL")
  else if code =? SQLITE_CONSTRAINT_CHECK then Some (ConflictError what key "нарушение CHECK-ограничения")
  else if code =? SQLITE_CONSTRAINT then Some (ConflictError what key "нарушение ограничения целостности")
  else None.
Definition mapWrite (e : sqlerr) (what key : string) : error :=
  match e with
  | Drv (Code c _) => default (as_error e) (mapWriteCode c what key)
  | _ => as_error e
  end.

(** * Columns *)

(** [dbtalk.Now] is [unix]; [nullTime] writes the zero time as NULL. *)
Definition nullTime (t : Z) : option Z := if is_zero_time t then None else Some (unix t).
Definition timeFromNull (n : option Z) : Z := match n with Some n => from_unix n | None => 0 end.
Definition joinScopes (scopes : list string) : string := String.concat "," scopes.
Definition splitScopes (joined : string) : list string :=
  if String.eqb joined "" then [] else split "," joined.

Record user_row := mk_user_row {
  ur_username : string; ur_password_hash : string; ur_role : string; ur_token_version : Z; ur_created_at : Z
}.
Record token_row := mk_token_row {
  tr_user_id : Z; tr_name : string; tr_prefix : string; tr_token_hash : string; tr_scopes : string;
  tr_created_at : Z; tr_expires_at : option Z; tr_last_used_at : option Z; tr_revoked_at : option Z
}.
Definition scanUser (id : Z) (r : user_row) : User :=
  mk_User id (ur_username r) (ur_password_hash r) (ur_role r) (ur_token_version r) (from_unix (ur_created_at r)).
Definition scanToken (id : Z) (r : token_row) : APIToken :=
  mk_APIToken id (tr_user_id r) (tr_name r) (tr_prefix r) (tr_token_hash r) (splitScopes (tr_scopes r))
    (from_unix (tr_created_at r)) (timeFromNull (tr_expires_at r)) (timeFromNull (tr_revoked_at r)).

(** * The engine *)

Record repo_row := mk_repo_row {
  rr_name : string; rr_owner_id : Z; rr_ecosystem : string; rr_quota_bytes : Z; rr_quota_files : Z;
  rr_min_versions : Z; rr_max_age_days : Z; rr_created_at : Z
}.
Record remote_row := mk_remote_row {
  mr_name : string; mr_ecosystem : string; mr_upstream_url : string; mr_proxy_url : string; mr_mode : string;
  mr_enabled : bool; mr_sync_interval_sec : Z; mr_include : string;
  mr_eviction_min_versions : option Z; mr_eviction_max_age_days : option Z; mr_created_at : Z
}.
Record job_row := mk_job_row {
  jr_remote_id : Z; jr_state : string; jr_interval_sec : Z; jr_last_run_at : option Z; jr_cursor : string;
  jr_updated_at : Z
}.
Record audit_row := mk_audit_row {
  ar_ts : Z; ar_actor : string; ar_action : string; ar_object : string; ar_result : string; ar_detail : string
}.
Record object_row := mk_object_row {
  or_storage_key : string; or_etag : string; or_size : Z; or_content_type : string;
  or_last_modified : option Z; or_expires_at : option Z
}.

Record stats_row := mk_stats_row {
  sr_hits : Z; sr_misses : Z; sr_stale_served : Z; sr_negative_hits : Z; sr_upstream_errors : Z;
  sr_bytes_from_upstream : Z; sr_bytes_to_clients : Z; sr_packages : Z; sr_updated_at : Z
}.

(** The tables of migrations/sqlite. *)
Record tables := mk_tables {
  tb_users : gmap Z user_row;
  tb_tokens : gmap Z token_row;
  tb_repos : gmap Z repo_row;
  tb_perms : gmap (Z * Z) Z;                     (* repository, user: created_at *)
  tb_remotes : gmap Z remote_row;
  tb_jobs : gmap Z job_row;
  tb_audit : gmap Z audit_row;
  tb_objects : gmap string object_row;
  tb_revoked : gmap string Z;
  tb_access : gmap (string * string) (Z * Z);    (* scope, key: last_access_at, hits *)
  tb_pins : gset (Z * string);
  tb_stats : gmap string stats_row;              (* ecosystem *)
  tb_settings : gmap string (string * Z)         (* key: value, updated_at *)
}.
(** A new database. *)
Definition empty_tables : tables := mk_tables ∅ ∅ ∅ ∅ ∅ ∅ ∅ ∅ ∅ ∅ ∅ ∅ ∅.

Inductive outcome := Runs | Fails (e : drverr) | Lost (e : drverr).
Record DB := mk_DB {
  env : nat → outcome;
  ctx_Err : nat → option string;
  stmts : nat;
  tabs : tables
}.
Definition with_tabs (t : tables) (d : DB) : DB := mk_DB (env d) (ctx_Err d) (stmts d) t.

(** A statement, and its execution. *)
Definition query (A : Type) : Type := tables → sres A * tables.
Definition stmt {A} (q : query A) : St DB (sres A) := λ d,
  let d' t := mk_DB (env d) (ctx_Err d) (S (stmts d)) t in
  match env d (stmts d) with
  | Runs => let '(r, t) := q (tabs d) in (r, d' t)
  | Fails e => (Err (Drv e), d' (tabs d))
  | Lost e => (Err (Drv e), d' (q (tabs d)).2)
  end.

Definition busyRetries : nat := 2.
(** The loop of [call]; [tries] is [busyRetries - attempt]. *)
Fixpoint call_loop {A} (tries : nat) (fn : St DB (sres A)) : St DB (sres A) :=
  r ← fn;
  match r with
  | Ok v => mret (Ok v)
  | Err e =>
      if negb (isBusy e) then mret (Err e)
      else match tries with
           | O => mret (Err e)
           | S tries =>
               c ← st_gets (λ d, ctx_Err d (stmts d));
               match c with
               | Some msg => mret (Err (Drv (Other msg)))
               | None => call_loop tries fn
               end
           end
  end.
Definition call {A} (fn : St DB (sres A)) : St DB (sres A) := call_loop busyRetries fn.

(** [QueryRowContext]: the one row. *)
Definition row {A} (r : option A) : sres A := match r with Some a => Ok a | None => Err ErrNoRows end.
Definition select {A} (f : tables → sres A) : query A := λ t, (f t, t).
Definition constraint_failed (c : Z) : sqlerr := Drv (Code c "constraint failed").
Definition requireAffected (n : nat) (what key : string) : option error :=
  if (n =? 0)%nat then Some (NotFoundError what key) else None.
Definition exec (q : query nat) (what key : string) : St DB (option error) :=
  r ← call (stmt q);
  mret match r with Err e => Some (mapWrite e what key) | Ok n => requireAffected n what key end.

(** The id of a new row: one more than the greatest in the table. *)
Definition next_rowid {A} (t : gmap Z A) : Z := map_fold (λ i _ m, Z.max i m) 0 t + 1.
(** Rows are read in the order of their ids. *)
Definition id_le {A} (a b : Z * A) : Prop := a.1 ≤ b.1.
#[global] Instance id_le_dec {A} (a b : Z * A) : Decision (id_le a b).
Proof. unfold id_le. apply _. Defined.
Definition by_id {A} (t : gmap Z A) : list (Z * A) := merge_sort id_le (map_to_list t).
(** The first row that satisfies [p]. *)
Definition find_row {A} (p : A → bool) (t : gmap Z A) : option (Z * A) := List.find (λ ir, p ir.2) (by_id t).
(** Whether another row than [id] has the value of a UNIQUE column. *)
Definition taken {A} (col : A → string) (v : string) (id : Z) (t : gmap Z A) : bool :=
  bool_decide (map_Exists (λ i r, i ≠ id ∧ col r = v) t).
Definition set_users_tab (m : gmap Z user_row) (t : tables) : tables :=
  mk_tables m (tb_tokens t) (tb_repos t) (tb_perms t) (tb_remotes t) (tb_jobs t) (tb_audit t) (tb_objects t) (tb_revoked t) (tb_access t) (tb_pins t) (tb_stats t) (tb_settings t).
Definition set_tokens_tab (m : gmap Z token_row) (t : tables) : tables :=
  mk_tables (tb_users t) m (tb_repos t) (tb_perms t) (tb_remotes t) (tb_jobs t) (tb_audit t) (tb_objects t) (tb_revoked t) (tb_access t) (tb_pins t) (tb_stats t) (tb_settings t).
Definition set_repos_tab (m : gmap Z repo_row) (t : tables) : tables :=
  mk_tables (tb_users t) (tb_tokens t) m (tb_perms t) (tb_remotes t) (tb_jobs t) (tb_audit t) (tb_objects t) (tb_revoked t) (tb_access t) (tb_pins t) (tb_stats t) (tb_settings t).
Definition set_perms_tab (m : gmap (Z * Z) Z) (t : tables) : tables :=
  mk_tables (tb_users t) (tb_tokens t) (tb_repos t) m (tb_remotes t) (tb_jobs t) (tb_audit t) (tb_objects t) (tb_revoked t) (tb_access t) (tb_pins t) (tb_stats t) (tb_settings t).
Definition set_remotes_tab (m : gmap Z remote_row) (t : tables) : tables :=
  mk_tables (tb_users t) (tb_tokens t) (tb_repos t) (tb_perms t) m (tb_jobs t) (tb_audit t) (tb_objects t) (tb_revoked t) (tb_access t) (tb_pins t) (tb_stats t) (tb_settings t).
Definition set_jobs_tab (m : gmap Z job_row) (t : tables) : tables :=
  mk_tables (tb_users t) (tb_tokens t) (tb_repos t) (tb_perms t) (tb_remotes t) m (tb_audit t) (tb_objects t) (tb_revoked t) (tb_access t) (tb_pins t) (tb_stats t) (tb_settings t).
Definition set_audit_tab (m : gmap Z audit_row) (t : tables) : tables :=
  mk_tables (tb_users t) (tb_tokens t) (tb_repos t) (tb_perms t) (tb_remotes t) (tb_jobs t) m (tb_objects t) (tb_revoked t) (tb_access t) (tb_pins t) (tb_stats t) (tb_settings t).
Definition set_objects_tab (m : gmap string object_row) (t : tables) : tables :=
  mk_tables (tb_users t) (tb_tokens t) (tb_repos t) (tb_perms t) (tb_remotes t) (tb_jobs t) (tb_audit t) m (tb_revoked t) (tb_access t) (tb_pins t) (tb_stats t) (tb_settings t).
Definition set_revoked_tab (m : gmap string Z) (t : tables) : tables :=
  mk_tables (tb_users t) (tb_tokens t) (tb_repos t) (tb_perms t) (tb_remotes t) (tb_jobs t) (tb_audit t) (tb_objects t) m (tb_access t) (tb_pins t) (tb_stats t) (tb_settings t).
Definition set_access_tab (m : gmap (string * string) (Z * Z)) (t : tables) : tables :=
  mk_tables (tb_users t) (tb_tokens t) (tb_repos t) (tb_perms t) (tb_remotes t) (tb_jobs t) (tb_audit t) (tb_objects t) (tb_revoked t) m (tb_pins t) (tb_stats t) (tb_settings t).
Definition set_pins_tab (m : gset (Z * string)) (t : tables) : tables :=
  mk_tables (tb_users t) (tb_tokens t) (tb_repos t) (tb_perms t) (tb_remotes t) (tb_jobs t) (tb_audit t) (tb_objects t) (tb_revoked t) (tb_access t) m (tb_stats t) (tb_settings t).
Definition set_stats_tab (m : gmap string stats_row) (t : tables) : tables :=
  mk_tables (tb_users t) (tb_tokens t) (tb_repos t) (tb_perms t) (tb_remotes t) (tb_jobs t) (tb_audit t) (tb_objects t) (tb_revoked t) (tb_access t) (tb_pins t) m (tb_settings t).
Definition set_settings_tab (m : gmap string (string * Z)) (t : tables) : tables :=
  mk_tables (tb_users t) (tb_tokens t) (tb_repos t) (tb_perms t) (tb_remotes t) (tb_jobs t) (tb_audit t) (tb_objects t) (tb_revoked t) (tb_access t) (tb_pins t) (tb_stats t) m.

(** * Accounts *)
Definition user_row_of (u : User) : user_row :=
  mk_user_row (u_Username u) (u_PasswordHash u) (u_Role u) (u_TokenVersion u) (unix (u_CreatedAt u)).
Definition insert_user (r : user_row) (t : tables) : sres Z * tables :=
  if taken ur_username (ur_username r) 0 (tb_users t) then (Err (constraint_failed SQLITE_CONSTRAINT_UNIQUE), t)
  else let id := next_rowid (tb_users t) in (Ok id, set_users_tab (<[id := r]> (tb_users t)) t).
Definition sqlUserInsert (r : user_row) : query Z := insert_user r.
Definition sqlUserInsertFirst (r : user_row) : query Z := λ t,
  if decide (tb_users t = ∅) then insert_user r t else (Err ErrNoRows, t).
Definition sqlUserByID (id : Z) : query User := select (λ t, row (scanUser id <$> tb_users t !! id)).
Definition sqlUserByName (n : string) : query User := select (λ t,
  row ((λ ir, scanUser ir.1 ir.2) <$> find_row (λ r, String.eqb (ur_username r) n) (tb_users t))).
Definition sqlUserAll : query (list User) := select (λ t, Ok ((λ ir, scanUser ir.1 ir.2) <$> by_id (tb_users t))).
(** [created_at] is not in the list of columns. *)
Definition sqlUserUpdate (u : User) : query nat := λ t,
  match tb_users t !! u_ID u with
  | None => (Ok 0%nat, t)
  | Some old =>
      if taken ur_username (u_Username u) (u_ID u) (tb_users t)
      then (Err (constraint_failed SQLITE_CONSTRAINT_UNIQUE), t)
      else (Ok 1%nat, set_users_tab (<[u_ID u := mk_user_row (u_Username u) (u_PasswordHash u) (u_Role u)
                                   (u_TokenVersion u) (ur_created_at old)]> (tb_users t)) t)
  end.
(** The tokens and rights go with their account; a repository keeps its owner. *)
Definition sqlUserDelete (id : Z) : query nat := λ t,
  match tb_users t !! id with
  | None => (Ok 0%nat, t)
  | Some _ =>
      if bool_decide (map_Exists (λ _ r, rr_owner_id r = id) (tb_repos t))
      then (Err (constraint_failed SQLITE_CONSTRAINT_FOREIGNKEY), t)
      else (Ok 1%nat, set_users_tab (delete id (tb_users t))
                        (set_tokens_tab (filter (λ it, tr_user_id it.2 ≠ id) (tb_tokens t))
                        (set_perms_tab (filter (λ pt, pt.1.2 ≠ id) (tb_perms t)) t)))
  end.
Definition sqlUserAny : query bool := select (λ t, Ok (negb (bool_decide (tb_users t = ∅)))).

Definition CreateUser_sql (u : User) : St DB (res User) :=
  r ← call (stmt (sqlUserInsert (user_row_of u)));
  mret match r with Ok id => Ok (with_ID id u) | Err e => Err (mapWrite e "пользователь" (u_Username u)) end.
(** A skipped insertion returns no row, which is no error. *)
Definition EnsureFirstUser_sql (u : User) : St DB (res (User * bool)) :=
  r ← call (id ← stmt (sqlUserInsertFirst (user_row_of u));
            mret match id with Err ErrNoRows => Ok 0 | _ => id end);
  mret match r with
       | Err e => Err (mapWrite e "пользователь" (u_Username u))
       | Ok id => if id =? 0 then Ok (no_User, false) else Ok (with_ID id u, true)
       end.
Definition User_sql (id : Z) : St DB (res User) :=
  r ← call (stmt (sqlUserByID id));
  mret match r with Ok u => Ok u | Err e => Err (mapRead e "пользователь" (fmt_int id)) end.
Definition UserByUsername_sql (n : string) : St DB (res User) :=
  r ← call (stmt (sqlUserByName n));
  mret match r with Ok u => Ok u | Err e => Err (mapRead e "пользователь" n) end.
Definition Users_sql : St DB (res (list User)) :=
  r ← call (stmt sqlUserAll); mret match r with Ok us => Ok us | Err e => Err (as_error e) end.
Definition UpdateUser_sql (u : User) : St DB (option error) :=
  r ← call (stmt (sqlUserUpdate u));
  mret match r with
       | Err e => Some (mapWrite e "пользователь" (u_Username u))
       | Ok n => requireAffected n "пользователь" (u_Username u)
       end.
Definition DeleteUser_sql (id : Z) : St DB (option error) := exec (sqlUserDelete id) "пользователь" (fmt_int id).
Definition HasUsers_sql : St DB (res bool) :=
  r ← call (stmt sqlUserAny); mret match r with Ok b => Ok b | Err e => Err (as_error e) end.

(** * API tokens *)
Definition token_row_of (t : APIToken) : token_row :=
  mk_token_row (t_UserID t) (t_Name t) (t_Prefix t) (t_SHA256 t) (joinScopes (t_Scopes t))
    (unix (t_CreatedAt t)) (nullTime (t_ExpiresAt t)) None None.
Definition sqlTokenInsert (r : token_row) : query Z := λ t,
  if taken tr_prefix (tr_prefix r) 0 (tb_tokens t) || taken tr_token_hash (tr_token_hash r) 0 (tb_tokens t)
  then (Err (constraint_failed SQLITE_CONSTRAINT_UNIQUE), t)
  else match tb_users t !! tr_user_id r with
       | None => (Err (constraint_failed SQLITE_CONSTRAINT_FOREIGNKEY), t)
       | Some _ =>
           let id := next_rowid (tb_tokens t) in (Ok id, set_tokens_tab (<[id := r]> (tb_tokens t)) t)
       end.
Definition sqlTokenByHash (h : string) : query APIToken := select (λ t,
  row ((λ ir, scanToken ir.1 ir.2) <$> find_row (λ r, String.eqb (tr_token_hash r) h) (tb_tokens t))).
Definition sqlTokenByUser (id : Z) : query (list APIToken) := select (λ t,
  Ok ((λ ir, scanToken ir.1 ir.2) <$> List.filter (λ ir, tr_user_id ir.2 =? id) (by_id (tb_tokens t)))).
Definition update_token (id : Z) (f : token_row → token_row) : query nat := λ t,
  match tb_tokens t !! id with
  | None => (Ok 0%nat, t)
  | Some r => (Ok 1%nat, set_tokens_tab (<[id := f r]> (tb_tokens t)) t)
  end.
Definition sqlTokenDelete (id : Z) : query nat := λ t,
  match tb_tokens t !! id with
  | None => (Ok 0%nat, t)
  | Some _ => (Ok 1%nat, set_tokens_tab (delete id (tb_tokens t)) t)
  end.
Definition sqlTokenTouch (at_ id : Z) : query nat := update_token id (λ r,
  mk_token_row (tr_user_id r) (tr_name r) (tr_prefix r) (tr_token_hash r) (tr_scopes r) (tr_created_at r)
    (tr_expires_at r) (Some at_) (tr_revoked_at r)).
Definition sqlTokenRevoke (at_ id : Z) : query nat := update_token id (λ r,
  mk_token_row (tr_user_id r) (tr_name r) (tr_prefix r) (tr_token_hash r) (tr_scopes r) (tr_created_at r)
    (tr_expires_at r) (tr_last_used_at r) (Some at_)).

Definition CreateToken_sql (t : APIToken) : St DB (res APIToken) :=
  r ← call (stmt (sqlTokenInsert (token_row_of t)));
  mret match r with Ok id => Ok (token_with_ID id t) | Err e => Err (mapWrite e "токен" (t_Prefix t)) end.
Definition TokenBySHA256_sql (h : string) : St DB (res APIToken) :=
  r ← call (stmt (sqlTokenByHash h));
  mret match r with Ok t => Ok t | Err e => Err (mapRead e "токен" h) end.
Definition TokensByUser_sql (id : Z) : St DB (res (list APIToken)) :=
  r ← call (stmt (sqlTokenByUser id)); mret match r with Ok ts => Ok ts | Err e => Err (as_error e) end.
Definition DeleteToken_sql (id : Z) : St DB (option error) := exec (sqlTokenDelete id) "токен" (fmt_int id).
Definition RevokeToken_sql (id at_ : Z) : St DB (option error) :=
  r ← call (stmt (sqlTokenRevoke (unix at_) id));
  mret match r with
       | Err e => Some (mapWrite e "токен" (fmt_int id))
       | Ok n => requireAffected n "токен" (fmt_int id)
       end.
Definition TouchToken_sql (id at_ : Z) : St DB (option error) :=
  r ← call (stmt (sqlTokenTouch (unix at_) id));
  mret match r with Err e => Some (mapWrite e "токен" (fmt_int id)) | Ok _ => None end.

(** * Revoked sessions *)
Definition sqlRevPurge (now : Z) : query unit := λ t,
  (Ok tt, set_revoked_tab (filter (λ je, ¬ je.2 < now) (tb_revoked t)) t).
Definition upsertRevocation (j : string) (expires : Z) : query unit := λ t,
  (Ok tt, set_revoked_tab (<[j := expires]> (tb_revoked t)) t).
Definition sqlRevCheck (j : string) (now : Z) : query bool := select (λ t,
  Ok match tb_revoked t !! j with Some x => now <=? x | None => false end).

(** Two statements, without a transaction; a retry repeats both. *)
Definition InsertRevocation_sql (j : string) (now expiresAt : Z) : St DB (option error) :=
  r ← call (p ← stmt (sqlRevPurge (unix now));
            match p with
            | Err e => mret (Err e)
            | Ok _ => stmt (upsertRevocation j (unix expiresAt))
            end);
  mret match r with Err e => Some (mapWrite e "отзыв сессии" j) | Ok _ => None end.
Definition IsRevoked_sql (j : string) (now : Z) : St DB (res bool) :=
  r ← call (stmt (sqlRevCheck j (unix now))); mret match r with Ok b => Ok b | Err e => Err (as_error e) end.

#[export] Instance DB_UserStore : UserStore DB := {
  CreateUser_in := CreateUser_sql; EnsureFirstUser := EnsureFirstUser_sql; User_in := User_sql;
  UserByUsername := UserByUsername_sql; Users_in := Users_sql; UpdateUser := UpdateUser_sql;
  DeleteUser_in := DeleteUser_sql; HasUsers_in := HasUsers_sql
}.
#[export] Instance DB_TokenStore : TokenStore DB := {
  CreateToken := CreateToken_sql; TokenBySHA256 := TokenBySHA256_sql; TokensByUser := TokensByUser_sql;
  DeleteToken := DeleteToken_sql; RevokeToken_in := RevokeToken_sql; TouchToken := TouchToken_sql
}.
#[export] Instance DB_Revocations : Revocations DB := {
  InsertRevocation := InsertRevocation_sql; IsRevoked := IsRevoked_sql
}.
