(* ===== verification/SqliteLaws.v ===== *)
(** The SQLite catalogue refines the abstract one (Catalog): whatever the
    engine answers, the accounts, tokens and revoked sessions behave as the
    ports promise, up to the fractions of a second of stored times. *)
From S2P Require Import Prelude GoStr Domain Port Catalog Sqlite.
Local Open Scope Z_scope.

(** * Tables *)
Lemma next_rowid_above {A} (t : gmap Z A) i : is_Some (t !! i) → i < next_rowid t.
Proof.
  unfold next_rowid. revert i. apply (map_fold_weak_ind (λ m t, ∀ i, is_Some (t !! i) → i < m + 1)).
  - intros i [x Hx]. by rewrite lookup_empty in Hx.
  - intros k x m r Hk IH i [y [[<- <-]|[_ Hi]]%lookup_insert_Some]; [lia|].
    specialize (IH i ltac:(by exists y)). lia.
Qed.
Lemma next_rowid_fresh {A} (t : gmap Z A) : t !! next_rowid t = None.
Proof. destruct (t !! next_rowid t) eqn:E; [|done]. pose proof (next_rowid_above t (next_rowid t)) as H. rewrite E in H. specialize (H ltac:(eauto)). lia. Qed.
Lemma next_rowid_pos {A} (t : gmap Z A) : 0 < next_rowid t.
Proof.
  unfold next_rowid. apply (map_fold_weak_ind (λ m t, 0 < m + 1)); [lia|]. intros. lia.
Qed.

Lemma by_id_elem {A} (t : gmap Z A) i r : (i, r) ∈ by_id t ↔ t !! i = Some r.
Proof. unfold by_id. by rewrite merge_sort_Permutation, elem_of_map_to_list. Qed.
Lemma find_row_Some {A} (p : A → bool) (t : gmap Z A) i r :
  find_row p t = Some (i, r) → t !! i = Some r ∧ p r = true.
Proof. intros [Hin Hp]%find_some. apply list_elem_of_In, by_id_elem in Hin. done. Qed.
Lemma find_row_None {A} (p : A → bool) (t : gmap Z A) i r : find_row p t = None → t !! i = Some r → p r = false.
Proof.
  intros Hnone Hi. by apply (find_none _ _ Hnone (i, r)), list_elem_of_In, by_id_elem.
Qed.
Lemma taken_false {A} (col : A → string) v id (t : gmap Z A) i r :
  taken col v id t = false → t !! i = Some r → i ≠ id → col r ≠ v.
Proof. intros Ht Hi Hne Hv. apply bool_decide_eq_false in Ht. apply Ht. by exists i, r. Qed.
Definition unique_col {A} (col : A → string) (t : gmap Z A) : Prop :=
  ∀ i j r r', t !! i = Some r → t !! j = Some r' → col r = col r' → i = j.
Lemma unique_insert {A} (col : A → string) (t : gmap Z A) id r :
  unique_col col t → taken col (col r) id t = false → unique_col col (<[id := r]> t).
Proof.
  intros Hu Ht i j x y [[<- <-]|[Hi Hx]]%lookup_insert_Some [[<- <-]|[Hj Hy]]%lookup_insert_Some Hcol; try done.
  - symmetry in Hcol. by apply (taken_false _ _ _ _ _ _ Ht Hy) in Hcol.
  - by apply (taken_false _ _ _ _ _ _ Ht Hx) in Hcol.
  - by eapply Hu.
Qed.
Lemma unique_sub {A} (col : A → string) (t t' : gmap Z A) : t' ⊆ t → unique_col col t → unique_col col t'.
Proof. intros Hsub Hu i j r r' Hi Hj. apply Hu; by eapply lookup_weaken. Qed.
(** A row takes part in no other check than its own. *)
Lemma taken_fresh {A} (col : A → string) v id (t : gmap Z A) :
  t !! id = None → taken col v 0 t = false → (∀ i, is_Some (t !! i) → i ≠ 0) → taken col v id t = false.
Proof.
  intros Hid Ht Hpos. apply bool_decide_eq_false. intros (i & r & Hi & _ & Hv).
  by apply (taken_false _ _ _ _ _ _ Ht Hi) in Hv; [|eauto].
Qed.

(** * Calls *)

(** A busy engine has not run the statement. *)
Definition good_env (d : DB) : Prop := ∀ n e, env d n = Lost e → isBusy (Drv e) = false.
Definition same_env (d d' : DB) : Prop := env d' = env d ∧ ctx_Err d' = ctx_Err d.
Lemma good_same_env d d' : same_env d d' → good_env d → good_env d'.
Proof. intros [He _] Hd n e. rewrite He. apply Hd. Qed.

(** What a statement may do: run, or fail with or without effect. *)
Definition runs {A} (q : query A) (t : tables) (r : sres A) (t' : tables) : Prop :=
  (r, t') = q t ∨ ∃ e, r = Err (Drv e) ∧ (t' = t ∨ t' = (q t).2 ∧ isBusy (Drv e) = false).
Lemma stmt_runs {A} (q : query A) d : good_env d →
  same_env d (stmt q d).2 ∧ runs q (tabs d) (stmt q d).1 (tabs (stmt q d).2).
Proof.
  intros Hd. unfold stmt, runs. destruct (env d (stmts d)) as [|e|e] eqn:He.
  - destruct (q (tabs d)) as [r t] eqn:E. simpl. split; [done|by left].
  - simpl. split; [done|]. right. exists e. split; [done|by left].
  - simpl. split; [done|]. right. exists e. split; [done|]. right. split; [done|by eapply Hd].
Qed.

Section call.
  Context {A : Type} (fn : St DB (sres A)) (P : tables → sres A → tables → Prop).
  Hypothesis fn_P : ∀ d, good_env d → same_env d (fn d).2 ∧ P (tabs d) (fn d).1 (tabs (fn d).2).
  Hypothesis P_retry : ∀ t e t1 r t2, P t (Err e) t1 → isBusy e = true → P t1 r t2 → P t r t2.
  Hypothesis P_cancel : ∀ t e t1 msg, P t (Err e) t1 → isBusy e = true → P t (Err (Drv (Other msg))) t1.
Lemma call_P d : good_env d → same_env d (call fn d).2 ∧ P (tabs d) (call fn d).1 (tabs (call fn d).2).
Proof.
  unfold call. generalize busyRetries as n. intros n. revert d. induction n as [|n IH]; intros d Hd; simpl;
    unfold mbind, st_bind; destruct (fn_P d Hd) as [Hs HP]; destruct (fn d) as [r d1]; simpl in *;
    destruct r as [a|e]; try done; destruct (isBusy e) eqn:Hb; try done.
  simpl. destruct (ctx_Err d1 (stmts d1)) as [msg|]; simpl; [split; [done|by eapply P_cancel]|].
  destruct (IH d1) as [[He Hc] HP1]; [by eapply good_same_env|]. destruct Hs as [He1 Hc1].
  split; [split; congruence|]. by eapply P_retry.
Qed.
End call.

(** An erroneous statement changes nothing. *)
Definition atomic {A} (q : query A) : Prop := ∀ t e, (q t).1 = Err e → (q t).2 = t ∧ isBusy e = false.
Lemma call_runs {A} (q : query A) d : atomic q → good_env d →
  same_env d (call (stmt q) d).2 ∧ runs q (tabs d) (call (stmt q) d).1 (tabs (call (stmt q) d).2).
Proof.
  intros Hq Hd. apply call_P; [apply stmt_runs| | |done].
  - intros t e t1 r t2 [Heq|(e' & [= ->] & [->|[_ Hb]])] Hbusy Hr; [|done|congruence].
    destruct (Hq t e) as [_ ?]; [by rewrite <- Heq|]. congruence.
  - intros t e t1 msg [Heq|(e' & [= ->] & [->|[_ Hb]])] Hbusy; [|right; eauto|congruence].
    destruct (Hq t e) as [_ ?]; [by rewrite <- Heq|]. congruence.
Qed.
Lemma select_atomic {A} (f : tables → sres A) :
  (∀ t e, f t = Err e → isBusy e = false) → atomic (select f).
Proof. intros Hf t e H. split; [done|exact (Hf t e H)]. Qed.
Lemma row_busy {A} (r : option A) e : row r = Err e → isBusy e = false.
Proof. destruct r; simpl; [done|]. by intros [= <-]. Qed.

(** * The view *)
Definition accounts_of (t : tables) : gmap Z User := map_imap (λ id r, Some (scanUser id r)) (tb_users t).
Definition tokens_of (t : tables) : gmap Z APIToken := map_imap (λ id r, Some (scanToken id r)) (tb_tokens t).
Definition cat_of (t : tables) : Cat := mk_Cat (accounts_of t) (tokens_of t) (from_unix <$> tb_revoked t).
Record good_tables (t : tables) : Prop := {
  g_username : unique_col ur_username (tb_users t);
  g_hash : unique_col tr_token_hash (tb_tokens t);
  g_users i : is_Some (tb_users t !! i) → i ≠ 0;
  g_tokens i : is_Some (tb_tokens t !! i) → i ≠ 0
}.
#[export] Instance DB_view : CatalogView DB := {
  abs d := cat_of (tabs d);
  wf d := good_env d ∧ good_tables (tabs d)
}.

Lemma accounts_of_lookup t id : accounts_of t !! id = scanUser id <$> tb_users t !! id.
Proof. unfold accounts_of. rewrite map_lookup_imap. by destruct (tb_users t !! id). Qed.
Lemma tokens_of_lookup t id : tokens_of t !! id = scanToken id <$> tb_tokens t !! id.
Proof. unfold tokens_of. rewrite map_lookup_imap. by destruct (tb_tokens t !! id). Qed.
Lemma accounts_of_insert id r t :
  cat_of (set_users_tab (<[id := r]> (tb_users t)) t) = set_accounts (<[id := scanUser id r]> (accounts_of t)) (cat_of t).
Proof. unfold cat_of, accounts_of, set_accounts. simpl. by rewrite (map_imap_insert_Some _ _ _ _ (scanUser id r)). Qed.
Lemma tokens_of_insert id r t :
  cat_of (set_tokens_tab (<[id := r]> (tb_tokens t)) t) = set_tokens (<[id := scanToken id r]> (tokens_of t)) (cat_of t).
Proof. unfold cat_of, tokens_of, set_tokens. simpl. by rewrite (map_imap_insert_Some _ _ _ _ (scanToken id r)). Qed.
Lemma rounded_unix t : rounded t (from_unix (unix t)).
Proof. by right. Qed.
Lemma rounded_null t : rounded t (timeFromNull (nullTime t)).
Proof. unfold nullTime, is_zero_time. case_bool_decide as Ht; [left; by subst|by right]. Qed.

Lemma accounts_of_empty t : tb_users t = ∅ ↔ accounts_of t = ∅.
Proof.
  split; [unfold accounts_of; intros ->; apply map_imap_empty|]. intros He. apply map_eq. intros i.
  apply (f_equal (lookup i)) in He. rewrite accounts_of_lookup, lookup_empty in He. rewrite lookup_empty.
  by destruct (_ !! i).
Qed.

(** * Refinement *)
Lemma refines_call {A B} (q : query A) (post : sres A → B) (R : spec B) : atomic q →
  (∀ t, good_tables t → good_tables (q t).2) →
  (∀ t r t', good_tables t → runs q t r t' → R (cat_of t) (post r) (cat_of t')) →
  refines (r ← call (stmt q); mret (post r)) R.
Proof.
  intros Hq Hg HR d [Hd Ht]. unfold mbind, st_bind. destruct (call_runs q d Hq Hd) as [Hs Hr].
  destruct (call (stmt q) d) as [r d']. simpl in *. split; [|by apply HR].
  split; [by eapply good_same_env|]. specialize (Hg _ Ht).
  destruct Hr as [Heq|(e & _ & [->|[-> _]])]; [|done..]. by rewrite <- Heq in Hg.
Qed.
(** A read. *)
Lemma refines_select {A B} (f : tables → sres A) (post : sres A → res B) ok missing :
  (∀ t e, f t = Err e → isBusy e = false) → (∀ e, ∃ msg, post (Err (Drv e)) = Err (Text msg)) →
  (∀ t, good_tables t → match post (f t) with
     | Ok a => ok (cat_of t) a
     | Err e => has_type is_NotFound e = true → missing (cat_of t) end) →
  refines (r ← call (stmt (select f)); mret (post r)) (reads ok missing).
Proof.
  intros Hf Hpost Hok. apply refines_call; [by apply select_atomic|done|].
  intros t r t' Ht [Heq|(e & -> & Ht')]; [injection Heq as -> ->; split; [done|by apply Hok]|].
  split; [by destruct Ht' as [->|[-> _]]|]. by destruct (Hpost e) as [msg ->].
Qed.
(** A write without a result. *)
Lemma refines_write {A} (q : query A) (post : sres A → option error) step : atomic q →
  (∀ t, good_tables t → good_tables (q t).2) → (∀ e, post (Err e) ≠ None) →
  (∀ t, good_tables t → step (cat_of t) (cat_of (q t).2) ∨ post (q t).1 ≠ None ∧ cat_of (q t).2 = cat_of t) →
  refines (r ← call (stmt q); mret (post r)) (writes step).
Proof.
  intros Hq Hg Hpost Hstep. apply refines_call; [done..|].
  intros t r t' Ht [Heq|(e & -> & Ht')].
  - specialize (Hstep _ Ht). by rewrite <- Heq in Hstep.
  - destruct Ht' as [->|[-> _]]; [by right|]. destruct (Hstep _ Ht) as [?|[_ ->]]; [by left|by right].
Qed.

(** ** Accounts *)
Lemma insert_user_atomic r : atomic (insert_user r).
Proof. intros t e. unfold insert_user. destruct (taken _ _ _ _); simpl; [|done]. by intros [= <-]. Qed.
Lemma good_set_user t id r : good_tables t → id ≠ 0 → taken ur_username (ur_username r) id (tb_users t) = false →
  good_tables (set_users_tab (<[id := r]> (tb_users t)) t).
Proof.
  intros [Hu Hh Hi Hj] Hid Ht. split; simpl; [by apply unique_insert|done| |done].
  intros i [x [[<- _]|[_ Hx]]%lookup_insert_Some]; [done|eauto].
Qed.
Lemma insert_user_good r t : good_tables t → good_tables (insert_user r t).2.
Proof.
  intros Ht. unfold insert_user. destruct (taken _ _ _ _) eqn:E; [done|].
  apply good_set_user; [done|pose proof (next_rowid_pos (tb_users t)); lia|].
  apply taken_fresh; [apply next_rowid_fresh|done|apply Ht].
Qed.
Lemma insert_user_adds u t :
  insert_user (user_row_of u) t = (Err (constraint_failed SQLITE_CONSTRAINT_UNIQUE), t) ∨
  ∃ id t', insert_user (user_row_of u) t = (Ok id, t') ∧ 0 < id ∧ add_account u id (cat_of t) (cat_of t').
Proof.
  unfold insert_user. destruct (taken _ _ _ _); [by left|]. right. eexists _, _. split; [done|].
  split; [apply next_rowid_pos|]. split; simpl.
  - by rewrite accounts_of_lookup, next_rowid_fresh.
  - exists (scanUser (next_rowid (tb_users t)) (user_row_of u)). split; [done|apply accounts_of_insert].
Qed.
Lemma CreateUser_sql_refines u : refines (CreateUser_sql u) (create_user u).
Proof.
  apply refines_call; [apply insert_user_atomic|intros; by apply insert_user_good|].
  unfold runs, sqlUserInsert. intros t r t' Ht Hr.
  destruct (insert_user_adds u t) as [Heq|(id & t1 & Heq & _ & Hadd)]; rewrite Heq in Hr.
  - destruct Hr as [[= -> ->]|(e & -> & [->|[-> _]])]; by left.
  - destruct Hr as [[= -> ->]|(e & -> & [->|[-> _]])]; [by split|by left|right; by exists id].
Qed.
Lemma update_user_atomic u : atomic (sqlUserUpdate u).
Proof.
  intros t e. unfold sqlUserUpdate. destruct (_ !! _); [|done]. destruct (taken _ _ _ _); simpl; [|done]. by intros [= <-].
Qed.
Lemma UpdateUser_sql_refines u : refines (UpdateUser_sql u) (update_user u).
Proof.
  apply refines_write; [apply update_user_atomic| |done|].
  - intros t Ht. unfold sqlUserUpdate. destruct (tb_users t !! u_ID u) eqn:Hu; [|done].
    destruct (taken _ _ _ _) eqn:E; [done|]. apply good_set_user; [done| |done]. apply (g_users t Ht). by rewrite Hu.
  - intros t Ht. unfold sqlUserUpdate. destruct (tb_users t !! u_ID u) as [old|] eqn:Hu; [|by right].
    destruct (taken _ _ _ _) eqn:E; [by right|]. left. cbn [snd]. rewrite accounts_of_insert. split.
    + simpl. rewrite accounts_of_lookup, Hu. eauto.
    + eexists. split; [|done]. by destruct u.
Qed.
Lemma filter_tokens_sub (P : Z * token_row → Prop) `{∀ x, Decision (P x)} t t' :
  tb_tokens t' = filter P (tb_tokens t) → tokens_of t' ⊆ tokens_of t.
Proof.
  intros Heq. apply map_subseteq_spec. intros i x. rewrite !tokens_of_lookup, Heq.
  destruct (filter P (tb_tokens t) !! i) eqn:E; [|done]. by apply map_lookup_filter_Some in E as [-> _].
Qed.
Lemma user_delete_atomic id : atomic (sqlUserDelete id).
Proof.
  intros t e. unfold sqlUserDelete. destruct (_ !! _); [|done]. case_bool_decide; simpl; [|done]. by intros [= <-].
Qed.
Lemma DeleteUser_sql_refines id : refines (DeleteUser_sql id) (delete_user id).
Proof.
  apply refines_write; [apply user_delete_atomic| |done|].
  - intros t Ht. unfold sqlUserDelete. destruct (tb_users t !! id) eqn:Hu; [|done]. case_bool_decide; [done|].
    destruct Ht as [Hu1 Hh Hi Hj]. split; simpl.
    + eapply unique_sub; [|done]. apply delete_subseteq.
    + eapply unique_sub; [|done]. apply map_filter_subseteq.
    + intros i [x [_ Hx]%lookup_delete_Some]. eauto.
    + intros i [x [Hx _]%map_lookup_filter_Some]. eauto.
  - intros t Ht. unfold sqlUserDelete. destruct (tb_users t !! id) eqn:Hu; [|by right].
    case_bool_decide; [by right|]. left. eexists. split; [|unfold cat_of; simpl; f_equal].
    + by eapply (filter_tokens_sub (λ it, tr_user_id it.2 ≠ id)).
    + unfold accounts_of. simpl. apply map_imap_delete.
Qed.
(** The bootstrap: the insertion runs on an empty table only. *)
Lemma EnsureFirstUser_sql_refines u : refines (EnsureFirstUser_sql u) (ensure_first u).
Proof.
  intros d [Hd Ht].
  set (P := λ t r t', (r = Ok 0 ∧ tb_users t ≠ ∅ ∧ t' = t) ∨
    (∃ id, r = Ok id ∧ tb_users t = ∅ ∧ insert_user (user_row_of u) t = (Ok id, t')) ∨
    (∃ e, r = Err e ∧ (t' = t ∨ isBusy e = false ∧ tb_users t = ∅ ∧ t' = (insert_user (user_row_of u) t).2))).
  unfold EnsureFirstUser_sql.
  set (fn := stmt (sqlUserInsertFirst (user_row_of u)) ≫= λ id, mret match id with Err ErrNoRows => Ok 0 | _ => id end).
  assert (∀ d, good_env d → same_env d (fn d).2 ∧ P (tabs d) (fn d).1 (tabs (fn d).2)) as Hfn.
  { clear. intros d Hd. unfold fn, mbind, st_bind. destruct (stmt_runs (sqlUserInsertFirst (user_row_of u)) d Hd) as [Hs Hr].
    destruct (stmt _ d) as [r d']. simpl in *. split; [done|]. unfold P, runs, sqlUserInsertFirst in *.
    destruct (decide (tb_users (tabs d) = ∅)) as [He|Hne].
    - destruct Hr as [Heq|(e & -> & Hd')]; [|right; right; exists (Drv e); intuition].
      unfold insert_user in *. destruct (taken _ _ _ _); injection Heq as -> ->; [right; right; eexists; by split; [|left]|].
      right; left. by eexists.
    - destruct Hr as [Heq|(e & -> & Hd')]; [left; by injection Heq as -> ->|].
      right; right. exists (Drv e). split; [done|]. left. by destruct Hd' as [?|[? _]]. }
  unfold mbind, st_bind. destruct (call_P fn P Hfn) with d as [Hs Hr]; [| |done|].
  { intros t e t1 r t2 [[? _]|[(id & ? & _)|(e' & [= <-] & [->|[? _]])]] Hb; try done. congruence. }
  { intros t e t1 msg [[? _]|[(id & ? & _)|(e' & [= <-] & [->|[? _]])]] Hb; try done; [|congruence].
    right; right. eexists. split; [done|by left]. }
  destruct (call fn d) as [r d']. simpl in *. split; [split; [by eapply good_same_env|]|].
  - pose proof (insert_user_good (user_row_of u) _ Ht) as Hg.
    destruct Hr as [(_ & _ & ->)|[(id & _ & _ & Heq)|(e & _ & [->|(_ & _ & ->)])]]; try done. by rewrite Heq in Hg.
  - pose proof (accounts_of_empty (tabs d)) as Hempty.
    destruct Hr as [(-> & Hne & ->)|[(id & -> & He & Heq)|(e & -> & Hd')]]; simpl.
    + split; [done|]. by rewrite <- Hempty.
    + destruct (insert_user_adds u (tabs d)) as [Heq2|(id2 & t1 & Heq2 & Hpos & Hadd)]; rewrite Heq in Heq2; [done|].
      simplify_eq. destruct (Z.eqb_spec id2 0); [lia|]. simpl. by rewrite <- Hempty.
    + destruct Hd' as [->|(_ & He & ->)]; [by left|].
      destruct (insert_user_adds u (tabs d)) as [->|(id & t1 & -> & _ & Hadd)]; [by left|right].
      split; [by apply Hempty|by exists id].
Qed.
Lemma mapRead_drv e what key : ∃ msg, mapRead (Drv e) what key = Text msg.
Proof. destruct e; by eexists. Qed.
Lemma row_not_busy {A B} (f : tables → option A) (g : A → B) t e : row (g <$> f t) = Err e → isBusy e = false.
Proof. apply row_busy. Qed.
#[export] Instance DB_UserLaws : UserLaws DB.
Proof.
  split.
  - intros d id u [_ Ht] Hu. simpl in Hu. rewrite accounts_of_lookup in Hu.
    by destruct (tb_users (tabs d) !! id); simplify_eq/=.
  - intros d i j u u' [_ Hg] Hi Hj Hn. simpl in Hi, Hj. rewrite accounts_of_lookup in Hi, Hj.
    destruct (tb_users (tabs d) !! i) eqn:Ei, (tb_users (tabs d) !! j) eqn:Ej; simplify_eq/=.
    by apply (g_username _ Hg _ _ _ _ Ei Ej).
  - intros u _. apply CreateUser_sql_refines.
  - intros u _. apply EnsureFirstUser_sql_refines.
  - intros id. apply refines_select; [intros t e; apply row_busy| |].
    + intros e. destruct (mapRead_drv e "пользователь" (fmt_int id)) as [msg Hm]. exists msg. by f_equal.
    + intros t Ht. simpl. rewrite accounts_of_lookup. by destruct (tb_users t !! id).
  - intros n. apply refines_select; [intros t e; apply row_busy| |].
    + intros e. destruct (mapRead_drv e "пользователь" n) as [msg Hm]. exists msg. by f_equal.
    + intros t Ht. simpl. destruct (find_row _ (tb_users t)) as [[i r]|] eqn:Hf; simpl.
      * apply find_row_Some in Hf as [Hi Hn]. rewrite accounts_of_lookup, Hi. split; [done|]. by apply String.eqb_eq.
      * intros _ id u. rewrite accounts_of_lookup. destruct (tb_users t !! id) as [r|] eqn:Hi; [|done].
        intros [= <-]. apply (find_row_None _ _ _ _ Hf) in Hi. by apply String.eqb_neq.
  - apply refines_select; [done|intros []; by eexists|]. intros t Ht. simpl. intros u. rewrite list_elem_of_fmap. split.
    + intros ([i r] & -> & Hi%by_id_elem). simpl. by rewrite accounts_of_lookup, Hi.
    + intros Hu. rewrite accounts_of_lookup in Hu. apply fmap_Some in Hu as (r & Hr & Hu). exists (u_ID u, r). by rewrite by_id_elem.
  - apply UpdateUser_sql_refines.
  - apply DeleteUser_sql_refines.
  - apply refines_select; [done|intros []; by eexists|]. intros t Ht. simpl.
    rewrite negb_true_iff, bool_decide_eq_false. f_equiv. apply accounts_of_empty.
Qed.

(** ** API tokens *)
Lemma concat_nonempty c x (l : list string) : x ≠ "" → String.concat c (x :: l) ≠ "".
Proof. intros Hx. destruct l as [|y l]; [done|]. simpl. by destruct x. Qed.
Lemma splitScopes_join l : Forall scope_ok l → splitScopes (joinScopes l) = l.
Proof.
  intros Hl. unfold splitScopes, joinScopes. destruct l as [|x l]; [done|].
  destruct (String.eqb_spec (String.concat "," (x :: l)) "") as [He|_].
  - apply Forall_cons in Hl as [[Hx _] _]. by apply concat_nonempty in He.
  - apply split_concat; [done|]. eapply Forall_impl; [exact Hl|]. by intros s [_ ?].
Qed.
Lemma stored_token_row id t : t_RevokedAt t = 0 → Forall scope_ok (t_Scopes t) →
  stored_token (token_with_ID id t) (scanToken id (token_row_of t)).
Proof.
  intros Hr Hs. split; simpl; [|apply rounded_null|done].
  unfold token_with_times. simpl. by rewrite splitScopes_join.
Qed.
Lemma token_insert_atomic r : atomic (sqlTokenInsert r).
Proof.
  intros t e. unfold sqlTokenInsert. destruct (_ || _); simpl; [by intros [= <-]|].
  destruct (tb_users t !! _); simpl; [done|]. by intros [= <-].
Qed.
Lemma good_set_token t id r : good_tables t → id ≠ 0 → taken tr_token_hash (tr_token_hash r) id (tb_tokens t) = false →
  good_tables (set_tokens_tab (<[id := r]> (tb_tokens t)) t).
Proof.
  intros [Hu Hh Hi Hj] Hid Ht. split; simpl; [done|by apply unique_insert|done|].
  intros i [x [[<- _]|[_ Hx]]%lookup_insert_Some]; [done|eauto].
Qed.
Lemma token_insert_spec t tab :
  (∃ e, sqlTokenInsert (token_row_of t) tab = (Err e, tab)) ∨
  ∃ id tab', sqlTokenInsert (token_row_of t) tab = (Ok id, tab') ∧ tab' = set_tokens_tab (<[id := token_row_of t]> (tb_tokens tab)) tab ∧
    tb_tokens tab !! id = None ∧ id ≠ 0 ∧ taken tr_token_hash (t_SHA256 t) 0 (tb_tokens tab) = false.
Proof.
  unfold sqlTokenInsert. destruct (_ || _) eqn:E; [left; by eexists|].
  apply orb_false_iff in E as [_ E]. destruct (tb_users tab !! _); [|left; by eexists].
  right. eexists _, _. split_and!; [done|done|apply next_rowid_fresh|pose proof (next_rowid_pos (tb_tokens tab)); lia|done].
Qed.
Lemma CreateToken_sql_refines t : t_RevokedAt t = 0 → Forall scope_ok (t_Scopes t) →
  refines (CreateToken_sql t) (create_token t).
Proof.
  intros Hr Hs. apply refines_call; [apply token_insert_atomic| |].
  - intros tab Ht. destruct (token_insert_spec t tab) as [[e ->]|(id & tab' & -> & -> & Hid & Hne & Htk)]; [done|].
    apply good_set_token; [done..|]. apply taken_fresh; [done..|apply Ht].
  - intros tab r tab' Ht Hrun. unfold runs in Hrun.
    destruct (token_insert_spec t tab) as [[e Heq]|(id & tab1 & Heq & -> & Hid & Hne & Htk)]; rewrite Heq in Hrun.
    + destruct Hrun as [[= -> ->]|(e' & -> & [->|[-> _]])]; by left.
    + assert (add_token t id (cat_of tab) (cat_of (set_tokens_tab (<[id := token_row_of t]> (tb_tokens tab)) tab))) as Hadd.
      { split_and!; simpl; [by rewrite tokens_of_lookup, Hid| |].
        - intros i t'. rewrite tokens_of_lookup. destruct (tb_tokens tab !! i) eqn:Hi; [|done]. intros [= <-]. simpl.
          apply (taken_false _ _ _ _ _ _ Htk Hi). apply (g_tokens _ Ht). by rewrite Hi.
        - exists (scanToken id (token_row_of t)). split; [by apply stored_token_row|apply tokens_of_insert]. }
      destruct Hrun as [[= -> ->]|(e' & -> & [->|[-> _]])]; [by split|by left|right; by exists id].
Qed.
Lemma update_token_atomic id f : atomic (update_token id f).
Proof. intros t e. unfold update_token. by destruct (_ !! _). Qed.
Lemma update_token_good id f t : (∀ r, tr_token_hash (f r) = tr_token_hash r) → good_tables t →
  good_tables (update_token id f t).2.
Proof.
  intros Hf Ht. unfold update_token. destruct (tb_tokens t !! id) as [r|] eqn:Hid; [|done].
  apply good_set_token; [done|apply (g_tokens _ Ht); by rewrite Hid|].
  apply bool_decide_eq_false. intros (i & r' & Hi & Hne & Hh). rewrite Hf in Hh. by apply (g_hash _ Ht _ _ _ _ Hi Hid) in Hh.
Qed.
Lemma RevokeToken_sql_refines id at_ : refines (RevokeToken_sql id at_) (revoke_token id at_).
Proof.
  apply refines_write; [apply update_token_atomic|intros; by apply update_token_good|done|].
  intros t Ht. unfold sqlTokenRevoke, update_token. destruct (tb_tokens t !! id) as [r|] eqn:Hid; [|by right].
  left. cbn [snd]. rewrite tokens_of_insert. exists (scanToken id r), (from_unix (unix at_)). split_and!; [|by right|done].
  simpl. by rewrite tokens_of_lookup, Hid.
Qed.
Lemma insert_same_token id r f t :
  tb_tokens t !! id = Some r → scanToken id (f r) = scanToken id r →
  cat_of (set_tokens_tab (<[id := f r]> (tb_tokens t)) t) = cat_of t.
Proof.
  intros Hid Hf. rewrite tokens_of_insert, Hf. unfold set_tokens, cat_of. f_equal. apply insert_id.
  by rewrite tokens_of_lookup, Hid.
Qed.
Lemma TouchToken_sql_refines id at_ : refines (TouchToken_sql id at_) (writes (λ c c', c' = c)).
Proof.
  apply refines_write; [apply update_token_atomic|intros; by apply update_token_good|done|].
  intros t Ht. left. unfold sqlTokenTouch, update_token. destruct (tb_tokens t !! id) as [r|] eqn:Hid; [|done].
  by apply insert_same_token with (f := λ r, mk_token_row (tr_user_id r) (tr_name r) (tr_prefix r) (tr_token_hash r)
    (tr_scopes r) (tr_created_at r) (tr_expires_at r) (Some (unix at_)) (tr_revoked_at r)).
Qed.
Lemma DeleteToken_sql_refines id : refines (DeleteToken_sql id) (delete_token id).
Proof.
  apply refines_write; [| |done|].
  - intros t e. unfold sqlTokenDelete. by destruct (_ !! _).
  - intros t Ht. unfold sqlTokenDelete. destruct (tb_tokens t !! id); [|done]. destruct Ht as [Hu Hh Hi Hj].
    split; simpl; [done|eapply unique_sub; [apply delete_subseteq|done]|done|].
    intros i [x [_ Hx]%lookup_delete_Some]. eauto.
  - intros t Ht. unfold sqlTokenDelete. destruct (tb_tokens t !! id) eqn:Hid; [|by right]. left.
    unfold cat_of, set_tokens, tokens_of. simpl. f_equal. apply map_imap_delete.
Qed.
#[export] Instance DB_TokenLaws : TokenLaws DB.
Proof.
  split.
  - intros d id t _ Ht. simpl in Ht. rewrite tokens_of_lookup in Ht. by destruct (tb_tokens (tabs d) !! id); simplify_eq/=.
  - intros d i j t t' [_ Hg] Hi Hj Hsha. simpl in Hi, Hj. rewrite tokens_of_lookup in Hi, Hj.
    destruct (tb_tokens (tabs d) !! i) eqn:Ei, (tb_tokens (tabs d) !! j) eqn:Ej; simplify_eq/=.
    by apply (g_hash _ Hg _ _ _ _ Ei Ej).
  - intros t _. apply CreateToken_sql_refines.
  - intros h. apply refines_select; [intros t e; apply row_busy| |].
    + intros e. destruct (mapRead_drv e "токен" h) as [msg Hm]. exists msg. by f_equal.
    + intros t Ht. simpl. destruct (find_row _ (tb_tokens t)) as [[i r]|] eqn:Hf; simpl.
      * apply find_row_Some in Hf as [Hi Hn]. rewrite tokens_of_lookup, Hi. split; [done|]. by apply String.eqb_eq.
      * intros _ id u. rewrite tokens_of_lookup. destruct (tb_tokens t !! id) as [r|] eqn:Hi; [|done].
        intros [= <-]. apply (find_row_None _ _ _ _ Hf) in Hi. by apply String.eqb_neq.
  - intros id. apply refines_select; [done|intros []; by eexists|]. intros t Ht. simpl. intros tok.
    rewrite list_elem_of_fmap. setoid_rewrite list_elem_of_In. setoid_rewrite filter_In. setoid_rewrite <- list_elem_of_In. split.
    + intros ([i r] & -> & Hi%by_id_elem & Hid). simpl. rewrite tokens_of_lookup, Hi. split; [done|]. by apply Z.eqb_eq.
    + intros [Hu Hid]. rewrite tokens_of_lookup in Hu. apply fmap_Some in Hu as (r & Hr & Hu). exists (t_ID tok, r).
      rewrite by_id_elem. split_and!; [done..|]. apply Z.eqb_eq. by rewrite Hu in Hid.
  - apply DeleteToken_sql_refines.
  - apply RevokeToken_sql_refines.
  - apply TouchToken_sql_refines.
Qed.

(** ** Revoked sessions *)
Lemma IsRevoked_sql_refines j now : refines (IsRevoked_sql j now)
  (reads (λ c b, if b : bool then is_Some (revocations c !! j)
                 else ∀ x, revocations c !! j = Some x → x ≤ now) (λ _, True)).
Proof.
  apply refines_select; [done|intros []; by eexists|]. intros t Ht. simpl. rewrite lookup_fmap.
  destruct (tb_revoked t !! j) as [x|]; simpl; [|done]. destruct (Z.leb_spec (unix now) x); [by eexists|].
  intros y [= <-]. apply Z.lt_le_incl. by apply unix_lt.
Qed.
Definition purged_rows (now : Z) (m m' : gmap string Z) : Prop := ∀ j,
  m' !! j = m !! j ∨ m' !! j = None ∧ ∃ x, m !! j = Some x ∧ x < now.
Lemma purged_filter now m : purged_rows now m (filter (λ je, ¬ je.2 < now) m).
Proof.
  intros j. destruct (m !! j) as [x|] eqn:Hj.
  - destruct (decide (x < now)).
    + right. split; [|by exists x]. apply map_lookup_filter_None. right. intros y Hy. simplify_eq. auto.
    + left. by apply map_lookup_filter_Some.
  - left. apply map_lookup_filter_None. by left.
Qed.
Lemma purged_trans now m m' m'' : purged_rows now m m' → purged_rows now m' m'' → purged_rows now m m''.
Proof.
  intros H1 H2 j. destruct (H2 j) as [->|(-> & x & Hx & ?)]; [apply H1|]. right. split; [done|].
  destruct (H1 j) as [Heq|(Heq & _)]; [exists x; by rewrite <- Heq|congruence].
Qed.
Lemma purged_fmap now m m' : purged_rows (unix now) m m' → purged now (from_unix <$> m) (from_unix <$> m').
Proof.
  intros Hm j. rewrite !lookup_fmap. destruct (Hm j) as [->|(-> & x & -> & Hx)]; [by left|right].
  split; [done|]. eexists. split; [done|]. apply Z.lt_le_incl. by apply unix_lt.
Qed.
Lemma InsertRevocation_sql_refines j now until :
  refines (InsertRevocation_sql j now until) (insert_revocation j now until).
Proof.
  intros d [Hd Ht].
  set (P := λ (t : tables) (r : sres unit) t', ∃ m, purged_rows (unix now) (tb_revoked t) m ∧
    (t' = set_revoked_tab (<[j := unix until]> m) t ∧ (∀ e, r = Err e → isBusy e = false) ∨
     ∃ e, r = Err e ∧ t' = set_revoked_tab m t)).
  unfold InsertRevocation_sql. set (fn := stmt (sqlRevPurge (unix now)) ≫= _).
  assert (∀ d, good_env d → same_env d (fn d).2 ∧ P (tabs d) (fn d).1 (tabs (fn d).2)) as Hfn.
  { clear. intros d Hd. unfold fn, mbind, st_bind. destruct (stmt_runs (sqlRevPurge (unix now)) d Hd) as [Hs Hr].
    destruct (stmt _ d) as [[[]|e] d1]; simpl in *.
    - destruct Hr as [[= Htabs]|(e & [=] & _)]. destruct (stmt_runs (upsertRevocation j (unix until)) d1) as [Hs1 Hr1].
      { by eapply good_same_env. }
      destruct (stmt (upsertRevocation j (unix until)) d1) as [r2 d2]. simpl in *.
      split; [destruct Hs, Hs1; split; congruence|]. exists (filter (λ je, ¬ je.2 < unix now) (tb_revoked (tabs d))).
      split; [apply purged_filter|]. rewrite Htabs in Hr1.
      destruct Hr1 as [[= -> ->]|(e & -> & [->|[-> Hb]])]; [left; by split|right; by exists (Drv e)|left].
      split; [done|]. by intros ? [= <-].
    - split; [done|]. destruct Hr as [Heq|(e' & [= ->] & [->|[-> Hb]])]; [done| |].
      + exists (tb_revoked (tabs d)). split; [by left|]. right. exists (Drv e'). split; [done|]. by destruct (tabs d).
      + eexists. split; [apply purged_filter|]. right. by exists (Drv e'). }
  unfold mbind, st_bind. destruct (call_P fn P Hfn) with d as [Hs Hr]; [| |done|].
  { intros t e t1 r t2 (m & Hm & [[_ Hb]|(e' & _ & ->)]) Hbusy (m2 & Hm2 & H2); [by rewrite Hb in Hbusy|].
    exists m2. split; [by eapply purged_trans|]. destruct H2 as [[-> ?]|(e2 & -> & ->)]; [by left|right; by exists e2]. }
  { intros t e t1 msg (m & Hm & [[_ Hb]|(e' & _ & ->)]) Hbusy; [by rewrite Hb in Hbusy|].
    exists m. split; [done|]. right. by eexists. }
  destruct (call fn d) as [r d']. simpl in *. split; [split; [by eapply good_same_env|]|].
  - by destruct Hr as (m & _ & [[-> _]|(e & _ & ->)]); destruct Ht.
  - destruct Hr as (m & Hm & Hd'). exists (from_unix <$> m). split; [by apply purged_fmap|].
    destruct Hd' as [[-> _]|(e & -> & ->)]; [left|by right].
    exists (from_unix (unix until)). split; [by right|]. unfold cat_of, set_revocations. simpl. by rewrite fmap_insert.
Qed.
#[export] Instance DB_RevocationLaws : RevocationLaws DB.
Proof. split; [apply InsertRevocation_sql_refines|apply IsRevoked_sql_refines]. Qed.

(** ** An engine without failures *)
Definition always_runs (d : DB) : Prop := ∀ n, env d n = Runs.
Lemma call_running {A} (q : query A) d : always_runs d → atomic q →
  (call (stmt q) d).1 = (q (tabs d)).1 ∧ always_runs (call (stmt q) d).2.
Proof.
  intros Hd Hq. unfold call, busyRetries. simpl. unfold mbind, st_bind, stmt. rewrite Hd.
  pose proof (Hq (tabs d)) as Hb. destruct (q (tabs d)) as [[a|e] t]; simpl; [done|].
  destruct (Hb e eq_refl) as [_ ->]. simpl. done.
Qed.
Lemma read_running {A B} (q : query A) (post : sres A → B) d : always_runs d → atomic q →
  let r := (r ← call (stmt q); mret (post r)) d in r.1 = post (q (tabs d)).1 ∧ always_runs r.2.
Proof.
  intros Hd Hq. unfold mbind, st_bind. destruct (call_running q d Hd Hq) as [Hr Hup].
  destruct (call (stmt q) d). simpl in *. by rewrite Hr.
Qed.
#[export] Instance DB_Available : Available DB.
Proof.
  refine {| up := always_runs |}.
  - intros u d Hd. by apply read_running; [|apply insert_user_atomic].
  - intros id d Hd. destruct (read_running (sqlUserByID id)
      (λ r, match r with Ok u => Ok u | Err e => Err (mapRead e "пользователь" (fmt_int id)) end) d Hd) as [Hr Hup].
    { apply select_atomic. intros t e. apply row_busy. }
    split; [exact Hup|]. simpl. unfold User_sql. rewrite Hr. intros e. simpl.
    destruct (tb_users (tabs d) !! id); simpl; [done|]. by intros [= <-].
  - intros n d Hd. destruct (read_running (sqlUserByName n)
      (λ r, match r with Ok u => Ok u | Err e => Err (mapRead e "пользователь" n) end) d Hd) as [Hr Hup].
    { apply select_atomic. intros t e. apply row_busy. }
    split; [exact Hup|]. simpl. unfold UserByUsername_sql. rewrite Hr. intros e. simpl.
    destruct (find_row _ _); simpl; [done|]. by intros [= <-].
  - intros j t d Hd. destruct (read_running (sqlRevCheck j (unix t))
      (λ r, match r with Ok b => Ok b | Err e => Err (as_error e) end) d Hd) as [Hr Hup].
    { by apply select_atomic. }
    split; [exact Hup|]. simpl. unfold IsRevoked_sql. by rewrite Hr.
Defined.

(** C14: whatever the engine answers (busy, failing, or losing the answer of a
    statement that ran), every operation on accounts, tokens and revoked sessions
    keeps the tables' invariant (unique names and digests, which a new database
    has) and refines its
    contract: a success has its full effect, a failure its full effect or none,
    a missing row is reported only if there is none. *)
Theorem sqlite_refines_catalogue :
  good_tables empty_tables ∧
  (∀ u, refines (CreateUser_sql u) (create_user u)) ∧
  (∀ u, refines (EnsureFirstUser_sql u) (ensure_first u)) ∧
  (∀ u, refines (UpdateUser_sql u) (update_user u)) ∧
  (∀ id, refines (DeleteUser_sql id) (delete_user id)) ∧
  (∀ t, t_RevokedAt t = 0 → Forall scope_ok (t_Scopes t) → refines (CreateToken_sql t) (create_token t)) ∧
  (∀ id at_, refines (RevokeToken_sql id at_) (revoke_token id at_)) ∧
  (∀ id at_, refines (TouchToken_sql id at_) (writes (λ c c', c' = c))) ∧
  (∀ id, refines (DeleteToken_sql id) (delete_token id)) ∧
  (∀ j now until, refines (InsertRevocation_sql j now until) (insert_revocation j now until)) ∧
  (∀ j now, refines (IsRevoked_sql j now)
     (reads (λ c b, if b : bool then is_Some (revocations c !! j)
                    else ∀ x, revocations c !! j = Some x → x ≤ now) (λ _, True))).
Proof.
  split; [split; simpl; unfold unique_col; intros *; rewrite ?lookup_empty; [done..| |]; by intros [? ?]|].
  split_and!; auto using CreateUser_sql_refines, EnsureFirstUser_sql_refines, UpdateUser_sql_refines,
    DeleteUser_sql_refines, CreateToken_sql_refines, RevokeToken_sql_refines, TouchToken_sql_refines,
    DeleteToken_sql_refines, InsertRevocation_sql_refines, IsRevoked_sql_refines.
Qed.
