(* ===== verification/SqliteCatalog.v ===== *)
(** The rest of the SQLite catalogue (internal/mod/db/sqlite: catalog.go,
    access.go, pins.go, stats.go, settings.go): repositories and rights,
    upstreams and jobs, the audit log, the index of mutable objects, access
    records, pins, statistics and the proxy setting. *)
From S2P Require Import Prelude GoStr Domain Port Catalog Sqlite.
Local Open Scope Z_scope.

(** * Data (domain) *)
Record Perm := mk_Perm { pm_RepoID : Z; pm_UserID : Z; pm_CreatedAt : Z }.
Record SyncJob := mk_SyncJob {
  jb_ID : Z; jb_RemoteID : Z; jb_State : SyncState; jb_Interval : Z; jb_LastRunAt : Z; jb_Cursor : string; jb_UpdatedAt : Z
}.
Record ObjectAccess := mk_ObjectAccess { oa_Scope : string; oa_Key : string; oa_LastAccess : Z; oa_Hits : Z }.
Record CacheStatsRow := mk_CacheStatsRow {
  cs_Ecosystem : string; cs_Hits : Z; cs_Misses : Z; cs_StaleServed : Z; cs_NegativeHits : Z; cs_UpstreamErrors : Z;
  cs_BytesFromUpstream : Z; cs_BytesToClients : Z; cs_Packages : Z; cs_UpdatedAt : Z
}.

(** * Columns *)

(** The two columns hold only what is written below. *)
Definition mode_string (m : RemoteMode) : string := match m with ModeProxy => "proxy" | ModeMirror => "mirror" end.
Definition mode_of (s : string) : RemoteMode := if String.eqb s "mirror" then ModeMirror else ModeProxy.
Definition state_string (s : SyncState) : string :=
  match s with StatePending => "pending" | StateRunning => "running" | StateSucceeded => "succeeded" | StateFailed => "failed" end.
Definition state_of (s : string) : SyncState :=
  if String.eqb s "running" then StateRunning else if String.eqb s "succeeded" then StateSucceeded
  else if String.eqb s "failed" then StateFailed else StatePending.
Definition joinInclude (items : list string) : string := String.concat "," items.
Definition splitInclude (joined : string) : list string :=
  if String.eqb joined "" then [] else split "," joined.
(** No policy is NULL in both columns. *)
Definition evictionArgs (r : option Retention) : option Z * option Z :=
  match r with None => (None, None) | Some r => (Some (MinVersions r), Some (MaxAgeDays r)) end.
Definition evictionFromNull (minVersions maxAgeDays : option Z) : option Retention :=
  match minVersions, maxAgeDays with
  | None, None => None
  | _, _ => Some (mk_Retention (default 0 minVersions) (default 0 maxAgeDays))
  end.

Definition scanRepo (id : Z) (r : repo_row) : Repo :=
  mk_Repo id (rr_owner_id r) (rr_name r) (rr_ecosystem r) (mk_Quota (rr_quota_bytes r) (rr_quota_files r))
    (mk_Retention (rr_min_versions r) (rr_max_age_days r)) (from_unix (rr_created_at r)).
Definition scanRemote (id : Z) (r : remote_row) : Remote :=
  mk_Remote id (mr_name r) (mr_ecosystem r) (mr_upstream_url r) (mode_of (mr_mode r)) (mr_enabled r)
    (wrap64 (mr_sync_interval_sec r * second)) (splitInclude (mr_include r)) (mr_proxy_url r)
    (evictionFromNull (mr_eviction_min_versions r) (mr_eviction_max_age_days r)) (from_unix (mr_created_at r)).
Definition scanJob (id : Z) (r : job_row) : SyncJob :=
  mk_SyncJob id (jr_remote_id r) (state_of (jr_state r)) (wrap64 (jr_interval_sec r * second))
    (timeFromNull (jr_last_run_at r)) (jr_cursor r) (from_unix (jr_updated_at r)).
Definition scanObjectMeta (key : string) (r : object_row) : ObjectMeta :=
  mk_ObjectMeta key (or_storage_key r) (or_size r) (or_etag r) (or_content_type r)
    (timeFromNull (or_last_modified r)) (timeFromNull (or_expires_at r)).

(** * Repositories and rights *)
Definition repo_row_of (r : Repo) : repo_row :=
  mk_repo_row (repo_Name r) (repo_OwnerID r) (repo_Ecosystem r) (MaxBytes (repo_Quota r)) (MaxObjects (repo_Quota r))
    (MinVersions (repo_Retention r)) (MaxAgeDays (repo_Retention r)) (unix (repo_CreatedAt r)).
Definition repo_with_ID (id : Z) (r : Repo) : Repo :=
  mk_Repo id (repo_OwnerID r) (repo_Name r) (repo_Ecosystem r) (repo_Quota r) (repo_Retention r) (repo_CreatedAt r).
Definition foreign_key : sqlerr := constraint_failed SQLITE_CONSTRAINT_FOREIGNKEY.
Definition not_unique : sqlerr := constraint_failed SQLITE_CONSTRAINT_UNIQUE.
Definition sqlRepoInsert (r : repo_row) : query Z := λ t,
  if taken rr_name (rr_name r) 0 (tb_repos t) then (Err not_unique, t)
  else match tb_users t !! rr_owner_id r with
       | None => (Err foreign_key, t)
       | Some _ => let id := next_rowid (tb_repos t) in (Ok id, set_repos_tab (<[id := r]> (tb_repos t)) t)
       end.
Definition sqlRepoByID (id : Z) : query Repo := select (λ t, row (scanRepo id <$> tb_repos t !! id)).
Definition sqlRepoByName (n : string) : query Repo := select (λ t,
  row ((λ ir, scanRepo ir.1 ir.2) <$> find_row (λ r, String.eqb (rr_name r) n) (tb_repos t))).
Definition sqlRepoAll : query (list Repo) := select (λ t, Ok ((λ ir, scanRepo ir.1 ir.2) <$> by_id (tb_repos t))).
Definition sqlRepoUpdate (r : Repo) : query nat := λ t,
  match tb_repos t !! repo_ID r with
  | None => (Ok 0%nat, t)
  | Some old =>
      if taken rr_name (repo_Name r) (repo_ID r) (tb_repos t) then (Err not_unique, t)
      else match tb_users t !! repo_OwnerID r with
           | None => (Err foreign_key, t)
           | Some _ =>
               let new := repo_row_of r in
               (Ok 1%nat, set_repos_tab (<[repo_ID r := mk_repo_row (rr_name new) (rr_owner_id new) (rr_ecosystem new)
                  (rr_quota_bytes new) (rr_quota_files new) (rr_min_versions new) (rr_max_age_days new)
                  (rr_created_at old)]> (tb_repos t)) t)
           end
  end.
(** The rights and pins go with their repository. *)
Definition sqlRepoDelete (id : Z) : query nat := λ t,
  match tb_repos t !! id with
  | None => (Ok 0%nat, t)
  | Some _ => (Ok 1%nat, set_repos_tab (delete id (tb_repos t))
                (set_perms_tab (filter (λ pt, pt.1.1 ≠ id) (tb_perms t))
                (set_pins_tab (filter (λ p, p.1 ≠ id) (tb_pins t)) t)))
  end.
Definition sqlPermGrant (p : Perm) : query unit := λ t,
  match tb_perms t !! (pm_RepoID p, pm_UserID p) with
  | Some _ => (Err (constraint_failed SQLITE_CONSTRAINT_PRIMARYKEY), t)
  | None =>
      match tb_repos t !! pm_RepoID p, tb_users t !! pm_UserID p with
      | Some _, Some _ => (Ok tt, set_perms_tab (<[(pm_RepoID p, pm_UserID p) := unix (pm_CreatedAt p)]> (tb_perms t)) t)
      | _, _ => (Err foreign_key, t)
      end
  end.
Definition sqlPermRevoke (repoID userID : Z) : query nat := λ t,
  match tb_perms t !! (repoID, userID) with
  | None => (Ok 0%nat, t)
  | Some _ => (Ok 1%nat, set_perms_tab (delete (repoID, userID) (tb_perms t)) t)
  end.
Definition perm_le (a b : Perm) : Prop := pm_UserID a ≤ pm_UserID b.
#[global] Instance perm_le_dec a b : Decision (perm_le a b).
Proof. unfold perm_le. apply _. Defined.
Definition sqlPermByRepo (repoID : Z) : query (list Perm) := select (λ t,
  Ok (merge_sort perm_le ((λ pt : Z * Z * Z, mk_Perm pt.1.1 pt.1.2 (from_unix pt.2)) <$>
        List.filter (λ pt, pt.1.1 =? repoID) (map_to_list (tb_perms t))))).

Definition perm_key (repoID userID : Z) : string := fmt_int repoID +:+ ":" +:+ fmt_int userID.
Definition CreateRepo (r : Repo) : St DB (res Repo) :=
  x ← call (stmt (sqlRepoInsert (repo_row_of r)));
  mret match x with Ok id => Ok (repo_with_ID id r) | Err e => Err (mapWrite e "репозиторий" (repo_Name r)) end.
Definition Repo_ (id : Z) : St DB (res Repo) :=
  x ← call (stmt (sqlRepoByID id));
  mret match x with Ok r => Ok r | Err e => Err (mapRead e "репозиторий" (fmt_int id)) end.
Definition RepoByName (n : string) : St DB (res Repo) :=
  x ← call (stmt (sqlRepoByName n));
  mret match x with Ok r => Ok r | Err e => Err (mapRead e "репозиторий" n) end.
Definition Repos : St DB (res (list Repo)) :=
  x ← call (stmt sqlRepoAll); mret match x with Ok rs => Ok rs | Err e => Err (as_error e) end.
Definition UpdateRepo (r : Repo) : St DB (option error) :=
  x ← call (stmt (sqlRepoUpdate r));
  mret match x with
       | Err e => Some (mapWrite e "репозиторий" (repo_Name r))
       | Ok n => requireAffected n "репозиторий" (repo_Name r)
       end.
Definition DeleteRepo (id : Z) : St DB (option error) := exec (sqlRepoDelete id) "репозиторий" (fmt_int id).
Definition Grant (p : Perm) : St DB (option error) :=
  x ← call (stmt (sqlPermGrant p));
  mret match x with Err e => Some (mapWrite e "право" (perm_key (pm_RepoID p) (pm_UserID p))) | Ok _ => None end.
Definition Revoke (repoID userID : Z) : St DB (option error) :=
  exec (sqlPermRevoke repoID userID) "право" (perm_key repoID userID).
Definition Perms (repoID : Z) : St DB (res (list Perm)) :=
  x ← call (stmt (sqlPermByRepo repoID)); mret match x with Ok ps => Ok ps | Err e => Err (as_error e) end.

(** * Upstreams and their jobs *)
Definition remote_row_of (r : Remote) : remote_row :=
  let ev := evictionArgs (rm_Eviction r) in
  mk_remote_row (rm_Name r) (rm_Ecosystem r) (rm_BaseURL r) (rm_ProxyURL r) (mode_string (rm_Mode r)) (rm_Enabled r)
    (Z.quot (rm_SyncInterval r) second) (joinInclude (rm_Include r)) ev.1 ev.2 (unix (rm_CreatedAt r)).
Definition remote_with_ID (id : Z) (r : Remote) : Remote :=
  mk_Remote id (rm_Name r) (rm_Ecosystem r) (rm_BaseURL r) (rm_Mode r) (rm_Enabled r) (rm_SyncInterval r)
    (rm_Include r) (rm_ProxyURL r) (rm_Eviction r) (rm_CreatedAt r).
Definition sqlRemoteInsert (r : remote_row) : query Z := λ t,
  if taken mr_name (mr_name r) 0 (tb_remotes t) then (Err not_unique, t)
  else let id := next_rowid (tb_remotes t) in (Ok id, set_remotes_tab (<[id := r]> (tb_remotes t)) t).
Definition sqlRemoteByID (id : Z) : query Remote := select (λ t, row (scanRemote id <$> tb_remotes t !! id)).
Definition sqlRemoteAll : query (list Remote) :=
  select (λ t, Ok ((λ ir, scanRemote ir.1 ir.2) <$> by_id (tb_remotes t))).
Definition sqlRemoteUpdate (r : Remote) : query nat := λ t,
  match tb_remotes t !! rm_ID r with
  | None => (Ok 0%nat, t)
  | Some old =>
      if taken mr_name (rm_Name r) (rm_ID r) (tb_remotes t) then (Err not_unique, t)
      else
        let new := remote_row_of r in
        (Ok 1%nat, set_remotes_tab (<[rm_ID r := mk_remote_row (mr_name new) (mr_ecosystem new) (mr_upstream_url new)
           (mr_proxy_url new) (mr_mode new) (mr_enabled new) (mr_sync_interval_sec new) (mr_include new)
           (mr_eviction_min_versions new) (mr_eviction_max_age_days new) (mr_created_at old)]> (tb_remotes t)) t)
  end.
(** The jobs go with their upstream. *)
Definition sqlRemoteDelete (id : Z) : query nat := λ t,
  match tb_remotes t !! id with
  | None => (Ok 0%nat, t)
  | Some _ => (Ok 1%nat, set_remotes_tab (delete id (tb_remotes t))
                (set_jobs_tab (filter (λ j, jr_remote_id j.2 ≠ id) (tb_jobs t)) t))
  end.
Definition CreateRemote (r : Remote) : St DB (res Remote) :=
  x ← call (stmt (sqlRemoteInsert (remote_row_of r)));
  mret match x with Ok id => Ok (remote_with_ID id r) | Err e => Err (mapWrite e "remote" (rm_Name r)) end.
Definition Remote_ (id : Z) : St DB (res Remote) :=
  x ← call (stmt (sqlRemoteByID id));
  mret match x with Ok r => Ok r | Err e => Err (mapRead e "remote" (fmt_int id)) end.
Definition Remotes : St DB (res (list Remote)) :=
  x ← call (stmt sqlRemoteAll); mret match x with Ok rs => Ok rs | Err e => Err (as_error e) end.
Definition UpdateRemote (r : Remote) : St DB (option error) :=
  x ← call (stmt (sqlRemoteUpdate r));
  mret match x with
       | Err e => Some (mapWrite e "remote" (rm_Name r))
       | Ok n => requireAffected n "remote" (rm_Name r)
       end.
Definition DeleteRemote (id : Z) : St DB (option error) := exec (sqlRemoteDelete id) "remote" (fmt_int id).

Definition job_row_of (j : SyncJob) : job_row :=
  mk_job_row (jb_RemoteID j) (state_string (jb_State j)) (Z.quot (jb_Interval j) second) (nullTime (jb_LastRunAt j))
    (jb_Cursor j) (unix (jb_UpdatedAt j)).
Definition job_with_ID (id : Z) (j : SyncJob) : SyncJob :=
  mk_SyncJob id (jb_RemoteID j) (jb_State j) (jb_Interval j) (jb_LastRunAt j) (jb_Cursor j) (jb_UpdatedAt j).
Definition sqlJobInsert (r : job_row) : query Z := λ t,
  match tb_remotes t !! jr_remote_id r with
  | None => (Err foreign_key, t)
  | Some _ => let id := next_rowid (tb_jobs t) in (Ok id, set_jobs_tab (<[id := r]> (tb_jobs t)) t)
  end.
Definition sqlJobByID (id : Z) : query SyncJob := select (λ t, row (scanJob id <$> tb_jobs t !! id)).
Definition sqlJobByRemote (remoteID : Z) : query SyncJob := select (λ t,
  row ((λ ir, scanJob ir.1 ir.2) <$> find_row (λ r, jr_remote_id r =? remoteID) (tb_jobs t))).
Definition sqlJobAll : query (list SyncJob) := select (λ t, Ok ((λ ir, scanJob ir.1 ir.2) <$> by_id (tb_jobs t))).
Definition sqlJobUpdate (j : SyncJob) : query nat := λ t,
  match tb_jobs t !! jb_ID j with
  | None => (Ok 0%nat, t)
  | Some _ =>
      match tb_remotes t !! jb_RemoteID j with
      | None => (Err foreign_key, t)
      | Some _ => (Ok 1%nat, set_jobs_tab (<[jb_ID j := job_row_of j]> (tb_jobs t)) t)
      end
  end.
Definition sqlJobDelete (id : Z) : query nat := λ t,
  match tb_jobs t !! id with
  | None => (Ok 0%nat, t)
  | Some _ => (Ok 1%nat, set_jobs_tab (delete id (tb_jobs t)) t)
  end.
Definition CreateJob (j : SyncJob) : St DB (res SyncJob) :=
  x ← call (stmt (sqlJobInsert (job_row_of j)));
  mret match x with Ok id => Ok (job_with_ID id j) | Err e => Err (mapWrite e "sync-задача" (fmt_int (jb_RemoteID j))) end.
Definition Job (id : Z) : St DB (res SyncJob) :=
  x ← call (stmt (sqlJobByID id));
  mret match x with Ok j => Ok j | Err e => Err (mapRead e "sync-задача" (fmt_int id)) end.
Definition JobByRemote (remoteID : Z) : St DB (res SyncJob) :=
  x ← call (stmt (sqlJobByRemote remoteID));
  mret match x with Ok j => Ok j | Err e => Err (mapRead e "sync-задача" (fmt_int remoteID)) end.
Definition Jobs : St DB (res (list SyncJob)) :=
  x ← call (stmt sqlJobAll); mret match x with Ok js => Ok js | Err e => Err (as_error e) end.
Definition UpdateJob (j : SyncJob) : St DB (option error) :=
  x ← call (stmt (sqlJobUpdate j));
  mret match x with
       | Err e => Some (mapWrite e "sync-задача" (fmt_int (jb_ID j)))
       | Ok n => requireAffected n "sync-задача" (fmt_int (jb_ID j))
       end.
Definition DeleteJob (id : Z) : St DB (option error) := exec (sqlJobDelete id) "sync-задача" (fmt_int id).

(** * The audit log *)
Definition auditDefaultLimit : Z := 100.
Definition auditMaxLimit : Z := 1000.
Definition audit_row_of (e : AuditEntry) : audit_row :=
  mk_audit_row (unix (au_At e)) (au_Actor e) (au_Action e) (au_Object e) (au_Result e) (au_Detail e).
Definition scanAudit (r : audit_row) : AuditEntry :=
  mk_AuditEntry (from_unix (ar_ts r)) (ar_actor r) (ar_action r) (ar_object r) (ar_result r) (ar_detail r).
Definition sqlAuditInsert (r : audit_row) : query Z := λ t,
  let id := next_rowid (tb_audit t) in (Ok id, set_audit_tab (<[id := r]> (tb_audit t)) t).
Definition sqlAuditPage (afterID limit : Z) : query (list (Z * AuditEntry)) := select (λ t,
  Ok ((λ ir, (ir.1, scanAudit ir.2)) <$> take (Z.to_nat limit) (List.filter (λ ir, afterID <? ir.1) (by_id (tb_audit t))))).
Definition Record_ (e : AuditEntry) : St DB (option error) :=
  x ← call (stmt (sqlAuditInsert (audit_row_of e)));
  mret match x with Err e => Some (as_error e) | Ok _ => None end.
Definition page_limit (limit : Z) : Z :=
  let limit := if limit <=? 0 then auditDefaultLimit else limit in
  if auditMaxLimit <? limit then auditMaxLimit else limit.
Definition AuditEntries (afterID limit : Z) : St DB (res (list (Z * AuditEntry))) :=
  x ← call (stmt (sqlAuditPage afterID (page_limit limit)));
  mret match x with Ok es => Ok es | Err e => Err (as_error e) end.

(** * The index of mutable objects *)
Definition object_row_of (m : ObjectMeta) : object_row :=
  mk_object_row (om_StorageKey m) (om_ETag m) (om_Size m) (om_ContentType m)
    (nullTime (om_LastModified m)) (nullTime (om_ExpiresAt m)).
Definition sqlObjMetaGet (key : string) : query ObjectMeta :=
  select (λ t, row (scanObjectMeta key <$> tb_objects t !! key)).
Definition sqlObjMetaAll : query (list ObjectMeta) := select (λ t,
  Ok (omap (λ k, scanObjectMeta k <$> tb_objects t !! k) (sorted_keys (tb_objects t)))).
Definition sqlObjMetaDelete (key : string) : query unit := λ t,
  (Ok tt, set_objects_tab (delete key (tb_objects t)) t).
Definition upsertObjectMeta (m : ObjectMeta) : query unit := λ t,
  (Ok tt, set_objects_tab (<[om_Key m := object_row_of m]> (tb_objects t)) t).
Definition ObjectMeta_sql (key : string) : St DB (res ObjectMeta) :=
  x ← call (stmt (sqlObjMetaGet key));
  mret match x with Ok m => Ok m | Err e => Err (mapRead e "метаданные объекта" key) end.
Definition PutObjectMeta_sql (m : ObjectMeta) : St DB (option error) :=
  x ← call (stmt (upsertObjectMeta m));
  mret match x with Err e => Some (mapWrite e "метаданные объекта" (om_Key m)) | Ok _ => None end.
Definition DeleteObjectMeta_sql (key : string) : St DB (option error) :=
  x ← call (stmt (sqlObjMetaDelete key)); mret match x with Err e => Some (as_error e) | Ok _ => None end.
(** The rows that the callback of [ForEachObjectMeta] is given, if it never
    stops the traversal. *)
Definition ForEachObjectMeta_sql : St DB (res (list ObjectMeta)) :=
  x ← call (stmt sqlObjMetaAll); mret match x with Ok ms => Ok ms | Err e => Err (as_error e) end.

(** * Access records (access.go) *)
Definition upsertAccess (a : ObjectAccess) (m : gmap (string * string) (Z * Z)) : gmap (string * string) (Z * Z) :=
  let k := (oa_Scope a, oa_Key a) in
  match m !! k with
  | None => <[k := (unix (oa_LastAccess a), oa_Hits a)]> m
  | Some (last, hits) => <[k := (Z.max last (unix (oa_LastAccess a)), hits + oa_Hits a)]> m
  end.
(** A transaction: all rows or none. *)
Definition sqlAccessMerge (rows : list ObjectAccess) : query unit := λ t,
  (Ok tt, set_access_tab (foldl (λ m a, upsertAccess a m) (tb_access t) rows) t).
Definition accessKey (a : ObjectAccess) : string := oa_Scope a +:+ "/" +:+ oa_Key a.
Definition MergeAccess (rows : list ObjectAccess) : St DB (option error) :=
  match rows with
  | [] => mret None
  | a :: _ =>
      x ← call (stmt (sqlAccessMerge rows));
      mret match x with Err e => Some (mapWrite e "обращения к объектам" (accessKey a)) | Ok _ => None end
  end.
Definition scanAccess (scope key : string) (r : Z * Z) : ObjectAccess :=
  mk_ObjectAccess scope key (from_unix r.1) r.2.
Definition sqlAccessEntry (scope key : string) : query ObjectAccess :=
  select (λ t, row (scanAccess scope key <$> tb_access t !! (scope, key))).
Definition AccessEntry (scope key : string) : St DB (res ObjectAccess) :=
  x ← call (stmt (sqlAccessEntry scope key));
  mret match x with Ok a => Ok a | Err e => Err (mapRead e "обращения к объектам" (scope +:+ "/" +:+ key)) end.

(** [LIKE … ESCAPE '!'] of SQLite: an ASCII letter matches either case, [%] any
    bytes, [_] one. *)
Fixpoint like (fuel : nat) (p s : string) : bool :=
  match fuel with
  | O => false
  | S fuel =>
      match p with
      | EmptyString => String.eqb s ""
      | String "!" (String c p) =>
          match s with String d s => Ascii.eqb (lower_byte c) (lower_byte d) && like fuel p s | _ => false end
      | String "%" p => like fuel p s || match s with String _ s => like fuel (String "%" p) s | _ => false end
      | String "_" p => match s with String _ s => like fuel p s | _ => false end
      | String c p =>
          match s with String d s => Ascii.eqb (lower_byte c) (lower_byte d) && like fuel p s | _ => false end
      end
  end.
Definition matches (p s : string) : bool := like (S (String.length p + String.length s)) p s.
(** The loop of [likePrefix] ranges over runes. *)
Definition like_rune (r : string) : string :=
  if String.eqb r "%" || String.eqb r "_" || String.eqb r "!" then "!" +:+ r else r.
Definition likePrefix (prefix : string) : string := String.concat "" (map like_rune (runes prefix)) +:+ "%".
Definition sqlAccessByPrefix (scope pattern : string) : query (list ObjectAccess) := select (λ t,
  let keys := List.filter (λ k, matches pattern k) (merge_sort str_le (snd <$> List.filter (λ sk, String.eqb sk.1 scope) (map_to_list (tb_access t)).*1)) in
  Ok (omap (λ k, scanAccess scope k <$> tb_access t !! (scope, k)) keys)).
(** One attempt: the rows are streamed. *)
Definition AccessByPrefix (scope prefix : string) : St DB (res (list ObjectAccess)) :=
  x ← stmt (sqlAccessByPrefix scope (likePrefix prefix));
  mret match x with
       | Ok l => Ok l
       | Err e => Err (mapRead e "обращения к объектам" (scope +:+ "/" +:+ prefix))
       end.

(** * Pins (pins.go) *)
Definition sqlPinSet (repoID : Z) (key : string) : query unit := λ t,
  if bool_decide ((repoID, key) ∈ tb_pins t) then (Ok tt, t)
  else match tb_repos t !! repoID with
       | None => (Err foreign_key, t)
       | Some _ => (Ok tt, set_pins_tab ({[(repoID, key)]} ∪ tb_pins t) t)
       end.
Definition sqlPinDelete (repoID : Z) (key : string) : query unit := λ t,
  (Ok tt, set_pins_tab (tb_pins t ∖ {[(repoID, key)]}) t).
Definition sqlPinsByRepo (repoID : Z) : query (list string) := select (λ t,
  Ok (merge_sort str_le (snd <$> List.filter (λ p, p.1 =? repoID) (elements (tb_pins t))))).
Definition Pins (repoID : Z) : St DB (res (list string)) :=
  x ← call (stmt (sqlPinsByRepo repoID));
  mret match x with Ok ks => Ok ks | Err e => Err (mapRead e "пины" (fmt_int repoID)) end.
Definition SetPin (repoID : Z) (key : string) (pinned : bool) : St DB (option error) :=
  x ← call (stmt (if pinned then sqlPinSet repoID key else sqlPinDelete repoID key));
  mret match x with Err e => Some (mapWrite e "пин" (fmt_int repoID +:+ "/" +:+ key)) | Ok _ => None end.

(** * Statistics and settings (stats.go, settings.go) *)
Definition stats_row_of (r : CacheStatsRow) : stats_row :=
  mk_stats_row (cs_Hits r) (cs_Misses r) (cs_StaleServed r) (cs_NegativeHits r) (cs_UpstreamErrors r)
    (cs_BytesFromUpstream r) (cs_BytesToClients r) (cs_Packages r) (unix (cs_UpdatedAt r)).
Definition scanStatsRow (eco : string) (r : stats_row) : CacheStatsRow :=
  mk_CacheStatsRow eco (sr_hits r) (sr_misses r) (sr_stale_served r) (sr_negative_hits r) (sr_upstream_errors r)
    (sr_bytes_from_upstream r) (sr_bytes_to_clients r) (sr_packages r) (from_unix (sr_updated_at r)).
Definition statsUpsertSQL (rows : list CacheStatsRow) : query unit := λ t,
  (Ok tt, set_stats_tab (foldl (λ m r, <[cs_Ecosystem r := stats_row_of r]> m) (tb_stats t) rows) t).
Definition sqlStatsAll : query (list CacheStatsRow) := select (λ t,
  Ok (omap (λ k, scanStatsRow k <$> tb_stats t !! k) (sorted_keys (tb_stats t)))).
Definition sqlStatsDelete : query unit := λ t, (Ok tt, set_stats_tab ∅ t).
Definition SaveStatsSnapshot (rows : list CacheStatsRow) : St DB (option error) :=
  match rows with
  | [] => mret None
  | _ =>
      x ← call (stmt (statsUpsertSQL rows));
      mret match x with Err e => Some (mapWrite e "статистика" "cache_stats") | Ok _ => None end
  end.
Definition StatsSnapshot : St DB (res (list CacheStatsRow)) :=
  x ← call (stmt sqlStatsAll); mret match x with Ok rs => Ok rs | Err e => Err (as_error e) end.
Definition ResetStats : St DB (option error) :=
  x ← call (stmt sqlStatsDelete);
  mret match x with Err e => Some (mapWrite e "статистика" "cache_stats") | Ok _ => None end.

Definition settingsProxyKey : string := "upstream.proxy".
Definition sqlSettingsProxyGet (key : string) : query string := select (λ t, row (fst <$> tb_settings t !! key)).
Definition settingsUpsertSQL (key value : string) (at_ : Z) : query unit := λ t,
  (Ok tt, set_settings_tab (<[key := (value, at_)]> (tb_settings t)) t).
Definition UpstreamProxy : St DB (res string) :=
  x ← call (v ← stmt (sqlSettingsProxyGet settingsProxyKey); mret match v with Err ErrNoRows => Ok "" | _ => v end);
  mret match x with Ok v => Ok v | Err e => Err (as_error e) end.
Definition SetUpstreamProxy (value : string) (at_ : Z) : St DB (option error) :=
  x ← call (stmt (settingsUpsertSQL settingsProxyKey value (unix at_)));
  mret match x with Err e => Some (mapWrite e "настройка" settingsProxyKey) | Ok _ => None end.
