(* ===== verification/SqliteSchema.v ===== *)
(** The SQLite catalogue as a whole: the integrity of its schema and the
    append-only audit log under every run of the store, round trips of stored
    records, the pages of the log, the merge of access records, and what LIKE
    makes of a prefix. *)
From S2P Require Import Prelude GoStr Domain Port Catalog Sqlite SqliteLaws SqliteCatalog.
Local Open Scope Z_scope.

(** * References between tables *)
Create HintDb schema discriminated.

Definition positive_ids {A} (t : gmap Z A) : Prop := ∀ i r, t !! i = Some r → 0 < i.
(** Every row names, by [f], a row of the other table. *)
Definition points {K A B} `{Countable K} (f : K → A → Z) (t : gmap K A) (u : gmap Z B) : Prop :=
  ∀ k r, t !! k = Some r → is_Some (u !! f k r).

Lemma positive_insert {A} (t : gmap Z A) i r : positive_ids t → 0 < i → positive_ids (<[i := r]> t).
Proof. intros Ht Hi j x [[<- _]|[_ Hx]]%lookup_insert_Some; [done|by eapply Ht]. Qed.
Lemma positive_sub {A} (t t' : gmap Z A) : t' ⊆ t → positive_ids t → positive_ids t'.
Proof. intros Hsub Ht i r Hi. eapply Ht, lookup_weaken; done. Qed.
Lemma positive_key {A} (t : gmap Z A) i r : positive_ids t → t !! i = Some r → 0 < i.
Proof. intros Ht. apply Ht. Qed.

Section points.
Context {K A B : Type} `{Countable K} (f : K → A → Z) (t : gmap K A) (u : gmap Z B).
Lemma points_add k r : points f t u → is_Some (u !! f k r) → points f (<[k := r]> t) u.
Proof. intros Ht Hr j x [[<- <-]|[_ Hx]]%lookup_insert_Some; [done|by apply Ht]. Qed.
Lemma points_target i x : points f t u → points f t (<[i := x]> u).
Proof. intros Ht k r Hk. destruct (Ht k r Hk) as [y Hy]. destruct (decide (i = f k r)) as [->|]; simplify_map_eq; eauto. Qed.
Lemma points_sub t' : t' ⊆ t → points f t u → points f t' u.
Proof. intros Hsub Ht k r Hk. eapply Ht, lookup_weaken; done. Qed.
(** ON DELETE CASCADE, and a deletion that is refused while it is referenced. *)
Lemma points_cascade id (P : K * A → Prop) `{∀ x, Decision (P x)} :
  (∀ k r, P (k, r) → f k r ≠ id) → points f t u → points f (filter P t) (delete id u).
Proof.
  intros HP Ht k r [Hk Hid%HP]%map_lookup_filter_Some. rewrite lookup_delete_ne by done. by apply Ht.
Qed.
Lemma points_restrict id : (∀ k r, t !! k = Some r → f k r ≠ id) → points f t u → points f t (delete id u).
Proof. intros Hid Ht k r Hk. rewrite lookup_delete_ne by (intros ->; by eapply Hid). by apply Ht. Qed.
End points.

(** ** The schema *)
Definition by_col {A} (f : A → Z) (_ : Z) (r : A) : Z := f r.
Record schema (t : tables) : Prop := {
  sc_username : unique_col ur_username (tb_users t);
  sc_prefix : unique_col tr_prefix (tb_tokens t);
  sc_hash : unique_col tr_token_hash (tb_tokens t);
  sc_repo_name : unique_col rr_name (tb_repos t);
  sc_remote_name : unique_col mr_name (tb_remotes t);
  sc_token_user : points (by_col tr_user_id) (tb_tokens t) (tb_users t);
  sc_repo_owner : points (by_col rr_owner_id) (tb_repos t) (tb_users t);
  sc_perm_repo : points (λ k _, k.1) (tb_perms t) (tb_repos t);
  sc_perm_user : points (λ k _, k.2) (tb_perms t) (tb_users t);
  sc_job_remote : points (by_col jr_remote_id) (tb_jobs t) (tb_remotes t);
  sc_pin_repo p : p ∈ tb_pins t → is_Some (tb_repos t !! p.1);
  sc_user_ids : positive_ids (tb_users t);
  sc_token_ids : positive_ids (tb_tokens t);
  sc_repo_ids : positive_ids (tb_repos t);
  sc_remote_ids : positive_ids (tb_remotes t);
  sc_job_ids : positive_ids (tb_jobs t)
}.
Lemma schema_good t : schema t → good_tables t.
Proof. intros []. split; [done..| |]; intros i [x Hx]; eapply positive_key in Hx; try done; lia. Qed.

Lemma unique_new {A} (col : A → string) (t : gmap Z A) r : positive_ids t → unique_col col t →
  taken col (col r) 0 t = false → unique_col col (<[next_rowid t := r]> t).
Proof.
  intros Hp Hu Ht. apply unique_insert; [done|]. apply taken_fresh; [apply next_rowid_fresh|done|].
  intros i [x Hx] ->. apply Hp in Hx. lia.
Qed.
Lemma unique_delete {A} (col : A → string) (t : gmap Z A) id : unique_col col t → unique_col col (delete id t).
Proof. apply unique_sub, delete_subseteq. Qed.
Lemma unique_filter {A} (col : A → string) (t : gmap Z A) (P : Z * A → Prop) `{∀ x, Decision (P x)} :
  unique_col col t → unique_col col (filter P t).
Proof. apply unique_sub, map_filter_subseteq. Qed.
Lemma positive_new {A} (t : gmap Z A) r : positive_ids t → positive_ids (<[next_rowid t := r]> t).
Proof. intros Ht. apply positive_insert; [done|apply next_rowid_pos]. Qed.
Lemma positive_delete {A} (t : gmap Z A) id : positive_ids t → positive_ids (delete id t).
Proof. apply positive_sub, delete_subseteq. Qed.
Lemma positive_filter {A} (t : gmap Z A) (P : Z * A → Prop) `{∀ x, Decision (P x)} :
  positive_ids t → positive_ids (filter P t).
Proof. apply positive_sub, map_filter_subseteq. Qed.
Lemma positive_update {A} (t : gmap Z A) i r old : positive_ids t → t !! i = Some old → positive_ids (<[i := r]> t).
Proof. intros Ht Hi. apply positive_insert; [done|by eapply Ht]. Qed.
Lemma points_delete {K A B} `{Countable K} f (t : gmap K A) (u : gmap Z B) k : points f t u → points f (delete k t) u.
Proof. apply points_sub, delete_subseteq. Qed.
Lemma points_filter {K A B} `{Countable K} f (t : gmap K A) (u : gmap Z B) (P : K * A → Prop) `{∀ x, Decision (P x)} :
  points f t u → points f (filter P t) u.
Proof. apply points_sub, map_filter_subseteq. Qed.
#[export] Hint Resolve unique_new unique_insert unique_delete unique_filter positive_new positive_delete
  positive_filter positive_update points_target points_delete points_filter : schema.
#[export] Hint Extern 1 (points _ (<[_ := _]> _) _) =>
  apply points_add; [|unfold by_col; simpl; eauto] : schema.

(** ** The audit log, in the order of its ids *)
Definition earlier {A} (a b : Z * A) : Prop := a.1 < b.1.
Lemma by_id_sorted {A} (t : gmap Z A) : StronglySorted earlier (by_id t).
Proof.
  assert (StronglySorted id_le (by_id t)) as Hs.
  { apply StronglySorted_merge_sort; unfold id_le; [intros ???; lia|intros ??; lia]. }
  assert (NoDup (by_id t).*1) as Hn.
  { unfold by_id. rewrite merge_sort_Permutation. apply NoDup_fst_map_to_list. }
  induction Hs as [|x l Hl IH Hx]; [constructor|]. apply NoDup_cons in Hn as [Hx' Hn].
  constructor; [by apply IH|]. apply Forall_forall. intros y Hy. eapply Forall_forall in Hx; [|done].
  unfold earlier, id_le in *. assert (x.1 ≠ y.1) by (intros Heq; apply Hx'; rewrite Heq; by apply list_elem_of_fmap_2). lia.
Qed.
Lemma sorted_snoc {A} (l : list (Z * A)) x :
  StronglySorted earlier l → (∀ y, y ∈ l → earlier y x) → StronglySorted earlier (l ++ [x]).
Proof.
  intros Hl Hx. induction Hl as [|y l _ IH Hy]; simpl; [by repeat constructor|].
  constructor; [set_solver|]. apply Forall_app. split; [done|]. constructor; [set_solver|done].
Qed.
Lemma by_id_append {A} (t : gmap Z A) r : by_id (<[next_rowid t := r]> t) = by_id t ++ [(next_rowid t, r)].
Proof.
  assert (earlier (A := A) = λ a b, a.1 < b.1) as He by done.
  apply (StronglySorted_unique_strong earlier).
  - unfold earlier. intros. lia.
  - apply by_id_sorted.
  - apply sorted_snoc; [apply by_id_sorted|]. intros [i x] Hi%by_id_elem. apply next_rowid_above. eauto.
  - unfold by_id. rewrite !merge_sort_Permutation, map_to_list_insert by apply next_rowid_fresh.
    by rewrite Permutation_app_comm.
Qed.

(** ** Every statement keeps the schema and only appends to the log *)
Definition kept (t t' : tables) : Prop :=
  (schema t → schema t') ∧ by_id (tb_audit t) `prefix_of` by_id (tb_audit t').
#[export] Instance kept_preorder : PreOrder kept.
Proof.
  split; [by intros t|]. intros t1 t2 t3 [Hs1 Ha1] [Hs2 Ha2]. split; [auto|by etrans].
Qed.
Definition over (R : relation tables) (d d' : DB) : Prop := R (tabs d) (tabs d').
#[export] Instance over_preorder R `{!PreOrder R} : PreOrder (over R).
Proof. split; [by intros d; unfold over|]. intros d1 d2 d3 H1 H2. unfold over in *. by etrans. Qed.

(** A statement that is run may be retried and its answer lost, but each time it
    takes the tables along [R]. *)
Lemma stmt_moves {A} (R : relation tables) `{!PreOrder R} (q : query A) :
  (∀ t, R t (q t).2) → moves (over R) (stmt q).
Proof.
  intros Hq d. unfold over, stmt. specialize (Hq (tabs d)). destruct (env d (stmts d)); simpl; [|done..].
  by destruct (q (tabs d)).
Qed.
Lemma call_moves {A} (R : relation tables) `{!PreOrder R} (fn : St DB (sres A)) :
  moves (over R) fn → moves (over R) (call fn).
Proof.
  intros Hfn. unfold call. generalize busyRetries as n. intros n. induction n as [|n IH]; simpl; moves_tac; done.
Qed.

Lemma kept_schema t t' : (schema t → schema t') → tb_audit t' = tb_audit t → kept t t'.
Proof. intros Hs Ha. split; [done|]. by rewrite Ha. Qed.
Ltac schema_tac :=
  intros []; split; simpl; eauto with schema.

Lemma kept_select {A} (f : tables → sres A) t : kept t (select f t).2.
Proof. done. Qed.
Lemma kept_insert_user r t : kept t (insert_user r t).2.
Proof. unfold insert_user. destruct (taken _ _ _ _) eqn:E; [done|]. apply kept_schema; [schema_tac|done]. Qed.
Lemma kept_user_first r t : kept t (sqlUserInsertFirst r t).2.
Proof. unfold sqlUserInsertFirst. case_decide; [apply kept_insert_user|done]. Qed.
Lemma kept_user_update u t : kept t (sqlUserUpdate u t).2.
Proof.
  unfold sqlUserUpdate. destruct (_ !! _) as [old|] eqn:Hu; [|done]. destruct (taken _ _ _ _) eqn:E; [done|].
  apply kept_schema; [schema_tac|done].
Qed.
Lemma kept_user_delete id t : kept t (sqlUserDelete id t).2.
Proof.
  unfold sqlUserDelete. destruct (_ !! _); [|done]. case_bool_decide as Hown; [done|]. apply kept_schema; [|done].
  schema_tac.
  - apply points_cascade; [|done]. by intros k r.
  - apply points_restrict; [|done]. intros k r Hk Heq. apply Hown. by exists k, r.
  - apply points_cascade; [|done]. by intros k r.
Qed.
Lemma kept_token_insert r t : kept t (sqlTokenInsert r t).2.
Proof.
  unfold sqlTokenInsert. destruct (taken tr_prefix _ _ _ || _) eqn:E; [done|].
  destruct (_ !! _) as [u|] eqn:Hu; [|done]. apply orb_false_iff in E as [? ?]. apply kept_schema; [schema_tac|done].
Qed.
Lemma kept_token_update id f t : (∀ r, tr_prefix (f r) = tr_prefix r ∧ tr_token_hash (f r) = tr_token_hash r ∧
  tr_user_id (f r) = tr_user_id r) → kept t (update_token id f t).2.
Proof.
  intros Hf. unfold update_token. destruct (_ !! _) as [r|] eqn:Hr; [|done]. apply kept_schema; [|done].
  destruct (Hf r) as (Hp & Hh & Hu). assert (∀ (col : token_row → string), col (f r) = col r → unique_col col (tb_tokens t) → unique_col col (<[id := f r]> (tb_tokens t))) as Hcol.
  { intros col Heq Hc i j x y [[<- <-]|[Hi Hx]]%lookup_insert_Some [[<- <-]|[Hj Hy]]%lookup_insert_Some; try done.
    - rewrite Heq. by apply Hc.
    - rewrite Heq. intros Hxy. by eapply Hc.
    - by apply Hc. }
  intros []; split; simpl; eauto with schema. apply points_add; [done|]. unfold by_col. rewrite Hu. by eapply sc_token_user0.
Qed.
Lemma kept_token_delete id t : kept t (sqlTokenDelete id t).2.
Proof. unfold sqlTokenDelete. destruct (_ !! _); [|done]. apply kept_schema; [schema_tac|done]. Qed.
Lemma kept_repo_insert r t : kept t (sqlRepoInsert r t).2.
Proof.
  unfold sqlRepoInsert. destruct (taken _ _ _ _) eqn:E; [done|]. destruct (_ !! _) as [u|] eqn:Hu; [|done].
  apply kept_schema; [|done]. schema_tac. intros p Hp. apply sc_pin_repo0 in Hp.
  by apply lookup_insert_is_Some'; right.
Qed.
Lemma kept_repo_update r t : kept t (sqlRepoUpdate r t).2.
Proof.
  unfold sqlRepoUpdate. destruct (tb_repos t !! _) as [old|] eqn:Hr; [|done]. destruct (taken _ _ _ _) eqn:E; [done|].
  destruct (tb_users t !! _) as [u|] eqn:Hu; [|done]. apply kept_schema; [|done]. schema_tac.
  intros p Hp. apply sc_pin_repo0 in Hp. by apply lookup_insert_is_Some'; right.
Qed.
Lemma kept_repo_delete id t : kept t (sqlRepoDelete id t).2.
Proof.
  unfold sqlRepoDelete. destruct (_ !! _); [|done]. apply kept_schema; [|done]. schema_tac.
  - apply points_cascade; [|done]. by intros ??.
  - intros p [Hp Hin]%elem_of_filter. rewrite lookup_delete_ne by done. auto.
Qed.
Lemma kept_grant p t : kept t (sqlPermGrant p t).2.
Proof.
  unfold sqlPermGrant. destruct (tb_perms t !! _); [done|]. destruct (tb_repos t !! _) as [r|] eqn:Hr; [|done].
  destruct (tb_users t !! _) as [u|] eqn:Hu; [|done]. apply kept_schema; [schema_tac|done].
Qed.
Lemma kept_revoke i j t : kept t (sqlPermRevoke i j t).2.
Proof. unfold sqlPermRevoke. destruct (_ !! _); [|done]. apply kept_schema; [schema_tac|done]. Qed.
Lemma kept_remote_insert r t : kept t (sqlRemoteInsert r t).2.
Proof. unfold sqlRemoteInsert. destruct (taken _ _ _ _) eqn:E; [done|]. apply kept_schema; [schema_tac|done]. Qed.
Lemma kept_remote_update r t : kept t (sqlRemoteUpdate r t).2.
Proof.
  unfold sqlRemoteUpdate. destruct (_ !! _) as [old|] eqn:Hr; [|done]. destruct (taken _ _ _ _) eqn:E; [done|].
  apply kept_schema; [schema_tac|done].
Qed.
Lemma kept_remote_delete id t : kept t (sqlRemoteDelete id t).2.
Proof.
  unfold sqlRemoteDelete. destruct (_ !! _); [|done]. apply kept_schema; [|done]. schema_tac.
  apply points_cascade; [|done]. by intros ??.
Qed.
Lemma kept_job_insert r t : kept t (sqlJobInsert r t).2.
Proof. unfold sqlJobInsert. destruct (_ !! _) as [m|] eqn:Hm; [|done]. apply kept_schema; [schema_tac|done]. Qed.
Lemma kept_job_update j t : kept t (sqlJobUpdate j t).2.
Proof.
  unfold sqlJobUpdate. destruct (tb_jobs t !! _) as [old|] eqn:Hj; [|done]. destruct (tb_remotes t !! _) as [m|] eqn:Hm; [|done].
  apply kept_schema; [schema_tac|done].
Qed.
Lemma kept_job_delete id t : kept t (sqlJobDelete id t).2.
Proof. unfold sqlJobDelete. destruct (_ !! _); [|done]. apply kept_schema; [schema_tac|done]. Qed.
Lemma kept_audit r t : kept t (sqlAuditInsert r t).2.
Proof.
  split; [schema_tac|]. cbn [snd sqlAuditInsert tb_audit set_audit_tab]. rewrite by_id_append. by eexists.
Qed.
Lemma kept_pin_set i k t : kept t (sqlPinSet i k t).2.
Proof.
  unfold sqlPinSet. case_bool_decide; [done|]. destruct (_ !! _) eqn:Hr; [|done]. apply kept_schema; [|done]. schema_tac.
  intros p [->%elem_of_singleton|Hp]%elem_of_union; simpl; eauto.
Qed.
Lemma kept_pin_delete i k t : kept t (sqlPinDelete i k t).2.
Proof. apply kept_schema; [|done]. schema_tac. intros p [Hp _]%elem_of_difference. auto. Qed.
(** A statement on a table that takes part in no reference. *)
Lemma kept_objects m t : kept t (set_objects_tab m t).
Proof. apply kept_schema; [schema_tac|done]. Qed.
Lemma kept_revoked m t : kept t (set_revoked_tab m t).
Proof. apply kept_schema; [schema_tac|done]. Qed.
Lemma kept_access m t : kept t (set_access_tab m t).
Proof. apply kept_schema; [schema_tac|done]. Qed.
Lemma kept_stats m t : kept t (set_stats_tab m t).
Proof. apply kept_schema; [schema_tac|done]. Qed.
Lemma kept_settings m t : kept t (set_settings_tab m t).
Proof. apply kept_schema; [schema_tac|done]. Qed.

(** ** Runs of the store *)
Inductive store_op :=
| SCreateUser (u : User) | SEnsureFirstUser (u : User) | SUser (id : Z) | SUserByUsername (n : string) | SUsers
| SUpdateUser (u : User) | SDeleteUser (id : Z) | SHasUsers
| SCreateToken (t : APIToken) | STokenBySHA256 (h : string) | STokensByUser (id : Z) | SDeleteToken (id : Z)
| SRevokeToken (id at_ : Z) | STouchToken (id at_ : Z)
| SInsertRevocation (j : string) (now expiresAt : Z) | SIsRevoked (j : string) (now : Z)
| SCreateRepo (r : Repo) | SRepo (id : Z) | SRepoByName (n : string) | SRepos | SUpdateRepo (r : Repo) | SDeleteRepo (id : Z)
| SGrant (p : Perm) | SRevoke (repoID userID : Z) | SPerms (repoID : Z)
| SCreateRemote (r : Remote) | SRemote (id : Z) | SRemotes | SUpdateRemote (r : Remote) | SDeleteRemote (id : Z)
| SCreateJob (j : SyncJob) | SJob (id : Z) | SJobByRemote (remoteID : Z) | SJobs | SUpdateJob (j : SyncJob) | SDeleteJob (id : Z)
| SRecord (e : AuditEntry) | SAuditEntries (afterID limit : Z)
| SObjectMeta (key : string) | SPutObjectMeta (m : ObjectMeta) | SDeleteObjectMeta (key : string) | SForEachObjectMeta
| SMergeAccess (rows : list ObjectAccess) | SAccessEntry (scope key : string) | SAccessByPrefix (scope prefix : string)
| SPins (repoID : Z) | SSetPin (repoID : Z) (key : string) (pinned : bool)
| SSaveStats (rows : list CacheStatsRow) | SStats | SResetStats | SProxy | SSetProxy (value : string) (at_ : Z).

Definition run_store_op (o : store_op) : St DB unit :=
  match o with
  | SCreateUser u => CreateUser_sql u;; mret tt
  | SEnsureFirstUser u => EnsureFirstUser_sql u;; mret tt
  | SUser id => User_sql id;; mret tt
  | SUserByUsername n => UserByUsername_sql n;; mret tt
  | SUsers => Users_sql;; mret tt
  | SUpdateUser u => UpdateUser_sql u;; mret tt
  | SDeleteUser id => DeleteUser_sql id;; mret tt
  | SHasUsers => HasUsers_sql;; mret tt
  | SCreateToken t => CreateToken_sql t;; mret tt
  | STokenBySHA256 h => TokenBySHA256_sql h;; mret tt
  | STokensByUser id => TokensByUser_sql id;; mret tt
  | SDeleteToken id => DeleteToken_sql id;; mret tt
  | SRevokeToken id at_ => RevokeToken_sql id at_;; mret tt
  | STouchToken id at_ => TouchToken_sql id at_;; mret tt
  | SInsertRevocation j now expiresAt => InsertRevocation_sql j now expiresAt;; mret tt
  | SIsRevoked j now => IsRevoked_sql j now;; mret tt
  | SCreateRepo r => CreateRepo r;; mret tt
  | SRepo id => Repo_ id;; mret tt
  | SRepoByName n => RepoByName n;; mret tt
  | SRepos => Repos;; mret tt
  | SUpdateRepo r => UpdateRepo r;; mret tt
  | SDeleteRepo id => DeleteRepo id;; mret tt
  | SGrant p => Grant p;; mret tt
  | SRevoke repoID userID => Revoke repoID userID;; mret tt
  | SPerms repoID => Perms repoID;; mret tt
  | SCreateRemote r => CreateRemote r;; mret tt
  | SRemote id => Remote_ id;; mret tt
  | SRemotes => Remotes;; mret tt
  | SUpdateRemote r => UpdateRemote r;; mret tt
  | SDeleteRemote id => DeleteRemote id;; mret tt
  | SCreateJob j => CreateJob j;; mret tt
  | SJob id => Job id;; mret tt
  | SJobByRemote remoteID => JobByRemote remoteID;; mret tt
  | SJobs => Jobs;; mret tt
  | SUpdateJob j => UpdateJob j;; mret tt
  | SDeleteJob id => DeleteJob id;; mret tt
  | SRecord e => Record_ e;; mret tt
  | SAuditEntries afterID limit => AuditEntries afterID limit;; mret tt
  | SObjectMeta key => ObjectMeta_sql key;; mret tt
  | SPutObjectMeta m => PutObjectMeta_sql m;; mret tt
  | SDeleteObjectMeta key => DeleteObjectMeta_sql key;; mret tt
  | SForEachObjectMeta => ForEachObjectMeta_sql;; mret tt
  | SMergeAccess rows => MergeAccess rows;; mret tt
  | SAccessEntry scope key => AccessEntry scope key;; mret tt
  | SAccessByPrefix scope prefix => AccessByPrefix scope prefix;; mret tt
  | SPins repoID => Pins repoID;; mret tt
  | SSetPin repoID key pinned => SetPin repoID key pinned;; mret tt
  | SSaveStats rows => SaveStatsSnapshot rows;; mret tt
  | SStats => StatsSnapshot;; mret tt
  | SResetStats => ResetStats;; mret tt
  | SProxy => UpstreamProxy;; mret tt
  | SSetProxy value at_ => SetUpstreamProxy value at_;; mret tt
  end.
Fixpoint run_store (os : list store_op) : St DB unit :=
  match os with [] => mret tt | o :: os => run_store_op o;; run_store os end.

Create HintDb kept discriminated.
#[export] Hint Resolve kept_select kept_insert_user kept_user_first kept_user_update kept_user_delete kept_token_insert
  kept_token_delete kept_repo_insert kept_repo_update kept_repo_delete kept_grant kept_revoke kept_remote_insert
  kept_remote_update kept_remote_delete kept_job_insert kept_job_update kept_job_delete kept_audit kept_pin_set
  kept_pin_delete kept_objects kept_revoked kept_access kept_stats kept_settings : kept.
#[export] Hint Extern 1 (kept _ (sqlTokenRevoke _ _ _).2) => by apply kept_token_update : kept.
#[export] Hint Extern 1 (kept _ (sqlTokenTouch _ _ _).2) => by apply kept_token_update : kept.
Lemma call_kept {A} (fn : St DB (sres A)) : moves (over kept) fn → moves (over kept) (call fn).
Proof. apply call_moves, _. Qed.
Lemma stmt_kept {A} (q : query A) : (∀ t, kept t (q t).2) → moves (over kept) (stmt q).
Proof. apply stmt_moves, _. Qed.
Ltac kept_tac :=
  repeat match goal with
  | |- moves _ (call _) => apply call_kept
  | |- moves _ (stmt (if ?x then _ else _)) => destruct x
  | |- moves _ (stmt _) => apply stmt_kept; intros; first [by eauto with kept | simpl; by eauto with kept]
  | |- moves _ (_ ≫= _) => apply moves_bind; [apply _| |intros]
  | |- moves _ (mret _) => apply moves_ret, _
  | |- moves _ (match ?x with _ => _ end) => destruct x
  end.
Lemma run_store_op_kept o : moves (over kept) (run_store_op o).
Proof.
  destruct o; cbn [run_store_op]; apply moves_bind; try apply _; intros; try by (apply moves_ret; apply _).
  all: unfold CreateUser_sql, EnsureFirstUser_sql, User_sql, UserByUsername_sql, Users_sql, UpdateUser_sql, DeleteUser_sql,
    HasUsers_sql, CreateToken_sql, TokenBySHA256_sql, TokensByUser_sql, DeleteToken_sql, RevokeToken_sql, TouchToken_sql,
    InsertRevocation_sql, IsRevoked_sql, CreateRepo, Repo_, RepoByName, Repos, UpdateRepo, DeleteRepo, Grant, Revoke, Perms,
    CreateRemote, Remote_, Remotes, UpdateRemote, DeleteRemote, CreateJob, Job, JobByRemote, Jobs, UpdateJob, DeleteJob,
    Record_, AuditEntries, ObjectMeta_sql, PutObjectMeta_sql, DeleteObjectMeta_sql, ForEachObjectMeta_sql, MergeAccess,
    AccessEntry, AccessByPrefix, Pins, SetPin, SaveStatsSnapshot, StatsSnapshot, ResetStats, UpstreamProxy,
    SetUpstreamProxy, exec.
  all: kept_tac.
Qed.
Lemma run_store_kept os : moves (over kept) (run_store os).
Proof. induction os; simpl; moves_tac. apply run_store_op_kept. Qed.

(** C15: from a new database, whatever operations of the store are run and
    whatever the engine answers them (errors, busy answers and their retries,
    answers that are lost), the schema holds: names, token prefixes and digests
    are unique, every token, right, repository, job and pin belongs to a row that
    exists, and no row has an id that is not positive. *)
Theorem schema_holds os (engine : nat → outcome) (ctx : nat → option string) :
  schema (tabs (run_store os (mk_DB engine ctx 0 empty_tables)).2).
Proof.
  apply (run_store_kept os (mk_DB engine ctx 0 empty_tables)).
  split; simpl; intros ?; intros; set_solver.
Qed.

(** * The audit log *)
Definition audit_trail (t : tables) : list (Z * AuditEntry) := (λ ir, (ir.1, scanAudit ir.2)) <$> by_id (tb_audit t).
(** The entries after an id. *)
Definition after_id (id : Z) (l : list (Z * AuditEntry)) : list (Z * AuditEntry) := List.filter (λ e, id <? e.1) l.

Lemma page_limit_range limit : 0 < page_limit limit ≤ auditMaxLimit.
Proof.
  unfold page_limit, auditDefaultLimit, auditMaxLimit. destruct (Z.leb_spec limit 0); [done|]. destruct (Z.ltb_spec 1000 limit); lia.
Qed.
Lemma stmt_select {A} (f : tables → sres A) d :
  tabs (stmt (select f) d).2 = tabs d ∧
  ((stmt (select f) d).1 = f (tabs d) ∨ ∃ e, (stmt (select f) d).1 = Err (Drv e)).
Proof. unfold stmt. destruct (env d (stmts d)) as [|e|e]; simpl; eauto. Qed.
(** A read gives what the tables hold, or an error of the driver. *)
Lemma call_select {A} (f : tables → sres A) d : (∀ t e, f t = Err e → isBusy e = false) →
  (call (stmt (select f)) d).1 = f (tabs d) ∨ ∃ e, (call (stmt (select f)) d).1 = Err (Drv e).
Proof.
  intros Hf. unfold call. generalize busyRetries as n. intros n. revert d.
  induction n as [|n IH]; intros d; simpl; unfold mbind, st_bind; destruct (stmt_select f d) as [Ht [Hr|[e Hr]]];
    destruct (stmt (select f) d) as [r d1]; simpl in *; subst r.
  1, 3: destruct (f (tabs d)) as [a|e] eqn:E; [by left|]; rewrite (Hf _ _ E); by left.
  - destruct e as [c msg|msg]; simpl; [|by right; eexists]. destruct (busy_code c); by right; eexists.
  - destruct e as [c msg|msg]; simpl; [|by right; eexists]. destruct (busy_code c); simpl; [|by right; eexists].
    destruct (ctx_Err d1 (stmts d1)); simpl; [by right; eexists|]. rewrite <- Ht. apply IH.
Qed.
Lemma read_ok {A} (f : tables → sres A) (post : sqlerr → error) d a : (∀ t e, f t = Err e → isBusy e = false) →
  ((x ← call (stmt (select f)); mret match x with Ok v => Ok v | Err e => Err (post e) end) d).1 = Ok a →
  f (tabs d) = Ok a.
Proof.
  intros Hf. unfold mbind, st_bind. destruct (call_select f d Hf) as [Hr|[e Hr]];
    destruct (call _ d) as [r d1]; simpl in *; subst r; [|done]. destruct (f (tabs d)); [|done]. by intros [= ->].
Qed.
(** A write that succeeds is the last statement that ran. *)
Lemma call_ok {A} (q : query A) d a : (call (stmt q) d).1 = Ok a →
  ∃ t, q t = (Ok a, tabs (call (stmt q) d).2).
Proof.
  unfold call. generalize busyRetries as n. intros n. revert d.
  induction n as [|n IH]; intros d; simpl; unfold mbind, st_bind;
    (assert (∀ b, (stmt q d).1 = Ok b → ∃ t, q t = (Ok b, tabs (stmt q d).2)) as Hs;
     [intros b; unfold stmt; destruct (env d (stmts d)); simpl; try done; destruct (q (tabs d)) as [r t] eqn:E; simpl;
      intros ->; eauto|]);
    destruct (stmt q d) as [[b|e] d1]; simpl in *; try by (intros [= <-]; apply Hs).
  - by destruct (isBusy e).
  - destruct (isBusy e); simpl; [|done]. by destruct (ctx_Err d1 (stmts d1)); [|apply IH].
Qed.

(** Splitting a list that is sorted by id. *)
Lemma after_all {A} (l : list (Z * A)) x : Forall (earlier x) l → List.filter (λ e, x.1 <? e.1) l = l.
Proof.
  induction 1 as [|y l Hy _ IH]; [done|]. simpl. unfold earlier in Hy. destruct (Z.ltb_spec x.1 y.1); [by rewrite IH|lia].
Qed.
Lemma after_app {A} (l1 l2 : list (Z * A)) x : StronglySorted earlier (l1 ++ x :: l2) →
  List.filter (λ e, x.1 <? e.1) (l1 ++ x :: l2) = l2.
Proof.
  induction l1 as [|y l1 IH]; simpl; intros [Hs Hy]%StronglySorted_inv.
  - destruct (Z.ltb_spec x.1 x.1); [lia|]. by apply after_all.
  - assert (earlier y x) as Hyx by (eapply Forall_forall; [done|set_solver]). unfold earlier in Hyx.
    destruct (Z.ltb_spec x.1 y.1); [lia|]. by apply IH.
Qed.
Lemma sorted_filter {A} (R : relation A) (p : A → bool) l : StronglySorted R l → StronglySorted R (List.filter p l).
Proof.
  induction 1 as [|x l Hl IH Hx]; simpl; [constructor|]. destruct (p x); [|done]. constructor; [done|].
  apply Forall_forall. intros y [Hy _]%list_elem_of_In%List.filter_In. by apply (proj1 (Forall_forall _ _) Hx), list_elem_of_In.
Qed.
Lemma sorted_trail t : StronglySorted earlier (audit_trail t).
Proof.
  unfold audit_trail. induction (by_id_sorted (tb_audit t)) as [|x l Hl IH Hx]; simpl; [constructor|].
  constructor; [done|]. apply Forall_fmap. eapply Forall_impl; [done|]. done.
Qed.
Lemma after_filter {A} (l : list (Z * A)) i j : i ≤ j →
  List.filter (λ e, j <? e.1) (List.filter (λ e, i <? e.1) l) = List.filter (λ e, j <? e.1) l.
Proof.
  intros Hij. induction l as [|x l IH]; [done|]. simpl. destruct (Z.ltb_spec i x.1); simpl; [by rewrite IH|].
  destruct (Z.ltb_spec j x.1); [lia|done].
Qed.
Lemma page_is_take t afterID limit : (sqlAuditPage afterID limit t).1 =
  Ok (take (Z.to_nat limit) (after_id afterID (audit_trail t))).
Proof.
  simpl. f_equal. unfold after_id, audit_trail. rewrite fmap_take. f_equal.
  induction (by_id (tb_audit t)) as [|x l IH]; [done|]. rewrite fmap_cons. cbn [List.filter fst].
  destruct (afterID <? x.1); rewrite ?fmap_cons, IH; done.
Qed.

(** The pages of the audit log are complete and do not overlap. A page holds
    at most a thousand entries, and the entries after the cursor are the page
    followed by the entries after its last id; an empty page means that there is
    none. So a client that passes the last id on reads every entry once, in the
    order in which they were recorded. *)
Theorem audit_pages afterID limit d page : (AuditEntries afterID limit d).1 = Ok page →
  Z.of_nat (length page) ≤ auditMaxLimit ∧
  after_id afterID (audit_trail (tabs d)) =
    page ++ match last page with Some e => after_id e.1 (audit_trail (tabs d)) | None => [] end.
Proof.
  intros Hp%read_ok; [|done]. pose proof (page_is_take (tabs d) afterID (page_limit limit)) as Hq.
  unfold sqlAuditPage, select in Hq. cbn [fst] in Hq. rewrite Hq in Hp. injection Hp as <-. clear Hq.
  pose proof (page_limit_range limit) as Hlim. set (rest := after_id afterID _). set (n := Z.to_nat _).
  split; [rewrite length_take; lia|].
  rewrite <- (take_drop n rest) at 1. f_equal.
  destruct (take n rest) as [|x l _] eqn:E using rev_ind.
  { destruct rest; [by rewrite drop_nil|]. assert (n ≠ 0%nat) as Hn by (unfold n; lia). by destruct n. }
  rewrite last_snoc. assert (rest = l ++ x :: drop n rest) as Hrest by (rewrite <- (take_drop n rest) at 1; rewrite E; by rewrite <- (assoc_L (++))).
  assert (x ∈ rest) as Hx by (rewrite Hrest; set_solver).
  apply list_elem_of_In, List.filter_In in Hx as [_ Hx%Z.ltb_lt].
  unfold after_id. rewrite <- (after_filter _ afterID x.1) by lia. fold (after_id afterID (audit_trail (tabs d))). fold rest.
  rewrite Hrest. rewrite after_app; [by rewrite <- Hrest|]. rewrite <- Hrest. apply sorted_filter, sorted_trail.
Qed.
(** The audit log is append-only. Whatever operations of the store are run
    and whatever the engine answers, the log before is a prefix of the log after;
    a successful [Record] appends its entry under a new, greatest id. *)
Theorem audit_append_only :
  (∀ os d, audit_trail (tabs d) `prefix_of` audit_trail (tabs (run_store os d).2)) ∧
  (∀ e d, good_env d → (Record_ e d).1 = None → ∃ id, Forall (λ x, x.1 < id) (audit_trail (tabs d)) ∧
     audit_trail (tabs (Record_ e d).2) = audit_trail (tabs d) ++ [(id, scanAudit (audit_row_of e))]).
Proof.
  split.
  - intros os d. destruct (run_store_kept os d) as [_ [l Hl]]. exists ((λ ir, (ir.1, scanAudit ir.2)) <$> l).
    unfold audit_trail. by rewrite Hl, fmap_app.
  - intros e d Hd. unfold Record_, mbind, st_bind.
    destruct (call_runs (sqlAuditInsert (audit_row_of e)) d) as [_ Hr]; [done..|].
    destruct (call _ d) as [[id|e'] d1]; simpl in *; [|done]. intros _. destruct Hr as [Heq|(? & ? & _)]; [|done].
    injection Heq as -> Ht. exists (next_rowid (tb_audit (tabs d))). rewrite Ht. unfold audit_trail. simpl.
    rewrite by_id_append, fmap_app. split; [|done]. apply Forall_fmap, Forall_forall.
    intros [i r] Hi%by_id_elem. apply next_rowid_above. eauto.
Qed.

(** * Round trips *)

(** What the columns keep of a record: whole seconds. *)
Definition stored_repo (r : Repo) : Repo :=
  mk_Repo (repo_ID r) (repo_OwnerID r) (repo_Name r) (repo_Ecosystem r) (repo_Quota r) (repo_Retention r)
    (from_unix (unix (repo_CreatedAt r))).
Definition stored_interval (i : Z) : Z := Z.quot i second * second.
Definition stored_remote (r : Remote) : Remote :=
  mk_Remote (rm_ID r) (rm_Name r) (rm_Ecosystem r) (rm_BaseURL r) (rm_Mode r) (rm_Enabled r)
    (stored_interval (rm_SyncInterval r)) (rm_Include r) (rm_ProxyURL r) (rm_Eviction r) (from_unix (unix (rm_CreatedAt r))).
Definition stored_time (t : Z) : Z := if is_zero_time t then 0 else from_unix (unix t).
Definition stored_job (j : SyncJob) : SyncJob :=
  mk_SyncJob (jb_ID j) (jb_RemoteID j) (jb_State j) (stored_interval (jb_Interval j)) (stored_time (jb_LastRunAt j))
    (jb_Cursor j) (from_unix (unix (jb_UpdatedAt j))).
Definition stored_meta (m : ObjectMeta) : ObjectMeta :=
  mk_ObjectMeta (om_Key m) (om_StorageKey m) (om_Size m) (om_ETag m) (om_ContentType m)
    (stored_time (om_LastModified m)) (stored_time (om_ExpiresAt m)).

Lemma interval_column i : in_int64 i → wrap64 (Z.quot i second * second) = stored_interval i.
Proof.
  intros Hi. unfold stored_interval. apply wrap64_small. unfold in_int64, min_int64, max_int64, second in *.
  Z.to_euclidean_division_equations. lia.
Qed.
Lemma time_column t : timeFromNull (nullTime t) = stored_time t.
Proof. unfold nullTime, stored_time. by destruct (is_zero_time t). Qed.
(** A list that joins unambiguously. *)
Definition include_ok (l : list string) : Prop := Forall (λ s, no_sep "," s = true) l ∧ l ≠ [""].
Lemma include_column l : include_ok l → splitInclude (joinInclude l) = l.
Proof.
  intros [Hl Hne]. unfold splitInclude, joinInclude. destruct l as [|s l]; [done|].
  rewrite split_concat by done.
  destruct (String.eqb_spec (String.concat "," (s :: l)) "") as [He|]; [|done].
  destruct l as [|s' l]; simpl in He; [subst s; done|].
  destruct s; discriminate.
Qed.
Lemma mode_column m : mode_of (mode_string m) = m.
Proof. by destruct m. Qed.
Lemma state_column s : state_of (state_string s) = s.
Proof. by destruct s. Qed.
Lemma eviction_column r : let c := evictionArgs r in evictionFromNull c.1 c.2 = r.
Proof. by destruct r as [[]|]. Qed.

Lemma repo_row_stored id r : scanRepo id (repo_row_of r) = stored_repo (repo_with_ID id r).
Proof. by destruct r as [? ? ? ? [] [] ?]. Qed.
Lemma remote_row_stored id r : in_int64 (rm_SyncInterval r) → include_ok (rm_Include r) →
  scanRemote id (remote_row_of r) = stored_remote (remote_with_ID id r).
Proof.
  intros Hi Hinc. unfold scanRemote, remote_row_of, stored_remote. simpl.
  by rewrite mode_column, interval_column, include_column, eviction_column.
Qed.
Lemma job_row_stored id j : in_int64 (jb_Interval j) → scanJob id (job_row_of j) = stored_job (job_with_ID id j).
Proof. intros Hi. unfold scanJob, job_row_of, stored_job. simpl. by rewrite state_column, interval_column, time_column. Qed.
Lemma meta_row_stored m : scanObjectMeta (om_Key m) (object_row_of m) = stored_meta m.
Proof. unfold scanObjectMeta, stored_meta. simpl. by rewrite !time_column. Qed.

(** A read in a state with the tables of [d] gives [v] or fails in the driver. *)
Definition reads_back {A} (m : St DB (res A)) (v : A) (d : DB) : Prop :=
  ∀ d', tabs d' = tabs d → (m d').1 = Ok v ∨ ∃ msg, (m d').1 = Err (Text msg).
Lemma read_back {A} (f : tables → sres A) what key v d : (∀ t e, f t = Err e → isBusy e = false) → f (tabs d) = Ok v →
  reads_back (x ← call (stmt (select f)); mret match x with Ok r => Ok r | Err e => Err (mapRead e what key) end) v d.
Proof.
  intros Hf Hv d' Hd. unfold mbind, st_bind. destruct (call_select f d' Hf) as [Hr|[e Hr]];
    destruct (call _ d') as [r d1]; simpl in *; subst r.
  - rewrite Hd, Hv. by left.
  - destruct e; simpl; right; by eexists.
Qed.
(** What a creation that succeeds has put in the table. *)
Lemma create_ok {A} (q : query Z) (f : Z → A) (post : sqlerr → error) d a :
  ((x ← call (stmt q); mret match x with Ok id => Ok (f id) | Err e => Err (post e) end) d).1 = Ok a →
  ∃ id t, a = f id ∧
    q t = (Ok id, tabs ((x ← call (stmt q); mret match x with Ok id => Ok (f id) | Err e => Err (post e) end) d).2).
Proof.
  unfold mbind, st_bind. destruct (call (stmt q) d) as [[id|e] d1] eqn:E; simpl; [|done]. intros [= <-].
  destruct (call_ok q d id) as [t Ht]; [by rewrite E|]. rewrite E in Ht. by exists id, t.
Qed.
Lemma write_ok {A} (q : query A) (post : sqlerr → error) d :
  ((x ← call (stmt q); mret match x with Err e => Some (post e) | Ok _ => None end) d).1 = None →
  ∃ a t, q t = (Ok a, tabs ((x ← call (stmt q); mret match x with Err e => Some (post e) | Ok _ => None end) d).2).
Proof.
  unfold mbind, st_bind. destruct (call (stmt q) d) as [[a|e] d1] eqn:E; simpl; [|done]. intros _.
  destruct (call_ok q d a) as [t Ht]; [by rewrite E|]. rewrite E in Ht. by exists a, t.
Qed.
Lemma find_unique {A} (col : A → string) (t : gmap Z A) i r : unique_col col t → t !! i = Some r →
  find_row (λ x, String.eqb (col x) (col r)) t = Some (i, r).
Proof.
  intros Hu Hi. destruct (find_row _ t) as [[j x]|] eqn:E.
  - apply find_row_Some in E as [Hj Hx%String.eqb_eq]. assert (j = i) as -> by (by eapply Hu). congruence.
  - eapply find_row_None in E; [|done]. by rewrite String.eqb_refl in E.
Qed.

(** Round trips. A repository, an upstream, a job or an index record that the
    store accepted reads back as it was given, with the fractions of a second of
    its times and intervals cut off, the repository also by its name; the mode,
    the state, the policy (none, or any numbers) and the list of includes survive
    their columns. The reads may only fail with an error of the driver. *)
Theorem records_roundtrip :
  (∀ r d r', (CreateRepo r d).1 = Ok r' →
     reads_back (Repo_ (repo_ID r')) (stored_repo r') (CreateRepo r d).2 ∧
     (schema (tabs d) → reads_back (RepoByName (repo_Name r)) (stored_repo r') (CreateRepo r d).2)) ∧
  (∀ r d r', in_int64 (rm_SyncInterval r) → include_ok (rm_Include r) → (CreateRemote r d).1 = Ok r' →
     reads_back (Remote_ (rm_ID r')) (stored_remote r') (CreateRemote r d).2) ∧
  (∀ j d j', in_int64 (jb_Interval j) → (CreateJob j d).1 = Ok j' →
     reads_back (Job (jb_ID j')) (stored_job j') (CreateJob j d).2) ∧
  (∀ m d, (PutObjectMeta_sql m d).1 = None →
     reads_back (ObjectMeta_sql (om_Key m)) (stored_meta m) (PutObjectMeta_sql m d).2).
Proof.
  split_and!.
  - intros r d r' Hr. pose proof (run_store_op_kept (SCreateRepo r) d) as [Hs _].
    assert (tabs (run_store_op (SCreateRepo r) d).2 = tabs (CreateRepo r d).2) as Hrun.
    { simpl. unfold mbind, st_bind. by destruct (CreateRepo r d). }
    rewrite Hrun in Hs. destruct (create_ok _ _ _ _ _ Hr) as (id & t & -> & Hq). revert Hq. fold (CreateRepo r d).
    unfold sqlRepoInsert. destruct (taken _ _ _ _); [done|]. destruct (tb_users t !! _); [|done]. intros [= <- Ht].
    assert (tb_repos (tabs (CreateRepo r d).2) !! next_rowid (tb_repos t) = Some (repo_row_of r)) as Hrow.
    { rewrite <- Ht. simpl. by rewrite lookup_insert_eq. }
    split; [|intros Hsch]; (apply read_back; [intros ??; apply row_busy|]).
    + simpl. rewrite Hrow. simpl. by rewrite repo_row_stored.
    + pose proof (find_unique rr_name _ _ _ (sc_repo_name _ (Hs Hsch)) Hrow) as Hf. simpl in Hf. simpl. rewrite Hf. simpl. by rewrite repo_row_stored.
  - intros r d r' Hi Hinc Hr. destruct (create_ok _ _ _ _ _ Hr) as (id & t & -> & Hq). revert Hq. fold (CreateRemote r d).
    unfold sqlRemoteInsert. destruct (taken _ _ _ _); [done|]. intros [= <- Ht].
    apply read_back; [intros ??; apply row_busy|]. rewrite <- Ht. simpl. rewrite lookup_insert_eq. simpl.
    by rewrite remote_row_stored.
  - intros j d j' Hi Hr. destruct (create_ok _ _ _ _ _ Hr) as (id & t & -> & Hq). revert Hq. fold (CreateJob j d).
    unfold sqlJobInsert. destruct (tb_remotes t !! _); [|done]. intros [= <- Ht].
    apply read_back; [intros ??; apply row_busy|]. rewrite <- Ht. simpl. rewrite lookup_insert_eq. simpl.
    by rewrite job_row_stored.
  - intros m d Hr. destruct (write_ok _ _ _ Hr) as (a & t & Hq). revert Hq. fold (PutObjectMeta_sql m d).
    intros [= _ Ht]. apply read_back; [intros ??; apply row_busy|]. rewrite <- Ht. simpl. rewrite lookup_insert_eq. simpl.
    by rewrite meta_row_stored.
Qed.

(** * Access records *)
Definition hit (a : ObjectAccess) : Z * Z := (unix (oa_LastAccess a), oa_Hits a).
Definition own (k : string * string) (rows : list ObjectAccess) : list ObjectAccess :=
  List.filter (λ a, bool_decide ((oa_Scope a, oa_Key a) = k)) rows.
(** The latest time and the sum of the hits. *)
Definition total (l : list (Z * Z)) : option (Z * Z) :=
  match l with [] => None | r :: l => Some (foldr Z.max r.1 l.*1, foldr Z.add r.2 l.*2) end.
Lemma total_merge r1 r2 l : total (r1 :: r2 :: l) = total ((Z.max r1.1 r2.1, r1.2 + r2.2) :: l).
Proof.
  cbn [total fst snd fmap list_fmap]. f_equal. f_equal.
  - generalize (l.*1). intros m. induction m as [|x m IH]; simpl in *; lia.
  - generalize (l.*2). intros m. induction m as [|x m IH]; simpl in *; lia.
Qed.
Lemma upsertAccess_total m rows k :
  foldl (λ m a, upsertAccess a m) m rows !! k = total (option_list (m !! k) ++ (hit <$> own k rows)).
Proof.
  revert m. induction rows as [|a rows IH]; intros m; simpl; [by destruct (m !! k) as [[]|]|]. rewrite IH.
  unfold upsertAccess. case_bool_decide as Hk.
  - rewrite Hk. destruct (m !! k) as [[last hits]|] eqn:E; rewrite lookup_insert_eq; [|done].
    symmetry. rewrite fmap_cons. exact (total_merge (last, hits) (hit a) (hit <$> own k rows)).
  - destruct (m !! (oa_Scope a, oa_Key a)) as [[last hits]|]; by rewrite lookup_insert_ne.
Qed.

(** A batch of accesses is merged as a whole or not at all, and wholly if it
    succeeds: every record then holds the latest of its times and the sum of its
    hits, those of the batch and those before it. So a time never goes back,
    whatever order the batches come in. *)
Theorem MergeAccess_merges rows d : good_env d →
  let d' := (MergeAccess rows d).2 in
  let merged := ∀ k, tb_access (tabs d') !! k =
    total (option_list (tb_access (tabs d) !! k) ++ (hit <$> own k rows)) in
  match (MergeAccess rows d).1 with None => merged | Some _ => merged ∨ tabs d' = tabs d end.
Proof.
  intros Hd. destruct rows as [|a rows].
  - simpl. intros k. by destruct (_ !! k) as [[]|].
  - unfold MergeAccess, mbind, st_bind. destruct (call_runs (sqlAccessMerge (a :: rows)) d) as [_ Hr]; [done..|].
    assert (∀ k, tb_access (sqlAccessMerge (a :: rows) (tabs d)).2 !! k =
      total (option_list (tb_access (tabs d) !! k) ++ (hit <$> own k (a :: rows)))) as Hm.
    { intros k. apply (upsertAccess_total (tb_access (tabs d)) (a :: rows)). }
    destruct (call _ d) as [r d1]. cbn [fst snd] in Hr. destruct Hr as [Heq|(e & -> & Ht)].
    + apply (f_equal fst) in Heq as Hok. apply (f_equal snd) in Heq. cbn [fst snd] in *. subst r. cbn [sqlAccessMerge fst snd mret st_ret].
      intros k. by rewrite Heq, Hm.
    + cbn [fst snd mret st_ret]. destruct Ht as [->|[-> _]]; [by right|by left].
Qed.

(** * LIKE *)
Definition is_special (c : ascii) : bool := Ascii.eqb c "%" || Ascii.eqb c "_" || Ascii.eqb c "!".
(** The escaping of [likePrefix], byte by byte. *)
Fixpoint escape (s : string) : string :=
  match s with
  | EmptyString => EmptyString
  | String c s => if is_special c then String "!" (String c (escape s)) else String c (escape s)
  end.
Lemma escape_app s t : escape (s +:+ t) = escape s +:+ escape t.
Proof. induction s as [|c s IH]; [done|]. simpl. destruct (is_special c); by rewrite IH. Qed.
Lemma in_byte_plain lo hi b : in_byte lo hi b = true → (127 < lo)%N → is_special b = false.
Proof.
  intros Hb Hlo. destruct (is_special b) eqn:E; [|done]. exfalso.
  apply (lead_not_ascii _ _ _) in Hb; [|done]. unfold is_special in E.
  rewrite !orb_true_iff, !Ascii.eqb_eq in E. by destruct E as [[->| ->]| ->].
Qed.
Lemma lead3_plain b0 b1 : lead3 b0 b1 = true → is_special b0 = false ∧ is_special b1 = false.
Proof.
  unfold lead3. rewrite !orb_true_iff, !andb_true_iff.
  intros [[[[H1 H2]|[H1 H2]]|[H1 H2]]|[H1 H2]]; split; (eapply in_byte_plain; [done|lia]).
Qed.
Lemma lead4_plain b0 b1 : lead4 b0 b1 = true → is_special b0 = false ∧ is_special b1 = false.
Proof.
  unfold lead4. rewrite !orb_true_iff, !andb_true_iff.
  intros [[[H1 H2]|[H1 H2]]|[H1 H2]]; split; (eapply in_byte_plain; [done|lia]).
Qed.
Lemma cont_plain b : cont b = true → is_special b = false.
Proof. intros H. eapply in_byte_plain; [done|lia]. Qed.
Lemma like_rune_single c : like_rune (String c "") = escape (String c "").
Proof. by destruct c as [[] [] [] [] [] [] [] []]. Qed.
Lemma like_rune_long c d r : like_rune (String c (String d r)) = String c (String d r).
Proof. unfold like_rune. simpl. by destruct (Ascii.eqb c "%"), (Ascii.eqb c "_"), (Ascii.eqb c "!"). Qed.
Lemma like_runes s : Forall (λ r, like_rune r = escape r) (runes s).
Proof.
  apply runes_forall; [intros; apply like_rune_single|done|intros b0 b1 H0 H1|intros b0 b1 b2 H0 H2|intros b0 b1 b2 b3 H0 H2 H3];
    rewrite like_rune_long; simpl.
  - by rewrite (in_byte_plain _ _ _ H0 ltac:(lia)), (cont_plain _ H1).
  - destruct (lead3_plain _ _ H0) as [-> ->]. by rewrite (cont_plain _ H2).
  - destruct (lead4_plain _ _ H0) as [-> ->]. by rewrite (cont_plain _ H2), (cont_plain _ H3).
Qed.
(** A string that is valid UTF-8 is the concatenation of its runes. *)
Definition utf8 (s : string) : Prop := String.concat "" (runes s) = s.
Lemma likePrefix_escape p : utf8 p → likePrefix p = escape p +:+ "%".
Proof.
  unfold utf8. intros Hp. unfold likePrefix. f_equal. trans (escape (String.concat "" (runes p))); [|by rewrite Hp]. clear Hp.
  induction (like_runes p) as [|r l Hr _ IH]; [done|].
  cbn [map]. by rewrite !concat_empty_cons, escape_app, Hr, IH.
Qed.

Definition eq_fold (c d : ascii) : bool := Ascii.eqb (lower_byte c) (lower_byte d).
Lemma like_escaped fuel c p s : like (S fuel) (escape (String c "") +:+ p) s =
  match s with String d s => eq_fold c d && like fuel p s | _ => false end.
Proof. by destruct c as [[] [] [] [] [] [] [] []]. Qed.
Lemma like_rest fuel s : (S (String.length s) < fuel)%nat → like fuel "%" s = true.
Proof.
  revert s. induction fuel as [|fuel IH]; intros s Hs; [lia|]. destruct s as [|c s]; simpl in *.
  - by destruct fuel; [lia|].
  - rewrite IH by lia. apply orb_true_r.
Qed.
Lemma length_escape c s : (String.length (escape (String c s)) > String.length (escape s))%nat.
Proof. simpl. destruct (is_special c); simpl; lia. Qed.
Lemma like_prefix p s fuel : (S (String.length (escape p) + String.length s) < fuel)%nat →
  like fuel (escape p +:+ "%") s = has_prefix (to_lower s) (to_lower p).
Proof.
  revert s fuel. induction p as [|c p IH]; intros s fuel Hf.
  { rewrite like_rest by (simpl in Hf; lia). symmetry. apply has_prefix_spec. by exists (to_lower s). }
  destruct fuel as [|fuel]; [lia|]. pose proof (length_escape c p) as Hl.
  change (String c p) with (String c "" +:+ p). rewrite escape_app, <- app_assoc, like_escaped.
  destruct s as [|d s]; [done|]. rewrite IH by (simpl in *; lia). unfold eq_fold, has_prefix. simpl.
  by destruct (Ascii.eqb (lower_byte c) (lower_byte d)).
Qed.
(** The pattern matches the keys that have the prefix up to the case of ASCII
    letters. *)
Lemma likePrefix_matches p s : utf8 p → matches (likePrefix p) s = has_prefix (to_lower s) (to_lower p).
Proof.
  intros Hp. unfold matches. rewrite likePrefix_escape by done. apply like_prefix. rewrite length_app_str. simpl. lia.
Qed.

Lemma access_keys t scope key :
  key ∈ (snd <$> List.filter (λ sk, String.eqb sk.1 scope) (map_to_list (tb_access t)).*1) ↔ is_Some (tb_access t !! (scope, key)).
Proof.
  rewrite list_elem_of_fmap. split.
  - intros ([sc k] & -> & [Hin Hsc%String.eqb_eq]%list_elem_of_In%List.filter_In). simpl in Hsc. subst sc.
    apply list_elem_of_In, list_elem_of_fmap in Hin as ([? r] & [= <-] & Hr%elem_of_map_to_list). eauto.
  - intros [r Hr%elem_of_map_to_list]. exists (scope, key). split; [done|].
    apply list_elem_of_In, List.filter_In. split; [|apply String.eqb_refl].
    by apply list_elem_of_In, (list_elem_of_fmap_2 fst _ ((scope, key), r)).
Qed.
Lemma access_keys_nodup t scope :
  NoDup (snd <$> List.filter (λ sk, String.eqb sk.1 scope) (map_to_list (tb_access t)).*1).
Proof.
  apply NoDup_fmap_2_strong.
  - intros [s1 k1] [s2 k2] [_ H1%String.eqb_eq]%list_elem_of_In%List.filter_In [_ H2%String.eqb_eq]%list_elem_of_In%List.filter_In.
    simpl in *. congruence.
  - apply NoDup_List_filter, NoDup_fst_map_to_list.
Qed.
Lemma omap_keys t scope keys : Forall (λ k, is_Some (tb_access t !! (scope, k))) keys →
  oa_Key <$> omap (λ k, scanAccess scope k <$> tb_access t !! (scope, k)) keys = keys.
Proof.
  induction 1 as [|k keys [r Hr] _ IH]; [done|]. simpl. rewrite Hr. simpl. f_equal. exact IH.
Qed.

(** What a read by prefix gives, when the engine answers: the records of the
    scope whose key has the prefix up to the case of ASCII letters, each once and
    in the order of the keys. The characters that LIKE would interpret ([%], [_]
    and the escape itself) stand for themselves. *)
Theorem AccessByPrefix_reads scope prefix d l : utf8 prefix → (AccessByPrefix scope prefix d).1 = Ok l →
  StronglySorted str_le (oa_Key <$> l) ∧ NoDup (oa_Key <$> l) ∧
  ∀ a, a ∈ l ↔ ∃ key r, tb_access (tabs d) !! (scope, key) = Some r ∧ a = scanAccess scope key r ∧
                 has_prefix (to_lower key) (to_lower prefix) = true.
Proof.
  intros Hp. unfold AccessByPrefix, mbind, st_bind, sqlAccessByPrefix.
  match goal with |- context [stmt (select ?f) d] => destruct (stmt_select f d) as [_ [Hr|[e Hr]]] end;
    destruct (stmt _ d) as [r d1]; cbn [fst] in *; subst r; [|destruct e; done].
  set (keys := List.filter _ _). intros [= <-].
  assert (∀ k, k ∈ keys ↔ is_Some (tb_access (tabs d) !! (scope, k)) ∧ has_prefix (to_lower k) (to_lower prefix) = true) as Hkeys.
  { intros k. unfold keys. rewrite list_elem_of_In, List.filter_In, <- list_elem_of_In, merge_sort_Permutation, access_keys.
    by rewrite likePrefix_matches. }
  rewrite omap_keys by (apply Forall_forall; intros k [? _]%Hkeys; done). split_and!.
  - apply sorted_filter, StronglySorted_merge_sort; apply _.
  - apply NoDup_List_filter. rewrite merge_sort_Permutation. apply access_keys_nodup.
  - intros a. rewrite list_elem_of_omap. split.
    + intros (k & [_ Hpre]%Hkeys & Ha). destruct (_ !! _) as [r|] eqn:E; [|done]. injection Ha as <-. eauto.
    + intros (k & r & Hr & -> & Hpre). exists k. rewrite Hkeys, Hr. eauto.
Qed.

(** * Concrete runs *)
Definition quiet (t : tables) : DB := mk_DB (λ _, Runs) (λ _, None) 0 t.
Definition demo_user : User := mk_User 0 "alice" "hash" RoleUser 1 (from_unix 1700000000).
Definition demo_repo : Repo := mk_Repo 0 1 "tools" "apt" (mk_Quota 0 0) (mk_Retention 2 30) (from_unix 1700000000 + 5).
Definition demo_remote : Remote :=
  mk_Remote 0 "debian" "apt" "https://deb.debian.org" ModeMirror true (90 * second + 7) ["stable"; "testing/main"] ""
    (Some (mk_Retention 0 0)) (from_unix 1700000000).
Definition with_user : DB := (CreateUser_sql demo_user (quiet empty_tables)).2.
Definition with_accesses : DB := (MergeAccess [mk_ObjectAccess "cache" "pool/a" (from_unix 10) 1;
  mk_ObjectAccess "cache" "Pool/a" (from_unix 20) 2; mk_ObjectAccess "cache" "pool/a" (from_unix 5) 3] (quiet empty_tables)).2.

(** The prefix reads the record of a key that does not have it. *)
Lemma AccessByPrefix_folds_case :
  has_prefix "Pool/a" "pool/" = false ∧
  (AccessByPrefix "cache" "pool/" with_accesses).1 =
    Ok [mk_ObjectAccess "cache" "Pool/a" (from_unix 20) 2; mk_ObjectAccess "cache" "pool/a" (from_unix 10) 4].
Proof. split; by vm_compute. Qed.

Lemma audit_pages_witness :
  let d := quiet (set_audit_tab {[1 := mk_audit_row 10 "a" "login" "" "ok" ""; 2 := mk_audit_row 11 "b" "login" "" "ok" ""]} empty_tables) in
  (AuditEntries 0 1 d).1 = Ok [(1, mk_AuditEntry (from_unix 10) "a" "login" "" "ok" "")] ∧
  Z.of_nat 1 ≤ auditMaxLimit.
Proof.
  intros d. split; [by vm_compute|].
  exact (proj1 (audit_pages 0 1 d [(1, mk_AuditEntry (from_unix 10) "a" "login" "" "ok" "")] ltac:(by vm_compute))).
Defined.
Lemma audit_append_only_witness :
  ∃ id, audit_trail (tabs (Record_ (mk_AuditEntry (from_unix 10) "a" "login" "" "ok" "") (quiet empty_tables)).2) =
    [(id, mk_AuditEntry (from_unix 10) "a" "login" "" "ok" "")].
Proof.
  destruct (proj2 audit_append_only (mk_AuditEntry (from_unix 10) "a" "login" "" "ok" "") (quiet empty_tables))
    as (id & _ & Heq); [done|by vm_compute|]. exists id. rewrite Heq. by vm_compute.
Defined.
Lemma records_roundtrip_witness :
  reads_back (Repo_ 1) (stored_repo (repo_with_ID 1 demo_repo)) (CreateRepo demo_repo with_user).2 ∧
  reads_back (Remote_ 1) (stored_remote (remote_with_ID 1 demo_remote)) (CreateRemote demo_remote with_user).2.
Proof.
  split.
  - apply (proj1 records_roundtrip demo_repo with_user (repo_with_ID 1 demo_repo)). by vm_compute.
  - apply (proj1 (proj2 records_roundtrip) demo_remote with_user (remote_with_ID 1 demo_remote)); [by vm_compute| |by vm_compute].
    split; [by repeat constructor|done].
Defined.
Lemma MergeAccess_merges_witness :
  tb_access (tabs with_accesses) !! ("cache", "pool/a") = Some (10, 4).
Proof.
  pose proof (MergeAccess_merges [mk_ObjectAccess "cache" "pool/a" (from_unix 10) 1;
    mk_ObjectAccess "cache" "Pool/a" (from_unix 20) 2; mk_ObjectAccess "cache" "pool/a" (from_unix 5) 3] (quiet empty_tables)
    ltac:(intros ??; done)) as H. unfold with_accesses. simpl in H. rewrite H. by vm_compute.
Defined.
Lemma AccessByPrefix_reads_witness :
  StronglySorted str_le (oa_Key <$> [mk_ObjectAccess "cache" "Pool/a" (from_unix 20) 2; mk_ObjectAccess "cache" "pool/a" (from_unix 10) 4]).
Proof. apply (AccessByPrefix_reads "cache" "pool/" with_accesses); [by vm_compute|]. by vm_compute. Defined.
