(* ===== verification/SqliteIndex.v ===== *)
(** The index of mutable objects in SQLite (internal/mod/db/sqlite/catalog.go) as an
    index of the cache engine: whatever the engine of the database answers,
    busy errors and their retries included, the [object_meta] table keeps the
    contract [ObjectIndexLaws]. An upsert whose answer is lost has taken place;
    [lost_answer_dooms_live_bytes] shows what the cache engine makes of it. *)
From S2P Require Import Prelude GoStr Domain Port CacheEngine Catalog Sqlite SqliteLaws SqliteCatalog SqliteSchema.
Local Open Scope Z_scope.

(** * A relation on the tables that every call keeps *)
Section call.
  Context {A : Type} (q : query A) (P : tables → sres A → tables → Prop).
  Hypothesis P_runs : ∀ t, P t (q t).1 (q t).2.
  Hypothesis P_fails : ∀ t e, P t (Err e) t.
  Hypothesis P_lost : ∀ t e, P t (Err e) (q t).2.
  Hypothesis P_retry : ∀ t e t1 r t2, P t (Err e) t1 → P t1 r t2 → P t r t2.
  Hypothesis P_error : ∀ t e e' t1, P t (Err e) t1 → P t (Err e') t1.
Lemma call_any d : P (tabs d) (call (stmt q) d).1 (tabs (call (stmt q) d).2).
Proof.
  assert (∀ d, P (tabs d) (stmt q d).1 (tabs (stmt q d).2)) as Hstmt.
  { intros d'. unfold stmt. pose proof (P_runs (tabs d')).
    destruct (env d' (stmts d')); [by destruct (q (tabs d'))|apply P_fails|apply P_lost]. }
  unfold call. generalize busyRetries as n. intros n. revert d.
  induction n as [|n IH]; intros d; simpl; unfold mbind, st_bind; specialize (Hstmt d);
    destruct (stmt q d) as [r d1]; simpl in *; destruct r as [a|e]; try done; destruct (isBusy e); try done.
  simpl. destruct (ctx_Err d1 (stmts d1)); [by eapply P_error|by eapply P_retry].
Qed.
End call.

(** A read leaves the tables and yields what they hold. *)
Lemma call_read_any {A} (f : tables → sres A) d :
  tabs (call (stmt (select f)) d).2 = tabs d ∧
  ∀ a, (call (stmt (select f)) d).1 = Ok a → f (tabs d) = Ok a.
Proof.
  apply (call_any (select f) (λ t r t', t' = t ∧ ∀ a, r = Ok a → f t = Ok a)); simpl.
  - done.
  - intros t e. split; [done|by intros ? [=]].
  - intros t e. split; [done|by intros ? [=]].
  - by intros t e t1 r t2 [-> _] [-> Hr].
  - intros t e e' t1 [-> _]. split; [done|by intros ? [=]].
Qed.
(** A write that may be repeated has taken place once it reports no error, and
    otherwise it has or it has not. *)
Lemma call_write_any (f : tables → tables) d : (∀ t, f (f t) = f t) →
  let q : query unit := λ t, (Ok tt, f t) in
  (tabs (call (stmt q) d).2 = tabs d ∨ tabs (call (stmt q) d).2 = f (tabs d)) ∧
  (is_ok (call (stmt q) d).1 = true → tabs (call (stmt q) d).2 = f (tabs d)).
Proof.
  intros Hf q. apply (call_any q (λ t r t', (t' = t ∨ t' = f t) ∧ (is_ok r = true → t' = f t)));
    simpl.
  - auto.
  - intros t e. split; [by left|done].
  - intros t e. split; [by right|done].
  - intros t e t1 r t2 [[->| ->] _] [H1 H2]; [done|]. rewrite Hf in *. split; [right; by destruct H1|done].
  - intros t e e' t1 [H1 _]. by split.
Qed.

(** * The instance *)
#[export] Instance DB_ObjectIndex : ObjectIndex DB := {
  ObjectMeta_of := ObjectMeta_sql;
  PutObjectMeta := PutObjectMeta_sql;
  DeleteObjectMeta := DeleteObjectMeta_sql;
  AllObjectMeta := r ← ForEachObjectMeta_sql;
    mret match r with Ok ms => (ms, None) | Err e => ([], Some e) end
}.
Definition meta_table (t : tables) : gmap string ObjectMeta := map_imap (λ k r, Some (scanObjectMeta k r)) (tb_objects t).
Lemma meta_table_lookup t k : meta_table t !! k = scanObjectMeta k <$> tb_objects t !! k.
Proof. unfold meta_table. rewrite map_lookup_imap. by destruct (tb_objects t !! k). Qed.
Lemma meta_table_put m t :
  meta_table (set_objects_tab (<[om_Key m := object_row_of m]> (tb_objects t)) t) = <[om_Key m := stored_meta m]> (meta_table t).
Proof.
  apply map_eq. intros k. rewrite meta_table_lookup. simpl. destruct (decide (om_Key m = k)) as [<-|Hne].
  - rewrite !lookup_insert_eq. simpl. by rewrite meta_row_stored.
  - rewrite !lookup_insert_ne by done. by rewrite meta_table_lookup.
Qed.
Lemma meta_table_delete k t :
  meta_table (set_objects_tab (delete k (tb_objects t)) t) = delete k (meta_table t).
Proof.
  apply map_eq. intros k'. rewrite meta_table_lookup. simpl. destruct (decide (k = k')) as [<-|Hne].
  - by rewrite !lookup_delete_eq.
  - rewrite !lookup_delete_ne by done. by rewrite meta_table_lookup.
Qed.

Lemma Put_sql_tables m d :
  (tabs (PutObjectMeta_sql m d).2 = tabs d ∨ tabs (PutObjectMeta_sql m d).2 = (upsertObjectMeta m (tabs d)).2) ∧
  ((PutObjectMeta_sql m d).1 = None → tabs (PutObjectMeta_sql m d).2 = (upsertObjectMeta m (tabs d)).2).
Proof.
  destruct (call_write_any (λ t, (upsertObjectMeta m t).2) d) as [Hor Hok].
  { intros t. unfold upsertObjectMeta, set_objects_tab. simpl. by rewrite insert_insert_eq. }
  unfold PutObjectMeta_sql, mbind, st_bind.
  change (λ t, (Ok tt, (upsertObjectMeta m t).2)) with (upsertObjectMeta m) in *.
  destruct (call (stmt (upsertObjectMeta m)) d) as [[[]|e] d']; simpl in *; split; auto. done.
Qed.
Lemma Delete_sql_tables k d :
  (tabs (DeleteObjectMeta_sql k d).2 = tabs d ∨ tabs (DeleteObjectMeta_sql k d).2 = (sqlObjMetaDelete k (tabs d)).2) ∧
  ((DeleteObjectMeta_sql k d).1 = None → tabs (DeleteObjectMeta_sql k d).2 = (sqlObjMetaDelete k (tabs d)).2).
Proof.
  destruct (call_write_any (λ t, (sqlObjMetaDelete k t).2) d) as [Hor Hok].
  { intros t. unfold sqlObjMetaDelete, set_objects_tab. simpl. by rewrite delete_delete_eq. }
  unfold DeleteObjectMeta_sql, mbind, st_bind.
  change (λ t, (Ok tt, (sqlObjMetaDelete k t).2)) with (sqlObjMetaDelete k) in *.
  destruct (call (stmt (sqlObjMetaDelete k)) d) as [[[]|e] d']; simpl in *; split; auto. done.
Qed.

Lemma All_sql (d : DB) : (AllObjectMeta d).1 =
  match (call (stmt sqlObjMetaAll) d).1 with Ok ms => (ms, None) | Err e => ([], Some (as_error e)) end.
Proof.
  simpl. unfold ForEachObjectMeta_sql, mbind, st_bind. destruct (call (stmt sqlObjMetaAll) d) as [[|] d']; reflexivity.
Qed.
Lemma All_rows d ms : (call (stmt sqlObjMetaAll) d).1 = Ok ms →
  (∀ k m, meta_table (tabs d) !! k = Some m → m ∈ ms) ∧ (∀ m, m ∈ ms → ∃ k, meta_table (tabs d) !! k = Some m).
Proof.
  intros Hms.
  destruct (call_read_any (λ t, Ok (omap (λ k, scanObjectMeta k <$> tb_objects t !! k) (sorted_keys (tb_objects t)))) d) as [_ Hr].
  fold sqlObjMetaAll in Hr. specialize (Hr ms Hms) as [= <-]. split.
  - intros k m. rewrite meta_table_lookup. intros Hk. apply list_elem_of_omap. exists k. split; [|done].
    apply sorted_keys_elem. destruct (tb_objects (tabs d) !! k); [eauto|done].
  - intros m (k & _ & Hk)%list_elem_of_omap. exists k. by rewrite meta_table_lookup.
Qed.

#[export] Instance DB_index_laws : ObjectIndexLaws DB.
Proof.
  refine {| indexed d := meta_table (tabs d); stored := stored_meta |}; [done..| | | | | | | | |].
  - intros k d. cbn -[ObjectMeta_sql]. unfold ObjectMeta_sql, mbind, st_bind.
    destruct (call_read_any (λ t, row (scanObjectMeta k <$> tb_objects t !! k)) d) as [Ht _].
    fold (sqlObjMetaGet k) in Ht. destruct (call (stmt (sqlObjMetaGet k)) d). simpl in *. by rewrite Ht.
  - intros k d m. cbn -[ObjectMeta_sql]. unfold ObjectMeta_sql, mbind, st_bind.
    destruct (call_read_any (λ t, row (scanObjectMeta k <$> tb_objects t !! k)) d) as [_ Hr].
    fold (sqlObjMetaGet k) in Hr. rewrite meta_table_lookup.
    destruct (call (stmt (sqlObjMetaGet k)) d) as [[o|] d']; simpl in *; [|done]. intros [= <-].
    specialize (Hr o eq_refl). destruct (scanObjectMeta k <$> tb_objects (tabs d) !! k); simpl in Hr; congruence.
  - intros m d Hn. cbn -[PutObjectMeta_sql] in *. destruct (Put_sql_tables m d) as [_ Hp]. rewrite Hp by done.
    apply meta_table_put.
  - intros m d. cbn -[PutObjectMeta_sql] in *. destruct (Put_sql_tables m d) as [[->| ->] _]; [by left|right].
    apply meta_table_put.
  - intros k d Hn. cbn -[DeleteObjectMeta_sql] in *. destruct (Delete_sql_tables k d) as [_ Hp]. rewrite Hp by done.
    apply meta_table_delete.
  - intros k d. cbn -[DeleteObjectMeta_sql] in *. destruct (Delete_sql_tables k d) as [[->| ->] _]; [by left|right].
    apply meta_table_delete.
  - intros d. cbn -[ForEachObjectMeta_sql]. unfold mbind, st_bind, ForEachObjectMeta_sql, mbind, st_bind.
    destruct (call_read_any (λ t, Ok (omap (λ k, scanObjectMeta k <$> tb_objects t !! k) (sorted_keys (tb_objects t)))) d) as [Ht _].
    fold sqlObjMetaAll in Ht. destruct (call (stmt sqlObjMetaAll) d) as [[|] d']; simpl in *; by rewrite Ht.
  - intros d m. rewrite All_sql. destruct (call (stmt sqlObjMetaAll) d) as [[ms|e] d'] eqn:Ec; simpl; [|by intros ?%elem_of_nil].
    intros Hm. destruct (All_rows d ms) as [_ Hrows]; [by rewrite Ec|]. apply Hrows in Hm as (k & Hk). by exists k.
  - intros d k m. rewrite All_sql. destruct (call (stmt sqlObjMetaAll) d) as [[ms|e] d'] eqn:Ec; simpl; [|done].
    intros _ Hk. destruct (All_rows d ms) as [Hrows _]; [by rewrite Ec|]. by eapply Hrows.
Defined.

(** * A lost answer

    The upsert of the new version commits and its answer is lost. The engine
    takes the record for refused and deletes the bytes of the version that the
    index names now; until the record expires, requests for the object fail. *)
Module SqliteIndexDemo.
Import Demo.
Definition clock_2023 (n : nat) : Z := from_unix 1700000000 + Z.of_nat n.
Definition expired_row : object_row := mk_object_row "" "v0" 3 "" None (Some 1600000000).
(* the two reads of the index in a request run, the upsert loses its answer *)
Definition flaky : DB :=
  mk_DB (λ n, if (n =? 2)%nat then Lost (Other "connection lost") else Runs) (λ _, None) 0
    (set_objects_tab (<["cache/k" := expired_row]> ∅) empty_tables).
Definition hourly : Ecosystem :=
  mk_Ecosystem "apt" (λ _, Some (target "u/200" "abc")) (λ _, Ok (Mutable hour)).
Definition fetch_sql := Cache.fetch (S := FakeStorage) (I := Watched DB) http_Do clock_2023 hash_hex format_time
  parse_time no_error text first_key cfg 7 hourly "/apt/p".
Definition failed := fetch_sql (Cache.New storage1 (mk_Watched flaky []) O).
Definition swept := (Cache.deleteOnce 0 failed.2).2.
Definition index_of (e : Cache.Engine (S := FakeStorage) (I := Watched DB) (H := nat)) : gmap string ObjectMeta := indexed (watched (Cache.index e)).

Theorem lost_answer_dooms_live_bytes :
  failed.1.2 = Some (Text "connection lost") ∧
  BytesKey <$> index_of failed.2 !! "cache/k" = Some "cache/k-v71" ∧
  contents (Cache.storage failed.2) !! "cache/k-v71" = Some "abc" ∧
  Cache.deletes failed.2 = ["cache/k-v71"] ∧ lost_answers (Cache.index failed.2) = ["cache/k-v71"] ∧
  BytesKey <$> index_of swept !! "cache/k" = Some "cache/k-v71" ∧
  contents (Cache.storage swept) !! "cache/k-v71" = None ∧
  (fetch_sql swept).1.2 = Some (NotFoundError "объект" "cache/k-v71").
Proof. vm_compute. done. Qed.
End SqliteIndexDemo.
