(* ===== verification/Auth.v ===== *)
(** Authentication (internal/core/engine/auth/auth.go): accounts and their
    passwords, sessions (signed tokens with a version and an id that can be
    revoked) and scoped API tokens.

    The service is a state: the catalogue (Catalog), the in-memory tables, the
    audit trail, and how often the clock and the source of random ids were read. bcrypt, the signing library, SHA-256 and the random ids are
    parameters; what the theorems rely on is stated as hypotheses about them.
    Every operation is one atomic action here; the trail is written by a call
    whose errors the code ignores, so it is a list. *)
From S2P Require Import Prelude GoStr Domain Port Catalog.
Local Open Scope Z_scope.

Definition maxBcryptPassword : Z := 72.
Definition minPasswordLen : Z := 8.
Definition minBcryptCost : Z := 4.
Definition maxBcryptCost : Z := 15.
Definition maxRevokedMemory : Z := 10000.
Definition maxTouchMemory : Z := 10000.

(** The claims of a session, and what a parsed token holds of them (a claim may
    be absent or have another type). *)
Record Claims := mk_Claims { c_sub : string; c_jti : string; c_ver : Z; c_iat : Z; c_exp : Z }.
Record Parsed := mk_Parsed { p_sub : option string; p_ver : option Z; p_jti : option string }.

(** A JSON number is read as a [float64], and [int64(ver)] converts it back:
    the nearest integer of 53 significant bits, half to even. *)
Definition float64_int (z : Z) : Z :=
  let e := Z.log2 (Z.abs z) - 52 in
  if e <=? 0 then z
  else
    let q := z / 2 ^ e in
    let r := z mod 2 ^ e in
    let up := (2 ^ (e - 1) <? r) || (r =? 2 ^ (e - 1)) && Z.odd q in
    let z' := (if up then q + 1 else q) * 2 ^ e in
    if z' <=? max_int64 then z' else min_int64.
Definition parsed (c : Claims) : Parsed :=
  mk_Parsed (Some (c_sub c)) (Some (float64_int (c_ver c))) (Some (c_jti c)).

Record Session := mk_Session { ss_User : User; ss_JTI : string }.

Definition forbidden (reason : string) : error := ForbiddenError reason.
Definition bad_session : error := forbidden "недействительная сессия".
Definition revoked_session : error := forbidden "отозванная сессия".
Definition bad_credentials : error := forbidden "неверные учётные данные".
Definition bad_token : error := forbidden "недействительный API-токен".

(** [authStoreError]: a missing row is a refusal, any other failure makes the
    catalogue unavailable. *)
Definition authStoreError (e : error) (what reason : string) : error :=
  if has_type is_NotFound e then ForbiddenError reason
  else UnavailableError what "сбой каталога" (Some e).

Definition remove_dashes (s : string) : string := String.concat "" (split "-" s).

(** [New]: the effective cost, if the configuration is complete ([0] is
    bcrypt's default). *)
Definition New_cost (default_cost cost : Z) : option Z :=
  let cost := if cost =? 0 then default_cost else cost in
  if (cost <? minBcryptCost) || (maxBcryptCost <? cost) then None else Some cost.

Section auth.
  Context {D : Type} `{UserStore D} `{TokenStore D} `{Revocations D}.
  Context (clock : nat → Z) (UUID4 : nat → res string).
  Context (bcrypt_Generate : nat → string → option string) (bcrypt_Compare : string → string → bool).
  Context (jwt_sign : Claims → string → res string) (jwt_parse : string → string → Z → option Parsed).
  Context (HashToken : string → string).
  Context (any_key : gmap string Z → option string).
  (** The configuration. *)
  Context (JWTSecret : string) (SessionTTL TouchInterval : Z).

Record Service := mk_Service {
  catalog : D;
  revoked : gmap string Z;
  lastTouch : gmap Z Z;
  audit_log : list AuditEntry;
  ticks : nat; rands : nat
}.
Abbreviation M := (St Service).
Definition set_revoked (m : gmap string Z) (s : Service) : Service :=
  mk_Service (catalog s) m (lastTouch s) (audit_log s) (ticks s) (rands s).
Definition set_lastTouch (m : gmap Z Z) (s : Service) : Service :=
  mk_Service (catalog s) (revoked s) m (audit_log s) (ticks s) (rands s).
Definition on_catalog {A} : St D A → M A := zoom catalog (λ d s,
  mk_Service d (revoked s) (lastTouch s) (audit_log s) (ticks s) (rands s)).
Definition now : M Z := λ s, (clock (ticks s),
  mk_Service (catalog s) (revoked s) (lastTouch s) (audit_log s) (Datatypes.S (ticks s)) (rands s)).
Definition fresh : M nat := λ s, (rands s,
  mk_Service (catalog s) (revoked s) (lastTouch s) (audit_log s) (ticks s) (Datatypes.S (rands s))).
Definition uuid : M (res string) := n ← fresh; mret (UUID4 n).

Definition audit (actor action object result detail : string) : M unit :=
  t ← now;
  st_mod (λ s, mk_Service (catalog s) (revoked s) (lastTouch s)
    (audit_log s ++ [mk_AuditEntry t actor action object result detail]) (ticks s) (rands s)).

(** ** Accounts *)
Definition hashPassword (password : string) : M (res string) :=
  if len password <? minPasswordLen
  then mret (Err (ValidationError "пароль" (fmt_int (len password)) ("короче " +:+ fmt_int minPasswordLen +:+ " байт")))
  else if maxBcryptPassword <? len password
  then mret (Err (TooLargeError (len password) maxBcryptPassword))
  else
    n ← fresh;
    mret match bcrypt_Generate n password with
         | Some hash => Ok hash
         | None => Err (TooLargeError (len password) maxBcryptPassword)
         end.

(** A refused user name is an error of [ValidateUsername]. *)
Definition CreateUser (username password role : string) : M (res User) :=
  match ValidateUsername username with
  | Some e => mret (Err e)
  | None =>
      h ← hashPassword password;
      match h with
      | Err e => mret (Err e)
      | Ok hash =>
          t ← now;
          u ← on_catalog (CreateUser_in (mk_User 0 username hash role 1 t));
          match u with
          | Ok u => audit username "user.create" ("user:" +:+ username) AuditOK "";; mret (Ok u)
          | Err e => mret (Err e)
          end
      end
  end.
Definition EnsureFirstAdmin (username password : string) : M (res (User * bool)) :=
  match ValidateUsername username with
  | Some e => mret (Err e)
  | None =>
      h ← hashPassword password;
      match h with
      | Err e => mret (Err e)
      | Ok hash =>
          t ← now;
          r ← on_catalog (EnsureFirstUser (mk_User 0 username hash RoleAdmin 1 t));
          match r with
          | Ok (u, true) => audit username "setup" ("user:" +:+ username) AuditOK "";; mret (Ok (u, true))
          | _ => mret r
          end
      end
  end.

Definition VerifyPassword (username password : string) : M (res User) :=
  r ← on_catalog (UserByUsername username);
  mret match r with
       | Err e =>
           if has_type is_NotFound e then Err bad_credentials
           else Err (UnavailableError "каталог" "чтение пользователя" (Some e))
       | Ok u =>
           if negb (bcrypt_Compare (u_PasswordHash u) password) then Err bad_credentials
           else if maxBcryptPassword <? len password then Err (TooLargeError (len password) maxBcryptPassword)
           else Ok u
       end.

(** ** Sessions *)
Definition session_claims (u : User) (jti : string) (t : Z) : Claims :=
  mk_Claims (fmt_int (u_ID u)) jti (u_TokenVersion u) (unix t) (unix (t + SessionTTL)).
Definition IssueSession (u : User) : M (res string) :=
  j ← uuid;
  match j with
  | Err e => mret (Err e)
  | Ok jti => t ← now; mret (jwt_sign (session_claims u jti t) JWTSecret)
  end.

Definition Login (username password : string) : M (res string) :=
  r ← VerifyPassword username password;
  match r with
  | Err e =>
      let detail := if has_type is_Unavailable e then "catalog_unavailable" else "invalid_credentials" in
      audit username "auth.login" ("user:" +:+ username) AuditError detail;;
      mret (Err e)
  | Ok u =>
      tok ← IssueSession u;
      match tok with
      | Err e => audit username "auth.login" ("user:" +:+ username) AuditError "session_issue";; mret (Err e)
      | Ok raw => audit username "auth.login" ("user:" +:+ username) AuditOK "";; mret (Ok raw)
      end
  end.

(** [revokedInMemory] reads the clock only when the id is in the table. *)
Definition revokedInMemory (jti : string) : M bool :=
  u ← st_gets (λ s, revoked s !! jti);
  match u with
  | None => mret false
  | Some until =>
      t ← now;
      if t <? until then mret true
      else st_mod (λ s, set_revoked (delete jti (revoked s)) s);; mret false
  end.

(** The checks of [ValidateSession] on the claims. *)
Definition session_subject (p : Parsed) : option (Z * Z) :=
  sub ← p_sub p; id ← parse_int sub; ver ← p_ver p; Some (id, ver).
Definition check_revoked (u : User) (jti : string) : M (res Session) :=
  mem ← revokedInMemory jti;
  if mem : bool then mret (Err revoked_session)
  else
    t ← now;
    r ← on_catalog (IsRevoked jti t);
    mret match r with
         | Err e => Err (UnavailableError "каталог" "проверка отзыва сессии" (Some e))
         | Ok true => Err revoked_session
         | Ok false => Ok (mk_Session u jti)
         end.
Definition ValidateSession (raw : string) : M (res Session) :=
  t ← now;
  match jwt_parse raw JWTSecret t with
  | None => mret (Err bad_session)
  | Some p =>
      match session_subject p with
      | None => mret (Err bad_session)
      | Some (id, ver) =>
          r ← on_catalog (User_in id);
          match r with
          | Err e => mret (Err (authStoreError e "каталог" "недействительная сессия"))
          | Ok u =>
              if negb (ver =? u_TokenVersion u) then mret (Err bad_session)
              else match p_jti p with
                   | None => mret (Err bad_session)
                   | Some jti => if String.eqb jti "" then mret (Err bad_session) else check_revoked u jti
                   end
          end
      end
  end.

(** The loop [for len(s.revoked) >= max] of [rememberRevoked]. *)
Fixpoint evict_loop (fuel : nat) (m : gmap string Z) : gmap string Z :=
  match fuel with
  | O => m
  | S fuel =>
      if maxRevokedMemory <=? Z.of_nat (size m)
      then match any_key m with Some k => evict_loop fuel (delete k m) | None => m end
      else m
  end.
Definition remembered (t : Z) (jti : string) (until : Z) (m : gmap string Z) : gmap string Z :=
  let m := filter (λ je, t < je.2) m in
  <[jti := until]> (evict_loop (size m) m).
Definition rememberRevoked (jti : string) (until : Z) : M unit :=
  t ← now;
  st_mod (λ s, set_revoked (remembered t jti until (revoked s)) s).
Definition RevokeSession (jti : string) : M (option error) :=
  if String.eqb jti "" then mret None
  else
    t ← now;
    let until := t + SessionTTL in
    r ← on_catalog (InsertRevocation jti t until);
    rememberRevoked jti until;;
    mret match r with
         | Some e => Some (UnavailableError "каталог" "запись отзыва сессии" (Some e))
         | None => None
         end.

(** ** Changes of an account *)
Definition bump (u : User) : User :=
  mk_User (u_ID u) (u_Username u) (u_PasswordHash u) (u_Role u) (wrap64 (u_TokenVersion u + 1)) (u_CreatedAt u).
Definition with_password (hash : string) (u : User) : User :=
  mk_User (u_ID u) (u_Username u) hash (u_Role u) (u_TokenVersion u) (u_CreatedAt u).

Definition InvalidateUserSessions (id : Z) : M (option error) :=
  r ← on_catalog (User_in id);
  match r with
  | Err e => mret (Some e)
  | Ok u => on_catalog (UpdateUser (bump u))
  end.
Definition user_object (id : Z) : string := "user:" +:+ fmt_int id.
Definition ChangePassword (actor : string) (userID : Z) (old new : string) : M (res User) :=
  r ← on_catalog (User_in userID);
  match r with
  | Err e => mret (Err e)
  | Ok u =>
      v ← VerifyPassword (u_Username u) old;
      match v with
      | Err e => mret (Err e)
      | Ok _ =>
          h ← hashPassword new;
          match h with
          | Err e => mret (Err e)
          | Ok hash =>
              let u := bump (with_password hash u) in
              e ← on_catalog (UpdateUser u);
              match e with
              | Some e => mret (Err e)
              | None => audit actor "user.password.change" (user_object userID) AuditOK "";; mret (Ok u)
              end
          end
      end
  end.
Definition AdminSetPassword (actor : string) (userID : Z) (new : string) : M (option error) :=
  r ← on_catalog (User_in userID);
  match r with
  | Err e => mret (Some e)
  | Ok u =>
      h ← hashPassword new;
      match h with
      | Err e => mret (Some e)
      | Ok hash =>
          e ← on_catalog (UpdateUser (bump (with_password hash u)));
          match e with
          | Some e => mret (Some e)
          | None => audit actor "user.password.set" (user_object userID) AuditOK "";; mret None
          end
      end
  end.
Definition DeleteUser (id : Z) : M (option error) :=
  e ← InvalidateUserSessions id;
  match e with
  | Some e => mret (Some e)
  | None =>
      r ← on_catalog (User_in id);
      match r with
      | Err e => mret (Some e)
      | Ok u =>
          e ← on_catalog (DeleteUser_in id);
          match e with
          | Some e => mret (Some e)
          | None => audit (u_Username u) "user.delete" (user_object id) AuditOK "";; mret None
          end
      end
  end.

(** ** API tokens *)
Fixpoint canonical_scopes (scopes : list string) : res (list string) :=
  match scopes with
  | [] => Ok []
  | s :: scopes =>
      match NormalizeScope s with
      | Err e => Err e
      | Ok c => match canonical_scopes scopes with Err e => Err e | Ok cs => Ok (c :: cs) end
      end
  end.
Definition raw_token (prefix secret : string) : string := "khz_" +:+ prefix +:+ "_" +:+ secret.
(** A negative or zero life means a token without end. *)
Definition IssueAPIToken (u : User) (name : string) (scopes : list string) (ttl : Z) :
    M (res (APIToken * string)) :=
  match canonical_scopes scopes with
  | Err e => mret (Err e)
  | Ok canonical =>
      j ← uuid;
      match j with
      | Err e => mret (Err e)
      | Ok seed =>
          let prefix := remove_dashes (String.substring 0 8 seed) in
          let secret := remove_dashes seed in
          t ← now;
          let tok := mk_APIToken 0 (u_ID u) name prefix (HashToken (prefix +:+ secret)) canonical t
                       (if 0 <? ttl then t + ttl else 0) 0 in
          r ← on_catalog (CreateToken tok);
          mret match r with Err e => Err e | Ok tok => Ok (tok, raw_token prefix secret) end
      end
  end.
Definition adminScopeRequiresLiveAdmin (t : APIToken) (u : User) : bool :=
  existsb (λ sc, String.eqb sc ScopeAdmin && negb (String.eqb (u_Role u) RoleAdmin)) (t_Scopes t).

Definition touchThrottled (id : Z) : M bool :=
  if TouchInterval <=? 0 then mret false
  else
    l ← st_gets (λ s, lastTouch s !! id);
    match l with
    | None => mret false
    | Some last => t ← now; mret (t - last <? TouchInterval)
    end.
Definition recordTouch (id : Z) : M unit :=
  t ← now;
  st_mod (λ s, set_lastTouch
    (<[id := t]> (if maxTouchMemory <=? Z.of_nat (size (lastTouch s)) then ∅ else lastTouch s)) s).
(** The cosmetic last step of [VerifyAPIToken]; its errors go to a hook. *)
Definition touch (id : Z) : M unit :=
  throttled ← touchThrottled id;
  if throttled : bool then mret tt
  else
    t ← now;
    e ← on_catalog (TouchToken id t);
    match e with
    | Some _ => mret tt
    | None => if 0 <? TouchInterval then recordTouch id else mret tt
    end.

Definition token_parts (raw : string) : option (string * string) :=
  match split "_" raw with
  | [khz; a; b] =>
      if negb (String.eqb khz "khz") || String.eqb a "" || String.eqb b "" then None else Some (a, b)
  | _ => None
  end.
(** The clock is read for a token that expires and is not revoked. *)
Definition token_dead (t : APIToken) : M bool :=
  if negb (is_zero_time (t_RevokedAt t)) then mret true
  else if is_zero_time (t_ExpiresAt t) then mret false
  else n ← now; mret (negb (n <? t_ExpiresAt t)).
Definition VerifyAPIToken (raw : string) : M (res (APIToken * User)) :=
  match token_parts raw with
  | None => mret (Err bad_token)
  | Some (a, b) =>
      r ← on_catalog (TokenBySHA256 (HashToken (a +:+ b)));
      match r with
      | Err e => mret (Err (authStoreError e "каталог" "недействительный API-токен"))
      | Ok t =>
          dead ← token_dead t;
          if dead : bool then mret (Err bad_token)
          else
            r ← on_catalog (User_in (t_UserID t));
            match r with
            | Err e => mret (Err (authStoreError e "каталог" "недействительный API-токен"))
            | Ok u =>
                if adminScopeRequiresLiveAdmin t u
                then mret (Err (forbidden "токен admin-scope у не-администратора (роль владельца изменена)"))
                else touch (t_ID t);; mret (Ok (t, u))
            end
      end
  end.
Definition RevokeToken (id : Z) : M (option error) :=
  t ← now; on_catalog (RevokeToken_in id t).

(** A new process over the same catalogue. *)
Definition restart : M unit := st_mod (λ s,
  mk_Service (catalog s) ∅ ∅ (audit_log s) (ticks s) (rands s)).

(** * Runs of the service *)
(** The requests that the web layer makes, and the restart of the process. *)
Inductive op :=
| OpCreateUser (username password role : string)
| OpEnsureFirstAdmin (username password : string)
| OpLogin (username password : string)
| OpIssueSession (u : User)
| OpValidateSession (raw : string)
| OpRevokeSession (jti : string)
| OpChangePassword (actor : string) (id : Z) (old new : string)
| OpAdminSetPassword (actor : string) (id : Z) (new : string)
| OpDeleteUser (id : Z)
| OpIssueAPIToken (u : User) (name : string) (scopes : list string) (ttl : Z)
| OpVerifyAPIToken (raw : string)
| OpRevokeToken (id : Z)
| OpRestart.
Definition run_op (o : op) : M unit :=
  match o with
  | OpCreateUser n p r => CreateUser n p r;; mret tt
  | OpEnsureFirstAdmin n p => EnsureFirstAdmin n p;; mret tt
  | OpLogin n p => Login n p;; mret tt
  | OpIssueSession u => IssueSession u;; mret tt
  | OpValidateSession raw => ValidateSession raw;; mret tt
  | OpRevokeSession j => RevokeSession j;; mret tt
  | OpChangePassword a id o n => ChangePassword a id o n;; mret tt
  | OpAdminSetPassword a id n => AdminSetPassword a id n;; mret tt
  | OpDeleteUser id => DeleteUser id;; mret tt
  | OpIssueAPIToken u n sc ttl => IssueAPIToken u n sc ttl;; mret tt
  | OpVerifyAPIToken raw => VerifyAPIToken raw;; mret tt
  | OpRevokeToken id => RevokeToken id;; mret tt
  | OpRestart => restart
  end.
Definition run (ops : list op) (s : Service) : Service := foldl (λ s o, (run_op o s).2) s ops.

(** ** What an operation leaves alone *)
Context `{!CatalogView D, !UserLaws D, !TokenLaws D, !RevocationLaws D}.
Definition cat (s : Service) : Cat := abs (catalog s).

(** Time and random ids are used up, and the part [f] of the catalogue stays. *)
Definition leaves {X} (f : Cat → X) (s s' : Service) : Prop :=
  (ticks s ≤ ticks s' ∧ rands s ≤ rands s')%nat ∧
  (wf (catalog s) → wf (catalog s') ∧ f (cat s') = f (cat s)).

Section leaves.
  Context {X : Type} (f : Cat → X).
#[local] Instance leaves_preorder : PreOrder (leaves f).
Proof.
  split; [by split|]. intros s1 s2 s3 [[? ?] H12] [[? ?] H23]. split; [lia|].
  intros Hwf. destruct (H12 Hwf) as [Hwf2 <-]. by apply H23.
Qed.
Lemma leaves_on {A} (m : St D A) (P : spec A) :
  refines m P → (∀ c a c', P c a c' → f c' = f c) → moves (leaves f) (on_catalog m).
Proof.
  intros Hm HP s. unfold on_catalog, zoom, leaves, cat. specialize (Hm (catalog s)).
  destruct (m (catalog s)) as [a d]. simpl in *. split; [done|]. intros Hwf. destruct (Hm Hwf) as [? ?].
  split; [done|]. by eapply HP.
Qed.
Lemma leaves_read {A} (m : St D (res A)) ok missing :
  refines m (reads ok missing) → moves (leaves f) (on_catalog m).
Proof. intros Hm. apply (leaves_on _ _ Hm). by intros c a c' [-> _]. Qed.
Lemma leaves_User id : moves (leaves f) (on_catalog (User_in id)).
Proof. eapply leaves_read, User_refines. Qed.
Lemma leaves_ByName n : moves (leaves f) (on_catalog (UserByUsername n)).
Proof. eapply leaves_read, UserByUsername_refines. Qed.
Lemma leaves_BySHA h : moves (leaves f) (on_catalog (TokenBySHA256 h)).
Proof. eapply leaves_read, TokenBySHA256_refines. Qed.
Lemma leaves_IsRevoked j t : moves (leaves f) (on_catalog (IsRevoked j t)).
Proof. eapply leaves_read, IsRevoked_refines. Qed.
Lemma leaves_Touch id t : moves (leaves f) (on_catalog (TouchToken id t)).
Proof. eapply leaves_on; [apply TouchToken_refines|]. by intros c a c' [->|[_ ->]]. Qed.
Lemma leaves_now : moves (leaves f) now. Proof. intros s. split; simpl; [lia|done]. Qed.
Lemma leaves_fresh : moves (leaves f) fresh. Proof. intros s. split; simpl; [lia|done]. Qed.
Lemma leaves_audit a b c d e : moves (leaves f) (audit a b c d e).
Proof. intros s. split; simpl; [lia|done]. Qed.
Lemma leaves_mod g : (∀ s, catalog (g s) = catalog s ∧ ticks (g s) = ticks s ∧ rands (g s) = rands s) → moves (leaves f) (st_mod g).
Proof. intros Hg s. destruct (Hg s) as (Hc & Ht & Hr). unfold leaves, cat. simpl. by rewrite Hc, Ht, Hr. Qed.
End leaves.
#[local] Existing Instance leaves_preorder.
#[local] Hint Resolve leaves_User leaves_ByName leaves_BySHA leaves_IsRevoked leaves_Touch leaves_now leaves_fresh
  leaves_audit : go.
#[local] Hint Extern 1 (moves (leaves _) (st_mod _)) => (apply leaves_mod; by intros []) : go.

Section still.
  Context {X : Type} (f : Cat → X).
Lemma leaves_hashPassword p : moves (leaves f) (hashPassword p).
Proof. unfold hashPassword. moves_tac. Qed.
Lemma leaves_VerifyPassword n p : moves (leaves f) (VerifyPassword n p).
Proof. unfold VerifyPassword. moves_tac. Qed.
Lemma leaves_IssueSession u : moves (leaves f) (IssueSession u).
Proof. unfold IssueSession, uuid. moves_tac. Qed.
Lemma leaves_check_revoked u j : moves (leaves f) (check_revoked u j).
Proof. unfold check_revoked, revokedInMemory. moves_tac. Qed.
Lemma leaves_token_dead t : moves (leaves f) (token_dead t).
Proof. unfold token_dead. moves_tac. Qed.
Lemma leaves_touch id : moves (leaves f) (touch id).
Proof. unfold touch, touchThrottled, recordTouch. moves_tac. Qed.
End still.
#[local] Hint Resolve leaves_hashPassword leaves_VerifyPassword leaves_IssueSession leaves_check_revoked
  leaves_token_dead leaves_touch : go.
Lemma leaves_Login {X} (f : Cat → X) n p : moves (leaves f) (Login n p).
Proof. unfold Login. moves_tac. Qed.
Lemma leaves_ValidateSession {X} (f : Cat → X) raw : moves (leaves f) (ValidateSession raw).
Proof. unfold ValidateSession. moves_tac. Qed.
Lemma leaves_VerifyAPIToken {X} (f : Cat → X) raw : moves (leaves f) (VerifyAPIToken raw).
Proof. unfold VerifyAPIToken. moves_tac. Qed.
#[local] Hint Resolve leaves_Login leaves_ValidateSession leaves_VerifyAPIToken : go.

(** Which operations write which part. *)
Definition writes_accounts (o : op) : bool :=
  match o with
  | OpCreateUser _ _ _ | OpEnsureFirstAdmin _ _ | OpChangePassword _ _ _ _ | OpAdminSetPassword _ _ _ | OpDeleteUser _ => true
  | _ => false
  end.
Definition writes_tokens (o : op) : bool :=
  match o with OpDeleteUser _ | OpIssueAPIToken _ _ _ _ | OpRevokeToken _ => true | _ => false end.
Definition writes_revocations (o : op) : bool :=
  match o with OpRevokeSession _ => true | _ => false end.

Section blind.
  Context {X : Type} (f : Cat → X).
Definition blind_accounts : Prop := ∀ m c, f (set_accounts m c) = f c.
Definition blind_tokens : Prop := ∀ m c, f (set_tokens m c) = f c.
Definition blind_revocations : Prop := ∀ m c, f (set_revocations m c) = f c.
Lemma leaves_CreateUser u : u_ID u = 0 → blind_accounts → moves (leaves f) (on_catalog (CreateUser_in u)).
Proof.
  intros Hu Hf. eapply leaves_on; [by apply CreateUser_refines|].
  intros c [u'|e] c'; [intros (_ & _ & w & _ & ->)|intros [->|(id & _ & w & _ & ->)]]; by rewrite ?Hf.
Qed.
Lemma leaves_EnsureFirst u : u_ID u = 0 → blind_accounts → moves (leaves f) (on_catalog (EnsureFirstUser u)).
Proof.
  intros Hu Hf. eapply leaves_on; [by apply EnsureFirst_refines|].
  intros c [[u' []]|e] c'; [intros (_ & _ & _ & w & _ & ->)|intros [-> _]|intros [->|(_ & id & _ & w & _ & ->)]];
    by rewrite ?Hf.
Qed.
Lemma leaves_UpdateUser u : blind_accounts → moves (leaves f) (on_catalog (UpdateUser u)).
Proof.
  intros Hf. eapply leaves_on; [apply UpdateUser_refines|].
  intros c r c' [(_ & w & _ & ->)|[_ ->]]; by rewrite ?Hf.
Qed.
Lemma leaves_DeleteUser id : blind_accounts → blind_tokens → moves (leaves f) (on_catalog (DeleteUser_in id)).
Proof.
  intros Hf Hg. eapply leaves_on; [apply DeleteUser_refines|].
  intros c r c' [(m & _ & ->)|[_ ->]]; [|done]. etrans; [apply (Hg m (set_accounts _ c))|apply Hf].
Qed.
Lemma leaves_CreateToken t : t_ID t = 0 → t_RevokedAt t = 0 → Forall scope_ok (t_Scopes t) → blind_tokens → moves (leaves f) (on_catalog (CreateToken t)).
Proof.
  intros Ht Hr Hs Hf. eapply leaves_on; [by apply CreateToken_refines|].
  intros c [t'|e] c'; [intros (_ & _ & _ & w & _ & ->)|intros [->|(id & _ & _ & w & _ & ->)]]; by rewrite ?Hf.
Qed.
Lemma leaves_RevokeToken id t : blind_tokens → moves (leaves f) (on_catalog (RevokeToken_in id t)).
Proof.
  intros Hf. eapply leaves_on; [apply RevokeToken_refines|].
  intros c r c' [(t' & w & _ & _ & ->)|[_ ->]]; by rewrite ?Hf.
Qed.
Lemma leaves_InsertRevocation j t x : blind_revocations → moves (leaves f) (on_catalog (InsertRevocation j t x)).
Proof.
  intros Hf. eapply leaves_on; [apply InsertRevocation_refines|].
  intros c r c' (m & _ & [(w & _ & ->)|[_ ->]]); by rewrite ?Hf.
Qed.
End blind.
#[local] Hint Resolve leaves_CreateUser leaves_EnsureFirst leaves_UpdateUser leaves_DeleteUser leaves_CreateToken
  leaves_RevokeToken leaves_InsertRevocation : go.

Lemma canonical_scopes_ok sc cs : canonical_scopes sc = Ok cs → Forall scope_ok cs.
Proof.
  revert cs. induction sc as [|s sc IH]; intros cs; simpl; [by intros [= <-]|].
  destruct (NormalizeScope s) as [c|] eqn:Hc; [|done]. destruct (canonical_scopes sc) as [cs'|]; [|done].
  intros [= <-]. constructor; [|by apply IH].
  apply NormalizeScope_inv in Hc as [->|(id & Hid & ->)]; [done|]. split; [done|].
  destruct (fmt_int_nonneg id) as (_ & Hd & _); [lia|].
  assert (no_sep "," (fmt_int id) = true) as Hn.
  { eapply all_bytes_impl; [|exact Hd]. intros c Hc. apply negb_true_iff, Ascii.eqb_neq. by intros <-. }
  unfold no_sep, repo_scope in *. by rewrite !all_bytes_app, Hn.
Qed.
Lemma leaves_IssueAPIToken {X} (f : Cat → X) u n sc ttl : blind_tokens f → moves (leaves f) (IssueAPIToken u n sc ttl).
Proof.
  intros Hf. unfold IssueAPIToken, uuid. destruct (canonical_scopes sc) as [cs|] eqn:Hcs; [|moves_tac].
  moves_tac. apply leaves_CreateToken; [done..|by eapply canonical_scopes_ok|done].
Qed.
#[local] Hint Resolve leaves_IssueAPIToken : go.
(** The footprint of every operation. *)
Lemma run_op_leaves {X} (f : Cat → X) o :
  (writes_accounts o = true → blind_accounts f) → (writes_tokens o = true → blind_tokens f) →
  (writes_revocations o = true → blind_revocations f) → moves (leaves f) (run_op o).
Proof.
  intros Ha Ht Hr.
  destruct o; try specialize (Ha eq_refl); try specialize (Ht eq_refl); try specialize (Hr eq_refl); simpl;
    unfold CreateUser, EnsureFirstAdmin, RevokeSession, rememberRevoked, ChangePassword, AdminSetPassword, DeleteUser,
      InvalidateUserSessions, RevokeToken, restart; moves_tac.
Qed.

(** ** What validation checks *)

(** The signing library: what it accepts at a time was signed with the key and
    has not expired. *)
Definition jwt_sound : Prop := ∀ raw key t p,
  jwt_parse raw key t = Some p → ∃ c, jwt_sign c key = Ok raw ∧ p = parsed c ∧ t < from_unix (c_exp c).
Definition jwt_injective : Prop := ∀ c c' key raw,
  jwt_sign c key = Ok raw → jwt_sign c' key = Ok raw → c = c'.
Definition clock_monotone : Prop := ∀ m n, (m ≤ n)%nat → clock m ≤ clock n.

Lemma wp_catalog {A B} (m : St D A) (P : spec A) (k : A → M B) Q s :
  refines m P → wf (catalog s) →
  (∀ a s', P (cat s) a (cat s') → wf (catalog s') → revoked s' = revoked s → ticks s' = ticks s → wp (k a) Q s') →
  wp (on_catalog m ≫= k) Q s.
Proof.
  intros Hm Hwf Hk. apply wp_bind. unfold wp at 1. unfold on_catalog, zoom. specialize (Hm _ Hwf).
  destruct (m (catalog s)) as [a d]. destruct Hm. by apply Hk.
Qed.
Lemma wp_catalog_last {A} (m : St D A) (P : spec A) Q s :
  refines m P → wf (catalog s) →
  (∀ a s', P (cat s) a (cat s') → wf (catalog s') → Q a s') → wp (on_catalog m) Q s.
Proof.
  intros Hm Hwf Hk. unfold wp, on_catalog, zoom. specialize (Hm _ Hwf).
  destruct (m (catalog s)) as [a d]. destruct Hm. by apply Hk.
Qed.

Definition not_revoked (j : string) (m : gmap string Z) (t : Z) : Prop := ∀ x, m !! j = Some x → x ≤ t.
Lemma revokedInMemory_wp j s (Q : bool → Service → Prop) :
  (∀ s', catalog s' = catalog s → (ticks s ≤ ticks s')%nat → Q true s') →
  (∀ s', catalog s' = catalog s → (ticks s ≤ ticks s')%nat → not_revoked j (revoked s) (clock (ticks s)) → Q false s') →
  wp (revokedInMemory j) Q s.
Proof.
  intros HT HF. unfold revokedInMemory. apply wp_bind, wp_gets.
  destruct (revoked s !! j) as [x|] eqn:Hj.
  - unfold wp, mbind, st_bind. simpl. destruct (Z.ltb_spec (clock (ticks s)) x); simpl; [apply HT|apply HF]; simpl; try lia; try done.
    intros y Hy. simplify_eq. lia.
  - apply wp_ret. apply HF; [done|done|]. intros y Hy. congruence.
Qed.
Lemma check_revoked_wp u j s : wf (catalog s) →
  wp (check_revoked u j) (λ r s', ∀ ss, r = Ok ss → ss = mk_Session u j ∧
    not_revoked j (revoked s) (clock (ticks s)) ∧
    not_revoked j (revocations (cat s)) (clock (pred (ticks s')))) s.
Proof.
  intros Hwf. unfold check_revoked. apply wp_bind, revokedInMemory_wp; [done|].
  intros s1 Hs1 _ Hmem. apply wp_bind. unfold wp at 1. simpl.
  eapply wp_catalog; [apply IsRevoked_refines|simpl; by rewrite Hs1|].
  intros r s2 [_ Hr] _ _ Ht. apply wp_ret. intros ss Hss. destruct r as [[]|e]; [done| |done].
  injection Hss as <-. split_and!; [done..|]. intros x Hx. rewrite Ht. simpl. apply Hr.
  unfold cat in *. simpl. by rewrite Hs1.
Qed.

(** The checks that an accepted session [ss] passed, with the claims [c]. *)
Definition session_checked (raw : string) (s : Service) (ss : Session) (c : Claims) : Prop :=
  jwt_sign c JWTSecret = Ok raw ∧ clock (ticks s) < from_unix (c_exp c) ∧
  parse_int (c_sub c) = Some (u_ID (ss_User ss)) ∧
  accounts (cat s) !! u_ID (ss_User ss) = Some (ss_User ss) ∧
  u_TokenVersion (ss_User ss) = float64_int (c_ver c) ∧
  ss_JTI ss = c_jti c ∧ c_jti c ≠ "" ∧
  not_revoked (c_jti c) (revoked s) (clock (S (ticks s))) ∧
  not_revoked (c_jti c) (revocations (cat s)) (clock (pred (ticks (ValidateSession raw s).2))).

Lemma wp_User {B} id (k : res User → M B) Q s : wf (catalog s) →
  (∀ r s', cat s' = cat s → wf (catalog s') → revoked s' = revoked s → ticks s' = ticks s →
     (∀ u, r = Ok u → accounts (cat s) !! u_ID u = Some u ∧ u_ID u = id) → wp (k r) Q s') →
  wp (on_catalog (User_in id) ≫= k) Q s.
Proof.
  intros Hwf Hk. eapply wp_catalog; [apply User_refines|done|].
  intros r s' [Hs' Hr] Hwf' Hm Ht. apply Hk; try done. intros u ->.
  pose proof (accounts_ID _ _ _ Hwf Hr). by subst id.
Qed.
Lemma ValidateSession_checked raw s ss :
  jwt_sound → wf (catalog s) → (ValidateSession raw s).1 = Ok ss → ∃ c, session_checked raw s ss c.
Proof.
  intros Hsound Hwf.
  enough (wp (ValidateSession raw) (λ r s', r = Ok ss → ∃ c,
    jwt_sign c JWTSecret = Ok raw ∧ clock (ticks s) < from_unix (c_exp c) ∧
    parse_int (c_sub c) = Some (u_ID (ss_User ss)) ∧ accounts (cat s) !! u_ID (ss_User ss) = Some (ss_User ss) ∧
    u_TokenVersion (ss_User ss) = float64_int (c_ver c) ∧ ss_JTI ss = c_jti c ∧ c_jti c ≠ "" ∧
    not_revoked (c_jti c) (revoked s) (clock (S (ticks s))) ∧
    not_revoked (c_jti c) (revocations (cat s)) (clock (pred (ticks s')))) s) by done.
  unfold ValidateSession. apply wp_bind. unfold wp at 1. simpl.
  destruct (jwt_parse raw JWTSecret (clock (ticks s))) as [p|] eqn:Hp; [|by apply wp_ret].
  apply Hsound in Hp as (c & Hsign & -> & Hexp). unfold session_subject. simpl.
  destruct (parse_int (c_sub c)) as [id|] eqn:Hid; [|by apply wp_ret]. simpl.
  apply wp_User; [done|]. intros [u|e] s1 Hs1 Hwf1 Hm Ht Hu; [|by apply wp_ret].
  destruct (Hu u eq_refl) as [Hacc <-]. clear Hu.
  destruct (Z.eqb_spec (float64_int (c_ver c)) (u_TokenVersion u)); [|by apply wp_ret]. simpl.
  destruct (String.eqb_spec (c_jti c) ""); [by apply wp_ret|].
  apply (wp_mono _ _ _ _ (check_revoked_wp u (c_jti c) s1 Hwf1)). intros r s2 Hr Hok.
  apply Hr in Hok as (-> & Hmem & Hrev). exists c. rewrite Hm, Ht in Hmem. rewrite Hs1 in Hrev. done.
Qed.

(** A session is accepted only if it was signed with the server's secret,
    has not expired, names an account of the catalogue at the account's present
    version, and carries an id that neither the catalogue nor the memory of the
    process holds revoked at the time of the check; the session then carries the
    account as the catalogue has it now. *)
Theorem ValidateSession_sound raw s ss :
  jwt_sound → wf (catalog s) → (ValidateSession raw s).1 = Ok ss →
  ∃ c, jwt_sign c JWTSecret = Ok raw ∧ clock (ticks s) < from_unix (c_exp c) ∧
    parse_int (c_sub c) = Some (u_ID (ss_User ss)) ∧
    accounts (cat s) !! u_ID (ss_User ss) = Some (ss_User ss) ∧
    u_TokenVersion (ss_User ss) = float64_int (c_ver c) ∧
    ss_JTI ss = c_jti c ∧ c_jti c ≠ "" ∧
    not_revoked (c_jti c) (revoked s) (clock (S (ticks s))) ∧
    not_revoked (c_jti c) (revocations (cat s)) (clock (pred (ticks (ValidateSession raw s).2))).
Proof. apply ValidateSession_checked. Qed.

(** ** Logging out *)

(** What a successful or failed insertion leaves of an id. *)
Lemma inserted_same j t x c r c' : insert_revocation j t x c r c' → r = None → ∃ w, rounded x w ∧ revocations c' !! j = Some w.
Proof.
  intros (m & _ & [(w & Hw & ->)|[? _]]) Hr; [|done]. exists w. split; [done|]. apply lookup_insert_eq.
Qed.
Lemma inserted_keeps j t x c r c' k y :
  insert_revocation j t x c r c' → revocations c !! k = Some y →
  y ≤ t ∨ revocations c' !! k = Some y ∨ k = j ∧ ∃ w, rounded x w ∧ revocations c' !! k = Some w.
Proof.
  intros (m & Hm & Hc') Hk. assert (m !! k = Some y ∨ y ≤ t) as [Hmk|?]; [|clear Hm|by left].
  { destruct (Hm k) as [->|(_ & z & Hz & ?)]; [by left|right]. by simplify_eq. }
  right. destruct Hc' as [(w & Hw & ->)|[_ ->]]; simpl; [|by left].
  destruct (decide (j = k)) as [<-|]; [right|left; by rewrite lookup_insert_ne].
  split; [done|]. exists w. by rewrite lookup_insert_eq.
Qed.
Lemma rounded_ge t w n : rounded t w → n ≤ unix t → from_unix n ≤ w.
Proof.
  intros [->| ->] Hn; [|apply from_unix_mono; lia].
  pose proof (from_unix_le t). pose proof (from_unix_mono n (unix t)). lia.
Qed.

Lemma RevokeSession_wp j s : wf (catalog s) → j ≠ "" →
  wp (RevokeSession j) (λ r s', wf (catalog s') ∧ (ticks s < ticks s')%nat ∧
    ∃ e, insert_revocation j (clock (ticks s)) (clock (ticks s) + SessionTTL) (cat s) e (cat s') ∧ (r = None → e = None)) s.
Proof.
  intros Hwf Hj. unfold RevokeSession. destruct (String.eqb_spec j ""); [done|].
  apply wp_bind. unfold wp at 1. simpl. eapply wp_catalog; [apply InsertRevocation_refines|done|].
  intros e s1 Hs1 Hwf1 _ Ht. unfold wp. simpl in *. split; [done|]. split; [lia|]. exists e. split; [done|]. by destruct e.
Qed.

(** [revoked_until j n s]: the id [j] is held revoked until the second [n], or
    that has passed. *)
Definition revoked_until (j : string) (n : Z) (s : Service) : Prop :=
  wf (catalog s) ∧ n ≤ unix (clock (ticks s) + SessionTTL) ∧
  (from_unix n ≤ clock (ticks s) ∨ ∃ x, revocations (cat s) !! j = Some x ∧ from_unix n ≤ x).
Lemma revoked_until_leaves j n s s' :
  clock_monotone → leaves revocations s s' → revoked_until j n s → revoked_until j n s'.
Proof.
  intros Hmono [[Ht _] Hs'] (Hwf & Hn & Hj). destruct (Hs' Hwf) as [Hwf' Heq]. unfold revoked_until. rewrite Heq. pose proof (Hmono _ _ Ht).
  split; [done|]. split; [|destruct Hj; [left; lia|by right]].
  pose proof (unix_mono (clock (ticks s) + SessionTTL) (clock (ticks s') + SessionTTL)). lia.
Qed.
Lemma revoked_until_step j n s o : clock_monotone → revoked_until j n s → revoked_until j n (run_op o s).2.
Proof.
  intros Hmono Hs.
  assert ((∃ k, o = OpRevokeSession k ∧ k ≠ "") ∨ leaves revocations s (run_op o s).2) as [(k & -> & Hk)|Hl].
  { destruct o; try (right; by apply run_op_leaves). destruct (decide (jti = "")) as [->|]; [by right|left; eauto]. }
  - destruct Hs as (Hwf & Hn & Hj). destruct (RevokeSession_wp k s Hwf Hk) as (Hwf' & Ht & e & He & _).
    simpl. unfold mbind, st_bind. destruct (RevokeSession k s) as [r s']. simpl in *.
    pose proof (Hmono (ticks s) (ticks s') ltac:(lia)) as Hm. split; [done|].
    pose proof (unix_mono (clock (ticks s) + SessionTTL) (clock (ticks s') + SessionTTL)).
    split; [lia|]. destruct Hj as [?|(x & Hx & Hle)]; [left; lia|].
    destruct (inserted_keeps _ _ _ _ _ _ _ _ He Hx) as [?|[?|(-> & w & Hw & Hj)]]; [left; lia|right; by exists x|].
    right. exists w. split; [done|]. apply (rounded_ge _ _ _ Hw). lia.
  - by apply (revoked_until_leaves _ _ s).
Qed.
Lemma revoked_until_run j n ops s : clock_monotone → revoked_until j n s → revoked_until j n (run ops s).
Proof.
  intros Hmono. revert s. induction ops as [|o ops IH]; intros s Hs; [done|]. by apply IH, revoked_until_step.
Qed.

(** Logging out is final. After a successful [RevokeSession], whatever the
    service does next (other logins and logouts, more than the memory of the
    process holds, even a restart), a session with that id that was issued
    before is not accepted again; the only exception is a token that runs out
    between the two clock readings of the very check. *)
Theorem logout_is_final j s ops raw c :
  jwt_sound → jwt_injective → clock_monotone → wf (catalog s) → j ≠ "" →
  (RevokeSession j s).1 = None →
  let s' := run ops (RevokeSession j s).2 in
  jwt_sign c JWTSecret = Ok raw → c_jti c = j → c_exp c ≤ unix (clock (ticks s) + SessionTTL) →
  ∀ ss, (ValidateSession raw s').1 = Ok ss →
    clock (ticks s') < from_unix (c_exp c) ≤ clock (ticks (ValidateSession raw s').2).
Proof.
  intros Hsound Hinj Hmono Hwf Hj Hok s' Hsign Hcj Hexp ss Hss.
  assert (revoked_until j (c_exp c) s') as (Hwf' & _ & Hrev).
  { apply revoked_until_run; [done|].
    destruct (RevokeSession_wp j s Hwf Hj) as (Hwf1 & Ht & e & He & Hnone).
    destruct (inserted_same _ _ _ _ _ _ He (Hnone Hok)) as (w & Hw & Hjw). split; [done|]. split.
    - pose proof (Hmono (ticks s) (ticks (RevokeSession j s).2) ltac:(lia)).
      pose proof (unix_mono (clock (ticks s) + SessionTTL) (clock (ticks (RevokeSession j s).2) + SessionTTL)). lia.
    - right. exists w. split; [done|]. apply (rounded_ge _ _ _ Hw). lia. }
  destruct (ValidateSession_checked raw s' ss) as (c' & Hsign' & Hexp' & _ & _ & _ & _ & _ & _ & Hnot); [done..|].
  rewrite (Hinj _ _ _ _ Hsign' Hsign), Hcj in *. split; [done|].
  destruct (leaves_ValidateSession revocations raw s') as [[Ht _] _].
  pose proof (Hmono _ _ Ht). destruct Hrev as [|(x & Hx & Hle)]; [lia|]. specialize (Hnot _ Hx).
  pose proof (Hmono _ _ (Nat.le_pred_l (ticks (ValidateSession raw s').2))). lia.
Qed.

(** ** Versions of an account *)

(** The effect of an operation on the accounts: none, a new account at version
    1, or an account at its next version; [DeleteUser] may then remove one. *)
Inductive account_step (m : gmap Z User) : gmap Z User → Prop :=
| as_same : account_step m m
| as_new id w : u_TokenVersion w = 1 → m !! id = None → account_step m (<[id := w]> m)
| as_bump id u w : m !! id = Some u → u_TokenVersion w = wrap64 (u_TokenVersion u + 1) →
    account_step m (<[id := w]> m).
Definition step_of (o : op) (m m' : gmap Z User) : Prop :=
  ∃ m1, account_step m m1 ∧ (m' = m1 ∨ ∃ id, o = OpDeleteUser id ∧ m' = delete id m1).
(** The state [s'] is one operation away from [s]. *)
Definition stepped (o : op) (s s' : Service) : Prop :=
  wf (catalog s') ∧ step_of o (accounts (cat s)) (accounts (cat s')).

Lemma step_same o m : step_of o m m.
Proof. exists m. split; [constructor|by left]. Qed.
Lemma version_equiv u w : w ≡ u → u_TokenVersion w = u_TokenVersion u.
Proof. intros Heq. apply (f_equal u_TokenVersion Heq). Qed.
Lemma step_add o u id c c' : u_TokenVersion u = 1 → add_account u id c c' → step_of o (accounts c) (accounts c').
Proof.
  intros Hv (Hid & w & Hw & ->). eexists. split; [|by left]. constructor; [|done].
  by rewrite (version_equiv _ _ Hw).
Qed.
Lemma step_create o u c r c' : u_TokenVersion u = 1 → create_user u c r c' → step_of o (accounts c) (accounts c').
Proof.
  intros Hv. destruct r as [u'|e]; [intros [_ Hadd]|intros [->|[id Hadd]]]; [by eapply step_add|apply step_same|].
  by eapply step_add.
Qed.
Lemma step_first o u c r c' : u_TokenVersion u = 1 → ensure_first u c r c' → step_of o (accounts c) (accounts c').
Proof.
  intros Hv. destruct r as [[u' []]|e]; [intros (_ & _ & Hadd)|intros [-> _]|intros [->|(_ & id & Hadd)]];
    [by eapply step_add|apply step_same..|by eapply step_add].
Qed.
Lemma step_update o u u' c r c' :
  accounts c !! u_ID u' = Some u → u_TokenVersion u' = wrap64 (u_TokenVersion u + 1) →
  update_user u' c r c' → step_of o (accounts c) (accounts c').
Proof.
  intros Hu Hv [(_ & w & Hw & ->)|[_ ->]]; [|apply step_same]. eexists. split; [|by left].
  eapply as_bump; [done|]. by rewrite (version_equiv _ _ Hw).
Qed.
Lemma step_delete id m m1 m2 :
  step_of (OpDeleteUser id) m m1 → m2 = m1 ∨ m2 = delete id m1 → step_of (OpDeleteUser id) m m2.
Proof.
  intros (m' & Hm & Hm1) Hm2. exists m'. split; [done|]. destruct Hm2 as [->| ->]; [done|]. right. exists id.
  split; [done|]. destruct Hm1 as [->|(id' & [= <-] & ->)]; [done|]. apply delete_delete_eq.
Qed.

(** Walks through the reads of an operation, which leave the accounts. *)
Lemma wp_leaves {A B} (m : M A) (k : A → M B) Q s : moves (leaves (λ c, c)) m → wf (catalog s) →
  (∀ a s', wf (catalog s') → cat s' = cat s → wp (k a) Q s') → wp (m ≫= k) Q s.
Proof. intros Hm Hwf Hk. apply wp_bind. destruct (Hm s) as [_ Hs]. destruct (Hs Hwf). by apply Hk. Qed.
Lemma wp_stepped {A B} (m : St D A) (P : spec A) (k : A → M B) o s0 s :
  refines m P → wf (catalog s) → cat s = cat s0 →
  (∀ a c', P (cat s0) a c' → step_of o (accounts (cat s0)) (accounts c')) →
  (∀ a, moves (leaves (λ c, c)) (k a)) →
  wp (on_catalog m ≫= k) (λ _ s', stepped o s0 s') s.
Proof.
  intros Hm Hwf Hs HP Hk. eapply wp_catalog; [done..|]. intros a s1 Hs1 Hwf1 _ _. rewrite Hs in Hs1.
  apply HP in Hs1. destruct (Hk a s1) as [_ Hs2]. destruct (Hs2 Hwf1) as [? Heq]. unfold wp, stepped. by rewrite Heq.
Qed.
Lemma wp_unstepped {A} (m : M A) o s0 s :
  moves (leaves (λ c, c)) m → wf (catalog s) → cat s = cat s0 → wp m (λ _ s', stepped o s0 s') s.
Proof.
  intros Hm Hwf Hs. destruct (Hm s) as [_ Hs2]. destruct (Hs2 Hwf) as [? Heq]. unfold wp, stepped.
  rewrite Heq, Hs. split; [done|apply step_same].
Qed.
Ltac walk :=
  repeat match goal with
  | |- wp (match ?x with _ => _ end) _ _ => destruct x
  | |- wp (if ?x then _ else _) _ _ => destruct x
  | |- wp (mret _) _ _ => apply wp_unstepped; [apply moves_ret, _|done|congruence]
  | |- wp (_ ≫= _) _ _ => apply wp_leaves; [by eauto with go|done|intros]
  end.
Lemma CreateUser_stepped o n p r s : wf (catalog s) → wp (CreateUser n p r) (λ _ s', stepped o s s') s.
Proof.
  intros Hwf. unfold CreateUser. walk.
  eapply wp_stepped; [by apply CreateUser_refines|done|congruence|intros ??; by apply step_create|intros; moves_tac].
Qed.
Lemma EnsureFirstAdmin_stepped o n p s : wf (catalog s) → wp (EnsureFirstAdmin n p) (λ _ s', stepped o s s') s.
Proof.
  intros Hwf. unfold EnsureFirstAdmin. walk.
  eapply wp_stepped; [by apply EnsureFirst_refines|done|congruence|intros ??; by apply step_first|intros; moves_tac].
Qed.
Lemma bump_stepped {B} o u u' (k : option error → M B) s0 s :
  wf (catalog s) → cat s = cat s0 → accounts (cat s0) !! u_ID u' = Some u →
  u_TokenVersion u' = wrap64 (u_TokenVersion u + 1) → (∀ a, moves (leaves (λ c, c)) (k a)) →
  wp (on_catalog (UpdateUser u') ≫= k) (λ _ s', stepped o s0 s') s.
Proof.
  intros Hwf Hs Hu Hv Hk. eapply wp_stepped; [apply UpdateUser_refines|done..| |done].
  intros a c'. by apply (step_update _ u).
Qed.
Lemma ChangePassword_stepped o a id p q s : wf (catalog s) → wp (ChangePassword a id p q) (λ _ s', stepped o s s') s.
Proof.
  intros Hwf. unfold ChangePassword. apply wp_User; [done|]. intros [u|e] s1 Hs1 Hwf1 _ _ Hr; [|walk].
  destruct (Hr u eq_refl) as [Hu _]. walk. apply (bump_stepped _ u); try done; [congruence|intros; moves_tac].
Qed.
Lemma AdminSetPassword_stepped o a id p s : wf (catalog s) → wp (AdminSetPassword a id p) (λ _ s', stepped o s s') s.
Proof.
  intros Hwf. unfold AdminSetPassword. apply wp_User; [done|]. intros [u|e] s1 Hs1 Hwf1 _ _ Hr; [|walk].
  destruct (Hr u eq_refl) as [Hu _]. walk. apply (bump_stepped _ u); try done; [congruence|intros; moves_tac].
Qed.
Lemma InvalidateUserSessions_stepped o id s :
  wf (catalog s) → wp (InvalidateUserSessions id) (λ _ s', stepped o s s') s.
Proof.
  intros Hwf. unfold InvalidateUserSessions. apply wp_User; [done|]. intros [u|e] s1 Hs1 Hwf1 _ _ Hr; [|walk].
  destruct (Hr u eq_refl) as [Hu _]. eapply wp_catalog_last; [apply UpdateUser_refines|done|].
  intros a s2 Hs2 Hwf2. split; [done|]. rewrite Hs1 in Hs2. by apply (step_update o u) in Hs2.
Qed.
Lemma DeleteUser_stepped id s : wf (catalog s) → wp (DeleteUser id) (λ _ s', stepped (OpDeleteUser id) s s') s.
Proof.
  intros Hwf. unfold DeleteUser. apply wp_bind.
  apply (wp_mono _ _ _ _ (InvalidateUserSessions_stepped (OpDeleteUser id) id s Hwf)).
  intros [e|] s1 [Hwf1 Hs1]; [by apply wp_ret|]. apply wp_leaves; [eauto with go|done|].
  intros [u|e] s2 Hwf2 Hs2; [|apply wp_ret; split; [done|by rewrite Hs2]].
  eapply wp_catalog; [apply DeleteUser_refines|done|]. intros r s3 Hs3 Hwf3 _ _.
  assert (stepped (OpDeleteUser id) s s3) as [_ Hst].
  { split; [done|]. eapply step_delete; [done|]. rewrite Hs2 in Hs3.
    destruct Hs3 as [(m & _ & Heq)|[_ Heq]]; rewrite Heq; [by right|by left]. }
  destruct r; by apply wp_ret.
Qed.

Lemma run_op_stepped o s : wf (catalog s) → stepped o s (run_op o s).2.
Proof.
  intros Hwf. destruct (writes_accounts o) eqn:Ho.
  - change (wp (run_op o) (λ _ s', stepped o s s') s). destruct o; try done; simpl; apply wp_bind.
    + by apply CreateUser_stepped.
    + by apply EnsureFirstAdmin_stepped.
    + by apply ChangePassword_stepped.
    + by apply AdminSetPassword_stepped.
    + by apply DeleteUser_stepped.
  - destruct (run_op_leaves accounts o ltac:(congruence) ltac:(done) ltac:(done) s) as [_ Hs].
    destruct (Hs Hwf) as [? Heq]. split; [done|]. rewrite Heq. apply step_same.
Qed.
Lemma run_wf ops s : wf (catalog s) → wf (catalog (run ops s)).
Proof. revert s. induction ops as [|o ops IH]; intros s Hwf; [done|]. by apply IH, run_op_stepped. Qed.

(** [at_version id lo hi s]: the account [id] exists, at a version between the two. *)
Definition at_version (id lo hi : Z) (s : Service) : Prop :=
  wf (catalog s) ∧ ∃ u, accounts (cat s) !! id = Some u ∧ lo ≤ u_TokenVersion u ≤ hi.
Lemma at_version_step id lo hi o s :
  o ≠ OpDeleteUser id → min_int64 ≤ lo → hi < max_int64 →
  at_version id lo hi s → at_version id lo (hi + 1) (run_op o s).2.
Proof.
  intros Ho Hlo Hhi (Hwf & u & Hu & Hver). destruct (run_op_stepped o s Hwf) as (Hwf' & m1 & Hm & Hm1).
  split; [done|].
  assert (∃ u, m1 !! id = Some u ∧ lo ≤ u_TokenVersion u ≤ hi + 1) as (u' & Hu' & Hver').
  { destruct Hm as [|k w _ Hk|k w w' Hw Hw'].
    - exists u. split; [done|lia].
    - exists u. rewrite lookup_insert_ne by congruence. split; [done|lia].
    - destruct (decide (k = id)) as [->|].
      + exists w'. rewrite lookup_insert_eq. split; [done|]. rewrite Hw', wrap64_small; [|split]; simplify_eq; lia.
      + exists u. rewrite lookup_insert_ne by done. split; [done|lia]. }
  exists u'. split; [|done]. destruct Hm1 as [->|(k & -> & ->)]; [done|].
  rewrite lookup_delete_ne; [done|]. congruence.
Qed.
Lemma at_version_run id lo hi ops s :
  OpDeleteUser id ∉ ops → min_int64 ≤ lo → hi + Z.of_nat (length ops) ≤ max_int64 →
  at_version id lo hi s → at_version id lo (hi + Z.of_nat (length ops)) (run ops s).
Proof.
  intros Hops Hlo. revert s hi. induction ops as [|o ops IH]; intros s hi Hhi Hs; simpl in *.
  - by rewrite Z.add_0_r.
  - apply not_elem_of_cons in Hops as [Ho Hops].
    replace (hi + Z.of_nat _) with (hi + 1 + Z.of_nat (length ops)) in * by lia.
    apply IH; [done|lia|]. apply at_version_step; [congruence|done|lia|done].
Qed.
Lemma float64_int_small z : 0 ≤ z < 2 ^ 53 → float64_int z = z.
Proof.
  intros Hz. unfold float64_int. destruct (Z.leb_spec (Z.log2 (Z.abs z) - 52) 0) as [|Hlog]; [done|].
  destruct (decide (z = 0)) as [->|]; [done|]. pose proof (Z.log2_lt_pow2 (Z.abs z) 53). lia.
Qed.

(** No session of the account [id] issued at version [v] or before is accepted,
    whatever operations come first, as long as they do not delete the account. *)
Definition sessions_ended (id v : Z) (s : Service) : Prop :=
  ∀ ops raw c ss, OpDeleteUser id ∉ ops → v + 1 + Z.of_nat (length ops) < 2 ^ 53 →
    jwt_sign c JWTSecret = Ok raw → parse_int (c_sub c) = Some id → 0 ≤ c_ver c ≤ v →
    (ValidateSession raw (run ops s)).1 ≠ Ok ss.
Lemma bumped_ends_sessions id v s :
  jwt_sound → jwt_injective → at_version id (v + 1) (v + 1) s → 0 ≤ v → sessions_ended id v s.
Proof.
  intros Hsound Hinj Hat Hv ops raw c ss Hops Hlen Hsign Hsub Hver Hok.
  apply (at_version_run _ _ _ ops) in Hat as (Hwf & u & Hu & Hge); [|done|unfold min_int64; lia|unfold max_int64; lia].
  destruct (ValidateSession_checked raw (run ops s) ss) as (c' & Hsign' & _ & Hsub' & Hacc & Hver' & _); [done..|].
  rewrite (Hinj _ _ _ _ Hsign' Hsign), float64_int_small in * by lia. simplify_eq. lia.
Qed.

(** The account [id] before, and at its next version after a success. *)
Definition next_version (id : Z) (s : Service) (s' : Service) : Prop :=
  ∃ u, accounts (cat s) !! id = Some u ∧
    (in_int64 (u_TokenVersion u + 1) → at_version id (u_TokenVersion u + 1) (u_TokenVersion u + 1) s').
Lemma wp_update u u' {B} (k : option error → M B) (ok : B → Prop) s0 s :
  wf (catalog s) → cat s = cat s0 → accounts (cat s0) !! u_ID u = Some u →
  u_ID u' = u_ID u → u_TokenVersion u' = wrap64 (u_TokenVersion u + 1) →
  (∀ e, moves (leaves (λ c, c)) (k e)) → (∀ e s', ok (k (Some e) s').1 → False) →
  wp (on_catalog (UpdateUser u') ≫= k) (λ b s', ok b → next_version (u_ID u) s0 s') s.
Proof.
  intros Hwf Hs Hu Hid Hver Hk Hbad. eapply wp_catalog; [apply UpdateUser_refines|done|].
  intros [e|] s1 Hs1 Hwf1 _ _; [intros Hok; by apply Hbad in Hok|]. intros _. exists u. split; [done|]. intros Hin.
  destruct Hs1 as [(_ & w & Hw & Heq)|[? _]]; [|done].
  destruct (Hk None s1) as [_ Hs2]. destruct (Hs2 Hwf1) as [Hwf2 Heq2]. split; [done|]. rewrite Heq2, Heq. simpl.
  exists w. rewrite Hid, lookup_insert_eq, (version_equiv _ _ Hw), Hver, wrap64_small by done. split; [done|lia].
Qed.
Lemma ChangePassword_bumps a id p q s :
  wf (catalog s) → wp (ChangePassword a id p q) (λ r s', is_ok r = true → next_version id s s') s.
Proof.
  intros Hwf. unfold ChangePassword. apply wp_User; [done|]. intros [u|e] s1 Hs1 Hwf1 _ _ Hr; [|done].
  destruct (Hr u eq_refl) as [Hu <-]. apply wp_leaves; [eauto with go|done|].
  intros [?|e] s2 Hwf2 Hs2; [|done]. apply wp_leaves; [eauto with go|done|].
  intros [h|e] s3 Hwf3 Hs3; [|done]. apply (wp_update u); try done; [congruence|].
  intros e. moves_tac.
Qed.
Lemma AdminSetPassword_bumps a id p s :
  wf (catalog s) → wp (AdminSetPassword a id p) (λ r s', r = None → next_version id s s') s.
Proof.
  intros Hwf. unfold AdminSetPassword. apply wp_User; [done|]. intros [u|e] s1 Hs1 Hwf1 _ _ Hr; [|done].
  destruct (Hr u eq_refl) as [Hu <-]. apply wp_leaves; [eauto with go|done|].
  intros [h|e] s3 Hwf3 Hs3; [|done]. apply (wp_update u); try done; [congruence|].
  intros e. moves_tac.
Qed.

(** Changing a password ends the sessions of the account. After a
    successful [ChangePassword] or [AdminSetPassword], no session that was
    issued to the account at its version before the change is accepted again,
    whatever the service does, as long as the account is not deleted (and its
    version is below 2^53, where the claim of a token is exact). *)
Theorem password_change_ends_sessions a id p q s u s' :
  jwt_sound → jwt_injective → wf (catalog s) →
  accounts (cat s) !! id = Some u → 0 ≤ u_TokenVersion u < 2 ^ 53 →
  (is_ok (ChangePassword a id p q s).1 = true ∧ s' = (ChangePassword a id p q s).2 ∨
   (AdminSetPassword a id q s).1 = None ∧ s' = (AdminSetPassword a id q s).2) →
  sessions_ended id (u_TokenVersion u) s'.
Proof.
  intros Hsound Hinj Hwf Hu Hv Hs'. apply bumped_ends_sessions; [done..| |lia].
  assert (next_version id s s') as (u' & Hu' & Hat).
  { destruct Hs' as [[Hok ->]|[Hok ->]]; [by apply ChangePassword_bumps|by apply AdminSetPassword_bumps]. }
  simplify_eq. apply Hat. unfold in_int64, min_int64, max_int64. lia.
Qed.

(** ** API tokens *)

Lemma token_dead_wp t s (Q : bool → Service → Prop) :
  (∀ s', catalog s' = catalog s → Q true s') →
  (∀ s', catalog s' = catalog s → t_RevokedAt t = 0 → (t_ExpiresAt t = 0 ∨ clock (ticks s) < t_ExpiresAt t) → Q false s') →
  wp (token_dead t) Q s.
Proof.
  intros HT HF. unfold token_dead, is_zero_time. case_bool_decide; simpl; [|by apply wp_ret, HT].
  case_bool_decide; [apply wp_ret, HF; auto|]. unfold wp. simpl.
  destruct (Z.ltb_spec (clock (ticks s)) (t_ExpiresAt t)); [apply HF|apply HT]; auto.
Qed.
(** The facts behind an accepted API token. *)
Record token_checked (raw : string) (s : Service) (t : APIToken) (u : User) : Prop := {
  tk_digest : ∃ a b, split "_" raw = ["khz"; a; b] ∧ a ≠ "" ∧ b ≠ "" ∧ t_SHA256 t = HashToken (a +:+ b);
  tk_stored : api_tokens (cat s) !! t_ID t = Some t;
  tk_live : t_RevokedAt t = 0 ∧ (t_ExpiresAt t = 0 ∨ clock (ticks s) < t_ExpiresAt t);
  tk_owner : accounts (cat s) !! t_UserID t = Some u;
  tk_admin : ScopeAdmin ∈ t_Scopes t → u_Role u = RoleAdmin
}.
Lemma token_parts_Some raw a b : token_parts raw = Some (a, b) → split "_" raw = ["khz"; a; b] ∧ a ≠ "" ∧ b ≠ "".
Proof.
  unfold token_parts. destruct (split "_" raw) as [|x [|y [|z []]]]; try done.
  destruct (String.eqb_spec x "khz"); [|done]. destruct (String.eqb_spec y ""); [done|].
  destruct (String.eqb_spec z ""); [done|]. simpl. intros. by simplify_eq.
Qed.
Lemma live_admin t u : adminScopeRequiresLiveAdmin t u = false → ScopeAdmin ∈ t_Scopes t → u_Role u = RoleAdmin.
Proof.
  intros Hlive Hsc. destruct (String.eqb_spec (u_Role u) RoleAdmin) as [|Hne]; [done|].
  apply not_true_iff_false in Hlive. destruct Hlive. apply existsb_exists. exists ScopeAdmin.
  apply list_elem_of_In in Hsc. split; [done|]. apply andb_true_iff. split; [apply String.eqb_refl|].
  apply negb_true_iff. by apply String.eqb_neq.
Qed.
Lemma VerifyAPIToken_checked raw s t u :
  wf (catalog s) → (VerifyAPIToken raw s).1 = Ok (t, u) → token_checked raw s t u.
Proof.
  intros Hwf. change (wp (VerifyAPIToken raw) (λ r _, r = Ok (t, u) → token_checked raw s t u) s).
  unfold VerifyAPIToken. destruct (token_parts raw) as [[a b]|] eqn:Hp; [|by apply wp_ret].
  apply token_parts_Some in Hp. eapply wp_catalog; [apply TokenBySHA256_refines|done|].
  intros [t'|e] s1 [Hs1 Ht] Hwf1 _ Hticks; [|by apply wp_ret]. destruct Ht as [Ht Hsha].
  apply wp_bind, token_dead_wp; [intros s2 _; by apply wp_ret|]. intros s2 Hs2 Hrev Hexp.
  assert (cat s2 = cat s) as Hc2 by (unfold cat in *; congruence).
  apply wp_User; [by rewrite Hs2|]. intros [u'|e] s3 Hs3 Hwf3 _ _ Hu; [|by apply wp_ret].
  destruct (Hu u' eq_refl) as [Hacc Hid]. destruct (adminScopeRequiresLiveAdmin t' u') eqn:Hadm; [by apply wp_ret|].
  apply wp_bind. unfold wp. intros [= <- <-]. rewrite Hticks in Hexp. rewrite Hc2, Hid in Hacc.
  split; [|done..|by apply live_admin].
  exists a, b. destruct Hp as (? & ? & ?). by split_and!.
Qed.

(** An API token is accepted only in the form [khz_a_b] and only if the
    catalogue holds the digest of [ab] for a token that is neither revoked nor
    expired and whose owner still has an account; a token with the admin scope
    only while its owner is an administrator. *)
Theorem VerifyAPIToken_sound raw s t u :
  wf (catalog s) → (VerifyAPIToken raw s).1 = Ok (t, u) → token_checked raw s t u.
Proof. apply VerifyAPIToken_checked. Qed.

(** [dead h s]: no token with the digest [h] is live. *)
Definition dead_digest (h : string) (s : Service) : Prop :=
  wf (catalog s) ∧ ∀ i t, api_tokens (cat s) !! i = Some t → t_SHA256 t = h → t_RevokedAt t ≠ 0.
(** The random ids yet to come do not produce the digest. *)
Definition not_reissued (h : string) (n : nat) : Prop := ∀ k seed, (n ≤ k)%nat → UUID4 k = Ok seed →
  HashToken (remove_dashes (String.substring 0 8 seed) +:+ remove_dashes seed) ≠ h.
Lemma dead_leaves h s s' : leaves api_tokens s s' → dead_digest h s → dead_digest h s'.
Proof. intros [_ Hs'] [Hwf Hdead]. destruct (Hs' Hwf) as [? Heq]. split; [done|]. by rewrite Heq. Qed.
(** A write of tokens that adds none of the digest and revives none. *)
Lemma wp_dead {A B} h (m : St D A) (P : spec A) (k : A → M B) s :
  refines m P → dead_digest h s →
  (∀ a c', P (cat s) a c' → ∀ i t, api_tokens c' !! i = Some t → t_SHA256 t = h → t_RevokedAt t ≠ 0) →
  (∀ a, moves (leaves (λ c, c)) (k a)) →
  wp (on_catalog m ≫= k) (λ _ s', dead_digest h s') s.
Proof.
  intros Hm [Hwf Hdead] HP Hk. eapply wp_catalog; [done..|]. intros a s1 Hs1 Hwf1 _ _.
  destruct (Hk a s1) as [_ Hs2]. destruct (Hs2 Hwf1) as [? Heq]. unfold wp. split; [done|]. rewrite Heq. by eapply HP.
Qed.
Lemma dead_added h t id c c' i w :
  (∀ i t, api_tokens c !! i = Some t → t_SHA256 t = h → t_RevokedAt t ≠ 0) → t_SHA256 t ≠ h → add_token t id c c' →
  api_tokens c' !! i = Some w → t_SHA256 w = h → t_RevokedAt w ≠ 0.
Proof.
  intros Hdead Hne (_ & _ & w' & Hw' & ->). simpl. intros [[<- <-]|[_ Hi]]%lookup_insert_Some Hsha; [|by eapply Hdead].
  destruct Hne. pose proof (f_equal t_SHA256 (st_rest _ _ Hw')) as Heq. simpl in Heq. congruence.
Qed.
Lemma rounded_nonzero t w : second ≤ t → rounded t w → w ≠ 0.
Proof.
  intros Ht Hw. pose proof (rounded_ge t w (unix second) Hw (unix_mono _ _ Ht)) as Hge.
  change (from_unix (unix second)) with second in Hge. unfold second in *. lia.
Qed.
Lemma IssueAPIToken_dead h u n sc ttl s :
  dead_digest h s → not_reissued h (rands s) → wp (IssueAPIToken u n sc ttl) (λ _ s', dead_digest h s') s.
Proof.
  intros Hdead Hnew. unfold IssueAPIToken. destruct (canonical_scopes sc) as [cs|e] eqn:Hcs; [|by apply wp_ret].
  apply wp_bind. unfold wp at 1. simpl. destruct (UUID4 (rands s)) as [seed|e] eqn:Hseed; [|by apply wp_ret].
  apply wp_bind. unfold wp at 1. simpl.
  eapply wp_dead; [apply CreateToken_refines; [done..|by eapply canonical_scopes_ok]|done| |intros; moves_tac].
  intros a c' Ha i t. destruct Hdead as [_ Hdead]. specialize (Hnew _ _ (le_n _) Hseed).
  destruct a as [t'|e]; [destruct Ha as [_ Ha]|destruct Ha as [->|[id Ha]]]; [|by apply Hdead|];
    (eapply dead_added; [exact Hdead| |exact Ha]; exact Hnew).
Qed.
Lemma RevokeToken_dead h id s :
  dead_digest h s → second ≤ clock (ticks s) → wp (RevokeToken id) (λ _ s', dead_digest h s') s.
Proof.
  intros [Hwf Hdead] Hclock. unfold RevokeToken. apply wp_bind. unfold wp at 1. simpl.
  eapply wp_catalog_last; [apply RevokeToken_refines|done|]. intros r s1 Hs1 Hwf1. split; [done|].
  destruct Hs1 as [(t & w & Ht & Hw & ->)|[_ ->]]; [|done]. simpl.
  intros i t' [[<- <-]|[_ Hi]]%lookup_insert_Some Hsha; [|by eapply Hdead]. simpl. by eapply rounded_nonzero.
Qed.
Lemma DeleteUser_dead h id s : dead_digest h s → wp (DeleteUser id) (λ _ s', dead_digest h s') s.
Proof.
  intros Hdead. unfold DeleteUser. apply wp_bind.
  assert (moves (leaves api_tokens) (InvalidateUserSessions id)) as Hinv.
  { assert (blind_accounts api_tokens) by done. unfold InvalidateUserSessions. moves_tac. }
  specialize (Hinv s). apply (dead_leaves h) in Hinv; [|done]. unfold wp at 1. destruct (InvalidateUserSessions id s) as [e s1].
  simpl in *. clear Hdead. destruct e; [by apply wp_ret|]. destruct Hinv as [Hwf Hdead]. apply wp_leaves; [eauto with go|done|].
  intros [u|e] s2 Hwf2 Hs2; [|apply wp_ret; split; [done|by rewrite Hs2]]. rewrite <- Hs2 in Hdead.
  eapply wp_dead; [apply DeleteUser_refines|done| |intros; moves_tac].
  intros r c' [(m & Hm & ->)|[_ ->]]; [|done]. simpl. intros i t Hi. eapply lookup_weaken in Hi; [|done]. by eapply Hdead.
Qed.
Lemma dead_step h o s : dead_digest h s → not_reissued h (rands s) → second ≤ clock (ticks s) →
  dead_digest h (run_op o s).2.
Proof.
  intros Hdead Hnew Hclock. destruct (writes_tokens o) eqn:Ho.
  - change (wp (run_op o) (λ _ s', dead_digest h s') s). destruct o; try done; simpl; apply wp_bind.
    + by apply DeleteUser_dead.
    + by apply IssueAPIToken_dead.
    + by apply RevokeToken_dead.
  - eapply dead_leaves; [|done]. apply run_op_leaves; [done|congruence|done].
Qed.
Lemma run_op_forward o s : (ticks s ≤ ticks (run_op o s).2 ∧ rands s ≤ rands (run_op o s).2)%nat.
Proof. by destruct (run_op_leaves (λ _, tt) o ltac:(done) ltac:(done) ltac:(done) s). Qed.
Lemma dead_run h ops s : clock_monotone → dead_digest h s → not_reissued h (rands s) → second ≤ clock (ticks s) →
  dead_digest h (run ops s).
Proof.
  intros Hmono. revert s. induction ops as [|o ops IH]; intros s Hdead Hnew Hclock; [done|].
  destruct (run_op_forward o s) as [Ht Hr]. apply IH; [by apply dead_step| |].
  - intros k seed Hk. apply Hnew. lia.
  - pose proof (Hmono _ _ Ht). lia.
Qed.

(** C12: revoking an API token is final. After a successful [RevokeToken] no
    string that carries the token's secret is accepted again, whatever the
    service does, as long as no later random id produces the same digest. *)
Theorem revoked_token_is_final id t s ops raw a b :
  clock_monotone → wf (catalog s) → second ≤ clock (ticks s) →
  api_tokens (cat s) !! id = Some t → token_parts raw = Some (a, b) → t_SHA256 t = HashToken (a +:+ b) →
  not_reissued (t_SHA256 t) (rands s) →
  (RevokeToken id s).1 = None →
  ∀ r, (VerifyAPIToken raw (run ops (RevokeToken id s).2)).1 ≠ Ok r.
Proof.
  intros Hmono Hwf Hclock Ht Hp Hsha Hnew Hok [t' u] Hacc. set (s1 := (RevokeToken id s).2) in *.
  assert (dead_digest (t_SHA256 t) s1 ∧ rands s1 = rands s ∧ (ticks s ≤ ticks s1)%nat) as (Hdead & Hr & Hticks).
  { revert Hok. change (wp (RevokeToken id) (λ r s1, r = None → dead_digest (t_SHA256 t) s1 ∧ rands s1 = rands s ∧
      (ticks s ≤ ticks s1)%nat) s).
    unfold RevokeToken. apply wp_bind. unfold wp at 1. simpl. unfold wp, on_catalog, zoom. simpl.
    pose proof (RevokeToken_refines id (clock (ticks s)) _ Hwf) as Hm.
    destruct (RevokeToken_in id _ _) as [r d]. destruct Hm as [Hwf' Hm]. simpl in *. intros ->.
    split_and!; [|done|lia]. split; [done|]. unfold cat. simpl.
    destruct Hm as [(t0 & w & Ht0 & Hw & ->)|[? _]]; [|done]. simpl. intros i t1 Hi Hsha1.
    assert (i = id) as ->.
    { apply lookup_insert_Some in Hi as [[-> _]|[_ Hi]]; [done|]. by apply (tokens_unique _ _ _ _ _ Hwf Hi Ht). }
    rewrite lookup_insert_eq in Hi. injection Hi as <-. simpl. by eapply rounded_nonzero. }
  apply (dead_run _ ops) in Hdead as [Hwf' Hdead]; [|done|by rewrite Hr|pose proof (Hmono _ _ Hticks); lia].
  apply VerifyAPIToken_checked in Hacc; [|done]. destruct Hacc as [(a' & b' & Hsp & _ & _ & Hd) Hst [Hlive _] _ _].
  apply token_parts_Some in Hp as [Hp _]. rewrite Hp in Hsp. simplify_eq. eapply Hdead; [done|congruence|done].
Qed.

(** ** From an account to a session *)
Context `{!Available D}.
Definition bcrypt_complete : Prop := ∀ n p h, bcrypt_Generate n p = Some h → bcrypt_Compare h p = true.
Definition jwt_total : Prop := ∀ c key, is_ok (jwt_sign c key) = true.
Definition jwt_complete : Prop := ∀ c key raw t,
  jwt_sign c key = Ok raw → t < from_unix (c_exp c) → jwt_parse raw key t = Some (parsed c).

(** The state in which only the clock, the random ids and the trail advance. *)
Record kept (s s' : Service) : Prop := {
  k_up : up (catalog s) → up (catalog s');
  k_wf : wf (catalog s) → wf (catalog s') ∧ cat s' = cat s;
  k_revoked : revoked s' = revoked s
}.
Lemma wp_User_up id u s (Q : res User → Service → Prop) :
  up (catalog s) → wf (catalog s) → accounts (cat s) !! id = Some u →
  (∀ s', kept s s' → ticks s' = ticks s → rands s' = rands s → Q (Ok u) s') → wp (on_catalog (User_in id)) Q s.
Proof.
  intros Hup Hwf Hu HQ. unfold wp, on_catalog, zoom. destruct (up_User id _ Hup) as [Hup' Herr].
  destruct (User_refines id _ Hwf) as [Hwf' [Hcat Hr]].
  destruct (User_in id (catalog s)) as [r d]. simpl in *.
  assert (r = Ok u) as ->.
  { unfold cat in Hu. destruct r as [u'|e]; [congruence|]. specialize (Hr (Herr e eq_refl)). congruence. }
  by apply HQ.
Qed.
Lemma wp_ByName_up n id u s (Q : res User → Service → Prop) :
  up (catalog s) → wf (catalog s) → accounts (cat s) !! id = Some u → u_Username u = n →
  (∀ s', kept s s' → ticks s' = ticks s → rands s' = rands s → Q (Ok u) s') → wp (on_catalog (UserByUsername n)) Q s.
Proof.
  intros Hup Hwf Hu Hn HQ. unfold wp, on_catalog, zoom. destruct (up_ByName n _ Hup) as [Hup' Herr].
  destruct (UserByUsername_refines n _ Hwf) as [Hwf' [Hcat Hr]].
  destruct (UserByUsername n (catalog s)) as [r d]. simpl in *. unfold cat in Hu.
  assert (r = Ok u) as ->.
  { destruct r as [u'|e]; [|by destruct (Hr (Herr e eq_refl) _ _ Hu)]. destruct Hr as [Hu' Hn'].
    pose proof (names_unique _ _ _ _ _ Hwf Hu Hu' ltac:(congruence)). congruence. }
  by apply HQ.
Qed.
Lemma wp_IsRevoked_up j t s (Q : res bool → Service → Prop) :
  up (catalog s) → wf (catalog s) → revocations (cat s) !! j = None →
  (∀ s', kept s s' → ticks s' = ticks s → Q (Ok false) s') → wp (on_catalog (IsRevoked j t)) Q s.
Proof.
  intros Hup Hwf Hj HQ. unfold wp, on_catalog, zoom. destruct (up_IsRevoked j t _ Hup) as [Hup' Hok].
  destruct (IsRevoked_refines j t _ Hwf) as [Hwf' [Hcat Hr]].
  destruct (IsRevoked j t (catalog s)) as [[[]|e] d]; simpl in *; [|by apply HQ|done].
  unfold cat in Hj. rewrite Hj in Hr. by destruct Hr.
Qed.

(** The account that a creation stores. *)
Lemma CreateUser_wp n p r s (Hwf : wf (catalog s)) (Hup : up (catalog s)) :
  wp (CreateUser n p r) (λ x s', ∀ u, x = Ok u → up (catalog s') ∧ wf (catalog s') ∧ len p ≤ maxBcryptPassword ∧
    ∃ w k, accounts (cat s') !! u_ID u = Some w ∧ w ≡ u ∧ u_Username u = n ∧ u_TokenVersion u = 1 ∧
      bcrypt_Generate k p = Some (u_PasswordHash u)) s.
Proof.
  unfold CreateUser. destruct (ValidateUsername n); [by apply wp_ret|]. unfold hashPassword.
  destruct (len p <? minPasswordLen); [done|]. destruct (Z.ltb_spec maxBcryptPassword (len p)); [done|].
  apply wp_bind. unfold wp at 1. simpl. destruct (bcrypt_Generate (rands s) p) as [h|] eqn:Hh; [|done].
  apply wp_bind. unfold wp at 1. simpl. set (u0 := mk_User 0 n h r 1 (clock (ticks s))).
  apply wp_bind. unfold wp at 1. unfold on_catalog, zoom. simpl.
  pose proof (up_CreateUser u0 _ Hup) as Hup'. pose proof (CreateUser_refines u0 eq_refl _ Hwf) as [Hwf' Hc].
  destruct (CreateUser_in u0 (catalog s)) as [[u'|e] d]; [|done]. destruct Hc as [Hu' (Hnone & w & Hw & Hd)].
  unfold wp. simpl. intros u [= <-]. split_and!; [done..|]. exists w, (rands s). unfold cat. simpl in *. rewrite Hd. simpl.
  rewrite lookup_insert_eq. rewrite Hu' in *. by split_and!.
Qed.

Definition login_kept (s s' : Service) : Prop :=
  up (catalog s') ∧ wf (catalog s') ∧ cat s' = cat s ∧ revoked s' = revoked s ∧ ticks s' = S (S (ticks s)).
Lemma Login_up n p s id u j :
  jwt_total → up (catalog s) → wf (catalog s) → accounts (cat s) !! id = Some u → u_Username u = n →
  bcrypt_Compare (u_PasswordHash u) p = true → len p ≤ maxBcryptPassword → UUID4 (rands s) = Ok j →
  wp (Login n p) (λ r s', login_kept s s' ∧
    ∃ raw, r = Ok raw ∧ jwt_sign (session_claims u j (clock (ticks s))) JWTSecret = Ok raw) s.
Proof.
  intros Htot Hup Hwf Hu Hn Hcmp Hlen Hj. unfold Login, VerifyPassword. apply wp_bind, wp_bind.
  eapply wp_ByName_up; [done..|]. intros s1 [Hup1 Hwf1 Hm1] Ht1 Hr1. apply wp_ret. rewrite Hcmp. simpl.
  destruct (Z.ltb_spec maxBcryptPassword (len p)); [lia|]. apply wp_bind. unfold IssueSession, uuid.
  apply wp_bind, wp_bind. unfold wp at 1. simpl. rewrite Hr1, Hj. apply wp_ret. apply wp_bind. unfold wp at 1. simpl.
  rewrite Ht1. set (c := session_claims u j (clock (ticks s))). apply wp_ret.
  specialize (Htot c JWTSecret). destruct (jwt_sign c JWTSecret) as [raw|]; [|done].
  unfold wp. simpl. split; [|by exists raw].
  destruct (Hwf1 Hwf) as [? Heq]. unfold login_kept. simpl. auto.
Qed.
Lemma ValidateSession_up raw c s u :
  jwt_complete → up (catalog s) → wf (catalog s) → jwt_sign c JWTSecret = Ok raw →
  clock (ticks s) < from_unix (c_exp c) → c_sub c = fmt_int (u_ID u) → in_int64 (u_ID u) →
  accounts (cat s) !! u_ID u = Some u → c_ver c = u_TokenVersion u → 0 ≤ u_TokenVersion u < 2 ^ 53 →
  c_jti c ≠ "" → revoked s !! c_jti c = None → revocations (cat s) !! c_jti c = None →
  (ValidateSession raw s).1 = Ok (mk_Session u (c_jti c)).
Proof.
  intros Hcomp Hup Hwf Hsign Hexp Hsub Hid Hu Hver Hv Hj Hm Hr.
  change (wp (ValidateSession raw) (λ r _, r = Ok (mk_Session u (c_jti c))) s).
  unfold ValidateSession. apply wp_bind. unfold wp at 1. simpl. rewrite (Hcomp _ _ _ _ Hsign Hexp).
  unfold session_subject. simpl. rewrite Hsub, parse_int_fmt by done. simpl. apply wp_bind.
  eapply wp_User_up; [done..|]. intros s1 [Hup1 Hwf1 Hm1] _ _. rewrite float64_int_small, Hver, Z.eqb_refl by lia. simpl.
  destruct (String.eqb_spec (c_jti c) ""); [done|]. destruct (Hwf1 Hwf) as [Hwf1' Hc1]. specialize (Hup1 Hup).
  unfold check_revoked, revokedInMemory. apply wp_bind, wp_bind, wp_gets. rewrite Hm1. simpl. rewrite Hm. apply wp_ret.
  apply wp_bind. unfold wp at 1. simpl. apply wp_bind. apply wp_IsRevoked_up; simpl; [done..| |].
  - unfold cat in *. simpl. by rewrite Hc1.
  - by intros.
Qed.

(** C13: over an available catalogue a created account can log in with its
    password, and the session it gets is accepted as that account until it
    expires or is revoked. *)
Theorem login_roundtrip n p r s u s1 j :
  bcrypt_complete → jwt_total → jwt_complete → up (catalog s) → wf (catalog s) →
  CreateUser n p r s = (Ok u, s1) → in_int64 (u_ID u) →
  UUID4 (rands s1) = Ok j → j ≠ "" → revoked s1 !! j = None → revocations (cat s1) !! j = None →
  clock (S (S (ticks s1))) < from_unix (unix (clock (ticks s1) + SessionTTL)) →
  ∃ raw s2 w, Login n p s1 = (Ok raw, s2) ∧ w ≡ u ∧ (ValidateSession raw s2).1 = Ok (mk_Session w j).
Proof.
  intros Hb Htot Hcomp Hup Hwf Hcreate Hid Hj Hne Hm Hr Hclock.
  destruct (CreateUser_wp n p r s Hwf Hup u) as (Hup1 & Hwf1 & Hlen & w & k & Hw & Heq & Hn & Hv & Hh);
    [by rewrite Hcreate|]. rewrite Hcreate in *. simpl in *.
  assert (u_ID w = u_ID u) as Hwid by by apply (f_equal u_ID Heq).
  destruct (Login_up n p s1 (u_ID u) w j) as ((Hup2 & Hwf2 & Hc2 & Hm2 & Ht2) & raw & Hraw & Hsign); try done.
  { rewrite <- Hn. by apply (f_equal u_Username Heq). }
  { apply (Hb k). rewrite Hh. f_equal. symmetry. apply (f_equal u_PasswordHash Heq). }
  destruct (Login n p s1) as [r2 s2]. simpl in *. exists raw, s2, w. split; [by rewrite Hraw|]. split; [done|].
  rewrite (ValidateSession_up raw _ s2 w Hcomp Hup2 Hwf2 Hsign); simpl; try done.
  - by rewrite Ht2.
  - by rewrite Hwid.
  - by rewrite Hc2, Hwid.
  - rewrite (version_equiv _ _ Heq), Hv. lia.
  - by rewrite Hm2.
  - by rewrite Hc2.
Qed.

End auth.
