(* ===== verification/AuthDemo.v ===== *)
(** Authentication over the SQLite catalogue: the theorems of Auth at concrete
    runs, and what a reused account id does to a session.

    The parameters of the service get concrete values: a clock that advances by
    a second per reading, ten numbered ids, a transparent password hash, and tokens
    that are the encoding of their key and claims. *)
From S2P Require Import Prelude GoStr Domain Port Catalog Sqlite SqliteLaws Auth.
Local Open Scope Z_scope.

Definition demo_clock (n : nat) : Z := from_unix 1700000000 + Z.of_nat n * second.
Definition demo_UUID4 (n : nat) : res string :=
  if (n <? 10)%nat then Ok (fmt_int (10000000 + Z.of_nat n) +:+ "-4a") else Err (Text "entropy").
Definition demo_Generate (_ : nat) (p : string) : option string := Some ("h:" +:+ p).
Definition demo_Compare (h p : string) : bool := String.eqb h ("h:" +:+ p).
Definition demo_Hash (s : string) : string := "sha:" +:+ s.
Definition demo_any (m : gmap string Z) : option string := fst <$> head (map_to_list m).
Definition demo_secret : string := "secret".
Definition demo_TTL : Z := hour.

#[local] Instance Claims_eq_dec : EqDecision Claims.
Proof. solve_decision. Defined.
#[local] Instance Claims_countable : Countable Claims.
Proof.
  refine (inj_countable' (λ c, (c_sub c, c_jti c, c_ver c, c_iat c, c_exp c))
    (λ t, let '(s, j, v, i, e) := t in mk_Claims s j v i e) _). by intros [].
Defined.
Definition token_code (key : string) (c : Claims) : positive := encode (A := string * Claims) (key, c).
(** The bits of a code as a string. *)
Fixpoint bits (p : positive) : string :=
  match p with xH => "1" | xO p => String "0" (bits p) | xI p => String "1" (bits p) end.
Fixpoint of_bits (s : string) : positive :=
  match s with
  | String c (String _ _ as s) => if Ascii.eqb c "0" then xO (of_bits s) else xI (of_bits s)
  | _ => xH
  end.
Lemma of_bits_bits p : of_bits (bits p) = p.
Proof. induction p as [p IH|p IH|]; [| |done]; simpl; rewrite IH; by destruct p. Qed.
Definition demo_sign (c : Claims) (key : string) : res string := Ok (bits (token_code key c)).
Definition demo_parse (raw key : string) (t : Z) : option Parsed :=
  match decode (A := string * Claims) (of_bits raw) with
  | Some (k, c) =>
      if String.eqb raw (bits (token_code key c)) && (t <? from_unix (c_exp c)) then Some (parsed c) else None
  | None => None
  end.

Lemma demo_sound : jwt_sound demo_sign demo_parse.
Proof.
  intros raw key t p. unfold demo_parse, demo_sign. destruct (decode (A := string * Claims) _) as [[k c]|]; [|done].
  destruct (String.eqb_spec raw (bits (token_code key c))) as [->|]; [|done]. simpl.
  destruct (Z.ltb_spec t (from_unix (c_exp c))); [|done]. intros [= <-]. by exists c.
Qed.
Lemma demo_injective : jwt_injective demo_sign.
Proof.
  intros c c' key raw. unfold demo_sign. intros [= <-] [= Heq]. apply (f_equal of_bits) in Heq. rewrite !of_bits_bits in Heq.
  apply (inj (encode (A := string * Claims))) in Heq. congruence.
Qed.
Lemma demo_complete : jwt_complete demo_sign demo_parse.
Proof.
  intros c key raw t Hs Ht. assert (raw = bits (token_code key c)) as -> by (by injection Hs). unfold demo_parse. rewrite of_bits_bits. unfold token_code at 1. rewrite decode_encode, String.eqb_refl. simpl. destruct (Z.ltb_spec t (from_unix (c_exp c))); [done|lia].
Qed.
Lemma demo_monotone : clock_monotone demo_clock.
Proof. intros m n Hmn. unfold demo_clock, second. lia. Qed.

(** The requests of the service. *)
Abbreviation service := (Service (D := DB)).
Abbreviation create := (CreateUser (D := DB) demo_clock demo_Generate).
Abbreviation login := (Login (D := DB) demo_clock demo_UUID4 demo_Compare demo_sign demo_secret demo_TTL).
Abbreviation validate := (ValidateSession (D := DB) demo_clock demo_parse demo_secret).
Abbreviation revoke := (RevokeSession (D := DB) demo_clock demo_any demo_TTL).
Abbreviation remove := (DeleteUser (D := DB) demo_clock).
Abbreviation set_password := (AdminSetPassword (D := DB) demo_clock demo_Generate).

Definition start : service := mk_Service (mk_DB (λ _, Runs) (λ _, None) 0 empty_tables) ∅ ∅ [] 0 0.
Definition admin_ready : service := (create "admin" "admin-password" RoleAdmin start).2.
Definition alice_ready : service := (create "alice" "alice-password" RoleUser admin_ready).2.
Definition alice_in : service := (login "alice" "alice-password" alice_ready).2.
Definition or_empty (r : res string) : string := match r with Ok s => s | Err _ => "" end.
Definition alice_token : string := or_empty (login "alice" "alice-password" alice_ready).1.
Definition whose (r : res Session) : option string := match r with Ok ss => Some (u_Username (ss_User ss)) | Err _ => None end.

Example alice_validates : whose (validate alice_token alice_in).1 = Some "alice".
Proof. vm_compute. reflexivity. Qed.

(** ** A reused id

    The account is deleted, and the next one gets its id and starts at version 1
    again: the token of the deleted account is a session of the new one. *)
Definition alice_gone : service := (remove 2 alice_in).2.
Definition bob_ready : service := (create "bob" "bob-password" RoleAdmin alice_gone).2.
Lemma deleted_session_revives :
  (remove 2 alice_in).1 = None ∧
  whose (validate alice_token alice_gone).1 = None ∧
  whose (validate alice_token bob_ready).1 = Some "bob".
Proof. vm_compute. done. Qed.

(** ** The theorems at these runs *)
Lemma wf_start : wf (catalog start).
Proof.
  split; [by intros n e|]. split; simpl.
  1, 2: intros i j r r' Hi; by rewrite lookup_empty in Hi.
  all: intros i [r Hi]; by rewrite lookup_empty in Hi.
Qed.
Lemma wf_create n p r s : wf (catalog s) → wf (catalog (create n p r s).2).
Proof. intros Hwf. by apply (CreateUser_stepped demo_clock demo_Generate OpRestart). Qed.
Lemma wf_alice : wf (catalog alice_ready).
Proof. apply wf_create, wf_create, wf_start. Qed.
Lemma wf_alice_in : wf (catalog alice_in).
Proof.
  destruct (leaves_Login demo_clock demo_UUID4 demo_Compare demo_sign demo_secret demo_TTL (λ c, c)
    "alice" "alice-password" alice_ready) as [_ Hl]. by destruct (Hl wf_alice).
Qed.
Definition alice : User := mk_User 2 "alice" "h:alice-password" RoleUser 1 (from_unix 1700000002).
Definition alice_claims : Claims := mk_Claims "2" "10000002-4a" 1 1700000004 1700003604.
Lemma alice_session : (validate alice_token alice_in).1 = Ok (mk_Session alice "10000002-4a").
Proof. vm_compute. reflexivity. Qed.
Lemma alice_signed : demo_sign alice_claims demo_secret = Ok alice_token.
Proof. vm_compute. reflexivity. Qed.

Lemma ValidateSession_sound_witness :
  ∃ c, demo_sign c demo_secret = Ok alice_token ∧ demo_clock (ticks alice_in) < from_unix (c_exp c) ∧ parse_int (c_sub c) = Some 2 ∧
    c_jti c = "10000002-4a".
Proof.
  destruct (ValidateSession_sound (D := DB) demo_clock demo_sign demo_parse demo_secret alice_token alice_in
    (mk_Session alice "10000002-4a") demo_sound wf_alice_in alice_session) as (c & Hs & He & Hi & _ & _ & Hj & _).
  exists c. split; [exact Hs|]. split; [exact He|]. split; [exact Hi|symmetry; exact Hj].
Defined.

(** Alice logs out; the process restarts and others come and go. *)
Abbreviation demo_run := (run demo_clock demo_UUID4 demo_Generate demo_Compare demo_sign demo_parse demo_Hash demo_any
  demo_secret demo_TTL minute).
Definition later : list op := [OpRestart; OpCreateUser "bob" "bob-password" RoleUser; OpLogin "bob" "bob-password"; OpRestart].
Lemma logout_is_final_witness :
  (validate alice_token alice_in).1 = Ok (mk_Session alice "10000002-4a") ∧
  ∀ ss, (validate alice_token (demo_run later (revoke "10000002-4a" alice_in).2)).1 ≠ Ok ss.
Proof.
  split; [exact alice_session|]. intros ss Hss.
  destruct (logout_is_final (D := DB) demo_clock demo_UUID4 demo_Generate demo_Compare demo_sign demo_parse demo_Hash demo_any
    demo_secret demo_TTL minute "10000002-4a" alice_in later alice_token alice_claims demo_sound demo_injective demo_monotone
    wf_alice_in ltac:(discriminate) ltac:(vm_compute; reflexivity) alice_signed eq_refl
    ltac:(vm_compute; discriminate) ss Hss) as [_ Hexp].
  apply Hexp. vm_compute. reflexivity.
Defined.

(** An administrator sets a new password for Alice. *)
Lemma password_change_ends_sessions_witness :
  (set_password "admin" 2 "another-password" alice_in).1 = None ∧
  (validate alice_token (demo_run later (set_password "admin" 2 "another-password" alice_in).2)).1 ≠
    Ok (mk_Session alice "10000002-4a").
Proof.
  assert ((set_password "admin" 2 "another-password" alice_in).1 = None) as Hok by (vm_compute; reflexivity).
  split; [exact Hok|].
  refine (password_change_ends_sessions (D := DB) demo_clock demo_UUID4 demo_Generate demo_Compare demo_sign demo_parse demo_Hash
    demo_any demo_secret demo_TTL minute "admin" 2 "" "another-password" alice_in alice
    (set_password "admin" 2 "another-password" alice_in).2 demo_sound demo_injective wf_alice_in _ _
    (or_intror (conj Hok eq_refl)) later alice_token alice_claims (mk_Session alice "10000002-4a") _ _ alice_signed _ _).
  - vm_compute. reflexivity.
  - vm_compute. split; [discriminate|reflexivity].
  - unfold later. rewrite !not_elem_of_cons. split_and!; try discriminate. apply not_elem_of_nil.
  - vm_compute. reflexivity.
  - vm_compute. reflexivity.
  - vm_compute. split; discriminate.
Defined.

(** An API token of Alice's, revoked later. *)
Abbreviation issue := (IssueAPIToken (D := DB) demo_clock demo_UUID4 demo_Hash).
Abbreviation verify := (VerifyAPIToken (D := DB) demo_clock demo_Hash minute).
Abbreviation revoke_token := (RevokeToken (D := DB) demo_clock).
Definition with_token : service := (issue alice "ci" ["repo:07:write"] hour alice_in).2.
Definition raw_ci : string := match (issue alice "ci" ["repo:07:write"] hour alice_in).1 with Ok (_, raw) => raw | Err _ => "" end.
Definition ci_token : APIToken :=
  mk_APIToken 1 2 "ci" "10000003" (demo_Hash "10000003100000034a") ["repo:7:write"]
    (from_unix 1700000006) (from_unix 1700003606) 0.
Lemma ci_issued : raw_ci = "khz_10000003_100000034a" ∧ (verify raw_ci with_token).1 = Ok (ci_token, alice).
Proof. vm_compute. done. Qed.
Lemma wf_with_token : wf (catalog with_token).
Proof.
  destruct (leaves_IssueAPIToken demo_clock demo_UUID4 demo_Hash accounts alice "ci" ["repo:07:write"] hour
    ltac:(done) alice_in) as [_ Hl]. by destruct (Hl wf_alice_in).
Qed.
Lemma VerifyAPIToken_sound_witness :
  (verify raw_ci with_token).1 = Ok (ci_token, alice) ∧ token_checked demo_clock demo_Hash raw_ci with_token ci_token alice.
Proof.
  split; [exact (proj2 ci_issued)|].
  exact (VerifyAPIToken_sound (D := DB) demo_clock demo_Hash minute raw_ci with_token ci_token alice wf_with_token
    (proj2 ci_issued)).
Defined.

Lemma demo_not_reissued : not_reissued demo_UUID4 demo_Hash (t_SHA256 ci_token) 4.
Proof.
  intros k seed Hk. unfold demo_UUID4. destruct (Nat.ltb_spec k 10); [|done]. intros [= <-].
  do 10 (destruct k as [|k]; [try lia; vm_compute; discriminate|]). lia.
Qed.
Lemma revoked_token_is_final_witness :
  (verify raw_ci with_token).1 = Ok (ci_token, alice) ∧ (revoke_token 1 with_token).1 = None ∧
  (verify raw_ci (demo_run later (revoke_token 1 with_token).2)).1 ≠ Ok (ci_token, alice).
Proof.
  assert ((revoke_token 1 with_token).1 = None) as Hok by (vm_compute; reflexivity).
  split; [exact (proj2 ci_issued)|]. split; [exact Hok|].
  refine (revoked_token_is_final (D := DB) demo_clock demo_UUID4 demo_Generate demo_Compare demo_sign demo_parse
    demo_Hash demo_any demo_secret demo_TTL minute 1 ci_token with_token later raw_ci "10000003" "100000034a"
    demo_monotone wf_with_token _ _ _ eq_refl _ Hok (ci_token, alice)).
  - vm_compute. discriminate.
  - vm_compute. reflexivity.
  - vm_compute. reflexivity.
  - exact demo_not_reissued.
Defined.

(** A new account logs in. *)
Lemma pair_eq {A B} (p : A * B) a b : p.1 = a → p.2 = b → p = (a, b).
Proof. destruct p. simpl. congruence. Qed.
Lemma demo_available : up (catalog admin_ready).
Proof. intros n. by vm_compute. Qed.
Lemma login_roundtrip_witness :
  ∃ u raw s2 w, (create "alice" "alice-password" RoleUser admin_ready).1 = Ok u ∧
    login "alice" "alice-password" alice_ready = (Ok raw, s2) ∧ w ≡ u ∧
    (validate raw s2).1 = Ok (mk_Session w "10000002-4a").
Proof.
  pose (u := with_created (demo_clock 2) alice). exists u.
  assert ((create "alice" "alice-password" RoleUser admin_ready).1 = Ok u) as Hu by (vm_compute; reflexivity).
  destruct (login_roundtrip (D := DB) demo_clock demo_UUID4 demo_Generate demo_Compare demo_sign demo_parse demo_secret
    demo_TTL "alice" "alice-password" RoleUser admin_ready u alice_ready "10000002-4a") as (raw & s2 & w & H1 & H2 & H3).
  - intros n p h [= <-]. apply String.eqb_refl.
  - done.
  - exact demo_complete.
  - exact demo_available.
  - apply wf_create, wf_start.
  - exact (pair_eq _ _ _ Hu eq_refl).
  - vm_compute. split; discriminate.
  - vm_compute. reflexivity.
  - discriminate.
  - vm_compute. reflexivity.
  - vm_compute. reflexivity.
  - vm_compute. reflexivity.
  - exists raw, s2, w. split; [exact Hu|]. split; [exact H1|]. split; [exact H2|exact H3].
Defined.
