(* ===== verification/WebAuth.v ===== *)
(** Access control of the HTTP API (internal/core/web/middleware/auth.go, and the
    choice of the audited actor of internal/core/web/audit.go).

    A handler takes a request to the request as the handler left it (the code
    overwrites [*r], and the audit layer outside reads it afterwards) and the
    reply. A middleware takes a handler to a handler; what it lets through is
    stated with an arbitrary [next]. The service is the one of Auth. *)
From S2P Require Import Prelude GoStr Domain Port Catalog Auth.
Local Open Scope Z_scope.

Definition StatusUnauthorized : Z := 401.
Definition StatusForbidden : Z := 403.
Definition StatusServiceUnavailable : Z := 503.

(** A request: its header and URL parameter, and the values of its context. *)
Record Request := mk_Request {
  Authorization : string; URLParam_id : string;
  userKey : option User; tokenKey : option APIToken; jtiKey : string; auditActorKey : string
}.
Record Reply := mk_Reply { status : Z; body : string }.

Definition set_user (u : User) (r : Request) : Request :=
  mk_Request (Authorization r) (URLParam_id r) (Some u) (tokenKey r) (jtiKey r) (auditActorKey r).
Definition set_token (t : APIToken) (r : Request) : Request :=
  mk_Request (Authorization r) (URLParam_id r) (userKey r) (Some t) (jtiKey r) (auditActorKey r).
Definition set_jti (j : string) (r : Request) : Request :=
  mk_Request (Authorization r) (URLParam_id r) (userKey r) (tokenKey r) j (auditActorKey r).
Definition WithAuditActor (actor : string) (r : Request) : Request :=
  if String.eqb actor "" then r
  else mk_Request (Authorization r) (URLParam_id r) (userKey r) (tokenKey r) (jtiKey r) actor.
Definition UserFromContext (r : Request) : option User := userKey r.
Definition TokenFromContext (r : Request) : option APIToken := tokenKey r.

(** [strings.SplitN(v, " ", 2)] has two parts when there is a space. No letter
    outside ASCII folds to one of [Bearer]. *)
Definition bearer (r : Request) : option string :=
  let '(scheme, raw, found) := cut " " (Authorization r) in
  if negb found || negb (equal_fold scheme "Bearer") || String.eqb raw "" then None else Some raw.

Definition repoIDFromURL (r : Request) : option Z :=
  if String.eqb (URLParam_id r) "" then None
  else match parse_int (URLParam_id r) with
       | None => None
       | Some id => if id <=? 0 then None else Some id
       end.

(** The actor of an audit entry ([recordAudit]): the marker of a refused caller
    is preferred to the caller. *)
Definition token_actor (t : APIToken) : string := "token:" +:+ t_Prefix t.
Definition recorded_actor (r : Request) : string :=
  if negb (String.eqb (auditActorKey r) "") then auditActorKey r
  else match UserFromContext r, TokenFromContext r with
       | Some u, t => if negb (String.eqb (u_Username u) "") then u_Username u
                      else match t with Some t => token_actor t | None => "anonymous" end
       | None, Some t => token_actor t
       | None, None => "anonymous"
       end.

(** The repositories of the catalogue. *)
Class RepoStore (D : Type) := Repo_in : Z → St D (res Repo).
Class RepoLaws (D : Type) `{CatalogView D, RepoStore D} := {
  repos : D → gmap Z Repo;
  Repo_reads id s : wf s → repos (Repo_in id s).2 = repos s ∧
    ∀ r, (Repo_in id s).1 = Ok r → repos s !! id = Some r
}.

Section web.
  Context {D : Type} `{UserStore D} `{TokenStore D} `{Revocations D} `{!RepoStore D}.
  Context (clock : nat → Z) (jwt_parse : string → string → Z → option Parsed) (HashToken : string → string).
  Context (JWTSecret : string) (TouchInterval : Z).

Abbreviation M := (St (Service (D := D))).
Abbreviation Handler := (Request → M (Request * Reply)).
Abbreviation ValidateSession := (Auth.ValidateSession clock jwt_parse JWTSecret).
Abbreviation VerifyAPIToken := (Auth.VerifyAPIToken clock HashToken TouchInterval).

Definition http_Error (msg : string) (code : Z) : Handler := λ r,
  mret (r, mk_Reply code (msg +:+ String "010" "")).
Definition unauthorized : Handler := http_Error "unauthorized" StatusUnauthorized.
Definition forbidden_ : Handler := http_Error "forbidden" StatusForbidden.
Definition authReject (e : error) : Handler :=
  if has_type is_Unavailable e then http_Error "service unavailable" StatusServiceUnavailable
  else unauthorized.

Definition RequireSession (next : Handler) : Handler := λ r,
  match bearer r with
  | None => unauthorized r
  | Some raw =>
      session ← ValidateSession raw;
      match session with
      | Err e => authReject e r
      | Ok session => next (set_jti (ss_JTI session) (set_user (ss_User session) r))
      end
  end.
Definition RequireAPIToken (next : Handler) : Handler := λ r,
  match bearer r with
  | None => unauthorized r
  | Some raw =>
      if negb (has_prefix raw "khz_") then unauthorized r
      else
        x ← VerifyAPIToken raw;
        match x with
        | Err e => authReject e r
        | Ok (token, user) => next (set_token token (set_user user r))
        end
  end.
Definition is_admin (u : User) : bool := String.eqb (u_Role u) RoleAdmin.
Definition RequireAdmin (next : Handler) : Handler := λ r,
  match UserFromContext r with
  | None => forbidden_ r
  | Some u => if is_admin u then next r else forbidden_ (WithAuditActor (u_Username u) r)
  end.

(** Both loops over the scopes stop at the first that grants. *)
Definition grants (scope got : string) : bool :=
  String.eqb got scope || negb (String.eqb scope ScopeAdmin) && String.eqb got ScopeAdmin.
Definition RequireScope (scope : string) (next : Handler) : Handler := λ r,
  match TokenFromContext r with
  | Some t =>
      if existsb (grants scope) (t_Scopes t) then next r
      else forbidden_ (WithAuditActor (token_actor t) r)
  | None =>
      match UserFromContext r with
      | Some u => if is_admin u then next r else forbidden_ r
      | None => forbidden_ r
      end
  end.
(** The two kinds of credentials, told apart by their prefix. *)
Definition by_credential (token session : Handler) : Handler := λ r,
  match bearer r with
  | None => unauthorized r
  | Some raw => if has_prefix raw "khz_" then token r else session r
  end.
Definition RequireAdminOrAPIToken (next : Handler) : Handler :=
  by_credential (RequireAPIToken (RequireScope ScopeAdmin next)) (RequireSession (RequireAdmin next)).

Definition owner_access (next : Handler) : Handler := λ r,
  match UserFromContext r with
  | None => forbidden_ r
  | Some u =>
      if is_admin u then next r
      else match repoIDFromURL r with
           | None => forbidden_ r
           | Some repoID =>
               repo ← on_catalog (Repo_in repoID);
               match repo with
               | Err e =>
                   if has_type is_Unavailable e then authReject e r
                   else forbidden_ (WithAuditActor (u_Username u) r)
               | Ok repo =>
                   if repo_OwnerID repo =? u_ID u then next r
                   else forbidden_ (WithAuditActor (u_Username u) r)
               end
           end
  end.
Definition opens (repoID : Z) (sc : string) : bool := String.eqb sc ScopeAdmin || AllowsWrite sc repoID.
Definition token_access (next : Handler) : Handler := λ r,
  match TokenFromContext r with
  | None => forbidden_ r
  | Some t =>
      match repoIDFromURL r with
      | None => forbidden_ r
      | Some repoID =>
          if existsb (opens repoID) (t_Scopes t) then next r
          else forbidden_ (WithAuditActor (token_actor t) (set_user no_User r))
      end
  end.
Definition RequireRepoAccess (next : Handler) : Handler :=
  by_credential (RequireAPIToken (token_access next)) (RequireSession (owner_access next)).
End web.

(** * What the middlewares let through *)
Section props.
  Context {D : Type} `{UserStore D} `{TokenStore D} `{Revocations D} `{!RepoStore D}.
  Context `{!CatalogView D, !UserLaws D, !TokenLaws D, !RevocationLaws D, !RepoLaws D}.
  Context (clock : nat → Z) (jwt_sign : Claims → string → res string) (jwt_parse : string → string → Z → option Parsed).
  Context (HashToken : string → string) (JWTSecret : string) (TouchInterval : Z).

Abbreviation M := (St (Service (D := D))).
Abbreviation Handler := (Request → M (Request * Reply)).
Abbreviation ValidateSession := (Auth.ValidateSession clock jwt_parse JWTSecret).
Abbreviation VerifyAPIToken := (Auth.VerifyAPIToken clock HashToken TouchInterval).
Abbreviation admin_access := (RequireAdminOrAPIToken (D := D) clock jwt_parse HashToken JWTSecret TouchInterval).
Abbreviation repo_access := (RequireRepoAccess (D := D) clock jwt_parse HashToken JWTSecret TouchInterval).

(** The verdict of a middleware: it answers by itself, or it calls the next
    handler, once, and adds nothing to its answer. *)
Inductive verdict :=
| Refuse (r : Request) (p : Reply) (s : Service (D := D))
| Pass (r : Request) (s : Service (D := D)).
Definition rules (mw : Handler → Handler) (r : Request) (s : Service) (v : verdict) : Prop := ∀ next,
  mw next r s = match v with Refuse r' p s' => ((r', p), s') | Pass r' s' => next r' s' end.
Definition refused (v : verdict) (code : Z) : Prop := match v with Refuse _ p _ => status p = code | Pass _ _ => False end.

(** A session is let through to an account read with it, a token to its scopes. *)
Definition session_in (raw : string) (s : Service) (u : User) : Prop :=
  ∃ j c, session_checked clock jwt_sign jwt_parse JWTSecret raw s (mk_Session u j) c.
Definition token_in (raw : string) (s : Service) (t : APIToken) (u : User) : Prop :=
  has_prefix raw "khz_" = true ∧ token_checked clock HashToken raw s t u.

Lemma rules_refuse mw r r' p s s' : (∀ next, mw next r s = ((r', p), s')) → rules mw r s (Refuse r' p s').
Proof. done. Qed.
(** The handler behind is not called. *)
Ltac refuse_tac := eexists (Refuse _ _ _); split; [reflexivity|set_solver].

Lemma authReject_status e r s :
  ∃ p, authReject (D := D) e r s = ((r, p), s) ∧ status p = if has_type is_Unavailable e then 503 else 401.
Proof. unfold authReject. destruct (has_type is_Unavailable e); by eexists. Qed.

(** The two authenticating middlewares, and the owners behind them, run. *)
Lemma RequireSession_run next r s : RequireSession clock jwt_parse JWTSecret next r s =
  match bearer r with
  | None => unauthorized r s
  | Some raw => match ValidateSession raw s with
                | (Ok ss, s') => next (set_jti (ss_JTI ss) (set_user (ss_User ss) r)) s'
                | (Err e, s') => authReject e r s'
                end
  end.
Proof.
  unfold RequireSession. destruct (bearer r) as [raw|]; [|done]. unfold mbind, st_bind.
  by destruct (ValidateSession raw s) as [[ss|e] s'].
Qed.
Lemma RequireAPIToken_run next r s : RequireAPIToken clock HashToken TouchInterval next r s =
  match bearer r with
  | None => unauthorized r s
  | Some raw => if has_prefix raw "khz_" then
                  match VerifyAPIToken raw s with
                  | (Ok (t, u), s') => next (set_token t (set_user u r)) s'
                  | (Err e, s') => authReject e r s'
                  end
                else unauthorized r s
  end.
Proof.
  unfold RequireAPIToken. destruct (bearer r) as [raw|]; [|done]. unfold mbind, st_bind.
  destruct (has_prefix raw "khz_"); [|done]. simpl. by destruct (VerifyAPIToken raw s) as [[[t u]|e] s'].
Qed.

(** The credential of a request, and what is done with it. *)
Lemma credential_run (with_tok with_ses : Handler) r s :
  by_credential (RequireAPIToken clock HashToken TouchInterval with_tok)
    (RequireSession clock jwt_parse JWTSecret with_ses) r s =
  match bearer r with
  | None => unauthorized r s
  | Some raw =>
      if has_prefix raw "khz_" then
        match VerifyAPIToken raw s with
        | (Ok (t, u), s') => with_tok (set_token t (set_user u r)) s'
        | (Err e, s') => authReject e r s'
        end
      else
        match ValidateSession raw s with
        | (Ok ss, s') => with_ses (set_jti (ss_JTI ss) (set_user (ss_User ss) r)) s'
        | (Err e, s') => authReject e r s'
        end
  end.
Proof.
  unfold by_credential. destruct (bearer r) as [raw|] eqn:Hb; [|done].
  destruct (has_prefix raw "khz_") eqn:Hp; [rewrite RequireAPIToken_run, Hb, Hp|rewrite RequireSession_run, Hb]; done.
Qed.

Lemma existsb_elem {A} (p : A → bool) l : existsb p l = true ↔ ∃ x, x ∈ l ∧ p x = true.
Proof. rewrite existsb_exists. by setoid_rewrite <- list_elem_of_In. Qed.
Lemma grants_admin t : existsb (grants ScopeAdmin) (t_Scopes t) = true ↔ ScopeAdmin ∈ t_Scopes t.
Proof.
  rewrite existsb_elem. unfold grants. split.
  - intros (x & Hx & Hg). simpl in Hg. rewrite orb_false_r in Hg. by apply String.eqb_eq in Hg as ->.
  - intros Hx. by exists ScopeAdmin.
Qed.
Lemma opens_scope id t : existsb (opens id) (t_Scopes t) = true ↔ ScopeAdmin ∈ t_Scopes t ∨ repo_scope id ∈ t_Scopes t.
Proof.
  rewrite existsb_elem. unfold opens, AllowsWrite. split.
  - intros (x & Hx & Hg). destruct (String.eqb_spec x ScopeAdmin) as [->|]; [by left|].
    simpl in Hg. apply String.eqb_eq in Hg as ->. by right.
  - intros [Hx|Hx]; eexists; (split; [exact Hx|]); [done|]. rewrite String.eqb_refl. by destruct (String.eqb _ ScopeAdmin).
Qed.
Lemma is_admin_spec u : is_admin u = true ↔ u_Role u = RoleAdmin.
Proof. apply String.eqb_eq. Qed.

(** What [ValidateSession] and [VerifyAPIToken] accept, as facts of the state
    before. *)
Lemma session_ok raw s ss s' : jwt_sound jwt_sign jwt_parse → wf (catalog s) →
  ValidateSession raw s = (Ok ss, s') → session_in raw s (ss_User ss) ∧ wf (catalog s').
Proof.
  intros Hsound Hwf Heq. split.
  - exists (ss_JTI ss). apply (ValidateSession_checked clock jwt_sign jwt_parse JWTSecret raw s); [done|done|]. rewrite Heq. by destruct ss.
  - destruct (leaves_ValidateSession clock jwt_parse JWTSecret (λ c, c) raw s) as [_ Hl]. rewrite Heq in Hl. by apply Hl.
Qed.
Lemma token_ok raw s t u s' : has_prefix raw "khz_" = true → wf (catalog s) →
  VerifyAPIToken raw s = (Ok (t, u), s') → token_in raw s t u.
Proof.
  intros Hp Hwf Heq. split; [done|]. apply (VerifyAPIToken_checked clock HashToken TouchInterval); [done|]. by rewrite Heq.
Qed.

(** The right of a session and of a token to the repository of a request. *)
Definition session_right (r : Request) (s' : Service) (u : User) : Prop :=
  u_Role u = RoleAdmin ∨
  ∃ id repo, repoIDFromURL r = Some id ∧ repos (catalog s') !! id = Some repo ∧ repo_OwnerID repo = u_ID u.
Definition token_right (r : Request) (t : APIToken) (u : User) : Prop :=
  ∃ id, repoIDFromURL r = Some id ∧
    (ScopeAdmin ∈ t_Scopes t ∧ u_Role u = RoleAdmin ∨ repo_scope id ∈ t_Scopes t).

Lemma owner_access_rules r s u : wf (catalog s) → UserFromContext r = Some u → ∃ v, rules owner_access r s v ∧
  match v with
  | Refuse _ p _ => status p ∈ [401; 403; 503]
  | Pass r' s' => r' = r ∧ session_right r s' u
  end.
Proof.
  intros Hwf Hu. unfold rules, owner_access. rewrite Hu. destruct (is_admin u) eqn:Hadm.
  { exists (Pass r s). split; [done|]. split; [done|]. left. by apply is_admin_spec. }
  destruct (repoIDFromURL r) as [id|] eqn:Hid; [|refuse_tac].
  destruct (Repo_reads id (catalog s) Hwf) as [Hsame Hread]. unfold mbind, st_bind, on_catalog, zoom.
  destruct (Repo_in id (catalog s)) as [[repo|e] d] eqn:Hrepo; simpl in Hsame, Hread.
  - destruct (Z.eqb_spec (repo_OwnerID repo) (u_ID u)) as [Hown|]; [|refuse_tac].
    eexists (Pass _ _). split; [reflexivity|]. split; [done|]. right. exists id, repo. simpl. rewrite Hsame.
    split_and!; auto.
  - unfold authReject. destruct (has_type is_Unavailable e);
      refuse_tac.
Qed.
Lemma token_access_rules r s t u : TokenFromContext r = Some t →
  (ScopeAdmin ∈ t_Scopes t → u_Role u = RoleAdmin) → ∃ v, rules token_access r s v ∧
  match v with
  | Refuse _ p _ => status p ∈ [401; 403; 503]
  | Pass r' s' => r' = r ∧ s' = s ∧ token_right r t u
  end.
Proof.
  intros Ht Hadm. unfold rules, token_access. rewrite Ht.
  destruct (repoIDFromURL r) as [id|] eqn:Hid; [|refuse_tac].
  destruct (existsb (opens id) (t_Scopes t)) eqn:Hex; [|refuse_tac].
  exists (Pass r s). split; [done|]. split_and!; [done..|]. exists id. split; [done|].
  apply opens_scope in Hex as [?|?]; auto.
Qed.

(** A refusal, or the handler is reached in a request and state with [P]. *)
Definition verdict_ok (P : Request → Service → Prop) (v : verdict) : Prop :=
  match v with Refuse _ p _ => status p ∈ [401; 403; 503] | Pass r' s' => P r' s' end.
Lemma credential_rules (with_tok with_ses : Handler → Handler) r s (P : Request → Service → Prop) :
  jwt_sound jwt_sign jwt_parse → wf (catalog s) →
  (∀ raw t u s1, bearer r = Some raw → token_in raw s t u →
     ∃ v, rules with_tok (set_token t (set_user u r)) s1 v ∧ verdict_ok P v) →
  (∀ raw u j s1, bearer r = Some raw → session_in raw s u → wf (catalog s1) →
     ∃ v, rules with_ses (set_jti j (set_user u r)) s1 v ∧ verdict_ok P v) →
  ∃ v, rules (λ next, by_credential (RequireAPIToken clock HashToken TouchInterval (with_tok next))
    (RequireSession clock jwt_parse JWTSecret (with_ses next))) r s v ∧ verdict_ok P v.
Proof.
  intros Hsound Hwf Htok Hses. unfold rules. setoid_rewrite credential_run.
  assert (∀ e s1, ∃ v, (∀ next : Handler, authReject e r s1 = match v with Refuse r' p s' => ((r', p), s')
    | Pass r' s' => next r' s' end) ∧ verdict_ok P v) as Hreject.
  { intros e s1. destruct (authReject_status e r s1) as (p & Hp & Hst). exists (Refuse r p s1). split; [done|].
    simpl. rewrite Hst. destruct (has_type _ e); set_solver. }
  destruct (bearer r) as [raw|] eqn:Hb; [|refuse_tac].
  destruct (has_prefix raw "khz_") eqn:Hp.
  - destruct (VerifyAPIToken raw s) as [[[t u]|e] s1] eqn:Hv; [|apply Hreject].
    apply (Htok raw); [done|]. by eapply token_ok.
  - destruct (ValidateSession raw s) as [[ss|e] s1] eqn:Hv; [|apply Hreject].
    apply session_ok in Hv as [Hin Hwf1]; [|done..]. by apply (Hses raw).
Qed.

(** C18: a request reaches a handler behind [RequireRepoAccess] only with a live
    credential that has the right to the repository named in the URL: a session
    whose account is now an administrator or owns that repository in the
    catalogue, or a token that carries the scope of that very repository (or the
    admin scope, of an administrator). Any other request is answered 401, 403 or
    503 without the handler running. *)
Theorem repo_access_sound r s : jwt_sound jwt_sign jwt_parse → wf (catalog s) →
  ∃ v, rules repo_access r s v ∧
  match v with
  | Refuse _ p _ => status p ∈ [401; 403; 503]
  | Pass r' s' => ∃ raw u, bearer r = Some raw ∧ userKey r' = Some u ∧
      (session_in raw s u ∧ session_right r s' u ∨
       ∃ t, tokenKey r' = Some t ∧ token_in raw s t u ∧ token_right r t u)
  end.
Proof.
  intros Hsound Hwf.
  apply (credential_rules token_access owner_access r s (λ r' s', ∃ raw u, bearer r = Some raw ∧ userKey r' = Some u ∧
    (session_in raw s u ∧ session_right r s' u ∨ ∃ t, tokenKey r' = Some t ∧ token_in raw s t u ∧ token_right r t u)));
    [done..| |].
  - intros raw t u s1 Hb Hin.
    destruct (token_access_rules (set_token t (set_user u r)) s1 t u eq_refl (tk_admin _ _ _ _ _ _ (proj2 Hin)))
      as (v & Hr & Hcase). exists v. split; [done|]. destruct v; [done|]. destruct Hcase as (-> & -> & Hright).
    exists raw, u. split_and!; [done..|]. right. by exists t.
  - intros raw u j s1 Hb Hin Hwf1.
    destruct (owner_access_rules (set_jti j (set_user u r)) s1 u Hwf1 eq_refl) as (v & Hr & Hcase).
    exists v. split; [done|]. destruct v; [done|]. destruct Hcase as [-> Hright]. exists raw, u. auto.
Qed.

(** A handler of the administration API and [/metrics] runs only for a live
    session of an account that is an administrator now, or for a live token with
    the admin scope whose owner is an administrator now. Any other request is
    answered 401, 403 or 503 without the handler running. *)
Theorem admin_access_sound r s : jwt_sound jwt_sign jwt_parse → wf (catalog s) →
  ∃ v, rules admin_access r s v ∧
  match v with
  | Refuse _ p _ => status p ∈ [401; 403; 503]
  | Pass r' s' => ∃ raw u, bearer r = Some raw ∧ userKey r' = Some u ∧ u_Role u = RoleAdmin ∧
      (session_in raw s u ∨ ∃ t, tokenKey r' = Some t ∧ token_in raw s t u ∧ ScopeAdmin ∈ t_Scopes t)
  end.
Proof.
  intros Hsound Hwf.
  apply (credential_rules (RequireScope ScopeAdmin) RequireAdmin r s (λ r' s', ∃ raw u, bearer r = Some raw ∧
    userKey r' = Some u ∧ u_Role u = RoleAdmin ∧
    (session_in raw s u ∨ ∃ t, tokenKey r' = Some t ∧ token_in raw s t u ∧ ScopeAdmin ∈ t_Scopes t))); [done..| |];
    unfold rules, RequireScope, RequireAdmin; simpl.
  - intros raw t u s1 Hb Hin. destruct (existsb _ _) eqn:Hex; [|refuse_tac]. apply grants_admin in Hex.
    eexists (Pass _ _). split; [reflexivity|]. exists raw, u.
    split_and!; [done..|by apply (tk_admin _ _ _ _ _ _ (proj2 Hin))|]. right. by exists t.
  - intros raw u j s1 Hb Hin _. destruct (is_admin u) eqn:Hadm; [|refuse_tac]. apply is_admin_spec in Hadm.
    eexists (Pass _ _). split; [reflexivity|]. exists raw, u. auto.
Qed.


(** The read of the catalogue that identifies the credential fails. *)
Definition unreadable (r : Request) (s : Service) : Prop := ∃ raw e, bearer r = Some raw ∧ has_type is_NotFound e = false ∧
  ((∃ a b, token_parts raw = Some (a, b) ∧ (TokenBySHA256 (HashToken (a +:+ b)) (catalog s)).1 = Err e) ∨
   has_prefix raw "khz_" = false ∧
   ∃ p id ver, jwt_parse raw JWTSecret (clock (ticks s)) = Some p ∧ session_subject p = Some (id, ver) ∧
     (User_in id (catalog s)).1 = Err e).
Lemma authStoreError_unavailable e a b : has_type is_NotFound e = false → has_type is_Unavailable (authStoreError e a b) = true.
Proof. intros He. unfold authStoreError. by rewrite He. Qed.
Lemma token_parts_prefix raw a b : token_parts raw = Some (a, b) → has_prefix raw "khz_" = true.
Proof.
  intros Hp. apply token_parts_Some in Hp as (Hs & _). apply has_prefix_spec. exists (a +:+ "_" +:+ b).
  by rewrite <- (concat_split "_" raw), Hs.
Qed.
Lemma unreadable_rejected r s : unreadable r s → ∃ p s', status p = 503 ∧ ∀ with_tok with_ses,
  by_credential (RequireAPIToken clock HashToken TouchInterval with_tok)
    (RequireSession clock jwt_parse JWTSecret with_ses) r s = ((r, p), s').
Proof.
  intros (raw & e & Hb & He & Hcase). setoid_rewrite credential_run. rewrite Hb.
  assert (∀ x y s', ∃ p s2, status p = 503 ∧ ∀ (_ _ : Handler),
    authReject (D := D) (authStoreError e x y) r s' = ((r, p), s2)) as Hrej.
  { intros x y s'. destruct (authReject_status (authStoreError e x y) r s') as (p & Hp & Hst).
    rewrite authStoreError_unavailable in Hst by done. by exists p, s'. }
  destruct Hcase as [(a & b & Hparts & Hread)|(Hp & p & id & ver & Hparse & Hsub & Hread)].
  - rewrite (token_parts_prefix _ _ _ Hparts). unfold Auth.VerifyAPIToken. rewrite Hparts.
    unfold mbind, st_bind, on_catalog, zoom. destruct (TokenBySHA256 _ (catalog s)) as [x d]. simpl in Hread. subst x. apply Hrej.
  - rewrite Hp. unfold Auth.ValidateSession, mbind, st_bind, now, on_catalog, zoom. simpl. rewrite Hparse, Hsub. simpl.
    destruct (User_in id (catalog s)) as [x d]. simpl in Hread. subst x. apply Hrej.
Qed.

(** When the catalogue cannot be read, a credential is neither accepted nor
    called wrong: every protected handler answers 503 and does not run. *)
Theorem outage_is_503 r s : unreadable r s →
  ∃ p s', status p = 503 ∧ rules admin_access r s (Refuse r p s') ∧ rules repo_access r s (Refuse r p s').
Proof.
  intros (p & s' & Hst & Hrej)%unreadable_rejected. exists p, s'. split; [done|]. split; intros next; apply Hrej.
Qed.
End props.
