(* ===== verification/WebDemo.v ===== *)
(** Access control over the SQLite catalogue: the theorems of WebAuth at concrete
    requests, and what a failing repository lookup is answered. *)
From S2P Require Import Prelude GoStr Domain Port Catalog Sqlite SqliteLaws SqliteCatalog Auth AuthDemo WebAuth.
Local Open Scope Z_scope.

#[export] Instance DB_RepoStore : RepoStore DB := Repo_.
Definition repos_of (t : tables) : gmap Z Repo := map_imap (λ id r, Some (scanRepo id r)) (tb_repos t).
#[export] Instance DB_RepoLaws : RepoLaws DB.
Proof.
  refine {| repos d := repos_of (tabs d) |}. intros id d [Hd _]. unfold Repo_in, DB_RepoStore, Repo_, mbind, st_bind.
  assert (atomic (sqlRepoByID id)) as Hq by (apply select_atomic; intros t e; apply row_busy).
  destruct (call_runs _ d Hq Hd) as [_ Hruns].
  destruct (call (stmt (sqlRepoByID id)) d) as [x d1]. simpl in *.
  assert (tabs d1 = tabs d) as Ht by (destruct Hruns as [[= _ ->]|(e & _ & [->|[-> _]])]; done).
  rewrite Ht. split; [done|]. intros r Hr. destruct x as [r'|]; [|done]. injection Hr as ->.
  destruct Hruns as [[= Hrow _]|(e & ? & _)]; [|done]. unfold repos_of. rewrite map_lookup_imap.
  destruct (tb_repos (tabs d) !! id); simpl in *; [|done]. congruence.
Defined.

(** ** Requests *)
Abbreviation repo_gate := (RequireRepoAccess (D := DB) demo_clock demo_parse demo_Hash demo_secret minute).
Abbreviation admin_gate := (RequireAdminOrAPIToken (D := DB) demo_clock demo_parse demo_Hash demo_secret minute).
Definition no_content (r : Request) : St service (Request * Reply) := mret (r, mk_Reply 204 "").
Definition request (raw id : string) : Request := mk_Request ("bearer " +:+ raw) id None None "" "".
Definition alice_repo : Repo := mk_Repo 0 2 "tools" "apt" (mk_Quota 0 0) (mk_Retention 0 0) (from_unix 1700000000).
Definition root_repo : Repo := mk_Repo 0 1 "core" "apt" (mk_Quota 0 0) (mk_Retention 0 0) (from_unix 1700000000).
(** Repository 1 is Alice's, repository 2 the administrator's. *)
Definition repos_ready (s : service) : service := (on_catalog (CreateRepo alice_repo;; CreateRepo root_repo) s).2.
Definition web_alice : service := repos_ready alice_in.
Definition answer (m : (Request * Reply) * service) : Z * string := (status m.1.2, recorded_actor m.1.1).

Example alice_requests :
  answer (repo_gate no_content (request alice_token "1") web_alice) = (204, "alice") ∧
  answer (repo_gate no_content (request alice_token "2") web_alice) = (403, "alice") ∧
  answer (repo_gate no_content (request alice_token "3") web_alice) = (403, "alice") ∧
  answer (repo_gate no_content (request alice_token "x") web_alice) = (403, "alice") ∧
  answer (repo_gate no_content (mk_Request alice_token "1" None None "" "") web_alice) = (401, "anonymous") ∧
  answer (admin_gate no_content (request alice_token "") web_alice) = (403, "alice").
Proof. vm_compute. done. Qed.

(** ** A failing repository lookup

    No error of the SQLite store is an [UnavailableError], so the branch that
    answers 503 is not taken: the owner of a repository is told 403, and the
    audit log says she was refused. *)
Lemma Repo_never_unavailable id d e : (Repo_ id d).1 = Err e → has_type is_Unavailable e = false.
Proof.
  unfold Repo_, mbind, st_bind. destruct (call _ d) as [[r|x] d']; [done|]. intros [= <-].
  by destruct x as [|[]].
Qed.
Definition failing_at (n : nat) (s : service) : service :=
  mk_Service (mk_DB (λ k, if (k =? stmts (catalog s) + n)%nat then Fails (Code 10 "disk I/O error") else Runs)
    (ctx_Err (catalog s)) (stmts (catalog s)) (tabs (catalog s)))
    (revoked s) (lastTouch s) (audit_log s) (ticks s) (rands s).
Lemma owner_refused_by_outage :
  answer (repo_gate no_content (request alice_token "1") web_alice) = (204, "alice") ∧
  answer (repo_gate no_content (request alice_token "1") (failing_at 2 web_alice)) = (403, "alice").
Proof. vm_compute. done. Qed.

(** ** The theorems at these requests *)
Lemma wf_same_tables (s s' : service) : wf (catalog s) → good_env (catalog s') →
  tb_users (tabs (catalog s')) = tb_users (tabs (catalog s)) →
  tb_tokens (tabs (catalog s')) = tb_tokens (tabs (catalog s)) → wf (catalog s').
Proof. intros [_ [H1 H2 H3 H4]] He Hu Ht. split; [done|]. split; by rewrite ?Hu, ?Ht. Qed.
Lemma wf_web_alice : wf (catalog web_alice).
Proof. apply (wf_same_tables alice_in); [apply wf_alice_in|by intros n e|by vm_compute..]. Qed.
Lemma repo_access_sound_witness :
  answer (repo_gate no_content (request alice_token "1") web_alice) = (204, "alice") ∧
  ∃ v, rules repo_gate (request alice_token "1") web_alice v.
Proof.
  split; [exact (proj1 alice_requests)|].
  destruct (repo_access_sound (D := DB) demo_clock demo_sign demo_parse demo_Hash demo_secret minute
    (request alice_token "1") web_alice demo_sound wf_web_alice) as (v & Hv & _). exists v. exact Hv.
Defined.

(** The administrator in a session of her own. *)
Definition root_in : service := (login "admin" "admin-password" web_alice).2.
Definition root_token : string := or_empty (login "admin" "admin-password" web_alice).1.
Example root_requests :
  answer (admin_gate no_content (request root_token "") root_in) = (204, "admin") ∧
  answer (repo_gate no_content (request root_token "1") root_in) = (204, "admin").
Proof. vm_compute. done. Qed.
Lemma wf_root_in : wf (catalog root_in).
Proof.
  destruct (leaves_Login demo_clock demo_UUID4 demo_Compare demo_sign demo_secret demo_TTL (λ c, c)
    "admin" "admin-password" web_alice) as [_ Hl]. by destruct (Hl wf_web_alice).
Qed.
Lemma admin_access_sound_witness :
  answer (admin_gate no_content (request root_token "") root_in) = (204, "admin") ∧
  ∃ v, rules admin_gate (request root_token "") root_in v.
Proof.
  split; [exact (proj1 root_requests)|].
  destruct (admin_access_sound (D := DB) demo_clock demo_sign demo_parse demo_Hash demo_secret minute
    (request root_token "") root_in demo_sound wf_root_in) as (v & Hv & _). exists v. exact Hv.
Defined.

(** A token of the administrator's for repository 7 only. *)
Definition root : User := mk_User 1 "admin" "h:admin-password" RoleAdmin 1 (from_unix 1700000000).
Definition root_issued : res (APIToken * string) * service := issue root "ci" ["repo:7:write"] 0 root_in.
Definition ci_state : service := root_issued.2.
Definition root_ci : string := match root_issued.1 with Ok (_, raw) => raw | Err _ => "" end.
Definition root_ci_token : APIToken :=
  mk_APIToken 1 1 "ci" "10000004" (demo_Hash "10000004100000044a") ["repo:7:write"] (from_unix 1700000008) 0 0.
Definition ci_verified : service := (verify root_ci ci_state).2.
Lemma root_ci_ok : verify root_ci ci_state = (Ok (root_ci_token, root), ci_verified).
Proof.
  assert ((verify root_ci ci_state).1 = Ok (root_ci_token, root)) as Hv by (vm_compute; reflexivity).
  exact (pair_eq _ _ _ Hv eq_refl).
Qed.
Example root_ci_requests :
  answer (repo_gate no_content (request root_ci "7") ci_state) = (204, "admin") ∧
  answer (repo_gate no_content (request root_ci "1") ci_state) = (403, "token:10000004") ∧
  answer (admin_gate no_content (request root_ci "") ci_state) = (403, "token:10000004").
Proof. vm_compute. done. Qed.

(** The catalogue fails at the lookup of the session's account. *)
Lemma outage_is_503_witness :
  ∃ p s', status p = 503 ∧ rules repo_gate (request alice_token "1") (failing_at 0 web_alice) (Refuse (request alice_token "1") p s').
Proof.
  destruct (outage_is_503 (D := DB) demo_clock demo_parse demo_Hash demo_secret minute
    (request alice_token "1") (failing_at 0 web_alice)) as (p & s' & Hst & _ & Hr).
  - exists alice_token, (Text "disk I/O error"). split_and!; [vm_compute; reflexivity..|]. right.
    split; [vm_compute; reflexivity|]. exists (parsed alice_claims), 2, 1.
    split_and!; vm_compute; reflexivity.
  - exists p, s'. split; [exact Hst|exact Hr].
Defined.
