(* ===== verification/RateLimit.v ===== *)
(** The limit on login attempts (internal/core/web/middleware/ratelimit.go): ten
    attempts of an address in a rolling minute, a bounded table of addresses, and
    the choice of the address behind trusted proxies.

    The parsing of addresses and networks (package net) and the order in which
    Go iterates over a map are parameters. An index out of range, which would
    panic, is [None]. *)
From S2P Require Import Prelude GoStr.
Local Open Scope Z_scope.

#[local] Arguments Nat.leb : simpl never.

Definition maxAttemptsPerMinute : nat := 10.
Definition maxTrackedIPs : Z := 10000.

Section limiter.
  Context {IP CIDR : Type} (ParseIP : string → option IP) (IP_String : IP → string) (Contains : CIDR → IP → bool).
  Context (SplitHostPort : string → option string).
  Context (clock : nat → Z) (range : gmap string (list Z) → list (string * list Z)).
  (** The configured networks. *)
  Context (trusted : list CIDR).

Record LoginRateLimit := mk_LoginRateLimit { hits : gmap string (list Z); readings : nat }.
Abbreviation M := (St LoginRateLimit).
Definition Now : M Z := λ l, (clock (readings l), mk_LoginRateLimit (hits l) (S (readings l))).
Definition set_hits (m : gmap string (list Z)) (l : LoginRateLimit) : LoginRateLimit := mk_LoginRateLimit m (readings l).

Definition clientIP (remote : string) : string := default remote (SplitHostPort remote).

(** ** The address of a client *)
Definition ipInList (ip : string) : bool :=
  match ParseIP ip with
  | None => false
  | Some parsed => existsb (λ cidr, Contains cidr parsed) trusted
  end.
(** The loop over the header, from its last part. *)
Fixpoint walk_header (remote : string) (parts : list string) : option string :=
  match parts with
  | [] => None
  | part :: parts =>
      match ParseIP (trim_space part) with
      | None => Some remote
      | Some ip => if negb (ipInList (IP_String ip)) then Some (IP_String ip) else walk_header remote parts
      end
  end.
Definition RealClientIP (remoteAddr xff : string) : string :=
  let remote := clientIP remoteAddr in
  if (length trusted =? 0)%nat || String.eqb xff "" || String.eqb remote "" then remote
  else if negb (ipInList remote) then remote
  else
    let parts := split "," xff in
    match walk_header remote (rev parts) with
    | Some ip => ip
    | None =>
        match ParseIP (trim_space (hd "" parts)) with
        | Some first => IP_String first
        | None => remote
        end
    end.

(** ** The table of attempts *)

(** [!t.After(cutoff)]. *)
Definition not_after (cutoff t : Z) : bool := negb (cutoff <? t).
Fixpoint drop_stale (cutoff : Z) (old : list Z) : list Z :=
  match old with
  | [] => []
  | t :: old' => if not_after cutoff t then drop_stale cutoff old' else old
  end.
Definition expired (cutoff : Z) (ts : list Z) : bool :=
  match last ts with None => true | Some t => not_after cutoff t end.
(** The bucket seen longest ago; [None]: a bucket is empty. *)
Definition older (acc : option (string * Z)) (x : string * list Z) : option (string * Z) :=
  '(oldestIP, oldest) ← acc;
  t ← last x.2;
  Some (if String.eqb oldestIP "" || (t <? oldest) then (x.1, t) else (oldestIP, oldest)).
Definition oldest_bucket (m : gmap string (list Z)) : option string :=
  fst <$> foldl older (Some ("", 0)) (range m).
Fixpoint evict_while (fuel : nat) (m : gmap string (list Z)) : option (gmap string (list Z)) :=
  if Z.of_nat (size m) <? maxTrackedIPs then Some m
  else match fuel with
       | O => None
       | S fuel => ip ← oldest_bucket m; evict_while fuel (delete ip m)
       end.
Definition evictLocked : M (option unit) := λ l,
  if Z.of_nat (size (hits l)) <? maxTrackedIPs then (Some tt, l)
  else
    let '(t, l) := Now l in
    let fresh := filter (λ x, expired (t - minute) x.2 = false) (hits l) in
    match evict_while (size fresh) fresh with
    | None => (None, l)
    | Some m => (Some tt, set_hits m l)
    end.
Definition Allow (ip : string) : M (option bool) :=
  let ip := clientIP ip in
  t ← Now;
  bucket ← st_gets (λ l, default [] (hits l !! ip));
  let old := drop_stale (t - minute) bucket in
  if (maxAttemptsPerMinute <=? length old)%nat
  then st_mod (λ l, set_hits (<[ip := old]> (hits l)) l);; mret (Some false)
  else
    t ← Now;
    st_mod (λ l, set_hits (<[ip := old ++ [t]]> (hits l)) l);;
    done ← evictLocked;
    mret (match done with Some _ => Some true | None => None end).
Definition Reset (ip : string) : M unit := st_mod (λ l, set_hits (delete (clientIP ip) (hits l)) l).

(** A request, and what the limiter does with it. *)
Record Request_ := mk_Request_ { RemoteAddr : string; X_Forwarded_For : string }.
Definition key_of (r : Request_) : string := RealClientIP (RemoteAddr r) (X_Forwarded_For r).
Definition ResetRequest (r : Request_) : M unit := st_mod (λ l, set_hits (delete (key_of r) (hits l)) l).
Definition StatusTooManyRequests : Z := 429.
(** [None]: the request is passed on. *)
Definition Middleware (r : Request_) : M (option (option Z)) :=
  ok ← Allow (key_of r);
  mret ((λ ok : bool, if ok then None else Some StatusTooManyRequests) <$> ok).

(** ** Serving requests: attempts, and logins that succeed *)
Inductive visit := Attempt (r : Request_) | Succeed (r : Request_).
(** The log of the attempts passed on: the bucket and the time written there. *)
Definition visit_step (v : visit) (l : LoginRateLimit) : list (string * Z) * LoginRateLimit :=
  match v with
  | Attempt r =>
      match Middleware r l with
      | (Some None, l') => ([(clientIP (key_of r), clock (S (readings l)))], l')
      | (_, l') => ([], l')
      end
  | Succeed r => ([], (ResetRequest r l).2)
  end.
Fixpoint serve (vs : list visit) (l : LoginRateLimit) : list (string * Z) * LoginRateLimit :=
  match vs with
  | [] => ([], l)
  | v :: vs =>
      let '(log, l) := visit_step v l in
      let '(log', l) := serve vs l in (log ++ log', l)
  end.
Definition bucket_of (v : visit) : string :=
  match v with Attempt r => clientIP (key_of r) | Succeed r => key_of r end.
Definition new_limiter : LoginRateLimit := mk_LoginRateLimit ∅ 0.

(** * The table is bounded *)
  Context (range_all : ∀ m, range m ≡ₚ map_to_list m).

Lemma foldl_older l o t : Forall (λ x : string * list Z, x.2 ≠ []) l →
  ∃ o' t', foldl older (Some (o, t)) l = Some (o', t') ∧ (o' = o ∨ o' ∈ l.*1).
Proof.
  intros Hl. revert o t. induction Hl as [|[k ts] l Hts Hl IH]; intros o t; [simpl; eauto|].
  assert (∃ u, last ts = Some u) as [u Hu] by (destruct (last ts) eqn:E; [eauto|by apply last_None in E]).
  simpl. rewrite Hu. simpl.
  destruct (String.eqb o "" || (u <? t)); [destruct (IH k u) as (o' & t' & H1 & H2)|destruct (IH o t) as (o' & t' & H1 & H2)];
    exists o', t'; (split; [done|]); set_solver.
Qed.
Definition full_buckets (m : gmap string (list Z)) : Prop := ∀ k ts, m !! k = Some ts → ts ≠ [].
Lemma oldest_bucket_in m : full_buckets m → m ≠ ∅ → ∃ ip, oldest_bucket m = Some ip ∧ is_Some (m !! ip).
Proof.
  intros Hm Hne. unfold oldest_bucket.
  assert (∀ x, x ∈ range m → m !! x.1 = Some x.2) as Hin.
  { intros [k ts] Hx. rewrite (range_all m) in Hx. by apply elem_of_map_to_list in Hx. }
  assert (Forall (λ x : string * list Z, x.2 ≠ []) (range m)) as Hl by (apply Forall_forall; intros x Hx; by eapply Hm, Hin).
  destruct (range m) as [|[k ts] l] eqn:E.
  { destruct Hne. apply map_to_list_empty_iff, Permutation_nil. rewrite <- (range_all m), E. done. }
  apply Forall_cons in Hl as [Hts Hl]. simpl in Hts.
  assert (∃ u, last ts = Some u) as [u Hu] by (destruct (last ts) eqn:Elast; [eauto|by apply last_None in Elast]).
  simpl. rewrite Hu. simpl. destruct (foldl_older l k u Hl) as (o & t' & Hfold & Ho). rewrite Hfold. exists o. split; [done|].
  destruct Ho as [->|[[k' ts'] [-> Hx]]%list_elem_of_fmap]; [exists ts|exists ts'].
  - apply (Hin (k, ts)). set_solver.
  - apply (Hin (k', ts')). set_solver.
Qed.
Lemma evict_while_total n m : (size m <= n)%nat → full_buckets m →
  ∃ m', evict_while n m = Some m' ∧ m' ⊆ m ∧ Z.of_nat (size m') < maxTrackedIPs.
Proof.
  revert m. induction n as [|n IH]; intros m Hsize Hm; simpl; destruct (Z.ltb_spec (Z.of_nat (size m)) maxTrackedIPs) as [Hlt|Hge];
    try by exists m.
  - unfold maxTrackedIPs in Hge. lia.
  - destruct (oldest_bucket_in m Hm) as (ip & Hip & [ts Hts]).
    { intros ->. rewrite map_size_empty in Hge. unfold maxTrackedIPs in Hge. lia. }
    rewrite Hip. simpl. destruct (IH (delete ip m)) as (m' & Hev & Hsub & Hlt).
    + rewrite map_size_delete_Some by eauto. lia.
    + intros k ts' [_ Hk]%lookup_delete_Some. by eapply Hm.
    + exists m'. split_and!; [done| |done]. by etrans; [|apply (delete_subseteq m ip)].
Qed.
Definition kept_bucket (ip : string) (l : LoginRateLimit) : list Z :=
  drop_stale (clock (readings l) - minute) (default [] (hits l !! clientIP ip)).
(** The table after an accepted attempt, before the eviction. *)
Definition noted (ip : string) (l : LoginRateLimit) : LoginRateLimit :=
  mk_LoginRateLimit (<[clientIP ip := kept_bucket ip l ++ [clock (S (readings l))]]> (hits l)) (S (S (readings l))).
Lemma Allow_run ip l : Allow ip l =
  if (maxAttemptsPerMinute <=? length (kept_bucket ip l))%nat
  then (Some false, mk_LoginRateLimit (<[clientIP ip := kept_bucket ip l]> (hits l)) (S (readings l)))
  else match evictLocked (noted ip l) with (Some _, l') => (Some true, l') | (None, l') => (None, l') end.
Proof.
  unfold Allow, mbind, st_bind. simpl. fold (kept_bucket ip l). destruct (maxAttemptsPerMinute <=? length (kept_bucket ip l))%nat; [done|]. simpl.
  match goal with |- context [evictLocked ?x] => change x with (noted ip l) end. by destruct (evictLocked (noted ip l)) as [[]].
Qed.

(** The addresses are bounded, and so are their attempts. *)
Definition bounded (l : LoginRateLimit) : Prop :=
  Z.of_nat (size (hits l)) < maxTrackedIPs ∧
  ∀ k ts, hits l !! k = Some ts → (0 < length ts <= maxAttemptsPerMinute)%nat.
Lemma drop_stale_suffix c ts : ∃ pre, ts = pre ++ drop_stale c ts ∧ Forall (λ t, t ≤ c) pre.
Proof.
  induction ts as [|t ts (pre & Heq & Hpre)]; simpl; [by exists []|]. unfold not_after. destruct (Z.ltb_spec c t); simpl; [by exists []|].
  exists (t :: pre). split; [simpl; congruence|]. by constructor; [lia|].
Qed.
Lemma drop_stale_length c ts : (length (drop_stale c ts) <= length ts)%nat.
Proof. destruct (drop_stale_suffix c ts) as (pre & Heq & _). rewrite Heq at 2. rewrite length_app. lia. Qed.
Lemma evictLocked_bounded l :
  (∀ k ts, hits l !! k = Some ts → (0 < length ts <= maxAttemptsPerMinute)%nat) →
  (evictLocked l).1 = Some tt ∧ bounded (evictLocked l).2.
Proof.
  intros Hl. unfold evictLocked, bounded. destruct (Z.ltb_spec (Z.of_nat (size (hits l))) maxTrackedIPs); [done|].
  simpl. set (fresh := filter _ (hits l)).
  destruct (evict_while_total (size fresh) fresh) as (m & Hm & Hsub & Hlt); [done| |].
  - intros k ts [_ Hts]%map_lookup_filter_Some ->. simpl in Hts. unfold expired in Hts. done.
  - rewrite Hm. simpl. split_and!; [done..|]. intros k ts Hk. eapply Hl, lookup_weaken; [exact Hk|].
    etrans; [exact Hsub|apply map_filter_subseteq].
Qed.
Lemma Allow_bounded ip l : bounded l → (∃ b, (Allow ip l).1 = Some b) ∧ bounded (Allow ip l).2.
Proof.
  intros [Hsize Hl]. rewrite Allow_run. destruct (Nat.leb_spec maxAttemptsPerMinute (length (kept_bucket ip l))) as [Hfull|Hroom].
  - simpl. split; [eauto|]. unfold kept_bucket in *. destruct (hits l !! clientIP ip) as [ts|] eqn:Hk; [|simpl in Hfull; unfold maxAttemptsPerMinute in Hfull; lia]. simpl in *.
    split; simpl.
    + rewrite map_size_insert_Some by eauto. done.
    + intros k ts' [[<- <-]|[_ Hk']]%lookup_insert_Some; [|eauto]. specialize (Hl _ _ Hk).
      pose proof (drop_stale_length (clock (readings l) - minute) ts). lia.
  - destruct (evictLocked_bounded (noted ip l)) as [Hok Hb].
    { intros k ts Hk0. simpl in Hk0. revert Hk0. intros [[<- <-]|[_ Hk]]%lookup_insert_Some; [|eauto]. rewrite length_app. simpl. lia. }
    destruct (evictLocked (noted ip l)) as [[[]|] l']; [|done]. simpl in *. eauto.
Qed.
Lemma Middleware_run r l : Middleware r l =
  match Allow (key_of r) l with
  | (Some true, l') => (Some None, l') | (Some false, l') => (Some (Some StatusTooManyRequests), l') | (None, l') => (None, l')
  end.
Proof. unfold Middleware, mbind, st_bind. by destruct (Allow (key_of r) l) as [[[]|] l']. Qed.
Lemma visit_bounded v l : bounded l → bounded (visit_step v l).2.
Proof.
  intros Hl. destruct v as [r|r]; simpl.
  - rewrite Middleware_run. destruct (Allow_bounded (key_of r) l Hl) as [_ Hb].
    by destruct (Allow (key_of r) l) as [[[]|] l'].
  - destruct Hl as [Hsize Hl]. split; simpl.
    + pose proof (map_subseteq_size _ _ (delete_subseteq (hits l) (key_of r))) as Hd. lia.
    + intros k ts [_ Hk]%lookup_delete_Some. eauto.
Qed.
Lemma serve_bounded vs l : bounded l → bounded (serve vs l).2.
Proof.
  revert l. induction vs as [|v vs IH]; intros l Hl; [done|]. simpl. pose proof (visit_bounded v l Hl) as Hv.
  destruct (visit_step v l) as [log l1]. simpl in Hv. specialize (IH l1 Hv). by destruct (serve vs l1).
Qed.
Lemma new_bounded : bounded new_limiter.
Proof. split; [by vm_compute|]. intros k ts Hk. simpl in Hk. by rewrite lookup_empty in Hk. Qed.

(** Whatever requests come, from however many addresses, the limiter answers
    every one (its loops end and no index is out of range), it holds fewer than
    10000 addresses, and for each of them between one and ten attempts. *)
Theorem limiter_is_bounded vs r :
  let l := (serve vs new_limiter).2 in
  bounded l ∧ ∃ answer, (Middleware r l).1 = Some answer.
Proof.
  intros l. assert (bounded l) as Hl by apply serve_bounded, new_bounded. split; [done|].
  rewrite Middleware_run. destruct (Allow_bounded (key_of r) l Hl) as [[b Hb] _].
  destruct (Allow (key_of r) l) as [x l']. simpl in Hb. subst x. destruct b; simpl; eauto.
Qed.

(** * Ten attempts in a minute *)
Definition time_flows : Prop := ∀ m n, (m <= n)%nat → clock m ≤ clock n.

(** The times of the accepted attempts of a bucket, and how many of them lie in
    the minute that ends at [T]. *)
Definition times (k : string) (log : list (string * Z)) : list Z :=
  snd <$> List.filter (λ e, String.eqb e.1 k) log.
Definition in_minute (T : Z) (ts : list Z) : nat :=
  length (List.filter (λ t, (T - minute <? t) && (t <=? T)) ts).
Lemma times_app k log log' : times k (log ++ log') = times k log ++ times k log'.
Proof. unfold times. by rewrite List.filter_app, fmap_app. Qed.
Lemma in_minute_app T ts ts' : in_minute T (ts ++ ts') = (in_minute T ts + in_minute T ts')%nat.
Proof. unfold in_minute. by rewrite List.filter_app, length_app. Qed.
Lemma in_minute_length T ts : (in_minute T ts <= length ts)%nat.
Proof. apply List.filter_length_le. Qed.
Lemma in_minute_old T ts : Forall (λ t, t ≤ T - minute) ts → in_minute T ts = 0%nat.
Proof.
  unfold in_minute. induction 1 as [|t ts Ht _ IH]; [done|]. simpl. by destruct (Z.ltb_spec (T - minute) t); [lia|].
Qed.
Lemma in_minute_recent T ts : Forall (λ t, T - minute < t ≤ T) ts → in_minute T ts = length ts.
Proof.
  unfold in_minute. induction 1 as [|t ts Ht _ IH]; [done|]. simpl.
  destruct (Z.ltb_spec (T - minute) t), (Z.leb_spec t T); simpl; lia.
Qed.
Lemma in_minute_future T t ts : T < t → in_minute T (ts ++ [t]) = in_minute T ts.
Proof.
  intros Ht. rewrite in_minute_app. unfold in_minute at 2. simpl. destruct (Z.leb_spec t T); [lia|].
  rewrite andb_false_r. simpl. lia.
Qed.
(** What is kept of a sorted bucket is the attempts of the last minute. *)
Lemma drop_stale_recent c ts : StronglySorted Z.le ts → Forall (λ t, c < t) (drop_stale c ts).
Proof.
  induction 1 as [|t ts Hts IH Ht]; simpl; [done|]. unfold not_after. destruct (Z.ltb_spec c t); simpl; [|done].
  constructor; [done|]. eapply Forall_impl; [exact Ht|]. simpl. lia.
Qed.

(** The bucket of [k] is the end of its accepted attempts; the rest is old. *)
Definition tracks (k : string) (log : list (string * Z)) (l : LoginRateLimit) : Prop :=
  (∃ pre, times k log = pre ++ default [] (hits l !! k) ∧ Forall (λ t, t ≤ clock (readings l) - minute) pre) ∧
  StronglySorted Z.le (times k log) ∧ Forall (λ t, t ≤ clock (readings l)) (times k log) ∧
  ∀ T, (in_minute T (times k log) <= maxAttemptsPerMinute)%nat.
Context (flows : time_flows).

Lemma le_later m n (ts : list Z) (d : Z) : (m <= n)%nat → Forall (λ t, t ≤ clock m - d) ts → Forall (λ t, t ≤ clock n - d) ts.
Proof. intros Hmn Hts. eapply Forall_impl; [exact Hts|]. simpl. pose proof (flows m n Hmn). lia. Qed.
Lemma past_later m n ts : (m <= n)%nat → Forall (λ t, t ≤ clock m) ts → Forall (λ t, t ≤ clock n) ts.
Proof. intros Hmn Hts. eapply Forall_impl; [exact Hts|]. simpl. pose proof (flows m n Hmn). lia. Qed.
(** What an attempt keeps of its bucket. *)
Lemma kept_split ip log l : tracks (clientIP ip) log l → ∃ pre,
  times (clientIP ip) log = pre ++ kept_bucket ip l ∧ Forall (λ t, t ≤ clock (readings l) - minute) pre ∧
  in_minute (clock (readings l)) (times (clientIP ip) log) = length (kept_bucket ip l).
Proof.
  intros ((pre & Heq & Hpre) & Hsorted & Hpast & _). unfold kept_bucket.
  set (c := clock (readings l)) in *. set (b := default [] (hits l !! clientIP ip)) in *.
  destruct (drop_stale_suffix (c - minute) b) as (d & Hb & Hd).
  assert (Forall (λ t, c - minute < t) (drop_stale (c - minute) b)) as Hrecent.
  { apply drop_stale_recent. rewrite Heq in Hsorted. by apply StronglySorted_app in Hsorted as (_ & _ & ?). }
  exists (pre ++ d). assert (times (clientIP ip) log = (pre ++ d) ++ drop_stale (c - minute) b) as Ht.
  { rewrite Heq, Hb at 1. by rewrite (assoc_L (++)). }
  assert (Forall (λ t, t ≤ c - minute) (pre ++ d)) as Hold by by apply Forall_app.
  split_and!; [done..|]. rewrite Ht, in_minute_app, in_minute_old by done. simpl. apply in_minute_recent.
  rewrite Ht in Hpast. apply Forall_app in Hpast as [_ Hpast]. apply Forall_forall. intros t Hin.
  rewrite Forall_forall in Hpast, Hrecent. auto.
Qed.
Lemma accepted_window old e c pre T : c ≤ e → Forall (λ t, t ≤ c - minute) pre → (length old < maxAttemptsPerMinute)%nat →
  (in_minute T (pre ++ old) <= maxAttemptsPerMinute)%nat → (in_minute T ((pre ++ old) ++ [e]) <= maxAttemptsPerMinute)%nat.
Proof.
  intros Hce Hpre Hlen Hw. destruct (Z.lt_ge_cases T e); [by rewrite in_minute_future|].
  rewrite !in_minute_app, in_minute_old.
  - pose proof (in_minute_length T old). pose proof (in_minute_length T [e]). simpl in *. lia.
  - eapply Forall_impl; [exact Hpre|]. simpl. lia.
Qed.
Lemma tracks_accept ip log l m : tracks (clientIP ip) log l → (length (kept_bucket ip l) < maxAttemptsPerMinute)%nat →
  m !! clientIP ip = Some (kept_bucket ip l ++ [clock (S (readings l))]) →
  tracks (clientIP ip) (log ++ [(clientIP ip, clock (S (readings l)))]) (mk_LoginRateLimit m (S (S (readings l)))).
Proof.
  intros Htr Hlen Hm. pose proof (kept_split ip log l Htr) as (pre & Heq & Hpre & _).
  destruct Htr as (_ & Hsorted & Hpast & Hw). set (e := clock (S (readings l))) in *.
  assert (times (clientIP ip) [(clientIP ip, e)] = [e]) as He by (unfold times; simpl; by rewrite String.eqb_refl).
  unfold tracks. rewrite times_app, He. simpl. rewrite Hm. simpl. split_and!.
  - exists pre. rewrite Heq, <- (assoc_L (++)). split; [done|]. eapply (le_later (readings l)); [lia|done].
  - apply StronglySorted_app_2; [|done|repeat constructor]. intros x y Hx ->%list_elem_of_singleton.
    rewrite Forall_forall in Hpast. specialize (Hpast x Hx). pose proof (flows (readings l) (S (readings l)) ltac:(lia)).
    unfold e. simpl in Hpast. lia.
  - apply Forall_app. split; [by eapply past_later; [|exact Hpast]; lia|]. repeat constructor. apply flows. lia.
  - intros T. rewrite Heq. eapply accepted_window; [|done..|by rewrite <- Heq]. apply flows. lia.
Qed.
Lemma tracks_same k log l m n : tracks k log l → (readings l <= n)%nat →
  (∃ pre, default [] (hits l !! k) = pre ++ default [] (m !! k) ∧ Forall (λ t, t ≤ clock n - minute) pre) →
  tracks k log (mk_LoginRateLimit m n).
Proof.
  intros ((pre & Heq & Hpre) & Hsorted & Hpast & Hw) Hn (d & Hd & Hdt). split_and!; [|done| |done]; simpl.
  - exists (pre ++ d). rewrite Heq, Hd, (assoc_L (++)). split; [done|]. apply Forall_app. split; [|done].
    by eapply le_later.
  - by eapply past_later.
Qed.
Lemma evict_roomy l : Z.of_nat (size (hits l)) < maxTrackedIPs → evictLocked l = (Some tt, l).
Proof. intros Hl. unfold evictLocked. by destruct (Z.ltb_spec (Z.of_nat (size (hits l))) maxTrackedIPs); [|lia]. Qed.
(** The table as an attempt leaves it, when there is room. *)
Lemma attempt_run r l : Z.of_nat (size (<[clientIP (key_of r) := []]> (hits l))) < maxTrackedIPs →
  visit_step (Attempt r) l =
  let k := clientIP (key_of r) in let kept := kept_bucket (key_of r) l in let e := clock (S (readings l)) in
  if (maxAttemptsPerMinute <=? length kept)%nat
  then ([], mk_LoginRateLimit (<[k := kept]> (hits l)) (S (readings l)))
  else ([(k, e)], mk_LoginRateLimit (<[k := kept ++ [e]]> (hits l)) (S (S (readings l)))).
Proof.
  intros Hroom. simpl. rewrite Middleware_run, Allow_run. destruct (maxAttemptsPerMinute <=? length _)%nat; [done|].
  rewrite evict_roomy; [done|]. simpl. revert Hroom. rewrite !map_size_insert. by destruct (hits l !! _).
Qed.
Lemma attempt_tracks k r log l : tracks k log l →
  Z.of_nat (size (<[clientIP (key_of r) := []]> (hits l))) < maxTrackedIPs →
  tracks k (log ++ (visit_step (Attempt r) l).1) (visit_step (Attempt r) l).2.
Proof.
  intros Htr Hroom. rewrite attempt_run by done. cbv zeta. destruct (decide (clientIP (key_of r) = k)) as [<-|Hne].
  - destruct (Nat.leb_spec maxAttemptsPerMinute (length (kept_bucket (key_of r) l))) as [Hfull|Hless]; simpl.
    + rewrite (right_id_L [] (++)). eapply tracks_same; [done|lia|]. rewrite lookup_insert_eq. simpl. unfold kept_bucket.
      destruct (drop_stale_suffix (clock (readings l) - minute) (default [] (hits l !! clientIP (key_of r)))) as (d & Hd & Hold).
      exists d. split; [exact Hd|]. eapply le_later; [|exact Hold]. lia.
    + apply tracks_accept; [done..|]. apply lookup_insert_eq.
  - assert (times k [(clientIP (key_of r), clock (S (readings l)))] = []) as Hother.
    { unfold times. simpl. by destruct (String.eqb_spec (clientIP (key_of r)) k). }
    destruct (maxAttemptsPerMinute <=? length _)%nat; simpl; [rewrite (right_id_L [] (++))|].
    + eapply tracks_same; [done|lia|]. exists []. by rewrite lookup_insert_ne.
    + unfold tracks. rewrite times_app, Hother, (right_id_L [] (++)). change (tracks k log (mk_LoginRateLimit
        (<[clientIP (key_of r) := kept_bucket (key_of r) l ++ [clock (S (readings l))]]> (hits l)) (S (S (readings l))))).
      eapply tracks_same; [done|lia|]. exists []. by rewrite lookup_insert_ne.
Qed.
Lemma visit_dom v l : Z.of_nat (size (<[bucket_of v := []]> (hits l))) < maxTrackedIPs →
  dom (hits (visit_step v l).2) ⊆ {[bucket_of v]} ∪ dom (hits l).
Proof.
  destruct v as [r|r]; intros Hroom.
  - rewrite attempt_run by done. cbv zeta. destruct (maxAttemptsPerMinute <=? length _)%nat; simpl; by rewrite dom_insert_L.
  - simpl. rewrite dom_delete_L. set_solver.
Qed.
Definition visitors (vs : list visit) : gset string := list_to_set (bucket_of <$> vs).
Lemma serve_tracks k vs log l : (∀ r, Succeed r ∈ vs → key_of r ≠ k) →
  Z.of_nat (size (dom (hits l) ∪ visitors vs)) < maxTrackedIPs → tracks k log l →
  tracks k (log ++ (serve vs l).1) (serve vs l).2.
Proof.
  revert log l. induction vs as [|v vs IH]; intros log l Hreset Hroom Htr; [simpl; by rewrite (right_id_L [] (++))|].
  change (visitors (v :: vs)) with ({[bucket_of v]} ∪ visitors vs) in Hroom.
  assert (Z.of_nat (size (<[bucket_of v := []]> (hits l))) < maxTrackedIPs) as Hv.
  { rewrite <- size_dom, dom_insert_L.
    assert (size ({[bucket_of v]} ∪ dom (hits l)) <= size (dom (hits l) ∪ ({[bucket_of v]} ∪ visitors vs)))%nat
      by (apply subseteq_size; set_solver). lia. }
  assert (tracks k (log ++ (visit_step v l).1) (visit_step v l).2) as Hstep.
  { destruct v as [r|r]; [by apply attempt_tracks|]. simpl. rewrite (right_id_L [] (++)). eapply tracks_same; [done|lia|].
    exists []. rewrite lookup_delete_ne; [done|]. apply Hreset. set_solver. }
  pose proof (visit_dom v l Hv) as Hdom. simpl. destruct (visit_step v l) as [log1 l1]. simpl in *.
  assert (Z.of_nat (size (dom (hits l1) ∪ visitors vs)) < maxTrackedIPs) as Hroom1.
  { assert (size (dom (hits l1) ∪ visitors vs) <= size (dom (hits l) ∪ ({[bucket_of v]} ∪ visitors vs)))%nat
      by (apply subseteq_size; set_solver). lia. }
  specialize (IH (log ++ log1) l1 ltac:(intros r Hr; apply Hreset; set_solver) Hroom1 Hstep).
  destruct (serve vs l1). simpl in *. by rewrite (assoc_L (++)).
Qed.
Lemma new_tracks k : tracks k [] new_limiter.
Proof.
  unfold tracks, times. simpl. rewrite lookup_empty. split_and!; [by exists []|constructor..|]. intros T. unfold in_minute. simpl. unfold maxAttemptsPerMinute. lia.
Qed.

(** C20: while fewer than 10000 addresses have made attempts, no minute, wherever
    it begins, contains more than ten accepted attempts of an address whose
    counter was not reset by a login; and an attempt is refused exactly when the
    minute before it contains ten, so nobody is locked out for longer. The readings
    of the clock do not go back. A successful login empties the counter
    ([LimitDemo.eleventh_refused] accepts an eleventh attempt after one), and at
    10000 addresses [evictLocked] drops counters to make room. *)
Theorem ten_attempts_a_minute vs k :
  (∀ r, Succeed r ∈ vs → key_of r ≠ k) → Z.of_nat (size (visitors vs)) < maxTrackedIPs →
  (∀ T, (in_minute T (times k (serve vs new_limiter).1) <= maxAttemptsPerMinute)%nat) ∧
  ∀ r, clientIP (key_of r) = k →
    (Middleware r (serve vs new_limiter).2).1 = Some
      (if (in_minute (clock (readings (serve vs new_limiter).2)) (times k (serve vs new_limiter).1) <? maxAttemptsPerMinute)%nat
       then None else Some StatusTooManyRequests).
Proof.
  intros Hreset Hroom.
  assert (tracks k (serve vs new_limiter).1 (serve vs new_limiter).2) as Htr.
  { apply (serve_tracks k vs [] new_limiter Hreset); [|apply new_tracks]. simpl. by rewrite dom_empty_L, (left_id_L ∅ (∪)). }
  split; [apply Htr|]. intros r <-. destruct (kept_split _ _ _ Htr) as (_ & _ & _ & Hcount).
  pose proof (Allow_bounded (key_of r) _ (serve_bounded vs _ new_bounded)) as [[b Hb] _].
  rewrite Middleware_run. rewrite Hcount. rewrite Allow_run in *.
  destruct (Nat.leb_spec maxAttemptsPerMinute (length (kept_bucket (key_of r) (serve vs new_limiter).2))) as [Hf|Hf];
    destruct (Nat.ltb_spec (length (kept_bucket (key_of r) (serve vs new_limiter).2)) maxAttemptsPerMinute); try lia; [done|].
  by destruct (evictLocked _) as [[]].
Qed.

(** * The address of a client *)
Lemma walk_header_app remote a b :
  walk_header remote (a ++ b) = match walk_header remote a with Some ip => Some ip | None => walk_header remote b end.
Proof.
  induction a as [|part a IH]; [done|]. simpl. destruct (ParseIP (trim_space part)) as [ip|]; [|done].
  by destruct (negb (ipInList (IP_String ip))).
Qed.
(** An entry of a header that no trusted proxy stands for. *)
Definition outsider (part : string) : Prop :=
  match ParseIP (trim_space part) with None => True | Some ip => ipInList (IP_String ip) = false end.
Lemma walk_header_stops remote parts : (∃ part, part ∈ parts ∧ outsider part) → is_Some (walk_header remote parts).
Proof.
  intros (part & Hin & Hout). unfold outsider in Hout.
  induction parts as [|p parts IH]; [by apply not_elem_of_nil in Hin|]. simpl. apply elem_of_cons in Hin as [<-|Hin].
  - destruct (ParseIP (trim_space part)); [rewrite Hout|]; eauto.
  - destruct (ParseIP (trim_space p)) as [ip|]; [|eauto]. destruct (negb (ipInList (IP_String ip))); eauto.
Qed.

(** C21: a client cannot choose its address. The header of a peer that is not a
    trusted proxy is not read; and behind trusted proxies, once one of the entries
    they appended stands for an address outside the trusted networks, whatever the
    client wrote before those entries is without effect. *)
Theorem client_address_not_spoofed remote spoof chain :
  (ipInList (clientIP remote) = false → RealClientIP remote spoof = clientIP remote) ∧
  (chain ≠ "" → (∃ part, part ∈ split "," chain ∧ outsider part) →
   RealClientIP remote (spoof +:+ String "," chain) = RealClientIP remote chain).
Proof.
  unfold RealClientIP. split.
  - intros ->. simpl. by destruct (_ || _).
  - intros Hne (part & Hin & Hout).
    assert (String.eqb (spoof +:+ String "," chain) "" = false) as -> by by destruct spoof.
    apply String.eqb_neq in Hne as ->. destruct (_ || _); [done|]. destruct (negb _); [done|].
    rewrite split_app, rev_app_distr, walk_header_app.
    destruct (walk_header_stops (clientIP remote) (rev (split "," chain))) as [ip Hip].
    { exists part. split; [|done]. by apply list_elem_of_In, in_rev, list_elem_of_In in Hin. }
    by rewrite Hip.
Qed.
End limiter.

(** * Concrete requests *)
Module LimitDemo.
(** Addresses are their text; the trusted network is [10.]. *)
Definition parse_ip (s : string) : option string :=
  if negb (String.eqb s "") && all_bytes (λ c, is_digit c || Ascii.eqb c ".") s then Some s else None.
Definition ip_string (s : string) : string := s.
Definition in_net (net ip : string) : bool := has_prefix ip net.
Definition split_port (s : string) : option string := let '(host, _, found) := cut ":" s in if found : bool then Some host else None.
Definition seconds (n : nat) : Z := Z.of_nat n * second.
Definition in_order (m : gmap string (list Z)) : list (string * list Z) := map_to_list m.
Abbreviation run_all := (serve parse_ip ip_string in_net split_port seconds in_order ["10."]).
Abbreviation answer_to := (Middleware parse_ip ip_string in_net split_port seconds in_order ["10."]).
Abbreviation address := (RealClientIP parse_ip ip_string in_net split_port ["10."]).

(** Through a proxy; the client at 7.7.7.7 makes up the first entry. *)
Definition request_of (spoof : string) : Request_ := mk_Request_ "10.0.0.1:4000" (spoof +:+ ", 7.7.7.7, 10.0.0.2").
Definition attempts (n : nat) : list visit := Attempt <$> (request_of <$> repeat "1.2.3.4" n).
Example address_of_client :
  address "10.0.0.1:4000" "1.2.3.4, 7.7.7.7, 10.0.0.2" = "7.7.7.7" ∧
  address "9.9.9.9:80" "1.2.3.4" = "9.9.9.9" ∧
  address "10.0.0.1:4000" "10.0.0.9, 10.0.0.2" = "10.0.0.9" ∧
  address "10.0.0.1:4000" "1.2.3.4, x" = "10.0.0.1".
Proof. vm_compute. done. Qed.
Example eleventh_refused :
  (answer_to (request_of "5.5.5.5") (run_all (attempts 9) new_limiter).2).1 = Some None ∧
  (answer_to (request_of "5.5.5.5") (run_all (attempts 10) new_limiter).2).1 = Some (Some 429) ∧
  (answer_to (request_of "5.5.5.5") (run_all (attempts 10 ++ [Succeed (request_of "5.5.5.5")]) new_limiter).2).1 = Some None.
Proof. vm_compute. done. Qed.

Lemma seconds_flow : time_flows seconds.
Proof. intros m n Hmn. unfold seconds, second. lia. Qed.
Lemma ten_attempts_a_minute_witness :
  in_minute (50 * second) (times "7.7.7.7" (run_all (attempts 12) new_limiter).1) = 10%nat ∧
  (in_minute (50 * second) (times "7.7.7.7" (run_all (attempts 12) new_limiter).1) <= maxAttemptsPerMinute)%nat.
Proof.
  split; [vm_compute; reflexivity|].
  apply (ten_attempts_a_minute parse_ip ip_string in_net split_port seconds in_order ["10."] (λ m, Permutation_refl _)
    seconds_flow (attempts 12) "7.7.7.7").
  - intros r Hr. apply list_elem_of_fmap in Hr as (? & [=] & _).
  - vm_compute. reflexivity.
Defined.
Lemma limiter_is_bounded_witness :
  bounded (run_all (attempts 12) new_limiter).2.
Proof.
  apply (limiter_is_bounded parse_ip ip_string in_net split_port seconds in_order ["10."] (λ m, Permutation_refl _)
    (attempts 12) (request_of "")).
Defined.
Lemma client_address_not_spoofed_witness :
  address "10.0.0.1:4000" "8.8.8.8,7.7.7.7, 10.0.0.2" = address "10.0.0.1:4000" "7.7.7.7, 10.0.0.2".
Proof.
  apply (client_address_not_spoofed parse_ip ip_string in_net split_port ["10."] "10.0.0.1:4000" "8.8.8.8" "7.7.7.7, 10.0.0.2").
  - discriminate.
  - exists "7.7.7.7". split; [|vm_compute; reflexivity]. vm_compute. apply list_elem_of_here.
Defined.
End LimitDemo.
