(* ===== verification/Keepers.v ===== *)
(** The keepers of access times and of statistics
    (internal/core/engine/accesskeeper, internal/core/engine/statskeeper), with
    the counters of internal/core/metrics/cache.go.

    Both gather in memory and write to the catalogue at every tick: accesses are
    handed over in a batch that is merged, statistics are a snapshot that is read
    back when the process starts. The table of accesses is swapped under the
    mutex, so a flush is the step that takes the batch and the merge of it; the
    tickers call [Flush], and so does [Stop]. *)
From S2P Require Import Prelude GoStr Domain Port Catalog Sqlite SqliteLaws SqliteCatalog SqliteSchema.
Local Open Scope Z_scope.

(** * The port of access records *)
Class AccessStore (D : Type) := MergeAccess_in : list ObjectAccess → St D (option error).
(** A batch is merged as a whole or not at all, and wholly if there is no error:
    the latest time, the sum of the hits. *)
Class AccessLaws (D : Type) `{CatalogView D, AccessStore D} := {
  accesses : D → gmap (string * string) (Z * Z);
  Merge_merges rows d : wf d → wf (MergeAccess_in rows d).2 ∧
    let merged := ∀ k, accesses (MergeAccess_in rows d).2 !! k =
      total (option_list (accesses d !! k) ++ (hit <$> own k rows)) in
    match (MergeAccess_in rows d).1 with
    | None => merged
    | Some _ => merged ∨ accesses (MergeAccess_in rows d).2 = accesses d
    end
}.

(** [time.Time.UnixNano] and [time.Unix(0, n)]. *)
Definition unix_nano (t : Z) : Z := wrap64 (t - unixToInternal * second).
Definition from_nano (n : Z) : Z := n + unixToInternal * second.

(** * accesskeeper *)
Definition maxKeys : Z := 100000.
Definition keySep : ascii := "000".

Section accesskeeper.
  Context {D : Type} `{!AccessStore D} (clock : nat → Z).
  Context (range : gmap string (Z * Z) → list (string * (Z * Z))).

Record AccessKeeper := mk_AccessKeeper {
  ak_store : D;
  ak_acc : gmap string (Z * Z);   (* unixNano, hits *)
  ak_dropped : Z;
  ak_ticks : nat
}.
Definition Record_access (scope key : string) : St AccessKeeper unit := λ k,
  let now := unix_nano (clock (ak_ticks k)) in
  let id := scope +:+ String keySep key in
  let k := mk_AccessKeeper (ak_store k) (ak_acc k) (ak_dropped k) (S (ak_ticks k)) in
  match ak_acc k !! id with
  | None =>
      if maxKeys <=? Z.of_nat (size (ak_acc k))
      then (tt, mk_AccessKeeper (ak_store k) (ak_acc k) (ak_dropped k + 1) (ak_ticks k))
      else (tt, mk_AccessKeeper (ak_store k) (<[id := (if 0 <? now then now else 0, 1)]> (ak_acc k)) (ak_dropped k) (ak_ticks k))
  | Some (nano, hits) =>
      (tt, mk_AccessKeeper (ak_store k)
             (<[id := (if nano <? now then now else nano, wrap64 (hits + 1))]> (ak_acc k)) (ak_dropped k) (ak_ticks k))
  end.
Definition access_row (x : string * (Z * Z)) : option ObjectAccess :=
  let '(scope, key, ok) := cut keySep x.1 in
  if ok : bool then Some (mk_ObjectAccess scope key (from_nano x.2.1) x.2.2) else None.
Definition Flush_accesses : St AccessKeeper (option error) := λ k,
  let cur := ak_acc k in
  if (size cur =? 0)%nat then (None, k)
  else
    let rows := omap access_row (range cur) in
    let '(e, d) := MergeAccess_in rows (ak_store k) in
    (e, mk_AccessKeeper d ∅ 0 (ak_ticks k)).
(** The process dies; the catalogue is kept. *)
Definition crash_keeper : St AccessKeeper unit := st_mod (λ k, mk_AccessKeeper (ak_store k) ∅ 0 (ak_ticks k)).

(** ** A life of the keeper *)
Inductive keeper_op := KRecord (scope key : string) | KFlush | KCrash.
Definition access_event : Type := (string * string) * (Z * Z).
Definition accredited (scope key : string) (k : AccessKeeper) : bool :=
  bool_decide (is_Some (ak_acc k !! (scope +:+ String keySep key))) || (Z.of_nat (size (ak_acc k)) <? maxKeys).
Definition event_of (scope key : string) (k : AccessKeeper) : access_event :=
  ((scope, key), (unix (from_nano (Z.max 0 (unix_nano (clock (ak_ticks k))))), 1)).
(** The accesses accredited so far, and whether a flush failed or the process died. *)
Definition keeper_step (o : keeper_op) (k : AccessKeeper) : list access_event * bool * AccessKeeper :=
  match o with
  | KRecord scope key =>
      (if accredited scope key k then [event_of scope key k] else [], false, (Record_access scope key k).2)
  | KFlush => let '(e, k) := Flush_accesses k in ([], match e with None => false | Some _ => true end, k)
  | KCrash => ([], true, (crash_keeper k).2)
  end.
Fixpoint keeper_run (ops : list keeper_op) (k : AccessKeeper) : list access_event * bool * AccessKeeper :=
  match ops with
  | [] => ([], false, k)
  | o :: ops =>
      let '(log, lost, k) := keeper_step o k in
      let '(log', lost', k) := keeper_run ops k in (log ++ log', lost || lost', k)
  end.
(** The accesses asked to be counted, and those that [Record] drops because the
    table is full. *)
Definition requested (ops : list keeper_op) : list (string * string) :=
  omap (λ o, match o with KRecord scope key => Some (scope, key) | _ => None end) ops.
Fixpoint keeper_dropped (ops : list keeper_op) (k : AccessKeeper) : list (string * string) :=
  match ops with
  | [] => []
  | o :: ops =>
      let rest := keeper_dropped ops (keeper_step o k).2 in
      match o with
      | KRecord scope key => if accredited scope key k then rest else (scope, key) :: rest
      | _ => rest
      end
  end.
Definition new_keeper (d : D) : AccessKeeper := mk_AccessKeeper d ∅ 0 0.

(** The events of one object, as records. *)
Definition evs (k : string * string) (log : list access_event) : list (Z * Z) :=
  snd <$> List.filter (λ e, bool_decide (e.1 = k)) log.
Lemma evs_app k l l' : evs k (l ++ l') = evs k l ++ evs k l'.
Proof. unfold evs. by rewrite List.filter_app, fmap_app. Qed.
Lemma total_parts l l' : total (l ++ l') = total (option_list (total l) ++ l').
Proof.
  destruct l as [|r l]; [done|]. revert r. induction l as [|r2 l IH]; intros r.
  - by destruct r.
  - change (total (r :: r2 :: (l ++ l')) = total (option_list (total (r :: r2 :: l)) ++ l')).
    rewrite !total_merge. exact (IH _).
Qed.
Lemma total_app_r l l' : total (l ++ option_list (total l')) = total (l ++ l').
Proof.
  destruct l' as [|r l']; [done|]. revert r. induction l' as [|r2 l' IH]; intros r; [by destruct r|].
  rewrite total_merge, IH. rewrite (total_parts l), (total_parts l (r :: _)). destruct (total l) as [x|]; simpl option_list.
  - change (total (x :: (Z.max r.1 r2.1, r.2 + r2.2) :: l') = total (x :: r :: r2 :: l')).
    rewrite !total_merge. cbn [fst snd]. by rewrite Z.max_assoc, Z.add_assoc.
  - symmetry. apply total_merge.
Qed.
Definition row_of_acc (x : Z * Z) : Z * Z := (unix (from_nano x.1), x.2).

(** Identifiers are a scope and a key. *)
Definition scope_plain (scope : string) : Prop := no_sep keySep scope = true.
Lemma cut_id scope key : scope_plain scope → cut keySep (scope +:+ String keySep key) = (scope, key, true).
Proof. intros Hs. apply cut_app. exact Hs. Qed.
Definition ids_ok (m : gmap string (Z * Z)) : Prop :=
  ∀ id, is_Some (m !! id) → ∃ scope key, id = scope +:+ String keySep key ∧ scope_plain scope.
(** The order of the rows is immaterial. *)
Lemma rows_perm k l l' : l ≡ₚ l' → hit <$> own k (omap access_row l) ≡ₚ hit <$> own k (omap access_row l').
Proof.
  induction 1 as [|x l l' _ IH|x y l|]; [done| | |by etrans]; cbn [omap list_omap].
  - destruct (access_row x); [|done]. cbn [own List.filter]. case_bool_decide; [|done]. by constructor.
  - destruct (access_row x), (access_row y); try done; cbn [own List.filter]; repeat case_bool_decide; try done. by constructor.
Qed.
Lemma rows_own m scope key : ids_ok m → scope_plain scope →
  hit <$> own (scope, key) (omap access_row (map_to_list m)) ≡ₚ
  option_list (row_of_acc <$> m !! (scope +:+ String keySep key)).
Proof.
  intros Hm Hs. induction m as [|id x m Hid Hfirst IH] using map_first_key_ind; [done|]. clear Hfirst.
  rewrite (rows_perm _ _ _ (map_to_list_insert m id x Hid)).
  destruct (Hm id) as (s' & k' & -> & Hs'); [rewrite lookup_insert_eq; eauto|].
  assert (ids_ok m) as Hm' by (intros i Hi; apply Hm; destruct (decide (s' +:+ String keySep k' = i)) as [<-|];
    [rewrite lookup_insert_eq; eauto|by rewrite lookup_insert_ne]). specialize (IH Hm').
  cbn [omap list_omap]. unfold access_row at 1. cbn [fst snd]. rewrite cut_id by done. cbn [own List.filter oa_Scope oa_Key].
  case_bool_decide as Heq.
  - injection Heq as -> ->. rewrite lookup_insert_eq. rewrite Hid in IH. simpl in IH. symmetry in IH.
    apply Permutation_nil in IH. cbn [fmap list_fmap]. unfold own in IH. rewrite IH. done.
  - rewrite lookup_insert_ne; [exact IH|]. intros Hid'. apply Heq.
    pose proof (cut_id s' k' Hs') as H1. rewrite Hid', cut_id in H1 by done. congruence.
Qed.

Lemma total_count l r : Forall (λ x : Z * Z, x.2 = 1) l → total l = Some r → r.2 = Z.of_nat (length l).
Proof.
  destruct l as [|x l]; [done|]. intros [Hx Hl]%Forall_cons [= <-]. cbn [snd length]. rewrite Nat2Z.inj_succ.
  assert (∀ b, foldr Z.add b l.*2 = b + Z.of_nat (length l)) as ->; [|lia].
  induction Hl as [|y l Hy _ IH]; intros b; cbn [fmap list_fmap foldr length]; [lia|].
  change (foldr Z.add b (snd <$> l)) with (foldr Z.add b l.*2). rewrite IH, Nat2Z.inj_succ. lia.
Qed.
Lemma total_end l r x : total l = Some r → total (l ++ [x]) = Some (Z.max r.1 x.1, r.2 + x.2).
Proof. intros Hl. rewrite total_parts, Hl. change (total [r; x] = Some (Z.max r.1 x.1, r.2 + x.2)). by rewrite total_merge. Qed.
Lemma row_max a b : unix (from_nano (Z.max a b)) = Z.max (unix (from_nano a)) (unix (from_nano b)).
Proof.
  destruct (Z.max_spec a b) as [[H ->]|[H ->]]; [rewrite Z.max_r|rewrite Z.max_l]; [done| |done|];
    apply unix_mono; unfold from_nano; lia.
Qed.
Lemma evs_length k log : (length (evs k log) <= length log)%nat.
Proof. unfold evs. rewrite length_fmap. apply List.filter_length_le. Qed.
Lemma id_inj s k s' k' : scope_plain s → scope_plain s' →
  s +:+ String keySep k = s' +:+ String keySep k' → (s, k) = (s', k').
Proof. intros Hs Hs' Heq. pose proof (cut_id s k Hs) as H1. rewrite Heq, cut_id in H1 by done. congruence. Qed.

Context `{!CatalogView D, !AccessLaws D}.
Context (range_rows : ∀ m, range m ≡ₚ map_to_list m).

(** What the keeper holds and what the catalogue has got: the events [F] are in
    the catalogue, the events [P] in memory, and the events of [L] that are not in
    [F] are lost. *)
Record held (d0 : D) (L F P : list access_event) (k : AccessKeeper) : Prop := {
  h_wf : wf (ak_store k);
  h_size : Z.of_nat (size (ak_acc k)) ≤ maxKeys;
  h_ids : ids_ok (ak_acc k);
  h_nano id x : ak_acc k !! id = Some x → 0 ≤ x.1;
  h_ones : Forall (λ e : access_event, e.2.2 = 1) P;
  h_sub : F `sublist_of` L;
  h_db scope key : scope_plain scope → accesses (ak_store k) !! (scope, key) =
    total (option_list (accesses d0 !! (scope, key)) ++ evs (scope, key) F);
  h_acc scope key : scope_plain scope → row_of_acc <$> ak_acc k !! (scope +:+ String keySep key) = total (evs (scope, key) P)
}.

Lemma held_record d0 L F P k scope key :
  scope_plain scope → Z.of_nat (length P) < max_int64 → held d0 L F P k →
  held d0 L F (P ++ (keeper_step (KRecord scope key) k).1.1) (keeper_step (KRecord scope key) k).2.
Proof.
  intros Hs Hlen [Hwf Hsize Hids Hnano Hones Hsub Hdb Hacc]. simpl. unfold Record_access, accredited, event_of. simpl.
  set (id := scope +:+ String keySep key). set (now := unix_nano (clock (ak_ticks k))).
  assert (∀ x, ids_ok (<[id := x]> (ak_acc k))) as Hids'.
  { intros x i. destruct (decide (id = i)) as [<-|]; [exists scope, key; done|]. rewrite lookup_insert_ne by done. apply Hids. }
  assert (∀ x s' k', scope_plain s' → (scope, key) ≠ (s', k') →
    <[id := x]> (ak_acc k) !! (s' +:+ String keySep k') = ak_acc k !! (s' +:+ String keySep k')) as Hother.
  { intros x s' k' Hs' Hne. apply lookup_insert_ne. intros Heq. by apply Hne, id_inj. }
  assert (∀ s' k' x, (scope, key) ≠ (s', k') → evs (s', k') (P ++ [((scope, key), x)]) = evs (s', k') P) as Hevs.
  { intros s' k' x Hne. rewrite evs_app. unfold evs at 2. simpl. rewrite bool_decide_eq_false_2 by done. simpl. apply right_id_L, _. }
  assert (∀ x, evs (scope, key) (P ++ [((scope, key), x)]) = evs (scope, key) P ++ [x]) as Hown.
  { intros x. rewrite evs_app. unfold evs at 2. simpl. by rewrite bool_decide_eq_true_2. }
  pose proof (Hacc scope key Hs) as Hk. fold id in Hk. destruct (ak_acc k !! id) as [[nano hits]|] eqn:E.
  - rewrite bool_decide_eq_true_2 by eauto. simpl. assert (hits = Z.of_nat (length (evs (scope, key) P))) as ->.
    { apply (total_count _ (row_of_acc (nano, hits))); [|done]. apply Forall_fmap, Forall_forall.
      intros e [He _]%list_elem_of_In%List.filter_In. rewrite Forall_forall in Hones. by apply Hones, list_elem_of_In. }
    pose proof (evs_length (scope, key) P) as Hl. pose proof (Hnano _ _ E) as Hn. simpl in Hn.
    set (h := Z.of_nat (length (evs (scope, key) P))) in *.
    assert (wrap64 (h + 1) = h + 1) as -> by (apply wrap64_small; unfold in_int64, min_int64; lia).
    assert ((if nano <? now then now else nano) = Z.max nano now) as -> by (destruct (Z.ltb_spec nano now); lia).
    split; simpl; [done| |apply Hids'| |by apply Forall_app; split; [|repeat constructor]|done..|].
    + rewrite map_size_insert_Some by eauto. done.
    + intros i x [[_ <-]|[_ Hi]]%lookup_insert_Some; simpl; [lia|by eapply Hnano].
    + intros s' k' Hs'. destruct (decide ((scope, key) = (s', k'))) as [[= <- <-]|Hne].
      * fold id. rewrite lookup_insert_eq, Hown. simpl in Hk. symmetry in Hk.
        rewrite (total_end _ _ _ Hk). simpl. unfold row_of_acc. simpl. f_equal. f_equal. rewrite <- row_max. f_equal. f_equal. lia.
      * rewrite Hother, Hevs by done. by apply Hacc.
  - rewrite bool_decide_eq_false_2 by (intros [? ?]; done). simpl. simpl in Hk.
    destruct (Z.leb_spec maxKeys (Z.of_nat (size (ak_acc k)))), (Z.ltb_spec (Z.of_nat (size (ak_acc k))) maxKeys); try lia; simpl.
    + rewrite (right_id_L [] (++)). by split.
    + split; simpl; [done| |apply Hids'| |by apply Forall_app; split; [|repeat constructor]|done..|].
      * rewrite map_size_insert_None by done. lia.
      * intros i x [[_ <-]|[_ Hi]]%lookup_insert_Some; simpl; [destruct (Z.ltb_spec 0 now); lia|by eapply Hnano].
      * intros s' k' Hs'. destruct (decide ((scope, key) = (s', k'))) as [[= <- <-]|Hne].
        -- fold id. rewrite lookup_insert_eq, Hown, total_parts, <- Hk. simpl. unfold row_of_acc. simpl. do 4 f_equal.
           destruct (Z.ltb_spec 0 now); lia.
        -- rewrite Hother, Hevs by done. by apply Hacc.
Qed.

(** A flush of what is in memory: all of it reaches the catalogue, or, with an
    error, all or nothing; in memory nothing stays. *)
Lemma merged_rows d0 F P m d : ids_ok m →
  (∀ scope key, scope_plain scope → accesses d !! (scope, key) = total (option_list (accesses d0 !! (scope, key)) ++ evs (scope, key) F)) →
  (∀ scope key, scope_plain scope → row_of_acc <$> m !! (scope +:+ String keySep key) = total (evs (scope, key) P)) →
  ∀ scope key, scope_plain scope →
  total (option_list (accesses d !! (scope, key)) ++ (hit <$> own (scope, key) (omap access_row (range m)))) =
  total (option_list (accesses d0 !! (scope, key)) ++ evs (scope, key) (F ++ P)).
Proof.
  intros Hids Hdb Hacc scope key Hs.
  assert (hit <$> own (scope, key) (omap access_row (range m)) = option_list (row_of_acc <$> m !! (scope +:+ String keySep key))) as ->.
  { assert (hit <$> own (scope, key) (omap access_row (range m)) ≡ₚ
      option_list (row_of_acc <$> m !! (scope +:+ String keySep key))) as Hp.
    { etrans; [apply (rows_perm (scope, key)), range_rows|by apply rows_own]. }
    destruct (row_of_acc <$> _); simpl in *; [by apply Permutation_singleton_r in Hp|]. symmetry in Hp. by apply Permutation_nil in Hp. }
  rewrite Hacc, Hdb, total_app_r, <- total_parts, <- (assoc_L (++)), <- evs_app by done. done.
Qed.
Lemma held_flush d0 L F P k : held d0 L F P k →
  ∃ F', held d0 (L ++ P) F' [] (Flush_accesses k).2 ∧ (F' = F ++ P ∨ F' = F ∧ (Flush_accesses k).1 ≠ None).
Proof.
  intros [Hwf Hsize Hids Hnano Hones Hsub Hdb Hacc]. unfold Flush_accesses.
  assert (F `sublist_of` L ++ P) as Hsub1 by (by apply sublist_inserts_r).
  assert (F ++ P `sublist_of` L ++ P) as Hsub2 by (by apply sublist_app).
  assert (ids_ok ∅) as Hids0 by (intros i [x Hx]; by rewrite lookup_empty in Hx).
  destruct (Nat.eqb_spec (size (ak_acc k)) 0) as [Hempty|Hne].
  - apply map_size_empty_inv in Hempty. exists (F ++ P). simpl. split; [|by left].
    assert (∀ scope key, scope_plain scope → evs (scope, key) P = []) as HP.
    { intros scope key Hs. specialize (Hacc scope key Hs). rewrite Hempty, lookup_empty in Hacc.
      by destruct (evs (scope, key) P). }
    split; try done; intros scope key Hs; rewrite ?evs_app, ?HP, ?(right_id_L [] (++)) by done; [by apply Hdb|].
    rewrite Hempty. by rewrite lookup_empty.
  - pose proof (merged_rows d0 F P (ak_acc k) (ak_store k) Hids Hdb Hacc) as Hmerged.
    set (rows := omap access_row (range (ak_acc k))) in *.
    destruct (Merge_merges rows (ak_store k) Hwf) as [Hwf' Hm]. destruct (MergeAccess_in rows (ak_store k)) as [e d]. simpl in *.
    assert (∀ F', F' `sublist_of` L ++ P → (∀ scope key, scope_plain scope → accesses d !! (scope, key) =
      total (option_list (accesses d0 !! (scope, key)) ++ evs (scope, key) F')) →
      held d0 (L ++ P) F' [] (mk_AccessKeeper d ∅ 0 (ak_ticks k))) as Hheld.
    { intros F' HF' Hd. split; simpl; try done; intros *; by rewrite lookup_empty. }
    destruct e as [e|]; [destruct Hm as [Hm|Hm]|].
    + exists (F ++ P). split; [|by left]. apply Hheld; [done|]. intros scope key Hs. rewrite Hm. by apply Hmerged.
    + exists F. split; [|by right]. apply Hheld; [done|]. intros scope key Hs. rewrite Hm. by apply Hdb.
    + exists (F ++ P). split; [|by left]. apply Hheld; [done|]. intros scope key Hs. rewrite Hm. by apply Hmerged.
Qed.
Lemma held_crash d0 L F P k : held d0 L F P k → held d0 (L ++ P) F [] (crash_keeper k).2.
Proof.
  intros [Hwf Hsize Hids Hnano Hones Hsub Hdb Hacc]. split; simpl; try done.
  - intros i [x Hx]. by rewrite lookup_empty in Hx.
  - by apply sublist_inserts_r.
Qed.
Definition plain_op (o : keeper_op) : Prop := match o with KRecord scope _ => scope_plain scope | _ => True end.
Lemma run_held ops d0 L F P k : Forall plain_op ops → Z.of_nat (length P + length ops) < max_int64 → held d0 L F P k →
  ∃ L' F' P', held d0 L' F' P' (keeper_run ops k).2 ∧ L' ++ P' = L ++ P ++ (keeper_run ops k).1.1 ∧
    ((keeper_run ops k).1.2 = false → F = L → F' = L').
Proof.
  intros Hops. revert L F P k. induction Hops as [|o ops Ho Hops IH]; intros L F P k Hlen Hk.
  { exists L, F, P. simpl. rewrite (right_id_L [] (++)). done. }
  simpl in *. destruct o as [scope key| |].
  - pose proof (held_record d0 L F P k scope key Ho ltac:(lia) Hk) as H1. simpl keeper_step in *.
    set (log1 := if accredited scope key k then _ else _) in *.
    assert (length log1 <= 1)%nat by (unfold log1; destruct (accredited scope key k); simpl; lia).
    destruct (IH L F (P ++ log1) (Record_access scope key k).2) as (L' & F' & P' & Hh & Hlog & Hloss); [rewrite length_app; lia|done|].
    destruct (keeper_run ops _) as [[log2 lost2] k2]. simpl in *.
    exists L', F', P'. split; [done|]. split; [by rewrite Hlog, !(assoc_L (++))|done].
  - destruct (held_flush d0 L F P k Hk) as (F1 & H1 & Hcase).
    simpl. destruct (Flush_accesses k) as [e k1]. simpl in *.
    destruct (IH (L ++ P) F1 [] k1) as (L' & F' & P' & Hh & Hlog & Hloss); [simpl; lia|done|].
    destruct (keeper_run ops k1) as [[log2 lost2] k2]. simpl in *.
    exists L', F', P'. split; [done|]. split; [by rewrite Hlog, (assoc_L (++))|].
    intros [He Hl]%orb_false_iff HF. apply Hloss; [done|]. destruct e; [done|]. destruct Hcase as [->|[_ ?]]; [by subst|done].
  - pose proof (held_crash d0 L F P k Hk) as H1. simpl in *.
    destruct (IH (L ++ P) F [] (mk_AccessKeeper (ak_store k) ∅ 0 (ak_ticks k))) as (L' & F' & P' & Hh & Hlog & Hloss); [simpl; lia|done|].
    destruct (keeper_run ops _) as [[log2 lost2] k2]. simpl in *.
    exists L', F', P'. split; [done|]. split; [by rewrite Hlog, (assoc_L (++))|done].
Qed.

(** Every access is accredited or dropped, and none is dropped as long as there
    are no more than the table holds. *)
Lemma requested_split ops : ∀ k, (fst <$> (keeper_run ops k).1.1) ++ keeper_dropped ops k ≡ₚ requested ops.
Proof.
  induction ops as [|o ops IH]; intros k; [done|]. cbn [keeper_run keeper_dropped].
  specialize (IH (keeper_step o k).2). destruct (keeper_step o k) as [[log1 lost1] k1] eqn:E. cbn [snd] in IH |- *.
  destruct (keeper_run ops k1) as [[log2 lost2] k2]. cbn [fst snd] in *. rewrite fmap_app. destruct o as [scope key| |].
  - injection E as <- <- <-. unfold requested. simpl. destruct (accredited scope key k); simpl; [by constructor|].
    rewrite <- Permutation_middle. by constructor.
  - cbn [keeper_step] in E. destruct (Flush_accesses k). injection E as <- <- <-. exact IH.
  - injection E as <- <- <-. exact IH.
Qed.
Lemma step_size o k : (size (ak_acc (keeper_step o k).2) <= size (ak_acc k) + length (requested [o]))%nat.
Proof.
  destruct o as [scope key| |]; cbn [keeper_step snd requested omap list_omap length]; [| |simpl; rewrite map_size_empty; lia].
  - unfold Record_access. simpl. destruct (_ !! _) as [[]|] eqn:E; simpl.
    + rewrite map_size_insert_Some by eauto. lia.
    + destruct (maxKeys <=? _); simpl; [lia|]. rewrite map_size_insert_None by done. lia.
  - unfold Flush_accesses. destruct (size (ak_acc k) =? 0)%nat; [simpl; lia|].
    destruct (MergeAccess_in _ _). simpl. rewrite map_size_empty. lia.
Qed.
Lemma none_dropped ops : ∀ k, Z.of_nat (size (ak_acc k) + length (requested ops)) ≤ maxKeys → keeper_dropped ops k = [].
Proof.
  induction ops as [|o ops IH]; intros k Hk; [done|]. cbn [keeper_dropped].
  assert (length (requested (o :: ops)) = length (requested [o]) + length (requested ops))%nat as Hl
    by (unfold requested; simpl; by destruct o).
  rewrite IH by (pose proof (step_size o k); lia). destruct o as [scope key| |]; [|done..].
  unfold accredited. destruct (Z.ltb_spec (Z.of_nat (size (ak_acc k))) maxKeys) as [|Hge]; [by rewrite orb_true_r|].
  change (length (requested (KRecord scope key :: ops))) with (S (length (requested ops))) in Hk. lia.
Qed.

(** C22: accesses are counted, and counted once. Whatever is recorded and flushed,
    whatever fails and whenever the process dies, the record of an object in the
    catalogue is what it was at first, merged (latest time, sum of hits) with some
    of the accesses since, none of them twice; and with all those that [Record]
    accredited, when no flush failed, the process did not die and a flush has just
    succeeded. [Record] accredits every access unless the table, which stays within
    its bound of 100000 keys, is full of others: every access is in the log or among
    the dropped ones, and none is dropped of 100000 accesses. *)
Theorem accesses_counted_once ops d0 : wf d0 → Forall plain_op ops → Z.of_nat (length ops) < max_int64 →
  let '(log, lost, k) := keeper_run ops (new_keeper d0) in
  Z.of_nat (size (ak_acc k)) ≤ maxKeys ∧
  (fst <$> log) ++ keeper_dropped ops (new_keeper d0) ≡ₚ requested ops ∧
  (Z.of_nat (length (requested ops)) ≤ maxKeys → keeper_dropped ops (new_keeper d0) = []) ∧
  ∃ F, F `sublist_of` log ∧
    (∀ scope key, scope_plain scope → accesses (ak_store k) !! (scope, key) =
       total (option_list (accesses d0 !! (scope, key)) ++ evs (scope, key) F)) ∧
    (lost = false → (Flush_accesses k).1 = None → ∀ scope key, scope_plain scope →
       accesses (ak_store (Flush_accesses k).2) !! (scope, key) =
       total (option_list (accesses d0 !! (scope, key)) ++ evs (scope, key) log)).
Proof.
  intros Hwf Hops Hlen.
  assert (held d0 [] [] [] (new_keeper d0)) as H0.
  { split; simpl; try done; [intros i [x Hx]; by rewrite lookup_empty in Hx|].
    intros scope key _. change (evs (scope, key) []) with (@nil (Z * Z)). rewrite (right_id_L [] (++)). by destruct (accesses d0 !! _) as [[]|]. }
  destruct (run_held ops d0 [] [] [] (new_keeper d0) Hops ltac:(simpl; lia) H0) as (L & F & P & Hh & Hlog & Hloss).
  pose proof (requested_split ops (new_keeper d0)) as Hreq.
  destruct (keeper_run ops (new_keeper d0)) as [[log lost] k]. cbn [fst snd] in *. split; [apply Hh|].
  split; [exact Hreq|]. split; [intros Hn; apply none_dropped; simpl; rewrite map_size_empty; lia|].
  simpl in *. exists F. split; [rewrite <- Hlog; apply sublist_inserts_r, Hh|]. split; [apply Hh|].
  intros Hl Hok. rewrite Hl in Hloss. specialize (Hloss eq_refl eq_refl) as ->.
  destruct (held_flush d0 L L P k Hh) as (F' & Hf & [->|[_ ?]]); [|done]. rewrite <- Hlog. apply Hf.
Qed.
End accesskeeper.

(** * The counters of the cache (core/metrics) *)
Record CacheMetrics := mk_CacheMetrics {
  mc_Hits : Z; mc_Misses : Z; mc_StaleServed : Z; mc_NegativeHits : Z; mc_UpstreamErrors : Z;
  mc_BytesFromUpstream : Z; mc_BytesToClients : Z; mc_Packages : Z; mc_Ranges : Z; mc_BackgroundPanics : Z
}.
Definition no_metrics : CacheMetrics := mk_CacheMetrics 0 0 0 0 0 0 0 0 0 0.
Abbreviation Ecosystems := (gmap string CacheMetrics).
Definition NewCache : Ecosystems := ∅.
Definition ForEcosystem (name : string) (c : Ecosystems) : Ecosystems :=
  match c !! name with Some _ => c | None => <[name := no_metrics]> c end.
(** The insertion sort: [ins x] carries [x] leftwards, [prefix] is reversed. *)
Fixpoint ins (x : string) (prefix : list string) : list string :=
  match prefix with
  | [] => [x]
  | y :: prefix' => if 0 <? str_cmp y x then y :: ins x prefix' else x :: y :: prefix'
  end.
Definition sortStrings (s : list string) : list string := rev (foldl (λ prefix x, ins x prefix) [] s).

(** * statskeeper *)
Section statskeeper.
  Context (clock : nat → Z) (range : Ecosystems → list (string * CacheMetrics)).
(** What the callback of [EachEcosystem] is given. *)
Definition EachEcosystem (c : Ecosystems) : list (string * CacheMetrics) :=
  omap (λ name, (λ m, (name, m)) <$> c !! name) (sortStrings (range c).*1).
Definition row_of_metrics (t : Z) (x : string * CacheMetrics) : CacheStatsRow :=
  mk_CacheStatsRow x.1 (mc_Hits x.2) (mc_Misses x.2) (mc_StaleServed x.2) (mc_NegativeHits x.2) (mc_UpstreamErrors x.2)
    (mc_BytesFromUpstream x.2) (mc_BytesToClients x.2) (mc_Packages x.2) t.
(** The counters that the catalogue keeps; the other two start anew. *)
Definition store_row (r : CacheStatsRow) (c : Ecosystems) : Ecosystems :=
  alter (λ m, mk_CacheMetrics (cs_Hits r) (cs_Misses r) (cs_StaleServed r) (cs_NegativeHits r) (cs_UpstreamErrors r)
    (cs_BytesFromUpstream r) (cs_BytesToClients r) (cs_Packages r) (mc_Ranges m) (mc_BackgroundPanics m))
    (cs_Ecosystem r) (ForEcosystem (cs_Ecosystem r) c).

Record StatsKeeper := mk_StatsKeeper { sk_m : Ecosystems; sk_store : DB; sk_ticks : nat }.
Definition Load_stats : St StatsKeeper (option error) := λ k,
  let '(rows, d) := StatsSnapshot (sk_store k) in
  match rows with
  | Err e => (Some e, mk_StatsKeeper (sk_m k) d (sk_ticks k))
  | Ok rows => (None, mk_StatsKeeper (foldl (λ c r, store_row r c) (sk_m k) rows) d (sk_ticks k))
  end.
Definition Flush_stats : St StatsKeeper (option error) := λ k,
  let ecos := EachEcosystem (sk_m k) in
  let rows := imap (λ i x, row_of_metrics (clock (sk_ticks k + i)%nat) x) ecos in
  let n := (sk_ticks k + length ecos)%nat in
  match rows with
  | [] => (None, mk_StatsKeeper (sk_m k) (sk_store k) n)
  | _ => let '(e, d) := SaveStatsSnapshot rows (sk_store k) in (e, mk_StatsKeeper (sk_m k) d n)
  end.
(** The process starts anew over the same catalogue. *)
Definition restart_stats (k : StatsKeeper) : StatsKeeper := mk_StatsKeeper NewCache (sk_store k) (sk_ticks k).

(** ** Lemmas *)
Lemma ins_perm x l : ins x l ≡ₚ x :: l.
Proof. induction l as [|y l IH]; simpl; [done|]. destruct (0 <? str_cmp y x); [rewrite IH; constructor|done]. Qed.
Lemma sortStrings_perm s : sortStrings s ≡ₚ s.
Proof.
  unfold sortStrings. rewrite <- Permutation_rev.
  assert (∀ l, foldl (λ prefix x, ins x prefix) l s ≡ₚ s ++ l) as H; [|rewrite H; by rewrite (right_id_L [] (++))].
  induction s as [|x s IH]; intros l; simpl; [done|]. rewrite IH, ins_perm. by rewrite <- Permutation_middle.
Qed.
(** Greatest first, as the reversed prefix is. *)
Definition str_ge (a b : string) : Prop := str_cmp b a ≤ 0.
Lemma str_cmp_trans a b c : str_cmp a b ≤ 0 → str_cmp b c ≤ 0 → str_cmp a c ≤ 0.
Proof. intros H1 H2. exact (transitivity (R := str_le) H1 H2). Qed.
Lemma ins_sorted x l : StronglySorted str_ge l → StronglySorted str_ge (ins x l).
Proof.
  induction 1 as [|y l Hl IH Hy]; simpl; [repeat constructor|].
  destruct (Z.ltb_spec 0 (str_cmp y x)) as [Hlt|Hle].
  - constructor; [done|]. rewrite (ins_perm x l). constructor; [|done]. unfold str_ge. rewrite str_cmp_antisym. lia.
  - constructor; [by constructor|]. constructor; [done|]. eapply Forall_impl; [exact Hy|]. unfold str_ge. simpl. intros z Hz. by eapply str_cmp_trans.
Qed.
Lemma sortStrings_sorted s : StronglySorted str_le (sortStrings s).
Proof.
  unfold sortStrings.
  assert (∀ l, StronglySorted str_ge l → StronglySorted str_ge (foldl (λ prefix x, ins x prefix) l s)) as H.
  { induction s as [|x s IH]; intros l Hl; simpl; [done|]. apply IH. by apply ins_sorted. }
  specialize (H [] (SSorted_nil _)). revert H. generalize (foldl (λ prefix x, ins x prefix) [] s). intros l Hl.
  induction Hl as [|y l Hl IH Hy]; simpl; [constructor|]. apply StronglySorted_app_2; [|done|repeat constructor].
  intros a b Ha ->%list_elem_of_singleton. rewrite Forall_forall in Hy. apply Hy. by apply list_elem_of_In, in_rev, list_elem_of_In in Ha.
Qed.
(** A fold that gives every element its own entry. *)
Lemma foldl_keyed {A R} (key : R → string) (F : option A → R → A) (g : gmap string A → R → gmap string A) l c r :
  (∀ c r, g c r = <[key r := F (c !! key r) r]> c) → NoDup (key <$> l) → r ∈ l →
  foldl g c l !! key r = Some (F (c !! key r) r).
Proof.
  intros Hg. revert c. assert (∀ l c k, k ∉ key <$> l → foldl g c l !! k = c !! k) as Hskip.
  { induction l0 as [|x l0 IH]; intros c k Hk; [done|]. simpl. apply not_elem_of_cons in Hk as [Hx Hk].
    rewrite IH, Hg by done. by rewrite lookup_insert_ne. }
  induction l as [|x l IH]; intros c Hnd Hr; [by apply not_elem_of_nil in Hr|].
  simpl in *. apply NoDup_cons in Hnd as [Hx Hnd]. apply elem_of_cons in Hr as [->|Hr].
  - rewrite Hskip, Hg by done. apply lookup_insert_eq.
  - rewrite IH, Hg by done. rewrite lookup_insert_ne; [done|]. intros Heq. apply Hx. rewrite Heq. by apply list_elem_of_fmap_2.
Qed.
Definition kept_metrics (m : CacheMetrics) (old : CacheMetrics) : CacheMetrics :=
  mk_CacheMetrics (mc_Hits m) (mc_Misses m) (mc_StaleServed m) (mc_NegativeHits m) (mc_UpstreamErrors m)
    (mc_BytesFromUpstream m) (mc_BytesToClients m) (mc_Packages m) (mc_Ranges old) (mc_BackgroundPanics old).
Definition metrics_of_row (old : option CacheMetrics) (r : CacheStatsRow) : CacheMetrics :=
  kept_metrics (mk_CacheMetrics (cs_Hits r) (cs_Misses r) (cs_StaleServed r) (cs_NegativeHits r) (cs_UpstreamErrors r)
    (cs_BytesFromUpstream r) (cs_BytesToClients r) (cs_Packages r) 0 0) (default no_metrics old).
Lemma store_row_insert c r : store_row r c = <[cs_Ecosystem r := metrics_of_row (c !! cs_Ecosystem r) r]> c.
Proof.
  unfold store_row, ForEcosystem. apply map_eq. intros i. destruct (decide (cs_Ecosystem r = i)) as [<-|Hne].
  - rewrite lookup_alter_eq, lookup_insert_eq. destruct (c !! cs_Ecosystem r) eqn:E; [by rewrite E|by rewrite lookup_insert_eq].
  - rewrite lookup_alter_ne, lookup_insert_ne by done. destruct (c !! cs_Ecosystem r); [done|by rewrite lookup_insert_ne].
Qed.
Context (range_all : ∀ c, range c ≡ₚ map_to_list c).
Lemma each_names c : (EachEcosystem c).*1 = sortStrings (range c).*1.
Proof.
  unfold EachEcosystem. assert (∀ l, Forall (λ n, is_Some (c !! n)) l → (omap (λ n, (λ m, (n, m)) <$> c !! n) l).*1 = l) as H.
  { induction 1 as [|n l [m Hm] _ IH]; [done|]. cbn [omap list_omap]. rewrite Hm. cbn. f_equal. exact IH. }
  apply H, Forall_forall. intros n Hn. rewrite sortStrings_perm, range_all in Hn.
  apply list_elem_of_fmap in Hn as ([n' m] & -> & Hin%elem_of_map_to_list). eauto.
Qed.
Lemma each_nodup c : NoDup (EachEcosystem c).*1.
Proof. rewrite each_names, sortStrings_perm, range_all. apply NoDup_fst_map_to_list. Qed.
Lemma each_elem c n m : c !! n = Some m → (n, m) ∈ EachEcosystem c.
Proof.
  intros Hm. unfold EachEcosystem. apply list_elem_of_omap. exists n. split; [|by rewrite Hm].
  rewrite sortStrings_perm, range_all. apply list_elem_of_fmap. exists (n, m). by rewrite elem_of_map_to_list.
Qed.

Lemma SaveStats_ok rows d : rows ≠ [] → (SaveStatsSnapshot rows d).1 = None → ∃ m0,
  tb_stats (tabs (SaveStatsSnapshot rows d).2) = foldl (λ m r, <[cs_Ecosystem r := stats_row_of r]> m) m0 rows.
Proof.
  destruct rows as [|r rows]; [done|]. intros _ Hok. destruct (write_ok _ _ _ Hok) as (a & t & [= _ Ht]). exists (tb_stats t).
  unfold SaveStatsSnapshot. by rewrite <- Ht.
Qed.
Lemma StatsSnapshot_ok d rows : (StatsSnapshot d).1 = Ok rows →
  rows = omap (λ k, scanStatsRow k <$> tb_stats (tabs d) !! k) (sorted_keys (tb_stats (tabs d))).
Proof. intros Hr. apply read_ok in Hr; [|done]. congruence. Qed.
Lemma snapshot_names (m : gmap string stats_row) :
  cs_Ecosystem <$> omap (λ k, scanStatsRow k <$> m !! k) (sorted_keys m) = sorted_keys m.
Proof.
  assert (∀ l, Forall (λ k, is_Some (m !! k)) l → cs_Ecosystem <$> omap (λ k, scanStatsRow k <$> m !! k) l = l) as H.
  { induction 1 as [|k l [r Hr] _ IH]; [done|]. cbn [omap list_omap]. rewrite Hr. cbn. f_equal. exact IH. }
  apply H, Forall_forall. intros k Hk. by apply sorted_keys_elem.
Qed.

(** Statistics survive a restart. When a flush has succeeded and the process
    that starts anew has loaded the snapshot, every ecosystem has its counters
    again, except the two that are not kept, which are zero. *)
Theorem stats_roundtrip k name m :
  (Flush_stats k).1 = None → sk_m k !! name = Some m →
  let k' := restart_stats (Flush_stats k).2 in
  (Load_stats k').1 = None → sk_m (Load_stats k').2 !! name = Some (kept_metrics m no_metrics).
Proof.
  intros Hflush Hm k' Hload. unfold Flush_stats in Hflush, k'.
  set (ecos := EachEcosystem (sk_m k)) in *. set (f := λ i x, row_of_metrics (clock (sk_ticks k + i)%nat) x) in *.
  pose proof (each_elem _ _ _ Hm) as Hin. fold ecos in Hin. apply list_elem_of_lookup in Hin as [i Hi].
  assert (f i (name, m) ∈ imap f ecos) as Hrow by (apply list_elem_of_lookup; exists i; by rewrite list_lookup_imap, Hi).
  assert (cs_Ecosystem <$> imap f ecos = ecos.*1) as Hnames.
  { rewrite fmap_imap. apply list_eq. intros j. rewrite list_lookup_imap, list_lookup_fmap. by destruct (ecos !! j). }
  assert (NoDup (cs_Ecosystem <$> imap f ecos)) as Hnd by (rewrite Hnames; apply each_nodup).
  destruct (imap f ecos) as [|r0 rows0] eqn:Erows; [by apply not_elem_of_nil in Hrow|]. rewrite <- Erows in *.
  destruct (SaveStats_ok (imap f ecos) (sk_store k)) as [m0 Hm0]; [by rewrite Erows| |].
  { rewrite Erows in Hflush |- *. by destruct (SaveStatsSnapshot (r0 :: rows0) (sk_store k)). }
  pose proof (foldl_keyed cs_Ecosystem (λ _, stats_row_of) _ _ m0 _ ltac:(done) Hnd Hrow) as Hstored.
  rewrite <- Hm0 in Hstored. change (cs_Ecosystem (f i (name, m))) with name in Hstored.
  assert (sk_store k' = (SaveStatsSnapshot (imap f ecos) (sk_store k)).2 ∧ sk_m k' = ∅) as [Hstore Hempty].
  { unfold k'. rewrite Erows. by destruct (SaveStatsSnapshot (r0 :: rows0) (sk_store k)). }
  unfold Load_stats in *. destruct (StatsSnapshot (sk_store k')) as [[rows|e] d'] eqn:Esnap; [|done]. simpl.
  assert (rows = omap (λ k, scanStatsRow k <$> tb_stats (tabs (sk_store k')) !! k) (sorted_keys (tb_stats (tabs (sk_store k'))))) as Hrows
    by (apply StatsSnapshot_ok; by rewrite Esnap).
  rewrite <- Hstore in Hstored.
  assert (scanStatsRow name (stats_row_of (f i (name, m))) ∈ rows) as Hin.
  { rewrite Hrows. apply list_elem_of_omap. exists name. split; [apply sorted_keys_elem; eauto|]. by rewrite Hstored. }
  pose proof (foldl_keyed cs_Ecosystem metrics_of_row (λ c r, store_row r c) rows ∅ _ (λ c r, store_row_insert c r)
    ltac:(rewrite Hrows, snapshot_names; apply sorted_keys_nodup) Hin) as Hfold. exact Hfold.
Qed.
End statskeeper.

(** * The catalogue of SQLite *)
#[export] Instance DB_AccessStore : AccessStore DB := MergeAccess.
#[export] Instance DB_AccessLaws : AccessLaws DB.
Proof.
  refine {| accesses d := tb_access (tabs d) |}. intros rows d [Hd Hg]. split; cycle 1.
  { unfold MergeAccess_in, DB_AccessStore. pose proof (MergeAccess_merges rows d Hd) as H. simpl in *.
    destruct (MergeAccess rows d).1; [|done]. destruct H as [H|H]; [by left|right; by rewrite H]. }
  unfold MergeAccess_in, DB_AccessStore, MergeAccess. destruct rows as [|a rows]; [done|]. unfold mbind, st_bind.
  destruct (call_runs (sqlAccessMerge (a :: rows)) d) as [Henv Hr]; [done..|].
  destruct (call (stmt (sqlAccessMerge (a :: rows))) d) as [r d1]. simpl in *.
  split; [by eapply good_same_env|]. destruct Hg as [H1 H2 H3 H4].
  destruct Hr as [[= -> Ht]|(e & -> & [Ht|[Ht _]])]; rewrite Ht; by split.
Defined.

(** * Concrete lives *)
Module KeeperDemo.
Definition at_second (n : nat) : Z := from_unix (1700000000 + Z.of_nat n).
Definition access_range (m : gmap string (Z * Z)) : list (string * (Z * Z)) := map_to_list m.
Definition eco_range (m : gmap string CacheMetrics) : list (string * CacheMetrics) := map_to_list m.
Definition visits : list keeper_op :=
  [KRecord "repo" "repo/1/a"; KRecord "cache" "cache/apt/b"; KFlush; KRecord "repo" "repo/1/a"; KRecord "repo" "repo/1/a"].
Abbreviation life := (keeper_run (D := DB) at_second access_range visits (new_keeper (quiet empty_tables))).

Lemma wf_quiet : wf (quiet empty_tables).
Proof.
  split; [by intros n e|]. split; simpl.
  1, 2: intros i j r r' Hi; by rewrite lookup_empty in Hi.
  all: intros i [r Hi]; by rewrite lookup_empty in Hi.
Qed.
Lemma accesses_counted_once_witness :
  tb_access (tabs (ak_store (Flush_accesses access_range life.2).2)) !! ("repo", "repo/1/a") = Some (1700000003, 3) ∧
  accesses (ak_store (Flush_accesses access_range life.2).2) !! ("repo", "repo/1/a") = total (evs ("repo", "repo/1/a") life.1.1).
Proof.
  split; [vm_compute; reflexivity|].
  pose proof (accesses_counted_once (D := DB) at_second access_range (λ m, Permutation_refl _) visits (quiet empty_tables) wf_quiet
    ltac:(repeat constructor) ltac:(vm_compute; reflexivity)) as H.
  destruct life as [[log lost] k] eqn:E. destruct H as (_ & _ & _ & F & _ & _ & Hall).
  assert (lost = false) as Hl by (apply (f_equal (λ x, x.1.2)) in E; vm_compute in E; congruence).
  assert ((Flush_accesses access_range k).1 = None) as Hok.
  { apply (f_equal snd) in E. cbn [snd] in E. rewrite <- E. vm_compute. reflexivity. }
  exact (Hall Hl Hok "repo" "repo/1/a" eq_refl).
Defined.

Definition served : gmap string CacheMetrics :=
  {["apt" := mk_CacheMetrics 5 2 0 0 0 100 700 2 9 1; "apk" := mk_CacheMetrics 1 1 1 1 1 1 1 1 1 1]}.
Definition served_keeper : StatsKeeper := mk_StatsKeeper served (quiet empty_tables) 0.
Lemma stats_roundtrip_witness :
  (Flush_stats at_second eco_range served_keeper).1 = None ∧
  sk_m (Load_stats (restart_stats (Flush_stats at_second eco_range served_keeper).2)).2 !! "apt" =
    Some (mk_CacheMetrics 5 2 0 0 0 100 700 2 0 0).
Proof.
  split; [vm_compute; reflexivity|].
  exact (stats_roundtrip at_second eco_range (λ m, Permutation_refl _) served_keeper "apt" (mk_CacheMetrics 5 2 0 0 0 100 700 2 9 1)
    ltac:(vm_compute; reflexivity) ltac:(vm_compute; reflexivity) ltac:(vm_compute; reflexivity)).
Defined.
End KeeperDemo.
