(* ===== verification/Mirror.v ===== *)
(** Mirrors of upstream repositories (internal/core/engine/mirror: mirror.go,
    sync.go): the enumeration of an upstream, the difference with the cache, the
    pool of workers that fetch it, and the record of the job in the catalogue.

    What the mirror uses of the cache engine is the interface [MirrorCache], which
    the engine of CacheEngine implements (MirrorDemo); the catalogue is [JobStore].
    The workers, the feeder and the collector of [download] are the steps of a
    pool, taken in any order: a run is a list of steps. A prefetch is one step.
    [ctx.Err()] is a script: [ctx n] is the answer to the [n]-th reading. *)
From S2P Require Import Prelude GoStr Domain Port CacheEngine SqliteCatalog.
From Stdlib Require Import SpecFloat.
Local Open Scope Z_scope.

(** * The ports *)
Class MirrorCache (E : Type) := {
  mc_Prefetch : Ecosystem → string → St E (PrefetchResult * option error);
  mc_Stat : string → St E (res Meta);
  mc_ObjectMeta : string → St E (res ObjectMeta);
  mc_Now : St E Z
}.
Class JobStore (D : Type) := {
  CreateJob_in : SyncJob → St D (res SyncJob);
  JobByRemote_in : Z → St D (res SyncJob);
  UpdateJob_in : SyncJob → St D (option error);
  Jobs_in : St D (res (list SyncJob))
}.

(** * Configuration *)
Definition defaultRetryMax : Z := 3.
Definition defaultErrorThreshold : spec_float := S754_finite false 7205759403792794 (-57).
Definition defaultProgressInterval : Z := 2 * second.
Definition maxTrackedErrors : nat := 100.

Record MirrorConfig := mk_MirrorConfig {
  Workers : Z; MaxBandwidth : Z; RetryMax : Z; ErrorThreshold : spec_float; ProgressInterval : Z
}.
(** The normalisation of [New]. *)
Definition New_config (c : MirrorConfig) : MirrorConfig :=
  mk_MirrorConfig (if Workers c <? 1 then 1 else Workers c) (MaxBandwidth c)
    (if RetryMax c <? 0 then defaultRetryMax else RetryMax c)
    (if SFleb (ErrorThreshold c) (float64 0) then defaultErrorThreshold else ErrorThreshold c)
    (if ProgressInterval c <=? 0 then defaultProgressInterval else ProgressInterval c).

(** [throttle]: a payment of [n] bytes in pieces of at most [burst]. *)
Fixpoint pay {H} (WaitN : Z → St H (option error)) (fuel : nat) (burst n : Z) : St H (option error) :=
  if n <=? 0 then mret None
  else match fuel with
       | O => mret None
       | S fuel =>
           let take := Z.min n burst in
           e ← WaitN take;
           match e with Some e => mret (Some e) | None => pay WaitN fuel burst (n - take) end
       end.
Definition throttle {H} (WaitN : Z → St H (option error)) (c : MirrorConfig) : option (Z → St H (option error)) :=
  if 0 <? MaxBandwidth c then Some (λ n, pay WaitN (Z.to_nat n) (MaxBandwidth c) n) else None.

(** * Jobs (sync.go) *)
Definition interruptedReason : string := "interrupted".
Definition interruptedByRestart : string := interruptedReason +:+ " by restart".
Definition interruptedByCancel : string := interruptedReason +:+ " by cancel".
Definition encodeCursor (files bytes : Z) : string := "files=" +:+ fmt_int files +:+ ";bytes=" +:+ fmt_int bytes.
Definition truncateForCursor (s : string) : string :=
  if (200 <? String.length s)%nat then String.substring 0 200 s else s.
Definition with_state (st : SyncState) (cursor : string) (t : Z) (j : SyncJob) : SyncJob :=
  mk_SyncJob (jb_ID j) (jb_RemoteID j) st (jb_Interval j) (jb_LastRunAt j) cursor t.

(** * Progress *)
Inductive Line :=
| LStart | LUnsupported (e : error) | LEnumerated (n : Z) | LDiff (todo skipped : Z) | LNothing
| LDownloaded (done failed stale bytes : Z) | LError (line : string) | LInterrupted (e : error)
| LFailed (e : error) | LSucceeded.
Inductive Frame := Update (phase current : string) (processed total : Z) | Log (line : Line).

(** [topErrors]: the most frequent messages, then in the order of their text. *)
Definition count_errors (errs : list string) : gmap string Z :=
  foldl (λ m e, <[e := default 0 (m !! e) + 1]> m) ∅ errs.
Definition row_le (a b : string * Z) : Prop := b.2 < a.2 ∨ a.2 = b.2 ∧ str_le a.1 b.1.
#[global] Instance row_le_dec a b : Decision (row_le a b).
Proof. unfold row_le. apply _. Defined.
Definition topErrors (errs : list string) (n : nat) : list string :=
  (λ r : string * Z, fmt_int r.2 +:+ "x " +:+ r.1) <$> take n (merge_sort row_le (map_to_list (count_errors errs))).

(** The part of an ecosystem that the mirror calls. *)
Record MirrorEco (E : Type) := mk_MirrorEco {
  me_eco : Ecosystem;
  me_URLPrefix : string;
  me_Enumerate : Remote → St E (res (list string))
}.
Arguments mk_MirrorEco {_}. Arguments me_eco {_}. Arguments me_URLPrefix {_}. Arguments me_Enumerate {_}.

Record pathResult := mk_pathResult { p_path : string; p_bytes : Z; p_stale : bool; p_err : option error }.
Record downloadResult := mk_downloadResult {
  d_done : Z; d_failed : Z; d_stale : Z; d_bytes : Z; d_errors : list string
}.
Definition no_result : downloadResult := mk_downloadResult 0 0 0 0 [].

(** A worker waits, holds a path, or holds a result that the collector has not
    taken yet; after some results it leaves. *)
Inductive worker_state := WIdle | WHolds (path : string) | WDone (r : pathResult) (leaves : bool) | WExited.
Record Pool := mk_Pool {
  feed : list string;      (* what the feeder has yet to hand out *)
  pool_workers : list worker_state;
  pool_res : downloadResult;
  processed : Z;
  lastFlush : Z
}.
Definition set_worker (w : nat) (x : worker_state) (p : Pool) : Pool :=
  mk_Pool (feed p) (<[w := x]> (pool_workers p)) (pool_res p) (processed p) (lastFlush p).
Definition set_feed (f : list string) (p : Pool) : Pool :=
  mk_Pool f (pool_workers p) (pool_res p) (processed p) (lastFlush p).
Inductive move := Feed (w : nat) | FeedStop | Work (w : nat) | Collect (w : nat) | Leave (w : nat).

Section mirror.
  Context {E D : Type} `{!MirrorCache E} `{!JobStore D}.
  Context (ctx : nat → option error) (error_text : error → string).
  Context (ecos : gmap string (MirrorEco E)) (cfg : MirrorConfig).
  (** The threshold as [%.0f%%] prints it. *)
  Context (percent : string).

Record Mirror := mk_Mirror {
  mi_cache : E;
  mi_jobs : D;
  mi_reads : nat;          (* readings of [ctx.Err()] *)
  mi_frames : list Frame;  (* what [Progress] was told *)
  mi_hook : list error     (* what [ErrorHook] was told *)
}.
Abbreviation MM := (St Mirror).
Definition on_cache {A} : St E A → MM A := zoom mi_cache (λ c m,
  mk_Mirror c (mi_jobs m) (mi_reads m) (mi_frames m) (mi_hook m)).
Definition on_jobs {A} : St D A → MM A := zoom mi_jobs (λ d m,
  mk_Mirror (mi_cache m) d (mi_reads m) (mi_frames m) (mi_hook m)).
Definition ctx_Err : MM (option error) := λ m,
  (ctx (mi_reads m), mk_Mirror (mi_cache m) (mi_jobs m) (S (mi_reads m)) (mi_frames m) (mi_hook m)).
Definition report (f : Frame) : MM unit := st_mod (λ m,
  mk_Mirror (mi_cache m) (mi_jobs m) (mi_reads m) (mi_frames m ++ [f]) (mi_hook m)).
Definition clock_Now : MM Z := on_cache mc_Now.
Definition reportJobWrite (e : option error) : MM unit :=
  match e with
  | None => mret tt
  | Some e => st_mod (λ m, mk_Mirror (mi_cache m) (mi_jobs m) (mi_reads m) (mi_frames m) (mi_hook m ++ [e]))
  end.

(** ** The job *)
Definition startJob (r : Remote) : MM (res SyncJob) :=
  existing ← on_jobs (JobByRemote_in (rm_ID r));
  match existing with
  | Ok j =>
      t1 ← clock_Now;
      t2 ← clock_Now;
      let j := mk_SyncJob (jb_ID j) (jb_RemoteID j) StateRunning (rm_SyncInterval r) t1 (jb_Cursor j) t2 in
      e ← on_jobs (UpdateJob_in j);
      mret match e with Some e => Err (Wrap "update" e) | None => Ok j end
  | Err e =>
      if has_type is_NotFound e then
        t1 ← clock_Now;
        t2 ← clock_Now;
        c ← on_jobs (CreateJob_in (mk_SyncJob 0 (rm_ID r) StateRunning (rm_SyncInterval r) t1 "" t2));
        mret match c with Err e => Err (Wrap "create" e) | Ok j => Ok j end
      else mret (Err e)
  end.
Definition finish_job (st : SyncState) (cursor : string) (j : SyncJob) : MM (option error) :=
  t ← clock_Now;
  on_jobs (UpdateJob_in (with_state st cursor t j)).
Definition succeedJob (j : SyncJob) (files bytes : Z) : MM (option error) :=
  finish_job StateSucceeded (encodeCursor files bytes) j.
Definition failJob (j : SyncJob) (cause : error) : MM (option error) :=
  finish_job StateFailed ("error:" +:+ truncateForCursor (error_text cause)) j.
Definition failJobInterrupted (j : SyncJob) (files bytes : Z) : MM (option error) :=
  finish_job StateFailed ("error:" +:+ interruptedByCancel +:+ " (" +:+ encodeCursor files bytes +:+ ")") j.
Definition touchJob (r : Remote) (files bytes : Z) : MM (option error) :=
  j ← on_jobs (JobByRemote_in (rm_ID r));
  match j with
  | Err e => mret (Some e)
  | Ok j => t ← clock_Now; on_jobs (UpdateJob_in (with_state (jb_State j) (encodeCursor files bytes) t j))
  end.
Fixpoint recover_jobs (js : list SyncJob) : MM (option error) :=
  match js with
  | [] => mret None
  | j :: js =>
      if negb (bool_decide (jb_State j = StateRunning)) then recover_jobs js
      else
        t ← clock_Now;
        e ← on_jobs (UpdateJob_in (with_state StateFailed ("error:" +:+ interruptedByRestart) t j));
        match e with Some e => mret (Some e) | None => recover_jobs js end
  end.
Definition RecoverInterruptedJobs : MM (option error) :=
  js ← on_jobs Jobs_in;
  match js with Err e => mret (Some e) | Ok js => recover_jobs js end.

(** ** The difference with the cache *)
Definition present (target : Target) (class : Class_) : MM (res bool) :=
  match class_kind class with
  | KindMutable =>
      om ← on_cache (mc_ObjectMeta (tg_StorageKey target));
      match om with
      | Ok om =>
          s ← on_cache (mc_Stat (BytesKey om));
          match s with
          | Ok _ => t ← clock_Now; mret (Ok (negb (Expired om t)))
          | Err _ => mret (Ok false)
          end
      | Err e => mret (if has_type is_NotFound e then Ok false else Err e)
      end
  | KindImmutable =>
      s ← on_cache (mc_Stat (tg_StorageKey target));
      mret (Ok (is_ok s))
  end.
Definition eco_path (eco : MirrorEco E) (r : Remote) (up : string) : string :=
  "/" +:+ me_URLPrefix eco +:+ "/" +:+ rm_Name r +:+ up.
Fixpoint diff (eco : MirrorEco E) (r : Remote) (paths : list string) (toSync : list string) (skipped : Z) :
    MM (res (list string * Z)) :=
  match paths with
  | [] => mret (Ok (toSync, skipped))
  | up :: paths =>
      c ← ctx_Err;
      match c with
      | Some e => mret (Err e)
      | None =>
          let path := eco_path eco r up in
          match eco_Resolve (me_eco eco) path with
          | None => diff eco r paths toSync (skipped + 1)
          | Some target =>
              match eco_Classify (me_eco eco) (tg_UpstreamPath target) with
              | Err _ => diff eco r paths toSync (skipped + 1)
              | Ok class =>
                  here ← present target class;
                  match here with
                  | Err e => mret (Err e)
                  | Ok true => diff eco r paths toSync skipped
                  | Ok false => diff eco r paths (toSync ++ [path]) skipped
                  end
              end
          end
      end
  end.

(** ** Fetching *)

(** The loop over the attempts; [last] is the error of the previous one. *)
Fixpoint prefetch_loop (fuel : nat) (eco : MirrorEco E) (path : string) (last : option error) :
    MM (PrefetchResult * option error) :=
  match fuel with
  | O => mret (no_PrefetchResult, last)
  | S fuel =>
      c ← ctx_Err;
      match c with
      | Some e => mret (no_PrefetchResult, Some e)
      | None =>
          x ← on_cache (mc_Prefetch (me_eco eco) path);
          match x.2 with
          | None => mret x
          | Some e =>
              if has_type is_Stale e || has_type is_NotFound e then mret x
              else prefetch_loop fuel eco path (Some e)
          end
      end
  end.
Definition prefetchWithRetry (eco : MirrorEco E) (path : string) : MM (PrefetchResult * option error) :=
  prefetch_loop (Z.to_nat (RetryMax cfg + 1)) eco path None.

(** One path through a worker. *)
Definition work (eco : MirrorEco E) (path : string) : MM (pathResult * bool) :=
  c ← ctx_Err;
  match c with
  | Some e => mret (mk_pathResult path 0 false (Some e), true)
  | None =>
      x ← prefetchWithRetry eco path;
      mret (match x.2 with
            | Some e => if has_type is_Stale e then mk_pathResult path (pr_Bytes x.1) true None
                        else mk_pathResult path 0 false (Some e)
            | None => mk_pathResult path (pr_Bytes x.1) false None
            end, false)
  end.
Definition collected (pr : pathResult) (d : downloadResult) : downloadResult :=
  match p_err pr with
  | Some e => mk_downloadResult (d_done d) (d_failed d + 1) (d_stale d) (d_bytes d)
      (if (length (d_errors d) <? maxTrackedErrors)%nat
       then d_errors d ++ [p_path pr +:+ ": " +:+ error_text e] else d_errors d)
  | None => mk_downloadResult (d_done d + 1) (d_failed d) (if p_stale pr then d_stale d + 1 else d_stale d)
      (wrap64 (d_bytes d + p_bytes pr)) (d_errors d)
  end.
(** The collector: a result, the progress, and now and then the job. *)
Definition collect (r : Remote) (totals : Z) (pr : pathResult) (p : Pool) : MM Pool :=
  let res := collected pr (pool_res p) in
  let n := processed p + 1 in
  report (Update "download" (rm_Name r) n totals);;
  t ← clock_Now;
  if ProgressInterval cfg <=? t - lastFlush p then
    touchJob r n (d_bytes res);;
    t ← clock_Now;
    mret (mk_Pool (feed p) (pool_workers p) res n t)
  else mret (mk_Pool (feed p) (pool_workers p) res n (lastFlush p)).

(** A step of the pool; [None]: the step cannot be taken. *)
Definition pool_step (eco : MirrorEco E) (r : Remote) (totals : Z) (l : move) (p : Pool) : MM (option Pool) :=
  match l with
  | Feed w =>
      mret match pool_workers p !! w, feed p with
           | Some WIdle, path :: rest => Some (set_feed rest (set_worker w (WHolds path) p))
           | _, _ => None
           end
  | FeedStop =>
      match feed p with
      | [] => mret None
      | _ => c ← ctx_Err; mret match c with Some _ => Some (set_feed [] p) | None => None end
      end
  | Work w =>
      match pool_workers p !! w with
      | Some (WHolds path) => x ← work eco path; mret (Some (set_worker w (WDone x.1 x.2) p))
      | _ => mret None
      end
  | Collect w =>
      match pool_workers p !! w with
      | Some (WDone pr leaves) =>
          p' ← collect r totals pr p;
          mret (Some (set_worker w (if leaves then WExited else WIdle) p'))
      | _ => mret None
      end
  | Leave w =>
      mret match pool_workers p !! w, feed p with
           | Some WIdle, [] => Some (set_worker w WExited p)
           | _, _ => None
           end
  end.
Fixpoint pool_run (eco : MirrorEco E) (r : Remote) (totals : Z) (ls : list move) (p : Pool) : MM (option Pool) :=
  match ls with
  | [] => mret (Some p)
  | l :: ls =>
      p' ← pool_step eco r totals l p;
      match p' with None => mret None | Some p' => pool_run eco r totals ls p' end
  end.
Definition pool_final (p : Pool) : bool :=
  (length (feed p) =? 0)%nat && forallb (λ x, match x with WExited => true | _ => false end) (pool_workers p).
Definition new_pool (toSync : list string) (t : Z) : Pool :=
  mk_Pool toSync (replicate (Z.to_nat (Workers cfg)) WIdle) no_result 0 t.
(** [download] along a schedule; [None]: the schedule is not a whole run. *)
Definition download (eco : MirrorEco E) (r : Remote) (toSync : list string) (ls : list move) : MM (option downloadResult) :=
  t ← clock_Now;
  p ← pool_run eco r (Z.of_nat (length toSync)) ls (new_pool toSync t);
  mret match p with Some p => if pool_final p then Some (pool_res p) else None | None => None end.

(** ** Sync *)
Definition too_many (failed total : Z) : bool :=
  (0 <? failed) && SFltb (ErrorThreshold cfg) (SFdiv 53 1024 (float64 failed) (float64 total)).
Definition threshold_error (failed total : Z) : error :=
  Text ("sync: " +:+ fmt_int failed +:+ " из " +:+ fmt_int total +:+ " путей упали (>" +:+ percent +:+ ")").
(** The end of a sync, once the paths have been fetched. *)
Definition conclude (job : SyncJob) (r : Remote) (total : Z) (d : downloadResult) : MM (option error) :=
  report (Log (LDownloaded (d_done d) (d_failed d) (d_stale d) (d_bytes d)));;
  st_mod (λ m, foldl (λ m line, (report (Log (LError line)) m).2) m (topErrors (d_errors d) 10));;
  c ← ctx_Err;
  match c with
  | Some e =>
      w ← failJobInterrupted job (d_done d) (d_bytes d); reportJobWrite w;;
      report (Log (LInterrupted e));;
      mret (Some e)
  | None =>
      if too_many (d_failed d) total then
        let err := threshold_error (d_failed d) total in
        w ← failJob job err; reportJobWrite w;;
        report (Log (LFailed err));;
        mret (Some err)
      else
        w ← succeedJob job (d_done d) (d_bytes d); reportJobWrite w;;
        report (Update "done" (rm_Name r) (d_done d) total);;
        report (Log LSucceeded);;
        mret None
  end.
(** [None]: the schedule is not a run of the pool. *)
Definition Sync (r : Remote) (ls : list move) : MM (option (option error)) :=
  match ecos !! rm_Ecosystem r with
  | None => mret (Some (Some (NotFoundError "экосистема" (rm_Ecosystem r))))
  | Some eco =>
      if negb (rm_Enabled r) then mret (Some (Some (ValidationError "remote" (rm_Name r) "выключен")))
      else
        job ← startJob r;
        match job with
        | Err e => mret (Some (Some (Wrap "mirror: sync_jobs" e)))
        | Ok job =>
            report (Log LStart);;
            report (Update "enumerate" (rm_Name r) 0 0);;
            paths ← on_cache (me_Enumerate eco r);
            match paths with
            | Err e =>
                (if has_type is_Unsupported e then report (Log (LUnsupported e)) else mret tt);;
                w ← failJob job e; reportJobWrite w;;
                mret (Some (Some (if has_type is_Unsupported e then e else Wrap "mirror: enumerate" e)))
            | Ok paths =>
                report (Log (LEnumerated (Z.of_nat (length paths))));;
                report (Update "diff" (rm_Name r +:+ ": " +:+ fmt_int (Z.of_nat (length paths)) +:+ " путей") 0 (Z.of_nat (length paths)));;
                d ← diff eco r paths [] 0;
                match d with
                | Err e => w ← failJob job e; reportJobWrite w;; mret (Some (Some (Wrap "mirror: diff" e)))
                | Ok (toSync, skipped) =>
                    let total := Z.of_nat (length toSync) in
                    report (Log (LDiff total skipped));;
                    if (length toSync =? 0)%nat then
                      w ← succeedJob job 0 0; reportJobWrite w;;
                      report (Update "done" (rm_Name r) 0 0);;
                      report (Log LNothing);;
                      mret (Some None)
                    else
                      report (Update "download" (rm_Name r) 0 total);;
                      res ← download eco r toSync ls;
                      match res with
                      | None => mret None
                      | Some d => e ← conclude job r total d; mret (Some e)
                      end
                end
            end
        end
  end.
End mirror.

(** * What the catalogue promises about jobs *)
Definition job_view (j : SyncJob) : Z * SyncState * string := (jb_RemoteID j, jb_State j, jb_Cursor j).
Class JobLaws (D : Type) `{!JobStore D} := {
  job_states : D → gmap Z (Z * SyncState * string);
  jobs_wf : D → Prop;
  JobByRemote_Ok id d j : (JobByRemote_in id d).1 = Ok j → jb_RemoteID j = id;
  JobByRemote_wf id d : jobs_wf d → jobs_wf (JobByRemote_in id d).2;
  CreateJob_Ok j d j' : (CreateJob_in j d).1 = Ok j' → jb_RemoteID j' = jb_RemoteID j;
  CreateJob_wf j d : jobs_wf d → jobs_wf (CreateJob_in j d).2;
  UpdateJob_wf j d : jobs_wf d → jobs_wf (UpdateJob_in j d).2;
  UpdateJob_None j d : jobs_wf d → (UpdateJob_in j d).1 = None →
    job_states (UpdateJob_in j d).2 = <[jb_ID j := job_view j]> (job_states d);
  Jobs_wf d : jobs_wf d → jobs_wf (Jobs_in d).2;
  Jobs_Ok d js : jobs_wf d → (Jobs_in d).1 = Ok js →
    (∀ j, j ∈ js → job_states (Jobs_in d).2 !! jb_ID j = Some (job_view j)) ∧
    (∀ id, is_Some (job_states (Jobs_in d).2 !! id) → id ∈ jb_ID <$> js) ∧
    job_states (Jobs_in d).2 = job_states d
}.

(** * The pool *)
Section pool.
  Context {E D : Type} `{!MirrorCache E} `{!JobStore D}.
  Context (ctx : nat → option error) (error_text : error → string) (cfg : MirrorConfig).
  Context (eco : MirrorEco E) (r : Remote) (totals : Z).
  Abbreviation mirror := (Mirror (E := E) (D := D)).
  Abbreviation step := (pool_step ctx error_text cfg eco r totals).
  Abbreviation prun := (pool_run ctx error_text cfg eco r totals).

(** A cancelled context stays so. *)
Definition stays_cancelled : Prop := ∀ m n e, (m <= n)%nat → ctx m = Some e → ctx n ≠ None.
Definition cancelled (m : mirror) : Prop := ∃ n, (n < mi_reads m)%nat ∧ ctx n ≠ None.

(** Readings of the context only go forward. *)
Definition reads_le (m m' : mirror) : Prop := (mi_reads m <= mi_reads m')%nat.
#[global] Instance reads_le_preorder : PreOrder reads_le.
Proof. unfold reads_le. split; [intros ?; lia|intros ??? ? ?; lia]. Qed.
Definition forward {A} (x : St mirror A) : Prop := moves reads_le x.
Lemma forward_cache {A} (x : St E A) : forward (on_cache x).
Proof. intros m. unfold on_cache, zoom. destruct (x (mi_cache m)). unfold reads_le. simpl. lia. Qed.
Lemma forward_jobs {A} (x : St D A) : forward (on_jobs x).
Proof. intros m. unfold on_jobs, zoom. destruct (x (mi_jobs m)). unfold reads_le. simpl. lia. Qed.
Lemma forward_ctx : forward (ctx_Err ctx).
Proof. intros m. unfold reads_le. simpl. lia. Qed.
Lemma forward_report f : forward (report f).
Proof. intros m. unfold reads_le. simpl. lia. Qed.
End pool.
#[export] Hint Resolve forward_cache forward_jobs forward_ctx forward_report : go.
#[export] Hint Unfold forward : go.

Section pool_proofs.
  Context {E D : Type} `{!MirrorCache E} `{!JobStore D}.
  Context (ctx : nat → option error) (error_text : error → string) (cfg : MirrorConfig).
  Context (eco : MirrorEco E) (r : Remote) (totals : Z).
  Abbreviation mirror := (Mirror (E := E) (D := D)).
  Abbreviation step := (pool_step ctx error_text cfg eco r totals).
  Abbreviation prun := (pool_run ctx error_text cfg eco r totals).

Lemma forward_prefetch fuel path last : forward (D := D) (prefetch_loop ctx fuel eco path last).
Proof.
  unfold forward. revert last. induction fuel as [|fuel IH]; intros last; simpl; [apply moves_ret, _|].
  apply moves_bind; [apply _|apply forward_ctx|]. intros [e|]; [apply moves_ret, _|].
  apply moves_bind; [apply _|apply forward_cache|]. intros [x [e|]]; simpl; [|apply moves_ret, _].
  destruct (_ || _); [apply moves_ret, _|apply IH].
Qed.
Lemma forward_work path : forward (D := D) (work ctx cfg eco path).
Proof.
  unfold forward, work, prefetchWithRetry. apply moves_bind; [apply _|apply forward_ctx|]. intros [e|]; [apply moves_ret, _|].
  apply moves_bind; [apply _|apply forward_prefetch|]. intros x. apply moves_ret, _.
Qed.
Lemma forward_collect pr p : forward (D := D) (E := E) (collect error_text cfg r totals pr p).
Proof.
  unfold forward, collect, touchJob, clock_Now.
  apply moves_bind; [apply _|apply forward_report|intros _]. apply moves_bind; [apply _|apply forward_cache|intros t].
  destruct (ProgressInterval cfg <=? t - lastFlush p); [|apply moves_ret, _]. apply moves_bind; [apply _| |intros _].
  - apply moves_bind; [apply _|apply forward_jobs|]. intros [j|e]; [|apply moves_ret, _].
    apply moves_bind; [apply _|apply forward_cache|intros t']. apply forward_jobs.
  - apply moves_bind; [apply _|apply forward_cache|intros t']. apply moves_ret, _.
Qed.
Lemma forward_step l p : forward (D := D) (step l p).
Proof.
  unfold forward. destruct l as [w| |w|w|w]; simpl; [apply moves_ret, _| | | |apply moves_ret, _].
  - destruct (feed p); [apply moves_ret, _|]. apply moves_bind; [apply _|apply forward_ctx|]. intros. apply moves_ret, _.
  - destruct (_ !! w) as [[]|]; try apply moves_ret, _. apply moves_bind; [apply _|apply forward_work|]. intros. apply moves_ret, _.
  - destruct (_ !! w) as [[]|]; try apply moves_ret, _. apply moves_bind; [apply _|apply forward_collect|]. intros. apply moves_ret, _.
Qed.

(** The steps of the pool as a relation. *)
Inductive moved (m' : mirror) (p : Pool) : Pool → Prop :=
| moved_feed w path rest : pool_workers p !! w = Some WIdle → feed p = path :: rest →
    moved m' p (set_feed rest (set_worker w (WHolds path) p))
| moved_stop : feed p ≠ [] → cancelled ctx m' → moved m' p (set_feed [] p)
| moved_work w path pr lv : pool_workers p !! w = Some (WHolds path) → p_path pr = path →
    (lv = true → cancelled ctx m') → moved m' p (set_worker w (WDone pr lv) p)
| moved_collect w pr (lv : bool) t : pool_workers p !! w = Some (WDone pr lv) →
    moved m' p (mk_Pool (feed p) (<[w := if lv then WExited else WIdle]> (pool_workers p))
      (collected error_text pr (pool_res p)) (processed p + 1) t)
| moved_leave w : pool_workers p !! w = Some WIdle → feed p = [] → moved m' p (set_worker w WExited p).

Lemma work_path path (m : mirror) : p_path (work ctx cfg eco path m).1.1 = path ∧
  ((work ctx cfg eco path m).1.2 = true → cancelled ctx (work ctx cfg eco path m).2).
Proof.
  unfold work, mbind, st_bind, ctx_Err. destruct (ctx (mi_reads m)) as [e|] eqn:Hc; simpl.
  - split; [done|]. intros _. exists (mi_reads m). simpl. split; [lia|by rewrite Hc].
  - destruct (prefetchWithRetry ctx cfg eco path _) as [[x [e|]] m1]; simpl; [|done]. by destruct (has_type is_Stale e).
Qed.
Lemma collect_result pr p (m : mirror) : ∃ t, (collect error_text cfg r totals pr p m).1 =
  mk_Pool (feed p) (pool_workers p) (collected error_text pr (pool_res p)) (processed p + 1) t.
Proof.
  unfold collect, mbind, st_bind. simpl. destruct (clock_Now _) as [t m1].
  destruct (ProgressInterval cfg <=? t - lastFlush p); [|by eexists].
  destruct (touchJob _ _ _ _) as [e m2]. destruct (clock_Now m2) as [t' m3]. by eexists.
Qed.
Lemma step_moved l p p' (m m' : mirror) : step l p m = (Some p', m') → reads_le m m' ∧ moved m' p p'.
Proof.
  intros Hstep. split; [pose proof (forward_step l p m) as H; by rewrite Hstep in H|].
  destruct l as [w| |w|w|w]; simpl in Hstep.
  - destruct (pool_workers p !! w) as [[]|] eqn:Hw; try done. destruct (feed p) as [|path rest] eqn:Hf; [done|].
    injection Hstep as <- <-. by apply moved_feed.
  - destruct (feed p) as [|path rest] eqn:Hf; [done|]. unfold mbind, st_bind, ctx_Err in Hstep. simpl in Hstep.
    destruct (ctx (mi_reads m)) as [e|] eqn:Hc; [|done]. injection Hstep as <- <-.
    apply moved_stop; [by rewrite Hf|]. exists (mi_reads m). simpl. split; [lia|by rewrite Hc].
  - destruct (pool_workers p !! w) as [[]|] eqn:Hw; try done. unfold mbind, st_bind in Hstep.
    destruct (work_path path m) as [Hp Hl]. destruct (work ctx cfg eco path m) as [[pr lv] m1]. injection Hstep as <- <-.
    by eapply moved_work.
  - destruct (pool_workers p !! w) as [[| |pr lv|]|] eqn:Hw; try done. unfold mbind, st_bind in Hstep.
    destruct (collect_result pr p m) as [t Ht]. destruct (collect error_text cfg r totals pr p m) as [p1 m1]. simpl in Ht. subst p1.
    injection Hstep as <- <-. exact (moved_collect m1 p w pr lv t Hw).
  - destruct (pool_workers p !! w) as [[]|] eqn:Hw; try done. destruct (feed p) as [|path rest] eqn:Hf; [|done].
    injection Hstep as <- <-. by apply moved_leave.
Qed.

(** ** Nothing is lost, nothing is fetched twice *)
Definition in_hand (x : worker_state) : list string :=
  match x with WHolds path => [path] | WDone pr _ => [p_path pr] | WIdle | WExited => [] end.
Definition leaving (x : worker_state) : bool := match x with WExited | WDone _ true => true | _ => false end.
Record pool_inv (toSync : list string) (got : list pathResult) (dropped : list string) (p : Pool) (m : mirror) : Prop := {
  pi_res : pool_res p = foldl (λ d pr, collected error_text pr d) no_result got;
  pi_processed : processed p = Z.of_nat (length got);
  pi_paths : (p_path <$> got) ++ (pool_workers p ≫= in_hand) ++ feed p ++ dropped ≡ₚ toSync;
  pi_dropped : dropped ≠ [] → cancelled ctx m;
  pi_leaving : Exists (λ x, leaving x = true) (pool_workers p) → feed p ≠ [] → cancelled ctx m
}.
Lemma cancelled_later (m m' : mirror) : reads_le m m' → cancelled ctx m → cancelled ctx m'.
Proof. unfold reads_le. intros Hle (n & Hn & Hc). exists n. split; [lia|done]. Qed.
(** Replacing a worker. *)
Lemma bind_replace {A B} (f : A → list B) (l : list A) i x y : l !! i = Some x →
  f y ++ (l ≫= f) ≡ₚ f x ++ (<[i := y]> l ≫= f).
Proof.
  intros Hi. rewrite <- (take_drop_middle l i x Hi) at 1. rewrite insert_take_drop by (by eapply lookup_lt_Some).
  rewrite !bind_app. simpl. solve_Permutation.
Qed.
Lemma exists_replace {A} (P : A → Prop) (l : list A) i y : Exists P (<[i := y]> l) → P y ∨ Exists P l.
Proof.
  rewrite !Exists_exists. intros (z & (j & Hz)%list_elem_of_lookup & HP).
  apply list_lookup_insert_Some in Hz as [(_ & -> & _)|[_ Hz]]; [by left|]. right. exists z. split; [by eapply list_elem_of_lookup_2|done].
Qed.

Lemma pool_inv_later toSync got dropped p m m' : reads_le m m' → pool_inv toSync got dropped p m → pool_inv toSync got dropped p m'.
Proof. intros Hle [H1 H2 H3 H4 H5]. split; [done..| |]; intros; eapply cancelled_later; eauto. Qed.
Lemma moved_inv toSync got dropped p p' m m' : reads_le m m' → moved m' p p' → pool_inv toSync got dropped p m →
  ∃ got' dropped', pool_inv toSync got' dropped' p' m'.
Proof.
  intros Hle Hmoved Hinv. apply (pool_inv_later _ _ _ _ m m' Hle) in Hinv. clear m Hle. destruct Hinv as [H1 H2 H3 H4 H5].
  destruct Hmoved as [w path rest Hw Hf|Hf Hc|w path pr lv Hw Hp Hc|w pr lv t Hw|w Hw Hf].
  - exists got, dropped. split; simpl; [done..| |done|].
    + rewrite <- H3, Hf. pose proof (bind_replace in_hand _ w _ (WHolds path) Hw) as Hb. simpl in Hb.
      rewrite <- Hb. solve_Permutation.
    + intros Hl Hne. apply H5; [|by rewrite Hf]. by apply exists_replace in Hl as [?|?].
  - exists got, (feed p ++ dropped). split; simpl; [done..| |done|done]. by rewrite <- H3.
  - exists got, dropped. split; simpl; [done..| |done|].
    + rewrite <- H3. pose proof (bind_replace in_hand _ w _ (WDone pr lv) Hw) as Hb. simpl in Hb. rewrite Hp in Hb.
      by apply Permutation_cons_inv in Hb as <-.
    + intros Hl Hne. apply exists_replace in Hl as [Hl|Hl]; [|by apply H5]. simpl in Hl. destruct lv; [by apply Hc|done].
  - exists (got ++ [pr]), dropped. split; simpl.
    + by rewrite foldl_app, <- H1.
    + rewrite length_app, H2. simpl. lia.
    + rewrite <- H3, fmap_app. pose proof (bind_replace in_hand _ w _ (if lv then WExited else WIdle) Hw) as Hb. simpl in Hb.
      assert (in_hand (if lv then WExited else WIdle) = []) as Hn by (by destruct lv). rewrite Hn in Hb. simpl in Hb.
      rewrite Hb. simpl. solve_Permutation.
    + done.
    + intros Hl Hne. apply H5; [|done]. apply exists_replace in Hl as [Hl|Hl]; [|done]. destruct lv; [|done].
      apply Exists_exists. exists (WDone pr true). split; [by eapply list_elem_of_lookup_2|done].
  - exists got, dropped. split; simpl; [done..| |done|by rewrite Hf].
    rewrite <- H3. pose proof (bind_replace in_hand _ w _ WExited Hw) as Hb. simpl in Hb. by rewrite Hb.
Qed.
Lemma prun_inv ls toSync got dropped p p' m m' : pool_inv toSync got dropped p m → prun ls p m = (Some p', m') →
  ∃ got' dropped', pool_inv toSync got' dropped' p' m'.
Proof.
  revert got dropped p m. induction ls as [|l ls IH]; intros got dropped p m Hinv Hrun; simpl in Hrun.
  - injection Hrun as <- <-. eauto.
  - unfold mbind, st_bind in Hrun. destruct (step l p m) as [[p1|] m1] eqn:Hs; [|done].
    apply step_moved in Hs as [Hle Hm]. destruct (moved_inv _ _ _ _ _ _ _ Hle Hm Hinv) as (got1 & dropped1 & H1). eauto.
Qed.

(** ** The pool ends *)
Definition weight (x : worker_state) : nat := match x with WIdle => 1 | WHolds _ => 3 | WDone _ _ => 2 | WExited => 0 end.
Definition measure (p : Pool) : nat := 4 * length (feed p) + sum_list_with weight (pool_workers p).
Lemma weight_replace (l : list worker_state) i x y : l !! i = Some x →
  (sum_list_with weight (<[i := y]> l) + weight x = sum_list_with weight l + weight y)%nat.
Proof.
  revert i. induction l as [|z l IH]; intros [|i] Hi; try done; simpl in *; [injection Hi as ->; lia|]. specialize (IH i Hi). lia.
Qed.
Lemma moved_measure m' p p' : moved m' p p' → (measure p' < measure p)%nat.
Proof.
  unfold measure. destruct 1 as [w path rest Hw Hf|Hf Hc|w path pr lv Hw Hp Hc|w pr lv t Hw|w Hw Hf]; simpl.
  - pose proof (weight_replace _ _ _ (WHolds path) Hw) as H. rewrite Hf. simpl in *. lia.
  - destruct (feed p); [done|simpl; lia].
  - pose proof (weight_replace _ _ _ (WDone pr lv) Hw) as H. simpl in *. lia.
  - pose proof (weight_replace _ _ _ (if lv then WExited else WIdle) Hw) as H. destruct lv; simpl in *; lia.
  - pose proof (weight_replace _ _ _ WExited Hw) as H. simpl in *. lia.
Qed.
Lemma prun_measure ls p p' m m' : prun ls p m = (Some p', m') → (length ls + measure p' <= measure p)%nat.
Proof.
  revert p m. induction ls as [|l ls IH]; intros p m Hrun; simpl in Hrun.
  - injection Hrun as <- _. done.
  - unfold mbind, st_bind in Hrun. destruct (step l p m) as [[p1|] m1] eqn:Hs; [|done].
    apply step_moved in Hs as [_ Hm%moved_measure]. apply IH in Hrun. simpl. lia.
Qed.
Lemma moved_workers m' p p' : moved m' p p' → length (pool_workers p') = length (pool_workers p).
Proof. destruct 1; simpl; by rewrite ?length_insert. Qed.
Lemma prun_workers ls p p' m m' : prun ls p m = (Some p', m') → length (pool_workers p') = length (pool_workers p).
Proof.
  revert p m. induction ls as [|l ls IH]; intros p m Hrun; simpl in Hrun.
  - by injection Hrun as <- _.
  - unfold mbind, st_bind in Hrun. destruct (step l p m) as [[p1|] m1] eqn:Hs; [|done].
    apply step_moved in Hs as [_ Hm%moved_workers]. apply IH in Hrun. congruence.
Qed.
Lemma exited_or_not (l : list worker_state) : Forall (λ x, x = WExited) l ∨ ∃ w x, l !! w = Some x ∧ x ≠ WExited.
Proof.
  induction l as [|x l [IH|(w & y & Hw & Hy)]]; [by left| |right; by exists (S w), y].
  destruct x as [|path|pr lv|]; [right; by exists 0%nat, WIdle|right; by exists 0%nat, (WHolds path)|
    right; by exists 0%nat, (WDone pr lv)|left; by constructor].
Qed.
(** A pool that has not ended can take a step. *)
Lemma pool_progress toSync got dropped p m : stays_cancelled ctx → pool_inv toSync got dropped p m →
  pool_workers p ≠ [] → pool_final p = false → ∃ l p', (step l p m).1 = Some p'.
Proof.
  intros Hstay Hinv Hne Hfin. unfold pool_final in Hfin.
  destruct (exited_or_not (pool_workers p)) as [Hex|(w & x & Hw & Hx)]; cycle 1.
  - destruct x as [|path|pr lv|]; [| | |done].
    + destruct (feed p) as [|path rest] eqn:Hf; [exists (Leave w)|exists (Feed w)]; simpl; rewrite Hw, Hf; by eexists.
    + exists (Work w). simpl. rewrite Hw. unfold mbind, st_bind. destruct (work ctx cfg eco path m) as [x m1]. by eexists.
    + exists (Collect w). simpl. rewrite Hw. unfold mbind, st_bind. destruct (collect error_text cfg r totals pr p m) as [x m1]. by eexists.
  - destruct (feed p) as [|path rest] eqn:Hf.
    { simpl in Hfin. exfalso. revert Hfin. clear -Hex. induction Hex as [|x l -> _ IH]; simpl; [done|exact IH]. }
    destruct (pi_leaving _ _ _ _ _ Hinv) as (n & Hn & Hc); [|by rewrite Hf|].
    { destruct (pool_workers p) as [|x l]; [done|]. apply Forall_cons in Hex as [-> _]. by left. }
    exists FeedStop. simpl. rewrite Hf. unfold mbind, st_bind, ctx_Err. simpl.
    destruct (ctx n) as [e|] eqn:Hen; [|done]. destruct (ctx (mi_reads m)) eqn:Hcur; [by eexists|].
    by destruct (Hstay n (mi_reads m) e ltac:(lia) Hen).
Qed.

Lemma new_pool_inv toSync t m : pool_inv toSync [] [] (new_pool cfg toSync t) m.
Proof.
  assert (∀ n, replicate n WIdle ≫= in_hand = []) as Hidle by (intros n; induction n as [|n IH]; [done|exact IH]).
  split; simpl; [done..| |done|].
  - rewrite Hidle. simpl. by rewrite (right_id_L [] (++)).
  - intros Hl. exfalso. apply Exists_exists in Hl as (x & Hx & Hlv). by apply elem_of_replicate in Hx as [-> _].
Qed.
Lemma new_pool_measure toSync t : measure (new_pool cfg toSync t) = (4 * length toSync + Z.to_nat (Workers cfg))%nat.
Proof.
  unfold measure. simpl. f_equal. generalize (Z.to_nat (Workers cfg)). intros n. induction n as [|n IH]; [done|]. simpl in *. lia.
Qed.
Lemma prun_app ls ls' p m : prun (ls ++ ls') p m =
  match prun ls p m with (Some p', m') => prun ls' p' m' | (None, m') => (None, m') end.
Proof.
  revert p m. induction ls as [|l ls IH]; intros p m; simpl; [done|]. unfold mbind, st_bind.
  destruct (step l p m) as [[p1|] m1]; [apply IH|done].
Qed.
Lemma pool_completes n toSync got dropped p m : stays_cancelled ctx → (measure p <= n)%nat → pool_inv toSync got dropped p m →
  pool_workers p ≠ [] → ∃ ls p', (prun ls p m).1 = Some p' ∧ pool_final p' = true.
Proof.
  intros Hstay. revert got dropped p m. induction n as [n IH] using lt_wf_ind. intros got dropped p m Hn Hinv Hne.
  destruct (pool_final p) eqn:Hfin; [by exists [], p|].
  destruct (pool_progress toSync got dropped p m Hstay Hinv Hne Hfin) as (l & p1 & Hstep).
  destruct (step l p m) as [x m1] eqn:Hs. simpl in Hstep. subst x. pose proof Hs as Hs'. apply step_moved in Hs' as [Hle Hm].
  destruct (moved_inv _ _ _ _ _ _ _ Hle Hm Hinv) as (got1 & dropped1 & H1).
  pose proof (moved_measure _ _ _ Hm) as Hlt. pose proof (moved_workers _ _ _ Hm) as Hw.
  destruct (IH (measure p1) ltac:(lia) got1 dropped1 p1 m1 ltac:(lia) H1) as (ls & p2 & Hrun & Hf).
  { destruct (pool_workers p1); [|done]. by destruct (pool_workers p). }
  exists (l :: ls), p2. split; [|done]. simpl. unfold mbind, st_bind. by rewrite Hs.
Qed.

(** C24: the workers of a mirror neither deadlock nor run forever. In whatever
    order the feeder, the workers and the collector take their steps, and whenever
    the context is cancelled, there are at most four steps per path and one per
    worker, and what has been done so far can be continued to the end. *)
Theorem download_terminates toSync ls t p' m m' :
  stays_cancelled ctx → 1 ≤ Workers cfg → prun ls (new_pool cfg toSync t) m = (Some p', m') →
  (length ls <= 4 * length toSync + Z.to_nat (Workers cfg))%nat ∧
  ∃ ls' p2, (prun (ls ++ ls') (new_pool cfg toSync t) m).1 = Some p2 ∧ pool_final p2 = true.
Proof.
  intros Hstay Hw Hrun. split.
  - pose proof (prun_measure _ _ _ _ _ Hrun) as Hm. rewrite new_pool_measure in Hm. lia.
  - destruct (prun_inv _ toSync [] [] _ _ _ _ (new_pool_inv toSync t m) Hrun) as (got & dropped & Hinv).
    destruct (pool_completes (measure p') toSync got dropped p' m' Hstay ltac:(lia) Hinv) as (ls' & p2 & Hrun2 & Hf).
    { intros Hnil. apply prun_workers in Hrun. rewrite Hnil in Hrun. simpl in Hrun. rewrite length_replicate in Hrun. lia. }
    exists ls', p2. split; [|done]. by rewrite prun_app, Hrun.
Qed.

Lemma collected_count got : let d := foldl (λ d pr, collected error_text pr d) no_result got in
  d_done d + d_failed d = Z.of_nat (length got) ∧ 0 ≤ d_stale d ≤ d_done d ∧
  d_failed d = Z.of_nat (length (List.filter (λ pr, match p_err pr with Some _ => true | None => false end) got)) ∧
  (length (d_errors d) <= maxTrackedErrors)%nat.
Proof.
  induction got as [|pr got IH] using rev_ind; [simpl; unfold maxTrackedErrors; lia|]. cbv zeta in *.
  rewrite foldl_app, List.filter_app, !length_app. simpl foldl. set (d := foldl _ _ got) in *. destruct IH as (H1 & H2 & H3 & H4).
  unfold collected. destruct (p_err pr) as [e|] eqn:He; simpl; rewrite He; cbn [length].
  - split_and!; [lia|lia|lia|lia|]. destruct (Nat.ltb_spec (length (d_errors d)) maxTrackedErrors); [|done]. rewrite length_app. simpl. lia.
  - destruct (p_stale pr); simpl; split_and!; try lia; done.
Qed.
Lemma pool_final_empty p : pool_final p = true → feed p = [] ∧ pool_workers p ≫= in_hand = [].
Proof.
  intros [Hf Hw]%andb_true_iff. apply Nat.eqb_eq, nil_length_inv in Hf. split; [done|].
  induction (pool_workers p) as [|x l IH]; [done|]. simpl in Hw. destruct x; try done. simpl. by apply IH.
Qed.

(** The result of a download accounts for every path. Every path is handled
    exactly once, and counted as done or as failed; only when the context was
    cancelled may some be left out. Stale copies count as done. *)
Theorem download_accounts toSync ls (d : downloadResult) (m m' : mirror) : totals = Z.of_nat (length toSync) →
  download ctx error_text cfg eco r toSync ls m = (Some d, m') → ∃ got dropped,
  (p_path <$> got) ++ dropped ≡ₚ toSync ∧ (dropped ≠ [] → cancelled ctx m') ∧
  d_done d + d_failed d = Z.of_nat (length got) ∧ 0 ≤ d_stale d ≤ d_done d ∧
  d_failed d = Z.of_nat (length (List.filter (λ pr, match p_err pr with Some _ => true | None => false end) got)).
Proof.
  intros Ht. unfold download, mbind, st_bind. destruct (clock_Now m) as [t m0]. rewrite <- Ht.
  destruct (prun ls (new_pool cfg toSync t) m0) as [[p|] m1] eqn:Hrun; [|done].
  destruct (pool_final p) eqn:Hf; [|done]. intros [= <- <-].
  destruct (prun_inv _ toSync [] [] _ _ _ _ (new_pool_inv toSync t m0) Hrun) as (got & dropped & Hinv).
  apply pool_final_empty in Hf as [Hfeed Hhand]. exists got, dropped.
  pose proof (collected_count got) as Hc. cbv zeta in Hc. rewrite <- (pi_res _ _ _ _ _ Hinv) in Hc.
  pose proof (pi_paths _ _ _ _ _ Hinv) as Hp. rewrite Hhand, Hfeed in Hp. split_and!; [exact Hp|apply Hinv|apply Hc..].
Qed.
End pool_proofs.

(** * The record of a job *)
Section job_proofs.
  Context {E D : Type} `{!MirrorCache E} `{!JobStore D} `{!JobLaws D}.
  Context (ctx : nat → option error) (error_text : error → string).
  Context (ecos : gmap string (MirrorEco E)) (cfg : MirrorConfig) (percent : string).
  Abbreviation mirror := (Mirror (E := E) (D := D)).

(** Steps that keep the catalogue in order and report no failed write. *)
Definition tidy (m m' : mirror) : Prop :=
  mi_hook m' = mi_hook m ∧ (jobs_wf (mi_jobs m) → jobs_wf (mi_jobs m')).
#[global] Instance tidy_preorder : PreOrder tidy.
Proof. unfold tidy. split; [done|]. intros m1 m2 m3 [H1 H2] [H3 H4]. split; [congruence|auto]. Qed.
Lemma tidy_cache {A} (x : St E A) : moves tidy (on_cache x).
Proof. intros m. unfold on_cache, zoom. by destruct (x (mi_cache m)). Qed.
Lemma tidy_jobs {A} (x : St D A) : (∀ d, jobs_wf d → jobs_wf (x d).2) → moves tidy (on_jobs x).
Proof. intros Hx m. unfold on_jobs, zoom. specialize (Hx (mi_jobs m)). by destruct (x (mi_jobs m)). Qed.
Lemma tidy_ctx : moves tidy (ctx_Err ctx).
Proof. by intros m. Qed.
Lemma tidy_report f : moves tidy (report f).
Proof. by intros m. Qed.
Lemma tidy_log_errors lines : moves tidy (st_mod (λ m : mirror, foldl (λ m line, (report (Log (LError line)) m).2) m lines)).
Proof. intros m. simpl. revert m. induction lines as [|l lines IH]; intros m; simpl; [done|]. etrans; [|apply IH]. done. Qed.
Lemma tidy_now : moves tidy clock_Now.
Proof. apply tidy_cache. Qed.
Lemma tidy_by_remote id : moves tidy (on_jobs (JobByRemote_in id)).
Proof. apply tidy_jobs, JobByRemote_wf. Qed.
Lemma tidy_create j : moves tidy (on_jobs (CreateJob_in j)).
Proof. apply tidy_jobs, CreateJob_wf. Qed.
Lemma tidy_update j : moves tidy (on_jobs (UpdateJob_in j)).
Proof. apply tidy_jobs, UpdateJob_wf. Qed.
Lemma tidy_list : moves tidy (on_jobs Jobs_in).
Proof. apply tidy_jobs, Jobs_wf. Qed.
#[local] Hint Resolve tidy_cache tidy_ctx tidy_report tidy_log_errors tidy_now tidy_by_remote tidy_create tidy_update tidy_list : go.

Lemma tidy_start r : moves tidy (startJob r).
Proof. unfold startJob. moves_tac. Qed.
Lemma tidy_touch r files bytes : moves tidy (touchJob r files bytes).
Proof. unfold touchJob. moves_tac. Qed.
Lemma tidy_diff eco r paths toSync skipped : moves tidy (diff ctx eco r paths toSync skipped).
Proof.
  revert toSync skipped. induction paths as [|up paths IH]; intros toSync skipped; simpl; [apply moves_ret, _|].
  unfold present. moves_tac.
Qed.
Lemma tidy_prefetch fuel eco path last : moves tidy (prefetch_loop ctx fuel eco path last).
Proof. revert last. induction fuel as [|fuel IH]; intros last; simpl; moves_tac. Qed.
#[local] Hint Resolve tidy_start tidy_touch tidy_diff tidy_prefetch : go.
Lemma tidy_step eco r totals l p : moves tidy (pool_step ctx error_text cfg eco r totals l p).
Proof. unfold pool_step, work, prefetchWithRetry, collect. moves_tac. Qed.
#[local] Hint Resolve tidy_step : go.
Lemma tidy_run eco r totals ls p : moves tidy (pool_run ctx error_text cfg eco r totals ls p).
Proof. revert p. induction ls as [|l ls IH]; intros p; simpl; moves_tac. Qed.
#[local] Hint Resolve tidy_run : go.
Lemma tidy_download eco r toSync ls : moves tidy (download ctx error_text cfg eco r toSync ls).
Proof. unfold download. moves_tac. Qed.

(** ** The last write *)
Definition record_job (j : SyncJob) (st : SyncState) (cursor : string) (m m' : mirror) : Prop :=
  jobs_wf (mi_jobs m) → mi_hook m' = mi_hook m →
  job_states (mi_jobs m') !! jb_ID j = Some (jb_RemoteID j, st, cursor).
Lemma finish_records j st cursor m :
  record_job j st cursor m ((w ← finish_job st cursor j; reportJobWrite w) m).2.
Proof.
  intros Hwf. unfold finish_job, mbind, st_bind. pose proof (tidy_now m) as [Hh Hw]. destruct (clock_Now m) as [t m1]. simpl in *.
  unfold on_jobs, zoom. destruct (UpdateJob_in (with_state st cursor t j) (mi_jobs m1)) as [w d] eqn:Hu. destruct w as [e|]; simpl.
  - rewrite Hh. intros Happ. exfalso. apply (f_equal length) in Happ. rewrite length_app in Happ. simpl in Happ. lia.
  - intros _. pose proof (UpdateJob_None (with_state st cursor t j) (mi_jobs m1) (Hw Hwf)) as Hs. rewrite Hu in Hs.
    specialize (Hs eq_refl). simpl in Hs. rewrite Hs. apply lookup_insert_eq.
Qed.
(** The row agrees with what [Sync] returned. *)
Definition outcome_state (e : option error) : SyncState := match e with None => StateSucceeded | Some _ => StateFailed end.
Definition outcome_cursor (e : option error) (cursor : string) : Prop :=
  match e with None => ∃ files bytes, cursor = encodeCursor files bytes | Some _ => ∃ why, cursor = "error:" +:+ why end.
Definition settled (j : SyncJob) (m : mirror) (e : option error) (m' : mirror) : Prop :=
  ∃ cursor, outcome_cursor e cursor ∧ record_job j (outcome_state e) cursor m m'.
Definition quiet (m m' : mirror) : Prop := mi_hook m' = mi_hook m ∧ mi_jobs m' = mi_jobs m.
#[global] Instance quiet_preorder : PreOrder quiet.
Proof. unfold quiet. split; [done|]. intros m1 m2 m3 [H1 H2] [H3 H4]. split; congruence. Qed.
Lemma quiet_report f : moves quiet (report f).
Proof. by intros m. Qed.
#[local] Hint Resolve quiet_report : go.
Lemma settled_tidy j m m1 e m' : tidy m m1 → settled j m1 e m' → settled j m e m'.
Proof.
  intros [Hh Hw] (cursor & Hc & Hr). exists cursor. split; [done|]. intros Hwf Hhook. apply Hr; [auto|congruence].
Qed.
(** An operation at whose end the row of [j] agrees with its answer [f]. *)
Definition ends {A} (f : A → option (option error)) (j : SyncJob) (x : St mirror A) : Prop :=
  ∀ m out, f (x m).1 = Some out → settled j m out (x m).2.
Lemma ends_bind {A B} (f : B → option (option error)) j (x : St mirror A) (k : A → St mirror B) :
  moves tidy x → (∀ a, ends f j (k a)) → ends f j (x ≫= k).
Proof.
  intros Hx Hk m out. unfold mbind, st_bind. specialize (Hx m). destruct (x m) as [a m1]. simpl in *.
  intros Hout. eapply settled_tidy; [done|by apply Hk].
Qed.
Lemma ends_ret {A B} (f : B → option (option error)) j (x : St mirror A) (g : A → B) :
  ends (λ a, f (g a)) j x → ends f j (a ← x; mret (g a)).
Proof. intros Hx m out. unfold mbind, st_bind. specialize (Hx m). destruct (x m) as [a m1]. apply Hx. Qed.
Lemma ends_finish {A} (f : A → option (option error)) j e cursor (tail : St mirror A) :
  outcome_cursor e cursor → moves quiet tail → (∀ m1, f (tail m1).1 = Some e) →
  ends f j (w ← finish_job (outcome_state e) cursor j; reportJobWrite w;; tail).
Proof.
  intros Hc Htail Hf m out. pose proof (finish_records j (outcome_state e) cursor m) as Hr.
  unfold mbind, st_bind in *. destruct (finish_job _ _ _ m) as [w m1]. destruct (reportJobWrite w m1) as [u m2]. simpl in Hr.
  rewrite Hf. intros [= <-]. exists cursor. split; [done|].
  destruct (Htail m2) as [Hh Hj]. intros Hwf Hhook. rewrite Hj. apply Hr; [done|congruence].
Qed.
Lemma error_cursor e why : outcome_cursor (Some e) ("error:" +:+ why).
Proof. by exists why. Qed.
Lemma progress_cursor files bytes : outcome_cursor None (encodeCursor files bytes).
Proof. by exists files, bytes. Qed.
#[local] Hint Resolve error_cursor progress_cursor : go.
Lemma conclude_ends j r total d : ends Some j (conclude ctx error_text cfg percent j r total d).
Proof.
  unfold conclude. apply ends_bind; [apply tidy_report|intros _]. apply ends_bind; [apply tidy_log_errors|intros _].
  apply ends_bind; [apply tidy_ctx|intros c]. destruct c as [e|]; [|destruct (too_many cfg (d_failed d) total)].
  - apply (ends_finish _ j (Some e)); [eauto with go|moves_tac|done].
  - apply (ends_finish _ j (Some (threshold_error percent (d_failed d) total))); [eauto with go|moves_tac|done].
  - apply (ends_finish _ j None); [eauto with go|moves_tac|done].
Qed.

(** What follows the start of the job. *)
Lemma startJob_remote r m j : (startJob r m).1 = Ok j → jb_RemoteID j = rm_ID r.
Proof.
  unfold startJob, mbind, st_bind, on_jobs, zoom. pose proof (JobByRemote_Ok (rm_ID r) (mi_jobs m)) as Hb.
  destruct (JobByRemote_in (rm_ID r) (mi_jobs m)) as [[j0|e] d].
  - destruct (clock_Now _) as [t1 m1]. destruct (clock_Now m1) as [t2 m2].
    destruct (UpdateJob_in _ _) as [[e|] d2]; [done|]. intros [= <-]. simpl. by apply Hb.
  - destruct (has_type is_NotFound e); [|done]. destruct (clock_Now _) as [t1 m1]. destruct (clock_Now m1) as [t2 m2].
    set (new := mk_SyncJob _ _ _ _ _ _ _). pose proof (CreateJob_Ok new (mi_jobs m2)) as Hc.
    destruct (CreateJob_in new (mi_jobs m2)) as [[j1|e1] d2]; [|done]. intros [= <-]. by rewrite (Hc _ eq_refl).
Qed.

(** C23: the catalogue tells how a synchronisation ended. If the job could be
    started, and no write of its end was reported as failed, then its row says
    succeeded, with the number of files, when [Sync] returned no error, and failed,
    with the reason, when it returned one: a job whose synchronisation is over is
    then not left running, whichever of the phases it ended in. Where the last write
    fails, the hook hears of it ([mi_hook]) and the row may stay running. *)
Theorem sync_job_reflects_outcome r ls out j eco (m m' : mirror) :
  ecos !! rm_Ecosystem r = Some eco → rm_Enabled r = true → (startJob r m).1 = Ok j →
  Sync ctx error_text ecos cfg percent r ls m = (Some out, m') → jobs_wf (mi_jobs m) → mi_hook m' = mi_hook m →
  ∃ cursor, job_states (mi_jobs m') !! jb_ID j = Some (rm_ID r, outcome_state out, cursor) ∧ outcome_cursor out cursor.
Proof.
  intros He Hon Hstart Hrun Hwf Hhook. rewrite <- (startJob_remote r m j Hstart).
  enough (settled j m out m') as (cursor & Hc & Hr) by (exists cursor; split; [by apply Hr|done]).
  revert Hrun. unfold Sync. rewrite He, Hon. change (negb true) with false. cbv iota. unfold mbind at 1, st_bind at 1.
  pose proof (tidy_start r m) as Ht. destruct (startJob r m) as [x m1]. simpl in Hstart, Ht. subst x. cbv beta iota.
  match goal with |- ?x m1 = _ → _ => enough (ends id j x) as Hends end.
  { intros Hrun. eapply settled_tidy; [exact Ht|]. specialize (Hends m1 out). rewrite Hrun in Hends. by apply Hends. }
  clear. apply ends_bind; [apply tidy_report|intros _]. apply ends_bind; [apply tidy_report|intros _].
  apply ends_bind; [apply tidy_cache|intros [paths|e]].
  2:{ destruct (has_type is_Unsupported e); (apply ends_bind; [moves_tac|intros _]).
    - apply (ends_finish _ j (Some e)); [eauto with go|moves_tac|done].
    - apply (ends_finish _ j (Some (Wrap "mirror: enumerate" e))); [eauto with go|moves_tac|done]. }
  apply ends_bind; [apply tidy_report|intros _]. apply ends_bind; [apply tidy_report|intros _].
  apply ends_bind; [apply tidy_diff|intros [[toSync skipped]|e]].
  2:{ apply (ends_finish _ j (Some (Wrap "mirror: diff" e))); [eauto with go|moves_tac|done]. }
  apply ends_bind; [apply tidy_report|intros _]. destruct (length toSync =? 0)%nat.
  - apply (ends_finish _ j None); [eauto with go|moves_tac|done].
  - apply ends_bind; [apply tidy_report|intros _]. apply ends_bind; [apply tidy_download|intros [d|]]; [|by intros m0 ?].
    apply ends_ret, conclude_ends.
Qed.

(** ** After a restart *)
Definition interrupted_row (x : Z * SyncState * string) : Z * SyncState * string :=
  if decide (x.1.2 = StateRunning) then (x.1.1, StateFailed, "error:" +:+ interruptedByRestart) else x.
Lemma interrupted_twice x : interrupted_row (interrupted_row x) = interrupted_row x.
Proof. unfold interrupted_row. destruct (decide (x.1.2 = StateRunning)) as [H|H]; simpl; [done|]. by rewrite decide_False. Qed.
Lemma now_jobs (m : mirror) : mi_jobs (clock_Now m).2 = mi_jobs m.
Proof. unfold clock_Now, on_cache, zoom. by destruct (mc_Now (mi_cache m)). Qed.
(** A row read from the table is still there, or was marked meanwhile. *)
Definition listed (d : D) (j : SyncJob) : Prop :=
  job_states d !! jb_ID j = Some (job_view j) ∨ job_states d !! jb_ID j = Some (interrupted_row (job_view j)).
Lemma listed_marked d j : listed d j → interrupted_row <$> job_states d !! jb_ID j = Some (interrupted_row (job_view j)).
Proof. intros [-> | ->]; simpl; by rewrite ?interrupted_twice. Qed.
(** One running job. *)
Lemma recover_one j t d : jobs_wf d → jb_State j = StateRunning →
  let new := with_state StateFailed ("error:" +:+ interruptedByRestart) t j in (UpdateJob_in new d).1 = None →
  let d' := (UpdateJob_in new d).2 in jobs_wf d' ∧ job_states d' = <[jb_ID j := interrupted_row (job_view j)]> (job_states d).
Proof.
  intros Hwf Hr new Hn d'. split; [by apply UpdateJob_wf|]. unfold d'. rewrite UpdateJob_None by done.
  unfold interrupted_row, job_view at 2. simpl. by rewrite decide_True.
Qed.
Lemma recover_rows js m : jobs_wf (mi_jobs m) → (recover_jobs js m).1 = None → (∀ j, j ∈ js → listed (mi_jobs m) j) →
  ∀ id, job_states (mi_jobs (recover_jobs js m).2) !! id =
    (if decide (id ∈ jb_ID <$> js) then interrupted_row <$> job_states (mi_jobs m) !! id else job_states (mi_jobs m) !! id).
Proof.
  revert m. induction js as [|j js IH]; intros m Hwf Hnone Hrows id; [done|]. revert Hnone. simpl recover_jobs.
  pose proof (Hrows j ltac:(set_solver)) as Hj.
  destruct (bool_decide_reflect (jb_State j = StateRunning)) as [Hr|Hr]; unfold negb; cbv iota.
  - unfold mbind, st_bind. cbv beta. pose proof (tidy_now m) as [_ Hw]. pose proof (now_jobs m) as Hm. destruct (clock_Now m) as [t m1].
    simpl in Hw, Hm. unfold on_jobs, zoom. cbv beta iota. pose proof (recover_one j t (mi_jobs m1) (Hw Hwf) Hr) as Hone. simpl mi_jobs; cbv zeta in Hone.
    destruct (UpdateJob_in (with_state StateFailed ("error:" +:+ interruptedByRestart) t j) (mi_jobs m1)) as [[e|] d]; simpl; [done|]. destruct (Hone eq_refl) as [Hw2 Hd]. simpl in Hw2, Hd.
    rewrite Hm in Hd. intros Hnone. rewrite IH; [|done|done|].
    + simpl. rewrite Hd. destruct (decide (id = jb_ID j)) as [->|Hne].
      * rewrite lookup_insert_eq, (decide_True (P := _ ∈ jb_ID j :: _)), listed_marked by (set_solver || done). simpl.
        rewrite interrupted_twice. by destruct (decide (jb_ID j ∈ jb_ID <$> js)).
      * rewrite lookup_insert_ne by done. destruct (decide (id ∈ jb_ID <$> js)); [rewrite decide_True by set_solver|rewrite decide_False by set_solver]; done.
    + simpl. intros j' Hj'. unfold listed. rewrite Hd. destruct (decide (jb_ID j' = jb_ID j)) as [He|Hne].
      * right. rewrite He, lookup_insert_eq. f_equal. apply listed_marked in Hj. pose proof (Hrows j' ltac:(set_solver)) as Hl.
        apply listed_marked in Hl. rewrite He in Hl. congruence.
      * rewrite lookup_insert_ne by done. apply Hrows. set_solver.
  - intros Hnone. rewrite (IH m Hwf Hnone) by (intros j' Hj'; apply Hrows; set_solver).
    destruct (decide (id ∈ jb_ID <$> js)); [by rewrite decide_True by set_solver|].
    destruct (decide (id = jb_ID j)) as [->|Hne]; [|by rewrite decide_False by set_solver].
    rewrite decide_True by set_solver. destruct Hj as [-> | ->]; simpl; rewrite ?interrupted_twice; [|done].
    unfold interrupted_row. by rewrite decide_False.
Qed.

(** The recovery at start marks the jobs that a crash left running, and only
    those: after it no job is running. *)
Lemma RecoverInterruptedJobs_marks m : jobs_wf (mi_jobs m) → (RecoverInterruptedJobs m).1 = None →
  job_states (mi_jobs (RecoverInterruptedJobs m).2) = interrupted_row <$> job_states (mi_jobs m).
Proof.
  intros Hwf. unfold RecoverInterruptedJobs, mbind, st_bind, on_jobs, zoom.
  pose proof (Jobs_Ok (mi_jobs m)) as Hok. pose proof (Jobs_wf (mi_jobs m) Hwf) as Hw.
  destruct (Jobs_in (mi_jobs m)) as [[js|e] d]; [|done]. destruct (Hok js Hwf eq_refl) as (Hrows & Hall & Hd). simpl in *.
  intros Hnone. apply map_eq. intros id. rewrite recover_rows by (try done; intros j Hj; left; by apply Hrows).
  rewrite lookup_fmap, <- Hd. simpl. destruct (decide (id ∈ jb_ID <$> js)) as [_|Hn]; [done|].
  destruct (job_states d !! id) as [x|] eqn:Hx; [|done]. destruct Hn. apply Hall. by rewrite Hx.
Qed.
Lemma interrupted_not_running x : (interrupted_row x).1.2 ≠ StateRunning.
Proof. unfold interrupted_row. by destruct (decide (x.1.2 = StateRunning)). Qed.
End job_proofs.
