(* ===== verification/MirrorDemo.v ===== *)
(** Mirrors over the cache engine and the SQLite catalogue: the two interfaces of
    Mirror discharged, and its theorems at concrete synchronisations. *)
From S2P Require Import Prelude GoStr Domain Port CacheEngine Sqlite SqliteLaws SqliteCatalog SqliteSchema Mirror.
From Stdlib Require Import SpecFloat.
Local Open Scope Z_scope.

(** * The catalogue of SQLite *)
#[export] Instance DB_JobStore : JobStore DB := {
  CreateJob_in := CreateJob; JobByRemote_in := JobByRemote; UpdateJob_in := UpdateJob; Jobs_in := Jobs
}.
Definition row_view (r : job_row) : Z * SyncState * string := (jr_remote_id r, state_of (jr_state r), jr_cursor r).
Lemma job_row_view j : row_view (job_row_of j) = job_view j.
Proof. unfold row_view, job_view, job_row_of. simpl. by rewrite state_column. Qed.
Lemma scan_view id r : job_view (scanJob id r) = row_view r.
Proof. done. Qed.

Lemma insert_job_atomic r : atomic (sqlJobInsert r).
Proof. intros t e. unfold sqlJobInsert. destruct (tb_remotes t !! _); [done|]. by intros [= <-]. Qed.
Lemma update_job_atomic j : atomic (sqlJobUpdate j).
Proof. intros t e. unfold sqlJobUpdate. destruct (tb_jobs t !! _); [|done]. destruct (tb_remotes t !! _); [done|]. by intros [= <-]. Qed.
Lemma by_remote_atomic id : atomic (sqlJobByRemote id).
Proof. apply select_atomic. intros t e. apply row_busy. Qed.
Lemma all_jobs_atomic : atomic sqlJobAll.
Proof. by apply select_atomic. Qed.
Lemma call_env {A B} (q : query A) (f : sres A → B) d : atomic q → good_env d →
  good_env ((x ← call (stmt q); mret (f x)) d).2.
Proof.
  intros Hq Hd. destruct (call_runs q d Hq Hd) as [Hs _]. unfold mbind, st_bind.
  destruct (call (stmt q) d) as [x d1]. by eapply good_same_env.
Qed.
#[export] Instance DB_JobLaws : JobLaws DB.
Proof.
  refine {| job_states d := row_view <$> tb_jobs (tabs d); jobs_wf := good_env |}.
  - intros id d j. unfold JobByRemote_in, DB_JobStore, JobByRemote, mbind, st_bind.
    destruct (call (stmt (sqlJobByRemote id)) d) as [[j'|e] d1] eqn:Hc; [|done]. intros [= ->].
    destruct (call_ok (sqlJobByRemote id) d j) as [t Ht]; [by rewrite Hc|]. injection Ht as Hrow _.
    destruct (find_row _ (tb_jobs t)) as [[i r]|] eqn:Hf; [|done]. simpl in Hrow. injection Hrow as <-.
    apply find_row_Some in Hf as [_ Hr]. simpl. by apply Z.eqb_eq.
  - intros id d Hd. apply call_env; [apply by_remote_atomic|done].
  - intros j d j'. unfold CreateJob_in, DB_JobStore, CreateJob, mbind, st_bind.
    destruct (call _ d) as [[id|e] d1]; [|done]. by intros [= <-].
  - intros j d Hd. apply call_env; [apply insert_job_atomic|done].
  - intros j d Hd. apply call_env; [apply update_job_atomic|done].
  - intros j d Hd. unfold UpdateJob_in, DB_JobStore, UpdateJob, mbind, st_bind.
    destruct (call_runs (sqlJobUpdate j) d (update_job_atomic j) Hd) as [_ Hr].
    destruct (call (stmt (sqlJobUpdate j)) d) as [x d1]. simpl in *. destruct Hr as [Heq|(e & -> & _)]; [|done].
    unfold sqlJobUpdate in Heq. destruct (tb_jobs (tabs d) !! jb_ID j); [|by injection Heq as -> _].
    destruct (tb_remotes (tabs d) !! _); [|by injection Heq as -> _]. injection Heq as -> ->. intros _. simpl.
    by rewrite fmap_insert, job_row_view.
  - intros d Hd. apply call_env; [apply all_jobs_atomic|done].
  - intros d js Hd. unfold Jobs_in, DB_JobStore, Jobs, mbind, st_bind.
    destruct (call_runs sqlJobAll d all_jobs_atomic Hd) as [_ Hr].
    destruct (call (stmt sqlJobAll) d) as [x d1]. simpl in *. destruct Hr as [Heq|(e & -> & _)]; [|done].
    injection Heq as -> ->. intros [= <-]. split_and!; [| |done].
    + intros j ([i r] & -> & Hi%by_id_elem)%list_elem_of_fmap. simpl. rewrite lookup_fmap, Hi. done.
    + intros id [x Hx]. rewrite lookup_fmap in Hx. apply fmap_Some in Hx as (r & Hr & _).
      apply list_elem_of_fmap. exists (scanJob id r). split; [done|]. apply list_elem_of_fmap. exists (id, r).
      by rewrite by_id_elem.
Defined.

(** * The cache engine *)
Section engine_cache.
  Context {S I H : Type} `{Storage S} `{ObjectIndex I}.
  Context (http_Do : string → CacheEngine.Request → St H (res Response)) (clock : nat → Z).
  Context (hash_hex : HashAlgo → string → string) (format_time : Z → string) (parseHTTPTime : string → option Z).
  Context (new_request_error : string → option error) (any_key : ∀ A, gmap string A → option string).
  Context (ccfg : Config) (nonce : N).
  Context (WaitN : Z → St H (option error)) (cfg : MirrorConfig).
Definition engine_MirrorCache : MirrorCache (Cache.Engine (S := S) (I := I) (H := H)) := {|
  mc_Prefetch eco path :=
    Cache.PrefetchThrottled http_Do clock hash_hex format_time parseHTTPTime new_request_error any_key ccfg nonce eco path
      (throttle WaitN cfg);
  mc_Stat key := Cache.on_storage (Stat key);
  mc_ObjectMeta key := Cache.on_index (ObjectMeta_of key);
  mc_Now := Cache.now clock
|}.
End engine_cache.

(** * A synchronisation

    The upstream has four packages: the first is already in the cache, the
    second is served, the third is gone, the fourth fails; and the enumeration
    names a path that is not the ecosystem's. *)
Definition name_of (path : string) : option string :=
  if String.prefix "/deb/main/" path then Some (String.substring 10 (String.length path - 10) path) else None.
Definition deb_target (name : string) : Target :=
  mk_Target ("u/" +:+ name) ("/" +:+ name) ("cache/" +:+ name) (mk_Checksum "" "") "".
Definition deb : Ecosystem := mk_Ecosystem "apt" (λ p, deb_target <$> name_of p) (λ _, Ok Immutable).
Definition engine : Type := Cache.Engine (S := FakeStorage) (I := FakeObjectIndex) (H := nat).
Definition unmetered (_ : Z) : St nat (option error) := mret None.
Definition mirror_cfg : MirrorConfig := New_config (mk_MirrorConfig 2 2 1 (SFdiv 53 1024 (float64 7) (float64 10)) 1).
#[export] Instance demo_cache : MirrorCache engine :=
  engine_MirrorCache Demo.http_Do Demo.clock Demo.hash_hex Demo.format_time Demo.parse_time Demo.no_error Demo.first_key
    Demo.cfg 7 unmetered mirror_cfg.
Definition deb_main : MirrorEco engine :=
  mk_MirrorEco deb "deb" (λ _, mret (Ok ["/k"; "/200"; "/404"; "/500"; "x"])).
Definition ecos : gmap string (MirrorEco engine) := <["apt" := deb_main]> ∅.
Definition main : Remote := mk_Remote 1 "main" "apt" "http://u" ModeMirror true hour [] "" None (from_unix 1700000000).
Definition quiet_ctx (_ : nat) : option error := None.
Definition text (_ : error) : string := "error".

Definition db_with_remote : DB := (CreateRemote main (mk_DB (λ _, Runs) (λ _, None) 0 empty_tables)).2.
Abbreviation mirror := (Mirror (E := engine) (D := DB)).
Definition fresh_mirror : mirror := mk_Mirror (Cache.New Demo.storage1 (∅ : FakeObjectIndex) O) db_with_remote 0 [] [].
Definition schedule : list move :=
  [Feed 0; Feed 1; Work 1; Collect 1; Feed 1; Work 0; Work 1; Collect 0; Collect 1; Leave 1; Leave 0].
Definition sync (ctx : nat → option error) := Sync ctx text ecos mirror_cfg "70%" main.
Definition cancel_at (k n : nat) : option error := if (k <=? n)%nat then Some (Text "context canceled") else None.
Definition stopped_schedule : list move := [Feed 0; Feed 1; Work 1; Collect 1; FeedStop; Leave 1; Work 0; Collect 0].
Lemma cancel_stays k : stays_cancelled (cancel_at k).
Proof. intros m n e Hmn. unfold cancel_at. destruct (Nat.leb_spec k m); [|done]. destruct (Nat.leb_spec k n); [done|lia]. Qed.
Definition job_after (m : mirror) : option (Z * SyncState * string) := job_states (mi_jobs m) !! 1.
(** What the job says after a synchronisation that succeeds, one that is stopped
    while it downloads, and one that is stopped while it compares. *)
Example runs_end :
  (sync quiet_ctx schedule fresh_mirror).1 = Some None ∧
  job_after (sync quiet_ctx schedule fresh_mirror).2 = Some (1, StateSucceeded, "files=1;bytes=3") ∧
  (sync (cancel_at 7) stopped_schedule fresh_mirror).1 = Some (Some (Text "context canceled")) ∧
  job_after (sync (cancel_at 7) stopped_schedule fresh_mirror).2 =
    Some (1, StateFailed, "error:interrupted by cancel (files=0;bytes=0)").
Proof. vm_compute. done. Qed.
(** A synchronisation cancelled before its downloads does not carry the mark of an
    interrupted one. *)
Lemma early_cancel_not_marked :
  (sync (cancel_at 2) schedule fresh_mirror).1 = Some (Some (Wrap "mirror: diff" (Text "context canceled"))) ∧
  job_after (sync (cancel_at 2) schedule fresh_mirror).2 = Some (1, StateFailed, "error:error").
Proof. vm_compute. done. Qed.
(** No configuration tolerates every failure: a threshold of zero is replaced. *)
Lemma zero_threshold_is_the_default w b n i :
  ErrorThreshold (New_config (mk_MirrorConfig w b n (float64 0) i)) = defaultErrorThreshold.
Proof. reflexivity. Qed.

(** ** The theorems at these runs *)
Definition to_fetch : list string := ["/deb/main/200"; "/deb/main/404"; "/deb/main/500"].
Definition stopped_pool := pool_run (cancel_at 2) text mirror_cfg deb_main main 3 [Feed 0; Feed 1; Work 1; Collect 1]
  (new_pool mirror_cfg to_fetch 1000) fresh_mirror.
Lemma download_terminates_witness : ∃ p, stopped_pool.1 = Some p ∧ feed p = ["/deb/main/500"] ∧
  ∃ ls' p2, (pool_run (cancel_at 2) text mirror_cfg deb_main main 3 ([Feed 0; Feed 1; Work 1; Collect 1] ++ ls')
    (new_pool mirror_cfg to_fetch 1000) fresh_mirror).1 = Some p2 ∧ pool_final p2 = true.
Proof.
  assert (∃ p, stopped_pool.1 = Some p ∧ feed p = ["/deb/main/500"]) as (p & Hp & Hf) by (eexists; vm_compute; split; reflexivity).
  exists p. split; [exact Hp|]. split; [exact Hf|].
  refine (proj2 (download_terminates (cancel_at 2) text mirror_cfg deb_main main 3 to_fetch
    [Feed 0; Feed 1; Work 1; Collect 1] 1000 p fresh_mirror stopped_pool.2 _ _ _)).
  - apply cancel_stays.
  - vm_compute. discriminate.
  - exact (eq_trans (surjective_pairing stopped_pool) (f_equal (λ x, (x, stopped_pool.2)) Hp)).
Defined.
Definition stopped_download := download (cancel_at 2) text mirror_cfg deb_main main to_fetch stopped_schedule fresh_mirror.
Lemma download_accounts_witness : ∃ d got dropped, stopped_download.1 = Some d ∧ (p_path <$> got) ++ dropped ≡ₚ to_fetch ∧
  d_done d = 0 ∧ d_failed d = 2 ∧ length got = 2%nat.
Proof.
  assert (∃ d, stopped_download.1 = Some d ∧ d_done d = 0 ∧ d_failed d = 2) as (d & Hd & H0 & H2)
    by (eexists; vm_compute; repeat split; reflexivity).
  destruct (download_accounts (cancel_at 2) text mirror_cfg deb_main main 3 to_fetch stopped_schedule d fresh_mirror
    stopped_download.2) as (got & dropped & Hp & _ & Hn & _).
  - reflexivity.
  - exact (eq_trans (surjective_pairing stopped_download) (f_equal (λ x, (x, stopped_download.2)) Hd)).
  - exists d, got, dropped. split; [exact Hd|]. split; [exact Hp|]. split; [exact H0|]. split; [exact H2|]. lia.
Defined.
Definition stopped_sync := sync (cancel_at 7) stopped_schedule fresh_mirror.
Lemma sync_job_reflects_outcome_witness :
  stopped_sync.1 = Some (Some (Text "context canceled")) ∧
  ∃ cursor, job_after stopped_sync.2 = Some (1, StateFailed, cursor) ∧ outcome_cursor (Some (Text "context canceled")) cursor.
Proof.
  assert (stopped_sync.1 = Some (Some (Text "context canceled"))) as Hout by (vm_compute; reflexivity).
  split; [exact Hout|].
  assert (∃ j, (startJob main fresh_mirror).1 = Ok j ∧ jb_ID j = 1) as (j & Hj & Hid) by (eexists; vm_compute; split; reflexivity).
  destruct (sync_job_reflects_outcome (cancel_at 7) text ecos mirror_cfg "70%" main stopped_schedule
    (Some (Text "context canceled")) j deb_main fresh_mirror stopped_sync.2) as (cursor & Hrow & Hc).
  - reflexivity.
  - reflexivity.
  - exact Hj.
  - exact (eq_trans (surjective_pairing stopped_sync) (f_equal (λ x, (x, stopped_sync.2)) Hout)).
  - intros n e. vm_compute. discriminate.
  - vm_compute. reflexivity.
  - exists cursor. rewrite Hid in Hrow. split; [exact Hrow|exact Hc].
Defined.

(** After a crash in the middle of a synchronisation, the recovery. *)
Definition crashed : mirror := (sync (cancel_at 8) schedule fresh_mirror).2.
Lemma crash_recovered : job_after crashed = Some (1, StateRunning, "files=3;bytes=0") ∧
  job_after (RecoverInterruptedJobs crashed).2 = Some (1, StateFailed, "error:interrupted by restart").
Proof.
  assert (job_after crashed = Some (1, StateRunning, "files=3;bytes=0")) as Hc by (vm_compute; reflexivity).
  split; [exact Hc|]. unfold job_after in *. rewrite (RecoverInterruptedJobs_marks crashed), lookup_fmap, Hc; [reflexivity| |].
  - intros n e. vm_compute. discriminate.
  - vm_compute. reflexivity.
Qed.
