(* ===== verification/Scheduler.v ===== *)
(** The scheduler of mirrors (internal/core/engine/mirror/scheduler.go): the loop
    that keeps one runner per upstream in agreement with the catalogue, the runners,
    and the pause before a dead runner is started again.

    The loop, the runners, the requests that synchronise by hand and the shutdown
    are processes of one state machine: [step] makes one of them advance by one
    atomic section of the code (a section under the mutex, one call of the
    catalogue, one operation on a channel), and a run is any sequence of steps. The
    bytes a synchronisation moves are the business of Mirror; here it is the time
    between two steps. *)
From S2P Require Import Prelude GoStr Domain Port.
Local Open Scope Z_scope.

Definition reconcileInterval : Z := 30 * second.
Definition maxRunnerBackoff : Z := 10 * minute.
Definition shouldRun (r : Remote) : bool :=
  bool_decide (rm_Mode r = ModeMirror) && rm_Enabled r && (0 <? rm_SyncInterval r).
(** [nextInterval]; [rand] answers [Int64]. *)
Definition nextInterval (jitter : Z) (rand : Z → Z) (r : Remote) : Z :=
  let base := if rm_SyncInterval r <=? 0 then minute else rm_SyncInterval r in
  if jitter <=? 0 then base else wrap64 (base + rand jitter).

(** Where a runner is: it waits for its timer; it is dying of an error; it has read
    its upstream; it synchronises; it has to give the claim back; it has left its
    loop; [done] is closed; it has forgotten its entry. *)
Inductive phase := Waiting | Dying (cause : error) | Checked (r : Remote) | Syncing (r : Remote) | Releasing (r : Remote)
| Leaving | Closed | Gone.
Record runner := mk_runner { rn_remote : Remote; rn_stopped : bool; rn_phase : phase }.
Definition rn_id (rn : runner) : Z := rm_ID (rn_remote rn).
Definition with_phase (p : phase) (rn : runner) : runner := mk_runner (rn_remote rn) (rn_stopped rn) p.
Definition stopCancel (rn : runner) : runner := mk_runner (rn_remote rn) true (rn_phase rn).
Definition is_done (rn : runner) : bool := match rn_phase rn with Closed | Gone => true | _ => false end.

(** Where the loop is; while it stops and starts runners, those that are left. *)
Inductive loop_state := NotStarted | Idle | Acting (toStop : list nat) (toStart : list Remote) | Exited.
(** Who holds the key of a synchronisation in the registry of tasks. *)
Inductive owner := Runner (i : nat) | ByHand.
#[global] Instance owner_eq_dec : EqDecision owner.
Proof. solve_decision. Defined.

Section scheduler.
  Context {D : Type} `{!RemoteStore D}.
  Context (clock : nat → Z) (tick : Z).
  (** The order in which a map is walked. *)
  Context (range : ∀ A, gmap Z A → list (Z * A)).

Record Scheduler := mk_Scheduler {
  sc_remotes : D;
  sc_ticks : nat;                 (* readings of the clock *)
  instances : list runner;        (* every runner made, by its number *)
  runners : gmap Z nat;
  deaths : gmap Z Z;
  lastDeath : gmap Z Z;
  shutdown : bool;
  notified : bool;                (* the buffer of [notify] *)
  loop : loop_state;
  claims : gmap string owner;
  reported : list error
}.
Definition set_runners m s := mk_Scheduler (sc_remotes s) (sc_ticks s) (instances s) m (deaths s) (lastDeath s) (shutdown s) (notified s) (loop s) (claims s) (reported s).
Definition set_loop l s := mk_Scheduler (sc_remotes s) (sc_ticks s) (instances s) (runners s) (deaths s) (lastDeath s) (shutdown s) (notified s) l (claims s) (reported s).
Definition set_instances l s := mk_Scheduler (sc_remotes s) (sc_ticks s) l (runners s) (deaths s) (lastDeath s) (shutdown s) (notified s) (loop s) (claims s) (reported s).
Definition set_deaths m l s := mk_Scheduler (sc_remotes s) (sc_ticks s) (instances s) (runners s) m l (shutdown s) (notified s) (loop s) (claims s) (reported s).
Definition set_remotes d s := mk_Scheduler d (sc_ticks s) (instances s) (runners s) (deaths s) (lastDeath s) (shutdown s) (notified s) (loop s) (claims s) (reported s).
Definition set_claims m s := mk_Scheduler (sc_remotes s) (sc_ticks s) (instances s) (runners s) (deaths s) (lastDeath s) (shutdown s) (notified s) (loop s) m (reported s).
Definition set_notified b s := mk_Scheduler (sc_remotes s) (sc_ticks s) (instances s) (runners s) (deaths s) (lastDeath s) (shutdown s) b (loop s) (claims s) (reported s).
Definition set_shutdown s := mk_Scheduler (sc_remotes s) (sc_ticks s) (instances s) (runners s) (deaths s) (lastDeath s) true (notified s) (loop s) (claims s) (reported s).
Definition tick_clock s := mk_Scheduler (sc_remotes s) (S (sc_ticks s)) (instances s) (runners s) (deaths s) (lastDeath s) (shutdown s) (notified s) (loop s) (claims s) (reported s).
Definition reportError e s := mk_Scheduler (sc_remotes s) (sc_ticks s) (instances s) (runners s) (deaths s) (lastDeath s) (shutdown s) (notified s) (loop s) (claims s) (reported s ++ [e]).
Definition set_runner (i : nat) (rn : runner) (s : Scheduler) : Scheduler := set_instances (<[i := rn]> (instances s)) s.

Definition NewScheduler (d : D) : Scheduler := mk_Scheduler d 0 [] ∅ ∅ ∅ false false NotStarted ∅ [].

(** [backoffLeftLocked]: [doublings] is the loop, with its early return. *)
Fixpoint doublings (n : nat) (b : Z) : Z + Z :=
  match n with
  | O => inr b
  | S n => let b := b * 2 in if maxRunnerBackoff <=? b then inl maxRunnerBackoff else doublings n b
  end.
Definition backoffLeftLocked (id : Z) (now : Z) (s : Scheduler) : Z :=
  let d := default 0 (deaths s !! id) in
  if d <=? 1 then 0
  else match doublings (Z.to_nat (d - 2)) tick with
       | inl cap => cap
       | inr b =>
           match lastDeath s !! id with
           | None => 0
           | Some last => let left := b - (now - last) in if 0 <? left then left else 0
           end
       end.

(** [reconcile] up to the unlocking: what it decided to stop and to start. *)
Definition wanted_of (rs : list Remote) : gmap Z Remote :=
  foldl (λ m r, if shouldRun r then <[rm_ID r := r]> m else m) ∅ rs.
Definition decide_runners (rs : list Remote) (now : Z) (s : Scheduler) : Scheduler :=
  let wanted := wanted_of rs in
  let unwanted {A} (m : gmap Z A) := filter (λ kv, wanted !! kv.1 = None) m in
  let toStop := snd <$> range nat (unwanted (runners s)) in
  let s1 := set_runners (filter (λ kv, wanted !! kv.1 ≠ None) (runners s)) s in
  let s2 := set_deaths (filter (λ kv, wanted !! kv.1 ≠ None) (deaths s))
                       (filter (λ kv, wanted !! kv.1 ≠ None) (lastDeath s)) s1 in
  let toStart := List.filter (λ r, match runners s2 !! rm_ID r with Some _ => false | None => backoffLeftLocked (rm_ID r) now s2 <=? 0 end)
                   (snd <$> range Remote wanted) in
  set_loop (Acting toStop toStart) s2.
Definition reconcile (s : Scheduler) : Scheduler :=
  let '(rs, d) := Remotes_in (sc_remotes s) in
  let s := set_remotes d s in
  match rs with
  | Err e => reportError e (set_loop Idle s)
  | Ok rs => decide_runners rs (clock (sc_ticks s)) (tick_clock s)
  end.
Definition startRunner (r : Remote) (s : Scheduler) : Scheduler :=
  match runners s !! rm_ID r with
  | Some _ => s
  | None =>
      if shouldRun r then
        set_runners (<[rm_ID r := length (instances s)]> (runners s))
          (set_instances (instances s ++ [mk_runner r false Waiting]) s)
      else s
  end.
Definition forgetRunner (id : Z) (i : nat) (s : Scheduler) : Scheduler :=
  if bool_decide (runners s !! id = Some i) then set_runners (delete id (runners s)) s else s.
Definition runnerDied (id : Z) (cause : error) (s : Scheduler) : Scheduler :=
  reportError cause (tick_clock
    (set_deaths (<[id := default 0 (deaths s !! id) + 1]> (deaths s)) (<[id := clock (sc_ticks s)]> (lastDeath s)) s)).
Definition runnerHealthy (id : Z) (s : Scheduler) : Scheduler :=
  set_deaths (delete id (deaths s)) (delete id (lastDeath s)) s.

(** ** The steps *)
Inductive event :=
| Notify
| Wake (by_notify : bool)         (* the loop reconciles: at the start, on a tick, when notified *)
| StopFirst | JoinFirst           (* the runner to be stopped: [stopCancel], then [done] *)
| StartFirst | Rest               (* the runner to be started; the end of [reconcile] *)
| LeaveLoop
| Fire (i : nat)                  (* the timer: the upstream is read *)
| Died (i : nat) | Claim (i : nat) | Synced (i : nat) (panic : option error) | Release (i : nat)
| Obey (i : nat)                  (* a runner notices that it was stopped, or the shutdown *)
| Close (i : nat) | Forget (i : nat)
| HandClaim (name : string) | HandRelease (name : string)
| Shutdown.

(** A runner of number [i] that is in the phase [p]. *)
Definition at_phase (i : nat) (s : Scheduler) (k : runner → phase → option Scheduler) : option Scheduler :=
  match instances s !! i with Some rn => k rn (rn_phase rn) | None => None end.
Definition goto (i : nat) (rn : runner) (p : phase) (s : Scheduler) : Scheduler := set_runner i (with_phase p rn) s.
(** [tick] up to the claim. *)
Definition fire (i : nat) (rn : runner) (s : Scheduler) : Scheduler :=
  let '(r, d) := Remote_in (rn_id rn) (sc_remotes s) in
  goto i rn (match r with Err e => Dying e | Ok r => if shouldRun r then Checked r else Leaving end) (set_remotes d s).
Definition step (e : event) (s : Scheduler) : option Scheduler :=
  match e with
  | Notify => Some (set_notified true s)
  | Wake by_notify =>
      match loop s with
      | NotStarted => if by_notify then None else Some (reconcile s)
      | Idle =>
          if by_notify then if notified s then Some (reconcile (set_notified false s)) else None
          else Some (reconcile s)
      | _ => None
      end
  | StopFirst =>
      match loop s with
      | Acting (i :: _) _ => at_phase i s (λ rn _, if rn_stopped rn then None else Some (set_runner i (stopCancel rn) s))
      | _ => None
      end
  | JoinFirst =>
      match loop s with
      | Acting (i :: ids) rs => at_phase i s (λ rn _, if rn_stopped rn && is_done rn then Some (set_loop (Acting ids rs) s) else None)
      | _ => None
      end
  | StartFirst => match loop s with Acting [] (r :: rs) => Some (startRunner r (set_loop (Acting [] rs) s)) | _ => None end
  | Rest => match loop s with Acting [] [] => Some (set_loop Idle s) | _ => None end
  | LeaveLoop => match loop s with Idle => if shutdown s then Some (set_loop Exited s) else None | _ => None end
  | Fire i => at_phase i s (λ rn p, match p with Waiting => Some (fire i rn s) | _ => None end)
  | Died i => at_phase i s (λ rn p, match p with Dying c => Some (goto i rn Leaving (runnerDied (rn_id rn) c s)) | _ => None end)
  | Claim i => at_phase i s (λ rn p,
      match p with
      | Checked r =>
          Some match claims s !! rm_Name r with
               | Some _ => goto i rn Waiting s
               | None => goto i rn (Syncing r) (set_claims (<[rm_Name r := Runner i]> (claims s)) s)
               end
      | _ => None
      end)
  | Synced i panic => at_phase i s (λ rn p,
      match p with
      | Syncing r =>
          let s := match panic with Some e => reportError (Wrap ("sync " +:+ rm_Name r) e) s | None => s end in
          Some (goto i rn (Releasing r) (runnerHealthy (rn_id rn) s))
      | _ => None
      end)
  | Release i => at_phase i s (λ rn p,
      match p with Releasing r => Some (goto i rn Waiting (set_claims (delete (rm_Name r) (claims s)) s)) | _ => None end)
  | Obey i => at_phase i s (λ rn p,
      match p with Waiting => if rn_stopped rn || shutdown s then Some (goto i rn Leaving s) else None | _ => None end)
  | Close i => at_phase i s (λ rn p, match p with Leaving => Some (goto i rn Closed s) | _ => None end)
  | Forget i => at_phase i s (λ rn p, match p with Closed => Some (goto i rn Gone (forgetRunner (rn_id rn) i s)) | _ => None end)
  | HandClaim name => match claims s !! name with Some _ => None | None => Some (set_claims (<[name := ByHand]> (claims s)) s) end
  | HandRelease name => if bool_decide (claims s !! name = Some ByHand) then Some (set_claims (delete name (claims s)) s) else None
  | Shutdown => Some (set_shutdown s)
  end.
Fixpoint run (es : list event) (s : Scheduler) : option Scheduler :=
  match es with [] => Some s | e :: es => match step e s with Some s => run es s | None => None end end.

(** ** One runner per upstream, one synchronisation per name *)
Definition live (rn : runner) : bool := negb (is_done rn).
Definition to_stop (l : loop_state) : list nat := match l with Acting ids _ => ids | _ => [] end.
Definition to_start (l : loop_state) : list Remote := match l with Acting _ rs => rs | _ => [] end.
Definition holds (i : nat) (rn : runner) (name : string) : Prop :=
  match rn_phase rn with Syncing r | Releasing r => rm_Name r = name | _ => False end.
Record sched_inv (s : Scheduler) : Prop := {
  (* a runner that may still synchronise is the one of its upstream, or the loop waits for it *)
  si_live i rn : instances s !! i = Some rn → live rn = true → runners s !! rn_id rn = Some i ∨ i ∈ to_stop (loop s);
  si_runners id i : runners s !! id = Some i → ∃ rn, instances s !! i = Some rn ∧ rn_id rn = id ∧ rn_phase rn ≠ Gone;
  si_stop i : i ∈ to_stop (loop s) → ∃ rn, instances s !! i = Some rn ∧ runners s !! rn_id rn = None ∧
    rn_id rn ∉ rm_ID <$> to_start (loop s);
  si_nodup : NoDup (to_stop (loop s));
  si_stop_ids i j rn rn' : i ∈ to_stop (loop s) → j ∈ to_stop (loop s) → instances s !! i = Some rn → instances s !! j = Some rn' →
    rn_id rn = rn_id rn' → i = j;
  si_claims i rn name : instances s !! i = Some rn → holds i rn name → claims s !! name = Some (Runner i)
}.

(** A runner changes phase. *)
Lemma inv_goto s s' i rn rn' : sched_inv s → instances s !! i = Some rn → rn_remote rn' = rn_remote rn →
  (live rn' = true → live rn = true) → (rn_phase rn' = Gone → runners s !! rn_id rn ≠ Some i) →
  (∀ name, holds i rn' name → claims s' !! name = Some (Runner i)) →
  (∀ j name, j ≠ i → claims s !! name = Some (Runner j) → claims s' !! name = Some (Runner j)) →
  instances s' = <[i := rn']> (instances s) → runners s' = runners s → loop s' = loop s → sched_inv s'.
Proof.
  intros [H1 H2 H3 H4 H5 H6] Hi Hr Hlive Hgone Hown Hothers Hins Hrun Hloop.
  assert (rn_id rn' = rn_id rn) as Hid by (unfold rn_id; by rewrite Hr).
  assert (∀ j x, instances s' !! j = Some x → ∃ y, instances s !! j = Some y ∧ rn_id x = rn_id y ∧ (live x = true → live y = true)) as Hback.
  { intros j x. rewrite Hins, list_lookup_insert_Some. intros [(<- & <- & _)|[_ Hj]]; [by exists rn|by exists x]. }
  assert (∀ j y, instances s !! j = Some y → ∃ x, instances s' !! j = Some x ∧ rn_id x = rn_id y ∧ (rn_phase x = Gone → rn_phase y = Gone ∨ j = i ∧ x = rn')) as Hfwd.
  { intros j y Hj. destruct (decide (j = i)) as [->|Hne].
    - exists rn'. rewrite Hins, list_lookup_insert_eq by (by eapply lookup_lt_Some). split; [done|]. split; [congruence|]. by right.
    - exists y. rewrite Hins, list_lookup_insert_ne by done. split_and!; [done..|]. by left. }
  split; rewrite ?Hloop, ?Hrun; [| | |done| |].
  - intros j x (y & Hy & -> & Hl)%Hback Hx. apply H1; auto.
  - intros id j Hj. destruct (H2 id j Hj) as (y & Hy & Hyid & Hne). destruct (Hfwd j y Hy) as (x & Hx & Hxid & Hg).
    exists x. split_and!; [done|congruence|]. intros Hxg. destruct (Hg Hxg) as [|[-> ->]]; [done|]. apply Hgone; [done|]. congruence.
  - intros j Hj. destruct (H3 j Hj) as (y & Hy & Hn & Hs). destruct (Hfwd j y Hy) as (x & Hx & Hxy & _). exists x. by rewrite Hxy.
  - intros j k x x' Hj Hk (y & Hy & -> & _)%Hback (y' & Hy' & -> & _)%Hback. by apply H5.
  - intros j x name Hx Hh. rewrite Hins in Hx. apply list_lookup_insert_Some in Hx as [(<- & <- & _)|[Hne Hx]]; [by apply Hown|].
    apply Hothers; [done|by eapply H6].
Qed.
(** The steps that touch neither the runners nor the claims. *)
Lemma inv_same s s' : sched_inv s → instances s' = instances s → runners s' = runners s → loop s' = loop s →
  claims s' = claims s → sched_inv s'.
Proof. intros [H1 H2 H3 H4 H5 H6] Hi Hr Hl Hc. split; rewrite ?Hi, ?Hr, ?Hl, ?Hc; done. Qed.
(** The loop moves while it waits for no runner. *)
Lemma inv_loop s s' : sched_inv s → to_stop (loop s) = [] → to_stop (loop s') = [] → instances s' = instances s →
  runners s' = runners s → claims s' = claims s → sched_inv s'.
Proof.
  intros [H1 H2 H3 H4 H5 H6] Hl Hl' Hi Hr Hc. rewrite Hl in H1. split; rewrite ?Hi, ?Hr, ?Hl', ?Hc; [done|done| |constructor| |done].
  - intros i Hn. by apply not_elem_of_nil in Hn.
  - intros i j x x' Hn. by apply not_elem_of_nil in Hn.
Qed.
Lemma inv_forget s i rn : sched_inv s → instances s !! i = Some rn → live rn = false → sched_inv (forgetRunner (rn_id rn) i s).
Proof.
  intros Hinv Hi Hdead. unfold forgetRunner. destruct (bool_decide_reflect (runners s !! rn_id rn = Some i)) as [Hcur|]; [|done].
  destruct Hinv as [H1 H2 H3 H4 H5 H6]. split; simpl; [| | |done|done|done].
  - intros j x Hj Hl. destruct (H1 j x Hj Hl) as [Hx|Hx]; [|by right]. left. rewrite lookup_delete_ne; [done|].
    intros He. rewrite <- He, Hcur in Hx. injection Hx as ->. congruence.
  - intros id j [_ Hj]%lookup_delete_Some. by apply H2.
  - intros j Hj. destruct (H3 j Hj) as (x & Hx & Hn & Hs). exists x. split_and!; [done| |done].
    rewrite lookup_delete_None. by right.
Qed.
Lemma inv_startRunner s r rs : sched_inv s → loop s = Acting [] (r :: rs) → sched_inv (startRunner r (set_loop (Acting [] rs) s)).
Proof.
  intros Hinv Hl. assert (sched_inv (set_loop (Acting [] rs) s)) as Hinv' by (by apply (inv_loop s); rewrite ?Hl).
  unfold startRunner. simpl. destruct (runners s !! rm_ID r) as [i|] eqn:Hr; [done|]. destruct (shouldRun r); [|done].
  destruct Hinv' as [H1 H2 H3 H4 H5 H6]. simpl in *. set (n := length (instances s)).
  assert (∀ j x, (instances s ++ [mk_runner r false Waiting]) !! j = Some x → instances s !! j = Some x ∨ j = n ∧ x = mk_runner r false Waiting) as Hback.
  { intros j x Hj. apply lookup_app_Some in Hj as [Hj|[Hle Hj]]; [by left|]. right.
    apply list_lookup_singleton_Some in Hj as [Hj <-]. split; [unfold n; lia|done]. }
  split; simpl.
  - intros j x Hj Hlv. destruct (Hback j x Hj) as [Hx|[-> ->]]; [|left; apply lookup_insert_eq].
    destruct (H1 j x Hx Hlv) as [Hx'|Hx']; [|by apply not_elem_of_nil in Hx']. left.
    rewrite lookup_insert_ne; [done|]. intros He. rewrite <- He in Hx'. congruence.
  - intros id j [[<- <-]|[Hne Hj]]%lookup_insert_Some.
    + exists (mk_runner r false Waiting). split_and!; [|done|done]. unfold n. rewrite lookup_app_r by done. by rewrite Nat.sub_diag.
    + destruct (H2 id j Hj) as (x & Hx & Hid & Hg). exists x. split_and!; [|done|done]. by apply lookup_app_l_Some.
  - intros j Hj. by apply not_elem_of_nil in Hj.
  - constructor.
  - intros j k x x' Hj. by apply not_elem_of_nil in Hj.
  - intros j x name Hj Hh. destruct (Hback j x Hj) as [Hx|[-> ->]]; [by eapply H6|done].
Qed.
Hypothesis range_ok : ∀ A (m : gmap Z A), range A m ≡ₚ map_to_list m.
Lemma wanted_keys rs id r : wanted_of rs !! id = Some r → rm_ID r = id ∧ shouldRun r = true ∧ r ∈ rs.
Proof.
  unfold wanted_of. induction rs as [|x rs IH] using rev_ind; [simpl; by rewrite lookup_empty|]. rewrite foldl_app. simpl.
  destruct (shouldRun x) eqn:Hx.
  - intros [[<- <-]|[_ H]]%lookup_insert_Some; [set_solver|]. destruct (IH H) as (? & ? & ?). set_solver.
  - intros H. destruct (IH H) as (? & ? & ?). set_solver.
Qed.
Lemma inv_decide s rs now : sched_inv s → to_stop (loop s) = [] → sched_inv (decide_runners rs now s).
Proof.
  intros [H1 H2 H3 H4 H5 H6] Hstop. unfold decide_runners. set (wanted := wanted_of rs).
  assert (∀ i, i ∈ snd <$> range nat (filter (λ kv, wanted !! kv.1 = None) (runners s)) ↔ ∃ id, runners s !! id = Some i ∧ wanted !! id = None) as Hin.
  { intros i. rewrite range_ok, list_elem_of_fmap. split.
    - intros ([id j] & -> & Hm). apply elem_of_map_to_list, map_lookup_filter_Some in Hm as [Hm Hw]. eauto.
    - intros (id & Hi & Hw). exists (id, i). split; [done|]. apply elem_of_map_to_list, map_lookup_filter_Some. done. }
  split; simpl.
  - intros i rn Hi Hl. destruct (H1 i rn Hi Hl) as [Hr|Hr]; [|rewrite Hstop in Hr; by apply not_elem_of_nil in Hr].
    destruct (wanted !! rn_id rn) as [r|] eqn:Hw.
    + left. apply map_lookup_filter_Some. split; [done|]. simpl. by rewrite Hw.
    + right. apply Hin. eauto.
  - intros id i [Hi _]%map_lookup_filter_Some. by apply H2.
  - intros i (id & Hi & Hw)%Hin. destruct (H2 id i Hi) as (rn & Hrn & <- & _). exists rn. split; [done|]. split.
    + apply map_lookup_filter_None. right. intros x Hx. simpl. rewrite Hw. by intros [].
    + intros (r & Hrid & Hr)%list_elem_of_fmap. apply list_elem_of_In, filter_In in Hr as [Hr _].
      apply list_elem_of_In, list_elem_of_fmap in Hr as ([id' r'] & -> & Hr). rewrite range_ok in Hr. apply elem_of_map_to_list in Hr.
      simpl in *. apply wanted_keys in Hr as Hk. destruct Hk as (Hk & _ & _). rewrite Hrid, Hk in Hw. unfold wanted in *. congruence.
  - rewrite range_ok. apply NoDup_fmap_2_strong; [|apply NoDup_map_to_list].
    intros [id i] [id' i'] Hx Hy Heq. simpl in Heq. subst i'.
    apply elem_of_map_to_list, map_lookup_filter_Some in Hx as [Hx _], Hy as [Hy _].
    destruct (H2 _ _ Hx) as (rn & Hrn & <- & _). destruct (H2 _ _ Hy) as (rn' & Hrn' & <- & _). congruence.
  - intros i j rn rn' (id & Hi & _)%Hin (id' & Hj & _)%Hin Hrn Hrn' Heq.
    destruct (H2 _ _ Hi) as (x & Hx & <- & _). destruct (H2 _ _ Hj) as (y & Hy & <- & _). congruence.
  - done.
Qed.
Lemma inv_new d : sched_inv (NewScheduler d).
Proof.
  split; simpl; [by intros i rn Hi|intros id i Hi; by rewrite lookup_empty in Hi| |constructor| |by intros i rn name Hi];
    intros *; by intros ?%not_elem_of_nil.
Qed.
Lemma inv_reconcile s : sched_inv s → to_stop (loop s) = [] → sched_inv (reconcile s).
Proof.
  intros Hinv Hl. unfold reconcile. destruct (Remotes_in (sc_remotes s)) as [[rs|e] d].
  - apply inv_decide; [by apply (inv_same s)|done].
  - by apply (inv_loop s).
Qed.
(** A runner that moves on without touching the entries and the claims. *)
Lemma inv_move s s' i rn p : sched_inv s → instances s !! i = Some rn → is_done rn = false → p ≠ Gone →
  (∀ name, holds i (with_phase p rn) name → claims s !! name = Some (Runner i)) →
  instances s' = <[i := with_phase p rn]> (instances s) → runners s' = runners s → loop s' = loop s → claims s' = claims s → sched_inv s'.
Proof.
  intros Hinv Hi Hd Hp Hh Hins Hr Hl Hc. eapply (inv_goto s s' i rn (with_phase p rn)); rewrite ?Hc; try done.
  intros _. unfold live. by rewrite Hd.
Qed.
(** The runner of a step, in the phase that the step asks for. *)
Ltac runner_at :=
  match goal with
  | H : match instances ?s !! ?i with _ => _ end = Some _ |- _ =>
      let rn := fresh "rn" in
      destruct (instances s !! i) as [rn|] eqn:Hi; [|done]; destruct (rn_phase rn) eqn:Hp; try done
  end.
Lemma inv_wake b s s' : step (Wake b) s = Some s' → sched_inv s → sched_inv s'.
Proof.
  intros Hstep Hinv. simpl in Hstep. unfold at_phase in Hstep.
  destruct (loop s) eqn:Hl; [..|done|done].
  - destruct b; [done|]. injection Hstep as <-. apply inv_reconcile; [done|by rewrite Hl].
  - destruct b; [destruct (notified s); [|done]|]; injection Hstep as <-; (apply inv_reconcile; [by apply (inv_same s)|simpl; by rewrite Hl]).
Qed.
Lemma inv_stop_first s s' : step StopFirst s = Some s' → sched_inv s → sched_inv s'.
Proof.
  intros Hstep Hinv. simpl in Hstep. unfold at_phase in Hstep.
  destruct (loop s) as [| |[|i ids] rs|]; try done. destruct (instances s !! i) as [rn|] eqn:Hi; [|done].
  destruct (rn_stopped rn); [done|]. injection Hstep as <-. eapply (inv_goto s _ i rn (stopCancel rn)); try done.
  - simpl. intros Hg Hr. destruct (si_runners s Hinv _ _ Hr) as (x & Hx & _ & Hxg). congruence.
  - intros name. by apply (si_claims s Hinv i rn).
Qed.
Lemma inv_join s s' : step JoinFirst s = Some s' → sched_inv s → sched_inv s'.
Proof.
  intros Hstep Hinv. simpl in Hstep. unfold at_phase in Hstep.
  destruct (loop s) as [| |[|i ids] rs|] eqn:Hl; try done. destruct (instances s !! i) as [rn|] eqn:Hi; [|done].
  destruct (rn_stopped rn && is_done rn) eqn:Hd; [|done]. injection Hstep as <-. apply andb_true_iff in Hd as [_ Hd].
  destruct Hinv as [H1 H2 H3 H4 H5 H6]. rewrite Hl in *. simpl in *. apply NoDup_cons in H4 as [H4 H4'].
  split; simpl; [|done| |done| |done].
  - intros j x Hj Hlv. destruct (H1 j x Hj Hlv) as [?|[->|?]%elem_of_cons]; [by left| |by right]. unfold live in Hlv. rewrite Hi in Hj. injection Hj as <-. by rewrite Hd in Hlv.
  - intros j Hj. apply H3. by right.
  - intros j k x x' Hj Hk. apply H5; by right.
Qed.
Lemma inv_fire i s s' : step (Fire i) s = Some s' → sched_inv s → sched_inv s'.
Proof.
  intros Hstep Hinv. simpl in Hstep. unfold at_phase in Hstep.
  runner_at. injection Hstep as <-.
  unfold fire. destruct (Remote_in (rn_id rn) (sc_remotes s)) as [r d].
  eapply (inv_move s _ i rn); [done|done|unfold is_done; by rewrite Hp| | |done..].
  - destruct r as [r|]; [by destruct (shouldRun r)|done].
  - destruct r as [r|]; [by destruct (shouldRun r)|done].
Qed.
Lemma inv_claim i s s' : step (Claim i) s = Some s' → sched_inv s → sched_inv s'.
Proof.
  intros Hstep Hinv. simpl in Hstep. unfold at_phase in Hstep.
  runner_at. injection Hstep as <-.
  destruct (claims s !! rm_Name r) as [o|] eqn:Hc; [by eapply (inv_move s _ i rn Waiting); [done|done|unfold is_done; rewrite Hp|..]|].
  eapply (inv_goto s _ i rn (with_phase (Syncing r) rn)); try done; simpl.
  - intros _. unfold live, is_done; by rewrite Hp.
  - intros name Hh. rewrite <- Hh. apply lookup_insert_eq.
  - intros j name _ Hj. rewrite lookup_insert_ne; [done|]. congruence.
Qed.
Lemma inv_synced i pn s s' : step (Synced i pn) s = Some s' → sched_inv s → sched_inv s'.
Proof.
  intros Hstep Hinv. simpl in Hstep. unfold at_phase in Hstep.
  runner_at. injection Hstep as <-.
  eapply (inv_move s _ i rn (Releasing r)); try (by destruct pn); [unfold is_done; by rewrite Hp|].
  intros name Hh. eapply si_claims; [done..|]. unfold holds in *. by rewrite Hp.
Qed.
Lemma inv_release i s s' : step (Release i) s = Some s' → sched_inv s → sched_inv s'.
Proof.
  intros Hstep Hinv. simpl in Hstep. unfold at_phase in Hstep.
  runner_at. injection Hstep as <-.
  assert (claims s !! rm_Name r = Some (Runner i)) as Hown by (eapply si_claims; [done..|]; unfold holds; by rewrite Hp).
  eapply (inv_goto s _ i rn (with_phase Waiting rn)); try done; simpl.
  - intros _. unfold live, is_done; by rewrite Hp.
  - intros j name Hne Hj. rewrite lookup_delete_ne; [done|]. intros <-. congruence.
Qed.
Lemma inv_gone i s s' : step (Forget i) s = Some s' → sched_inv s → sched_inv s'.
Proof.
  intros Hstep Hinv. simpl in Hstep. unfold at_phase in Hstep.
  runner_at. injection Hstep as <-.
  assert (live rn = false) as Hd by (unfold live, is_done; by rewrite Hp).
  pose proof (inv_forget s i rn Hinv Hi Hd) as Hf.
  assert (instances (forgetRunner (rn_id rn) i s) = instances s ∧ claims (forgetRunner (rn_id rn) i s) = claims s ∧
    loop (forgetRunner (rn_id rn) i s) = loop s ∧ runners (forgetRunner (rn_id rn) i s) !! rn_id rn ≠ Some i) as (Hfi & Hfc & Hfl & Hfr).
  { unfold forgetRunner. destruct (bool_decide_reflect (runners s !! rn_id rn = Some i)); [|done]. simpl. by rewrite lookup_delete_eq. }
  eapply (inv_goto (forgetRunner (rn_id rn) i s) _ i rn (with_phase Gone rn)); try done. by rewrite Hfi.
Qed.
Lemma inv_hand_claim n s s' : step (HandClaim n) s = Some s' → sched_inv s → sched_inv s'.
Proof.
  intros Hstep Hinv. simpl in Hstep. unfold at_phase in Hstep.
  destruct (claims s !! n) eqn:Hc; [done|]. injection Hstep as <-. destruct Hinv as [H1 H2 H3 H4 H5 H6]. split; simpl; [done..|].
  intros i rn name Hi Hh. rewrite lookup_insert_ne; [by eapply H6|]. intros <-. specialize (H6 i rn n Hi Hh). congruence.
Qed.
Lemma inv_hand_release n s s' : step (HandRelease n) s = Some s' → sched_inv s → sched_inv s'.
Proof.
  intros Hstep Hinv. simpl in Hstep. unfold at_phase in Hstep.
  destruct (bool_decide_reflect (claims s !! n = Some ByHand)) as [Hc|]; [|done]. injection Hstep as <-.
  destruct Hinv as [H1 H2 H3 H4 H5 H6]. split; simpl; [done..|].
  intros i rn name Hi Hh. rewrite lookup_delete_ne; [by eapply H6|]. intros <-. specialize (H6 i rn n Hi Hh). congruence.
Qed.
Lemma step_inv e s s' : step e s = Some s' → sched_inv s → sched_inv s'.
Proof.
  intros Hstep Hinv. destruct e as [|b| | | | | |i|i|i|i pn|i|i|i|i|n|n|]; try by eauto using inv_wake, inv_stop_first, inv_join, inv_fire, inv_claim, inv_synced, inv_release, inv_gone, inv_hand_claim, inv_hand_release.
  all: simpl in Hstep; unfold at_phase in Hstep.
  - injection Hstep as <-. by apply (inv_same s).
  - destruct (loop s) as [| |[|i ids] [|r rs]|] eqn:Hl; try done. injection Hstep as <-. by apply inv_startRunner.
  - destruct (loop s) as [| |[|i ids] [|r rs]|] eqn:Hl; try done. injection Hstep as <-.
    apply (inv_loop s); by rewrite ?Hl.
  - destruct (loop s) eqn:Hl; try done. destruct (shutdown s); [|done]. injection Hstep as <-.
    apply (inv_loop s); by rewrite ?Hl.
  - runner_at. injection Hstep as <-.
    by eapply (inv_move s _ i rn Leaving); [done|done|unfold is_done; rewrite Hp|..].
  - runner_at.
    destruct (rn_stopped rn || shutdown s); [|done]. injection Hstep as <-.
    by eapply (inv_move s _ i rn Leaving); [done|done|unfold is_done; rewrite Hp|..].
  - runner_at. injection Hstep as <-.
    by eapply (inv_move s _ i rn Closed); [done|done|unfold is_done; rewrite Hp|..].
  - injection Hstep as <-. by apply (inv_same s).
Qed.
Lemma run_inv es s s' : run es s = Some s' → sched_inv s → sched_inv s'.
Proof.
  revert s. induction es as [|e es IH]; intros s Hrun Hinv; simpl in Hrun; [by injection Hrun as <-|].
  destruct (step e s) as [s1|] eqn:Hs; [|done]. eapply IH; [done|]. by eapply step_inv.
Qed.

(** C25: no upstream is synchronised twice at once. Whatever the loop, the runners,
    the requests that synchronise by hand and the shutdown do, and in whatever
    order, an upstream has at most one runner that has not finished; and of all
    that want to synchronise the upstreams of a name, the runners and the requests,
    at most one does. *)
Theorem one_runner_per_remote es d s : run es (NewScheduler d) = Some s → ∀ i j rn rn',
  instances s !! i = Some rn → instances s !! j = Some rn' →
  (live rn = true → live rn' = true → rn_id rn = rn_id rn' → i = j) ∧
  (∀ name, holds i rn name → claims s !! name ≠ Some ByHand ∧ (holds j rn' name → i = j)).
Proof.
  intros Hrun i j rn rn' Hi Hj. pose proof (run_inv _ _ _ Hrun (inv_new d)) as [H1 H2 H3 H4 H5 H6]. split.
  - intros Hl Hl' Heq. destruct (H1 i rn Hi Hl) as [Ha|Ha], (H1 j rn' Hj Hl') as [Hb|Hb].
    + rewrite Heq, Hb in Ha. congruence.
    + destruct (H3 j Hb) as (x & Hx & Hn & _). congruence.
    + destruct (H3 i Ha) as (x & Hx & Hn & _). congruence.
    + by eapply H5.
  - intros name Hh. pose proof (H6 i rn name Hi Hh) as Hc. split; [congruence|]. intros Hh'. pose proof (H6 j rn' name Hj Hh'). congruence.
Qed.

(** ** Agreement with the catalogue *)

(** When a dead runner may be started again: the pause doubles with each death. *)
Definition due (id now : Z) (s : Scheduler) : Prop :=
  let d := default 0 (deaths s !! id) in
  d ≤ 1 ∨ d ≤ 6 ∧ ∀ last, lastDeath s !! id = Some last → 30 * second * 2 ^ (d - 2) ≤ now - last.
Lemma doublings_closed n b : 0 < b → doublings n b =
  (if decide (n = 0%nat ∨ b * 2 ^ Z.of_nat n < maxRunnerBackoff) then inr (b * 2 ^ Z.of_nat n) else inl maxRunnerBackoff).
Proof.
  revert b. induction n as [|n IH]; intros b Hb.
  { rewrite decide_True by (by left). simpl. f_equal. lia. }
  cbn [doublings]. assert (b * 2 ^ Z.of_nat (S n) = b * 2 * 2 ^ Z.of_nat n) as -> by (rewrite Nat2Z.inj_succ, Z.pow_succ_r by lia; ring).
  assert (0 < 2 ^ Z.of_nat n) as Hp by (apply Z.pow_pos_nonneg; lia). destruct (Z.leb_spec maxRunnerBackoff (b * 2)) as [Hc|Hc].
  - rewrite decide_False; [done|]. intros [?|Hlt]; [done|]. nia.
  - rewrite IH by lia. destruct (decide (S n = 0%nat ∨ b * 2 * 2 ^ Z.of_nat n < maxRunnerBackoff)) as [[?|H1]|H1]; [done| |].
    + by rewrite decide_True by (by right).
    + rewrite decide_False; [done|]. intros [->|?]; [|by destruct H1; right]. destruct H1. right. simpl. lia.
Qed.
Lemma backoff_due id now s : tick = reconcileInterval → backoffLeftLocked id now s ≤ 0 ↔ due id now s.
Proof.
  intros Htick. unfold backoffLeftLocked, due. rewrite Htick. set (d := default 0 (deaths s !! id)).
  destruct (Z.leb_spec d 1) as [Hd|Hd]; [split; [by left|done]|].
  rewrite doublings_closed by (unfold reconcileInterval, second; lia). rewrite Z2Nat.id by lia. unfold reconcileInterval.
  destruct (decide _) as [Hsmall|Hbig].
  - assert (d ≤ 6) as Hd6.
    { destruct (Z.le_gt_cases d 6) as [|Hgt]; [done|]. exfalso. destruct Hsmall as [|Hlt]; [lia|].
      assert (2 ^ 5 ≤ 2 ^ (d - 2)) by (apply Z.pow_le_mono_r; lia). unfold maxRunnerBackoff, minute, second in Hlt. lia. }
    destruct (lastDeath s !! id) as [last|] eqn:Hl.
    + destruct (Z.ltb_spec 0 (30 * second * 2 ^ (d - 2) - (now - last))) as [Hlt|Hge]; split; try lia.
      * intros [?|[_ H]]; [lia|]. specialize (H last eq_refl). lia.
      * intros _. right. split; [done|]. intros last' [= <-]. lia.
    + split; [|lia]. intros _. right. split; [done|]. by intros last'.
  - split; [unfold maxRunnerBackoff, minute, second; lia|]. intros [?|[Hd6 _]]; [lia|]. exfalso. apply Hbig. right.
    assert (2 ^ (d - 2) ≤ 2 ^ 4) by (apply Z.pow_le_mono_r; lia). unfold maxRunnerBackoff, minute, second. lia.
Qed.
Lemma wanted_Some rs r : NoDup (rm_ID <$> rs) → r ∈ rs → shouldRun r = true → wanted_of rs !! rm_ID r = Some r.
Proof.
  unfold wanted_of. induction rs as [|x rs IH] using rev_ind; [intros _ Hr; by apply not_elem_of_nil in Hr|].
  rewrite fmap_app, foldl_app. simpl. intros (Hn & Hd & _)%NoDup_app [Hr|Hr]%elem_of_app Hs.
  - specialize (IH Hn Hr Hs). destruct (shouldRun x); [|done]. rewrite lookup_insert_ne; [done|]. intros He.
    apply (Hd (rm_ID r)); [by apply list_elem_of_fmap_2|]. rewrite He. by left.
  - apply list_elem_of_singleton in Hr as ->. rewrite Hs. apply lookup_insert_eq.
Qed.

(** What the loop keeps. *)
Lemma wanted_iff rs id : NoDup (rm_ID <$> rs) →
  wanted_of rs !! id ≠ None ↔ ∃ r, r ∈ rs ∧ rm_ID r = id ∧ shouldRun r = true.
Proof.
  intros Hnd. split.
  - destruct (wanted_of rs !! id) as [r|] eqn:Hr; [|done]. intros _. apply wanted_keys in Hr as (? & ? & ?). by exists r.
  - intros (r & Hr & <- & Hs). by rewrite wanted_Some.
Qed.
Lemma kept_iff {A} rs (m : gmap Z A) id x : NoDup (rm_ID <$> rs) →
  filter (λ kv, wanted_of rs !! kv.1 ≠ None) m !! id = Some x ↔ m !! id = Some x ∧ ∃ r, r ∈ rs ∧ rm_ID r = id ∧ shouldRun r = true.
Proof. intros Hnd. rewrite map_lookup_filter_Some. simpl. by rewrite wanted_iff. Qed.
Lemma kept_same {A} rs (m : gmap Z A) r : NoDup (rm_ID <$> rs) → r ∈ rs → shouldRun r = true →
  filter (λ kv, wanted_of rs !! kv.1 ≠ None) m !! rm_ID r = m !! rm_ID r.
Proof. intros Hnd Hr Hs. apply option_eq. intros x. rewrite kept_iff by done. split; [by intros [? _]|]. intros Hx. split; [done|]. by exists r. Qed.
Lemma starts_iff s rs now r : tick = reconcileInterval → NoDup (rm_ID <$> rs) →
  r ∈ to_start (loop (decide_runners rs now s)) ↔
  r ∈ rs ∧ shouldRun r = true ∧ runners s !! rm_ID r = None ∧ due (rm_ID r) now s.
Proof.
  intros Htick Hnd. unfold decide_runners. simpl. rewrite list_elem_of_In, filter_In, <- list_elem_of_In, range_ok, list_elem_of_fmap. split.
  - intros [([id r'] & -> & Hm) Hcond]. simpl in *. apply elem_of_map_to_list in Hm. apply wanted_keys in Hm as (<- & Hs & Hr).
    revert Hcond. rewrite kept_same by done. destruct (runners s !! rm_ID r'); [done|]. intros Hb%Z.leb_le. split_and!; [done..|].
    apply backoff_due in Hb; [|done]. unfold due in *. simpl in Hb. by rewrite !kept_same in Hb.
  - intros (Hr & Hs & Hn & Hdue). split.
    + exists (rm_ID r, r). split; [done|]. apply elem_of_map_to_list. by apply wanted_Some.
    + rewrite kept_same, Hn by done. apply Z.leb_le. apply backoff_due; [done|]. unfold due in *. simpl. by rewrite !kept_same.
Qed.

(** What the loop decides agrees with the catalogue. After the list of
    upstreams was read, the runners that stay are those of the mirrors that are
    enabled and have an interval; the loop is going to stop every other runner; and
    it is going to start a runner for exactly those mirrors that have none and
    whose pause is over. Nothing is remembered of the deaths of the others. *)
Theorem reconcile_agrees s rs d : tick = reconcileInterval → Remotes_in (sc_remotes s) = (Ok rs, d) → NoDup (rm_ID <$> rs) →
  let s' := reconcile s in let now := clock (sc_ticks s) in
  let wanted id := ∃ r, r ∈ rs ∧ rm_ID r = id ∧ shouldRun r = true in
  (∀ id i, runners s' !! id = Some i ↔ runners s !! id = Some i ∧ wanted id) ∧
  (∀ i, i ∈ to_stop (loop s') ↔ ∃ id, runners s !! id = Some i ∧ ¬ wanted id) ∧
  (∀ r, r ∈ to_start (loop s') ↔ r ∈ rs ∧ shouldRun r = true ∧ runners s !! rm_ID r = None ∧ due (rm_ID r) now s) ∧
  (∀ id n, deaths s' !! id = Some n ↔ deaths s !! id = Some n ∧ wanted id).
Proof.
  intros Htick Hread Hnd s' now wanted. subst s'. unfold reconcile. rewrite Hread.
  split_and!; [intros id i; by apply kept_iff| |intros r; exact (starts_iff (tick_clock (set_remotes d s)) rs now r Htick Hnd)|intros id n; by apply kept_iff].
  intros i. simpl. rewrite range_ok, list_elem_of_fmap. split.
  - intros ([id j] & -> & Hm). apply elem_of_map_to_list, map_lookup_filter_Some in Hm as [Hm Hw]. simpl in *.
    exists id. split; [done|]. intros Hid. by apply wanted_iff in Hid.
  - intros (id & Hi & Hw). exists (id, i). split; [done|]. apply elem_of_map_to_list, map_lookup_filter_Some. split; [done|].
    simpl. destruct (wanted_of rs !! id) eqn:E; [|done]. destruct Hw. apply wanted_iff; [done|]. by rewrite E.
Qed.
(** After seven deaths in a row the pause never ends: the cap is returned whatever
    time has passed, and the runner is not started again. *)
Lemma dead_for_good s rs d r n : tick = reconcileInterval → Remotes_in (sc_remotes s) = (Ok rs, d) → NoDup (rm_ID <$> rs) →
  deaths s !! rm_ID r = Some n → 7 ≤ n → r ∉ to_start (loop (reconcile s)).
Proof.
  intros Ht Hread Hnd Hn Hge. unfold reconcile. rewrite Hread, starts_iff by done. intros (_ & _ & _ & Hdue).
  unfold due in Hdue. simpl in Hdue. rewrite Hn in Hdue. simpl in Hdue. lia.
Qed.

(** ** The scheduler can always be stopped *)
Definition left_to_do (rn : runner) : nat :=
  match rn_phase rn with
  | Checked _ => 6 | Syncing _ => 5 | Releasing _ => 4 | Waiting => 3 | Dying _ => 3 | Leaving => 2 | Closed => 1 | Gone => 0
  end.
Definition work_left (s : Scheduler) : nat := sum_list_with left_to_do (instances s).
Definition is_gone (rn : runner) : bool := match rn_phase rn with Gone => true | _ => false end.
Definition all_gone (s : Scheduler) : Prop := Forall (λ rn, is_gone rn = true) (instances s).
#[local] Instance all_gone_dec s : Decision (all_gone s).
Proof. unfold all_gone. apply _. Defined.
Lemma work_replace (l : list runner) i x y : l !! i = Some x → (left_to_do y < left_to_do x)%nat →
  (sum_list_with left_to_do (<[i := y]> l) < sum_list_with left_to_do l)%nat.
Proof.
  revert i. induction l as [|z l IH]; intros [|i] Hi Hlt; try done; simpl in *; [injection Hi as ->; lia|].
  specialize (IH i Hi Hlt). lia.
Qed.
(** Once the shutdown is on, a runner that is not gone can make a step of its own. *)
Lemma runner_progress s i rn : shutdown s = true → instances s !! i = Some rn → is_gone rn ≠ true →
  ∃ e s', step e s = Some s' ∧ loop s' = loop s ∧ shutdown s' = true ∧ (work_left s' < work_left s)%nat.
Proof.
  intros Hsh Hi Hg. unfold work_left.
  assert (∀ s' p, instances s' = <[i := with_phase p rn]> (instances s) → (left_to_do (with_phase p rn) < left_to_do rn)%nat →
    (sum_list_with left_to_do (instances s') < sum_list_with left_to_do (instances s))%nat) as Hless.
  { intros s' p -> Hlt. by eapply work_replace. }
  unfold is_gone in Hg. destruct (rn_phase rn) as [|c|r|r|r| | |] eqn:Hp; [| | | | | | |done].
  - exists (Obey i). eexists. simpl. unfold at_phase. rewrite Hi, Hp, Hsh, orb_true_r. split_and!; [done..|].
    eapply Hless; [done|]. unfold left_to_do. rewrite Hp. simpl. lia.
  - exists (Died i). eexists. simpl. unfold at_phase. rewrite Hi, Hp. split_and!; [done..|].
    eapply Hless; [done|]. unfold left_to_do. rewrite Hp. simpl. lia.
  - exists (Claim i). simpl. unfold at_phase. rewrite Hi, Hp. eexists. split; [done|].
    destruct (claims s !! rm_Name r); (split_and!; [done..|]; eapply Hless; [done|]; unfold left_to_do; rewrite Hp; simpl; lia).
  - exists (Synced i None). simpl. unfold at_phase. rewrite Hi, Hp. eexists. split; [done|]. split_and!; [done..|].
    eapply Hless; [done|]. unfold left_to_do. rewrite Hp. simpl. lia.
  - exists (Release i). simpl. unfold at_phase. rewrite Hi, Hp. eexists. split; [done|]. split_and!; [done..|].
    eapply Hless; [done|]. unfold left_to_do. rewrite Hp. simpl. lia.
  - exists (Close i). simpl. unfold at_phase. rewrite Hi, Hp. eexists. split; [done|]. split_and!; [done..|].
    eapply Hless; [done|]. unfold left_to_do. rewrite Hp. simpl. lia.
  - exists (Forget i). simpl. unfold at_phase. rewrite Hi, Hp. eexists. split; [done|]. unfold forgetRunner.
    destruct (bool_decide _); (split_and!; [done..|]; eapply Hless; [done|]; unfold left_to_do; rewrite Hp; simpl; lia).
Qed.
Lemma run_app es es' s : run (es ++ es') s = match run es s with Some s' => run es' s' | None => None end.
Proof. revert s. induction es as [|e es IH]; intros s; simpl; [done|]. by destruct (step e s). Qed.
Lemma drain s : shutdown s = true → ∃ es s', run es s = Some s' ∧ all_gone s' ∧ loop s' = loop s ∧ shutdown s' = true.
Proof.
  remember (work_left s) as n eqn:Hn. revert s Hn. induction n as [n IH] using lt_wf_ind. intros s Hn Hsh.
  destruct (decide (all_gone s)) as [Hg|Hg]; [by exists [], s|].
  apply not_Forall_Exists in Hg; [|apply _]. apply Exists_exists in Hg as (rn & (i & Hi)%list_elem_of_lookup & Hp).
  destruct (runner_progress s i rn Hsh Hi Hp) as (e & s1 & Hs & Hl & Hsh1 & Hlt).
  destruct (IH (work_left s1) ltac:(lia) s1 eq_refl Hsh1) as (es & s2 & Hr & Hg2 & Hl2 & Hsh2).
  exists (e :: es), s2. simpl. rewrite Hs. split_and!; [done..|congruence|done].
Qed.
(** The loop finishes its reconciliation once the runners it waits for are gone. *)
Lemma loop_joins ids rs s : loop s = Acting ids rs → sched_inv s → all_gone s → shutdown s = true →
  ∃ es s', run es s = Some s' ∧ loop s' = Acting [] rs ∧ shutdown s' = true.
Proof.
  revert s. induction ids as [|i ids IH]; intros s Hl Hinv Hg Hsh; [by exists [], s|].
  destruct (si_stop s Hinv i) as (rn & Hi & _); [rewrite Hl; by left|].
  assert (is_gone rn = true) as Hgi by (by eapply Forall_lookup_1 in Hg). assert (is_done rn = true) as Hd by (unfold is_gone, is_done in *; by destruct (rn_phase rn)).
  assert (∃ es s1, run es s = Some s1 ∧ loop s1 = Acting ids rs ∧ all_gone s1 ∧ shutdown s1 = true) as (es & s1 & Hr & Hl1 & Hg1 & Hsh1).
  { destruct (rn_stopped rn) eqn:Hst.
    - exists [JoinFirst]. eexists. simpl. rewrite Hl. unfold at_phase. rewrite Hi, Hst, Hd. by simpl.
    - exists [StopFirst; JoinFirst]. eexists. simpl. rewrite Hl. unfold at_phase at 1. rewrite Hi, Hst. simpl. rewrite Hl.
      unfold at_phase. simpl. rewrite list_lookup_insert_eq by (by eapply lookup_lt_Some). simpl. unfold is_done in *. simpl. rewrite Hd.
      split_and!; [done|done| |done]. unfold all_gone. simpl. by apply Forall_insert. }
  destruct (IH s1 Hl1) as (es' & s2 & Hr2 & Hl2 & Hsh2); [by eapply run_inv|done..|].
  exists (es ++ es'), s2. by rewrite run_app, Hr.
Qed.
Lemma loop_starts rs s : loop s = Acting [] rs → shutdown s = true → ∃ es s', run es s = Some s' ∧ loop s' = Idle ∧ shutdown s' = true.
Proof.
  revert s. induction rs as [|r rs IH]; intros s Hl Hsh.
  - exists [Rest]. eexists. simpl. by rewrite Hl.
  - destruct (IH (startRunner r (set_loop (Acting [] rs) s))) as (es & s' & Hr & H);
      [unfold startRunner; by repeat case_match..|].
    exists (StartFirst :: es), s'. simpl. by rewrite Hl.
Qed.
Lemma loop_exits s : loop s ≠ NotStarted → sched_inv s → shutdown s = true →
  ∃ es s', run es s = Some s' ∧ loop s' = Exited ∧ shutdown s' = true.
Proof.
  intros Hns Hinv Hsh.
  assert (∃ es s1, run es s = Some s1 ∧ (loop s1 = Idle ∨ loop s1 = Exited) ∧ shutdown s1 = true) as (es & s1 & Hr & Hl & Hsh1).
  { destruct (loop s) as [| |ids rs|] eqn:Hl; [done|exists [], s; rewrite Hl; by split_and!; [|left|]| |exists [], s; rewrite Hl; by split_and!; [|right|]].
    destruct (drain s Hsh) as (es1 & s1 & Hr1 & Hg1 & Hl1 & Hsh1).
    destruct (loop_joins ids rs s1) as (es2 & s2 & Hr2 & Hl2 & Hsh2); [congruence|by eapply run_inv|done..|].
    destruct (loop_starts rs s2 Hl2 Hsh2) as (es3 & s3 & Hr3 & Hl3 & Hsh3).
    exists (es1 ++ es2 ++ es3), s3. rewrite !run_app, Hr1, run_app, Hr2. auto. }
  destruct Hl as [Hl|Hl]; [|by exists es, s1]. exists (es ++ [LeaveLoop]). eexists. rewrite run_app, Hr. simpl. by rewrite Hl, Hsh1.
Qed.

(** C26: the scheduler can always be stopped. Whatever has happened since it was
    started, after the shutdown there is a way for every process to finish: the
    loop, although it waits for runners, and every runner, those that it has yet
    to start included. So [Stop], which waits for them, does not deadlock. *)
Theorem shutdown_completes es d s : run es (NewScheduler d) = Some s → loop s ≠ NotStarted →
  ∃ es' s', run (Shutdown :: es') s = Some s' ∧ loop s' = Exited ∧ all_gone s'.
Proof.
  intros Hrun Hns. assert (sched_inv (set_shutdown s)) as Hinv by (apply (inv_same s); [eapply run_inv; [done|apply inv_new]|done..]).
  destruct (loop_exits (set_shutdown s)) as (es1 & s1 & Hr1 & Hl1 & Hsh1); [done..|].
  destruct (drain s1 Hsh1) as (es2 & s2 & Hr2 & Hg2 & Hl2 & _).
  exists (es1 ++ es2), s2. cbn [run step]. rewrite run_app, Hr1. split_and!; [done|congruence|done].
Qed.
End scheduler.
