(* ===== verification/SchedulerDemo.v ===== *)
(** The scheduler over the SQLite catalogue: its theorems at concrete runs, and a
    runner that dies seven times. *)
From S2P Require Import Prelude GoStr Domain Port Sqlite SqliteLaws SqliteCatalog Scheduler.
Local Open Scope Z_scope.

#[export] Instance DB_RemoteStore : RemoteStore DB := { Remotes_in := Remotes; Remote_in := Remote_ }.

Definition at_second (n : nat) : Z := from_unix (1700000000 + Z.of_nat n).
Definition in_order (A : Type) (m : gmap Z A) : list (Z * A) := map_to_list m.
Definition upstream (name : string) (mode : RemoteMode) : Remote :=
  mk_Remote 0 name "apt" "http://u" mode true hour [] "" None (from_unix 1700000000).
(** Two mirrors and a proxy. *)
Definition three : DB :=
  ((CreateRemote (upstream "main" ModeMirror);; CreateRemote (upstream "extra" ModeMirror);; CreateRemote (upstream "old" ModeProxy))
    (mk_DB (λ _, Runs) (λ _, None) 0 empty_tables)).2.
Abbreviation sched := (Scheduler (D := DB)).
Abbreviation steps := (run (D := DB) at_second reconcileInterval in_order).
Definition after (es : list event) (s : sched) : sched := default s (steps es s).

(** A runner for each mirror; the first one synchronises, and a request that wants
    to do the same is refused. *)
Definition started : sched := after [Wake false; StartFirst; StartFirst; Rest; Fire 1; Claim 1] (NewScheduler three).
Example started_runs : (λ rn, rm_Name (rn_remote rn)) <$> instances started = ["extra"; "main"] ∧
  runners started !! 1 = Some 1%nat ∧ claims started !! "main" = Some (Runner 1) ∧
  step at_second reconcileInterval in_order (HandClaim "main") started = None.
Proof. vm_compute. done. Qed.
(** A mirror is switched off while it synchronises: the loop waits for the runner,
    which ends its synchronisation first. *)
Definition switched_off : sched :=
  set_remotes (UpdateRemote (mk_Remote 1 "main" "apt" "http://u" ModeMirror false hour [] "" None 0) (sc_remotes started)).2 started.
Example runner_is_joined :
  let s := after [Wake false; StopFirst; Synced 1 None; Release 1; Obey 1; Close 1; JoinFirst; Rest; Forget 1] switched_off in
  to_stop (loop (reconcile at_second reconcileInterval in_order switched_off)) = [1%nat] ∧
  loop s = Idle ∧ runners s !! 1 = None ∧ runners s !! 2 = Some 0%nat ∧ rn_phase <$> instances s = [Waiting; Gone] ∧ claims s = ∅.
Proof. vm_compute. done. Qed.

(** A runner whose upstream cannot be read dies; the pause before the next one
    doubles, and after the seventh death there is no next one. *)
Definition failing (s : sched) : sched :=
  set_remotes (mk_DB (λ _, Fails (Code 10 "disk I/O error")) (ctx_Err (sc_remotes s)) (stmts (sc_remotes s)) (tabs (sc_remotes s))) s.
Definition healed (s : sched) : sched :=
  set_remotes (mk_DB (λ _, Runs) (ctx_Err (sc_remotes s)) (stmts (sc_remotes s)) (tabs (sc_remotes s))) s.
Definition wait (n : nat) (s : sched) : sched := Nat.iter n tick_clock s.
(** The [i]-th runner dies and is forgotten; ten minutes later the loop reconciles. *)
Definition dies (i : nat) (s : sched) : sched := after [Fire i; Died i; Close i; Forget i] (failing s).
Definition later (s : sched) : sched := wait 600 (healed s).
Definition again (s : sched) : sched := after [Wake false; StartFirst; Rest] (later s).
Definition two_runners : sched := after [Wake false; StartFirst; StartFirst; Rest] (NewScheduler three).
Definition six_deaths : sched := again (dies 6 (again (dies 5 (again (dies 4 (again (dies 3 (again (dies 2 (again (dies 1 two_runners))))))))))).
Lemma seventh_death_is_final :
  deaths six_deaths !! 1 = Some 6 ∧ runners six_deaths !! 1 = Some 7%nat ∧
  deaths (dies 7 six_deaths) !! 1 = Some 7 ∧
  to_start (loop (after [Wake false] (later (dies 7 six_deaths)))) = [] ∧
  to_start (loop (after [Wake false] (wait 3600 (later (dies 7 six_deaths))))) = [].
Proof. vm_compute. done. Qed.

(** ** The theorems at these runs *)
Lemma in_order_ok A (m : gmap Z A) : in_order A m ≡ₚ map_to_list m.
Proof. done. Qed.
Definition start_events : list event := [Wake false; StartFirst; StartFirst; Rest; Fire 1; Claim 1].
Lemma started_run : steps start_events (NewScheduler three) = Some started.
Proof. vm_compute. reflexivity. Qed.
Lemma one_runner_per_remote_witness : ∃ rn, instances started !! 1%nat = Some rn ∧ holds 1 rn "main" ∧ claims started !! "main" ≠ Some ByHand.
Proof.
  assert (∃ rn, instances started !! 1%nat = Some rn ∧ holds 1 rn "main") as (rn & Hi & Hh) by (eexists; vm_compute; split; reflexivity).
  exists rn. split; [exact Hi|]. split; [exact Hh|].
  refine (proj1 (proj2 (one_runner_per_remote at_second reconcileInterval in_order in_order_ok start_events three started
    started_run 1 1 rn rn Hi Hi) "main" Hh)).
Defined.
Lemma reconcile_agrees_witness :
  ∃ i, runners switched_off !! 1 = Some i ∧ i ∈ to_stop (loop (reconcile at_second reconcileInterval in_order switched_off)).
Proof.
  assert (∃ rs d, Remotes_in (sc_remotes switched_off) = (Ok rs, d) ∧ NoDup (rm_ID <$> rs) ∧
    Forall (λ r, rm_ID r = 1 → shouldRun r = false) rs) as (rs & d & Hread & Hnd & Hoff).
  { eexists _, _. split; [vm_compute; reflexivity|]. split.
    - vm_compute. apply (bool_decide_unpack (NoDup [1; 2; 3])). vm_compute. exact I.
    - repeat constructor; intros H; vm_compute in H; first [discriminate | reflexivity]. }
  destruct (reconcile_agrees at_second reconcileInterval in_order in_order_ok switched_off rs d eq_refl Hread Hnd) as (_ & Hstop & _).
  exists 1%nat. split; [vm_compute; reflexivity|]. apply Hstop. exists 1. split; [vm_compute; reflexivity|].
  intros (r & Hr & Hid & Hs). rewrite (proj1 (Forall_forall _ _) Hoff r Hr Hid) in Hs. discriminate.
Defined.
Lemma shutdown_completes_witness : claims started !! "main" = Some (Runner 1) ∧
  ∃ es' s', steps (Shutdown :: es') started = Some s' ∧ loop s' = Exited ∧ all_gone s'.
Proof.
  split; [vm_compute; reflexivity|].
  apply (shutdown_completes at_second reconcileInterval in_order in_order_ok start_events three started started_run).
  vm_compute. discriminate.
Defined.
