(* ===== verification/Duration.v ===== *)
(** [time.Duration] as text: [Duration.String] and [time.ParseDuration] of the Go
    standard library, which the export of upstreams and the configuration use, and
    the round trip of whole seconds. *)
From S2P Require Import Prelude GoStr.
From Stdlib Require Import SpecFloat.
Local Open Scope Z_scope.

Definition microsecond : Z := 1000.
Definition millisecond : Z := 1000000.
(** [µ] *)
Definition micro : string := bytes [194; 181]%N.
Definition micro_mu : string := bytes [206; 188]%N.
Definition digit_char (d : Z) : ascii := ascii_of_N (Z.to_N (d + 48)).

(** ** [Duration.String] *)

(** [fmtFrac]: the fraction [v / 10 ^ prec] without its trailing zeros, and the
    integer part. *)
Fixpoint fmtFrac (prec : nat) (v : Z) (print : bool) (acc : string) : string * Z :=
  match prec with
  | O => ((if print then String "." acc else acc), v)
  | S prec =>
      let digit := v mod 10 in
      let print := print || negb (digit =? 0) in
      fmtFrac prec (v / 10) print (if print then String (digit_char digit) acc else acc)
  end.
Definition hms (u : Z) (frac : string) : string :=
  let s := fmt_int (u mod 60) +:+ frac +:+ "s" in
  let u := u / 60 in
  if 0 <? u then
    let s := fmt_int (u mod 60) +:+ "m" +:+ s in
    let u := u / 60 in
    if 0 <? u then fmt_int u +:+ "h" +:+ s else s
  else s.
Definition Duration_String (d : Z) : string :=
  let u := Z.abs d in
  let s :=
    if u <? second then
      if u =? 0 then "0s"
      else
        let '(prec, unit) :=
          if u <? microsecond then (0%nat, "ns") else if u <? millisecond then (3%nat, micro +:+ "s") else (6%nat, "ms") in
        let '(frac, v) := fmtFrac prec u false "" in fmt_int v +:+ frac +:+ unit
    else let '(frac, v) := fmtFrac 9 u false "" in hms v frac in
  if d <? 0 then String "-" s else s.

(** ** [ParseDuration] *)
Fixpoint leadingInt (x : Z) (s : string) : option (Z * string) :=
  match s with
  | EmptyString => Some (x, s)
  | String c s' =>
      if is_digit c then
        if 2 ^ 63 / 10 <? x then None
        else let x := x * 10 + digit_val c in if 2 ^ 63 <? x then None else leadingInt x s'
      else Some (x, s)
  end.
(** The digits that would overflow are skipped. *)
Fixpoint leadingFraction (x : Z) (scale : spec_float) (overflow : bool) (s : string) : Z * spec_float * string :=
  match s with
  | EmptyString => (x, scale, s)
  | String c s' =>
      if is_digit c then
        if overflow || ((2 ^ 63 - 1) / 10 <? x) then leadingFraction x scale true s'
        else
          let y := x * 10 + digit_val c in
          if 2 ^ 63 <? y then leadingFraction x scale true s'
          else leadingFraction y (SFmul 53 1024 scale (float64 10)) false s'
      else (x, scale, s)
  end.
Definition unitMap (u : string) : option Z :=
  if String.eqb u "ns" then Some 1
  else if String.eqb u "us" || String.eqb u (micro +:+ "s") || String.eqb u (micro_mu +:+ "s") then Some microsecond
  else if String.eqb u "ms" then Some millisecond
  else if String.eqb u "s" then Some second
  else if String.eqb u "m" then Some minute
  else if String.eqb u "h" then Some hour
  else None.
(** [uint64(x)] of a float that is not negative and below [2 ^ 64]. *)
Definition float_uint64 (x : spec_float) : Z :=
  match x with
  | S754_finite false m e => if 0 <=? e then Z.shiftl (Zpos m) e else Z.shiftr (Zpos m) (- e)
  | _ => 0
  end.
Definition unit_byte (c : ascii) : bool := negb (Ascii.eqb c "." || is_digit c).
(** One number with its unit: its value and the rest of the text. *)
Definition part (s : string) : option (Z * string) :=
  match s with
  | String c _ =>
      if Ascii.eqb c "." || is_digit c then
        match leadingInt 0 s with
        | None => None
        | Some (v, s1) =>
            let pre := negb (String.length s1 =? String.length s)%nat in
            let '(f, scale, s2, post) :=
              match s1 with
              | String c s1' =>
                  if Ascii.eqb c "." then
                    let '(f, scale, s2) := leadingFraction 0 (float64 1) false s1' in
                    (f, scale, s2, negb (String.length s2 =? String.length s1')%nat)
                  else (0, float64 1, s1, false)
              | EmptyString => (0, float64 1, s1, false)
              end in
            if negb (pre || post) then None
            else
              let '(u, rest) := span unit_byte s2 in
              if String.eqb u "" then None
              else match unitMap u with
                   | None => None
                   | Some unit =>
                       if 2 ^ 63 / unit <? v then None
                       else
                         let v := v * unit in
                         let v := if 0 <? f
                                  then (v + float_uint64 (SFmul 53 1024 (float64 f) (SFdiv 53 1024 (float64 unit) scale)))
                                  else v in
                         if (0 <? f) && (2 ^ 63 <? v) then None else Some (v, rest)
                   end
        end
      else None
  | EmptyString => None
  end.
Fixpoint parts (fuel : nat) (d : Z) (s : string) : option Z :=
  match s with
  | EmptyString => Some d
  | _ =>
      match fuel with
      | O => None
      | S fuel =>
          match part s with
          | None => None
          | Some (v, rest) => let d := (d + v) mod 2 ^ 64 in if 2 ^ 63 <? d then None else parts fuel d rest
          end
      end
  end.
(** [None]: the text is not a duration (the source tells why in the text of its
    error). *)
Definition ParseDuration (s : string) : option Z :=
  let '(neg, s) :=
    match s with
    | String c s' => if Ascii.eqb c "-" then (true, s') else if Ascii.eqb c "+" then (false, s') else (false, s)
    | EmptyString => (false, s)
    end in
  if String.eqb s "0" then Some 0
  else if String.eqb s "" then None
  else match parts (String.length s) 0 s with
       | None => None
       | Some d => if neg then Some (- d) else if 2 ^ 63 - 1 <? d then None else Some d
       end.

Example duration_texts :
  Duration_String 0 = "0s" ∧ Duration_String (6 * hour) = "6h0m0s" ∧ Duration_String 1500000000 = "1.5s" ∧
  Duration_String (-90 * second) = "-1m30s" ∧ Duration_String 1500 = "1.5" +:+ micro +:+ "s" ∧ Duration_String 100 = "100ns" ∧
  ParseDuration "6h" = Some (6 * hour) ∧ ParseDuration "1.5h" = Some (90 * minute) ∧ ParseDuration "-1m30s" = Some (-90 * second) ∧
  ParseDuration "2x" = None ∧ ParseDuration "3" = None ∧ ParseDuration "" = None ∧ ParseDuration ".s" = None ∧
  ParseDuration "0.000000001s" = Some 1 ∧ ParseDuration "9223372036854775808ns" = None ∧
  ParseDuration "-9223372036854775808ns" = Some (- 2 ^ 63).
Proof. vm_compute. done. Qed.

(** ** Round trip *)
Lemma fmtFrac_whole prec v print acc : 0 ≤ v → print = false → acc = "" → fmtFrac prec (v * 10 ^ Z.of_nat prec) print acc = ("", v).
Proof.
  revert v print acc. induction prec as [|prec IH]; intros v print acc Hv -> ->; [simpl; f_equal; lia|].
  cbn [fmtFrac]. rewrite Nat2Z.inj_succ, Z.pow_succ_r by lia.
  replace (v * (10 * 10 ^ Z.of_nat prec)) with (v * 10 ^ Z.of_nat prec * 10) by ring.
  rewrite Z.mod_mul, Z.div_mul by done. by apply IH.
Qed.
(** The rest of a text after a number: it does not go on with a digit. *)
Definition ends_number (s : string) : Prop := match s with String c _ => is_digit c = false | EmptyString => True end.
Lemma leadingInt_digits x ds rest : 0 ≤ x → all_bytes is_digit ds = true → ends_number rest → digits_val x ds ≤ 2 ^ 63 →
  leadingInt x (ds +:+ rest) = Some (digits_val x ds, rest).
Proof.
  revert x. induction ds as [|c ds IH]; intros x Hx Hall Hrest Hle.
  - simpl. destruct rest as [|c rest]; [done|]. simpl in *. by rewrite Hrest.
  - apply andb_true_iff in Hall as [Hc Hall]. rewrite app_cons. cbn [leadingInt]. rewrite Hc. simpl in Hle.
    pose proof (digit_val_range c Hc). assert (x * 10 + digit_val c ≤ digits_val (x * 10 + digit_val c) ds) as Hmono.
    { clear -Hall H Hx. assert (0 ≤ x * 10 + digit_val c) as Hn by lia. revert Hn. generalize (x * 10 + digit_val c). clear H Hx.
      induction ds as [|d ds IH]; intros y Hy; [done|]. apply andb_true_iff in Hall as [Hd Hall]. simpl.
      pose proof (digit_val_range d Hd). specialize (IH Hall (y * 10 + digit_val d) ltac:(lia)). lia. }
    destruct (Z.ltb_spec (2 ^ 63 / 10) x) as [Hlt|_]; [change (2 ^ 63 / 10) with 922337203685477580 in Hlt; lia|].
    destruct (Z.ltb_spec (2 ^ 63) (x * 10 + digit_val c)) as [Hlt|_]; [lia|]. simpl digits_val. apply IH; [lia|done|done|lia].
Qed.
Lemma fmt_int_head n : 0 ≤ n → ∃ c r, fmt_int n = String c r ∧ is_digit c = true.
Proof.
  intros Hn. destruct (fmt_int_nonneg n Hn) as (_ & Hall & Hne). destruct (fmt_int n) as [|c r]; [done|].
  exists c, r. split; [done|]. by apply andb_true_iff in Hall as [? _].
Qed.
Lemma digit_not_dot c : is_digit c = true → Ascii.eqb c "." = false.
Proof. intros Hc. apply Ascii.eqb_neq. by intros ->. Qed.
(** A whole number of a unit. *)
Lemma part_whole n u unit rest : 0 ≤ n → n * unit ≤ 2 ^ 63 → 0 < unit → unitMap u = Some unit → all_bytes unit_byte u = true → u ≠ "" →
  match rest with String c _ => unit_byte c = false | EmptyString => True end →
  part (fmt_int n +:+ u +:+ rest) = Some (n * unit, rest).
Proof.
  intros Hn Hle Hunit Hu Hall Hne Hrest. destruct (fmt_int_head n Hn) as (c & r & Hs & Hc).
  destruct (fmt_int_nonneg n Hn) as (Hv & Hd & Hfne).
  assert (leadingInt 0 (fmt_int n +:+ u +:+ rest) = Some (n, u +:+ rest)) as Hlead.
  { rewrite leadingInt_digits; [by rewrite Hv|done|done| |rewrite Hv; nia].
    destruct u as [|d u]; [done|]. simpl in Hall |- *. apply andb_true_iff in Hall as [Hd' _]. unfold unit_byte in Hd'.
    apply negb_true_iff, orb_false_iff in Hd' as [_ Hd']. done. }
  unfold part. rewrite Hs in *. rewrite app_cons in *. rewrite Hc, orb_true_r, Hlead.
  assert (String.length (u +:+ rest) ≠ String.length (String c (r +:+ u +:+ rest))) as Hlen.
  { simpl. rewrite !length_app_str. lia. }
  rewrite (proj2 (Nat.eqb_neq _ _) Hlen). destruct u as [|d u]; [done|]. rewrite app_cons.
  assert (Ascii.eqb d "." = false) as Hdot.
  { simpl in Hall. apply andb_true_iff in Hall as [Hd' _]. unfold unit_byte in Hd'. by apply negb_true_iff, orb_false_iff in Hd' as [Hd' _]. }
  rewrite Hdot. cbn [negb orb]. rewrite <- app_cons.
  assert (span unit_byte (String d u +:+ rest) = (String d u, rest)) as Hspan.
  { clear -Hall Hrest. induction (String d u) as [|e s IH].
    - destruct rest as [|e rest]; [done|]. simpl. by rewrite Hrest.
    - rewrite app_cons. simpl in Hall |- *. apply andb_true_iff in Hall as [-> Hall]. by rewrite (IH Hall). }
  rewrite Hspan. rewrite (proj2 (String.eqb_neq _ _) Hne), Hu.
  destruct (Z.ltb_spec (2 ^ 63 / unit) n) as [Hlt|_]; [|done]. exfalso.
  assert (n ≤ 2 ^ 63 / unit) by (apply Z.div_le_lower_bound; lia). lia.
Qed.
Lemma parts_cons n d s v rest : part s = Some (v, rest) → (0 < n)%nat → 0 ≤ d → 0 ≤ v → d + v ≤ 2 ^ 63 →
  parts n d s = parts (pred n) (d + v) rest.
Proof.
  intros Hp Hn Hd Hv Hle. destruct n as [|n]; [lia|]. destruct s as [|c s]; [done|]. cbn [parts pred]. rewrite Hp.
  rewrite Z.mod_small by lia. destruct (Z.ltb_spec (2 ^ 63) (d + v)); [lia|done].
Qed.
Lemma parts_nil n d : parts n d "" = Some d.
Proof. by destruct n. Qed.
Lemma parts_seconds n d k : (0 < n)%nat → 0 ≤ d → 0 ≤ k → d + k * second ≤ 2 ^ 63 →
  parts n d (fmt_int k +:+ "s") = Some (d + k * second).
Proof.
  intros Hn Hd Hk Hle. rewrite (parts_cons n d _ (k * second) ""); [apply parts_nil|..|done|done| |done]; [|unfold second; lia].
  rewrite <- (app_nil_r "s"). apply (part_whole k "s" second ""); unfold second in *; (done || lia).
Qed.
Lemma parts_minutes n d k j : (1 < n)%nat → 0 ≤ d → 0 ≤ k → 0 ≤ j → d + j * minute + k * second ≤ 2 ^ 63 →
  parts n d (fmt_int j +:+ "m" +:+ fmt_int k +:+ "s") = Some (d + j * minute + k * second).
Proof.
  intros Hn Hd Hk Hj Hle. unfold minute, second in *. rewrite (parts_cons n d _ (j * minute) (fmt_int k +:+ "s")).
  - apply parts_seconds; unfold minute, second; lia.
  - apply part_whole; unfold minute, second; try (done || lia).
    destruct (fmt_int_head k Hk) as (c & r & -> & Hc). rewrite app_cons. unfold unit_byte. by rewrite Hc, orb_true_r.
  - lia.
  - done.
  - unfold minute, second. lia.
  - unfold minute, second. lia.
Qed.
Lemma hms_parses n u : (String.length (hms u "") <= n)%nat → 0 ≤ u → u * second ≤ 2 ^ 63 → parts n 0 (hms u "") = Some (u * second).
Proof.
  intros Hn Hu Hle. unfold hms in *. change ("" +:+ "s") with "s" in *.
  assert (∀ k, 0 ≤ k → (0 < String.length (fmt_int k))%nat) as Hlen.
  { intros k Hk. destruct (fmt_int_head k Hk) as (c & r & -> & _). simpl. lia. }
  assert (0 ≤ u mod 60 < 60) by (apply Z.mod_pos_bound; lia). assert (0 ≤ u / 60) by (apply Z.div_pos; lia).
  pose proof (Z.div_mod u 60 ltac:(lia)) as Hdiv. pose proof (Hlen (u mod 60)) as HL1.
  destruct (Z.ltb_spec 0 (u / 60)) as [Hm|Hm].
  - assert (0 ≤ (u / 60) mod 60 < 60) by (apply Z.mod_pos_bound; lia). assert (0 ≤ u / 60 / 60) by (apply Z.div_pos; lia).
    pose proof (Z.div_mod (u / 60) 60 ltac:(lia)) as Hdiv2. pose proof (Hlen ((u / 60) mod 60)) as HL2. pose proof (Hlen (u / 60 / 60)) as HL3.
    destruct (Z.ltb_spec 0 (u / 60 / 60)) as [Hh|Hh].
    + rewrite !length_app_str in Hn. simpl in Hn.
      rewrite (parts_cons n 0 _ (u / 60 / 60 * hour) (fmt_int ((u / 60) mod 60) +:+ "m" +:+ fmt_int (u mod 60) +:+ "s")).
      * rewrite parts_minutes; unfold hour, minute, second in *; [f_equal; lia|lia..].
      * apply part_whole; unfold hour, minute, second in *; try (done || lia).
        destruct (fmt_int_head ((u / 60) mod 60)) as (c & r & -> & Hc); [lia|]. rewrite app_cons. unfold unit_byte. by rewrite Hc, orb_true_r.
      * lia.
      * done.
      * unfold hour, minute, second. lia.
      * unfold hour, minute, second in *. lia.
    + rewrite !length_app_str in Hn. simpl in Hn. rewrite parts_minutes; unfold minute, second in *; [f_equal; lia|lia..].
  - rewrite length_app_str in Hn. simpl in Hn. rewrite parts_seconds; unfold second in *; [f_equal; lia|lia..].
Qed.
(** The text of a duration of whole seconds is read back as that duration. *)
Lemma duration_roundtrip k : in_int64 (k * second) → ParseDuration (Duration_String (k * second)) = Some (k * second).
Proof.
  intros Hk. unfold in_int64, min_int64, max_int64 in Hk. destruct (decide (k = 0)) as [->|Hne]; [by vm_compute|].
  unfold Duration_String. rewrite Z.abs_mul. change (Z.abs second) with second.
  destruct (Z.ltb_spec (Z.abs k * second) second) as [Hlt|_]; [unfold second in Hlt; lia|].
  change (Z.abs k * second) with (Z.abs k * 10 ^ Z.of_nat 9). rewrite fmtFrac_whole by (done || lia).
  assert (∃ c r, hms (Z.abs k) "" = String c r ∧ is_digit c = true ∧ r ≠ "") as (c & r & Hs & Hc & Hr).
  { unfold hms. assert (0 ≤ Z.abs k mod 60 < 60) by (apply Z.mod_pos_bound; lia).
    assert (∀ j t, 0 ≤ j → t ≠ "" → ∃ c r, fmt_int j +:+ t = String c r ∧ is_digit c = true ∧ r ≠ "") as Hhead.
    { intros j t Hj Ht. destruct (fmt_int_head j Hj) as (c & r & -> & Hc). exists c, (r +:+ t). split_and!; [done|done|]. by destruct r, t. }
    destruct (Z.ltb_spec 0 (Z.abs k / 60)) as [Hm|Hm]; [|by apply Hhead; [lia|]].
    assert (0 ≤ (Z.abs k / 60) mod 60 < 60) by (apply Z.mod_pos_bound; lia).
    destruct (Z.ltb_spec 0 (Z.abs k / 60 / 60)) as [Hh|Hh]; by apply Hhead; [lia|]. }
  assert (parts (String.length (hms (Z.abs k) "")) 0 (hms (Z.abs k) "") = Some (Z.abs k * second)) as Hparts
    by (apply hms_parses; unfold second in *; lia).
  rewrite Hs in *. unfold ParseDuration.
  assert (∀ neg : bool, (if String.eqb (String c r) "0" then Some 0 else if String.eqb (String c r) "" then None
    else match parts (String.length (String c r)) 0 (String c r) with
         | None => None | Some d => if neg then Some (- d) else if 2 ^ 63 - 1 <? d then None else Some d end) =
    (if neg then Some (- (Z.abs k * second)) else if 2 ^ 63 - 1 <? Z.abs k * second then None else Some (Z.abs k * second))) as Hrun.
  { intros neg. rewrite Hparts. simpl. destruct r; [done|]. by destruct (Ascii.eqb c "0"). }
  destruct (Z.ltb_spec (k * second) 0) as [Hneg|Hpos].
  - refine (eq_trans (Hrun true) _). f_equal. unfold second in *. lia.
  - cbv beta iota. assert (Ascii.eqb c "-" = false ∧ Ascii.eqb c "+" = false) as [-> ->] by (split; apply Ascii.eqb_neq; by intros ->).
    refine (eq_trans (Hrun false) _). destruct (Z.ltb_spec (2 ^ 63 - 1) (Z.abs k * second)) as [Hbig|_]; [unfold second in *; lia|]. f_equal. unfold second in *. lia.
Qed.

(** ** The bytes of the text *)
Definition duration_byte (c : ascii) : bool :=
  is_digit c || Ascii.eqb c "-" || Ascii.eqb c "." || Ascii.eqb c "h" || Ascii.eqb c "m" || Ascii.eqb c "s" || Ascii.eqb c "n"
  || Ascii.eqb c (byte 194) || Ascii.eqb c (byte 181).
Lemma digits_duration s : all_bytes is_digit s = true → all_bytes duration_byte s = true.
Proof. apply all_bytes_impl. intros c Hc. unfold duration_byte. by rewrite Hc. Qed.
Lemma fmt_duration n : 0 ≤ n → all_bytes duration_byte (fmt_int n) = true.
Proof. intros Hn. apply digits_duration. by destruct (fmt_int_nonneg n Hn) as (_ & ? & _). Qed.
Lemma digit_char_duration d : 0 ≤ d < 10 → duration_byte (digit_char d) = true.
Proof.
  intros Hd. assert (d = 0 ∨ d = 1 ∨ d = 2 ∨ d = 3 ∨ d = 4 ∨ d = 5 ∨ d = 6 ∨ d = 7 ∨ d = 8 ∨ d = 9) as Hc by lia.
  by repeat destruct Hc as [->|Hc]; subst.
Qed.
Lemma fmtFrac_bytes prec v print acc : 0 ≤ v → all_bytes duration_byte acc = true →
  all_bytes duration_byte (fmtFrac prec v print acc).1 = true ∧ 0 ≤ (fmtFrac prec v print acc).2.
Proof.
  revert v print acc. induction prec as [|prec IH]; intros v print acc Hv Ha; simpl; [by destruct print|].
  apply IH; [apply Z.div_pos; lia|]. destruct (print || _); [|done]. simpl. rewrite Ha.
  rewrite digit_char_duration by (apply Z.mod_pos_bound; lia). done.
Qed.
Lemma hms_bytes u frac : 0 ≤ u → all_bytes duration_byte frac = true → all_bytes duration_byte (hms u frac) = true.
Proof.
  intros Hu Hf. unfold hms. assert (0 ≤ u mod 60) by (apply Z.mod_pos_bound; lia). assert (0 ≤ u / 60) by (apply Z.div_pos; lia).
  assert (0 ≤ (u / 60) mod 60) by (apply Z.mod_pos_bound; lia). assert (0 ≤ u / 60 / 60) by (apply Z.div_pos; lia).
  repeat case_match; rewrite ?all_bytes_app, ?fmt_duration, ?Hf by done; done.
Qed.
Lemma duration_bytes d : all_bytes duration_byte (Duration_String d) = true.
Proof.
  unfold Duration_String. set (u := Z.abs d). assert (0 ≤ u) as Hu by (unfold u; lia).
  match goal with |- all_bytes _ (if _ then String _ ?x else ?x) = true => assert (all_bytes duration_byte x = true) as Hx end.
  { destruct (u <? second).
    - destruct (u =? 0); [done|].
      assert (∀ prec unit, all_bytes duration_byte unit = true →
        all_bytes duration_byte (let '(frac, v) := fmtFrac prec u false "" in fmt_int v +:+ frac +:+ unit) = true) as Hfrac.
      { intros prec unit Hunit. destruct (fmtFrac_bytes prec u false "" Hu) as [H1 H2]; [done|]. destruct (fmtFrac prec u false "") as [frac v].
        simpl in *. by rewrite !all_bytes_app, fmt_duration, H1, Hunit. }
      destruct (u <? microsecond); [by apply Hfrac|]. destruct (u <? millisecond); by apply Hfrac.
    - destruct (fmtFrac_bytes 9 u false "" Hu) as [H1 H2]; [done|]. destruct (fmtFrac 9 u false "") as [frac v]. by apply hms_bytes. }
  revert Hx. match goal with |- all_bytes _ ?x = true → _ => generalize x end. intros x Hx.
  destruct (d <? 0); [|done]. simpl. by rewrite Hx.
Qed.
