(* ===== verification/RemoteText.v ===== *)
(** Upstreams as text (internal/core/domain/remotefmt.go, proxy.go): the lines of
    an export, their parsing, and the check of a proxy's address. *)
From S2P Require Import Prelude GoStr Domain Duration.
Local Open Scope Z_scope.

(** The parts of a [url.URL] that the program looks at. *)
Record URL := mk_URL { url_Scheme : string; url_User : bool; url_Host : string }.
Definition ProxyDirect : string := "direct".
Definition maxProxyURLLen : Z := 2048.
Definition isProxyScheme (scheme : string) : bool :=
  String.eqb scheme "http" || String.eqb scheme "https" || String.eqb scheme "socks5" || String.eqb scheme "socks5h".
Definition nl : string := bytes [10]%N.
Definition newline : ascii := byte 10.
Definition bar : ascii := "|"%char.
Definition comma : ascii := ","%char.
Definition mode_text (m : RemoteMode) : string := match m with ModeProxy => "proxy" | ModeMirror => "mirror" end.

Section remotefmt.
  (** [net/url.Parse], and the [%q] of package fmt. *)
  Context (url_Parse : string → option URL) (quote : string → string).

Definition ValidateProxyURL (s : string) : option error :=
  let bad reason := Some (ValidationError "прокси upstream" s reason) in
  if String.eqb s "" || String.eqb s ProxyDirect then None
  else if maxProxyURLLen <? Z.of_nat (String.length s) then bad ("длиннее " +:+ fmt_int maxProxyURLLen +:+ " байт")
  else match url_Parse s with
       | None => bad "не разбирается как URL"
       | Some u =>
           if negb (isProxyScheme (url_Scheme u)) then bad ("схема " +:+ quote (url_Scheme u) +:+ ", допустимы http/https/socks5/socks5h")
           else if String.eqb (url_Host u) "" then bad "пустой host"
           else None
       end.
Definition MaskProxyURL (s : string) : string :=
  match url_Parse s with
  | None => s
  | Some u => if negb (url_User u) || String.eqb (url_Host u) "" then s else url_Scheme u +:+ "://***@" +:+ url_Host u
  end.

Definition remotesExportHeader : string :=
  "# khrazhevnik remotes export v1" +:+ nl +:+ "# name|ecosystem|base_url|mode|proxy|enabled|sync_interval|include" +:+ nl.
Definition remotesFieldCount : nat := 8.
Definition line_error (line reason : string) : error := ValidationError "строка источника" line reason.
Definition parseRemoteEnabled (value line : string) : res bool :=
  if String.eqb value "true" then Ok true
  else if String.eqb value "false" then Ok false
  else Err (line_error line ("enabled " +:+ quote value +:+ ", допустимы true/false")).
(** The source adds why the text is not a duration. *)
Definition parseRemoteInterval (value line : string) : res Z :=
  if String.eqb value "" then Ok 0
  else match ParseDuration value with
       | None => Err (line_error line ("sync_interval " +:+ quote value +:+ ": "))
       | Some d => Ok d
       end.
Definition parseRemoteInclude (value : string) : list string :=
  if String.eqb value "" then []
  else List.filter (λ p, negb (String.eqb p "")) (trim_space <$> split comma value).
(** The fields that must not be empty, in this order. *)
Fixpoint required (fields : list (string * string)) (line : string) : option error :=
  match fields with
  | [] => None
  | (what, value) :: fields =>
      if String.eqb value "" then Some (line_error line (what +:+ " пусто")) else required fields line
  end.
(** [Ok None]: a line to be skipped. *)
Definition ParseRemoteLine (s : string) : res (option Remote) :=
  let trimmed := trim_space s in
  if String.eqb trimmed "" || has_prefix trimmed "#" then Ok None
  else
    let fields := split bar s in
    match fields with
    | [name; ecosystem; baseURL; mode; proxy; enabled; interval; include] =>
        match required [("имя источника", name); ("экосистема источника", ecosystem); ("base_url источника", baseURL)] s with
        | Some e => Err e
        | None =>
            match (if String.eqb mode "proxy" then Some ModeProxy else if String.eqb mode "mirror" then Some ModeMirror else None) with
            | None => Err (line_error s ("режим " +:+ quote mode +:+ ", допустимы proxy/mirror"))
            | Some m =>
                match ValidateProxyURL proxy with
                | Some e => Err e
                | None =>
                    match parseRemoteEnabled enabled s with
                    | Err e => Err e
                    | Ok on =>
                        match parseRemoteInterval interval s with
                        | Err e => Err e
                        | Ok d => Ok (Some (mk_Remote 0 name ecosystem baseURL m on d (parseRemoteInclude include) proxy None 0))
                        end
                    end
                end
            end
        end
    | _ => Err (line_error s ("ожидалось " +:+ fmt_int (Z.of_nat remotesFieldCount) +:+ " полей, получено " +:+ fmt_int (Z.of_nat (length fields))))
    end.

Definition FormatRemote (r : Remote) : string :=
  let interval := if rm_SyncInterval r =? 0 then "" else Duration_String (rm_SyncInterval r) in
  String.concat "|" [rm_Name r; rm_Ecosystem r; rm_BaseURL r; mode_text (rm_Mode r); rm_ProxyURL r;
    (if rm_Enabled r then "true" else "false"); interval; String.concat "," (rm_Include r)].
Definition FormatRemotes (rs : list Remote) : string :=
  foldl (λ b r, b +:+ FormatRemote r +:+ nl) remotesExportHeader rs.
End remotefmt.

(** ** An export is read back *)
Lemma slug_solid c : isSlugByte c = true → solid c = true.
Proof. destruct c as [[] [] [] [] [] [] [] []]; vm_compute; done. Qed.

Section roundtrip.
  Context (url_Parse : string → option URL) (quote : string → string).

(** What the text of an upstream can carry. *)
Definition clean (s : string) : Prop := no_sep bar s = true ∧ no_sep newline s = true.
Record exportable (r : Remote) : Prop := {
  ex_name : ValidateUsername (rm_Name r) = None;
  ex_ecosystem : rm_Ecosystem r ≠ "" ∧ clean (rm_Ecosystem r);
  ex_url : rm_BaseURL r ≠ "" ∧ clean (rm_BaseURL r);
  ex_proxy : ValidateProxyURL url_Parse quote (rm_ProxyURL r) = None ∧ clean (rm_ProxyURL r);
  ex_interval : in_int64 (rm_SyncInterval r) ∧ ∃ k, rm_SyncInterval r = k * second;
  ex_include : Forall (λ p, p ≠ "" ∧ trim_space p = p ∧ no_sep comma p = true ∧ clean p) (rm_Include r)
}.
(** What of an upstream is in its line. *)
Definition portable (r : Remote) : Remote :=
  mk_Remote 0 (rm_Name r) (rm_Ecosystem r) (rm_BaseURL r) (rm_Mode r) (rm_Enabled r) (rm_SyncInterval r) (rm_Include r)
    (rm_ProxyURL r) None 0.

Lemma slug_name what name n : validateSlug what name n = None →
  ∃ c s, name = String c s ∧ isSlugByte c = true ∧ all_bytes slug_ok name = true.
Proof.
  unfold validateSlug. destruct name as [|c s]; [done|]. destruct (last_byte (String c s)) as [l|]; [|done].
  destruct (n <? _)%nat; [done|]. destruct (contains _ _); [done|]. destruct (isSlugByte c) eqn:Hc; [|done].
  destruct (isSlugByte l); [|done]. simpl negb. cbv iota. destruct (first_bad_byte slug_ok 0 (String c s)) as [[]|] eqn:Hb; [done|].
  intros _. exists c, s. split_and!; [done|done|]. by apply first_bad_byte_None in Hb.
Qed.
Lemma slug_clean s : all_bytes slug_ok s = true → clean s.
Proof.
  intros H. split; (eapply all_bytes_impl; [|exact H]); intros c Hc; apply negb_true_iff, Ascii.eqb_neq; by intros <-.
Qed.
Lemma duration_clean d : clean (Duration_String d).
Proof.
  split; (eapply all_bytes_impl; [|apply duration_bytes]); intros c Hc; apply negb_true_iff, Ascii.eqb_neq; by intros <-.
Qed.
Lemma concat_no_sep c d l : c ≠ d → Forall (λ s, no_sep c s = true) l → no_sep c (String.concat (String d "") l) = true.
Proof.
  intros Hcd. induction l as [|s l IH]; intros Hl; [done|]. apply Forall_cons in Hl as [Hs Hl]. destruct l as [|s' l]; [done|].
  rewrite concat_cons. unfold no_sep in *. rewrite all_bytes_app, Hs. cbn [all_bytes]. rewrite IH by done.
  rewrite (proj2 (Ascii.eqb_neq c d)) by done. done.
Qed.
Lemma include_back l : Forall (λ p, p ≠ "" ∧ trim_space p = p ∧ no_sep comma p = true ∧ clean p) l →
  parseRemoteInclude (String.concat "," l) = l.
Proof.
  intros Hl. unfold parseRemoteInclude. destruct l as [|p l]; [done|].
  assert (String.concat "," (p :: l) ≠ "") as Hne.
  { apply Forall_cons in Hl as [[Hp _] _]. simpl. destruct l; [done|]. by destruct p. }
  rewrite (proj2 (String.eqb_neq _ _) Hne).
  change (String.concat "," (p :: l)) with (String.concat (String comma "") (p :: l)).
  rewrite split_concat; [|done|eapply Forall_impl; [exact Hl|]; by intros q (_ & _ & ? & _)].
  clear Hne. induction Hl as [|q ql (Hq & Ht & _) Hl IH]; [done|]. simpl. rewrite Ht.
  rewrite (proj2 (String.eqb_neq _ _) Hq). simpl. f_equal. exact IH.
Qed.
(** The line of an upstream. *)
Lemma FormatRemote_head r : exportable r → ∃ c s, FormatRemote r = String c s ∧ isSlugByte c = true.
Proof.
  intros Hr. destruct (slug_name _ _ _ (ex_name r Hr)) as (c & s & Hn & Hc & _). unfold FormatRemote. rewrite Hn. simpl. eauto.
Qed.
Lemma FormatRemote_fields r : exportable r → split bar (FormatRemote r) =
  [rm_Name r; rm_Ecosystem r; rm_BaseURL r; mode_text (rm_Mode r); rm_ProxyURL r; (if rm_Enabled r then "true" else "false");
   (if rm_SyncInterval r =? 0 then "" else Duration_String (rm_SyncInterval r)); String.concat "," (rm_Include r)].
Proof.
  intros Hr. unfold FormatRemote. apply (split_concat bar); [done|].
  destruct (slug_name _ _ _ (ex_name r Hr)) as (c & s & _ & _ & Hs).
  repeat (apply Forall_cons; split); [apply (slug_clean _ Hs)|apply (ex_ecosystem r Hr)|apply (ex_url r Hr)|by destruct (rm_Mode r)|
    apply (ex_proxy r Hr)|by destruct (rm_Enabled r)| | |by apply Forall_nil].
  - destruct (_ =? 0); [done|]. apply duration_clean.
  - apply (concat_no_sep bar comma); [done|]. eapply Forall_impl; [apply (ex_include r Hr)|]. by intros p (_ & _ & _ & ? & _).
Qed.
Lemma FormatRemote_one_line r : exportable r → no_sep newline (FormatRemote r) = true.
Proof.
  intros Hr. unfold FormatRemote. apply (concat_no_sep newline bar); [done|].
  destruct (slug_name _ _ _ (ex_name r Hr)) as (c & s & _ & _ & Hs).
  repeat (apply Forall_cons; split); [apply (slug_clean _ Hs)|apply (ex_ecosystem r Hr)|apply (ex_url r Hr)|by destruct (rm_Mode r)|
    apply (ex_proxy r Hr)|by destruct (rm_Enabled r)| | |by apply Forall_nil].
  - destruct (_ =? 0); [done|]. apply duration_clean.
  - apply (concat_no_sep newline comma); [done|]. eapply Forall_impl; [apply (ex_include r Hr)|]. by intros p (_ & _ & _ & _ & ?).
Qed.
Lemma line_roundtrip r : exportable r → ParseRemoteLine url_Parse quote (FormatRemote r) = Ok (Some (portable r)).
Proof.
  intros Hr. unfold ParseRemoteLine. destruct (FormatRemote_head r Hr) as (c & s & Hs & Hc).
  destruct (trim_solid c s (slug_solid c Hc)) as [s' Ht]. rewrite (FormatRemote_fields r Hr), Hs, Ht. simpl String.eqb. cbv iota.
  assert (has_prefix (String c s') "#" = false) as ->.
  { unfold has_prefix. apply bool_decide_eq_false. cbn [strip_prefix]. destruct (Ascii.eqb_spec "#" c) as [<-|]; [done|]. by intros []. }
  destruct (slug_name _ _ _ (ex_name r Hr)) as (c' & s'' & Hn & _ & _). assert (rm_Name r ≠ "") as Hne by (by rewrite Hn).
  cbn [orb required]. rewrite (proj2 (String.eqb_neq _ _) Hne), (proj2 (String.eqb_neq _ _) (proj1 (ex_ecosystem r Hr))),
    (proj2 (String.eqb_neq _ _) (proj1 (ex_url r Hr))).
  assert ((if String.eqb (mode_text (rm_Mode r)) "proxy" then Some ModeProxy else if String.eqb (mode_text (rm_Mode r)) "mirror" then Some ModeMirror else None)
    = Some (rm_Mode r)) as -> by (by destruct (rm_Mode r)).
  rewrite (proj1 (ex_proxy r Hr)).
  assert (∀ line, parseRemoteEnabled quote (if rm_Enabled r then "true" else "false") line = Ok (rm_Enabled r)) as -> by (by destruct (rm_Enabled r)).
  assert (∀ line, parseRemoteInterval quote (if rm_SyncInterval r =? 0 then "" else Duration_String (rm_SyncInterval r)) line = Ok (rm_SyncInterval r)) as ->.
  { intros line. destruct (Z.eqb_spec (rm_SyncInterval r) 0) as [->|Hz]; [done|]. unfold parseRemoteInterval.
    destruct (ex_interval r Hr) as (Hi & k & Hk). rewrite Hk in *. rewrite duration_roundtrip by done.
    destruct (String.eqb_spec (Duration_String (k * second)) "") as [He|]; [|done].
    pose proof (duration_roundtrip k Hi) as H. rewrite He in H. done. }
  rewrite include_back by apply (ex_include r Hr). done.
Qed.
(** The lines of a file: those of the header, one per upstream, and what follows
    the last line break. *)
Lemma lines_app l s : no_sep newline l = true → split newline (l +:+ nl +:+ s) = l :: split newline s.
Proof. intros Hl. change (l +:+ nl +:+ s) with (l +:+ String newline s). by rewrite split_app, split_nosep. Qed.
Lemma FormatRemotes_cat b rs : foldl (λ b r, b +:+ FormatRemote r +:+ nl) b rs =
  b +:+ String.concat "" ((λ r, FormatRemote r +:+ nl) <$> rs).
Proof.
  revert b. induction rs as [|r rs IH]; intros b; [simpl; by rewrite app_nil_r|]. simpl foldl. rewrite IH, fmap_cons, concat_empty_cons.
  by rewrite !app_assoc.
Qed.
Lemma FormatRemotes_lines rs : Forall exportable rs → split newline (FormatRemotes rs) =
  ["# khrazhevnik remotes export v1"; "# name|ecosystem|base_url|mode|proxy|enabled|sync_interval|include"] ++ (FormatRemote <$> rs) ++ [""].
Proof.
  intros Hrs. unfold FormatRemotes. rewrite FormatRemotes_cat. unfold remotesExportHeader. rewrite <- !app_assoc.
  rewrite lines_app by (vm_compute; done). rewrite lines_app by (vm_compute; done). simpl. do 2 f_equal.
  induction Hrs as [|r rs Hr Hrs IH]; [done|]. rewrite fmap_cons, concat_empty_cons, <- app_assoc, lines_app by (by apply FormatRemote_one_line).
  by rewrite IH.
Qed.

(** An export is read back. For upstreams whose texts hold no bar and no line
    break, the parser applied to the lines of the exported file skips the header
    and the empty end and gives every upstream again, in order, with its name, its
    addresses, its mode, its interval and its includes; what is local to the
    instance (number, time of creation) and the eviction policy are left out. *)
Theorem export_reads_back rs : Forall exportable rs →
  ParseRemoteLine url_Parse quote <$> split newline (FormatRemotes rs) =
  [Ok None; Ok None] ++ ((λ r, Ok (Some (portable r))) <$> rs) ++ [Ok None].
Proof.
  intros Hrs. rewrite FormatRemotes_lines by done. rewrite !fmap_app. f_equal. f_equal.
  rewrite <- list_fmap_compose. apply list_fmap_ext. intros i r Hr. apply line_roundtrip. by eapply Forall_lookup_1 in Hrs.
Qed.
(** A bar in an address, which the checks of the API let pass, gives a line that
    the parser refuses. *)
Lemma bar_is_not_escaped r u : rm_BaseURL r = "http://h/a|b" → rm_Name r = "main" → rm_Ecosystem r = "apt" → rm_ProxyURL r = "" →
  rm_SyncInterval r = 0 → rm_Include r = [] →
  ∃ e, ParseRemoteLine u quote (FormatRemote r) = Err e.
Proof.
  intros Hu Hn He Hp Hi Hc. unfold FormatRemote. rewrite Hu, Hn, He, Hp, Hi, Hc. by destruct (rm_Mode r), (rm_Enabled r); eexists; vm_compute.
Qed.
End roundtrip.
