(* ===== verification/RemotesIO.v ===== *)
(** The API around upstreams (internal/core/web: validate.go,
    handlers_remotes_io.go): the answers to errors, the checks of an upstream, and
    the export and the import of all of them as text. *)
From S2P Require Import Prelude GoStr Domain Duration RemoteText.
Local Open Scope Z_scope.

(** * Answers to errors *)
Definition ErrTaskDuplicate : error := Text "task already running".
Definition ErrTaskLimit : error := Text "task limit reached".
(** [errors.Is] of a sentinel: it is in the chain of causes. *)
Definition is_text (msg : string) (e : error) : bool := match e with Text m => String.eqb m msg | _ => false end.
Definition statusFor (err : option error) : Z * string :=
  match err with
  | None => (200, "")
  | Some e =>
      if has_type is_NotFound e then (404, "not_found")
      else if has_type is_Conflict e then (409, "conflict")
      else if has_type is_Forbidden e then (403, "forbidden")
      else if has_type is_Validation e then (400, "validation_error")
      else if has_type is_Unavailable e then (503, "unavailable")
      else if has_type is_InvalidKey e then (400, "invalid_key")
      else if has_type is_TooLarge e then (413, "too_large")
      else if has_type is_QuotaExceeded e then (413, "quota_exceeded")
      else if has_type is_Stale e then (409, "stale")
      else if has_type is_Unsupported e then (501, "unsupported")
      else if has_type (is_text "task already running") e then (409, "task_duplicate")
      else if has_type (is_text "task limit reached") e then (429, "task_limit")
      else (500, "internal")
  end.
(** [parseInt64URLParam], [parseInt64Query] on the raw value. *)
Definition parseInt64URLParam (raw : string) : option Z :=
  if String.eqb raw "" then None
  else match parse_int raw with Some id => if id <=? 0 then None else Some id | None => None end.
Definition parseInt64Query (raw : string) (fallback : Z) : Z :=
  if String.eqb raw "" then fallback else default fallback (parse_int raw).

(** * Import and export *)
Definition remotesImportMaxBody : Z := 262144.
Definition remotesImportMaxLines : nat := 1000.
Record importSkip := mk_importSkip { is_Line : nat; is_Name : string }.
Record importError := mk_importError { ie_Line : nat; ie_Code : string; ie_Reason : string }.
Record importReport := mk_importReport { Created : list string; Skipped : list importSkip; Errors : list importError }.
(** What the import answers, with the detail for the audit log. *)
Inductive import_answer := Report (r : importReport) | Refused (status : Z) (code : string).

Class RemoteCreate (D : Type) := {
  CreateRemote_in : Remote → St D (res Remote);
  AllRemotes_in : St D (res (list Remote))
}.
Definition validationReason (e : error) : string :=
  match errors_as is_Validation e with Some (ValidationError _ _ reason) => reason | _ => "" end.

Section api.
  Context {D : Type} `{!RemoteCreate D}.
  Context (url_Parse : string → option URL) (quote : string → string) (clock : nat → Z) (unicode_lower : string → string).

Definition isHTTPURL (s : string) : bool :=
  match url_Parse s with
  | None => false
  | Some u =>
      if String.eqb (url_Scheme u) "" || String.eqb (url_Host u) "" then false
      else String.eqb (url_Scheme u) "http" || String.eqb (url_Scheme u) "https"
  end.
Record remoteSpec := mk_remoteSpec {
  sp_Name : string; sp_Ecosystem : string; sp_BaseURL : string; sp_Mode : string; sp_SyncInterval : Z; sp_ProxyURL : string
}.
Definition validateRemoteSpec (s : remoteSpec) : option error :=
  match ValidateUsername (sp_Name s) with
  | Some e => Some e
  | None =>
      if String.eqb (sp_Ecosystem s) "" then Some (ValidationError "экосистема" (sp_Ecosystem s) "пусто")
      else if negb (isHTTPURL (sp_BaseURL s)) then Some (ValidationError "base_url" (sp_BaseURL s) "ожидался http(s):// URL")
      else if negb (String.eqb (sp_Mode s) "proxy" || String.eqb (sp_Mode s) "mirror")
      then Some (ValidationError "mode" (sp_Mode s) "ожидалось proxy|mirror")
      else if sp_SyncInterval s <? 0
      then Some (ValidationError "sync_interval" (Duration_String (sp_SyncInterval s)) "не может быть отрицательным")
      else if negb (String.eqb (sp_ProxyURL s) "") && negb (String.eqb (sp_ProxyURL s) ProxyDirect)
      then ValidateProxyURL url_Parse quote (sp_ProxyURL s)
      else None
  end.
Definition spec_of (r : Remote) : remoteSpec :=
  mk_remoteSpec (rm_Name r) (rm_Ecosystem r) (rm_BaseURL r) (mode_text (rm_Mode r)) (rm_SyncInterval r) (rm_ProxyURL r).
Definition normalised (r : Remote) : Remote :=
  mk_Remote (rm_ID r) (ToLower unicode_lower (trim_space (rm_Name r))) (ToLower unicode_lower (trim_space (rm_Ecosystem r)))
    (trim_right_slash (trim_space (rm_BaseURL r))) (rm_Mode r) (rm_Enabled r) (rm_SyncInterval r) (rm_Include r) (rm_ProxyURL r)
    (rm_Eviction r) (rm_CreatedAt r).
Definition created_at (t : Z) (r : Remote) : Remote :=
  mk_Remote (rm_ID r) (rm_Name r) (rm_Ecosystem r) (rm_BaseURL r) (rm_Mode r) (rm_Enabled r) (rm_SyncInterval r) (rm_Include r)
    (rm_ProxyURL r) (rm_Eviction r) t.

(** The catalogue, the readings of the clock, and whether the scheduler was
    notified. *)
Record Api := mk_Api { api_catalogue : D; api_ticks : nat; api_notified : bool }.
Definition on_catalogue {A} : St D A → St Api A := zoom api_catalogue (λ d a, mk_Api d (api_ticks a) (api_notified a)).
Definition Now : St Api Z := λ a, (clock (api_ticks a), mk_Api (api_catalogue a) (S (api_ticks a)) (api_notified a)).
Definition notifyRemotesChanged : St Api unit := st_mod (λ a, mk_Api (api_catalogue a) (api_ticks a) true).

Definition ExportRemotes : St Api (res string) :=
  rs ← on_catalogue AllRemotes_in;
  mret match rs with Err e => Err e | Ok rs => Ok (FormatRemotes rs) end.

Definition line_failed (no : nat) (e : error) (rep : importReport) : importReport :=
  mk_importReport (Created rep) (Skipped rep) (Errors rep ++ [mk_importError no "validation_error" (validationReason e)]).
Definition line_skipped (no : nat) (name : string) (rep : importReport) : importReport :=
  mk_importReport (Created rep) (Skipped rep ++ [mk_importSkip no name]) (Errors rep).
Definition line_created (name : string) (rep : importReport) : importReport :=
  mk_importReport (Created rep ++ [name]) (Skipped rep) (Errors rep).
(** The loop over the lines; [no] is the number of the line, [seen] the names
    created by this import. *)
Fixpoint import_lines (lines : list string) (no : nat) (seen : gset string) (rep : importReport) : St Api (importReport + error) :=
  match lines with
  | [] => mret (inl rep)
  | raw :: lines =>
      match ParseRemoteLine url_Parse quote raw with
      | Err e => import_lines lines (S no) seen (line_failed no e rep)
      | Ok None => import_lines lines (S no) seen rep
      | Ok (Some rem) =>
          let rem := normalised rem in
          match validateRemoteSpec (spec_of rem) with
          | Some e => import_lines lines (S no) seen (line_failed no e rep)
          | None =>
              if decide (rm_Name rem ∈ seen) then import_lines lines (S no) seen (line_skipped no (rm_Name rem) rep)
              else
                t ← Now;
                x ← on_catalogue (CreateRemote_in (created_at t rem));
                match x with
                | Err e =>
                    if has_type is_Conflict e then import_lines lines (S no) seen (line_skipped no (rm_Name rem) rep)
                    else mret (inr e)
                | Ok _ => import_lines lines (S no) ({[rm_Name rem]} ∪ seen) (line_created (rm_Name rem) rep)
                end
          end
      end
  end.
(** The body of a request: its bytes, or those before the connection broke. *)
Inductive body := Read (data : string) | Broken (data : string).
Definition body_bytes (b : body) : string := match b with Read data | Broken data => data end.
Definition file_lines (data : string) : list string :=
  let lines := split newline data in
  match last lines with Some "" => removelast lines | _ => lines end.
Definition ImportRemotes (b : body) : St Api import_answer :=
  if remotesImportMaxBody <? Z.of_nat (String.length (body_bytes b)) (* http.MaxBytesReader *)
  then mret (Refused 413 "payload_too_large")
  else match b with
  | Broken _ => mret (Refused 400 "invalid_body")
  | Read data =>
      let lines := file_lines data in
      if (remotesImportMaxLines <? length lines)%nat then mret (Refused 400 "import_too_many")
      else
        x ← import_lines lines 1 ∅ (mk_importReport [] [] []);
        match x with
        | inr e => let '(status, code) := statusFor (Some e) in mret (Refused status code)
        | inl rep =>
            (if (0 <? length (Created rep))%nat then notifyRemotesChanged else mret tt);;
            mret (Report rep)
        end
  end.
End api.

(** * What an import reports *)
Section import_proofs.
  Context {D : Type} `{!RemoteCreate D}.
  Context (url_Parse : string → option URL) (quote : string → string) (clock : nat → Z) (unicode_lower : string → string).
  Abbreviation api := (Api (D := D)).
  Abbreviation parse := (ParseRemoteLine url_Parse quote).
  Abbreviation check r := (validateRemoteSpec url_Parse quote (spec_of r)).

(** What the text of a line amounts to: nothing, a refusal, or an upstream that
    may be created. *)
Definition judge (raw : string) : option (error + Remote) :=
  match parse raw with
  | Err e => Some (inl e)
  | Ok None => None
  | Ok (Some rem) => Some (match check (normalised unicode_lower rem) with Some e => inl e | None => inr (normalised unicode_lower rem) end)
  end.
Fixpoint refused (no : nat) (lines : list string) : list importError :=
  match lines with
  | [] => []
  | raw :: lines =>
      match judge raw with
      | Some (inl e) => mk_importError no "validation_error" (validationReason e) :: refused (S no) lines
      | _ => refused (S no) lines
      end
  end.
Fixpoint accepted (lines : list string) : list Remote :=
  match lines with
  | [] => []
  | raw :: lines => match judge raw with Some (inr rem) => rem :: accepted lines | _ => accepted lines end
  end.
Lemma import_line raw lines no seen rep :
  import_lines url_Parse quote clock unicode_lower (raw :: lines) no seen rep =
  match judge raw with
  | None => import_lines url_Parse quote clock unicode_lower lines (S no) seen rep
  | Some (inl e) => import_lines url_Parse quote clock unicode_lower lines (S no) seen (line_failed no e rep)
  | Some (inr rem) =>
      if decide (rm_Name rem ∈ seen) then import_lines url_Parse quote clock unicode_lower lines (S no) seen (line_skipped no (rm_Name rem) rep)
      else
        t ← Now clock;
        x ← on_catalogue (CreateRemote_in (created_at t rem));
        match x with
        | Err e =>
            if has_type is_Conflict e then import_lines url_Parse quote clock unicode_lower lines (S no) seen (line_skipped no (rm_Name rem) rep)
            else mret (inr e)
        | Ok _ => import_lines url_Parse quote clock unicode_lower lines (S no) ({[rm_Name rem]} ∪ seen) (line_created (rm_Name rem) rep)
        end
  end.
Proof. unfold judge. simpl. destruct (parse raw) as [[rem|]|e]; [|done..]. by destruct (check (normalised unicode_lower rem)). Qed.

(** The report after some lines. *)
Record reported (no : nat) (lines : list string) (rep rep' : importReport) : Prop := {
  rp_errors : Errors rep' = Errors rep ++ refused no lines;
  rp_names : Created rep' ++ (is_Name <$> Skipped rep') ≡ₚ (Created rep ++ (is_Name <$> Skipped rep)) ++ (rm_Name <$> accepted lines);
  rp_nodup : NoDup (Created rep')
}.
Lemma reported_skip no raw lines rem rep rep' : judge raw = Some (inr rem) →
  reported (S no) lines (line_skipped no (rm_Name rem) rep) rep' → reported no (raw :: lines) rep rep'.
Proof.
  intros Hj [H1 H2 H3]. split; simpl; rewrite ?Hj; [done| |done]. rewrite H2. simpl. rewrite fmap_app. simpl. solve_Permutation.
Qed.
Lemma import_lines_report lines no seen rep a rep' a' :
  import_lines url_Parse quote clock unicode_lower lines no seen rep a = (inl rep', a') →
  (∀ n, n ∈ Created rep → n ∈ seen) → NoDup (Created rep) → reported no lines rep rep'.
Proof.
  revert no seen rep a. induction lines as [|raw lines IH]; intros no seen rep a Hrun Hcr Hnd.
  { injection Hrun as <- _. split; simpl; by rewrite ?(right_id_L [] (++)). }
  rewrite import_line in Hrun. destruct (judge raw) as [[e|rem]|] eqn:Hj.
  - apply IH in Hrun as [H1 H2 H3]; [|done..]. split; simpl; rewrite ?Hj; [|done..]. rewrite H1. simpl. by rewrite <- (assoc_L (++)).
  - destruct (decide (rm_Name rem ∈ seen)) as [Hin|Hin]; [apply IH in Hrun; [|done..]; by eapply reported_skip|].
    unfold mbind, st_bind in Hrun. destruct (Now clock a) as [t a1].
    destruct (on_catalogue (CreateRemote_in (created_at t rem)) a1) as [[r'|e] a2].
    + apply IH in Hrun as [H1 H2 H3]; simpl in *.
      * split; simpl; rewrite ?Hj; [done| |done]. rewrite H2. simpl. solve_Permutation.
      * set_solver.
      * apply NoDup_app. split_and!; [done|set_solver|by apply NoDup_singleton].
    + destruct (has_type is_Conflict e); [|done]. apply IH in Hrun; [|done..]. by eapply reported_skip.
  - apply IH in Hrun as [H1 H2 H3]; [|done..]. split; simpl; by rewrite ?Hj.
Qed.

(** The report of an import accounts for the file. Its errors are exactly the
    lines that the parser or the checks refuse, in order and with their numbers,
    whatever the catalogue holds; every line that they accept is reported once, as
    created or as skipped; and no name is created twice. *)
Theorem import_accounts data a rep a' : ImportRemotes url_Parse quote clock unicode_lower (Read data) a = (Report rep, a') →
  let lines := file_lines data in
  Z.of_nat (String.length data) <= remotesImportMaxBody ∧ (length lines <= remotesImportMaxLines)%nat ∧ Errors rep = refused 1 lines ∧
  Created rep ++ (is_Name <$> Skipped rep) ≡ₚ rm_Name <$> accepted lines ∧ NoDup (Created rep) ∧
  (Created rep ≠ [] → api_notified a' = true).
Proof.
  intros Hrun lines. unfold ImportRemotes in Hrun. cbn [body_bytes] in Hrun. fold lines in Hrun.
  destruct (Z.ltb_spec remotesImportMaxBody (Z.of_nat (String.length data))) as [|Hbody]; [done|].
  destruct (Nat.ltb_spec remotesImportMaxLines (length lines)) as [|Hle]; [done|]. unfold mbind, st_bind in Hrun.
  destruct (import_lines _ _ _ _ lines 1 ∅ _ a) as [[rep1|e] a1] eqn:Hi; [|by destruct (statusFor (Some e))].
  assert (rep1 = rep ∧ (Created rep ≠ [] → api_notified a' = true)) as [-> Hn].
  { destruct (Created rep1) as [|n l] eqn:Hc; simpl in Hrun; injection Hrun as <- <-; (split; [done|]); [by rewrite Hc|done]. }
  apply import_lines_report in Hi as [H1 H2 H3]; [|simpl; set_solver|by constructor]. simpl in *. done.
Qed.
End import_proofs.

(** * An export restores the upstreams of another instance *)
Class RemoteLaws (D : Type) `{!RemoteCreate D} := {
  remote_rows : D → list Remote;
  remotes_up : D → Prop;
  CreateRemote_new r d : remotes_up d → rm_Name r ∉ (rm_Name <$> remote_rows d) → in_int64 (rm_SyncInterval r) →
    (∃ k, rm_SyncInterval r = k * second) → Forall (λ p, no_sep comma p = true ∧ p ≠ "") (rm_Include r) →
    let x := CreateRemote_in r d in
    is_ok x.1 = true ∧ remotes_up x.2 ∧
    ∃ row, remote_rows x.2 = remote_rows d ++ [row] ∧ portable row = portable r;
  AllRemotes_rows d : remotes_up d → AllRemotes_in d = (Ok (remote_rows d), (AllRemotes_in d).2) ∧
    remote_rows (AllRemotes_in d).2 = remote_rows d
}.
Section restore.
  Context {D : Type} `{!RemoteCreate D} `{!RemoteLaws D}.
  Context (url_Parse : string → option URL) (quote : string → string) (clock : nat → Z) (unicode_lower : string → string).
  Abbreviation api := (Api (D := D)).

(** An upstream that the API would accept as it is, and whose texts can be
    written. *)
Record restorable (r : Remote) : Prop := {
  re_text : exportable url_Parse quote r;
  re_normal : normalised unicode_lower r = r;
  re_valid : validateRemoteSpec url_Parse quote (spec_of r) = None
}.
Lemma restorable_judged r : restorable r → judge url_Parse quote unicode_lower (FormatRemote r) = Some (inr (portable r)).
Proof.
  intros [Ht Hn Hv]. unfold judge. rewrite (line_roundtrip _ _ r Ht).
  assert (normalised unicode_lower (portable r) = portable r) as ->.
  { unfold normalised, portable in *. destruct r. simpl in *. by injection Hn as -> -> ->. }
  change (spec_of (portable r)) with (spec_of r). by rewrite Hv.
Qed.
Lemma import_restores rs no seen rep (a : api) : Forall restorable rs → NoDup (rm_Name <$> rs) → remotes_up (api_catalogue a) →
  (∀ r, r ∈ rs → (rm_Name r ∉ (rm_Name <$> remote_rows (api_catalogue a))) ∧ (rm_Name r ∉ seen)) →
  ∃ a', import_lines url_Parse quote clock unicode_lower (FormatRemote <$> rs) no seen rep a =
    (inl (mk_importReport (Created rep ++ (rm_Name <$> rs)) (Skipped rep) (Errors rep)), a') ∧
  portable <$> remote_rows (api_catalogue a') = (portable <$> remote_rows (api_catalogue a)) ++ (portable <$> rs).
Proof.
  intros Hrs. revert no seen rep a. induction Hrs as [|r rs Hr Hrs IH]; intros no seen rep a Hnd Hup Hfree.
  { exists a. simpl. rewrite !(right_id_L [] (++)). by destruct rep. }
  rewrite fmap_cons, import_line, (restorable_judged r Hr). apply NoDup_cons in Hnd as [Hnr Hnd].
  destruct (Hfree r) as [Hrow Hseen]; [by left|]. rewrite decide_False by done.
  unfold mbind, st_bind, Now, on_catalogue, zoom. simpl. set (t := clock (api_ticks a)).
  pose proof (re_text r Hr) as Hx.
  destruct (CreateRemote_new (created_at t (portable r)) (api_catalogue a)) as (Hok & Hup' & row & Hrows & Hport); [done..| | | |].
  - apply (ex_interval _ _ r Hx).
  - apply (ex_interval _ _ r Hx).
  - eapply Forall_impl; [apply (ex_include _ _ r Hx)|]. by intros p (? & _ & ? & _).
  - destruct (CreateRemote_in _ _) as [[r1|e] d]; [|done]. simpl in *.
    assert (rm_Name row = rm_Name r) as Hname by (by injection Hport).
    destruct (IH (S no) ({[rm_Name (portable r)]} ∪ seen) (line_created (rm_Name (portable r)) rep) (mk_Api d (S (api_ticks a)) (api_notified a)))
      as (a' & Hrun & Hfin); [done..| |].
    + intros r' Hr'. simpl. destruct (Hfree r') as [Hrow' Hseen']; [by right|].
      assert (rm_Name r' ≠ rm_Name r) by (intros He; apply Hnr; rewrite <- He; by apply list_elem_of_fmap_2).
      rewrite Hrows, fmap_app, elem_of_app. simpl. rewrite Hname. set_solver.
    + exists a'. simpl in *. rewrite Hrun, Hfin, Hrows, fmap_app, <- !(assoc_L (++)). simpl. rewrite Hport. done.
Qed.

Lemma export_lines rs : Forall restorable rs → file_lines (FormatRemotes rs) =
  ["# khrazhevnik remotes export v1"; "# name|ecosystem|base_url|mode|proxy|enabled|sync_interval|include"] ++ (FormatRemote <$> rs).
Proof.
  intros Hrs. unfold file_lines. rewrite (FormatRemotes_lines url_Parse quote) by (eapply Forall_impl; [exact Hrs|]; by intros r []).
  rewrite (assoc_L (++)), last_snoc. by rewrite removelast_last.
Qed.
(** C27: an export restores the upstreams. The file that an instance exports,
    imported into an instance that has none, creates them all: nothing is skipped,
    nothing is refused, and the catalogue then holds the same upstreams in the same
    order, but for their numbers, their times of creation and their eviction
    policies. The upstreams have to be [restorable]: their texts hold no bar and no
    line break, and they pass the checks of the API in their normal form; there are
    at most 998 of them, and their file has at most 256 KiB. A larger file is
    refused as a whole with 413. *)
Theorem export_import_restores (src dst : api) : remotes_up (api_catalogue src) → remotes_up (api_catalogue dst) →
  remote_rows (api_catalogue dst) = [] →
  let rs := remote_rows (api_catalogue src) in
  Forall restorable rs → NoDup (rm_Name <$> rs) → (length rs <= 998)%nat →
  ∃ text, (ExportRemotes src).1 = Ok text ∧
    (remotesImportMaxBody < Z.of_nat (String.length text) →
      ImportRemotes url_Parse quote clock unicode_lower (Read text) dst = (Refused 413 "payload_too_large", dst)) ∧
    (Z.of_nat (String.length text) <= remotesImportMaxBody → ∃ dst',
      ImportRemotes url_Parse quote clock unicode_lower (Read text) dst = (Report (mk_importReport (rm_Name <$> rs) [] []), dst') ∧
      portable <$> remote_rows (api_catalogue dst') = portable <$> rs).
Proof.
  intros Hsrc Hdst Hempty rs Hrs Hnd Hlen. exists (FormatRemotes rs).
  destruct (AllRemotes_rows (api_catalogue src) Hsrc) as [Hall _].
  destruct (import_restores rs 3 ∅ (mk_importReport [] [] []) dst Hrs Hnd Hdst) as (a' & Hrun & Hfin).
  { intros r Hr. rewrite Hempty. simpl. set_solver. }
  assert (import_lines url_Parse quote clock unicode_lower (file_lines (FormatRemotes rs)) 1 ∅ (mk_importReport [] [] []) dst =
    (inl (mk_importReport (rm_Name <$> rs) [] []), a')) as Hi.
  { rewrite export_lines by done. etransitivity; [|exact Hrun]. simpl app. by rewrite !import_line. }
  rewrite Hempty in Hfin. simpl in Hfin.
  split_and!.
  - unfold ExportRemotes, on_catalogue, zoom, mbind, st_bind. by rewrite Hall.
  - intros Hbig. unfold ImportRemotes. cbn [body_bytes]. by rewrite (proj2 (Z.ltb_lt _ _) Hbig).
  - intros Hfits. exists (if (0 <? length (rm_Name <$> rs))%nat then mk_Api (api_catalogue a') (api_ticks a') true else a').
    split; [|by destruct (0 <? length (rm_Name <$> rs))%nat].
    unfold ImportRemotes. cbn [body_bytes]. rewrite (proj2 (Z.ltb_ge _ _) Hfits). rewrite (proj2 (Nat.ltb_ge _ _)).
    2:{ rewrite export_lines by done. rewrite length_app, length_fmap. simpl. unfold remotesImportMaxLines. lia. }
    unfold mbind, st_bind. rewrite Hi. cbn [Created]. by destruct (0 <? length (rm_Name <$> rs))%nat.
Qed.
End restore.
