(* ===== verification/RemotesDemo.v ===== *)
(** The export and the import of upstreams over the SQLite catalogue: the
    interface of RemotesIO discharged, and its theorems at a concrete file. *)
From S2P Require Import Prelude GoStr Domain Duration Sqlite SqliteLaws SqliteCatalog SqliteSchema RemoteText RemotesIO AuthDemo.
Local Open Scope Z_scope.

#[export] Instance DB_RemoteCreate : RemoteCreate DB := { CreateRemote_in := CreateRemote; AllRemotes_in := Remotes }.
Definition scan_all (t : tables) : list Remote := (λ ir, scanRemote ir.1 ir.2) <$> by_id (tb_remotes t).
Lemma call_healthy {A} (q : query A) d : always_runs d → isBusy (match (q (tabs d)).1 with Err e => e | Ok _ => ErrNoRows end) = false →
  call (stmt q) d = ((q (tabs d)).1, mk_DB (env d) (ctx_Err d) (S (stmts d)) (q (tabs d)).2).
Proof.
  intros Hd Hb. unfold call. simpl. unfold mbind, st_bind, stmt. rewrite (Hd (stmts d)). destruct (q (tabs d)) as [[a|e] t]; [done|].
  simpl in *. by rewrite Hb.
Qed.
Lemma stored_portable id r : in_int64 (rm_SyncInterval r) → (∃ k, rm_SyncInterval r = k * second) → include_ok (rm_Include r) →
  portable (scanRemote id (remote_row_of r)) = portable r.
Proof.
  intros Hi [k Hk] Hinc. rewrite remote_row_stored by done. unfold portable, stored_remote, stored_interval. simpl.
  rewrite Hk, Z.quot_mul by done. done.
Qed.
#[export] Instance DB_RemoteLaws : RemoteLaws DB.
Proof.
  refine {| remote_rows d := scan_all (tabs d); remotes_up := always_runs |}.
  - intros r d Hd Hnew Hi Hk Hinc. unfold CreateRemote_in, DB_RemoteCreate, CreateRemote, mbind, st_bind.
    assert (taken mr_name (rm_Name r) 0 (tb_remotes (tabs d)) = false) as Htaken.
    { apply bool_decide_eq_false. intros (i & x & Hx & _ & Hname). apply Hnew. unfold scan_all. rewrite <- list_fmap_compose.
      apply list_elem_of_fmap. exists (i, x). split; [simpl; by rewrite Hname|]. by apply by_id_elem. }
    assert (sqlRemoteInsert (remote_row_of r) (tabs d) = (Ok (next_rowid (tb_remotes (tabs d))),
      set_remotes_tab (<[next_rowid (tb_remotes (tabs d)) := remote_row_of r]> (tb_remotes (tabs d))) (tabs d))) as Hq.
    { unfold sqlRemoteInsert. simpl mr_name. by rewrite Htaken. }
    rewrite call_healthy by (try done; by rewrite Hq). rewrite Hq. simpl. split_and!; [done|done|].
    exists (scanRemote (next_rowid (tb_remotes (tabs d))) (remote_row_of r)). split.
    + unfold scan_all. simpl. by rewrite by_id_append, fmap_app.
    + apply stored_portable; [done|done|]. split; [eapply Forall_impl; [exact Hinc|]; by intros p [? _]|].
      intros He. rewrite He in Hinc. by apply Forall_cons in Hinc as [[_ ?] _].
  - intros d Hd. unfold AllRemotes_in, DB_RemoteCreate, Remotes, mbind, st_bind. by rewrite call_healthy.
Defined.

(** ** A file *)

(** [http://host/...] and [https://host/...]. *)
Definition demo_url (s : string) : option URL :=
  match split "/" s with
  | scheme :: "" :: host :: _ => Some (mk_URL (trim_suffix scheme ":") false host)
  | _ => None
  end.
Definition quotation_mark : ascii := byte 34.
Definition in_quotes (s : string) : string := String quotation_mark (s +:+ String quotation_mark "").
Definition upstreams : list Remote :=
  [mk_Remote 0 "debian" "apt" "https://deb.debian.org/debian" ModeMirror true (6 * hour) ["stable"; "main"] "" None 0;
   mk_Remote 0 "fedora" "rpm-md" "https://dl.fedoraproject.org" ModeProxy false 0 [] "direct" None 0].
Abbreviation api := (Api (D := DB)).
Definition at_second (n : nat) : Z := from_unix (1700000000 + Z.of_nat n).
Definition empty_api : api := mk_Api (mk_DB (λ _, Runs) (λ _, None) 0 empty_tables) 0 false.
Definition full_api : api :=
  mk_Api (foldl (λ d r, (CreateRemote r d).2) (api_catalogue empty_api) upstreams) 0 false.
(** The demonstrations are in ASCII. *)
Definition same_rune (r : string) : string := r.
Definition import (data : string) := ImportRemotes demo_url in_quotes at_second same_rune (Read data).
Definition a_file : string := "# c" +:+ nl +:+ "Debian|apt|http://h/|proxy||true|90s|a, b" +:+ nl +:+ "debian|apt|http://h|proxy||true||" +:+ nl +:+
  "x|apt|ftp://h|proxy||true||" +:+ nl +:+ "y|apt" +:+ nl +:+ nl.
Definition a_report : importReport :=
  mk_importReport ["debian"] [mk_importSkip 3 "debian"]
    [mk_importError 4 "validation_error" "ожидался http(s):// URL"; mk_importError 5 "validation_error" "ожидалось 8 полей, получено 2"].
Lemma import_accounts_witness : (import a_file empty_api).1 = Report a_report ∧
  Errors a_report = refused demo_url in_quotes same_rune 1 (file_lines a_file) ∧ api_notified (import a_file empty_api).2 = true.
Proof.
  assert ((import a_file empty_api).1 = Report a_report) as Hr by (vm_compute; reflexivity). split; [exact Hr|].
  destruct (import_accounts demo_url in_quotes at_second same_rune a_file empty_api a_report (import a_file empty_api).2) as (_ & _ & He & _ & _ & Hn).
  - exact (pair_eq _ _ _ Hr eq_refl).
  - split; [exact He|]. apply Hn. discriminate.
Defined.

Lemma full_runs : always_runs (api_catalogue full_api).
Proof. intros n. vm_compute. reflexivity. Qed.
Lemma empty_runs : always_runs (api_catalogue empty_api).
Proof. done. Qed.
Definition full_rows : list Remote :=
  [mk_Remote 1 "debian" "apt" "https://deb.debian.org/debian" ModeMirror true (6 * hour) ["stable"; "main"] "" None (from_unix (unix 0));
   mk_Remote 2 "fedora" "rpm-md" "https://dl.fedoraproject.org" ModeProxy false 0 [] "direct" None (from_unix (unix 0))].
Lemma full_rows_eq : remote_rows (api_catalogue full_api) = full_rows.
Proof. vm_compute. reflexivity. Qed.
Lemma full_restorable : Forall (restorable demo_url in_quotes same_rune) full_rows.
Proof.
  assert (∀ s, no_sep bar s && no_sep newline s = true → clean s) as Hclean by (intros s [? ?]%andb_true_iff; done).
  repeat (apply Forall_cons; split); [| |by apply Forall_nil]; (split; [split|vm_compute; reflexivity|vm_compute; reflexivity]).
  1, 7: vm_compute; reflexivity.
  1, 6: split; [done|apply Hclean; vm_compute; reflexivity].
  1, 5: split; [done|apply Hclean; vm_compute; reflexivity].
  1, 4: split; [vm_compute; reflexivity|apply Hclean; vm_compute; reflexivity].
  1: split; [vm_compute; split; discriminate|by exists 21600].
  2: split; [vm_compute; split; discriminate|by exists 0].
  all: repeat constructor; try (apply Hclean); try done; vm_compute; reflexivity.
Qed.
Lemma export_import_restores_witness : ∃ text dst', (ExportRemotes full_api).1 = Ok text ∧
  import text empty_api = (Report (mk_importReport ["debian"; "fedora"] [] []), dst') ∧
  portable <$> remote_rows (api_catalogue dst') = portable <$> upstreams.
Proof.
  destruct (export_import_restores demo_url in_quotes at_second same_rune full_api empty_api) as (text & H1 & _ & H2).
  - exact full_runs.
  - exact empty_runs.
  - vm_compute. reflexivity.
  - rewrite full_rows_eq. exact full_restorable.
  - rewrite full_rows_eq. apply (bool_decide_unpack (NoDup ["debian"; "fedora"])). vm_compute. exact I.
  - rewrite full_rows_eq. vm_compute. lia.
  - assert ((ExportRemotes full_api).1 = Ok (FormatRemotes full_rows)) as Hx by (vm_compute; reflexivity).
    rewrite Hx in H1. injection H1 as <-. destruct H2 as (dst' & H2 & H3); [vm_compute; discriminate|].
    rewrite full_rows_eq in H2, H3. exists (FormatRemotes full_rows), dst'. split; [exact Hx|]. split; [exact H2|exact H3].
Defined.
