(* ===== verification/TaskRegistry.v ===== *)
(** The registry of background tasks (internal/core/web/taskregistry.go): tasks and
    their progress, the bound on how many run, the exclusion of two tasks with the
    same key, the claims of other starters, and the history.

    A task is an object that the registry, its goroutine and those who poll it
    share: [heap] holds every task made, and the maps hold their numbers. The
    goroutines are processes; [step] is one atomic section (a section under the
    mutex of the registry or of a task, an operation on the semaphore). *)
From S2P Require Import Prelude GoStr Domain Port RemotesIO.
From Stdlib Require Import SpecFloat.
Local Open Scope Z_scope.

Inductive TaskState := taskRunning | taskSucceeded | taskFailed.
#[global] Instance TaskState_eq_dec : EqDecision TaskState.
Proof. solve_decision. Defined.
Definition maxTaskLogs : nat := 50.
Definition maxTaskHistory : nat := 1000.
Definition minLogInterval : Z := 500000000.

Record Task := mk_Task {
  tk_ID : string; tk_Kind : string; tk_Label : string;
  tk_state : TaskState; tk_phase : string; tk_current : string; tk_processed : Z; tk_total : Z;
  tk_errText : string; tk_logs : list string; tk_lastLogAt : Z; tk_lastSample : Z; tk_lastBytes : Z;
  tk_speedBps : spec_float; tk_startedAt : Z; tk_finishedAt : Z
}.
Definition task_key (t : Task) : string := tk_Kind t +:+ "|" +:+ tk_Label t.

(** * Numbers as text *)

(** [%.1f] of [n / 2 ^ k]: the nearest tenth, ties to the even one. *)
Definition round_div (a b : Z) : Z :=
  let q := a / b in let r := a mod b in
  if (2 * r <? b) || ((2 * r =? b) && Z.even q) then q else q + 1.
Definition float_value (x : spec_float) : Z * Z :=
  match x with S754_finite s m e => ((if s then Zneg m else Zpos m), e) | _ => (0, 0) end.
Definition one_decimal (n k : Z) : string :=
  let '(m, e) := float_value (float64 n) in
  let tenths := round_div (10 * m * 2 ^ Z.max 0 e) (2 ^ (k + Z.max 0 (- e))) in
  fmt_int (tenths / 10) +:+ "." +:+ fmt_int (tenths mod 10).
Definition humanBytes (n : Z) : string :=
  if 2 ^ 30 <=? n then one_decimal n 30 +:+ " GiB"
  else if 2 ^ 20 <=? n then one_decimal n 20 +:+ " MiB"
  else if 2 ^ 10 <=? n then one_decimal n 10 +:+ " KiB"
  else fmt_int n +:+ " B".
Example human_bytes : humanBytes 0 = "0 B" ∧ humanBytes 1536 = "1.5 KiB" ∧ humanBytes (5 * 2 ^ 30) = "5.0 GiB" ∧
  humanBytes 1088 = "1.1 KiB" ∧ humanBytes 2097151 = "2.0 MiB" ∧ humanBytes 1075 = "1.0 KiB".
Proof. vm_compute. done. Qed.
(** [Duration.Seconds] *)
Definition Seconds (d : Z) : spec_float :=
  SFadd 53 1024 (float64 (Z.quot d second)) (SFdiv 53 1024 (float64 (Z.rem d second)) (float64 1000000000)).

(** * A task *)
Definition appendLogLocked (line : string) (t : Task) : Task :=
  let logs := tk_logs t ++ [line] in
  let logs := if (maxTaskLogs <? length logs)%nat then drop (length logs - maxTaskLogs) logs else logs in
  mk_Task (tk_ID t) (tk_Kind t) (tk_Label t) (tk_state t) (tk_phase t) (tk_current t) (tk_processed t) (tk_total t) (tk_errText t)
    logs (tk_lastLogAt t) (tk_lastSample t) (tk_lastBytes t) (tk_speedBps t) (tk_startedAt t) (tk_finishedAt t).
Definition logLine := appendLogLocked.
Definition half : spec_float := SFdiv 53 1024 (float64 1) (float64 2).
Definition update (phase current : string) (processed total now : Z) (t : Task) : Task :=
  match tk_state t with
  | taskRunning =>
      let dt := time_Sub now (tk_lastSample t) in
      let speed :=
        if (0 <? dt) && (tk_lastBytes t <=? processed) then
          let inst := SFdiv 53 1024 (float64 (wrap64 (processed - tk_lastBytes t))) (Seconds dt) in
          if SFeqb (tk_speedBps t) (float64 0) then inst
          else SFadd 53 1024 (SFmul 53 1024 half (tk_speedBps t)) (SFmul 53 1024 half inst)
        else tk_speedBps t in
      let log := minLogInterval <=? time_Sub now (tk_lastLogAt t) in
      let t := mk_Task (tk_ID t) (tk_Kind t) (tk_Label t) (tk_state t) phase current processed total (tk_errText t)
        (tk_logs t) (if log then now else tk_lastLogAt t) now processed speed (tk_startedAt t) (tk_finishedAt t) in
      if log then appendLogLocked ("[" +:+ phase +:+ "] " +:+ current +:+ " (" +:+ humanBytes processed +:+ " / " +:+ humanBytes total +:+ ")") t
      else t
  | _ => t
  end.
Definition finished (st : TaskState) (err : string) (now : Z) (t : Task) : Task :=
  mk_Task (tk_ID t) (tk_Kind t) (tk_Label t) st (tk_phase t) (tk_current t) (tk_processed t) (tk_total t) err
    (tk_logs t) (tk_lastLogAt t) (tk_lastSample t) (tk_lastBytes t) (tk_speedBps t) (tk_startedAt t) now.
Definition finishSuccess (now : Z) (t : Task) : Task :=
  match tk_state t with
  | taskRunning => appendLogLocked "задача завершена успешно" (finished taskSucceeded (tk_errText t) now t)
  | _ => t
  end.
Definition finishError (err : string) (now : Z) (t : Task) : Task :=
  match tk_state t with
  | taskRunning => appendLogLocked ("задача завершена ошибкой: " +:+ err) (finished taskFailed err now t)
  | _ => t
  end.
(** [Snapshot]: the percentage; the rest of a snapshot is the fields. *)
Definition percent (t : Task) : spec_float :=
  if 0 <? tk_total t then
    let p := SFmul 53 1024 (SFdiv 53 1024 (float64 (tk_processed t)) (float64 (tk_total t))) (float64 100) in
    if SFltb (float64 100) p then float64 100 else p
  else float64 0.

(** * The registry *)

(** Where the goroutine of a task is: it runs the function; the task is finished;
    the place in the semaphore is given back; the key is given back. *)
Inductive gphase := GRuns | GFinished | GFreed | GDone.
#[global] Instance gphase_eq_dec : EqDecision gphase. Proof. solve_decision. Defined.
Section registry.
  (** A clock counts nanoseconds from Go's zero time. *)
  Context (workers : nat) (clock : nat → Z) (UUID4 : nat → res string) (nanos : nat → Z).
  (** The order in which a map is walked, and the text of an error. *)
  Context (range : gmap string nat → list (string * nat)) (error_text : error → string).

Record TaskRegistry := mk_TaskRegistry {
  heap : list (Task * gphase);
  tasks : gmap string nat;
  active : gmap string nat;
  claims : gset string;
  sem : nat;                 (* places taken *)
  cancelled : bool;
  tr_ticks : nat;
  tr_rands : nat
}.
Definition NewTaskRegistry : TaskRegistry := mk_TaskRegistry [] ∅ ∅ ∅ 0 false 0 0.
(** [workers < 1] is replaced by one. *)
Definition places : nat := if (workers <? 1)%nat then 1 else workers.
Definition set_heap h r := mk_TaskRegistry h (tasks r) (active r) (claims r) (sem r) (cancelled r) (tr_ticks r) (tr_rands r).
Definition set_tasks m r := mk_TaskRegistry (heap r) m (active r) (claims r) (sem r) (cancelled r) (tr_ticks r) (tr_rands r).
Definition set_keys a c r := mk_TaskRegistry (heap r) (tasks r) a c (sem r) (cancelled r) (tr_ticks r) (tr_rands r).
Definition set_sem n r := mk_TaskRegistry (heap r) (tasks r) (active r) (claims r) n (cancelled r) (tr_ticks r) (tr_rands r).
Definition set_cancelled r := mk_TaskRegistry (heap r) (tasks r) (active r) (claims r) (sem r) true (tr_ticks r) (tr_rands r).
Definition clock_now (r : TaskRegistry) : Z * TaskRegistry :=
  (clock (tr_ticks r), mk_TaskRegistry (heap r) (tasks r) (active r) (claims r) (sem r) (cancelled r) (S (tr_ticks r)) (tr_rands r)).
(** [strings.ReplaceAll(u, "-", "")] *)
Fixpoint without_dashes (s : string) : string :=
  match s with EmptyString => EmptyString | String c s => if Ascii.eqb c "-" then without_dashes s else String c (without_dashes s) end.
Definition pad8 (s : string) : string := String.substring 0 (8 - String.length s) "00000000" +:+ s.
Definition newTaskID (kind : string) (r : TaskRegistry) : string * TaskRegistry :=
  (match UUID4 (tr_rands r) with
   | Err _ => kind +:+ "-" +:+ pad8 (fmt_int (nanos (tr_rands r) mod 100000000))
   | Ok u => kind +:+ "-" +:+ String.substring 0 8 (without_dashes u)
   end,
   mk_TaskRegistry (heap r) (tasks r) (active r) (claims r) (sem r) (cancelled r) (tr_ticks r) (S (tr_rands r))).

(** [evictHistoryLocked] *)
Definition state_of_task (i : nat) (r : TaskRegistry) : option TaskState := (λ tg, tk_state tg.1) <$> heap r !! i.
Definition older (i j : nat) (r : TaskRegistry) : bool :=
  match heap r !! i, heap r !! j with
  | Some (t, _), Some (u, _) =>
      (tk_startedAt t <? tk_startedAt u) || (tk_startedAt t =? tk_startedAt u) && bool_decide (String.compare (tk_ID t) (tk_ID u) = Lt)
  | _, _ => false
  end.
Definition oldest_finished (r : TaskRegistry) : option nat :=
  foldl (λ oldest kv,
    if bool_decide (state_of_task kv.2 r = Some taskRunning) then oldest
    else match oldest with None => Some kv.2 | Some o => if older kv.2 o r then Some kv.2 else oldest end)
    None (range (tasks r)).
Fixpoint evict_loop (fuel : nat) (r : TaskRegistry) : TaskRegistry :=
  match fuel with
  | O => r
  | S fuel =>
      if (maxTaskHistory <? size (tasks r))%nat then
        match oldest_finished r with
        | None => r
        | Some i =>
            match heap r !! i with
            | Some (t, _) => evict_loop fuel (set_tasks (delete (tk_ID t) (tasks r)) r)
            | None => r
            end
        end
      else r
  end.
(** Each round removes a task. *)
Definition evictHistoryLocked (r : TaskRegistry) : TaskRegistry := evict_loop (size (tasks r)) r.

Definition new_task (id kind label : string) (now : Z) : Task :=
  mk_Task id kind label taskRunning "" "" 0 0 "" [] 0 0 0 (float64 0) now 0.
Definition key_of (kind label : string) : string := kind +:+ "|" +:+ label.
Definition Start (kind label : string) (r : TaskRegistry) : result error string * TaskRegistry :=
  let key := key_of kind label in
  match active r !! key with
  | Some _ => (Err ErrTaskDuplicate, r)
  | None =>
      if decide (key ∈ claims r) then (Err ErrTaskDuplicate, r)
      else if (places <=? sem r)%nat then (Err ErrTaskLimit, r)
      else
        let '(id, r) := newTaskID kind (set_sem (S (sem r)) r) in
        let '(now, r) := clock_now r in
        let i := length (heap r) in
        let r := set_heap (heap r ++ [(new_task id kind label now, GRuns)]) r in
        let r := evictHistoryLocked (set_tasks (<[id := i]> (tasks r)) r) in
        (Ok id, set_keys (<[key := i]> (active r)) ({[key]} ∪ claims r) r)
  end.
Definition Claim (kind label : string) (r : TaskRegistry) : bool * TaskRegistry :=
  let key := key_of kind label in
  match active r !! key with
  | Some _ => (false, r)
  | None => if decide (key ∈ claims r) then (false, r) else (true, set_keys (active r) ({[key]} ∪ claims r) r)
  end.
Definition Release (kind label : string) (r : TaskRegistry) : TaskRegistry :=
  set_keys (active r) (claims r ∖ {[key_of kind label]}) r.
Definition HasActive (r : TaskRegistry) : bool := (0 <? size (active r))%nat.
Definition Get (id : string) (r : TaskRegistry) : option Task :=
  i ← tasks r !! id; fst <$> heap r !! i.
(** [Snapshots]: the tasks in the order of their start. *)
Definition task_le (t u : Task) : Prop :=
  tk_startedAt t < tk_startedAt u ∨ tk_startedAt t = tk_startedAt u ∧ str_le (tk_ID t) (tk_ID u).
#[global] Instance task_le_dec t u : Decision (task_le t u).
Proof. unfold task_le. apply _. Defined.
Definition Snapshots (r : TaskRegistry) : list Task :=
  merge_sort task_le (omap (λ kv, fst <$> heap r !! kv.2) (range (tasks r))).

(** ** The steps *)
Inductive event :=
| EStart (kind label : string) | EClaim (kind label : string) | ERelease (kind label : string)
| EUpdate (i : nat) (phase current : string) (processed total : Z) | ELog (i : nat) (line : string)
| EReturn (i : nat) (err : option error)  (* the function returns, or panics *)
| EFree (i : nat) | EForget (i : nat)     (* what the goroutine defers *)
| ECancel.
Definition alter_task (i : nat) (f : Task → Task) (r : TaskRegistry) : TaskRegistry :=
  match heap r !! i with Some (t, g) => set_heap (<[i := (f t, g)]> (heap r)) r | None => r end.
Definition set_gphase (i : nat) (g : gphase) (r : TaskRegistry) : TaskRegistry :=
  match heap r !! i with Some (t, _) => set_heap (<[i := (t, g)]> (heap r)) r | None => r end.
Definition finish_task (i : nat) (err : option error) (r : TaskRegistry) : TaskRegistry :=
  let '(now, r) := clock_now r in
  match err with
  | None => alter_task i (finishSuccess now) r
  | Some e =>
      let is_cancel := has_type (is_text "context canceled") e in
      let r := if is_cancel && cancelled r then alter_task i (logLine "задача отменена при остановке сервиса") r else r in
      alter_task i (finishError (error_text e) now) r
  end.
Definition step (e : event) (r : TaskRegistry) : option TaskRegistry :=
  match e with
  | EStart kind label => Some (Start kind label r).2
  | EClaim kind label => Some (Claim kind label r).2
  | ERelease kind label => Some (Release kind label r)
  | EUpdate i phase current processed total =>
      match heap r !! i with
      | Some (_, GRuns) => let '(now, r) := clock_now r in Some (alter_task i (update phase current processed total now) r)
      | _ => None
      end
  | ELog i line => match heap r !! i with Some (_, GRuns) => Some (alter_task i (logLine line) r) | _ => None end
  | EReturn i err => match heap r !! i with Some (_, GRuns) => Some (set_gphase i GFinished (finish_task i err r)) | _ => None end
  | EFree i => match heap r !! i with Some (_, GFinished) => Some (set_gphase i GFreed (set_sem (pred (sem r)) r)) | _ => None end
  | EForget i =>
      match heap r !! i with
      | Some (t, GFreed) =>
          Some (set_gphase i GDone (set_keys (delete (task_key t) (active r)) (claims r ∖ {[task_key t]}) r))
      | _ => None
      end
  | ECancel => Some (set_cancelled r)
  end.

(** ** Runs

    [ext] is what other starters hold: a starter releases only what it has claimed
    (the scheduler of mirrors does so). *)
Definition claimed_by (e : event) (r : TaskRegistry) (ext : gset string) : gset string :=
  match e with
  | EClaim kind label => if (Claim kind label r).1 then {[key_of kind label]} ∪ ext else ext
  | ERelease kind label => ext ∖ {[key_of kind label]}
  | _ => ext
  end.
Inductive reachable : TaskRegistry → gset string → Prop :=
| reach_new : reachable NewTaskRegistry ∅
| reach_step r ext e r' : reachable r ext → step e r = Some r' →
    (∀ kind label, e = ERelease kind label → key_of kind label ∈ ext) → reachable r' (claimed_by e r ext).

Definition busy (g : gphase) : bool := match g with GRuns | GFinished => true | _ => false end.
Definition held (h : list (Task * gphase)) : nat := sum_list_with (λ tg, if busy tg.2 then 1 else 0)%nat h.
Record registry_inv (r : TaskRegistry) (ext : gset string) : Prop := {
  ri_sem : sem r = held (heap r);
  ri_places : (sem r <= places)%nat;
  ri_active i t g : heap r !! i = Some (t, g) → g ≠ GDone → active r !! task_key t = Some i;
  ri_key key i : active r !! key = Some i → ∃ t g, heap r !! i = Some (t, g) ∧ task_key t = key ∧ g ≠ GDone;
  ri_claims key : key ∈ claims r ↔ is_Some (active r !! key) ∨ key ∈ ext;
  ri_apart key : key ∈ ext → active r !! key = None;
  ri_state i t g : heap r !! i = Some (t, g) → tk_state t = taskRunning ↔ g = GRuns;
  ri_tasks id i : tasks r !! id = Some i → ∃ t g, heap r !! i = Some (t, g) ∧ tk_ID t = id;
  ri_logs i t g : heap r !! i = Some (t, g) → (length (tk_logs t) <= maxTaskLogs)%nat
}.
Lemma held_insert h i x y : h !! i = Some x →
  (held (<[i := y]> h) + (if busy x.2 then 1 else 0) = held h + (if busy y.2 then 1 else 0))%nat.
Proof.
  unfold held. revert i. induction h as [|z h IH]; intros [|i] Hi; try done; simpl in *; [injection Hi as ->; lia|]. specialize (IH i Hi). lia.
Qed.
Lemma held_snoc h x : held (h ++ [x]) = (held h + if busy x.2 then 1 else 0)%nat.
Proof. unfold held. rewrite sum_list_with_app. simpl. lia. Qed.

(** One task changes, and with it the phase of its goroutine. *)
Lemma registry_inv_change r r' ext i t g t' g' : registry_inv r ext → heap r !! i = Some (t, g) → heap r' = <[i := (t', g')]> (heap r) →
  tasks r' = tasks r → active r' = active r → claims r' = claims r →
  (sem r' + (if busy g then 1 else 0) = sem r + (if busy g' then 1 else 0))%nat → (sem r' <= sem r)%nat →
  task_key t' = task_key t → tk_ID t' = tk_ID t → g ≠ GDone → g' ≠ GDone → (tk_state t' = taskRunning ↔ g' = GRuns) →
  (length (tk_logs t') <= maxTaskLogs)%nat → registry_inv r' ext.
Proof.
  intros [H1 H2 H3 H4 H5 H6 H7 H8 H9] Hi Hh Ht Ha Hc Hs Hle Hkey Hid Hg Hg' Hst Hlogs.
  assert (∀ j x y, heap r' !! j = Some (x, y) → j = i ∧ x = t' ∧ y = g' ∨ j ≠ i ∧ heap r !! j = Some (x, y)) as Hback.
  { intros j x y. rewrite Hh, list_lookup_insert_Some. intros [(-> & [= <- <-] & _)|[? ?]]; [by left|by right]. }
  assert (heap r' !! i = Some (t', g')) as Hi' by (rewrite Hh, list_lookup_insert_eq by (by eapply lookup_lt_Some); done).
  split; rewrite ?Ha, ?Hc; [| | | |done|done| | |].
  - rewrite Hh. pose proof (held_insert (heap r) i _ (t', g') Hi) as Hn. simpl in Hn. lia.
  - lia.
  - intros j x y [(-> & -> & ->)|[? Hj]]%Hback Hy; [rewrite Hkey; by eapply H3|by eapply H3].
  - intros key j Hj. destruct (H4 key j Hj) as (x & y & Hx & Hk & Hy). destruct (decide (j = i)) as [->|Hne].
    + exists t', g'. split_and!; [done| |done]. rewrite Hkey. congruence.
    + exists x, y. rewrite Hh, list_lookup_insert_ne by done. done.
  - intros j x y [(-> & -> & ->)|[? Hj]]%Hback; [done|by eapply H7].
  - intros id j. rewrite Ht. intros Hj. destruct (H8 id j Hj) as (x & y & Hx & Hk). destruct (decide (j = i)) as [->|Hne].
    + exists t', g'. split; [done|]. rewrite Hid. congruence.
    + exists x, y. by rewrite Hh, list_lookup_insert_ne.
  - intros j x y [(-> & -> & ->)|[? Hj]]%Hback; [done|by eapply H9].
Qed.

(** ** The history *)
Hypothesis range_ok : ∀ m, range m ≡ₚ map_to_list m.
Lemma oldest_finished_spec r : match oldest_finished r with
  | Some i => (∃ id, tasks r !! id = Some i) ∧ state_of_task i r ≠ Some taskRunning
  | None => ∀ id i, tasks r !! id = Some i → state_of_task i r = Some taskRunning
  end.
Proof.
  assert (∀ l, match foldl (λ oldest (kv : string * nat),
      if bool_decide (state_of_task kv.2 r = Some taskRunning) then oldest
      else match oldest with None => Some kv.2 | Some o => if older kv.2 o r then Some kv.2 else oldest end) None l with
    | Some i => (∃ id, (id, i) ∈ l) ∧ state_of_task i r ≠ Some taskRunning
    | None => ∀ id i, (id, i) ∈ l → state_of_task i r = Some taskRunning
    end) as Hfold.
  { intros l. induction l as [|[id i] l IH] using rev_ind; [intros id i Hi; by apply not_elem_of_nil in Hi|].
    rewrite foldl_app. simpl. destruct (foldl _ None l) as [o|].
    - destruct IH as [(ido & Ho) Hs]. destruct (bool_decide_reflect (state_of_task i r = Some taskRunning)) as [|Hi]; [split; [exists ido; set_solver|done]|].
      destruct (older i o r); (split; [|done]); [exists id|exists ido]; set_solver.
    - destruct (bool_decide_reflect (state_of_task i r = Some taskRunning)) as [Hi|Hi].
      + intros id' j [Hj|Hj]%elem_of_app; [by eapply IH|]. by apply list_elem_of_singleton in Hj as [= -> ->].
      + split; [exists id; set_solver|done]. }
  specialize (Hfold (range (tasks r))). fold (oldest_finished r) in Hfold. destruct (oldest_finished r) as [i|].
  - destruct Hfold as [(id & Hid) Hs]. split; [|done]. exists id. by rewrite range_ok, elem_of_map_to_list in Hid.
  - intros id i Hi. apply (Hfold id). by rewrite range_ok, elem_of_map_to_list.
Qed.
Definition ids_ok (r : TaskRegistry) : Prop := ∀ id i, tasks r !! id = Some i → ∃ t g, heap r !! i = Some (t, g) ∧ tk_ID t = id.
Record evicted (r r' : TaskRegistry) : Prop := {
  ev_same : heap r' = heap r ∧ active r' = active r ∧ claims r' = claims r ∧ sem r' = sem r;
  ev_sub : tasks r' ⊆ tasks r;
  ev_running id i : tasks r !! id = Some i → state_of_task i r = Some taskRunning → tasks r' !! id = Some i
}.
Lemma evict_loop_evicted fuel r : ids_ok r → evicted r (evict_loop fuel r).
Proof.
  revert r. induction fuel as [|fuel IH]; intros r Hids; simpl; [by split|]. destruct (maxTaskHistory <? size (tasks r))%nat; [|by split].
  pose proof (oldest_finished_spec r) as Ho. destruct (oldest_finished r) as [o|]; [|by split]. destruct Ho as [(ido & Hido) Hst].
  destruct (Hids ido o Hido) as (t & g & Ht & Hid). rewrite Ht.
  destruct (IH (set_tasks (delete (tk_ID t) (tasks r)) r)) as [He Hsub Hrun].
  { intros id i Hi. simpl in Hi. apply lookup_delete_Some in Hi as [_ Hi]. by apply Hids. }
  split; [done| |].
  - etrans; [exact Hsub|]. apply delete_subseteq.
  - intros id i Hi Hs. apply Hrun; [|done]. simpl. apply lookup_delete_Some. split; [|done]. intros <-. rewrite Hid in Hi.
    congruence.
Qed.
Lemma held_indices (h : list (Task * gphase)) ids : NoDup ids → (∀ i, i ∈ ids → ∃ t g, h !! i = Some (t, g) ∧ busy g = true) → (length ids <= held h)%nat.
Proof.
  revert h. induction ids as [|i ids IH]; intros h Hnd Hall; simpl; [lia|]. apply NoDup_cons in Hnd as [Hi Hnd].
  destruct (Hall i) as (t & g & Hh & Hb); [by left|]. pose proof (held_insert h i (t, g) (t, GDone) Hh) as Hn. simpl in Hn. rewrite Hb in Hn.
  assert (length ids <= held (<[i := (t, GDone)]> h))%nat; [|lia]. apply IH; [done|]. intros j Hj.
  destruct (Hall j) as (t' & g' & Hh' & Hb'); [by right|]. exists t', g'. rewrite list_lookup_insert_ne; [done|]. by intros <-.
Qed.
Lemma all_running_bounded r : ids_ok r → (∀ i t g, heap r !! i = Some (t, g) → tk_state t = taskRunning ↔ g = GRuns) →
  (∀ id i, tasks r !! id = Some i → state_of_task i r = Some taskRunning) → (size (tasks r) <= held (heap r))%nat.
Proof.
  intros Hids Hst Hall. rewrite <- length_map_to_list, <- (length_fmap snd). apply held_indices.
  - apply NoDup_fmap_2_strong; [|apply NoDup_map_to_list]. intros [id i] [id' i'] Hx%elem_of_map_to_list Hy%elem_of_map_to_list Heq. simpl in Heq. subst i'.
    destruct (Hids _ _ Hx) as (t & g & Ht & <-). destruct (Hids _ _ Hy) as (t' & g' & Ht' & <-). congruence.
  - intros i ([id i'] & -> & Hi%elem_of_map_to_list)%list_elem_of_fmap. simpl. destruct (Hids _ _ Hi) as (t & g & Ht & _).
    exists t, g. split; [done|]. specialize (Hall _ _ Hi). unfold state_of_task in Hall. rewrite Ht in Hall. simpl in Hall.
    injection Hall as Hall. apply (Hst _ _ _ Ht) in Hall. by subst.
Qed.
Lemma evict_loop_bounded fuel r : ids_ok r → (∀ i t g, heap r !! i = Some (t, g) → tk_state t = taskRunning ↔ g = GRuns) →
  (held (heap r) <= maxTaskHistory)%nat → (size (tasks r) <= fuel)%nat → (size (tasks (evict_loop fuel r)) <= maxTaskHistory)%nat.
Proof.
  revert r. induction fuel as [|fuel IH]; intros r Hids Hst Hheld Hfuel; simpl; [lia|].
  destruct (Nat.ltb_spec maxTaskHistory (size (tasks r))) as [Hbig|]; [|done].
  pose proof (oldest_finished_spec r) as Ho. destruct (oldest_finished r) as [o|].
  - destruct Ho as [(ido & Hido) _]. destruct (Hids ido o Hido) as (t & g & Ht & Hid). rewrite Ht. apply IH; simpl; [|done|done|].
    + intros id i Hi. simpl in Hi. apply lookup_delete_Some in Hi as [_ Hi]. by apply Hids.
    + rewrite map_size_delete_Some; [lia|]. rewrite Hid. eauto.
  - pose proof (all_running_bounded r Hids Hst Ho). lia.
Qed.

(** ** Every step keeps the registry in order *)
Definition in_bounds (r : TaskRegistry) : Prop := (places <= maxTaskHistory)%nat → (size (tasks r) <= maxTaskHistory)%nat.
Lemma registry_inv_new : registry_inv NewTaskRegistry ∅ ∧ in_bounds NewTaskRegistry.
Proof.
  split; [split; simpl; [done|unfold places; destruct (workers <? 1)%nat; lia|..]|intros _; simpl; rewrite map_size_empty; lia]; try (by intros *; rewrite ?lookup_empty).
  intros key. rewrite lookup_empty. split; [set_solver|]. intros [[? ?]|?]; [done|set_solver].
Qed.
Lemma new_task_key id kind label now : task_key (new_task id kind label now) = key_of kind label.
Proof. done. Qed.
(** The registry with a new task in the heap and in the history, before the
    eviction. *)
Definition with_new (t : Task) (r : TaskRegistry) : TaskRegistry :=
  set_tasks (<[tk_ID t := length (heap r)]> (tasks r)) (set_heap (heap r ++ [(t, GRuns)]) r).
Lemma with_new_ids t r : ids_ok r → ids_ok (with_new t r).
Proof.
  intros Hids id i Hi. simpl in *. apply lookup_insert_Some in Hi as [[<- <-]|[_ Hi]].
  - exists t, GRuns. split; [|done]. rewrite lookup_app_r by done. by rewrite Nat.sub_diag.
  - destruct (Hids id i Hi) as (t' & g' & Ht & Hid). exists t', g'. split; [|done]. by apply lookup_app_l_Some.
Qed.
Lemma snoc_lookup {A} (l : list A) x i y : (l ++ [x]) !! i = Some y → l !! i = Some y ∨ i = length l ∧ y = x.
Proof. intros [Hi|[Hle Hi]]%lookup_app_Some; [by left|]. apply list_lookup_singleton_Some in Hi as [Hi <-]. right. split; [lia|done]. Qed.
Lemma inv_Start kind label r ext : registry_inv r ext → in_bounds r → registry_inv (Start kind label r).2 ext ∧ in_bounds (Start kind label r).2.
Proof.
  intros Hinv Hbound. unfold Start. destruct (active r !! key_of kind label) as [j|] eqn:Ha; [done|].
  destruct (decide (key_of kind label ∈ claims r)) as [|Hc]; [done|]. destruct (Nat.leb_spec places (sem r)) as [|Hroom]; [done|].
  destruct (newTaskID kind (set_sem (S (sem r)) r)) as [id r1] eqn:Hid. injection Hid as _ <-. simpl.
  set (t := new_task id kind label _). destruct Hinv as [H1 H2 H3 H4 H5 H6 H7 H8 H9].
  match goal with |- registry_inv (set_keys _ _ (evictHistoryLocked ?x)) _ ∧ _ => set (r2 := x) end.
  assert (ids_ok r2) as Hids.
  { exact (with_new_ids t (mk_TaskRegistry (heap r) (tasks r) (active r) (claims r) (S (sem r)) (cancelled r) (S (tr_ticks r)) (S (tr_rands r))) H8). }
  assert (∀ i x g, heap r2 !! i = Some (x, g) → tk_state x = taskRunning ↔ g = GRuns) as Hst.
  { intros i x g [Hi|[_ [= -> ->]]]%snoc_lookup; [by eapply H7|done]. }
  destruct (evict_loop_evicted (size (tasks r2)) r2 Hids) as [(Eh & Ea & Ec & Es) Hsub _]. fold (evictHistoryLocked r2) in *.
  assert (held (heap r2) = S (held (heap r))) as Hheld by (simpl; rewrite held_snoc; simpl; lia).
  split.
  2: { intros Hp. simpl. apply evict_loop_bounded; [done|done|lia|done]. }
  split; simpl; rewrite ?Es, ?Eh, ?Ea, ?Ec; [simpl in *; lia|simpl; lia|simpl..].
  - intros i x g [Hi|[-> [= -> ->]]]%snoc_lookup Hg; [|by rewrite lookup_insert_eq].
    rewrite lookup_insert_ne; [by eapply H3|]. intros Heq. specialize (H3 _ _ _ Hi Hg). congruence.
  - intros key i [[<- <-]|[Hne Hi]]%lookup_insert_Some.
    + exists t, GRuns. split_and!; [|done|done]. simpl. rewrite lookup_app_r by done. by rewrite Nat.sub_diag.
    + destruct (H4 key i Hi) as (x & g & Hx & Hk & Hg). exists x, g. split_and!; [by apply lookup_app_l_Some|done|done].
  - intros key. rewrite elem_of_union, elem_of_singleton, H5. destruct (decide (key = key_of kind label)) as [->|Hne].
    + rewrite lookup_insert_eq. split; [by left|by left].
    + rewrite lookup_insert_ne by done. naive_solver.
  - intros key Hk. rewrite lookup_insert_ne; [by apply H6|]. intros <-. apply Hc, H5. by right.
  - done.
  - intros id' i Hi. apply Hids. by eapply lookup_weaken.
  - intros i x g [Hi|[_ [= -> ->]]]%snoc_lookup; [by eapply H9|]. simpl. unfold maxTaskLogs. lia.
Qed.
Lemma inv_Claim kind label r ext : registry_inv r ext → registry_inv (Claim kind label r).2 (claimed_by (EClaim kind label) r ext).
Proof.
  intros Hinv. unfold claimed_by, Claim. destruct (active r !! key_of kind label) as [j|] eqn:Ha; [done|].
  destruct (decide (key_of kind label ∈ claims r)) as [|Hc]; [done|]. destruct Hinv as [H1 H2 H3 H4 H5 H6 H7 H8 H9].
  split; simpl; [done..| | |done|done|done].
  - intros key. rewrite !elem_of_union, H5, elem_of_singleton. naive_solver.
  - intros key [->%elem_of_singleton|Hk]%elem_of_union; [done|by apply H6].
Qed.
Lemma inv_Release kind label r ext : registry_inv r ext → key_of kind label ∈ ext →
  registry_inv (Release kind label r) (ext ∖ {[key_of kind label]}).
Proof.
  intros [H1 H2 H3 H4 H5 H6 H7 H8 H9] Hin. split; simpl; [done..| | |done|done|done].
  - intros key. rewrite !elem_of_difference, H5, elem_of_singleton. split; [naive_solver|].
    intros [[i Hi]|[Hk Hne]]; (split; [|try done]); [left; by exists i| |by right]. intros ->. specialize (H6 _ Hin). congruence.
  - intros key [Hk _]%elem_of_difference. by apply H6.
Qed.
Lemma registry_inv_same r r' ext : registry_inv r ext → heap r' = heap r → tasks r' = tasks r → active r' = active r → claims r' = claims r →
  sem r' = sem r → registry_inv r' ext.
Proof. intros [H1 H2 H3 H4 H5 H6 H7 H8 H9] Hh Ht Ha Hc Hs. split; rewrite ?Hh, ?Ht, ?Ha, ?Hc, ?Hs; done. Qed.
Lemma appendLog_logs line t : (length (tk_logs (appendLogLocked line t)) <= maxTaskLogs)%nat.
Proof.
  unfold appendLogLocked. simpl. destruct (Nat.ltb_spec maxTaskLogs (length (tk_logs t ++ [line]))); [|done]. rewrite length_drop. lia.
Qed.
Lemma update_task phase current processed total now t : (length (tk_logs t) <= maxTaskLogs)%nat →
  let t' := update phase current processed total now t in
  tk_ID t' = tk_ID t ∧ task_key t' = task_key t ∧ tk_state t' = tk_state t ∧ (length (tk_logs t') <= maxTaskLogs)%nat.
Proof.
  intros Hl. unfold update. destruct (tk_state t) eqn:Hs; [|done..]. destruct (minLogInterval <=? _); simpl; [|done].
  split_and!; [done..|]. apply appendLog_logs.
Qed.

Lemma finish_registry i err r : let r' := finish_task i err r in
  tasks r' = tasks r ∧ active r' = active r ∧ claims r' = claims r ∧ sem r' = sem r ∧
  ∀ t g, heap r !! i = Some (t, g) → tk_state t = taskRunning →
    ∃ t', heap r' = <[i := (t', g)]> (heap r) ∧ tk_ID t' = tk_ID t ∧ task_key t' = task_key t ∧ tk_state t' ≠ taskRunning ∧
    (length (tk_logs t') <= maxTaskLogs)%nat.
Proof.
  unfold finish_task. simpl. set (r1 := mk_TaskRegistry _ _ _ _ _ _ _ _).
  assert (∀ (f : Task → Task) r2, tasks (alter_task i f r2) = tasks r2 ∧ active (alter_task i f r2) = active r2 ∧ claims (alter_task i f r2) = claims r2 ∧
    sem (alter_task i f r2) = sem r2) as Hother by (intros f r2; unfold alter_task; by destruct (heap r2 !! i) as [[]|]).
  assert (∀ t g (f : Task → Task) r2, heap r2 !! i = Some (t, g) → heap (alter_task i f r2) = <[i := (f t, g)]> (heap r2)) as Hheap
    by (intros t g f r2 H; unfold alter_task; by rewrite H).
  destruct err as [e|].
  - set (r2 := if has_type (is_text "context canceled") e && cancelled r then alter_task i (logLine "задача отменена при остановке сервиса") r1 else r1).
    assert (tasks r2 = tasks r ∧ active r2 = active r ∧ claims r2 = claims r ∧ sem r2 = sem r ∧
      ∀ t g, heap r !! i = Some (t, g) → ∃ t', heap r2 = <[i := (t', g)]> (heap r) ∧ tk_ID t' = tk_ID t ∧ task_key t' = task_key t ∧ tk_state t' = tk_state t)
      as (E1 & E2 & E3 & E4 & E5).
    { unfold r2. destruct (_ && cancelled r); [|split_and!; [done..|]; intros t g Hi; exists t; by rewrite list_insert_id].
      destruct (Hother (logLine "задача отменена при остановке сервиса") r1) as (F1 & F2 & F3 & F4). split_and!; [done..|].
      intros t g Hi. rewrite (Hheap t g) by done. by eexists. }
    destruct (Hother (finishError (error_text e) (clock (tr_ticks r))) r2) as (F1 & F2 & F3 & F4).
    split_and!; [congruence..|]. intros t g Hi Hs. destruct (E5 t g Hi) as (t1 & Hh & Hid & Hkey & Hst).
    assert (heap r2 !! i = Some (t1, g)) as Hi2 by (rewrite Hh, list_lookup_insert_eq by (by eapply lookup_lt_Some); done).
    rewrite (Hheap t1 g) by done. rewrite Hh, list_insert_insert_eq. unfold finishError. rewrite Hst, Hs. eexists.
    split_and!; [done|done|done|done|]. apply appendLog_logs.
  - destruct (Hother (finishSuccess (clock (tr_ticks r))) r1) as (F1 & F2 & F3 & F4). split_and!; [done..|]. intros t g Hi Hs.
    rewrite (Hheap t g) by done. unfold finishSuccess. rewrite Hs. eexists. split_and!; [done|done|done|done|]. apply appendLog_logs.
Qed.
Lemma inv_forgotten r ext i t : registry_inv r ext → heap r !! i = Some (t, GFreed) →
  registry_inv (set_heap (<[i := (t, GDone)]> (heap r)) (set_keys (delete (task_key t) (active r)) (claims r ∖ {[task_key t]}) r)) ext.
Proof.
  intros [H1 H2 H3 H4 H5 H6 H7 H8 H9] Hi. pose proof (H3 i t GFreed Hi ltac:(done)) as Hact.
  assert (∀ j x y, <[i := (t, GDone)]> (heap r) !! j = Some (x, y) → j = i ∧ x = t ∧ y = GDone ∨ j ≠ i ∧ heap r !! j = Some (x, y)) as Hback.
  { intros j x y Hj. apply list_lookup_insert_Some in Hj as [(-> & [= <- <-] & _)|[? ?]]; [by left|by right]. }
  split; simpl; [| |intros j x y|intros key j|intros key|intros key|intros j x y|intros id j|intros j x y].
  - pose proof (held_insert (heap r) i _ (t, GDone) Hi) as Hn. simpl in Hn. lia.
  - done.
  - intros [(-> & -> & ->)|[Hne Hj]]%Hback Hy; [done|]. pose proof (H3 j x y Hj Hy) as Hx. rewrite lookup_delete_ne; [done|].
    intros He. rewrite <- He in Hx. congruence.
  - intros [Hne Hj]%lookup_delete_Some. destruct (H4 key j Hj) as (x & y & Hx & Hk & Hy). exists x, y.
    rewrite list_lookup_insert_ne; [done|]. intros <-. congruence.
  - rewrite elem_of_difference, elem_of_singleton, H5. destruct (decide (key = task_key t)) as [->|Hne].
    + rewrite lookup_delete_eq. split; [by intros [_ []]|]. intros [[? ?]|Hk]; [done|]. apply H6 in Hk. congruence.
    + rewrite lookup_delete_ne by done. naive_solver.
  - intros Hk. rewrite lookup_delete_None. right. by apply H6.
  - intros [(-> & -> & ->)|[Hne Hj]]%Hback; [|by eapply H7]. split; [|done]. by intros ?%(H7 _ _ _ Hi).
  - intros Hj. destruct (H8 id j Hj) as (x & y & Hx & Hk). destruct (decide (j = i)) as [->|Hne].
    + exists t, GDone. rewrite list_lookup_insert_eq by (by eapply lookup_lt_Some). split; [done|]. congruence.
    + exists x, y. by rewrite list_lookup_insert_ne.
  - intros [(-> & -> & ->)|[Hne Hj]]%Hback; by eapply H9.
Qed.
Lemma registry_step_inv e r r' ext : step e r = Some r' → (∀ kind label, e = ERelease kind label → key_of kind label ∈ ext) →
  registry_inv r ext ∧ in_bounds r → registry_inv r' (claimed_by e r ext) ∧ in_bounds r'.
Proof.
  intros Hstep Hown [Hinv Hb]. destruct e as [k l|k l|k l|i ph cu pr tot|i line|i err|i|i|]; simpl in Hstep.
  - injection Hstep as <-. by apply inv_Start.
  - injection Hstep as <-. split; [by apply inv_Claim|]. unfold in_bounds, Claim in *. destruct (active r !! _); [done|]. by destruct (decide _).
  - injection Hstep as <-. split; [|done]. apply inv_Release; [done|]. by apply Hown.
  - destruct (heap r !! i) as [[t []]|] eqn:Hi; try done. injection Hstep as <-. unfold alter_task. simpl. rewrite Hi. split; [|done].
    destruct (update_task ph cu pr tot (clock (tr_ticks r)) t) as (Hid & Hkey & Hst & Hl); [by eapply ri_logs|].
    eapply (registry_inv_change r _ ext i t GRuns _ GRuns); try done. rewrite Hst. exact (ri_state _ _ Hinv i t GRuns Hi).
  - destruct (heap r !! i) as [[t []]|] eqn:Hi; try done. injection Hstep as <-. unfold alter_task. rewrite Hi. split; [|done].
    eapply (registry_inv_change r _ ext i t GRuns _ GRuns); try done; [exact (ri_state _ _ Hinv i t GRuns Hi)|apply appendLog_logs].
  - destruct (heap r !! i) as [[t []]|] eqn:Hi; try done. injection Hstep as <-.
    destruct (finish_registry i err r) as (E1 & E2 & E3 & E4 & E5). assert (tk_state t = taskRunning) as Hs by (by apply (ri_state _ _ Hinv i t GRuns Hi)).
    destruct (E5 t GRuns Hi Hs) as (t' & Hh & Hid & Hkey & Hst & Hl). unfold set_gphase.
    rewrite Hh, list_lookup_insert_eq by (by eapply lookup_lt_Some). unfold in_bounds. simpl. rewrite E1. split; [|exact Hb].
    eapply (registry_inv_change r _ ext i t GRuns t' GFinished); try done; simpl; [|by rewrite E4..].
    by rewrite list_insert_insert_eq.
  - destruct (heap r !! i) as [[t []]|] eqn:Hi; try done. injection Hstep as <-. unfold set_gphase. simpl. rewrite Hi. split; [|done].
    pose proof (ri_sem _ _ Hinv) as Hsem. pose proof (held_insert (heap r) i _ (t, GFreed) Hi) as Hn. simpl in Hn.
    eapply (registry_inv_change r _ ext i t GFinished t GFreed); try done; simpl; [lia|lia| |by eapply ri_logs].
    pose proof (ri_state _ _ Hinv i t GFinished Hi) as Hst. split; [|done]. by intros ?%Hst.
  - destruct (heap r !! i) as [[t []]|] eqn:Hi; try done. injection Hstep as <-. unfold set_gphase. simpl. rewrite Hi. split; [|done].
    exact (inv_forgotten r ext i t Hinv Hi).
  - injection Hstep as <-. split; [by apply (registry_inv_same r)|done].
Qed.
Lemma reachable_inv r ext : reachable r ext → registry_inv r ext ∧ in_bounds r.
Proof. induction 1 as [|r ext e r' _ IH Hstep Hown]; [apply registry_inv_new|by eapply registry_step_inv]. Qed.

(** C28: tasks exclude each other. In every state that can be reached, while the
    starters outside release only what they have claimed: two tasks whose
    goroutines have not ended have different keys, and no such task has a key that
    a starter outside holds; no more functions run than there are places; and a
    start is refused as a duplicate exactly when a task or a starter holds its key,
    and otherwise for the lack of a place, when all are taken. *)
Theorem tasks_exclude_each_other r ext : reachable r ext →
  (∀ i j t u g g', heap r !! i = Some (t, g) → heap r !! j = Some (u, g') → g ≠ GDone → g' ≠ GDone → task_key t = task_key u → i = j) ∧
  (∀ i t g, heap r !! i = Some (t, g) → g ≠ GDone → ¬ (task_key t ∈ ext)) ∧
  (length (List.filter (λ tg, bool_decide (tg.2 = GRuns)) (heap r)) <= places)%nat ∧
  (∀ kind label, match (Start kind label r).1 with
    | Ok _ => ¬ (key_of kind label ∈ ext) ∧ (∀ i t g, heap r !! i = Some (t, g) → g ≠ GDone → task_key t ≠ key_of kind label) ∧ (held (heap r) < places)%nat
    | Err e => e = ErrTaskDuplicate ∧ (key_of kind label ∈ ext ∨ ∃ i t g, heap r !! i = Some (t, g) ∧ g ≠ GDone ∧ task_key t = key_of kind label) ∨
               e = ErrTaskLimit ∧ held (heap r) = places
    end).
Proof.
  intros Hr. destruct (reachable_inv r ext Hr) as [[H1 H2 H3 H4 H5 H6 H7 H8 H9] _]. split_and!.
  - intros i j t u g g' Hi Hj Hg Hg' Hk. apply H3 in Hi, Hj; [|done..]. congruence.
  - intros i t g Hi Hg Hin. apply H3 in Hi; [|done]. apply H6 in Hin. congruence.
  - assert (length (List.filter (λ tg, bool_decide (tg.2 = GRuns)) (heap r)) <= held (heap r))%nat as Hle; [|lia].
    clear. unfold held. induction (heap r) as [|[t []] h IH]; simpl; lia.
  - intros kind label. unfold Start. destruct (active r !! key_of kind label) as [j|] eqn:Ha.
    { left. split; [done|]. right. destruct (H4 _ _ Ha) as (t & g & Ht & Hk & Hg). by exists j, t, g. }
    destruct (decide (key_of kind label ∈ claims r)) as [Hc|Hc].
    { left. split; [done|]. left. apply H5 in Hc as [[? ?]|?]; [congruence|done]. }
    destruct (Nat.leb_spec places (sem r)) as [Hfull|Hroom]; [right; split; [done|lia]|]. simpl. split_and!; [|..|lia].
    + intros Hin. apply Hc, H5. by right.
    + intros i t g Hi Hg Hk. apply H3 in Hi; [|done]. congruence.
Qed.

(** The history is bounded and spares what runs. With no more places than the
    history may hold, the registry never keeps more than a thousand tasks; a task
    is only ever dropped when it has finished; and no task keeps more than fifty
    lines of log. *)
Theorem history_is_bounded r ext : reachable r ext → (places <= maxTaskHistory)%nat →
  (size (tasks r) <= maxTaskHistory)%nat ∧
  (∀ i t g, heap r !! i = Some (t, g) → (length (tk_logs t) <= maxTaskLogs)%nat) ∧
  (∀ id i, tasks r !! id = Some i → state_of_task i r = Some taskRunning → tasks (evictHistoryLocked r) !! id = Some i).
Proof.
  intros Hr Hp. destruct (reachable_inv r ext Hr) as [Hinv Hb]. split_and!; [by apply Hb|by apply ri_logs with (ext := ext)|].
  apply evict_loop_evicted. intros id i Hi. exact (ri_tasks _ _ Hinv id i Hi).
Qed.
End registry.

(** * A run of the registry: two places; a synchronisation, a publication, a claim
    of the scheduler and the refusals of further starts. *)
Module TaskDemo.
Definition clock (n : nat) : Z := 10 ^ 18 + Z.of_nat n * 10 ^ 9.
Definition uuid (n : nat) : res string := if (n =? 2)%nat then Err (Text "no entropy") else Ok ("0000-00" +:+ fmt_int (10 + Z.of_nat n) +:+ "-4000").
Definition nanos (n : nat) : Z := 123456789012.
Definition ranged (m : gmap string nat) : list (string * nat) := map_to_list m.
Definition text (e : error) : string := match e with Text t => t | _ => "error" end.
Definition demo_step := step 2 clock uuid nanos ranged text.
Definition run (es : list event) : TaskRegistry * gset string :=
  foldl (λ re e, match demo_step e re.1 with Some r => (r, claimed_by e re.1 re.2) | None => re end) (NewTaskRegistry, ∅) es.
Definition releases_own (es : list event) : bool :=
  (fix go es re := match es with
   | [] => true
   | e :: es =>
       match e with ERelease k l => bool_decide (key_of k l ∈ re.2) | _ => true end &&
       go es (match demo_step e re.1 with Some r => (r, claimed_by e re.1 re.2) | None => re end)
   end) es (NewTaskRegistry, ∅ : gset string).
Lemma run_reachable es : releases_own es = true → reachable 2 clock uuid nanos ranged text (run es).1 (run es).2.
Proof.
  unfold run, releases_own. assert (∀ es re, reachable 2 clock uuid nanos ranged text re.1 re.2 →
    (fix go es re := match es with
     | [] => true
     | e :: es =>
         match e with ERelease k l => bool_decide (key_of k l ∈ re.2) | _ => true end &&
         go es (match demo_step e re.1 with Some r => (r, claimed_by e re.1 re.2) | None => re end)
     end) es re = true →
    reachable 2 clock uuid nanos ranged text
      (foldl (λ re e, match demo_step e re.1 with Some r => (r, claimed_by e re.1 re.2) | None => re end) re es).1
      (foldl (λ re e, match demo_step e re.1 with Some r => (r, claimed_by e re.1 re.2) | None => re end) re es).2) as H.
  { clear es. intros es. induction es as [|e es IH]; intros re Hre Hown; [done|]. simpl. apply andb_prop in Hown as [He Hown].
    apply IH; [|done]. destruct (demo_step e re.1) as [r'|] eqn:Hs; [|done]. simpl. eapply reach_step; [done..|].
    intros k l ->. by apply bool_decide_eq_true in He. }
  apply H. constructor.
Qed.
Definition busy_run : list event :=
  [EStart "sync" "main"; EStart "publish" "own"; EClaim "sync" "extra"; EUpdate 0 "download" "a.deb" 1536 4096;
   EStart "sync" "main"; EStart "sync" "extra"; EStart "gc" ""; EReturn 1 (Some (Text "panic: nil map")); EFree 1].
Definition busy_state := run busy_run.
Example busy_logs :
  tk_logs <$> Get "sync-00000010" busy_state.1 = Some ["[download] a.deb (1.5 KiB / 4.0 KiB)"] ∧
  (λ t, (tk_state t, tk_errText t)) <$> Get "publish-00000011" busy_state.1 = Some (taskFailed, "panic: nil map") ∧
  length (Snapshots ranged busy_state.1) = 2%nat ∧ (tk_ID <$> Snapshots ranged busy_state.1) = ["sync-00000010"; "publish-00000011"].
Proof. vm_compute. done. Qed.
(** The place of the failed publication is free and its key is not yet. *)
Example busy_answers :
  let start k l := (Start 2 clock uuid nanos ranged k l busy_state.1).1 in
  start "sync" "main" = Err ErrTaskDuplicate ∧ start "sync" "extra" = Err ErrTaskDuplicate ∧ start "publish" "own" = Err ErrTaskDuplicate ∧
  start "gc" "" = Ok "gc-56789012" ∧
  (Start 2 clock uuid nanos ranged "gc" "" (run (take 4 busy_run)).1).1 = Err ErrTaskLimit.
Proof. vm_compute. done. Qed.
Lemma busy_reachable : reachable 2 clock uuid nanos ranged text busy_state.1 busy_state.2.
Proof. apply run_reachable. vm_compute. reflexivity. Qed.
Lemma ranged_ok m : ranged m ≡ₚ map_to_list m.
Proof. done. Qed.
Lemma tasks_exclude_each_other_witness : "sync|extra" ∈ busy_state.2 ∧ ∀ i t g, heap busy_state.1 !! i = Some (t, g) → g ≠ GDone → task_key t ≠ "sync|extra".
Proof.
  assert ("sync|extra" ∈ busy_state.2) as Hin by (apply (bool_decide_unpack _); vm_compute; exact I). split; [exact Hin|].
  intros i t g Hi Hg Hk. apply (proj1 (proj2 (tasks_exclude_each_other 2 clock uuid nanos ranged text ranged_ok _ _ busy_reachable)) i t g Hi Hg).
  rewrite Hk. exact Hin.
Defined.
Lemma history_is_bounded_witness : tasks busy_state.1 !! "sync-00000010" = Some 0%nat ∧
  tasks (evictHistoryLocked ranged busy_state.1) !! "sync-00000010" = Some 0%nat.
Proof.
  split; [vm_compute; reflexivity|].
  apply (proj2 (proj2 (history_is_bounded 2 clock uuid nanos ranged text ranged_ok _ _ busy_reachable ltac:(vm_compute; lia)))); vm_compute; reflexivity.
Defined.
End TaskDemo.
