(* ===== verification/Glob.v ===== *)
(** The patterns by which the ecosystems recognise paths (globToRegex of
    the modules under internal/mod/ecosystem): regular expressions over runes with their language
    and an executable matcher, the translation of a glob, and the meaning of a
    glob segment by segment, to which the translation is proved equivalent. *)
From S2P Require Import Prelude GoStr.

(** * Regular expressions

    What the patterns of the code are made of; a rune is its encoding, as in
    [runes]. The anchors [^] and [$] of every pattern make a match a match of the
    whole text. *)
Inductive regex :=
| REps | RVoid
| RSet (p : string → bool)
| RCat (r1 r2 : regex)
| RAlt (r1 r2 : regex)
| RStar (r : regex).

Inductive lang : regex → list string → Prop :=
| lang_eps : lang REps []
| lang_set p c : p c = true → lang (RSet p) [c]
| lang_cat r1 r2 u v : lang r1 u → lang r2 v → lang (RCat r1 r2) (u ++ v)
| lang_alt_l r1 r2 u : lang r1 u → lang (RAlt r1 r2) u
| lang_alt_r r1 r2 u : lang r2 u → lang (RAlt r1 r2) u
| lang_star_nil r : lang (RStar r) []
| lang_star_cons r u v : lang r u → lang (RStar r) v → lang (RStar r) (u ++ v).

Fixpoint nullable (r : regex) : bool :=
  match r with
  | REps | RStar _ => true
  | RVoid | RSet _ => false
  | RCat r1 r2 => nullable r1 && nullable r2
  | RAlt r1 r2 => nullable r1 || nullable r2
  end.
Fixpoint deriv (c : string) (r : regex) : regex :=
  match r with
  | REps | RVoid => RVoid
  | RSet p => if p c then REps else RVoid
  | RCat r1 r2 => if nullable r1 then RAlt (RCat (deriv c r1) r2) (deriv c r2) else RCat (deriv c r1) r2
  | RAlt r1 r2 => RAlt (deriv c r1) (deriv c r2)
  | RStar r1 => RCat (deriv c r1) (RStar r1)
  end.
Fixpoint re_match (r : regex) (u : list string) : bool :=
  match u with [] => nullable r | c :: u => re_match (deriv c r) u end.
(** [regexp.MatchString] of an anchored expression. *)
Definition MatchString (r : regex) (s : string) : bool := re_match r (runes s).

Lemma lang_cat_inv r1 r2 u : lang (RCat r1 r2) u ↔ ∃ v w, u = v ++ w ∧ lang r1 v ∧ lang r2 w.
Proof. split; [inversion 1; eauto|]. intros (v & w & -> & ? & ?). by constructor. Qed.
Lemma lang_alt_inv r1 r2 u : lang (RAlt r1 r2) u ↔ lang r1 u ∨ lang r2 u.
Proof. split; [inversion 1; auto|]. intros [?|?]; [by apply lang_alt_l|by apply lang_alt_r]. Qed.
Lemma lang_set_inv p u : lang (RSet p) u ↔ ∃ c, u = [c] ∧ p c = true.
Proof. split; [inversion 1; eauto|]. intros (c & -> & ?). by constructor. Qed.
Lemma lang_eps_inv u : lang REps u ↔ u = [].
Proof. split; [by inversion 1|]. intros ->. constructor. Qed.
Lemma lang_void u : ¬ lang RVoid u.
Proof. inversion 1. Qed.
Lemma lang_star_step r c u : lang (RStar r) (c :: u) → ∃ v w, u = v ++ w ∧ lang r (c :: v) ∧ lang (RStar r) w.
Proof.
  remember (RStar r) as s eqn:Hs. remember (c :: u) as x eqn:Hx. intros H. revert r c u Hs Hx.
  induction H as [| | | | |r'|r' v w Hv _ Hw IH]; intros r0 c0 u0 [= ->] Hx; try done.
  destruct v as [|d v]; simpl in Hx; [by eapply IH|]. injection Hx as -> <-. eauto.
Qed.
Lemma nullable_lang r : nullable r = true ↔ lang r [].
Proof.
  induction r as [| |p|r1 IH1 r2 IH2|r1 IH1 r2 IH2|r IH]; simpl.
  - split; [intros _; constructor|done].
  - split; [done|by intros ?%lang_void].
  - split; [done|]. by intros (c & ? & ?)%lang_set_inv.
  - rewrite andb_true_iff, IH1, IH2, lang_cat_inv. split; [intros [? ?]; by exists [], []|].
    intros (v & w & Hvw & ? & ?). by destruct v, w.
  - by rewrite orb_true_iff, IH1, IH2, lang_alt_inv.
  - split; [intros _; constructor|done].
Qed.
Lemma deriv_lang c r u : lang (deriv c r) u ↔ lang r (c :: u).
Proof.
  revert u. induction r as [| |p|r1 IH1 r2 IH2|r1 IH1 r2 IH2|r IH]; intros u; simpl.
  - split; [by intros ?%lang_void|by intros ?%lang_eps_inv].
  - split; by intros ?%lang_void.
  - rewrite lang_set_inv. destruct (p c) eqn:Hp.
    + rewrite lang_eps_inv. split; [intros ->; by exists c|]. by intros (d & [= <- ->] & _).
    + split; [by intros ?%lang_void|]. intros (d & [= <- ->] & ?). congruence.
  - assert (lang (RCat (deriv c r1) r2) u ↔ ∃ v w, u = v ++ w ∧ lang r1 (c :: v) ∧ lang r2 w) as Hcat.
    { rewrite lang_cat_inv. by setoid_rewrite IH1. }
    assert (lang (RCat r1 r2) (c :: u) ↔ (∃ v w, u = v ++ w ∧ lang r1 (c :: v) ∧ lang r2 w) ∨ (lang r1 [] ∧ lang r2 (c :: u))) as ->.
    { rewrite lang_cat_inv. split.
      - intros (v & w & Hvw & ? & ?). destruct v as [|d v]; simpl in Hvw; [subst w; by right|].
        injection Hvw as -> ->. left. eauto.
      - intros [(v & w & -> & ? & ?)|[? ?]]; [by exists (c :: v), w|by exists [], (c :: u)]. }
    destruct (nullable r1) eqn:Hn; [rewrite lang_alt_inv, Hcat, IH2; apply nullable_lang in Hn; tauto|].
    rewrite Hcat. assert (¬ lang r1 []) by (rewrite <- nullable_lang; by rewrite Hn). tauto.
  - by rewrite !lang_alt_inv, IH1, IH2.
  - rewrite lang_cat_inv. setoid_rewrite IH. split.
    + intros (v & w & -> & ? & ?). by apply (lang_star_cons r (c :: v) w).
    + by apply lang_star_step.
Qed.
(** The matcher decides the language. *)
Lemma re_match_lang r u : re_match r u = true ↔ lang r u.
Proof. revert r. induction u as [|c u IH]; intros r; simpl; [apply nullable_lang|]. by rewrite IH, deriv_lang. Qed.
Lemma lang_star_set p u : lang (RStar (RSet p)) u ↔ forallb p u = true.
Proof.
  induction u as [|c u IH]; [split; [done|constructor]|]. simpl. rewrite andb_true_iff, <- IH. split.
  - intros (v & w & -> & (d & [= -> ->] & ?)%lang_set_inv & ?)%lang_star_step. done.
  - intros [? ?]. by apply (lang_star_cons _ [c]); [constructor|].
Qed.

(** * Globs *)
Definition not_slash (c : string) : bool := negb (String.eqb c "/").
Definition not_newline (c : string) : bool := negb (String.eqb c (bytes [10]%N)).
Definition RLit (c : string) : regex := RSet (String.eqb c).
Definition ROpt (r : regex) : regex := RAlt r REps.
(** [(?:.*/)?] *)
Definition dirs : regex := ROpt (RCat (RStar (RSet not_newline)) (RLit "/")).
(** The loop of globToRegex: what each branch writes. *)
Fixpoint glob_regex (g : list string) : regex :=
  match g with
  | [] => REps
  | c :: g1 =>
      if String.eqb c "*" then
        match g1 with
        | c1 :: g2 =>
            if String.eqb c1 "*" then
              match g2 with
              | c2 :: g3 => if String.eqb c2 "/" then RCat dirs (glob_regex g3) else RCat (RStar (RSet not_newline)) (glob_regex g2)
              | [] => RCat (RStar (RSet not_newline)) REps
              end
            else RCat (RStar (RSet not_slash)) (glob_regex g1)
        | [] => RCat (RStar (RSet not_slash)) REps
        end
      else if String.eqb c "?" then RCat (RSet not_slash) (glob_regex g1)
      else RCat (RLit c) (glob_regex g1)
  end.
Definition globToRegex (glob : string) : regex := glob_regex (runes glob).
Example glob_deb : MatchString (globToRegex "pool/**/*.deb") "pool/main/a/app/app_1.0.deb" = true ∧
  MatchString (globToRegex "pool/**/*.deb") "pool/app.deb" = true ∧ MatchString (globToRegex "pool/**/*.deb") "dists/pool/app.deb" = false ∧
  MatchString (globToRegex "log/**") "log/a/b" = true ∧ MatchString (globToRegex "?.x") "é.x" = true ∧ MatchString (globToRegex "?.x") "/.x" = false.
Proof. vm_compute. done. Qed.

(** * The meaning of a glob, segment by segment *)
Fixpoint segs (u : list string) : list (list string) :=
  match u with
  | [] => [[]]
  | c :: u =>
      if String.eqb c "/" then [] :: segs u
      else match segs u with x :: xs => (c :: x) :: xs | [] => [[c]] end
  end.
(** A segment of a glob against a segment of a path: [*] is any text, [?] any
    rune. *)
Fixpoint wild (p : list string) : list string → bool :=
  match p with
  | [] => λ x, match x with [] => true | _ => false end
  | c :: p =>
      if String.eqb c "*" then fix star x := wild p x || match x with [] => false | _ :: x => star x end
      else if String.eqb c "?" then λ x, match x with [] => false | _ :: x => wild p x end
      else λ x, match x with [] => false | d :: x => String.eqb c d && wild p x end
  end.
Definition is_any (p : list string) : bool := match p with [a; b] => String.eqb a "*" && String.eqb b "*" | _ => false end.
(** [**] is any number of segments, and at the end one or more. *)
Fixpoint seg_match (ps : list (list string)) : list (list string) → bool :=
  match ps with
  | [] => λ xs, match xs with [] => true | _ => false end
  | p :: ps =>
      if is_any p then
        match ps with
        | [] => λ xs, negb (match xs with [] => true | _ => false end) && forallb (forallb not_newline) xs
        | _ => fix skip xs := seg_match ps xs || match xs with [] => false | x :: xs => forallb not_newline x && skip xs end
        end
      else λ xs, match xs with [] => false | x :: xs => wild p x && seg_match ps xs end
  end.
(** A segment is [**] or holds no two stars in a row. *)
Fixpoint apart (p : list string) : bool :=
  match p with
  | a :: (b :: _) as p' => negb (String.eqb a "*" && String.eqb b "*") && apart p'
  | _ => true
  end.
Definition wf_glob (g : list string) : bool := forallb (λ p, is_any p || apart p) (segs g).

(** ** The proof *)
Lemma segs_cons u : ∃ x xs, segs u = x :: xs.
Proof. induction u as [|c u (x & xs & IH)]; simpl; [eauto|]. destruct (String.eqb c "/"); [eauto|]. rewrite IH. eauto. Qed.
Lemma segs_plain v : forallb not_slash v = true → segs v = [v].
Proof.
  induction v as [|c v IH]; simpl; [done|]. intros [Hc Hv]%andb_prop. unfold not_slash in Hc. apply negb_true_iff in Hc.
  by rewrite Hc, IH.
Qed.
Lemma segs_app v w : forallb not_slash v = true → segs (v ++ "/" :: w) = v :: segs w.
Proof.
  induction v as [|c v IH]; [done|]. intros [Hc Hv]%andb_prop. cbn [app segs]. unfold not_slash in Hc. apply negb_true_iff in Hc.
  by rewrite Hc, IH.
Qed.
Lemma segs_app_any v w : segs (v ++ "/" :: w) = segs v ++ segs w.
Proof.
  induction v as [|c v IH]; [done|]. cbn [app segs]. rewrite IH. destruct (String.eqb c "/"); [done|]. destruct (segs v) eqn:Hv; [|done].
  exfalso. revert Hv. clear. destruct v as [|d v]; simpl; [done|]. destruct (String.eqb d "/"); [done|]. by destruct (segs v).
Qed.
(** A text is one segment, or a segment, a slash and the rest. *)
Lemma segs_cases u : (∃ v, u = v ∧ forallb not_slash v = true) ∨ (∃ v w, u = v ++ "/" :: w ∧ forallb not_slash v = true).
Proof.
  induction u as [|c u IH]; [left; by exists []|]. destruct (String.eqb_spec c "/") as [->|Hc]; [right; by exists [], u|].
  assert (not_slash c = true) as Hn by (unfold not_slash; by apply negb_true_iff, String.eqb_neq).
  destruct IH as [(v & -> & Hv)|(v & w & -> & Hv)]; [left; exists (c :: v)|right; exists (c :: v), w]; simpl; by rewrite Hn.
Qed.
Lemma segs_ind (P : list string → Prop) :
  (∀ v, forallb not_slash v = true → P v) → (∀ v w, forallb not_slash v = true → P w → P (v ++ "/" :: w)) → ∀ u, P u.
Proof.
  intros Hone Hmore u. remember (length u) as n eqn:Hn. revert u Hn. induction (lt_wf n) as [n _ IH]. intros u ->.
  destruct (segs_cases u) as [(v & -> & Hv)|(v & w & -> & Hv)]; [by apply Hone|]. apply Hmore; [done|].
  eapply IH; [|done]. rewrite length_app. simpl. lia.
Qed.
Lemma newlines_segs u : forallb (forallb not_newline) (segs u) = forallb not_newline u.
Proof.
  induction u as [|c u IH]; [done|]. simpl. rewrite <- IH. destruct (String.eqb_spec c "/") as [->|Hc]; [done|].
  destruct (segs_cons u) as (x & xs & ->). simpl. by rewrite andb_assoc.
Qed.
Lemma lang_dirs r u : lang (RCat dirs r) u ↔ lang r u ∨ ∃ v w, u = v ++ "/" :: w ∧ forallb not_newline v = true ∧ lang r w.
Proof.
  rewrite lang_cat_inv. split.
  - intros (v & w & -> & [Hv|Hv]%lang_alt_inv & Hw).
    + right. apply lang_cat_inv in Hv as (v1 & v2 & -> & Hv1%lang_star_set & (c & -> & Hc)%lang_set_inv).
      apply String.eqb_eq in Hc as <-. exists v1, w. by rewrite <- (assoc_L (++)).
    + left. by apply lang_eps_inv in Hv as ->.
  - intros [Hr|(v & w & -> & Hv & Hr)].
    + exists [], u. split_and!; [done|apply lang_alt_r; constructor|done].
    + exists (v ++ ["/"]), w. rewrite <- (assoc_L (++)). split_and!; [done| |done]. apply lang_alt_l, lang_cat; [by apply lang_star_set|by constructor].
Qed.
(** A segment without [**]: the translation asks for a text of one segment that
    the segment matches, and for the rest. *)
Definition ends (rest : list string) : Prop := match rest with [] => True | c :: _ => c = "/" end.
Lemma wild_star p x : wild ("*" :: p) x = wild p x || match x with [] => false | _ :: x => wild ("*" :: p) x end.
Proof. by destruct x. Qed.
Lemma wild_star_lang p x : wild ("*" :: p) x = true ↔ ∃ v w, x = v ++ w ∧ wild p w = true.
Proof.
  induction x as [|c x IH]; rewrite wild_star, orb_true_iff.
  - split; [intros [?|?]; [by exists [], []|done]|]. intros (v & w & Hx & ?). left. by destruct v, w.
  - rewrite IH. split.
    + intros [?|(v & w & -> & ?)]; [by exists [], (c :: x)|by exists (c :: v), w].
    + intros (v & w & Hx & ?). destruct v as [|d v]; simpl in Hx; [subst w; by left|]. injection Hx as -> ->. right. eauto.
Qed.
Lemma glob_regex_star p rest : ends rest → apart ("*" :: p) = true → forallb not_slash p = true →
  glob_regex ("*" :: p ++ rest) = RCat (RStar (RSet not_slash)) (glob_regex (p ++ rest)).
Proof.
  intros He Ha Hp. destruct p as [|c p]; simpl in *; [destruct rest as [|d rest]; [done|]; simpl in He; by subst d|].
  destruct (String.eqb c "*"); [done|]. done.
Qed.
Lemma apart_tail c p : apart (c :: p) = true → apart p = true.
Proof. destruct p; [done|]. by intros [_ ?]%andb_prop. Qed.
Lemma glob_segment p rest u : ends rest → apart p = true → forallb not_slash p = true →
  lang (glob_regex (p ++ rest)) u ↔ ∃ v w, u = v ++ w ∧ forallb not_slash v = true ∧ wild p v = true ∧ lang (glob_regex rest) w.
Proof.
  intros He. revert u. induction p as [|c p IH]; intros u Ha Hp.
  { split; [intros Hu; by exists [], u|]. intros (v & w & -> & _ & Hv & Hw). by destruct v. }
  pose proof (apart_tail _ _ Ha) as Ha'. simpl in Hp. apply andb_prop in Hp as [Hc Hp]. destruct (String.eqb_spec c "*") as [->|Hstar].
  - cbn [app]. rewrite glob_regex_star by done. rewrite lang_cat_inv. setoid_rewrite IH; [|done..]. setoid_rewrite lang_star_set. split.
    + intros (x & y & -> & Hx & v & w & -> & Hv & Hwild & Hw). exists (x ++ v), w. rewrite forallb_app, Hx, Hv. split_and!; [by rewrite (assoc_L (++))|done| |done].
      apply wild_star_lang. eauto.
    + intros (v & w & -> & Hv & (x & y & -> & Hy)%wild_star_lang & Hw). rewrite forallb_app in Hv. apply andb_prop in Hv as [Hx Hv].
      exists x, (y ++ w). rewrite (assoc_L (++)). split_and!; [done..|]. by exists y, w.
  - apply String.eqb_neq in Hstar. cbn [app glob_regex wild]. rewrite Hstar. destruct (String.eqb_spec c "?") as [->|Hq].
    + rewrite lang_cat_inv. setoid_rewrite IH; [|done..]. setoid_rewrite lang_set_inv. split.
      * intros (x & y & -> & (d & -> & Hd) & v & w & -> & Hv & Hwild & Hw). exists (d :: v), w. simpl. by rewrite Hd, Hv.
      * intros (v & w & -> & Hv & Hwild & Hw). destruct v as [|d v]; [done|]. simpl in Hv. apply andb_prop in Hv as [Hd Hv].
        exists [d], (v ++ w). split_and!; [done|by exists d|by exists v, w].
    + rewrite lang_cat_inv. setoid_rewrite IH; [|done..]. setoid_rewrite lang_set_inv. split.
      * intros (x & y & -> & (d & -> & <-%String.eqb_eq) & v & w & -> & Hv & Hwild & Hw). exists (c :: v), w. simpl.
        by rewrite Hc, Hv, String.eqb_refl.
      * intros (v & w & -> & Hv & Hwild & Hw). destruct v as [|d v]; [done|]. apply andb_prop in Hwild as [<-%String.eqb_eq Hwild].
        simpl in Hv. apply andb_prop in Hv as [Hd Hv]. exists [c], (v ++ w). split_and!; [done|exists c; by rewrite String.eqb_refl|by exists v, w].
Qed.
Lemma seg_match_any q ps xs : seg_match (["*"; "*"] :: q :: ps) xs =
  seg_match (q :: ps) xs || match xs with [] => false | x :: xs => forallb not_newline x && seg_match (["*"; "*"] :: q :: ps) xs end.
Proof. by destruct xs. Qed.
Lemma seg_match_nil ps : ps ≠ [] → seg_match ps [] = false.
Proof.
  induction ps as [|p ps IH]; [done|]. intros _. simpl. destruct (is_any p); [|done]. destruct ps as [|q ps]; [done|].
  change ((seg_match (q :: ps) [] || false) = false). by rewrite IH.
Qed.
Lemma forallb_slash v w : forallb not_newline (v ++ "/" :: w) = forallb not_newline v && forallb not_newline w.
Proof. by rewrite forallb_app. Qed.
(** [**/] skips whole segments. *)
Lemma skip_segs q ps u : seg_match (["*"; "*"] :: q :: ps) (segs u) = true ↔
  seg_match (q :: ps) (segs u) = true ∨ ∃ v w, u = v ++ "/" :: w ∧ forallb not_newline v = true ∧ seg_match (q :: ps) (segs w) = true.
Proof.
  induction u as [v Hv|v w Hv IH] using segs_ind.
  - rewrite segs_plain by done. rewrite seg_match_any, seg_match_any, seg_match_nil, andb_false_r, orb_false_r by done. split; [by left|].
    intros [?|(x & y & -> & _)]; [done|]. rewrite forallb_app in Hv. simpl in Hv. by rewrite andb_false_r in Hv.
  - rewrite segs_app by done. rewrite seg_match_any, orb_true_iff, andb_true_iff, IH. split.
    + intros [?|[Hn [Hw|(x & y & -> & Hx & Hy)]]]; [by left|right; by exists v, w|]. right. exists (v ++ "/" :: x), y.
      rewrite forallb_slash, Hn, Hx, <- (assoc_L (++)). done.
    + intros [?|(x & y & Hxy & Hx & Hy)]; [by left|]. right.
      apply app_eq_inv in Hxy as [(k & -> & Hk)|(k & -> & Hk)]; destruct k as [|c k]; simpl in Hk.
      * injection Hk as ->. rewrite (right_id_L [] (++)). split; [done|by left].
      * injection Hk as <- _. rewrite forallb_app in Hv. simpl in Hv. by rewrite andb_false_r in Hv.
      * injection Hk as ->. rewrite (right_id_L [] (++)) in Hx. split; [done|by left].
      * injection Hk as <- ->. rewrite forallb_slash in Hx. apply andb_prop in Hx as [? ?]. split; [done|]. right. by exists k, y.
Qed.
Fixpoint unsegs (ps : list (list string)) : list string :=
  match ps with [] => [] | [p] => p | p :: ps => p ++ "/" :: unsegs ps end.
Lemma unsegs_segs u : unsegs (segs u) = u ∧ Forall (λ p, forallb not_slash p = true) (segs u).
Proof.
  induction u as [v Hv|v w Hv [IH1 IH2]] using segs_ind; [rewrite segs_plain by done; by repeat constructor|].
  rewrite segs_app by done. split; [|by constructor]. destruct (segs_cons w) as (x & xs & Hw). rewrite Hw in IH1 |- *.
  change (v ++ "/" :: unsegs (x :: xs) = v ++ "/" :: w). by rewrite IH1.
Qed.
Lemma seg_wild p ps x xs : is_any p = false → seg_match (p :: ps) (x :: xs) = wild p x && seg_match ps xs.
Proof. intros Hp. simpl. by rewrite Hp. Qed.
Lemma is_any_eq p : is_any p = true → p = ["*"; "*"].
Proof. destruct p as [|a [|b [|c p]]]; try done. simpl. by intros [->%String.eqb_eq ->%String.eqb_eq]%andb_prop. Qed.
Lemma glob_segments ps u : ps ≠ [] → Forall (λ p, forallb not_slash p = true) ps → forallb (λ p, is_any p || apart p) ps = true →
  lang (glob_regex (unsegs ps)) u ↔ seg_match ps (segs u) = true.
Proof.
  intros Hne Hsl. revert u Hne. induction Hsl as [|p ps Hp Hps IH]; intros u Hne Hwf; [done|clear Hne]. simpl in Hwf. apply andb_prop in Hwf as [Hpw Hwf].
  destruct (is_any p) eqn:Hany; [apply is_any_eq in Hany as ->|simpl in Hpw]; destruct ps as [|q ps].
  - change (glob_regex (unsegs [["*"; "*"]])) with (RCat (RStar (RSet not_newline)) REps). rewrite lang_cat_inv.
    setoid_rewrite lang_star_set. setoid_rewrite lang_eps_inv. simpl. destruct (segs_cons u) as (x & xs & Hu). pose proof (newlines_segs u) as Hn.
    rewrite Hu in Hn |- *. simpl in Hn |- *. rewrite Hn. split; [intros (v & w & -> & Hv & ->); by rewrite (right_id_L [] (++))|].
    intros Hnl. exists u, []. by rewrite (right_id_L [] (++)).
  - change (glob_regex (unsegs (["*"; "*"] :: q :: ps))) with (RCat dirs (glob_regex (unsegs (q :: ps)))). rewrite lang_dirs, skip_segs.
    setoid_rewrite IH; done.
  - cbn [unsegs]. rewrite <- (right_id_L [] (++) p) at 1. rewrite glob_segment by done. setoid_rewrite lang_eps_inv. split.
    + intros (v & w & -> & Hv & Hw & ->). rewrite (right_id_L [] (++)), segs_plain by done. by rewrite seg_wild, Hw.
    + induction u as [v Hv|v w Hv _] using segs_ind; [rewrite segs_plain by done|rewrite segs_app by done].
      * rewrite seg_wild by done. intros [Hw _]%andb_prop. exists v, []. by rewrite (right_id_L [] (++)).
      * rewrite seg_wild by done. destruct (segs_cons w) as (x & xs & ->). by rewrite andb_false_r.
  - change (unsegs (p :: q :: ps)) with (p ++ "/" :: unsegs (q :: ps)). rewrite glob_segment by done. split.
    + intros (v & w & -> & Hv & Hw & Hr). change (glob_regex ("/" :: unsegs (q :: ps))) with (RCat (RLit "/") (glob_regex (unsegs (q :: ps)))) in Hr.
      apply lang_cat_inv in Hr as (x & y & -> & (c & -> & <-%String.eqb_eq)%lang_set_inv & Hy). cbn [app]. rewrite segs_app, seg_wild, Hw by done.
      by apply IH.
    + induction u as [v Hv|v w Hv _] using segs_ind; [rewrite segs_plain by done|rewrite segs_app by done]; rewrite seg_wild by done.
      * by rewrite seg_match_nil, andb_false_r.
      * intros [Hw Hr]%andb_prop. exists v, ("/" :: w). split_and!; [done..|].
        change (glob_regex ("/" :: unsegs (q :: ps))) with (RCat (RLit "/") (glob_regex (unsegs (q :: ps)))).
        apply lang_cat_inv. exists ["/"], w. split_and!; [done|by constructor|]. by apply IH.
Qed.

(** The translation of a glob into a regular expression means what the comment
    of globToRegex says, for every glob in which [**] stands alone between slashes
    and every path: segment by segment, [**/] accepts any number of directories
    whose names have no line break, a [*] any text and a [?] any rune of one
    segment, and a trailing [**] whatever follows. *)
Lemma glob_is_by_segments glob path : wf_glob (runes glob) = true →
  MatchString (globToRegex glob) path = seg_match (segs (runes glob)) (segs (runes path)).
Proof.
  intros Hwf. apply eq_true_iff_eq. unfold MatchString, globToRegex. rewrite re_match_lang.
  destruct (unsegs_segs (runes glob)) as [Heq Hsl]. rewrite <- Heq at 1. apply glob_segments; [|done..].
  destruct (segs_cons (runes glob)) as (x & xs & ->). done.
Qed.
