(* ===== verification/Adapter.v ===== *)
(** What the adapters of the ecosystems share (internal/core/port/ecosystem.go;
    apt.go, and its copies apk.go, pacman.go, rpmmmd.go, xbps.go and nix.go under
    internal/mod/ecosystem): the table of upstreams kept for thirty seconds, the
    table of checksums, the resolution of a path and the class of an object. The
    modules of the ecosystems repeat the code word for word; here it is a section
    over what differs, and Ecosystems instantiates it. *)
From S2P Require Import Prelude GoStr Domain Port CacheEngine Glob.
Local Open Scope Z_scope.

Definition remoteCacheTTL : Z := 30 * second.

(** [splitRemotePath]: a name and the path under it, which begins with a slash. *)
Fixpoint index_byte_split (c : ascii) (s : string) : option (string * string) :=
  match s with
  | EmptyString => None
  | String d r => if Ascii.eqb d c then Some (EmptyString, s) else prod_map (String d) id <$> index_byte_split c r
  end.
Definition bad_name_byte (c : ascii) : bool := Ascii.eqb c "\" || Ascii.eqb c "/" || Ascii.eqb c (byte 0).
Definition splitRemotePath (rest : string) : option (string * string) :=
  let '(name, upstreamPath) := default (rest, "/") (index_byte_split "/" rest) in
  if String.eqb name "" || String.eqb name "." || String.eqb name ".." || negb (all_bytes (λ c, negb (bad_name_byte c)) name) then None
  else Some (name, upstreamPath).
Example split_paths : splitRemotePath "debian/pool/a.deb" = Some ("debian", "/pool/a.deb") ∧ splitRemotePath "debian" = Some ("debian", "/") ∧
  splitRemotePath "../x" = None ∧ splitRemotePath "/x" = None ∧ splitRemotePath "a//b" = Some ("a", "//b").
Proof. vm_compute. done. Qed.

(** [hexChecksum] *)
Definition is_hex (c : ascii) : bool := is_digit c || between "a" "f" c.
Definition hexChecksum (unicode_lower : string → string) (algo hex : string) : option Checksum :=
  let hex := ToLower unicode_lower (trim_space hex) in
  if String.eqb hex "" || negb (all_bytes is_hex hex) then None else Some (mk_Checksum algo hex).

(** * The adapter

    [remoteEntry] has room for an error, which nothing sets. *)
Record remoteEntry := mk_remoteEntry { en_remote : Remote; en_err : option error }.
Record Adapter (D : Type) := mk_Adapter {
  ad_catalogue : D;                              (* the port RemoteStore *)
  ad_ticks : nat;                                (* readings of the clock *)
  ad_remoteCache : gmap string remoteEntry;
  ad_cacheLoaded : Z;
  ad_sums : gmap Z (gmap string Checksum)        (* checksumIndex *)
}.
Arguments mk_Adapter {D}.
Arguments ad_catalogue {D}.
Arguments ad_ticks {D}.
Arguments ad_remoteCache {D}.
Arguments ad_cacheLoaded {D}.
Arguments ad_sums {D}.

(** [checksumIndex.replace] and [lookup] *)
Definition sums_replace {D} (id : Z) (sums : gmap string Checksum) (a : Adapter D) : Adapter D :=
  mk_Adapter (ad_catalogue a) (ad_ticks a) (ad_remoteCache a) (ad_cacheLoaded a) (<[id := sums]> (ad_sums a)).
Definition sums_lookup {D} (id : Z) (upstreamPath : string) (a : Adapter D) : option Checksum :=
  sums ← ad_sums a !! id; sums !! upstreamPath.

Section adapter.
  Context {D : Type} `{!RemoteStore D} (clock : nat → Z).
(** [New]: a clock counts from Go's zero time, which is also when the empty table
    was loaded. *)
Definition New_adapter (d : D) : Adapter D := mk_Adapter d 0 ∅ 0 ∅.
Definition ad_Now (a : Adapter D) : Z * Adapter D :=
  (clock (ad_ticks a), mk_Adapter (ad_catalogue a) (S (ad_ticks a)) (ad_remoteCache a) (ad_cacheLoaded a) (ad_sums a)).
Definition entries (rs : list Remote) : gmap string remoteEntry :=
  foldl (λ m r, <[rm_Name r := mk_remoteEntry r None]> m) ∅ rs.
Definition reloadLocked (a : Adapter D) : option error * Adapter D :=
  let '(remotes, d) := Remotes_in (ad_catalogue a) in
  let '(now, a) := ad_Now (mk_Adapter d (ad_ticks a) (ad_remoteCache a) (ad_cacheLoaded a) (ad_sums a)) in
  match remotes with
  | Err e => (Some e, mk_Adapter (ad_catalogue a) (ad_ticks a) (ad_remoteCache a) now (ad_sums a))
  | Ok rs => (None, mk_Adapter (ad_catalogue a) (ad_ticks a) (entries rs) now (ad_sums a))
  end.
Definition entry_answer (e : remoteEntry) : res Remote := match en_err e with None => Ok (en_remote e) | Some x => Err x end.
(** [lookupRemote]: what it does under the read lock, with the time it has read;
    and, when that gives no answer, under the write lock. Other requests may come
    between the two. *)
Definition lookup_read (now : Z) (name : string) (a : Adapter D) : option (res Remote) :=
  if time_Sub now (ad_cacheLoaded a) <? remoteCacheTTL then entry_answer <$> ad_remoteCache a !! name else None.
Definition lookup_write (now : Z) (name : string) (a : Adapter D) : res Remote * Adapter D :=
  let '(err, a) := if remoteCacheTTL <=? time_Sub now (ad_cacheLoaded a) then reloadLocked a else (None, a) in
  match ad_remoteCache a !! name with
  | Some e => (entry_answer e, a)
  | None => (Err (match err with Some x => x | None => NotFoundError "remote" name end), a)
  end.
Definition lookupRemote (name : string) (a : Adapter D) : res Remote * Adapter D :=
  let '(now, a) := ad_Now a in
  match lookup_read now name a with Some x => (x, a) | None => lookup_write now name a end.

(** [Resolve], over the prefix of the public paths, the name, what becomes of a
    path in a key, and whether there is a table of checksums. *)
Definition Resolve (URLPrefix Name : string) (key_path : string → string) (with_sums : bool) (ecosystemPath : string)
    (a : Adapter D) : option Target * Adapter D :=
  let prefix := "/" +:+ URLPrefix +:+ "/" in
  if negb (has_prefix ecosystemPath prefix) then (None, a)
  else match splitRemotePath (trim_prefix ecosystemPath prefix) with
  | None => (None, a)
  | Some (name, upstreamPath) =>
      match lookupRemote name a with
      | (Err _, a) => (None, a)
      | (Ok remote, a) =>
          if negb (rm_Enabled remote) then (None, a)
          else
            (Some (mk_Target (trim_right_slash (rm_BaseURL remote) +:+ upstreamPath) upstreamPath
                     ("cache/" +:+ Name +:+ "/" +:+ fmt_int (rm_ID remote) +:+ key_path upstreamPath)
                     (default (mk_Checksum "" "") (if with_sums then sums_lookup (rm_ID remote) upstreamPath a else None))
                     (rm_ProxyURL remote)), a)
      end
  end.
End adapter.

(** [Classify]: the first rule that matches. *)
Definition rules := list (regex * Class_).
Definition mutableUnknownTTL : Z := minute.
Definition first_rule (rs : rules) (path : string) : Class_ :=
  match List.find (λ r, MatchString r.1 path) rs with Some r => r.2 | None => Mutable mutableUnknownTTL end.
Definition Classify (rs : rules) (upstreamPath : string) : res Class_ :=
  if String.eqb upstreamPath "" then Err (ValidationError "путь upstream" upstreamPath "пустой")
  else Ok (first_rule rs (trim_prefix upstreamPath "/")).
(** [compileRules] *)
Inductive rawRule := Glob (glob : string) (class : Class_) | Regex (re : regex) (class : Class_).
Definition compileRules (raw : list rawRule) : rules :=
  (λ r, match r with Glob g c => (globToRegex g, c) | Regex re c => (re, c) end) <$> raw.

(** * Names and paths *)
Lemma index_byte_split_spec c s : match index_byte_split c s with
  | Some (l, r) => s = l +:+ r ∧ no_sep c l = true ∧ ∃ r', r = String c r'
  | None => no_sep c s = true
  end.
Proof.
  induction s as [|d s IH]; [done|]. simpl. destruct (Ascii.eqb_spec d c) as [->|Hd]; [split_and!; [done|done|eauto]|].
  assert (negb (Ascii.eqb c d) = true) as Hn by (apply negb_true_iff, Ascii.eqb_neq; congruence).
  destruct (index_byte_split c s) as [[l r]|]; simpl in *; unfold no_sep in *; simpl; rewrite Hn; [|done].
  destruct IH as (-> & ? & ?). done.
Qed.
(** The name of a path has no slash, and the rest begins with one. *)
Lemma splitRemotePath_Some rest name up : splitRemotePath rest = Some (name, up) →
  no_sep "/" name = true ∧ name ≠ "" ∧ name ≠ "." ∧ name ≠ ".." ∧ (∃ u, up = String "/" u) ∧ (rest = name +:+ up ∨ rest = name ∧ up = "/").
Proof.
  unfold splitRemotePath. pose proof (index_byte_split_spec "/" rest) as Hs. destruct (index_byte_split "/" rest) as [[l r]|]; simpl.
  - destruct Hs as (-> & Hl & Hr). destruct (String.eqb_spec l ""), (String.eqb_spec l "."), (String.eqb_spec l ".."); try done. simpl.
    destruct (all_bytes _ l); [|done]. simpl. intros [= <- <-]. split_and!; auto.
  - destruct (String.eqb_spec rest ""), (String.eqb_spec rest "."), (String.eqb_spec rest ".."); try done. simpl.
    destruct (all_bytes _ rest); [|done]. simpl. intros [= <- <-]. split_and!; eauto.
Qed.

(** What a resolution says. *)
Lemma Resolve_Some {D} `{!RemoteStore D} clock URLPrefix Name key_path with_sums path (a a' : Adapter D) t :
  Resolve clock URLPrefix Name key_path with_sums path a = (Some t, a') →
  ∃ name up r, path = "/" +:+ URLPrefix +:+ "/" +:+ trim_prefix path ("/" +:+ URLPrefix +:+ "/") ∧
    splitRemotePath (trim_prefix path ("/" +:+ URLPrefix +:+ "/")) = Some (name, up) ∧
    lookupRemote clock name a = (Ok r, a') ∧ rm_Enabled r = true ∧
    t = mk_Target (trim_right_slash (rm_BaseURL r) +:+ up) up ("cache/" +:+ Name +:+ "/" +:+ fmt_int (rm_ID r) +:+ key_path up)
          (default (mk_Checksum "" "") (if with_sums then sums_lookup (rm_ID r) up a' else None)) (rm_ProxyURL r).
Proof.
  unfold Resolve. destruct (has_prefix path _) eqn:Hp; [|done]. simpl negb. cbv iota.
  destruct (splitRemotePath _) as [[name up]|] eqn:Hs; [|done]. destruct (lookupRemote clock name a) as [[r|e] a1] eqn:Hl; [|done].
  destruct (rm_Enabled r) eqn:He; [|done]. intros [= <- <-]. exists name, up, r. split_and!; [|done..].
  apply has_prefix_spec in Hp as [rest Hp]. rewrite Hp at 1. unfold trim_prefix. rewrite Hp, (proj2 (strip_prefix_Some _ _ rest)) by done. simpl default.
  by rewrite <- !app_assoc.
Qed.

(** * The table of upstreams *)
Lemma le_time_Sub k a b : in_int64 k → min_int64 < k → (k <=? time_Sub a b) = (k <=? a - b).
Proof.
  unfold in_int64, time_Sub. intros Hk Hm. destruct (Z.leb_spec k (a - b)); [apply Z.leb_le; lia|apply Z.leb_gt; lia].
Qed.
Lemma ttl_time_Sub a b : (remoteCacheTTL <=? time_Sub a b) = (remoteCacheTTL <=? a - b).
Proof. apply le_time_Sub; vm_compute; [split; discriminate|done]. Qed.
Section lookups.
  Context {D : Type} `{!RemoteStore D} (clock : nat → Z).
  Abbreviation Adapter := (Adapter D).

(** The last upstream of a name in a reading of the table. *)
Definition named (name : string) (rs : list Remote) : option Remote := last (base.filter (λ r, rm_Name r = name) rs).
Lemma entries_lookup rs name : entries rs !! name = (λ r, mk_remoteEntry r None) <$> named name rs.
Proof.
  unfold entries, named. induction rs as [|r rs IH] using rev_ind; [done|]. rewrite foldl_app, filter_app. simpl.
  rewrite filter_cons, filter_nil. destruct (decide (rm_Name r = name)) as [<-|Hn].
  - by rewrite lookup_insert_eq, last_snoc.
  - by rewrite lookup_insert_ne, (right_id_L [] (++)).
Qed.

(** ** Requests that interleave

    A request looks under the read lock ([Begin]); one that has no answer waits and
    goes on under the write lock ([Finish]); in between anything may change the
    table of upstreams ([Outside]). [ls_log] records the readings of the table, the
    newest first, with the time at which they were noted. *)
Inductive lookup_event := Begin (name : string) | Finish (i : nat) | Outside (f : D → D).
Record lookups := mk_lookups { ls_adapter : Adapter; ls_waiting : list (Z * string); ls_log : list (Z * res (list Remote)) }.
(** The answer of a step: to whom, with what time, and what. *)
Definition answer : Type := Z * string * res Remote.
Definition lookup_step (e : lookup_event) (s : lookups) : option answer * lookups :=
  match e with
  | Begin name =>
      let '(now, a) := ad_Now clock (ls_adapter s) in
      match lookup_read now name a with
      | Some x => (Some (now, name, x), mk_lookups a (ls_waiting s) (ls_log s))
      | None => (None, mk_lookups a (ls_waiting s ++ [(now, name)]) (ls_log s))
      end
  | Finish i =>
      match ls_waiting s !! i with
      | None => (None, s)
      | Some (now, name) =>
          let a := ls_adapter s in
          let '(x, a') := lookup_write clock now name a in
          let log := if remoteCacheTTL <=? time_Sub now (ad_cacheLoaded a) then (ad_cacheLoaded a', (Remotes_in (ad_catalogue a)).1) :: ls_log s else ls_log s in
          (Some (now, name, x), mk_lookups a' (delete i (ls_waiting s)) log)
      end
  | Outside f =>
      let a := ls_adapter s in
      (None, mk_lookups (mk_Adapter (f (ad_catalogue a)) (ad_ticks a) (ad_remoteCache a) (ad_cacheLoaded a) (ad_sums a)) (ls_waiting s) (ls_log s))
  end.
(** What a run answers, each answer with the readings there were by then. *)
Fixpoint lookup_run (es : list lookup_event) (s : lookups) : list (answer * list (Z * res (list Remote))) :=
  match es with
  | [] => []
  | e :: es => let '(x, s) := lookup_step e s in match x with Some x => [(x, ls_log s)] | None => [] end ++ lookup_run es s
  end.
(** The newest reading that succeeded. *)
Definition last_ok (log : list (Z * res (list Remote))) : list Remote :=
  default [] (head (omap (λ r, match r.2 with Ok rs => Some rs | Err _ => None end) log)).
(** Readings are noted half a minute apart, or more. *)
Fixpoint spaced (log : list (Z * res (list Remote))) : Prop :=
  match log with
  | (t, _) :: ((t', _) :: _) as log' => t' + remoteCacheTTL <= t ∧ spaced log'
  | _ => True
  end.

Definition loaded_at (log : list (Z * res (list Remote))) : Z := match log with (t, _) :: _ => t | [] => 0 end.
Record lookups_inv (s : lookups) : Prop := {
  li_loaded : ad_cacheLoaded (ls_adapter s) = loaded_at (ls_log s);
  li_cache : ad_remoteCache (ls_adapter s) = entries (last_ok (ls_log s));
  li_spaced : spaced (ls_log s);
  li_waiting now name : (now, name) ∈ ls_waiting s → ∃ n, now = clock n ∧ (n < ad_ticks (ls_adapter s))%nat
}.
(** An answer that agrees with the readings: fresh, and what the newest reading
    that succeeded says. *)
Definition agrees (x : answer) (log : list (Z * res (list Remote))) : Prop :=
  let '(now, name, r) := x in
  log ≠ [] ∧ now - loaded_at log < remoteCacheTTL ∧
  match named name (last_ok log) with
  | Some rem => r = Ok rem
  | None => ∃ e, r = Err e
  end.

Lemma lookup_read_spec now name (a : Adapter) log : ad_cacheLoaded a = loaded_at log → ad_remoteCache a = entries (last_ok log) →
  log ≠ [] ∨ remoteCacheTTL <= now →
  match lookup_read now name a with Some x => agrees (now, name, x) log | None => True end.
Proof.
  intros Hl Hc Hlog. unfold lookup_read. rewrite <- (negb_involutive (_ <? _)), <- Z.leb_antisym, ttl_time_Sub.
  destruct (Z.leb_spec remoteCacheTTL (now - ad_cacheLoaded a)) as [|Hlt]; [done|]. simpl. rewrite Hc, entries_lookup.
  destruct (named name (last_ok log)) as [r|] eqn:Hn; [|done]. simpl. unfold agrees. rewrite ?Hn. split_and!; [|by rewrite <- Hl|done].
  intros ->. by rewrite Hl in Hlt.
Qed.
Hypothesis clock_mono : ∀ n m, (n <= m)%nat → clock n <= clock m.
(** The clock is past the first half minute of Go's year one. *)
Hypothesis clock_late : remoteCacheTTL <= clock 0.

Lemma lookup_write_inv now name (a : Adapter) log : ad_cacheLoaded a = loaded_at log → ad_remoteCache a = entries (last_ok log) →
  spaced log → (∃ n, now = clock n ∧ (n < ad_ticks a)%nat) →
  let '(x, a') := lookup_write clock now name a in
  let log' := if remoteCacheTTL <=? time_Sub now (ad_cacheLoaded a) then (ad_cacheLoaded a', (Remotes_in (ad_catalogue a)).1) :: log else log in
  ad_cacheLoaded a' = loaded_at log' ∧ ad_remoteCache a' = entries (last_ok log') ∧ spaced log' ∧ (ad_ticks a <= ad_ticks a')%nat ∧
  agrees (now, name, x) log'.
Proof.
  intros Hl Hc Hsp (n & -> & Hn). assert (remoteCacheTTL <= clock n) as Hlate by (pose proof (clock_mono 0 n ltac:(lia)); lia).
  pose proof (clock_mono n (ad_ticks a) ltac:(lia)) as Hmono. unfold lookup_write. rewrite ttl_time_Sub.
  destruct (Z.leb_spec remoteCacheTTL (clock n - ad_cacheLoaded a)) as [Hold|Hnew].
  - assert (spaced ((clock (ad_ticks a), (Remotes_in (ad_catalogue a)).1) :: log)) as Hsp'.
    { destruct log as [|[t rd] log]; [done|]. simpl. simpl in Hl. split; [lia|done]. }
    assert (clock n - clock (ad_ticks a) < remoteCacheTTL) as Hfresh by (unfold remoteCacheTTL, second; lia).
    unfold reloadLocked. destruct (Remotes_in (ad_catalogue a)) as [[rs|e] d]; cbn -[agrees remoteCacheTTL entries spaced] in *.
    + assert (last_ok ((clock (ad_ticks a), Ok rs) :: log) = rs) as Hlast by done. rewrite entries_lookup.
      destruct (named name rs) as [r|] eqn:Hnm; cbn -[agrees entries spaced last_ok]; (split_and!; [done|done|done|lia|]);
        unfold agrees; rewrite Hlast, ?Hnm; split_and!; eauto.
    + assert (last_ok ((clock (ad_ticks a), Err e) :: log) = last_ok log) as Hlast by done. rewrite Hc, entries_lookup.
      destruct (named name (last_ok log)) as [r|] eqn:Hnm; cbn -[agrees entries spaced last_ok]; (split_and!; [done|by rewrite Hlast|done|lia|]);
        unfold agrees; rewrite Hlast, ?Hnm; split_and!; eauto.
  - assert (log ≠ []) as Hne by (intros ->; simpl in Hl; lia). rewrite Hc, entries_lookup.
    destruct (named name (last_ok log)) as [r|] eqn:Hnm; simpl; (split_and!; [done..|lia|]); unfold agrees; rewrite ?Hnm, <- ?Hl; eauto.
Qed.
Lemma lookup_step_inv e s : lookups_inv s →
  let '(x, s') := lookup_step e s in lookups_inv s' ∧ match x with Some x => agrees x (ls_log s') | None => True end.
Proof.
  intros [H1 H2 H3 H4]. destruct e as [name|i|f]; simpl.
  - set (a := mk_Adapter _ _ _ _ _). pose proof (clock_mono 0 (ad_ticks (ls_adapter s)) ltac:(lia)) as Hlate.
    pose proof (lookup_read_spec (clock (ad_ticks (ls_adapter s))) name a (ls_log s) H1 H2 ltac:(right; lia)) as Hx.
    destruct (lookup_read _ name a) as [x|]; (split; [split; simpl; try done|done]).
    + intros now n Hin. destruct (H4 now n Hin) as (k & ? & ?). exists k. split; [done|lia].
    + intros now n [Hin|[= -> ->]%list_elem_of_singleton]%elem_of_app; [destruct (H4 now n Hin) as (k & ? & ?)|]; eexists; split; [done|lia|done|lia].
  - destruct (ls_waiting s !! i) as [[now name]|] eqn:Hi; [|by split].
    pose proof (lookup_write_inv now name (ls_adapter s) (ls_log s) H1 H2 H3 (H4 now name ltac:(by eapply list_elem_of_lookup_2))) as Hw.
    destruct (lookup_write clock now name (ls_adapter s)) as [x a']. destruct Hw as (G1 & G2 & G3 & G4 & G5). split; [|done].
    split; simpl; [done..|]. intros now' name' Hin. destruct (H4 now' name') as (k & ? & ?); [by eapply list_elem_of_delete_inv|].
    exists k. split; [done|lia].
  - split; [|done]. by split.
Qed.
Definition begun (d : D) : lookups := mk_lookups (New_adapter d) [] [].
Lemma begun_inv d : lookups_inv (begun d).
Proof. split; simpl; [done..|]. by intros now name ?%not_elem_of_nil. Qed.

(** C31: the upstreams are read again at least every half minute while there are
    requests, and no more often; what a failed reading would have shown is not seen
    until one succeeds. However requests interleave, whatever changes the table of upstreams meanwhile, and whichever
    readings of it fail: every request is answered from the newest reading that
    succeeded, after a reading was tried less than thirty seconds before the
    request began (or since); and however many requests there are, the table is
    read at most once in thirty seconds. *)
Theorem lookups_are_fresh es d :
  Forall (λ x, agrees x.1 x.2) (lookup_run es (begun d)) ∧
  spaced (ls_log (foldl (λ s e, (lookup_step e s).2) (begun d) es)).
Proof.
  pose proof (begun_inv d) as Hinv. revert Hinv. generalize (begun d). clear d.
  induction es as [|e es IH]; intros s Hinv; simpl; [split; [constructor|apply Hinv]|].
  pose proof (lookup_step_inv e s Hinv) as Hs. destruct (lookup_step e s) as [x s']. destruct Hs as [Hinv' Hx].
  destruct (IH s' Hinv') as [Hrun Hsp]. split; [|done]. destruct x as [x|]; [by constructor|done].
Qed.
End lookups.
