(* ===== verification/Ecosystems.v ===== *)
(** The six ecosystems as instances of Adapter: their names, their tables of rules
    and their resolution (apt.go, apk.go, pacman.go, rpmmmd.go, xbps.go, nix.go),
    with the meaning of the rules in terms of directories and file names, and the
    separation of the keys under which their objects are kept. *)
From S2P Require Import Prelude GoStr Domain Port CacheEngine Glob Adapter.
From Stdlib Require Import Btauto.
Local Open Scope Z_scope.

(** * Pieces of the regular expressions that are not globs *)
Definition seg : regex := RSet not_slash.                      (* [^/] *)
Definition RPlus (r : regex) : regex := RCat r (RStar r).
Fixpoint RTimes (n : nat) (r : regex) : regex := match n with O => REps | S n => RCat r (RTimes n r) end.
Definition RLits (s : string) : regex := foldr (λ c r, RCat (RLit c) r) REps (runes s).
Fixpoint RSeq (rs : list regex) : regex := match rs with [] => REps | [r] => r | r :: rs => RCat r (RSeq rs) end.
Definition one_of (alphabet : string) (c : string) : bool := existsb (String.eqb c) (runes alphabet).

Definition hex_digit : string → bool := one_of "0123456789abcdef".
(** [[^/]*[0-9a-f]{8,}[^/]*] *)
Definition hashed : regex := RSeq [RStar seg; RTimes 8 (RSet hex_digit); RStar (RSet hex_digit); RStar seg].

(** * The tables of rules *)
Definition mutableIndexTTL : Z := 5 * minute.
Definition mutableKeysTTL : Z := hour.
Definition apt_rules : list rawRule :=
  [Glob "pool/**/*.deb" Immutable; Glob "pool/**/*.udeb" Immutable; Glob "pool/**/*.ddeb" Immutable; Glob "pool/**/*.dsc" Immutable;
   Glob "pool/**/*.orig.tar.*" Immutable; Glob "pool/**/*.debian.tar.*" Immutable; Glob "pool/**/*.tar.xz" Immutable;
   Glob "pool/**/*.tar.gz" Immutable; Glob "pool/**/*.tar.lzma" Immutable; Glob "pool/**/*.tar.zst" Immutable;
   Glob "**/by-hash/SHA*/*" Immutable; Glob "**/by-hash/MD5*/*" Immutable;
   Glob "**/Release" (Mutable mutableIndexTTL); Glob "**/Release.gpg" (Mutable mutableIndexTTL); Glob "**/InRelease" (Mutable mutableIndexTTL);
   Glob "**/Packages*" (Mutable mutableIndexTTL); Glob "**/Sources*" (Mutable mutableIndexTTL); Glob "**/Contents-*" (Mutable mutableIndexTTL);
   Glob "**/i18n/*" (Mutable mutableIndexTTL); Glob "**/dep11/*" (Mutable mutableIndexTTL); Glob "**/cnf/Commands-*" (Mutable mutableIndexTTL)].
Definition apk_rules : list rawRule :=
  [Glob "**/*.apk" Immutable; Glob "**/APKINDEX.tar.gz" (Mutable mutableIndexTTL); Glob "**/APKINDEX.json" (Mutable mutableIndexTTL);
   Glob "**/APKINDEX.tar.gz.sig" (Mutable mutableIndexTTL); Glob "**/APKINDEX.json.sig" (Mutable mutableIndexTTL);
   Glob "keys/*" (Mutable mutableKeysTTL)].
Definition pacman_rules : list rawRule :=
  [Glob "**/*.pkg.tar.zst" Immutable; Glob "**/*.pkg.tar.xz" Immutable; Glob "**/*.pkg.tar.gz" Immutable;
   Glob "**/*.pkg.tar.zst.sig" Immutable; Glob "**/*.pkg.tar.xz.sig" Immutable; Glob "**/*.pkg.tar.gz.sig" Immutable;
   Regex (RSeq [dirs; RPlus seg; RLits ".db"]) (Mutable mutableIndexTTL);
   Regex (RSeq [dirs; RPlus seg; RLits ".files"]) (Mutable mutableIndexTTL);
   Regex (RSeq [dirs; RPlus seg; RLits ".db.sig"]) (Mutable mutableIndexTTL);
   Regex (RSeq [dirs; RPlus seg; RLits ".files.sig"]) (Mutable mutableIndexTTL);
   Regex (RSeq [dirs; RPlus seg; RLits ".db.tar."; RPlus seg]) (Mutable mutableIndexTTL);
   Regex (RSeq [dirs; RPlus seg; RLits ".files.tar."; RPlus seg]) (Mutable mutableIndexTTL);
   Glob "keys/*" (Mutable mutableKeysTTL)].
Definition rpm_rules : list rawRule :=
  [Glob "**/*.rpm" Immutable; Glob "**/*.drpm" Immutable; Glob "**/*.src.rpm" Immutable;
   Glob "**/repodata/repomd.xml" (Mutable mutableIndexTTL); Glob "**/repodata/repomd.xml.asc" (Mutable mutableIndexTTL);
   Glob "**/repodata/repomd.xml.key" (Mutable mutableIndexTTL);
   Regex (RSeq [dirs; RLits "repodata/"; hashed]) Immutable;
   Glob "**/repodata/*" (Mutable mutableIndexTTL)].
Definition xbps_rules : list rawRule :=
  [Glob "**/*.xbps" Immutable; Glob "**/*.xbps.sig2" Immutable; Glob "**/*.sig" Immutable;
   Regex (RSeq [RPlus seg; RLits "-repodata"]) (Mutable mutableIndexTTL)].
Definition nix_base32 : string := "0123456789abcdfghijklmnpqrsvwxyz".
Definition nix_rules : list rawRule :=
  [Regex (RSeq [RLits "nar/"; RTimes 52 (RSet (one_of nix_base32)); RLits ".nar.xz"]) Immutable;
   Regex (RSeq [RLits "nar/"; RTimes 52 (RSet (one_of nix_base32)); RLits ".nar"]) Immutable;
   Regex (RSeq [RTimes 32 (RSet (one_of nix_base32)); RLits ".narinfo"]) (Mutable hour);
   Glob "nix-cache-info" (Mutable hour); Glob "log/**" Immutable].

(** * The adapters *)
Inductive ecosystem := Apt | Apk | Pacman | Rpm | Xbps | Nix.
Definition apt_Name : string := "apt".
Definition apk_Name : string := "apk".
Definition pacman_Name : string := "pacman".
Definition rpm_Name : string := "rpm-md".
Definition rpm_URLPrefix : string := "rpm".
Definition xbps_Name : string := "xbps".
Definition nix_Name : string := "nix".
Definition apt_Classify := Classify (compileRules apt_rules).
Definition apk_Classify := Classify (compileRules apk_rules).
Definition pacman_Classify := Classify (compileRules pacman_rules).
Definition rpm_Classify := Classify (compileRules rpm_rules).
Definition xbps_Classify := Classify (compileRules xbps_rules).
Definition nix_Classify := Classify (compileRules nix_rules).
Section adapters.
  Context {D : Type} `{!RemoteStore D} (clock : nat → Z) (unicode_lower : string → string).
Definition apt_Resolve : string → Adapter D → option Target * Adapter D := Resolve clock apt_Name apt_Name (λ p, p) true.
Definition apk_Resolve : string → Adapter D → option Target * Adapter D := Resolve clock apk_Name apk_Name (ToLower unicode_lower) true.
Definition pacman_Resolve : string → Adapter D → option Target * Adapter D := Resolve clock pacman_Name pacman_Name (ToLower unicode_lower) false.
Definition rpm_Resolve : string → Adapter D → option Target * Adapter D := Resolve clock rpm_URLPrefix rpm_Name (ToLower unicode_lower) true.
Definition xbps_Resolve : string → Adapter D → option Target * Adapter D := Resolve clock xbps_Name xbps_Name (λ p, p) true.
Definition nix_Resolve : string → Adapter D → option Target * Adapter D := Resolve clock nix_Name nix_Name (ToLower unicode_lower) false.
Definition Resolve_of (e : ecosystem) : string → Adapter D → option Target * Adapter D :=
  match e with
  | Apt => apt_Resolve | Apk => apk_Resolve | Pacman => pacman_Resolve | Rpm => rpm_Resolve | Xbps => xbps_Resolve | Nix => nix_Resolve
  end.
End adapters.
Definition Name_of (e : ecosystem) : string :=
  match e with Apt => apt_Name | Apk => apk_Name | Pacman => pacman_Name | Rpm => rpm_Name | Xbps => xbps_Name | Nix => nix_Name end.
Definition Prefix_of (e : ecosystem) : string := match e with Rpm => rpm_URLPrefix | _ => Name_of e end.
Definition Classify_of (e : ecosystem) : string → res Class_ :=
  match e with
  | Apt => apt_Classify | Apk => apk_Classify | Pacman => pacman_Classify | Rpm => rpm_Classify | Xbps => xbps_Classify | Nix => nix_Classify
  end.
Example classes : apt_Classify "/pool/main/a/app/app_1.0_amd64.deb" = Ok Immutable ∧ apt_Classify "/dists/stable/InRelease" = Ok (Mutable mutableIndexTTL) ∧
  apt_Classify "/dists/stable/main/binary-amd64/by-hash/SHA256/00ff" = Ok Immutable ∧ apt_Classify "/ls-lR.gz" = Ok (Mutable minute) ∧
  pacman_Classify "/core/os/x86_64/core.db" = Ok (Mutable mutableIndexTTL) ∧ pacman_Classify "/.db" = Ok (Mutable minute) ∧
  rpm_Classify "/repodata/repomd.xml" = Ok (Mutable mutableIndexTTL) ∧ rpm_Classify "/repodata/0123456789ab-primary.xml.gz" = Ok Immutable ∧
  xbps_Classify "/x86_64-repodata" = Ok (Mutable mutableIndexTTL) ∧ xbps_Classify "/a/x86_64-repodata" = Ok (Mutable minute) ∧
  nix_Classify "/nix-cache-info" = Ok (Mutable hour) ∧ nix_Classify "/log/x.drv" = Ok Immutable ∧ nix_Classify "" = Err (ValidationError "путь upstream" "" "пустой").
Proof. vm_compute. done. Qed.

(** * What the rules say

    A path is its directories and its file name, each a list of runes. *)
Definition plain (ds : list (list string)) : bool := forallb (forallb not_newline) ds.
Definition exactly (s : string) (b : list string) : bool := bool_decide (b = runes s).
Definition begins (s : string) (b : list string) : bool := bool_decide (runes s `prefix_of` b).
Definition ends (s : string) (b : list string) : bool := bool_decide (runes s `suffix_of` b).
Fixpoint holds_text (s : string) (b : list string) : bool := begins s b || match b with [] => false | _ :: b => holds_text s b end.
(** A text before it, and one after it. *)
Definition stem_ends (s : string) (b : list string) : bool := match b with [] => false | _ :: b => ends s b end.
Fixpoint stem_holds (s : string) (b : list string) : bool :=
  match b with
  | [] => false
  | _ :: b => (begins s b && (length (runes s) <? length b)%nat) || stem_holds s b
  end.
Definition under (top : string) (ds : list (list string)) : bool := match ds with d :: ds => exactly top d && plain ds | [] => false end.
Definition in_dir (name : string) (ds : list (list string)) : bool :=
  match rev ds with d :: ds => exactly name d && plain ds | [] => false end.
Definition by_hash (ds : list (list string)) : bool :=
  match rev ds with h :: d :: ds => (begins "SHA" h || begins "MD5" h) && exactly "by-hash" d && plain ds | _ => false end.
(** Eight hexadecimal digits in a row. *)
Fixpoint has_hash (b : list string) : bool :=
  ((8 <=? length b)%nat && forallb hex_digit (take 8 b)) || match b with [] => false | _ :: b => has_hash b end.
Definition base32_name (n : nat) (suffix : string) (b : list string) : bool :=
  (n <=? length b)%nat && forallb (one_of nix_base32) (take n b) && exactly suffix (drop n b).

Definition class_of (e : ecosystem) (ds : list (list string)) (b : list string) : Class_ :=
  match e with
  | Apt =>
      if (under "pool" ds && (existsb (λ s, ends s b) [".deb"; ".udeb"; ".ddeb"; ".dsc"; ".tar.xz"; ".tar.gz"; ".tar.lzma"; ".tar.zst"]
                              || holds_text ".orig.tar." b || holds_text ".debian.tar." b)) || by_hash ds then Immutable
      else if (plain ds && (existsb (λ s, exactly s b) ["Release"; "Release.gpg"; "InRelease"] || existsb (λ s, begins s b) ["Packages"; "Sources"; "Contents-"]))
              || in_dir "i18n" ds || in_dir "dep11" ds || (in_dir "cnf" ds && begins "Commands-" b) then Mutable (5 * minute)
      else Mutable minute
  | Apk =>
      if plain ds && ends ".apk" b then Immutable
      else if plain ds && existsb (λ s, exactly s b) ["APKINDEX.tar.gz"; "APKINDEX.json"; "APKINDEX.tar.gz.sig"; "APKINDEX.json.sig"] then Mutable (5 * minute)
      else if bool_decide (ds = [runes "keys"]) then Mutable hour
      else Mutable minute
  | Pacman =>
      if plain ds && existsb (λ s, ends s b) [".pkg.tar.zst"; ".pkg.tar.xz"; ".pkg.tar.gz"; ".pkg.tar.zst.sig"; ".pkg.tar.xz.sig"; ".pkg.tar.gz.sig"] then Immutable
      else if plain ds && (existsb (λ s, stem_ends s b) [".db"; ".files"; ".db.sig"; ".files.sig"] || stem_holds ".db.tar." b || stem_holds ".files.tar." b) then Mutable (5 * minute)
      else if bool_decide (ds = [runes "keys"]) then Mutable hour
      else Mutable minute
  | Rpm =>
      if plain ds && (ends ".rpm" b || ends ".drpm" b) then Immutable
      else if in_dir "repodata" ds then
        if negb (existsb (λ s, exactly s b) ["repomd.xml"; "repomd.xml.asc"; "repomd.xml.key"]) && has_hash b then Immutable else Mutable (5 * minute)
      else Mutable minute
  | Xbps =>
      if plain ds && existsb (λ s, ends s b) [".xbps"; ".xbps.sig2"; ".sig"] then Immutable
      else if bool_decide (ds = []) && stem_ends "-repodata" b then Mutable (5 * minute)
      else Mutable minute
  | Nix =>
      if bool_decide (ds = [runes "nar"]) && (base32_name 52 ".nar.xz" b || base32_name 52 ".nar" b) then Immutable
      else if bool_decide (ds = []) && (base32_name 32 ".narinfo" b || exactly "nix-cache-info" b) then Mutable hour
      else if (match ds with d :: ds => exactly "log" d && plain ds && forallb not_newline b | [] => false end) then Immutable
      else Mutable minute
  end.

(** ** Segments of a glob *)
Lemma any_rest q ps xs : seg_match (["*"; "*"] :: q :: ps) xs = true ↔
  ∃ pre post, xs = pre ++ post ∧ plain pre = true ∧ seg_match (q :: ps) post = true.
Proof.
  induction xs as [|x xs IH]; rewrite seg_match_any, orb_true_iff.
  - split; [intros [?|?]; [by exists [], []|done]|]. intros (pre & post & Hx & _ & ?). left. by destruct pre, post.
  - rewrite andb_true_iff, IH. split.
    + intros [?|(? & pre & post & -> & Hpre & ?)]; [by exists [], (x :: xs)|]. exists (x :: pre), post. split_and!; [done| |done]. by apply andb_true_iff.
    + intros (pre & post & Hx & Hpre & ?). destruct pre as [|y pre]; simpl in Hx; [subst post; by left|]. injection Hx as -> ->.
      apply andb_prop in Hpre as [? ?]. right. split; [done|]. by exists pre, post.
Qed.
Lemma fixed_segs ps xs : Forall (λ p, is_any p = false) ps → seg_match ps xs = true ↔ Forall2 (λ p x, wild p x = true) ps xs.
Proof.
  intros Hps. revert xs. induction Hps as [|p ps Hp _ IH]; intros xs.
  - destruct xs; simpl; split; try done; try constructor; by inversion 1.
  - destruct xs as [|x xs]; [simpl; rewrite Hp; split; [done|by inversion 1]|]. rewrite seg_wild, andb_true_iff, IH by done.
    split; [intros []; by constructor|by inversion 1].
Qed.
(** A text without [*] and [?]. *)
Definition literal (p : list string) : bool := forallb (λ c, negb (String.eqb c "*") && negb (String.eqb c "?")) p.
Lemma wild_lit p q y : literal p = true → wild (p ++ q) y = true ↔ ∃ z, y = p ++ z ∧ wild q z = true.
Proof.
  revert y. induction p as [|c p IH]; intros y Hp; [split; [by exists y|by intros (z & -> & ?)]|]. simpl in Hp.
  apply andb_prop in Hp as [[Hs Hq]%andb_prop Hp]. apply negb_true_iff in Hs, Hq. cbn [app wild]. rewrite Hs, Hq.
  destruct y as [|d y]; [split; [done|by intros (z & ? & _)]|]. rewrite andb_true_iff, IH by done. split.
  - intros [->%String.eqb_eq (z & -> & ?)]. by exists z.
  - intros (z & [= -> ->] & ?). rewrite String.eqb_refl. split; [done|]. by exists z.
Qed.
Lemma wild_exactly s y : literal (runes s) = true → wild (runes s) y = exactly s y.
Proof.
  intros Hs. apply eq_true_iff_eq. rewrite <- (right_id_L [] (++) (runes s)), wild_lit by done. unfold exactly. rewrite bool_decide_eq_true. split.
  - intros (z & -> & Hz). destruct z; [by rewrite (right_id_L [] (++))|done].
  - intros ->. exists []. by rewrite (right_id_L [] (++)).
Qed.
Lemma wild_all y : wild ["*"] y = true.
Proof. apply wild_star_lang. exists y, []. by rewrite (right_id_L [] (++)). Qed.
Lemma wild_begins s y : literal (runes s) = true → wild (runes s ++ ["*"]) y = begins s y.
Proof.
  intros Hs. apply eq_true_iff_eq. rewrite wild_lit by done. unfold begins. rewrite bool_decide_eq_true. split; [intros (z & -> & _); by exists z|].
  intros [z ->]. exists z. split; [done|apply wild_all].
Qed.
Lemma wild_ends s y : literal (runes s) = true → wild ("*" :: runes s) y = ends s y.
Proof.
  intros Hs. apply eq_true_iff_eq. rewrite wild_star_lang. unfold ends. rewrite bool_decide_eq_true. split.
  - intros (v & w & -> & Hw). rewrite wild_exactly in Hw by done. apply bool_decide_eq_true in Hw as ->. by exists v.
  - intros [v ->]. exists v, (runes s). split; [done|]. rewrite wild_exactly by done. by apply bool_decide_eq_true.
Qed.
Lemma holds_text_spec s y : holds_text s y = true ↔ ∃ u v, y = u ++ runes s ++ v.
Proof.
  induction y as [|c y IH]; simpl; rewrite orb_true_iff; unfold begins; rewrite bool_decide_eq_true.
  - split; [intros [[z Hz]|?]; [by exists [], z|done]|]. intros (u & v & Hy). left. exists v. by destruct u.
  - rewrite IH. split.
    + intros [[z Hz]|(u & v & ->)]; [by exists [], z|by exists (c :: u), v].
    + intros (u & v & Hy). destruct u as [|d u]; simpl in Hy; [left; by exists v|]. injection Hy as -> ->. right. by exists u, v.
Qed.
Lemma wild_holds s y : literal (runes s) = true → wild ("*" :: runes s ++ ["*"]) y = holds_text s y.
Proof.
  intros Hs. apply eq_true_iff_eq. rewrite wild_star_lang, holds_text_spec. setoid_rewrite wild_lit; [|done]. split.
  - intros (u & w & -> & v & -> & _). by exists u, v.
  - intros (u & v & ->). exists u, (runes s ++ v). split; [done|]. exists v. split; [done|apply wild_all].
Qed.

(** ** Rules by their shape *)
Section shapes.
  Context (path : string) (ds : list (list string)) (b : list string).
  Hypothesis Hpath : segs (runes path) = ds ++ [b].
(** What is left to check of a rule: its segments, and that [**] stands alone. *)
Definition shape (glob : string) (ps : list (list string)) : Prop := segs (runes glob) = ps ∧ wf_glob (runes glob) = true.
Lemma shape_match glob ps : shape glob ps → MatchString (globToRegex glob) path = seg_match ps (ds ++ [b]).
Proof. intros [<- Hwf]. by rewrite glob_is_by_segments, Hpath. Qed.
Lemma Forall2_one (P : list string → list string → Prop) p xs : Forall2 P [p] xs ↔ ∃ x, xs = [x] ∧ P p x.
Proof.
  split; [|intros (x & -> & ?); by repeat constructor].
  intros (x & xs' & ? & Hn & ->)%Forall2_cons_inv_l. apply Forall2_nil_inv_l in Hn as ->. eauto.
Qed.
Lemma Forall2_more (P : list string → list string → Prop) p ps xs : Forall2 P (p :: ps) xs ↔ ∃ x xs', xs = x :: xs' ∧ P p x ∧ Forall2 P ps xs'.
Proof.
  split; [|intros (x & xs' & -> & ? & ?); by constructor]. intros (x & xs' & ? & ? & ->)%Forall2_cons_inv_l. eauto.
Qed.
Lemma m_any glob w f : shape glob [["*"; "*"]; w] → is_any w = false → (∀ y, wild w y = f y) →
  MatchString (globToRegex glob) path = plain ds && f b.
Proof.
  intros Hs Hw Hf. rewrite (shape_match _ _ Hs). apply eq_true_iff_eq. rewrite any_rest, andb_true_iff, <- Hf.
  setoid_rewrite fixed_segs; [|by repeat constructor]. setoid_rewrite Forall2_one. split.
  - intros (pre & post & Heq & Hpre & x & -> & Hx). apply app_inj_tail in Heq as [-> ->]. done.
  - intros [? ?]. exists ds, [b]. split_and!; [done..|]. by exists b.
Qed.
Lemma m_tree glob top w f : shape glob [runes top; ["*"; "*"]; w] → literal (runes top) = true → is_any w = false → is_any (runes top) = false →
  (∀ y, wild w y = f y) → MatchString (globToRegex glob) path = under top ds && f b.
Proof.
  intros Hs Ht Hw Htop Hf. rewrite (shape_match _ _ Hs). apply eq_true_iff_eq. destruct ds as [|d ds']; simpl app.
  - rewrite seg_wild, seg_match_nil, andb_false_r by done. done.
  - rewrite seg_wild, !andb_true_iff, any_rest, <- Hf by done. rewrite wild_exactly by done.
    setoid_rewrite fixed_segs; [|by repeat constructor]. setoid_rewrite Forall2_one. split.
    + intros (? & pre & post & Heq & Hpre & x & -> & Hx). apply app_inj_tail in Heq as [-> ->]. split; [|done]. by apply andb_true_iff.
    + intros [[? ?]%andb_prop ?]. split; [done|]. exists ds', [b]. split_and!; [done..|]. by exists b.
Qed.
Lemma in_dir_spec name xs : in_dir name xs = true ↔ ∃ ys d, xs = ys ++ [d] ∧ exactly name d = true ∧ plain ys = true.
Proof.
  unfold in_dir. rewrite <- (rev_involutive xs). generalize (rev xs). clear xs. intros rs. rewrite rev_involutive. destruct rs as [|d ys]; simpl.
  - split; [done|]. intros (ys & d & Heq & _). by destruct ys.
  - rewrite andb_true_iff. assert (plain ys = plain (rev ys)) as ->.
    { unfold plain. apply eq_true_iff_eq. rewrite !forallb_forall. by setoid_rewrite <- in_rev. }
    split; [intros []; by exists (rev ys), d|]. intros (zs & d' & [-> ->]%app_inj_tail & ?). done.
Qed.
Lemma m_dir glob d w f : shape glob [["*"; "*"]; runes d; w] → literal (runes d) = true → is_any w = false → is_any (runes d) = false →
  (∀ y, wild w y = f y) → MatchString (globToRegex glob) path = in_dir d ds && f b.
Proof.
  intros Hs Hd Hw Hda Hf. rewrite (shape_match _ _ Hs). apply eq_true_iff_eq. rewrite any_rest, andb_true_iff, in_dir_spec, <- Hf.
  setoid_rewrite fixed_segs; [|by repeat constructor]. setoid_rewrite Forall2_more. setoid_rewrite Forall2_one. setoid_rewrite wild_exactly; [|done]. split.
  - intros (pre & post & Heq & Hpre & x & xs & -> & Hx & y & -> & Hy). rewrite (cons_middle x), (assoc_L (++)) in Heq.
    apply app_inj_tail in Heq as [-> ->]. split; [by exists pre, x|done].
  - intros [(ys & x & -> & ? & ?) ?]. exists ys, [x; b]. rewrite <- (assoc_L (++)). split_and!; [done..|]. exists x, [b]. split_and!; [done..|]. by exists b.
Qed.
Definition hash_dir (h : string) (ds : list (list string)) : bool :=
  match rev ds with x :: d :: ds => begins h x && exactly "by-hash" d && plain ds | _ => false end.
Lemma hash_dir_spec h xs : hash_dir h xs = true ↔ ∃ ys d x, xs = ys ++ [d; x] ∧ begins h x = true ∧ exactly "by-hash" d = true ∧ plain ys = true.
Proof.
  unfold hash_dir. rewrite <- (rev_involutive xs). generalize (rev xs). clear xs. intros rs. rewrite rev_involutive.
  destruct rs as [|x [|d ys]]; simpl.
  - split; [done|]. intros (ys & d & x & Heq & _). by destruct ys.
  - split; [done|]. intros (ys & d & x' & Heq & _). by destruct ys as [|? [|? ?]].
  - rewrite !andb_true_iff. assert (plain ys = plain (rev ys)) as ->.
    { unfold plain. apply eq_true_iff_eq. rewrite !forallb_forall. by setoid_rewrite <- in_rev. }
    rewrite <- (assoc_L (++)). simpl. split; [intros [[] ?]; by exists (rev ys), d, x|].
    intros (zs & d' & x' & Heq & ?). rewrite (cons_middle d), (cons_middle d'), !(assoc_L (++)) in Heq.
    apply app_inj_tail in Heq as [[-> ->]%app_inj_tail ->]. naive_solver.
Qed.
Lemma m_hash glob h : shape glob [["*"; "*"]; runes "by-hash"; runes h ++ ["*"]; ["*"]] → literal (runes h) = true → is_any (runes h ++ ["*"]) = false →
  MatchString (globToRegex glob) path = hash_dir h ds.
Proof.
  intros Hs Hh Ha. rewrite (shape_match _ _ Hs). apply eq_true_iff_eq. rewrite any_rest, hash_dir_spec.
  setoid_rewrite fixed_segs; [|by repeat constructor]. setoid_rewrite Forall2_more. setoid_rewrite Forall2_more. setoid_rewrite Forall2_one.
  setoid_rewrite wild_exactly; [|done]. setoid_rewrite wild_begins; [|done]. setoid_rewrite wild_all. split.
  - intros (pre & post & Heq & Hpre & d & xs & -> & Hd & x & ys & -> & Hx & y & -> & _).
    rewrite (cons_middle d), (cons_middle x), !(assoc_L (++)) in Heq. apply app_inj_tail in Heq as [-> ->].
    exists pre, d, x. by rewrite <- (assoc_L (++)).
  - intros (ys & d & x & -> & ? & ? & ?). exists ys, [d; x; b]. rewrite <- (assoc_L (++)). split_and!; [done..|].
    exists d, [x; b]. split_and!; [done..|]. exists x, [b]. split_and!; [done..|]. by exists b.
Qed.
Lemma m_top glob d : shape glob [runes d; ["*"]] → literal (runes d) = true → is_any (runes d) = false →
  MatchString (globToRegex glob) path = bool_decide (ds = [runes d]).
Proof.
  intros Hs Hd Ha. rewrite (shape_match _ _ Hs). apply eq_true_iff_eq. rewrite bool_decide_eq_true, fixed_segs by (by repeat constructor).
  setoid_rewrite Forall2_more. setoid_rewrite Forall2_one. setoid_rewrite wild_exactly; [|done]. setoid_rewrite wild_all. split.
  - intros (x & xs & Heq & Hx & y & -> & _). apply bool_decide_eq_true in Hx as ->.
    change [runes d; y] with ([runes d] ++ [y]) in Heq. by apply app_inj_tail in Heq as [-> ->].
  - intros ->. exists (runes d), [b]. split_and!; [done|by apply bool_decide_eq_true|]. by exists b.
Qed.
Lemma m_one glob s : shape glob [runes s] → literal (runes s) = true → is_any (runes s) = false →
  MatchString (globToRegex glob) path = bool_decide (ds = []) && exactly s b.
Proof.
  intros Hs Hd Ha. rewrite (shape_match _ _ Hs). apply eq_true_iff_eq. rewrite andb_true_iff, bool_decide_eq_true, fixed_segs by (by repeat constructor).
  setoid_rewrite Forall2_one. setoid_rewrite wild_exactly; [|done]. split.
  - intros (x & Heq & Hx). change [x] with ([] ++ [x]) in Heq. by apply app_inj_tail in Heq as [-> ->].
  - intros [-> ?]. by exists b.
Qed.
Lemma m_below glob s : shape glob [runes s; ["*"; "*"]] → literal (runes s) = true → is_any (runes s) = false →
  MatchString (globToRegex glob) path = match ds with d :: ds => exactly s d && plain ds && forallb not_newline b | [] => false end.
Proof.
  intros Hs Hd Ha. rewrite (shape_match _ _ Hs). destruct ds as [|d ds']; simpl app; rewrite seg_wild, wild_exactly by done.
  - by rewrite andb_false_r.
  - rewrite <- andb_assoc. f_equal. simpl. destruct (ds' ++ [b]) as [|x xs] eqn:Hx; [by destruct ds'|]. rewrite <- Hx. simpl.
    unfold plain. rewrite forallb_app. simpl. by rewrite andb_true_r.
Qed.
End shapes.

(** ** The expressions that are not globs *)
Lemma lang_lits s u : lang (RLits s) u ↔ u = runes s.
Proof.
  unfold RLits. revert u. induction (runes s) as [|c l IH]; intros u; simpl; [by rewrite lang_eps_inv|].
  rewrite lang_cat_inv. setoid_rewrite IH. setoid_rewrite lang_set_inv. split.
  - by intros (v & w & -> & (d & -> & <-%String.eqb_eq) & ->).
  - intros ->. exists [c], l. split_and!; [done| |done]. exists c. by rewrite String.eqb_refl.
Qed.
Lemma lang_plus p u : lang (RPlus (RSet p)) u ↔ u ≠ [] ∧ forallb p u = true.
Proof.
  unfold RPlus. rewrite lang_cat_inv. setoid_rewrite lang_star_set. setoid_rewrite lang_set_inv. split.
  - intros (v & w & -> & (c & -> & Hc) & Hw). simpl. by rewrite Hc.
  - intros [Hne Hu]. destruct u as [|c u]; [done|]. apply andb_prop in Hu as [? ?]. exists [c], u. split_and!; [done| |done]. by exists c.
Qed.
Lemma lang_times n p u : lang (RTimes n (RSet p)) u ↔ length u = n ∧ forallb p u = true.
Proof.
  revert u. induction n as [|n IH]; intros u; simpl.
  - rewrite lang_eps_inv. split; [by intros ->|]. by intros [?%nil_length_inv _].
  - rewrite lang_cat_inv. setoid_rewrite IH. setoid_rewrite lang_set_inv. split.
    + intros (v & w & -> & (c & -> & Hc) & <- & Hw). simpl. by rewrite Hc.
    + intros [Hn Hu]. destruct u as [|c u]; [done|]. apply andb_prop in Hu as [? ?]. injection Hn as <-.
      exists [c], u. split_and!; [done| |done..]. by exists c.
Qed.
Lemma unsegs_snoc ds b : ds ≠ [] → unsegs (ds ++ [b]) = unsegs ds ++ "/" :: b.
Proof.
  induction ds as [|d ds IH]; [done|]. intros _. destruct ds as [|d' ds]; [done|].
  transitivity (d ++ "/" :: (unsegs (d' :: ds) ++ "/" :: b)); [by apply (f_equal (λ z, d ++ "/" :: z)), IH|].
  change (unsegs (d :: d' :: ds)) with (d ++ "/" :: unsegs (d' :: ds)). by rewrite <- (assoc_L (++)).
Qed.
Lemma unsegs_plain ds : plain ds = true → forallb not_newline (unsegs ds) = true.
Proof.
  induction ds as [|d ds IH]; [done|]. intros [? ?]%andb_prop. destruct ds as [|d' ds]; [done|].
  change (unsegs (d :: d' :: ds)) with (d ++ "/" :: unsegs (d' :: ds)). rewrite forallb_slash. by rewrite IH, andb_true_r.
Qed.
Lemma path_unsegs path ds b : segs (runes path) = ds ++ [b] → runes path = unsegs (ds ++ [b]).
Proof. intros Hp. rewrite <- Hp. by rewrite (proj1 (unsegs_segs _)). Qed.
Lemma dirs_base r path ds b : segs (runes path) = ds ++ [b] → (∀ v, lang r v → forallb not_slash v = true) →
  MatchString (RCat dirs r) path = true ↔ plain ds = true ∧ lang r b.
Proof.
  intros Hp Hr. unfold MatchString. rewrite re_match_lang, lang_dirs. split.
  - intros [Hl|(v & w & Heq & Hv & Hl)].
    + rewrite segs_plain in Hp by by apply Hr. change ([runes path]) with ([] ++ [runes path]) in Hp. by apply app_inj_tail in Hp as [<- <-].
    + rewrite Heq, segs_app_any, (segs_plain w) in Hp by by apply Hr. apply app_inj_tail in Hp as [<- <-]. split; [|done].
      unfold plain. by rewrite newlines_segs.
  - intros [Hds Hb]. rewrite (path_unsegs _ _ _ Hp). destruct (decide (ds = [])) as [->|Hne]; [by left|].
    right. exists (unsegs ds), b. rewrite unsegs_snoc by done. split_and!; [done|by apply unsegs_plain|done].
Qed.
Lemma stem_ends_spec s b : stem_ends s b = true ↔ ∃ u, b = u ++ runes s ∧ u ≠ [].
Proof.
  destruct b as [|c b]; simpl; [split; [done|]; intros (u & Hu & ?); by destruct u|]. unfold ends. rewrite bool_decide_eq_true. split.
  - intros [u ->]. by exists (c :: u).
  - intros (u & Hu & ?). destruct u as [|d u]; [done|]. injection Hu as -> ->. by exists u.
Qed.
Lemma stem_holds_spec s b : stem_holds s b = true ↔ ∃ u v, b = u ++ runes s ++ v ∧ u ≠ [] ∧ v ≠ [].
Proof.
  induction b as [|c b IH]; simpl; [split; [done|]; intros (u & v & Hu & ? & _); by destruct u|].
  rewrite orb_true_iff, andb_true_iff, IH, Nat.ltb_lt. unfold begins. rewrite bool_decide_eq_true. split.
  - intros [[[v ->] Hl]|(u & v & -> & ? & ?)]; [|by exists (c :: u), v]. exists [c], v. split_and!; [done..|].
    intros ->. rewrite length_app in Hl. simpl in Hl. lia.
  - intros (u & v & Hu & Hne & Hv). destruct u as [|d u]; [done|]. injection Hu as -> ->. destruct (decide (u = [])) as [->|Hu].
    + left. split; [by exists v|]. simpl. rewrite length_app. destruct v; [done|]. simpl. lia.
    + right. by exists u, v.
Qed.
Lemma has_hash_spec b : has_hash b = true ↔ ∃ u h v, b = u ++ h ++ v ∧ length h = 8%nat ∧ forallb hex_digit h = true.
Proof.
  assert (∀ b, (8 <=? length b)%nat && forallb hex_digit (take 8 b) = true ↔
    ∃ h v, b = h ++ v ∧ length h = 8%nat ∧ forallb hex_digit h = true) as Hhead.
  { clear b. intros b. rewrite andb_true_iff, Nat.leb_le. split.
    - intros [Hl Hf]. exists (take 8 b), (drop 8 b). rewrite take_drop, length_take. split_and!; [done|lia|done].
    - intros (h & v & -> & Hl & Hf). rewrite length_app, take_app_length' by done. split; [lia|done]. }
  induction b as [|c b IH].
  - split; [done|]. intros (u & h & v & Heq & Hl & _). symmetry in Heq. apply app_eq_nil in Heq as [_ [-> _]%app_eq_nil]. done.
  - cbn [has_hash]. rewrite orb_true_iff, Hhead, IH. split.
    + intros [(h & v & Heq & ?)|(u & h & v & -> & ?)]; [by exists [], h, v|by exists (c :: u), h, v].
    + intros (u & h & v & Heq & ?). destruct u as [|d u]; [left; by exists h, v|]. injection Heq as -> ->. right. by exists u, h, v.
Qed.
Section raw_shapes.
  Context (path : string) (ds : list (list string)) (b : list string).
  Hypothesis Hpath : segs (runes path) = ds ++ [b].
Lemma base_plain : forallb not_slash b = true.
Proof.
  destruct (unsegs_segs (runes path)) as [_ Hall]. rewrite Hpath in Hall. apply Forall_app in Hall as [_ Hb]. by inversion Hb.
Qed.
Lemma lang_stem s u : forallb not_slash u = true → lang (RCat (RPlus seg) (RLits s)) u ↔ stem_ends s u = true.
Proof.
  intros Hu. rewrite stem_ends_spec, lang_cat_inv. setoid_rewrite lang_plus. setoid_rewrite lang_lits. split.
  - intros (v & w & -> & [? _] & ->). by exists v.
  - intros (v & -> & ?). exists v, (runes s). rewrite forallb_app in Hu. apply andb_prop in Hu as [? _]. done.
Qed.
Lemma lang_stem_plain s u : forallb not_slash (runes s) = true → lang (RCat (RPlus seg) (RLits s)) u → forallb not_slash u = true.
Proof. intros Hs (v & w & -> & [_ Hv]%lang_plus & ->%lang_lits)%lang_cat_inv. by rewrite forallb_app, Hv, Hs. Qed.
Lemma m_stem s : forallb not_slash (runes s) = true →
  MatchString (RSeq [dirs; RPlus seg; RLits s]) path = plain ds && stem_ends s b.
Proof.
  intros Hs. apply eq_true_iff_eq. rewrite andb_true_iff, <- lang_stem by apply base_plain. apply dirs_base; [done|]. intros v. by apply lang_stem_plain.
Qed.
Lemma m_stem_holds s : forallb not_slash (runes s) = true →
  MatchString (RSeq [dirs; RPlus seg; RLits s; RPlus seg]) path = plain ds && stem_holds s b.
Proof.
  intros Hs. apply eq_true_iff_eq. rewrite andb_true_iff.
  assert (∀ u, lang (RSeq [RPlus seg; RLits s; RPlus seg]) u ↔ ∃ x y, u = x ++ runes s ++ y ∧ (x ≠ [] ∧ forallb not_slash x = true) ∧ y ≠ [] ∧ forallb not_slash y = true) as Hl.
  { intros u. change (RSeq [RPlus seg; RLits s; RPlus seg]) with (RCat (RPlus seg) (RCat (RLits s) (RPlus seg))). split.
    - intros (x & w & -> & Hx%lang_plus & (r & y & -> & ->%lang_lits & Hy%lang_plus)%lang_cat_inv)%lang_cat_inv. by exists x, y.
    - intros (x & y & -> & Hx & Hy). apply lang_cat; [by apply lang_plus|]. apply lang_cat; [by apply lang_lits|by apply lang_plus]. }
  rewrite stem_holds_spec. pose proof base_plain as Hb. trans (plain ds = true ∧ lang (RSeq [RPlus seg; RLits s; RPlus seg]) b).
  - apply dirs_base; [done|]. intros v (x & y & -> & [_ Hx] & _ & Hy)%Hl. by rewrite !forallb_app, Hx, Hs, Hy.
  - rewrite Hl. split.
    + intros [? (x & y & ? & [? _] & ? & _)]. split; [done|]. by exists x, y.
    + intros [? (x & y & -> & ? & ?)]. rewrite !forallb_app in Hb. apply andb_prop in Hb as [? [_ ?]%andb_prop]. split; [done|]. by exists x, y.
Qed.
Lemma hex_not_slash h : forallb hex_digit h = true → forallb not_slash h = true.
Proof.
  rewrite !forallb_forall. intros Hh c Hc. apply Hh in Hc. unfold not_slash. destruct (String.eqb_spec c "/") as [->|]; [by vm_compute in Hc|done].
Qed.
Lemma lang_hashed u : lang hashed u ↔ forallb not_slash u = true ∧ has_hash u = true.
Proof.
  change hashed with (RCat (RStar seg) (RCat (RTimes 8 (RSet hex_digit)) (RCat (RStar (RSet hex_digit)) (RStar seg)))). rewrite has_hash_spec. split.
  - intros (x & w & -> & Hx%lang_star_set & (h & w' & -> & [Hl Hh]%lang_times & (h' & y & -> & Hh'%lang_star_set & Hy%lang_star_set)%lang_cat_inv)%lang_cat_inv)%lang_cat_inv.
    apply hex_not_slash in Hh'. pose proof (hex_not_slash _ Hh) as Hh2. rewrite !forallb_app, Hx, Hh2, Hh', Hy. split; [reflexivity|].
    exists x, h, (h' ++ y). split; [reflexivity|]. split; [exact Hl|exact Hh].
  - intros [Hn (x & h & v & -> & Hl & Hh)]. rewrite !forallb_app in Hn. apply andb_prop in Hn as [Hx [_ Hv]%andb_prop].
    apply lang_cat; [by apply lang_star_set|]. apply lang_cat; [by apply lang_times|]. apply (lang_cat _ _ []); [constructor|by apply lang_star_set].
Qed.
(** A directory before the file name. *)
Lemma dirs_sub r : (∀ v, lang r v → forallb not_slash v = true) →
  MatchString (RCat dirs (RCat (RLits "repodata/") r)) path = true ↔ in_dir "repodata" ds = true ∧ lang r b.
Proof.
  intros Hr. unfold MatchString. rewrite re_match_lang, lang_dirs, in_dir_spec.
  assert (∀ w, lang (RCat (RLits "repodata/") r) w ↔ ∃ w', w = runes "repodata" ++ "/" :: w' ∧ lang r w') as Hsub.
  { intros w. rewrite lang_cat_inv. setoid_rewrite lang_lits. split; [intros (v & w' & -> & -> & ?); by exists w'|].
    intros (w' & -> & ?). by exists (runes "repodata/"), w'. }
  assert (∀ w, lang r w → segs (runes "repodata" ++ "/" :: w) = [runes "repodata"; w]) as Hseg.
  { intros w Hw. rewrite segs_app by done. by rewrite segs_plain by by apply Hr. }
  setoid_rewrite Hsub. split.
  - intros [(w & Heq & Hw)|(v & u & Heq & Hv & w & -> & Hw)].
    + rewrite Heq, Hseg in Hpath by done. change ([runes "repodata"; w]) with ([runes "repodata"] ++ [w]) in Hpath.
      apply app_inj_tail in Hpath as [<- <-]. split; [|done]. by exists [], (runes "repodata").
    + rewrite Heq, segs_app_any, Hseg in Hpath by done. change ([runes "repodata"; w]) with ([runes "repodata"] ++ [w]) in Hpath.
      rewrite (assoc_L (++)) in Hpath. apply app_inj_tail in Hpath as [<- <-]. split; [|done]. exists (segs v), (runes "repodata").
      split_and!; [done..|]. unfold plain. by rewrite newlines_segs.
  - intros [(ys & d & Hds & Hd & Hys) Hb]. apply bool_decide_eq_true in Hd as ->. rewrite (path_unsegs _ _ _ Hpath).
    rewrite unsegs_snoc by (rewrite Hds; by destruct ys). destruct (decide (ys = [])) as [->|Hne].
    + left. exists b. by rewrite Hds.
    + right. exists (unsegs ys), (runes "repodata" ++ "/" :: b). rewrite Hds, unsegs_snoc, <- (assoc_L (++)) by done.
      split_and!; [done|by apply unsegs_plain|]. by exists b.
Qed.
Lemma m_hashed : MatchString (RSeq [dirs; RLits "repodata/"; hashed]) path = in_dir "repodata" ds && has_hash b.
Proof.
  apply eq_true_iff_eq. rewrite andb_true_iff. pose proof base_plain as Hb.
  transitivity (in_dir "repodata" ds = true ∧ lang hashed b); [apply (dirs_sub hashed); intros v Hv; by apply lang_hashed in Hv as [? _]|].
  rewrite lang_hashed. tauto.
Qed.
Lemma plain_match r : (∀ v, lang r v → forallb not_slash v = true) → MatchString r path = true ↔ ds = [] ∧ lang r b.
Proof.
  intros Hr. unfold MatchString. rewrite re_match_lang. split.
  - intros Hl. rewrite segs_plain in Hpath by by apply Hr. change ([runes path]) with ([] ++ [runes path]) in Hpath.
    apply app_inj_tail in Hpath as [<- <-]. done.
  - intros [Hds Hb]. rewrite (path_unsegs _ _ _ Hpath), Hds. done.
Qed.
Lemma m_repodata : MatchString (RSeq [RPlus seg; RLits "-repodata"]) path = bool_decide (ds = []) && stem_ends "-repodata" b.
Proof.
  apply eq_true_iff_eq. rewrite andb_true_iff, bool_decide_eq_true, <- lang_stem by apply base_plain.
  apply plain_match. intros v. by apply lang_stem_plain.
Qed.
Lemma base32_not_slash h : forallb (one_of nix_base32) h = true → forallb not_slash h = true.
Proof.
  rewrite !forallb_forall. intros Hh c Hc. apply Hh in Hc. unfold not_slash. destruct (String.eqb_spec c "/") as [->|]; [by vm_compute in Hc|done].
Qed.
Lemma lang_base32 n s u : lang (RCat (RTimes n (RSet (one_of nix_base32))) (RLits s)) u ↔ base32_name n s u = true.
Proof.
  unfold base32_name, exactly. rewrite !andb_true_iff, bool_decide_eq_true, Nat.leb_le, lang_cat_inv. split.
  - intros (h & w & -> & [Hl Hh]%lang_times & ->%lang_lits). rewrite take_app_length', drop_app_length', length_app by done. split_and!; [lia|done..].
  - intros [[Hl Hh] Hd]. exists (take n u), (drop n u). rewrite take_drop, lang_times, lang_lits, length_take. split_and!; [done|lia|done..].
Qed.
Lemma base32_plain n s u : forallb not_slash (runes s) = true → lang (RCat (RTimes n (RSet (one_of nix_base32))) (RLits s)) u → forallb not_slash u = true.
Proof. intros Hs (h & w & -> & [_ Hh%base32_not_slash]%lang_times & ->%lang_lits)%lang_cat_inv. by rewrite forallb_app, Hh, Hs. Qed.
Lemma m_narinfo : MatchString (RSeq [RTimes 32 (RSet (one_of nix_base32)); RLits ".narinfo"]) path = bool_decide (ds = []) && base32_name 32 ".narinfo" b.
Proof.
  apply eq_true_iff_eq. rewrite andb_true_iff, bool_decide_eq_true, <- lang_base32. apply plain_match. intros v. by apply base32_plain.
Qed.
Lemma m_nar s : forallb not_slash (runes s) = true →
  MatchString (RSeq [RLits "nar/"; RTimes 52 (RSet (one_of nix_base32)); RLits s]) path = bool_decide (ds = [runes "nar"]) && base32_name 52 s b.
Proof.
  intros Hs. apply eq_true_iff_eq. rewrite andb_true_iff, bool_decide_eq_true, <- lang_base32. unfold MatchString. rewrite re_match_lang.
  change (RSeq [RLits "nar/"; RTimes 52 (RSet (one_of nix_base32)); RLits s]) with (RCat (RLits "nar/") (RCat (RTimes 52 (RSet (one_of nix_base32))) (RLits s))).
  split.
  - intros (v & w & Heq & ->%lang_lits & Hw)%lang_cat_inv. change (runes "nar/" ++ w) with (runes "nar" ++ "/" :: w) in Heq.
    rewrite Heq, segs_app, (segs_plain w) in Hpath by (try done; by eapply base32_plain).
    change ([runes "nar"; w]) with ([runes "nar"] ++ [w]) in Hpath. by apply app_inj_tail in Hpath as [<- <-].
  - intros [Hds Hb]. rewrite (path_unsegs _ _ _ Hpath), Hds. change (unsegs ([runes "nar"] ++ [b])) with (runes "nar/" ++ b).
    apply lang_cat; [by apply lang_lits|done].
Qed.
End raw_shapes.

(** ** The tables *)
Lemma first_rule_group c rs rest path : first_rule (map (λ re, (re, c)) rs ++ rest) path =
  if existsb (λ re, MatchString re path) rs then c else first_rule rest path.
Proof.
  induction rs as [|re rs IH]; [done|]. unfold first_rule in *. simpl. by destruct (MatchString re path).
Qed.
Lemma if_eq (a a' : bool) (c x x' : Class_) : a = a' → x = x' → (if a then c else x) = (if a' then c else x').
Proof. by intros -> ->. Qed.
Definition with_class (c : Class_) (rs : list regex) : rules := map (λ re, (re, c)) rs.
Ltac rule_side := first [vm_compute; reflexivity | split; vm_compute; reflexivity | intros ?; apply wild_all | intros ?; by apply wild_begins | intros ?; by apply wild_exactly].
Section tables.
  Context (path : string) (ds : list (list string)) (b : list string).
  Hypothesis Hpath : segs (runes path) = ds ++ [b].
Lemma m_ends glob s : shape glob [["*"; "*"]; "*" :: runes s] → literal (runes s) = true → is_any ("*" :: runes s) = false →
  MatchString (globToRegex glob) path = plain ds && ends s b.
Proof. intros Hs Hl Ha. apply (m_any path ds b Hpath glob _ _ Hs Ha). intros y. by apply wild_ends. Qed.
Lemma m_name glob s : shape glob [["*"; "*"]; runes s] → literal (runes s) = true → is_any (runes s) = false →
  MatchString (globToRegex glob) path = plain ds && exactly s b.
Proof. intros Hs Hl Ha. apply (m_any path ds b Hpath glob _ _ Hs Ha). intros y. by apply wild_exactly. Qed.
Lemma m_begins glob s : shape glob [["*"; "*"]; runes s ++ ["*"]] → literal (runes s) = true → is_any (runes s ++ ["*"]) = false →
  MatchString (globToRegex glob) path = plain ds && begins s b.
Proof. intros Hs Hl Ha. apply (m_any path ds b Hpath glob _ _ Hs Ha). intros y. by apply wild_begins. Qed.
Lemma m_pool glob s : shape glob [runes "pool"; ["*"; "*"]; "*" :: runes s] → literal (runes s) = true → is_any ("*" :: runes s) = false →
  MatchString (globToRegex glob) path = under "pool" ds && ends s b.
Proof. intros Hs Hl Ha. apply (m_tree path ds b Hpath glob "pool" _ _ Hs eq_refl Ha eq_refl). intros y. by apply wild_ends. Qed.
Lemma m_pool_holds glob s : shape glob [runes "pool"; ["*"; "*"]; "*" :: runes s ++ ["*"]] → literal (runes s) = true →
  is_any ("*" :: runes s ++ ["*"]) = false → MatchString (globToRegex glob) path = under "pool" ds && holds_text s b.
Proof. intros Hs Hl Ha. apply (m_tree path ds b Hpath glob "pool" _ _ Hs eq_refl Ha eq_refl). intros y. by apply wild_holds. Qed.
Lemma by_hash_dirs : by_hash ds = hash_dir "SHA" ds || hash_dir "MD5" ds.
Proof. unfold by_hash, hash_dir. destruct (rev ds) as [|h [|d ds']]; [done..|]. btauto. Qed.
Lemma apt_class : first_rule (compileRules apt_rules) path = class_of Apt ds b.
Proof.
  change (compileRules apt_rules) with
    (with_class Immutable (map globToRegex ["pool/**/*.deb"; "pool/**/*.udeb"; "pool/**/*.ddeb"; "pool/**/*.dsc"; "pool/**/*.orig.tar.*"; "pool/**/*.debian.tar.*";
        "pool/**/*.tar.xz"; "pool/**/*.tar.gz"; "pool/**/*.tar.lzma"; "pool/**/*.tar.zst"; "**/by-hash/SHA*/*"; "**/by-hash/MD5*/*"]) ++
     with_class (Mutable mutableIndexTTL) (map globToRegex ["**/Release"; "**/Release.gpg"; "**/InRelease"; "**/Packages*"; "**/Sources*"; "**/Contents-*";
        "**/i18n/*"; "**/dep11/*"; "**/cnf/Commands-*"]) ++ []).
  unfold with_class. rewrite !first_rule_group. unfold class_of. rewrite by_hash_dirs. cbn [map existsb].
  rewrite (m_pool "pool/**/*.deb" ".deb"), (m_pool "pool/**/*.udeb" ".udeb"), (m_pool "pool/**/*.ddeb" ".ddeb"), (m_pool "pool/**/*.dsc" ".dsc"),
    (m_pool "pool/**/*.tar.xz" ".tar.xz"), (m_pool "pool/**/*.tar.gz" ".tar.gz"), (m_pool "pool/**/*.tar.lzma" ".tar.lzma"), (m_pool "pool/**/*.tar.zst" ".tar.zst"),
    (m_pool_holds "pool/**/*.orig.tar.*" ".orig.tar."), (m_pool_holds "pool/**/*.debian.tar.*" ".debian.tar."),
    (m_hash path ds b Hpath "**/by-hash/SHA*/*" "SHA"), (m_hash path ds b Hpath "**/by-hash/MD5*/*" "MD5"),
    (m_name "**/Release" "Release"), (m_name "**/Release.gpg" "Release.gpg"), (m_name "**/InRelease" "InRelease"),
    (m_begins "**/Packages*" "Packages"), (m_begins "**/Sources*" "Sources"), (m_begins "**/Contents-*" "Contents-"),
    (m_dir path ds b Hpath "**/i18n/*" "i18n" ["*"] (λ _, true)), (m_dir path ds b Hpath "**/dep11/*" "dep11" ["*"] (λ _, true)),
    (m_dir path ds b Hpath "**/cnf/Commands-*" "cnf" (runes "Commands-" ++ ["*"]) (begins "Commands-"))
    by rule_side.
  apply if_eq; [btauto|]. apply if_eq; [btauto|done].
Qed.
Lemma apk_class : first_rule (compileRules apk_rules) path = class_of Apk ds b.
Proof.
  change (compileRules apk_rules) with (with_class Immutable (map globToRegex ["**/*.apk"]) ++
    with_class (Mutable mutableIndexTTL) (map globToRegex ["**/APKINDEX.tar.gz"; "**/APKINDEX.json"; "**/APKINDEX.tar.gz.sig"; "**/APKINDEX.json.sig"]) ++
    with_class (Mutable mutableKeysTTL) (map globToRegex ["keys/*"]) ++ []).
  unfold with_class. rewrite !first_rule_group. unfold class_of. cbn [map existsb].
  rewrite (m_ends "**/*.apk" ".apk"), (m_name "**/APKINDEX.tar.gz" "APKINDEX.tar.gz"), (m_name "**/APKINDEX.json" "APKINDEX.json"),
    (m_name "**/APKINDEX.tar.gz.sig" "APKINDEX.tar.gz.sig"), (m_name "**/APKINDEX.json.sig" "APKINDEX.json.sig"), (m_top path ds b Hpath "keys/*" "keys") by rule_side.
  apply if_eq; [btauto|]. apply if_eq; [btauto|]. apply if_eq; [btauto|done].
Qed.
Lemma pacman_class : first_rule (compileRules pacman_rules) path = class_of Pacman ds b.
Proof.
  change (compileRules pacman_rules) with (with_class Immutable (map globToRegex ["**/*.pkg.tar.zst"; "**/*.pkg.tar.xz"; "**/*.pkg.tar.gz";
      "**/*.pkg.tar.zst.sig"; "**/*.pkg.tar.xz.sig"; "**/*.pkg.tar.gz.sig"]) ++
    with_class (Mutable mutableIndexTTL) [RSeq [dirs; RPlus seg; RLits ".db"]; RSeq [dirs; RPlus seg; RLits ".files"]; RSeq [dirs; RPlus seg; RLits ".db.sig"];
      RSeq [dirs; RPlus seg; RLits ".files.sig"]; RSeq [dirs; RPlus seg; RLits ".db.tar."; RPlus seg]; RSeq [dirs; RPlus seg; RLits ".files.tar."; RPlus seg]] ++
    with_class (Mutable mutableKeysTTL) (map globToRegex ["keys/*"]) ++ []).
  unfold with_class. rewrite !first_rule_group. unfold class_of. cbn [map existsb].
  rewrite (m_ends "**/*.pkg.tar.zst" ".pkg.tar.zst"), (m_ends "**/*.pkg.tar.xz" ".pkg.tar.xz"), (m_ends "**/*.pkg.tar.gz" ".pkg.tar.gz"),
    (m_ends "**/*.pkg.tar.zst.sig" ".pkg.tar.zst.sig"), (m_ends "**/*.pkg.tar.xz.sig" ".pkg.tar.xz.sig"), (m_ends "**/*.pkg.tar.gz.sig" ".pkg.tar.gz.sig"),
    (m_top path ds b Hpath "keys/*" "keys"), !(m_stem path ds b Hpath), !(m_stem_holds path ds b Hpath) by rule_side.
  apply if_eq; [btauto|]. apply if_eq; [btauto|]. apply if_eq; [btauto|done].
Qed.
Lemma rpm_class : first_rule (compileRules rpm_rules) path = class_of Rpm ds b.
Proof.
  change (compileRules rpm_rules) with (with_class Immutable (map globToRegex ["**/*.rpm"; "**/*.drpm"; "**/*.src.rpm"]) ++
    with_class (Mutable mutableIndexTTL) (map globToRegex ["**/repodata/repomd.xml"; "**/repodata/repomd.xml.asc"; "**/repodata/repomd.xml.key"]) ++
    with_class Immutable [RSeq [dirs; RLits "repodata/"; hashed]] ++ with_class (Mutable mutableIndexTTL) (map globToRegex ["**/repodata/*"]) ++ []).
  unfold with_class. rewrite !first_rule_group. unfold class_of. cbn [map existsb].
  rewrite (m_ends "**/*.rpm" ".rpm"), (m_ends "**/*.drpm" ".drpm"), (m_ends "**/*.src.rpm" ".src.rpm"),
    (m_dir path ds b Hpath "**/repodata/repomd.xml" "repodata" (runes "repomd.xml") (exactly "repomd.xml")),
    (m_dir path ds b Hpath "**/repodata/repomd.xml.asc" "repodata" (runes "repomd.xml.asc") (exactly "repomd.xml.asc")),
    (m_dir path ds b Hpath "**/repodata/repomd.xml.key" "repodata" (runes "repomd.xml.key") (exactly "repomd.xml.key")),
    (m_dir path ds b Hpath "**/repodata/*" "repodata" ["*"] (λ _, true)), (m_hashed path ds b Hpath) by rule_side.
  assert (ends ".src.rpm" b = true → ends ".rpm" b = true) as Hsrc.
  { unfold ends. rewrite !bool_decide_eq_true. intros [u ->]. exists (u ++ runes ".src"). by rewrite <- (assoc_L (++)). }
  destruct (plain ds), (ends ".rpm" b), (ends ".drpm" b), (ends ".src.rpm" b), (in_dir "repodata" ds); simpl in *; try done; try (by specialize (Hsrc eq_refl));
    by destruct (exactly "repomd.xml" b), (exactly "repomd.xml.asc" b), (exactly "repomd.xml.key" b), (has_hash b).
Qed.
Lemma xbps_class : first_rule (compileRules xbps_rules) path = class_of Xbps ds b.
Proof.
  change (compileRules xbps_rules) with (with_class Immutable (map globToRegex ["**/*.xbps"; "**/*.xbps.sig2"; "**/*.sig"]) ++
    with_class (Mutable mutableIndexTTL) [RSeq [RPlus seg; RLits "-repodata"]] ++ []).
  unfold with_class. rewrite !first_rule_group. unfold class_of. cbn [map existsb].
  rewrite (m_ends "**/*.xbps" ".xbps"), (m_ends "**/*.xbps.sig2" ".xbps.sig2"), (m_ends "**/*.sig" ".sig"), (m_repodata path ds b Hpath) by rule_side.
  apply if_eq; [btauto|]. apply if_eq; [btauto|done].
Qed.
Lemma nix_class : first_rule (compileRules nix_rules) path = class_of Nix ds b.
Proof.
  change (compileRules nix_rules) with
    (with_class Immutable [RSeq [RLits "nar/"; RTimes 52 (RSet (one_of nix_base32)); RLits ".nar.xz"]; RSeq [RLits "nar/"; RTimes 52 (RSet (one_of nix_base32)); RLits ".nar"]] ++
     with_class (Mutable hour) [RSeq [RTimes 32 (RSet (one_of nix_base32)); RLits ".narinfo"]; globToRegex "nix-cache-info"] ++
     with_class Immutable [globToRegex "log/**"] ++ []).
  unfold with_class. rewrite !first_rule_group. unfold class_of. cbn [map existsb].
  rewrite !(m_nar path ds b Hpath), (m_narinfo path ds b Hpath), (m_one path ds b Hpath "nix-cache-info" "nix-cache-info"),
    (m_below path ds b Hpath "log/**" "log") by rule_side.
  apply if_eq; [btauto|]. apply if_eq; [btauto|]. by rewrite orb_false_r.
Qed.
End tables.

(** C30: the class of an object. For every ecosystem and every path, the tables of
    regular expressions decide as [class_of] says in terms of directories and the
    name of the file: which names are packages and hashed files, kept for ever,
    which are indexes, checked again after five minutes or an hour, and that
    everything else is checked again after a minute. *)
Theorem Classify_by_name e path ds b : path ≠ "" → segs (runes (trim_prefix path "/")) = ds ++ [b] →
  Classify_of e path = Ok (class_of e ds b).
Proof.
  intros Hne Hp. apply String.eqb_neq in Hne. destruct e; cbn [Classify_of];
    [unfold apt_Classify|unfold apk_Classify|unfold pacman_Classify|unfold rpm_Classify|unfold xbps_Classify|unfold nix_Classify];
    unfold Classify; rewrite Hne; f_equal; [by apply apt_class|by apply apk_class|by apply pacman_class|by apply rpm_class|by apply xbps_class|by apply nix_class].
Qed.

(** * The keys of objects *)
Lemma split_at c l1 r1 l2 r2 : no_sep c l1 = true → no_sep c l2 = true → l1 +:+ String c r1 = l2 +:+ String c r2 → l1 = l2 ∧ r1 = r2.
Proof. intros H1 H2 Heq. apply (f_equal (cut c)) in Heq. rewrite !cut_app in Heq by done. by injection Heq. Qed.
Lemma fmt_int_no_sep n : no_sep "/" (fmt_int n) = true.
Proof.
  assert (∀ m, 0 <= m → no_sep "/" (fmt_int m) = true) as Hpos.
  { intros m Hm. destruct (fmt_int_nonneg m Hm) as (_ & Hd & _). eapply all_bytes_impl; [|exact Hd].
    intros c Hc. destruct (Ascii.eqb_spec "/" c) as [<-|]; [by vm_compute in Hc|done]. }
  destruct n as [|p|p]; [by apply Hpos|by apply Hpos|]. exact (Hpos (Zpos p) ltac:(lia)).
Qed.
Lemma Name_of_inj e1 e2 : Name_of e1 = Name_of e2 → e1 = e2.
Proof. by destruct e1, e2. Qed.
(** The ecosystems that keep the case of a path in its key. *)
Definition keeps_case (e : ecosystem) : bool := match e with Apt | Xbps => true | _ => false end.
Section keys.
  Context {D : Type} `{!RemoteStore D} (clock : nat → Z) (unicode_lower : string → string).
  Abbreviation key_path e := (if keeps_case e then λ p : string, p else ToLower unicode_lower).
Lemma ToLower_slash s : ∃ t, ToLower unicode_lower (String "/" s) = String "/" t.
Proof.
  unfold ToLower. destruct (all_bytes _ (String "/" s)); [by eexists|]. cbn [runes]. change (in_byte 0 127 "/") with true. cbn iota.
  cbn [map]. rewrite concat_empty_cons. by eexists.
Qed.
Lemma key_path_slash e s : ∃ t, key_path e (String "/" s) = String "/" t.
Proof. destruct e; simpl; try apply ToLower_slash; by eexists. Qed.
(** A resolution of any ecosystem, with the upstream that it found. *)
Lemma Resolve_of_Some e path (a a' : Adapter D) t : Resolve_of clock unicode_lower e path a = (Some t, a') →
  ∃ name up r, splitRemotePath (trim_prefix path ("/" +:+ Prefix_of e +:+ "/")) = Some (name, String "/" up) ∧
    path = "/" +:+ Prefix_of e +:+ "/" +:+ trim_prefix path ("/" +:+ Prefix_of e +:+ "/") ∧
    lookupRemote clock name a = (Ok r, a') ∧ rm_Enabled r = true ∧ tg_UpstreamPath t = String "/" up ∧
    tg_UpstreamURL t = trim_right_slash (rm_BaseURL r) +:+ String "/" up ∧
    tg_StorageKey t = "cache/" +:+ Name_of e +:+ "/" +:+ fmt_int (rm_ID r) +:+ key_path e (String "/" up) ∧ tg_ProxyURL t = rm_ProxyURL r.
Proof.
  intros H. assert (∃ with_sums, Resolve clock (Prefix_of e) (Name_of e) (key_path e) with_sums path a = (Some t, a')) as [ws Hr] by (destruct e; by eexists).
  apply Resolve_Some in Hr as (name & up & r & Hp & Hs & Hl & He & ->). pose proof (splitRemotePath_Some _ _ _ Hs) as (_ & _ & _ & _ & [u ->] & _).
  exists name, u, r. by split_and!.
Qed.
Lemma key_parts e1 e2 id1 id2 u1 u2 :
  "cache/" +:+ Name_of e1 +:+ "/" +:+ fmt_int id1 +:+ key_path e1 (String "/" u1) =
  "cache/" +:+ Name_of e2 +:+ "/" +:+ fmt_int id2 +:+ key_path e2 (String "/" u2) →
  e1 = e2 ∧ id1 = id2 ∧ key_path e1 (String "/" u1) = key_path e2 (String "/" u2).
Proof.
  intros H. apply app_inj_l in H. destruct (key_path_slash e1 u1) as [t1 H1], (key_path_slash e2 u2) as [t2 H2]. rewrite H1, H2 in *.
  change ("/" +:+ ?x) with (String "/" x) in H. apply split_at in H as [Hn H]; [|by destruct e1|by destruct e2].
  apply split_at in H as [Hi ->]; [|apply fmt_int_no_sep..]. split_and!; [by apply Name_of_inj|by apply fmt_int_inj|done].
Qed.

(** C29: objects do not share keys. Whatever the adapters of any ecosystems have
    seen: two requests that resolve to the same key are requests to the same
    ecosystem and the same upstream, and, where keys keep the case of a path (apt and
    xbps), for the same path; in the others for paths that are equal in lower case.
    The URL is that of the upstream's base followed by the path. *)
Theorem keys_are_apart e1 e2 path1 path2 (a1 a2 a1' a2' : Adapter D) t1 t2 :
  Resolve_of clock unicode_lower e1 path1 a1 = (Some t1, a1') → Resolve_of clock unicode_lower e2 path2 a2 = (Some t2, a2') →
  tg_StorageKey t1 = tg_StorageKey t2 →
  e1 = e2 ∧
  (∃ name1 name2 r1 r2, lookupRemote clock name1 a1 = (Ok r1, a1') ∧ lookupRemote clock name2 a2 = (Ok r2, a2') ∧
     rm_Enabled r1 = true ∧ rm_Enabled r2 = true ∧ rm_ID r1 = rm_ID r2 ∧
     tg_UpstreamURL t1 = trim_right_slash (rm_BaseURL r1) +:+ tg_UpstreamPath t1 ∧
     tg_UpstreamURL t2 = trim_right_slash (rm_BaseURL r2) +:+ tg_UpstreamPath t2) ∧
  if keeps_case e1 then tg_UpstreamPath t1 = tg_UpstreamPath t2
  else ToLower unicode_lower (tg_UpstreamPath t1) = ToLower unicode_lower (tg_UpstreamPath t2).
Proof.
  intros H1 H2 Hk. apply Resolve_of_Some in H1 as (n1 & u1 & r1 & _ & _ & L1 & E1 & P1 & U1 & K1 & _).
  apply Resolve_of_Some in H2 as (n2 & u2 & r2 & _ & _ & L2 & E2 & P2 & U2 & K2 & _). rewrite K1, K2 in Hk.
  apply key_parts in Hk as (-> & Hid & Hkp). rewrite P1, P2. split_and!; [done|by exists n1, n2, r1, r2|]. by destruct (keeps_case e2).
Qed.
End keys.

(** * Demonstrations *)
Module EcoDemo.
(** A table of upstreams that is read from memory; the second part says whether
    readings fail. *)
Definition table : Type := list Remote * bool.
#[export] Instance table_store : RemoteStore table := {
  Remotes_in := λ d, (if d.2 then Err (Text "database is locked") else Ok d.1, d);
  Remote_in := λ id d, (match List.find (λ r, rm_ID r =? id) d.1 with Some r => Ok r | None => Err (NotFoundError "remote" "") end, d)
}.
Definition upstream (id : Z) (name eco url : string) : Remote := mk_Remote id name eco url ModeProxy true 0 [] "" None 0.
Definition two : table := ([upstream 1 "debian" "apt" "https://deb.example/debian/"; upstream 2 "alpine" "apk" "https://apk.example"], false).
(** A clock of one second per reading. *)
Definition at_second (n : nat) : Z := remoteCacheTTL + Z.of_nat n * second.
Definition same_rune (r : string) : string := r.
Definition ask (e : ecosystem) (path : string) := Resolve_of at_second same_rune e path (New_adapter two).
Example asked : (ask Apt "/apt/debian/pool/Foo.deb").1 =
  Some (mk_Target "https://deb.example/debian/pool/Foo.deb" "/pool/Foo.deb" "cache/apt/1/pool/Foo.deb" (mk_Checksum "" "") "") ∧
  (ask Apt "/apt/unknown/x").1 = None ∧ (ask Apt "/apk/alpine/x").1 = None ∧ (ask Rpm "/rpm/debian").1 =
  Some (mk_Target "https://deb.example/debian/" "/" "cache/rpm-md/1/" (mk_Checksum "" "") "").
Proof. vm_compute. done. Qed.
(** Where keys are in lower case, two objects of an upstream can have one key; the
    comments of these adapters accept it. *)
Lemma lower_keys_collide : ∃ t1 t2, (ask Apk "/apk/alpine/main/R.apk").1 = Some t1 ∧ (ask Apk "/apk/alpine/main/r.apk").1 = Some t2 ∧
  tg_UpstreamURL t1 ≠ tg_UpstreamURL t2 ∧ tg_StorageKey t1 = tg_StorageKey t2.
Proof. eexists _, _. split; [vm_compute; reflexivity|]. split; [vm_compute; reflexivity|]. vm_compute. done. Qed.
(** An adapter does not ask of what ecosystem an upstream is: the package of an apt
    upstream under the prefix of another ecosystem is kept in that one's name space,
    and is not a package there. *)
Lemma foreign_prefix_resolves : (ask Rpm "/rpm/debian/pool/foo.deb").1 =
    Some (mk_Target "https://deb.example/debian/pool/foo.deb" "/pool/foo.deb" "cache/rpm-md/1/pool/foo.deb" (mk_Checksum "" "") "") ∧
  rpm_Classify "/pool/foo.deb" = Ok (Mutable minute).
Proof. vm_compute. done. Qed.
(** The keys of storage may have upper case, which the comment of the nix adapter
    denies. *)
Lemma upper_case_is_valid : ValidateKey "cache/nix/1/LOG" = None.
Proof. vm_compute. reflexivity. Qed.
(** A name with a date of eight digits passes for one with a hash. *)
Lemma dates_look_like_hashes : rpm_Classify "/repodata/20260101-updateinfo.xml.gz" = Ok Immutable ∧
  rpm_Classify "/repodata/updateinfo.xml.gz" = Ok (Mutable mutableIndexTTL).
Proof. vm_compute. done. Qed.

Lemma glob_is_by_segments_witness : MatchString (globToRegex "**/by-hash/SHA*/*") "dists/by-hash/SHA256/00" = true ∧
  seg_match (segs (runes "**/by-hash/SHA*/*")) (segs (runes "dists/by-hash/SHA256/00")) = true.
Proof.
  split; [vm_compute; reflexivity|]. rewrite <- (glob_is_by_segments "**/by-hash/SHA*/*" "dists/by-hash/SHA256/00"); vm_compute; reflexivity.
Defined.
Lemma Classify_by_name_witness : Classify_of Apt "/pool/main/a/x.deb" = Ok Immutable ∧
  class_of Apt [runes "pool"; runes "main"; runes "a"] (runes "x.deb") = Immutable.
Proof.
  split; [|vm_compute; reflexivity].
  rewrite (Classify_by_name Apt "/pool/main/a/x.deb" [runes "pool"; runes "main"; runes "a"] (runes "x.deb")); [|discriminate|]; vm_compute; reflexivity.
Defined.
Lemma keys_are_apart_witness : ∃ t, (ask Apt "/apt/debian/pool/Foo.deb").1 = Some t ∧ tg_StorageKey t = "cache/apt/1/pool/Foo.deb" ∧
  (∀ e path t', (ask e path).1 = Some t' → tg_StorageKey t' = "cache/apt/1/pool/Foo.deb" → e = Apt ∧ tg_UpstreamPath t' = "/pool/Foo.deb").
Proof.
  set (t0 := mk_Target "https://deb.example/debian/pool/Foo.deb" "/pool/Foo.deb" "cache/apt/1/pool/Foo.deb" (mk_Checksum "" "") "").
  assert (ask Apt "/apt/debian/pool/Foo.deb" = (Some t0, (ask Apt "/apt/debian/pool/Foo.deb").2)) as Ha.
  { rewrite (surjective_pairing (ask Apt _)) at 1. f_equal. }
  exists t0. split; [by rewrite Ha|]. split; [reflexivity|]. intros e path t' Ht Hk.
  assert (ask e path = (Some t', (ask e path).2)) as Hr by (rewrite <- Ht; apply surjective_pairing).
  destruct (keys_are_apart at_second same_rune Apt e _ path _ _ _ _ t0 t' Ha Hr) as (<- & _ & Hp); [by rewrite Hk|].
  split; [reflexivity|]. symmetry. exact Hp.
Defined.
(** A reading that fails, half a minute later, does not hide the upstream. *)
Definition broken (d : table) : table := (d.1, true).
Definition requests : list lookup_event :=
  [Begin "debian"; Begin "alpine"; Finish 0; Finish 0; Outside broken] ++ repeat (Begin "debian") 40 ++ [Finish 0].
Lemma lookups_are_fresh_witness :
  length (lookup_run at_second requests (begun two)) = 32%nat ∧
  Forall (λ x, agrees x.1 x.2) (lookup_run at_second requests (begun two)) ∧
  length (ls_log (foldl (λ s e, (lookup_step at_second e s).2) (begun two) requests)) = 2%nat.
Proof.
  split; [vm_compute; reflexivity|]. split; [|vm_compute; reflexivity].
  refine (proj1 (lookups_are_fresh at_second _ _ requests two)).
  - intros n m Hnm. unfold at_second, second. lia.
  - vm_compute. discriminate.
Defined.
End EcoDemo.
