(* ===== verification/XbpsVersion.v ===== *)
(** Versions of xbps packages (internal/mod/ecosystem/xbps/pkgver.go and vercmp.go):
    the parts of a pkgver, and the order of versions as the client computes it, with
    its 32-bit arithmetic. *)
From S2P Require Import Prelude GoStr Domain.
Local Open Scope Z_scope.

(** * pkgver.go *)

(** [splitIndex], as the split at the last dash before a digit. *)
Fixpoint split_version (s : string) : option (string * string) :=
  match s with
  | EmptyString => None
  | String c r =>
      match split_version r with
      | Some (l, v) => Some (String c l, v)
      | None => if Ascii.eqb c "-" && match r with String d _ => is_digit d | _ => false end then Some (EmptyString, r) else None
      end
  end.
Definition pkgverError (value reason : string) : error := ValidationError "pkgver" value reason.
Definition SplitRevision (version : string) : option (string * string) :=
  match cut_last "_" version with
  | Some (upstream, tail) => if negb (String.eqb tail "") && all_bytes is_digit tail then Some (upstream, tail) else None
  | None => None
  end.
Definition SplitPkgver (pkgver : string) : res (string * string) :=
  if String.eqb pkgver "" then Err (pkgverError pkgver "пустая строка")
  else match split_version pkgver with
  | None => Err (pkgverError pkgver "нет дефиса, за которым версия начинается с цифры")
  | Some (name, version) =>
      if String.eqb name "" then Err (pkgverError pkgver "пустое имя пакета")
      else if negb (all_bytes (λ c, negb (Ascii.eqb c "_")) version) && bool_decide (SplitRevision version = None)
      then Err (pkgverError pkgver "ревизия после «_» должна быть непустой последовательностью цифр")
      else Ok (name, version)
  end.
Definition Filename (pkgver architecture : string) : string := pkgver +:+ "." +:+ architecture +:+ ".xbps".
Example pkgvers : SplitPkgver "python3-pip-24.2_1" = Ok ("python3-pip", "24.2_1") ∧ SplitPkgver "66-init-1" = Ok ("66-init", "1") ∧
  SplitPkgver "foo-1.0_" = Err (pkgverError "foo-1.0_" "ревизия после «_» должна быть непустой последовательностью цифр") ∧
  SplitPkgver "foo" = Err (pkgverError "foo" "нет дефиса, за которым версия начинается с цифры") ∧
  SplitPkgver "-1" = Err (pkgverError "-1" "пустое имя пакета").
Proof. vm_compute. done. Qed.

(** * vercmp.go *)
Definition deweyAlpha : Z := -3.
Definition deweyBeta : Z := -2.
Definition deweyRC : Z := -1.
Definition deweyDot : Z := 0.
(** The components are 32-bit integers. *)
Record deweyVersion := mk_deweyVersion { dw_parts : list Z; dw_revision : Z }.
Fixpoint deweyNumber_from (n : Z) (s : string) : Z :=
  match s with
  | String c s => if is_digit c then deweyNumber_from (wrap32 (wrap32 (n * 10) + digit_val c)) s else n
  | EmptyString => n
  end.
Definition deweyNumber : string → Z := deweyNumber_from 0.
Fixpoint deweyDigits (s : string) : nat :=
  match s with String c s => if is_digit c then S (deweyDigits s) else O | EmptyString => O end.
Definition hasPrefixFold (s prefix : string) : bool :=
  (String.length prefix <=? String.length s)%nat && equal_fold (String.substring 0 (String.length prefix) s) prefix.
Definition deweyModifier (num : string) : option (Z * nat) :=
  match num with
  | EmptyString => None
  | String c _ =>
      let c := lower_byte c in
      if Ascii.eqb c "a" then (if hasPrefixFold num "alpha" then Some (deweyAlpha, 5%nat) else None)
      else if Ascii.eqb c "b" then (if hasPrefixFold num "beta" then Some (deweyBeta, 4%nat) else None)
      else if Ascii.eqb c "p" then
        (if hasPrefixFold num "pre" then Some (deweyRC, 3%nat) else if hasPrefixFold num "pl" then Some (deweyDot, 2%nat) else None)
      else if Ascii.eqb c "r" then (if hasPrefixFold num "rc" then Some (deweyRC, 2%nat) else None)
      else if Ascii.eqb c "." then Some (deweyDot, 1%nat)
      else None
  end.
Definition isASCIIAlpha (c : ascii) : bool := is_alpha c.
Definition deweyLetterIndex (c : ascii) : Z := Z.of_N (N_of_ascii (lower_byte c)) - 96.
(** [component] of a text that is not empty: the version with what it says, and the
    bytes it takes. *)
Definition component (c : ascii) (rest : string) (v : deweyVersion) : deweyVersion * nat :=
  let num := String c rest in
  if is_digit c then (mk_deweyVersion (dw_parts v ++ [deweyNumber num]) (dw_revision v), deweyDigits num)
  else match deweyModifier num with
  | Some (code, size) => (mk_deweyVersion (dw_parts v ++ [code]) (dw_revision v), size)
  | None =>
      if Ascii.eqb c "_" then (mk_deweyVersion (dw_parts v) (deweyNumber rest), S (deweyDigits rest))
      else if isASCIIAlpha c then (mk_deweyVersion (dw_parts v ++ [deweyDot; deweyLetterIndex c]) (dw_revision v), 1%nat)
      else (v, 1%nat)
  end.
Fixpoint drop_bytes (n : nat) (s : string) : string :=
  match n, s with S n, String _ s => drop_bytes n s | _, _ => s end.
Fixpoint parse_loop (fuel : nat) (s : string) (v : deweyVersion) : deweyVersion :=
  match fuel, s with
  | S fuel, String c rest => let '(v, n) := component c rest v in parse_loop fuel (drop_bytes n s) v
  | _, _ => v
  end.
(** Each component takes at least one byte. *)
Definition parseDewey (s : string) : deweyVersion := parse_loop (String.length s) s (mk_deweyVersion [] 0).
Definition signOfPart (a b : Z) : Z := let d := wrap32 (a - b) in if d <? 0 then -1 else if 0 <? d then 1 else 0.
Fixpoint compare_parts (n : nat) (us vs : list Z) : option Z :=
  match n with
  | O => None
  | S n =>
      let a := default 0 (head us) in let b := default 0 (head vs) in
      if negb (a =? b) then Some (signOfPart a b) else compare_parts n (tail us) (tail vs)
  end.
Definition compare_dewey (v o : deweyVersion) : Z :=
  match compare_parts (length (dw_parts v) `max` length (dw_parts o)) (dw_parts v) (dw_parts o) with Some c => c | None => signOfPart (dw_revision v) (dw_revision o) end.
Definition CompareXbpsVer (a b : string) : Z :=
  match SplitPkgver a, SplitPkgver b with
  | Ok (nameA, verA), Ok (nameB, verB) =>
      if str_cmp nameA nameB =? 0 then compare_dewey (parseDewey verA) (parseDewey verB) else str_cmp nameA nameB
  | _, _ => compare_dewey (parseDewey a) (parseDewey b)
  end.
Example versions : CompareXbpsVer "a-1.0" "a-1.0.0" = 0 ∧ CompareXbpsVer "a-1.0_0" "a-1.0" = 0 ∧ CompareXbpsVer "a-1.0~rc1" "a-1.0" = -1 ∧
  CompareXbpsVer "a-1.0pre1" "a-1.0rc1" = 0 ∧ CompareXbpsVer "a-1.0PL1" "a-1.0" = 1 ∧ CompareXbpsVer "a-7.0.0_2" "a-7.0.0_1" = 1 ∧
  CompareXbpsVer "a-1.2" "a-1.10" = -1 ∧ CompareXbpsVer "a-1.0~1" "a-1.0" = 1 ∧ CompareXbpsVer "a-1" "b-1" = -1 ∧
  CompareXbpsVer "xtools-2400127517_3" "xtools-143b31" = -1 ∧ CompareXbpsVer "foo-2147483648" "foo-1" = 1 ∧ CompareXbpsVer "foo-0" "foo-2147483648" = -1.
Proof. vm_compute. done. Qed.

(** * The order *)
Definition part (v : deweyVersion) (i : nat) : Z := default 0 (dw_parts v !! i).
(** The reference: the first component in which the versions differ decides, a
    missing one counting as zero; then the revisions. *)
Definition older (u v : deweyVersion) : Prop :=
  (∃ i, (∀ j, (j < i)%nat → part u j = part v j) ∧ part u i < part v i) ∨ (∀ j, part u j = part v j) ∧ dw_revision u < dw_revision v.
Definition as_old (u v : deweyVersion) : Prop := (∀ j, part u j = part v j) ∧ dw_revision u = dw_revision v.
(** No component is so large that a difference leaves 32 bits. *)
Definition fits (z : Z) : Prop := -3 ≤ z ≤ 2 ^ 31 - 4.
Definition in_range (v : deweyVersion) : Prop := Forall fits (dw_parts v) ∧ fits (dw_revision v).
Lemma signOfPart_fits a b : fits a → fits b → signOfPart a b = cmp_int (a ?= b).
Proof.
  unfold fits, signOfPart. intros Ha Hb. rewrite wrap32_small by lia. destruct (Z.compare_spec a b); simpl.
  - subst. by rewrite Z.sub_diag.
  - by rewrite (proj2 (Z.ltb_lt _ _)) by lia.
  - rewrite (proj2 (Z.ltb_ge _ _)) by lia. by rewrite (proj2 (Z.ltb_lt _ _)) by lia.
Qed.
Lemma compare_parts_spec n us vs : (length us <= n)%nat → (length vs <= n)%nat → match compare_parts n us vs with
  | None => ∀ j, default 0 (us !! j) = default 0 (vs !! j)
  | Some c => ∃ i, (∀ j, (j < i)%nat → default 0 (us !! j) = default 0 (vs !! j)) ∧
      default 0 (us !! i) ≠ default 0 (vs !! i) ∧ c = signOfPart (default 0 (us !! i)) (default 0 (vs !! i))
  end.
Proof.
  assert (∀ (l : list Z) j, tail l !! j = l !! S j) as Htl by (by intros []).
  assert (∀ l : list Z, head l = l !! 0%nat) as Hhd by (by intros []).
  revert us vs. induction n as [|n IH]; intros us vs Hu Hv.
  - by rewrite (nil_length_inv us), (nil_length_inv vs) by lia.
  - cbn [compare_parts]. rewrite !Hhd. destruct (Z.eqb_spec (default 0 (us !! 0%nat)) (default 0 (vs !! 0%nat))) as [He|Hne]; simpl.
    + specialize (IH (tail us) (tail vs) ltac:(destruct us; simpl in *; lia) ltac:(destruct vs; simpl in *; lia)).
      destruct (compare_parts n (tail us) (tail vs)) as [c|].
      * destruct IH as (i & H1 & H2 & H3). rewrite !Htl in H2, H3. exists (S i). split_and!; [|done..].
        intros [|j] Hj; [done|]. rewrite <- !Htl. apply H1. lia.
      * intros [|j]; [done|]. rewrite <- !Htl. apply IH.
    + exists 0%nat. split_and!; [lia|done|done].
Qed.
Lemma part_fits v i : in_range v → fits (part v i).
Proof.
  intros [Hp _]. unfold part. destruct (dw_parts v !! i) as [z|] eqn:Hi; simpl; [|unfold fits; lia]. by eapply Forall_lookup_1.
Qed.
Lemma compare_cases u v : in_range u → in_range v →
  compare_dewey u v = -1 ∧ older u v ∨ compare_dewey u v = 0 ∧ as_old u v ∨ compare_dewey u v = 1 ∧ older v u.
Proof.
  intros Hu Hv. unfold compare_dewey. set (n := (length (dw_parts u) `max` length (dw_parts v))%nat).
  pose proof (compare_parts_spec n (dw_parts u) (dw_parts v) ltac:(lia) ltac:(lia)) as Hs. destruct (compare_parts n (dw_parts u) (dw_parts v)) as [c|].
  - destruct Hs as (i & Heq & Hne & ->). fold (part u i) in *. fold (part v i) in *. rewrite signOfPart_fits by (by apply part_fits).
    destruct (Z.compare_spec (part u i) (part v i)); [done| |]; simpl; [left|right; right]; (split; [done|]); left; exists i; (split; [|done]); intros j Hj; [by apply Heq|symmetry; by apply Heq].
  - rewrite signOfPart_fits by (apply Hu || apply Hv). destruct (Z.compare_spec (dw_revision u) (dw_revision v)); simpl.
    + right; left. by split_and!.
    + left. split; [done|]. by right.
    + right; right. split; [done|]. right. split; [|done]. intros j. symmetry. apply Hs.
Qed.
Lemma older_trans u v w : older u v → older v w → older u w.
Proof.
  intros [(i & Hi & Hlt)|[He Hr]] [(k & Hk & Hlt')|[He' Hr']].
  - left. destruct (Nat.lt_total i k) as [Hik|[->|Hik]].
    + exists i. split; [|rewrite <- (Hk i Hik); done]. intros j Hj. rewrite Hi by done. apply Hk. lia.
    + exists k. split; [|lia]. intros j Hj. rewrite Hi by done. by apply Hk.
    + exists k. split; [|rewrite (Hi k Hik); done]. intros j Hj. rewrite Hi by lia. by apply Hk.
  - left. exists i. split; [|by rewrite <- He']. intros j Hj. rewrite <- He'. by apply Hi.
  - left. exists k. split; [|by rewrite He]. intros j Hj. rewrite He. by apply Hk.
  - right. split; [|lia]. intros j. by rewrite He.
Qed.
Lemma older_irrefl u v : older u v → as_old u v ∨ older v u → False.
Proof.
  assert (∀ x, ¬ older x x) as Hirr.
  { intros x [(i & _ & Hlt)|[_ Hlt]]; lia. }
  intros Huv [[He Hr]|Hvu]; [|by eapply Hirr, older_trans].
  destruct Huv as [(i & _ & Hlt)|[_ Hlt]]; [|lia]. rewrite He in Hlt. lia.
Qed.
Lemma as_old_older u v w : as_old u v → older v w → older u w.
Proof.
  intros [He Hr] [(i & Hi & Hlt)|[He' Hr']]; [left; exists i; split; [|by rewrite He]; intros j Hj; rewrite He; by apply Hi|].
  right. split; [|lia]. intros j. by rewrite He.
Qed.
Lemma older_as_old u v w : older u v → as_old v w → older u w.
Proof.
  intros [(i & Hi & Hlt)|[He' Hr']] [He Hr]; [left; exists i; split; [|by rewrite <- He]; intros j Hj; rewrite <- He; by apply Hi|].
  right. split; [|lia]. intros j. by rewrite <- He.
Qed.

(** * pkgvers of one package *)
Definition version_of (name pkgver version : string) : Prop := SplitPkgver pkgver = Ok (name, version) ∧ in_range (parseDewey version).
Lemma CompareXbpsVer_versions name a b va vb : version_of name a va → version_of name b vb →
  CompareXbpsVer a b = compare_dewey (parseDewey va) (parseDewey vb).
Proof. intros [Ha _] [Hb _]. unfold CompareXbpsVer. by rewrite Ha, Hb, str_cmp_refl. Qed.

Lemma version_order name a b c va vb vc : version_of name a va → version_of name b vb → version_of name c vc →
  (CompareXbpsVer a b < 0 ↔ older (parseDewey va) (parseDewey vb)) ∧
  (CompareXbpsVer a b = 0 ↔ as_old (parseDewey va) (parseDewey vb)) ∧
  CompareXbpsVer b a = - CompareXbpsVer a b ∧
  (CompareXbpsVer a b <= 0 → CompareXbpsVer b c <= 0 → CompareXbpsVer a c <= 0).
Proof.
  intros Ha Hb Hc. rewrite (CompareXbpsVer_versions name a b va vb), (CompareXbpsVer_versions name b a vb va),
    (CompareXbpsVer_versions name b c vb vc), (CompareXbpsVer_versions name a c va vc) by done.
  destruct Ha as [_ Ha], Hb as [_ Hb], Hc as [_ Hc]. set (u := parseDewey va) in *. set (v := parseDewey vb) in *. set (w := parseDewey vc) in *.
  pose proof (compare_cases u v Ha Hb) as Huv. pose proof (compare_cases v u Hb Ha) as Hvu.
  pose proof (compare_cases v w Hb Hc) as Hvw. pose proof (compare_cases u w Ha Hc) as Huw.
  assert (as_old u v → as_old v u) as Hsym by (intros [? ?]; split; [intros j; congruence|congruence]).
  assert (∀ x y, as_old x y → as_old y x) as Hsym' by (intros x y [? ?]; split; [intros j; congruence|congruence]).
  pose proof (older_irrefl u v) as I1. pose proof (older_irrefl v u) as I2. pose proof (older_irrefl w u) as I3.
  split_and!.
  - destruct Huv as [[E ?]|[[E ?]|[E ?]]]; rewrite E; split; intros; try lia; try done; exfalso; eauto.
  - destruct Huv as [[E ?]|[[E ?]|[E ?]]]; rewrite E; split; intros; try lia; try done; exfalso; eauto.
  - destruct Huv as [[E ?]|[[E ?]|[E ?]]], Hvu as [[E' ?]|[[E' ?]|[E' ?]]]; rewrite E, E'; try lia; exfalso; eauto.
  - intros H1 H2. destruct Huw as [[E ?]|[[E ?]|[E Hwu]]]; rewrite E; try lia. exfalso.
    destruct Huv as [[E1 Q1]|[[E1 Q1]|[E1 _]]], Hvw as [[E2 Q2]|[[E2 Q2]|[E2 _]]]; try lia.
    + apply I3; [done|]. right. by eapply older_trans.
    + apply I3; [done|]. right. by eapply older_as_old.
    + apply I3; [done|]. right. by eapply as_old_older.
    + apply I3; [done|]. left. destruct Q1 as [F1 R1], Q2 as [F2 R2]. split; [|congruence]. intros j. by rewrite <- F2, <- F1.
Qed.
(** The order of versions. On the pkgvers of one package whose components are
    small enough for the client's 32-bit arithmetic, the comparison is the reference
    order: the first component in which two versions differ decides, a missing one
    counting as zero, and the revision decides last; it is a total preorder, so the
    newest version of a set does not depend on the order in which it is searched. *)
Theorem CompareXbpsVer_order name a b c va vb vc : version_of name a va → version_of name b vb → version_of name c vc →
  (CompareXbpsVer a b < 0 ↔ older (parseDewey va) (parseDewey vb)) ∧
  (CompareXbpsVer a b = 0 ↔ as_old (parseDewey va) (parseDewey vb)) ∧
  CompareXbpsVer b a = - CompareXbpsVer a b ∧
  (CompareXbpsVer a b <= 0 → CompareXbpsVer b c <= 0 → CompareXbpsVer a c <= 0).
Proof. apply version_order. Qed.

(** Beyond 32 bits the difference wraps, as the client's does, and the comparison is
    no order: each of two versions is older than the other, and three versions can
    chase each other. *)
Lemma wrapped_versions :
  CompareXbpsVer "a-1.alpha2147483647" "a-1.alpharc" = -1 ∧ CompareXbpsVer "a-1.alpharc" "a-1.alpha2147483647" = -1 ∧
  CompareXbpsVer "a-0" "a-1500000000" = -1 ∧ CompareXbpsVer "a-1500000000" "a-3000000000" = -1 ∧ CompareXbpsVer "a-0" "a-3000000000" = 1.
Proof. vm_compute. done. Qed.
Lemma CompareXbpsVer_order_witness : CompareXbpsVer "lxc-7.0.9_1" "lxc-7.0.10_1" < 0 ∧ CompareXbpsVer "lxc-7.0.10_1" "lxc-7.0.9_1" = - CompareXbpsVer "lxc-7.0.9_1" "lxc-7.0.10_1".
Proof.
  assert (∀ p v, SplitPkgver p = Ok ("lxc", v) → forallb (λ z, (-3 <=? z) && (z <=? 2 ^ 31 - 4)) (dw_revision (parseDewey v) :: dw_parts (parseDewey v)) = true →
    version_of "lxc" p v) as Hv.
  { intros p v Hp Hf. split; [exact Hp|]. cbn [forallb] in Hf. apply andb_prop in Hf as [Hr Hf]. unfold in_range, fits. split; [|lia].
    apply Forall_forall. intros z Hz. rewrite forallb_forall in Hf. apply list_elem_of_In, Hf in Hz. lia. }
  split; [vm_compute; reflexivity|].
  refine (proj1 (proj2 (proj2 (CompareXbpsVer_order "lxc" "lxc-7.0.9_1" "lxc-7.0.10_1" "lxc-7.0.9_1" "7.0.9_1" "7.0.10_1" "7.0.9_1" _ _ _))));
    apply Hv; vm_compute; reflexivity.
Defined.
