(* ===== verification/XbpsIndex.v ===== *)
(** The index of an xbps repository (internal/mod/ecosystem/xbps/writer.go, index.go,
    and the dictionary of pkgparse.go): the property lists that the generator writes
    and the mirror reads, as sequences of XML tokens, and that what is written is
    read back. *)
From S2P Require Import Prelude GoStr Domain Port.
Local Open Scope Z_scope.

(** * Tokens

    [Other]: a processing instruction, a directive, a comment. [Broken]: what the
    decoder answers, after its last token, on a text that is no XML or that cannot
    be read on; at the end of the elements it answers [io.EOF]. *)
Inductive token := Start (name : string) | End_ (name : string) | Chars (s : string) | Other | Broken (e : error).

(** What a decoder reads of what an encoder of encoding/xml has written with
    [Indent("\t", "")]: a line break and a tab before every tag, but for the end of
    an element that has no children; a rune that XML does not admit is replaced. *)
Definition illegal_rune (r : string) : bool :=
  match r with
  | String c EmptyString => (N_of_ascii c <? 32)%N && negb (existsb (Ascii.eqb c) [byte 9; byte 10; byte 13])
  | _ => existsb (String.eqb r) [bytes [239; 191; 190]; bytes [239; 191; 191]]%N
  end.
Definition escaped (s : string) : string := String.concat "" (map (λ r, if illegal_rune r then rune_error else r) (runes s)).
Definition new_line : token := Chars (bytes [10; 9]%N).
Fixpoint indent (childless : bool) (toks : list token) : list token :=
  match toks with
  | [] => []
  | Start n :: toks => new_line :: Start n :: indent true toks
  | End_ n :: toks => if childless then End_ n :: indent false toks else new_line :: End_ n :: indent false toks
  | Chars s :: toks => if String.eqb s "" then indent childless toks else Chars (escaped s) :: indent childless toks
  | t :: toks => t :: indent childless toks
  end.
(** After the declaration and the document type. *)
Definition wire (toks : list token) : list token := Other :: Chars (bytes [10]%N) :: Other :: indent false toks.

(** * Writing (writer.go) *)
Record Props := mk_Props {
  pr_PkgName : string; pr_PkgVer : string; pr_Version : string; pr_Architecture : string; pr_ShortDesc : string; pr_Homepage : string;
  pr_License : string; pr_Maintainer : string; pr_InstalledSize : Z; pr_SourceRevisions : string; pr_RunDepends : list string; pr_Provides : list string
}.
Record IndexOut := mk_IndexOut { io_Props : Props; io_FilenameSHA256 : string; io_FilenameSize : Z }.
Definition writeKey (key : string) : list token := [Start "key"; Chars key; End_ "key"].
Definition writeStringField (key val : string) : list token :=
  if String.eqb val "" then [] else writeKey key ++ [Start "string"; Chars val; End_ "string"].
Definition writeIntField (key : string) (val : Z) : list token :=
  if val =? 0 then [] else writeKey key ++ [Start "integer"; Chars (fmt_int val); End_ "integer"].
Definition writeArrayField (key : string) (val : list string) : list token :=
  match val with
  | [] => []
  | _ => writeKey key ++ [Start "array"] ++ (val ≫= λ s, [Start "string"; Chars s; End_ "string"]) ++ [End_ "array"]
  end.
Definition writeIndexEntry (e : IndexOut) : list token :=
  let p := io_Props e in
  writeKey (pr_PkgName p) ++ [Start "dict"] ++
  writeStringField "architecture" (pr_Architecture p) ++
  writeStringField "filename-sha256" (io_FilenameSHA256 e) ++
  writeIntField "filename-size" (io_FilenameSize e) ++
  writeStringField "homepage" (pr_Homepage p) ++
  writeIntField "installed_size" (pr_InstalledSize p) ++
  writeStringField "license" (pr_License p) ++
  writeStringField "maintainer" (pr_Maintainer p) ++
  writeStringField "pkgver" (pr_PkgVer p) ++
  writeArrayField "provides" (pr_Provides p) ++
  writeArrayField "run_depends" (pr_RunDepends p) ++
  writeStringField "short_desc" (pr_ShortDesc p) ++
  writeStringField "source-revisions" (pr_SourceRevisions p) ++
  writeStringField "version" (pr_Version p) ++ [End_ "dict"].
(** Entries in the order of their names; entries of one name may come in any order. *)
Definition by_PkgName (a b : IndexOut) : Prop := str_le (pr_PkgName (io_Props a)) (pr_PkgName (io_Props b)).
#[global] Instance by_PkgName_dec a b : Decision (by_PkgName a b).
Proof. unfold by_PkgName. apply _. Defined.
Definition sorted_entries (entries : list IndexOut) : list IndexOut := merge_sort by_PkgName entries.
Definition WriteIndexPlist (entries : list IndexOut) : list token :=
  [Start "plist"; Start "dict"] ++ (sorted_entries entries ≫= writeIndexEntry) ++ [End_ "dict"; End_ "plist"].

(** * Reading (index.go) *)
Definition maxFieldValue : Z := 64 * 1024.
Definition maxArrayElems : nat := 4096.
Definition maxPackages : Z := 1000000.
Record IndexEntry := mk_IndexEntry {
  ie_PkgName : string; ie_PkgVer : string; ie_Architecture : string; ie_ShortDesc : string; ie_Homepage : string; ie_License : string;
  ie_Maintainer : string; ie_FilenameSHA256 : string; ie_FilenameSize : Z; ie_InstalledSize : Z;
  ie_RunDepends : list string; ie_Provides : list string; ie_ShlibRequires : list string; ie_ShlibProvides : list string
}.
Definition ErrBadPlist : error := Text "xbps: некорректный XML-plist index.plist".
Definition bad (msg : string) : error := Wrap msg ErrBadPlist.
(** [plistTokenErr]: of no token, the end of the text; of [Broken], an error with two
    causes, of which the text tells [ErrBadPlist]. *)
Definition unexpected_end : error := bad "неожиданный конец XML".
Definition plistTokenErr (e : error) : error := Wrap "xbps: некорректный XML-plist index.plist" e.
Fixpoint readText (start b : string) (toks : list token) : res (string * list token) :=
  match toks with
  | [] => Err unexpected_end
  | Chars s :: toks => if maxFieldValue <? len b + len s then Err (bad ("значение поля превышает " +:+ fmt_int maxFieldValue +:+ " байт")) else readText start (b +:+ s) toks
  | End_ _ :: toks => Ok (b, toks)
  | Start n :: _ => Err (bad ("вложенный <" +:+ n +:+ "> в <" +:+ start +:+ ">"))
  | Other :: toks => readText start b toks
  | Broken e :: _ => Err (plistTokenErr e)
  end.
Fixpoint nextStart (toks : list token) : res (string * list token) :=
  match toks with
  | [] => Err unexpected_end
  | Start n :: toks => Ok (n, toks)
  | End_ n :: _ => Err (bad ("преждевременное </" +:+ n +:+ ">"))
  | Broken e :: _ => Err (plistTokenErr e)
  | _ :: toks => nextStart toks
  end.
Definition expectStart (name : string) (toks : list token) : res (list token) :=
  match nextStart toks with
  | Err e => Err e
  | Ok (n, toks) => if String.eqb n name then Ok toks else Err (bad ("ожидался <" +:+ name +:+ ">, получен <" +:+ n +:+ ">"))
  end.
Fixpoint skipElement (depth : nat) (toks : list token) {struct toks} : res (list token) :=
  match depth with
  | O => Ok toks
  | S d =>
      match toks with
      | [] => Err unexpected_end
      | Start _ :: toks => skipElement (S depth) toks
      | End_ _ :: toks => skipElement d toks
      | Broken e :: _ => Err (plistTokenErr e)
      | _ :: toks => skipElement depth toks
      end
  end.
(** The loops read element after element; [fuel] bounds the elements, of which there
    are at most as many as tokens. *)
Fixpoint readArray (fuel : nat) (start : string) (out : list string) (toks : list token) : res (list string * list token) :=
  match fuel with
  | O => Err unexpected_end
  | S fuel =>
      match toks with
      | [] => Err unexpected_end
      | End_ _ :: toks => Ok (out, toks)
      | Start n :: toks =>
          if negb (String.eqb n "string") then Err (bad ("в массиве <" +:+ start +:+ "> ожидался <string>, получен <" +:+ n +:+ ">"))
          else match readText n "" toks with
          | Err e => Err e
          | Ok (s, toks) =>
              if (maxArrayElems <=? length out)%nat then Err (bad ("лимит элементов массива " +:+ fmt_int 4096)) else readArray fuel start (out ++ [s]) toks
          end
      | Broken e :: _ => Err (plistTokenErr e)
      | _ :: toks => readArray fuel start out toks
      end
  end.
Inductive fieldKind := kindUnknown | kindString | kindInteger | kindArray.
Definition kindOf (key : string) : fieldKind :=
  if existsb (String.eqb key) ["pkgver"; "architecture"; "short_desc"; "homepage"; "license"; "maintainer"; "filename-sha256"] then kindString
  else if existsb (String.eqb key) ["filename-size"; "installed_size"] then kindInteger
  else if existsb (String.eqb key) ["run_depends"; "provides"; "shlib-requires"; "shlib-provides"] then kindArray
  else kindUnknown.
Definition setStringField (key val : string) (e : IndexEntry) : IndexEntry :=
  let '(mk_IndexEntry n v a sd h l m sha fs is_ rd pr sr sp) := e in
  if String.eqb key "pkgver" then mk_IndexEntry n val a sd h l m sha fs is_ rd pr sr sp
  else if String.eqb key "architecture" then mk_IndexEntry n v val sd h l m sha fs is_ rd pr sr sp
  else if String.eqb key "short_desc" then mk_IndexEntry n v a val h l m sha fs is_ rd pr sr sp
  else if String.eqb key "homepage" then mk_IndexEntry n v a sd val l m sha fs is_ rd pr sr sp
  else if String.eqb key "license" then mk_IndexEntry n v a sd h val m sha fs is_ rd pr sr sp
  else if String.eqb key "maintainer" then mk_IndexEntry n v a sd h l val sha fs is_ rd pr sr sp
  else if String.eqb key "filename-sha256" then mk_IndexEntry n v a sd h l m val fs is_ rd pr sr sp
  else e.
Definition setIntField (key : string) (val : Z) (e : IndexEntry) : IndexEntry :=
  let '(mk_IndexEntry n v a sd h l m sha fs is_ rd pr sr sp) := e in
  if String.eqb key "filename-size" then mk_IndexEntry n v a sd h l m sha val is_ rd pr sr sp
  else if String.eqb key "installed_size" then mk_IndexEntry n v a sd h l m sha fs val rd pr sr sp
  else e.
Definition setArrayField (key : string) (val : list string) (e : IndexEntry) : IndexEntry :=
  let '(mk_IndexEntry n v a sd h l m sha fs is_ rd pr sr sp) := e in
  if String.eqb key "run_depends" then mk_IndexEntry n v a sd h l m sha fs is_ val pr sr sp
  else if String.eqb key "provides" then mk_IndexEntry n v a sd h l m sha fs is_ rd val sr sp
  else if String.eqb key "shlib-requires" then mk_IndexEntry n v a sd h l m sha fs is_ rd pr val sp
  else if String.eqb key "shlib-provides" then mk_IndexEntry n v a sd h l m sha fs is_ rd pr sr val
  else e.
Section reading.
  (** [%q]; the text of an error of [strconv.ParseInt]. *)
  Context (quote ParseInt_error : string → string).
Definition typeMismatch (key got : string) : error := bad ("ключ " +:+ quote key +:+ ": неожиданный тип значения <" +:+ got +:+ ">").
Definition not_a_number (key val : string) : error := bad ("ключ " +:+ quote key +:+ ": " +:+ ParseInt_error val).
Definition assignString (key : string) (kind : fieldKind) (val : string) (e : IndexEntry) : res IndexEntry :=
  match kind with kindUnknown => Ok e | kindString => Ok (setStringField key val e) | _ => Err (typeMismatch key "string") end.
Definition assignInteger (key : string) (kind : fieldKind) (val : string) (e : IndexEntry) : res IndexEntry :=
  match kind with
  | kindUnknown => Ok e
  | kindInteger =>
      match parse_int (trim_space val) with Some n => Ok (setIntField key n e) | None => Err (not_a_number key (trim_space val)) end
  | _ => Err (typeMismatch key "integer")
  end.
Definition assignArray (key : string) (kind : fieldKind) (val : list string) (e : IndexEntry) : res IndexEntry :=
  match kind with kindUnknown => Ok e | kindArray => Ok (setArrayField key val e) | _ => Err (typeMismatch key "array") end.
Definition with_rest {A} (x : res A) (toks : list token) : res (A * list token) :=
  match x with Ok a => Ok (a, toks) | Err e => Err e end.
Definition parseField (fuel : nat) (key : string) (e : IndexEntry) (toks : list token) : res (IndexEntry * list token) :=
  match nextStart toks with
  | Err x => Err x
  | Ok (val, toks) =>
      let kind := kindOf key in
      if String.eqb val "string" then
        match readText val "" toks with Err x => Err x | Ok (s, toks) => with_rest (assignString key kind s e) toks end
      else if String.eqb val "integer" then
        match readText val "" toks with Err x => Err x | Ok (s, toks) => with_rest (assignInteger key kind s e) toks end
      else if String.eqb val "array" then
        match readArray fuel val [] toks with Err x => Err x | Ok (arr, toks) => with_rest (assignArray key kind arr e) toks end
      else match skipElement 1 toks with Ok toks => Ok (e, toks) | Err x => Err x end
  end.
Fixpoint parseEntryDict (fuel : nat) (e : IndexEntry) (toks : list token) : res (IndexEntry * list token) :=
  match fuel with
  | O => Err unexpected_end
  | S fuel =>
      match toks with
      | [] => Err unexpected_end
      | End_ _ :: toks => Ok (e, toks)
      | Start n :: toks =>
          if negb (String.eqb n "key") then Err (bad ("в словаре записи <" +:+ n +:+ ">, ожидался <key>"))
          else match readText n "" toks with
          | Err x => Err x
          | Ok (key, toks) =>
              match parseField fuel key e toks with Err x => Err x | Ok (e, toks) => parseEntryDict fuel e toks end
          end
      | Broken e :: _ => Err (plistTokenErr e)
      | _ :: toks => parseEntryDict fuel e toks
      end
  end.
Definition empty_entry (name : string) : IndexEntry := mk_IndexEntry name "" "" "" "" "" "" "" 0 0 [] [] [] [].
(** What the callback has been given, and how the reading ended. *)
Fixpoint parseTopDict (fuel : nat) (count : Z) (given : list IndexEntry) (toks : list token) : list IndexEntry * option error :=
  match fuel with
  | O => (given, Some unexpected_end)
  | S fuel =>
      match toks with
      | [] => (given, Some unexpected_end)
      | End_ _ :: _ => (given, None)
      | Start n :: toks =>
          if negb (String.eqb n "key") then (given, Some (bad ("в словаре пакетов <" +:+ n +:+ ">, ожидался <key>")))
          else match readText n "" toks with
          | Err x => (given, Some x)
          | Ok (pkg, toks) =>
              match nextStart toks with
              | Err x => (given, Some x)
              | Ok (val, toks) =>
                  if negb (String.eqb val "dict") then (given, Some (bad ("ключ " +:+ quote pkg +:+ ": ожидался <dict>, получен <" +:+ val +:+ ">")))
                  else match parseEntryDict fuel (empty_entry pkg) toks with
                  | Err x => (given, Some x)
                  | Ok (e, toks) =>
                      if maxPackages <? count + 1 then (given, Some (bad ("лимит записей пакетов " +:+ fmt_int maxPackages)))
                      else parseTopDict fuel (count + 1) (given ++ [e]) toks
                  end
              end
          end
      | Broken e :: _ => (given, Some (plistTokenErr e))
      | _ :: toks => parseTopDict fuel count given toks
      end
  end.
Definition ParseIndexPlist (toks : list token) : list IndexEntry * option error :=
  match expectStart "plist" toks with
  | Err e => ([], Some e)
  | Ok toks =>
      match expectStart "dict" toks with
      | Err e => ([], Some e)
      | Ok toks => parseTopDict (S (length toks)) 0 [] toks
      end
  end.
End reading.
Definition demo_props (name ver arch : string) : Props := mk_Props name ver "" arch "text & <more>" "" "MIT" "" 7 "" ["libc>=0"; ""] [].
Definition demo_out (name ver arch : string) : IndexOut := mk_IndexOut (demo_props name ver arch) "00ff" 512.
Example demo_read_back : ParseIndexPlist (λ s, s) (λ s, s) (wire (WriteIndexPlist [demo_out "b" "b-1_1" "x86_64"; demo_out "a" "a-2_1" "noarch"])) =
  ([mk_IndexEntry "a" "a-2_1" "noarch" "text & <more>" "" "MIT" "" "00ff" 512 7 ["libc>=0"; ""] [] [] [];
    mk_IndexEntry "b" "b-1_1" "x86_64" "text & <more>" "" "MIT" "" "00ff" 512 7 ["libc>=0"; ""] [] [] []], None).
Proof. vm_compute. reflexivity. Qed.

(** * What is written is read *)

(** A text that XML admits and that the reader is ready to hold. *)
Definition legal (s : string) : Prop := escaped s = s ∧ len s <= maxFieldValue.
Definition text_of (s : string) : list token := if String.eqb s "" then [] else [Chars s].
Lemma indent_text s n r : legal s → indent true (Chars s :: End_ n :: r) = text_of s ++ End_ n :: indent false r.
Proof. intros [Hs _]. unfold text_of. simpl. destruct (String.eqb s ""); [done|]. by rewrite Hs. Qed.
Lemma readText_text start s n r : legal s → readText start "" (text_of s ++ End_ n :: r) = Ok (s, r).
Proof.
  intros [_ Hl]. unfold text_of. destruct (String.eqb_spec s "") as [->|Hne]; [done|]. cbn [app readText].
  change (len "") with 0. rewrite (proj2 (Z.ltb_ge _ _)) by lia. done.
Qed.
Definition elem (n s : string) : list token := [Start n; Chars s; End_ n].
Lemma indent_elem b n s r : legal s → indent b (elem n s ++ r) = new_line :: Start n :: text_of s ++ End_ n :: indent false r.
Proof. intros Hs. by rewrite <- indent_text. Qed.
Lemma indent_end b n r : indent b (End_ n :: r) = (if b then [] else [new_line]) ++ End_ n :: indent false r.
Proof. by destruct b. Qed.
Lemma readArray_elems l : ∀ fuel start b out r, Forall legal l → (length out + length l <= maxArrayElems)%nat →
  (length (indent b ((l ≫= elem "string") ++ End_ "array" :: r)) < fuel)%nat →
  readArray fuel start out (indent b ((l ≫= elem "string") ++ End_ "array" :: r)) = Ok (out ++ l, indent false r).
Proof.
  induction l as [|s l IH]; intros fuel start b out r Hall Hmax Hf.
  - rewrite (right_id_L [] (++) out). simpl app in *. rewrite indent_end in *. destruct b; simpl in *.
    + destruct fuel; [lia|done].
    + destruct fuel as [|[|fuel]]; [lia..|done].
  - apply Forall_cons in Hall as [Hs Hall]. rewrite bind_cons, <- (assoc_L (++)), indent_elem in * by done. simpl in Hf. rewrite length_app in Hf. simpl in Hf.
    destruct fuel as [|[|fuel]]; [lia..|]. cbn [readArray]. change (String.eqb "string" "string") with true. cbn [negb].
    rewrite readText_text by done. simpl in Hmax. rewrite (proj2 (Nat.leb_gt _ _)) by lia.
    rewrite IH; [by rewrite <- (assoc_L (++))|done|rewrite length_app; simpl; lia|lia].
Qed.
(** Numbers as texts. *)
Lemma last_byte_cons c s : is_Some (last_byte (String c s)).
Proof. revert c. induction s as [|d s IH]; intros c; [by eexists|]. exact (IH d). Qed.
Lemma escaped_plain s : all_bytes (λ c, (32 <=? N_of_ascii c)%N && (N_of_ascii c <? 127)%N) s = true → escaped s = s.
Proof.
  unfold escaped. induction s as [|c s IH]; [done|]. intros [Hc Hs]%andb_prop. apply andb_prop in Hc as [H1 H2].
  apply N.leb_le in H1. apply N.ltb_lt in H2. cbn [runes]. unfold in_byte. rewrite (proj2 (N.leb_le 0 _)), (proj2 (N.leb_le _ 127)) by lia. cbn [andb map].
  rewrite concat_empty_cons, IH by done. unfold illegal_rune. by rewrite (proj2 (N.ltb_ge _ _)) by lia.
Qed.
Lemma trim_right_last c s : (∀ p, p ∈ space_runes → last_byte p ≠ Some c) → last_byte s = Some c → trim_right_space s = s.
Proof.
  intros Hc Hs. apply last_byte_snoc in Hs as [t ->]. unfold trim_right_space. rewrite rev_app. change (String.rev (String c "")) with (String c "").
  rewrite app_cons. assert (strip_any (map String.rev space_runes) (String c (EmptyString +:+ String.rev t)) = None) as Hn.
  { destruct (strip_any _ _) as [r|] eqn:Hr; [|done]. apply strip_any_Some in Hr as (p & Hp & Heq).
    apply list_elem_of_In, in_map_iff in Hp as (q & <- & Hq%list_elem_of_In). exfalso. apply (Hc q Hq).
    destruct (String.rev q) as [|d u] eqn:Hrev.
    - apply (f_equal String.rev) in Hrev. rewrite rev_rev in Hrev. subst q.
      assert (forallb (λ q, negb (String.eqb q "")) space_runes = true) as Hall by (vm_compute; reflexivity).
      rewrite forallb_forall in Hall. by apply list_elem_of_In, Hall in Hq.
    - rewrite app_cons in Heq. injection Heq as -> _. rewrite <- (rev_rev q), Hrev. apply last_byte_rev. }
  assert (∀ n, trim_any n (map String.rev space_runes) (String c (EmptyString +:+ String.rev t)) = String c (EmptyString +:+ String.rev t)) as ->.
  { intros [|n]; simpl; [done|]. simpl in Hn. by rewrite Hn. }
  change (String c (EmptyString +:+ String.rev t)) with (String c (String.rev t)). rewrite rev_cons, rev_rev. done.
Qed.
Lemma pretty_N_go_length k x s : (x < 10 ^ N.of_nat k)%N → (String.length (pretty_N_go x s) <= k + String.length s)%nat.
Proof.
  revert x s. induction k as [|k IH]; intros x s Hx; [change (10 ^ N.of_nat 0)%N with 1%N in Hx; assert (x = 0%N) as -> by lia; by rewrite pretty_N_go_0|].
  destruct (decide (x = 0%N)) as [->|Hne]; [rewrite pretty_N_go_0; lia|]. rewrite pretty_N_go_step by lia.
  etransitivity; [apply IH|simpl; lia]. rewrite Nat2N.inj_succ, N.pow_succ_r' in Hx. apply N.Div0.div_lt_upper_bound; lia.
Qed.
Lemma fmt_int_short n : in_int64 n → (String.length (fmt_int n) <= 20)%nat.
Proof.
  assert (∀ p, (N.pos p < 10 ^ N.of_nat 19)%N → (String.length (pretty (N.pos p)) <= 19)%nat) as Hp.
  { intros p Hp. unfold pretty, pretty_N. case_decide; [simpl; lia|]. pose proof (pretty_N_go_length 19 _ "" Hp) as Hl. simpl in Hl. lia. }
  unfold in_int64, min_int64, max_int64, fmt_int. intros Hn. destruct n as [|p|p]; [vm_compute; lia| |].
  - change (pretty (Zpos p)) with (pretty (N.pos p)). specialize (Hp p ltac:(change (10 ^ N.of_nat 19)%N with 10000000000000000000%N; lia)). lia.
  - change (pretty (Zneg p)) with (String "-" (pretty (N.pos p))). simpl.
    specialize (Hp p ltac:(change (10 ^ N.of_nat 19)%N with 10000000000000000000%N; lia)). lia.
Qed.
Lemma fmt_int_text n : in_int64 n → legal (fmt_int n) ∧ trim_space (fmt_int n) = fmt_int n.
Proof.
  intros Hn. assert (∃ d r, fmt_int n = String d r ∧ (is_digit d || Ascii.eqb d "-") = true ∧ all_bytes is_digit r = true ∧ (is_digit d = true ∨ r ≠ "")) as (d & r & Hf & Hd & Hr & Hne).
  { assert (∀ m, 0 <= m → ∃ d r, fmt_int m = String d r ∧ is_digit d = true ∧ all_bytes is_digit r = true) as Hpos.
    { intros m Hm. destruct (fmt_int_nonneg m Hm) as (_ & Hall & Hne). destruct (fmt_int m) as [|d r]; [done|].
      apply andb_prop in Hall as [? ?]. by exists d, r. }
    destruct (Z_le_gt_dec 0 n) as [Hn0|Hn0]; [destruct (Hpos n Hn0) as (d & r & -> & Hd & Hr); exists d, r; rewrite Hd; split_and!; [done|done|done|by left]|].
    destruct n as [|p|p]; [lia|lia|]. destruct (fmt_int_nonneg (Zpos p)) as (_ & ? & ?); [lia|].
    exists "-"%char, (fmt_int (Zpos p)). split_and!; [done|done|done|by right]. }
  assert (∀ c, is_digit c = true → 48 <= Z.of_N (N_of_ascii c) <= 57) as Hdig.
  { intros c. unfold is_digit, between. rewrite andb_true_iff, !N.leb_le. change (N_of_ascii "0") with 48%N. change (N_of_ascii "9") with 57%N. lia. }
  split; [split|].
  - rewrite Hf. apply escaped_plain. simpl. apply andb_true_iff. split.
    + apply orb_true_iff in Hd as [Hd%Hdig| ->%Ascii.eqb_eq]; [|done]. apply andb_true_iff. rewrite N.leb_le, N.ltb_lt. lia.
    + eapply all_bytes_impl; [|exact Hr]. intros c Hc%Hdig. apply andb_true_iff. rewrite N.leb_le, N.ltb_lt. lia.
  - pose proof (fmt_int_short n Hn). unfold len, maxFieldValue. lia.
  - rewrite Hf. unfold trim_space. rewrite trim_left_solid.
    2:{ apply orb_true_iff in Hd as [Hd| ->%Ascii.eqb_eq]; [|done]. revert Hd. clear. destruct d as [[] [] [] [] [] [] [] []]; vm_compute; done. }
    assert (∃ c, last_byte (String d r) = Some c ∧ is_digit c = true) as (c & Hl & Hc).
    { destruct Hne as [Hd'|Hne].
      - assert (all_bytes is_digit (String d r) = true) as Hall by (simpl; by rewrite Hd').
        destruct (last_byte_cons d r) as [c Hl]. exists c. split; [done|]. by eapply all_bytes_last.
      - destruct r as [|e r]; [done|]. change (last_byte (String d (String e r))) with (last_byte (String e r)).
        destruct (last_byte_cons e r) as [c Hl]. exists c. split; [done|]. by eapply all_bytes_last. }
    apply (trim_right_last c); [|done]. intros p Hp. revert Hc. clear -Hp.
    assert (forallb (λ q, match last_byte q with Some x => negb (is_digit x) | None => true end) space_runes = true) as Hall by (vm_compute; reflexivity).
    rewrite forallb_forall in Hall. apply list_elem_of_In, Hall in Hp. destruct (last_byte p) as [x|]; [|done]. intros Hc [= ->]. by rewrite Hc in Hp.
Qed.
Section read_back.
  Context (quote ParseInt_error : string → string).
  Abbreviation parse_dict := (parseEntryDict quote ParseInt_error).
  Abbreviation parse_value := (parseField quote ParseInt_error).
Lemma legal_key k : existsb (String.eqb k) ["architecture"; "filename-sha256"; "filename-size"; "homepage"; "installed_size"; "license"; "maintainer"; "pkgver";
  "provides"; "run_depends"; "short_desc"; "source-revisions"; "version"] = true → legal k.
Proof.
  intros Hk. apply existsb_exists in Hk as (x & Hx & ->%String.eqb_eq). simpl in Hx.
  repeat destruct Hx as [<-|Hx]; try done; (split; [vm_compute; reflexivity|vm_compute; discriminate]).
Qed.
(** A field that is written leads to its assignment; [fuel] stays ahead. *)
Lemma parse_field b k (value r : list token) fuel e e' : legal k →
  (length (indent b (writeKey k ++ value ++ r)) < fuel)%nat →
  (∀ f, (length (indent false (value ++ r)) < f)%nat → parse_value f k e (indent false (value ++ r)) = Ok (e', indent false r)) →
  (length (indent false r) <= length (indent false (value ++ r)))%nat →
  ∃ fuel', (length (indent false r) < fuel')%nat ∧ parse_dict fuel e (indent b (writeKey k ++ value ++ r)) = parse_dict fuel' e' (indent false r).
Proof.
  intros Hk Hf Hp Hle. unfold writeKey in *. change [Start "key"; Chars k; End_ "key"] with (elem "key" k) in *. rewrite indent_elem in * by done.
  simpl in Hf. rewrite length_app in Hf. simpl in Hf. destruct fuel as [|[|fuel]]; [lia..|]. exists fuel. split; [lia|].
  cbn [parseEntryDict]. change (String.eqb "key" "key") with true. cbn [negb]. rewrite readText_text by done. by rewrite Hp by lia.
Qed.
Lemma string_field b k v r fuel e : legal k → legal v → kindOf k = kindString ∨ kindOf k = kindUnknown →
  (length (indent b (writeStringField k v ++ r)) < fuel)%nat →
  ∃ fuel' b', (length (indent b' r) < fuel')%nat ∧ parse_dict fuel e (indent b (writeStringField k v ++ r)) =
    parse_dict fuel' (match kindOf k with kindString => if String.eqb v "" then e else setStringField k v e | _ => e end) (indent b' r).
Proof.
  intros Hk Hv Hkind Hf. unfold writeStringField in *. destruct (String.eqb_spec v "") as [->|Hne].
  { exists fuel, b. split; [done|]. by destruct Hkind as [-> | ->]. }
  rewrite <- (assoc_L (++)) in *.
  destruct (parse_field b k (elem "string" v) r fuel e (match kindOf k with kindString => setStringField k v e | _ => e end) Hk Hf) as (f & Hlt & Heq); [| |by eauto].
  - intros f _. rewrite indent_elem by done. unfold parseField. cbn [nextStart new_line]. change (String.eqb "string" "string") with true. cbn iota.
    rewrite readText_text by done. unfold assignString. by destruct Hkind as [-> | ->].
  - rewrite indent_elem by done. simpl. rewrite length_app. simpl. lia.
Qed.
Lemma int_field b k v r fuel e : legal k → in_int64 v → kindOf k = kindInteger →
  (length (indent b (writeIntField k v ++ r)) < fuel)%nat →
  ∃ fuel' b', (length (indent b' r) < fuel')%nat ∧ parse_dict fuel e (indent b (writeIntField k v ++ r)) =
    parse_dict fuel' (if v =? 0 then e else setIntField k v e) (indent b' r).
Proof.
  intros Hk Hv Hkind Hf. unfold writeIntField in *. destruct (v =? 0); [by exists fuel, b|]. rewrite <- (assoc_L (++)) in *.
  destruct (fmt_int_text v Hv) as [Hleg Htrim].
  destruct (parse_field b k (elem "integer" (fmt_int v)) r fuel e (setIntField k v e) Hk Hf) as (f & Hlt & Heq); [| |by eauto].
  - intros f _. rewrite indent_elem by done. unfold parseField. cbn [nextStart new_line]. change (String.eqb "integer" "string") with false.
    change (String.eqb "integer" "integer") with true. cbn iota. rewrite readText_text by done. unfold assignInteger. rewrite Hkind, Htrim, parse_int_fmt by done. done.
  - rewrite indent_elem by done. simpl. rewrite length_app. simpl. lia.
Qed.
Lemma indent_past toks n r : ∀ b, (length (indent false r) < length (indent b (toks ++ End_ n :: r)))%nat.
Proof.
  induction toks as [|t toks IH]; intros b; [simpl app; rewrite indent_end, length_app; simpl; lia|].
  destruct t as [m|m|s| |e]; simpl; [specialize (IH true)|specialize (IH false)|specialize (IH b)|specialize (IH b)|specialize (IH b)].
  - lia.
  - destruct b; simpl; lia.
  - destruct (String.eqb s ""); simpl; lia.
  - lia.
  - lia.
Qed.
Lemma array_field b k v r fuel e : legal k → Forall legal v → (length v <= maxArrayElems)%nat → kindOf k = kindArray →
  (length (indent b (writeArrayField k v ++ r)) < fuel)%nat →
  ∃ fuel' b', (length (indent b' r) < fuel')%nat ∧ parse_dict fuel e (indent b (writeArrayField k v ++ r)) =
    parse_dict fuel' (match v with [] => e | _ => setArrayField k v e end) (indent b' r).
Proof.
  intros Hk Hv Hmax Hkind Hf. unfold writeArrayField in *. destruct v as [|s v]; [by exists fuel, b|]. set (l := s :: v) in *.
  change (λ s0, [Start "string"; Chars s0; End_ "string"]) with (elem "string") in *. rewrite <- (assoc_L (++)) in *.
  destruct (parse_field b k ([Start "array"] ++ (l ≫= elem "string") ++ [End_ "array"]) r fuel e (setArrayField k l e) Hk Hf) as (f & Hlt & Heq); [| |by eauto].
  - intros f Hlt. rewrite <- !(assoc_L (++)) in *. cbn [app] in *. cbn [indent] in *. unfold parseField. cbn [nextStart new_line].
    change (String.eqb "array" "string") with false. change (String.eqb "array" "integer") with false. change (String.eqb "array" "array") with true. cbn iota.
    rewrite readArray_elems; [|done|simpl; simpl in Hmax; lia|simpl in *; lia]. unfold assignArray. by rewrite Hkind.
  - rewrite <- !(assoc_L (++)). cbn [app indent]. pose proof (indent_past (l ≫= elem "string") "array" r true). cbn [length]. lia.
Qed.
(** What the reader makes of an entry: it leaves out the version and the source
    revisions. *)
Definition entry_of (e : IndexOut) : IndexEntry :=
  let p := io_Props e in
  mk_IndexEntry (pr_PkgName p) (pr_PkgVer p) (pr_Architecture p) (pr_ShortDesc p) (pr_Homepage p) (pr_License p) (pr_Maintainer p)
    (io_FilenameSHA256 e) (io_FilenameSize e) (pr_InstalledSize p) (pr_RunDepends p) (pr_Provides p) [] [].
Record writable (e : IndexOut) : Prop := {
  wr_texts : Forall legal (let p := io_Props e in [pr_PkgName p; pr_PkgVer p; pr_Version p; pr_Architecture p; pr_ShortDesc p; pr_Homepage p;
    pr_License p; pr_Maintainer p; pr_SourceRevisions p; io_FilenameSHA256 e]);
  wr_arrays : Forall (λ l, Forall legal l ∧ (length l <= maxArrayElems)%nat) [pr_RunDepends (io_Props e); pr_Provides (io_Props e)];
  wr_numbers : in_int64 (pr_InstalledSize (io_Props e)) ∧ in_int64 (io_FilenameSize e)
}.
(** A field to write, with its key; what reading it back assigns. *)
Inductive field := StringField (k v : string) | IntField (k : string) (v : Z) | ArrayField (k : string) (v : list string).
Definition write_field (f : field) : list token :=
  match f with StringField k v => writeStringField k v | IntField k v => writeIntField k v | ArrayField k v => writeArrayField k v end.
Definition assigned (f : field) (e : IndexEntry) : IndexEntry :=
  match f with
  | StringField k v => match kindOf k with kindString => if String.eqb v "" then e else setStringField k v e | _ => e end
  | IntField k v => if v =? 0 then e else setIntField k v e
  | ArrayField k v => match v with [] => e | _ => setArrayField k v e end
  end.
Definition fits (f : field) : Prop :=
  match f with
  | StringField k v => legal k ∧ legal v ∧ (kindOf k = kindString ∨ kindOf k = kindUnknown)
  | IntField k v => legal k ∧ in_int64 v ∧ kindOf k = kindInteger
  | ArrayField k v => legal k ∧ (Forall legal v ∧ (length v <= maxArrayElems)%nat) ∧ kindOf k = kindArray
  end.
Lemma field_read f b r fuel e : fits f → (length (indent b (write_field f ++ r)) < fuel)%nat →
  ∃ fuel' b', (length (indent b' r) < fuel')%nat ∧ parse_dict fuel e (indent b (write_field f ++ r)) = parse_dict fuel' (assigned f e) (indent b' r).
Proof. destruct f as [k v|k v|k v]; intros (Hk & Hv & Hkind); [by apply string_field|by apply int_field|destruct Hv; by apply array_field]. Qed.
Lemma fields_read fs : ∀ b r fuel e, Forall fits fs → (length (indent b ((fs ≫= write_field) ++ End_ "dict" :: r)) < fuel)%nat →
  parse_dict fuel e (indent b ((fs ≫= write_field) ++ End_ "dict" :: r)) = Ok (foldl (flip assigned) e fs, indent false r).
Proof.
  induction fs as [|f fs IH]; intros b r fuel e Hall Hf.
  - simpl app in *. rewrite indent_end in *. destruct b; simpl in *; [destruct fuel; [lia|done]|destruct fuel as [|[|fuel]]; [lia..|done]].
  - apply Forall_cons in Hall as [Hfit Hall]. rewrite bind_cons, <- (assoc_L (++)) in *.
    destruct (field_read f b _ fuel e Hfit Hf) as (fuel' & b' & Hlt & Heq). rewrite Heq. by apply IH.
Qed.
Definition fields_of (e : IndexOut) : list field :=
  let p := io_Props e in
  [StringField "architecture" (pr_Architecture p); StringField "filename-sha256" (io_FilenameSHA256 e); IntField "filename-size" (io_FilenameSize e);
   StringField "homepage" (pr_Homepage p); IntField "installed_size" (pr_InstalledSize p); StringField "license" (pr_License p);
   StringField "maintainer" (pr_Maintainer p); StringField "pkgver" (pr_PkgVer p); ArrayField "provides" (pr_Provides p);
   ArrayField "run_depends" (pr_RunDepends p); StringField "short_desc" (pr_ShortDesc p); StringField "source-revisions" (pr_SourceRevisions p);
   StringField "version" (pr_Version p)].
Lemma writeIndexEntry_fields e r :
  writeIndexEntry e ++ r = elem "key" (pr_PkgName (io_Props e)) ++ Start "dict" :: (fields_of e ≫= write_field) ++ End_ "dict" :: r.
Proof. unfold writeIndexEntry, fields_of. cbn [mbind list_bind write_field]. rewrite <- !(assoc_L (++)). done. Qed.
Lemma fields_fit e : writable e → Forall fits (fields_of e).
Proof.
  intros [Ht Ha [Hn1 Hn2]]. cbv zeta in Ht. rewrite !Forall_cons in Ht. rewrite !Forall_cons in Ha. destruct Ht as (?&?&?&?&?&?&?&?&?&?&_). destruct Ha as ([??]&[??]&_).
  unfold fields_of. repeat (apply Forall_cons; split; [split_and!; [apply legal_key; vm_compute; reflexivity|by auto..|vm_compute; by auto]|]). by constructor.
Qed.
Lemma unless_empty {A} (v : string) (x y : A) : (v = "" → x = y) → (if String.eqb v "" then x else y) = y.
Proof. destruct (String.eqb_spec v ""); auto. Qed.
Lemma unless_zero {A} (v : Z) (x y : A) : (v = 0 → x = y) → (if v =? 0 then x else y) = y.
Proof. destruct (Z.eqb_spec v 0); auto. Qed.
Lemma unless_nil {A} (v : list string) (x y : A) : (v = [] → x = y) → match v with [] => x | _ => y end = y.
Proof. destruct v; auto. Qed.
Ltac assign_step :=
  match goal with
  | |- context [assigned (StringField ?k ?v) (mk_IndexEntry ?n ?a1 ?a2 ?a3 ?a4 ?a5 ?a6 ?a7 ?a8 ?a9 ?b1 ?b2 ?b3 ?b4)] =>
      let e := constr:(mk_IndexEntry n a1 a2 a3 a4 a5 a6 a7 a8 a9 b1 b2 b3 b4) in
      let y := eval cbv in (match kindOf k with kindString => setStringField k v e | _ => e end) in
      replace (assigned (StringField k v) e) with y by (symmetry; first [reflexivity | apply unless_empty; intros ->; reflexivity])
  | |- context [assigned (IntField ?k ?v) (mk_IndexEntry ?n ?a1 ?a2 ?a3 ?a4 ?a5 ?a6 ?a7 ?a8 ?a9 ?b1 ?b2 ?b3 ?b4)] =>
      let y := eval cbv in (setIntField k v (mk_IndexEntry n a1 a2 a3 a4 a5 a6 a7 a8 a9 b1 b2 b3 b4)) in
      replace (assigned (IntField k v) (mk_IndexEntry n a1 a2 a3 a4 a5 a6 a7 a8 a9 b1 b2 b3 b4)) with y by (symmetry; apply unless_zero; intros ->; reflexivity)
  | |- context [assigned (ArrayField ?k ?v) (mk_IndexEntry ?n ?a1 ?a2 ?a3 ?a4 ?a5 ?a6 ?a7 ?a8 ?a9 ?b1 ?b2 ?b3 ?b4)] =>
      let y := eval cbv in (setArrayField k v (mk_IndexEntry n a1 a2 a3 a4 a5 a6 a7 a8 a9 b1 b2 b3 b4)) in
      replace (assigned (ArrayField k v) (mk_IndexEntry n a1 a2 a3 a4 a5 a6 a7 a8 a9 b1 b2 b3 b4)) with y by (symmetry; apply unless_nil; intros ->; reflexivity)
  end.
Lemma fields_assigned e : foldl (flip assigned) (empty_entry (pr_PkgName (io_Props e))) (fields_of e) = entry_of e.
Proof.
  destruct e as [[n pv v a sd h l m size rev rd prov] sha fs]. unfold fields_of, entry_of, empty_entry. cbn [foldl flip io_Props io_FilenameSHA256 io_FilenameSize
    pr_PkgName pr_PkgVer pr_Version pr_Architecture pr_ShortDesc pr_Homepage pr_License pr_Maintainer pr_InstalledSize pr_SourceRevisions pr_RunDepends pr_Provides].
  unfold flip. do 13 assign_step. reflexivity.
Qed.
Lemma entry_read e b r fuel count given : writable e → count < maxPackages → (length (indent b (writeIndexEntry e ++ r)) < fuel)%nat →
  ∃ fuel', (length (indent false r) < fuel')%nat ∧
    parseTopDict quote ParseInt_error fuel count given (indent b (writeIndexEntry e ++ r)) =
    parseTopDict quote ParseInt_error fuel' (count + 1) (given ++ [entry_of e]) (indent false r).
Proof.
  intros He Hc Hf. rewrite writeIndexEntry_fields in *. assert (legal (pr_PkgName (io_Props e))) as Hn by (by destruct He as [?%Forall_inv _ _]).
  rewrite indent_elem in * by done. cbn [indent] in *. cbn [length] in Hf. rewrite length_app in Hf. cbn [length] in Hf.
  destruct fuel as [|[|fuel]]; [lia..|]. exists fuel. split.
  - pose proof (indent_past (fields_of e ≫= write_field) "dict" r true). lia.
  - cbn [parseTopDict]. change (String.eqb "key" "key") with true. cbn [negb]. rewrite readText_text by done.
    cbn [nextStart new_line]. change (String.eqb "dict" "dict") with true. cbn [negb].
    rewrite fields_read, fields_assigned; [|by apply fields_fit|lia]. by rewrite (proj2 (Z.ltb_ge _ _)) by lia.
Qed.
Lemma entries_read es : ∀ b fuel count given r, Forall writable es → count + Z.of_nat (length es) <= maxPackages →
  (length (indent b ((es ≫= writeIndexEntry) ++ End_ "dict" :: r)) < fuel)%nat →
  parseTopDict quote ParseInt_error fuel count given (indent b ((es ≫= writeIndexEntry) ++ End_ "dict" :: r)) = (given ++ (entry_of <$> es), None).
Proof.
  induction es as [|e es IH]; intros b fuel count given r Hall Hc Hf.
  - cbn [mbind list_bind fmap list_fmap app] in *. rewrite (right_id_L [] (++) given). rewrite indent_end in *. destruct b; simpl in *; [destruct fuel; [lia|done]|destruct fuel as [|[|fuel]]; [lia..|done]].
  - apply Forall_cons in Hall as [He Hall]. cbn [length] in Hc. rewrite bind_cons, <- (assoc_L (++)) in *.
    destruct (entry_read e b _ fuel count given He ltac:(lia) Hf) as (fuel' & Hlt & Heq). rewrite Heq, IH; [|done|lia|done].
    by rewrite fmap_cons, <- (assoc_L (++)).
Qed.
End read_back.

Lemma index_read_back quote ParseInt_error (entries : list IndexOut) : Forall writable entries → Z.of_nat (length entries) <= maxPackages →
  ParseIndexPlist quote ParseInt_error (wire (WriteIndexPlist entries)) = (entry_of <$> sorted_entries entries, None).
Proof.
  intros Hall Hlen. assert (Permutation (sorted_entries entries) entries) as Hp by apply merge_sort_Permutation.
  unfold WriteIndexPlist, wire, ParseIndexPlist. cbn [app indent]. set (body := indent true _).
  change (expectStart "plist" _) with (@Ok error _ (new_line :: Start "dict" :: body)). cbn iota beta.
  change (expectStart "dict" _) with (@Ok error _ body). cbn iota beta. subst body. rewrite entries_read; [done|by rewrite Hp|by rewrite Hp|lia].
Qed.
(** A round trip: whatever packages the generator describes, the index that it
    writes is read without an error into one entry for each package, in the order of
    their names, with the fields that both keep: nothing is lost or changed by the
    text of the numbers, by the markup or by the white space between the tags. *)
Theorem index_roundtrip quote ParseInt_error (entries : list IndexOut) : Forall writable entries → Z.of_nat (length entries) <= maxPackages →
  ParseIndexPlist quote ParseInt_error (wire (WriteIndexPlist entries)) = (entry_of <$> sorted_entries entries, None).
Proof. apply index_read_back. Qed.
Lemma demo_writable n v a : legal n → legal v → legal a → writable (demo_out n v a).
Proof.
  assert (∀ s, bool_decide (escaped s = s) && (len s <=? maxFieldValue) = true → legal s) as Hb.
  { intros s [H1%bool_decide_eq_true H2%Z.leb_le]%andb_prop. by split. }
  intros Hn Hv Ha. constructor; simpl.
  - repeat (apply Forall_cons; split; [try done; apply Hb; vm_compute; reflexivity|]). by constructor.
  - assert (∀ l, forallb (λ x, bool_decide (escaped x = x) && (len x <=? maxFieldValue)) l = true → Forall legal l) as Hbs.
    { intros l Hl. apply Forall_forall. intros x Hx. apply Hb. rewrite forallb_forall in Hl. by apply Hl, list_elem_of_In. }
    constructor; [split; [apply Hbs; vm_compute; reflexivity|unfold maxArrayElems; simpl length; lia]|].
    constructor; [split; [by constructor|unfold maxArrayElems; simpl length; lia]|by constructor].
  - split; [|]; vm_compute; split; discriminate.
Qed.
Lemma index_roundtrip_witness : ∃ es : list IndexOut, ParseIndexPlist (λ s, s) (λ s, s) (wire (WriteIndexPlist es)) =
  (entry_of <$> sorted_entries es, None) ∧ length (sorted_entries es) = 2%nat.
Proof.
  exists [demo_out "b" "b-1_1" "x86_64"; demo_out "a" "a-2_1" "noarch"]. split; [|vm_compute; reflexivity]. apply index_roundtrip.
  - repeat (apply Forall_cons; split; [apply demo_writable; (split; [vm_compute; reflexivity|vm_compute; discriminate])|]). by constructor.
  - vm_compute. discriminate.
Defined.
