(* ===== verification/XbpsPackage.v ===== *)
(** The containers of xbps (internal/mod/ecosystem/xbps/parse.go and pkgparse.go):
    the repository data and the package, each a compressed tar, read through a
    limit; and the property list of a package, read within a budget. *)
From S2P Require Import Prelude GoStr Domain Port XbpsIndex.
Local Open Scope Z_scope.

(** * Streams

    A reader is what its reads return, one after the other, and the error that ends
    it: [None] at the end of the data. *)
Definition stream : Type := list string * option error.
Definition maxDecompressed : Z := 2 ^ 30.
Definition maxMetaSize : Z := 64 * 1024.
Definition ErrIndexMissing : error := Text "xbps: в repodata отсутствует index.plist".
Definition ErrIndexNotFirst : error := Text "xbps: index.plist не первая запись repodata".
Definition ErrDecompressTooLarge : error := Text "xbps: декомпрессия превысила лимит".
Definition ErrUnsupportedCompression : error := Text "xbps: неподдерживаемая компрессия пакета".
Definition ErrPropsMissing : error := Text "xbps: в пакете отсутствует props.plist".
(** Errors with [ErrBadZstd], [ErrBadTar] or [ErrBadPackage] and a second cause; the
    text tells the first one. *)
Definition bad_zstd (e : error) : error := Wrap "xbps: некорректный zstd-поток" e.
Definition bad_tar (e : error) : error := Wrap "xbps: некорректный tar-поток repodata" e.
Definition bad_package (e : error) : error := Wrap "xbps: некорректный контейнер пакета" e.
(** [errors.Is] with a sentinel. *)
Fixpoint errors_is (target e : error) : bool :=
  match e with
  | Wrap _ c | UnavailableError _ _ (Some c) | UpstreamError _ _ (Some c) | KeyMaterialError _ _ _ (Some c) => errors_is target c
  | Text t => match target with Text t' => String.eqb t t' | _ => false end
  | _ => false
  end.
(** [limitedReader.Read], read after read: [n] bytes have gone through. *)
Fixpoint limited (limit : Z) (sentinel : error) (n : Z) (chunks : list string) (fin : option error) : stream :=
  if limit <=? n then ([], Some sentinel)
  else match chunks with
  | [] => ([], fin)
  | c :: chunks =>
      if limit <? n + len c then ([c], Some sentinel)
      else prod_map (cons c) id (limited limit sentinel (n + len c) chunks fin)
  end.
Definition limit_stream (s : stream) : stream := limited maxDecompressed ErrDecompressTooLarge 0 s.1 s.2.

(** * The containers

    A member of a tar: whether it is a regular file, its name and size as its header
    has them, and what reading its body gives. *)
Record member := mk_member { mb_regular : bool; mb_name : string; mb_size : Z; mb_body : string * option error }.
Definition zstdMagic : string := bytes [40; 181; 47; 253]%N.
Definition xzPrefix : string := bytes [253; 55; 122; 88]%N.
Definition gzipPrefix : string := bytes [31; 139]%N.
Section containers.
  (** Decoders: of zstd (klauspost/compress), of gzip, of tar and of XML; how the
      bytes of a body come, read by read; [%q] and the texts of errors. *)
  Context (unzstd gunzip : string → res stream) (reads : string → list string) (untar : stream → list member * option error)
    (xml : string * option error → list token) (quote hexdump ParseInt_error : string → string).
Definition tarReadErr (e : error) : error := if errors_is ErrDecompressTooLarge e then ErrDecompressTooLarge else bad_tar e.
Definition firstEntryErr (e : option error) : error :=
  match e with None => ErrIndexMissing | Some e => if errors_is ErrDecompressTooLarge e then ErrDecompressTooLarge else tarReadErr e end.
(** The members after the index: the bytes of the second one; the others are
    passed over. *)
Definition readRepoMeta (index : member) (ms : list member) (fin : option error) : res string :=
  match (mb_body index).2 with
  | Some e => Err (tarReadErr e)
  | None =>
      match ms with
      | [] => Err match fin with None => bad_tar (Text "отсутствует index-meta.plist") | Some e => tarReadErr e end
      | m :: _ =>
          if negb (String.eqb (mb_name m) "index-meta.plist") then Err (bad_tar (Text ("ожидалась index-meta.plist, получена " +:+ quote (mb_name m))))
          else if maxMetaSize <? mb_size m then
            Err (bad_tar (Text ("index-meta.plist " +:+ fmt_int (mb_size m) +:+ " байт превышает " +:+ fmt_int maxMetaSize)))
          else match (mb_body m).2 with
          | Some e => Err (tarReadErr e)
          | None => match fin with None => Ok (mb_body m).1 | Some e => Err (tarReadErr e) end
          end
      end
  end.
(** The body of the index, and what the closing function answers. *)
Definition OpenRepoData (body : string) : res ((string * option error) * res string) :=
  let head := String.substring 0 4 body in
  if negb (String.eqb head zstdMagic) then Err (bad_zstd (Text ("сигнатура " +:+ hexdump head)))
  else match unzstd body with
  | Err e => Err (bad_zstd e)
  | Ok s =>
      match untar (limit_stream s) with
      | ([], fin) => Err (firstEntryErr fin)
      | (m :: ms, fin) =>
          if negb (String.eqb (mb_name m) "index.plist") then Err (Wrap ("первая запись " +:+ quote (mb_name m)) ErrIndexNotFirst)
          else Ok (mb_body m, readRepoMeta m ms fin)
      end
  end.

(** * The properties of a package *)
Definition maxPropsSize : Z := 2 ^ 20.
Definition pkgReadErr (e : error) : error := if errors_is ErrDecompressTooLarge e then ErrDecompressTooLarge else bad_package e.
Definition setPropString (key val : string) (p : Props) : Props :=
  let '(mk_Props n pv v a sd h l m size rev rd pr) := p in
  if String.eqb key "pkgname" then mk_Props val pv v a sd h l m size rev rd pr
  else if String.eqb key "pkgver" then mk_Props n val v a sd h l m size rev rd pr
  else if String.eqb key "version" then mk_Props n pv val a sd h l m size rev rd pr
  else if String.eqb key "architecture" then mk_Props n pv v val sd h l m size rev rd pr
  else if String.eqb key "short_desc" then mk_Props n pv v a val h l m size rev rd pr
  else if String.eqb key "homepage" then mk_Props n pv v a sd val l m size rev rd pr
  else if String.eqb key "license" then mk_Props n pv v a sd h val m size rev rd pr
  else if String.eqb key "maintainer" then mk_Props n pv v a sd h l val size rev rd pr
  else if String.eqb key "source-revisions" then mk_Props n pv v a sd h l m size val rd pr
  else p.
Definition setPropInt (key : string) (val : Z) (p : Props) : Props :=
  let '(mk_Props n pv v a sd h l m size rev rd pr) := p in
  if String.eqb key "installed_size" then mk_Props n pv v a sd h l m val rev rd pr else p.
Definition setPropArray (key : string) (val : list string) (p : Props) : Props :=
  let '(mk_Props n pv v a sd h l m size rev rd pr) := p in
  if String.eqb key "run_depends" then mk_Props n pv v a sd h l m size rev val pr
  else if String.eqb key "provides" then mk_Props n pv v a sd h l m size rev rd val
  else p.
(** What is left of the budget. *)
Definition spend (budget n : Z) : res Z :=
  let budget := budget - n in if budget <? 0 then Err (bad "бюджет словаря props исчерпан") else Ok budget.
Fixpoint spend_all (budget : Z) (vals : list string) : res Z :=
  match vals with [] => Ok budget | v :: vals => match spend budget (len v) with Ok b => spend_all b vals | Err e => Err e end end.
Definition assignProp (fuel : nat) (key : string) (p : Props) (budget : Z) (toks : list token) : res (Props * Z * list token) :=
  match nextStart toks with
  | Err e => Err e
  | Ok (val, toks) =>
      if String.eqb val "string" then
        match readText val "" toks with
        | Err e => Err e
        | Ok (s, toks) => match spend budget (len s) with Err e => Err e | Ok b => Ok (setPropString key s p, b, toks) end
        end
      else if String.eqb val "integer" then
        match readText val "" toks with
        | Err e => Err e
        | Ok (s, toks) =>
            match spend budget (len s) with
            | Err e => Err e
            | Ok b => match parse_int (trim_space s) with Some n => Ok (setPropInt key n p, b, toks) | None => Err (not_a_number quote ParseInt_error key (trim_space s)) end
            end
        end
      else if String.eqb val "array" then
        match readArray fuel val [] toks with
        | Err e => Err e
        | Ok (arr, toks) => match spend_all budget arr with Err e => Err e | Ok b => Ok (setPropArray key arr p, b, toks) end
        end
      else match skipElement 1 toks with Err e => Err e | Ok toks => Ok (p, budget, toks) end
  end.
(** [fuel]: the tokens. *)
Fixpoint props_loop (fuel : nat) (p : Props) (budget : Z) (toks : list token) : res Props :=
  match fuel with
  | O => Err unexpected_end
  | S fuel =>
      match toks with
      | [] => Err unexpected_end
      | End_ _ :: _ => Ok p
      | Start n :: toks =>
          if negb (String.eqb n "key") then Err (bad ("в словаре props <" +:+ n +:+ ">, ожидался <key>"))
          else match readText n "" toks with
          | Err e => Err e
          | Ok (key, toks) => match assignProp fuel key p budget toks with Err e => Err e | Ok (p, budget, toks) => props_loop fuel p budget toks end
          end
      | Broken e :: _ => Err (plistTokenErr e)
      | _ :: toks => props_loop fuel p budget toks
      end
  end.
Definition no_Props : Props := mk_Props "" "" "" "" "" "" "" "" 0 "" [] [].
Definition parsePropsDict (max : Z) (toks : list token) : res Props :=
  match expectStart "plist" toks with
  | Err e => Err e
  | Ok toks =>
      match expectStart "dict" toks with
      | Err e => Err e
      | Ok toks => props_loop (S (length toks)) no_Props max toks
      end
  end.
Definition is_props (m : member) : bool := mb_regular m && String.eqb (mb_name m) "./props.plist".
Definition parsePkgTar (s : stream) : res Props :=
  let '(ms, fin) := untar s in
  match List.find is_props ms with
  | None => Err match fin with None => ErrPropsMissing | Some e => pkgReadErr e end
  | Some m =>
      if maxPropsSize <? mb_size m then Err (bad ("props.plist " +:+ fmt_int (mb_size m) +:+ " байт превышает " +:+ fmt_int maxPropsSize))
      else parsePropsDict maxPropsSize (xml (mb_body m))
  end.
Definition OpenPackage (body : string) : res Props :=
  let head := String.substring 0 4 body in
  if String.eqb head zstdMagic then match unzstd body with Err e => Err (bad_package e) | Ok s => parsePkgTar (limit_stream s) end
  else if has_prefix head gzipPrefix then match gunzip body with Err e => Err (bad_package e) | Ok s => parsePkgTar (limit_stream s) end
  else if String.eqb head xzPrefix then Err (Wrap "xz" ErrUnsupportedCompression)
  else parsePkgTar (limit_stream (reads body, None)).
End containers.

(** * What the readers let through *)
Lemma escaped_rune_ok s : Forall rune_ok (map (λ r, if illegal_rune r then rune_error else r) (runes s)).
Proof.
  pose proof (runes_ok s) as H. induction H as [|r l Hr _ IH]; simpl; constructor; [|done].
  destruct (illegal_rune r); [apply rune_error_ok|done].
Qed.
Lemma runes_app_ok l t : Forall rune_ok l → runes (String.concat "" l +:+ t) = l ++ runes t.
Proof.
  induction 1 as [|r l Hr _ IH]; [done|]. rewrite concat_empty_cons, <- app_assoc, Hr, IH. done.
Qed.
Lemma escaped_app a b : escaped a = a → escaped b = b → escaped (a +:+ b) = a +:+ b.
Proof.
  unfold escaped. set (f := λ r, if illegal_rune r then rune_error else r). intros Ha Hb.
  pose proof (escaped_rune_ok a) as Hok. fold f in Hok. assert (runes (a +:+ b) = map f (runes a) ++ runes b) as ->.
  { rewrite <- Ha at 1. by apply runes_app_ok. }
  assert (map f (runes a) = runes a) as Hfix by (rewrite <- Ha at 2; by rewrite runes_concat).
  rewrite Hfix, map_app, Hfix. rewrite Hfix in Ha. rewrite <- Ha at 2. rewrite <- Hb at 2.
  clear. induction (runes a) as [|r l IH]; [done|]. simpl app. by rewrite !concat_empty_cons, IH, app_assoc.
Qed.
(** A decoder of XML gives texts that XML admits. *)
Definition admitted_text (t : token) : Prop := match t with Chars s => escaped s = s | _ => True end.
Lemma readText_legal start toks : ∀ b s rest, Forall admitted_text toks → legal b → readText start b toks = Ok (s, rest) →
  legal s ∧ Forall admitted_text rest.
Proof.
  induction toks as [|t toks IH]; intros b s rest Hall Hb; [done|]. apply Forall_cons in Hall as [Ht Hall]. destruct t as [n|n|c| |e]; simpl; [done| | | |done].
  - by intros [= <- <-].
  - destruct (Z.ltb_spec maxFieldValue (len b + len c)); [done|]. apply IH; [done|]. destruct Hb as [Hb _]. split; [by apply escaped_app|].
    unfold len in *. rewrite length_app_str. lia.
  - by apply IH.
Qed.
Lemma nextStart_admitted toks : ∀ n rest, Forall admitted_text toks → nextStart toks = Ok (n, rest) → Forall admitted_text rest.
Proof.
  induction toks as [|t toks IH]; intros n rest Hall; [done|]. apply Forall_cons in Hall as [Ht Hall].
  destruct t; simpl; [by intros [= <- <-]|done|eauto|eauto|done].
Qed.
Lemma skipElement_admitted toks : ∀ d rest, Forall admitted_text toks → skipElement d toks = Ok rest → Forall admitted_text rest.
Proof.
  induction toks as [|t toks IH]; intros [|d] rest Hall; simpl; [by intros [= <-]|done|by intros [= <-]|].
  pose proof Hall as [_ Hall']%Forall_cons. destruct t; eauto; done.
Qed.
Definition arrays_fit (l : list string) : Prop := Forall legal l ∧ (length l <= maxArrayElems)%nat.
Lemma legal_empty : legal "".
Proof. split; [done|vm_compute; discriminate]. Qed.
Lemma readArray_legal fuel start : ∀ out toks l rest, Forall admitted_text toks → arrays_fit out → readArray fuel start out toks = Ok (l, rest) →
  arrays_fit l ∧ Forall admitted_text rest.
Proof.
  induction fuel as [|fuel IH]; intros out toks l rest Hall Hout; [done|]. destruct toks as [|t toks]; [done|]. apply Forall_cons in Hall as [Ht Hall].
  destruct t as [n|n|c| |e]; cbn [readArray]; [|by intros [= <- <-]|by apply IH..|done].
  destruct (negb _); [done|]. destruct (readText n "" toks) as [[s toks']|] eqn:Hr; [|done].
  apply readText_legal in Hr as [Hs Hall']; [|done|apply legal_empty]. destruct (Nat.leb_spec maxArrayElems (length out)); [done|].
  apply IH; [done|]. destruct Hout as [Ho Hl]. split; [by apply Forall_app_2; [|by constructor]|]. rewrite length_app. simpl. lia.
Qed.

(** The texts that a record of properties holds, and their size. *)
Definition texts_of (p : Props) : list string :=
  [pr_PkgName p; pr_PkgVer p; pr_Version p; pr_Architecture p; pr_ShortDesc p; pr_Homepage p; pr_License p; pr_Maintainer p; pr_SourceRevisions p].
Definition total (l : list string) : Z := foldr (λ s n, len s + n) 0 l.
Definition weight (p : Props) : Z := total (texts_of p) + total (pr_RunDepends p) + total (pr_Provides p).
Record props_fit (p : Props) : Prop := {
  pf_texts : Forall legal (texts_of p);
  pf_run : arrays_fit (pr_RunDepends p);
  pf_provides : arrays_fit (pr_Provides p);
  pf_size : in_int64 (pr_InstalledSize p)
}.
Lemma total_texts_nonneg l : 0 <= total l.
Proof. unfold len. induction l; simpl; [done|]. unfold len in *. lia. Qed.
Lemma setPropString_fit key val p : props_fit p → legal val → props_fit (setPropString key val p) ∧ weight (setPropString key val p) <= weight p + len val.
Proof.
  intros Hp Hv. destruct p as [n pv v a sd h l m size rev rd pr]. destruct Hp as [Ht H1 H2 H3]. unfold texts_of, weight in *. cbn in Ht, H1, H2, H3. rewrite !Forall_cons in Ht.
  destruct Ht as (?&?&?&?&?&?&?&?&?&_). unfold setPropString. repeat case_match; (split; [split; cbn; [|done..]; unfold texts_of; cbn; by repeat (apply Forall_cons; split)|]); unfold total, texts_of; cbn [foldr
    pr_PkgName pr_PkgVer pr_Version pr_Architecture pr_ShortDesc pr_Homepage pr_License pr_Maintainer pr_InstalledSize pr_SourceRevisions pr_RunDepends pr_Provides]; unfold len; lia.
Qed.
Lemma setPropInt_fit key val p : props_fit p → in_int64 val → props_fit (setPropInt key val p) ∧ weight (setPropInt key val p) = weight p.
Proof. intros [Ht H1 H2 H3] Hv. destruct p. unfold setPropInt. case_match; by split. Qed.
Lemma setPropArray_fit key val p : props_fit p → arrays_fit val → props_fit (setPropArray key val p) ∧ weight (setPropArray key val p) <= weight p + total val.
Proof.
  intros [Ht H1 H2 H3] Hv. destruct p as [n pv v a sd h l m size rev rd pr]. unfold setPropArray, weight. cbn in Ht, H1, H2, H3.
  pose proof (total_texts_nonneg val). pose proof (total_texts_nonneg rd). pose proof (total_texts_nonneg pr).
  repeat case_match; (split; [by split|]); unfold texts_of; cbn [pr_PkgName pr_PkgVer pr_Version pr_Architecture pr_ShortDesc pr_Homepage pr_License pr_Maintainer
    pr_InstalledSize pr_SourceRevisions pr_RunDepends pr_Provides]; lia.
Qed.
Lemma spend_Ok b n b' : spend b n = Ok b' → b' = b - n ∧ 0 <= b'.
Proof. unfold spend. destruct (Z.ltb_spec (b - n) 0); [done|]. intros [= <-]. lia. Qed.
Lemma spend_all_Ok l : ∀ b b', 0 <= b → spend_all b l = Ok b' → b' = b - total l ∧ 0 <= b'.
Proof.
  induction l as [|s l IH]; intros b b' Hb; simpl; [intros [= <-]; lia|]. destruct (spend b (len s)) as [b1|] eqn:Hs; [|done].
  apply spend_Ok in Hs as [-> Hb1]. intros H%IH; [lia|done].
Qed.
Section bounded.
  Context (unzstd gunzip : string → res stream) (reads : string → list string) (untar : stream → list member * option error)
    (xml : string * option error → list token) (quote ParseInt_error : string → string).
(** What a dictionary holds, and what is left of its budget. *)
Definition in_budget (max : Z) (p : Props) (budget : Z) : Prop := props_fit p ∧ weight p + budget <= max ∧ 0 <= budget.
Lemma assignProp_fit fuel key max p b toks p' b' toks' : Forall admitted_text toks → in_budget max p b →
  assignProp quote ParseInt_error fuel key p b toks = Ok (p', b', toks') → in_budget max p' b' ∧ Forall admitted_text toks'.
Proof.
  intros Hall (Hp & Hw & Hb). unfold assignProp. destruct (nextStart toks) as [[val t]|] eqn:Hn; [|done]. apply nextStart_admitted in Hn; [|done].
  destruct (String.eqb val "string"); [|destruct (String.eqb val "integer"); [|destruct (String.eqb val "array")]].
  - destruct (readText val "" t) as [[s t']|] eqn:Hr; [|done]. apply readText_legal in Hr as [Hs Ht']; [|done|apply legal_empty].
    destruct (spend b (len s)) as [b1|] eqn:Hsp; [|done]. apply spend_Ok in Hsp as [-> Hb1]. intros [= <- <- <-].
    pose proof (setPropString_fit key s p Hp Hs) as [? ?]. split; [|done]. split_and!; [done|lia|done].
  - destruct (readText val "" t) as [[s t']|] eqn:Hr; [|done]. apply readText_legal in Hr as [Hs Ht']; [|done|apply legal_empty].
    destruct (spend b (len s)) as [b1|] eqn:Hsp; [|done]. apply spend_Ok in Hsp as [-> Hb1].
    destruct (parse_int (trim_space s)) as [n|] eqn:Hi; [|done]. intros [= <- <- <-]. apply parse_int_range in Hi.
    pose proof (setPropInt_fit key n p Hp Hi) as [? ?]. split; [|done]. split_and!; [done|unfold len in *; lia|done].
  - destruct (readArray fuel val [] t) as [[l t']|] eqn:Hr; [|done].
    apply readArray_legal in Hr as [Hl Ht']; [|done|split; [by constructor|unfold maxArrayElems; simpl; lia]].
    destruct (spend_all b l) as [b1|] eqn:Hsp; [|done]. apply spend_all_Ok in Hsp as [-> Hb1]; [|done]. intros [= <- <- <-].
    pose proof (setPropArray_fit key l p Hp Hl) as [? ?]. split; [|done]. split_and!; [done|lia|done].
  - destruct (skipElement 1 t) as [t'|] eqn:Hs; [|done]. intros [= <- <- <-]. split; [done|]. by eapply skipElement_admitted.
Qed.
Lemma props_loop_fit fuel max : ∀ p b toks p', Forall admitted_text toks → in_budget max p b →
  props_loop quote ParseInt_error fuel p b toks = Ok p' → ∃ b', in_budget max p' b'.
Proof.
  induction fuel as [|fuel IH]; intros p b toks p' Hall Hp; [done|]. destruct toks as [|t toks]; [done|]. apply Forall_cons in Hall as [_ Hall].
  destruct t as [n|n|c| |e]; cbn [props_loop]; [|by intros [= <-]; eauto|by apply IH..|done].
  destruct (negb _); [done|]. destruct (readText n "" toks) as [[key toks1]|] eqn:Hr; [|done].
  apply readText_legal in Hr as [_ Hall1]; [|done|apply legal_empty].
  destruct (assignProp _ _ fuel key p b toks1) as [[[p1 b1] toks2]|] eqn:Ha; [|done].
  apply (assignProp_fit _ _ max) in Ha as [Hp1 Hall2]; [|done..]. by apply IH.
Qed.
Lemma no_Props_fit : props_fit no_Props.
Proof.
  split; cbn; [|split; [by constructor|unfold maxArrayElems; simpl; lia]..|vm_compute; split; discriminate].
  repeat (apply Forall_cons; split; [apply legal_empty|]). by constructor.
Qed.
Lemma parsePropsDict_fit max toks p : 0 <= max → Forall admitted_text toks → parsePropsDict quote ParseInt_error max toks = Ok p → props_fit p ∧ weight p <= max.
Proof.
  intros Hm Hall. unfold parsePropsDict, expectStart. destruct (nextStart toks) as [[n t]|] eqn:Hn; [|done]. apply nextStart_admitted in Hn; [|done].
  destruct (String.eqb n "plist"); [|done]. destruct (nextStart t) as [[n' t']|] eqn:Hn'; [|done]. apply nextStart_admitted in Hn'; [|done].
  destruct (String.eqb n' "dict"); [|done]. intros H. apply (props_loop_fit _ max) in H as (b & Hp & Hw & Hb); [split; [done|lia]|done|].
  split_and!; [apply no_Props_fit|change (weight no_Props) with 0; lia|lia].
Qed.
Lemma parsePkgTar_fit s p : (∀ b, Forall admitted_text (xml b)) →
  parsePkgTar untar xml quote ParseInt_error s = Ok p → props_fit p ∧ weight p <= maxPropsSize.
Proof.
  intros Hx. unfold parsePkgTar. destruct (untar s) as [ms fin]. destruct (List.find is_props ms) as [m|]; [|done].
  destruct (maxPropsSize <? mb_size m); [done|]. apply parsePropsDict_fit; [vm_compute; discriminate|apply Hx].
Qed.
Abbreviation open_package := (OpenPackage unzstd gunzip reads untar xml quote ParseInt_error).
Lemma OpenPackage_fit body p : (∀ b, Forall admitted_text (xml b)) → open_package body = Ok p → props_fit p ∧ weight p <= maxPropsSize.
Proof.
  intros Hx. unfold OpenPackage. repeat case_match; try done; by apply parsePkgTar_fit.
Qed.
Lemma props_writable p sha size : props_fit p → legal sha → in_int64 size → writable (mk_IndexOut p sha size).
Proof.
  intros [Ht Hr Hp Hs] Hsha Hsize. split; cbn; [|by repeat (apply Forall_cons; split)|done].
  unfold texts_of in Ht. rewrite !Forall_cons in Ht. destruct Ht as (?&?&?&?&?&?&?&?&?&_). by repeat (apply Forall_cons; split).
Qed.
(** Reading through a limit gives what there is when that is below the limit, and
    otherwise ends in the sentinel, at most one read beyond the limit. *)
Lemma limited_below limit e chunks fin : ∀ n, n + total chunks < limit → limited limit e n chunks fin = (chunks, fin).
Proof.
  induction chunks as [|c chunks IH]; intros n Hn; simpl in *.
  - by rewrite (proj2 (Z.leb_gt _ _)) by lia.
  - pose proof (total_texts_nonneg chunks). unfold len in *. rewrite (proj2 (Z.leb_gt _ _)), (proj2 (Z.ltb_ge _ _)), IH by lia. done.
Qed.
Lemma limited_above limit e chunks fin : ∀ n, limit <= n + total chunks → (limited limit e n chunks fin).2 = Some e.
Proof.
  induction chunks as [|c chunks IH]; intros n Hn; simpl in *.
  - by rewrite (proj2 (Z.leb_le _ _)) by lia.
  - destruct (limit <=? n); [done|]. destruct (limit <? n + len c); [done|]. simpl. apply IH. lia.
Qed.
Lemma limited_bounded limit e chunks fin k : Forall (λ c, len c <= k) chunks → 0 <= k → ∀ n, n <= limit → n + total (limited limit e n chunks fin).1 <= limit + k.
Proof.
  intros Hk Hk0. induction Hk as [|c chunks Hc _ IH]; intros n Hn; simpl.
  - destruct (limit <=? n); simpl; lia.
  - destruct (limit <=? n); simpl; [lia|]. destruct (Z.ltb_spec limit (n + len c)); simpl; [lia|]. specialize (IH (n + len c) ltac:(lia)). lia.
Qed.
End bounded.

(** What is read of a package is bounded. Whatever its bytes are, and whatever
    the decompressors and the tar make of them: the texts and lists that are kept of
    its properties take no more than their budget of 1 MiB together, no text is
    longer than 64 KiB and no list than 4096 texts, and the installed size is a
    64-bit number; so every package that is accepted can be written into an index
    within the limits of its reader. *)
Theorem packages_are_bounded unzstd gunzip reads untar (xml : string * option error → list token) quote ParseInt_error body p :
  (∀ b, Forall admitted_text (xml b)) → OpenPackage unzstd gunzip reads untar xml quote ParseInt_error body = Ok p →
  weight p <= maxPropsSize ∧ Forall (λ s, len s <= maxFieldValue) (texts_of p ++ pr_RunDepends p ++ pr_Provides p) ∧
  (length (pr_RunDepends p) <= maxArrayElems)%nat ∧ (length (pr_Provides p) <= maxArrayElems)%nat ∧ in_int64 (pr_InstalledSize p) ∧
  ∀ sha size, legal sha → in_int64 size → writable (mk_IndexOut p sha size).
Proof.
  intros Hx Ho. apply OpenPackage_fit in Ho as [Hp Hw]; [|done]. pose proof Hp as [Ht [Hr Hrl] [Hv Hvl] Hs]. split_and!; [done| |done..|].
  - assert (∀ l, Forall legal l → Forall (λ s, len s <= maxFieldValue) l) as Hl by (intros l Hl; apply (Forall_impl _ _ _ Hl); by intros s [_ ?]).
    rewrite !Forall_app. split_and!; by apply Hl.
  - intros sha size ? ?. by apply props_writable.
Qed.
