(* ===== verification/RepoWrites.v ===== *)
(** What the generators of personal repositories share: objects written whole
    (writeAtomic, which the gen.go of apt, apk, pacman, rpmmmd and xbps under
    internal/mod/ecosystem repeat), and the effects of such writes on a storage. *)
From S2P Require Import Prelude GoStr Domain Port.
Local Open Scope Z_scope.

Section writing.
  Context {S : Type} `{Storage S}.
Definition writeAtomic (key content : string) : St S (option error) :=
  match ValidateKey key with
  | Some e => mret (Some e)
  | None =>
      w ← Put key;
      match w with
      | Err e => mret (Some e)
      | Ok w =>
          w' ← Write w content;
          match w' with
          | Err e => _ ← Abort w; mret (Some e)
          | Ok w' => c ← Commit w'; match c with Some e => _ ← Abort w'; mret (Some e) | None => mret None end
          end
      end
  end.
End writing.

(** * Writes, one after the other *)
Definition written (ws : list (string * string)) (m : gmap string string) : gmap string string := foldl (λ m w, <[w.1 := w.2]> m) m ws.
Lemma written_other ws k : ∀ m, k ∉ ws.*1 → written ws m !! k = m !! k.
Proof.
  unfold written. induction ws as [|w ws IH]; intros m Hk; [done|]. rewrite fmap_cons in Hk. apply not_elem_of_cons in Hk as [Hw Hk].
  cbn [foldl]. by rewrite IH, lookup_insert_ne.
Qed.
(** Of several writes to one key the last one counts. *)
Lemma written_last ws1 ws2 k v m : k ∉ ws2.*1 → written (ws1 ++ (k, v) :: ws2) m !! k = Some v.
Proof.
  intros Hk. unfold written. rewrite foldl_app. cbn [foldl]. fold (written ws1 m). change (written ws2 (<[k := v]> (written ws1 m)) !! k = Some v).
  by rewrite written_other, lookup_insert_eq.
Qed.
Lemma written_unique ws k v m : (k, v) ∈ ws → (∀ v', (k, v') ∈ ws → v' = v) → written ws m !! k = Some v.
Proof.
  induction ws as [|[k' v'] ws IH] using rev_ind; [by intros ?%elem_of_nil|]. intros Hin Hu. unfold written. rewrite foldl_app. cbn [foldl fst snd].
  destruct (decide (k' = k)) as [->|Hne].
  - rewrite lookup_insert_eq. f_equal. apply Hu, elem_of_app. right. by left.
  - rewrite lookup_insert_ne by done. apply IH; [|intros; apply Hu, elem_of_app; by left].
    apply elem_of_app in Hin as [?|[=]%list_elem_of_singleton]; [done|]. congruence.
Qed.
Section effects.
  Context {S : Type} `{Storage S} `{!StorageLaws S}.
(** A write that fails has written everything or nothing. *)
Lemma writeAtomic_run k b s : let '(e, s') := writeAtomic k b s in
  (e = None → contents s' = <[k := b]> (contents s)) ∧ (contents s' = contents s ∨ contents s' = <[k := b]> (contents s)).
Proof.
  unfold writeAtomic. destruct (ValidateKey k); [split; [done|by left]|]. unfold mbind, st_bind.
  pose proof (Put_keeps k s) as Hp. pose proof (Put_Ok k s) as Hpo. destruct (Put k s) as [[w|e] s1]; simpl in *; [|split; [done|by left]].
  destruct (Hpo w eq_refl) as [Hk Hb]. pose proof (Write_keeps w b s1) as Hw. pose proof (Write_Ok w b s1) as Hwo.
  assert (∀ s2 w', contents (Abort w' s2).2 = contents s2) as Hab by (intros s2 w'; apply Abort_keeps).
  destruct (Write w b s1) as [[w'|e] s2]; simpl in *.
  - destruct (Hwo w' eq_refl) as [Hk' Hb']. rewrite Hb in Hb'. change ("" +:+ b) with b in Hb'.
    pose proof (Commit_None w' s2) as Hc. pose proof (Commit_Some w' s2) as Hc'. destruct (Commit w' s2) as [[e|] s3]; simpl in *.
    + specialize (Hab s3 w'). destruct (Abort w' s3) as [x s4]. simpl in *. split; [done|]. rewrite Hab, <- Hp, <- Hw, Hk', Hk, Hb' in *. done.
    + rewrite Hc, Hk', Hk, Hb', Hw, Hp by done. split; [done|by right].
  - specialize (Hab s2 w). destruct (Abort w s2) as [x s4]. simpl in *. split; [done|]. left. congruence.
Qed.
Lemma writeAtomic_None k b s s' : writeAtomic k b s = (None, s') → contents s' = <[k := b]> (contents s).
Proof. intros Hw. pose proof (writeAtomic_run k b s) as Hr. rewrite Hw in Hr. by apply Hr. Qed.
(** [through P]: only keys of [P] change. *)
Definition through (P : string → Prop) (s s' : S) : Prop := ∀ k, ¬ P k → contents s' !! k = contents s !! k.
#[export] Instance through_preorder P : PreOrder (through P).
Proof. split; [by intros s k|]. intros a b c Hab Hbc k Hk. by rewrite Hbc, Hab. Qed.
Lemma through_keeps {A} P (m : St S A) : keeps contents m → moves (through P) m.
Proof. intros Hm s k _. by rewrite Hm. Qed.
Lemma writeAtomic_through (P : string → Prop) k b : P k → moves (through P) (writeAtomic k b).
Proof.
  intros HP s x Hx. pose proof (writeAtomic_run k b s) as Hr. destruct (writeAtomic k b s) as [e s']. destruct Hr as [_ Hr]. simpl.
  destruct Hr as [->| ->]; [done|]. rewrite lookup_insert_ne; [done|]. by intros ->.
Qed.
End effects.
