(* ===== verification/XbpsRepo.v ===== *)
(** The generator of personal xbps repositories and the enumeration of an xbps
    mirror (internal/mod/ecosystem/xbps/gen.go and enumerate.go): the packages of a
    repository, one index for each architecture, the signatures; and the paths and
    checksums that a mirror reads from such an index. *)
From S2P Require Import Prelude GoStr Domain Port RepoWrites CacheEngine Dedupe Adapter XbpsVersion XbpsIndex XbpsPackage.
Local Open Scope Z_scope.

(** * The generator (gen.go) *)
Definition Name : string := "xbps".
Definition pkgSuffix : string := ".xbps".
Definition sig2Suffix : string := ".sig2".
Definition sigSuffix : string := ".sig".
Definition repodataSuffix : string := "-repodata".
Definition noarchArch : string := "noarch".
Definition has_slash (s : string) : bool := negb (no_sep "/" s).
Definition ValidateObjectPath (p : string) : option error :=
  if String.eqb p "" then Some (ValidationError "путь xbps-репо" p "пустой")
  else if has_slash p then Some (ValidationError "путь xbps-репо" p "плоский лэйаут: каталоги не поддерживаются")
  else if negb (has_suffix p pkgSuffix) then Some (ValidationError "путь xbps-репо" p "неизвестное расширение (ожидалось .xbps)")
  else None.
(** [ObjectFamily] and [CacheObjectFamily] *)
Definition xbpsFamily (p : string) : option string :=
  let p := trim_prefix p "/" in
  if negb (has_suffix p pkgSuffix) then None
  else match cut_last "." (trim_suffix p pkgSuffix) with
  | Some (pkgver, _) => if String.eqb pkgver "" then None else match SplitPkgver pkgver with Ok (pkgName, _) => Some pkgName | Err _ => None end
  | None => None
  end.
Example families : xbpsFamily "/Mustache-4.1_1.x86_64.xbps" = Some "Mustache" ∧ xbpsFamily "a-b-1.0_2.noarch.xbps" = Some "a-b" ∧
  xbpsFamily "x86_64-repodata" = None ∧ xbpsFamily "a-1.0_2.noarch.xbps.sig2" = None ∧ xbpsFamily ".xbps" = None ∧ xbpsFamily "foo.xbps" = None.
Proof. vm_compute. done. Qed.
Record pkgRecord := mk_pkgRecord { rc_key : string; rc_props : Props; rc_digest : string; rc_size : Z }.
Definition rc_name (r : pkgRecord) : string := pr_PkgName (rc_props r).
Definition rc_ver (r : pkgRecord) : string := pr_PkgVer (rc_props r).
Definition rc_arch (r : pkgRecord) : string := pr_Architecture (rc_props r).
Definition log_replaced (r kept : pkgRecord) : string := "xbps.gen: дедуп: " +:+ rc_name r +:+ ": " +:+ rc_ver kept +:+ " → " +:+ rc_ver r.
Definition log_dropped (r kept : pkgRecord) : string :=
  "xbps.gen: дедуп: " +:+ rc_name r +:+ ": отброшена " +:+ rc_ver r +:+ " (в индексе " +:+ rc_ver kept +:+ ")".
Definition dedupeRecords : list pkgRecord → list pkgRecord * list string :=
  dedupe rc_name (λ r kept, CompareXbpsVer (rc_ver r) (rc_ver kept)) log_replaced log_dropped.
(** [hex.EncodeToString] *)
Definition hex_digit_of (n : N) : ascii := ascii_of_N (if (n <? 10)%N then n + 48 else n + 87)%N.
Fixpoint hex_encode (s : string) : string :=
  match s with
  | EmptyString => EmptyString
  | String c s => String (hex_digit_of (N_of_ascii c / 16)) (String (hex_digit_of (N_of_ascii c mod 16)) (hex_encode s))
  end.
Definition entry_out (r : pkgRecord) : IndexOut := mk_IndexOut (rc_props r) (hex_encode (rc_digest r)) (rc_size r).
Abbreviation groups := (gmap string (list IndexOut)).
Definition push (e : IndexOut) (arch : string) (g : groups) : groups := <[arch := default [] (g !! arch) ++ [e]]> g.
Definition is_noarch (r : pkgRecord) : bool := String.eqb (rc_arch r) noarchArch.
Definition native_archs (records : list pkgRecord) : gset string :=
  foldl (λ n r, if is_noarch r then n else {[rc_arch r]} ∪ n) ∅ records.
(** The order in which the architectures of a map come does not matter. *)
Definition groupByArch (records : list pkgRecord) : groups :=
  let native := native_archs records in
  foldl (λ g r, if is_noarch r then foldr (push (entry_out r)) g (elements native) else push (entry_out r) (rc_arch r) g) ∅ records.
Definition sortedArchs (g : groups) : list string := sorted_keys g.
(** [port.RsaSigner]: its answers while an index is generated. *)
Record RsaSigner := mk_RsaSigner { PublicKeyPEM : res string; SignSHA256 : string → res string; SignSHA256SHA1DigestInfo : string → res string }.
Definition base_name (key : string) : string := match cut_last "/" key with Some (_, base) => base | None => key end.
(** [strings.EqualFold]; [unicode_fold] beyond ASCII. *)
Definition EqualFold (unicode_fold : string → string → bool) (a b : string) : bool :=
  if all_bytes (in_byte 0 127) a && all_bytes (in_byte 0 127) b then equal_fold a b else unicode_fold a b.

Section generator.
  Context {S : Type} `{Storage S}.
  (** The reader of packages; the digest; the encoders of XML (with its prologue)
      and of base64; the container of named files, a tar under zstd; the size of a
      public key; case beyond ASCII; [%q]. *)
  Context (open_package : string → res Props) (sha256 : string → string) (encode_xml : list token → string) (base64 : string → string)
    (pack : list (string * string) → res string) (publicKeyBits : string → res Z)
    (unicode_fold : string → string → bool) (unicode_lower : string → string) (quote : string → string).
  (** The subscriber, if there is one; the answers of [ctx.Err()], in the order in
      which it is asked. *)
  Context (rsa : option RsaSigner) (ctx_Err : nat → option error).
Definition collectPackages (prefix : string) : St S (res (list string)) :=
  let listPrefix := prefix +:+ "/" in
  l ← List listPrefix;
  match l with
  | (_, Some e) => mret (Err (Wrap ("листинг " +:+ listPrefix) e))
  | (metas, None) =>
      let flat key := let rest := trim_prefix key listPrefix in negb (has_slash rest) && has_suffix rest pkgSuffix in
      mret (Ok (merge_sort str_le (List.filter flat (mt_Key <$> metas))))
  end.
Definition readPackage (key : string) : St S (res pkgRecord) :=
  obj ← Get key;
  match obj with
  | Err e => mret (Err e)
  | Ok (_, body) =>
      match open_package body with
      | Err e => mret (Err e)
      | Ok props =>
          let base := base_name key in
          let want := Filename (pr_PkgVer props) (pr_Architecture props) in
          if negb (EqualFold unicode_fold base want) then mret (Err (ValidationError "имя файла пакета" base ("не совпадает с pkgver.arch " +:+ quote want)))
          else mret (Ok (mk_pkgRecord key props (sha256 body) (len body)))
      end
  end.
Fixpoint readPackages (tick : nat) (keys : list string) (records : list pkgRecord) : St S (res (list pkgRecord)) :=
  match keys with
  | [] => mret (Ok records)
  | key :: keys =>
      match ctx_Err tick with
      | Some e => mret (Err e)
      | None =>
          r ← readPackage key;
          match r with
          | Err e => mret (Err (Wrap ("xbps.gen: " +:+ key) e))
          | Ok rec => readPackages (1 + tick) keys (records ++ [rec])
          end
      end
  end.
Definition writeDataField (key val : string) : list token := writeKey key ++ [Start "data"; Chars (base64 val); End_ "data"].
Definition buildMetaPlist : res string :=
  let dict (fields : list token) := Ok (encode_xml ([Start "plist"; Start "dict"] ++ fields ++ [End_ "dict"; End_ "plist"])) in
  match rsa with
  | None => dict []
  | Some g =>
      match PublicKeyPEM g with
      | Err e => Err (Wrap "xbps.gen: index-meta: публичный ключ" e)
      | Ok pub =>
          match publicKeyBits pub with
          | Err e => Err (Wrap "xbps.gen: index-meta" e)
          | Ok bits =>
              dict (writeDataField "public-key" pub ++ writeIntField "public-key-size" bits ++
                writeStringField "signature-by" "Khrazhevnik" ++ writeStringField "signature-type" "rsa")
          end
      end
  end.
Definition renderIndex (entries : list IndexOut) : string := encode_xml (WriteIndexPlist entries).
Definition buildRepodata (indexXML metaXML : string) : res string :=
  pack [("index.plist", indexXML); ("index-meta.plist", metaXML); ("stage.plist", "")].
Definition repodata_key (prefix arch : string) : string := prefix +:+ "/" +:+ ToLower unicode_lower arch +:+ repodataSuffix.
Fixpoint writeIndexes (tick : nat) (prefix metaXML : string) (g : groups) (archs : list string) : St S (option error) :=
  match archs with
  | [] => mret None
  | arch :: archs =>
      match ctx_Err tick with
      | Some e => mret (Some e)
      | None =>
          match buildRepodata (renderIndex (default [] (g !! arch))) metaXML with
          | Err e => mret (Some (Wrap ("xbps.gen: " +:+ arch +:+ ": repodata") e))
          | Ok repodata =>
              e ← writeAtomic (repodata_key prefix arch) repodata;
              match e with
              | Some e => mret (Some (Wrap ("xbps.gen: " +:+ repodata_key prefix arch +:+ ": запись") e))
              | None => writeIndexes (1 + tick) prefix metaXML g archs
              end
          end
      end
  end.
Definition signPackage (g : RsaSigner) (rec : pkgRecord) : St S (option error) :=
  match SignSHA256 g (rc_digest rec) with
  | Err e => mret (Some (Wrap ("xbps.gen: " +:+ rc_key rec +:+ ": подпись") e))
  | Ok sig2 =>
      e ← writeAtomic (rc_key rec +:+ sig2Suffix) sig2;
      match e with
      | Some e => mret (Some (Wrap ("xbps.gen: " +:+ rc_key rec +:+ sig2Suffix) e))
      | None =>
          match SignSHA256SHA1DigestInfo g (rc_digest rec) with
          | Err e => mret (Some (Wrap ("xbps.gen: " +:+ rc_key rec +:+ ": подпись .sig") e))
          | Ok sig =>
              e ← writeAtomic (rc_key rec +:+ sigSuffix) sig;
              mret match e with Some e => Some (Wrap ("xbps.gen: " +:+ rc_key rec +:+ sigSuffix) e) | None => None end
          end
      end
  end.
Fixpoint signPackages (tick : nat) (g : RsaSigner) (records : list pkgRecord) : St S (option error) :=
  match records with
  | [] => mret None
  | rec :: records =>
      match ctx_Err tick with
      | Some e => mret (Some e)
      | None => e ← signPackage g rec; match e with Some e => mret (Some e) | None => signPackages (1 + tick) g records end
      end
  end.
(** The reports of progress and the log of the choice are left out. *)
Definition GenerateIndexes (repo : Repo) : St S (option error) :=
  if negb (String.eqb (repo_Ecosystem repo) Name) then mret (Some (UnsupportedError "xbps.gen" ("экосистема " +:+ repo_Ecosystem repo +:+ " ≠ xbps")))
  else
    let prefix := RepoPrefix repo in
    keys ← collectPackages prefix;
    match keys with
    | Err e => mret (Some (Wrap "xbps.gen: enumerate" e))
    | Ok pkgKeys =>
        recs ← readPackages 0 pkgKeys [];
        match recs with
        | Err e => mret (Some e)
        | Ok records =>
            match buildMetaPlist with
            | Err e => mret (Some e)
            | Ok metaXML =>
                let g := groupByArch (dedupeRecords records).1 in
                let archs := sortedArchs g in
                e ← writeIndexes (length pkgKeys) prefix metaXML g archs;
                match e, rsa with
                | Some e, _ => mret (Some e)
                | None, Some s => signPackages (length pkgKeys + length archs) s records
                | None, None => mret None
                end
            end
        end
    end.
End generator.

(** * The enumeration of a mirror (enumerate.go) *)
Definition bad_arch_byte (c : ascii) : bool := Ascii.eqb c " " || Ascii.eqb c (byte 0) || Ascii.eqb c "/".
Fixpoint include_archs (include out : list string) : res (list string) :=
  match include with
  | [] => match out with [] => Err (ValidationError "include" "" "нет валидных архитектур") | _ => Ok out end
  | item :: include =>
      let item := trim_space item in
      if String.eqb item "" then include_archs include out
      else if negb (all_bytes (λ c, negb (bad_arch_byte c)) item) then Err (ValidationError "include" item "архитектура содержит недопустимые символы")
      else include_archs include (out ++ [item])
  end.
Definition parseXbpsInclude (include : list string) : res (list string) :=
  match include with
  | [] => Err (ValidationError "include" "" ("xbps sync: укажите архитектуры (например [" +:+ String "034" ("x86_64" +:+ String "034" "])")))
  | _ => include_archs include []
  end.
Definition is_hex_byte (c : ascii) : bool := is_digit c || between "a" "f" c || between "A" "F" c.
Definition sha256Checksum (val : string) : option Checksum :=
  if negb (len val =? 64) || negb (all_bytes is_hex_byte val) then None else Some (mk_Checksum "sha256" (to_lower val)).
Section enumeration.
  Context {M D : Type} (Fetch : string → St M (res string)).
  (** [OpenRepoData] and the tokens of the index in it. *)
  Context (open_repodata : string → res ((string * option error) * res string)) (xml : string * option error → list token)
    (quote ParseInt_error : string → string).
(** What the callback adds for each entry: its path, and its checksum unless another
    architecture has given the path. *)
Definition take_entry (seen : gset string) (st : list string * gmap string Checksum) (entry : IndexEntry) : list string * gmap string Checksum :=
  let '(pkgs, sums) := st in
  if String.eqb (ie_PkgVer entry) "" || String.eqb (ie_Architecture entry) "" then (pkgs, sums)
  else
    let p := "/" +:+ Filename (ie_PkgVer entry) (ie_Architecture entry) in
    (pkgs ++ [p], if bool_decide (p ∈ seen) then sums else match sha256Checksum (ie_FilenameSHA256 entry) with Some sum => <[p := sum]> sums | None => sums end).
Definition enumerateArch (remoteName arch : string) (seen : gset string) (sums : gmap string Checksum) : St M (res (list string * gmap string Checksum)) :=
  body ← Fetch ("/" +:+ Name +:+ "/" +:+ remoteName +:+ "/" +:+ arch +:+ "-repodata");
  match body with
  | Err e => mret (Err e)
  | Ok body =>
      match open_repodata body with
      | Err e => mret (Err e)
      | Ok (index, closed) =>
          let '(given, parseErr) := ParseIndexPlist quote ParseInt_error (xml index) in
          let '(pkgs, sums) := foldl (take_entry seen) ([], sums) given in
          match parseErr, closed with
          | None, Err cerr => mret (Err (Wrap ("xbps: repodata " +:+ arch) cerr))
          | Some e, _ => mret (Err (Wrap ("xbps: parse " +:+ arch +:+ "-repodata") e))
          | None, Ok _ => mret (Ok (pkgs ++ (pkgs ≫= λ p, [p +:+ sig2Suffix; p +:+ sigSuffix]), sums))
          end
      end
  end.
(** Paths that have not been seen. *)
Definition add_path (st : gset string * list string) (p : string) : gset string * list string :=
  let '(seen, paths) := st in if bool_decide (p ∈ seen) then st else ({[p]} ∪ seen, paths ++ [p]).
Fixpoint enumerateArchs (remoteName : string) (archs : list string) (seen : gset string) (sums : gmap string Checksum) (paths : list string) :
    St M (res (list string * gmap string Checksum)) :=
  match archs with
  | [] => mret (Ok (paths, sums))
  | arch :: archs =>
      got ← enumerateArch remoteName arch seen sums;
      match got with
      | Err e => mret (Err (Wrap ("xbps: enumerate " +:+ arch) e))
      | Ok (got, sums) => let '(seen, paths) := foldl add_path (seen, paths) got in enumerateArchs remoteName archs seen sums paths
      end
  end.
(** Where there is a fetcher. *)
Definition Enumerate (remote : Remote) : St (M * Adapter D) (res (list string)) := λ '(m, a),
  match parseXbpsInclude (rm_Include remote) with
  | Err e => (Err e, (m, a))
  | Ok archs =>
      match enumerateArchs (rm_Name remote) archs ∅ ∅ [] m with
      | (Err e, m) => (Err e, (m, a))
      | (Ok (paths, sums), m) => (Ok paths, (m, sums_replace (rm_ID remote) sums a))
      end
  end.
End enumeration.

(** * One record of each name *)

(** What the index of a repository describes: every name that was read, once; and,
    where the properties name their package as its pkgver does and the components of
    the versions are in the range of the client's arithmetic, no package that was read
    is newer than the one of its name, in whatever order they were read. *)
Theorem index_has_newest (records : list pkgRecord) :
  let index := (dedupeRecords records).1 in
  NoDup (rc_name <$> index) ∧ (∀ r, r ∈ index → r ∈ records) ∧ (∀ r, r ∈ records → ∃ k, k ∈ index ∧ rc_name k = rc_name r) ∧
  (Forall (λ r, ∃ v, version_of (rc_name r) (rc_ver r) v) records →
   ∀ k r, k ∈ index → r ∈ records → rc_name r = rc_name k → CompareXbpsVer (rc_ver r) (rc_ver k) <= 0).
Proof.
  split_and!; [apply dedupe_nodup|intros r; apply dedupe_sub|apply dedupe_covers|].
  intros HF k r Hk Hr Hn. refine (dedupe_max rc_name _ _ _ (λ r, ∃ v, version_of (rc_name r) (rc_ver r) v) _ _ _ records k r HF Hk Hr Hn).
  - intros x [v Hv]. destruct (version_order (rc_name x) (rc_ver x) (rc_ver x) (rc_ver x) v v v Hv Hv Hv) as (_ & _ & ? & _). lia.
  - intros x y [v Hv] [w Hw] Hxy. rewrite <- Hxy in Hw. by destruct (version_order (rc_name x) (rc_ver x) (rc_ver y) (rc_ver y) v w w Hv Hw Hw) as (_ & _ & ? & _).
  - intros x y z [u Hu] [v Hv] [w Hw] Hxy Hyz. rewrite <- Hyz, <- Hxy in Hw. rewrite <- Hxy in Hv.
    by destruct (version_order (rc_name x) (rc_ver x) (rc_ver y) (rc_ver z) u v w Hu Hv Hw) as (_ & _ & _ & ?).
Qed.

(** * Groups *)
Lemma native_archs_elem records a : a ∈ native_archs records ↔ a ≠ noarchArch ∧ ∃ r, r ∈ records ∧ rc_arch r = a.
Proof.
  unfold native_archs, is_noarch. induction records as [|r records IH] using rev_ind; [set_solver|]. rewrite foldl_app. cbn [foldl].
  destruct (String.eqb_spec (rc_arch r) noarchArch) as [Hr|Hr]; set_solver.
Qed.
(** What the index of an architecture describes: its own packages and the ones for
    all architectures. *)
Definition group_of (a : string) (records : list pkgRecord) : list IndexOut :=
  entry_out <$> base.filter (λ r, rc_arch r = a ∨ rc_arch r = noarchArch) records.
Lemma push_all_lookup e l : ∀ g a, NoDup l → foldr (push e) g l !! a = if decide (a ∈ l) then Some (default [] (g !! a) ++ [e]) else g !! a.
Proof.
  induction l as [|b l IH]; intros g a Hl; [by rewrite decide_False by apply not_elem_of_nil|]. apply NoDup_cons in Hl as [Hb Hl]. cbn [foldr].
  unfold push at 1. destruct (decide (b = a)) as [<-|Hne].
  - rewrite lookup_insert_eq, IH, decide_False, decide_True by (done || by left). done.
  - rewrite lookup_insert_ne, IH by done. destruct (decide (a ∈ l)); [by rewrite decide_True by by right|].
    rewrite decide_False; [done|]. intros [?|?]%elem_of_cons; congruence.
Qed.
Lemma groupByArch_lookup records a :
  groupByArch records !! a = if decide (a ∈ native_archs records) then Some (group_of a records) else None.
Proof.
  unfold groupByArch. set (native := native_archs records). set (step := λ g r, _).
  assert (∀ done_, (∀ r, r ∈ done_ → rc_arch r = noarchArch ∨ rc_arch r ∈ native) → ∀ a, foldl step ∅ done_ !! a =
    if decide (a ∈ native) then match group_of a done_ with [] => None | l => Some l end else None) as Hinv.
  { intros l. induction l as [|r l IH] using rev_ind; intros Hin b; [cbn [foldl]; rewrite (lookup_empty (M := gmap string)); by destruct (decide _)|].
    specialize (IH (λ r' Hr', Hin r' ltac:(apply elem_of_app; by left))).
    assert (∀ x, default [] (foldl step ∅ l !! x) = if decide (x ∈ native) then group_of x l else []) as Hdef.
    { intros x. rewrite IH. destruct (decide (x ∈ native)); [by destruct (group_of x l)|done]. }
    assert (group_of b (l ++ [r]) = group_of b l ++ group_of b [r]) as Hsnoc by (unfold group_of; by rewrite filter_app, fmap_app).
    rewrite foldl_app. cbn [foldl]. unfold step at 1, is_noarch. rewrite Hsnoc. unfold group_of at 2. rewrite filter_cons, filter_nil.
    destruct (String.eqb_spec (rc_arch r) noarchArch) as [Hr|Hr].
    - rewrite push_all_lookup by apply NoDup_elements. rewrite Hdef. rewrite (decide_True (P := rc_arch r = b ∨ _)) by by right. cbn [fmap list_fmap].
      destruct (decide (b ∈ native)) as [Hb|Hb].
      + rewrite decide_True by by apply elem_of_elements. by destruct (group_of b l).
      + rewrite decide_False by by rewrite elem_of_elements. rewrite IH. by rewrite decide_False.
    - unfold push. destruct (decide (rc_arch r = b)) as [<-|Hne].
      + rewrite lookup_insert_eq, Hdef, (decide_True (P := rc_arch r = rc_arch r ∨ _)) by by left. cbn [fmap list_fmap].
        assert (rc_arch r ∈ native) as Hn by (destruct (Hin r ltac:(apply elem_of_app; right; by left)); done). rewrite !(decide_True (P := _ ∈ native)) by done.
        by destruct (group_of (rc_arch r) l).
      + rewrite lookup_insert_ne, IH by done. rewrite (decide_False (P := rc_arch r = b ∨ _)) by naive_solver. cbn [fmap list_fmap]. by rewrite (right_id_L [] (++)). }
  rewrite Hinv.
  - destruct (decide (a ∈ native)) as [Ha|]; [|done]. destruct (group_of a records) eqn:Hg; [|done]. exfalso.
    apply native_archs_elem in Ha as [_ (r & Hr & Hra)]. unfold group_of in Hg. apply fmap_nil_inv in Hg.
    assert (r ∈ base.filter (λ r, rc_arch r = a ∨ rc_arch r = noarchArch) records) as Hf by (apply list_elem_of_filter; by split; [left|]).
    rewrite Hg in Hf. by apply elem_of_nil in Hf.
  - intros r Hr. destruct (decide (rc_arch r = noarchArch)); [by left|]. right. apply native_archs_elem. eauto.
Qed.
Lemma sortedArchs_elem records a : a ∈ sortedArchs (groupByArch records) ↔ a ∈ native_archs records.
Proof.
  unfold sortedArchs. rewrite sorted_keys_elem, groupByArch_lookup. destruct (decide _); split; intros; eauto; by destruct_and?; try inversion H.
Qed.

(** * What a generation writes *)
Section effects.
  Context {S : Type} `{Storage S} `{!StorageLaws S}.
  Context (open_package : string → res Props) (sha256 : string → string) (encode_xml : list token → string) (base64 : string → string)
    (pack : list (string * string) → res string) (publicKeyBits : string → res Z)
    (unicode_fold : string → string → bool) (unicode_lower : string → string) (quote : string → string).
  Context (rsa : option RsaSigner) (ctx_Err : nat → option error).
Abbreviation read_package := (readPackage open_package sha256 unicode_fold quote).
Abbreviation read_packages := (readPackages open_package sha256 unicode_fold quote ctx_Err).
Abbreviation write_indexes := (writeIndexes encode_xml pack unicode_lower ctx_Err).
Abbreviation key_of := (repodata_key unicode_lower).
Lemma readPackage_keeps key : keeps contents (read_package key).
Proof. unfold readPackage. keeps_tac. Qed.
Lemma readPackages_keeps keys : ∀ tick recs, keeps contents (read_packages tick keys recs).
Proof. induction keys as [|k keys IH]; intros tick recs; cbn [readPackages]; [keeps_tac|]. destruct (ctx_Err tick); [keeps_tac|]. apply keeps_bind; [apply readPackage_keeps|]. intros [r|e]; [apply IH|keeps_tac]. Qed.
Lemma collectPackages_keeps prefix : keeps contents (collectPackages prefix).
Proof. unfold collectPackages. keeps_tac. Qed.
(** A record says what the package's bytes say. *)
Definition record_of (m : gmap string string) (key : string) (r : pkgRecord) : Prop := ∃ body,
  m !! key = Some body ∧ open_package body = Ok (rc_props r) ∧ rc_key r = key ∧ rc_digest r = sha256 body ∧ rc_size r = len body ∧
  EqualFold unicode_fold (base_name key) (Filename (rc_ver r) (rc_arch r)) = true.
Lemma readPackage_Ok key s r s' : read_package key s = (Ok r, s') → record_of (contents s) key r ∧ contents s' = contents s.
Proof.
  intros Hr. pose proof (readPackage_keeps key s) as Hk. rewrite Hr in Hk. split; [|done]. revert Hr. unfold readPackage, mbind, st_bind.
  pose proof (Get_Ok key s) as Hg. destruct (Get key s) as [[[m body]|e] s1]; [|done]. destruct (Hg m body eq_refl) as (Hc & _ & _).
  destruct (open_package body) as [props|] eqn:Ho; [|done]. destruct (EqualFold _ _ _) eqn:He; [|done]. intros [= <- _]. exists body. by split_and!.
Qed.
Lemma readPackages_Ok keys : ∀ tick recs s out s', read_packages tick keys recs s = (Ok out, s') →
  ∃ new, out = recs ++ new ∧ Forall2 (record_of (contents s)) keys new.
Proof.
  induction keys as [|k keys IH]; intros tick recs s out s'; cbn [readPackages].
  - intros [= <- _]. exists []. by rewrite (right_id_L [] (++)).
  - destruct (ctx_Err tick); [done|]. unfold mbind, st_bind. destruct (read_package k s) as [[r|e] s1] eqn:Hr; [|done]. intros Hrest.
    apply readPackage_Ok in Hr as [Hr Hc]. apply IH in Hrest as (new & -> & Hnew). rewrite Hc in Hnew. exists (r :: new). rewrite <- (assoc_L (++)). split; [done|by constructor].
Qed.
(** The packages of a prefix. *)
Definition is_package (prefix key : string) : Prop := ∃ rest, key = prefix +:+ "/" +:+ rest ∧ no_sep "/" rest = true ∧ has_suffix rest pkgSuffix = true.
Lemma collectPackages_Ok prefix s keys s' : collectPackages prefix s = (Ok keys, s') →
  NoDup keys ∧ (∀ k, k ∈ keys ↔ is_Some (contents s !! k) ∧ is_package prefix k).
Proof.
  unfold collectPackages, mbind, st_bind. pose proof (List_sub (prefix +:+ "/") s) as Hsub. pose proof (List_nodup (prefix +:+ "/") s) as Hnd.
  pose proof (λ k, List_complete (prefix +:+ "/") s k (listable_slash _)) as Hcomp.
  destruct (List (prefix +:+ "/") s) as [[metas [e|]] s1]; [done|]. simpl in *. intros [= <- _]. split; [rewrite merge_sort_Permutation; by apply NoDup_List_filter|].
  intros k. rewrite merge_sort_Permutation, list_elem_of_In, List.filter_In, <- list_elem_of_In. unfold is_package, has_slash. rewrite negb_involutive. split.
  - intros [(m & -> & Hm)%list_elem_of_fmap [Hn Hs]%andb_prop]. destruct (Hsub m Hm) as (Hp & b & Hb & _). split; [eauto|].
    apply has_prefix_spec in Hp as [rest Hp]. unfold trim_prefix in Hn, Hs. rewrite (proj2 (strip_prefix_Some _ _ rest)) in Hn, Hs by done. cbn [default] in *.
    exists rest. by rewrite Hp, <- app_assoc.
  - intros [Hk (rest & -> & Hn & Hs)]. rewrite app_assoc in *. split; [apply Hcomp; [done|done|by apply has_prefix_spec; eauto]|].
    unfold trim_prefix. rewrite (proj2 (strip_prefix_Some _ _ rest)) by done. cbn [from_option id]. unfold id. by rewrite Hn, Hs.
Qed.
(** ** The writes *)
Definition index_write (prefix metaXML : string) (g : groups) (arch : string) (w : string * string) : Prop :=
  w.1 = key_of prefix arch ∧ buildRepodata pack (renderIndex encode_xml (default [] (g !! arch))) metaXML = Ok w.2.
Lemma writeIndexes_None prefix metaXML g archs : ∀ tick s s', write_indexes tick prefix metaXML g archs s = (None, s') →
  ∃ ws, Forall2 (index_write prefix metaXML g) archs ws ∧ contents s' = written ws (contents s).
Proof.
  induction archs as [|a archs IH]; intros tick s s'; cbn [writeIndexes]; [intros [= <-]; by exists []|].
  destruct (ctx_Err tick); [done|]. destruct (buildRepodata pack _ metaXML) as [data|] eqn:Hb; [|done]. unfold mbind, st_bind.
  pose proof (writeAtomic_run (key_of prefix a) data s) as Hw. destruct (writeAtomic _ data s) as [[e|] s1]; [done|]. destruct Hw as [Hw _].
  intros (ws & Hws & Hc)%IH. exists ((key_of prefix a, data) :: ws). split; [by constructor|]. by rewrite Hc, Hw.
Qed.
Lemma writeIndexes_through P prefix metaXML g archs : (∀ a, a ∈ archs → P (key_of prefix a)) → ∀ tick, moves (through P) (write_indexes tick prefix metaXML g archs).
Proof.
  intros HP. induction archs as [|a archs IH]; intros tick; cbn [writeIndexes]; [moves_tac|]. moves_tac.
  - apply writeAtomic_through, HP. by left.
  - apply IH. intros b Hb. apply HP. by right.
Qed.
Definition signature_writes (g : RsaSigner) (r : pkgRecord) (ws : list (string * string)) : Prop := ∃ sig2 sig,
  SignSHA256 g (rc_digest r) = Ok sig2 ∧ SignSHA256SHA1DigestInfo g (rc_digest r) = Ok sig ∧
  ws = [(rc_key r +:+ sig2Suffix, sig2); (rc_key r +:+ sigSuffix, sig)].
Lemma signPackages_None g recs : ∀ tick s s', signPackages ctx_Err tick g recs s = (None, s') →
  ∃ wss, Forall2 (signature_writes g) recs wss ∧ contents s' = written (concat wss) (contents s).
Proof.
  induction recs as [|r recs IH]; intros tick s s'; cbn [signPackages]; [intros [= <-]; by exists []|].
  destruct (ctx_Err tick); [done|]. unfold signPackage, mbind, st_bind. destruct (SignSHA256 g _) as [sig2|] eqn:H2; [|done].
  pose proof (writeAtomic_run (rc_key r +:+ sig2Suffix) sig2 s) as Hw. destruct (writeAtomic _ sig2 s) as [[e|] s1]; [done|]. destruct Hw as [Hw _].
  destruct (SignSHA256SHA1DigestInfo g _) as [sig|] eqn:H1; [|done].
  pose proof (writeAtomic_run (rc_key r +:+ sigSuffix) sig s1) as Hv. destruct (writeAtomic _ sig s1) as [[e|] s2]; [done|]. destruct Hv as [Hv _].
  cbn [mret st_ret]. intros (wss & Hws & Hc)%IH. eexists (_ :: wss). split; [constructor; [by exists sig2, sig|done]|]. rewrite Hc, Hv, Hw by done. done.
Qed.
Lemma signPackages_through P g recs : (∀ r, r ∈ recs → P (rc_key r +:+ sig2Suffix) ∧ P (rc_key r +:+ sigSuffix)) →
  ∀ tick, moves (through P) (signPackages ctx_Err tick g recs).
Proof.
  intros HP. induction recs as [|r recs IH]; intros tick; cbn [signPackages]; [moves_tac|].
  destruct (ctx_Err tick); [moves_tac|]. unfold signPackage. moves_tac; [apply writeAtomic_through, HP; by left..|]. apply IH. intros r' Hr'. apply HP. by right.
Qed.
(** ** Keys *)
Lemma suffix_differs a b s t : last_byte s ≠ last_byte t → s ≠ "" → t ≠ "" → a +:+ s ≠ b +:+ t.
Proof. intros Hl Hs Ht Heq. apply (f_equal last_byte) in Heq. by rewrite !last_byte_app in Heq. Qed.
Lemma key_of_inj prefix a b : key_of prefix a = key_of prefix b → ToLower unicode_lower a = ToLower unicode_lower b.
Proof. unfold repodata_key. intros H1%app_inj_l%app_inj_l. by apply app_inj_r in H1. Qed.
Lemma record_of_unique m k r r' : record_of m k r → record_of m k r' → rc_digest r = rc_digest r'.
Proof. intros (b & Hb & _ & _ & -> & _) (b' & Hb' & _ & _ & -> & _). congruence. Qed.
Abbreviation generate := (GenerateIndexes open_package sha256 encode_xml base64 pack publicKeyBits unicode_fold unicode_lower quote rsa ctx_Err).
Abbreviation meta := (buildMetaPlist encode_xml base64 publicKeyBits rsa).
(** What a successful generation has done, as writes. *)
Lemma GenerateIndexes_run repo s s' : generate repo s = (None, s') →
  let prefix := RepoPrefix repo in
  ∃ records metaXML ws wss, NoDup (rc_key <$> records) ∧
    (∀ k, k ∈ rc_key <$> records ↔ is_Some (contents s !! k) ∧ is_package prefix k) ∧
    Forall (λ r, record_of (contents s) (rc_key r) r) records ∧ meta = Ok metaXML ∧
    Forall2 (index_write prefix metaXML (groupByArch (dedupeRecords records).1)) (sortedArchs (groupByArch (dedupeRecords records).1)) ws ∧
    (match rsa with Some g => Forall2 (signature_writes g) records wss | None => wss = [] end) ∧
    contents s' = written (ws ++ concat wss) (contents s).
Proof.
  unfold GenerateIndexes. destruct (negb _); [done|]. unfold mbind, st_bind. cbv zeta.
  destruct (collectPackages (RepoPrefix repo) s) as [[keys|e] s1] eqn:Hk; [|done].
  pose proof (collectPackages_keeps (RepoPrefix repo) s) as Hc1. rewrite Hk in Hc1. apply collectPackages_Ok in Hk as [Hnd Hkeys]. simpl in Hc1.
  destruct (read_packages 0 keys [] s1) as [[records|e] s2] eqn:Hr; [|done].
  pose proof (readPackages_keeps keys 0 [] s1) as Hc2. rewrite Hr in Hc2. simpl in Hc2. apply readPackages_Ok in Hr as (new & Hnew & Hrecs). simpl in Hnew. subst new. rewrite Hc1 in Hrecs.
  destruct meta as [metaXML|] eqn:Hm; [|done].
  destruct (write_indexes _ _ metaXML _ _ s2) as [[e|] s3] eqn:Hw; [done|]. apply writeIndexes_None in Hw as (ws & Hws & Hc3). intros Hsig.
  assert (rc_key <$> records = keys) as Hrk by (clear -Hrecs; induction Hrecs as [|k r ks rs (? & _ & _ & Hkey & _) _ IH]; [done|]; by rewrite fmap_cons, Hkey, IH).
  assert (Forall (λ r, record_of (contents s) (rc_key r) r) records) as Hall.
  { clear -Hrecs. induction Hrecs as [|k r ks rs Hr _ IH]; constructor; [|done]. assert (rc_key r = k) as -> by (by destruct Hr as (? & _ & _ & ? & _)). done. }
  destruct rsa as [g|].
  - apply signPackages_None in Hsig as (wss & Hwss & Hc4). exists records, metaXML, ws, wss. split_and!; [by rewrite Hrk..|done|done|done|done|].
    unfold written in *. by rewrite foldl_app, Hc4, Hc3, Hc2, Hc1.
  - injection Hsig as <-. exists records, metaXML, ws, []. split_and!; [by rewrite Hrk..|done|done|done|done|]. cbn [concat]. rewrite (right_id_L [] (++)). by rewrite Hc3, Hc2, Hc1.
Qed.
(** The writes of the two phases, by their keys. *)
Lemma index_writes_elem prefix metaXML records ws k v :
  Forall2 (index_write prefix metaXML (groupByArch records)) (sortedArchs (groupByArch records)) ws → (k, v) ∈ ws →
  ∃ arch, arch ∈ native_archs records ∧ k = key_of prefix arch ∧ buildRepodata pack (renderIndex encode_xml (group_of arch records)) metaXML = Ok v.
Proof.
  intros Hws Hin. apply list_elem_of_lookup in Hin as [i Hi]. destruct (Forall2_lookup_r _ _ _ _ _ Hws Hi) as (arch & Ha & Hk & Hb).
  assert (arch ∈ native_archs records) as Hn by (by apply sortedArchs_elem, list_elem_of_lookup_2 with i). exists arch. split_and!; [done|done|].
  rewrite groupByArch_lookup, decide_True in Hb by done. done.
Qed.
Lemma index_writes_cover prefix metaXML records ws arch :
  Forall2 (index_write prefix metaXML (groupByArch records)) (sortedArchs (groupByArch records)) ws → arch ∈ native_archs records →
  ∃ v, (key_of prefix arch, v) ∈ ws ∧ buildRepodata pack (renderIndex encode_xml (group_of arch records)) metaXML = Ok v.
Proof.
  intros Hws Hn. pose proof Hn as Hs%sortedArchs_elem. apply list_elem_of_lookup in Hs as [i Hi].
  destruct (Forall2_lookup_l _ _ _ _ _ Hws Hi) as ([k v] & Hw & Hk & Hb). simpl in Hk, Hb. subst k. exists v. split; [by apply list_elem_of_lookup_2 with i|].
  rewrite groupByArch_lookup, decide_True in Hb by done. done.
Qed.
Lemma signature_writes_elem g records wss k v : Forall2 (signature_writes g) records wss → (k, v) ∈ concat wss →
  ∃ r, r ∈ records ∧ (k = rc_key r +:+ sig2Suffix ∧ SignSHA256 g (rc_digest r) = Ok v ∨ k = rc_key r +:+ sigSuffix ∧ SignSHA256SHA1DigestInfo g (rc_digest r) = Ok v).
Proof.
  intros Hws (ws & Hin & Hw)%list_elem_of_In%in_concat. apply list_elem_of_In, list_elem_of_lookup in Hin as [i Hi].
  destruct (Forall2_lookup_r _ _ _ _ _ Hws Hi) as (r & Hr & sig2 & sig & H2 & H1 & ->). exists r. split; [by apply list_elem_of_lookup_2 with i|].
  destruct Hw as [[= <- <-]|[[= <- <-]|[]]]; eauto.
Qed.
Lemma signature_writes_cover g records wss r : Forall2 (signature_writes g) records wss → r ∈ records → ∃ sig2 sig,
  SignSHA256 g (rc_digest r) = Ok sig2 ∧ SignSHA256SHA1DigestInfo g (rc_digest r) = Ok sig ∧
  (rc_key r +:+ sig2Suffix, sig2) ∈ concat wss ∧ (rc_key r +:+ sigSuffix, sig) ∈ concat wss.
Proof.
  intros Hws [i Hi]%list_elem_of_lookup. destruct (Forall2_lookup_l _ _ _ _ _ Hws Hi) as (ws & Hw & sig2 & sig & H2 & H1 & ->).
  apply list_elem_of_lookup_2, list_elem_of_In in Hw. exists sig2, sig. split_and!; [done|done|..]; apply list_elem_of_In, in_concat; eexists; (split; [exact Hw|]); simpl; auto.
Qed.
Lemma index_key_is_no_signature prefix arch key : key_of prefix arch ≠ key +:+ sig2Suffix ∧ key_of prefix arch ≠ key +:+ sigSuffix.
Proof. unfold repodata_key. rewrite !app_assoc. split; by apply suffix_differs. Qed.

Lemma index_written prefix metaXML index records ws wss arch m :
  Forall2 (index_write prefix metaXML (groupByArch index)) (sortedArchs (groupByArch index)) ws →
  match rsa with Some g => Forall2 (signature_writes g) records wss | None => wss = [] end →
  arch ∈ native_archs index → (∀ b, b ∈ native_archs index → ToLower unicode_lower b = ToLower unicode_lower arch → b = arch) →
  ∃ data, buildRepodata pack (renderIndex encode_xml (group_of arch index)) metaXML = Ok data ∧ written (ws ++ concat wss) m !! key_of prefix arch = Some data.
Proof.
  intros Hws Hwss Hn Hu. destruct (index_writes_cover _ _ _ _ _ Hws Hn) as (data & Hin & Hb). exists data. split; [done|].
  apply written_unique; [apply elem_of_app; by left|]. intros v [Hv|Hv]%elem_of_app.
  - destruct (index_writes_elem _ _ _ _ _ _ Hws Hv) as (b & Hbn & Hk%key_of_inj & Hbb). rewrite (Hu b) in Hbb by done. congruence.
  - exfalso. destruct rsa as [g|]; [|subst wss; by apply elem_of_nil in Hv].
    destruct (signature_writes_elem _ _ _ _ _ Hwss Hv) as (r & _ & Hk). pose proof (index_key_is_no_signature prefix arch (rc_key r)). naive_solver.
Qed.

(** What a successful generation has done. Its records are exactly the packages
    of the repository, each as its own bytes say; of them the newest of every name
    are the index. Every architecture that the index names (unless two are written
    alike in lower case) has its repository data: the index of its own packages and
    of those for all architectures. With a subscriber every package, the older ones
    too, has its two signatures. Nothing else has changed. *)
Theorem generation_is_faithful repo s s' : generate repo s = (None, s') →
  let prefix := RepoPrefix repo in
  ∃ records metaXML, let index := (dedupeRecords records).1 in
    (∀ k, k ∈ rc_key <$> records ↔ is_Some (contents s !! k) ∧ is_package prefix k) ∧
    Forall (λ r, record_of (contents s) (rc_key r) r) records ∧ meta = Ok metaXML ∧
    (∀ arch, arch ∈ native_archs index → (∀ b, b ∈ native_archs index → ToLower unicode_lower b = ToLower unicode_lower arch → b = arch) →
      ∃ data, buildRepodata pack (renderIndex encode_xml (group_of arch index)) metaXML = Ok data ∧ contents s' !! key_of prefix arch = Some data) ∧
    (∀ g r, rsa = Some g → r ∈ records → ∃ sig2 sig,
      SignSHA256 g (rc_digest r) = Ok sig2 ∧ contents s' !! (rc_key r +:+ sig2Suffix) = Some sig2 ∧
      SignSHA256SHA1DigestInfo g (rc_digest r) = Ok sig ∧ contents s' !! (rc_key r +:+ sigSuffix) = Some sig) ∧
    (∀ k, (∀ arch, arch ∈ native_archs index → k ≠ key_of prefix arch) →
      (∀ r, is_Some rsa → r ∈ records → k ≠ rc_key r +:+ sig2Suffix ∧ k ≠ rc_key r +:+ sigSuffix) → contents s' !! k = contents s !! k).
Proof.
  intros Hrun prefix. apply GenerateIndexes_run in Hrun as (records & metaXML & ws & wss & _ & Hkeys & Hall & Hm & Hws & Hwss & ->).
  exists records, metaXML. intros index. fold prefix in Hkeys, Hws. fold index in Hws. split_and!; [done|done|done|..].
  - intros arch Hn Hu. by apply (index_written _ _ _ records).
  - intros g r -> Hr. destruct (signature_writes_cover _ _ _ _ Hwss Hr) as (sig2 & sig & H2 & H1 & I2 & I1). exists sig2, sig.
    assert (∀ r', r' ∈ records → rc_key r' = rc_key r → rc_digest r' = rc_digest r) as Hsame.
    { intros r' Hr' Hk. rewrite Forall_forall in Hall. apply (record_of_unique (contents s) (rc_key r)); [rewrite <- Hk|]; by apply Hall. }
    split_and!; [done|apply written_unique; [apply elem_of_app; by right|]|done|apply written_unique; [apply elem_of_app; by right|]]; intros v [Hv|Hv]%elem_of_app.
    + exfalso. destruct (index_writes_elem _ _ _ _ _ _ Hws Hv) as (b & _ & Hk & _). pose proof (index_key_is_no_signature prefix b (rc_key r)). naive_solver.
    + destruct (signature_writes_elem _ _ _ _ _ Hwss Hv) as (r' & Hr' & [[Hk Hs]|[Hk _]]); [|by apply suffix_differs in Hk].
      apply app_inj_r in Hk. rewrite (Hsame r') in Hs by done. congruence.
    + exfalso. destruct (index_writes_elem _ _ _ _ _ _ Hws Hv) as (b & _ & Hk & _). pose proof (index_key_is_no_signature prefix b (rc_key r)). naive_solver.
    + destruct (signature_writes_elem _ _ _ _ _ Hwss Hv) as (r' & Hr' & [[Hk _]|[Hk Hs]]); [by apply suffix_differs in Hk|].
      apply app_inj_r in Hk. rewrite (Hsame r') in Hs by done. congruence.
  - intros k Hi Hs. apply written_other. rewrite fmap_app, not_elem_of_app. split; intros ([k' v] & -> & Hin)%list_elem_of_fmap; cbn [fst] in *.
    + destruct (index_writes_elem _ _ _ _ _ _ Hws Hin) as (b & Hb & -> & _). by apply (Hi b).
    + destruct rsa as [g|]; [|subst wss; by apply elem_of_nil in Hin].
      destruct (signature_writes_elem _ _ _ _ _ Hwss Hin) as (r & Hr & Hk). destruct (Hs r ltac:(by eexists) Hr). naive_solver.
Qed.
(** The keys that a generation may change. *)
Definition generated (prefix k : string) : Prop :=
  (∃ arch, k = key_of prefix arch) ∨ (∃ key, is_package prefix key ∧ (k = key +:+ sig2Suffix ∨ k = key +:+ sigSuffix)).

(** However a generation ends, with an error, a failure of the storage or a
    cancellation at any point, it has changed nothing but the repository data and the
    signatures of its own repository: no package, and no object of another
    repository. *)
Theorem generation_stays_inside repo s k : ¬ generated (RepoPrefix repo) k → contents (generate repo s).2 !! k = contents s !! k.
Proof.
  revert k. change (through (generated (RepoPrefix repo)) s (generate repo s).2). unfold GenerateIndexes. destruct (negb _); [done|]. unfold mbind, st_bind. cbv zeta.
  pose proof (collectPackages_keeps (RepoPrefix repo) s) as Hc1. destruct (collectPackages (RepoPrefix repo) s) as [[keys|e] s1] eqn:Hk; simpl in Hc1.
  2:{ intros k _. by rewrite <- Hc1. }
  apply collectPackages_Ok in Hk as [_ Hkeys]. pose proof (readPackages_keeps keys 0 [] s1) as Hc2.
  destruct (read_packages 0 keys [] s1) as [[records|e] s2] eqn:Hr; simpl in Hc2; [|intros k _; by rewrite <- Hc1, <- Hc2].
  apply readPackages_Ok in Hr as (new & Hnew & Hrecs). simpl in Hnew. subst new.
  destruct meta as [metaXML|e]; [|intros k _; by rewrite <- Hc1, <- Hc2].
  transitivity s2; [intros k _; by rewrite <- Hc1, <- Hc2|]. set (g := groupByArch _).
  pose proof (writeIndexes_through (generated (RepoPrefix repo)) (RepoPrefix repo) metaXML g (sortedArchs g) ltac:(intros a _; left; by exists a) (length keys) s2) as Hw.
  destruct (write_indexes _ _ metaXML g _ s2) as [[e|] s3]; simpl in Hw; [done|]. destruct rsa as [sg|]; [|done]. transitivity s3; [done|].
  apply signPackages_through. intros r [i Hi]%list_elem_of_lookup. destruct (Forall2_lookup_r _ _ _ _ _ Hrecs Hi) as (key & Hkey & _ & _ & _ & Hrk & _).
  apply list_elem_of_lookup_2, Hkeys in Hkey as [_ Hp]. rewrite Hrk. split; right; exists key; auto.
Qed.
End effects.

(** * A mirror of a generated repository *)
Lemma hex_digit_of_hex n : (n < 16)%N → is_hex_byte (hex_digit_of n) = true ∧ lower_byte (hex_digit_of n) = hex_digit_of n ∧
  ((32 <=? N_of_ascii (hex_digit_of n))%N && (N_of_ascii (hex_digit_of n) <? 127)%N) = true.
Proof.
  intros Hn. assert (n ∈ (N.of_nat <$> seq 0 16)) as Hin.
  { apply list_elem_of_fmap. exists (N.to_nat n). split; [by rewrite N2Nat.id|]. apply elem_of_seq. lia. }
  assert (Forall (λ n, is_hex_byte (hex_digit_of n) = true ∧ lower_byte (hex_digit_of n) = hex_digit_of n ∧
    ((32 <=? N_of_ascii (hex_digit_of n))%N && (N_of_ascii (hex_digit_of n) <? 127)%N) = true) (N.of_nat <$> seq 0 16)) as Hall.
  { cbn. repeat (apply Forall_cons; split; [by vm_compute|]). by constructor. }
  rewrite Forall_forall in Hall. by apply Hall.
Qed.
Lemma hex_encode_spec s : all_bytes is_hex_byte (hex_encode s) = true ∧ to_lower (hex_encode s) = hex_encode s ∧
  all_bytes (λ c, (32 <=? N_of_ascii c)%N && (N_of_ascii c <? 127)%N) (hex_encode s) = true ∧ String.length (hex_encode s) = (2 * String.length s)%nat.
Proof.
  induction s as [|c s (IH1 & IH2 & IH3 & IH4)]; [done|]. cbn [hex_encode].
  destruct (hex_digit_of_hex (N_of_ascii c / 16)) as (A1 & A2 & A3); [apply N.Div0.div_lt_upper_bound; pose proof (N_ascii_bounded c); lia|].
  destruct (hex_digit_of_hex (N_of_ascii c mod 16)) as (B1 & B2 & B3); [apply N.mod_lt; lia|].
  cbn [all_bytes to_lower String.length]. rewrite A1, A2, A3, B1, B2, B3, IH1, IH2, IH3, IH4. split_and!; [done..|lia].
Qed.
Lemma sha256Checksum_hex s : String.length s = 32%nat → sha256Checksum (hex_encode s) = Some (mk_Checksum "sha256" (hex_encode s)).
Proof.
  intros Hs. destruct (hex_encode_spec s) as (H1 & H2 & _ & H4). unfold sha256Checksum, len. rewrite H4, Hs, H1, H2. done.
Qed.
Lemma hex_legal s : String.length s = 32%nat → legal (hex_encode s).
Proof.
  intros Hs. destruct (hex_encode_spec s) as (_ & _ & H3 & H4). split; [by apply escaped_plain|]. unfold len, maxFieldValue. rewrite H4, Hs. lia.
Qed.
(** The entries that have a file name, and its path. *)
Definition visible (e : IndexEntry) : Prop := ie_PkgVer e ≠ "" ∧ ie_Architecture e ≠ "".
#[global] Instance visible_dec e : Decision (visible e).
Proof. unfold visible. apply _. Defined.
Definition path_of (e : IndexEntry) : string := "/" +:+ Filename (ie_PkgVer e) (ie_Architecture e).
Lemma take_entry_eq seen st e : take_entry seen st e = if decide (visible e)
  then (st.1 ++ [path_of e], if bool_decide (path_of e ∈ seen) then st.2 else match sha256Checksum (ie_FilenameSHA256 e) with Some sum => <[path_of e := sum]> st.2 | None => st.2 end)
  else st.
Proof.
  destruct st as [pkgs sums]. unfold take_entry, visible. destruct (String.eqb_spec (ie_PkgVer e) ""), (String.eqb_spec (ie_Architecture e) ""); cbn [orb];
    destruct (decide _); try done; naive_solver.
Qed.
Lemma take_entries_paths seen es : ∀ st, (foldl (take_entry seen) st es).1 = st.1 ++ (path_of <$> base.filter visible es).
Proof.
  induction es as [|e es IH]; intros st; cbn [foldl]; [rewrite filter_nil; cbn [fmap list_fmap]; by rewrite (right_id_L [] (++))|]. rewrite IH, take_entry_eq, filter_cons.
  destruct (decide (visible e)); [|done]. cbn [fst fmap list_fmap]. by rewrite <- (assoc_L (++)).
Qed.
Lemma take_entries_sums es e sum st : e ∈ es → visible e → sha256Checksum (ie_FilenameSHA256 e) = Some sum →
  (∀ e', e' ∈ es → path_of e' = path_of e → ie_FilenameSHA256 e' = ie_FilenameSHA256 e) → (foldl (take_entry ∅) st es).2 !! path_of e = Some sum.
Proof.
  induction es as [|e' es IH] using rev_ind; intros Hin Hv Hs Hu; [by apply elem_of_nil in Hin|]. rewrite foldl_app. cbn [foldl]. rewrite take_entry_eq.
  assert (∀ x, x ∈ es → x ∈ es ++ [e']) as Hsub by (intros; apply elem_of_app; by left).
  destruct (decide (path_of e' = path_of e)) as [Hp|Hp].
  - destruct (decide (visible e')) as [Hv'|Hnv].
    + cbn [snd]. rewrite bool_decide_eq_false_2 by set_solver. rewrite (Hu e' ltac:(apply elem_of_app; right; by left) Hp), Hs, Hp. apply lookup_insert_eq.
    + apply IH; auto. apply elem_of_app in Hin as [?|?%list_elem_of_singleton]; [done|]. by subst.
  - assert (e ∈ es) as Hes by (apply elem_of_app in Hin as [?|?%list_elem_of_singleton]; [done|by subst]).
    destruct (decide (visible e')); [|by apply IH; auto]. cbn [snd]. rewrite bool_decide_eq_false_2 by set_solver.
    destruct (sha256Checksum (ie_FilenameSHA256 e')); [rewrite lookup_insert_ne by done|]; apply IH; auto.
Qed.
Lemma add_paths got : ∀ seen paths, (∀ p, p ∈ seen ↔ p ∈ paths) → NoDup paths →
  let out := (foldl add_path (seen, paths) got).2 in NoDup out ∧ ∀ p, p ∈ out ↔ p ∈ paths ∨ p ∈ got.
Proof.
  induction got as [|q got IH]; intros seen paths Hs Hn; cbn [foldl]; [split; [done|]; intros p; cbn; rewrite elem_of_nil; tauto|].
  change (add_path (seen, paths) q) with (if bool_decide (q ∈ seen) then (seen, paths) else ({[q]} ∪ seen, paths ++ [q])). destruct (bool_decide_reflect (q ∈ seen)) as [Hq|Hq].
  - destruct (IH seen paths Hs Hn) as [? Hm]. split; [done|]. intros p. rewrite Hm, elem_of_cons. apply Hs in Hq. naive_solver.
  - destruct (IH ({[q]} ∪ seen) (paths ++ [q])) as [? Hm].
    + intros p. rewrite elem_of_union, elem_of_singleton, elem_of_app, list_elem_of_singleton, Hs. tauto.
    + apply NoDup_app. split_and!; [done| |apply NoDup_singleton]. intros p Hp ->%list_elem_of_singleton. by apply Hq, Hs.
    + split; [done|]. intros p. rewrite Hm, elem_of_app, list_elem_of_singleton, elem_of_cons. tauto.
Qed.
Section mirrored.
  Context {S M D : Type} `{Storage S} `{!StorageLaws S}.
  Context (unzstd gunzip : string → res stream) (reads : string → list string) (untar : stream → list member * option error)
    (xml : string * option error → list token) (quote hexdump ParseInt_error sha256 : string → string) (encode_xml : list token → string) (base64 : string → string)
    (pack : list (string * string) → res string) (tar_size : list (string * string) → Z) (publicKeyBits : string → res Z)
    (unicode_fold : string → string → bool) (unicode_lower : string → string) (rsa : option RsaSigner) (ctx_Err : nat → option error)
    (Fetch : string → St M (res string)).
  Abbreviation open_package := (OpenPackage unzstd gunzip reads untar xml quote ParseInt_error).
  Abbreviation open_repodata := (OpenRepoData unzstd untar quote hexdump).
  Abbreviation generate := (GenerateIndexes open_package sha256 encode_xml base64 pack publicKeyBits unicode_fold unicode_lower quote rsa ctx_Err).
  Abbreviation enumerate := (Enumerate (D := D) Fetch open_repodata xml quote ParseInt_error).
  (** A decoder of XML gives texts that XML admits, and reads an index that the
      encoder has written; what [pack] has made is a tar under zstd of its files;
      a digest has 32 bytes. *)
  Hypothesis xml_texts : ∀ b, Forall admitted_text (xml b).
  Hypothesis xml_encoded : ∀ es, xml (encode_xml (WriteIndexPlist es), None) = wire (WriteIndexPlist es).
  Hypothesis pack_decodes : ∀ ms data, pack ms = Ok data → String.substring 0 4 data = zstdMagic ∧
    ∃ chunks, unzstd data = Ok (chunks, None) ∧ total chunks = tar_size ms ∧ untar (chunks, None) = ((λ m, mk_member true m.1 (len m.2) (m.2, None)) <$> ms, None).
  Hypothesis sha256_length : ∀ b, String.length (sha256 b) = 32%nat.
Abbreviation files index metaXML := [("index.plist", index); ("index-meta.plist", metaXML); ("stage.plist", "")].
Lemma OpenRepoData_packed index metaXML data : pack (files index metaXML) = Ok data → tar_size (files index metaXML) < maxDecompressed → len metaXML <= maxMetaSize →
  open_repodata data = Ok ((index, None), Ok metaXML).
Proof.
  intros Hp Hsize Hmeta. destruct (pack_decodes _ _ Hp) as (Hmagic & chunks & Hz & Ht & Hu). unfold OpenRepoData. rewrite Hmagic, String.eqb_refl. cbn [negb].
  rewrite Hz. unfold limit_stream. cbn [fst snd]. rewrite limited_below by lia. rewrite Hu. cbn [fmap list_fmap mb_name fst]. rewrite String.eqb_refl. cbn [negb].
  unfold readRepoMeta. cbn [mb_body mb_name mb_size fst snd]. rewrite String.eqb_refl. cbn [negb]. by rewrite (proj2 (Z.ltb_ge _ _)) by done.
Qed.
Definition file_of (r : pkgRecord) : string := "/" +:+ Filename (rc_ver r) (rc_arch r).
(** A package that the index of an architecture describes, and that has a name. *)
Definition served (arch : string) (index : list pkgRecord) (r : pkgRecord) : Prop :=
  r ∈ index ∧ (rc_arch r = arch ∨ rc_arch r = noarchArch) ∧ rc_ver r ≠ "" ∧ rc_arch r ≠ "".
Lemma enumerateArch_packed remoteName arch index data metaXML m m' :
  pack (files (renderIndex encode_xml (group_of arch index)) metaXML) = Ok data →
  tar_size (files (renderIndex encode_xml (group_of arch index)) metaXML) < maxDecompressed → len metaXML <= maxMetaSize →
  Forall (λ r, props_fit (rc_props r) ∧ String.length (rc_digest r) = 32%nat ∧ in_int64 (rc_size r)) index → Z.of_nat (length index) <= maxPackages →
  Fetch ("/xbps/" +:+ remoteName +:+ "/" +:+ arch +:+ "-repodata") m = (Ok data, m') →
  ∃ paths sums, enumerateArch Fetch open_repodata xml quote ParseInt_error remoteName arch ∅ ∅ m = (Ok (paths, sums), m') ∧
    (∀ p, p ∈ paths ↔ ∃ r, served arch index r ∧ (p = file_of r ∨ p = file_of r +:+ sig2Suffix ∨ p = file_of r +:+ sigSuffix)) ∧
    (∀ r, served arch index r → (∀ r', r' ∈ index → file_of r' = file_of r → r' = r) → sums !! file_of r = Some (mk_Checksum "sha256" (hex_encode (rc_digest r)))).
Proof.
  intros Hp Hsize Hmeta Hall Hlen Hf. set (es := sorted_entries (group_of arch index)).
  assert (Permutation es (group_of arch index)) as Hperm by apply merge_sort_Permutation.
  assert (∀ e, e ∈ (entry_of <$> es) ↔ ∃ r, r ∈ index ∧ (rc_arch r = arch ∨ rc_arch r = noarchArch) ∧ e = entry_of (entry_out r)) as Hes.
  { intros e. rewrite Hperm. unfold group_of. rewrite <- list_fmap_compose, list_elem_of_fmap. split.
    - intros (r & -> & [? ?]%list_elem_of_filter). eauto.
    - intros (r & ? & ? & ->). exists r. split; [done|]. by apply list_elem_of_filter. }
  assert (Forall writable (group_of arch index)) as Hw.
  { apply Forall_fmap, Forall_forall. intros r [_ Hr]%list_elem_of_filter. rewrite Forall_forall in Hall. destruct (Hall r Hr) as (? & ? & ?).
    apply props_writable; [done|by apply hex_legal|done]. }
  assert (Z.of_nat (length (group_of arch index)) <= maxPackages) as Hl.
  { unfold group_of. rewrite length_fmap. pose proof (length_filter (λ r, rc_arch r = arch ∨ rc_arch r = noarchArch) index). lia. }
  unfold enumerateArch, mbind, st_bind. change ("/" +:+ Name +:+ "/" +:+ remoteName +:+ "/" +:+ arch +:+ "-repodata") with ("/xbps/" +:+ remoteName +:+ "/" +:+ arch +:+ "-repodata").
  rewrite Hf, (OpenRepoData_packed _ metaXML) by done. unfold renderIndex. rewrite xml_encoded, index_read_back by done. fold es.
  destruct (foldl (take_entry ∅) ([], ∅) (entry_of <$> es)) as [pkgs sums] eqn:Hfold. exists (pkgs ++ (pkgs ≫= λ p, [p +:+ sig2Suffix; p +:+ sigSuffix])), sums.
  assert (pkgs = path_of <$> base.filter visible (entry_of <$> es)) as -> by (pose proof (take_entries_paths ∅ (entry_of <$> es) ([], ∅)) as Ht; by rewrite Hfold in Ht).
  assert (∀ p, p ∈ (path_of <$> base.filter visible (entry_of <$> es)) ↔ ∃ r, served arch index r ∧ p = file_of r) as Hpk.
  { intros p. rewrite list_elem_of_fmap. split.
    - intros (e & -> & [Hv He]%list_elem_of_filter). apply Hes in He as (r & ? & ? & ->). exists r. split; [|done]. split_and!; [done|done|apply Hv|apply Hv].
    - intros (r & (Hr & Ha & ? & ?) & ->). exists (entry_of (entry_out r)). split; [done|]. apply list_elem_of_filter. split; [by split|]. apply Hes. eauto. }
  split_and!; [done|..].
  - intros p. rewrite elem_of_app, Hpk, list_elem_of_bind. setoid_rewrite Hpk. setoid_rewrite elem_of_cons. setoid_rewrite list_elem_of_singleton. naive_solver.
  - intros r (Hr & Ha & Hv1 & Hv2) Hu. pose proof (take_entries_sums (entry_of <$> es) (entry_of (entry_out r)) (mk_Checksum "sha256" (hex_encode (rc_digest r))) ([], ∅)) as Ht.
    rewrite Hfold in Ht. apply Ht; [apply Hes; eauto|by split|apply sha256Checksum_hex|].
    + rewrite Forall_forall in Hall. by apply Hall.
    + intros e' He' Hpath. apply Hes in He' as (r' & Hr' & _ & ->). by rewrite (Hu r' Hr' Hpath).
Qed.
Abbreviation key_of := (repodata_key unicode_lower).
Lemma index_length records (m : gmap string string) : NoDup (rc_key <$> records) → (∀ k, k ∈ rc_key <$> records → is_Some (m !! k)) →
  (length (dedupeRecords records).1 <= size m)%nat.
Proof.
  intros Hnd Hk. transitivity (length records).
  - apply submseteq_length, NoDup_submseteq; [|intros r; apply dedupe_sub].
    apply (NoDup_fmap_1 rc_name). apply dedupe_nodup.
  - rewrite <- (length_fmap rc_key), <- size_dom, <- (size_list_to_set (C := gset string)) by done. apply subseteq_size. intros k Hin%elem_of_list_to_set.
    by apply elem_of_dom, Hk.
Qed.
Lemma enumerate_one remote arch paths sums m m' (a : Adapter D) : parseXbpsInclude (rm_Include remote) = Ok [arch] →
  enumerateArch Fetch open_repodata xml quote ParseInt_error (rm_Name remote) arch ∅ ∅ m = (Ok (paths, sums), m') →
  ∃ paths', enumerate remote (m, a) = (Ok paths', (m', sums_replace (rm_ID remote) sums a)) ∧ NoDup paths' ∧ ∀ p, p ∈ paths' ↔ p ∈ paths.
Proof.
  intros Hi Ha. unfold Enumerate. rewrite Hi. cbn [enumerateArchs]. unfold mbind, st_bind. rewrite Ha.
  destruct (add_paths paths ∅ []) as [Hn Hp]; [set_solver|constructor|]. destruct (foldl add_path (∅, []) paths) as [seen out]. cbn [mret st_ret snd] in *.
  exists out. split_and!; [done|done|]. intros p. rewrite Hp, elem_of_nil. tauto.
Qed.

End mirrored.
