(* ===== verification/XbpsDemo.v ===== *)
(** A concrete personal repository of xbps packages, generated and mirrored: the
    theorems of XbpsPackage and XbpsRepo at concrete decoders, and a repository of
    two architectures whose index loses a package. *)
From S2P Require Import Prelude GoStr Domain Port RepoWrites CacheEngine Dedupe Adapter XbpsVersion XbpsIndex XbpsPackage XbpsRepo.
Local Open Scope Z_scope.

(** * Two architectures *)
Definition record (name ver arch : string) : pkgRecord :=
  mk_pkgRecord ("repo/7/xbps/" +:+ Filename ver arch) (mk_Props name ver "" arch "" "" "" "" 0 "" [] []) "" 1.
(** The choice of one record for each name does not look at the architecture: of a
    package built for two architectures the index of one loses its record, and with
    it, when it had no other, all its packages for all architectures. *)
Lemma two_architectures :
  let records := [record "a" "a-1.0_1" "aarch64"; record "a" "a-1.0_1" "x86_64"; record "b" "b-1.0_1" "noarch"] in
  let index := (dedupeRecords records).1 in
  sortedArchs (groupByArch records) = ["aarch64"; "x86_64"] ∧ sortedArchs (groupByArch index) = ["aarch64"] ∧
  (rc_arch <$> index) = ["aarch64"; "noarch"].
Proof. vm_compute. done. Qed.
(** A newer build for one architecture takes away the build for the other. *)
Lemma newer_elsewhere :
  let index := (dedupeRecords [record "a" "a-1.0_1" "aarch64"; record "a" "a-1.1_1" "x86_64"]).1 in
  (λ r, (rc_ver r, rc_arch r)) <$> index = [("a-1.1_1", "x86_64")].
Proof. vm_compute. done. Qed.
Lemma index_has_newest_witness : ∀ k r : pkgRecord,
  k ∈ (dedupeRecords [record "a" "a-7.0.9_1" "x86_64"; record "a" "a-7.0.10_1" "x86_64"]).1 →
  r ∈ [record "a" "a-7.0.9_1" "x86_64"; record "a" "a-7.0.10_1" "x86_64"] → rc_name r = rc_name k → CompareXbpsVer (rc_ver r) (rc_ver k) <= 0.
Proof.
  apply (index_has_newest [record "a" "a-7.0.9_1" "x86_64"; record "a" "a-7.0.10_1" "x86_64"]).
  assert (∀ p v, SplitPkgver p = Ok ("a", v) → forallb (λ z, (-3 <=? z) && (z <=? 2 ^ 31 - 4)) (dw_revision (parseDewey v) :: dw_parts (parseDewey v)) = true →
    version_of "a" p v) as Hv.
  { intros p v Hp Hf. split; [exact Hp|]. cbn [forallb] in Hf. apply andb_prop in Hf as [Hr Hf]. unfold in_range, XbpsVersion.fits. split; [|lia].
    apply Forall_forall. intros z Hz. rewrite forallb_forall in Hf. apply list_elem_of_In, Hf in Hz. lia. }
  constructor; [exists "7.0.9_1"; apply Hv; vm_compute; reflexivity|]. constructor; [exists "7.0.10_1"; apply Hv; vm_compute; reflexivity|constructor].
Defined.

(** * Decoders

    Tokens as texts: a token is a number and a text, a list of these is a binary
    number, written out after a zero; so that what is written can be read. The texts
    of this repository are shorter names. *)
Fixpoint of_bits (p : positive) : string := match p with xH => "" | xO p => String "0" (of_bits p) | xI p => String "1" (of_bits p) end.
Fixpoint to_bits (s : string) : positive :=
  match s with EmptyString => xH | String c s => if Ascii.eqb c "0" then xO (to_bits s) else xI (to_bits s) end.
Lemma to_of_bits p : to_bits (of_bits p) = p.
Proof. by induction p as [p IH|p IH|]; simpl; rewrite ?IH. Qed.
Definition code (t : token) : nat * string := match t with Start n => (0, n) | End_ n => (1, n) | Chars s => (2, s) | _ => (3, "") end%nat.
Definition uncode (c : nat * string) : token := match c with (0, n) => Start n | (1, n) => End_ n | (2, s) => Chars s | _ => Other end%nat.
Definition plain (t : token) : Prop := match t with Broken _ => False | _ => True end.
Lemma uncode_code toks : Forall plain toks → (uncode <$> (code <$> toks)) = toks.
Proof. induction 1 as [|t toks Ht _ IH]; [done|]. rewrite !fmap_cons, IH. by destruct t. Qed.
Definition texts : list (string * list token) :=
  let key k v := elem "key" k ++ elem "string" v in
  let package n v a := [Start "plist"; Start "dict"] ++ key "pkgname" n ++ key "pkgver" v ++ key "architecture" a ++ [End_ "dict"; End_ "plist"] in
  [("A1", package "a" "a-1.0_1" "x86_64"); ("A2", package "a" "a-1.0_2" "x86_64"); ("B", package "b" "b-2_1" "noarch")].
Definition digest (b : string) : string := String.substring 0 32 (b +:+ "00112233445566778899aabbccddeeff").
Definition entry (b name ver arch : string) : IndexOut := mk_IndexOut (mk_Props name ver "" arch "" "" "" "" 0 "" [] []) (hex_encode (digest b)) (len b).
Definition the_index : list token := WriteIndexPlist [entry "A2" "a" "a-1.0_2" "x86_64"; entry "B" "b" "b-2_1" "noarch"].
Definition the_meta : list token := [Start "plist"; Start "dict"] ++
  (writeDataField (λ s, s) "public-key" "PEM" ++ writeIntField "public-key-size" 2048 ++ writeStringField "signature-by" "Khrazhevnik" ++ writeStringField "signature-type" "rsa") ++
  [End_ "dict"; End_ "plist"].
Definition same (toks toks' : list token) : bool := bool_decide ((code <$> toks) = (code <$> toks')).
Definition encode_xml (toks : list token) : string :=
  if same toks the_index then "X" else if same toks the_meta then "M" else String "0" (of_bits (encode (code <$> toks))).
Definition tokens_of (b : string) : list token :=
  if String.eqb b "X" then the_index else if String.eqb b "M" then the_meta
  else match b with
  | String "0" s => match decode (to_bits s) with Some l => uncode <$> (l : list (nat * string)) | None => [] end
  | _ => default [] (snd <$> List.find (λ t, String.eqb t.1 b) texts)
  end.
Definition xml (b : string * option error) : list token := wire (tokens_of b.1).
Lemma escaped_idem s : escaped (escaped s) = escaped s.
Proof.
  unfold escaped at 1. unfold escaped at 1. rewrite runes_concat by apply escaped_rune_ok. unfold escaped. rewrite map_map. f_equal. apply map_ext.
  intros r. destruct (illegal_rune r) eqn:Hr; [reflexivity|]. by rewrite Hr.
Qed.
Lemma wire_texts toks : Forall admitted_text (wire toks).
Proof.
  unfold wire. do 3 (constructor; [done|]). generalize false. induction toks as [|t toks IH]; intros b; [constructor|].
  destruct t; simpl; [constructor; [done|]; constructor; [done|apply IH]|destruct b; repeat (constructor; [done|]); apply IH| |constructor; [done|apply IH]..].
  destruct (String.eqb s ""); [apply IH|]. constructor; [apply escaped_idem|apply IH].
Qed.
Lemma index_plain es : Forall plain (WriteIndexPlist es).
Proof.
  assert (∀ k v, Forall plain (writeStringField k v)) as Hs by (intros k v; unfold writeStringField; destruct (String.eqb v ""); repeat constructor).
  assert (∀ k v, Forall plain (writeIntField k v)) as Hi by (intros k v; unfold writeIntField; destruct (v =? 0); repeat constructor).
  assert (∀ k v, Forall plain (writeArrayField k v)) as Ha.
  { intros k [|x v]; [constructor|]. unfold writeArrayField. apply Forall_app. split; [repeat constructor|]. apply Forall_app. split; [repeat constructor|].
    apply Forall_app. split; [|repeat constructor]. apply Forall_bind, Forall_forall. repeat constructor. }
  unfold WriteIndexPlist. apply Forall_app. split; [repeat constructor|]. apply Forall_app. split; [|repeat constructor].
  apply Forall_bind, Forall_forall. intros e _. unfold writeIndexEntry, writeKey. repeat (apply Forall_app; split; [by auto; repeat constructor|]). by auto; repeat constructor.
Qed.
Lemma same_eq toks toks' : Forall plain toks → Forall plain toks' → same toks toks' = true → toks = toks'.
Proof. intros H1 H2 He%bool_decide_eq_true. by rewrite <- (uncode_code toks), He, uncode_code. Qed.
Lemma tokens_of_written (l : list (nat * string)) : tokens_of (String "0" (of_bits (encode l))) = uncode <$> l.
Proof.
  unfold tokens_of. set (b := of_bits (encode l)). change (String.eqb (String "0" b) "X") with false. change (String.eqb (String "0" b) "M") with false. cbv iota.
  subst b. rewrite to_of_bits, decode_encode. done.
Qed.
Lemma xml_encoded es : xml (encode_xml (WriteIndexPlist es), None) = wire (WriteIndexPlist es).
Proof.
  unfold xml, encode_xml. cbn [fst]. pose proof (index_plain es) as Hp.
  destruct (same (WriteIndexPlist es) the_index) eqn:H1; [apply same_eq in H1 as ->; [done|done|apply index_plain]|].
  destruct (same (WriteIndexPlist es) the_meta) eqn:H2; [apply same_eq in H2 as ->; [done|done|repeat constructor]|].
  by rewrite tokens_of_written, uncode_code.
Qed.

(** * The repository *)
Definition archive : string := zstdMagic +:+ "P".
Definition the_files : list (string * string) := [("index.plist", "X"); ("index-meta.plist", "M"); ("stage.plist", "")].
Definition pack (ms : list (string * string)) : res string := if decide (ms = the_files) then Ok archive else Err (Text "tar").
Definition unzstd (b : string) : res stream := Ok ([b], None).
Definition untar (s : stream) : list member * option error :=
  match s.1 with
  | [b] => (if String.eqb b archive then (λ m, mk_member true m.1 (len m.2) (m.2, None)) <$> the_files else [mk_member true "./props.plist" (len b) (b, None)], None)
  | _ => ([], None)
  end.
Definition open_package : string → res Props := OpenPackage unzstd (λ _, Err (Text "gzip")) (λ b, [b]) untar xml (λ s, s) (λ s, s).
Definition signer : RsaSigner := mk_RsaSigner (Ok "PEM") (λ d, Ok ("2" +:+ d)) (λ d, Ok ("1" +:+ d)).
Definition repo : Repo := mk_Repo 7 1 "mine" "xbps" (mk_Quota 0 0) (mk_Retention 0 0) 0.
Definition store : FakeStorage := mk_FakeStorage (<["repo/7/xbps/a-1.0_1.x86_64.xbps" := ("A1", 1)]> (<["repo/7/xbps/a-1.0_2.x86_64.xbps" := ("A2", 2)]>
  (<["repo/7/xbps/b-2_1.noarch.xbps" := ("B", 3)]> (<["repo/8/xbps/b-2_1.noarch.xbps" := ("C", 3)]> ∅)))) 4.
Definition generate := GenerateIndexes (S := FakeStorage) open_package digest encode_xml (λ s, s) pack (λ _, Ok 2048) String.eqb (λ s, s) (λ s, s) (Some signer) (λ _, None) repo.
Definition after : FakeStorage := (generate store).2.
Lemma generated_ok : generate store = (None, after).
Proof. unfold after. assert ((generate store).1 = None) as Hn by (vm_compute; reflexivity). destruct (generate store) as [e s]. simpl in Hn. by subst e. Qed.
Example after_keys : sorted_keys (objects after) = ["repo/7/xbps/a-1.0_1.x86_64.xbps"; "repo/7/xbps/a-1.0_1.x86_64.xbps.sig"; "repo/7/xbps/a-1.0_1.x86_64.xbps.sig2";
  "repo/7/xbps/a-1.0_2.x86_64.xbps"; "repo/7/xbps/a-1.0_2.x86_64.xbps.sig"; "repo/7/xbps/a-1.0_2.x86_64.xbps.sig2"; "repo/7/xbps/b-2_1.noarch.xbps";
  "repo/7/xbps/b-2_1.noarch.xbps.sig"; "repo/7/xbps/b-2_1.noarch.xbps.sig2"; "repo/7/xbps/x86_64-repodata"; "repo/8/xbps/b-2_1.noarch.xbps"].
Proof. vm_compute. reflexivity. Qed.
Lemma xml_admitted b : Forall admitted_text (xml b).
Proof. apply wire_texts. Qed.
Lemma digest_length b : String.length (digest b) = 32%nat.
Proof.
  unfold digest. pose proof (substr_len 0 32 (b +:+ "00112233445566778899aabbccddeeff")) as Hs. unfold substr, len in Hs. rewrite length_app_str in Hs.
  change (String.length "00112233445566778899aabbccddeeff") with 32%nat in Hs. change (Z.to_nat 0) with 0%nat in Hs. change (Z.to_nat 32) with 32%nat in Hs. lia.
Qed.
Lemma pack_decodes ms data : pack ms = Ok data → String.substring 0 4 data = zstdMagic ∧
  ∃ chunks, unzstd data = Ok (chunks, None) ∧ total chunks = 5 ∧ untar (chunks, None) = ((λ m, mk_member true m.1 (len m.2) (m.2, None)) <$> ms, None).
Proof.
  unfold pack. destruct (decide (ms = the_files)) as [->|]; [|done]. intros [= <-]. split; [vm_compute; reflexivity|]. exists [archive]. split_and!; [done|vm_compute; reflexivity|].
  unfold untar. cbn [fst]. by rewrite String.eqb_refl.
Qed.
Lemma packages_are_bounded_witness : ∃ p, open_package "A1" = Ok p ∧ weight p <= maxPropsSize.
Proof.
  assert (∃ p, open_package "A1" = Ok p) as [p Hp] by (eexists; vm_compute; reflexivity). exists p. split; [exact Hp|].
  exact (proj1 (packages_are_bounded unzstd (λ _, Err (Text "gzip")) (λ b, [b]) untar xml (λ s, s) (λ s, s) "A1" p xml_admitted Hp)).
Defined.
Lemma generation_is_faithful_witness : ∃ records : list pkgRecord, (∀ k, k ∈ rc_key <$> records ↔ is_Some (contents store !! k) ∧ is_package "repo/7/xbps" k) ∧
  (∀ k, (∀ arch, k ≠ repodata_key (λ s, s) "repo/7/xbps" arch) → (∀ key, k ≠ key +:+ ".sig2" ∧ k ≠ key +:+ ".sig") → contents after !! k = contents store !! k).
Proof.
  destruct (generation_is_faithful (S := FakeStorage) open_package digest encode_xml (λ s, s) pack (λ _, Ok 2048) String.eqb (λ s, s) (λ s, s) (Some signer) (λ _, None) repo store after generated_ok)
    as (records & metaXML & Hk & _ & _ & _ & _ & Hother).
  exists records. split; [exact Hk|]. intros k Ha Hs. apply Hother; [by intros arch _|]. intros r _ _. apply Hs.
Defined.
Lemma generation_stays_inside_witness : contents (generate store).2 !! "repo/8/xbps/b-2_1.noarch.xbps" = Some "C".
Proof.
  unfold generate. rewrite (generation_stays_inside (S := FakeStorage) open_package digest encode_xml (λ s, s) pack (λ _, Ok 2048) String.eqb (λ s, s) (λ s, s) (Some signer) (λ _, None) repo store
    "repo/8/xbps/b-2_1.noarch.xbps"); [vm_compute; reflexivity|].
  change (RepoPrefix repo) with "repo/7/xbps". intros [[arch Ha]|(key & (rest & -> & _) & [Ha|Ha])]; apply (f_equal (String.get 5)) in Ha; discriminate.
Defined.
Definition upstream : Remote := mk_Remote 3 "void" "xbps" "https://example.org" ModeProxy true 0 ["x86_64"] "" None 0.
Definition Fetch (path : string) : St unit (res string) := mret (if String.eqb path "/xbps/void/x86_64-repodata" then Ok archive else Err (Text "404")).
Definition mirror : Adapter unit := mk_Adapter tt 0 ∅ 0 ∅.
Lemma after_repodata : contents after !! repodata_key (λ s, s) (RepoPrefix repo) "x86_64" = Some archive.
Proof. vm_compute. reflexivity. Qed.
(** What the packages of the store say. *)
Lemma demo_records (records : list pkgRecord) : (∀ k, k ∈ rc_key <$> records ↔ is_Some (contents store !! k) ∧ is_package (RepoPrefix repo) k) →
  Forall (λ r, record_of open_package digest String.eqb (contents store) (rc_key r) r) records →
  "x86_64" ∈ native_archs (dedupeRecords records).1 ∧ ∀ b, b ∈ native_archs (dedupeRecords records).1 → b = "x86_64".
Proof.
  intros Hk Hall. rewrite Forall_forall in Hall.
  assert (∀ r, r ∈ records → rc_name r = "a" ∧ rc_arch r = "x86_64" ∨ rc_name r = "b" ∧ rc_arch r = "noarch") as Hr.
  { intros r Hr. destruct (Hall r Hr) as (body & Hb & Ho & _). assert (is_package (RepoPrefix repo) (rc_key r)) as Hp by (apply Hk, list_elem_of_fmap; eauto).
    assert (body ∈ ["A1"; "A2"; "B"; "C"]) as Hin.
    { assert (map_Forall (λ _ b, b ∈ ["A1"; "A2"; "B"; "C"]) (contents store)) as Hm by (apply (bool_decide_unpack _); vm_compute; exact I). exact (Hm _ _ Hb). }
    rewrite !elem_of_cons in Hin. destruct r as [key props dig size]. cbn [rc_props] in *. unfold rc_name, rc_arch. cbn [rc_props].
    destruct Hin as [->|[->|[->|[->|?%elem_of_nil]]]]; [..|done]; vm_compute in Ho; [..|discriminate]; injection Ho as <-; auto. }
  assert (∀ k r, k ∈ (dedupeRecords records).1 → rc_arch k = r → r ≠ noarchArch → r = "x86_64") as Hone.
  { intros k r Hk' <- Hne. destruct (Hr k ltac:(by eapply dedupe_sub)) as [[_ ?]|[_ ?]]; [done|]. contradiction. }
  split; [|intros b (Hne & k & Hk' & Hb)%native_archs_elem; by eapply Hone].
  assert ("repo/7/xbps/a-1.0_1.x86_64.xbps" ∈ rc_key <$> records) as (r & Hkey & Hin)%list_elem_of_fmap.
  { apply Hk. split; [eexists; vm_compute; reflexivity|]. exists "a-1.0_1.x86_64.xbps". split_and!; vm_compute; reflexivity. }
  assert (rc_name r = "a") as Hn.
  { destruct (Hall r Hin) as (body & Hb & Ho & _). rewrite <- Hkey in Hb. vm_compute in Hb. injection Hb as <-. destruct r as [key props dig size]. unfold rc_name. cbn [rc_props] in *. vm_compute in Ho. by injection Ho as <-. }
  destruct (dedupe_covers rc_name (λ r kept, CompareXbpsVer (rc_ver r) (rc_ver kept)) log_replaced log_dropped records r Hin) as (k & Hk' & Hkn). apply native_archs_elem. split; [vm_compute; discriminate|]. exists k. split; [exact Hk'|].
  destruct (Hr k ltac:(by eapply dedupe_sub)) as [[_ ?]|[? _]]; [done|]. rewrite Hn in Hkn. congruence.
Qed.
Example mirrored : (Enumerate Fetch (OpenRepoData unzstd untar (λ s, s) (λ s, s)) xml (λ s, s) (λ s, s) upstream (tt, mirror)).1 =
  Ok ["/a-1.0_2.x86_64.xbps"; "/b-2_1.noarch.xbps"; "/a-1.0_2.x86_64.xbps.sig2"; "/a-1.0_2.x86_64.xbps.sig"; "/b-2_1.noarch.xbps.sig2"; "/b-2_1.noarch.xbps.sig"].
Proof. vm_compute. reflexivity. Qed.
