(* ===== verification/AptStanza.v ===== *)
(** Records of the deb822 format (internal/mod/ecosystem/apt/parse.go, and
    writeStanza of gen.go): the reader with its limits, line by line, the writer, and
    what is read of what was written. *)
From S2P Require Import Prelude GoStr Domain Port.
Local Open Scope Z_scope.

Definition maxStanzas : Z := 2 ^ 20.
Definition maxFieldValue : Z := 2 ^ 20.
Definition maxFieldName : Z := 2 ^ 14.
Definition maxFieldsPerStanza : Z := 2 ^ 10.
Definition ErrTooManyStanzas : error := Text "apt: слишком много записей".
Definition ErrFieldTooLong : error := Text "apt: поле превысило лимит".
Definition ErrFieldNameTooLong : error := Text "apt: имя поля превысило лимит".
Definition ErrNoColon : error := Text "apt: строка без «:» и не продолжение".
Definition newline : ascii := byte 10.
Definition nl : string := String newline "".

(** * Records (the keys in the order in which they came, with their values) *)
Definition Stanza : Type := list (string * string).
Fixpoint Set_ (name value : string) (s : Stanza) : Stanza :=
  match s with
  | [] => [(name, value)]
  | (k, v) :: s => if String.eqb k name then (k, value) :: s else (k, v) :: Set_ name value s
  end.
Fixpoint Get (name : string) (s : Stanza) : string :=
  match s with [] => "" | (k, v) :: s => if String.eqb k name then v else Get name s end.
Definition Keys (s : Stanza) : list string := s.*1.
Definition Len (s : Stanza) : Z := Z.of_nat (length s).
(** [Equal] of two records that are there: the order does not count. *)
Definition Equal (s o : Stanza) : bool := (Len s =? Len o) && forallb (λ f, String.eqb (Get f.1 o) f.2) s.

(** * The reader *)
Record limits := mk_limits { lim_stanzas : Z; lim_field : Z; lim_name : Z; lim_fields : Z }.
Definition default_limits : limits := mk_limits maxStanzas maxFieldValue maxFieldName maxFieldsPerStanza.
(** [processLine]: whether the record is complete, the record, and the name of the
    field that a line may continue. *)
Definition is_blank (c : ascii) : bool := Ascii.eqb c " " || Ascii.eqb c (byte 9).
Definition processLine (line : string) (cur : Stanza) (lastName : string) (lim : limits) : res (bool * Stanza * string) :=
  match line with
  | EmptyString => Ok (negb (Len cur =? 0), cur, lastName)
  | String c cont =>
      if is_blank c then
        if String.eqb lastName "" then Ok (false, cur, lastName)
        else
          let joined := Get lastName cur +:+ nl +:+ cont in
          if lim_field lim <? len joined then Err ErrFieldTooLong else Ok (false, Set_ lastName joined cur, lastName)
      else
        let '(name, val, colon) := cut ":" line in
        if negb colon then Err ErrNoColon
        else if lim_name lim <? len name then Err ErrFieldNameTooLong
        else
          let val := trim_prefix val " " in
          if lim_field lim <? len val then Err ErrFieldTooLong
          else
            let cur := Set_ name val cur in
            if lim_fields lim <? Len cur then Err ErrFieldTooLong else Ok (false, cur, name)
  end.
(** [readLine] of a line of the text: whether it is refused. The reader of bufio hands
    out 4096 bytes at a time, and what has been gathered of a line is compared with the
    limit each time; the last piece of a line with an end is not. *)
Definition bufio_size : Z := 4096.
Definition line_refused (max : Z) (line : string) (eof : bool) : bool :=
  (max <? bufio_size * (len line / bufio_size)) || (eof && (max <? len line)).
Definition trim_cr (s : string) : string := trim_suffix s (String (byte 13) "").
(** [stanzas] over the lines of a text that ends as [fin] says (in a failure of its
    reader, or not): the records that it yields, and its error. *)
Section reader.
  Context (lim : limits) (fin : option error).
Fixpoint stanza_lines (lines : list string) (cur : Stanza) (lastName : string) (count : Z) : list Stanza * option error :=
  match lines with
  | [] => ([], None)
  | line :: rest =>
      let eof := match rest with [] => true | _ => false end in
      if line_refused (lim_field lim + lim_name lim + 2) line (eof && bool_decide (fin = None)) then ([], Some ErrFieldTooLong)
      else match (if eof then fin else None) with
      | Some e => ([], Some e)
      | None =>
          match processLine (trim_cr line) cur lastName lim with
          | Err e => ([], Some e)
          | Ok (completed, cur, lastName) =>
              if completed then
                if lim_stanzas lim <=? count then ([], Some ErrTooManyStanzas) else prod_map (cons cur) id (stanza_lines rest [] "" (count + 1))
              else if eof && (0 <? Len cur) then (if lim_stanzas lim <=? count then ([], Some ErrTooManyStanzas) else ([cur], None))
              else stanza_lines rest cur lastName count
          end
      end
  end.
End reader.
Definition stanzas (lim : limits) (text : string) (fin : option error) : list Stanza * option error :=
  stanza_lines lim fin (split newline text) [] "" 0.
Definition Stanzas (text : string) (fin : option error) : list Stanza * option error := stanzas default_limits text fin.

(** * The writer *)
Definition write_field (f : string * string) : string :=
  let '(k, v) := f in
  if negb (contains v nl) then k +:+ ": " +:+ v +:+ nl
  else match split newline v with
  | [] => ""
  | l0 :: ls => k +:+ ": " +:+ l0 +:+ nl +:+ String.concat "" (map (λ l, if String.eqb l "" then " ." +:+ nl else " " +:+ l +:+ nl) ls)
  end.
Definition writeStanza (s : Stanza) : string := String.concat "" (map write_field s).

Definition text_of (lines : list string) : string := String.concat "" (map (λ l, l +:+ nl) lines).
Example read_control : Stanzas (text_of ["Package: a"; "Description: one"; " two"; " ."; "  three"; ""; ""; "A:b"; " c"]) None =
  ([[("Package", "a"); ("Description", "one" +:+ nl +:+ "two" +:+ nl +:+ "." +:+ nl +:+ " three")]; [("A", "b" +:+ nl +:+ "c")]], None).
Proof. vm_compute. reflexivity. Qed.
Example read_errors : Stanzas (text_of ["A: b"; ""; "no colon"]) None = ([[("A", "b")]], Some ErrNoColon) ∧
  stanzas (mk_limits 1 9 9 9) (text_of ["A: b"; ""; "C: d"]) None = ([[("A", "b")]], Some ErrTooManyStanzas) ∧
  stanzas (mk_limits 9 3 9 9) (text_of ["A: b"; " cd"]) None = ([], Some ErrFieldTooLong) ∧
  stanzas (mk_limits 9 9 9 1) (text_of ["A: b"; "C: d"]) None = ([], Some ErrFieldTooLong) ∧
  Stanzas ("A: b" +:+ nl +:+ "C: d") (Some (Text "cut")) = ([], Some (Text "cut")).
Proof. vm_compute. done. Qed.

(** * What is written is read *)
Lemma split_lines lines rest : Forall (λ l, no_sep newline l = true) lines → split newline (text_of lines +:+ rest) = lines ++ split newline rest.
Proof.
  unfold text_of. induction 1 as [|l lines Hl _ IH]; [done|]. cbn [map]. rewrite concat_empty_cons, <- !app_assoc.
  change (nl +:+ ?x) with (String newline x). rewrite split_app, split_nosep by done. cbn [app]. f_equal. exact IH.
Qed.
Lemma text_of_app a b : text_of (a ++ b) = text_of a +:+ text_of b.
Proof. unfold text_of. induction a as [|l a IH]; [done|]. cbn [app map]. rewrite !concat_empty_cons, IH. by rewrite app_assoc. Qed.
(** The lines of a field: an empty line becomes a dot. *)
Definition continued (l : string) : string := if String.eqb l "" then "." else l.
Definition field_lines (f : string * string) : list string :=
  match split newline f.2 with [] => [] | l0 :: ls => (f.1 +:+ ": " +:+ l0) :: map (λ l, " " +:+ continued l) ls end.
Lemma contains_newline s : contains s nl = negb (no_sep newline s).
Proof.
  unfold nl, no_sep. induction s as [|c s IH]; [done|]. cbn [contains all_bytes]. rewrite IH. unfold has_prefix. cbn [strip_prefix].
  destruct (Ascii.eqb_spec newline c) as [->|]; [done|]. by destruct s.
Qed.
Lemma write_field_lines f : write_field f = text_of (field_lines f).
Proof.
  destruct f as [k v]. unfold write_field, field_lines. cbn [fst snd]. rewrite contains_newline, negb_involutive. unfold text_of.
  destruct (no_sep newline v) eqn:Hv.
  - rewrite split_nosep by done. cbn [map]. rewrite concat_empty_cons, <- !app_assoc. cbn [String.concat]. by rewrite app_nil_r.
  - destruct (split newline v) as [|l0 ls]; [done|]. cbn [map]. rewrite concat_empty_cons, <- !app_assoc, map_map. do 5 f_equal. apply map_ext.
    intros l. unfold continued. by destruct (String.eqb l "").
Qed.
Lemma writeStanza_lines s : writeStanza s = text_of (s ≫= field_lines).
Proof. unfold writeStanza. induction s as [|f s IH]; [done|]. cbn [map]. by rewrite concat_empty_cons, IH, write_field_lines, bind_cons, text_of_app. Qed.

(** What becomes of a value: empty lines are dots, and a carriage return at the end of
    a line is taken for a part of its end. *)
Definition settled (v : string) : string :=
  match split newline v with [] => "" | l0 :: ls => String.concat nl (trim_cr l0 :: map (λ l, trim_cr (continued l)) ls) end.
Record field_ok (lim : limits) (f : string * string) : Prop := {
  fo_name : no_sep ":" f.1 = true ∧ no_sep newline f.1 = true ∧ len f.1 <= lim_name lim;
  fo_start : match f.1 with String c _ => is_blank c = false | EmptyString => no_sep newline f.2 = true end;
  fo_size : len f.2 <= lim_field lim ∧ len (settled f.2) <= lim_field lim
}.
Record stanza_ok (lim : limits) (s : Stanza) : Prop := {
  so_fields : Forall (field_ok lim) s;
  so_keys : NoDup (Keys s);
  so_count : s ≠ [] ∧ Len s <= lim_fields lim
}.
Lemma Set_new name v s : name ∉ Keys s → Set_ name v s = s ++ [(name, v)].
Proof.
  unfold Keys. induction s as [|[k w] s IH]; [done|]. rewrite fmap_cons, not_elem_of_cons. intros [Hn Hs]. cbn [Set_ app].
  cbn [fst] in Hn. rewrite (proj2 (String.eqb_neq k name)) by done. by rewrite IH.
Qed.
Lemma Set_last name v w s : name ∉ Keys s → Set_ name v (s ++ [(name, w)]) = s ++ [(name, v)].
Proof.
  unfold Keys. induction s as [|[k x] s IH]; [cbn; by rewrite String.eqb_refl|]. rewrite fmap_cons, not_elem_of_cons. intros [Hn Hs]. cbn [Set_ app].
  cbn [fst] in Hn. rewrite (proj2 (String.eqb_neq k name)) by done. by rewrite IH.
Qed.
Lemma Get_last name v s : name ∉ Keys s → Get name (s ++ [(name, v)]) = v.
Proof.
  unfold Keys. induction s as [|[k x] s IH]; [cbn; by rewrite String.eqb_refl|]. rewrite fmap_cons, not_elem_of_cons. intros [Hn Hs]. cbn [Get app].
  cbn [fst] in Hn. rewrite (proj2 (String.eqb_neq k name)) by done. by apply IH.
Qed.
Lemma trim_cr_spec s : trim_cr s = s ∨ s = trim_cr s +:+ String (byte 13) "".
Proof.
  unfold trim_cr, trim_suffix. destruct (strip_suffix _ s) as [r|] eqn:Hs; [|by left]. apply strip_suffix_Some in Hs. by right.
Qed.
Lemma trim_cr_ends s : trim_cr (s +:+ String (byte 13) "") = s.
Proof. unfold trim_cr, trim_suffix. by rewrite (proj2 (strip_suffix_Some _ _ s)). Qed.
Lemma trim_cr_keeps s : (∀ r, s ≠ r +:+ String (byte 13) "") → trim_cr s = s.
Proof. intros Hn. destruct (trim_cr_spec s) as [?|Hs]; [done|]. by apply Hn in Hs. Qed.
Lemma trim_cr_app p s : s ≠ "" → trim_cr (p +:+ s) = p +:+ trim_cr s.
Proof.
  intros Hs. destruct (trim_cr_spec s) as [He|He].
  - rewrite He. apply trim_cr_keeps. intros r Hr. assert (∃ r', s = r' +:+ String (byte 13) "") as [r' Hr'].
    { pose proof (last_byte_app p s Hs) as Hl. rewrite Hr, last_byte_app in Hl by done. symmetry in Hl. apply last_byte_snoc in Hl as [t ->]. by exists t. }
    rewrite Hr' in He. rewrite trim_cr_ends in He. apply (f_equal String.length) in He. rewrite length_app_str in He. simpl in He. lia.
  - rewrite He at 1. rewrite app_assoc. by rewrite trim_cr_ends.
Qed.
Lemma trim_cr_len s : len (trim_cr s) <= len s.
Proof. destruct (trim_cr_spec s) as [->|He]; [lia|]. unfold len. rewrite He at 2. rewrite length_app_str. lia. Qed.
Section written.
  Context (lim : limits).
  Hypothesis name_nonneg : 0 <= lim_name lim.
Lemma short_line line eof : len line <= lim_field lim + lim_name lim + 2 → line_refused (lim_field lim + lim_name lim + 2) line eof = false.
Proof.
  intros Hl. unfold line_refused. pose proof (len_nonneg line). assert (bufio_size * (len line / bufio_size) <= len line) by (apply Z.mul_div_le; done).
  rewrite (proj2 (Z.ltb_ge _ (len line))), (proj2 (Z.ltb_ge _ (bufio_size * _))) by lia. by rewrite andb_false_r.
Qed.
Lemma continued_line rest cur k w l count : rest ≠ [] → k ∉ Keys cur → k ≠ "" → len l <= lim_field lim →
  len (w +:+ nl +:+ trim_cr (continued l)) <= lim_field lim →
  stanza_lines lim None ((" " +:+ continued l) :: rest) (cur ++ [(k, w)]) k count =
  stanza_lines lim None rest (cur ++ [(k, w +:+ nl +:+ trim_cr (continued l))]) k count.
Proof.
  intros Hr Hk Hne Hl Hw. cbn [stanza_lines]. destruct rest as [|r rest]; [done|]. rewrite short_line.
  2:{ rewrite len_app. change (len " ") with 1. rewrite !len_app in Hw. pose proof (len_nonneg w). change (len nl) with 1 in Hw.
    unfold continued. destruct (String.eqb l ""); [change (len ".") with 1|]; pose proof (len_nonneg (trim_cr (continued l))); lia. }
  rewrite trim_cr_app by (unfold continued; by destruct (String.eqb_spec l "")). change (" " +:+ ?x) with (String " " x). cbn [processLine].
  change (is_blank " ") with true. cbn iota. rewrite (proj2 (String.eqb_neq k "")) by done. rewrite Get_last by done.
  rewrite (proj2 (Z.ltb_ge _ _)) by done. rewrite Set_last by done. done.
Qed.
Definition tailed (ls : list string) : string := String.concat "" (map (λ l, nl +:+ trim_cr (continued l)) ls).
Lemma continued_lines ls : ∀ rest cur k w count, rest ≠ [] → k ∉ Keys cur → k ≠ "" → Forall (λ l, len l <= lim_field lim) ls →
  len (w +:+ tailed ls) <= lim_field lim →
  stanza_lines lim None (map (λ l, " " +:+ continued l) ls ++ rest) (cur ++ [(k, w)]) k count = stanza_lines lim None rest (cur ++ [(k, w +:+ tailed ls)]) k count.
Proof.
  unfold tailed. induction ls as [|l ls IH]; intros rest cur k w count Hr Hk Hne Hl Hw; [cbn; by rewrite app_nil_r|].
  apply Forall_cons in Hl as [Hl Hls]. cbn [map app] in *. rewrite concat_empty_cons in *. rewrite app_assoc in Hw.
  rewrite continued_line; [|by destruct ls|done|done|done|].
  - rewrite IH by done. by rewrite <- app_assoc.
  - rewrite len_app in Hw. pose proof (len_nonneg (String.concat "" (map (λ l, nl +:+ trim_cr (continued l)) ls))). lia.
Qed.
Lemma settled_lines l0 ls v : split newline v = l0 :: ls → settled v = trim_cr l0 +:+ tailed ls.
Proof.
  intros Hs. unfold settled, tailed. rewrite Hs. generalize (trim_cr l0). clear. induction ls as [|l ls IH]; intros x; [cbn; by rewrite app_nil_r|].
  cbn [map]. rewrite concat_empty_cons. change nl with (String newline ""). rewrite concat_cons. change (String newline "") with nl. rewrite IH. by rewrite <- app_assoc.
Qed.
Lemma split_len v : Forall (λ l, len l <= len v) (split newline v).
Proof.
  induction v as [|c v IH]; [by repeat constructor|]. cbn [split]. change (len (String c v)) with (Z.of_nat (Datatypes.S (String.length v))).
  assert (∀ l, len l <= len v → len l <= Z.of_nat (Datatypes.S (String.length v))) as Hle by (unfold len; lia).
  destruct (Ascii.eqb newline c); [apply Forall_cons; split; [unfold len; simpl; lia|by eapply Forall_impl]|].
  pose proof (split_nonempty newline v) as Hne. destruct (split newline v) as [|x xs]; [done|]. apply Forall_cons in IH as [Hx Hxs].
  apply Forall_cons. split; [unfold len in *; simpl; lia|by eapply Forall_impl].
Qed.
Lemma stanza_field_read f rest cur last count : field_ok lim f → rest ≠ [] → f.1 ∉ Keys cur → Len cur + 1 <= lim_fields lim →
  stanza_lines lim None (field_lines f ++ rest) cur last count = stanza_lines lim None rest (cur ++ [(f.1, settled f.2)]) f.1 count.
Proof.
  intros [(Hn1 & Hn2 & Hn3) Hst [Hv1 Hv2]] Hr Hk Hc. destruct f as [k v]. cbn [fst snd] in *. unfold field_lines. cbn [fst snd].
  pose proof (split_len v) as Hlens. destruct (split newline v) as [|l0 ls] eqn:Hs; [by destruct (split_nonempty newline v)|].
  apply Forall_cons in Hlens as [Hl0 Hls]. rewrite (settled_lines l0 ls v Hs) in *. cbn [app stanza_lines].
  destruct (map (λ l, " " +:+ continued l) ls ++ rest) as [|r0 rs] eqn:Hrest; [by destruct ls, rest|]. rewrite <- Hrest. cbn [andb]. rewrite short_line.
  2:{ rewrite !len_app. change (len ": ") with 2. lia. }
  assert (trim_cr (k +:+ ": " +:+ l0) = k +:+ ": " +:+ trim_cr l0) as ->.
  { destruct (String.eqb_spec l0 "") as [->|Hne]; [|by rewrite app_assoc, trim_cr_app, <- app_assoc].
    by rewrite (trim_cr_app k). }
  assert (processLine (k +:+ ": " +:+ trim_cr l0) cur last lim = Ok (false, cur ++ [(k, trim_cr l0)], k)) as ->.
  { assert (∀ c cont, k +:+ ": " +:+ trim_cr l0 = String c cont → is_blank c = false) as Hb.
    { intros c cont Heq. destruct k as [|d k]; [by injection Heq as <- _|]. by injection Heq as <- _. }
    destruct (k +:+ ": " +:+ trim_cr l0) as [|c cont] eqn:Hline; [by destruct k|]. unfold processLine. rewrite (Hb c cont) by done. rewrite <- Hline.
    change (": " +:+ trim_cr l0) with (String ":" (" " +:+ trim_cr l0)). rewrite cut_app by done. cbn [negb].
    rewrite (proj2 (Z.ltb_ge _ _)) by done. rewrite trim_prefix_app. pose proof (trim_cr_len l0).
    rewrite (proj2 (Z.ltb_ge _ _)) by lia. rewrite Set_new by done. unfold Len in *. rewrite length_app, (proj2 (Z.ltb_ge _ _)) by (simpl; lia). done. }
  cbn [andb]. destruct (String.eqb_spec k "") as [->|Hne].
  - assert (ls = []) as -> by (rewrite split_nosep in Hs by done; by injection Hs). cbn. by rewrite app_nil_r.
  - apply continued_lines; [done..| |done]. eapply Forall_impl; [done|]. simpl. lia.
Qed.
Definition settle (s : Stanza) : Stanza := (λ f, (f.1, settled f.2)) <$> s.
Lemma stanza_fields_read s : ∀ rest cur last count, Forall (field_ok lim) s → rest ≠ [] → NoDup (Keys cur ++ Keys s) → Len cur + Len s <= lim_fields lim →
  ∃ last', stanza_lines lim None ((s ≫= field_lines) ++ rest) cur last count = stanza_lines lim None rest (cur ++ settle s) last' count.
Proof.
  induction s as [|f s IH]; intros rest cur last count Hall Hr Hnd Hc; [exists last; cbn; by rewrite (right_id_L [] (++))|].
  apply Forall_cons in Hall as [Hf Hall]. rewrite bind_cons, <- (assoc_L (++)). unfold Keys in *. rewrite fmap_cons in Hnd.
  apply NoDup_app in Hnd as (H1 & H2 & [H3 H4]%NoDup_cons). unfold Len in *. cbn [length] in Hc.
  rewrite stanza_field_read; [|done|by destruct (s ≫= field_lines), rest|intros Hin; apply (H2 f.1 Hin); by left|unfold Len; lia].
  destruct (IH rest (cur ++ [(f.1, settled f.2)]) f.1 count) as [l' ->]; [done|done| |rewrite length_app; simpl; lia|].
  - rewrite fmap_app. cbn [fmap list_fmap fst]. apply NoDup_app. split_and!; [|intros x [Hx| ->%list_elem_of_singleton]%elem_of_app|done].
    + apply NoDup_app. split_and!; [done| |apply NoDup_singleton]. intros x Hx ->%list_elem_of_singleton. apply (H2 f.1 Hx). by left.
    + intros Hx'. apply (H2 x Hx). by right.
    + done.
  - exists l'. rewrite <- (assoc_L (++)). done.
Qed.
End written.
(** A file of records, as the generator writes it: an empty line after each. *)
Definition packages_text (ss : list Stanza) : string := String.concat "" (map (λ s, writeStanza s +:+ nl) ss).
Lemma packages_lines ss : packages_text ss = text_of (ss ≫= λ s, (s ≫= field_lines) ++ [""]).
Proof.
  unfold packages_text. induction ss as [|s ss IH]; [done|]. cbn [map]. rewrite concat_empty_cons, IH, bind_cons, !text_of_app, writeStanza_lines. done.
Qed.
Lemma field_lines_plain lim f : field_ok lim f → Forall (λ l, no_sep newline l = true) (field_lines f).
Proof.
  intros [(_ & Hn & _) _ _]. unfold field_lines. pose proof (split_no_sep newline f.2) as Hs. destruct (split newline f.2) as [|l0 ls]; [done|].
  apply Forall_cons in Hs as [H0 Hs]. unfold no_sep in *. constructor; [by rewrite !all_bytes_app, Hn, H0|]. apply Forall_fmap. eapply Forall_impl; [done|].
  intros l Hl. cbn. unfold continued. by destruct (String.eqb l "").
Qed.
Section files.
  Context (lim : limits).
  Hypothesis name_nonneg : 0 <= lim_name lim.
  Hypothesis field_nonneg : 0 <= lim_field lim.
Lemma empty_line rest cur last count : rest ≠ [] → cur ≠ [] → count < lim_stanzas lim →
  stanza_lines lim None ("" :: rest) cur last count = prod_map (cons cur) id (stanza_lines lim None rest [] "" (count + 1)).
Proof.
  intros Hr Hc Hn. cbn [stanza_lines]. rewrite short_line by (change (len "") with 0; lia). destruct rest as [|r rest]; [done|].
  change (trim_cr "") with "". cbn [processLine]. unfold Len. destruct cur; [done|]. cbn [length]. rewrite (proj2 (Z.eqb_neq _ 0)) by lia. cbn [negb].
  by rewrite (proj2 (Z.leb_gt _ _)) by lia.
Qed.
Lemma records_read ss : ∀ count, Forall (stanza_ok lim) ss → count + Z.of_nat (length ss) <= lim_stanzas lim →
  stanza_lines lim None ((ss ≫= λ s, (s ≫= field_lines) ++ [""]) ++ [""]) [] "" count = (settle <$> ss, None).
Proof.
  induction ss as [|s ss IH]; intros count Hall Hc.
  - cbn [mbind list_bind app stanza_lines]. by rewrite short_line by (change (len "") with 0; lia).
  - apply Forall_cons in Hall as [[Hf Hk [Hne Hl]] Hall]. cbn [length] in Hc. rewrite bind_cons, <- !(assoc_L (++)).
    destruct (stanza_fields_read lim name_nonneg s ([""] ++ (ss ≫= λ s, (s ≫= field_lines) ++ [""]) ++ [""]) [] "" count) as [last' ->]; [done|done|done|unfold Len in *; simpl; lia|].
    cbn [app]. rewrite empty_line; [|intros Heq; apply app_eq_nil in Heq as [_ ?]; done|by destruct s|lia]. rewrite IH by (done || lia). done.
Qed.

(** What the generator writes is read back. *)
Lemma stanzas_read ss : Forall (stanza_ok lim) ss → Z.of_nat (length ss) <= lim_stanzas lim →
  stanzas lim (packages_text ss) None = (settle <$> ss, None).
Proof.
  intros Hall Hc. unfold stanzas. rewrite packages_lines, <- (app_nil_r (text_of _)), split_lines; [by apply records_read; [|lia]|].
  apply Forall_bind. eapply Forall_impl; [exact Hall|]. intros s [Hf _ _]. apply Forall_app. split; [|by repeat constructor].
  apply Forall_bind. eapply Forall_impl; [exact Hf|]. apply field_lines_plain.
Qed.
End files.
(** Values that the format carries. *)
Lemma settled_plain v : Forall (λ l, trim_cr l = l) (split newline v) → (match split newline v with [] => True | _ :: ls => "" ∉ ls end) → settled v = v.
Proof.
  intros Ht Hn. unfold settled. rewrite <- (concat_split newline v) at 2. destruct (split newline v) as [|l0 ls]; [done|].
  apply Forall_cons in Ht as [-> Ht]. unfold nl. do 2 f_equal. clear l0. induction ls as [|l ls IH]; [done|].
  apply Forall_cons in Ht as [Hl Ht]. apply not_elem_of_cons in Hn as [Hne Hn]. cbn [map]. rewrite IH by done.
  unfold continued. by rewrite (proj2 (String.eqb_neq l "")), Hl by done.
Qed.

(** * What the reader yields, whatever the text *)
Lemma cut_no_sep c s l r : cut c s = (l, r, true) → no_sep c l = true.
Proof.
  revert l r. induction s as [|d s IH]; intros l r; [done|]. cbn [cut]. destruct (Ascii.eqb_spec c d) as [|Hne]; [by intros [= <- _]|].
  destruct (cut c s) as [[l' r'] ok] eqn:Hc. intros [= <- -> ->]. unfold no_sep in *. cbn [all_bytes]. rewrite (IH l' r) by done.
  by rewrite (proj2 (Ascii.eqb_neq c d)).
Qed.
Section bounded.
  Context (lim : limits) (fin : option error).
(** The fields of a record being read. *)
Record field_fit (f : string * string) : Prop := {
  ff_name : no_sep ":" f.1 = true ∧ no_sep newline f.1 = true ∧ len f.1 <= lim_name lim;
  ff_start : match f.1 with String c _ => is_blank c = false | EmptyString => no_sep newline f.2 = true end;
  ff_size : len f.2 <= lim_field lim
}.
Record stanza_fit (s : Stanza) : Prop := { sf_fields : Forall field_fit s; sf_keys : NoDup (Keys s); sf_count : Len s <= lim_fields lim }.
Lemma Set_keys name v s : Keys (Set_ name v s) = if decide (name ∈ Keys s) then Keys s else Keys s ++ [name].
Proof.
  unfold Keys. induction s as [|[k w] s IH]; [done|]. cbn [Set_]. destruct (String.eqb_spec k name) as [->|Hne].
  - rewrite !fmap_cons. cbn [fst]. by rewrite decide_True by by left.
  - rewrite !fmap_cons, IH. cbn [fst]. destruct (decide (name ∈ s.*1)) as [Hin|Hin].
    + by rewrite decide_True by by right.
    + rewrite decide_False; [done|]. intros [?|?]%elem_of_cons; congruence.
Qed.
Lemma Set_fit name v s : Forall field_fit s → field_fit (name, v) → Forall field_fit (Set_ name v s).
Proof.
  intros Hs Hf. induction Hs as [|[k w] s Hk Hs IH]; [by apply Forall_singleton|]. cbn [Set_]. destruct (String.eqb_spec k name) as [->|]; by constructor.
Qed.
Lemma Set_nodup name v s : NoDup (Keys s) → NoDup (Keys (Set_ name v s)).
Proof.
  intros Hn. rewrite Set_keys. destruct (decide _) as [|Hin]; [done|]. apply NoDup_app. split_and!; [done| |apply NoDup_singleton].
  by intros x Hx ->%list_elem_of_singleton.
Qed.
Lemma Get_fit name s : Forall field_fit s → name ∈ Keys s → field_fit (name, Get name s).
Proof.
  induction 1 as [|[k w] s Hk Hs IH]; [by intros ?%elem_of_nil|]. unfold Keys in *. rewrite fmap_cons. cbn [Get fst].
  destruct (String.eqb_spec k name) as [->|Hne]; [done|]. intros [?|?]%elem_of_cons; [congruence|auto].
Qed.
Lemma processLine_fit line cur last completed cur' last' : no_sep newline line = true → stanza_fit cur → (last ≠ "" → last ∈ Keys cur) →
  processLine line cur last lim = Ok (completed, cur', last') → stanza_fit cur' ∧ (last' ≠ "" → last' ∈ Keys cur') ∧ (completed = true → cur' ≠ []).
Proof.
  intros Hl Hs Hlast. unfold processLine. destruct line as [|c cont].
  - intros [= <- <- <-]. split_and!; [done|done|]. unfold Len. by destruct cur.
  - destruct (is_blank c) eqn:Hb.
    + destruct (String.eqb_spec last "") as [->|Hne]; [by intros [= <- <- <-]|]. destruct (Z.ltb_spec (lim_field lim) (len (Get last cur +:+ nl +:+ cont))) as [|Hle]; [done|].
      intros [= <- <- <-]. specialize (Hlast Hne). destruct Hs as [Hf Hk Hc]. pose proof (Get_fit last cur Hf Hlast) as [Fn Fs _]. cbn [fst snd] in *.
      assert (Keys (Set_ last (Get last cur +:+ nl +:+ cont) cur) = Keys cur) as Hkeys by (by rewrite Set_keys, decide_True).
      split_and!; [split|rewrite Hkeys; done|done].
      * apply Set_fit; [done|]. split; cbn [fst snd]; [done|by destruct last|done].
      * by rewrite Hkeys.
      * unfold Len in *. apply (f_equal length) in Hkeys. unfold Keys in Hkeys. rewrite !length_fmap in Hkeys. by rewrite Hkeys.
    + destruct (cut ":" (String c cont)) as [[name val] colon] eqn:Hcut. destruct colon; [|done]. cbn [negb].
      destruct (Z.ltb_spec (lim_name lim) (len name)) as [|Hn]; [done|]. destruct (Z.ltb_spec (lim_field lim) (len (trim_prefix val " "))) as [|Hv]; [done|].
      destruct (Z.ltb_spec (lim_fields lim) (Len (Set_ name (trim_prefix val " ") cur))) as [|Hc]; [done|]. intros [= <- <- <-]. destruct Hs as [Hf Hk _].
      assert (no_sep ":" name = true) as Hcol by (by eapply cut_no_sep). pose proof Hcut as Heq%cut_found. unfold no_sep in Hl. rewrite Heq, all_bytes_app in Hl.
      apply andb_prop in Hl as [Hn1 Hn2]. cbn [all_bytes] in Hn2. apply andb_prop in Hn2 as [_ Hn2].
      split_and!; [split|intros _; rewrite Set_keys; destruct (decide _); [done|apply elem_of_app; right; by left]|done].
      * apply Set_fit; [done|]. split; cbn [fst snd]; [by split_and!| |done]. destruct name as [|d name].
        -- unfold trim_prefix. destruct (strip_prefix " " val) as [r|] eqn:Hst; [|done]. apply strip_prefix_Some in Hst. rewrite Hst, all_bytes_app in Hn2. by apply andb_prop in Hn2 as [_ ?].
        -- injection Heq as -> _. done.
      * by apply Set_nodup.
      * done.
Qed.
Lemma trim_cr_no_sep c s : no_sep c s = true → no_sep c (trim_cr s) = true.
Proof. destruct (trim_cr_spec s) as [->|He]; [done|]. unfold no_sep. rewrite He at 1. rewrite all_bytes_app. by intros [? _]%andb_prop. Qed.
Lemma stanza_lines_fit lines : ∀ cur last count, Forall (λ l, no_sep newline l = true) lines → stanza_fit cur → (last ≠ "" → last ∈ Keys cur) → 0 <= count <= lim_stanzas lim → 0 <= lim_fields lim →
  Forall (λ s, stanza_fit s ∧ s ≠ []) (stanza_lines lim fin lines cur last count).1 ∧
  count + Z.of_nat (length (stanza_lines lim fin lines cur last count).1) <= lim_stanzas lim.
Proof.
  induction lines as [|line rest IH]; intros cur last count Hl Hs Hlast Hc Hz; [split; [constructor|cbn; lia]|]. apply Forall_cons in Hl as [Hl Hrest]. cbn [stanza_lines].
  set (eof := match rest with [] => true | _ => false end). destruct (line_refused _ _ _); [split; [constructor|cbn; lia]|].
  destruct (if eof then fin else None); [split; [constructor|cbn; lia]|].
  destruct (processLine (trim_cr line) cur last lim) as [[[completed cur'] last']|e] eqn:Hp; [|split; [constructor|cbn; lia]].
  apply processLine_fit in Hp as (Hs' & Hlast' & Hne); [|by apply trim_cr_no_sep|done|done].
  destruct completed.
  - destruct (Z.leb_spec (lim_stanzas lim) count); [split; [constructor|cbn; lia]|].
    destruct (IH [] "" (count + 1)) as [H1 H2]; [done|split; [done|constructor|cbn; done]|done|lia|done|]. destruct (stanza_lines lim fin rest [] "" (count + 1)) as [out e].
    cbn [prod_map fst snd length] in *. split; [|lia]. constructor; [|done]. split; [done|by apply Hne].
  - destruct (eof && (0 <? Len cur')) eqn:He; [|by apply IH].
    destruct (Z.leb_spec (lim_stanzas lim) count); [split; [constructor|cbn; lia]|]. cbn. split; [|lia]. apply Forall_singleton. split; [done|].
    apply andb_prop in He as [_ He]. by destruct cur'.
Qed.
Lemma stanzas_fit text : 0 <= lim_fields lim → 0 <= lim_stanzas lim →
  Forall (λ s, stanza_fit s ∧ s ≠ []) (stanzas lim text fin).1 ∧ Z.of_nat (length (stanzas lim text fin).1) <= lim_stanzas lim.
Proof.
  intros Hf Hs. unfold stanzas. destruct (stanza_lines_fit (split newline text) [] "" 0) as [H1 H2]; [apply split_no_sep|split; [done|constructor|done]|done|lia|done|].
  split; [done|lia].
Qed.
End bounded.

(** C36: the reader is safe on any text, and the writer on what the reader gives.
    Whatever the text and however it breaks off, the reader yields at most a million
    records, each with at least one field, at most 1024, all of different names, and
    every name and value within its limit. Written to a file and read again, these
    records come back settled, that is, each as its text is laid out in lines; this
    holds where the settled values, in which the empty lines have become dots, keep
    the limit of a value too. A value near the limit with many empty lines does not,
    and is then refused by the reader. *)
Theorem reader_and_writer_agree text fin : let ss := (Stanzas text fin).1 in
  Z.of_nat (length ss) <= maxStanzas ∧
  Forall (λ s, s ≠ [] ∧ Len s <= maxFieldsPerStanza ∧ NoDup (Keys s) ∧ Forall (λ f, len f.1 <= maxFieldName ∧ len f.2 <= maxFieldValue) s) ss ∧
  (Forall (Forall (λ f, len (settled f.2) <= maxFieldValue)) ss → Stanzas (packages_text ss) None = (settle <$> ss, None)).
Proof.
  intros ss. destruct (stanzas_fit default_limits fin text) as [Hall Hc]; [done..|]. fold (Stanzas text fin) in Hall, Hc. fold ss in Hall, Hc. split_and!; [done| |].
  - eapply Forall_impl; [exact Hall|]. intros s [[Hf Hk Hn] Hne]. split_and!; [done..|]. eapply Forall_impl; [exact Hf|]. intros f [(_ & _ & ?) _ ?]. done.
  - intros Hset. apply stanzas_read; [done|done| |done]. rewrite Forall_forall in Hset. apply Forall_forall. intros s Hs. rewrite Forall_forall in Hall. destruct (Hall s Hs) as [[Hf Hk Hn] Hne].
    split; [|done|done]. specialize (Hset s Hs). rewrite Forall_forall in Hset, Hf. apply Forall_forall. intros f Hin. destruct (Hf f Hin) as [? ? ?]. split; [done..|]. split; [done|by apply Hset].
Qed.
Lemma reader_and_writer_agree_witness : let ss := (Stanzas ("A: b" +:+ nl +:+ " " +:+ nl +:+ " c" +:+ nl) None).1 in
  Stanzas (packages_text ss) None = (settle <$> ss, None).
Proof.
  apply (proj2 (proj2 (reader_and_writer_agree ("A: b" +:+ nl +:+ " " +:+ nl +:+ " c" +:+ nl) None))).
  assert (Stanzas ("A: b" +:+ nl +:+ " " +:+ nl +:+ " c" +:+ nl) None = ([[("A", "b" +:+ nl +:+ nl +:+ "c")]], None)) as -> by (vm_compute; reflexivity).
  repeat constructor. vm_compute. discriminate.
Defined.
