(* ===== verification/AptPackage.v ===== *)
(** The reader of an apt package (readControl and below in
    internal/mod/ecosystem/apt/gen.go): the members of the ar archive up to the one
    with the control section, its decompression under a limit, and the first record
    of the file "control" in it. *)
From S2P Require Import Prelude GoStr Domain Port XbpsIndex XbpsPackage AptStanza.
Local Open Scope Z_scope.

(** * The control record of a package *)
Definition ErrDecompressTooLarge : error := Text "apt: декомпрессия превысила лимит".
Definition maxDecompressedControl : Z := 16 * 2 ^ 20.
Definition take (n : Z) (s : string) : string := String.substring 0 (Z.to_nat n) s.
Definition drop (n : Z) (s : string) : string := String.substring (Z.to_nat n) (String.length s) s.
Definition slice (a b : Z) (s : string) : string := take (b - a) (drop a s).
(** [io.EOF], and the end within a structure. *)
Definition EOF : error := Text "EOF".
Definition ErrUnexpectedEOF : error := Text "unexpected EOF".
Definition no_control : error := Text "apt.deb: control.tar.* не найден в .deb".
Section control.
  Context (unzstd gunzip : string → res stream) (reads : string → list string) (untar : stream → list member * option error)
    (quote ParseInt_error : string → string).
(** [arReader.next] where a header begins: the name of the member, its size, and what
    follows the header. *)
Definition ar_header (rest : string) : res (string * Z * string) :=
  if String.eqb rest "" then Err EOF
  else if len rest <? 60 then Err ErrUnexpectedEOF
  else
    let name := trim_space (slice 0 16 rest) in
    match parse_int (trim_space (slice 48 58 rest)) with
    | None => Err (Wrap ("apt.deb: неверный размер члена " +:+ quote name) (Text (ParseInt_error (trim_space (slice 48 58 rest)))))
    | Some size =>
        if size <? 0 then Err (Text ("apt.deb: отрицательный размер члена " +:+ quote name +:+ ": " +:+ fmt_int size)) else Ok (name, size, drop 60 rest)
    end.
(** The members after the magic, until the one with the control section. A member that
    breaks off is passed over; its end, and the byte that makes its size even, are
    missed when the next one is looked for. [fuel]: the bytes. *)
Fixpoint find_control (fuel : nat) (rest : string) : res string :=
  match fuel with
  | O => Err no_control
  | S fuel =>
      match ar_header rest with
      | Err e => Err (if errors_is EOF e then no_control else e)
      | Ok (name, size, body) =>
          if has_prefix name "control.tar." then Ok (take size body)
          else
            let padded := if (0 <? size) && (size mod 2 =? 1) then size + 1 else size in
            if len body <? padded then Err no_control else find_control fuel (drop padded body)
      end
  end.
Definition arMagic : string := "!<arch>" +:+ nl.
Definition decompressControl (body : string) : res stream :=
  let limit (s : stream) := limited maxDecompressedControl ErrDecompressTooLarge 0 s.1 s.2 in
  let peek := take 4 body in
  if has_prefix peek gzipPrefix then match gunzip body with Ok s => Ok (limit s) | Err e => Err (Wrap "apt.deb: gzip" e) end
  else if String.eqb peek zstdMagic then match unzstd body with Ok s => Ok (limit s) | Err e => Err (Wrap "apt.deb: zstd" e) end
  else Ok (limit (reads body, None)).
(** The first record that the reader yields, or its error; the rest is not read. *)
Definition first_stanza (r : list Stanza * option error) : option (res Stanza) :=
  match r with (s :: _, _) => Some (Ok s) | ([], Some e) => Some (Err e) | ([], None) => None end.
Definition readControlTar (s : stream) : res Stanza :=
  let '(ms, fin) := untar s in
  match List.find (λ m, String.eqb (trim_prefix (mb_name m) "./") "control") ms with
  | None => Err match fin with None => Text "apt.deb: control.tar не содержит ./control" | Some e => Wrap "apt.deb: tar" e end
  | Some m =>
      match first_stanza (Stanzas (mb_body m).1 (mb_body m).2) with
      | None => Err (Text "apt.deb: пустой control")
      | Some (Err e) => Err (Wrap "apt.deb: parse control" e)
      | Some (Ok s) => Ok s
      end
  end.
Definition readControl (body : string) : res Stanza :=
  if len body <? 8 then Err (if String.eqb body "" then no_control else ErrUnexpectedEOF)
  else if negb (String.eqb (take 8 body) arMagic) then Err (Text ("apt.deb: неверный ar-magic " +:+ quote (take 8 body)))
  else match find_control (Datatypes.S (String.length body)) (drop 8 body) with
  | Err e => Err e
  | Ok control => match decompressControl control with Err e => Err e | Ok s => readControlTar s end
  end.
End control.


(** The fuel is enough: each round takes the 60 bytes of a header. *)
Lemma substring_length s : ∀ n m, (String.length (String.substring n m s) <= String.length s - n)%nat.
Proof.
  induction s as [|c s IH]; intros n m; [by destruct n, m|].
  destruct n, m; simpl; [lia| |specialize (IH n 0%nat); lia|specialize (IH n (S m)); lia]. specialize (IH 0%nat m). lia.
Qed.
Lemma drop_length n s : (String.length (drop n s) <= String.length s - Z.to_nat n)%nat.
Proof. apply substring_length. Qed.
Lemma ar_header_short quote ParseInt_error rest name size body : ar_header quote ParseInt_error rest = Ok (name, size, body) →
  (String.length body + 60 <= String.length rest)%nat ∧ 0 <= size.
Proof.
  unfold ar_header. destruct (String.eqb rest ""); [done|]. destruct (Z.ltb_spec (len rest) 60) as [|Hl]; [done|].
  destruct (parse_int _) as [n|]; [|done]. destruct (Z.ltb_spec n 0); [done|]. intros [= <- <- <-]. split; [|done].
  pose proof (drop_length 60 rest) as Hd. change (Z.to_nat 60) with 60%nat in Hd. unfold len in Hl. lia.
Qed.
Lemma find_control_fuel quote ParseInt_error fuel : ∀ fuel' rest, (String.length rest < fuel)%nat → (String.length rest < fuel')%nat →
  find_control quote ParseInt_error fuel rest = find_control quote ParseInt_error fuel' rest.
Proof.
  induction fuel as [|fuel IH]; intros [|fuel'] rest H1 H2; [lia..|]. cbn [find_control].
  destruct (ar_header quote ParseInt_error rest) as [[[name size] body]|e] eqn:Hh; [|done]. apply ar_header_short in Hh as [Hh _].
  destruct (has_prefix name "control.tar."); [done|]. destruct (len body <? _); [done|].
  match goal with |- context [drop ?n body] => pose proof (drop_length n body) end. apply IH; lia.
Qed.
(** What is read of a package keeps the limits of the reader of records. *)
Lemma readControl_fit unzstd gunzip reads untar quote ParseInt_error body s :
  readControl unzstd gunzip reads untar quote ParseInt_error body = Ok s → stanza_fit default_limits s ∧ s ≠ [].
Proof.
  unfold readControl. destruct (len body <? 8); [done|]. destruct (negb _); [done|]. destruct (find_control _ _ _ _) as [control|]; [|done].
  destruct (decompressControl _ _ _ control) as [st|]; [|done]. unfold readControlTar. destruct (untar st) as [ms fin].
  destruct (List.find _ ms) as [m|]; [|done]. destruct (stanzas_fit default_limits (mb_body m).2 (mb_body m).1) as [Hall _]; [done..|].
  unfold Stanzas. destruct (stanzas default_limits (mb_body m).1 (mb_body m).2) as [[|s' ss] [e|]]; simpl in *; try done; intros [= <-]; by apply Forall_cons in Hall as [? _].
Qed.

(** * A package *)
Definition header (name size : string) : string :=
  String.substring 0 16 (name +:+ "                ") +:+ "0           0     0     100644  " +:+ String.substring 0 10 (size +:+ "          ") +:+ "`" +:+ nl.
Definition one_file (s : stream) : list member * option error :=
  ([mk_member true "./postinst" 0 ("", None); mk_member true "./control" (len (String.concat "" s.1)) (String.concat "" s.1, s.2)], None).
Definition read (body : string) : res Stanza :=
  readControl (λ b, Ok ([drop 4 b], None)) (λ b, Ok ([drop 2 b], None)) (λ b, [b]) one_file (λ s, s) (λ s, s) body.
Example packages_read :
  let deb c := arMagic +:+ header "debian-binary" "3" +:+ "2.0" +:+ nl +:+ header "control.tar.zst" (fmt_int (len c)) +:+ c +:+ header "data.tar" "9" in
  read (deb (zstdMagic +:+ "Package: a" +:+ nl +:+ "Architecture: all")) = Ok [("Package", "a"); ("Architecture", "all")] ∧
  read (deb (gzipPrefix +:+ "A: b")) = Ok [("A", "b")] ∧ read (deb "A: b") = Ok [("A", "b")] ∧
  read (deb "") = Err (Text "apt.deb: пустой control") ∧ read "" = Err no_control ∧ read "!<arch>" = Err ErrUnexpectedEOF ∧
  read (arMagic +:+ header "data.tar" "-1") = Err (Text "apt.deb: отрицательный размер члена data.tar: -1") ∧
  read (arMagic +:+ header "data.tar" "9" +:+ "12345") = Err no_control ∧ read (arMagic +:+ "data.tar") = Err ErrUnexpectedEOF.
Proof. vm_compute. done. Qed.
