(* ===== verification/AptRepo.v ===== *)
(** The generator of personal apt repositories (internal/mod/ecosystem/apt/gen.go):
    the index of the packages with its copies under their hashes, of which two
    generations are kept, and the Release with its signatures. *)
From S2P Require Import Prelude GoStr Domain Port RepoWrites XbpsRepo AptStanza.
Local Open Scope Z_scope.

(** * The generator *)
Definition Name : string := "apt".
Definition allowedPoolSuffixes : list string :=
  [".deb"; ".udeb"; ".ddeb"; ".dsc"; ".orig.tar.gz"; ".orig.tar.xz"; ".orig.tar.zst"; ".orig.tar.bz2";
   ".debian.tar.gz"; ".debian.tar.xz"; ".debian.tar.zst"; ".debian.tar.bz2"].
Definition ValidateObjectPath (p : string) : option error :=
  if negb (has_prefix p "pool/") then Some (ValidationError "путь apt-репо" p "должен начинаться с pool/")
  else if existsb (has_suffix p) allowedPoolSuffixes then None
  else Some (ValidationError "путь apt-репо" p "неизвестное расширение (ожидалось .deb/.udeb/.ddeb/.dsc/.tar.*-src)").
(** [ObjectFamily] and [CacheObjectFamily] *)
Definition poolFamily (p : string) : option string :=
  match split "/" (trim_prefix p "/") with
  | p0 :: p1 :: p2 :: p3 :: p4 :: _ =>
      if String.eqb p0 "pool" && forallb (λ x, negb (String.eqb x "")) [p1; p2; p3; p4] then Some (p1 +:+ "/" +:+ p2 +:+ "/" +:+ p3) else None
  | _ => None
  end.
Example pool_families : poolFamily "/pool/main/h/htop/htop_3.3.0-2_amd64.deb" = Some "main/h/htop" ∧ poolFamily "pool/main/h/htop" = None ∧
  poolFamily "dists/stable/main/binary-amd64/packages" = None ∧ poolFamily "pool/main/h/htop/" = None.
Proof. vm_compute. done. Qed.
Definition repoArch : string := "amd64".
Definition byHashMarker : string := ".retained".
(** [port.Signer]: its answers, each a text and how its reader ends. *)
Record Signer := mk_Signer { Sign : string → res (string * option error); SignDetached : string → res (string * option error) }.
(** The part of the text after the first [sub]. *)
Fixpoint after_first (sub s : string) : option string :=
  match strip_prefix sub s with
  | Some r => Some r
  | None => match s with EmptyString => None | String _ s => after_first sub s end
  end.
Definition pad_left (n : nat) (s : string) : string := String.concat "" (replicate (n - String.length s) " ") +:+ s.
Definition index_dir (prefix : string) : string := prefix +:+ "/dists/stable/main/binary-" +:+ repoArch.
Definition by_hash (indexDir hash : string) : string := indexDir +:+ "/by-hash/sha256/" +:+ hash.
Definition markerKey (indexDir : string) : string := indexDir +:+ "/by-hash/" +:+ byHashMarker.
Section generator.
  Context {S : Type} `{Storage S}.
  (** The reader of packages; the digest; gzip; the date of the Release; JSON of a list
      of strings; [%q]. *)
  Context (read_control : string → res Stanza) (sha256 : string → string) (gzipBytes : string → string) (format_date : string)
    (marshal : list string → string) (unmarshal : string → option (list string)).
  Context (signer : option Signer) (ctx_Err : nat → option error).
Definition hash (content : string) : string := hex_encode (sha256 content).
Definition is_deb (name : string) : bool := has_suffix name ".deb" || has_suffix name ".udeb" || has_suffix name ".ddeb".
Definition collectDebs (poolPrefix : string) : St S (res (list string)) :=
  l ← List poolPrefix;
  match l with
  | (_, Some e) => mret (Err (Wrap ("листинг " +:+ poolPrefix) e))
  | (metas, None) => mret (Ok (merge_sort str_le (List.filter is_deb (mt_Key <$> metas))))
  end.
(** The record of the index: that of the package, with its place, size and digest. *)
Definition index_entry (debKey body : string) (stanza : Stanza) : Stanza :=
  let filename := default debKey (after_first "/apt/" debKey) in
  Set_ "SHA256" (hash body) (Set_ "Size" (fmt_int (len body)) (Set_ "Filename" filename stanza)).
(** The record that a package adds, if it is for this architecture. *)
Definition appendPackagesEntry (debKey : string) : St S (res (option Stanza)) :=
  obj ← Port.Get debKey;
  match obj with
  | Err e => mret (Err e)
  | Ok (_, body) =>
      match read_control body with
      | Err e => mret (Err e)
      | Ok stanza =>
          let arch := AptStanza.Get "Architecture" stanza in
          if negb (String.eqb arch repoArch) && negb (String.eqb arch "all") then mret (Ok None) else mret (Ok (Some (index_entry debKey body stanza)))
      end
  end.
(** The entries of the index that the packages add, after those there are. *)
Fixpoint appendEntries (tick : nat) (keys : list string) (packages : string) : St S (res string) :=
  match keys with
  | [] => mret (Ok packages)
  | key :: keys =>
      match ctx_Err tick with
      | Some e => mret (Err e)
      | None =>
          r ← appendPackagesEntry key;
          match r with
          | Err e => mret (Err (Wrap ("apt.gen: " +:+ key) e))
          | Ok None => appendEntries (1 + tick) keys packages
          | Ok (Some stanza) => appendEntries (1 + tick) keys (packages +:+ writeStanza stanza +:+ nl)
          end
      end
  end.
Definition writeByHash (indexDir content : string) : St S (option error) := writeAtomic (by_hash indexDir (hash content)) content.
Definition readRetainedHashes (marker : string) : St S (res (gset string)) :=
  obj ← Port.Get marker;
  match obj with
  | Err e => mret (if has_type is_NotFound e then Ok ∅ else Err (Wrap ("apt.gen: by-hash gc: marker " +:+ marker) e))
  | Ok (_, data) => mret (Ok (match unmarshal data with Some hashes => list_to_set hashes | None => ∅ end))
  end.
Definition is_stale (prefix : string) (keep : gset string) (key : string) : bool :=
  if has_suffix key ("/" +:+ byHashMarker) then false
  else match strip_prefix "sha256/" (trim_prefix key prefix) with None => true | Some h => negb (bool_decide (h ∈ keep)) end.
Fixpoint delete_stale (stale : list string) : St S (option error) :=
  match stale with
  | [] => mret None
  | key :: stale =>
      e ← Delete key;
      match e with Some e => mret (Some (Wrap ("apt.gen: by-hash gc: удаление " +:+ key) e)) | None => delete_stale stale end
  end.
Definition gcByHash (indexDir : string) (current : list string) : St S (option error) :=
  let hashes := hash <$> current in
  let prefix := indexDir +:+ "/by-hash/" in
  prev ← readRetainedHashes (markerKey indexDir);
  match prev with
  | Err e => mret (Some e)
  | Ok prev =>
      l ← List prefix;
      match l with
      | (_, Some e) => mret (Some (Wrap ("apt.gen: by-hash gc: листинг " +:+ prefix) e))
      | (metas, None) =>
          e ← delete_stale (List.filter (is_stale prefix (list_to_set hashes ∪ prev)) (mt_Key <$> metas));
          match e with
          | Some e => mret (Some e)
          | None =>
              e ← writeAtomic (markerKey indexDir) (marshal (merge_sort str_le hashes));
              mret match e with Some e => Some (Wrap ("apt.gen: by-hash gc: marker " +:+ markerKey indexDir) e) | None => None end
          end
      end
  end.
Definition appendShaLine (content relPath : string) : string :=
  " " +:+ hash content +:+ " " +:+ pad_left 8 (fmt_int (len content)) +:+ " " +:+ relPath +:+ nl.
Definition buildRelease (packages packagesGz : string) : string :=
  let line s := s +:+ nl in
  line ("Date: " +:+ format_date) +:+ line "Suite: stable" +:+ line "Components: main" +:+ line ("Architectures: " +:+ repoArch) +:+
  line "Codename: stable" +:+ line "Acquire-By-Hash: yes" +:+ line "SHA256:" +:+
  appendShaLine packages ("main/binary-" +:+ repoArch +:+ "/Packages") +:+ appendShaLine packagesGz ("main/binary-" +:+ repoArch +:+ "/Packages.gz").
(** One signature: the subscriber's answer is read and written. *)
Definition write_signature (what key : string) (answer : res (string * option error)) : St S (option error) :=
  match answer with
  | Err e => mret (Some (Wrap ("apt.gen: " +:+ what) e))
  | Ok (_, Some e) => mret (Some (Wrap ("apt.gen: " +:+ what +:+ ": чтение") e))
  | Ok (sig, None) => e ← writeAtomic key sig; mret match e with Some e => Some (Wrap ("apt.gen: " +:+ what) e) | None => None end
  end.
Definition sign_release (prefix release : string) (s : Signer) : St S (option error) :=
  e ← write_signature "InRelease" (prefix +:+ "/dists/stable/inrelease") (Sign s release);
  match e with Some e => mret (Some e) | None => write_signature "Release.gpg" (prefix +:+ "/dists/stable/release.gpg") (SignDetached s release) end.
(** The third phase, and the fourth. *)
Definition write_all (prefix packages : string) : St S (option error) :=
  let packagesGz := gzipBytes packages in
  let indexDir := index_dir prefix in
  e ← writeAtomic (indexDir +:+ "/packages") packages;
  match e with Some e => mret (Some (Wrap "apt.gen: packages" e)) | None =>
  e ← writeAtomic (indexDir +:+ "/packages.gz") packagesGz;
  match e with Some e => mret (Some (Wrap "apt.gen: packages.gz" e)) | None =>
  e ← writeByHash indexDir packages;
  match e with Some e => mret (Some (Wrap "apt.gen: by-hash packages" e)) | None =>
  e ← writeByHash indexDir packagesGz;
  match e with Some e => mret (Some (Wrap "apt.gen: by-hash packages.gz" e)) | None =>
  e ← gcByHash indexDir [packages; packagesGz];
  match e with Some e => mret (Some e) | None =>
  let release := buildRelease packages packagesGz in
  e ← writeAtomic (prefix +:+ "/dists/stable/release") release;
  match e, signer with
  | Some e, _ => mret (Some (Wrap "apt.gen: release" e))
  | None, Some s => sign_release prefix release s
  | None, None => mret None
  end end end end end end.
(** The reports of progress and the log are left out. *)
Definition GenerateIndexes (repo : Repo) : St S (option error) :=
  if negb (String.eqb (repo_Ecosystem repo) Name) then mret (Some (UnsupportedError "apt.gen" ("экосистема " +:+ repo_Ecosystem repo +:+ " ≠ apt")))
  else
    let prefix := RepoPrefix repo in
    keys ← collectDebs (prefix +:+ "/pool/");
    match keys with
    | Err e => mret (Some (Wrap "apt.gen: enumerate" e))
    | Ok debKeys =>
        r ← appendEntries 0 debKeys "";
        match r with Err e => mret (Some e) | Ok packages => write_all prefix packages end
    end.
End generator.

(** * Reading the packages *)
Section effects.
  Context {S : Type} `{Storage S} `{!StorageLaws S}.
  Context (read_control : string → res Stanza) (sha256 : string → string) (gzipBytes : string → string)
    (marshal : list string → string) (unmarshal : string → option (list string)).
Abbreviation hash := (hash sha256).
Section reading.
  Context (ctx_Err : nat → option error).
Abbreviation append_entries := (appendEntries read_control sha256 ctx_Err).
Lemma collectDebs_keeps p : keeps contents (collectDebs p).
Proof. unfold collectDebs. keeps_tac. Qed.
Lemma appendPackagesEntry_keeps key : keeps contents (appendPackagesEntry read_control sha256 key).
Proof. unfold appendPackagesEntry. keeps_tac. Qed.
Lemma appendEntries_keeps keys : ∀ tick packages, keeps contents (append_entries tick keys packages).
Proof.
  induction keys as [|k keys IH]; intros tick packages; cbn [appendEntries]; [keeps_tac|]. destruct (ctx_Err tick); [keeps_tac|].
  apply keeps_bind; [apply appendPackagesEntry_keeps|]. intros [[e|]|e]; [apply IH..|keeps_tac].
Qed.
Lemma collectDebs_Ok p s keys s' : listable p → collectDebs p s = (Ok keys, s') →
  NoDup keys ∧ Sorted str_le keys ∧ ∀ k, k ∈ keys ↔ is_Some (contents s !! k) ∧ has_prefix k p = true ∧ is_deb k = true.
Proof.
  intros Hp. unfold collectDebs, mbind, st_bind. pose proof (List_sub p s) as Hsub. pose proof (List_nodup p s) as Hnd.
  pose proof (λ k, List_complete p s k Hp) as Hcomp. destruct (List p s) as [[metas [e|]] s1]; [done|]. simpl in *. intros [= <- _].
  split_and!; [rewrite merge_sort_Permutation; by apply NoDup_List_filter|apply Sorted_merge_sort, _|].
  intros k. rewrite merge_sort_Permutation, list_elem_of_In, List.filter_In, <- list_elem_of_In. split.
  - intros [(m & -> & Hm)%list_elem_of_fmap Hd]. destruct (Hsub m Hm) as (Hpre & b & Hb & _). eauto.
  - intros (Hk & Hpre & Hd). split; [|done]. by apply Hcomp.
Qed.
(** What a package adds to the index, by its own bytes. *)
Definition adds (m : gmap string string) (key : string) (entry : option Stanza) : Prop := ∃ body stanza,
  m !! key = Some body ∧ read_control body = Ok stanza ∧
  entry = if decide (AptStanza.Get "Architecture" stanza ∈ [repoArch; "all"]) then Some (index_entry sha256 key body stanza) else None.
Lemma appendPackagesEntry_Ok key s entry s' : appendPackagesEntry read_control sha256 key s = (Ok entry, s') → adds (contents s) key entry.
Proof.
  unfold appendPackagesEntry, mbind, st_bind. pose proof (Get_Ok key s) as Hg. destruct (Port.Get key s) as [[[m body]|e] s1]; [|done].
  destruct (Hg m body eq_refl) as (Hc & _ & _). destruct (read_control body) as [stanza|] eqn:Hr; [|done]. intros Hrun. exists body, stanza. split_and!; [done..|].
  assert (negb (String.eqb (AptStanza.Get "Architecture" stanza) repoArch) && negb (String.eqb (AptStanza.Get "Architecture" stanza) "all") =
    negb (bool_decide (AptStanza.Get "Architecture" stanza ∈ [repoArch; "all"]))) as Heq.
  { destruct (String.eqb_spec (AptStanza.Get "Architecture" stanza) repoArch) as [->|H1]; [done|]. destruct (String.eqb_spec (AptStanza.Get "Architecture" stanza) "all") as [->|H2]; [done|].
    rewrite bool_decide_eq_false_2; [done|]. set_solver. }
  revert Hrun. cbv zeta. rewrite Heq.
  destruct (decide _) as [Hin|Hin]; [rewrite (bool_decide_eq_true_2 _ Hin)|rewrite (bool_decide_eq_false_2 _ Hin)]; by intros [= <- _].
Qed.
Lemma appendEntries_Ok keys : ∀ tick packages s out s', append_entries tick keys packages s = (Ok out, s') →
  ∃ entries, Forall2 (adds (contents s)) keys entries ∧ out = packages +:+ packages_text (omap id entries).
Proof.
  induction keys as [|k keys IH]; intros tick packages s out s'; cbn [appendEntries].
  - intros [= <- _]. exists []. split; [constructor|]. symmetry. apply app_nil_r.
  - destruct (ctx_Err tick); [done|]. unfold mbind, st_bind. pose proof (appendPackagesEntry_keeps k s) as Hk.
    destruct (appendPackagesEntry read_control sha256 k s) as [[entry|e] s1] eqn:He; [|done]. simpl in Hk. apply appendPackagesEntry_Ok in He.
    destruct entry as [stanza|]; intros Hrun; apply IH in Hrun as (entries & Hall & ->); rewrite Hk in Hall.
    + exists (Some stanza :: entries). split; [by constructor|]. cbn [omap list_omap id]. unfold packages_text. cbn [map]. rewrite concat_empty_cons. by rewrite !app_assoc.
    + exists (None :: entries). split; [by constructor|done].
Qed.
End reading.

(** * Copies under their hashes *)
Section copies.
  Context (prefix : string).
Abbreviation idx := (index_dir prefix).
(** Every copy is what its name says. *)
Definition addressed (m : gmap string string) : Prop := ∀ h b, m !! by_hash idx h = Some b → hash b = h.
Definition addressed_after (s s' : S) : Prop := addressed (contents s) → addressed (contents s').
#[export] Instance addressed_after_preorder : PreOrder addressed_after.
Proof. split; [by intros s Ha|]. intros a b c Hab Hbc Ha. by apply Hbc, Hab. Qed.
(** The copies with these hashes stay. *)
Definition stay (hs : gset string) (s s' : S) : Prop := ∀ h, h ∈ hs → is_Some (contents s !! by_hash idx h) → is_Some (contents s' !! by_hash idx h).
#[export] Instance stay_preorder hs : PreOrder (stay hs).
Proof. split; [by intros s h Hh Hs|]. intros a b c Hab Hbc h Hh Hs. by apply Hbc, Hab. Qed.
(** The hashes of the generation before. *)
Definition retained (m : gmap string string) : gset string :=
  match m !! markerKey idx with Some data => match unmarshal data with Some hashes => list_to_set hashes | None => ∅ end | None => ∅ end.
(** Keys that are no copies. *)
Definition no_copy (k : string) : Prop := ∀ h, by_hash idx h ≠ k.
Lemma no_copy_suffix t : has_prefix t "/by-hash/sha256/" = false → no_copy (idx +:+ t).
Proof.
  intros Ht h Heq. unfold by_hash in Heq. apply app_inj_l in Heq. rewrite <- Heq in Ht. change (has_prefix ("/by-hash/sha256/" +:+ h) "/by-hash/sha256/" = false) in Ht.
  by rewrite has_prefix_app in Ht.
Qed.
Lemma no_copy_release t : has_prefix ("/dists/stable/" +:+ t) ("/dists/stable/main/binary-" +:+ repoArch) = false → no_copy (prefix +:+ "/dists/stable/" +:+ t).
Proof.
  intros Ht h Heq. unfold by_hash, index_dir in Heq. rewrite <- !app_assoc in Heq. apply app_inj_l in Heq. rewrite <- Heq, app_assoc in Ht.
  by rewrite has_prefix_app in Ht.
Qed.
Lemma writeAtomic_addressed k b : no_copy k ∨ k = by_hash idx (hash b) → moves addressed_after (writeAtomic k b).
Proof.
  intros Hk s Ha. pose proof (writeAtomic_run k b s) as Hr. destruct (writeAtomic k b s) as [e s']. destruct Hr as [_ Hr]. simpl.
  destruct Hr as [->| ->]; [done|]. intros h c. destruct (decide (k = by_hash idx h)) as [->|Hne].
  - rewrite lookup_insert_eq. intros [= <-]. destruct Hk as [Hk|Hk]; [by destruct (Hk h)|]. unfold by_hash in Hk. by do 2 apply app_inj_l in Hk.
  - rewrite lookup_insert_ne by done. apply Ha.
Qed.
Lemma writeAtomic_stay hs k b : moves (stay hs) (writeAtomic k b).
Proof.
  intros s h _ Hs. pose proof (writeAtomic_run k b s) as Hr. destruct (writeAtomic k b s) as [e s']. destruct Hr as [_ Hr]. simpl.
  destruct Hr as [->| ->]; [done|]. apply lookup_insert_is_Some. destruct (decide (k = by_hash idx h)); auto.
Qed.
Lemma keeps_moves {A} R `{!PreOrder R} (m : St S A) : (∀ s s', contents s' = contents s → R s s') → keeps contents m → moves R m.
Proof. intros HR Hm s. apply HR, Hm. Qed.
Lemma addressed_same s s' : contents s' = contents s → addressed_after s s'.
Proof. intros Hc. unfold addressed_after. by rewrite Hc. Qed.
Lemma stay_same hs s s' : contents s' = contents s → stay hs s s'.
Proof. intros Hc h _. by rewrite Hc. Qed.
Lemma Delete_addressed k : moves addressed_after (Delete k).
Proof. intros s Ha. destruct (Delete_Some k s) as [->| ->]; [done|]. intros h b [_ Hb]%lookup_delete_Some. by apply Ha. Qed.
Lemma Delete_stay hs k : (∀ h, h ∈ hs → by_hash idx h ≠ k) → moves (stay hs) (Delete k).
Proof.
  intros Hk s h Hh Hs. destruct (Delete_Some k s) as [->| ->]; [done|]. rewrite lookup_delete_ne; [done|]. intros He. by apply (Hk h Hh).
Qed.
Lemma delete_stale_moves R `{!PreOrder R} stale : (∀ k, k ∈ stale → moves R (Delete k)) → moves R (delete_stale stale).
Proof.
  induction stale as [|k stale IH]; intros HR; cbn [delete_stale]; [by apply moves_ret|]. apply moves_bind; [done|apply HR; by left|].
  intros [e|]; [by apply moves_ret|]. apply IH. intros k' Hk'. apply HR. by right.
Qed.
(** A copy that is to be kept is not stale. *)
Lemma kept_not_stale keep h : h ∈ keep → is_stale (idx +:+ "/by-hash/") keep (by_hash idx h) = false.
Proof.
  intros Hh. unfold is_stale. destruct (has_suffix _ _); [done|]. unfold by_hash.
  change ("/by-hash/sha256/" +:+ h) with ("/by-hash/" +:+ ("sha256/" +:+ h)). rewrite app_assoc, trim_prefix_app, (proj2 (strip_prefix_Some _ _ h)) by done. by rewrite bool_decide_eq_true_2.
Qed.
Lemma readRetainedHashes_keeps k : keeps contents (readRetainedHashes unmarshal k).
Proof. unfold readRetainedHashes. keeps_tac. Qed.
Lemma readRetainedHashes_Ok s prev s' : readRetainedHashes unmarshal (markerKey idx) s = (Ok prev, s') → prev = retained (contents s).
Proof.
  unfold readRetainedHashes, retained, mbind, st_bind. pose proof (Get_Ok (markerKey idx) s) as Hg. pose proof (Get_NotFound (markerKey idx) s) as Hn.
  destruct (Port.Get (markerKey idx) s) as [[[m data]|e] s1]; simpl in *.
  - destruct (Hg m data eq_refl) as (-> & _). by intros [= <- _].
  - destruct (has_type is_NotFound e) eqn:He; [|done]. rewrite (Hn e) by done. by intros [= <- _].
Qed.
Abbreviation gc := (gcByHash sha256 marshal unmarshal idx).
Lemma marker_no_copy : no_copy (markerKey idx).
Proof. apply no_copy_suffix. by vm_compute. Qed.
Lemma gcByHash_addressed current : moves addressed_after (gc current).
Proof.
  unfold gcByHash. apply moves_bind; [apply _|apply keeps_moves; [apply _|apply addressed_same|apply readRetainedHashes_keeps]|].
  intros [prev|e]; [|by apply moves_ret, _]. apply moves_bind; [apply _|apply keeps_moves; [apply _|apply addressed_same|apply List_keeps]|].
  intros [metas [e|]]; [by apply moves_ret, _|]. apply moves_bind; [apply _|apply delete_stale_moves; [apply _|intros; apply Delete_addressed]|].
  intros [e|]; [by apply moves_ret, _|]. apply moves_bind; [apply _|apply writeAtomic_addressed; left; apply marker_no_copy|]. intros [e|]; by apply moves_ret, _.
Qed.
Lemma gcByHash_stay current s : stay (list_to_set (hash <$> current) ∪ retained (contents s)) s (gc current s).2.
Proof.
  unfold gcByHash, mbind, st_bind. pose proof (readRetainedHashes_keeps (markerKey idx) s) as Hc.
  destruct (readRetainedHashes unmarshal (markerKey idx) s) as [[prev|e] s1] eqn:Hr; simpl in Hc; [|by apply stay_same].
  apply readRetainedHashes_Ok in Hr as ->. transitivity s1; [by apply stay_same|]. set (keep := _ ∪ _).
  pose proof (List_keeps (idx +:+ "/by-hash/") s1) as Hl. destruct (List (idx +:+ "/by-hash/") s1) as [[metas [e|]] s2]; simpl in Hl; [by apply stay_same|].
  transitivity s2; [by apply stay_same|]. set (stale := List.filter _ _).
  assert (moves (stay keep) (delete_stale stale)) as Hd.
  { apply delete_stale_moves; [apply _|]. intros k Hk. apply Delete_stay. intros h Hh <-. apply list_elem_of_In, List.filter_In in Hk as [_ Hk].
    by rewrite kept_not_stale in Hk. }
  specialize (Hd s2). destruct (delete_stale stale s2) as [[e|] s3]; [done|]. transitivity s3; [done|].
  pose proof (writeAtomic_stay keep (markerKey idx) (marshal (merge_sort str_le (hash <$> current))) s3) as Hw.
  by destruct (writeAtomic _ _ s3) as [[e|] s4].
Qed.
(** ** A whole phase of writes *)
Section writes.
  Context (format_date : string) (signer : option Signer).
Abbreviation write_all := (write_all sha256 gzipBytes format_date marshal unmarshal signer prefix).
Lemma sign_release_moves R `{!PreOrder R} release sg : (∀ b, moves R (writeAtomic (prefix +:+ "/dists/stable/inrelease") b)) →
  (∀ b, moves R (writeAtomic (prefix +:+ "/dists/stable/release.gpg") b)) → moves R (sign_release prefix release sg).
Proof.
  intros H1 H2. unfold sign_release, write_signature.
  repeat first [apply H1|apply H2|apply moves_bind; [done| |intros [?|]]|case_match|by apply moves_ret].
Qed.
Lemma write_all_addressed packages : moves addressed_after (write_all packages).
Proof.
  assert (∀ t b, has_prefix ("/dists/stable/" +:+ t) ("/dists/stable/main/binary-" +:+ repoArch) = false → moves addressed_after (writeAtomic (prefix +:+ "/dists/stable/" +:+ t) b)) as Hrel
    by (intros; apply writeAtomic_addressed; left; by apply no_copy_release).
  unfold AptRepo.write_all, writeByHash. apply moves_bind; [apply _|apply writeAtomic_addressed; left; apply no_copy_suffix; by vm_compute|]. intros [e|]; [by apply moves_ret, _|].
  apply moves_bind; [apply _|apply writeAtomic_addressed; left; apply no_copy_suffix; by vm_compute|]. intros [e|]; [by apply moves_ret, _|].
  apply moves_bind; [apply _|apply writeAtomic_addressed; by right|]. intros [e|]; [by apply moves_ret, _|].
  apply moves_bind; [apply _|apply writeAtomic_addressed; by right|]. intros [e|]; [by apply moves_ret, _|].
  apply moves_bind; [apply _|apply gcByHash_addressed|]. intros [e|]; [by apply moves_ret, _|].
  apply moves_bind; [apply _|by apply (Hrel "release")|]. intros [e|]; [by apply moves_ret, _|].
  destruct signer as [sg|]; [|by apply moves_ret, _]. apply sign_release_moves; [apply _|intros b; by apply (Hrel "inrelease")|intros b; by apply (Hrel "release.gpg")].
Qed.
(** From a state whose marker names [hs], these copies stay. *)
Definition safe {A} (hs : gset string) (m : St S A) : Prop := ∀ s, retained (contents s) = hs → stay hs s (m s).2.
Lemma retaining_write {A} hs k b (f : option error → St S A) : k ≠ markerKey idx → (∀ e, safe hs (f e)) → safe hs (writeAtomic k b ≫= f).
Proof.
  intros Hk Hf s Hs. unfold mbind, st_bind. pose proof (writeAtomic_stay hs k b s) as Hst. pose proof (writeAtomic_run k b s) as Hr.
  destruct (writeAtomic k b s) as [e s1]. destruct Hr as [_ Hr]. transitivity s1; [done|]. apply Hf. rewrite <- Hs. unfold retained.
  destruct Hr as [->| ->]; [done|]. by rewrite lookup_insert_ne.
Qed.
Lemma safe_moves {A} hs (m : St S A) : moves (stay hs) m → safe hs m.
Proof. intros Hm s _. apply Hm. Qed.
Lemma safe_gc {A} hs current (f : option error → St S A) : (∀ e, moves (stay hs) (f e)) → safe hs (gcByHash sha256 marshal unmarshal idx current ≫= f).
Proof.
  intros Hf s Hs. unfold mbind, st_bind. pose proof (gcByHash_stay current s) as Hg. rewrite Hs in Hg.
  destruct (gcByHash _ _ _ idx current s) as [e s1]. transitivity s1; [|apply Hf]. intros h Hh. apply Hg. set_solver.
Qed.
Lemma not_marker t : t ≠ "/by-hash/.retained" → idx +:+ t ≠ markerKey idx.
Proof. intros Ht Heq. unfold markerKey in Heq. by apply app_inj_l in Heq. Qed.
Lemma write_all_safe hs packages : safe hs (write_all packages).
Proof.
  assert (∀ k b, moves (stay hs) (writeAtomic k b)) as Hw by (intros; apply writeAtomic_stay).
  assert (∀ r : option error, safe hs (mret r)) as Hret by (intros r; by apply safe_moves, moves_ret, _).
  unfold AptRepo.write_all, writeByHash. apply retaining_write; [by apply not_marker|]. intros [e|]; [apply Hret|].
  apply retaining_write; [by apply not_marker|]. intros [e|]; [apply Hret|]. do 2 (apply retaining_write; [by apply not_marker|]; intros [e|]; [apply Hret|]).
  apply safe_gc. intros [e|]; [by apply moves_ret, _|]. apply moves_bind; [apply _|apply Hw|]. intros [e|]; [by apply moves_ret, _|].
  destruct signer as [sg|]; [|by apply moves_ret, _]. by apply sign_release_moves; [apply _|..].
Qed.
(** ** What a success has done *)
Lemma delete_stale_None stale : ∀ s s', delete_stale stale s = (None, s') →
  ∀ k, contents s' !! k = if decide (k ∈ stale) then None else contents s !! k.
Proof.
  induction stale as [|x stale IH]; intros s s'; cbn [delete_stale]; [intros [= <-] k; by rewrite decide_False by apply not_elem_of_nil|].
  unfold mbind, st_bind. pose proof (Delete_None x s) as Hd. destruct (Delete x s) as [[e|] s1]; [done|]. simpl in Hd. intros Hrun k.
  rewrite (IH _ _ Hrun), Hd by done. destruct (decide (k = x)) as [->|Hne].
  - rewrite lookup_delete_eq, (decide_True (P := x ∈ x :: stale)) by by left. by destruct (decide _).
  - rewrite lookup_delete_ne by done. destruct (decide (k ∈ stale)); [by rewrite decide_True by by right|]. rewrite decide_False; [done|]. by intros [?|?]%elem_of_cons.
Qed.
(** The copies that are not to be kept are gone, and nothing else. *)
Definition swept (keep : gset string) (m m' : gmap string string) : Prop := ∀ k,
  m' !! k = if decide (has_prefix k (idx +:+ "/by-hash/") = true ∧ is_stale (idx +:+ "/by-hash/") keep k = true) then None else m !! k.
Lemma gcByHash_None current s s' : gcByHash sha256 marshal unmarshal idx current s = (None, s') →
  ∃ m, swept (list_to_set (hash <$> current) ∪ retained (contents s)) (contents s) m ∧
    contents s' = <[markerKey idx := marshal (merge_sort str_le (hash <$> current))]> m.
Proof.
  unfold gcByHash, mbind, st_bind. pose proof (readRetainedHashes_keeps (markerKey idx) s) as Hc.
  destruct (readRetainedHashes unmarshal (markerKey idx) s) as [[prev|e] s1] eqn:Hr; simpl in Hc; [|done].
  apply readRetainedHashes_Ok in Hr as ->. set (keep := _ ∪ _). set (p := idx +:+ "/by-hash/").
  assert (listable p) as Hp by (unfold p; change "/by-hash/" with ("/by-hash" +:+ "/"); rewrite app_assoc; apply listable_slash).
  pose proof (List_keeps p s1) as Hl. pose proof (List_sub p s1) as Hsub. pose proof (λ k, List_complete p s1 k Hp) as Hcomp.
  destruct (List p s1) as [[metas [e|]] s2]; simpl in *; [done|]. set (stale := List.filter _ _).
  destruct (delete_stale stale s2) as [[e|] s3] eqn:Hd; [done|]. pose proof (delete_stale_None _ _ _ Hd) as Hdel.
  destruct (writeAtomic _ _ s3) as [[e|] s4] eqn:Hw; [done|]. apply writeAtomic_None in Hw. intros [= <-]. exists (contents s3). split; [|done].
  intros k. rewrite Hdel, Hl, Hc. destruct (decide (k ∈ stale)) as [Hin|Hin].
  - rewrite decide_True; [done|]. apply list_elem_of_In, List.filter_In in Hin as [(m & -> & Hm)%list_elem_of_In%list_elem_of_fmap Hst].
    split; [by destruct (Hsub m Hm)|done].
  - case_decide as Hk; [|done]. destruct Hk as [Hpre Hst]. destruct (contents s !! k) as [b|] eqn:Hb; [|done]. exfalso. apply Hin, list_elem_of_In, List.filter_In.
    split; [|done]. apply list_elem_of_In, Hcomp; [done|rewrite Hc; by eexists|done].
Qed.
Abbreviation release packages := (buildRelease sha256 format_date packages (gzipBytes packages)).
Definition index_writes (packages : string) : list (string * string) :=
  [(idx +:+ "/packages", packages); (idx +:+ "/packages.gz", gzipBytes packages);
   (by_hash idx (hash packages), packages); (by_hash idx (hash (gzipBytes packages)), gzipBytes packages)].
Definition current (packages : string) : list string := hash <$> [packages; gzipBytes packages].
Definition signed (packages : string) (sigs : list (string * string)) : Prop :=
  match signer with
  | None => sigs = []
  | Some sg => ∃ inline detached, Sign sg (release packages) = Ok (inline, None) ∧ SignDetached sg (release packages) = Ok (detached, None) ∧
      sigs = [(prefix +:+ "/dists/stable/inrelease", inline); (prefix +:+ "/dists/stable/release.gpg", detached)]
  end.
Lemma write_signature_None what key answer s s' : write_signature what key answer s = (None, s') →
  ∃ sig, answer = Ok (sig, None) ∧ contents s' = <[key := sig]> (contents s).
Proof.
  unfold write_signature. destruct answer as [[sig [e|]]|e]; [done| |done]. unfold mbind, st_bind.
  destruct (writeAtomic key sig s) as [[e|] s1] eqn:Hw; [done|]. apply writeAtomic_None in Hw. intros [= <-]. eauto.
Qed.
Lemma write_all_None packages s s' : write_all packages s = (None, s') → ∃ m sigs,
  swept (list_to_set (current packages) ∪ retained (contents s)) (written (index_writes packages) (contents s)) m ∧ signed packages sigs ∧
  contents s' = written ((markerKey idx, marshal (merge_sort str_le (current packages))) :: (prefix +:+ "/dists/stable/release", release packages) :: sigs) m.
Proof.
  unfold AptRepo.write_all, writeByHash, mbind, st_bind.
  destruct (writeAtomic _ packages s) as [[e|] s1] eqn:H1; [done|]. destruct (writeAtomic _ _ s1) as [[e|] s2] eqn:H2; [done|].
  destruct (writeAtomic _ _ s2) as [[e|] s3] eqn:H3; [done|]. destruct (writeAtomic _ _ s3) as [[e|] s4] eqn:H4; [done|].
  destruct (gcByHash _ _ _ _ _ s4) as [[e|] s5] eqn:H5; [done|]. apply writeAtomic_None in H1, H2, H3, H4. apply gcByHash_None in H5 as (m & Hm & H5).
  assert (contents s4 = written (index_writes packages) (contents s)) as Hc by (unfold written, index_writes; cbn [foldl fst snd]; by rewrite H4, H3, H2, H1).
  assert (retained (contents s4) = retained (contents s)) as Hret.
  { unfold retained. rewrite Hc, written_other; [done|]. unfold index_writes. cbn [fmap list_fmap fst]. rewrite !not_elem_of_cons.
    pose proof (marker_no_copy) as Hn. split_and!; [by apply not_eq_sym, not_marker..|by intros ?%eq_sym%Hn|by intros ?%eq_sym%Hn|apply not_elem_of_nil]. }
  rewrite Hret, Hc in Hm. destruct (writeAtomic _ _ s5) as [[e|] s6] eqn:H6; [done|]. apply writeAtomic_None in H6. intros Hrun. exists m.
  unfold signed. destruct signer as [sg|].
  - unfold sign_release, mbind, st_bind in Hrun. destruct (write_signature "InRelease" _ _ s6) as [[e|] s7] eqn:H7; [done|].
    apply write_signature_None in H7 as (inline & Hi & H7). apply write_signature_None in Hrun as (detached & Hd & H8).
    eexists. split_and!; [exact Hm|exists inline, detached; by split_and!|]. unfold written. cbn [foldl fst snd]. by rewrite H8, H7, H6, H5.
  - injection Hrun as <-. exists []. split_and!; [exact Hm|done|]. unfold written. cbn [foldl fst snd]. by rewrite H6, H5.
Qed.
End writes.
End copies.

(** * The generation *)
Section generation.
  Context (format_date : string) (signer : option Signer) (ctx_Err : nat → option error).
Abbreviation generate := (GenerateIndexes read_control sha256 gzipBytes format_date marshal unmarshal signer ctx_Err).
Lemma apt_generation_run repo s : contents (generate repo s).2 = contents s ∧ (generate repo s).1 ≠ None ∨
  ∃ keys entries s0, NoDup keys ∧ Sorted str_le keys ∧
    (∀ k, k ∈ keys ↔ is_Some (contents s !! k) ∧ has_prefix k (RepoPrefix repo +:+ "/pool/") = true ∧ is_deb k = true) ∧
    Forall2 (adds (contents s)) keys entries ∧ contents s0 = contents s ∧
    generate repo s = write_all sha256 gzipBytes format_date marshal unmarshal signer (RepoPrefix repo) (packages_text (omap id entries)) s0.
Proof.
  unfold GenerateIndexes. destruct (negb _); [by left|]. unfold mbind, st_bind. pose proof (collectDebs_keeps (RepoPrefix repo +:+ "/pool/") s) as Hc1.
  destruct (collectDebs (RepoPrefix repo +:+ "/pool/") s) as [[keys|e] s1] eqn:Hk; simpl in Hc1; [|by left].
  apply collectDebs_Ok in Hk as (Hnd & Hso & Hkeys); [|change "/pool/" with ("/pool" +:+ "/"); rewrite app_assoc; apply listable_slash].
  pose proof (appendEntries_keeps ctx_Err keys 0 "" s1) as Hc2. destruct (appendEntries _ _ _ 0 keys "" s1) as [[packages|e] s2] eqn:Hr; simpl in Hc2; [|left; split; simpl; congruence].
  apply appendEntries_Ok in Hr as (entries & Hall & ->). rewrite Hc1 in Hall. right. exists keys, entries, s2. split_and!; [done..|congruence|done].
Qed.
Lemma GenerateIndexes_moves R `{!PreOrder R} repo s : (∀ s s', contents s' = contents s → R s s') →
  (∀ packages, moves R (write_all sha256 gzipBytes format_date marshal unmarshal signer (RepoPrefix repo) packages)) → R s (generate repo s).2.
Proof.
  intros Hsame Hw. destruct (apt_generation_run repo s) as [[Hc _]|(keys & entries & s0 & _ & _ & _ & _ & Hc & ->)]; [by apply Hsame|].
  transitivity s0; [by apply Hsame|apply Hw].
Qed.
End generation.
Section outcome.
  Context (prefix format_date : string) (signer : option Signer).
Abbreviation idx := (index_dir prefix).
Abbreviation release packages := (buildRelease sha256 format_date packages (gzipBytes packages)).
Lemma release_no_index t u : has_prefix ("/dists/stable/" +:+ t) ("/dists/stable/main/binary-" +:+ repoArch) = false → prefix +:+ "/dists/stable/" +:+ t ≠ idx +:+ u.
Proof.
  intros Ht Heq. unfold index_dir in Heq. rewrite <- !app_assoc in Heq. apply app_inj_l in Heq. rewrite Heq, app_assoc in Ht. by rewrite has_prefix_app in Ht.
Qed.
Lemma signed_keys packages sigs k : signed prefix format_date signer packages sigs → k ∈ sigs.*1 →
  k = prefix +:+ "/dists/stable/inrelease" ∨ k = prefix +:+ "/dists/stable/release.gpg".
Proof. unfold signed. destruct signer as [sg|]; [intros (i & d & _ & _ & ->)|intros ->]; set_solver. Qed.
(** A key under the directory of the index, other than the marker, is not touched
    after the sweep. *)
Lemma tail_other packages data sigs m t : signed prefix format_date signer packages sigs → t ≠ "/by-hash/.retained" →
  written ((markerKey idx, data) :: (prefix +:+ "/dists/stable/release", release packages) :: sigs) m !! (idx +:+ t) = m !! (idx +:+ t).
Proof.
  intros Hs Ht. apply written_other. rewrite !fmap_cons, !not_elem_of_cons. split_and!; [by apply not_marker|by apply not_eq_sym, (release_no_index "release")|].
  intros [Hk|Hk]%(signed_keys _ _ _ Hs); symmetry in Hk; [by apply (release_no_index "inrelease") in Hk|by apply (release_no_index "release.gpg") in Hk].
Qed.
Lemma swept_other keep m m' t : swept prefix keep m m' → has_prefix t "/by-hash/" = false → m' !! (idx +:+ t) = m !! (idx +:+ t).
Proof.
  intros Hs Ht. rewrite Hs, decide_False; [done|]. intros [Hp _]. apply has_prefix_spec in Hp as [r Hr]. rewrite <- app_assoc in Hr. apply app_inj_l in Hr.
  by rewrite Hr, has_prefix_app in Ht.
Qed.
Lemma swept_kept keep m m' h : swept prefix keep m m' → h ∈ keep → m' !! by_hash idx h = m !! by_hash idx h.
Proof. intros Hs Hh. rewrite Hs, decide_False; [done|]. intros [_ Hst]. by rewrite kept_not_stale in Hst. Qed.
Lemma copies_written packages m b : b ∈ [packages; gzipBytes packages] →
  ∃ b', written (index_writes prefix packages) m !! by_hash idx (hash b) = Some b' ∧ hash b' = hash b.
Proof.
  intros Hb. unfold written, index_writes. cbn [foldl fst snd].
  destruct (decide (hash b = hash (gzipBytes packages))) as [He|Hne]; [rewrite He, lookup_insert_eq; eauto|].
  rewrite lookup_insert_ne by (intros Heq; do 2 apply app_inj_l in Heq; congruence).
  apply elem_of_cons in Hb as [->|Hb]; [|set_solver]. rewrite lookup_insert_eq. eauto.
Qed.
Lemma indexes_written packages m : let m' := written (index_writes prefix packages) m in
  m' !! (idx +:+ "/packages") = Some packages ∧ m' !! (idx +:+ "/packages.gz") = Some (gzipBytes packages).
Proof.
  cbv zeta. unfold written, index_writes. cbn [foldl fst snd].
  assert (∀ t, has_prefix t "/by-hash/sha256/" = false → ∀ h, by_hash idx h ≠ idx +:+ t) as Hn by (intros; by apply no_copy_suffix).
  rewrite !(lookup_insert_ne _ (by_hash _ _)) by by apply Hn. rewrite lookup_insert_eq, lookup_insert_ne, lookup_insert_eq; [done|].
  intros Heq. by apply app_inj_l in Heq.
Qed.
End outcome.
(** What there is after a success, by the index that was written. *)
Record outcome (prefix format_date : string) (signer : option Signer) (packages : string) (before after : gmap string string) : Prop := {
  oc_packages : after !! (index_dir prefix +:+ "/packages") = Some packages;
  oc_packages_gz : after !! (index_dir prefix +:+ "/packages.gz") = Some (gzipBytes packages);
  oc_release : after !! (prefix +:+ "/dists/stable/release") = Some (buildRelease sha256 format_date packages (gzipBytes packages));
  oc_marker : after !! markerKey (index_dir prefix) = Some (marshal (merge_sort str_le (current packages)));
  oc_copies b : b ∈ [packages; gzipBytes packages] → ∃ b', after !! by_hash (index_dir prefix) (hash b) = Some b' ∧ hash b' = hash b;
  oc_signatures sg : signer = Some sg → ∃ inline detached,
    Sign sg (buildRelease sha256 format_date packages (gzipBytes packages)) = Ok (inline, None) ∧ after !! (prefix +:+ "/dists/stable/inrelease") = Some inline ∧
    SignDetached sg (buildRelease sha256 format_date packages (gzipBytes packages)) = Ok (detached, None) ∧ after !! (prefix +:+ "/dists/stable/release.gpg") = Some detached;
  oc_bounded k : has_prefix k (index_dir prefix +:+ "/by-hash/") = true → is_Some (after !! k) → has_suffix k "/.retained" = true ∨
    ∃ h, k = by_hash (index_dir prefix) h ∧ (h ∈ current packages ∨ h ∈ retained prefix before)
}.
Lemma suffix_ne p a b : a ≠ b → p +:+ a ≠ p +:+ b.
Proof. intros Hne Heq. by apply app_inj_l in Heq. Qed.
Lemma not_stale prefix keep k : has_prefix k (index_dir prefix +:+ "/by-hash/") = true → is_stale (index_dir prefix +:+ "/by-hash/") keep k = false →
  has_suffix k "/.retained" = true ∨ ∃ h, k = by_hash (index_dir prefix) h ∧ h ∈ keep.
Proof.
  intros [r ->]%has_prefix_spec. unfold is_stale. change ("/" +:+ byHashMarker) with "/.retained". destruct (has_suffix _ _); [by left|].
  rewrite trim_prefix_app. destruct (strip_prefix "sha256/" r) as [h|] eqn:Hs; [|done]. apply strip_prefix_Some in Hs as ->. intros Hb. right. exists h.
  split; [unfold by_hash; by rewrite <- app_assoc|]. by destruct (bool_decide_reflect (h ∈ keep)).
Qed.
Lemma write_all_outcome prefix format_date signer packages s s' :
  write_all sha256 gzipBytes format_date marshal unmarshal signer prefix packages s = (None, s') → outcome prefix format_date signer packages (contents s) (contents s').
Proof.
  intros Hrun. apply write_all_None in Hrun as (m & sigs & Hm & Hsig & ->). set (data := marshal _).
  destruct (indexes_written prefix packages (contents s)) as [Hp Hgz].
  assert (∀ k, k ∉ sigs.*1 → ∀ v, written ((markerKey (index_dir prefix), data) :: (prefix +:+ "/dists/stable/release", v) :: sigs) m !! k =
    <[prefix +:+ "/dists/stable/release" := v]> (<[markerKey (index_dir prefix) := data]> m) !! k) as Htail by (intros; unfold written; cbn [foldl fst snd]; by apply written_other).
  assert (∀ k, k ≠ prefix +:+ "/dists/stable/inrelease" → k ≠ prefix +:+ "/dists/stable/release.gpg" → k ∉ sigs.*1) as Hno by (intros k H1 H2 Hk; by destruct (signed_keys _ _ _ _ _ _ Hsig Hk)).
  split.
  - rewrite (tail_other prefix format_date signer), (swept_other _ _ _ _ _ Hm) by done. done.
  - rewrite (tail_other prefix format_date signer), (swept_other _ _ _ _ _ Hm) by done. done.
  - rewrite Htail by (by apply Hno; apply suffix_ne). apply lookup_insert_eq.
  - rewrite Htail by (apply Hno; unfold markerKey; [by apply not_eq_sym, (release_no_index _ "inrelease")|by apply not_eq_sym, (release_no_index _ "release.gpg")]).
    rewrite lookup_insert_ne by (by apply (release_no_index _ "release")). apply lookup_insert_eq.
  - intros b Hb. unfold by_hash. rewrite (tail_other prefix format_date signer) by done. fold (by_hash (index_dir prefix) (hash b)). rewrite (swept_kept _ _ _ _ _ Hm).
    + by apply copies_written.
    + apply elem_of_union_l, elem_of_list_to_set. unfold current. set_solver.
  - intros sg ->. destruct Hsig as (inline & detached & Hi & Hd & ->). exists inline, detached. unfold written. cbn [foldl fst snd]. split_and!; [done| |done|by rewrite lookup_insert_eq].
    rewrite lookup_insert_ne by by apply suffix_ne. apply lookup_insert_eq.
  - intros k Hk Hin. destruct (has_suffix k "/.retained") eqn:Hsuf; [by left|]. right.
    assert (m !! k = None ∨ is_stale (index_dir prefix +:+ "/by-hash/") (list_to_set (current packages) ∪ retained prefix (contents s)) k = false) as Hst.
    { rewrite Hm. destruct (is_stale _ _ k) eqn:Hs; [|by right]. rewrite decide_True by done. by left. }
    assert (∃ t, k = index_dir prefix +:+ t ∧ t ≠ "/by-hash/.retained") as (t & -> & Ht).
    { apply has_prefix_spec in Hk as [r ->]. rewrite <- app_assoc. eexists. split; [done|]. intros Heq. rewrite <- app_assoc, Heq in Hsuf.
      change "/by-hash/.retained" with ("/by-hash" +:+ "/.retained") in Hsuf. rewrite app_assoc in Hsuf. unfold has_suffix in Hsuf.
      rewrite (proj2 (strip_suffix_Some _ _ (index_dir prefix +:+ "/by-hash"))) in Hsuf by done. done. }
    rewrite (tail_other prefix format_date signer) in Hin by done. destruct Hst as [Hst|Hst]; [rewrite Hst in Hin; by destruct Hin|].
    destruct (not_stale _ _ _ Hk Hst) as [?|(h & Hh & Hin')]; [congruence|]. exists h. split; [done|]. set_solver.
Qed.

(** C34: what a successful generation has done, by the packages and what is read of
    them: the index has the record of every package of the repository that is for this
    architecture or for all of them, with its place, its size and its digest, in the
    order of their keys; the compressed index, the Release that names the two and its
    signatures fit it; both indexes can be had under their hashes; and of older copies
    there are only those of the generation before. *)
Theorem index_is_faithful format_date signer ctx_Err repo s s' :
  GenerateIndexes read_control sha256 gzipBytes format_date marshal unmarshal signer ctx_Err repo s = (None, s') →
  ∃ keys entries, NoDup keys ∧ Sorted str_le keys ∧
    (∀ k, k ∈ keys ↔ is_Some (contents s !! k) ∧ has_prefix k (RepoPrefix repo +:+ "/pool/") = true ∧ is_deb k = true) ∧
    Forall2 (adds (contents s)) keys entries ∧
    outcome (RepoPrefix repo) format_date signer (packages_text (omap id entries)) (contents s) (contents s').
Proof.
  intros Hrun. destruct (apt_generation_run format_date signer ctx_Err repo s) as [[_ Hn]|(keys & entries & s0 & Hnd & Hso & Hkeys & Hall & Hc & Heq)]; [by rewrite Hrun in Hn|].
  exists keys, entries. split_and!; [done..|]. rewrite <- Hc. eapply write_all_outcome. by rewrite <- Heq, Hrun.
Qed.

Lemma generation_addressed format_date signer ctx_Err repo s :
  addressed_after (RepoPrefix repo) s (GenerateIndexes read_control sha256 gzipBytes format_date marshal unmarshal signer ctx_Err repo s).2.
Proof. apply GenerateIndexes_moves; [apply _|apply addressed_same|apply write_all_addressed]. Qed.

(** The copies of the indexes are what their names say: no generation changes
    this, however it ends. *)
Theorem copies_are_addressed format_date signer ctx_Err repo s : addressed (RepoPrefix repo) (contents s) →
  addressed (RepoPrefix repo) (contents (GenerateIndexes read_control sha256 gzipBytes format_date marshal unmarshal signer ctx_Err repo s).2).
Proof. apply generation_addressed. Qed.
Lemma generation_retains format_date signer ctx_Err repo s :
  stay (RepoPrefix repo) (retained (RepoPrefix repo) (contents s)) s (GenerateIndexes read_control sha256 gzipBytes format_date marshal unmarshal signer ctx_Err repo s).2.
Proof.
  destruct (apt_generation_run format_date signer ctx_Err repo s) as [[Hc _]|(keys & entries & s0 & _ & _ & _ & _ & Hc & ->)]; [by apply stay_same|].
  transitivity s0; [by apply stay_same|]. apply write_all_safe. by rewrite Hc.
Qed.

(** C33: a client that has the Release of a repository can have its indexes, by their
    hashes, until a second generation after it has begun: after a successful
    generation, whatever happens to the packages, and however the next generation ends
    (with an error, a failure of the storage or a cancellation at any point), the
    copies of its two indexes are there. *)
Theorem release_stays_fetchable format_date signer ctx_Err format_date' signer' ctx_Err' repo s s1 s2 name b :
  (∀ l, unmarshal (marshal l) = Some l) → addressed (RepoPrefix repo) (contents s) →
  GenerateIndexes read_control sha256 gzipBytes format_date marshal unmarshal signer ctx_Err repo s = (None, s1) →
  (∀ k, has_prefix k (RepoPrefix repo +:+ "/dists/") = true → contents s2 !! k = contents s1 !! k) →
  name ∈ ["/packages"; "/packages.gz"] → contents s1 !! (index_dir (RepoPrefix repo) +:+ name) = Some b →
  ∃ b', contents (GenerateIndexes read_control sha256 gzipBytes format_date' marshal unmarshal signer' ctx_Err' repo s2).2 !!
    by_hash (index_dir (RepoPrefix repo)) (hash b) = Some b' ∧ hash b' = hash b.
Proof.
  intros Hjson Ha Hrun Hsame Hname Hb.
  assert (addressed (RepoPrefix repo) (contents s1)) as Ha1.
  { pose proof (generation_addressed format_date signer ctx_Err repo s Ha) as Hr. by rewrite Hrun in Hr. }
  destruct (apt_generation_run format_date signer ctx_Err repo s) as [[_ Hn]|(keys & entries & s0 & _ & _ & _ & _ & Hc & Heq)]; [by rewrite Hrun in Hn|].
  rewrite Hrun in Heq. symmetry in Heq. apply write_all_outcome in Heq as [Hp Hgz _ Hm Hcopies _ _]. set (packages := packages_text _) in *.
  assert (∀ t, contents s2 !! (index_dir (RepoPrefix repo) +:+ t) = contents s1 !! (index_dir (RepoPrefix repo) +:+ t)) as Hidx.
  { intros t. apply Hsame. unfold index_dir. rewrite <- !app_assoc. change ("/dists/stable/main/binary-" +:+ ?x) with ("/dists/" +:+ ("stable/main/binary-" +:+ x)).
    rewrite app_assoc. apply has_prefix_app. }
  assert (b ∈ [packages; gzipBytes packages]) as Hin.
  { apply elem_of_cons in Hname as [->|Hname%list_elem_of_singleton]; [|subst name]; [rewrite Hp in Hb|rewrite Hgz in Hb]; injection Hb as <-; set_solver. }
  destruct (Hcopies b Hin) as (c & Hcopy & _).
  assert (hash b ∈ retained (RepoPrefix repo) (contents s2)) as Hret.
  { unfold retained, markerKey. rewrite Hidx. fold (markerKey (index_dir (RepoPrefix repo))). rewrite Hm, Hjson. apply elem_of_list_to_set. rewrite merge_sort_Permutation.
    unfold current. apply list_elem_of_fmap. eauto. }
  assert (addressed (RepoPrefix repo) (contents s2)) as Ha2 by (intros h x; unfold by_hash; rewrite Hidx; apply Ha1).
  destruct (generation_retains format_date' signer' ctx_Err' repo s2 (hash b) Hret) as [b' Hb'].
  { unfold by_hash. rewrite Hidx. by exists c. }
  exists b'. split; [done|].
  exact (generation_addressed format_date' signer' ctx_Err' repo s2 Ha2 _ _ Hb').
Qed.
(** ** Nothing else *)
Definition own_dists (prefix k : string) : Prop := has_prefix k (prefix +:+ "/dists/stable/") = true.
Lemma own_index prefix t : own_dists prefix (index_dir prefix +:+ t).
Proof.
  unfold own_dists, index_dir. rewrite <- !app_assoc. change ("/dists/stable/main/binary-" +:+ ?x) with ("/dists/stable/" +:+ ("main/binary-" +:+ x)).
  rewrite app_assoc. apply has_prefix_app.
Qed.
Lemma own_release prefix t : own_dists prefix (prefix +:+ "/dists/stable/" +:+ t).
Proof. unfold own_dists. rewrite app_assoc. apply has_prefix_app. Qed.
Lemma Delete_through (P : string → Prop) k : P k → moves (through P) (Delete k).
Proof. intros HP s x Hx. destruct (Delete_Some k s) as [->| ->]; [done|]. rewrite lookup_delete_ne; [done|]. by intros ->. Qed.
Lemma gcByHash_through prefix current : moves (through (own_dists prefix)) (gcByHash sha256 marshal unmarshal (index_dir prefix) current).
Proof.
  unfold gcByHash. apply moves_bind; [apply _|apply through_keeps, readRetainedHashes_keeps|]. intros [prev|e]; [|by apply moves_ret, _].
  intros s. unfold mbind, st_bind. set (p := index_dir prefix +:+ "/by-hash/"). pose proof (List_keeps p s) as Hl. pose proof (List_sub p s) as Hsub.
  destruct (List p s) as [[metas [e|]] s1]; simpl in *; [by intros k _; rewrite Hl|]. transitivity s1; [by intros k _; rewrite Hl|]. set (stale := List.filter _ _).
  assert (moves (through (own_dists prefix)) (delete_stale stale)) as Hd.
  { apply delete_stale_moves; [apply _|]. intros k Hk. apply Delete_through. apply list_elem_of_In, List.filter_In in Hk as [(m & -> & Hm)%list_elem_of_In%list_elem_of_fmap _].
    destruct (Hsub m Hm) as [[r ->]%has_prefix_spec _]. unfold p. rewrite <- app_assoc. apply own_index. }
  specialize (Hd s1). destruct (delete_stale stale s1) as [[e|] s2]; [done|]. transitivity s2; [done|].
  match goal with |- context [writeAtomic ?k ?b s2] => pose proof (writeAtomic_through (own_dists prefix) k b (own_index prefix _) s2) as Hw; by destruct (writeAtomic k b s2) as [[e|] s3] end.
Qed.
Lemma write_all_through prefix format_date signer packages :
  moves (through (own_dists prefix)) (write_all sha256 gzipBytes format_date marshal unmarshal signer prefix packages).
Proof.
  assert (∀ t b, moves (through (own_dists prefix)) (writeAtomic (index_dir prefix +:+ t) b)) as Hi by (intros; apply writeAtomic_through, own_index).
  assert (∀ t b, moves (through (own_dists prefix)) (writeAtomic (prefix +:+ "/dists/stable/" +:+ t) b)) as Hr by (intros; apply writeAtomic_through, own_release).
  unfold write_all, writeByHash, by_hash.
  do 4 (apply moves_bind; [apply _|apply Hi|]; intros [e|]; [by apply moves_ret, _|]).
  apply moves_bind; [apply _|apply gcByHash_through|]. intros [e|]; [by apply moves_ret, _|].
  apply moves_bind; [apply _|apply (Hr "release")|]. intros [e|]; [by apply moves_ret, _|].
  destruct signer as [sg|]; [|by apply moves_ret, _]. apply sign_release_moves; [apply _|apply (Hr "inrelease")|apply (Hr "release.gpg")].
Qed.

(** However a generation ends, it has changed nothing but what is below the
    distribution of its own repository: no package, and no object of another
    repository. *)
Theorem apt_generation_stays_inside format_date signer ctx_Err repo s k : ¬ own_dists (RepoPrefix repo) k →
  contents (GenerateIndexes read_control sha256 gzipBytes format_date marshal unmarshal signer ctx_Err repo s).2 !! k = contents s !! k.
Proof.
  revert k. apply (GenerateIndexes_moves format_date signer ctx_Err (through (own_dists (RepoPrefix repo))) repo s).
  - intros a b Hc k _. by rewrite Hc.
  - intros packages. apply write_all_through.
Qed.
End effects.
