(* ===== verification/AptMirror.v ===== *)
(** The enumeration of an apt mirror (internal/mod/ecosystem/apt/apt.go): the
    distributions and components to mirror, the Release and the indexes that name the
    packages, their paths and checksums; and the mirror of a repository that the
    generator has written. *)
From S2P Require Import Prelude GoStr Domain Port RepoWrites CacheEngine Adapter XbpsIndex XbpsPackage XbpsRepo AptStanza AptPackage AptRepo.
Local Open Scope Z_scope.

(** * The parts of a mirror *)
(** [strings.Fields] *)
Fixpoint next_word (s : string) : string * string :=
  match strip_any space_runes s with
  | Some _ => ("", s)
  | None => match s with EmptyString => ("", "") | String c s => prod_map (String c) id (next_word s) end
  end.
Fixpoint fields_from (fuel : nat) (s : string) : list string :=
  match fuel with
  | O => []
  | S fuel => let s := trim_left_space s in if String.eqb s "" then [] else let '(w, rest) := next_word s in w :: fields_from fuel rest
  end.
Definition Fields (s : string) : list string := fields_from (S (String.length s)) s.
Example some_fields : Fields "  main contrib	non-free " = ["main"; "contrib"; "non-free"] ∧ Fields " " = [] ∧ Fields "amd64" = ["amd64"].
Proof. vm_compute. done. Qed.

(** [parseAptInclude]: the distributions, each once, and for those that name
    components these. *)
Abbreviation components := (gmap string (gset string)).
Definition bad_dist_byte (c : ascii) : bool := Ascii.eqb c " " || Ascii.eqb c (byte 0).
Fixpoint include_dists (include dists : list string) (byDist : components) : res (list string * components) :=
  match include with
  | [] => match dists with [] => Err (ValidationError "include" "" "нет валидных dists") | _ => Ok (dists, byDist) end
  | item :: include =>
      let item := trim_space item in
      if String.eqb item "" then include_dists include dists byDist
      else
        let '(dist, comp, _) := cut "/" item in
        if String.eqb dist "" || negb (all_bytes (λ c, negb (bad_dist_byte c)) dist) then Err (ValidationError "include" item "пустой или некорректный dist")
        else
          include_dists include (if bool_decide (dist ∈ dists) then dists else dists ++ [dist])
            (if String.eqb comp "" then byDist else <[dist := {[comp]} ∪ default ∅ (byDist !! dist)]> byDist)
  end.
Definition quoted (s : string) : string := String "034" (s +:+ String "034" "").
Definition parseAptInclude (include : list string) : res (list string * components) :=
  match include with
  | [] => Err (ValidationError "include" "" ("apt sync: укажите dists (например [" +:+ quoted "stable" +:+ "] или [" +:+ quoted "stable/main" +:+ "])"))
  | _ => include_dists include [] ∅
  end.
Example includes : (fst <$> match parseAptInclude [" stable/main "; ""; "sid"; "stable/contrib"] with Ok x => Some x | _ => None end) = Some ["stable"; "sid"] ∧
  parseAptInclude [""; " "] = Err (ValidationError "include" "" "нет валидных dists") ∧
  parseAptInclude ["/main"] = Err (ValidationError "include" "/main" "пустой или некорректный dist").
Proof. vm_compute. done. Qed.

Definition maxDecompressedApt : Z := 2 ^ 30.
(** The state of a traversal: the paths that were seen, and the checksums. *)
Abbreviation knowledge := (gset string * gmap string Checksum)%type.
Section enumeration.
  Context {M D : Type} (unicode_lower : string → string).
  (** [MetaFetcher]: a body, and how its reader ends. *)
  Context (Fetch : string → St M (res (string * option error))) (gunzip : string * option error → res stream).
Definition releaseComponents (remoteName dist : string) : St M (res (list string * list string)) :=
  body ← Fetch ("/" +:+ Name +:+ "/" +:+ remoteName +:+ "/dists/" +:+ dist +:+ "/Release");
  match body with
  | Err e => mret (Err e)
  | Ok (body, fin) =>
      match first_stanza (Stanzas body fin) with
      | Some (Err e) => mret (Err e)
      | first =>
          let s := match first with Some (Ok s) => s | _ => [] end in
          match Fields (Get "Components" s), Fields (Get "Architectures" s) with
          | [], _ => mret (Err (Text "release без Components"))
          | _, [] => mret (Err (Text "release без Architectures"))
          | comps, archs => mret (Ok (comps, archs))
          end
      end
  end.
(** What a record adds to the paths. *)
Definition take_filename (st : list string * knowledge) (s : Stanza) : list string * knowledge :=
  let '(out, (seen, sums)) := st in
  let fn := trim_space (Get "Filename" s) in
  if String.eqb fn "" then st
  else
    let fn := if has_prefix fn "/" then fn else "/" +:+ fn in
    if bool_decide (fn ∈ seen) then st
    else (out ++ [fn], ({[fn]} ∪ seen, match hexChecksum unicode_lower "sha256" (Get "SHA256" s) with Some sum => <[fn := sum]> sums | None => sums end)).
Definition scanFilenames (body : string * option error) (st : knowledge) : res (list string * knowledge) :=
  let '(given, err) := Stanzas body.1 body.2 in
  match err with Some e => Err e | None => Ok (foldl take_filename ([], st) given) end.
Definition unsupportedIndexErr (base : string) (notFound : error) : St M error :=
  x ← Fetch (base +:+ ".xz");
  mret match x with
  | Ok _ => UnsupportedError "enumerate" ("apt: индекс " +:+ base +:+ ".xz в неподдерживаемом формате xz — декодера нет в whitelist зависимостей")
  | Err _ => notFound
  end.
Definition enumeratePackages (remoteName dist comp arch : string) (st : knowledge) : St M (res (list string * knowledge)) :=
  let base := "/" +:+ Name +:+ "/" +:+ remoteName +:+ "/dists/" +:+ dist +:+ "/" +:+ comp +:+ "/binary-" +:+ arch +:+ "/Packages" in
  body ← Fetch base;
  match body with
  | Ok body => mret (scanFilenames body st)
  | Err e =>
      if negb (has_type is_NotFound e) then mret (Err e)
      else
        body ← Fetch (base +:+ ".gz");
        match body with
        | Err e => if has_type is_NotFound e then e ← unsupportedIndexErr base e; mret (Err e) else mret (Err e)
        | Ok body =>
            match gunzip body with
            | Err e => mret (Err (Wrap "unpack Packages.gz" e))
            | Ok s =>
                let s := limited maxDecompressedApt AptPackage.ErrDecompressTooLarge 0 s.1 s.2 in
                mret (scanFilenames (String.concat "" s.1, s.2) st)
            end
        end
  end.
(** The indexes to read, in order. *)
Definition wanted (allowed : option (gset string)) (comps archs : list string) : list (string * string) :=
  comp ← List.filter (λ comp, match allowed with Some set => bool_decide (comp ∈ set) | None => true end) comps;
  (λ arch, (comp, arch)) <$> List.filter (λ arch, negb (String.eqb arch "all")) archs.
Fixpoint enumerate_indexes (remoteName dist : string) (indexes : list (string * string)) (paths : list string) (st : knowledge) : St M (res (list string * knowledge)) :=
  match indexes with
  | [] => mret (Ok (paths, st))
  | (comp, arch) :: indexes =>
      got ← enumeratePackages remoteName dist comp arch st;
      match got with
      | Err e => mret (Err (Wrap ("apt: enumerate " +:+ dist +:+ "/" +:+ comp +:+ "/" +:+ arch) e))
      | Ok (got, st) => enumerate_indexes remoteName dist indexes (paths ++ got) st
      end
  end.
Fixpoint enumerate_dists (remoteName : string) (dists : list string) (byDist : components) (paths : list string) (st : knowledge) : St M (res (list string * knowledge)) :=
  match dists with
  | [] => mret (Ok (paths, st))
  | dist :: dists =>
      r ← releaseComponents remoteName dist;
      match r with
      | Err e => mret (Err (Wrap ("apt: enumerate dist " +:+ dist) e))
      | Ok (comps, archs) =>
          got ← enumerate_indexes remoteName dist (wanted (byDist !! dist) comps archs) paths st;
          match got with Err e => mret (Err e) | Ok (paths, st) => enumerate_dists remoteName dists byDist paths st end
      end
  end.
(** Where there is a fetcher. *)
Definition Enumerate (remote : Remote) : St (M * Adapter D) (res (list string)) := λ '(m, a),
  match parseAptInclude (rm_Include remote) with
  | Err e => (Err e, (m, a))
  | Ok (dists, byDist) =>
      match enumerate_dists (rm_Name remote) dists byDist [] (∅, ∅) m with
      | (Err e, m) => (Err e, (m, a))
      | (Ok (paths, (_, sums)), m) => (Ok paths, (m, sums_replace (rm_ID remote) sums a))
      end
  end.
End enumeration.

(** * What is read of the Release of the generator *)
Lemma settled_bytes q v : q newline = false → q (byte 13) = false → all_bytes q v = true → settled v = v.
Proof.
  intros Hn Hr Hv. assert (no_sep newline v = true) as Hs by (eapply all_bytes_impl; [|exact Hv]; intros c Hc; destruct (Ascii.eqb_spec newline c); [congruence|done]).
  unfold settled. rewrite split_nosep by done. cbn. apply trim_cr_keeps. intros r ->. rewrite all_bytes_app in Hv. apply andb_prop in Hv as [_ Hv]. cbn [all_bytes] in Hv. by rewrite Hr in Hv.
Qed.
Lemma Get_settle n s : Get n (settle s) = settled (Get n s).
Proof. unfold settle. induction s as [|[k v] s IH]; [done|]. rewrite fmap_cons. cbn [Get fst snd]. by destruct (String.eqb k n). Qed.
Lemma Get_Set n v s : Get n (Set_ n v s) = v.
Proof. induction s as [|[k w] s IH]; cbn [Set_]; [cbn [Get]; by rewrite String.eqb_refl|]. destruct (String.eqb k n) eqn:Hk; cbn [Get]; by rewrite Hk. Qed.
Lemma Get_Set_other n n' v s : n ≠ n' → Get n (Set_ n' v s) = Get n s.
Proof.
  intros Hne. induction s as [|[k w] s IH]; cbn [Set_ Get]; [by rewrite (proj2 (String.eqb_neq n' n))|].
  destruct (String.eqb_spec k n') as [->|Hk]; cbn [Get]; [by rewrite (proj2 (String.eqb_neq n' n))|]. by rewrite IH.
Qed.
Lemma line_step line rest cur last count cur' last' : rest ≠ [] → len line <= 2 ^ 20 →
  processLine (trim_cr line) cur last default_limits = Ok (false, cur', last') →
  stanza_lines default_limits None (line :: rest) cur last count = stanza_lines default_limits None rest cur' last' count.
Proof.
  intros Hr Hl Hp. cbn [stanza_lines]. destruct rest as [|r rest]; [done|]. rewrite short_line; [|change (lim_field default_limits + lim_name default_limits + 2) with (2 ^ 20 + 2 ^ 14 + 2); lia].
  cbn [andb]. by rewrite Hp.
Qed.
Definition is_figure (c : ascii) : bool := is_digit c || Ascii.eqb c " ".
Lemma pad_left_spec n s : all_bytes is_digit s = true → all_bytes is_figure (pad_left n s) = true ∧ len (pad_left n s) <= Z.of_nat n + len s.
Proof.
  intros Hs. unfold pad_left, len. assert (∀ k, all_bytes is_figure (String.concat "" (replicate k " ")) = true ∧ String.length (String.concat "" (replicate k " ")) = k) as Hrep.
  { induction k as [|k [IH1 IH2]]; [done|]. cbn [replicate]. rewrite concat_empty_cons. split; [done|]. by rewrite length_app_str, IH2. }
  destruct (Hrep (n - String.length s)%nat) as [H1 H2]. split.
  - rewrite all_bytes_app, H1. eapply all_bytes_impl; [|exact Hs]. intros c Hc. unfold is_figure. by rewrite Hc.
  - rewrite length_app_str, H2. lia.
Qed.
Section release.
  Context (sha256 : string → string) (format_date : string).
  Hypothesis sha256_length : ∀ b, String.length (sha256 b) = 32%nat.
  Hypothesis date_plain : no_sep newline format_date = true ∧ len format_date <= maxFieldValue.
Definition release_fields : Stanza :=
  [("Date", format_date); ("Suite", "stable"); ("Components", "main"); ("Architectures", "amd64"); ("Codename", "stable"); ("Acquire-By-Hash", "yes")].
Definition sha_line (content relPath : string) : string := " " +:+ hash sha256 content +:+ " " +:+ pad_left 8 (fmt_int (len content)) +:+ " " +:+ relPath.
Definition sha_lines (packages packagesGz : string) : list string :=
  ["SHA256:"; sha_line packages "main/binary-amd64/Packages"; sha_line packagesGz "main/binary-amd64/Packages.gz"].
Lemma release_fields_lines : release_fields ≫= field_lines =
  ["Date: " +:+ format_date; "Suite: stable"; "Components: main"; "Architectures: amd64"; "Codename: stable"; "Acquire-By-Hash: yes"].
Proof. unfold release_fields. rewrite bind_cons. unfold field_lines at 1. cbn [fst snd]. by rewrite split_nosep by apply date_plain. Qed.
Lemma buildRelease_lines packages packagesGz : buildRelease sha256 format_date packages packagesGz = text_of ((release_fields ≫= field_lines) ++ sha_lines packages packagesGz).
Proof.
  rewrite release_fields_lines. unfold text_of, buildRelease, sha_lines, appendShaLine, sha_line. cbn [app map]. rewrite !concat_empty_cons. rewrite <- !app_assoc.
  cbn [String.concat]. by rewrite ?app_nil_r.
Qed.
Definition is_line_byte (c : ascii) : bool := is_hex_byte c || Ascii.eqb c " ".
Lemma sha_line_plain content relPath : in_int64 (len content) → no_sep newline relPath = true → len relPath <= 100 →
  no_sep newline (sha_line content relPath) = true ∧ len (sha_line content relPath) <= 300.
Proof.
  intros Hl Hn Hp. destruct (hex_encode_spec (sha256 content)) as (Hhex & _ & _ & Hlen). unfold sha_line, hash. rewrite sha256_length in Hlen.
  destruct (fmt_int_nonneg (len content)) as (_ & Hd & _); [unfold len; lia|]. destruct (pad_left_spec 8 _ Hd) as [Hf Hpl].
  assert (len (fmt_int (len content)) <= 20) as Hs by (pose proof (fmt_int_short (len content) Hl); unfold len in *; lia). split.
  - assert (∀ q s, q newline = false → all_bytes q s = true → no_sep newline s = true) as Hq
      by (intros q s Hq; apply all_bytes_impl; intros c Hc; destruct (Ascii.eqb_spec newline c); [congruence|done]).
    unfold no_sep in *. rewrite !all_bytes_app, Hn. rewrite (Hq is_hex_byte (hex_encode _)) by done. rewrite (Hq is_figure (pad_left _ _)) by done. done.
  - rewrite !len_app. unfold len in *. rewrite Hlen. cbn [String.length]. lia.
Qed.
Lemma release_fields_ok : Forall (field_ok default_limits) release_fields.
Proof.
  assert (∀ k v, no_sep ":" k = true → no_sep newline k = true → len k <= 100 → (∀ c r, k = String c r → is_blank c = false) → k ≠ "" → no_sep newline v = true → len v <= maxFieldValue →
    field_ok default_limits (k, v)) as Hf.
  { intros k v H1 H2 H3 H4 H5 H6 H7. assert (len (settled v) <= len v) as Hs.
    { unfold settled. rewrite split_nosep by done. cbn. apply trim_cr_len. }
    split; cbn [fst snd]; [split_and!; [done|done|change (lim_name default_limits) with (2 ^ 14); lia]| |].
    - destruct k as [|c r]; [done|]. by eapply H4.
    - change (lim_field default_limits) with maxFieldValue. lia. }
  unfold release_fields. destruct date_plain as [Hd1 Hd2].
  constructor; [apply Hf; try done; by intros ? ? [= <- _]|]. repeat (constructor; [apply Hf; try (vm_compute; done); by intros ? ? [= <- _]|]). constructor.
Qed.
Lemma sha_line_step content relPath rest cur v last count : in_int64 (len content) → no_sep newline relPath = true → len relPath <= 100 → trim_cr relPath = relPath → relPath ≠ "" →
  rest ≠ [] → len v <= 1000 → Get "SHA256" cur = v → last = "SHA256" →
  ∃ cur' v', stanza_lines default_limits None (sha_line content relPath :: rest) cur last count = stanza_lines default_limits None rest cur' "SHA256" count ∧
    Get "SHA256" cur' = v' ∧ len v' <= len v + 301 ∧ (∀ n, n ≠ "SHA256" → Get n cur' = Get n cur) ∧ cur' ≠ [].
Proof.
  intros Hl Hn Hp Ht Hne Hr Hv <- ->. destruct (sha_line_plain content relPath Hl Hn Hp) as [_ Hlen].
  assert (trim_cr (sha_line content relPath) = sha_line content relPath) as Htrim by (unfold sha_line; rewrite !app_assoc, trim_cr_app by done; by rewrite Ht).
  set (cont := hash sha256 content +:+ " " +:+ pad_left 8 (fmt_int (len content)) +:+ " " +:+ relPath).
  assert (sha_line content relPath = String " " cont) as Hline by done. assert (len (Get "SHA256" cur +:+ nl +:+ cont) <= len (Get "SHA256" cur) + 301) as Hj.
  { rewrite !len_app. change (len nl) with 1. rewrite Hline in Hlen. unfold len in *. cbn [String.length] in Hlen. lia. }
  exists (Set_ "SHA256" (Get "SHA256" cur +:+ nl +:+ cont) cur), (Get "SHA256" cur +:+ nl +:+ cont). split_and!; [|by rewrite Get_Set|done|intros; by apply Get_Set_other|by destruct cur as [|[k w] cur]; cbn [Set_]; [|destruct (String.eqb k _)]].
  apply line_step; [done|lia|]. rewrite Htrim, Hline. cbn [processLine]. change (is_blank " ") with true. change (String.eqb "SHA256" "") with false. cbn iota.
  change (lim_field default_limits) with (2 ^ 20). by rewrite (proj2 (Z.ltb_ge _ _)) by lia.
Qed.
Lemma release_read packages packagesGz : in_int64 (len packages) → in_int64 (len packagesGz) →
  ∃ s, Stanzas (buildRelease sha256 format_date packages packagesGz) None = ([s], None) ∧ Get "Components" s = "main" ∧ Get "Architectures" s = "amd64".
Proof.
  intros H1 H2. unfold Stanzas, stanzas. rewrite buildRelease_lines, <- (app_nil_r (text_of _)), split_lines.
  2:{ apply Forall_app. split; [apply Forall_bind; eapply Forall_impl; [apply release_fields_ok|]; apply field_lines_plain|].
    unfold sha_lines. constructor; [done|]. constructor; [by apply sha_line_plain|]. constructor; [by apply sha_line_plain|constructor]. }
  change (split newline "") with [""]. rewrite <- (assoc_L (++)).
  destruct (stanza_fields_read default_limits ltac:(done) release_fields (sha_lines packages packagesGz ++ [""]) [] "" 0 release_fields_ok) as [last ->]; [done|by apply (bool_decide_unpack _)|done|].
  cbn [app sha_lines].
  rewrite (line_step "SHA256:" _ _ _ _ (Set_ "SHA256" "" (settle release_fields)) "SHA256") by done.
  destruct (sha_line_step packages "main/binary-amd64/Packages" [sha_line packagesGz "main/binary-amd64/Packages.gz"; ""] (Set_ "SHA256" "" (settle release_fields)) "" "SHA256" 0)
    as (cur & v & -> & Hv & Hlv & Hget & Hne); [done..|].
  destruct (sha_line_step packagesGz "main/binary-amd64/Packages.gz" [""] cur v "SHA256" 0) as (cur' & v' & -> & _ & _ & Hget' & Hne'); [done..|change (len "") with 0 in Hlv; lia|done|done|].
  exists cur'. rewrite !Hget', !Hget by done. split_and!; [|done|done]. cbn [stanza_lines]. change (line_refused _ "" _) with false. cbn [andb]. change (bool_decide (None = None)) with true.
  cbn iota. change (trim_cr "") with "". cbn [processLine]. unfold Len. destruct cur'; [done|]. cbn [length]. rewrite (proj2 (Z.eqb_neq _ 0)) by lia. done.
Qed.
End release.

(** * What is read of the index of the generator *)
Section index.
  Context (sha256 : string → string) (unicode_lower : string → string) (m : gmap string string) (prefix : string).
  Context (read_control : string → res Stanza).
  Hypothesis sha256_length : ∀ b, String.length (sha256 b) = 32%nat.
  Hypothesis prefix_root : ∀ r, after_first "/apt/" (prefix +:+ "/" +:+ r) = Some r.
(** A package that is for this architecture, and its path from the root of the
    repository. *)
Definition included (k : string) : Prop := ∃ body stanza, m !! k = Some body ∧ read_control body = Ok stanza ∧ AptStanza.Get "Architecture" stanza ∈ [repoArch; "all"].
Definition described (entry : Stanza) (p : string) : Prop := ∃ body stanza r,
  m !! (prefix +:+ p) = Some body ∧ read_control body = Ok stanza ∧ entry = index_entry sha256 (prefix +:+ p) body stanza ∧ p = "/" +:+ r ∧ r ≠ "" ∧
  all_bytes allowedKeyByte r = true ∧ len r <= 767 ∧ has_prefix r "/" = false.
Definition checksum_of (p : string) : option Checksum := (λ body, mk_Checksum "sha256" (hex_encode (sha256 body))) <$> m !! (prefix +:+ p).
Lemma entry_fields k r body stanza : k = prefix +:+ "/" +:+ r →
  Get "Filename" (index_entry sha256 k body stanza) = r ∧ Get "SHA256" (index_entry sha256 k body stanza) = hash sha256 body.
Proof.
  intros ->. unfold index_entry. rewrite prefix_root. cbn [default]. split; [|apply Get_Set]. rewrite !Get_Set_other by done. apply Get_Set.
Qed.
Lemma hash_hex body : hexChecksum unicode_lower "sha256" (hash sha256 body) = Some (mk_Checksum "sha256" (hex_encode (sha256 body))).
Proof.
  destruct (hex_encode_spec (sha256 body)) as (Hhex & Hlow & Hascii & Hlen). unfold hexChecksum, hash. rewrite (trim_space_outside is_hex_byte) by done.
  assert (ToLower unicode_lower (hex_encode (sha256 body)) = hex_encode (sha256 body)) as ->.
  { unfold ToLower. rewrite (all_bytes_impl (λ c, (32 <=? N_of_ascii c)%N && (N_of_ascii c <? 127)%N) (in_byte 0 127)); [done| |done].
    intros c [Hc1 Hc2]%andb_prop. unfold in_byte. apply N.leb_le in Hc1. apply N.ltb_lt in Hc2. apply andb_true_intro. split; apply N.leb_le; lia. }
  rewrite sha256_length in Hlen. destruct (String.eqb_spec (hex_encode (sha256 body)) "") as [He|_]; [by rewrite He in Hlen|]. cbn [orb].
  assert (all_bytes is_hex (hex_encode (sha256 body)) = true) as ->; [|done].
  rewrite <- Hlow. clear -Hhex. induction (hex_encode (sha256 body)) as [|c s IH]; [done|]. cbn [to_lower all_bytes] in *. apply andb_prop in Hhex as [Hc Hs].
  rewrite IH by done. rewrite andb_true_r. revert Hc. unfold is_hex_byte, is_hex, lower_byte. destruct c as [[] [] [] [] [] [] [] []]; by vm_compute.
Qed.
Lemma take_described e p out seen sums : described e p → p ∉ seen →
  take_filename unicode_lower (out, (seen, sums)) (settle e) = (out ++ [p], ({[p]} ∪ seen, match checksum_of p with Some sum => <[p := sum]> sums | None => sums end)).
Proof.
  intros (body & stanza & r & Hb & _ & -> & -> & Hr & Hkey & _ & Hsl) Hp. destruct (entry_fields (prefix +:+ "/" +:+ r) r body stanza eq_refl) as [Hf Hh].
  unfold take_filename. rewrite !Get_settle, Hf, Hh. rewrite (settled_bytes allowedKeyByte r) by done. rewrite (trim_space_outside allowedKeyByte) by done.
  rewrite (proj2 (String.eqb_neq r "")) by done. rewrite Hsl. rewrite bool_decide_eq_false_2 by done.
  rewrite (settled_bytes is_hex_byte); [|done|done|apply hex_encode_spec]. rewrite hash_hex. unfold checksum_of. by rewrite Hb.
Qed.
Lemma scan_described es ps : Forall2 described es ps → ∀ out seen sums, NoDup ps → (∀ p, p ∈ ps → p ∉ seen) → ∃ seen' sums',
  foldl (take_filename unicode_lower) (out, (seen, sums)) (settle <$> es) = (out ++ ps, (seen', sums')) ∧
  (∀ p, p ∉ ps → sums' !! p = sums !! p) ∧ (∀ p, p ∈ ps → sums' !! p = checksum_of p).
Proof.
  induction 1 as [|e p es ps Hd _ IH]; intros out seen sums Hnd Hs; [exists seen, sums; split_and!; [by rewrite (right_id_L [] (++))|done|intros p ?%elem_of_nil; done]|].
  apply NoDup_cons in Hnd as [Hp Hnd]. rewrite fmap_cons. cbn [foldl]. rewrite (take_described e p) by first [done|apply Hs; by left].
  destruct Hd as (body & _ & _ & Hb & _). assert (checksum_of p = Some (mk_Checksum "sha256" (hex_encode (sha256 body)))) as Hsum by (unfold checksum_of; by rewrite Hb).
  destruct (IH (out ++ [p]) ({[p]} ∪ seen) (match checksum_of p with Some sum => <[p := sum]> sums | None => sums end)) as (seen' & sums' & -> & Hno & Hin); [done| |].
  - intros q Hq. rewrite not_elem_of_union, not_elem_of_singleton. split; [by intros ->|]. apply Hs. by right.
  - exists seen', sums'. rewrite <- (assoc_L (++)). split_and!; [done|intros q [Hq1 Hq2]%not_elem_of_cons|intros q [->|Hq]%elem_of_cons].
    + rewrite Hno by done. rewrite Hsum. by rewrite lookup_insert_ne.
    + rewrite Hno by done. rewrite Hsum. by rewrite lookup_insert_eq.
    + by apply Hin.
Qed.
Lemma described_of keys entries : Forall2 (adds read_control sha256 m) keys entries → NoDup keys →
  (∀ k, k ∈ keys → ValidateKey k = None ∧ ∃ r, k = prefix +:+ "/pool/" +:+ r) →
  ∃ ps, Forall2 described (omap id entries) ps ∧ NoDup ps ∧ ∀ p, p ∈ ps ↔ prefix +:+ p ∈ keys ∧ included (prefix +:+ p).
Proof.
  induction 1 as [|k entry keys entries (body & stanza & Hb & Hr & He) _ IH]; intros Hnd Hk.
  - exists []. split_and!; [constructor|constructor|]. intros p. rewrite !elem_of_nil. tauto.
  - apply NoDup_cons in Hnd as [Hn Hnd]. destruct IH as (ps & Hps & Hnps & Hin); [done|intros k' Hk'; apply Hk; by right|].
    destruct (Hk k) as [Hv (r & ->)]; [by left|]. set (p := "/pool/" +:+ r) in *. destruct (decide _) as [Ha|Ha]; subst entry.
    + exists (p :: ps). split_and!.
      * cbn [omap list_omap id]. constructor; [|done]. exists body, stanza, ("pool/" +:+ r). do 5 (split; [done|]). apply ValidateKey_ok in Hv.
        assert (all_bytes allowedKeyByte (prefix +:+ "/" +:+ "pool/" +:+ r) = true) as Hall by apply Hv. rewrite !all_bytes_app in Hall. rewrite all_bytes_app.
        apply andb_prop in Hall as [_ Hall]. apply andb_prop in Hall as [_ Hall]. pose proof (key_ok_length _ Hv) as Hl. split_and!; [done| |done].
        change (prefix +:+ p) with (prefix +:+ "/" +:+ "pool/" +:+ r) in Hl. rewrite !length_app_str in Hl. unfold len. rewrite length_app_str. lia.
      * apply NoDup_cons. split; [|done]. intros Hp%Hin. naive_solver.
      * intros q. rewrite !elem_of_cons, Hin. split.
        -- intros [->|[? ?]]; [|auto]. split; [by left|]. by exists body, stanza.
        -- intros [[Hq|?] ?]; [left; by apply app_inj_l in Hq|auto].
    + exists ps. split_and!; [done|done|]. intros q. rewrite Hin, elem_of_cons. split; [naive_solver|]. intros [[Hq|?] Hi]; [|done]. exfalso.
      rewrite Hq in Hi. destruct Hi as (body' & stanza' & Hb' & Hr' & Ha'). rewrite Hb in Hb'. injection Hb' as <-. rewrite Hr in Hr'. injection Hr' as <-. done.
Qed.
End index.

(** * A mirror of a generated repository *)
(** An entry that the limits of the reader admit, once its three fields are added and
    the empty lines of its values have become dots. *)
Definition readable (e : Stanza) : Prop := Len e <= maxFieldsPerStanza ∧ Forall (λ f, len (settled f.2) <= maxFieldValue) e.
Lemma entry_ok sha256 k body stanza : stanza_fit default_limits stanza → readable (index_entry sha256 k body stanza) → len (default k (after_first "/apt/" k)) <= maxFieldValue →
  in_int64 (len body) → String.length (sha256 body) = 32%nat → stanza_ok default_limits (index_entry sha256 k body stanza).
Proof.
  intros [Hf Hk _] [Hl Hset] Hfile Hbody Hsha. unfold index_entry in *. set (e := Set_ "SHA256" _ _) in *.
  assert (∀ n v s, no_sep ":" n = true → no_sep newline n = true → len n <= 100 → (∀ c r, n = String c r → is_blank c = false) → n ≠ "" → len v <= maxFieldValue →
    Forall (field_fit default_limits) s → Forall (field_fit default_limits) (Set_ n v s)) as Hadd.
  { intros n v s H1 H2 H3 H4 H5 Hv Hs. apply Set_fit; [done|]. split; cbn [fst snd]; [split_and!; [done|done|change (lim_name default_limits) with (2 ^ 14); lia]| |done].
    destruct n as [|c r]; [done|]. by eapply H4. }
  assert (Forall (field_fit default_limits) e) as He.
  { destruct (hex_encode_spec (sha256 body)) as (_ & _ & _ & Hlen). pose proof (fmt_int_short _ Hbody).
    unfold e. repeat (apply Hadd; [done|done|done|by intros ? ? [= <- _]|done| |]); [unfold hash, len, maxFieldValue in *; lia|unfold len, maxFieldValue in *; lia|done|done]. }
  split; [|by apply Set_nodup, Set_nodup, Set_nodup|split; [|done]].
  - rewrite Forall_forall in He, Hset. apply Forall_forall. intros f Hin. destruct (He f Hin) as [? ? ?]. split; [done|done|]. split; [done|by apply Hset].
  - unfold e. generalize (Set_ "Size" (fmt_int (len body)) (Set_ "Filename" (default k (after_first "/apt/" k)) stanza)). intros s Hs. apply (f_equal (Get "SHA256")) in Hs.
    rewrite Get_Set in Hs. unfold hash in Hs. cbn in Hs. destruct (hex_encode_spec (sha256 body)) as (_ & _ & _ & Hlen). rewrite Hs, Hsha in Hlen. done.
Qed.
Lemma after_first_skip c s : c ≠ "/"%char → after_first "/apt/" (String c s) = after_first "/apt/" s.
Proof.
  intros Hc. cbn [after_first]. destruct (strip_prefix "/apt/" (String c s)) as [x|] eqn:Hs; [|done]. apply strip_prefix_Some in Hs.
  change ("/apt/" +:+ x) with (String "/" ("apt/" +:+ x)) in Hs. by injection Hs as -> _.
Qed.
Lemma after_first_digits d r : all_bytes is_digit d = true → after_first "/apt/" (d +:+ "/apt/" +:+ r) = Some r.
Proof.
  induction d as [|c d IH]; intros Hd; [done|]. cbn [all_bytes] in Hd. apply andb_prop in Hd as [Hc Hd].
  change (String c d +:+ "/apt/" +:+ r) with (String c (d +:+ "/apt/" +:+ r)). rewrite after_first_skip by (intros ->; done). by apply IH.
Qed.
Lemma repo_root repo r : repo_Ecosystem repo = "apt" → 0 <= repo_ID repo <= max_int64 → after_first "/apt/" (RepoPrefix repo +:+ "/" +:+ r) = Some r.
Proof.
  intros He Hid. unfold RepoPrefix. rewrite He, itoa_fmt by (unfold min_int64; lia). destruct (fmt_int_nonneg (repo_ID repo)) as (_ & Hd & Hne); [lia|].
  rewrite <- !app_assoc. change ("apt" +:+ "/" +:+ r) with ("apt/" +:+ r). change ("/" +:+ "apt/" +:+ r) with ("/apt/" +:+ r).
  change ("repo/" +:+ ?x) with (String "r" (String "e" (String "p" (String "o" (String "/" x))))).
  destruct (fmt_int (repo_ID repo)) as [|c d]; [done|]. rewrite <- (after_first_digits (String c d) r) by done.
  cbn [all_bytes] in Hd. apply andb_prop in Hd as [Hc _]. rewrite !(after_first_skip "r"), (after_first_skip "e"), (after_first_skip "p"), (after_first_skip "o") by done.
  cbn [after_first]. destruct (strip_prefix "/apt/" (String "/" _)) as [x|] eqn:Hs; [|done]. apply strip_prefix_Some in Hs. change ("/apt/" +:+ x) with (String "/" (String "a" ("pt/" +:+ x))) in Hs.
  injection Hs as -> _. done.
Qed.
Lemma include_stable l : l = ["stable"] ∨ l = ["stable/main"] →
  ∃ byDist, parseAptInclude l = Ok (["stable"], byDist) ∧ wanted (byDist !! "stable") ["main"] ["amd64"] = [("main", "amd64")].
Proof. intros [->| ->]; eexists; (split; [vm_compute; reflexivity|vm_compute; reflexivity]). Qed.
Section mirrored.
  Context {S M D : Type} `{Storage S} `{!StorageLaws S}.
  Context (unzstd gunzip : string → res stream) (reads : string → list string) (untar : stream → list member * option error)
    (quote ParseInt_error sha256 gzipBytes : string → string) (marshal : list string → string) (unmarshal : string → option (list string))
    (format_date : string) (signer : option Signer) (ctx_Err : nat → option error)
    (unicode_lower : string → string) (Fetch : string → St M (res (string * option error))) (gunzip_body : string * option error → res stream).
  Abbreviation read_control := (readControl unzstd gunzip reads untar quote ParseInt_error).
  Abbreviation generate := (GenerateIndexes read_control sha256 gzipBytes format_date marshal unmarshal signer ctx_Err).
  Abbreviation enumerate := (Enumerate (D := D) unicode_lower Fetch gunzip_body).
  (** A digest has 32 bytes; a date is a line. *)
  Hypothesis sha256_length : ∀ b, String.length (sha256 b) = 32%nat.
  Hypothesis date_plain : no_sep newline format_date = true ∧ len format_date <= maxFieldValue.
Lemma generate_None repo s s' : generate repo s = (None, s') → repo_Ecosystem repo = "apt" ∧ ∃ keys entries, NoDup keys ∧
  (∀ k, k ∈ keys ↔ is_Some (contents s !! k) ∧ has_prefix k (RepoPrefix repo +:+ "/pool/") = true ∧ is_deb k = true) ∧
  Forall2 (adds read_control sha256 (contents s)) keys entries ∧
  outcome sha256 gzipBytes marshal unmarshal (RepoPrefix repo) format_date signer (packages_text (omap id entries)) (contents s) (contents s').
Proof.
  intros Hrun. split; [unfold GenerateIndexes in Hrun; destruct (String.eqb_spec (repo_Ecosystem repo) Name); done|].
  destruct (apt_generation_run read_control sha256 gzipBytes marshal unmarshal format_date signer ctx_Err repo s) as [[_ Hn]|(keys & entries & s0 & Hnd & _ & Hkeys & Hall & Hc & Heq)]; [by rewrite Hrun in Hn|].
  exists keys, entries. split_and!; [done..|]. rewrite <- Hc. eapply (write_all_outcome read_control). by rewrite <- Heq, Hrun.
Qed.
Lemma entries_length keys (entries : list (option Stanza)) (m : gmap string string) : NoDup keys → (∀ k, k ∈ keys → is_Some (m !! k)) → Forall2 (adds read_control sha256 m) keys entries →
  (length (omap id entries) <= size m)%nat.
Proof.
  intros Hnd Hk Hall. transitivity (length keys).
  - clear Hnd Hk. induction Hall as [|k e keys entries _ _ IH]; [done|]. cbn [omap list_omap id]. destruct e; simpl; lia.
  - rewrite <- size_dom, <- (size_list_to_set (C := gset string)) by done. apply subseteq_size. intros k Hin%elem_of_list_to_set. by apply elem_of_dom, Hk.
Qed.
Lemma scan_packages es ps m prefix st' : Forall2 (described sha256 m prefix read_control) es ps → Forall (stanza_ok default_limits) es → Z.of_nat (length es) <= maxStanzas → NoDup ps →
  (∀ r, after_first "/apt/" (prefix +:+ "/" +:+ r) = Some r) → st' = scanFilenames unicode_lower (packages_text es, None) (∅, ∅) →
  ∃ seen sums, st' = Ok (ps, (seen, sums)) ∧ ∀ p, p ∈ ps → sums !! p = checksum_of sha256 m prefix p.
Proof.
  intros Hd Hok Hlen Hnd Hroot ->. unfold scanFilenames, Stanzas. cbn [fst snd]. rewrite stanzas_read by done.
  destruct (scan_described sha256 unicode_lower m prefix read_control sha256_length Hroot es ps Hd [] ∅ ∅ Hnd) as (seen & sums & -> & _ & Hs); [set_solver|]. by exists seen, sums.
Qed.
Lemma enumerate_stable remote release packages m m1 m2 (a : Adapter D) s paths seen sums : rm_Include remote = ["stable"] ∨ rm_Include remote = ["stable/main"] →
  Fetch ("/apt/" +:+ rm_Name remote +:+ "/dists/stable/Release") m = (Ok (release, None), m1) →
  Fetch ("/apt/" +:+ rm_Name remote +:+ "/dists/stable/main/binary-amd64/Packages") m1 = (Ok (packages, None), m2) →
  Stanzas release None = ([s], None) → Get "Components" s = "main" → Get "Architectures" s = "amd64" →
  scanFilenames unicode_lower (packages, None) (∅, ∅) = Ok (paths, (seen, sums)) →
  enumerate remote (m, a) = (Ok paths, (m2, sums_replace (rm_ID remote) sums a)).
Proof.
  intros Hi H1 H2 Hs Hc Ha Hscan. apply include_stable in Hi as (byDist & Hp & Hw). unfold Enumerate. rewrite Hp. cbn [enumerate_dists]. unfold mbind, st_bind, releaseComponents.
  unfold mbind, st_bind. change ("/" +:+ Name +:+ "/" +:+ rm_Name remote +:+ "/dists/" +:+ "stable" +:+ "/Release") with ("/apt/" +:+ rm_Name remote +:+ "/dists/stable/Release").
  rewrite H1, Hs. cbn [first_stanza]. rewrite Hc, Ha. change (Fields "main") with ["main"]. change (Fields "amd64") with ["amd64"]. cbn [mret st_ret]. rewrite Hw. cbn [enumerate_indexes].
  unfold mbind, st_bind, enumeratePackages. unfold mbind, st_bind.
  change ("/" +:+ Name +:+ "/" +:+ rm_Name remote +:+ "/dists/" +:+ "stable" +:+ "/" +:+ "main" +:+ "/binary-" +:+ "amd64" +:+ "/Packages") with ("/apt/" +:+ rm_Name remote +:+ "/dists/stable/main/binary-amd64/Packages").
  rewrite H2. cbn [mret st_ret]. rewrite Hscan. done.
Qed.

(** C35: from an upload to a mirror. Where a generation has succeeded and a mirror
    fetches the Release and the index as they were written, the enumeration of the
    mirror succeeds: it lists once each package of the repository that is for this
    architecture or for all, at its place below the repository, and nothing else, and
    it knows for each the digest of the very bytes that the repository holds. The
    repository holds at most a million objects, and the record that the generator makes
    of each package has to be [readable]: at most 1024 fields, whose values keep their
    limit in the form in which they are written. *)
Theorem mirror_of_generated_apt repo remote s s' m m1 m2 (a : Adapter D) release packages :
  generate repo s = (None, s') → 0 <= repo_ID repo <= max_int64 → rm_Include remote = ["stable"] ∨ rm_Include remote = ["stable/main"] →
  (∀ k b, contents s !! k = Some b → ValidateKey k = None ∧ len b <= max_int64) → (∀ k b, contents s' !! k = Some b → len b <= max_int64) →
  Z.of_nat (size (contents s)) <= maxStanzas →
  (∀ k body stanza, contents s !! k = Some body → read_control body = Ok stanza → readable (index_entry sha256 k body stanza)) →
  contents s' !! (RepoPrefix repo +:+ "/dists/stable/release") = Some release →
  contents s' !! (RepoPrefix repo +:+ "/dists/stable/main/binary-amd64/packages") = Some packages →
  Fetch ("/apt/" +:+ rm_Name remote +:+ "/dists/stable/Release") m = (Ok (release, None), m1) →
  Fetch ("/apt/" +:+ rm_Name remote +:+ "/dists/stable/main/binary-amd64/Packages") m1 = (Ok (packages, None), m2) →
  ∃ paths a', enumerate remote (m, a) = (Ok paths, (m2, a')) ∧ NoDup paths ∧
    (∀ p, p ∈ paths ↔ has_prefix p "/pool/" = true ∧ is_deb (RepoPrefix repo +:+ p) = true ∧ included (contents s) read_control (RepoPrefix repo +:+ p)) ∧
    (∀ p, p ∈ paths → ∃ body, contents s !! (RepoPrefix repo +:+ p) = Some body ∧ sums_lookup (rm_ID remote) p a' = Some (mk_Checksum "sha256" (hex_encode (sha256 body)))).
Proof.
  intros Hrun Hid Hi Hs Hs' Hsize Hreadable Hrel Hpk Hf1 Hf2. apply generate_None in Hrun as (Heco & keys & entries & Hnd & Hkeys & Hall & Ho).
  destruct Ho as [Op Og Or _ _ _ _]. unfold index_dir in Op, Og. rewrite <- !app_assoc in Op, Og. rewrite Or in Hrel. injection Hrel as <-.
  change ("/dists/stable/main/binary-" +:+ repoArch +:+ "/packages") with "/dists/stable/main/binary-amd64/packages" in Op. rewrite Op in Hpk. injection Hpk as <-.
  set (es := omap id entries) in *. set (prefix := RepoPrefix repo) in *.
  assert (∀ r, after_first "/apt/" (prefix +:+ "/" +:+ r) = Some r) as Hroot by (intros; by apply repo_root).
  assert (∀ k, k ∈ keys → ValidateKey k = None ∧ ∃ r, k = prefix +:+ "/pool/" +:+ r) as Hk.
  { intros k Hk. apply Hkeys in Hk as ([b Hb] & [r ->]%has_prefix_spec & _). split; [by apply (Hs _ b)|]. exists r. by rewrite app_assoc. }
  destruct (described_of sha256 unicode_lower (contents s) prefix read_control keys entries Hall Hnd Hk) as (ps & Hd & Hnps & Hps).
  assert (∀ b, len b <= max_int64 → in_int64 (len b)) as Hint by (intros b Hb; unfold in_int64, min_int64, len in *; lia).
  destruct (release_read sha256 format_date sha256_length date_plain (packages_text es) (gzipBytes (packages_text es))) as (rel & Hrr & Hc & Ha); [by apply Hint, (Hs' _ _ Op)|by apply Hint, (Hs' _ _ Og)|].
  assert (Forall (stanza_ok default_limits) es) as Hok.
  { apply Forall_forall. intros e [i He]%list_elem_of_lookup. destruct (Forall2_lookup_l _ _ _ _ _ Hd He) as (p & _ & body & stanza & r & Hb & Hr & -> & -> & _ & _ & Hlen & _).
    apply entry_ok; [by apply readControl_fit in Hr as [? _]|by apply Hreadable|rewrite Hroot; change (len r <= 2 ^ 20); lia|by apply Hint, (Hs _ _ Hb)|done]. }
  assert (Z.of_nat (length es) <= maxStanzas) as Hlen.
  { etransitivity; [|exact Hsize]. apply Nat2Z.inj_le, (entries_length keys); [done|intros k Hin; by apply Hkeys in Hin as [? _]|done]. }
  destruct (scan_packages es ps (contents s) prefix (scanFilenames unicode_lower (packages_text es, None) (∅, ∅)) Hd) as (seen & sums & Hscan & Hsum); [done..|].
  exists ps, (sums_replace (rm_ID remote) sums a). split_and!; [by eapply (enumerate_stable remote)|done| |].
  - intros p. rewrite Hps, Hkeys. split.
    + intros [(_ & Hp & ?) ?]. split; [|done]. apply has_prefix_spec in Hp as [r Hr]. rewrite <- app_assoc in Hr. apply app_inj_l in Hr as ->. apply has_prefix_app.
    + intros ([r ->]%has_prefix_spec & ? & Hin). split; [|done]. split_and!; [destruct Hin as (b & _ & Hb & _); by exists b|rewrite app_assoc; apply has_prefix_app|done].
  - intros p Hp. destruct (proj1 (Hps p) Hp) as [_ (body & stanza & Hb & _)]. exists body. split; [done|].
    unfold sums_lookup, sums_replace. cbn [ad_sums]. rewrite lookup_insert_eq. cbn [mbind option_bind]. rewrite Hsum by done. unfold checksum_of. by rewrite Hb.
Qed.
End mirrored.
