(* ===== verification/AptDemo.v ===== *)
(** A concrete personal apt repository, generated twice and apt_mirrored: the theorems of
    AptRepo and AptMirror at concrete decoders, and what two failures between the copies
    and the Release do to a client. *)
From S2P Require Import Prelude GoStr Domain Port RepoWrites CacheEngine Adapter XbpsIndex XbpsPackage XbpsRepo XbpsDemo AptStanza AptPackage AptRepo AptMirror.
Local Open Scope Z_scope.

Definition digest (b : string) : string := XbpsDemo.digest (fmt_int (len b) +:+ String.rev b).
Lemma apt_digest_length b : String.length (digest b) = 32%nat.
Proof. apply XbpsDemo.digest_length. Qed.
Definition deb (arch name : string) : string :=
  let control := "Package: " +:+ name +:+ nl +:+ "Architecture: " +:+ arch +:+ nl +:+ "Description: one" +:+ nl +:+ " two" +:+ nl in
  arMagic +:+ header "debian-binary" "4" +:+ "2.0" +:+ nl +:+ header "control.tar.zst" (fmt_int (4 + len control)) +:+ zstdMagic +:+ control.
Definition store : FakeStorage := mk_FakeStorage (<["repo/7/apt/pool/main/a/a/a_1_amd64.deb" := (deb "amd64" "a", 1)]>
  (<["repo/7/apt/pool/main/b/b/b_1_all.deb" := (deb "all" "b", 2)]> (<["repo/7/apt/pool/main/c/c/c_1_arm64.deb" := (deb "arm64" "c", 3)]>
  (<["repo/8/apt/pool/main/a/a/a_1_amd64.deb" := ("x", 3)]> ∅)))) 4.
Definition repo : Repo := mk_Repo 7 1 "mine" "apt" (mk_Quota 0 0) (mk_Retention 0 0) 0.
Definition gz (b : string) : string := gzipPrefix +:+ b.
Definition marshal (l : list string) : string := of_bits (encode l).
Definition unmarshal (s : string) : option (list string) := decode (to_bits s).
Lemma json l : unmarshal (marshal l) = Some l.
Proof. unfold unmarshal, marshal. rewrite to_of_bits. apply decode_encode. Qed.
Definition signer : Signer := mk_Signer (λ b, Ok ("signed " +:+ b, None)) (λ b, Ok ("sig", None)).
Definition date : string := "Mon, 02 Jan 2006 15:04:05 UTC".
Definition generate := GenerateIndexes (S := FakeStorage) AptPackage.read digest gz date marshal unmarshal (Some signer) (λ _, None) repo.
Definition after : FakeStorage := (generate store).2.
Lemma apt_generated_ok : generate store = (None, after).
Proof. unfold after. assert ((generate store).1 = None) as Hn by (vm_compute; reflexivity). destruct (generate store) as [e s]. simpl in Hn. by subst e. Qed.
Example after_packages : contents after !! "repo/7/apt/dists/stable/main/binary-amd64/packages" = Some (packages_text
  [[("Package", "a"); ("Architecture", "amd64"); ("Description", "one" +:+ nl +:+ "two"); ("Filename", "pool/main/a/a/a_1_amd64.deb"); ("Size", "189"); ("SHA256", hex_encode (digest (deb "amd64" "a")))];
   [("Package", "b"); ("Architecture", "all"); ("Description", "one" +:+ nl +:+ "two"); ("Filename", "pool/main/b/b/b_1_all.deb"); ("Size", "187"); ("SHA256", hex_encode (digest (deb "all" "b")))]]).
Proof. vm_compute. reflexivity. Qed.
Example apt_after_keys : length (sorted_keys (objects after)) = 12%nat.
Proof. vm_compute. reflexivity. Qed.
(** The package b is gone before the second generation. *)
Definition shrunk : FakeStorage := (fake_Delete "repo/7/apt/pool/main/b/b/b_1_all.deb" after).2.
Definition idx : string := index_dir (RepoPrefix repo).
Lemma store_addressed : addressed digest (RepoPrefix repo) (contents store).
Proof.
  intros h b Hb. assert (map_Forall (λ k _, has_prefix k "repo/7/apt/dists" = false) (contents store)) as Hall by (apply (bool_decide_unpack _); vm_compute; exact I).
  apply Hall in Hb. unfold by_hash, index_dir in Hb. rewrite <- !app_assoc in Hb. change (RepoPrefix repo +:+ "/dists/stable/main/binary-" +:+ ?x) with ("repo/7/apt/dists" +:+ ("/stable/main/binary-" +:+ x)) in Hb.
  by rewrite has_prefix_app in Hb.
Qed.
Lemma index_is_faithful_witness : ∃ keys : list string, (∀ k, k ∈ keys ↔ is_Some (contents store !! k) ∧ has_prefix k "repo/7/apt/pool/" = true ∧ is_deb k = true) ∧
  ∃ packages, contents after !! "repo/7/apt/dists/stable/main/binary-amd64/packages" = Some packages.
Proof.
  destruct (index_is_faithful (S := FakeStorage) AptPackage.read digest gz marshal unmarshal date (Some signer) (λ _, None) repo store after apt_generated_ok) as (keys & entries & _ & _ & Hk & _ & Ho).
  exists keys. split; [exact Hk|]. eexists. exact (oc_packages _ _ _ _ _ _ _ _ _ _ Ho).
Defined.
Lemma copies_are_addressed_witness : ∀ h b, contents after !! by_hash idx h = Some b → AptRepo.hash digest b = h.
Proof. exact (copies_are_addressed (S := FakeStorage) AptPackage.read digest gz marshal unmarshal date (Some signer) (λ _, None) repo store store_addressed). Defined.
Definition the_packages : string := default "" (contents after !! (idx +:+ "/packages")).
Lemma release_stays_fetchable_witness : ∃ b', contents (generate shrunk).2 !! by_hash idx (AptRepo.hash digest the_packages) = Some b' ∧
  AptRepo.hash digest b' = AptRepo.hash digest the_packages.
Proof.
  apply (release_stays_fetchable (S := FakeStorage) AptPackage.read digest gz marshal unmarshal date (Some signer) (λ _, None) date (Some signer) (λ _, None) repo store after shrunk "/packages" the_packages
    json store_addressed apt_generated_ok).
  - intros k Hk. change (fake_contents shrunk !! k = fake_contents after !! k). unfold shrunk, fake_Delete, fake_guarded.
    assert (k ≠ "repo/7/apt/pool/main/b/b/b_1_all.deb") as Hne by (intros ->; vm_compute in Hk; discriminate).
    destruct (ValidateKey _); [done|]. destruct (objects after !! _); [|done]. cbn [snd]. unfold fake_contents. cbn [objects]. by rewrite fmap_delete, lookup_delete_ne.
  - by left.
  - vm_compute. reflexivity.
Defined.

(** * A mirror *)
Definition upstream : Remote := mk_Remote 3 "mine" "apt" "https://example.org" ModeProxy true 0 ["stable/main"] "" None 0.
Definition served_key (path : string) : option string :=
  if String.eqb path "/apt/mine/dists/stable/Release" then Some "repo/7/apt/dists/stable/release"
  else if String.eqb path "/apt/mine/dists/stable/main/binary-amd64/Packages" then Some "repo/7/apt/dists/stable/main/binary-amd64/packages" else None.
Definition Fetch (path : string) : St unit (res (string * option error)) :=
  mret (match (served_key path ≫= λ k, contents after !! k) with Some b => Ok (b, None) | None => Err (NotFoundError "object" path) end).
Definition enumerated := Enumerate (D := unit) (λ s, s) Fetch (λ b, Ok ([b.1], b.2)) upstream (tt, mk_Adapter tt 0 ∅ 0 ∅).
Example apt_mirrored : enumerated.1 = Ok ["/pool/main/a/a/a_1_amd64.deb"; "/pool/main/b/b/b_1_all.deb"].
Proof. vm_compute. reflexivity. Qed.
Lemma store_readable k body stanza : contents store !! k = Some body → AptPackage.read body = Ok stanza → readable (index_entry digest k body stanza).
Proof.
  intros Hb Hr. assert (map_Forall (λ k b, (k, b) ∈ [("repo/7/apt/pool/main/a/a/a_1_amd64.deb", deb "amd64" "a"); ("repo/7/apt/pool/main/b/b/b_1_all.deb", deb "all" "b");
    ("repo/7/apt/pool/main/c/c/c_1_arm64.deb", deb "arm64" "c"); ("repo/8/apt/pool/main/a/a/a_1_amd64.deb", "x")]) (contents store)) as Hall by (apply (bool_decide_unpack _); vm_compute; exact I).
  apply Hall in Hb. rewrite !elem_of_cons in Hb. unfold readable.
  destruct Hb as [[= -> ->]|[[= -> ->]|[[= -> ->]|[[= -> ->]|?%elem_of_nil]]]]; [..|done]; vm_compute in Hr; [..|discriminate]; injection Hr as <-;
    (split; [vm_compute; discriminate|apply (bool_decide_unpack _); vm_compute; exact I]).
Qed.
Lemma mirror_of_generated_apt_witness : ∃ (paths : list string) m, enumerated = (Ok paths, (tt, m)) ∧ NoDup paths ∧
  ∀ p, p ∈ paths → ∃ body, contents store !! ("repo/7/apt" +:+ p) = Some body ∧ sums_lookup 3 p m = Some (mk_Checksum "sha256" (hex_encode (digest body))).
Proof.
  destruct (mirror_of_generated_apt (S := FakeStorage) (M := unit) (D := unit) (λ b, Ok ([drop 4 b], None)) (λ b, Ok ([drop 2 b], None)) (λ b, [b]) one_file (λ s, s) (λ s, s) digest gz marshal unmarshal
    date (Some signer) (λ _, None) (λ s, s) Fetch (λ b, Ok ([b.1], b.2)) apt_digest_length (ltac:(split; [reflexivity|vm_compute; discriminate])) repo upstream store after tt tt tt (mk_Adapter tt 0 ∅ 0 ∅)
    (default "" (contents after !! "repo/7/apt/dists/stable/release")) (default "" (contents after !! "repo/7/apt/dists/stable/main/binary-amd64/packages")))
    as (paths & m & He & Hnd & _ & Hsums).
  - exact apt_generated_ok.
  - split; vm_compute; discriminate.
  - by right.
  - assert (map_Forall (λ k b, ValidateKey k = None ∧ len b <= max_int64) (contents store)) as Hall; [|exact Hall].
    apply (bool_decide_unpack _). vm_compute. exact I.
  - assert (map_Forall (λ k b, len b <= max_int64) (contents after)) as Hall; [|exact Hall]. apply (bool_decide_unpack _). vm_compute. exact I.
  - vm_compute. discriminate.
  - exact store_readable.
  - vm_compute. reflexivity.
  - vm_compute. reflexivity.
  - vm_compute. reflexivity.
  - vm_compute. reflexivity.
  - exists paths, m. split; [exact He|]. split; [exact Hnd|exact Hsums].
Defined.

(** * Two failures

    A storage that takes everything but a Release. *)
Record NoRelease := mk_NoRelease { inner : FakeStorage }.
Definition on_inner {A} (f : St FakeStorage A) : St NoRelease A := zoom inner (λ t _, mk_NoRelease t) f.
#[local] Instance NoRelease_Storage : Storage NoRelease := {
  Writer := fakeWriter; Get k := on_inner (fake_Get k); GetRange k a n := on_inner (fake_GetRange k a n); Stat k := on_inner (fake_Stat k);
  Put k := if has_suffix k "/release" then mret (Err (Text "disk full")) else on_inner (fake_Put k);
  Write w c := on_inner (fake_Write w c); Commit w := on_inner (fake_Commit w); Abort w := on_inner (fake_Abort w);
  Delete k := on_inner (fake_Delete k); List p := on_inner (fake_List p)
}.
Definition failing (s : NoRelease) := GenerateIndexes (S := NoRelease) AptPackage.read digest gz date marshal unmarshal (Some signer) (λ _, None) repo s.
(** What remains of the copy that the Release of [after] names. *)
Definition published : string := by_hash idx (AptRepo.hash digest the_packages).
Definition once : NoRelease := (failing (mk_NoRelease shrunk)).2.
Definition emptied : NoRelease := mk_NoRelease (fake_Delete "repo/7/apt/pool/main/a/a/a_1_amd64.deb" (inner once)).2.
Definition twice : NoRelease := (failing emptied).2.
(** A generation that fails at its Release has replaced the marker: after two of them,
    with different packages, the Release that clients read is still the old one, and
    the copy of the index that it names is deleted. *)
Lemma two_failures :
  (failing (mk_NoRelease shrunk)).1 = Some (Wrap "apt.gen: release" (Text "disk full")) ∧ (failing emptied).1 = Some (Wrap "apt.gen: release" (Text "disk full")) ∧
  contents (inner twice) !! "repo/7/apt/dists/stable/release" = contents after !! "repo/7/apt/dists/stable/release" ∧
  is_Some (contents (inner once) !! published) ∧ contents (inner twice) !! published = None.
Proof. split_and!; [vm_compute; reflexivity..|eexists; vm_compute; reflexivity|vm_compute; reflexivity]. Qed.
