(* ===== verification/PacmanDb.v ===== *)
(** Packages and databases of pacman (internal/mod/ecosystem/pacman/pkginfo.go and
    parse.go, buildDescText of gen.go): the .PKGINFO of a package under its limits, the
    record that the generator writes of it, and the reader of databases with its
    limits, which every such record keeps. *)
From S2P Require Import Prelude GoStr Domain Port XbpsIndex XbpsPackage XbpsRepo AptStanza.
Local Open Scope Z_scope.

(** * The package (pkginfo.go) *)
Definition maxDecompressed : Z := 2 ^ 30.
Definition maxPkgInfoSize : Z := 64 * 1024.
Definition ErrDecompressTooLarge : error := Text "pacman: декомпрессия превысила лимит".
Definition ErrPkgInfoTooLarge : error := Text "pacman: .PKGINFO превышает лимит 64KiB".
(** Errors with [ErrBadZstd] or [ErrBadGzip] and a second cause. *)
Definition bad_zstd (e : error) : error := Wrap "pacman: некорректный zstd-поток" e.
Definition bad_gzip (e : error) : error := Wrap "pacman: некорректный gzip-поток" e.
Record PkgInfo := mk_PkgInfo {
  pi_Name : string; pi_Version : string; pi_Desc : string; pi_URL : string; pi_Arch : string; pi_Packager : string; pi_BuildDate : Z; pi_Size : Z;
  pi_License : list string; pi_Depends : list string; pi_Provides : list string; pi_Conflicts : list string
}.
Definition setOnceStr (p v : string) : string := if String.eqb p "" then v else p.
Definition setOnceInt (p : Z) (v : string) : Z := if p =? 0 then default p (parse_int v) else p.
Definition applyPkgInfoField (pi : PkgInfo) (key val : string) : PkgInfo :=
  let '(mk_PkgInfo n v d u a p b s l de pr co) := pi in
  if String.eqb key "pkgname" then mk_PkgInfo (setOnceStr n val) v d u a p b s l de pr co
  else if String.eqb key "pkgver" then mk_PkgInfo n (setOnceStr v val) d u a p b s l de pr co
  else if String.eqb key "pkgdesc" then mk_PkgInfo n v (setOnceStr d val) u a p b s l de pr co
  else if String.eqb key "url" then mk_PkgInfo n v d (setOnceStr u val) a p b s l de pr co
  else if String.eqb key "arch" then mk_PkgInfo n v d u (setOnceStr a val) p b s l de pr co
  else if String.eqb key "packager" then mk_PkgInfo n v d u a (setOnceStr p val) b s l de pr co
  else if String.eqb key "builddate" then mk_PkgInfo n v d u a p (setOnceInt b val) s l de pr co
  else if String.eqb key "size" then mk_PkgInfo n v d u a p b (setOnceInt s val) l de pr co
  else if String.eqb val "" then pi
  else if String.eqb key "license" then mk_PkgInfo n v d u a p b s (l ++ [val]) de pr co
  else if String.eqb key "depend" then mk_PkgInfo n v d u a p b s l (de ++ [val]) pr co
  else if String.eqb key "provides" then mk_PkgInfo n v d u a p b s l de (pr ++ [val]) co
  else if String.eqb key "conflict" then mk_PkgInfo n v d u a p b s l de pr (co ++ [val])
  else pi.
Definition apply_line (pi : PkgInfo) (line : string) : PkgInfo :=
  let line := trim_suffix line (String (byte 13) "") in
  if String.eqb line "" || has_prefix line "#" then pi
  else let '(key, val, ok) := cut "=" line in if ok then applyPkgInfoField pi (trim_space key) (trim_space val) else pi.
Definition no_PkgInfo : PkgInfo := mk_PkgInfo "" "" "" "" "" "" 0 0 [] [] [] [].
Definition parsePkgInfoBytes (data : string) : PkgInfo := foldl apply_line no_PkgInfo (split newline data).
Definition ParsePkgInfo (body : string * option error) : res PkgInfo :=
  let '(data, fin) := body in
  if maxPkgInfoSize <? len data then Err ErrPkgInfoTooLarge
  else match fin with Some e => Err (Wrap "pacman: чтение .PKGINFO" e) | None => Ok (parsePkgInfoBytes data) end.
(** [readPkgInfoFromTar]; [ctx_Err] answers in the order in which it is asked. *)
Fixpoint find_pkginfo (ctx_Err : nat → option error) (ms : list member) (fin : option error) : res PkgInfo :=
  match ctx_Err 0%nat with
  | Some e => Err (Wrap "pacman.pkg: отмена reindex" e)
  | None =>
      match ms with
      | [] => Err match fin with None => Text "pacman: .PKGINFO не найден в .pkg.tar" | Some e => Wrap "pacman: чтение tar .pkg" e end
      | m :: ms =>
          if String.eqb (trim_prefix (base_name (mb_name m)) "./") ".PKGINFO" then ParsePkgInfo (mb_body m) else find_pkginfo (λ n, ctx_Err (S n)) ms fin
      end
  end.
Definition readPkgInfoFromPackage (unzstd : string → res stream) (untar : stream → list member * option error) (ctx_Err : nat → option error) (body : string) : res PkgInfo :=
  match unzstd body with
  | Err e => Err (bad_zstd e)
  | Ok s => let '(ms, fin) := untar (limited maxDecompressed ErrDecompressTooLarge 0 s.1 s.2) in find_pkginfo ctx_Err ms fin
  end.
Example pkginfo : parsePkgInfoBytes (text_of ["# made by hand"; "pkgname = a"; "pkgname = b"; "pkgver=1-1" +:+ String (byte 13) ""; "size = x"; "size = 7"; "depend = c>=1"; "depend = d"; "junk"]) =
  mk_PkgInfo "a" "1-1" "" "" "" "" 0 7 [] ["c>=1"; "d"] [] [].
Proof. vm_compute. reflexivity. Qed.

(** * The record of the database (gen.go) *)
Definition descField (field value : string) : string := "%" +:+ field +:+ "%" +:+ nl +:+ value +:+ nl +:+ nl.
Definition optional (field value : string) : list (string * string) := if String.eqb value "" then [] else [(field, value)].
Definition optional_int (field : string) (value : Z) : list (string * string) := if value =? 0 then [] else [(field, fmt_int value)].
Definition optional_list (field : string) (value : list string) : list (string * string) := match value with [] => [] | _ => [(field, String.concat nl value)] end.
Definition desc_fields (pi : PkgInfo) (filename : string) (csize : Z) (sha : string) : list (string * string) :=
  [("FILENAME", filename); ("NAME", pi_Name pi); ("VERSION", pi_Version pi)] ++ optional "DESC" (pi_Desc pi) ++ optional "URL" (pi_URL pi) ++
  optional_list "LICENSE" (pi_License pi) ++ optional "ARCH" (pi_Arch pi) ++ optional_int "BUILDDATE" (pi_BuildDate pi) ++ optional "PACKAGER" (pi_Packager pi) ++
  [("CSIZE", fmt_int csize)] ++ optional_int "ISIZE" (pi_Size pi) ++ [("SHA256SUM", sha)] ++ optional_list "CONFLICTS" (pi_Conflicts pi) ++
  optional_list "PROVIDES" (pi_Provides pi) ++ optional_list "DEPENDS" (pi_Depends pi).
Definition buildDescText (pi : PkgInfo) (filename : string) (csize : Z) (sha : string) : string :=
  String.concat "" (map (λ f, descField f.1 f.2) (desc_fields pi filename csize sha)).

(** * The reader of databases (parse.go) *)
Record parseLimits := mk_parseLimits { pl_decompressed : Z; pl_entries : Z; pl_descSize : Z; pl_descLines : Z }.
Definition ErrTooManyEntries : error := Text "pacman: слишком много desc-записей".
Definition ErrDescTooLarge : error := Text "pacman: desc превышает лимит".
Definition errDecompressLimit : error := Text "decompress limit exceeded".
Definition errDescLimit : error := Text "desc limit exceeded".
Definition db_limits : parseLimits := mk_parseLimits maxDecompressed (2 ^ 20) (2 ^ 20) (2 ^ 14).
Record DescEntry := mk_DescEntry { de_Filename : string; de_Name : string; de_Version : string }.
(** [bufReader.readLine], line after line: no carriage return is kept, and the last
    line counts if something is on it. *)
Fixpoint drop_cr (s : string) : string :=
  match s with EmptyString => EmptyString | String c s => if Ascii.eqb c (byte 13) then drop_cr s else String c (drop_cr s) end.
Fixpoint trim_last (ls : list string) : list string :=
  match ls with [] => [] | [l] => if String.eqb l "" then [] else [l] | l :: ls => l :: trim_last ls end.
Definition desc_lines (b : string) : list string := trim_last (split newline (drop_cr b)).
Definition isFieldMarker (line : string) : bool := (2 <=? len line) && has_prefix line "%" && has_suffix line "%".
Definition marker_name (line : string) : string := String.substring 1 (String.length line - 2) line.
Definition once (v line : string) : string := if String.eqb v "" then trim_space line else v.
Definition setDescField (e : DescEntry) (field line : string) : DescEntry :=
  let '(mk_DescEntry f n v) := e in
  if String.eqb field "FILENAME" then mk_DescEntry (once f line) n v
  else if String.eqb field "NAME" then mk_DescEntry f (once n line) v
  else if String.eqb field "VERSION" then mk_DescEntry f n (once v line)
  else e.
(** One line, after the entry and the field that the lines belong to. *)
Definition desc_line (st : DescEntry * option string) (line : string) : DescEntry * option string :=
  let '(e, field) := st in
  if isFieldMarker line then (e, Some (marker_name line))
  else match field with None => st | Some f => (setDescField e f line, field) end.
(** A desc of the limit's size or more is refused, as is one with the limit's number of
    lines or more. *)
Definition readDesc (lim : parseLimits) (body : string * option error) : res DescEntry :=
  let '(b, fin) := body in
  let lines := desc_lines b in
  if (pl_descSize lim <=? len b) || (pl_descLines lim <=? Z.of_nat (length lines)) then Err ErrDescTooLarge
  else match fin with
  | Some e => Err (if errors_is errDescLimit e then ErrDescTooLarge else if errors_is errDecompressLimit e then e else Wrap "pacman: чтение desc" e)
  | None => Ok (foldl desc_line (mk_DescEntry "" "" "", None) lines).1
  end.
Fixpoint parse_members (lim : parseLimits) (count : Z) (ms : list member) (fin : option error) : list DescEntry * option error :=
  match ms with
  | [] => ([], match fin with None => None | Some e => Some (if errors_is errDecompressLimit e then ErrDecompressTooLarge else Wrap "pacman: чтение tar" e) end)
  | m :: ms =>
      if negb (mb_regular m && has_suffix (mb_name m) "/desc") then parse_members lim count ms fin
      else if pl_entries lim <=? count then ([], Some ErrTooManyEntries)
      else match readDesc lim (mb_body m) with
      | Err e => ([], Some e)
      | Ok entry => prod_map (cons entry) id (parse_members lim (count + 1) ms fin)
      end
  end.
Section database.
  Context (unzstd gunzip : string * option error → res stream) (untar : stream → list member * option error).
Definition newDBStream (body : string * option error) : res stream :=
  if has_prefix body.1 gzipPrefix then match gunzip body with Ok s => Ok s | Err e => Err (bad_gzip e) end
  else match unzstd body with Ok s => Ok s | Err e => Err (bad_zstd e) end.
Definition parseDB (lim : parseLimits) (body : string * option error) : list DescEntry * option error :=
  match newDBStream body with
  | Err e => ([], Some e)
  | Ok s =>
      let '(ms, fin) := untar (limited (pl_decompressed lim) errDecompressLimit 0 s.1 s.2) in
      let '(entries, err) := parse_members lim 0 ms fin in
      (entries, match err with Some e => Some (if errors_is errDecompressLimit e then ErrDecompressTooLarge else e) | None => None end)
  end.
Definition ParseDB (body : string * option error) : list DescEntry * option error := parseDB db_limits body.
End database.
Definition read_text (lines : list string) : res DescEntry := readDesc db_limits (text_of lines, None).
Example descs : read_text ["junk"; "%FILENAME%"; "a-1-1-any.pkg.tar.zst"; ""; "%NAME%"; " a "; "b"; ""; "%X%"; "%VERSION%"; "1-1"] = Ok (mk_DescEntry "a-1-1-any.pkg.tar.zst" "a" "1-1") ∧
  readDesc (mk_parseLimits 9 9 9 3) (text_of ["a"; "b"; "c"], None) = Err ErrDescTooLarge ∧ readDesc (mk_parseLimits 9 9 3 9) ("abc", None) = Err ErrDescTooLarge ∧
  readDesc (mk_parseLimits 9 9 3 9) ("ab", Some (Text "x")) = Err (Wrap "pacman: чтение desc" (Text "x")).
Proof. vm_compute. done. Qed.

(** * What is read of a package *)
Lemma trim_any_suffix ps fuel : ∀ s, ∃ p, s = p +:+ trim_any fuel ps s.
Proof.
  induction fuel as [|fuel IH]; intros s; [by exists ""|]. cbn [trim_any]. destruct (strip_any ps s) as [r|] eqn:Hs; [|by exists ""].
  apply strip_any_Some in Hs as (p & _ & ->). destruct (IH r) as [q Hq]. exists (p +:+ q). by rewrite <- app_assoc, <- Hq.
Qed.
Lemma trim_space_infix s : ∃ a b, s = a +:+ trim_space s +:+ b.
Proof.
  unfold trim_space, trim_right_space, trim_left_space. destruct (trim_any_suffix space_runes (String.length s) s) as [a Ha]. set (t := trim_any _ _ s) in *.
  destruct (trim_any_suffix (map String.rev space_runes) (String.length t) (String.rev t)) as [b Hb]. exists a, (String.rev b).
  rewrite <- rev_app, <- Hb, rev_rev. done.
Qed.
Lemma trim_space_keeps q s : all_bytes q s = true → all_bytes q (trim_space s) = true ∧ len (trim_space s) <= len s.
Proof.
  destruct (trim_space_infix s) as (a & b & Hs). intros Hq. rewrite Hs, !all_bytes_app in Hq. apply andb_prop in Hq as [_ [? _]%andb_prop]. split; [done|].
  rewrite Hs at 2. rewrite !len_app. pose proof (len_nonneg a). pose proof (len_nonneg b). lia.
Qed.
Definition line_ok (s : string) : Prop := no_sep newline s = true.
(** What the values weigh: every value of a list came on a line with a key of six
    bytes at least, and an equals sign. *)
Definition weight_of (l : list string) : Z := foldr (λ v n, len v + 7 + n) 0 l.
Definition cost (pi : PkgInfo) : Z :=
  len (pi_Name pi) + len (pi_Version pi) + len (pi_Desc pi) + len (pi_URL pi) + len (pi_Arch pi) + len (pi_Packager pi) +
  weight_of (pi_License pi) + weight_of (pi_Depends pi) + weight_of (pi_Provides pi) + weight_of (pi_Conflicts pi).
Definition values (pi : PkgInfo) : list string :=
  [pi_Name pi; pi_Version pi; pi_Desc pi; pi_URL pi; pi_Arch pi; pi_Packager pi] ++ pi_License pi ++ pi_Depends pi ++ pi_Provides pi ++ pi_Conflicts pi.
Record pi_fit (pi : PkgInfo) (n : Z) : Prop := { pf_cost : cost pi <= n; pf_lines : Forall line_ok (values pi); pf_ints : in_int64 (pi_BuildDate pi) ∧ in_int64 (pi_Size pi) }.
Lemma weight_snoc l v : weight_of (l ++ [v]) = weight_of l + (len v + 7).
Proof. unfold weight_of. induction l as [|x l IH]; cbn [app foldr]; [lia|]. rewrite IH. lia. Qed.
Lemma setOnceStr_spec p v : len (setOnceStr p v) <= len p + len v ∧ (line_ok p → line_ok v → line_ok (setOnceStr p v)).
Proof. unfold setOnceStr. pose proof (len_nonneg p). pose proof (len_nonneg v). destruct (String.eqb_spec p "") as [->|]; split; try done; lia. Qed.
Lemma setOnceInt_spec p v : in_int64 p → in_int64 (setOnceInt p v).
Proof. unfold setOnceInt. intros Hp. destruct (p =? 0); [|done]. destruct (parse_int v) eqn:Hv; [|done]. by eapply parse_int_range. Qed.
Lemma weight_nonneg l : 0 <= weight_of l.
Proof. unfold weight_of. induction l as [|v l IH]; cbn [foldr]; [lia|]. pose proof (len_nonneg v). lia. Qed.
Lemma applyPkgInfoField_fit pi key val n d : pi_fit pi n → line_ok val → len key + 1 + len val <= d → pi_fit (applyPkgInfoField pi key val) (n + d).
Proof.
  intros [Hc Hl [H1 H2]] Hv Hd. destruct pi as [na ve de ur ar pa b s li dp pr co]. unfold cost, values in *. cbn [pi_Name pi_Version pi_Desc pi_URL pi_Arch pi_Packager pi_BuildDate pi_Size pi_License pi_Depends pi_Provides pi_Conflicts app] in *.
  repeat (apply Forall_cons in Hl as [? Hl]). rewrite !Forall_app in Hl. destruct Hl as (? & ? & ? & ?).
  pose proof (len_nonneg val). pose proof (len_nonneg key).
  unfold applyPkgInfoField.
  repeat match goal with |- context [String.eqb ?a ?b] => destruct (String.eqb_spec a b) as [->|?] end;
    (split; [|unfold values|]); cbn [pi_Name pi_Version pi_Desc pi_URL pi_Arch pi_Packager pi_BuildDate pi_Size pi_License pi_Depends pi_Provides pi_Conflicts app];
    try (unfold cost; cbn [pi_Name pi_Version pi_Desc pi_URL pi_Arch pi_Packager pi_BuildDate pi_Size pi_License pi_Depends pi_Provides pi_Conflicts app]);
    try (split; first [done|by apply setOnceInt_spec]);
    try (repeat (constructor; [first [done|by apply setOnceStr_spec]|]); rewrite ?Forall_app; rewrite ?Forall_singleton; split_and!; done);
    rewrite ?weight_snoc;
    repeat match goal with |- context [setOnceStr ?p ?v] => pose proof (proj1 (setOnceStr_spec p v)); generalize dependent (setOnceStr p v); intros end;
    repeat match goal with H : context [len (String ?c ?s)] |- _ => let z := eval vm_compute in (len (String c s)) in change (len (String c s)) with z in H end; lia.
Qed.
Lemma apply_line_fit pi line n : pi_fit pi n → line_ok line → pi_fit (apply_line pi line) (n + len line).
Proof.
  intros Hpi Hl. assert (∀ m, n <= m → pi_fit pi m) as Hle by (intros m Hm; destruct Hpi; split; [lia|done|done]). unfold apply_line. fold (trim_cr line).
  pose proof (trim_cr_len line) as Ht. pose proof (trim_cr_no_sep newline line Hl) as Hs. pose proof (len_nonneg line).
  destruct (_ || _); [apply Hle; lia|]. destruct (cut "=" (trim_cr line)) as [[key val] []] eqn:Hcut; [|apply Hle; lia]. apply cut_found in Hcut as Heq.
  unfold no_sep in Hs. rewrite Heq, all_bytes_app in Hs. apply andb_prop in Hs as [Hk Hv]. cbn [all_bytes] in Hv. apply andb_prop in Hv as [_ Hv].
  destruct (trim_space_keeps _ _ Hk) as [_ Hk2]. destruct (trim_space_keeps _ _ Hv) as [Hv1 Hv2].
  assert (len key + 1 + len val <= len line) as Hlen by (rewrite Heq, len_app in Ht; unfold len in *; cbn [String.length] in Ht; lia).
  apply applyPkgInfoField_fit; [done|done|lia].
Qed.
Lemma split_total v : foldr (λ l n, len l + n) 0 (split newline v) <= len v.
Proof.
  induction v as [|c v IH]; [done|]. cbn [split]. assert (len (String c v) = len v + 1) as -> by (unfold len; cbn [String.length]; lia).
  destruct (Ascii.eqb newline c); [cbn [foldr]; change (len "") with 0; lia|]. destruct (split newline v) as [|x xs] eqn:Hs; [by destruct (split_nonempty newline v)|].
  cbn [foldr] in *. unfold len in *. cbn [String.length]. lia.
Qed.
Lemma ParsePkgInfo_fit body pi : ParsePkgInfo body = Ok pi → pi_fit pi maxPkgInfoSize.
Proof.
  unfold ParsePkgInfo. destruct body as [data fin]. destruct (Z.ltb_spec maxPkgInfoSize (len data)) as [|Hlen]; [done|]. destruct fin; [done|]. intros [= <-].
  pose proof (split_total data) as Ht. unfold parsePkgInfoBytes. pose proof (split_no_sep newline data) as Hs.
  assert (∀ ls pi n, Forall line_ok ls → pi_fit pi n → pi_fit (foldl apply_line pi ls) (n + foldr (λ l n, len l + n) 0 ls)) as Hgo.
  { induction ls as [|l ls IH]; intros pi n Hls Hpi; cbn [foldl foldr]; [by rewrite Z.add_0_r|]. apply Forall_cons in Hls as [Hl Hls].
    rewrite Z.add_assoc. apply IH; [done|]. by apply apply_line_fit. }
  destruct (Hgo (split newline data) no_PkgInfo 0 Hs) as [Hc Hv Hi]; [split; [done|repeat constructor|done]|]. split; [lia|done|done].
Qed.

(** * The records that are written keep the limits of the reader *)
Definition field_text (f : string * string) : list string := ("%" +:+ f.1 +:+ "%") :: split newline f.2 ++ [""].
Lemma text_of_lines v : text_of (split newline v) = v +:+ nl.
Proof.
  unfold text_of. rewrite <- (concat_split newline v) at 2. pose proof (split_nonempty newline v) as Hne. destruct (split newline v) as [|x xs]; [done|]. clear Hne.
  revert x. induction xs as [|y xs IH]; intros x; [cbn; by rewrite ?app_nil_r|]. cbn [map] in *. rewrite concat_empty_cons, IH, concat_cons.
  change (String newline (String.concat (String newline "") (y :: xs))) with (nl +:+ String.concat (String newline "") (y :: xs)). by rewrite <- !app_assoc.
Qed.
Lemma descField_lines f : descField f.1 f.2 = text_of (field_text f).
Proof.
  unfold field_text, descField. change (?x :: ?l) with ([x] ++ l). rewrite !text_of_app, text_of_lines. unfold text_of. cbn [map String.concat]. by rewrite <- !app_assoc.
Qed.
Lemma buildDescText_lines pi filename csize sha : buildDescText pi filename csize sha = text_of (desc_fields pi filename csize sha ≫= field_text).
Proof.
  unfold buildDescText. induction (desc_fields pi filename csize sha) as [|f fs IH]; [done|]. cbn [map]. rewrite concat_empty_cons, IH, bind_cons, text_of_app. by rewrite descField_lines.
Qed.
Lemma drop_cr_app s t : drop_cr (s +:+ t) = drop_cr s +:+ drop_cr t.
Proof. induction s as [|c s IH]; [done|]. change (String c s +:+ t) with (String c (s +:+ t)). cbn [drop_cr]. by destruct (Ascii.eqb c (byte 13)); rewrite IH. Qed.
Lemma drop_cr_keeps q s : all_bytes q s = true → all_bytes q (drop_cr s) = true.
Proof. induction s as [|c s IH]; [done|]. cbn [all_bytes drop_cr]. intros [Hc Hs]%andb_prop. destruct (Ascii.eqb c (byte 13)); [by apply IH|]. cbn [all_bytes]. by rewrite Hc, IH. Qed.
Lemma drop_cr_none s : all_bytes (λ c, negb (Ascii.eqb c (byte 13))) s = true → drop_cr s = s.
Proof. induction s as [|c s IH]; [done|]. cbn [all_bytes drop_cr]. intros [Hc Hs]%andb_prop. destruct (Ascii.eqb c (byte 13)); [done|]. by rewrite IH. Qed.
Lemma trim_last_snoc ls : trim_last (ls ++ [""]) = ls.
Proof. induction ls as [|l ls IH]; [done|]. cbn [app trim_last]. rewrite IH. by destruct ls. Qed.
Lemma desc_lines_text ls : Forall line_ok ls → desc_lines (text_of ls) = map drop_cr ls.
Proof.
  intros Hls. unfold desc_lines. assert (drop_cr (text_of ls) = text_of (map drop_cr ls)) as ->.
  { clear Hls. unfold text_of. induction ls as [|l ls IH]; [done|]. cbn [map]. rewrite !concat_empty_cons, !drop_cr_app, IH. done. }
  rewrite <- (app_nil_r (text_of _)), split_lines; [apply trim_last_snoc|]. apply Forall_fmap. eapply Forall_impl; [exact Hls|]. intros l. apply drop_cr_keeps.
Qed.
(** The lines that a list of values makes, and its bytes. *)
Lemma joined l : Forall line_ok l → l ≠ [] → split newline (String.concat nl l) = l ∧ len (String.concat nl l) <= weight_of l ∧ 7 * Z.of_nat (length l) <= weight_of l.
Proof.
  intros Hl. induction Hl as [|x l Hx Hl IH]; [done|]. intros _. destruct l as [|y l].
  - cbn. split; [by apply split_nosep|]. pose proof (len_nonneg x). lia.
  - destruct IH as (H1 & H2 & H3); [done|]. change nl with (String newline "") in *. rewrite concat_cons, split_app, split_nosep, H1 by done.
    split; [done|]. unfold weight_of in *. cbn [foldr length] in *. pose proof (len_nonneg x). rewrite len_app. unfold len at 2. cbn [String.length]. unfold len in *. lia.
Qed.
Definition sum (g : string * string → Z) (fs : list (string * string)) : Z := foldr (λ f n, g f + n) 0 fs.
Lemma sum_app g a b : sum g (a ++ b) = sum g a + sum g b.
Proof. unfold sum. induction a as [|f a IH]; cbn [app foldr]; [lia|]. rewrite IH. lia. Qed.
Definition field_size (f : string * string) : Z := len f.1 + len f.2 + 5.
Definition field_height (f : string * string) : Z := 2 + Z.of_nat (length (split newline f.2)).
Lemma desc_size pi filename csize sha : len (buildDescText pi filename csize sha) = sum field_size (desc_fields pi filename csize sha).
Proof.
  unfold buildDescText, sum. induction (desc_fields pi filename csize sha) as [|f fs IH]; [done|]. cbn [map foldr]. rewrite concat_empty_cons, len_app, IH.
  unfold descField, field_size. rewrite !len_app. change (len nl) with 1. change (len "%") with 1. lia.
Qed.
Lemma desc_height fs : Z.of_nat (length (fs ≫= field_text)) = sum field_height fs.
Proof.
  unfold sum. induction fs as [|f fs IH]; [done|]. rewrite bind_cons, length_app. cbn [foldr]. rewrite <- IH. unfold field_height, field_text. cbn [length]. rewrite length_app. cbn [length]. lia.
Qed.
(** The bounds of some fields: bytes and seven times the lines. *)
Definition within (fs : list (string * string)) (bytes lines : Z) : Prop := sum field_size fs <= bytes ∧ 7 * sum field_height fs <= lines.
Lemma within_app a b x y x' y' : within a x y → within b x' y' → within (a ++ b) (x + x') (y + y').
Proof. unfold within. rewrite !sum_app. lia. Qed.
Lemma within_one k v : line_ok v → len k <= 10 → within [(k, v)] (15 + len v) 21.
Proof. intros Hv Hk. unfold within, sum. cbn [foldr]. unfold field_size, field_height. cbn [fst snd]. rewrite split_nosep by done. cbn [length]. lia. Qed.
Lemma within_optional k v : line_ok v → len k <= 10 → within (optional k v) (15 + len v) 21.
Proof. intros Hv Hk. unfold optional. destruct (String.eqb v ""); [|by apply within_one]. pose proof (len_nonneg v). unfold within, sum. cbn [foldr]. lia. Qed.
Lemma int_line n : in_int64 n → line_ok (fmt_int n) ∧ len (fmt_int n) <= 20.
Proof.
  intros Hn. pose proof (fmt_int_short n Hn). split; [|unfold len; lia]. destruct (Z_le_gt_dec 0 n) as [H0|H0].
  - destruct (fmt_int_nonneg n H0) as (_ & Hd & _). eapply all_bytes_impl; [|exact Hd]. intros c Hc. by destruct (Ascii.eqb_spec newline c) as [<-|].
  - destruct n as [|p|p]; [lia|lia|]. destruct (fmt_int_nonneg (Zpos p)) as (_ & Hd & _); [lia|]. change (fmt_int (Zneg p)) with (String "-" (fmt_int (Zpos p))).
    unfold line_ok, no_sep. cbn [all_bytes]. change (all_bytes (λ d, negb (Ascii.eqb newline d)) (fmt_int (Zpos p)) = true).
    eapply all_bytes_impl; [|exact Hd]. intros c Hc. by destruct (Ascii.eqb_spec newline c) as [<-|].
Qed.
Lemma within_int k n : in_int64 n → len k <= 10 → within (optional_int k n) 35 21.
Proof.
  intros Hn Hk. destruct (int_line n Hn) as [Hl Hs]. unfold optional_int. destruct (n =? 0); [unfold within, sum; cbn [foldr]; lia|].
  destruct (within_one k (fmt_int n) Hl Hk). split; [lia|done].
Qed.
Lemma within_list k l : Forall line_ok l → len k <= 10 → within (optional_list k l) (15 + weight_of l) (14 + weight_of l).
Proof.
  intros Hl Hk. pose proof (weight_nonneg l). unfold optional_list. destruct l as [|x l]; [unfold within, sum; cbn [foldr]; lia|].
  destruct (joined (x :: l) Hl) as (H1 & H2 & H3); [done|]. unfold within, sum. cbn [foldr]. unfold field_size, field_height. cbn [fst snd]. rewrite H1. lia.
Qed.
Lemma desc_within pi filename csize sha : pi_fit pi maxPkgInfoSize → line_ok filename → in_int64 csize → line_ok sha →
  within (desc_fields pi filename csize sha) (maxPkgInfoSize + len filename + len sha + 300) (maxPkgInfoSize + 400).
Proof.
  intros [Hc Hv [H1 H2]] Hf Hs Hsha. unfold values in Hv. destruct pi as [na ve de ur ar pa b s li dp pr co]. unfold cost, desc_fields in *.
  cbn [pi_Name pi_Version pi_Desc pi_URL pi_Arch pi_Packager pi_BuildDate pi_Size pi_License pi_Depends pi_Provides pi_Conflicts app] in *.
  repeat (apply Forall_cons in Hv as [? Hv]). rewrite !Forall_app in Hv. destruct Hv as (? & ? & ? & ?). destruct (int_line csize Hs) as [Hcl Hcs].
  change (("FILENAME", filename) :: ("NAME", na) :: ("VERSION", ve) :: ?l) with ([("FILENAME", filename)] ++ [("NAME", na)] ++ [("VERSION", ve)] ++ l).
  change (("CSIZE", fmt_int csize) :: ?l) with ([("CSIZE", fmt_int csize)] ++ l). change (("SHA256SUM", sha) :: ?l) with ([("SHA256SUM", sha)] ++ l).
  assert (∀ fs x y x' y', within fs x y → x <= x' → y <= y' → within fs x' y') as Hmono by (intros ? ? ? ? ? [] ? ?; split; lia).
  pose proof (len_nonneg na). pose proof (len_nonneg ve). pose proof (len_nonneg de). pose proof (len_nonneg ur). pose proof (len_nonneg ar). pose proof (len_nonneg pa).
  eapply Hmono; [repeat (eapply within_app; [first [apply within_optional|apply within_int|apply within_list|apply within_one]; first [done|vm_compute; discriminate]|]);
    apply within_list; [done|vm_compute; discriminate]| |]; lia.
Qed.
Lemma fields_lines pi filename csize sha : Forall line_ok (desc_fields pi filename csize sha ≫= field_text).
Proof.
  assert (Forall (λ f, line_ok f.1) (desc_fields pi filename csize sha)) as Hk.
  { unfold desc_fields, optional, optional_int, optional_list. rewrite !Forall_app. split_and!; repeat case_match; repeat constructor. }
  apply Forall_bind. eapply Forall_impl; [exact Hk|]. intros f Hf. unfold field_text. constructor; [|apply Forall_app; split; [apply split_no_sep|by repeat constructor]].
  unfold line_ok, no_sep in *. by rewrite !all_bytes_app, Hf.
Qed.
(** A file name that is no marker is what is read first and stays. *)
Lemma setDescField_keeps e field line : de_Filename e ≠ "" → de_Filename (setDescField e field line) = de_Filename e.
Proof.
  intros He. destruct e as [f n v]. cbn [de_Filename] in He. unfold setDescField, once. repeat case_match; cbn [de_Filename]; try done. by destruct (String.eqb_spec f "").
Qed.
Lemma desc_lines_keep ls : ∀ st, de_Filename st.1 ≠ "" → de_Filename (foldl desc_line st ls).1 = de_Filename st.1.
Proof.
  induction ls as [|l ls IH]; intros [e field] He; [done|]. cbn [foldl]. assert (de_Filename (desc_line (e, field) l).1 = de_Filename e) as Hl.
  { unfold desc_line. destruct (isFieldMarker l); [done|]. destruct field as [f|]; [|done]. by apply setDescField_keeps. }
  rewrite IH; [done|]. by rewrite Hl.
Qed.
Lemma desc_read pi filename csize sha : pi_fit pi maxPkgInfoSize → all_bytes allowedKeyByte filename = true → filename ≠ "" → len filename <= 767 → in_int64 csize → line_ok sha → len sha <= 100 →
  ∃ e, readDesc db_limits (buildDescText pi filename csize sha, None) = Ok e ∧ de_Filename e = filename.
Proof.
  intros Hp Hf Hne Hfl Hs Hsha Hsl. assert (line_ok filename) as Hfline by (eapply all_bytes_impl; [|exact Hf]; intros c Hc; by destruct (Ascii.eqb_spec newline c) as [<-|]).
  destruct (desc_within pi filename csize sha Hp Hfline Hs Hsha) as [Hsize Hheight]. rewrite <- desc_size in Hsize. rewrite <- desc_height in Hheight.
  pose proof (fields_lines pi filename csize sha) as Hlines. unfold readDesc. rewrite buildDescText_lines, desc_lines_text by done. rewrite <- buildDescText_lines, length_map.
  change (pl_descSize db_limits) with (2 ^ 20). change (pl_descLines db_limits) with (2 ^ 14). change maxPkgInfoSize with 65536 in *.
  rewrite (proj2 (Z.leb_gt _ (len _))) by lia. rewrite (proj2 (Z.leb_gt (2 ^ 14) _)) by lia. cbn [orb]. eexists. split; [done|].
  unfold desc_fields. cbn [app]. rewrite bind_cons. unfold field_text at 1. cbn [fst snd]. rewrite split_nosep by done. cbn [app map foldl].
  assert (drop_cr filename = filename) as -> by (apply drop_cr_none; eapply all_bytes_impl; [|exact Hf]; intros c Hc; by destruct (Ascii.eqb_spec c (byte 13)) as [->|]).
  assert (isFieldMarker filename = false) as Hm.
  { unfold isFieldMarker. destruct filename as [|c r]; [done|]. cbn [all_bytes] in Hf. apply andb_prop in Hf as [Hc _]. unfold has_prefix. cbn [strip_prefix].
    destruct (Ascii.eqb_spec "%" c) as [<-|]; [done|]. by rewrite andb_false_r. }
  change (drop_cr ("%" +:+ "FILENAME" +:+ "%")) with "%FILENAME%". change (desc_line (mk_DescEntry "" "" "", None) "%FILENAME%") with (mk_DescEntry "" "" "", Some "FILENAME").
  assert (desc_line (mk_DescEntry "" "" "", Some "FILENAME") filename = (mk_DescEntry (trim_space filename) "" "", Some "FILENAME")) as -> by (unfold desc_line; by rewrite Hm).
  rewrite (trim_space_outside allowedKeyByte) by done.
  pose proof (desc_lines_keep [drop_cr ""] (mk_DescEntry filename "" "", Some "FILENAME") Hne) as Hk. cbn [foldl] in Hk.
  rewrite desc_lines_keep by (by rewrite Hk). exact Hk.
Qed.

(** * What is read of a database *)
(** A database as the generator packs it: a directory and a file for each record. *)
Definition tar_entry : Type := string * option string.
Definition tar_member (e : tar_entry) : member := match e with (n, None) => mk_member false n 0 ("", None) | (n, Some b) => mk_member true n (len b) (b, None) end.
Definition record_entries (dir desc : string) : list tar_entry := [(dir +:+ "/", None); (dir +:+ "/desc", Some desc)].
Lemma parse_records (records : list (string * string)) : ∀ entries count, Forall2 (λ r e, readDesc db_limits (r.2, None) = Ok e) records entries → count + Z.of_nat (length records) <= 2 ^ 20 →
  parse_members db_limits count (tar_member <$> (records ≫= λ r, record_entries r.1 r.2)) None = (entries, None).
Proof.
  induction records as [|[dir desc] records IH]; intros entries count Hall Hc; inversion Hall as [|? e ? es He Hes]; subst; [done|]. cbn [length] in Hc.
  rewrite bind_cons, fmap_app. cbn [fst snd record_entries fmap list_fmap tar_member app parse_members mb_regular mb_name mb_body andb negb].
  assert (has_suffix (dir +:+ "/desc") "/desc" = true) as -> by (unfold has_suffix; by rewrite (proj2 (strip_suffix_Some "/desc" _ dir))). cbn [negb].
  change (pl_entries db_limits) with (2 ^ 20). rewrite (proj2 (Z.leb_gt _ _)) by lia. cbn [snd] in He. rewrite He, (IH es) by (done || lia). done.
Qed.
