(* ===== verification/PacmanRepo.v ===== *)
(** The generator of personal pacman repositories and the enumeration of a pacman
    mirror (internal/mod/ecosystem/pacman/gen.go and pacman.go): the database of the
    newest packages and its signature; and the paths that a mirror reads from it. *)
From S2P Require Import Prelude GoStr Domain Port RepoWrites CacheEngine Dedupe PacmanVercmp XbpsIndex XbpsPackage XbpsRepo AptStanza AptRepo PacmanDb.
Local Open Scope Z_scope.

(** * The generator (gen.go) *)
Definition Name : string := "pacman".
Definition pkgTar : string := ".pkg.tar.zst".
Definition ValidateObjectPath (p : string) : option error :=
  if has_suffix p pkgTar then None
  else if has_suffix p ".pkg.tar.xz" || has_suffix p ".pkg.tar.gz"
  then Some (ValidationError "путь pacman-репо" p "xz/gz не поддерживается: нет декодера в whitelist зависимостей (переупакуйте в .pkg.tar.zst)")
  else Some (ValidationError "путь pacman-репо" p "неизвестное расширение (ожидалось .pkg.tar.zst)").
(** [pkgFamily]: the segments before the first one, the first apart, that begins with a
    digit. *)
Fixpoint before_version (before segs : list string) : option (list string) :=
  match segs with
  | [] => None
  | s :: segs => if match s with String c _ => is_digit c | EmptyString => false end then Some before else before_version (before ++ [s]) segs
  end.
Definition pkgFamily (stem : string) : option string :=
  match split "-" stem with [] => None | s :: segs => String.concat "-" <$> before_version [s] segs end.
Definition pacmanFamily (p : string) : option string :=
  let name := base_name p in if negb (has_suffix name pkgTar) then None else pkgFamily (trim_suffix name pkgTar).
Example pacman_families : pacmanFamily "/core/os/x86_64/python-pysocks-1.7.1-1-any.pkg.tar.zst" = Some "python-pysocks" ∧
  pacmanFamily "gcc-libs-14.2.1-1-x86_64.pkg.tar.zst" = Some "gcc-libs" ∧ pacmanFamily "1a-b.pkg.tar.zst" = None ∧ pacmanFamily "core.db" = None.
Proof. vm_compute. done. Qed.
Definition by_dir (a b : descEntry) : Prop := str_le (dir a) (dir b).
#[global] Instance by_dir_dec a b : Decision (by_dir a b).
Proof. unfold by_dir. apply _. Defined.
Section generator.
  Context {S : Type} `{Storage S}.
  (** The decoders of packages; the digest; the writer of a tar under zstd; the answers of
      [ctx.Err()] at a package: before it, and at each member of its tar. *)
  Context (unzstd : string → res stream) (untar : stream → list member * option error) (sha256 : string → string)
    (pack : list tar_entry → res string) (signer : option Signer) (ctx_Err : nat → nat → option error).
Definition collectPkgTar (prefix : string) : St S (res (list string)) :=
  let listPrefix := prefix +:+ "/" in
  l ← List listPrefix;
  match l with
  | (_, Some e) => mret (Err (Wrap ("листинг " +:+ listPrefix) e))
  | (metas, None) => mret (Ok (merge_sort str_le (List.filter (λ k, has_suffix k pkgTar) (mt_Key <$> metas))))
  end.
Definition desc_of_package (pkgKey body : string) (pi : PkgInfo) : descEntry :=
  mk_descEntry (pi_Name pi +:+ "-" +:+ pi_Version pi) (buildDescText pi (base_name pkgKey) (len body) (hex_encode (sha256 body))) (pi_Name pi) (pi_Version pi).
Definition buildDescEntry (i : nat) (pkgKey : string) : St S (res descEntry) :=
  obj ← Port.Get pkgKey;
  match obj with
  | Err e => mret (Err e)
  | Ok (_, body) =>
      match readPkgInfoFromPackage unzstd untar (λ j, ctx_Err i (1 + j)) body with
      | Err e => mret (Err e)
      | Ok pi => mret (Ok (desc_of_package pkgKey body pi))
      end
  end.
Fixpoint buildDescs (i : nat) (keys : list string) (descs : list descEntry) : St S (res (list descEntry)) :=
  match keys with
  | [] => mret (Ok descs)
  | key :: keys =>
      match ctx_Err i 0 with
      | Some e => mret (Err e)
      | None =>
          r ← buildDescEntry i key;
          match r with
          | Err e => mret (Err (Wrap ("pacman.gen: " +:+ key) e))
          | Ok de => buildDescs (1 + i) keys (descs ++ [de])
          end
      end
  end.
Definition buildDBTarZst (descs : list descEntry) : res string := pack (descs ≫= λ de, record_entries (dir de) (desc de)).
(** The entries of the database. [sort.Slice] leaves the order of entries of one
    directory open; here they keep theirs. *)
Definition index_of (descs : list descEntry) : list descEntry := merge_sort by_dir (dedupeDescs descs).1.
Definition db_key (repo : Repo) : string := RepoPrefix repo +:+ "/" +:+ repo_Name repo +:+ ".db".
Definition sign_db (dbKey db : string) (s : Signer) : St S (option error) :=
  match SignDetached s db with
  | Err e => mret (Some (Wrap "pacman.gen: .db.sig" e))
  | Ok (_, Some e) => mret (Some (Wrap "pacman.gen: .db.sig: чтение" e))
  | Ok (sig, None) => e ← writeAtomic (dbKey +:+ ".sig") sig; mret match e with Some e => Some (Wrap "pacman.gen: .db.sig" e) | None => None end
  end.
(** The reports of progress and the log are left out. *)
Definition GenerateIndexes (repo : Repo) : St S (option error) :=
  if negb (String.eqb (repo_Ecosystem repo) Name) then mret (Some (UnsupportedError "pacman.gen" ("экосистема " +:+ repo_Ecosystem repo +:+ " ≠ pacman")))
  else
    keys ← collectPkgTar (RepoPrefix repo);
    match keys with
    | Err e => mret (Some (Wrap "pacman.gen: enumerate" e))
    | Ok pkgKeys =>
        r ← buildDescs 0 pkgKeys [];
        match r with
        | Err e => mret (Some e)
        | Ok descs =>
            match buildDBTarZst (index_of descs) with
            | Err e => mret (Some (Wrap "pacman.gen: сборка .db" e))
            | Ok db =>
                e ← writeAtomic (db_key repo) db;
                match e, signer with
                | Some e, _ => mret (Some (Wrap "pacman.gen: .db" e))
                | None, Some s => sign_db (db_key repo) db s
                | None, None => mret None
                end
            end
        end
    end.
End generator.

(** * The enumeration of a mirror (pacman.go) *)
Record pacmanRepo := mk_pacmanRepo { pr_repo : string; pr_arch : string }.
Definition bad_part_byte (c : ascii) : bool := Ascii.eqb c " " || Ascii.eqb c (byte 0).
Definition clean_part (s : string) : bool := all_bytes (λ c, negb (bad_part_byte c)) s.
Fixpoint include_repos (include : list string) (out : list pacmanRepo) : res (list pacmanRepo) :=
  match include with
  | [] => match out with [] => Err (ValidationError "include" "" "нет валидных repo/arch") | _ => Ok out end
  | item :: include =>
      let item := trim_space item in
      if String.eqb item "" then include_repos include out
      else
        let '(repo, arch, ok) := cut "/" item in
        if negb ok || String.eqb repo "" || String.eqb arch "" then Err (ValidationError "include" item "ожидался формат «repo/arch»")
        else if negb (clean_part repo) || negb (clean_part arch) then Err (ValidationError "include" item "repo/arch содержат недопустимые символы")
        else include_repos include (out ++ [mk_pacmanRepo repo arch])
  end.
Definition parsePacmanInclude (include : list string) : res (list pacmanRepo) :=
  match include with
  | [] => Err (ValidationError "include" "" ("pacman sync: укажите repo/arch (например [" +:+ String "034" ("core/x86_64" +:+ String "034" "])")))
  | _ => include_repos include []
  end.
Section enumeration.
  Context {M : Type} (Fetch : string → St M (res (string * option error))) (unzstd_body gunzip_body : string * option error → res stream)
    (untar : stream → list member * option error).
Definition dbFallback (dbPath : string) (notFound : error) : St M (res (string * option error)) :=
  body ← Fetch (dbPath +:+ ".tar.gz");
  mret match body with Ok body => Ok body | Err e => if has_type is_NotFound e then Err notFound else Err e end.
Definition fetch_db (dbPath : string) : St M (res (string * option error)) :=
  body ← Fetch dbPath;
  match body with
  | Ok body => mret (Ok body)
  | Err e => if negb (has_type is_NotFound e) then mret (Err e) else dbFallback dbPath e
  end.
Definition repo_paths (repoDir : string) (entries : list DescEntry) : list string :=
  entries ≫= λ e, let fn := trim_space (de_Filename e) in if String.eqb fn "" then [] else ["/" +:+ repoDir +:+ "/" +:+ fn].
Definition enumerateRepo (remoteName : string) (r : pacmanRepo) : St M (res (list string)) :=
  let repoDir := pr_repo r +:+ "/os/" +:+ pr_arch r in
  body ← fetch_db ("/" +:+ Name +:+ "/" +:+ remoteName +:+ "/" +:+ repoDir +:+ "/" +:+ pr_repo r +:+ ".db");
  match body with
  | Err e => mret (Err e)
  | Ok body =>
      let '(entries, err) := ParseDB unzstd_body gunzip_body untar body in
      match err with Some e => mret (Err (Wrap "pacman: parse db" e)) | None => mret (Ok (repo_paths repoDir entries)) end
  end.
Fixpoint enumerateRepos (remoteName : string) (repos : list pacmanRepo) (seen : gset string) (paths : list string) : St M (res (list string)) :=
  match repos with
  | [] => mret (Ok paths)
  | r :: repos =>
      got ← enumerateRepo remoteName r;
      match got with
      | Err e => mret (Err (Wrap ("pacman: enumerate " +:+ pr_repo r +:+ "/" +:+ pr_arch r) e))
      | Ok got => let '(seen, paths) := foldl add_path (seen, paths) got in enumerateRepos remoteName repos seen paths
      end
  end.
(** Where there is a fetcher. *)
Definition Enumerate (remote : Remote) : St M (res (list string)) :=
  match parsePacmanInclude (rm_Include remote) with Err e => mret (Err e) | Ok repos => enumerateRepos (rm_Name remote) repos ∅ [] end.
End enumeration.

(** * What a generation does *)
Section effects.
  Context {S : Type} `{Storage S} `{!StorageLaws S}.
  Context (unzstd : string → res stream) (untar : stream → list member * option error) (sha256 : string → string)
    (pack : list tar_entry → res string) (signer : option Signer) (ctx_Err : nat → nat → option error).
Abbreviation generate := (GenerateIndexes unzstd untar sha256 pack signer ctx_Err).
Abbreviation build_descs := (buildDescs unzstd untar sha256 ctx_Err).
Definition is_package (prefix k : string) : Prop := has_prefix k (prefix +:+ "/") = true ∧ has_suffix k pkgTar = true.
(** A record says what the bytes of its package say. *)
Definition describes (m : gmap string string) (k : string) (de : descEntry) : Prop := ∃ body pi ctx,
  m !! k = Some body ∧ readPkgInfoFromPackage unzstd untar ctx body = Ok pi ∧ de = desc_of_package sha256 k body pi.
Lemma collectPkgTar_keeps p : keeps contents (collectPkgTar p).
Proof. unfold collectPkgTar. keeps_tac. Qed.
Lemma buildDescEntry_keeps i k : keeps contents (buildDescEntry unzstd untar sha256 ctx_Err i k).
Proof. unfold buildDescEntry. keeps_tac. Qed.
Lemma buildDescs_keeps keys : ∀ i descs, keeps contents (build_descs i keys descs).
Proof.
  induction keys as [|k keys IH]; intros i descs; cbn [buildDescs]; [keeps_tac|]. destruct (ctx_Err i 0); [keeps_tac|].
  apply keeps_bind; [apply buildDescEntry_keeps|]. intros [de|e]; [apply IH|keeps_tac].
Qed.
Lemma collectPkgTar_Ok prefix s keys s' : collectPkgTar prefix s = (Ok keys, s') → NoDup keys ∧ ∀ k, k ∈ keys ↔ is_Some (contents s !! k) ∧ is_package prefix k.
Proof.
  unfold collectPkgTar, mbind, st_bind. pose proof (List_sub (prefix +:+ "/") s) as Hsub. pose proof (List_nodup (prefix +:+ "/") s) as Hnd.
  pose proof (λ k, List_complete (prefix +:+ "/") s k (listable_slash _)) as Hcomp.
  destruct (List (prefix +:+ "/") s) as [[metas [e|]] s1]; [done|]. simpl in *. intros [= <- _]. split; [rewrite merge_sort_Permutation; by apply NoDup_List_filter|].
  intros k. rewrite merge_sort_Permutation, list_elem_of_In, List.filter_In, <- list_elem_of_In. unfold is_package. split.
  - intros [(m & -> & Hm)%list_elem_of_fmap Hs]. destruct (Hsub m Hm) as (Hp & b & Hb & _). eauto.
  - intros (Hk & Hp & Hs). split; [by apply Hcomp|done].
Qed.
Lemma buildDescs_Ok keys : ∀ i descs s out s', build_descs i keys descs s = (Ok out, s') → ∃ new, out = descs ++ new ∧ Forall2 (describes (contents s)) keys new.
Proof.
  induction keys as [|k keys IH]; intros i descs s out s'; cbn [buildDescs]; [intros [= <- _]; exists []; by rewrite (right_id_L [] (++))|].
  destruct (ctx_Err i 0); [done|]. unfold mbind, st_bind. pose proof (buildDescEntry_keeps i k s) as Hk.
  destruct (buildDescEntry _ _ _ _ i k s) as [[de|e] s1] eqn:He; [|done]. simpl in Hk. intros Hrun. apply IH in Hrun as (new & -> & Hnew). rewrite Hk in Hnew.
  exists (de :: new). rewrite <- (assoc_L (++)). split; [done|]. constructor; [|done]. revert He. unfold buildDescEntry, mbind, st_bind.
  pose proof (Get_Ok k s) as Hg. destruct (Port.Get k s) as [[[m body]|e] s2]; [|done]. destruct (Hg m body eq_refl) as (Hc & _ & _).
  destruct (readPkgInfoFromPackage _ _ _ body) as [pi|] eqn:Hr; [|done]. intros [= <- _]. by exists body, pi, (λ j, ctx_Err i (1 + j)).
Qed.
Lemma sign_db_through (P : string → Prop) dbKey db sg : P (dbKey +:+ ".sig") → moves (through P) (sign_db dbKey db sg).
Proof.
  intros HP s. unfold sign_db. destruct (SignDetached sg db) as [[sig [e|]]|e]; [done| |done]. unfold mbind, st_bind.
  pose proof (writeAtomic_through P (dbKey +:+ ".sig") sig HP s) as Hw. by destruct (writeAtomic _ sig s) as [[e|] s1].
Qed.
Definition publish_db (repo : Repo) (db : string) : St S (option error) :=
  e ← writeAtomic (db_key repo) db;
  match e, signer with Some e, _ => mret (Some (Wrap "pacman.gen: .db" e)) | None, Some sg => sign_db (db_key repo) db sg | None, None => mret None end.
Lemma pacman_generation_run repo s : (contents (generate repo s).2 = contents s ∧ (generate repo s).1 ≠ None) ∨
  ∃ keys descs db s0, NoDup keys ∧ (∀ k, k ∈ keys ↔ is_Some (contents s !! k) ∧ is_package (RepoPrefix repo) k) ∧ Forall2 (describes (contents s)) keys descs ∧
    buildDBTarZst pack (index_of descs) = Ok db ∧ contents s0 = contents s ∧ generate repo s = publish_db repo db s0.
Proof.
  unfold GenerateIndexes. destruct (negb _); [by left|]. unfold mbind, st_bind. pose proof (collectPkgTar_keeps (RepoPrefix repo) s) as Hc1.
  destruct (collectPkgTar (RepoPrefix repo) s) as [[keys|e] s1] eqn:Hk; simpl in Hc1; [|by left]. apply collectPkgTar_Ok in Hk as [Hnd Hkeys].
  pose proof (buildDescs_keeps keys 0 [] s1) as Hc2. destruct (build_descs 0 keys [] s1) as [[descs|e] s2] eqn:Hr; simpl in Hc2; [|left; split; simpl; congruence].
  apply buildDescs_Ok in Hr as (new & Hnew & Hall). simpl in Hnew. subst new. rewrite Hc1 in Hall.
  destruct (buildDBTarZst pack (index_of descs)) as [db|e] eqn:Hdb; [|left; split; simpl; congruence]. right. exists keys, descs, db, s2. split_and!; [done..|congruence|done].
Qed.
Lemma index_perm descs : Permutation (index_of descs) (dedupeDescs descs).1.
Proof. apply merge_sort_Permutation. Qed.
Lemma sig_ne k : k ≠ k +:+ ".sig".
Proof. intros Hk. rewrite <- (app_nil_r k) in Hk at 1. by apply app_inj_l in Hk. Qed.
Lemma publish_db_Ok repo db s : (publish_db repo db s).1 = None → contents (publish_db repo db s).2 !! db_key repo = Some db ∧
  ∀ sg, signer = Some sg → ∃ sig, SignDetached sg db = Ok (sig, None) ∧ contents (publish_db repo db s).2 !! (db_key repo +:+ ".sig") = Some sig.
Proof.
  unfold publish_db, mbind, st_bind. destruct (writeAtomic (db_key repo) db s) as [[e|] s1] eqn:Hw; [done|]. apply writeAtomic_None in Hw.
  destruct signer as [sg|]; [|split; [simpl; by rewrite Hw, lookup_insert_eq|done]]. intros Hn. split.
  - rewrite (sign_db_through (λ k, k = db_key repo +:+ ".sig") (db_key repo) db sg eq_refl s1); [by rewrite Hw, lookup_insert_eq|apply sig_ne].
  - intros ? [= <-]. unfold sign_db in *. destruct (SignDetached sg db) as [[sig [e|]]|e]; [done| |done]. unfold mbind, st_bind in *.
    destruct (writeAtomic _ sig s1) as [[e|] s2] eqn:Hw2; [done|]. apply writeAtomic_None in Hw2. exists sig. split; [done|]. simpl. by rewrite Hw2, lookup_insert_eq.
Qed.

(** C37: what a successful generation has done: the records are those of all the packages
    of the repository, each as its own bytes say; of them the newest of every name are
    the database, in the order of their directories, which is the object beside the
    packages that has the name of the repository; with a subscriber its signature is
    there. Nothing else has changed, and a generation that fails has changed only
    these two. *)
Theorem database_is_faithful repo s : (∀ k, k ≠ db_key repo → k ≠ db_key repo +:+ ".sig" → contents (generate repo s).2 !! k = contents s !! k) ∧
  ((generate repo s).1 = None → ∃ keys descs db, NoDup keys ∧ (∀ k, k ∈ keys ↔ is_Some (contents s !! k) ∧ is_package (RepoPrefix repo) k) ∧
    Forall2 (describes (contents s)) keys descs ∧
    (∀ de, de ∈ index_of descs ↔ newest_desc (name de) descs = Some de) ∧ NoDup (name <$> index_of descs) ∧ Sorted by_dir (index_of descs) ∧
    buildDBTarZst pack (index_of descs) = Ok db ∧ contents (generate repo s).2 !! db_key repo = Some db ∧
    (∀ sg, signer = Some sg → ∃ sig, SignDetached sg db = Ok (sig, None) ∧ contents (generate repo s).2 !! (db_key repo +:+ ".sig") = Some sig)).
Proof.
  destruct (pacman_generation_run repo s) as [[Hc Hn]|(keys & descs & db & s0 & Hnd & Hkeys & Hall & Hdb & Hc & ->)]; [split; [intros k _ _; by rewrite Hc|done]|].
  split.
  - intros k H1 H2. rewrite <- Hc. unfold publish_db, mbind, st_bind.
    pose proof (writeAtomic_through (λ k, k = db_key repo ∨ k = db_key repo +:+ ".sig") (db_key repo) db (or_introl eq_refl) s0) as Hw.
    destruct (writeAtomic (db_key repo) db s0) as [[e|] s1]; simpl in Hw; [apply Hw; naive_solver|]. destruct signer as [sg|]; [|apply Hw; naive_solver].
    pose proof (sign_db_through (λ k, k = db_key repo ∨ k = db_key repo +:+ ".sig") (db_key repo) db sg (or_intror eq_refl) s1) as Hsg.
    rewrite Hsg by naive_solver. apply Hw. naive_solver.
  - intros Hn. exists keys, descs, db. split_and!; [done..| | | |done| |].
    + intros de. rewrite index_perm. apply dedupe_out_newest.
    + rewrite index_perm. apply dedupe_nodup.
    + apply Sorted_merge_sort. intros a b. unfold by_dir. apply str_le_total.
    + by apply (publish_db_Ok repo db s0).
    + by apply (publish_db_Ok repo db s0).
Qed.
End effects.

(** * A mirror of a generated repository *)
Lemma readPkgInfoFromPackage_fit unzstd untar ctx body pi : readPkgInfoFromPackage unzstd untar ctx body = Ok pi → pi_fit pi maxPkgInfoSize.
Proof.
  unfold readPkgInfoFromPackage. destruct (unzstd body) as [s|]; [|done]. destruct (untar _) as [ms fin]. revert ctx.
  induction ms as [|m ms IH]; intros ctx; cbn [find_pkginfo]; destruct (ctx 0%nat); try done. destruct (String.eqb _ ".PKGINFO"); [apply ParsePkgInfo_fit|apply IH].
Qed.
Lemma base_name_spec k : ∃ p, k = p +:+ base_name k ∧ no_sep "/" (base_name k) = true.
Proof.
  unfold base_name, no_sep. induction k as [|c k (p & IH1 & IH2)]; [by exists ""|]. cbn [cut_last] in *. destruct (cut_last "/" k) as [[l r]|] eqn:Hc.
  - exists (String c p). split; [by rewrite IH1 at 1|done].
  - destruct (Ascii.eqb_spec "/" c) as [<-|Hne]; [by exists "/"|]. exists "". split; [done|]. cbn [all_bytes]. rewrite (proj2 (Ascii.eqb_neq "/" c)) by done. done.
Qed.
Lemma package_base prefix k : is_package prefix k → ValidateKey k = None → all_bytes allowedKeyByte (base_name k) = true ∧ base_name k ≠ "" ∧ len (base_name k) <= 767.
Proof.
  intros [_ Hs] Hv%ValidateKey_ok. destruct (base_name_spec k) as (p & Hk & Hn). pose proof (key_ok_bytes _ Hv) as Hb. pose proof (key_ok_length _ Hv) as Hl.
  rewrite Hk, all_bytes_app in Hb. apply andb_prop in Hb as [_ Hb]. split_and!; [done| |rewrite Hk, length_app_str in Hl; unfold len; lia].
  intros He. pose proof (key_ok_segments _ Hv) as Hseg. unfold has_suffix in Hs. apply bool_decide_eq_true in Hs as [r Hr%strip_suffix_Some].
  rewrite He, app_nil_r in Hk. unfold base_name in He.
  assert (last_byte k = Some "t"%char) as Hlast by (rewrite Hr, last_byte_app by done; done).
  clear -He Hlast. revert He. induction k as [|c k IH]; [done|]. cbn [cut_last]. destruct (cut_last "/" k) as [[l r]|] eqn:Hc.
  - intros ->. apply IH; [|done]. by destruct k.
  - destruct (Ascii.eqb_spec "/" c) as [<-|]; [|done]. intros ->. done.
Qed.
Section mirrored.
  Context {S M : Type} `{Storage S} `{!StorageLaws S}.
  Context (unzstd : string → res stream) (untar : stream → list member * option error) (sha256 : string → string)
    (pack : list tar_entry → res string) (tar_size : list tar_entry → Z) (signer : option Signer) (ctx_Err : nat → nat → option error)
    (Fetch : string → St M (res (string * option error))) (unzstd_body gunzip_body : string * option error → res stream).
  (** A digest has 32 bytes; what [pack] has made is a tar under zstd of its entries. *)
  Hypothesis sha256_length : ∀ b, String.length (sha256 b) = 32%nat.
  Hypothesis pack_decodes : ∀ ms data, pack ms = Ok data → has_prefix data gzipPrefix = false ∧
    ∃ chunks, unzstd_body (data, None) = Ok (chunks, None) ∧ total chunks = tar_size ms ∧ untar (chunks, None) = (tar_member <$> ms, None).
  Abbreviation describes := (describes unzstd untar sha256).
Lemma described_read m k de prefix : describes m k de → is_package prefix k → ValidateKey k = None → (∀ b, m !! k = Some b → len b <= max_int64) →
  ∃ e, readDesc db_limits (desc de, None) = Ok e ∧ de_Filename e = base_name k.
Proof.
  intros (body & pi & ctx & Hb & Hr & ->) Hp Hv Hlen. destruct (package_base prefix k Hp Hv) as (H1 & H2 & H3). apply readPkgInfoFromPackage_fit in Hr.
  destruct (hex_encode_spec (sha256 body)) as (Hhex & _ & _ & Hl). rewrite sha256_length in Hl. specialize (Hlen _ Hb). apply desc_read; [done..| | |].
  - unfold in_int64, min_int64, len in *. lia.
  - eapply all_bytes_impl; [|exact Hhex]. intros c Hc. by destruct (Ascii.eqb_spec newline c) as [<-|].
  - unfold len. rewrite Hl. lia.
Qed.
Lemma ParseDB_packed descs db entries : buildDBTarZst pack descs = Ok db → (∀ ms, pack ms = Ok db → tar_size ms < maxDecompressed) →
  Forall2 (λ de e, readDesc db_limits (desc de, None) = Ok e) descs entries → Z.of_nat (length descs) <= 2 ^ 20 → ParseDB unzstd_body gunzip_body untar (db, None) = (entries, None).
Proof.
  intros Hdb Hsize Hall Hlen. destruct (pack_decodes _ _ Hdb) as (Hgz & chunks & Hz & Ht & Hu). unfold ParseDB, parseDB, newDBStream. cbn [fst]. rewrite Hgz, Hz. cbn [fst snd].
  rewrite limited_below by (rewrite Ht; cbn [pl_decompressed db_limits]; by apply Hsize). rewrite Hu.
  assert ((descs ≫= λ de, record_entries (dir de) (desc de)) = ((λ de, (dir de, desc de)) <$> descs) ≫= λ r, record_entries r.1 r.2) as ->.
  { clear. induction descs as [|de descs IH]; [done|]. rewrite fmap_cons, !bind_cons. by rewrite IH. }
  rewrite (parse_records _ entries) by first [by rewrite length_fmap|by rewrite Forall2_fmap_l]. done.
Qed.
Lemma repo_paths_named repoDir entries : Forall (λ e, de_Filename e ≠ "" ∧ all_bytes allowedKeyByte (de_Filename e) = true) entries →
  repo_paths repoDir entries = (λ e, "/" +:+ repoDir +:+ "/" +:+ de_Filename e) <$> entries.
Proof.
  induction 1 as [|e entries [Hne Hb] _ IH]; [done|]. unfold repo_paths in *. rewrite bind_cons, fmap_cons, IH. cbv zeta. rewrite (trim_space_outside allowedKeyByte) by done.
  by rewrite (proj2 (String.eqb_neq _ "")).
Qed.
Lemma entries_exist (P : descEntry → string → Prop) descs : (∀ de, de ∈ descs → ∃ k e, P de k ∧ readDesc db_limits (desc de, None) = Ok e ∧ de_Filename e = base_name k) →
  ∃ entries, Forall2 (λ de e, readDesc db_limits (desc de, None) = Ok e) descs entries ∧ Forall2 (λ de e, ∃ k, P de k ∧ de_Filename e = base_name k) descs entries.
Proof.
  induction descs as [|de descs IH]; intros Hall; [by exists []|]. destruct IH as (entries & H1 & H2); [intros; apply Hall; by right|].
  destruct (Hall de) as (k & e & Hp & Hr & Hf); [by left|]. exists (e :: entries). split; constructor; eauto.
Qed.

(** C38: from an upload to a mirror: the database that a generation has written, fetched
    by a mirror, is read without an error, if the repository holds at most 2^20 objects
    and the uncompressed database is less than 1 GiB, limits of the reader which the
    generator does not keep by itself; within the other two, on the bytes and on the
    lines of a record, is every record that it makes, whatever the package holds. The
    mirror lists once each of the packages in the index, under its file name
    beside the database, and nothing else. *)
Theorem mirror_of_generated_pacman repo remote r s db m m' :
  (GenerateIndexes unzstd untar sha256 pack signer ctx_Err repo s).1 = None → contents (GenerateIndexes unzstd untar sha256 pack signer ctx_Err repo s).2 !! db_key repo = Some db →
  parsePacmanInclude (rm_Include remote) = Ok [r] →
  (∀ k b, contents s !! k = Some b → ValidateKey k = None ∧ len b <= max_int64) → Z.of_nat (size (contents s)) <= 2 ^ 20 →
  (∀ ms, pack ms = Ok db → tar_size ms < maxDecompressed) →
  Fetch ("/pacman/" +:+ rm_Name remote +:+ "/" +:+ (pr_repo r +:+ "/os/" +:+ pr_arch r) +:+ "/" +:+ pr_repo r +:+ ".db") m = (Ok (db, None), m') →
  ∃ keys descs, (∀ k, k ∈ keys ↔ is_Some (contents s !! k) ∧ is_package (RepoPrefix repo) k) ∧ Forall2 (describes (contents s)) keys descs ∧
    ∃ paths, Enumerate Fetch unzstd_body gunzip_body untar remote m = (Ok paths, m') ∧ NoDup paths ∧
    ∀ p, p ∈ paths ↔ ∃ k de, k ∈ keys ∧ de ∈ index_of descs ∧ describes (contents s) k de ∧ p = "/" +:+ (pr_repo r +:+ "/os/" +:+ pr_arch r) +:+ "/" +:+ base_name k.
Proof.
  intros Hn Hdb Hi Hs Hsize Htar Hf. destruct (pacman_generation_run unzstd untar sha256 pack signer ctx_Err repo s) as [[_ Hn']|(keys & descs & db' & s0 & Hnd & Hkeys & Hall & Hpack & _ & Heq)]; [by destruct Hn'|].
  assert (db' = db) as -> by (rewrite Heq in Hn, Hdb; rewrite (proj1 (publish_db_Ok signer repo db' s0 Hn)) in Hdb; congruence).
  exists keys, descs. split_and!; [done..|]. set (repoDir := pr_repo r +:+ "/os/" +:+ pr_arch r) in *.
  assert (∀ k de, k ∈ keys → describes (contents s) k de → ∃ e, readDesc db_limits (desc de, None) = Ok e ∧ de_Filename e = base_name k) as Hread.
  { intros k de Hk Hd. apply Hkeys in Hk as [[b Hb] Hp]. apply (described_read (contents s) k de (RepoPrefix repo)); [done|done|by apply (Hs k b)|]. intros b' Hb'. by apply (Hs k b'). }
  destruct (entries_exist (λ de k, k ∈ keys ∧ describes (contents s) k de) (index_of descs)) as (entries & Hentries & Hnames).
  { intros de Hde. rewrite index_perm in Hde. apply dedupe_sub in Hde. apply list_elem_of_lookup in Hde as [i Hde]. destruct (Forall2_lookup_r _ _ _ _ _ Hall Hde) as (k & Hk & Hd).
    apply list_elem_of_lookup_2 in Hk. destruct (Hread k de Hk Hd) as (e & ? & ?). exists k, e. by split_and!. }
  assert (repo_paths repoDir entries = (λ e, "/" +:+ repoDir +:+ "/" +:+ de_Filename e) <$> entries) as Hpaths.
  { apply repo_paths_named. apply Forall_forall. intros e [i He]%list_elem_of_lookup. destruct (Forall2_lookup_r _ _ _ _ _ Hnames He) as (de & _ & k & [Hk _] & ->).
    apply Hkeys in Hk as [[b Hb] Hp]. destruct (package_base _ k Hp) as (? & ? & _); [by apply (Hs k b)|]. done. }
  assert (Z.of_nat (length (index_of descs)) <= 2 ^ 20) as Hlen.
  { etransitivity; [|exact Hsize]. apply Nat2Z.inj_le. rewrite index_perm. transitivity (length descs).
    - apply submseteq_length, NoDup_submseteq; [|intros d; apply dedupe_sub]. apply (NoDup_fmap_1 name). apply dedupe_nodup.
    - rewrite <- (Forall2_length _ _ _ Hall), <- size_dom, <- (size_list_to_set (C := gset string)) by done. apply subseteq_size. intros k Hin%elem_of_list_to_set.
      by apply elem_of_dom, Hkeys. }
  destruct (add_paths (repo_paths repoDir entries) ∅ []) as [Hndp Hinp]; [set_solver|constructor|].
  unfold Enumerate. rewrite Hi. cbn [enumerateRepos]. unfold mbind, st_bind, enumerateRepo, fetch_db. unfold mbind, st_bind. cbv zeta. change ("/" +:+ Name +:+ "/" +:+ ?x) with ("/pacman/" +:+ x). fold repoDir.
  rewrite Hf. cbn [mret st_ret]. rewrite (ParseDB_packed (index_of descs) db entries) by done. cbn [mret st_ret].
  destruct (foldl add_path (∅, []) (repo_paths repoDir entries)) as [seen out]. cbn [snd] in *. exists out. split_and!; [done|done|].
  intros p. rewrite Hinp, elem_of_nil, Hpaths, list_elem_of_fmap. split.
  - intros [[]|(e & -> & He)]. apply list_elem_of_lookup in He as [i He]. destruct (Forall2_lookup_r _ _ _ _ _ Hnames He) as (de & Hde & k & [Hk Hd] & ->).
    exists k, de. split_and!; [done|by apply list_elem_of_lookup_2 with i|done|done].
  - intros (k & de & Hk & Hde & Hd & ->). right. apply list_elem_of_lookup in Hde as [i Hde]. destruct (Forall2_lookup_l _ _ _ _ _ Hentries Hde) as (e & He & Hr).
    destruct (Hread k de Hk Hd) as (e' & Hr' & Hf'). rewrite Hr in Hr'. injection Hr' as <-. exists e. split; [by rewrite Hf'|by apply list_elem_of_lookup_2 with i].
Qed.
End mirrored.
