(* ===== verification/PacmanDemo.v ===== *)
(** A concrete personal pacman repository, generated and mirrored: the theorems of
    PacmanRepo at concrete decoders, and what becomes of a package in a subdirectory. *)
From S2P Require Import Prelude GoStr Domain Port RepoWrites CacheEngine Dedupe PacmanVercmp XbpsIndex XbpsPackage XbpsRepo XbpsDemo AptStanza AptRepo AptDemo PacmanDb PacmanRepo.
Local Open Scope Z_scope.

(** * Decoders

    A tar under zstd is the magic of zstd and a number in binary that codes the entries. *)
Definition tar_bytes (ms : list tar_entry) : string := of_bits (encode ms).
Definition pack (ms : list tar_entry) : res string := Ok (zstdMagic +:+ tar_bytes ms).
Definition tar_size (ms : list tar_entry) : Z := len (tar_bytes ms).
Definition payload (b : string) : string := match b with String _ (String _ (String _ (String _ s))) => s | _ => "" end.
Definition unzstd_body (b : string * option error) : res stream := Ok ([payload b.1], b.2).
Definition unzstd (b : string) : res stream := unzstd_body (b, None).
Definition gunzip_body (b : string * option error) : res stream := Err (Text "gzip").
Definition untar (s : stream) : list member * option error := (tar_member <$> default [] (decode (to_bits (String.concat "" s.1))), s.2).
Lemma tar_decodes ms data : pack ms = Ok data → has_prefix data gzipPrefix = false ∧
  ∃ chunks, unzstd_body (data, None) = Ok (chunks, None) ∧ total chunks = tar_size ms ∧ untar (chunks, None) = (tar_member <$> ms, None).
Proof.
  intros [= <-]. split; [reflexivity|]. exists [tar_bytes ms]. split_and!; [reflexivity|unfold total, tar_size; simpl; lia|].
  unfold untar. cbn [fst snd String.concat]. unfold tar_bytes. by rewrite to_of_bits, decode_encode.
Qed.
Lemma pack_size ms data : pack ms = Ok data → len data = 4 + tar_size ms.
Proof. intros [= <-]. unfold tar_size, len. rewrite length_app_str. simpl. lia. Qed.

(** * The repository *)
Definition package (name ver : string) (more : list string) : string :=
  match pack [(".MTREE", Some "m"); (".PKGINFO", Some (text_of (["pkgname = " +:+ name; "pkgver = " +:+ ver; "arch = any"] ++ more)))] with Ok b => b | Err _ => "" end.
Definition store : FakeStorage := mk_FakeStorage (<["repo/7/pacman/a-1-1-any.pkg.tar.zst" := (package "a" "1-1" [], 1)]>
  (<["repo/7/pacman/a-1.2-1-any.pkg.tar.zst" := (package "a" "1.2-1" [], 2)]> (<["repo/7/pacman/b-3-1-any.pkg.tar.zst" := (package "b" "3-1" ["depend = a"; "depend = c"], 3)]>
  (<["repo/7/pacman/sub/c-1-1-any.pkg.tar.zst" := (package "c" "1-1" ["size = 5"], 3)]> (<["repo/8/pacman/a-1-1-any.pkg.tar.zst" := ("x", 3)]> ∅))))) 4.
Definition repo : Repo := mk_Repo 7 1 "core" "pacman" (mk_Quota 0 0) (mk_Retention 0 0) 0.
Definition generate := GenerateIndexes (S := FakeStorage) unzstd untar AptDemo.digest pack (Some AptDemo.signer) (λ _ _, None) repo.
Definition after : FakeStorage := (generate store).2.
Lemma pacman_generated_ok : (generate store).1 = None.
Proof. vm_compute. reflexivity. Qed.
Definition the_db : string := default "" (contents after !! db_key repo).
Example pacman_after_keys : sorted_keys (objects after) = ["repo/7/pacman/a-1-1-any.pkg.tar.zst"; "repo/7/pacman/a-1.2-1-any.pkg.tar.zst"; "repo/7/pacman/b-3-1-any.pkg.tar.zst";
  "repo/7/pacman/core.db"; "repo/7/pacman/core.db.sig"; "repo/7/pacman/sub/c-1-1-any.pkg.tar.zst"; "repo/8/pacman/a-1-1-any.pkg.tar.zst"].
Proof. vm_compute. reflexivity. Qed.
Example the_entries : (λ m, mb_name m) <$> (untar ([payload the_db], None)).1 = ["a-1.2-1/"; "a-1.2-1/desc"; "b-3-1/"; "b-3-1/desc"; "c-1-1/"; "c-1-1/desc"].
Proof. vm_compute. reflexivity. Qed.
Lemma database_is_faithful_witness : ∃ (keys : list string) (descs : list descEntry), (∀ k, k ∈ keys ↔ is_Some (contents store !! k) ∧ is_package "repo/7/pacman" k) ∧
  NoDup (name <$> index_of descs) ∧ buildDBTarZst pack (index_of descs) = Ok the_db.
Proof.
  destruct (database_is_faithful (S := FakeStorage) unzstd untar AptDemo.digest pack (Some AptDemo.signer) (λ _ _, None) repo store) as [_ Hok].
  destruct (Hok pacman_generated_ok) as (keys & descs & db & _ & Hk & _ & _ & Hnd & _ & Hdb & Hat & _). exists keys, descs.
  split; [exact Hk|]. split; [exact Hnd|]. rewrite Hdb. unfold the_db, after, generate. by rewrite Hat.
Defined.

(** * A mirror *)
Definition upstream : Remote := mk_Remote 3 "mine" "pacman" "https://example.org" ModeProxy true 0 ["core/x86_64"] "" None 0.
Definition Fetch (path : string) : St unit (res (string * option error)) :=
  mret (if String.eqb path "/pacman/mine/core/os/x86_64/core.db" then Ok (the_db, None) else Err (NotFoundError "object" path)).
Definition mirrored_paths := Enumerate Fetch unzstd_body gunzip_body untar upstream tt.
(** The records name files, not keys: a package in a subdirectory is listed beside the
    database, where it is not. *)
Lemma subdirectory_is_lost : mirrored_paths.1 = Ok ["/core/os/x86_64/a-1.2-1-any.pkg.tar.zst"; "/core/os/x86_64/b-3-1-any.pkg.tar.zst"; "/core/os/x86_64/c-1-1-any.pkg.tar.zst"] ∧
  is_Some (contents after !! "repo/7/pacman/sub/c-1-1-any.pkg.tar.zst") ∧ contents after !! "repo/7/pacman/c-1-1-any.pkg.tar.zst" = None ∧
  ValidateObjectPath "sub/c-1-1-any.pkg.tar.zst" = None.
Proof. split_and!; [vm_compute; reflexivity|eexists; vm_compute; reflexivity|vm_compute; reflexivity..]. Qed.
Lemma mirror_of_generated_pacman_witness : ∃ paths : list string, mirrored_paths = (Ok paths, tt) ∧ NoDup paths.
Proof.
  destruct (mirror_of_generated_pacman (S := FakeStorage) (M := unit) unzstd untar AptDemo.digest pack tar_size (Some AptDemo.signer) (λ _ _, None) Fetch unzstd_body gunzip_body
    apt_digest_length tar_decodes repo upstream (mk_pacmanRepo "core" "x86_64") store the_db tt tt) as (keys & descs & _ & _ & paths & He & Hnd & _).
  - exact pacman_generated_ok.
  - vm_compute. reflexivity.
  - reflexivity.
  - assert (map_Forall (λ k b, ValidateKey k = None ∧ len b <= max_int64) (contents store)) as Hall; [|exact Hall]. apply (bool_decide_unpack _). vm_compute. exact I.
  - vm_compute. discriminate.
  - intros ms Hp. assert (len the_db < maxDecompressed) as Hd by (vm_compute; reflexivity). rewrite (pack_size ms the_db Hp) in Hd. lia.
  - reflexivity.
  - exists paths. split; [exact He|exact Hnd].
Defined.
