(* ===== verification/ApkPackage.v ===== *)
(** Packages of apk (internal/mod/ecosystem/apk/pkginfo.go): the .PKGINFO under its
    limit, and the control section, the gzip member of the package that holds it, whose
    compressed bytes the index of a repository has the digest of. *)
From S2P Require Import Prelude GoStr Domain Port XbpsIndex XbpsPackage XbpsRepo AptStanza PacmanDb.
Local Open Scope Z_scope.

Definition maxDecompressedApk : Z := 2 ^ 30.
Definition maxPkgInfoSize : Z := 64 * 1024.
Definition ErrDecompressTooLarge : error := Text "apk: декомпрессия превысила лимит".
Definition ErrPkgInfoTooLarge : error := Text "apk: .PKGINFO превышает лимит 64KiB".
(** Errors with [ErrBadApk], alone or with a second cause; the text tells the first. *)
Definition bad_apk (what : string) (e : error) : error := Wrap ("apk: некорректный .apk: " +:+ what) e.
Definition no_pkginfo : error := Text "apk: некорректный .apk: .PKGINFO не найден".

(** * The .PKGINFO *)
Record PkgInfo := mk_PkgInfo {
  ap_Name : string; ap_Version : string; ap_Desc : string; ap_URL : string; ap_Arch : string; ap_Maintainer : string; ap_Origin : string;
  ap_BuildDate : Z; ap_Size : Z; ap_License : list string; ap_Depends : list string; ap_Provides : list string; ap_InstallIf : list string
}.
Definition setOnceStr (p v : string) : string := if String.eqb p "" then v else p.
Definition setOnceInt (p : Z) (v : string) : Z := if p =? 0 then default p (parse_int v) else p.
Definition applyPkgInfoField (pi : PkgInfo) (key val : string) : PkgInfo :=
  let '(mk_PkgInfo n v d u a m o b s l de pr ii) := pi in
  if String.eqb key "pkgname" then mk_PkgInfo (setOnceStr n val) v d u a m o b s l de pr ii
  else if String.eqb key "pkgver" then mk_PkgInfo n (setOnceStr v val) d u a m o b s l de pr ii
  else if String.eqb key "pkgdesc" then mk_PkgInfo n v (setOnceStr d val) u a m o b s l de pr ii
  else if String.eqb key "url" then mk_PkgInfo n v d (setOnceStr u val) a m o b s l de pr ii
  else if String.eqb key "arch" then mk_PkgInfo n v d u (setOnceStr a val) m o b s l de pr ii
  else if String.eqb key "maintainer" then mk_PkgInfo n v d u a (setOnceStr m val) o b s l de pr ii
  else if String.eqb key "origin" then mk_PkgInfo n v d u a m (setOnceStr o val) b s l de pr ii
  else if String.eqb key "builddate" then mk_PkgInfo n v d u a m o (setOnceInt b val) s l de pr ii
  else if String.eqb key "size" then mk_PkgInfo n v d u a m o b (setOnceInt s val) l de pr ii
  else if String.eqb val "" then pi
  else if String.eqb key "license" then mk_PkgInfo n v d u a m o b s (l ++ [val]) de pr ii
  else if String.eqb key "depend" then mk_PkgInfo n v d u a m o b s l (de ++ [val]) pr ii
  else if String.eqb key "provides" then mk_PkgInfo n v d u a m o b s l de (pr ++ [val]) ii
  else if String.eqb key "install_if" then mk_PkgInfo n v d u a m o b s l de pr (ii ++ [val])
  else pi.
Definition apply_line (pi : PkgInfo) (line : string) : PkgInfo :=
  let line := trim_suffix line (String (byte 13) "") in
  if String.eqb line "" || has_prefix line "#" then pi
  else let '(key, val, ok) := cut "=" line in if ok then applyPkgInfoField pi (trim_space key) (trim_space val) else pi.
Definition no_PkgInfo : PkgInfo := mk_PkgInfo "" "" "" "" "" "" "" 0 0 [] [] [] [].
Definition parsePkgInfoBytes (data : string) : PkgInfo := foldl apply_line no_PkgInfo (split newline data).
Definition ParsePkgInfo (body : string * option error) : res PkgInfo :=
  let '(data, fin) := body in
  if maxPkgInfoSize <? len data then Err ErrPkgInfoTooLarge
  else match fin with Some e => Err (Wrap "apk: чтение .PKGINFO" e) | None => Ok (parsePkgInfoBytes data) end.
Example apk_pkginfo : parsePkgInfoBytes (text_of ["# made by abuild"; "pkgname = a"; "pkgname = b"; "pkgver=1-r1" +:+ String (byte 13) ""; "size = x"; "size = 7"; "depend = c>=1"; "install_if = d e"; "junk"]) =
  mk_PkgInfo "a" "1-r1" "" "" "" "" "" 0 7 [] ["c>=1"] [] ["d e"].
Proof. vm_compute. reflexivity. Qed.

(** * The package *)
Definition is_pkginfo (m : member) : bool := String.eqb (base_name (mb_name m)) ".PKGINFO".
(** [ctx_Err] answers in the order in which it is asked. *)
Fixpoint scanTarMember (ctx_Err : nat → option error) (ms : list member) (fin : option error) : res (option PkgInfo) :=
  match ctx_Err 0%nat with
  | Some e => Err (Wrap "apk.pkg: отмена reindex" e)
  | None =>
      match ms with
      | [] => match fin with None => Ok None | Some e => Err (bad_apk "чтение tar" e) end
      | m :: ms => if is_pkginfo m then match ParsePkgInfo (mb_body m) with Ok pi => Ok (Some pi) | Err e => Err e end else scanTarMember (λ n, ctx_Err (S n)) ms fin
      end
  end.
(** After the last component of a path there is no ./ to trim. *)
Fixpoint readPkgInfoFromTar (ctx_Err : nat → option error) (ms : list member) (fin : option error) : res PkgInfo :=
  match ctx_Err 0%nat with
  | Some e => Err (Wrap "apk.pkg: отмена reindex" e)
  | None =>
      match ms with
      | [] => Err match fin with None => no_pkginfo | Some e => bad_apk "чтение tar" e end
      | m :: ms => if String.eqb (trim_prefix (base_name (mb_name m)) "./") ".PKGINFO" then ParsePkgInfo (mb_body m) else readPkgInfoFromTar (λ n, ctx_Err (S n)) ms fin
      end
  end.
Definition member_error (e : error) : error := if errors_is ErrDecompressTooLarge e then e else bad_apk "чтение gzip-члена" e.
Section package.
  (** Decoders: of zstd, of gzip, of a file into its gzip members, each with its
      compressed bytes, and the error after them; of tar; how the bytes of a body come;
      the digest. *)
  Context (unzstd gunzip : string → res stream) (gzip_members : string → list (string * stream) * option error) (reads : string → list string)
    (untar : stream → list member * option error) (sha1 : string → string).
(** [readGzipControlSection]; [ctx_Err] answers at each member of the file, and then at
    each member of its tar. *)
Fixpoint control_section (ctx_Err : nat → nat → option error) (remaining : Z) (members : list (string * stream)) (fin : option error) : res (PkgInfo * string) :=
  match ctx_Err 0%nat 0%nat with
  | Some e => Err (Wrap "apk.pkg: отмена reindex" e)
  | None =>
      match members with
      | [] => Err match fin with None => no_pkginfo | Some e => bad_apk "gzip" e end
      | (compressed, s) :: members =>
          let lim := limited remaining ErrDecompressTooLarge 0 s.1 s.2 in
          let '(ms, tar_fin) := untar lim in
          match scanTarMember (λ n, ctx_Err 0%nat (S n)) ms tar_fin, lim.2 with
          | Err e, _ => Err (member_error e)
          | Ok _, Some e => Err (member_error e)
          | Ok (Some pi), None => Ok (pi, sha1 compressed)
          | Ok None, None => control_section (λ n, ctx_Err (S n)) (remaining - total lim.1) members fin
          end
      end
  end.
Definition readGzipControlSection (ctx_Err : nat → nat → option error) (body : string) : res (PkgInfo * string) :=
  let '(members, fin) := gzip_members body in control_section ctx_Err maxDecompressedApk members fin.
Definition decompressApk (body : string) : res stream :=
  let limit (s : stream) := limited maxDecompressedApk ErrDecompressTooLarge 0 s.1 s.2 in
  if has_prefix body gzipPrefix then match gunzip body with Ok s => Ok (limit s) | Err e => Err (bad_apk "gzip" e) end
  else if has_prefix body zstdMagic then match unzstd body with Ok s => Ok (limit s) | Err e => Err (bad_apk "zstd" e) end
  else Ok (limit (reads body, None)).
Definition readPkgInfoFromPackage (ctx_Err : nat → option error) (body : string) : res PkgInfo :=
  match decompressApk body with Err e => Err e | Ok s => let '(ms, fin) := untar s in readPkgInfoFromTar ctx_Err ms fin end.
(** What [readIndexEntry] reads of a package: its information and the digest for the
    index, of the control section, or of the file where there are no gzip members. *)
Definition read_package (ctx_Err : nat → nat → option error) (body : string) : res (PkgInfo * string) :=
  if has_prefix body gzipPrefix then readGzipControlSection ctx_Err body
  else match readPkgInfoFromPackage (ctx_Err 0%nat) body with Ok pi => Ok (pi, sha1 body) | Err e => Err e end.
End package.

(** * What is read of a package *)
Definition values (pi : PkgInfo) : list string :=
  [ap_Name pi; ap_Version pi; ap_Desc pi; ap_URL pi; ap_Arch pi; ap_Maintainer pi; ap_Origin pi] ++ ap_License pi ++ ap_Depends pi ++ ap_Provides pi ++ ap_InstallIf pi.
(** Every value is on one line; numbers are within 64 bits. *)
Record pi_lines (pi : PkgInfo) : Prop := { pl_values : Forall line_ok (values pi); pl_ints : in_int64 (ap_BuildDate pi) ∧ in_int64 (ap_Size pi) }.
Lemma applyPkgInfoField_lines pi key val : pi_lines pi → line_ok val → pi_lines (applyPkgInfoField pi key val).
Proof.
  intros [Hl [H1 H2]] Hv. destruct pi as [na ve de ur ar ma og b s li dp pr ii]. unfold values in *. cbn [ap_Name ap_Version ap_Desc ap_URL ap_Arch ap_Maintainer ap_Origin ap_BuildDate ap_Size ap_License ap_Depends ap_Provides ap_InstallIf app] in *.
  repeat (apply Forall_cons in Hl as [? Hl]). rewrite !Forall_app in Hl. destruct Hl as (? & ? & ? & ?). unfold applyPkgInfoField.
  repeat case_match; (split; [unfold values|]); cbn [ap_Name ap_Version ap_Desc ap_URL ap_Arch ap_Maintainer ap_Origin ap_BuildDate ap_Size ap_License ap_Depends ap_Provides ap_InstallIf app];
    try (split; first [done|by apply setOnceInt_spec]);
    (repeat (constructor; [first [done|by apply setOnceStr_spec]|]); rewrite ?Forall_app; rewrite ?Forall_singleton; split_and!; done).
Qed.
Lemma apply_line_lines pi line : pi_lines pi → line_ok line → pi_lines (apply_line pi line).
Proof.
  intros Hpi Hl. unfold apply_line. fold (trim_cr line). pose proof (trim_cr_no_sep newline line Hl) as Hs. destruct (_ || _); [done|].
  destruct (cut "=" (trim_cr line)) as [[key val] []] eqn:Hcut; [|done]. apply cut_found in Hcut as Heq. apply applyPkgInfoField_lines; [done|].
  unfold no_sep in Hs. rewrite Heq, all_bytes_app in Hs. apply andb_prop in Hs as [_ Hv]. cbn [all_bytes] in Hv. apply andb_prop in Hv as [_ Hv]. by apply trim_space_keeps.
Qed.
Lemma ParsePkgInfo_lines body pi : ParsePkgInfo body = Ok pi → pi_lines pi.
Proof.
  unfold ParsePkgInfo. destruct body as [data fin]. destruct (maxPkgInfoSize <? len data); [done|]. destruct fin; [done|]. intros [= <-]. unfold parsePkgInfoBytes.
  pose proof (split_no_sep newline data) as Hs. assert (pi_lines no_PkgInfo) as H0 by (split; [repeat constructor|done]). revert H0. generalize no_PkgInfo.
  induction Hs as [|l ls Hl _ IH]; intros p Hp; [done|]. cbn [foldl]. apply IH. by apply apply_line_lines.
Qed.
Lemma scanTarMember_lines ms fin : ∀ ctx pi, scanTarMember ctx ms fin = Ok (Some pi) → pi_lines pi.
Proof.
  induction ms as [|m ms IH]; intros ctx pi; cbn [scanTarMember]; destruct (ctx 0%nat); try done; [by destruct fin|].
  destruct (is_pkginfo m); [|apply IH]. destruct (ParsePkgInfo _) eqn:Hp; [|done]. intros [= <-]. by eapply ParsePkgInfo_lines.
Qed.
Lemma readPkgInfoFromTar_lines ms fin : ∀ ctx pi, readPkgInfoFromTar ctx ms fin = Ok pi → pi_lines pi.
Proof.
  induction ms as [|m ms IH]; intros ctx pi; cbn [readPkgInfoFromTar]; destruct (ctx 0%nat); try done. destruct (String.eqb _ _); [apply ParsePkgInfo_lines|apply IH].
Qed.
(** A member that is read to its end is whole, within what is left of the limit. *)
Lemma limited_whole limit e chunks fin : (limited limit e 0 chunks fin).2 = None → limited limit e 0 chunks fin = (chunks, None) ∧ total chunks < limit.
Proof.
  intros Hn. destruct (Z.lt_ge_cases (total chunks) limit) as [Hlt|Hge]; [|rewrite limited_above in Hn; done].
  rewrite limited_below in * by done. simpl in Hn. by subst fin.
Qed.
(** The section is the first member whose tar has a .PKGINFO; all that was decompressed
    up to its end is within the limit. *)
Lemma control_section_Ok untar sha1 members fin : ∀ ctx remaining pi sum, control_section untar sha1 ctx remaining members fin = Ok (pi, sum) →
  ∃ before z s after, members = before ++ (z, s) :: after ∧ sum = sha1 z ∧ foldr (λ m n, total m.2.1 + n) 0 before + total s.1 < remaining ∧
    (∃ m, m ∈ (untar (s.1, None)).1 ∧ is_pkginfo m = true ∧ ParsePkgInfo (mb_body m) = Ok pi) ∧
    Forall (λ m : string * stream, ∀ t, t ∈ (untar (m.2.1, None)).1 → is_pkginfo t = false) before.
Proof.
  assert (∀ ms tfin ctx, match scanTarMember ctx ms tfin with
    | Ok (Some pi) => ∃ m, m ∈ ms ∧ is_pkginfo m = true ∧ ParsePkgInfo (mb_body m) = Ok pi | Ok None => ∀ m, m ∈ ms → is_pkginfo m = false | Err _ => True end) as Hscan.
  { induction ms as [|m ms IH]; intros tfin ctx; cbn [scanTarMember]; destruct (ctx 0%nat); try done; [destruct tfin; [done|by intros m ?%elem_of_nil]|].
    destruct (is_pkginfo m) eqn:Hm.
    - destruct (ParsePkgInfo _) eqn:Hp; [|done]. exists m. split_and!; [by left|done|done].
    - specialize (IH tfin (λ n, ctx (S n))). destruct (scanTarMember _ ms tfin) as [[pi|]|]; [|by intros x [->|?]%elem_of_cons; auto|done].
      destruct IH as (x & ? & ? & ?). exists x. split_and!; [by right|done|done]. }
  induction members as [|[z s] members IH]; intros ctx remaining pi sum; cbn [control_section]; destruct (ctx 0%nat 0%nat); try done. cbv zeta.
  pose proof (limited_whole remaining ErrDecompressTooLarge s.1 s.2) as Hw. destruct (limited remaining _ 0 s.1 s.2) as [chunks lfin]. simpl in *.
  destruct (untar _) as [ms tar_fin] eqn:Hu. specialize (Hscan ms tar_fin (λ n, ctx 0%nat (S n))). destruct (scanTarMember _ ms tar_fin) as [[pi'|]|e]; [..|done]; (destruct lfin; [done|]);
    destruct (Hw eq_refl) as [[= ->] Ht].
  - intros [= <- <-]. exists [], z, s, members. split_and!; [done|done|simpl; lia| |constructor]. by rewrite Hu.
  - intros (before & z' & s' & after & -> & -> & Hb & Hm & Hall)%IH. exists ((z, s) :: before), z', s', after. split_and!; [done|done|simpl; lia|done|].
    constructor; [|done]. simpl. by rewrite Hu.
Qed.
Lemma read_package_lines unzstd gunzip gzip_members reads untar sha1 ctx body pi sum :
  read_package unzstd gunzip gzip_members reads untar sha1 ctx body = Ok (pi, sum) → pi_lines pi.
Proof.
  unfold read_package. destruct (has_prefix body gzipPrefix).
  - unfold readGzipControlSection. destruct (gzip_members body) as [members fin]. generalize maxDecompressedApk. revert ctx.
    induction members as [|[z s] members IH]; intros ctx remaining; cbn [control_section]; destruct (ctx 0%nat 0%nat); try done. cbv zeta.
    destruct (untar _) as [ms tar_fin]. destruct (scanTarMember _ ms tar_fin) as [[pi'|]|e] eqn:Hs; [..|done]; destruct (limited remaining _ 0 s.1 s.2).2; try done.
    + intros [= <- _]. by eapply scanTarMember_lines.
    + apply IH.
  - unfold readPkgInfoFromPackage. destruct (decompressApk _ _ _ body) as [s|]; [|done]. destruct (untar s) as [ms fin].
    destruct (readPkgInfoFromTar _ ms fin) eqn:Hr; [|done]. intros [= <- _]. by eapply readPkgInfoFromTar_lines.
Qed.
(** Where no answer of [ctx.Err()] stops the reader, the answers do not matter; and the
    digest is one of bytes of the package. *)
Lemma scanTarMember_det ms fin : ∀ c1 c2 x y, scanTarMember c1 ms fin = Ok x → scanTarMember c2 ms fin = Ok y → x = y.
Proof.
  induction ms as [|m ms IH]; intros c1 c2 x y; cbn [scanTarMember]; destruct (c1 0%nat), (c2 0%nat); try done; [destruct fin; congruence|].
  destruct (is_pkginfo m); [destruct (ParsePkgInfo _); congruence|]. apply IH.
Qed.
Lemma readPkgInfoFromTar_det ms fin : ∀ c1 c2 x y, readPkgInfoFromTar c1 ms fin = Ok x → readPkgInfoFromTar c2 ms fin = Ok y → x = y.
Proof.
  induction ms as [|m ms IH]; intros c1 c2 x y; cbn [readPkgInfoFromTar]; destruct (c1 0%nat), (c2 0%nat); try done. destruct (String.eqb _ _); [congruence|]. apply IH.
Qed.
Lemma control_section_det untar sha1 members fin : ∀ c1 c2 remaining x y, control_section untar sha1 c1 remaining members fin = Ok x → control_section untar sha1 c2 remaining members fin = Ok y → x = y.
Proof.
  induction members as [|[z s] members IH]; intros c1 c2 remaining x y; cbn [control_section]; destruct (c1 0%nat 0%nat), (c2 0%nat 0%nat); try done. cbv zeta.
  destruct (limited remaining _ 0 s.1 s.2) as [chunks lfin]. destruct (untar _) as [ms tfin].
  destruct (scanTarMember (λ n, c1 0%nat (S n)) ms tfin) as [o1|] eqn:H1; [|done]. destruct (scanTarMember (λ n, c2 0%nat (S n)) ms tfin) as [o2|] eqn:H2; [|by destruct lfin].
  pose proof (scanTarMember_det _ _ _ _ _ _ H1 H2) as <-. destruct lfin; [by destruct o1|]. destruct o1; [congruence|apply IH].
Qed.
Lemma read_package_det unzstd gunzip gzip_members reads untar sha1 c1 c2 body x y : read_package unzstd gunzip gzip_members reads untar sha1 c1 body = Ok x →
  read_package unzstd gunzip gzip_members reads untar sha1 c2 body = Ok y → x = y.
Proof.
  unfold read_package. destruct (has_prefix body gzipPrefix); [unfold readGzipControlSection; destruct (gzip_members body); apply control_section_det|].
  unfold readPkgInfoFromPackage. destruct (decompressApk _ _ _ body) as [s|]; [|done]. destruct (untar s) as [ms fin].
  destruct (readPkgInfoFromTar (c1 0%nat) ms fin) eqn:H1; [|done]. destruct (readPkgInfoFromTar (c2 0%nat) ms fin) eqn:H2; [|done]. pose proof (readPkgInfoFromTar_det _ _ _ _ _ _ H1 H2). congruence.
Qed.
Lemma read_package_sum unzstd gunzip gzip_members reads untar sha1 ctx body pi sum : read_package unzstd gunzip gzip_members reads untar sha1 ctx body = Ok (pi, sum) → ∃ z, sum = sha1 z.
Proof.
  unfold read_package. destruct (has_prefix body gzipPrefix).
  - unfold readGzipControlSection. destruct (gzip_members body) as [members fin]. intros (before & z & s & after & _ & -> & _)%control_section_Ok. by exists z.
  - destruct (readPkgInfoFromPackage _ _ _ _ _ body); [|done]. intros [= _ <-]. by exists body.
Qed.
