(* ===== verification/ApkIndex.v ===== *)
(** The index of an apk repository (internal/mod/ecosystem/apk/parse.go, checksum.go
    and writeAPKINDEXEntry of gen.go): the text of records, its reader with its limits,
    and the digests in base64; what is written is read back. *)
From S2P Require Import Prelude GoStr Domain Port CacheEngine XbpsIndex XbpsPackage XbpsRepo AptStanza PacmanDb ApkPackage.
Local Open Scope Z_scope.

(** * Base64 (encoding/base64) *)
Definition b64_char (n : N) : ascii := default "="%char (String.get (N.to_nat n) "ABCDEFGHIJKLMNOPQRSTUVWXYZabcdefghijklmnopqrstuvwxyz0123456789+/").
Definition b64_value (url : bool) (c : ascii) : option N :=
  let n := N_of_ascii c in
  if in_byte 65 90 c then Some (n - 65)%N else if in_byte 97 122 c then Some (n - 71)%N else if in_byte 48 57 c then Some (n + 4)%N
  else if Ascii.eqb c (if url then "-" else "+") then Some 62%N else if Ascii.eqb c (if url then "_" else "/") then Some 63%N else None.
Definition sextets (a b c : N) : N * N * N * N := (a / 4, a mod 4 * 16 + b / 16, b mod 16 * 4 + c / 64, c mod 64)%N.
Fixpoint EncodeToString (s : string) : string :=
  match s with
  | String a (String b (String c s)) =>
      let '(w, x, y, z) := sextets (N_of_ascii a) (N_of_ascii b) (N_of_ascii c) in
      String (b64_char w) (String (b64_char x) (String (b64_char y) (String (b64_char z) (EncodeToString s))))
  | String a (String b "") =>
      let '(w, x, y, _) := sextets (N_of_ascii a) (N_of_ascii b) 0 in String (b64_char w) (String (b64_char x) (String (b64_char y) "="))
  | String a "" => let '(w, x, _, _) := sextets (N_of_ascii a) 0 0 in String (b64_char w) (String (b64_char x) "==")
  | "" => ""
  end.
(** A group of four, of three or of two; what is left over of a byte is not looked at. *)
Definition group (w x y z : option N) (n : nat) : option string :=
  match w, x, y, z with
  | Some w, Some x, Some y, Some z =>
      let a := byte (w * 4 + x / 16) in let b := byte (x mod 16 * 16 + y / 4) in let c := byte (y mod 4 * 64 + z) in
      Some (String.substring 0 n (String a (String b (String c ""))))
  | _, _, _, _ => None
  end%N.
Fixpoint b64_groups (url padded : bool) (s : string) : option string :=
  let v := b64_value url in
  match s with
  | "" => Some ""
  | String w (String x (String y (String z s))) =>
      if padded && Ascii.eqb z "=" then
        match s with
        | "" => if Ascii.eqb y "=" then group (v w) (v x) (Some 0%N) (Some 0%N) 1 else group (v w) (v x) (v y) (Some 0%N) 2
        | _ => None
        end
      else match group (v w) (v x) (v y) (v z) 3, b64_groups url padded s with Some g, Some r => Some (g +:+ r) | _, _ => None end
  | String w (String x (String y "")) => if padded then None else group (v w) (v x) (v y) (Some 0%N) 2
  | String w (String x "") => if padded then None else group (v w) (v x) (Some 0%N) (Some 0%N) 1
  | String _ "" => None
  end.
(** The decoder passes over line ends. *)
Fixpoint drop_ends (s : string) : string :=
  match s with "" => "" | String c s => if Ascii.eqb c newline || Ascii.eqb c (byte 13) then drop_ends s else String c (drop_ends s) end.
Definition DecodeString (url padded : bool) (s : string) : option string := b64_groups url padded (drop_ends s).
Example base64_texts : EncodeToString "Man" = "TWFu" ∧ EncodeToString "Ma" = "TWE=" ∧ EncodeToString "M" = "TQ==" ∧ EncodeToString (bytes [251; 255]%N) = "+/8=" ∧
  DecodeString false true "TWE=" = Some "Ma" ∧ DecodeString false true "TWE" = None ∧ DecodeString false false "TWE" = Some "Ma" ∧ DecodeString true false "-_8" = Some (bytes [251; 255]%N) ∧
  DecodeString false true "TQ==TWFu" = None ∧ DecodeString false true "TQ=a" = None ∧ DecodeString false true ("TW" +:+ nl +:+ "Fu") = Some "Man" ∧ DecodeString false true "T" = None.
Proof. vm_compute. done. Qed.
(** [csumFromIndex] *)
Definition csumFromIndex (val : string) : option Checksum :=
  match strip_prefix "Q1" val with
  | None => None
  | Some raw =>
      let data := match DecodeString false true raw with Some d => Some d | None => match DecodeString false false raw with Some d => Some d | None => DecodeString true false raw end end in
      match data with Some d => if len d =? 20 then Some (mk_Checksum "sha1" (hex_encode d)) else None | None => None end
  end.
Definition checksum_text (sum : string) : string := "Q1" +:+ EncodeToString sum.

(** * The record (gen.go) *)
Definition optional_words (k : string) (l : list string) : list (string * string) := match l with [] => [] | _ => [(k, String.concat " " l)] end.
Definition index_fields (pi : PkgInfo) (checksum filepath : string) (csize : Z) : list (string * string) :=
  [("C", checksum); ("P", ap_Name pi); ("V", ap_Version pi)] ++ optional "A" (ap_Arch pi) ++ optional "T" (ap_Desc pi) ++ optional "U" (ap_URL pi) ++
  optional_words "L" (ap_License pi) ++ [("S", fmt_int csize)] ++ optional_int "I" (ap_Size pi) ++ optional "o" (ap_Origin pi) ++ optional "m" (ap_Maintainer pi) ++
  optional_int "t" (ap_BuildDate pi) ++ optional_words "D" (ap_Depends pi) ++ optional_words "p" (ap_Provides pi) ++ optional_words "i" (ap_InstallIf pi) ++ [("F", filepath)].
Definition field_line (f : string * string) : string := f.1 +:+ ":" +:+ f.2.
Definition writeAPKINDEXEntry (pi : PkgInfo) (checksum filepath : string) (csize : Z) : string :=
  text_of (map field_line (index_fields pi checksum filepath csize)) +:+ nl.
Example index_entry_text : writeAPKINDEXEntry (mk_PkgInfo "a" "1-r1" "" "" "x86_64" "" "" 0 7 [] ["c"; "d"] [] []) "Q1x" "x86_64/a-1-r1.apk" 9 =
  text_of ["C:Q1x"; "P:a"; "V:1-r1"; "A:x86_64"; "S:9"; "I:7"; "D:c d"; "F:x86_64/a-1-r1.apk"; ""].
Proof. vm_compute. reflexivity. Qed.

(** * The reader (parse.go) *)
Definition ErrTooManyEntries : error := Text "apk: слишком много записей в APKINDEX".
Definition ErrIndexTooLarge : error := Text "apk: файл APKINDEX превышает лимит".
Definition errDecompressLimit : error := Text "decompress limit exceeded".
Definition errFileLimit : error := Text "file limit exceeded".
Definition bad_index_gzip (e : error) : error := Wrap "apk: некорректный gzip-поток" e.
Record IndexEntry := mk_IndexEntry { ie_FilePath : string; ie_Name : string; ie_Version : string; ie_Checksum : string }.
Record parseLimits := mk_parseLimits { al_decompressed : Z; al_entries : Z; al_fileSize : Z; al_lines : Z }.
Definition index_limits : parseLimits := mk_parseLimits maxDecompressedApk (2 ^ 20) (2 ^ 26) (2 ^ 20).
Definition no_entry : IndexEntry := mk_IndexEntry "" "" "" "".
Definition first_wins (old val : string) : string := if String.eqb old "" then val else old.
Definition applyIndexField (entry : IndexEntry) (line : string) : IndexEntry * bool :=
  let '(mk_IndexEntry f p v c) := entry in
  match cut ":" line with
  | (_, _, false) => (entry, false)
  | (key, val, true) =>
      (if String.eqb key "F" then mk_IndexEntry (first_wins f val) p v c
       else if String.eqb key "P" then mk_IndexEntry f (first_wins p val) v c
       else if String.eqb key "V" then mk_IndexEntry f p (first_wins v val) c
       else if String.eqb key "C" then mk_IndexEntry f p v (first_wins c val)
       else entry, true)
  end.
(** The record that is being read, whether it has a field, and how many there were. *)
Record progress := mk_progress { pg_entry : IndexEntry; pg_hasField : bool; pg_count : Z }.
(** [None]: too many records. *)
Definition flush (lim : parseLimits) (p : progress) : option (list IndexEntry * progress) :=
  if negb (pg_hasField p) then Some ([], p)
  else if al_entries lim <=? pg_count p then None
  else Some ([pg_entry p], mk_progress no_entry false (pg_count p + 1)).
Definition yieldFinalError (lim : parseLimits) (readErr : option error) (p : progress) : list IndexEntry * option error :=
  match readErr with
  | Some e => ([], Some (if errors_is errFileLimit e then ErrIndexTooLarge else if errors_is errDecompressLimit e then ErrDecompressTooLarge else Wrap "apk: чтение apkindex" e))
  | None => match flush lim p with Some (out, _) => (out, None) | None => ([], Some ErrTooManyEntries) end
  end.
(** Line by line, for a consumer that takes all the records. Empty lines do not count. *)
Fixpoint index_lines (lim : parseLimits) (readErr : option error) (ls : list string) (p : progress) (lineNo : Z) : list IndexEntry * option error :=
  match ls with
  | [] => ([], None)
  | l :: ls =>
      if al_lines lim <=? lineNo then ([], Some ErrIndexTooLarge)
      else
        let rest lineNo p := match ls with [] => yieldFinalError lim readErr p | _ => index_lines lim readErr ls p lineNo end in
        let line := trim_cr l in
        if negb (String.eqb line "") then
          let '(entry, field) := applyIndexField (pg_entry p) line in rest (lineNo + 1) (mk_progress entry (field || pg_hasField p) (pg_count p))
        else match flush lim p with None => ([], Some ErrTooManyEntries) | Some (out, p) => prod_map (app out) id (rest lineNo p) end
  end.
Definition parseAPKINDEXText (lim : parseLimits) (s : stream) : list IndexEntry * option error :=
  index_lines lim s.2 (split newline (String.concat "" s.1)) (mk_progress no_entry false 0) 0.
Definition isAPKINDEXName (name : string) : bool := String.eqb (base_name name) "APKINDEX".
Section index.
  Context (gunzip : string * option error → res stream) (reads : string → list string) (untar : stream → list member * option error).
(** The first file with this name. *)
Fixpoint parseAPKINDEXTar (lim : parseLimits) (ms : list member) (fin : option error) : list IndexEntry * option error :=
  match ms with
  | [] => ([], match fin with None => None | Some e => Some (if errors_is errDecompressLimit e then ErrDecompressTooLarge else Wrap "apk: чтение tar" e) end)
  | m :: ms =>
      if negb (mb_regular m && isAPKINDEXName (mb_name m)) then parseAPKINDEXTar lim ms fin
      else
        let '(entries, err) := parseAPKINDEXText lim (limited (al_fileSize lim) errFileLimit 0 (reads (mb_body m).1) (mb_body m).2) in
        (entries, match err with Some e => Some (if errors_is errFileLimit e then ErrIndexTooLarge else if errors_is errDecompressLimit e then ErrDecompressTooLarge else e) | None => None end)
  end.
Definition parseAPKINDEX (lim : parseLimits) (body : string * option error) : list IndexEntry * option error :=
  match gunzip body with
  | Err e => ([], Some (bad_index_gzip e))
  | Ok s =>
      let '(ms, fin) := untar (limited (al_decompressed lim) errDecompressLimit 0 s.1 s.2) in
      let '(entries, err) := parseAPKINDEXTar lim ms fin in
      (entries, match err with Some e => Some (if errors_is errDecompressLimit e then ErrDecompressTooLarge else e) | None => None end)
  end.
Definition ParseAPKINDEX (body : string * option error) : list IndexEntry * option error := parseAPKINDEX index_limits body.
End index.
Definition read_lines (lim : parseLimits) (lines : list string) (fin : option error) := parseAPKINDEXText lim ([text_of lines], fin).
Example index_texts : read_lines index_limits ["P:a"; "junk"; "F:x/a.apk" +:+ String (byte 13) ""; "F:y"; ""; ""; "C:Q1"; "V:"] None = ([mk_IndexEntry "x/a.apk" "a" "" ""; mk_IndexEntry "" "" "" "Q1"], None) ∧
  read_lines (mk_parseLimits 9 1 9 9) ["P:a"; ""; "P:b"] None = ([mk_IndexEntry "" "a" "" ""], Some ErrTooManyEntries) ∧
  read_lines (mk_parseLimits 9 9 9 2) ["P:a"; ""; ""; "P:b"] None = ([mk_IndexEntry "" "a" "" ""], Some ErrIndexTooLarge) ∧
  read_lines (mk_parseLimits 9 9 9 9) ["P:a"] (Some (Text "cut")) = ([mk_IndexEntry "" "a" "" ""], Some (Wrap "apk: чтение apkindex" (Text "cut"))).
Proof. vm_compute. done. Qed.

(** * What is written is read *)
Lemma b64_value_char n : (n < 64)%N → b64_value false (b64_char n) = Some n ∧ in_byte 32 126 (b64_char n) = true ∧ Ascii.eqb (b64_char n) "=" = false.
Proof.
  intros Hn. assert (Forall (λ n, b64_value false (b64_char n) = Some n ∧ in_byte 32 126 (b64_char n) = true ∧ Ascii.eqb (b64_char n) "=" = false) (N.of_nat <$> seq 0 64)) as Hall
    by (apply (bool_decide_unpack _); vm_compute; exact I).
  rewrite Forall_forall in Hall. apply Hall, list_elem_of_fmap. exists (N.to_nat n). split; [lia|]. apply elem_of_seq. lia.
Qed.
Lemma digit_div_mod m r q : (q < m)%N → ((r * m + q) / m = r ∧ (r * m + q) mod m = q)%N.
Proof.
  intros Hq. split; [symmetry; apply (N.div_unique _ m r q)|symmetry; apply (N.mod_unique _ m r q)]; lia.
Qed.
Lemma sextets_bytes a b c : (a < 256)%N → (b < 256)%N → (c < 256)%N →
  let '(w, x, y, z) := sextets a b c in (w < 64 ∧ x < 64 ∧ y < 64 ∧ z < 64 ∧ w * 4 + x / 16 = a ∧ x mod 16 * 16 + y / 4 = b ∧ y mod 4 * 64 + z = c)%N.
Proof.
  intros Ha Hb Hc. unfold sextets.
  assert (b / 16 < 16)%N by (apply N.Div0.div_lt_upper_bound; lia). assert (c / 64 < 4)%N by (apply N.Div0.div_lt_upper_bound; lia). assert (a / 4 < 64)%N by (apply N.Div0.div_lt_upper_bound; lia).
  pose proof (N.div_mod a 4) as Ea. pose proof (N.div_mod b 16) as Eb. pose proof (N.div_mod c 64) as Ec.
  pose proof (N.mod_lt a 4) as La. pose proof (N.mod_lt b 16) as Lb. pose proof (N.mod_lt c 64) as Lc.
  destruct (digit_div_mod 16 (a mod 4) (b / 16)) as [-> ->]; [done|]. destruct (digit_div_mod 4 (b mod 16) (c / 64)) as [-> ->]; [done|]. split_and!; lia.
Qed.
Lemma group_sextets a b c n : let '(w, x, y, z) := sextets (N_of_ascii a) (N_of_ascii b) (N_of_ascii c) in
  group (Some w) (Some x) (Some y) (Some z) n = Some (String.substring 0 n (String a (String b (String c "")))).
Proof.
  pose proof (sextets_bytes _ _ _ (N_ascii_bounded a) (N_ascii_bounded b) (N_ascii_bounded c)) as Hs. destruct (sextets _ _ _) as [[[w x] y] z]. destruct Hs as (_ & _ & _ & _ & Ha & Hb & Hc).
  unfold group, byte. by rewrite Ha, Hb, Hc, !ascii_N_embedding.
Qed.
(** Induction by groups of three. *)
Lemma string_three (P : string → Prop) : P "" → (∀ a, P (String a "")) → (∀ a b, P (String a (String b ""))) → (∀ a b c s, P s → P (String a (String b (String c s)))) → ∀ s, P s.
Proof.
  intros H0 H1 H2 H3. assert (∀ n s, (String.length s < n)%nat → P s) as Hgo; [|intros s; apply (Hgo (S (String.length s))); lia].
  induction n as [|n IH]; intros s Hn; [lia|]. destruct s as [|a [|b [|c s]]]; auto. apply H3, IH. simpl in Hn. lia.
Qed.
Lemma b64_groups_encode s : b64_groups false true (EncodeToString s) = Some s.
Proof.
  induction s as [|a|a b|a b c s IH] using string_three; [done|..].
  - cbn [EncodeToString]. pose proof (sextets_bytes _ 0 0 (N_ascii_bounded a)) as Hs. pose proof (group_sextets a "000" "000" 1) as Hg. change (N_of_ascii "000") with 0%N in Hg.
    assert ((sextets (N_of_ascii a) 0 0) = (N_of_ascii a / 4, N_of_ascii a mod 4 * 16 + 0, 0, 0)%N) as He by reflexivity. rewrite He in *.
    destruct Hs as (Hw & Hx & _); [done..|]. destruct (b64_value_char _ Hw) as (Vw & _). destruct (b64_value_char _ Hx) as (Vx & _). cbn [b64_groups]. rewrite Vw, Vx. exact Hg.
  - cbn [EncodeToString]. pose proof (sextets_bytes _ _ 0 (N_ascii_bounded a) (N_ascii_bounded b)) as Hs. pose proof (group_sextets a b "000" 2) as Hg. change (N_of_ascii "000") with 0%N in Hg.
    assert ((sextets (N_of_ascii a) (N_of_ascii b) 0).2 = 0%N) as Hz by reflexivity. destruct (sextets _ _ 0) as [[[w x] y] z]. simpl in Hz. subst z.
    destruct Hs as (Hw & Hx & Hy & _); [done|]. destruct (b64_value_char _ Hw) as (Vw & _). destruct (b64_value_char _ Hx) as (Vx & _). destruct (b64_value_char _ Hy) as (Vy & _ & Ey).
    cbn [b64_groups]. rewrite Vw, Vx, Vy, Ey. exact Hg.
  - cbn [EncodeToString]. pose proof (sextets_bytes _ _ _ (N_ascii_bounded a) (N_ascii_bounded b) (N_ascii_bounded c)) as Hs. pose proof (group_sextets a b c 3) as Hg.
    destruct (sextets _ _ _) as [[[w x] y] z]. destruct Hs as (Hw & Hx & Hy & Hz & _).
    destruct (b64_value_char _ Hw) as (Vw & _). destruct (b64_value_char _ Hx) as (Vx & _). destruct (b64_value_char _ Hy) as (Vy & _). destruct (b64_value_char _ Hz) as (Vz & _ & Ez).
    cbn [b64_groups]. rewrite Vw, Vx, Vy, Vz, Ez. cbn [andb]. rewrite IH. by rewrite Hg.
Qed.
Lemma EncodeToString_text s : all_bytes (in_byte 32 126) (EncodeToString s) = true.
Proof.
  assert (∀ n, (n < 64)%N → in_byte 32 126 (b64_char n) = true) as Hc by (intros n Hn; by apply b64_value_char).
  induction s as [|a|a b|a b c s IH] using string_three; [done|..]; cbn [EncodeToString].
  - pose proof (sextets_bytes _ 0 0 (N_ascii_bounded a)) as Hs. destruct (sextets _ _ _) as [[[w x] y] z]. destruct Hs as (Hw & Hx & _); [done..|]. cbn [all_bytes]. by rewrite !Hc.
  - pose proof (sextets_bytes _ _ 0 (N_ascii_bounded a) (N_ascii_bounded b)) as Hs. destruct (sextets _ _ _) as [[[w x] y] z]. destruct Hs as (Hw & Hx & Hy & _); [done..|]. cbn [all_bytes]. by rewrite !Hc.
  - pose proof (sextets_bytes _ _ _ (N_ascii_bounded a) (N_ascii_bounded b) (N_ascii_bounded c)) as Hs. destruct (sextets _ _ _) as [[[w x] y] z]. destruct Hs as (Hw & Hx & Hy & Hz & _).
    cbn [all_bytes]. by rewrite !Hc.
Qed.
Lemma drop_ends_text s : all_bytes (in_byte 32 126) s = true → drop_ends s = s.
Proof.
  induction s as [|c s IH]; [done|]. cbn [all_bytes drop_ends]. intros [Hc Hs]%andb_prop. rewrite IH by done.
  destruct (Ascii.eqb_spec c newline) as [->|]; [done|]. by destruct (Ascii.eqb_spec c (byte 13)) as [->|].
Qed.
Lemma DecodeString_encode s : DecodeString false true (EncodeToString s) = Some s.
Proof. unfold DecodeString. by rewrite drop_ends_text, b64_groups_encode by apply EncodeToString_text. Qed.
Lemma csumFromIndex_written sum : len sum = 20 → csumFromIndex (checksum_text sum) = Some (mk_Checksum "sha1" (hex_encode sum)).
Proof.
  intros Hl. unfold csumFromIndex, checksum_text. rewrite (proj2 (strip_prefix_Some "Q1" _ _) eq_refl). cbv zeta. by rewrite DecodeString_encode, Hl.
Qed.

Definition take_field (e : IndexEntry) (f : string * string) : IndexEntry := (applyIndexField e (trim_cr (field_line f))).1.
Definition is_key (k : string) : Prop := no_sep ":" k = true ∧ no_sep newline k = true.
Lemma field_line_read e k v : is_key k → trim_cr (field_line (k, v)) = k +:+ ":" +:+ trim_cr v ∧ applyIndexField e (trim_cr (field_line (k, v))) = (take_field e (k, v), true).
Proof.
  intros [Hk _]. assert (trim_cr (field_line (k, v)) = k +:+ String ":" (trim_cr v)) as He.
  { unfold field_line. cbn [fst snd]. rewrite app_assoc. destruct (decide (v = "")) as [->|Hv]; [|by rewrite trim_cr_app, <- app_assoc].
    change (trim_cr "") with "". rewrite app_nil_r. rewrite trim_cr_app by done. done. }
  split; [exact He|]. unfold take_field. destruct (applyIndexField _ _) as [e' b] eqn:Ha. simpl. f_equal. rewrite He in Ha. unfold applyIndexField in Ha. destruct e. rewrite cut_app in Ha by exact Hk. by injection Ha.
Qed.
Lemma take_field_spec e k v : is_key k → let e' := take_field e (k, v) in
  ie_FilePath e' = (if String.eqb k "F" then first_wins (ie_FilePath e) (trim_cr v) else ie_FilePath e) ∧
  ie_Checksum e' = (if String.eqb k "C" then first_wins (ie_Checksum e) (trim_cr v) else ie_Checksum e).
Proof.
  intros [Hk Hn]. pose proof (field_line_read e k v (conj Hk Hn)) as [He _]. unfold take_field. rewrite He. unfold applyIndexField. destruct e as [f p ve c].
  change (k +:+ ":" +:+ trim_cr v) with (k +:+ String ":" (trim_cr v)). rewrite cut_app by exact Hk. cbn [fst ie_FilePath ie_Checksum].
  repeat match goal with |- context [String.eqb k ?x] => destruct (String.eqb_spec k x) as [->|] end; done.
Qed.
(** A record is read whole: its lines, and the empty line after them. *)
Lemma index_lines_fields lim fin fs : ∀ e has count lineNo rest, Forall (λ f : string * string, is_key f.1) fs → rest ≠ [] → lineNo + Z.of_nat (length fs) <= al_lines lim →
  index_lines lim fin (map field_line fs ++ rest) (mk_progress e has count) lineNo =
  index_lines lim fin rest (mk_progress (foldl take_field e fs) (has || negb (Nat.eqb (length fs) 0)) count) (lineNo + Z.of_nat (length fs)).
Proof.
  induction fs as [|[k v] fs IH]; intros e has count lineNo rest Hks Hr Hl; [simpl; by rewrite orb_false_r, Z.add_0_r|].
  apply Forall_cons in Hks as [Hk Hks]. cbn [map app index_lines foldl length]. cbn [length] in Hl. rewrite (proj2 (Z.leb_gt _ _)) by lia. cbv zeta. cbn [pg_entry pg_hasField pg_count].
  destruct (field_line_read e k v Hk) as [He Ha]. rewrite Ha. assert (String.eqb (trim_cr (field_line (k, v))) "" = false) as ->.
  { apply String.eqb_neq. rewrite He. by destruct k. }
  cbn [negb orb]. destruct (map field_line fs ++ rest) as [|l ls] eqn:Hm; [by apply app_nil in Hm as [_ ?]|]. rewrite <- Hm.
  rewrite IH by (done || lia). cbn [orb Nat.eqb negb]. rewrite orb_true_r. f_equal; lia.
Qed.
Lemma index_lines_record lim fin fs count lineNo rest : Forall (λ f : string * string, is_key f.1) fs → fs ≠ [] → rest ≠ [] → lineNo + Z.of_nat (length fs) < al_lines lim → count < al_entries lim →
  index_lines lim fin (map field_line fs ++ "" :: rest) (mk_progress no_entry false count) lineNo =
  prod_map (cons (foldl take_field no_entry fs)) id (index_lines lim fin rest (mk_progress no_entry false (count + 1)) (lineNo + Z.of_nat (length fs))).
Proof.
  intros Hks Hf Hr Hl Hc. rewrite index_lines_fields by (done || lia). destruct fs as [|f fs]; [done|]. cbn [length Nat.eqb negb orb].
  remember (foldl take_field no_entry (f :: fs)) as e. cbn [index_lines]. rewrite (proj2 (Z.leb_gt _ _)) by (cbn [length] in Hl; lia). cbv zeta. change (trim_cr "") with "". cbn [String.eqb negb].
  unfold flush. cbn [pg_hasField pg_count pg_entry negb]. rewrite (proj2 (Z.leb_gt _ _)) by done. destruct rest as [|r rest]; [done|]. done.
Qed.
(** The lines of records, one after the other. *)
Definition record_lines (fs : list (string * string)) : list string := map field_line fs ++ [""].
Definition height (rs : list (list (string * string))) : Z := foldr (λ fs n, Z.of_nat (length fs) + n) 0 rs.
Lemma index_lines_records lim rs : ∀ count lineNo, Forall (λ fs, fs ≠ [] ∧ Forall (λ f : string * string, is_key f.1) fs) rs →
  lineNo + height rs < al_lines lim → count + Z.of_nat (length rs) <= al_entries lim →
  index_lines lim None ((rs ≫= record_lines) ++ [""]) (mk_progress no_entry false count) lineNo = (foldl take_field no_entry <$> rs, None).
Proof.
  induction rs as [|fs rs IH]; intros count lineNo Hrs Hl Hc; unfold height in *; cbn [foldr length] in *.
  - cbn [mbind list_bind app index_lines]. by rewrite (proj2 (Z.leb_gt _ _)) by lia.
  - apply Forall_cons in Hrs as [[Hne Hk] Hrs]. assert (0 <= foldr (λ fs n, Z.of_nat (length fs) + n) 0 rs) by (clear; induction rs; simpl; lia).
    rewrite bind_cons. unfold record_lines at 1. rewrite <- !(assoc_L (++)). cbn [app]. rewrite index_lines_record; [|done|done|by destruct (rs ≫= record_lines)|lia|lia].
    rewrite IH by (done || lia). done.
Qed.

Lemma joined_words l : Forall line_ok l → line_ok (String.concat " " l).
Proof.
  unfold line_ok, no_sep. induction 1 as [|v l Hv Hl IH]; [done|]. destruct l as [|w l]; [done|]. change (String.concat " " (v :: w :: l)) with (v +:+ " " +:+ String.concat " " (w :: l)).
  rewrite !all_bytes_app, Hv, IH. done.
Qed.
(** The fields between the digest and the path; each of them at most once. *)
Definition middle_keys : list string := ["P"; "V"; "A"; "T"; "U"; "L"; "S"; "I"; "o"; "m"; "t"; "D"; "p"; "i"].
Definition between (f : string * string) : Prop := f.1 ∈ middle_keys ∧ line_ok f.2.
Definition at_most_one (fs : list (string * string)) : Prop := Forall between fs ∧ (length fs <= 1)%nat.
Lemma one_between k v : k ∈ middle_keys → line_ok v → at_most_one [(k, v)].
Proof. intros Hk Hv. split; [|done]. constructor; [by split|constructor]. Qed.
Lemma optional_between k v : k ∈ middle_keys → line_ok v → at_most_one (optional k v).
Proof. intros Hk Hv. unfold optional. destruct (String.eqb v ""); [split; [constructor|simpl; lia]|by apply one_between]. Qed.
Lemma optional_int_between k n : k ∈ middle_keys → in_int64 n → at_most_one (optional_int k n).
Proof. intros Hk Hn. unfold optional_int. destruct (n =? 0); [split; [constructor|simpl; lia]|]. apply one_between; [done|by apply int_line]. Qed.
Lemma optional_words_between k l : k ∈ middle_keys → Forall line_ok l → at_most_one (optional_words k l).
Proof. intros Hk Hl. pose proof (joined_words l Hl). unfold optional_words. destruct l; [split; [constructor|simpl; lia]|]. by apply one_between. Qed.
Lemma concat_between fss : Forall at_most_one fss → Forall between (concat fss) ∧ (length (concat fss) <= length fss)%nat.
Proof. induction 1 as [|fs fss [H1 H2] _ [IH1 IH2]]; [by split; [constructor|]|]. cbn [concat length]. rewrite Forall_app, length_app. split; [done|lia]. Qed.
Lemma index_fields_between pi checksum filepath csize : pi_lines pi → in_int64 csize → ∃ mid, index_fields pi checksum filepath csize = ("C", checksum) :: mid ++ [("F", filepath)] ∧
  Forall between mid ∧ (length mid <= 14)%nat.
Proof.
  intros [Hv [H1 H2]] Hc. unfold values in Hv. rewrite !Forall_app in Hv. destruct Hv as (Hv & Hl & Hd & Hp & Hi). repeat (apply Forall_cons in Hv as [? Hv]).
  set (fss := [[("P", ap_Name pi)]; [("V", ap_Version pi)]; optional "A" (ap_Arch pi); optional "T" (ap_Desc pi); optional "U" (ap_URL pi); optional_words "L" (ap_License pi); [("S", fmt_int csize)];
    optional_int "I" (ap_Size pi); optional "o" (ap_Origin pi); optional "m" (ap_Maintainer pi); optional_int "t" (ap_BuildDate pi); optional_words "D" (ap_Depends pi); optional_words "p" (ap_Provides pi);
    optional_words "i" (ap_InstallIf pi)]).
  exists (concat fss). assert (Forall at_most_one fss) as Hall.
  { unfold fss. pose proof (int_line csize Hc) as [? _]. repeat (apply Forall_cons; split; [first [apply one_between|apply optional_between|apply optional_int_between|apply optional_words_between]; [apply (bool_decide_unpack _); vm_compute; exact I|done]|]). constructor. }
  destruct (concat_between _ Hall) as [Hb Hlen]. split; [|split; [exact Hb|exact Hlen]].
  unfold index_fields, fss. cbn [concat]. rewrite !(right_id_L [] (++)). cbn [app]. rewrite <- !(assoc_L (++)). cbn [app]. rewrite <- !(assoc_L (++)). reflexivity.
Qed.
Lemma between_key f : between f → is_key f.1 ∧ f.1 ≠ "F" ∧ f.1 ≠ "C".
Proof.
  intros [Hk _]. assert (Forall (λ k, is_key k ∧ k ≠ "F" ∧ k ≠ "C") middle_keys) as Hall by (unfold is_key; apply (bool_decide_unpack _); vm_compute; exact I).
  rewrite Forall_forall in Hall. by apply Hall.
Qed.
(** What the reader makes of a record that was written. *)
Lemma index_fields_read pi checksum filepath csize : pi_lines pi → in_int64 csize → line_ok checksum → line_ok filepath → checksum ≠ "" → trim_cr checksum = checksum → trim_cr filepath = filepath →
  let fs := index_fields pi checksum filepath csize in
  fs ≠ [] ∧ Forall (λ f, is_key f.1) fs ∧ (length fs <= 16)%nat ∧ Forall line_ok (map field_line fs) ∧
  ie_FilePath (foldl take_field no_entry fs) = filepath ∧ ie_Checksum (foldl take_field no_entry fs) = checksum.
Proof.
  intros Hpi Hc Hck Hfp Hne Htc Htf. destruct (index_fields_between pi checksum filepath csize Hpi Hc) as (mid & -> & Hmid & Hlen). cbv zeta.
  assert (is_key "C" ∧ is_key "F") as [KC KF] by done. assert (Forall (λ f : string * string, is_key f.1) mid) as Hkeys by (eapply Forall_impl; [exact Hmid|]; intros f Hf; exact (proj1 (between_key f Hf))).
  split_and!; [done|..].
  - constructor; [done|]. apply Forall_app. split; [done|by constructor].
  - cbn [length]. rewrite length_app. cbn [length]. lia.
  - assert (∀ k v, is_key k → line_ok v → line_ok (field_line (k, v))) as Hok.
    { intros k v [_ Hk] Hv. unfold line_ok, no_sep, field_line in *. cbn [fst snd]. rewrite !all_bytes_app, Hk, Hv. done. }
    cbn [map]. constructor; [by apply Hok|]. rewrite map_app. apply Forall_app. split; [|constructor; [by apply Hok|constructor]].
    apply Forall_fmap. eapply Forall_impl; [exact Hmid|]. intros [k v] Hf. apply Hok; [exact (proj1 (between_key _ Hf))|apply Hf].
  - cbn [foldl]. rewrite foldl_app. cbn [foldl]. rewrite (proj1 (take_field_spec _ "F" filepath KF)). cbn [String.eqb Ascii.eqb Bool.eqb].
    assert (∀ e, ie_FilePath (foldl take_field e mid) = ie_FilePath e) as Hkeep.
    { clear -Hmid. induction Hmid as [|[k v] mid Hf _ IH]; intros e; [done|]. cbn [foldl]. rewrite IH. apply between_key in Hf as (Hk & H1 & _). cbn [fst] in *.
      rewrite (proj1 (take_field_spec _ k v Hk)). by rewrite (proj2 (String.eqb_neq _ _)). }
    rewrite Hkeep, (proj1 (take_field_spec _ "C" checksum KC)), Htf. done.
  - cbn [foldl]. rewrite foldl_app. cbn [foldl]. rewrite (proj2 (take_field_spec _ "F" filepath KF)). cbn [String.eqb Ascii.eqb Bool.eqb].
    assert (∀ e, ie_Checksum (foldl take_field e mid) = ie_Checksum e) as Hkeep.
    { clear -Hmid. induction Hmid as [|[k v] mid Hf _ IH]; intros e; [done|]. cbn [foldl]. rewrite IH. apply between_key in Hf as (Hk & _ & H1). cbn [fst] in *.
      rewrite (proj2 (take_field_spec _ k v Hk)). by rewrite (proj2 (String.eqb_neq _ _)). }
    rewrite Hkeep, (proj2 (take_field_spec _ "C" checksum KC)), Htc. done.
Qed.
