(* ===== verification/ApkRepo.v ===== *)
(** The generator of personal apk repositories and the enumeration of an apk mirror
    (internal/mod/ecosystem/apk/gen.go and apk.go): an index for each architecture, in
    two gzip members where it is signed; and the paths and digests that a mirror reads
    from it. *)
From S2P Require Import Prelude GoStr Domain Port RepoWrites CacheEngine Adapter XbpsIndex XbpsPackage XbpsRepo AptStanza PacmanDb PacmanRepo ApkPackage ApkIndex.
Local Open Scope Z_scope.

(** * The generator (gen.go) *)
Definition Name : string := "apk".
Definition apkKeyID : string := "khrazhevnik.rsa.pub".
Definition archNoarch : string := "noarch".
(** The directory of a path, its file, and whether the directory is one segment. *)
Definition splitArchDir (p : string) : string * string * bool :=
  match cut_last "/" p with None => ("", p, false) | Some (dir, file) => (dir, file, no_sep "/" dir) end.
Definition ValidateObjectPath (p : string) : option error :=
  if negb (has_suffix p ".apk") then Some (ValidationError "путь apk-репо" p "неизвестное расширение (ожидалось .apk)")
  else
    let '(dir, file, ok) := splitArchDir p in
    if negb ok || String.eqb dir "" || String.eqb file "" then Some (ValidationError "путь apk-репо" p "пакет кладётся в каталог своей архитектуры: <arch>/<файл>.apk") else None.
Definition apkFamily (p : string) : option string :=
  let name := base_name p in if negb (has_suffix name ".apk") then None else pkgFamily (trim_suffix name ".apk").
Example apk_paths : apkFamily "/v3.20/main/x86_64/py3-pip-25.1.1-r0.apk" = Some "py3-pip" ∧ apkFamily "x86_64/apkindex.tar.gz" = None ∧
  ValidateObjectPath "x86_64/a-1-r0.apk" = None ∧ is_Some (ValidateObjectPath "a-1-r0.apk") ∧ is_Some (ValidateObjectPath "x/y/a-1-r0.apk") ∧ is_Some (ValidateObjectPath "/a.apk").
Proof. split_and!; [vm_compute; reflexivity..|eexists; vm_compute; reflexivity|eexists; vm_compute; reflexivity|eexists; vm_compute; reflexivity]. Qed.
Record indexEntry := mk_indexEntry { en_arch : string; en_dir : string; en_text : string }.
(** What a package adds to the index, and the text of each architecture. *)
Definition add_entry (st : gmap string string * list string) (e : indexEntry) : gmap string string * list string :=
  let '(groups, archs) := st in
  if String.eqb (en_arch e) "" || negb (String.eqb (en_dir e) (en_arch e)) then st
  else match groups !! en_arch e with
  | Some buf => (<[en_arch e := buf +:+ en_text e]> groups, archs)
  | None => (<[en_arch e := en_text e]> groups, archs ++ [en_arch e])
  end.
Definition index_text (groups : gmap string string) (arch : string) : string :=
  default "" (groups !! arch) +:+ (if String.eqb arch archNoarch then "" else default "" (groups !! archNoarch)).
Definition tarHeaderSize : Z := 512.
Definition paddedTarSize (n : Z) : Z := if n =? 0 then 0 else (n + tarHeaderSize - 1) / tarHeaderSize * tarHeaderSize.
Fixpoint zeros (n : nat) : string := match n with O => "" | S n => String (byte 0) (zeros n) end.
Section generator.
  Context {S : Type} `{Storage S}.
  (** The reader of packages (see ApkPackage), with the answers of [ctx.Err()]; the
      writer of a tar of one file, with its end; gzip; the digest; the subscriber. *)
  Context (read_package : (nat → nat → option error) → string → res (PkgInfo * string)) (tar_file : string → string → res string) (gzip : string → res string)
    (sha1 : string → string) (rsa : option (string → res string)) (ctx_Err : nat → nat → nat → option error).
Definition tarEntryBytes (name content : string) : res string :=
  match tar_file name content with
  | Err e => Err e
  | Ok raw =>
      let off := tarHeaderSize + paddedTarSize (len content) in
      if negb (len raw =? off + 2 * tarHeaderSize) then Err (Text ("apk.apkindex: неожиданный размер tar-члена: " +:+ fmt_int (len raw) +:+ ", хочу " +:+ fmt_int (off + 2 * tarHeaderSize)))
      else Ok (substr 0 off raw)
  end.
Definition buildAPKINDEXTarGz (indexText : string) : res string :=
  match tarEntryBytes "APKINDEX" indexText with Err e => Err e | Ok raw => gzip (raw +:+ zeros 1024) end.
Definition sign_member : string := ".SIGN.RSA." +:+ apkKeyID.
Definition buildSignatureTarGz (sig : string) : res string :=
  match tarEntryBytes sign_member sig with Err e => Err e | Ok raw => gzip raw end.
Definition buildIndex (indexText : string) : res string :=
  match buildAPKINDEXTarGz indexText with
  | Err e => Err e
  | Ok body =>
      match rsa with
      | None => Ok body
      | Some SignSHA1DigestInfo =>
          match SignSHA1DigestInfo (sha1 body) with
          | Err e => Err (Wrap "подпись индекса" e)
          | Ok sig => match buildSignatureTarGz sig with Err e => Err e | Ok head => Ok (head +:+ body) end
          end
      end
  end.
Definition collectApks (prefix : string) : St S (res (list string)) :=
  let listPrefix := prefix +:+ "/" in
  l ← List listPrefix;
  match l with
  | (_, Some e) => mret (Err (Wrap ("листинг " +:+ listPrefix) e))
  | (metas, None) => mret (Ok (merge_sort str_le (List.filter (λ k, has_suffix k ".apk") (mt_Key <$> metas))))
  end.
Definition entry_of (prefix apkKey body : string) (pi : PkgInfo) (sum : string) : indexEntry :=
  let filepath := trim_prefix apkKey (prefix +:+ "/") in
  mk_indexEntry (ap_Arch pi) (splitArchDir filepath).1.1 (writeAPKINDEXEntry pi (checksum_text sum) filepath (len body)).
Definition readIndexEntry (i : nat) (prefix apkKey : string) : St S (res indexEntry) :=
  obj ← Port.Get apkKey;
  match obj with
  | Err e => mret (Err e)
  | Ok (_, body) => mret match read_package (λ m, ctx_Err i (1 + m)) body with Err e => Err e | Ok (pi, sum) => Ok (entry_of prefix apkKey body pi sum) end
  end.
Fixpoint readEntries (i : nat) (prefix : string) (keys : list string) (st : gmap string string * list string) : St S (res (gmap string string * list string)) :=
  match keys with
  | [] => mret (Ok st)
  | key :: keys =>
      match ctx_Err i 0 0 with
      | Some e => mret (Err e)
      | None =>
          r ← readIndexEntry i prefix key;
          match r with
          | Err e => mret (Err (Wrap ("apk.gen: " +:+ key) e))
          | Ok entry => readEntries (1 + i) prefix keys (add_entry st entry)
          end
      end
  end%nat.
Definition index_key (prefix arch : string) : string := prefix +:+ "/" +:+ arch +:+ "/apkindex.tar.gz".
Fixpoint writeIndexes (prefix : string) (groups : gmap string string) (archs : list string) : St S (option error) :=
  match archs with
  | [] => mret None
  | arch :: archs =>
      match buildIndex (index_text groups arch) with
      | Err e => mret (Some (Wrap ("apk.gen: сборка APKINDEX.tar.gz (" +:+ arch +:+ ")") e))
      | Ok indexGz =>
          e ← writeAtomic (index_key prefix arch) indexGz;
          match e with Some e => mret (Some (Wrap ("apk.gen: APKINDEX.tar.gz (" +:+ arch +:+ ")") e)) | None => writeIndexes prefix groups archs end
      end
  end.
(** The reports of progress and the log are left out. *)
Definition GenerateIndexes (repo : Repo) : St S (option error) :=
  if negb (String.eqb (repo_Ecosystem repo) Name) then mret (Some (UnsupportedError "apk.gen" ("экосистема " +:+ repo_Ecosystem repo +:+ " ≠ apk")))
  else
    let prefix := RepoPrefix repo in
    keys ← collectApks prefix;
    match keys with
    | Err e => mret (Some (Wrap "apk.gen: enumerate" e))
    | Ok apkKeys =>
        r ← readEntries 0 prefix apkKeys (∅, []);
        match r with
        | Err e => mret (Some e)
        | Ok (groups, archs) => writeIndexes prefix groups (merge_sort str_le archs)
        end
    end.
End generator.

(** * The enumeration of a mirror (apk.go) *)
Definition parseApkInclude (include : list string) : res (list string) :=
  match include with
  | [] => Err (ValidationError "include" "" ("apk sync: укажите архитектуры (например [" +:+ String "034" ("x86_64" +:+ String "034" "])")))
  | _ => include_archs include []
  end.
Section enumeration.
  Context {M D : Type} (Fetch : string → St M (res (string * option error))) (gunzip : string * option error → res stream) (reads : string → list string)
    (untar : stream → list member * option error).
(** What a record adds to the paths and the digests. *)
Definition take_entry (seen : gset string) (st : list string * gmap string Checksum) (e : IndexEntry) : list string * gmap string Checksum :=
  let '(paths, sums) := st in
  let p := trim_space (ie_FilePath e) in
  if String.eqb p "" then st
  else
    let p := if has_prefix p "/" then p else "/" +:+ p in
    (paths ++ [p], if bool_decide (p ∈ seen) then sums else match csumFromIndex (ie_Checksum e) with Some sum => <[p := sum]> sums | None => sums end).
Definition enumerateArch (remoteName arch : string) (seen : gset string) (sums : gmap string Checksum) : St M (res (list string * gmap string Checksum)) :=
  body ← Fetch ("/" +:+ Name +:+ "/" +:+ remoteName +:+ "/" +:+ arch +:+ "/APKINDEX.tar.gz");
  mret match body with
  | Err e => Err e
  | Ok body =>
      let '(entries, err) := ParseAPKINDEX gunzip reads untar body in
      match err with Some e => Err (Wrap "apk: parse apkindex" e) | None => Ok (foldl (take_entry seen) ([], sums) entries) end
  end.
Fixpoint enumerateArchs (remoteName : string) (archs : list string) (seen : gset string) (sums : gmap string Checksum) (paths : list string) : St M (res (list string * gmap string Checksum)) :=
  match archs with
  | [] => mret (Ok (paths, sums))
  | arch :: archs =>
      got ← enumerateArch remoteName arch seen sums;
      match got with
      | Err e => mret (Err (Wrap ("apk: enumerate " +:+ arch) e))
      | Ok (got, sums) => let '(seen, paths) := foldl add_path (seen, paths) got in enumerateArchs remoteName archs seen sums paths
      end
  end.
(** Where there is a fetcher. *)
Definition Enumerate (remote : Remote) : St (M * Adapter D) (res (list string)) := λ '(m, a),
  match parseApkInclude (rm_Include remote) with
  | Err e => (Err e, (m, a))
  | Ok archs =>
      match enumerateArchs (rm_Name remote) archs ∅ ∅ [] m with
      | (Err e, m) => (Err e, (m, a))
      | (Ok (paths, sums), m) => (Ok paths, (m, sums_replace (rm_ID remote) sums a))
      end
  end.
End enumeration.

(** * What a generation does *)
Definition listed (e : indexEntry) : bool := negb (String.eqb (en_arch e) "" || negb (String.eqb (en_dir e) (en_arch e))).
(** The records of an architecture, in order. *)
Definition entries_of (arch : string) (entries : list indexEntry) : list indexEntry := List.filter (λ e, listed e && String.eqb (en_arch e) arch) entries.
Definition text_of_arch (entries : list indexEntry) (arch : string) : string := String.concat "" (map en_text (entries_of arch entries)).
Lemma entries_of_snoc arch entries e : entries_of arch (entries ++ [e]) = entries_of arch entries ++ (if listed e && String.eqb (en_arch e) arch then [e] else []).
Proof. unfold entries_of. rewrite List.filter_app. done. Qed.
Lemma groups_spec entries : let '(groups, archs) := foldl add_entry (∅, []) entries in
  NoDup archs ∧ (∀ arch, arch ∈ archs ↔ entries_of arch entries ≠ []) ∧
  ∀ arch, groups !! arch = match entries_of arch entries with [] => None | _ => Some (text_of_arch entries arch) end.
Proof.
  induction entries as [|e entries IH] using rev_ind; [split_and!; [constructor|by intros arch; rewrite elem_of_nil|done]|].
  rewrite foldl_snoc. destruct (foldl add_entry (∅, []) entries) as [groups archs]. destruct IH as (Hnd & Hin & Hg).
  assert (∀ arch, text_of_arch (entries ++ [e]) arch = text_of_arch entries arch +:+ (if listed e && String.eqb (en_arch e) arch then en_text e else "")) as Ht.
  { intros arch. unfold text_of_arch. rewrite entries_of_snoc, map_app. generalize (map en_text (entries_of arch entries)) as l. intros l.
    induction l as [|x l IHl]; [destruct (listed e && _); simpl; [done|done]|]. cbn [app]. rewrite !concat_empty_cons, IHl. by rewrite app_assoc. }
  unfold add_entry.
  destruct (String.eqb (en_arch e) "" || negb (String.eqb (en_dir e) (en_arch e))) eqn:Hl.
  - assert (listed e = false) as Hf by (unfold listed; by rewrite Hl). split_and!; [done| |]; intros arch; rewrite entries_of_snoc, Hf; cbn [andb]; rewrite (right_id_L [] (++)); [apply Hin|].
    rewrite Hg, Ht, Hf. cbn [andb]. by rewrite app_nil_r.
  - assert (listed e = true) as Hf by (unfold listed; by rewrite Hl). pose proof (Hg (en_arch e)) as He. pose proof (Hin (en_arch e)) as Hie.
    assert (∀ arch, arch ≠ en_arch e → entries_of arch (entries ++ [e]) = entries_of arch entries ∧ text_of_arch (entries ++ [e]) arch = text_of_arch entries arch) as Hother.
    { intros arch Hne. rewrite entries_of_snoc, Ht, Hf, (proj2 (String.eqb_neq _ _)) by done. cbn [andb]. by rewrite (right_id_L [] (++)), app_nil_r. }
    assert (entries_of (en_arch e) (entries ++ [e]) = entries_of (en_arch e) entries ++ [e] ∧ text_of_arch (entries ++ [e]) (en_arch e) = text_of_arch entries (en_arch e) +:+ en_text e) as [Hsame Hts].
    { by rewrite entries_of_snoc, Ht, Hf, String.eqb_refl. }
    destruct (entries_of (en_arch e) entries) as [|x l] eqn:Hent; rewrite He.
    + assert (text_of_arch entries (en_arch e) = "") as H0 by (unfold text_of_arch; by rewrite Hent). rewrite H0 in Hts. split_and!.
      * apply NoDup_app. split_and!; [done| |apply NoDup_singleton]. intros arch Ha ->%list_elem_of_singleton. by apply Hie in Ha.
      * intros arch. rewrite elem_of_app, list_elem_of_singleton. destruct (decide (arch = en_arch e)) as [->|Hne]; [rewrite Hsame; naive_solver|].
        rewrite (proj1 (Hother arch Hne)), Hin. naive_solver.
      * intros arch. destruct (decide (arch = en_arch e)) as [->|Hne]; [by rewrite lookup_insert_eq, Hsame, Hts|]. destruct (Hother arch Hne) as [-> ->]. by rewrite lookup_insert_ne, Hg.
    + split_and!; [done| |].
      * intros arch. destruct (decide (arch = en_arch e)) as [->|Hne]; [rewrite Hsame, Hie; naive_solver|]. by rewrite (proj1 (Hother arch Hne)).
      * intros arch. destruct (decide (arch = en_arch e)) as [->|Hne]; [by rewrite lookup_insert_eq, Hsame, Hts|]. destruct (Hother arch Hne) as [-> ->]. by rewrite lookup_insert_ne, Hg.
Qed.
Lemma NoDup_merge (l : list string) : NoDup l → NoDup (merge_sort str_le l).
Proof. by rewrite merge_sort_Permutation. Qed.
Lemma index_key_inj prefix a b : index_key prefix a = index_key prefix b → a = b.
Proof. unfold index_key. intros Hk%app_inj_l. apply app_inj_l in Hk. by apply app_inj_r in Hk. Qed.
Section effects.
  Context {S : Type} `{Storage S} `{!StorageLaws S}.
  Context (read_package : (nat → nat → option error) → string → res (PkgInfo * string)) (tar_file : string → string → res string) (gzip : string → res string)
    (sha1 : string → string) (rsa : option (string → res string)) (ctx_Err : nat → nat → nat → option error).
Abbreviation generate := (GenerateIndexes read_package tar_file gzip sha1 rsa ctx_Err).
Abbreviation build := (buildIndex tar_file gzip sha1 rsa).
Definition is_apk (prefix k : string) : Prop := has_prefix k (prefix +:+ "/") = true ∧ has_suffix k ".apk" = true.
(** A record says what the bytes of its package say. *)
Definition apk_describes (prefix : string) (m : gmap string string) (k : string) (e : indexEntry) : Prop := ∃ body pi sum ctx,
  m !! k = Some body ∧ read_package ctx body = Ok (pi, sum) ∧ e = entry_of prefix k body pi sum.
Lemma collectApks_keeps p : keeps contents (collectApks p).
Proof. unfold collectApks. keeps_tac. Qed.
Lemma readIndexEntry_keeps i p k : keeps contents (readIndexEntry read_package ctx_Err i p k).
Proof. unfold readIndexEntry. keeps_tac. Qed.
Lemma readEntries_keeps prefix keys : ∀ i st, keeps contents (readEntries read_package ctx_Err i prefix keys st).
Proof.
  induction keys as [|k keys IH]; intros i st; cbn [readEntries]; [keeps_tac|]. destruct (ctx_Err i 0 0)%nat; [keeps_tac|].
  apply keeps_bind; [apply readIndexEntry_keeps|]. intros [de|e]; [apply IH|keeps_tac].
Qed.
Lemma collectApks_Ok prefix s keys s' : collectApks prefix s = (Ok keys, s') → NoDup keys ∧ Sorted str_le keys ∧ ∀ k, k ∈ keys ↔ is_Some (contents s !! k) ∧ is_apk prefix k.
Proof.
  unfold collectApks, mbind, st_bind. pose proof (List_sub (prefix +:+ "/") s) as Hsub. pose proof (List_nodup (prefix +:+ "/") s) as Hnd.
  pose proof (λ k, List_complete (prefix +:+ "/") s k (listable_slash _)) as Hcomp.
  destruct (List (prefix +:+ "/") s) as [[metas [e|]] s1]; [done|]. simpl in *. intros [= <- _].
  split_and!; [rewrite merge_sort_Permutation; by apply NoDup_List_filter|apply Sorted_merge_sort; intros a b; apply str_le_total|].
  intros k. rewrite merge_sort_Permutation, list_elem_of_In, List.filter_In, <- list_elem_of_In. unfold is_apk. split.
  - intros [(m & -> & Hm)%list_elem_of_fmap Hs]. destruct (Hsub m Hm) as (Hp & b & Hb & _). eauto.
  - intros (Hk & Hp & Hs). split; [by apply Hcomp|done].
Qed.
Lemma readEntries_Ok prefix keys : ∀ i st s out s', readEntries read_package ctx_Err i prefix keys st s = (Ok out, s') →
  ∃ entries, out = foldl add_entry st entries ∧ Forall2 (apk_describes prefix (contents s)) keys entries.
Proof.
  induction keys as [|k keys IH]; intros i st s out s'; cbn [readEntries]; [intros [= <- _]; by exists []|].
  destruct (ctx_Err i 0 0)%nat; [done|]. unfold mbind, st_bind. pose proof (readIndexEntry_keeps i prefix k s) as Hk.
  destruct (readIndexEntry _ _ i prefix k s) as [[e|err] s1] eqn:He; [|done]. simpl in Hk. intros Hrun. apply IH in Hrun as (entries & -> & Hall). rewrite Hk in Hall.
  exists (e :: entries). split; [done|]. constructor; [|done]. revert He. unfold readIndexEntry, mbind, st_bind.
  pose proof (Get_Ok k s) as Hg. destruct (Port.Get k s) as [[[m body]|err] s2]; [|done]. destruct (Hg m body eq_refl) as (Hc & _ & _).
  destruct (read_package _ body) as [[pi sum]|err] eqn:Hr; [|done]. intros [= <- _]. by exists body, pi, sum, (λ m, ctx_Err i (1 + m))%nat.
Qed.
Lemma apk_writeIndexes_through prefix groups archs : moves (through (λ k, ∃ arch, arch ∈ archs ∧ k = index_key prefix arch)) (writeIndexes tar_file gzip sha1 rsa prefix groups archs).
Proof.
  induction archs as [|arch archs IH]; intros s; cbn [writeIndexes]; [by intros k|]. destruct (build _) as [gz|e]; [|by intros k]. unfold mbind, st_bind.
  pose proof (writeAtomic_through (λ k, ∃ a, a ∈ arch :: archs ∧ k = index_key prefix a) (index_key prefix arch) gz (ex_intro _ arch (conj (list_elem_of_here _ _) eq_refl)) s) as Hw.
  destruct (writeAtomic _ gz s) as [[e|] s1]; simpl in *; [done|]. etransitivity; [exact Hw|]. intros k Hk. apply IH. intros (a & Ha & ->). apply Hk. exists a. split; [by right|done].
Qed.
Lemma apk_writeIndexes_None prefix groups archs s s' : NoDup archs → writeIndexes tar_file gzip sha1 rsa prefix groups archs s = (None, s') →
  ∀ arch, arch ∈ archs → ∃ gz, build (index_text groups arch) = Ok gz ∧ contents s' !! index_key prefix arch = Some gz.
Proof.
  intros Hnd. revert s. induction Hnd as [|arch archs Hn Hnd IH]; intros s; cbn [writeIndexes]; [by intros _ arch ?%elem_of_nil|].
  destruct (build (index_text groups arch)) as [gz|e] eqn:Hb; [|done]. unfold mbind, st_bind. destruct (writeAtomic (index_key prefix arch) gz s) as [[e|] s1] eqn:Hw; [done|]. apply writeAtomic_None in Hw.
  intros Hrun a [->|Ha]%elem_of_cons; [|by eapply IH]. exists gz. split; [done|]. pose proof (apk_writeIndexes_through prefix groups archs s1 (index_key prefix arch)) as Ht. rewrite Hrun in Ht. simpl in Ht.
  rewrite Ht, Hw, lookup_insert_eq; [done|]. intros (b & Hin & Hk). apply index_key_inj in Hk. by subst b.
Qed.

(** The text of an index: the records of its architecture, and those for all. *)
Definition text_for (entries : list indexEntry) (arch : string) : string := text_of_arch entries arch +:+ (if String.eqb arch archNoarch then "" else text_of_arch entries archNoarch).
(** The end of a generation, after its packages are read. *)
Definition write_all (prefix : string) (entries : list indexEntry) : St S (option error) :=
  let '(groups, archs) := foldl add_entry (∅, []) entries in writeIndexes tar_file gzip sha1 rsa prefix groups (merge_sort str_le archs).
Lemma apk_write_all_through prefix entries : moves (through (λ k, ∃ arch, entries_of arch entries ≠ [] ∧ k = index_key prefix arch)) (write_all prefix entries).
Proof.
  intros s k Hk. unfold write_all. pose proof (groups_spec entries) as Hg. destruct (foldl add_entry (∅, []) entries) as [groups archs]. destruct Hg as (_ & Hin & _).
  apply (apk_writeIndexes_through prefix groups (merge_sort str_le archs) s k). intros (arch & Ha & ->). apply Hk. exists arch. split; [|done]. apply Hin. by rewrite merge_sort_Permutation in Ha.
Qed.
Lemma apk_write_all_None prefix entries s arch : (write_all prefix entries s).1 = None → entries_of arch entries ≠ [] →
  ∃ gz, build (text_for entries arch) = Ok gz ∧ contents (write_all prefix entries s).2 !! index_key prefix arch = Some gz.
Proof.
  unfold write_all. pose proof (groups_spec entries) as Hg. destruct (foldl add_entry (∅, []) entries) as [groups archs]. destruct Hg as (Hna & Hin & Hg). intros Hn Hne.
  destruct (writeIndexes tar_file gzip sha1 rsa prefix groups (merge_sort str_le archs) s) as [err s3] eqn:Hw. simpl in Hn. subst err.
  destruct (apk_writeIndexes_None _ _ _ _ _ (NoDup_merge archs Hna) Hw arch) as (gz & Hb & Hgz); [rewrite merge_sort_Permutation; by apply Hin|].
  exists gz. split; [|exact Hgz]. rewrite <- Hb. f_equal. unfold text_for, index_text. rewrite !Hg.
  assert (∀ a, match entries_of a entries with [] => None | _ => Some (text_of_arch entries a) end = None ∧ text_of_arch entries a = "" ∨
    match entries_of a entries with [] => None | _ => Some (text_of_arch entries a) end = Some (text_of_arch entries a)) as Hd.
  { intros a. unfold text_of_arch. destruct (entries_of a entries); [by left|by right]. }
  destruct (Hd arch) as [[-> ->]| ->], (Hd archNoarch) as [[-> ->]| ->]; done.
Qed.
Lemma apk_generation_run repo s : (contents (generate repo s).2 = contents s ∧ (generate repo s).1 ≠ None) ∨
  ∃ keys entries s0, NoDup keys ∧ Sorted str_le keys ∧ (∀ k, k ∈ keys ↔ is_Some (contents s !! k) ∧ is_apk (RepoPrefix repo) k) ∧
    Forall2 (apk_describes (RepoPrefix repo) (contents s)) keys entries ∧ contents s0 = contents s ∧ generate repo s = write_all (RepoPrefix repo) entries s0.
Proof.
  unfold GenerateIndexes. destruct (negb _); [by left|]. unfold mbind, st_bind. pose proof (collectApks_keeps (RepoPrefix repo) s) as Hc1.
  destruct (collectApks (RepoPrefix repo) s) as [[keys|e] s1] eqn:Hk; simpl in Hc1; [|by left]. apply collectApks_Ok in Hk as (Hnd & Hsorted & Hkeys).
  pose proof (readEntries_keeps (RepoPrefix repo) keys 0 (∅, []) s1) as Hc2.
  destruct (readEntries _ _ 0 (RepoPrefix repo) keys (∅, []) s1) as [[out|e] s2] eqn:Hr; simpl in Hc2; [|left; split; simpl; congruence].
  apply readEntries_Ok in Hr as (entries & Hout & Hall). rewrite Hc1 in Hall. right. exists keys, entries, s2. split_and!; [done..|congruence|].
  unfold write_all. by rewrite <- Hout.
Qed.

(** C39: what a successful generation has done: the records are those of all the packages
    of the repository, in the order of their keys, each as its own bytes say. For every
    architecture with a package in its own directory the index is written: the records
    of these packages and those of the packages for all architectures, and no others.
    Whatever the outcome, nothing but indexes has changed; and an index of an
    architecture that has no such package stays as it is. *)
Theorem apk_index_is_faithful repo s :
  (∀ k, (∀ arch, k ≠ index_key (RepoPrefix repo) arch) → contents (generate repo s).2 !! k = contents s !! k) ∧
  ((generate repo s).1 = None → ∃ keys entries, NoDup keys ∧ Sorted str_le keys ∧ (∀ k, k ∈ keys ↔ is_Some (contents s !! k) ∧ is_apk (RepoPrefix repo) k) ∧
    Forall2 (apk_describes (RepoPrefix repo) (contents s)) keys entries ∧
    ∀ arch, match entries_of arch entries with
      | [] => contents (generate repo s).2 !! index_key (RepoPrefix repo) arch = contents s !! index_key (RepoPrefix repo) arch
      | _ => ∃ gz, build (text_for entries arch) = Ok gz ∧ contents (generate repo s).2 !! index_key (RepoPrefix repo) arch = Some gz
      end).
Proof.
  destruct (apk_generation_run repo s) as [[Hc Hn]|(keys & entries & s0 & Hnd & Hsorted & Hkeys & Hall & Hc & ->)]; [by split; [intros; rewrite Hc|]|].
  pose proof (apk_write_all_through (RepoPrefix repo) entries s0) as Ht. split.
  - intros k Hk. rewrite Ht; [by rewrite Hc|]. intros (arch & _ & ->). by apply (Hk arch).
  - intros Hn. exists keys, entries. split_and!; [done..|]. intros arch. pose proof (apk_write_all_None (RepoPrefix repo) entries s0 arch Hn) as Hw. destruct (entries_of arch entries) eqn:He.
    + rewrite Ht; [by rewrite Hc|]. intros (a & Ha & Heq). apply index_key_inj in Heq. by subst a.
    + by apply Hw.
Qed.
End effects.

(** * A mirror of a generated repository *)
Lemma total_concat chunks : total chunks = len (String.concat "" chunks).
Proof. induction chunks as [|c chunks IH]; [done|]. rewrite concat_empty_cons, len_app, <- IH. done. Qed.
Lemma zeros_len n : len (zeros n) = Z.of_nat n.
Proof. unfold len. induction n as [|n IH]; [done|]. cbn [zeros String.length]. lia. Qed.
Lemma paddedTarSize_bound n : 0 <= n → 0 <= paddedTarSize n <= n + 511.
Proof. intros Hn. unfold paddedTarSize, tarHeaderSize. destruct (Z.eqb_spec n 0); [lia|]. pose proof (Z.div_mod (n + 512 - 1) 512). pose proof (Z.mod_pos_bound (n + 512 - 1) 512). lia. Qed.
Lemma tarEntryBytes_len tar_file name content raw : tarEntryBytes tar_file name content = Ok raw → len raw <= len content + 1023.
Proof.
  unfold tarEntryBytes. destruct (tar_file name content) as [full|]; [|done]. cbv zeta. pose proof (paddedTarSize_bound _ (len_nonneg content)). unfold tarHeaderSize in *.
  destruct (Z.eqb_spec (len full) (512 + paddedTarSize (len content) + 2 * 512)); [|done]. intros [= <-]. rewrite substr_prefix_len; lia.
Qed.
Lemma no_return q s : q (byte 13) = false → all_bytes q s = true → trim_cr s = s.
Proof. intros Hq Hs. apply trim_cr_keeps. intros r ->. rewrite all_bytes_app in Hs. apply andb_prop in Hs as [_ Hs]. cbn [all_bytes] in Hs. by rewrite Hq in Hs. Qed.
Lemma one_line q s : q newline = false → all_bytes q s = true → line_ok s.
Proof. intros Hq Hs. unfold line_ok, no_sep. eapply all_bytes_impl; [|exact Hs]. intros c Hc. by destruct (Ascii.eqb_spec newline c) as [<-|]; [congruence|]. Qed.
(** The path of a key from the root of the repository. *)
Lemma rel_path prefix k : has_prefix k (prefix +:+ "/") = true → ValidateKey k = None → let rel := trim_prefix k (prefix +:+ "/") in
  k = prefix +:+ "/" +:+ rel ∧ all_bytes allowedKeyByte rel = true ∧ has_prefix rel "/" = false ∧ rel ≠ "".
Proof.
  intros [rel ->]%has_prefix_spec Hv%ValidateKey_ok. unfold trim_prefix. rewrite (proj2 (strip_prefix_Some _ _ rel) eq_refl). cbv zeta. change (default ((prefix +:+ "/") +:+ rel) (Some rel)) with rel. rewrite <- app_assoc.
  pose proof (key_ok_bytes _ Hv) as Hb. rewrite <- app_assoc, !all_bytes_app in Hb. apply andb_prop in Hb as [_ [_ Hb]%andb_prop].
  pose proof (key_ok_segments _ Hv) as Hs. rewrite <- app_assoc in Hs. change (prefix +:+ "/" +:+ rel) with (prefix +:+ String "/" rel) in Hs. rewrite split_app in Hs.
  apply Forall_app in Hs as [_ Hs]. split_and!; [done|done|by apply segments_no_leading|]. intros ->. apply Forall_cons in Hs as [[Hs _] _]. by apply Hs.
Qed.
(** The records of a text that was written are read back. *)
Lemma written_text_read reads (rs : list (list (string * string))) : (∀ b, String.concat "" (reads b) = b) →
  Forall (λ fs, fs ≠ [] ∧ Forall (λ f, is_key f.1) fs ∧ (length fs <= 16)%nat ∧ Forall line_ok (map field_line fs)) rs → Z.of_nat (length rs) < 2 ^ 16 →
  let text := text_of (rs ≫= record_lines) in len text < 2 ^ 26 →
  parseAPKINDEXText index_limits (limited (al_fileSize index_limits) errFileLimit 0 (reads text) None) = (foldl take_field no_entry <$> rs, None).
Proof.
  intros Hreads Hrs Hlen text Ht. rewrite limited_below by (rewrite total_concat, Hreads; exact Ht). unfold parseAPKINDEXText. cbn [fst snd]. rewrite Hreads.
  assert (height rs <= 16 * Z.of_nat (length rs)) as Hh by (clear -Hrs; unfold height; induction Hrs as [|fs rs (_ & _ & Hl & _) _ IH]; cbn [foldr length]; lia).
  assert (Forall line_ok (rs ≫= record_lines)) as Hok.
  { apply Forall_bind. eapply Forall_impl; [exact Hrs|]. intros fs (_ & _ & _ & Hl). unfold record_lines. apply Forall_app. split; [exact Hl|by constructor]. }
  assert (split newline text = (rs ≫= record_lines) ++ [""]) as ->.
  { rewrite <- (app_nil_r text). unfold text. rewrite split_lines by exact Hok. done. }
  apply index_lines_records; [|change (al_lines index_limits) with (2 ^ 20); lia|change (al_entries index_limits) with (2 ^ 20); lia].
  eapply Forall_impl; [exact Hrs|]. intros fs (H1 & H2 & _). done.
Qed.
(** The paths and the digests of records, for a mirror that has seen nothing. *)
Definition learn (sums : gmap string Checksum) (kv : string * string) : gmap string Checksum := <["/" +:+ kv.1 := mk_Checksum "sha1" (hex_encode kv.2)]> sums.
Lemma take_entries entries known : Forall2 (λ e kv, ie_FilePath e = kv.1 ∧ ie_Checksum e = checksum_text kv.2) entries known →
  Forall (λ kv : string * string, all_bytes allowedKeyByte kv.1 = true ∧ has_prefix kv.1 "/" = false ∧ kv.1 ≠ "" ∧ len kv.2 = 20) known → ∀ paths sums,
  foldl (take_entry ∅) (paths, sums) entries = (paths ++ ((λ kv, "/" +:+ kv.1) <$> known), foldl learn sums known).
Proof.
  induction 1 as [|e [rel sum] entries known [Hf Hc] _ IH]; intros Hall paths sums; [cbn; by rewrite (right_id_L [] (++))|]. apply Forall_cons in Hall as [(Hb & Hp & Hne & Hl) Hall].
  cbn [fst snd foldl] in *. rewrite fmap_cons. assert (take_entry ∅ (paths, sums) e = (paths ++ ["/" +:+ rel], learn sums (rel, sum))) as ->.
  { unfold take_entry. rewrite Hf, (trim_space_outside allowedKeyByte) by done. rewrite (proj2 (String.eqb_neq rel "") Hne), Hp, Hc, csumFromIndex_written by exact Hl. done. }
  rewrite IH by done. by rewrite <- (assoc_L (++)).
Qed.
Lemma learn_lookup known rel sum : (rel, sum) ∈ known → (∀ sum', (rel, sum') ∈ known → sum' = sum) → ∀ sums,
  foldl learn sums known !! ("/" +:+ rel) = Some (mk_Checksum "sha1" (hex_encode sum)).
Proof.
  induction known as [|[r x] known IH] using rev_ind; [by intros ?%elem_of_nil|]. intros Hin Hu sums. rewrite foldl_snoc. unfold learn at 1. cbn [fst snd]. destruct (decide (r = rel)) as [->|Hne].
  - rewrite lookup_insert_eq. do 2 f_equal. f_equal. apply Hu, elem_of_app. right. by left.
  - rewrite lookup_insert_ne by (intros Heq; apply Hne; by injection Heq). apply IH; [|intros x' Hx'; apply Hu, elem_of_app; by left].
    apply elem_of_app in Hin as [?|Heq%list_elem_of_singleton]; [done|]. congruence.
Qed.
(** The records of an index, as a list. *)
Definition selected (entries : list indexEntry) (arch : string) : list indexEntry := entries_of arch entries ++ (if String.eqb arch archNoarch then [] else entries_of archNoarch entries).
Lemma text_for_selected entries arch : text_for entries arch = String.concat "" (map en_text (selected entries arch)).
Proof.
  unfold text_for, selected, text_of_arch. generalize (entries_of arch entries) as l. intros l. induction l as [|e l IH]; [by destruct (String.eqb arch archNoarch)|].
  cbn [map app]. rewrite !concat_empty_cons, <- IH. by rewrite app_assoc.
Qed.
Lemma selected_spec entries arch : (∀ e, e ∈ selected entries arch ↔ e ∈ entries ∧ listed e = true ∧ en_arch e ∈ [arch; archNoarch]) ∧ (length (selected entries arch) <= length entries)%nat.
Proof.
  assert (∀ a e, e ∈ entries_of a entries ↔ e ∈ entries ∧ listed e = true ∧ en_arch e = a) as Hf.
  { intros a e. unfold entries_of. rewrite !list_elem_of_In, List.filter_In, andb_true_iff, String.eqb_eq. done. }
  unfold selected. destruct (String.eqb_spec arch archNoarch) as [->|Hne].
  - rewrite (right_id_L [] (++)). split; [intros e; rewrite Hf, !elem_of_cons, elem_of_nil; naive_solver|]. unfold entries_of. apply List.filter_length_le.
  - split; [intros e; rewrite elem_of_app, !Hf, !elem_of_cons, elem_of_nil; naive_solver|]. rewrite length_app. clear -Hne. unfold entries_of. induction entries as [|e entries IH]; [done|]. cbn [List.filter].
    destruct (listed e); [|simpl; lia]. cbn [andb]. destruct (String.eqb_spec (en_arch e) arch) as [Ha|], (String.eqb_spec (en_arch e) archNoarch); [congruence|cbn [length]; lia..].
Qed.
Section mirrored.
  Context {S M D : Type} `{Storage S} `{!StorageLaws S}.
  Context (unzstd gunzip : string → res stream) (gzip_members : string → list (string * stream) * option error) (reads : string → list string)
    (untar : stream → list member * option error) (tar_file : string → string → res string) (gzip : string → res string)
    (sha1 : string → string) (rsa : option (string → res string)) (ctx_Err : nat → nat → nat → option error)
    (Fetch : string → St M (res (string * option error))) (gunzip_body : string * option error → res stream).
  (** A digest has 20 bytes, the reads of a body are all of it, a signature is short;
      members of gzip one after the other decompress to what they hold, one after the
      other; a tar is its entries and two empty blocks. *)
  Hypothesis sha1_length : ∀ b, String.length (sha1 b) = 20%nat.
  Hypothesis reads_all : ∀ b, String.concat "" (reads b) = b.
  Hypothesis short_signature : ∀ sign d sig, rsa = Some sign → sign d = Ok sig → len sig < 2 ^ 26.
  Hypothesis gzip_concat : ∀ raws zs, Forall2 (λ raw z, gzip raw = Ok z) raws zs → raws ≠ [] →
    ∃ chunks, gunzip_body (String.concat "" zs, None) = Ok (chunks, None) ∧ String.concat "" chunks = String.concat "" raws.
  Hypothesis tar_reads : ∀ files raws chunks, Forall2 (λ f raw, tarEntryBytes tar_file f.1 f.2 = Ok raw) files raws →
    String.concat "" chunks = String.concat "" raws +:+ zeros 1024 → untar (chunks, None) = ((λ f, mk_member true f.1 (len f.2) (f.2, None)) <$> files, None).
  Abbreviation read := (read_package unzstd gunzip gzip_members reads untar sha1).
  Abbreviation build := (buildIndex tar_file gzip sha1 rsa).
Lemma ParseAPKINDEX_built text db : build text = Ok db → len text < 2 ^ 26 → ParseAPKINDEX gunzip_body reads untar (db, None) =
  let '(entries, err) := parseAPKINDEXText index_limits (limited (al_fileSize index_limits) errFileLimit 0 (reads text) None) in
  (entries, match err with Some e => Some (let e := if errors_is errFileLimit e then ErrIndexTooLarge else if errors_is errDecompressLimit e then ErrDecompressTooLarge else e in if errors_is errDecompressLimit e then ErrDecompressTooLarge else e) | None => None end).
Proof.
  intros Hb Ht. assert (∃ files raws chunks, Forall2 (λ f raw, tarEntryBytes tar_file f.1 f.2 = Ok raw) files raws ∧ String.concat "" chunks = String.concat "" raws +:+ zeros 1024 ∧
    gunzip_body (db, None) = Ok (chunks, None) ∧ len (String.concat "" raws) <= 2 ^ 28 ∧ (files = [("APKINDEX", text)] ∨ ∃ sig, files = [(sign_member, sig); ("APKINDEX", text)])) as (files & raws & chunks & Hall & Hc & Hg & Hl & Hfiles).
  { unfold buildIndex, buildAPKINDEXTarGz in Hb. destruct (tarEntryBytes tar_file "APKINDEX" text) as [raw|] eqn:Hr; [|done]. pose proof (tarEntryBytes_len _ _ _ _ Hr) as Hlr.
    destruct (gzip (raw +:+ zeros 1024)) as [body|] eqn:Hz; [|done]. destruct rsa as [sign|] eqn:Hrsa.
    - destruct (sign (sha1 body)) as [sig|] eqn:Hs; [|done]. pose proof (short_signature _ _ _ eq_refl Hs) as Hsl. unfold buildSignatureTarGz in Hb.
      destruct (tarEntryBytes tar_file sign_member sig) as [raw'|] eqn:Hr'; [|done]. pose proof (tarEntryBytes_len _ _ _ _ Hr') as Hlr'.
      destruct (gzip raw') as [head|] eqn:Hz'; [|done]. injection Hb as <-.
      destruct (gzip_concat [raw'; raw +:+ zeros 1024] [head; body]) as (chunks & Hg & Hc); [by repeat constructor|done|].
      exists [(sign_member, sig); ("APKINDEX", text)], [raw'; raw], chunks. rewrite !concat_empty_cons in *. cbn [String.concat] in *. rewrite !app_nil_r in *. rewrite len_app.
      split_and!; [by repeat constructor|by rewrite <- app_assoc|done|lia|right; by exists sig].
    - injection Hb as <-. destruct (gzip_concat [raw +:+ zeros 1024] [body]) as (chunks & Hg & Hc); [by repeat constructor|done|].
      exists [("APKINDEX", text)], [raw], chunks. cbn [String.concat] in *. split_and!; [by repeat constructor|done|done|lia|by left]. }
  unfold ParseAPKINDEX, parseAPKINDEX. rewrite Hg. cbn [fst snd]. rewrite limited_below.
  2: { rewrite total_concat, Hc, len_app, zeros_len. change (al_decompressed index_limits) with (2 ^ 30). lia. }
  rewrite (tar_reads _ _ _ Hall Hc). destruct Hfiles as [->|[sig ->]]; rewrite ?fmap_cons; cbn [parseAPKINDEXTar mb_regular mb_name mb_body fst snd];
    change (isAPKINDEXName "APKINDEX") with true; change (isAPKINDEXName sign_member) with false; cbn [negb andb];
    destruct (parseAPKINDEXText _ _) as [entries [e|]]; done.
Qed.
(** The packages that a client of one of these architectures can have: they are in the
    directory of the architecture that they name. *)
Definition served (prefix : string) (m : gmap string string) (archs : list string) (k sum : string) : Prop := ∃ body pi ctx,
  m !! k = Some body ∧ is_apk prefix k ∧ read ctx body = Ok (pi, sum) ∧ ap_Arch pi ≠ "" ∧ ap_Arch pi ∈ archs ∧ (splitArchDir (trim_prefix k (prefix +:+ "/"))).1.1 = ap_Arch pi.
Lemma served_sum prefix m a1 a2 k sum sum' : served prefix m a1 k sum → served prefix m a2 k sum' → sum' = sum.
Proof.
  intros (body & pi & ctx & Hb & _ & Hr & _) (body' & pi' & ctx' & Hb' & _ & Hr' & _). assert (body' = body) as -> by congruence.
  pose proof (read_package_det _ _ _ _ _ _ _ _ _ _ _ Hr Hr'). congruence.
Qed.
Lemma listed_served prefix m k e archs : is_apk prefix k → apk_describes read prefix m k e → listed e = true → en_arch e ∈ archs → ∃ sum, served prefix m archs k sum.
Proof.
  intros Hp (body & pi & sum & ctx & Hb & Hr & ->) Hl Ha. exists sum, body, pi, ctx. unfold listed in Hl. apply negb_true_iff, orb_false_iff in Hl as [H1%String.eqb_neq H2%negb_false_iff%String.eqb_eq]. by split_and!.
Qed.
Lemma served_listed prefix m k e archs sum : apk_describes read prefix m k e → served prefix m archs k sum → listed e = true ∧ en_arch e ∈ archs.
Proof.
  intros (body & pi & sum' & ctx & Hb & Hr & ->) (body' & pi' & ctx' & Hb' & _ & Hr' & H1 & H2 & H3). assert (body' = body) as -> by congruence.
  pose proof (read_package_det _ _ _ _ _ _ _ _ _ _ _ Hr Hr') as [= <- <-]. split; [|done]. unfold listed. cbn [entry_of en_arch en_dir]. by rewrite H3, (proj2 (String.eqb_neq _ _) H1), String.eqb_refl.
Qed.
(** The record of a package, read back. *)
Lemma described_fields prefix m k e : is_apk prefix k → ValidateKey k = None → (∀ b, m !! k = Some b → len b <= max_int64) → apk_describes read prefix m k e →
  ∃ fs body pi sum ctx, en_text e = text_of (record_lines fs) ∧ (fs ≠ [] ∧ Forall (λ f, is_key f.1) fs ∧ (length fs <= 16)%nat ∧ Forall line_ok (map field_line fs)) ∧
    m !! k = Some body ∧ read ctx body = Ok (pi, sum) ∧ len sum = 20 ∧
    ie_FilePath (foldl take_field no_entry fs) = trim_prefix k (prefix +:+ "/") ∧ ie_Checksum (foldl take_field no_entry fs) = checksum_text sum.
Proof.
  intros [Hp _] Hv Hlen (body & pi & sum & ctx & Hb & Hr & ->). destruct (rel_path prefix k Hp Hv) as (_ & Hbytes & _ & _). set (rel := trim_prefix k (prefix +:+ "/")) in *.
  destruct (read_package_sum _ _ _ _ _ _ _ _ _ _ Hr) as [z Hz]. assert (len sum = 20) as Hl by (rewrite Hz; unfold len; by rewrite sha1_length).
  assert (all_bytes (in_byte 32 126) (checksum_text sum) = true) as Hc by (unfold checksum_text; rewrite all_bytes_app, EncodeToString_text; done).
  specialize (Hlen _ Hb). destruct (index_fields_read pi (checksum_text sum) rel (len body)) as (H1 & H2 & H3 & H4 & H5 & H6).
  { by eapply read_package_lines. }
  { pose proof (len_nonneg body). unfold in_int64, min_int64. lia. }
  { by apply (one_line (in_byte 32 126)). }
  { by apply (one_line allowedKeyByte). }
  { done. }
  { by apply (no_return (in_byte 32 126)). }
  { by apply (no_return allowedKeyByte). }
  exists (index_fields pi (checksum_text sum) rel (len body)), body, pi, sum, ctx. split_and!; [|done..].
  cbn [entry_of en_text]. unfold writeAPKINDEXEntry, record_lines. fold rel. rewrite text_of_app. done.
Qed.
(** The packages of an index with their records. *)
Lemma selected_pairs (R : string → indexEntry → Prop) keys entries arch : Forall2 R keys entries → ∃ ps : list (string * indexEntry), ps.*2 = selected entries arch ∧
  ∀ k e, (k, e) ∈ ps ↔ (k, e) ∈ zip keys entries ∧ listed e = true ∧ en_arch e ∈ [arch; archNoarch].
Proof.
  intros Hall. set (pairs_of a := List.filter (λ ke : string * indexEntry, listed ke.2 && String.eqb (en_arch ke.2) a) (zip keys entries)).
  assert (∀ a, (pairs_of a).*2 = entries_of a entries) as Hsnd.
  { intros a. unfold pairs_of, entries_of. induction Hall as [|k e keys entries _ _ IH]; [done|]. cbn [zip zip_with List.filter snd]. destruct (listed e && String.eqb (en_arch e) a); [by rewrite fmap_cons, IH|done]. }
  assert (∀ a k e, (k, e) ∈ pairs_of a ↔ (k, e) ∈ zip keys entries ∧ listed e = true ∧ en_arch e = a) as Hin.
  { intros a k e. unfold pairs_of. rewrite !list_elem_of_In, List.filter_In, andb_true_iff, String.eqb_eq. done. }
  exists (pairs_of arch ++ (if String.eqb arch archNoarch then [] else pairs_of archNoarch)). split.
  - rewrite fmap_app, Hsnd. unfold selected. destruct (String.eqb arch archNoarch); [done|]. by rewrite Hsnd.
  - intros k e. rewrite elem_of_app, Hin, !elem_of_cons, elem_of_nil. destruct (String.eqb_spec arch archNoarch) as [->|Hne]; rewrite ?elem_of_nil, ?Hin; naive_solver.
Qed.
Lemma pairs_read prefix m arch (ps : list (string * indexEntry)) : (∀ k b, m !! k = Some b → len b <= max_int64) →
  (∀ k e, (k, e) ∈ ps → apk_describes read prefix m k e ∧ is_apk prefix k ∧ ValidateKey k = None ∧ listed e = true ∧ en_arch e ∈ [arch; archNoarch]) →
  ∃ rs known, String.concat "" (map en_text ps.*2) = text_of (rs ≫= record_lines) ∧ length rs = length ps ∧
    Forall (λ fs, fs ≠ [] ∧ Forall (λ f, is_key f.1) fs ∧ (length fs <= 16)%nat ∧ Forall line_ok (map field_line fs)) rs ∧
    Forall2 (λ e kv, ie_FilePath e = kv.1 ∧ ie_Checksum e = checksum_text kv.2) (foldl take_field no_entry <$> rs) known ∧
    Forall (λ kv : string * string, all_bytes allowedKeyByte kv.1 = true ∧ has_prefix kv.1 "/" = false ∧ kv.1 ≠ "" ∧ len kv.2 = 20) known ∧
    ∀ rel sum, (rel, sum) ∈ known ↔ ∃ k e, (k, e) ∈ ps ∧ served prefix m [arch; archNoarch] k sum ∧ rel = trim_prefix k (prefix +:+ "/").
Proof.
  intros Hlen. induction ps as [|[k e] ps IH]; intros Hs.
  { exists [], []. split_and!; [done..|constructor|constructor|constructor|]. intros rel sum. rewrite elem_of_nil. split; [done|]. by intros (k & e & ?%elem_of_nil & _). }
  destruct IH as (rs & known & Ht & Hl & Hrs & Hread & Hk & Hin); [intros; apply Hs; by right|]. destruct (Hs k e) as (Hd & Hp & Hv & Hlisted & Harch); [by left|].
  destruct (described_fields prefix m k e Hp Hv (Hlen k) Hd) as (fs & body & pi & sum & ctx & Htext & Hfs & Hb & Hr & Hsum & Hf & Hc).
  destruct (listed_served prefix m k e _ Hp Hd Hlisted Harch) as [sum' Hserved].
  assert (sum' = sum) as -> by (destruct Hserved as (body' & pi' & ctx' & Hb' & _ & Hr' & _); assert (body' = body) as -> by congruence; pose proof (read_package_det _ _ _ _ _ _ _ _ _ _ _ Hr Hr'); congruence).
  destruct (rel_path prefix k (proj1 Hp) Hv) as (_ & Hbytes & Hslash & Hne).
  exists (fs :: rs), ((trim_prefix k (prefix +:+ "/"), sum) :: known). rewrite bind_cons, text_of_app, <- Htext, <- Ht. cbn [map length]. rewrite !fmap_cons. cbn [snd map]. rewrite concat_empty_cons.
  split_and!; [done|by rewrite Hl|by constructor|by constructor|by constructor|]. intros rel sum'. rewrite elem_of_cons, Hin. split.
  - intros [[= -> ->]|(k2 & e2 & ? & ? & ?)]; [exists k, e; split_and!; [by left|done..]|exists k2, e2; split_and!; [by right|done..]].
  - intros (k2 & e2 & [[= -> ->]|H2]%elem_of_cons & H4 & ->); [|right; exists k2, e2; by split_and!]. left. by rewrite (served_sum _ _ _ _ _ _ _ Hserved H4).
Qed.

(** C40: from an upload to a mirror: a mirror that fetches an index that a generation has
    written, signed or not, reads it without an error, if the repository holds fewer than
    2^16 objects and the text of the index is less than 64 MiB, limits of the reader which
    the generator does not keep by itself; no record is refused, whatever the package
    holds. The mirror lists once each of the packages that are in the directory of the
    architecture they name, this one or that for all, and nothing else; and it knows as
    the checksum of each the digest in the index, which is that of the control section
    ([control_section_Ok]). *)
Theorem mirror_of_generated_apk repo remote arch s db m m' (a : Adapter D) :
  let prefix := RepoPrefix repo in let after := GenerateIndexes read tar_file gzip sha1 rsa ctx_Err repo s in
  after.1 = None → contents after.2 !! index_key prefix arch = Some db → (∃ k sum, served prefix (contents s) [arch] k sum) →
  parseApkInclude (rm_Include remote) = Ok [arch] →
  (∀ k b, contents s !! k = Some b → ValidateKey k = None ∧ len b <= max_int64) → Z.of_nat (size (contents s)) < 2 ^ 16 → (∀ text, build text = Ok db → len text < 2 ^ 26) →
  Fetch ("/apk/" +:+ rm_Name remote +:+ "/" +:+ arch +:+ "/APKINDEX.tar.gz") m = (Ok (db, None), m') →
  ∃ paths a', Enumerate Fetch gunzip_body reads untar remote (m, a) = (Ok paths, (m', a')) ∧ NoDup paths ∧
    (∀ p, p ∈ paths ↔ ∃ k sum, served prefix (contents s) [arch; archNoarch] k sum ∧ p = "/" +:+ trim_prefix k (prefix +:+ "/")) ∧
    ∀ k sum, served prefix (contents s) [arch; archNoarch] k sum →
      sums_lookup (rm_ID remote) ("/" +:+ trim_prefix k (prefix +:+ "/")) a' = Some (mk_Checksum "sha1" (hex_encode sum)).
Proof.
  intros prefix after Hn Hdb [k0 [sum0 Hown]] Hi Hs Hsize Htext Hf.
  destruct (apk_generation_run read tar_file gzip sha1 rsa ctx_Err repo s) as [[_ Hn']|(keys & entries & s0 & Hnd & _ & Hkeys & Hall & Hc & Heq)]; [by destruct Hn'|]. fold prefix after in Heq, Hkeys, Hall. rewrite Heq in Hn, Hdb.
  assert (∀ k archs sum, served prefix (contents s) archs k sum → ∃ e, (k, e) ∈ zip keys entries ∧ listed e = true ∧ en_arch e ∈ archs) as Hserved.
  { intros k archs sum Hsv. assert (k ∈ keys) as Hk by (destruct Hsv as (body & pi & ctx & Hb & Hp & _); apply Hkeys; split; [by exists body|done]).
    apply list_elem_of_lookup in Hk as [i Hk]. destruct (Forall2_lookup_l _ _ _ _ _ Hall Hk) as (e & He & Hd). exists e. split; [|by eapply served_listed].
    apply list_elem_of_lookup. exists i. rewrite lookup_zip_with, Hk. simpl. by rewrite He. }
  assert (entries_of arch entries ≠ []) as Hne.
  { destruct (Hserved k0 [arch] sum0 Hown) as (e & He & Hl & Ha%list_elem_of_singleton). intros H0. assert (e ∈ entries_of arch entries) as Hin; [|rewrite H0 in Hin; by apply elem_of_nil in Hin].
    unfold entries_of. rewrite list_elem_of_In, List.filter_In, <- list_elem_of_In, Hl, Ha, String.eqb_refl. split; [|done]. by apply elem_of_zip_r in He. }
  destruct (apk_write_all_None tar_file gzip sha1 rsa prefix entries s0 arch Hn Hne) as (gz & Hb & Hgz). rewrite Hgz in Hdb. injection Hdb as ->. specialize (Htext _ Hb).
  destruct (selected_pairs _ keys entries arch Hall) as (ps & Hps & Hpin).
  destruct (pairs_read prefix (contents s) arch ps) as (rs & known & Ht & Hlrs & Hrs & Hread & Hknown & Hin).
  { intros k b Hkb. by apply (Hs k b). }
  { intros k e (Hz & Hl & Ha)%Hpin. pose proof (elem_of_zip_l _ _ _ _ Hz) as Hk. apply Hkeys in Hk as [[b Hkb] Hp]. split_and!; [|done|by apply (Hs k b)|done..].
    apply list_elem_of_lookup in Hz as [i Hz]. rewrite lookup_zip_with in Hz. destruct (keys !! i) as [k'|] eqn:Hki; [|done]. simpl in Hz. destruct (entries !! i) as [e'|] eqn:Hei; [|done]. injection Hz as -> ->.
    by apply (Forall2_lookup_lr _ _ _ _ _ _ Hall Hki Hei). }
  rewrite text_for_selected, <- Hps, Ht in Htext, Hb.
  assert (Z.of_nat (length rs) < 2 ^ 16) as Hlen.
  { eapply Z.le_lt_trans; [|exact Hsize]. apply Nat2Z.inj_le. rewrite Hlrs, <- (length_fmap snd ps), Hps. etransitivity; [apply (selected_spec entries arch)|].
    rewrite <- (Forall2_length _ _ _ Hall), <- size_dom, <- (size_list_to_set (C := gset string)) by done. apply subseteq_size. intros k Hk%elem_of_list_to_set. by apply elem_of_dom, Hkeys. }
  pose proof (ParseAPKINDEX_built _ _ Hb Htext) as Hparse. rewrite (written_text_read reads rs reads_all Hrs Hlen Htext) in Hparse.
  destruct (add_paths ((λ kv : string * string, "/" +:+ kv.1) <$> known) ∅ []) as [Hndp Hinp]; [set_solver|constructor|].
  unfold Enumerate. rewrite Hi. cbn [enumerateArchs]. unfold enumerateArch, mbind, st_bind. change ("/" +:+ Name +:+ "/" +:+ ?x) with ("/apk/" +:+ x). rewrite Hf. cbn [mret st_ret]. rewrite Hparse.
  rewrite (take_entries _ known Hread Hknown). cbn [app]. destruct (foldl add_path (∅, []) _) as [seen out]. cbn [mret st_ret snd] in *.
  exists out, (sums_replace (rm_ID remote) (foldl learn ∅ known) a). split_and!; [done|done| |].
  - intros p. rewrite Hinp, elem_of_nil, list_elem_of_fmap. split.
    + intros [[]|([rel sum] & -> & Hk)]. apply Hin in Hk as (k & e & _ & Hsv & ->). by exists k, sum.
    + intros (k & sum & Hsv & ->). right. exists (trim_prefix k (prefix +:+ "/"), sum). split; [done|]. apply Hin. destruct (Hserved k _ sum Hsv) as (e & He & Hl & Ha). exists k, e. split_and!; [by apply Hpin|done|done].
  - intros k sum Hsv. unfold sums_lookup, sums_replace. cbn [ad_sums]. rewrite lookup_insert_eq. cbn [mbind option_bind].
    assert (is_apk prefix k ∧ ValidateKey k = None) as [Hp Hv] by (destruct Hsv as (body & pi & ctx & Hkb & Hp & _); split; [done|by apply (Hs k body)]).
    apply learn_lookup.
    + apply Hin. destruct (Hserved k _ sum Hsv) as (e & He & Hl & Ha). exists k, e. split_and!; [by apply Hpin|done|done].
    + intros sum' (k' & e & _ & Hsv' & Hrel)%Hin. assert (is_apk prefix k' ∧ ValidateKey k' = None) as [Hp' Hv'] by (destruct Hsv' as (body & pi & ctx & Hkb & Hp' & _); split; [done|by apply (Hs k' body)]).
      destruct (rel_path prefix k (proj1 Hp) Hv) as [Hkk _]. destruct (rel_path prefix k' (proj1 Hp') Hv') as [Hkk' _]. assert (k' = k) as -> by (rewrite Hkk, Hkk'; by rewrite Hrel). by eapply served_sum.
Qed.
End mirrored.
