(* ===== verification/ApkDemo.v ===== *)
(** A concrete personal apk repository, generated and mirrored: the theorems of ApkRepo
    at concrete decoders; what a mirror takes for the checksum of a package; and what
    becomes of the index of an architecture whose last package is deleted. *)
From S2P Require Import Prelude GoStr Domain Port RepoWrites CacheEngine Adapter XbpsIndex XbpsPackage XbpsRepo AptStanza PacmanDb PacmanRepo StorageGC ApkPackage ApkIndex ApkRepo.
Local Open Scope Z_scope.

(** * A codec in the place of gzip

    A member: its magic, every byte after a one, and a zero. *)
Fixpoint marked (s : string) : string := match s with "" => "0" | String c s => String "1" (String c (marked s)) end.
Fixpoint unmarked (s : string) : option (string * string) :=
  match s with
  | String "0" rest => Some ("", rest)
  | String "1" (String c s) => match unmarked s with Some (d, rest) => Some (String c d, rest) | None => None end
  | _ => None
  end.
Definition gzip (raw : string) : res string := Ok (gzipPrefix +:+ marked raw).
Fixpoint members_from (fuel : nat) (s : string) : option (list string) :=
  match fuel, strip_prefix gzipPrefix s with
  | S fuel, Some s => match unmarked s with Some (d, rest) => match members_from fuel rest with Some ds => Some (d :: ds) | None => None end | None => None end
  | _, _ => if String.eqb s "" then Some [] else None
  end.
Definition members_of (s : string) : option (list string) := members_from (S (String.length s)) s.
Lemma unmarked_marked s rest : unmarked (marked s +:+ rest) = Some (s, rest).
Proof. induction s as [|c s IH]; [done|]. cbn [marked]. rewrite !app_cons. cbn [unmarked]. by rewrite IH. Qed.
Lemma members_of_concat raws zs : Forall2 (λ raw z, gzip raw = Ok z) raws zs → members_of (String.concat "" zs) = Some raws.
Proof.
  intros Hall. unfold members_of. assert (∀ fuel, (String.length (String.concat "" zs) < fuel)%nat → members_from fuel (String.concat "" zs) = Some raws) as Hgo; [|apply Hgo; lia].
  induction Hall as [|raw z raws zs [= <-] _ IH]; intros fuel Hf; [by destruct fuel|]. rewrite concat_empty_cons, <- app_assoc in *. destruct fuel as [|fuel]; [lia|]. cbn [members_from].
  rewrite (proj2 (strip_prefix_Some gzipPrefix _ _) eq_refl), unmarked_marked. rewrite IH; [done|]. rewrite !length_app_str in Hf. change (String.length gzipPrefix) with 2%nat in Hf. lia.
Qed.
Definition gunzip_body (b : string * option error) : res stream := match members_of b.1 with Some ds => Ok ([String.concat "" ds], b.2) | None => Err (Text "gzip") end.
Definition gzip_members (b : string) : list (string * stream) * option error :=
  match members_of b with Some ds => ((λ d, (gzipPrefix +:+ marked d, ([d], None))) <$> ds, None) | None => ([], Some (Text "gzip")) end.
Lemma gzip_concat raws zs : Forall2 (λ raw z, gzip raw = Ok z) raws zs → raws ≠ [] →
  ∃ chunks, gunzip_body (String.concat "" zs, None) = Ok (chunks, None) ∧ String.concat "" chunks = String.concat "" raws.
Proof. intros Hall _. exists [String.concat "" raws]. unfold gunzip_body. cbn [fst snd]. by rewrite (members_of_concat raws zs Hall). Qed.

(** * A codec in the place of tar

    A header of one block: the name and the size, each with a zero after it. *)
Definition nul : ascii := byte 0.
Definition header_text (name : string) (n : Z) : string := name +:+ String nul (fmt_int n +:+ String nul "").
Definition header (name : string) (n : Z) : string := header_text name n +:+ zeros (512 - String.length (header_text name n)).
Definition file_bytes (name content : string) : string := header name (len content) +:+ content +:+ zeros (Z.to_nat (paddedTarSize (len content) - len content)).
Definition tar_file (name content : string) : res string :=
  if String.eqb name "" || negb (no_sep nul name) || (512 <? len (header_text name (len content))) || (2 ^ 40 <? len content) then Err (Text "tar")
  else Ok (file_bytes name content +:+ zeros 1024).
Fixpoint take_n (n : nat) (s : string) : string := match n, s with S n, String c s => String c (take_n n s) | _, _ => "" end.
Fixpoint drop_n (n : nat) (s : string) : string := match n, s with S n, String _ s => drop_n n s | _, s => s end.
Fixpoint files_from (fuel : nat) (s : string) : list member :=
  match fuel with
  | O => []
  | S fuel =>
      let '(name, rest, _) := cut nul s in
      if String.eqb name "" then []
      else
        let '(digits, _, _) := cut nul rest in let n := default 0 (parse_int digits) in
        mk_member true name n (take_n (Z.to_nat n) (drop_n 512 s), None) :: files_from fuel (drop_n (Z.to_nat (512 + paddedTarSize n)) s)
  end.
Definition untar (s : stream) : list member * option error := let b := String.concat "" s.1 in (files_from (S (String.length b)) b, s.2).
Lemma take_drop_app a b : take_n (String.length a) (a +:+ b) = a ∧ drop_n (String.length a) (a +:+ b) = b.
Proof. induction a as [|c a [IH1 IH2]]; [by destruct b|]. cbn [String.length take_n drop_n]. rewrite app_cons. cbn [take_n drop_n]. by rewrite IH1, IH2. Qed.
Lemma paddedTarSize_ge n : 0 <= n → n <= paddedTarSize n.
Proof. intros Hn. unfold paddedTarSize, tarHeaderSize. destruct (Z.eqb_spec n 0); [lia|]. pose proof (Z.div_mod (n + 512 - 1) 512). pose proof (Z.mod_pos_bound (n + 512 - 1) 512). lia. Qed.
Lemma tar_entry_bytes name content raw : tarEntryBytes tar_file name content = Ok raw → raw = file_bytes name content ∧ name ≠ "" ∧ no_sep nul name = true ∧ String.length (header name (len content)) = 512%nat ∧
  len content <= 2 ^ 40 ∧ Z.of_nat (String.length raw) = 512 + paddedTarSize (len content).
Proof.
  unfold tarEntryBytes, tar_file. destruct (_ || _) eqn:Hc; [done|]. rewrite !orb_false_iff in Hc. destruct Hc as [[[H1%String.eqb_neq H2%negb_false_iff] H3%Z.ltb_ge] H4%Z.ltb_ge].
  assert (String.length (header name (len content)) = 512%nat) as Hh.
  { unfold header. rewrite length_app_str. pose proof (zeros_len (512 - String.length (header_text name (len content)))). unfold len in *. lia. }
  assert (len (file_bytes name content) = 512 + paddedTarSize (len content)) as Hl.
  { unfold file_bytes. rewrite !len_app, zeros_len. pose proof (paddedTarSize_ge _ (len_nonneg content)). unfold len at 1. lia. }
  cbv zeta. unfold tarHeaderSize. destruct (negb _); [done|]. assert (substr 0 (512 + paddedTarSize (len content)) (file_bytes name content +:+ zeros 1024) = file_bytes name content) as ->.
  { rewrite <- Hl. unfold substr, len. rewrite Nat2Z.id. apply substring_prefix. }
  intros [= <-]. by split_and!.
Qed.
Lemma files_from_step name content rest fuel : name ≠ "" → no_sep nul name = true → String.length (header name (len content)) = 512%nat → len content <= 2 ^ 40 →
  files_from (S fuel) (file_bytes name content +:+ rest) = mk_member true name (len content) (content, None) :: files_from fuel rest.
Proof.
  intros Hne Hs Hh Hl. pose proof (len_nonneg content) as H0. cbn [files_from].
  assert (∃ t, file_bytes name content +:+ rest = name +:+ String nul (fmt_int (len content) +:+ String nul t)) as [t Ht].
  { unfold file_bytes, header, header_text. eexists. rewrite <- !app_assoc, !app_cons, <- !app_assoc, !app_cons. reflexivity. }
  rewrite Ht at 1. rewrite cut_app by exact Hs. rewrite (proj2 (String.eqb_neq name "") Hne).
  assert (in_int64 (len content)) as Hi by (unfold in_int64, min_int64, max_int64; lia).
  rewrite cut_app. 2: { eapply all_bytes_impl; [|exact (proj1 (proj2 (fmt_int_nonneg _ H0)))]. intros c Hc. by destruct (Ascii.eqb_spec nul c) as [<-|]. }
  rewrite parse_int_fmt by exact Hi. change (default 0 (Some (len content))) with (len content).
  assert (drop_n 512 (file_bytes name content +:+ rest) = content +:+ (zeros (Z.to_nat (paddedTarSize (len content) - len content)) +:+ rest)) as ->.
  { rewrite <- Hh. unfold file_bytes. rewrite <- !app_assoc. apply take_drop_app. }
  assert (Z.to_nat (512 + paddedTarSize (len content)) = String.length (file_bytes name content)) as ->.
  { unfold file_bytes. rewrite !length_app_str, Hh. pose proof (zeros_len (Z.to_nat (paddedTarSize (len content) - len content))). pose proof (paddedTarSize_ge _ H0). unfold len in *. lia. }
  rewrite (proj2 (take_drop_app _ rest)). unfold len at 2. rewrite Nat2Z.id, (proj1 (take_drop_app content _)). done.
Qed.
Lemma tar_reads files raws chunks : Forall2 (λ f raw, tarEntryBytes tar_file f.1 f.2 = Ok raw) files raws →
  String.concat "" chunks = String.concat "" raws +:+ zeros 1024 → untar (chunks, None) = ((λ f, mk_member true f.1 (len f.2) (f.2, None)) <$> files, None).
Proof.
  intros Hall Hc. unfold untar. cbn [fst snd]. rewrite Hc. f_equal.
  assert (∀ fuel, (String.length (String.concat "" raws) < fuel)%nat → files_from fuel (String.concat "" raws +:+ zeros 1024) = (λ f, mk_member true f.1 (len f.2) (f.2, None)) <$> files) as Hgo.
  { clear Hc. induction Hall as [|[name content] raw files raws Hf _ IH]; intros fuel Hfuel; [by destruct fuel|]. cbn [fst snd] in Hf. apply tar_entry_bytes in Hf as (-> & Hne & Hs & Hh & Hl & Hlen).
    rewrite concat_empty_cons, <- app_assoc in *. rewrite length_app_str in Hfuel. destruct fuel as [|fuel]; [lia|]. rewrite files_from_step by done. rewrite fmap_cons. cbn [fst snd]. f_equal. apply IH.
    pose proof (paddedTarSize_ge _ (len_nonneg content)). pose proof (len_nonneg content). lia. }
  apply Hgo. rewrite length_app_str. lia.
Qed.

(** * The repository *)
Definition digest (b : string) : string := String.substring 0 20 (fmt_int (len b) +:+ String.rev b +:+ "00112233445566778899").
Lemma apk_digest_length b : String.length (digest b) = 20%nat.
Proof.
  unfold digest. pose proof (substr_len 0 20 (fmt_int (len b) +:+ String.rev b +:+ "00112233445566778899")) as Hs. unfold substr, len in Hs. rewrite !length_app_str in Hs.
  change (String.length "00112233445566778899") with 20%nat in Hs. change (Z.to_nat 0) with 0%nat in Hs. change (Z.to_nat 20) with 20%nat in Hs. unfold len. lia.
Qed.
Definition member_text (name content : string) : string := match tarEntryBytes tar_file name content with Ok raw => gzipPrefix +:+ marked raw | Err _ => "" end.
Definition control (name ver arch : string) : string := member_text ".PKGINFO" (text_of ["pkgname = " +:+ name; "pkgver = " +:+ ver; "arch = " +:+ arch; "depend = so:libc"]).
(** A signed package: its signature, its control section, its files. *)
Definition package (name ver arch : string) : string := member_text ".SIGN.RSA.k" "sig" +:+ control name ver arch +:+ member_text "usr/bin/x" "x".
Definition store : FakeStorage := mk_FakeStorage (<["repo/7/apk/x86_64/a-1-r0.apk" := (package "a" "1-r0" "x86_64", 1)]> (<["repo/7/apk/noarch/b-2-r0.apk" := (package "b" "2-r0" "noarch", 2)]>
  (<["repo/7/apk/x86_64/c-1-r0.apk" := (package "c" "1-r0" "aarch64", 3)]> (<["repo/8/apk/x86_64/a-1-r0.apk" := ("x", 3)]> ∅)))) 4.
Definition repo : Repo := mk_Repo 7 1 "mine" "apk" (mk_Quota 0 0) (mk_Retention 0 0) 0.
Definition sign (d : string) : res string := Ok (digest ("key" +:+ d)).
Lemma sign_short (s : string → res string) d sig : Some sign = Some s → s d = Ok sig → len sig < 2 ^ 26.
Proof. intros [= <-] [= <-]. unfold len. by rewrite apk_digest_length. Qed.
Lemma build_len rsa text db : buildIndex tar_file gzip digest rsa text = Ok db → len text <= len db.
Proof.
  unfold buildIndex, buildAPKINDEXTarGz. destruct (tarEntryBytes tar_file "APKINDEX" text) as [raw|] eqn:Hr; [|done]. apply tar_entry_bytes in Hr as (-> & _).
  assert (∀ s, len s <= len (marked s)) as Hm.
  { unfold len. induction s as [|c s IH]; [by vm_compute|]. cbn [marked String.length]. lia. }
  assert (len text <= len (gzipPrefix +:+ marked (file_bytes "APKINDEX" text +:+ zeros 1024))) as Hlen.
  { rewrite len_app. pose proof (Hm (file_bytes "APKINDEX" text +:+ zeros 1024)) as H1. unfold file_bytes in *. rewrite !len_app in H1. change (len gzipPrefix) with 2.
    pose proof (len_nonneg (header "APKINDEX" (len text))). pose proof (len_nonneg (zeros 1024)). pose proof (len_nonneg (zeros (Z.to_nat (paddedTarSize (len text) - len text)))). lia. }
  unfold gzip at 1. revert Hlen. generalize (gzipPrefix +:+ marked (file_bytes "APKINDEX" text +:+ zeros 1024)) as body. intros body Hlen. destruct rsa as [s|]; [|by intros [= <-]]. destruct (s _) as [sig|]; [|done]. destruct (buildSignatureTarGz _ _ sig) as [head|]; [|done]. intros [= <-].
  rewrite len_app. pose proof (len_nonneg head). lia.
Qed.
Definition read := read_package (λ _, Err (Text "zstd")) (λ b, gunzip_body (b, None)) gzip_members (λ b, [b]) untar digest.
Definition generate := GenerateIndexes (S := FakeStorage) read tar_file gzip digest (Some sign) (λ _ _ _, None) repo.
Definition after : FakeStorage := (generate store).2.
Lemma apk_generated_ok : (generate store).1 = None.
Proof. vm_compute. reflexivity. Qed.
Example apk_after_keys : sorted_keys (objects after) = ["repo/7/apk/noarch/apkindex.tar.gz"; "repo/7/apk/noarch/b-2-r0.apk"; "repo/7/apk/x86_64/a-1-r0.apk"; "repo/7/apk/x86_64/apkindex.tar.gz";
  "repo/7/apk/x86_64/c-1-r0.apk"; "repo/8/apk/x86_64/a-1-r0.apk"].
Proof. vm_compute. reflexivity. Qed.
Lemma apk_index_is_faithful_witness : ∃ (keys : list string) (entries : list indexEntry), (∀ k, k ∈ keys ↔ is_Some (contents store !! k) ∧ is_apk "repo/7/apk" k) ∧
  Forall2 (apk_describes read "repo/7/apk" (contents store)) keys entries.
Proof.
  destruct (apk_index_is_faithful (S := FakeStorage) read tar_file gzip digest (Some sign) (λ _ _ _, None) repo store) as [_ Hok].
  destruct (Hok apk_generated_ok) as (keys & entries & _ & _ & Hk & Hall & _). exists keys, entries. split; [exact Hk|exact Hall].
Defined.
(** The last package for x86_64 is deleted, and the indexes are generated again without
    an error: the index for x86_64 still has the package. *)
Definition deleted : FakeStorage := (fake_Delete "repo/7/apk/x86_64/a-1-r0.apk" after).2.
Lemma index_of_nothing_stays : (generate deleted).1 = None ∧ contents (generate deleted).2 !! "repo/7/apk/x86_64/a-1-r0.apk" = None ∧
  contents (generate deleted).2 !! "repo/7/apk/x86_64/apkindex.tar.gz" = contents after !! "repo/7/apk/x86_64/apkindex.tar.gz" ∧
  is_Some (contents after !! "repo/7/apk/x86_64/apkindex.tar.gz").
Proof. split_and!; [vm_compute; reflexivity..|eexists; vm_compute; reflexivity]. Qed.

(** * A mirror *)
Definition upstream : Remote := mk_Remote 3 "mine" "apk" "https://example.org" ModeProxy true 0 ["x86_64"] "" None 0.
Definition the_index : string := default "" (contents after !! index_key (RepoPrefix repo) "x86_64").
Definition Fetch (path : string) : St unit (res (string * option error)) :=
  mret (if String.eqb path "/apk/mine/x86_64/APKINDEX.tar.gz" then Ok (the_index, None) else Err (NotFoundError "object" path)).
Definition mirror : Adapter unit := mk_Adapter tt 0 ∅ 0 ∅.
Definition enumerated := Enumerate (M := unit) (D := unit) Fetch gunzip_body (λ b, [b]) untar upstream (tt, mirror).
(** The mirror takes the digest in the index, of the control section, for the checksum
    of the package: the bytes of the package do not have it. *)
Lemma checksum_of_a_part : enumerated.1 = Ok ["/x86_64/a-1-r0.apk"; "/noarch/b-2-r0.apk"] ∧
  sums_lookup 3 "/x86_64/a-1-r0.apk" enumerated.2.2 = Some (mk_Checksum "sha1" (hex_encode (digest (control "a" "1-r0" "x86_64")))) ∧
  digest (control "a" "1-r0" "x86_64") ≠ digest (package "a" "1-r0" "x86_64").
Proof. split_and!; [vm_compute; reflexivity..|vm_compute; discriminate]. Qed.
Lemma served_a : ∃ k sum, served (λ _, Err (Text "zstd")) (λ b, gunzip_body (b, None)) gzip_members (λ b, [b]) untar digest (RepoPrefix repo) (contents store) ["x86_64"] k sum.
Proof.
  exists "repo/7/apk/x86_64/a-1-r0.apk", (digest (control "a" "1-r0" "x86_64")), (package "a" "1-r0" "x86_64"), (mk_PkgInfo "a" "1-r0" "" "" "x86_64" "" "" 0 0 [] ["so:libc"] [] []), (λ _ _, None).
  split_and!; [vm_compute; reflexivity|split; vm_compute; reflexivity|vm_compute; reflexivity|vm_compute; discriminate|by left|vm_compute; reflexivity].
Qed.
Lemma mirror_of_generated_apk_witness : ∃ (paths : list string) a', enumerated = (Ok paths, (tt, a')) ∧ NoDup paths.
Proof.
  destruct (mirror_of_generated_apk (S := FakeStorage) (M := unit) (D := unit) (λ _, Err (Text "zstd")) (λ b, gunzip_body (b, None)) gzip_members (λ b, [b]) untar tar_file gzip digest (Some sign) (λ _ _ _, None)
    Fetch gunzip_body apk_digest_length (λ b, eq_refl) sign_short gzip_concat tar_reads repo upstream "x86_64" store the_index tt tt mirror) as (paths & a' & He & Hnd & _).
  - exact apk_generated_ok.
  - vm_compute. reflexivity.
  - exact served_a.
  - reflexivity.
  - assert (map_Forall (λ k b, ValidateKey k = None ∧ len b <= max_int64) (contents store)) as Hall; [|exact Hall]. apply (bool_decide_unpack _). vm_compute. exact I.
  - vm_compute. reflexivity.
  - intros text Hb. apply build_len in Hb. assert (len the_index < 2 ^ 26) as Hd by (vm_compute; reflexivity). lia.
  - reflexivity.
  - exists paths, a'. split; [exact He|exact Hnd].
Defined.
